(* ===== verification/_CoqProject ===== *)
-Q . S2P
Prelude.v
RuntimeTypes.v
Durable.v
RunControl.v
AttemptRegistry.v
MemoryControl.v
IpAddr.v
AgentControl.v
Capability.v
OverlayNet.v
Bandwidth.v
Scheduler.v
Json.v
JsonLines.v
Events.v
TurnMachine.v
Capture.v
Wal.v
CaptureRuntime.v
Tasks.v
Effects.v
Sink.v
Coordination.v
Heartbeat.v
OverlayFs.v
OverlayCore.v
OverlayView.v
OverlaySteps.v
OverlayShape.v
OverlayCopy.v
OverlayEdit.v
OverlayMove.v
OverlayExchange.v
OverlayDepth.v
OverlaySpec.v
OverlayJournal.v
OverlayTheorems.v
OverlayApply.v
OverlayMerge.v
OverlayPublish.v
OverlayApplied.v
OverlayPlan.v
OverlayPrune.v
OverlayTransfer.v
OverlayChanges.v
OverlayCommit.v
OverlayRecovery.v
OverlayAttempts.v
OverlayEnds.v
OverlayApplyTheorems.v
EventManifest.v
EventLog.v
EventLogInvariant.v
EventLogSteps.v
EventLogTheorems.v
AppendQueue.v
SessionRoute.v
SubagentLinks.v
Llm.v
TypedStream.v
StreamChunks.v
StreamText.v
Understanding.v
Conversion.v
ConversionText.v
GeminiSchema.v
GeminiRequest.v
Bridge.v
