(* ===== verification/Prelude.v ===== *)
(** * Persisting: a verification library

    Persisting runs agents, records what they do and controls what they may
    reach.  This library models the parts of it whose correctness is a matter
    of logic rather than of I/O, as executable definitions over the data the
    Rust code has, and proves what those parts promise.  Paths below are
    relative to [src/crates/].

    ** The parts and how they interact

    A Run is executed by attempts.  Several owners may want to execute one
    Run: each acquires a lease with a fencing epoch from the Run control store,
    binds its attempt to it, renews it, and finally commits; the first commit
    under the current epoch is the Run's only visible result
    ([persisting-pchronicle/src/store/run_control.rs]).  Attempts publish their
    liveness and their terminal result in the attempt registry
    ([store/attempt_registry.rs]).  Both keep one JSON record per Run, on a
    local directory under a file lock or in an object store by compare and
    swap, and both are also offered in memory behind one trait
    ([persisting-events/src/control.rs]).  While an attempt runs, every network
    connection and every model call asks the agent control policy
    ([persisting-agentctl/src/lib.rs]); OverlayNet compiles that policy from
    its configuration, checks names again after resolution and throttles the
    connections it admits ([persisting-overlaynet/src/]).  pPilot dispatches
    tasks onto worker slots, at most once per task id, journals each result
    before it commits the Run, appends only winners to its sink and reconciles
    what a crash left behind ([persisting-ppilot/src/]).  The gateway records
    the traffic as events ([persisting-events/src/lib.rs]), redacts them,
    writes them to a log before it applies them, and indexes them into dialogue
    turns ([persisting-gateway/src/]).  The agent's files are an overlay: lower
    layers that are only read, one upper directory that takes every change,
    and a journal of what the changed paths were
    ([persisting-overlay-core/src/]).  When the Run is over, pVisor applies the
    changes to the lowest layer, all or a selection, as a transaction that a
    ledger makes recoverable, or drops them
    ([persisting-pvisor/src/runtime/overlay.rs]).  pChronicle keeps the events of
    a Run as an append-only log: Lance segments that only their writer grows,
    and a manifest that says which versions of them readers see
    ([persisting-pchronicle/src/store/events/]); capture callbacks reach its
    appender through a bounded queue and a worker thread
    ([persisting-pchronicle/src/append_queue.rs]).

    ** Files

    - [Prelude]: the result monad ([let?] for Rust's [?]), fixed-width
      integers as [Z] with their bounds and checked or saturating operations,
      the string functions of the standard library the code uses, with
      specifications, finite checking of a statement below a bound, the
      [rust] hint databases and the tactics [inv_result], [guards],
      [branches].
    - [RuntimeTypes]: the shared records of [agentctl/src/runtime.rs] (Run
      states, leases, commits, control records).
    - [Durable]: [mutate] of both stores, generic in the record and in the
      closure that decides.  The object store is the class [ObjectStore] (get
      with a version, put if absent or if the version is unchanged, faults
      that may or may not have taken effect), the serializer the class
      [Codec].  [cas_step]/[cas_exec] run any number of callers against the
      store one request at a time; [local_step]/[local_exec] run them against
      the directory, with lock, temporary file and rename as separate steps.
      [mutate_object] and [mutate_local] are the same code as functions.
    - [RunControl]: the closures of [acquire_lease], [takeover_lease],
      [bind_attempt], [renew_lease] and [commit_run], their argument checks,
      the record locations, [get] and the local [list].
    - [AttemptRegistry]: [publish_active], [heartbeat], [publish_terminal],
      [get], on the same two backends.
    - [MemoryControl]: [MemoryChronicleControl], and the class [RunAuthority]
      of what a client relies on, with the store and the memory
      implementations as its instances.
    - [IpAddr]: addresses, the standard library's parser and printer, and the
      classification [is_public_egress_ip].
    - [AgentControl]: rules, their parsing and matching, [NetworkGuard], the
      network and model verdicts with their reasons, and [ControlMachine].
    - [Capability]: enforcement evidence and the dimensions a capability set
      requires ([agentctl/src/runtime.rs]).
    - [OverlayNet]: [policy.rs] (compilation, [preflight], [authorize] with an
      injected controller, bandwidth limits of a connection), [resolver.rs]
      (the resolved addresses are authorized again), the CONNECT authority of
      [forward.rs] and [server.rs].
    - [Bandwidth]: [bandwidth.rs] (buckets behind handles into a shared store,
      registry, throttle) and [egress.rs].
    - [Scheduler]: [ppilot/src/scheduler.rs] at the granularity of its atomic
      operations; a world of threads, each at a program point [Pc].
    - [Json], [JsonLines], [Events]: JSON values, lines of JSON in the bytes of
      a file (complete, torn or not UTF-8), and the event envelope.
    - [TurnMachine]: the turn index of a story with the part of
      [gateway/src/record.rs] and [protocol.rs] it reads.
    - [Capture]: captured calls and events, the redaction of headers, bodies
      and URLs, and the rows the log and the dead letters store
      ([gateway/src/sink.rs], [dead_letter.rs], [engine/story/]).
    - [Wal]: the lines of [engine/wal.rs], replay, sequence numbers, opening.
    - [CaptureRuntime]: the group-commit thread, the per-story apply queues,
      their callers and consumers, replay, shutdown and crash as one step
      relation ([engine/wal.rs], [apply_queue.rs], [coordinator.rs]).
    - [Tasks]: [task.rs], [skip.rs] and [result_cache.rs] of pPilot.
    - [Effects]: the monad of code that changes a durable world.  Each effect
      consumes an environment that says what others did before it and whether
      it answered, failed or lost its answer; without an environment the
      process dies.  Crash triples give a postcondition to each way of ending.
    - [Sink]: [sink.rs] and [checkpoint.rs] of pPilot in that monad.
    - [Coordination], [Heartbeat]: [coordination.rs] and the part of
      [executor.rs] that renews leases, over the control plane of
      [MemoryControl].
    - [OverlayFs]: nodes, inodes, directory entries, the system calls, and the
      lower layers as their answers (class [LayerLaws]).  [OverlayCore]: every
      function of [overlay-core/src/core.rs].  [OverlayView]: what a path shows,
      and that listings agree with it.  [OverlaySteps], [OverlayShape]: what a
      system call does to the summary of the upper directory, and the view as a
      function of that summary.  [OverlayCopy], [OverlayEdit], [OverlayMove],
      [OverlayExchange]: a crash triple per operation.  [OverlayDepth]: the
      recursions.  [OverlayJournal]: the preimages.  [OverlaySpec]: the tree the
      overlay implements, its operations and refusals.  [OverlayTheorems]: the
      properties, with an overlay they are exercised on.
    - [OverlayApply]: the change set, selections, plans, and the walks that
      publish the upper directory to the target and prune it.  [OverlayCommit]:
      the transaction over a [Stage] (directories, ledger, record), recovery and
      discard.  [OverlayMerge]: the tree the upper directory shows over the
      target, and which paths of the target it does not read.  [OverlayPublish],
      [OverlayApplied]: a crash triple per step of publishing, with its
      footprint in the target.  [OverlayPrune]: the same for pruning.
      [OverlayPlan], [OverlayChanges]: plans as closures, and the change set as a
      reading of the upper directory.  [OverlayTransfer]: the phases of an
      application.  [OverlayRecovery]: the invariant of a stage that any
      interrupted application leaves and the next one starts from.
      [OverlayAttempts]: applications in a row, refusals, discards.
      [OverlayEnds]: the recursions.  [OverlayApplyTheorems]: the properties,
      with a stage they are exercised on.
    - [EventManifest]: [store/events/manifest.rs], the four operations on the
      manifest, their validation, and [mutate_with_mode] over the two backends
      of [Durable].  [EventLog]: the appender, compactor and maintainer of
      [store/events/mod.rs] cut at their effects, the step relation [log_step]
      of all of them on one root, and replay; Lance is the class [LanceStore].
      [EventLogInvariant], [EventLogSteps]: what they keep true, a lemma per
      rule.  [EventLogTheorems]: the properties, a Lance store made of
      snapshots and a run of it.
    - [SessionRoute]: the session of a request from its headers
      ([gateway/src/session/chain.rs], [storage.rs]) and the file it is captured
      in ([agenticmd/layout.rs]).  [SubagentLinks]: [gateway/src/subagent_link/],
      the registry that links the calls of a main agent to its subagents, and
      [enrich_record].
    - [Llm]: requests, responses and stream events whatever the protocol
      ([pchronicle/src/formats/llm.rs]).
    - [TypedStream]: [gateway/src/conversion/typed_stream.rs], a provider's stream
      cut into frames, decoded into events, accumulated for the capture and
      rendered in the client's protocol, with the token usage of [usage.rs].
      [StreamChunks]: what decoding does and depends on, and chunks as one.
      [StreamText]: the grammar of a Messages stream, and the text of a stream
      from its bytes.
    - [Understanding]: [gateway/src/understanding.rs], the parsers of requests and
      responses of four protocols.  [Conversion]: the renderers of
      [conversion/semantic.rs] and the reasoning cache of [gateway/reasoning.rs].
      [ConversionText]: what a rendered request carries.  [GeminiSchema]:
      [normalize_gemini_schema] of [conversion/gemini_native.rs].  [GeminiRequest]:
      requests for Gemini, and what they read back as.  [Bridge]: the
      routes and bridges of [conversion/mod.rs], and what a translated response
      reads back as.
    - [AppendQueue]: [append_queue.rs], its senders, its worker and [finish] as
      threads that take one atomic operation at a time ([q_step]); [take_turns]
      runs a schedule of them.

    ** What the theorems show

    - One winner.  Every execution of concurrent callers on either backend
      linearizes: the answers are those of some sequence of atomic closure
      applications ([object_backend_linearizable],
      [local_backend_linearizable]).  So at most one caller is told that it
      committed a Run ([object_single_winner], [local_single_winner]), an
      older epoch cannot win after a newer lease was granted
      ([object_fencing]), an epoch has one owner, a live lease is respected,
      records stay well formed, and a compare-and-swap loop that loses fewer
      than [CAS_RETRIES] = 32 races answers ([mutate_object_no_livelock]).
      The registry is fenced the same way ([attempt_epoch_fences]) and a
      terminal record is never replaced in its epoch
      ([attempt_terminal_immutable]).  The memory implementation answers as
      the store does ([memory_control_refines_store],
      [memory_attempts_refine_registry]).
    - Egress.  The classification is membership in address blocks
      ([public_egress_by_blocks]); the verdict is a reference policy, with a
      reason that names the failing dimension ([denial_reason_precise]); no
      rule without the private opt-in admits a private address
      ([no_private_egress]).  OverlayNet's compiled configuration decides as
      configured ([config_decision]), an injected controller only narrows it
      ([controller_only_narrows]), and every address a connection may use was
      itself authorized ([resolved_target_sound], [allowlist_targets_public]).
      A bucket admits no more than its rate over any history
      ([bucket_rate_bound]).
    - Control.  Requests are decided once and settled once
      ([control_settles_once]); requested dimensions without evidence are
      reported ([enforcement_fails_closed]).
    - Dispatch.  No interleaving exceeds a slot's capacity
      ([slot_capacity_respected]); alone, a caller gets the least loaded slot
      ([acquire_least_loaded]); a caller can miss its wakeup
      ([acquire_can_sleep_forever]); a task id is claimed once
      ([skip_claims_once]); the cache answers the last kept result
      ([result_cache_sound]).
    - Results.  The sink's bytes come only from results that won their Run
      ([sink_holds_only_winners]); after a crash at an effect of finalizing, a
      restart settles the result, unless the crash fell between the commit and
      its record or inside the line ([finalize_crash_recovers],
      [crash_after_commit_loses_result], [crash_inside_append_glues_result]);
      the reconciler settles the journal and never retries a committed task
      ([reconcile_settles_journal], [reconcile_never_retries_committed]); what an
      append leaves in the ledgers is known in every outcome, and while no append
      is cut short they are exact ([ledger_exact],
      [torn_append_swallows_the_next_result], [failed_flush_writes_twice]); an
      owner stops before its lease can be taken ([heartbeat_bounds_ownership]).
    - Capture.  An event whose commit was answered is applied or still in the
      log, over any interleaving and crash outside the truncation race
      ([no_committed_event_lost], [truncation_race_loses_event]); replay returns
      exactly the unacknowledged events ([replay_exact]); rows of the log read
      back as written ([wal_row_roundtrip]) and, like the letters of rejected
      events, hold no credentials in the fields that are redacted
      ([rows_carry_no_credentials]), unlike the letters of failed applications
      ([letter_of_failed_application_keeps_the_record]); what torn and unreadable lines cost is
      stated ([torn_line_swallows_next], [unreadable_line_reuses_sequence]).
    - Files.  Any mixture of overlay operations that answers does to the shown
      tree what the same operations do to a tree ([operations_refine_tree]); an
      operation the tree does not allow is refused with its error number and
      changes nothing ([refused_operations_change_nothing]); a copy-up is
      invisible at every failure and crash
      ([copy_up_never_changes_what_is_shown]); listing and look-up agree
      ([listing_agrees_with_lookup]); journal records are kept and true
      ([recorded_preimages_are_faithful]); the recursions stop
      ([recursions_stop]).  [OverlayTheorems.OverlayShortfalls] has runs in
      which the code does less than it means to.
    - Applications.  Publishing never changes what the overlay shows over the
      target, wherever it stops ([publishing_is_invisible]).  After any sequence
      of failed or killed applications, one that answers leaves the tree that was
      shown at the beginning, and when it selected everything the target alone is
      that tree ([interrupted_applications_are_finished]).  A target that changed
      is refused and nothing is touched ([changed_target_is_not_overwritten]);
      plans are closed under what must go together and the planning loop ends
      ([plans_are_closed]); a discard spares the target
      ([discard_spares_the_target]); nothing recurses forever
      ([applications_stop]).  [OverlayApplyTheorems.ApplyShortfalls] has the runs
      in which recovery, a discard or a second selection goes wrong.
    - The event log.  What readers see is the sequence of published batches,
      whatever appenders, compactors and maintainers do at the same time
      ([visible_log_is_the_publications]); an acknowledged batch keeps its place
      ([acknowledged_batches_stay]); the holder of the fence is never refused by a
      check ([active_writer_is_not_refused]) and a superseded one always is
      ([superseded_writer_is_stale]); row counts never wrap
      ([manifests_stay_exact]); a replay is a page of the log
      ([replay_pages_the_log]); merging ends ([hierarchy_compaction_stops]).
    - The append queue.  A durable append that was acknowledged is in the log
      ([durable_append_is_in_the_log]); a story's log keeps the order of
      admission, and a successful [finish] leaves no accepted event behind
      ([queue_keeps_admission_order]); once [finish] is called every schedule ends
      with every call returned ([finish_returns]).
    - Subagents.  Spawn links are to registered subagents that fit, once each
      ([spawn_links_are_sound]); none that fits is left out
      ([matching_subagents_are_linked]); records with ASCII prompts are enriched
      without a panic ([ascii_records_are_enriched]); a subagent's file has a name
      of its own that gives its route back ([subagent_file_gives_its_route_back]),
      and no key leads out of the directory ([markdown_filename_is_safe]).
    - Streams.  How the network cuts a provider's stream does not matter
      ([chunking_does_not_matter]); a passthrough route returns every byte as it
      came ([passthrough_is_transparent]); a Messages client gets a stream of its
      protocol's grammar ([messages_stream_is_wellformed]); the text a client reads
      from the bytes sent is the text the provider sent
      ([text_survives_translation]).
    - Requests and responses.  A request as it was understood, rendered for a Chat
      Completions provider, says the same, makes the same calls and gives the same
      results ([rendered_requests_keep_the_conversation]); what understanding it
      loses is stated ([tool_use_input_is_lost],
      [responses_result_answers_no_call]).  One rendered for Gemini is the same
      dialogue turn by turn, with the tool results in the order of their calls
      ([gemini_requests_keep_the_dialogue]); a provider's response, as understood,
      reaches the client with the same answer and the same calls, ids included
      ([translated_responses_keep_the_answer]); every schema is normalised to the
      keys and types Gemini knows ([schema_normalization_restricts]), which is not
      all that Gemini asks ([restriction_is_not_acceptance]).
    - Turns.  The index is well formed after any records ([turn_index_wf]),
      records are stamped with existing turns, and a response joins the turn
      of its request.

    ** Bounds and fuel

    Integers are [Z] with the width's operations written out: revisions and
    epochs are [u64] with [checked_add], times saturate at [u64_max], turn
    numbers wrap at [2 ^ 32] (the turn theorems assume fewer turns), bucket
    arithmetic saturates at [u128_max] and the clock ends at a parameter.
    The object-store loop recurses on its retry count, which is the code's.
    The number printer recurses on a fuel of one per digit of its argument,
    enough because each step divides by the radix.  The overlay's recursions
    over a tree take the height of the layers and of the upper directory as
    fuel, and no operation exhausts it ([recursions_stop], [applications_stop]);
    the planning loop takes one turn more than there are paths to add
    ([plans_are_closed]), the merging loop one turn more than there are segments
    ([hierarchy_compaction_stops]); the frames of a buffer take a fuel of one more
    than its bytes, since each takes at least two ([decode_frames_fuel]).  Inlining
    a schema takes one depth of it per definition and cleaning it one depth
    ([schema_normalization_restricts]).  Queue capacities (256 in the log and the
    apply queues) are the code's constants.  Everything else is structural.

    ** What is assumed

    pPilot's sink makes one call at a time, as its writer task does; a write to a
    ledger is modelled byte by byte, so every place where it can stop is a step.
    The overlay theorems are about directories nobody else changes, opened with
    a work directory, over lower layers whose regular files have one name each and
    whose nodes carry no opaque attribute ([copyable]), and they start from a
    fresh upper directory or from what completed operations left, not from a
    death inside one ([Ready]); the shortfalls show why.  The counter of
    temporary names stays below [2 ^ 64].  A failing system call answers any
    error number, except that it does not deny an existing file.  The times the
    kernel sets by itself are not modelled, and where a symbolic link inside a
    path leads is the parameter [beyond].  The application theorems start from
    an upper directory in the shape the overlay's operations leave ([Appliable],
    which [appliable] decides), kept as a directory, and speak of names other than
    the temporary ones of an application; that an application is finished is shown
    for names that are UTF-8, since others are not printed as they are
    ([printable], [names_that_are_no_text_stay]); glob matching is a parameter.  The event log's theorems
    assume of Lance that versions are immutable, that a scan keeps their order
    and that nobody deletes them, of [uuid] that it repeats no name, and that two
    appenders at work have different writer ids.  The append queue's worker
    neither panics nor fails to start, and a thread that waits for [in_flight]
    to reach zero does not keep the others from running.  Translated responses
    and requests for Gemini have no part the gateway has no canonical form for,
    and only images that Gemini takes.

    ** What is not modelled

    Sockets, HTTP, subprocesses, containers, virtual machines, the FUSE server,
    the Arrow encoding of rows, vacuum and the format adapters: they are calls into the
    operating system or into libraries.  The object store, Lance, the JSON codec, DNS,
    the [ipnet], [url], [http] and [regex] crates, the order of a [HashMap], digests,
    the extraction of user and assistant text and floating-point clocks are
    parameters, with laws where a theorem uses any.  It is not proved that every overlay operation keeps an upper
    directory appliable. *)

From Stdlib Require Import ZArith Lia Sorted.
From stdpp Require Import base list strings gmap numbers option.

#[local] Set Warnings "-clear-no-such-hyp".

(** ** Fallible code: [anyhow::Result] and the [?] operator *)

Inductive result (E A : Type) : Type :=
| Ok (a : A)
| Err (e : E).
Arguments Ok {E A} a.
Arguments Err {E A} e.

#[global] Instance result_eq_dec {E A} `{EqDecision E, EqDecision A} :
  EqDecision (result E A).
Proof. solve_decision. Defined.

Definition result_bind {E A B} (r : result E A) (k : A -> result E B) : result E B :=
  match r with
  | Ok a => k a
  | Err e => Err e
  end.

Definition is_ok {E A} (r : result E A) : bool :=
  match r with Ok _ => true | Err _ => false end.

(** [Option::context] / [Option::ok_or]: an absent value becomes an error. *)
Definition ok_or {E A} (o : option A) (e : E) : result E A :=
  match o with Some a => Ok a | None => Err e end.

(** [Iterator::map(f).collect::<Result<Vec<_>, _>>()]: the first error wins. *)
Fixpoint collect_results {E A B} (f : A -> result E B) (l : list A) : result E (list B) :=
  match l with
  | [] => Ok []
  | x :: xs => result_bind (f x) (fun y => result_bind (collect_results f xs) (fun ys => Ok (y :: ys)))
  end.

Declare Scope rust_scope.
Delimit Scope rust_scope with rust.
Notation "'let?' x := e 'in' k" := (result_bind e (fun x => k))
  (at level 10, x name, e at level 100, k at level 200,
   format "'[v' 'let?'  x  :=  e  'in' '/' k ']'") : rust_scope.
Notation "'ensure!' b 'else' err 'in' k" := (if b then k else Err err)
  (at level 10, b at level 100, err at level 100, k at level 200) : rust_scope.
Open Scope rust_scope.

(** ** Fixed-width unsigned integers

    A [u16], [u32], [u64], [u128] or [usize] value is a [Z] in its range;
    the operations the source uses write the range out. *)

Definition u16_max : Z := 2 ^ 16 - 1.
Definition u32_max : Z := 2 ^ 32 - 1.
Definition u64_max : Z := 2 ^ 64 - 1.
Definition u128_max : Z := 2 ^ 128 - 1.

Definition in_u64 (z : Z) : Prop := (0 <= z <= u64_max)%Z.

#[global] Instance in_u64_dec z : Decision (in_u64 z).
Proof. unfold in_u64. apply _. Defined.

Definition u64_checked_add (a b : Z) : option Z :=
  if (a + b <=? u64_max)%Z then Some (a + b)%Z else None.

Definition u64_saturating_add (a b : Z) : Z := Z.min (a + b) u64_max.

(** ** Byte strings and the [str] methods the source uses

    A Rust [str] is its UTF-8 byte sequence, a [string] of Rocq. *)

Definition byte_in (lo hi : N) (a : Ascii.ascii) : bool :=
  let n := Ascii.N_of_ascii a in ((lo <=? n) && (n <=? hi))%N.

Definition byte_is (k : N) (a : Ascii.ascii) : bool := (Ascii.N_of_ascii a =? k)%N.

(** [char::is_whitespace] is the Unicode [White_Space] property; its
    characters take one, two or three bytes in UTF-8. *)
Definition ws1 (a : Ascii.ascii) : bool := byte_in 9 13 a || byte_is 32 a.
Definition ws2 (a b : Ascii.ascii) : bool :=
  byte_is 194 a && (byte_is 133 b || byte_is 160 b).
Definition ws3 (a b c : Ascii.ascii) : bool :=
  (byte_is 225 a && byte_is 154 b && byte_is 128 c)
  || (byte_is 226 a && byte_is 128 b
      && (byte_in 128 138 c || byte_is 168 c || byte_is 169 c || byte_is 175 c))
  || (byte_is 226 a && byte_is 129 b && byte_is 159 c)
  || (byte_is 227 a && byte_is 128 b && byte_is 128 c).

Fixpoint trim_front (w2 : Ascii.ascii -> Ascii.ascii -> bool)
    (w3 : Ascii.ascii -> Ascii.ascii -> Ascii.ascii -> bool) (s : string) : string :=
  match s with
  | String a r =>
      if ws1 a then trim_front w2 w3 r else
      match r with
      | String b r2 =>
          if w2 a b then trim_front w2 w3 r2 else
          match r2 with
          | String c r3 => if w3 a b c then trim_front w2 w3 r3 else s
          | EmptyString => s
          end
      | EmptyString => s
      end
  | EmptyString => EmptyString
  end.

Definition str_trim_start (s : string) : string := trim_front ws2 ws3 s.
Definition str_trim_end (s : string) : string :=
  String.rev (trim_front (fun a b => ws2 b a) (fun a b c => ws3 c b a) (String.rev s)).

(** [str::trim]. *)
Definition str_trim (s : string) : string := str_trim_end (str_trim_start s).

(** [s.trim().is_empty()]. *)
Definition str_blank (s : string) : bool := bool_decide (str_trim s = "").

(** [str::starts_with] and [str::ends_with]. *)
Definition str_starts_with (prefix s : string) : bool := String.prefix prefix s.
Definition str_ends_with (suffix s : string) : bool :=
  String.prefix (String.rev suffix) (String.rev s).

(** [s.chars().all(p)] / [s.bytes().all(p)] for a byte predicate. *)
Fixpoint str_forall (p : Ascii.ascii -> bool) (s : string) : bool :=
  match s with
  | EmptyString => true
  | String a r => p a && str_forall p r
  end.

(** [str::to_ascii_lowercase] and [str::eq_ignore_ascii_case]. *)
Definition ascii_lower (a : Ascii.ascii) : Ascii.ascii :=
  if byte_in 65 90 a then Ascii.ascii_of_N (Ascii.N_of_ascii a + 32) else a.

Fixpoint str_map (f : Ascii.ascii -> Ascii.ascii) (s : string) : string :=
  match s with
  | EmptyString => EmptyString
  | String a r => String (f a) (str_map f r)
  end.

Definition to_ascii_lowercase : string -> string := str_map ascii_lower.
Definition eq_ignore_ascii_case (a b : string) : bool :=
  bool_decide (to_ascii_lowercase a = to_ascii_lowercase b).

(** [str::trim_start_matches], [trim_end_matches] and [trim_matches] with a
    predicate on ASCII characters. *)
Fixpoint trim_start_matches (p : Ascii.ascii -> bool) (s : string) : string :=
  match s with
  | String a r => if p a then trim_start_matches p r else s
  | EmptyString => EmptyString
  end.
Definition trim_end_matches (p : Ascii.ascii -> bool) (s : string) : string :=
  String.rev (trim_start_matches p (String.rev s)).
Definition trim_matches (p : Ascii.ascii -> bool) (s : string) : string :=
  trim_end_matches p (trim_start_matches p s).

(** [str::contains] with a string, and with one ASCII character. *)
Fixpoint str_contains (needle s : string) : bool :=
  String.prefix needle s
  || match s with
     | EmptyString => false
     | String _ r => str_contains needle r
     end.
Definition str_contains_char (k : N) (s : string) : bool :=
  negb (str_forall (fun a => negb (byte_is k a)) s).

(** [str::strip_prefix] and [strip_suffix]. *)
Fixpoint str_strip_prefix (prefix s : string) : option string :=
  match prefix, s with
  | EmptyString, _ => Some s
  | String a p, String b r => if bool_decide (a = b) then str_strip_prefix p r else None
  | String _ _, EmptyString => None
  end.
Definition str_strip_suffix (suffix s : string) : option string :=
  option_map String.rev (str_strip_prefix (String.rev suffix) (String.rev s)).

(** [str::split_once] and [rsplit_once] on one ASCII character. *)
Fixpoint str_split_once (k : N) (s : string) : option (string * string) :=
  match s with
  | EmptyString => None
  | String a r =>
      if byte_is k a then Some (EmptyString, r)
      else option_map (fun '(h, t) => (String a h, t)) (str_split_once k r)
  end.
Fixpoint str_rsplit_once (k : N) (s : string) : option (string * string) :=
  match s with
  | EmptyString => None
  | String a r =>
      match str_rsplit_once k r with
      | Some (h, t) => Some (String a h, t)
      | None => if byte_is k a then Some (EmptyString, r) else None
      end
  end.

(** [str::split] on one ASCII character. *)
Fixpoint str_split (k : N) (s : string) : list string :=
  match s with
  | EmptyString => [EmptyString]
  | String a r =>
      if byte_is k a then EmptyString :: str_split k r
      else match str_split k r with
           | [] => [String a EmptyString]
           | h :: t => String a h :: t
           end
  end.

(** [Vec::dedup]: consecutive repetitions are removed. *)
Fixpoint dedup {A} `{EqDecision A} (l : list A) : list A :=
  match l with
  | [] => []
  | x :: xs =>
      match dedup xs with
      | [] => [x]
      | y :: ys => if decide (x = y) then y :: ys else x :: y :: ys
      end
  end.

(** ** Lemmas on strings *)

Lemma str_app_assoc (a b c : string) : (a +:+ b) +:+ c = a +:+ b +:+ c.
Proof. induction a as [|x a IH]; [done|]. change (String x ((a +:+ b) +:+ c) = String x (a +:+ b +:+ c)). by rewrite IH. Qed.

Lemma str_app_nil_r (a : string) : a +:+ "" = a.
Proof. induction a as [|x a IH]; [done|]. change (String x (a +:+ "") = String x a). by rewrite IH. Qed.

Lemma str_app_cons x (a b : string) : String x a +:+ b = String x (a +:+ b).
Proof. done. Qed.

Lemma str_rev_app_spec (s t : string) : String.rev_app s t = String.rev s +:+ t.
Proof.
  unfold String.rev. revert t. induction s as [|x s IH]; intros t; simpl; [done|].
  rewrite IH, (IH (String x "")), str_app_assoc. done.
Qed.

Lemma str_rev_app (s t : string) : String.rev (s +:+ t) = String.rev t +:+ String.rev s.
Proof.
  induction s as [|x s IH].
  - change (String.rev t = String.rev t +:+ ""). by rewrite str_app_nil_r.
  - rewrite str_app_cons. unfold String.rev at 1 3; simpl.
    rewrite !str_rev_app_spec, IH, str_app_assoc. done.
Qed.

Lemma str_rev_involutive (s : string) : String.rev (String.rev s) = s.
Proof.
  induction s as [|x s IH]; [done|]. unfold String.rev at 2; simpl.
  rewrite str_rev_app_spec, str_rev_app, IH. done.
Qed.

Lemma str_prefix_app (p s : string) : String.prefix p (p +:+ s) = true.
Proof.
  induction p as [|x p IH]; [by destruct s|]. rewrite str_app_cons. simpl.
  destruct (Ascii.ascii_dec x x); [done|congruence].
Qed.

Lemma str_ends_with_app (s suffix : string) : str_ends_with suffix (s +:+ suffix) = true.
Proof. unfold str_ends_with. rewrite str_rev_app. apply str_prefix_app. Qed.

Lemma str_prefix_spec (p s : string) : String.prefix p s = true <-> exists r, s = p +:+ r.
Proof.
  split; [|intros [r ->]; apply str_prefix_app]. revert s. induction p as [|a p IH]; intros s H; [by exists s|].
  destruct s as [|b s]; [done|]. simpl in H. destruct (Ascii.ascii_dec a b) as [->|]; [|done].
  destruct (IH s H) as [r ->]. by exists r.
Qed.

Lemma str_ends_with_spec (p s : string) : str_ends_with p s = true <-> exists r, s = r +:+ p.
Proof.
  unfold str_ends_with. rewrite str_prefix_spec. split.
  - intros [r H]. exists (String.rev r).
    rewrite <- (str_rev_involutive s), H, str_rev_app, str_rev_involutive. done.
  - intros [r ->]. exists (String.rev r). apply str_rev_app.
Qed.

Lemma str_strip_prefix_spec p s r : str_strip_prefix p s = Some r <-> s = p +:+ r.
Proof.
  revert s. induction p as [|a p IH]; intros s; simpl.
  - change ("" +:+ r) with r. naive_solver.
  - destruct s as [|b s]; [rewrite str_app_cons; naive_solver|]. rewrite str_app_cons.
    case_bool_decide; [|naive_solver]. rewrite IH. naive_solver.
Qed.

Lemma str_strip_suffix_spec p s r : str_strip_suffix p s = Some r <-> s = r +:+ p.
Proof.
  unfold str_strip_suffix. split.
  - destruct (str_strip_prefix _ _) as [q|] eqn:E; [|done]. intros [= <-].
    apply str_strip_prefix_spec in E.
    rewrite <- (str_rev_involutive s), E, str_rev_app, str_rev_involutive. done.
  - intros ->. rewrite str_rev_app, (proj2 (str_strip_prefix_spec _ _ (String.rev r))) by done.
    simpl. by rewrite str_rev_involutive.
Qed.

Lemma str_length_app (a b : string) : String.length (a +:+ b) = (String.length a + String.length b)%nat.
Proof. induction a as [|x a IH]; [done|]. rewrite str_app_cons. simpl. by rewrite IH. Qed.

Lemma str_last_char (s : string) : s = "" \/ exists q c, s = q +:+ String c "".
Proof.
  induction s as [|x s [->|(q & c & ->)]]; [by left|right; by exists "", x|].
  right. by exists (String x q), c.
Qed.

Lemma str_forall_impl (p q : Ascii.ascii -> bool) s :
  (forall c, p c = true -> q c = true) -> str_forall p s = true -> str_forall q s = true.
Proof. intros Hpq. induction s as [|c s IH]; simpl; [done|].
  intros [Hc Hs]%andb_prop. by rewrite Hpq, IH.
Qed.

Lemma str_forall_app p a b : str_forall p (a +:+ b) = str_forall p a && str_forall p b.
Proof. induction a as [|c a IH]; [done|]. rewrite str_app_cons. simpl. by rewrite IH, andb_assoc. Qed.

Lemma elem_of_dedup {A} `{EqDecision A} (l : list A) x : x ∈ dedup l <-> x ∈ l.
Proof.
  induction l as [|y l IH]; [done|]. simpl. rewrite elem_of_cons, <- IH.
  destruct (dedup l) as [|z zs]; [rewrite list_elem_of_singleton; set_solver|].
  destruct (decide (y = z)) as [->|]; set_solver.
Qed.

Lemma dedup_strict {A} `{EqDecision A} (R : relation A) `{!AntiSymm eq R} (l : list A) :
  StronglySorted R l -> StronglySorted (fun x y => R x y /\ x <> y) (dedup l).
Proof.
  induction 1 as [|x l Hl IH Hx]; simpl; [constructor|].
  assert (forall z, z ∈ dedup l -> R x z) as Hle.
  { intros z. rewrite elem_of_dedup. intros Hz. rewrite List.Forall_forall in Hx. by apply Hx, list_elem_of_In. }
  destruct (dedup l) as [|y ys]; [by repeat constructor|].
  destruct (decide (x = y)) as [->|Hne]; [done|]. constructor; [done|].
  inversion IH as [|? ? _ Hys]; subst. rewrite List.Forall_forall in Hys. apply List.Forall_forall.
  intros z Hz. apply list_elem_of_In in Hz as Hz'. split; [by apply Hle|]. intros ->.
  apply elem_of_cons in Hz' as [->|Hz']; [done|]. apply list_elem_of_In in Hz'. destruct (Hys _ Hz') as [Hyz _].
  apply Hne, (anti_symm R); [apply Hle; left|done].
Qed.

Lemma dedup_sorted (l : list Z) : StronglySorted Z.le l -> StronglySorted Z.lt (dedup l).
Proof.
  intros H%(dedup_strict Z.le). induction H as [|x xs _ IH Hx]; constructor; [done|].
  eapply List.Forall_impl; [|exact Hx]. simpl. lia.
Qed.

Lemma option_map_None {A B} (f : A -> B) o : option_map f o = None <-> o = None.
Proof. by destruct o. Qed.

(** ** Lemmas and tactics on fallible code *)

Lemma result_bind_Ok {E A B} (r : result E A) (k : A -> result E B) b :
  result_bind r k = Ok b <-> exists a, r = Ok a /\ k a = Ok b.
Proof. destruct r; naive_solver. Qed.

Lemma ok_or_Ok {E A} (o : option A) (e : E) a : ok_or o e = Ok a <-> o = Some a.
Proof. destruct o; naive_solver. Qed.

Lemma u64_checked_add_Some a b c :
  u64_checked_add a b = Some c <-> c = (a + b)%Z /\ (a + b <= u64_max)%Z.
Proof. unfold u64_checked_add. destruct (Z.leb_spec (a + b) u64_max); naive_solver lia. Qed.

Lemma collect_results_app {E A B} (f : A -> result E B) l1 l2 :
  collect_results f (l1 ++ l2)
  = result_bind (collect_results f l1) (fun r1 => result_bind (collect_results f l2) (fun r2 => Ok (r1 ++ r2))).
Proof.
  induction l1 as [|x l1 IH]; simpl; [by destruct (collect_results f l2)|].
  destruct (f x); simpl; [|done]. rewrite IH. destruct (collect_results f l1); simpl; [|done].
  by destruct (collect_results f l2).
Qed.

Lemma collect_results_map {E A B C} (f : B -> result E C) (g : A -> B) l :
  collect_results f (map g l) = collect_results (fun x => f (g x)) l.
Proof. induction l as [|x l IH]; [done|]. simpl. by rewrite IH. Qed.

Lemma collect_results_Forall2 {E A B} (f : A -> result E B) l ys :
  collect_results f l = Ok ys <-> Forall2 (fun x y => f x = Ok y) l ys.
Proof.
  revert ys. induction l as [|x l IH]; intros ys; simpl.
  - split; [intros [= <-]; constructor|by inversion 1].
  - rewrite result_bind_Ok. setoid_rewrite result_bind_Ok. setoid_rewrite IH. split.
    + intros (y & Hy & ys' & Hys & [= <-]). by constructor.
    + inversion 1; subst. eauto.
Qed.

Lemma collect_results_elem {E A B} (f : A -> result E B) l ys y :
  collect_results f l = Ok ys -> y ∈ ys -> exists x, x ∈ l /\ f x = Ok y.
Proof.
  rewrite collect_results_Forall2. intros H. revert y.
  induction H as [|x y' l ys Hx _ IH]; intros y Hy; [by apply elem_of_nil in Hy|].
  apply elem_of_cons in Hy as [->|Hy]; [exists x; set_solver|]. destruct (IH y Hy) as (z & ? & ?).
  exists z. set_solver.
Qed.

Lemma collect_results_elem_l {E A B} (f : A -> result E B) l ys x :
  collect_results f l = Ok ys -> x ∈ l -> exists y, y ∈ ys /\ f x = Ok y.
Proof.
  rewrite collect_results_Forall2. intros H.
  induction H as [|x' y l ys Hx _ IH]; intros Hin; [by apply elem_of_nil in Hin|].
  apply elem_of_cons in Hin as [->|Hin]; [exists y; set_solver|]. destruct (IH Hin) as (z & ? & ?).
  exists z. set_solver.
Qed.

Lemma collect_results_exists {E A B} (f : A -> result E B) l ys (P : B -> Prop) :
  collect_results f l = Ok ys ->
  (exists y, y ∈ ys /\ P y) <-> (exists x y, x ∈ l /\ f x = Ok y /\ P y).
Proof.
  intros H. split.
  - intros (y & Hy & HP). destruct (collect_results_elem _ _ _ _ H Hy) as (x & ? & ?). eauto.
  - apply collect_results_Forall2 in H. intros (x & y & Hx & Hf & HP). exists y. split; [|done].
    induction H as [|x' y' l ys Hxy _ IH]; [by apply elem_of_nil in Hx|].
    apply elem_of_cons in Hx as [->|Hx]; [|set_solver]. rewrite Hf in Hxy. simplify_eq. set_solver.
Qed.

(** Success of composed code, for [autorewrite] and [eauto]. *)
Create HintDb rust.
Create Rewrite HintDb rust.
#[export] Hint Rewrite @result_bind_Ok @ok_or_Ok @u64_checked_add_Some @collect_results_Forall2 : rust.
#[export] Hint Resolve str_prefix_app str_ends_with_app collect_results_elem : rust.

(** Decompose every [let?], [ok_or] and checked addition that is known to
    have succeeded. *)
Ltac inv_result :=
  repeat match goal with
  | H : result_bind _ _ = Ok _ |- _ => apply result_bind_Ok in H as (? & ? & ?)
  | H : ok_or _ _ = Ok _ |- _ => apply ok_or_Ok in H
  | H : u64_checked_add _ _ = Some _ |- _ => apply u64_checked_add_Some in H as [? ?]
  | H : Ok _ = Ok _ |- _ => injection H as H
  | H : Err _ = Ok _ |- _ => discriminate H
  | H : Ok _ = Err _ |- _ => discriminate H
  end; simplify_eq.

(** Case analysis on the branches of the code in [H]. *)
Ltac branches H :=
  repeat (case_match; simplify_eq; inv_result; try discriminate).

(** Turn boolean guards into propositions. *)
Ltac guards :=
  repeat match goal with
  | H : _ && _ = true |- _ => apply andb_true_iff in H as [? ?]
  | H : _ || _ = false |- _ => apply orb_false_iff in H as [? ?]
  | H : negb _ = true |- _ => apply negb_true_iff in H
  | H : negb _ = false |- _ => apply negb_false_iff in H
  | H : bool_decide _ = true |- _ => apply bool_decide_eq_true in H
  | H : bool_decide _ = false |- _ => apply bool_decide_eq_false in H
  | H : (_ =? _)%Z = true |- _ => apply Z.eqb_eq in H
  | H : (_ =? _)%Z = false |- _ => apply Z.eqb_neq in H
  | H : (_ <? _)%Z = true |- _ => apply Z.ltb_lt in H
  | H : (_ <? _)%Z = false |- _ => apply Z.ltb_ge in H
  | H : (_ <=? _)%Z = true |- _ => apply Z.leb_le in H
  | H : (_ <=? _)%Z = false |- _ => apply Z.leb_gt in H
  end.

(** A sequence of calls on a state: the answers and the final state; a call
    that fails leaves the state alone. *)
Fixpoint run_calls {O S E A} (f : O -> S -> result E (A * S)) (ops : list O) (s : S)
  : list (result E A) * S :=
  match ops with
  | [] => ([], s)
  | op :: ops' =>
      match f op s with
      | Ok (a, s') => let '(answers, s2) := run_calls f ops' s' in (Ok a :: answers, s2)
      | Err e => let '(answers, s2) := run_calls f ops' s in (Err e :: answers, s2)
      end
  end.

(** A check of every value of a small integer range, for facts about
    machine-width arithmetic that are decided by enumeration. *)
Fixpoint forall_below (n : nat) (lo : Z) (p : Z -> bool) : bool :=
  match n with
  | O => true
  | S n' => p lo && forall_below n' (lo + 1) p
  end.

Lemma forall_below_sound n lo p :
  forall_below n lo p = true -> forall z, (lo <= z < lo + Z.of_nat n)%Z -> p z = true.
Proof.
  revert lo. induction n as [|n IH]; intros lo H z Hz; simpl in H; [lia|].
  apply andb_true_iff in H as [H1 H2]. destruct (decide (z = lo)) as [->|]; [done|].
  apply (IH (lo + 1)%Z); [done|lia].
Qed.
