(* ===== verification/RuntimeTypes.v ===== *)
(** * Value types shared by pVisor, pPilot, capture and storage

    The records and enums of [crates/persisting-agentctl/src/runtime.rs] that
    the other components compute with.  The [string_id!] newtypes ([RunId],
    [AttemptId], [StorylineId]) are transparent wrappers of [String]. *)

From Stdlib Require Import ZArith Lia.
From stdpp Require Import base list strings gmap numbers option.
From S2P Require Import Prelude.

Abbreviation RunId := string (only parsing).
Abbreviation AttemptId := string (only parsing).
Abbreviation StorylineId := string (only parsing).

(** ** Run life cycle *)

Inductive RunState : Type :=
| Created
| Starting
| Running
| Checkpointing
| Suspended
| Cancelling
| Completed
| Failed
| Cancelled.

#[global] Instance RunState_eq_dec : EqDecision RunState.
Proof. solve_decision. Defined.

Definition is_terminal (s : RunState) : bool :=
  match s with
  | Completed | Failed | Cancelled => true
  | _ => false
  end.

(** ** Leases and terminal commits *)

(** The current pPilot execution owner of one logical Run. *)
Record RunLeaseRecord : Type := mkRunLeaseRecord {
  lease_run_id : RunId;
  lease_task_id : option string;
  lease_epoch : Z;
  lease_owner : string;
  issued_at_unix_ms : Z;
  lease_expires_at_unix_ms : Z;
  lease_attempt_id : option AttemptId;
}.

#[global] Instance RunLeaseRecord_eq_dec : EqDecision RunLeaseRecord.
Proof. solve_decision. Defined.

Record RunCommitRequest : Type := mkRunCommitRequest {
  req_run_id : RunId;
  req_task_id : option string;
  req_attempt_id : AttemptId;
  req_lease_epoch : Z;
  req_state : RunState;
  event_high_watermark : option Z;
  result_digest : string;
}.

#[global] Instance RunCommitRequest_eq_dec : EqDecision RunCommitRequest.
Proof. solve_decision. Defined.

Record RunCommit : Type := mkRunCommit {
  commit_request : RunCommitRequest;
  committed_at_unix_ms : Z;
}.

#[global] Instance RunCommit_eq_dec : EqDecision RunCommit.
Proof. solve_decision. Defined.

(** One control record per Run: lease and commit live in the same object. *)
Record RunControlRecord : Type := mkRunControlRecord {
  rec_revision : Z;
  rec_run_id : RunId;
  rec_lease : option RunLeaseRecord;
  rec_commit : option RunCommit;
}.

#[global] Instance RunControlRecord_eq_dec : EqDecision RunControlRecord.
Proof. solve_decision. Defined.

(** Field updates (struct mutation through [&mut]). *)
Definition set_lease_attempt (a : option AttemptId) (l : RunLeaseRecord) : RunLeaseRecord :=
  mkRunLeaseRecord (lease_run_id l) (lease_task_id l) (lease_epoch l) (lease_owner l)
    (issued_at_unix_ms l) (lease_expires_at_unix_ms l) a.

Definition set_lease_expiry (t : Z) (l : RunLeaseRecord) : RunLeaseRecord :=
  mkRunLeaseRecord (lease_run_id l) (lease_task_id l) (lease_epoch l) (lease_owner l)
    (issued_at_unix_ms l) t (lease_attempt_id l).

Definition set_rec_revision (n : Z) (r : RunControlRecord) : RunControlRecord :=
  mkRunControlRecord n (rec_run_id r) (rec_lease r) (rec_commit r).

Definition set_rec_lease (l : option RunLeaseRecord) (r : RunControlRecord) : RunControlRecord :=
  mkRunControlRecord (rec_revision r) (rec_run_id r) l (rec_commit r).

Definition set_rec_commit (c : option RunCommit) (r : RunControlRecord) : RunControlRecord :=
  mkRunControlRecord (rec_revision r) (rec_run_id r) (rec_lease r) c.
