(* ===== verification/Durable.v ===== *)
(** * Durable per-Run records: compare-and-swap objects and locked files

    pChronicle keeps one JSON record per Run and updates it through
    [mutate], which runs a closure on the current record and stores what the
    closure returns.  The closure is the operation ([op_mutate]); the two
    backends differ in how they make read-decide-write atomic:

    - [Backend::Object] reads the object with its version and puts the new
      bytes conditionally ([PutMode::Create] / [PutMode::Update]), retrying
      a bounded number of times when another writer got there first;
    - [Backend::Local] holds an exclusive advisory lock on a sibling
      [.lock] file while it reads, decides, writes a temporary file and
      renames it over the record.

    [object_store], [serde_json] and the file lock are libraries, so the
    store and the codec are the interfaces [ObjectStore] and [Codec] below.
    The abstract specification is one atomic operation per call
    ([atomic_step]); both backends are proved to refine it under every
    interleaving of clients. *)

From Stdlib Require Import ZArith Lia.
From stdpp Require Import base list strings gmap numbers option.
From S2P Require Import Prelude.

(** What a closure asks [mutate] to do with the record. *)
Inductive Mutation (R T : Type) : Type :=
| Unchanged (value : T)
| Replace (record : R) (value : T).
Arguments Unchanged {R T} value.
Arguments Replace {R T} record value.

Inductive PutMode (V : Type) : Type :=
| PutCreate
| PutUpdate (version : V).
Arguments PutCreate {V}.
Arguments PutUpdate {V} version.

Inductive PutError : Type :=
| PutAlreadyExists
| PutPrecondition
| PutOther.

(** ** Interfaces of the libraries the store is built on *)

(** [serde_json] as the store uses it: what is encoded decodes to itself. *)
Class Codec (R B : Type) : Type := {
  encode_json : R -> B;
  decode_json : B -> option R;
  decode_encode : forall r, decode_json (encode_json r) = Some r;
}.

(** [object_store]'s conditional writes.  [os_issued] are the versions the
    store has handed out for a location; a version is never reused. *)
Class ObjectStore (St B V : Type) : Type := {
  os_get : string -> St -> option (B * V);
  os_put : string -> B -> PutMode V -> St -> result PutError St;
  os_issued : string -> V -> St -> Prop;
  os_get_issued : forall p st b v, os_get p st = Some (b, v) -> os_issued p v st;
  os_put_create : forall p b st st',
    os_put p b PutCreate st = Ok st' -> os_get p st = None;
  os_put_update : forall p b v st st',
    os_put p b (PutUpdate v) st = Ok st' -> exists b0, os_get p st = Some (b0, v);
  os_put_same : forall p b m st st',
    os_put p b m st = Ok st' -> exists v, os_get p st' = Some (b, v) /\ ~ os_issued p v st;
  os_put_other : forall p q b m st st',
    os_put p b m st = Ok st' -> p <> q -> os_get q st' = os_get q st;
  os_put_issued : forall p q v b m st st',
    os_put p b m st = Ok st' -> os_issued q v st -> os_issued q v st';
  os_put_create_live : forall p b st,
    os_get p st = None -> exists st', os_put p b PutCreate st = Ok st';
  os_put_update_live : forall p b b0 v st,
    os_get p st = Some (b0, v) -> exists st', os_put p b (PutUpdate v) st = Ok st';
}.

(** [const CAS_RETRIES: usize = 32]. *)
Definition CAS_RETRIES : nat := 32.

(** Errors of [mutate]: the closure's own, a record that does not decode, an
    input/output failure, and exhaustion of the retries. *)
Inductive StoreError (E : Type) : Type :=
| MutateError (e : E)
| DecodeError
| IoError
| CasContention.
Arguments MutateError {E} e.
Arguments DecodeError {E}.
Arguments IoError {E}.
Arguments CasContention {E}.

#[global] Instance StoreError_eq_dec {E} `{EqDecision E} : EqDecision (StoreError E).
Proof. solve_decision. Defined.

Section Durable.
Context {R B V St Op Out K E : Type}.
Context `{!Codec R B} `{!ObjectStore St B V}.

(** [path_of] is the location the operation addresses; [op_mutate op k] is
    the closure of [op] when its clock reads are [k]. *)
Context (path_of : Op -> string).
Context (op_mutate : Op -> K -> option R -> result E (Mutation R Out)).

(** ** Abstract specification: one atomic operation *)

(** One completed operation.  [ev_acked] is false when the effect reached
    the store but the caller saw an input/output error. *)
Record event : Type := mkEvent {
  ev_client : nat;
  ev_op : Op;
  ev_clock : K;
  ev_out : Out;
  ev_acked : bool;
}.

Definition atomic_step (m : string -> option R) (e : event) (m' : string -> option R) : Prop :=
  let p := path_of (ev_op e) in
  (forall q, q <> p -> m' q = m q)
  /\ match op_mutate (ev_op e) (ev_clock e) (m p) with
     | Ok (Unchanged o) => o = ev_out e /\ m' p = m p
     | Ok (Replace r o) => o = ev_out e /\ m' p = Some r
     | Err _ => False
     end.

Inductive atomic_run : (string -> option R) -> list event -> (string -> option R) -> Prop :=
| atomic_nil m m' : (forall q, m' q = m q) -> atomic_run m [] m'
| atomic_cons m e m1 es m2 :
    atomic_step m e m1 -> atomic_run m1 es m2 -> atomic_run m (e :: es) m2.

(** ** The object backend *)

(** [read_object_record]. *)
Definition read_object_record (p : string) (st : St) : result (StoreError E) (option (R * V)) :=
  match os_get p st with
  | None => Ok None
  | Some (bytes, version) =>
      match decode_json bytes with
      | Some record => Ok (Some (record, version))
      | None => Err DecodeError
      end
  end.

Definition put_mode (current : option (R * V)) : PutMode V :=
  match current with
  | None => PutCreate
  | Some (_, version) => PutUpdate version
  end.

(** One pass of the loop body up to the conditional put. *)
Definition read_and_decide (op : Op) (k : K) (st : St)
  : result (StoreError E) (Out + (option (R * V) * R * Out)) :=
  let? current := read_object_record (path_of op) st in
  match op_mutate op k (fst <$> current) with
  | Err e => Err (MutateError e)
  | Ok (Unchanged value) => Ok (inl value)
  | Ok (Replace record value) => Ok (inr (current, record, value))
  end.

(** [mutate] on [Backend::Object], the loop of one caller: [ks n] are the
    clock reads of the pass with [n] retries left after it, [interf n] is
    what other writers do to the store between that pass's read and put. *)
Fixpoint mutate_object (retries : nat) (ks : nat -> K) (interf : nat -> St -> St)
    (op : Op) (st : St) : result (StoreError E) Out * St :=
  match retries with
  | O => (Err CasContention, st)
  | S n =>
      match read_and_decide op (ks n) st with
      | Err e => (Err e, st)
      | Ok (inl value) => (Ok value, st)
      | Ok (inr (current, record, value)) =>
          let st1 := interf n st in
          match os_put (path_of op) (encode_json record) (put_mode current) st1 with
          | Ok st2 => (Ok value, st2)
          | Err PutAlreadyExists | Err PutPrecondition => mutate_object n ks interf op st1
          | Err PutOther => (Err IoError, st1)
          end
      end
  end.

(** The same loop as the steps of one of many concurrent clients. *)
Inductive cas_phase : Type :=
| CasIdle (retries : nat)
| CasPending (retries : nat) (k : K) (current : option (R * V)) (record : R) (value : Out)
| CasDone (res : result (StoreError E) Out).

Definition cas_after_read (i : nat) (op : Op) (k : K) (n : nat) (st : St)
  : cas_phase * list event :=
  match read_and_decide op k st with
  | Err e => (CasDone (Err e), [])
  | Ok (inl value) => (CasDone (Ok value), [mkEvent i op k value true])
  | Ok (inr (current, record, value)) => (CasPending n k current record value, [])
  end.

Definition cas_after_put (i : nat) (op : Op) (n : nat) (k : K) (current : option (R * V))
    (record : R) (value : Out) (st : St) : St * cas_phase * list event :=
  match os_put (path_of op) (encode_json record) (put_mode current) st with
  | Ok st' => (st', CasDone (Ok value), [mkEvent i op k value true])
  | Err PutAlreadyExists | Err PutPrecondition => (st, CasIdle n, [])
  | Err PutOther => (st, CasDone (Err IoError), [])
  end.

(** How many passes a caller makes: 32 for Run records, 64 for the event
    manifest. *)
Context (max_retries : nat).

Definition cas_config : Type := (St * gmap nat (Op * cas_phase))%type.

Inductive cas_step : cas_config -> list event -> cas_config -> Prop :=
| cas_invoke st cs i op :
    cs !! i = None ->
    cas_step (st, cs) [] (st, <[i := (op, CasIdle max_retries)]> cs)
| cas_read st cs i op n k ph es :
    cs !! i = Some (op, CasIdle (S n)) ->
    cas_after_read i op k n st = (ph, es) ->
    cas_step (st, cs) es (st, <[i := (op, ph)]> cs)
| cas_put st cs i op n k cur r o st' ph es :
    cs !! i = Some (op, CasPending n k cur r o) ->
    cas_after_put i op n k cur r o st = (st', ph, es) ->
    cas_step (st, cs) es (st', <[i := (op, ph)]> cs)
| cas_exhausted st cs i op :
    cs !! i = Some (op, CasIdle O) ->
    cas_step (st, cs) [] (st, <[i := (op, CasDone (Err CasContention))]> cs)
| cas_read_fault st cs i op n :
    cs !! i = Some (op, CasIdle (S n)) ->
    cas_step (st, cs) [] (st, <[i := (op, CasDone (Err IoError))]> cs)
| cas_put_unacked st cs i op n k cur r o st' :
    cs !! i = Some (op, CasPending n k cur r o) ->
    os_put (path_of op) (encode_json r) (put_mode cur) st = Ok st' ->
    cas_step (st, cs) [mkEvent i op k o false] (st', <[i := (op, CasDone (Err IoError))]> cs)
| cas_put_lost st cs i op n k cur r o :
    cs !! i = Some (op, CasPending n k cur r o) ->
    cas_step (st, cs) [] (st, <[i := (op, CasDone (Err IoError))]> cs).

Inductive cas_exec : cas_config -> list event -> cas_config -> Prop :=
| cas_exec_nil c : cas_exec c [] c
| cas_exec_step c es c1 es' c2 :
    cas_step c es c1 -> cas_exec c1 es' c2 -> cas_exec c (es ++ es') c2.

(** ** The local backend *)

(** The record directory: file names and contents. *)
Definition local_dir : Type := gmap string B.

(** [read_local_record]. *)
Definition read_local_record (p : string) (dir : gmap string B)
  : result (StoreError E) (option R) :=
  match dir !! p with
  | None => Ok None
  | Some bytes =>
      match decode_json bytes with
      | Some record => Ok (Some record)
      | None => Err DecodeError
      end
  end.

(** [format!(".{}.{}.tmp", file_name, std::process::id())]. *)
Definition temporary_name (pid p : string) : string :=
  "." +:+ p +:+ "." +:+ pid +:+ ".tmp".

(** [write_local_record]: write a temporary file, then rename it over the
    record.  [create_new] refuses a temporary file that already exists. *)
Definition write_local_record (create_new : bool) (pid p : string) (bytes : B)
    (dir : gmap string B) : result (StoreError E) (gmap string B) :=
  let temporary := temporary_name pid p in
  if create_new && bool_decide (is_Some (dir !! temporary)) then Err IoError
  else
    let written := <[temporary := bytes]> dir in
    Ok (<[p := bytes]> (delete temporary written)).

(** The critical section of [mutate] on [Backend::Local], run by the caller
    that holds the lock. *)
Definition mutate_local (create_new : bool) (pid : string) (k : K) (op : Op)
    (dir : gmap string B) : result (StoreError E) Out * gmap string B :=
  match read_local_record (path_of op) dir with
  | Err e => (Err e, dir)
  | Ok current =>
      match op_mutate op k current with
      | Err e => (Err (MutateError e), dir)
      | Ok (Unchanged value) => (Ok value, dir)
      | Ok (Replace record value) =>
          match write_local_record create_new pid (path_of op) (encode_json record) dir with
          | Err e => (Err e, dir)
          | Ok dir' => (Ok value, dir')
          end
      end
  end.

(** Concurrent callers: take the lock, run the section, give the lock back
    (explicitly or by dropping the file on an error path). *)
Inductive local_phase : Type :=
| LocalIdle
| LocalLocked
| LocalWriting (k : K) (record : R) (value : Out)
| LocalHolding (res : result (StoreError E) Out)
| LocalDone (res : result (StoreError E) Out).

Record local_config : Type := mkLocal {
  lc_dir : gmap string B;
  lc_locks : gmap string nat;
  lc_clients : gmap nat (Op * local_phase);
}.

Definition set_client (i : nat) (op : Op) (ph : local_phase) (c : local_config) : local_config :=
  mkLocal (lc_dir c) (lc_locks c) (<[i := (op, ph)]> (lc_clients c)).

Definition local_after_read (i : nat) (op : Op) (k : K) (dir : gmap string B)
  : local_phase * list event :=
  match read_local_record (path_of op) dir with
  | Err e => (LocalHolding (Err e), [])
  | Ok current =>
      match op_mutate op k current with
      | Err e => (LocalHolding (Err (MutateError e)), [])
      | Ok (Unchanged value) => (LocalHolding (Ok value), [mkEvent i op k value true])
      | Ok (Replace record value) => (LocalWriting k record value, [])
      end
  end.

Definition local_after_write (create_new : bool) (pid : string) (i : nat) (op : Op) (k : K)
    (record : R) (value : Out) (dir : gmap string B)
  : gmap string B * local_phase * list event :=
  match write_local_record create_new pid (path_of op) (encode_json record) dir with
  | Err e => (dir, LocalHolding (Err e), [])
  | Ok dir' => (dir', LocalHolding (Ok value), [mkEvent i op k value true])
  end.

Inductive local_step (create_new : bool) (pid_of : nat -> string)
  : local_config -> list event -> local_config -> Prop :=
| local_invoke c i op :
    lc_clients c !! i = None ->
    local_step create_new pid_of c [] (set_client i op LocalIdle c)
| local_lock dir locks cs i op :
    cs !! i = Some (op, LocalIdle) ->
    locks !! path_of op = None ->
    local_step create_new pid_of (mkLocal dir locks cs) []
      (mkLocal dir (<[path_of op := i]> locks) (<[i := (op, LocalLocked)]> cs))
| local_read c i op k ph es :
    lc_clients c !! i = Some (op, LocalLocked) ->
    local_after_read i op k (lc_dir c) = (ph, es) ->
    local_step create_new pid_of c es (set_client i op ph c)
| local_write dir locks cs i op k r o dir' ph es :
    cs !! i = Some (op, LocalWriting k r o) ->
    local_after_write create_new (pid_of i) i op k r o dir = (dir', ph, es) ->
    local_step create_new pid_of (mkLocal dir locks cs) es
      (mkLocal dir' locks (<[i := (op, ph)]> cs))
| local_write_torn dir locks cs i op k r o partial :
    cs !! i = Some (op, LocalWriting k r o) ->
    local_step create_new pid_of (mkLocal dir locks cs) []
      (mkLocal (<[temporary_name (pid_of i) (path_of op) := partial]> dir) locks
         (<[i := (op, LocalHolding (Err IoError))]> cs))
| local_write_unacked dir locks cs i op k r o dir' :
    cs !! i = Some (op, LocalWriting k r o) ->
    write_local_record create_new (pid_of i) (path_of op) (encode_json r) dir = Ok dir' ->
    local_step create_new pid_of (mkLocal dir locks cs) [mkEvent i op k o false]
      (mkLocal dir' locks (<[i := (op, LocalHolding (Err IoError))]> cs))
| local_unlock dir locks cs i op res :
    cs !! i = Some (op, LocalHolding res) ->
    local_step create_new pid_of (mkLocal dir locks cs) []
      (mkLocal dir (delete (path_of op) locks) (<[i := (op, LocalDone res)]> cs)).

Inductive local_exec (create_new : bool) (pid_of : nat -> string)
  : local_config -> list event -> local_config -> Prop :=
| local_exec_nil c : local_exec create_new pid_of c [] c
| local_exec_step c es c1 es' c2 :
    local_step create_new pid_of c es c1 ->
    local_exec create_new pid_of c1 es' c2 ->
    local_exec create_new pid_of c (es ++ es') c2.

(** ** The records a backend state stands for *)

Definition cas_abs (st : St) (p : string) : option R :=
  match os_get p st with
  | Some (bytes, _) => decode_json bytes
  | None => None
  end.

(** Records are the files with extension [json]; temporaries are not. *)
Definition is_record_name (p : string) : Prop := str_ends_with ".json" p = true.

Definition local_abs (dir : gmap string B) (p : string) : option R :=
  if str_ends_with ".json" p then
    match dir !! p with
    | Some bytes => decode_json bytes
    | None => None
    end
  else None.

(** Every stored object decodes. *)
Definition store_decodes (st : St) : Prop :=
  forall p b v, os_get p st = Some (b, v) -> is_Some (decode_json b).

Definition dir_decodes (dir : gmap string B) : Prop :=
  forall p b, is_record_name p -> dir !! p = Some b -> is_Some (decode_json b).

(** ** Refinement of the object backend *)

(** A pending put was decided on the snapshot it carries, and while the
    object still has the snapshot's version it still has its contents. *)
Definition cas_pending_ok (st : St) (op : Op) (ph : cas_phase) : Prop :=
  match ph with
  | CasPending _ k cur r o =>
      op_mutate op k (fst <$> cur) = Ok (Replace r o)
      /\ match cur with
         | None => True
         | Some (r0, v) =>
             os_issued (path_of op) v st
             /\ forall b, os_get (path_of op) st = Some (b, v) -> decode_json b = Some r0
         end
  | _ => True
  end.

Definition cas_inv (c : cas_config) : Prop :=
  store_decodes (fst c)
  /\ forall i op ph, snd c !! i = Some (op, ph) -> cas_pending_ok (fst c) op ph.

Lemma read_object_record_spec p st cur :
  store_decodes st ->
  read_object_record p st = Ok cur ->
  fst <$> cur = cas_abs st p
  /\ match cur with
     | None => True
     | Some (r, v) => exists b, os_get p st = Some (b, v) /\ decode_json b = Some r
     end.
Proof.
  intros Hdec. unfold read_object_record, cas_abs.
  destruct (os_get p st) as [[b v]|] eqn:Hg; [|by intros; simplify_eq].
  destruct (decode_json b) eqn:Hb; intros; simplify_eq/=. eauto.
Qed.

Lemma put_abs p r m st st' :
  os_put p (encode_json r) m st = Ok st' ->
  cas_abs st' p = Some r /\ forall q, q <> p -> cas_abs st' q = cas_abs st q.
Proof.
  intros Hput. unfold cas_abs. split.
  - destruct (os_put_same _ _ _ _ _ Hput) as (v & -> & _). apply decode_encode.
  - intros q Hq. by rewrite (os_put_other _ q _ _ _ _ Hput).
Qed.

Lemma put_store_decodes p r m st st' :
  os_put p (encode_json r) m st = Ok st' -> store_decodes st -> store_decodes st'.
Proof.
  intros Hput Hdec q b v Hg. destruct (decide (p = q)) as [<-|Hne].
  - destruct (os_put_same _ _ _ _ _ Hput) as (v' & Hg' & _).
    rewrite Hg in Hg'. simplify_eq. rewrite decode_encode. eauto.
  - rewrite (os_put_other _ q _ _ _ _ Hput) in Hg by done. eauto.
Qed.

(** The heart of compare-and-swap: a put that the store accepts finds the
    contents it was decided on. *)
Lemma put_finds_snapshot op n k cur r o b st st' :
  cas_pending_ok st op (CasPending n k cur r o) ->
  os_put (path_of op) b (put_mode cur) st = Ok st' ->
  cas_abs st (path_of op) = fst <$> cur.
Proof.
  intros [_ Hsnap] Hput. unfold cas_abs. destruct cur as [[r0 v]|]; simpl in *.
  - destruct (os_put_update _ _ _ _ _ Hput) as [b0 Hg]. rewrite Hg.
    destruct Hsnap as [_ Hb]. by apply Hb.
  - by rewrite (os_put_create _ _ _ _ Hput).
Qed.

Lemma put_keeps_pending p r m st st' op ph :
  os_put p (encode_json r) m st = Ok st' ->
  cas_pending_ok st op ph -> cas_pending_ok st' op ph.
Proof.
  intros Hput. destruct ph as [|n k [[r0 v]|] r1 o|]; simpl; try done.
  intros (Hmut & Hiss & Hb). split_and!; [done|by eapply os_put_issued|].
  intros b Hg. destruct (decide (p = path_of op)) as [->|Hne].
  - destruct (os_put_same _ _ _ _ _ Hput) as (v' & Hg' & Hfresh).
    rewrite Hg in Hg'. by simplify_eq.
  - rewrite (os_put_other _ _ _ _ _ _ Hput Hne) in Hg. by apply Hb.
Qed.

Lemma read_and_decide_spec op k st d :
  store_decodes st ->
  read_and_decide op k st = Ok d ->
  match d with
  | inl o => op_mutate op k (cas_abs st (path_of op)) = Ok (Unchanged o)
  | inr (cur, r, o) =>
      fst <$> cur = cas_abs st (path_of op)
      /\ forall n, cas_pending_ok st op (CasPending n k cur r o)
  end.
Proof.
  intros Hdec. unfold read_and_decide.
  destruct (read_object_record _ _) as [cur|] eqn:Hread; simpl; [|done].
  destruct (read_object_record_spec _ _ _ Hdec Hread) as [Habs Hcur].
  destruct (op_mutate op k _) as [[o|r o]|] eqn:Hmut; intros; simplify_eq; simpl in *.
  - by rewrite <- Habs.
  - split; [done|]. intros _. split; [done|]. destruct cur as [[r0 v]|]; [|done].
    destruct Hcur as (b & Hg & Hb). split; [by eapply os_get_issued|].
    intros b' Hg'. by simplify_eq.
Qed.

Lemma clients_insert_inv (st : St) (cs : gmap nat (Op * cas_phase)) i op ph :
  (forall j opj phj, cs !! j = Some (opj, phj) -> cas_pending_ok st opj phj) ->
  cas_pending_ok st op ph ->
  forall j opj phj, <[i := (op, ph)]> cs !! j = Some (opj, phj) -> cas_pending_ok st opj phj.
Proof.
  intros Hcs Hph j opj phj. destruct (decide (i = j)) as [<-|Hne].
  - rewrite lookup_insert_eq. by intros; simplify_eq.
  - rewrite lookup_insert_ne by done. eauto.
Qed.

Lemma cas_after_read_spec i op k n st ph es :
  store_decodes st -> cas_after_read i op k n st = (ph, es) ->
  cas_pending_ok st op ph /\ atomic_run (cas_abs st) es (cas_abs st).
Proof.
  intros Hdec. unfold cas_after_read.
  destruct (read_and_decide op k st) as [[o|[[cur r] o]]|e] eqn:Hd; intros; simplify_eq/=.
  - pose proof (read_and_decide_spec _ _ _ _ Hdec Hd) as Hmut. split; [done|].
    apply atomic_cons with (cas_abs st); [|by constructor].
    split; [done|]. simpl. by rewrite Hmut.
  - destruct (read_and_decide_spec _ _ _ _ Hdec Hd) as [_ Hp].
    split; [apply (Hp n)|by constructor].
  - split; [done|by constructor].
Qed.

Lemma put_atomic_step i op n k cur r o st st' acked :
  cas_pending_ok st op (CasPending n k cur r o) ->
  os_put (path_of op) (encode_json r) (put_mode cur) st = Ok st' ->
  atomic_run (cas_abs st) [mkEvent i op k o acked] (cas_abs st').
Proof.
  intros Hp Hput. destruct (put_abs _ _ _ _ _ Hput) as [Hsame Hother].
  pose proof (put_finds_snapshot _ _ _ _ _ _ _ _ _ Hp Hput) as Hsnap.
  apply atomic_cons with (cas_abs st'); [|by constructor].
  split; simpl; [done|]. rewrite Hsnap. destruct Hp as [-> _]. done.
Qed.

Lemma cas_after_put_spec i op n k cur r o st st' ph es :
  cas_pending_ok st op (CasPending n k cur r o) ->
  cas_after_put i op n k cur r o st = (st', ph, es) ->
  (st' = st /\ es = [] /\ cas_pending_ok st op ph)
  \/ (os_put (path_of op) (encode_json r) (put_mode cur) st = Ok st'
      /\ ph = CasDone (Ok o) /\ atomic_run (cas_abs st) es (cas_abs st')).
Proof.
  intros Hp. unfold cas_after_put. destruct (os_put _ _ _ _) as [st1|[]] eqn:Hput;
    intros; simplify_eq; [right|by left..].
  split_and!; [done..|]. by eapply put_atomic_step.
Qed.

Lemma cas_step_sim c es c' :
  cas_inv c -> cas_step c es c' ->
  cas_inv c' /\ atomic_run (cas_abs (fst c)) es (cas_abs (fst c')).
Proof.
  intros [Hdec Hcs] Hstep. destruct Hstep; simpl in *;
    try (split; [split; [done|apply clients_insert_inv; done]|by constructor]).
  - destruct (cas_after_read_spec _ _ _ _ _ _ _ Hdec H0).
    split; [split; [done|by apply clients_insert_inv]|done].
  - pose proof (Hcs _ _ _ H) as Hp.
    destruct (cas_after_put_spec _ _ _ _ _ _ _ _ _ _ _ Hp H0) as [(-> & -> & Hph)|(Hput & -> & Hrun)].
    + split; [split; [done|by apply clients_insert_inv]|by constructor].
    + split; [|done]. split; [by eapply put_store_decodes|].
      apply clients_insert_inv; [|done]. intros. eapply put_keeps_pending; eauto.
  - pose proof (Hcs _ _ _ H) as Hp. split; [|by eapply put_atomic_step].
    split; [by eapply put_store_decodes|].
    apply clients_insert_inv; [|done]. intros. eapply put_keeps_pending; eauto.
Qed.

Lemma atomic_run_app m es m1 es' m2 :
  atomic_run m es m1 -> atomic_run m1 es' m2 -> atomic_run m (es ++ es') m2.
Proof.
  intros Hrun. revert es' m2. induction Hrun as [m m' Heq|m e m1 es m1' Hs Hrun IH];
    intros es' m2 Hrun'; simpl.
  - inversion Hrun' as [? ? Heq'|? e ? es1 ? [Ho Hm] Hr]; subst.
    + constructor. intros q. by rewrite Heq'.
    + econstructor; [|done]. split.
      * intros q Hq. by rewrite Ho.
      * rewrite <- (Heq (path_of (ev_op e))). exact Hm.
  - econstructor; eauto.
Qed.

Lemma cas_exec_sim c es c' :
  cas_inv c -> cas_exec c es c' ->
  cas_inv c' /\ atomic_run (cas_abs (fst c)) es (cas_abs (fst c')).
Proof.
  intros Hinv Hexec. induction Hexec as [c|c es c1 es' c2 Hstep Hexec IH].
  - split; [done|by constructor].
  - destruct (cas_step_sim _ _ _ Hinv Hstep) as [Hinv1 Hrun].
    destruct (IH Hinv1) as [Hinv2 Hrun2]. split; [done|]. by eapply atomic_run_app.
Qed.

(** ** Exactly-once accounting

    A caller that was told [Ok] has exactly one event in the history, with
    the value it was told; a caller that saw an error has at most one. *)

Definition events_of (i : nat) (es : list event) : list event :=
  filter (fun e => ev_client e = i) es.

Definition log_ok (i : nat) (op : Op) (res : option (result (StoreError E) Out))
    (es : list event) : Prop :=
  match res with
  | None => es = []
  | Some (Ok o) => exists k, es = [mkEvent i op k o true]
  | Some (Err _) => es = [] \/ exists k o, es = [mkEvent i op k o false]
  end.

Definition logs_ok {P : Type} (result_of : P -> option (result (StoreError E) Out))
    (cs : gmap nat (Op * P)) (es : list event) : Prop :=
  forall i, match cs !! i with
            | None => events_of i es = []
            | Some (op, ph) => log_ok i op (result_of ph) (events_of i es)
            end.

Definition cas_result (ph : cas_phase) : option (result (StoreError E) Out) :=
  match ph with CasDone res => Some res | _ => None end.

Definition local_result (ph : local_phase) : option (result (StoreError E) Out) :=
  match ph with LocalHolding res | LocalDone res => Some res | _ => None end.

(** What one step of client [i] may do to its own entry. *)
Definition client_moves {P : Type} (result_of : P -> option (result (StoreError E) Out))
    (i : nat) (cs : gmap nat (Op * P)) (es : list event) (cs' : gmap nat (Op * P)) : Prop :=
  exists op ph', cs' = <[i := (op, ph')]> cs
    /\ (forall e, e ∈ es -> ev_client e = i)
    /\ match cs !! i with
       | None => es = [] /\ result_of ph' = None
       | Some (op0, ph0) =>
           op0 = op /\ ((result_of ph0 = None /\ log_ok i op (result_of ph') es)
                        \/ (es = [] /\ result_of ph' = result_of ph0))
       end.

Lemma events_of_other i j es :
  (forall e, e ∈ es -> ev_client e = i) -> i <> j -> events_of j es = [].
Proof.
  intros Hes Hne. unfold events_of. induction es as [|e es IH]; [done|].
  rewrite filter_cons_False.
  - apply IH. intros. apply Hes. by right.
  - rewrite (Hes e) by left. done.
Qed.

Lemma events_of_self i es :
  (forall e, e ∈ es -> ev_client e = i) -> events_of i es = es.
Proof.
  intros Hes. unfold events_of. induction es as [|e es IH]; [done|].
  rewrite filter_cons_True by (apply Hes; left).
  rewrite IH; [done|]. intros. apply Hes. by right.
Qed.

Lemma client_moves_logs {P} (result_of : P -> option (result (StoreError E) Out)) i cs es cs' pre :
  client_moves result_of i cs es cs' -> logs_ok result_of cs pre ->
  logs_ok result_of cs' (pre ++ es).
Proof.
  intros (op & ph' & -> & Hes & Hi) Hlogs j. pose proof (Hlogs j) as Hj.
  unfold events_of. rewrite list.filter_app. fold (events_of j pre) (events_of j es).
  destruct (decide (i = j)) as [<-|Hne].
  - rewrite lookup_insert_eq, (events_of_self i es Hes).
    destruct (cs !! i) as [[op0 ph0]|] eqn:Hci.
    + destruct Hi as (-> & [(Hnone & Hlog)|(-> & ->)]).
      * rewrite Hnone in Hj. simpl in Hj. by rewrite Hj.
      * by rewrite app_nil_r.
    + destruct Hi as (-> & ->). simpl. by rewrite app_nil_r.
  - rewrite lookup_insert_ne, (events_of_other i j es), app_nil_r by done. done.
Qed.

(** Every event of a step belongs to the client that moves. *)
Ltac own_events :=
  first [ by intros ? ?%elem_of_nil | by intros ? ->%list_elem_of_singleton ].

Lemma cas_step_moves c es c' :
  cas_step c es c' -> exists i, client_moves cas_result i (snd c) es (snd c').
Proof.
  intros Hstep. destruct Hstep as
    [st cs i op Hi|st cs i op n k ph es Hi Hr|st cs i op n k cur r o st' ph es Hi Hp
    |st cs i op Hi|st cs i op n Hi|st cs i op n k cur r o st' Hi Hp|st cs i op n k cur r o Hi];
    exists i; simpl; eexists _, _; (split; [reflexivity|]); rewrite Hi; simpl;
    try (split; [by intros ? ?%elem_of_nil|]); try (split; [done|left; split; [done|by left]]); eauto.
  - unfold cas_after_read in Hr. destruct (read_and_decide _ _ _) as [[?|[[??]?]]|];
      simplify_eq; (split; [own_events|split; [done|left; split; [done|]]]); simpl; eauto.
  - unfold cas_after_put in Hp. destruct (os_put _ _ _ _) as [?|[]];
      simplify_eq; (split; [own_events|split; [done|left; split; [done|]]]); simpl; eauto.
  - split; [own_events|]. split; [done|]. left. split; [done|]. right. eauto.
Qed.

Lemma cas_exec_logs c es c' pre :
  cas_exec c es c' -> logs_ok cas_result (snd c) pre -> logs_ok cas_result (snd c') (pre ++ es).
Proof.
  intros Hexec. revert pre. induction Hexec as [c|c es c1 es' c2 Hstep Hexec IH]; intros pre Hlogs.
  - by rewrite app_nil_r.
  - destruct (cas_step_moves _ _ _ Hstep) as [i Hm].
    rewrite app_assoc. apply IH. by eapply client_moves_logs.
Qed.

Lemma logs_ok_empty {P} (result_of : P -> option (result (StoreError E) Out)) :
  logs_ok result_of ∅ [].
Proof. intros i. by rewrite lookup_empty. Qed.

(** ** The history of one record *)

Definition record_step (c : option R) (e : event) (c' : option R) : Prop :=
  match op_mutate (ev_op e) (ev_clock e) c with
  | Ok (Unchanged o) => o = ev_out e /\ c' = c
  | Ok (Replace r o) => o = ev_out e /\ c' = Some r
  | Err _ => False
  end.

Inductive record_hist : option R -> list event -> option R -> Prop :=
| record_hist_nil c : record_hist c [] c
| record_hist_cons c e c1 es c2 :
    record_step c e c1 -> record_hist c1 es c2 -> record_hist c (e :: es) c2.

Definition events_at (p : string) (es : list event) : list event :=
  filter (fun e => path_of (ev_op e) = p) es.

Lemma atomic_run_project p m es m' :
  atomic_run m es m' -> record_hist (m p) (events_at p es) (m' p).
Proof.
  intros Hrun. induction Hrun as [m m' Heq|m e m1 es m2 [Hother Hp] Hrun IH].
  - rewrite Heq. constructor.
  - unfold events_at. destruct (decide (path_of (ev_op e) = p)) as [<-|Hne].
    + rewrite filter_cons_True by done. econstructor; [|exact IH].
      unfold record_step. by destruct (op_mutate _ _ _) as [[]|].
    + rewrite filter_cons_False by done. rewrite <- (Hother p) by done. exact IH.
Qed.

Lemma record_hist_app_inv c es es' c2 :
  record_hist c (es ++ es') c2 -> exists c1, record_hist c es c1 /\ record_hist c1 es' c2.
Proof.
  revert c. induction es as [|e es IH]; intros c Hh; simpl in *.
  - exists c. split; [constructor|done].
  - inversion Hh; subst. destruct (IH _ ltac:(eassumption)) as (c1' & ? & ?).
    exists c1'. split; [by econstructor|done].
Qed.

(** Split a history at an event. *)
Lemma record_hist_split c es1 e es2 c2 :
  record_hist c (es1 ++ e :: es2) c2 ->
  exists c0 c1, record_hist c es1 c0 /\ record_step c0 e c1 /\ record_hist c1 es2 c2.
Proof.
  intros (c0 & H1 & H2)%record_hist_app_inv. inversion H2; subst. eauto.
Qed.

Lemma events_at_elem p e es : e ∈ es -> path_of (ev_op e) = p -> e ∈ events_at p es.
Proof. intros. by apply list_elem_of_filter. Qed.

(** Two different events of one record are ordered. *)
Lemma events_at_ordered p e1 e2 es :
  e1 ∈ es -> e2 ∈ es -> e1 <> e2 -> path_of (ev_op e1) = p -> path_of (ev_op e2) = p ->
  exists l1 l2 l3, events_at p es = l1 ++ e1 :: l2 ++ e2 :: l3
                   \/ events_at p es = l1 ++ e2 :: l2 ++ e1 :: l3.
Proof.
  intros H1 H2 Hne Hp1 Hp2.
  apply (events_at_elem p) in H1, H2; [|done..]. revert H1 H2.
  generalize (events_at p es) as l. intros l (l1 & l2 & ->)%list_elem_of_split H2.
  apply elem_of_app in H2 as [H2|H2].
  - apply list_elem_of_split in H2 as (l3 & l4 & ->).
    exists l3, l4, l2. right. by rewrite <- app_assoc.
  - apply elem_of_cons in H2 as [->|H2]; [done|].
    apply list_elem_of_split in H2 as (l3 & l4 & ->). exists l1, l3, l4. by left.
Qed.

(** What a client that was told [Ok] left in the history. *)
Lemma logs_ok_event {P} (result_of : P -> option (result (StoreError E) Out)) cs es i op ph o :
  logs_ok result_of cs es -> cs !! i = Some (op, ph) -> result_of ph = Some (Ok o) ->
  exists k, mkEvent i op k o true ∈ es.
Proof.
  intros Hlogs Hi Hres. specialize (Hlogs i). rewrite Hi, Hres in Hlogs.
  destruct Hlogs as [k Hk]. exists k.
  assert (mkEvent i op k o true ∈ events_of i es) as He by (rewrite Hk; by left).
  by apply list_elem_of_filter in He as [_ ?].
Qed.

(** An event in the history belongs to a client that has finished. *)
Lemma logs_ok_event_inv {P} (result_of : P -> option (result (StoreError E) Out)) cs es e :
  logs_ok result_of cs es -> e ∈ es ->
  exists ph res, cs !! ev_client e = Some (ev_op e, ph) /\ result_of ph = Some res.
Proof.
  intros Hlogs He. specialize (Hlogs (ev_client e)).
  assert (e ∈ events_of (ev_client e) es) as Hin by (by apply list_elem_of_filter).
  destruct (cs !! ev_client e) as [[op ph]|].
  - unfold log_ok in Hlogs. destruct (result_of ph) as [[o|err]|] eqn:Hr.
    + destruct Hlogs as [k Hk]. rewrite Hk in Hin.
      apply list_elem_of_singleton in Hin as ->. eauto.
    + destruct Hlogs as [Hk|(k & o & Hk)]; rewrite Hk in Hin; [by apply elem_of_nil in Hin|].
      apply list_elem_of_singleton in Hin as ->. eauto.
    + rewrite Hlogs in Hin. by apply elem_of_nil in Hin.
  - rewrite Hlogs in Hin. by apply elem_of_nil in Hin.
Qed.

(** ** Refinement of the local backend *)

Definition local_holds (ph : local_phase) : bool :=
  match ph with LocalIdle | LocalDone _ => false | _ => true end.

(** Who is past the lock holds it, and what a writer decided still follows
    from the current record. *)
Definition local_client_ok (dir : gmap string B) (locks : gmap string nat)
    (i : nat) (op : Op) (ph : local_phase) : Prop :=
  (local_holds ph = true -> locks !! path_of op = Some i)
  /\ match ph with
     | LocalWriting k r o => op_mutate op k (local_abs dir (path_of op)) = Ok (Replace r o)
     | _ => True
     end.

Definition local_inv (c : local_config) : Prop :=
  dir_decodes (lc_dir c)
  /\ forall i op ph, lc_clients c !! i = Some (op, ph) ->
       local_client_ok (lc_dir c) (lc_locks c) i op ph.

Lemma temporary_not_record pid p : str_ends_with ".json" (temporary_name pid p) = false.
Proof.
  unfold temporary_name, str_ends_with.
  rewrite !str_rev_app, !str_app_assoc. done.
Qed.

Lemma local_abs_insert_temporary dir pid p b q :
  local_abs (<[temporary_name pid p := b]> dir) q = local_abs dir q.
Proof.
  unfold local_abs. destruct (str_ends_with ".json" q) eqn:Hq; [|done].
  rewrite lookup_insert_ne; [done|]. intros <-. by rewrite temporary_not_record in Hq.
Qed.

Lemma write_local_record_spec create_new pid p r dir dir' :
  is_record_name p ->
  write_local_record create_new pid p (encode_json r) dir = Ok dir' ->
  local_abs dir' p = Some r /\ (forall q, q <> p -> local_abs dir' q = local_abs dir q)
  /\ (dir_decodes dir -> dir_decodes dir').
Proof.
  intros Hp. unfold write_local_record. case_match; [done|]. intros; simplify_eq.
  split_and!.
  - unfold local_abs. rewrite Hp, lookup_insert_eq. apply decode_encode.
  - intros q Hq. unfold local_abs. destruct (str_ends_with ".json" q) eqn:Hj; [|done].
    rewrite lookup_insert_ne, lookup_delete_ne, lookup_insert_ne; [done|..]; [..|done];
      intros <-; by rewrite temporary_not_record in Hj.
  - intros Hdec q b Hq. destruct (decide (q = p)) as [->|Hne].
    + rewrite lookup_insert_eq. intros; simplify_eq. rewrite decode_encode. eauto.
    + rewrite lookup_insert_ne by done. rewrite lookup_delete_ne, lookup_insert_ne; [by apply Hdec|..];
        intros <-; unfold is_record_name in Hq; by rewrite temporary_not_record in Hq.
Qed.

Lemma read_local_record_spec p dir cur :
  is_record_name p -> read_local_record p dir = Ok cur -> cur = local_abs dir p.
Proof.
  intros Hp. unfold read_local_record, local_abs. rewrite Hp.
  destruct (dir !! p) as [b|]; [|by intros; simplify_eq].
  by destruct (decode_json b); intros; simplify_eq.
Qed.

(** Clients are unaffected by a change of the directory away from the
    records they address. *)
Lemma local_client_frame dir dir' locks i op ph :
  local_abs dir' (path_of op) = local_abs dir (path_of op) ->
  local_client_ok dir locks i op ph -> local_client_ok dir' locks i op ph.
Proof. intros Heq [Hh Hw]. split; [done|]. destruct ph; try done. by rewrite Heq. Qed.

Lemma local_insert_inv dir locks (cs : gmap nat (Op * local_phase)) i op ph :
  (forall j opj phj, cs !! j = Some (opj, phj) -> j <> i -> local_client_ok dir locks j opj phj) ->
  local_client_ok dir locks i op ph ->
  forall j opj phj, <[i := (op, ph)]> cs !! j = Some (opj, phj) ->
    local_client_ok dir locks j opj phj.
Proof.
  intros Hcs Hph j opj phj. destruct (decide (i = j)) as [<-|Hne].
  - rewrite lookup_insert_eq. by intros; simplify_eq.
  - rewrite lookup_insert_ne by done. intros. by apply Hcs.
Qed.

(** Another client that is writing addresses another record. *)
Lemma writers_disjoint dir locks i j op opj ph phj :
  local_client_ok dir locks i op ph -> local_holds ph = true ->
  local_client_ok dir locks j opj phj -> i <> j ->
  local_holds phj = false \/ path_of opj <> path_of op.
Proof.
  intros [Hi _] Hh [Hj _] Hne. destruct (local_holds phj) eqn:Hhj; [right|by left].
  intros Heq. specialize (Hi Hh). specialize (Hj eq_refl). rewrite Heq, Hi in Hj. congruence.
Qed.

Section LocalRefinement.
Hypothesis paths_are_records : forall op, is_record_name (path_of op).

Lemma write_keeps_others create_new pid dir dir' locks i j op opj r ph phj :
  write_local_record create_new pid (path_of op) (encode_json r) dir = Ok dir' ->
  local_client_ok dir locks i op ph -> local_holds ph = true ->
  local_client_ok dir locks j opj phj -> j <> i ->
  local_client_ok dir' locks j opj phj.
Proof.
  intros Hw Hi Hh Hj Hne.
  destruct (write_local_record_spec _ _ _ _ _ _ (paths_are_records op) Hw) as (_ & Hother & _).
  destruct (writers_disjoint _ _ _ _ _ _ _ _ Hi Hh Hj (not_eq_sym Hne)) as [Hf|Hp].
  - split; [destruct Hj; congruence|]. by destruct phj.
  - eapply local_client_frame; [|done]. by apply Hother.
Qed.

Lemma local_after_read_spec i op k dir locks ph es :
  locks !! path_of op = Some i ->
  local_after_read i op k dir = (ph, es) ->
  local_client_ok dir locks i op ph /\ atomic_run (local_abs dir) es (local_abs dir).
Proof.
  intros Hl. unfold local_after_read.
  destruct (read_local_record _ _) as [cur|e] eqn:Hr.
  - apply read_local_record_spec in Hr as ->; [|done].
    destruct (op_mutate op k _) as [[o|r o]|e] eqn:Hm; intros; simplify_eq.
    + split; [by split|]. apply atomic_cons with (local_abs dir); [|by constructor].
      split; [done|]. simpl. by rewrite Hm.
    + split; [by split|]. by constructor.
    + split; [by split|]. by constructor.
  - intros; simplify_eq. split; [by split|]. by constructor.
Qed.

Lemma write_atomic_step create_new pid dir dir' locks i op k r o acked :
  local_client_ok dir locks i op (LocalWriting k r o) ->
  write_local_record create_new pid (path_of op) (encode_json r) dir = Ok dir' ->
  atomic_run (local_abs dir) [mkEvent i op k o acked] (local_abs dir').
Proof.
  intros [_ Hm] Hw.
  destruct (write_local_record_spec _ _ _ _ _ _ (paths_are_records op) Hw) as (Hs & Ho & _).
  apply atomic_cons with (local_abs dir'); [|by constructor].
  split; simpl; [done|]. by rewrite Hm.
Qed.

Lemma local_step_sim create_new pid_of c es c' :
  local_inv c -> local_step create_new pid_of c es c' ->
  local_inv c' /\ atomic_run (local_abs (lc_dir c)) es (local_abs (lc_dir c')).
Proof.
  intros [Hdec Hcs] Hstep.
  destruct Hstep as [c i op Hi|dir locks cs i op Hi Hfree|c i op k ph es Hi Hr
    |dir locks cs i op k r o dir' ph es Hi Hw|dir locks cs i op k r o partial Hi
    |dir locks cs i op k r o dir' Hi Hw|dir locks cs i op res Hi]; simpl in *.
  - split; [split; [done|]|by constructor]. simpl.
    apply local_insert_inv; [eauto|]. by split.
  - split; [split; [done|]|by constructor]. simpl. apply local_insert_inv.
    + intros j opj phj Hj Hne. destruct (Hcs _ _ _ Hj) as [Hh Hm]. split; [|done].
      intros Hhj. rewrite lookup_insert_ne; [by apply Hh|].
      intros Heq. rewrite Heq, (Hh Hhj) in Hfree. done.
    + split; [|done]. intros _. apply lookup_insert_eq.
  - destruct (Hcs _ _ _ Hi) as [Hh _].
    destruct (local_after_read_spec _ _ _ _ (lc_locks c) _ _ (Hh eq_refl) Hr).
    split; [split; [done|]|done]. simpl. apply local_insert_inv; eauto.
  - pose proof (Hcs _ _ _ Hi) as Hok. unfold local_after_write in Hw.
    destruct (write_local_record _ _ _ _ _) as [d|] eqn:Hwr; simplify_eq.
    + split; [split|by eapply write_atomic_step]; simpl.
      * by eapply write_local_record_spec.
      * apply local_insert_inv; [intros; by eapply write_keeps_others; eauto|].
        split; [apply Hok|done].
    + split; [split; [done|]|by constructor]. simpl.
      apply local_insert_inv; [eauto|]. split; [apply Hok|done].
  - pose proof (Hcs _ _ _ Hi) as Hok.
    split; [split|constructor; apply local_abs_insert_temporary]; simpl.
    + intros q b Hq. rewrite lookup_insert_ne; [by apply Hdec|].
      intros <-. unfold is_record_name in Hq. by rewrite temporary_not_record in Hq.
    + apply local_insert_inv; [|split; [apply Hok|done]].
      intros j opj phj Hj _. eapply local_client_frame; [|eauto]. apply local_abs_insert_temporary.
  - pose proof (Hcs _ _ _ Hi) as Hok.
    split; [split|by eapply write_atomic_step]; simpl.
    + by eapply write_local_record_spec.
    + apply local_insert_inv; [intros; by eapply write_keeps_others; eauto|].
      split; [apply Hok|done].
  - pose proof (Hcs _ _ _ Hi) as Hok.
    split; [split; [done|]|by constructor]. simpl. apply local_insert_inv; [|by split].
    intros j opj phj Hj Hne.
    destruct (writers_disjoint _ _ _ _ _ _ _ _ Hok eq_refl (Hcs _ _ _ Hj) (not_eq_sym Hne)) as [Hf|Hp];
      destruct (Hcs _ _ _ Hj) as [Hh Hm]; (split; [|done]); intros Hhj; [congruence|].
    rewrite lookup_delete_ne by done. by apply Hh.
Qed.

Lemma local_exec_sim create_new pid_of c es c' :
  local_inv c -> local_exec create_new pid_of c es c' ->
  local_inv c' /\ atomic_run (local_abs (lc_dir c)) es (local_abs (lc_dir c')).
Proof.
  intros Hinv Hexec. induction Hexec as [c|c es c1 es' c2 Hstep Hexec IH].
  - split; [done|by constructor].
  - destruct (local_step_sim _ _ _ _ _ Hinv Hstep) as [Hinv1 Hrun].
    destruct (IH Hinv1) as [Hinv2 Hrun2]. split; [done|]. by eapply atomic_run_app.
Qed.

Lemma local_step_moves create_new pid_of c es c' :
  local_step create_new pid_of c es c' ->
  exists i, client_moves local_result i (lc_clients c) es (lc_clients c').
Proof.
  intros Hstep.
  destruct Hstep as [c i op Hi|dir locks cs i op Hi Hfree|c i op k ph es Hi Hr
    |dir locks cs i op k r o dir' ph es Hi Hw|dir locks cs i op k r o partial Hi
    |dir locks cs i op k r o dir' Hi Hw|dir locks cs i op res Hi];
    exists i; simpl; eexists _, _; (split; [reflexivity|]); rewrite Hi; simpl.
  - split; [own_events|done].
  - split; [own_events|]. split; [done|]. by left.
  - unfold local_after_read in Hr.
    destruct (read_local_record _ _); [destruct (op_mutate _ _ _) as [[]|]|];
      simplify_eq; (split; [own_events|split; [done|left; split; [done|]]]); simpl; eauto.
  - unfold local_after_write in Hw. destruct (write_local_record _ _ _ _ _);
      simplify_eq; (split; [own_events|split; [done|left; split; [done|]]]); simpl; eauto.
  - split; [own_events|]. split; [done|]. left. split; [done|]. by left.
  - split; [own_events|]. split; [done|]. left. split; [done|]. right. eauto.
  - split; [own_events|]. split; [done|]. by right.
Qed.

Lemma local_exec_logs create_new pid_of c es c' pre :
  local_exec create_new pid_of c es c' ->
  logs_ok local_result (lc_clients c) pre -> logs_ok local_result (lc_clients c') (pre ++ es).
Proof.
  intros Hexec. revert pre. induction Hexec as [c|c es c1 es' c2 Hstep Hexec IH]; intros pre Hlogs.
  - by rewrite app_nil_r.
  - destruct (local_step_moves _ _ _ _ _ Hstep) as [i Hm].
    rewrite app_assoc. apply IH. by eapply client_moves_logs.
Qed.

(** C4: on the local backend, from a directory whose records decode and with
    no caller yet, every interleaving of callers (torn and unacknowledged
    writes included) is a sequence of atomic operations; each caller that got
    [Ok] has exactly its one operation in that sequence; and no two callers
    are ever inside the critical section of one record. *)
Theorem local_backend_linearizable create_new pid_of dir es c :
  dir_decodes dir ->
  local_exec create_new pid_of (mkLocal dir ∅ ∅) es c ->
  atomic_run (local_abs dir) es (local_abs (lc_dir c))
  /\ logs_ok local_result (lc_clients c) es
  /\ (forall i j op opj ph phj,
        lc_clients c !! i = Some (op, ph) -> lc_clients c !! j = Some (opj, phj) ->
        local_holds ph = true -> local_holds phj = true ->
        path_of op = path_of opj -> i = j).
Proof.
  intros Hdec Hexec.
  assert (local_inv (mkLocal dir ∅ ∅)) as Hinv.
  { split; [done|]. intros i op ph. simpl. by rewrite lookup_empty. }
  destruct (local_exec_sim _ _ _ _ _ Hinv Hexec) as [[_ Hcs] Hrun].
  pose proof (local_exec_logs _ _ _ _ _ [] Hexec (logs_ok_empty _)) as Hlogs.
  split_and!; [done|done|].
  intros i j op opj ph phj Hi Hj Hhi Hhj Hp.
  destruct (Hcs _ _ _ Hi) as [Hli _], (Hcs _ _ _ Hj) as [Hlj _].
  specialize (Hli Hhi). specialize (Hlj Hhj). rewrite Hp in Hli. congruence.
Qed.

(** The section a lone caller runs is the atomic operation. *)
Lemma mutate_local_atomic pid k op dir m :
  dir_decodes dir ->
  op_mutate op k (local_abs dir (path_of op)) = Ok m ->
  exists dir', mutate_local false pid k op dir
               = (Ok match m with Unchanged o | Replace _ o => o end, dir')
    /\ local_abs dir' (path_of op)
       = match m with Unchanged _ => local_abs dir (path_of op) | Replace r _ => Some r end
    /\ (forall q, q <> path_of op -> local_abs dir' q = local_abs dir q)
    /\ dir_decodes dir'.
Proof.
  intros Hdec Hm. unfold mutate_local.
  assert (read_local_record (path_of op) dir = Ok (local_abs dir (path_of op))) as Hread.
  { unfold read_local_record, local_abs. rewrite (paths_are_records op).
    destruct (dir !! path_of op) as [b|] eqn:Hb; [|done].
    destruct (Hdec _ _ (paths_are_records op) Hb) as [r Hr]. by rewrite Hr. }
  rewrite Hread, Hm. destruct m as [o|r o]; [by eexists|].
  destruct (write_local_record false pid (path_of op) (encode_json r) dir) as [d|] eqn:Hw.
  - eexists. split; [done|].
    destruct (write_local_record_spec _ _ _ _ _ _ (paths_are_records op) Hw) as (? & ? & Hd).
    split_and!; [done..|by apply Hd].
  - by unfold write_local_record in Hw.
Qed.

End LocalRefinement.

(** C3: on the object backend, from a store whose objects decode and with no
    caller yet, every interleaving of callers (lost, unacknowledged and
    conflicting puts included) is a sequence of atomic operations, and each
    caller that got [Ok] has exactly its one operation in that sequence. *)
Theorem object_backend_linearizable st es st' cs :
  store_decodes st ->
  cas_exec (st, ∅) es (st', cs) ->
  atomic_run (cas_abs st) es (cas_abs st') /\ logs_ok cas_result cs es.
Proof.
  intros Hdec Hexec.
  assert (cas_inv (st, ∅)) as Hinv.
  { split; [done|]. intros i op ph. simpl. by rewrite lookup_empty. }
  destruct (cas_exec_sim _ _ _ Hinv Hexec) as [_ Hrun].
  pose proof (cas_exec_logs _ _ _ [] Hexec (logs_ok_empty _)). done.
Qed.

(** A pass of the retry loop that no other writer disturbs ends the loop: it
    returns the closure's value (or its error) and leaves the record the
    closure asked for. *)
Lemma mutate_object_pass n ks interf op st :
  store_decodes st ->
  interf n st = st ->
  exists st',
    mutate_object (S n) ks interf op st
    = (match op_mutate op (ks n) (cas_abs st (path_of op)) with
       | Ok (Unchanged o) | Ok (Replace _ o) => Ok o
       | Err e => Err (MutateError e)
       end, st')
    /\ cas_abs st' (path_of op)
       = match op_mutate op (ks n) (cas_abs st (path_of op)) with
         | Ok (Replace r _) => Some r
         | _ => cas_abs st (path_of op)
         end
    /\ (forall q, q <> path_of op -> cas_abs st' q = cas_abs st q)
    /\ store_decodes st'.
Proof.
  intros Hdec Hint. simpl. unfold read_and_decide, read_object_record.
  destruct (os_get (path_of op) st) as [[b v]|] eqn:Hg.
  - destruct (Hdec _ _ _ Hg) as [r0 Hr0]. rewrite Hr0. simpl.
    assert (cas_abs st (path_of op) = Some r0) as -> by (unfold cas_abs; by rewrite Hg).
    destruct (op_mutate op (ks n) (Some r0)) as [[o|r o]|e];
      [exists st; split_and!; try done; unfold cas_abs; by rewrite Hg| |
       exists st; split_and!; try done; unfold cas_abs; by rewrite Hg].
    rewrite Hint. destruct (os_put_update_live _ (encode_json r) _ _ _ Hg) as [st' Hput].
    simpl. rewrite Hput. exists st'. destruct (put_abs _ _ _ _ _ Hput). split_and!; [done..|by eapply put_store_decodes].
  - simpl. assert (cas_abs st (path_of op) = None) as -> by (unfold cas_abs; by rewrite Hg).
    destruct (op_mutate op (ks n) None) as [[o|r o]|e];
      [exists st; split_and!; try done; unfold cas_abs; by rewrite Hg| |
       exists st; split_and!; try done; unfold cas_abs; by rewrite Hg].
    rewrite Hint. destruct (os_put_create_live _ (encode_json r) _ Hg) as [st' Hput].
    simpl. rewrite Hput. exists st'. destruct (put_abs _ _ _ _ _ Hput). split_and!; [done..|by eapply put_store_decodes].
Qed.

(** One quiet pass is enough.  If the other writers leave decodable
    objects and there is a pass between whose read and put they do not write,
    the loop does not end in contention: it returns the value or the error of
    the closure, or an input/output error of the store. *)
Theorem mutate_object_no_livelock retries ks interf op st n :
  store_decodes st ->
  (forall i s, store_decodes s -> store_decodes (interf i s)) ->
  (n < retries)%nat ->
  (forall s, interf n s = s) ->
  match fst (mutate_object retries ks interf op st) with
  | Ok _ => True
  | Err (MutateError e) => exists i s, op_mutate op (ks i) (cas_abs s (path_of op)) = Err e
  | Err IoError => True
  | Err DecodeError | Err CasContention => False
  end.
Proof.
  intros Hdec Hint. revert st Hdec. induction retries as [|r IH]; intros st Hdec Hn Hq; [lia|].
  destruct (decide (n = r)) as [->|Hne].
  - destruct (mutate_object_pass r ks interf op st Hdec (Hq st)) as (st' & -> & _). simpl.
    destruct (op_mutate op (ks r) _) as [[]|] eqn:Hm; [done..|]. by exists r, st.
  - simpl. unfold read_and_decide.
    destruct (read_object_record _ _) as [cur|e] eqn:Hread; simpl.
    + destruct (read_object_record_spec _ _ _ Hdec Hread) as [Habs _].
      destruct (op_mutate op (ks r) _) as [[o|rec o]|e] eqn:Hm; simpl; [done| |].
      * destruct (os_put _ _ _ _) as [?|[]]; simpl; [done| | |done];
          (apply IH; [by apply Hint|lia|done]).
      * exists r, st. by rewrite <- Habs.
    + unfold read_object_record in Hread.
      destruct (os_get _ _) as [[b v]|] eqn:Hg; [|done].
      destruct (Hdec _ _ _ Hg) as [r0 Hr0]. by rewrite Hr0 in Hread.
Qed.

(** ** Executable schedules

    A schedule of client actions runs the steps above as a function, so that
    concrete executions can be computed. *)

Inductive action : Type :=
| ActInvoke (i : nat) (op : Op)
| ActLock (i : nat)
| ActRead (i : nat) (k : K)
| ActWrite (i : nat)
| ActUnlock (i : nat).

Definition cas_do (a : action) (c : cas_config) : option (list event * cas_config) :=
  let '(st, cs) := c in
  match a with
  | ActInvoke i op =>
      match cs !! i with
      | None => Some ([], (st, <[i := (op, CasIdle max_retries)]> cs))
      | Some _ => None
      end
  | ActRead i k =>
      match cs !! i with
      | Some (op, CasIdle (S n)) =>
          let '(ph, es) := cas_after_read i op k n st in Some (es, (st, <[i := (op, ph)]> cs))
      | _ => None
      end
  | ActWrite i =>
      match cs !! i with
      | Some (op, CasPending n k cur r o) =>
          let '(st', ph, es) := cas_after_put i op n k cur r o st in
          Some (es, (st', <[i := (op, ph)]> cs))
      | _ => None
      end
  | _ => None
  end.

Definition local_do (create_new : bool) (pid_of : nat -> string) (a : action) (c : local_config)
  : option (list event * local_config) :=
  let cs := lc_clients c in
  match a with
  | ActInvoke i op =>
      match cs !! i with None => Some ([], set_client i op LocalIdle c) | Some _ => None end
  | ActLock i =>
      match cs !! i with
      | Some (op, LocalIdle) =>
          match lc_locks c !! path_of op with
          | None => Some ([], mkLocal (lc_dir c) (<[path_of op := i]> (lc_locks c))
                                (<[i := (op, LocalLocked)]> cs))
          | Some _ => None
          end
      | _ => None
      end
  | ActRead i k =>
      match cs !! i with
      | Some (op, LocalLocked) =>
          let '(ph, es) := local_after_read i op k (lc_dir c) in Some (es, set_client i op ph c)
      | _ => None
      end
  | ActWrite i =>
      match cs !! i with
      | Some (op, LocalWriting k r o) =>
          let '(dir', ph, es) := local_after_write create_new (pid_of i) i op k r o (lc_dir c) in
          Some (es, mkLocal dir' (lc_locks c) (<[i := (op, ph)]> cs))
      | _ => None
      end
  | ActUnlock i =>
      match cs !! i with
      | Some (op, LocalHolding res) =>
          Some ([], mkLocal (lc_dir c) (delete (path_of op) (lc_locks c))
                      (<[i := (op, LocalDone res)]> cs))
      | _ => None
      end
  end.

Fixpoint schedule {C} (do : action -> C -> option (list event * C)) (acts : list action) (c : C)
  : option (list event * C) :=
  match acts with
  | [] => Some ([], c)
  | a :: acts' =>
      match do a c with
      | None => None
      | Some (es, c1) =>
          match schedule do acts' c1 with
          | None => None
          | Some (es', c2) => Some (es ++ es', c2)
          end
      end
  end.

Lemma cas_do_sound a c es c' : cas_do a c = Some (es, c') -> cas_step c es c'.
Proof.
  destruct c as [st cs], a; simpl; intros H; repeat case_match; simplify_eq; by econstructor.
Qed.

Lemma local_do_sound create_new pid_of a c es c' :
  local_do create_new pid_of a c = Some (es, c') -> local_step create_new pid_of c es c'.
Proof.
  destruct c as [dir locks cs], a; unfold local_do; simpl; intros H; repeat case_match; simplify_eq;
    by econstructor.
Qed.

Lemma cas_schedule_sound acts c es c' : schedule cas_do acts c = Some (es, c') -> cas_exec c es c'.
Proof.
  revert c es. induction acts as [|a acts IH]; intros c es H; simpl in H; repeat case_match;
    simplify_eq; [constructor|]. econstructor; [by eapply cas_do_sound|eauto].
Qed.

Lemma local_schedule_sound create_new pid_of acts c es c' :
  schedule (local_do create_new pid_of) acts c = Some (es, c') ->
  local_exec create_new pid_of c es c'.
Proof.
  revert c es. induction acts as [|a acts IH]; intros c es H; simpl in H; repeat case_match;
    simplify_eq; [constructor|]. econstructor; [by eapply local_do_sound|eauto].
Qed.

End Durable.

(** ** Concrete instances of the interfaces *)

Section Concrete.
Context {R B : Type}.

(** A codec that stores the record itself. *)
#[refine] Instance id_codec : Codec R R := {| encode_json r := r; decode_json := Some |}.
Proof. done. Defined.

(** A store that numbers versions with a counter. *)
Record versioned_store : Type := mkVersioned {
  vs_objects : gmap string (B * nat);
  vs_next : nat;
}.

Definition vs_get (p : string) (st : versioned_store) : option (B * nat) :=
  match vs_objects st !! p with
  | Some (b, v) => if (v <? vs_next st)%nat then Some (b, v) else None
  | None => None
  end.

Definition vs_write (p : string) (b : B) (st : versioned_store) : versioned_store :=
  mkVersioned
    (<[p := (b, vs_next st)]> (filter (fun kv => snd (snd kv) < vs_next st) (vs_objects st)))
    (S (vs_next st)).

Definition vs_put (p : string) (b : B) (m : PutMode nat) (st : versioned_store)
  : result PutError versioned_store :=
  match m, vs_get p st with
  | PutCreate, None => Ok (vs_write p b st)
  | PutCreate, Some _ => Err PutAlreadyExists
  | PutUpdate v, Some (_, v') => if (v =? v')%nat then Ok (vs_write p b st) else Err PutPrecondition
  | PutUpdate _, None => Err PutPrecondition
  end.

Lemma vs_put_inv p b m st st' :
  vs_put p b m st = Ok st' ->
  st' = vs_write p b st
  /\ match m with
     | PutCreate => vs_get p st = None
     | PutUpdate v => exists b0, vs_get p st = Some (b0, v)
     end.
Proof.
  unfold vs_put. destruct m as [|v], (vs_get p st) as [[b0 v']|]; try done.
  - by intros [= <-].
  - destruct (Nat.eqb_spec v v'); intros; simplify_eq. eauto.
Qed.

Lemma vs_get_lt p st b v : vs_get p st = Some (b, v) -> v < vs_next st.
Proof.
  unfold vs_get. destruct (vs_objects st !! p) as [[b0 v0]|]; [|done].
  destruct (Nat.ltb_spec v0 (vs_next st)); by intros; simplify_eq.
Qed.

Lemma vs_get_written p q b st :
  vs_get q (vs_write p b st) = if decide (p = q) then Some (b, vs_next st) else vs_get q st.
Proof.
  unfold vs_get, vs_write; simpl. rewrite lookup_insert. case_decide; simplify_eq.
  - by rewrite (proj2 (Nat.ltb_lt _ _)) by lia.
  - rewrite map_lookup_filter. destruct (vs_objects st !! q) as [[b0 v]|]; simpl; [|done].
    destruct (Nat.ltb_spec v (vs_next st)).
    + rewrite option_guard_True by done. simpl. by rewrite (proj2 (Nat.ltb_lt _ _)) by lia.
    + by rewrite option_guard_False by lia.
Qed.

#[refine] Instance versioned_object_store : ObjectStore versioned_store B nat := {|
  os_get := vs_get;
  os_put := vs_put;
  os_issued _ v st := v < vs_next st;
|}.
Proof.
  - intros. by eapply vs_get_lt.
  - by intros p b st st' [_ ?]%vs_put_inv.
  - by intros p b v st st' [_ ?]%vs_put_inv.
  - intros p b m st st' [-> _]%vs_put_inv. exists (vs_next st).
    rewrite vs_get_written, decide_True by done. split; [done|lia].
  - intros p q b m st st' [-> _]%vs_put_inv Hne. by rewrite vs_get_written, decide_False.
  - intros p q v b m st st' [-> _]%vs_put_inv Hv. simpl. lia.
  - intros p b st Hg. unfold vs_put. rewrite Hg. eauto.
  - intros p b b0 v st Hg. unfold vs_put. rewrite Hg, Nat.eqb_refl. eauto.
Defined.
End Concrete.

Arguments mkEvent {Op Out K}.
Arguments ev_client {Op Out K}.
Arguments ev_op {Op Out K}.
Arguments ev_clock {Op Out K}.
Arguments ev_out {Op Out K}.
Arguments ev_acked {Op Out K}.

(** ** Instances of the theorems

    Two callers add to one counter record; the second one's first put
    conflicts and is retried. *)

Module CounterExample.
#[local] Existing Instance id_codec.
#[local] Existing Instance versioned_object_store.

Definition path_of (_ : nat) : string := "ctr.json".

Definition add (n : nat) (_ : unit) (c : option nat) : result unit (Mutation nat nat) :=
  if (n =? 0)%nat then Ok (Unchanged (default 0 c))
  else Ok (Replace (default 0 c + n) (default 0 c + n)).

Definition acts : list (@action nat unit) :=
  [ActInvoke 0 5; ActInvoke 1 7; ActRead 0 tt; ActRead 1 tt; ActWrite 1; ActWrite 0;
   ActRead 0 tt; ActWrite 0].

Definition st0 : @versioned_store nat := mkVersioned ∅ 0.

Lemma st0_decodes : store_decodes (R := nat) (V := nat) st0.
Proof. intros p b v. simpl. unfold vs_get; simpl. by rewrite lookup_empty. Qed.

Lemma add_path_is_record op : is_record_name (path_of op).
Proof. reflexivity. Qed.

Lemma object_backend_linearizable_witness :
  exists es c,
    schedule (cas_do path_of add CAS_RETRIES) acts (st0, ∅) = Some (es, c)
    /\ cas_abs (R := nat) (fst c) "ctr.json" = Some 12
    /\ map ev_out es = [7; 12]
    /\ (atomic_run path_of add (cas_abs st0) es (cas_abs (fst c)) /\ logs_ok cas_result (snd c) es).
Proof.
  destruct (schedule (cas_do path_of add CAS_RETRIES) acts (st0, ∅)) as [[es [st' cs]]|] eqn:Hs;
    [|by vm_compute in Hs].
  exists es, (st', cs). split; [done|]. split; [|split].
  - vm_compute in Hs. injection Hs as <- <- <-. reflexivity.
  - vm_compute in Hs. injection Hs as <- <- <-. reflexivity.
  - apply (object_backend_linearizable path_of add CAS_RETRIES); [apply st0_decodes|].
    by eapply cas_schedule_sound.
Defined.

Definition local_acts : list (@action nat unit) :=
  [ActInvoke 0 5; ActInvoke 1 7; ActLock 0; ActRead 0 tt; ActWrite 0; ActUnlock 0;
   ActLock 1; ActRead 1 tt].

Lemma local_backend_linearizable_witness :
  exists es c,
    schedule (local_do path_of add false (fun _ => "1")) local_acts (mkLocal ∅ ∅ ∅) = Some (es, c)
    /\ lc_dir c !! "ctr.json" = Some 5
    /\ (atomic_run path_of add (local_abs ∅) es (local_abs (lc_dir c))
        /\ logs_ok local_result (lc_clients c) es).
Proof.
  destruct (schedule (local_do path_of add false (fun _ => "1")) local_acts (mkLocal ∅ ∅ ∅))
    as [[es c]|] eqn:Hs; [|by vm_compute in Hs].
  exists es, c. split; [done|]. split.
  - vm_compute in Hs. injection Hs as <- <-. reflexivity.
  - destruct (local_backend_linearizable path_of add add_path_is_record false (fun _ => "1") ∅ es c)
      as (? & ? & _).
    + intros p b _. by rewrite lookup_empty.
    + by eapply local_schedule_sound.
    + done.
Defined.

(** Interference in the first two of three passes, none in the last. *)
Definition interf (i : nat) (st : @versioned_store nat) : @versioned_store nat :=
  match i with 0 => st | _ => vs_write "ctr.json" 100 st end.

Lemma mutate_object_no_livelock_witness :
  fst (mutate_object path_of add 3 (fun _ => tt) interf 5 st0) = Ok 105
  /\ match fst (mutate_object path_of add 3 (fun _ => tt) interf 5 st0) with
     | Ok _ => True
     | Err (MutateError e) => exists (i : nat) (s : @versioned_store nat), add 5 tt (cas_abs s (path_of 5)) = Err e
     | Err IoError => True
     | Err DecodeError | Err CasContention => False
     end.
Proof.
  split; [vm_compute; reflexivity|].
  apply (mutate_object_no_livelock path_of add 3 (fun _ => tt) interf 5 st0 0).
  - apply st0_decodes.
  - intros i s _ p b v _. by exists b.
  - lia.
  - done.
Defined.
End CounterExample.
