(* ===== verification/RunControl.v ===== *)
(** * Run leases and terminal commits

    [RunControlStore] of [crates/persisting-pchronicle/src/store/run_control.rs].
    Each operation is a guard followed by a closure handed to [mutate]
    (see [Durable]); the closures are the functions [*_mutation] below.
    Clock reads are explicit: [acquire_lease_inner] reads the clock once
    before the first attempt, so its [now] is part of the operation; the
    other closures read it on every attempt, so theirs is the clock sample
    [RunClock] of the attempt. *)

From Stdlib Require Import ZArith Lia.
From stdpp Require Import base list strings gmap numbers option sorting.
From S2P Require Import Prelude RuntimeTypes Durable.

#[local] Set Warnings "-clear-no-such-hyp".

Inductive LeaseAcquireOutcome : Type :=
| Acquired (lease : RunLeaseRecord)
| Held (lease : RunLeaseRecord)
| LeaseAlreadyCommitted (commit : RunCommit).

Inductive CommitRunOutcome : Type :=
| Committed (commit : RunCommit)
| AlreadyCommitted (commit : RunCommit)
| StaleLease (supplied_epoch : Z) (current_epoch : option Z)
| Conflict (commit : RunCommit).

Inductive RunControlError : Type :=
| EmptyOwner
| EpochOverflow
| RevisionOverflow
| InvalidRecord
| NotTerminal
| ZeroEpoch
| EmptyDigest.

#[global] Instance LeaseAcquireOutcome_eq_dec : EqDecision LeaseAcquireOutcome.
Proof. solve_decision. Defined.
#[global] Instance CommitRunOutcome_eq_dec : EqDecision CommitRunOutcome.
Proof. solve_decision. Defined.
#[global] Instance RunControlError_eq_dec : EqDecision RunControlError.
Proof. solve_decision. Defined.

(** ** Record locations *)

Definition hex_digit (n : N) : Ascii.ascii :=
  if (n <? 10)%N then Ascii.ascii_of_N (48 + n) else Ascii.ascii_of_N (87 + n).

(** The bytes kept as they are: [a-z], [A-Z], [0-9], [-], [_], [.]. *)
Definition is_plain_byte (a : Ascii.ascii) : bool :=
  byte_in 97 122 a || byte_in 65 90 a || byte_in 48 57 a
  || byte_is 45 a || byte_is 95 a || byte_is 46 a.

(** Every other byte becomes [~] and two hexadecimal digits. *)
Fixpoint encoded_run_id (run_id : string) : string :=
  match run_id with
  | EmptyString => EmptyString
  | String a rest =>
      if is_plain_byte a then String a (encoded_run_id rest)
      else
        let n := Ascii.N_of_ascii a in
        String (Ascii.ascii_of_N 126)
          (String (hex_digit (n / 16)) (String (hex_digit (n mod 16)) (encoded_run_id rest)))
  end.

Definition record_name (run_id : RunId) : string := encoded_run_id run_id +:+ ".json".

(** ** The closures *)

(** [next_record]: clone or create, check the identity, bump the revision. *)
Definition next_record (current : option RunControlRecord) (run_id : RunId)
    (apply : RunControlRecord -> RunControlRecord) : result RunControlError RunControlRecord :=
  let record := default (mkRunControlRecord 0 run_id None None) current in
  if negb (bool_decide (rec_run_id record = run_id)) then Err InvalidRecord
  else
    let? revision := ok_or (u64_checked_add (rec_revision record) 1) RevisionOverflow in
    Ok (apply (set_rec_revision revision record)).

Definition current_lease (current : option RunControlRecord) : option RunLeaseRecord :=
  current ≫= rec_lease.

Definition current_commit (current : option RunControlRecord) : option RunCommit :=
  current ≫= rec_commit.

Definition acquire_mutation (run_id : RunId) (task_id : option string) (owner : string)
    (ttl_ms : Z) (force : bool) (now : Z) (current : option RunControlRecord)
  : result RunControlError (Mutation RunControlRecord LeaseAcquireOutcome) :=
  let expires := u64_saturating_add now (Z.max ttl_ms 1) in
  let fresh :=
    let? epoch := ok_or
      (u64_checked_add (default 0%Z (lease_epoch <$> current_lease current)) 1) EpochOverflow in
    let lease := mkRunLeaseRecord run_id task_id epoch owner now expires None in
    let? record := next_record current run_id (set_rec_lease (Some lease)) in
    Ok (Replace record (Acquired lease)) in
  match current_commit current with
  | Some commit => Ok (Unchanged (LeaseAlreadyCommitted commit))
  | None =>
      match current_lease current with
      | Some existing =>
          if negb (bool_decide (lease_owner existing = owner))
             && (now <? lease_expires_at_unix_ms existing)%Z && negb force
          then Ok (Unchanged (Held existing))
          else if bool_decide (lease_owner existing = owner) && negb force
          then
            let renewed := set_lease_expiry expires existing in
            let? record := next_record current run_id (set_rec_lease (Some renewed)) in
            Ok (Replace record (Acquired renewed))
          else fresh
      | None => fresh
      end
  end.

Definition bind_mutation (run_id : RunId) (epoch : Z) (attempt_id : AttemptId) (now : Z)
    (current : option RunControlRecord) : result RunControlError (Mutation RunControlRecord bool) :=
  match current with
  | None => Ok (Unchanged false)
  | Some record =>
      match rec_lease record with
      | None => Ok (Unchanged false)
      | Some lease =>
          if bool_decide (is_Some (rec_commit record))
             || negb (lease_epoch lease =? epoch)%Z
             || (lease_expires_at_unix_ms lease <=? now)%Z
          then Ok (Unchanged false)
          else if bool_decide (lease_attempt_id lease = Some attempt_id)
          then Ok (Unchanged true)
          else if bool_decide (is_Some (lease_attempt_id lease))
          then Ok (Unchanged false)
          else
            let? next := next_record (Some record) run_id (fun r =>
              set_rec_lease (set_lease_attempt (Some attempt_id) <$> rec_lease r) r) in
            Ok (Replace next true)
      end
  end.

Definition renew_mutation (run_id : RunId) (epoch : Z) (owner : string) (ttl_ms : Z) (now : Z)
    (current : option RunControlRecord) : result RunControlError (Mutation RunControlRecord bool) :=
  match current with
  | None => Ok (Unchanged false)
  | Some record =>
      let matches :=
        negb (bool_decide (is_Some (rec_commit record)))
        && match rec_lease record with
           | None => false
           | Some lease =>
               (lease_epoch lease =? epoch)%Z
               && bool_decide (lease_owner lease = owner)
               && (now <? lease_expires_at_unix_ms lease)%Z
           end in
      if negb matches then Ok (Unchanged false)
      else
        let expires_at := u64_saturating_add now (Z.max ttl_ms 1) in
        let? next := next_record (Some record) run_id (fun r =>
          set_rec_lease (set_lease_expiry expires_at <$> rec_lease r) r) in
        Ok (Replace next true)
  end.

(** [lease.attempt_id.get_or_insert(attempt)]. *)
Definition get_or_insert_attempt (attempt : AttemptId) (lease : RunLeaseRecord) : RunLeaseRecord :=
  set_lease_attempt (Some (default attempt (lease_attempt_id lease))) lease.

Definition lease_matches (request : RunCommitRequest) (now : Z)
    (lease : option RunLeaseRecord) : bool :=
  match lease with
  | None => false
  | Some lease =>
      (lease_epoch lease =? req_lease_epoch request)%Z
      && (now <? lease_expires_at_unix_ms lease)%Z
      && match lease_attempt_id lease with
         | None => true
         | Some attempt_id => bool_decide (attempt_id = req_attempt_id request)
         end
  end.

(** [now] decides expiry, [committed_at] is the second clock read. *)
Definition commit_mutation (request : RunCommitRequest) (now committed_at : Z)
    (current : option RunControlRecord)
  : result RunControlError (Mutation RunControlRecord CommitRunOutcome) :=
  match current_commit current with
  | Some existing =>
      if bool_decide (commit_request existing = request)
      then Ok (Unchanged (AlreadyCommitted existing))
      else Ok (Unchanged (Conflict existing))
  | None =>
      if negb (lease_matches request now (current_lease current))
      then Ok (Unchanged (StaleLease (req_lease_epoch request)
                            (lease_epoch <$> current_lease current)))
      else
        let commit := mkRunCommit request committed_at in
        let? record := next_record current (req_run_id request) (fun r =>
          set_rec_commit (Some commit)
            (set_rec_lease (get_or_insert_attempt (req_attempt_id request) <$> rec_lease r) r)) in
        Ok (Replace record (Committed commit))
  end.

(** ** The operations of the store *)

Inductive RunOp : Type :=
| OpAcquire (run_id : RunId) (task_id : option string) (owner : string) (ttl_ms : Z)
    (force : bool) (now : Z)
| OpBind (run_id : RunId) (epoch : Z) (attempt_id : AttemptId)
| OpRenew (run_id : RunId) (epoch : Z) (owner : string) (ttl_ms : Z)
| OpCommit (request : RunCommitRequest).

Inductive RunOut : Type :=
| OutLease (o : LeaseAcquireOutcome)
| OutBool (b : bool)
| OutCommit (o : CommitRunOutcome).

Definition RunClock : Type := (Z * Z)%type.

Definition op_run (op : RunOp) : RunId :=
  match op with
  | OpAcquire run_id _ _ _ _ _ => run_id
  | OpBind run_id _ _ => run_id
  | OpRenew run_id _ _ _ => run_id
  | OpCommit request => req_run_id request
  end.

Definition run_path (op : RunOp) : string := record_name (op_run op).

Definition map_mutation {A B} (f : A -> B) (m : Mutation RunControlRecord A)
  : Mutation RunControlRecord B :=
  match m with
  | Unchanged a => Unchanged (f a)
  | Replace r a => Replace r (f a)
  end.

(** The closure each operation hands to [mutate]. *)
Definition run_mutate (op : RunOp) (k : RunClock) (current : option RunControlRecord)
  : result RunControlError (Mutation RunControlRecord RunOut) :=
  match op with
  | OpAcquire run_id task_id owner ttl_ms force now =>
      let? m := acquire_mutation run_id task_id owner ttl_ms force now current in
      Ok (map_mutation OutLease m)
  | OpBind run_id epoch attempt_id =>
      let? m := bind_mutation run_id epoch attempt_id (fst k) current in
      Ok (map_mutation OutBool m)
  | OpRenew run_id epoch owner ttl_ms =>
      let? m := renew_mutation run_id epoch owner ttl_ms (fst k) current in
      Ok (map_mutation OutBool m)
  | OpCommit request =>
      let? m := commit_mutation request (fst k) (snd k) current in
      Ok (map_mutation OutCommit m)
  end.

(** The guards that run before [mutate]. *)
Definition run_guard (op : RunOp) : result RunControlError unit :=
  match op with
  | OpAcquire _ _ owner _ _ _ => ensure! negb (str_blank owner) else EmptyOwner in Ok tt
  | OpBind _ _ _ | OpRenew _ _ _ _ => Ok tt
  | OpCommit request =>
      ensure! is_terminal (req_state request) else NotTerminal in
      ensure! negb (req_lease_epoch request =? 0)%Z else ZeroEpoch in
      ensure! negb (str_blank (result_digest request)) else EmptyDigest in
      Ok tt
  end.

(** ** What a closure that writes does to the record *)

Definition epoch_of (current : option RunControlRecord) : Z :=
  default 0%Z (lease_epoch <$> current_lease current).

(** Every write: the Run was not committed, the record belongs to the Run,
    the revision goes up by exactly one and the epoch never goes down. *)
Definition advances (run : RunId) (current : option RunControlRecord)
    (r : RunControlRecord) : Prop :=
  current_commit current = None
  /\ rec_run_id r = run
  /\ rec_revision r = (default 0 (rec_revision <$> current) + 1)%Z
  /\ (rec_revision r <= u64_max)%Z
  /\ (epoch_of current <= epoch_of (Some r) <= epoch_of current + 1)%Z.

Lemma next_record_inv current run_id f r :
  next_record current run_id f = Ok r ->
  let r0 := default (mkRunControlRecord 0 run_id None None) current in
  rec_run_id r0 = run_id
  /\ (rec_revision r0 + 1 <= u64_max)%Z
  /\ r = f (set_rec_revision (rec_revision r0 + 1) r0).
Proof. unfold next_record. case_match; [done|]. intros. inv_result. guards. done. Qed.

(** Open a successful write: expose the new record and compute. *)
Ltac open_write H :=
  branches H; inv_result;
  try match goal with Hn : next_record _ _ _ = Ok _ |- _ =>
    apply next_record_inv in Hn as (? & ? & ->) end;
  guards;
  repeat match goal with
  | c : option RunControlRecord |- _ => destruct c
  | r : RunControlRecord |- _ => destruct r
  end; simpl in *; simplify_eq/=.

Lemma acquire_advances run_id task_id owner ttl force now cur r o :
  acquire_mutation run_id task_id owner ttl force now cur = Ok (Replace r o) ->
  advances run_id cur r.
Proof.
  unfold acquire_mutation. intros H. open_write H;
    unfold advances, epoch_of; simpl in *; split_and!; try done; lia.
Qed.

Lemma bind_advances run_id epoch attempt now cur r o :
  bind_mutation run_id epoch attempt now cur = Ok (Replace r o) -> advances run_id cur r.
Proof.
  unfold bind_mutation. intros H. open_write H;
    unfold advances, epoch_of; simpl in *; split_and!; try done; try lia.
  by apply eq_None_not_Some.
Qed.

Lemma renew_advances run_id epoch owner ttl now cur r o :
  renew_mutation run_id epoch owner ttl now cur = Ok (Replace r o) -> advances run_id cur r.
Proof.
  unfold renew_mutation. intros H. open_write H.
  unfold advances, epoch_of; simpl in *; split_and!; try done; try lia.
  by apply eq_None_not_Some.
Qed.

Lemma commit_advances request now at_ cur r o :
  commit_mutation request now at_ cur = Ok (Replace r o) -> advances (req_run_id request) cur r.
Proof.
  unfold commit_mutation. intros H. open_write H.
  match goal with l : option RunLeaseRecord |- _ => destruct l; [|done] end.
  unfold advances, epoch_of; simpl in *; split_and!; try done; lia.
Qed.

Lemma run_mutate_advances op k cur r o :
  run_mutate op k cur = Ok (Replace r o) -> advances (op_run op) cur r.
Proof.
  destruct op; simpl; intros H; inv_result;
    match goal with m : Mutation _ _ |- _ => destruct m; simplify_eq/= end;
    eauto using acquire_advances, bind_advances, renew_advances, commit_advances.
Qed.

(** ** Histories of one Run *)

Abbreviation RunEvent := (@event RunOp RunOut RunClock).
Abbreviation run_hist := (record_hist run_mutate).
Abbreviation run_step := (record_step run_mutate).

(** What every operation answers once the Run is committed with [x]. *)
Definition frozen_out (x : RunCommit) (op : RunOp) (o : RunOut) : Prop :=
  match op with
  | OpAcquire _ _ _ _ _ _ => o = OutLease (LeaseAlreadyCommitted x)
  | OpBind _ _ _ | OpRenew _ _ _ _ => o = OutBool false
  | OpCommit request =>
      o = OutCommit (if bool_decide (commit_request x = request)
                     then AlreadyCommitted x else Conflict x)
  end.

Lemma committed_unchanged op k c x :
  current_commit c = Some x ->
  exists o, run_mutate op k c = Ok (Unchanged o) /\ frozen_out x op o.
Proof.
  destruct c as [[rev rid lease commit]|]; [|done]. intros Hx. simpl in Hx. subst commit.
  destruct op; simpl.
  - eauto.
  - unfold bind_mutation; simpl. destruct lease; simpl; eauto.
  - eauto.
  - unfold commit_mutation; simpl. case_bool_decide; simpl; eauto.
Qed.

Lemma committed_step c e c' x :
  current_commit c = Some x -> run_step c e c' -> c' = c /\ frozen_out x (ev_op e) (ev_out e).
Proof.
  intros Hx. unfold record_step.
  destruct (committed_unchanged (ev_op e) (ev_clock e) c x Hx) as (o & -> & Ho).
  by intros [-> ->].
Qed.

Lemma committed_frozen c es c' x :
  current_commit c = Some x -> run_hist c es c' ->
  c' = c /\ Forall (fun e => frozen_out x (ev_op e) (ev_out e)) es.
Proof.
  intros Hx Hh. induction Hh as [c|c e c1 es c2 Hs Hh IH]; [by split|].
  destruct (committed_step _ _ _ _ Hx Hs) as [-> Ho].
  destruct (IH Hx) as [-> Hes]. split; [done|by constructor].
Qed.

(** Only [commit_run] answers [Committed], and then the record carries it. *)
Lemma committed_event c e c' x :
  run_step c e c' -> ev_out e = OutCommit (Committed x) ->
  current_commit c = None /\ current_commit c' = Some x
  /\ ev_op e = OpCommit (commit_request x)
  /\ lease_matches (commit_request x) (fst (ev_clock e)) (current_lease c) = true.
Proof.
  unfold record_step. destruct e as [i op k o acked]; simpl. intros Hs ->.
  destruct (run_mutate op k c) as [[o'|r o']|] eqn:Hm; [..|done]; destruct Hs as [-> ->];
    (destruct op; simpl in Hm; inv_result;
     match goal with m : Mutation _ _ |- _ => destruct m; simplify_eq/= end);
    match goal with H : commit_mutation _ _ _ _ = _ |- _ => unfold commit_mutation in H; rename H into Hc end;
    branches Hc; inv_result.
  match goal with Hn : next_record _ _ _ = Ok _ |- _ =>
    apply next_record_inv in Hn as (? & ? & ->) end.
  guards. done.
Qed.

Lemma step_epoch_mono c e c' : run_step c e c' -> (epoch_of c <= epoch_of c')%Z.
Proof.
  unfold record_step. destruct (run_mutate _ _ _) as [[o|r o]|] eqn:Hm; [| |done]; intros [_ ->].
  - done.
  - apply run_mutate_advances in Hm as (_ & _ & _ & _ & ?). lia.
Qed.

Lemma hist_epoch_mono c es c' : run_hist c es c' -> (epoch_of c <= epoch_of c')%Z.
Proof.
  intros Hh. induction Hh as [c|c e c1 es c2 Hs Hh IH]; [done|].
  apply step_epoch_mono in Hs. lia.
Qed.

(** An [Acquired] answer leaves exactly the granted lease in the record. *)
Lemma acquired_event c e c' l :
  run_step c e c' -> ev_out e = OutLease (Acquired l) ->
  current_commit c = None /\ current_lease c' = Some l.
Proof.
  unfold record_step. destruct e as [i op k o acked]; simpl. intros Hs ->.
  destruct (run_mutate op k c) as [[o'|r o']|] eqn:Hm; [..|done]; destruct Hs as [-> ->];
    (destruct op; simpl in Hm; inv_result;
     match goal with m : Mutation _ _ |- _ => destruct m; simplify_eq/= end);
    match goal with H : acquire_mutation _ _ _ _ _ _ _ = _ |- _ =>
      unfold acquire_mutation in H; rename H into Ha end;
    branches Ha; inv_result;
    match goal with Hn : next_record _ _ _ = Ok _ |- _ =>
      apply next_record_inv in Hn as (? & ? & ->) end; done.
Qed.

(** Within one epoch the owner of the lease never changes. *)
Lemma step_same_epoch_owner c e c' l :
  run_step c e c' -> current_lease c = Some l -> epoch_of c' = epoch_of c ->
  exists l', current_lease c' = Some l' /\ lease_owner l' = lease_owner l.
Proof.
  unfold record_step. intros Hs Hl Hep.
  destruct (run_mutate _ _ _) as [[o|r o]|] eqn:Hm; [| |done]; destruct Hs as [_ ->]; [eauto|].
  destruct c as [[rev rid lease commit]|]; [|done]. simpl in Hl; subst lease.
  destruct (ev_op e); simpl in Hm; inv_result;
    match goal with m : Mutation _ _ |- _ => destruct m; simplify_eq/= end;
    match goal with H : _ = Ok (Replace _ _) |- _ =>
      unfold acquire_mutation, bind_mutation, renew_mutation, commit_mutation in H;
      rename H into Hx end;
    branches Hx; inv_result;
    match goal with Hn : next_record _ _ _ = Ok _ |- _ =>
      apply next_record_inv in Hn as (? & ? & ->) end;
    unfold epoch_of in Hep; simpl in *; simplify_eq/=; eauto; lia.
Qed.

Lemma hist_same_epoch_owner c es c' l :
  run_hist c es c' -> current_lease c = Some l -> epoch_of c' = epoch_of c ->
  exists l', current_lease c' = Some l' /\ lease_owner l' = lease_owner l.
Proof.
  intros Hh. revert l. induction Hh as [c|c e c1 es c2 Hs Hh IH]; intros l Hl Hep; [eauto|].
  pose proof (step_epoch_mono _ _ _ Hs). pose proof (hist_epoch_mono _ _ _ Hh).
  destruct (step_same_epoch_owner _ _ _ _ Hs Hl) as (l1 & Hl1 & Ho1); [lia|].
  destruct (IH _ Hl1) as (l2 & Hl2 & Ho2); [lia|]. exists l2. split; [done|congruence].
Qed.

(** At most one [Committed] in a history. *)
Lemma hist_single_commit c l1 e1 l2 e2 l3 c' x1 x2 :
  run_hist c (l1 ++ e1 :: l2 ++ e2 :: l3) c' ->
  ev_out e1 = OutCommit (Committed x1) -> ev_out e2 = OutCommit (Committed x2) -> False.
Proof.
  intros (c0 & c1 & _ & Hs1 & Hh)%record_hist_split H1 H2.
  destruct (committed_event _ _ _ _ Hs1 H1) as (_ & Hx1 & _).
  apply record_hist_split in Hh as (c2 & c3 & Hh & Hs2 & _).
  destruct (committed_frozen _ _ _ _ Hx1 Hh) as [-> _].
  destruct (committed_event _ _ _ _ Hs2 H2) as (Hnone & _). congruence.
Qed.

(** A commit that wins carries the epoch of the lease in force. *)
Lemma commit_epoch c e c' x :
  run_step c e c' -> ev_out e = OutCommit (Committed x) ->
  req_lease_epoch (commit_request x) = epoch_of c.
Proof.
  intros Hs Hx. destruct (committed_event _ _ _ _ Hs Hx) as (_ & _ & _ & Hl).
  unfold epoch_of. destruct (current_lease c); [|done]. simpl in *. guards. done.
Qed.

Lemma acquired_epoch c e c' l :
  run_step c e c' -> ev_out e = OutLease (Acquired l) -> epoch_of c' = lease_epoch l.
Proof.
  intros Hs Hl. destruct (acquired_event _ _ _ _ Hs Hl) as [_ Hc].
  unfold epoch_of. by rewrite Hc.
Qed.

(** ** Locations are injective *)

Lemma hex_digit_inj n m : (n < 16)%N -> (m < 16)%N -> hex_digit n = hex_digit m -> n = m.
Proof.
  intros Hn Hm H. apply (f_equal Ascii.N_of_ascii) in H. unfold hex_digit in H.
  destruct (N.ltb_spec n 10), (N.ltb_spec m 10);
    rewrite !Ascii.N_ascii_embedding in H by lia; lia.
Qed.

Lemma encoded_byte_inj (a b : Ascii.ascii) :
  hex_digit (Ascii.N_of_ascii a / 16) = hex_digit (Ascii.N_of_ascii b / 16) ->
  hex_digit (Ascii.N_of_ascii a mod 16) = hex_digit (Ascii.N_of_ascii b mod 16) ->
  a = b.
Proof.
  pose proof (Ascii.N_ascii_bounded a) as Ha. pose proof (Ascii.N_ascii_bounded b) as Hb.
  intros Hq%hex_digit_inj Hr%hex_digit_inj; try (apply N.Div0.div_lt_upper_bound; lia);
    try (apply N.mod_lt; lia).
  rewrite <- (Ascii.ascii_N_embedding a), <- (Ascii.ascii_N_embedding b). f_equal.
  rewrite (N.div_mod (Ascii.N_of_ascii a) 16), (N.div_mod (Ascii.N_of_ascii b) 16) by lia.
  by rewrite Hq, Hr.
Qed.

Lemma encoded_run_id_inj (a b : string) : encoded_run_id a = encoded_run_id b -> a = b.
Proof.
  revert b. induction a as [|x a IH]; intros [|y b]; simpl; [done|..].
  - by destruct (is_plain_byte y).
  - by destruct (is_plain_byte x).
  - destruct (is_plain_byte x) eqn:Hx, (is_plain_byte y) eqn:Hy; intros H; simplify_eq.
    + f_equal. by apply IH.
    + f_equal; [|by apply IH]. by apply encoded_byte_inj.
Qed.

Lemma str_app_inj_r (a b c : string) : a +:+ c = b +:+ c -> a = b.
Proof.
  intros H. apply (f_equal String.rev) in H. rewrite !str_rev_app in H.
  apply (inj (String.app (String.rev c))) in H.
  rewrite <- (str_rev_involutive a), H. apply str_rev_involutive.
Qed.

Lemma record_name_inj a b : record_name a = record_name b -> a = b.
Proof. unfold record_name. intros ?%str_app_inj_r. by apply encoded_run_id_inj. Qed.

Lemma hex_digit_plain n : (n < 16)%N -> is_plain_byte (hex_digit n) = true.
Proof.
  intros Hn. unfold hex_digit, is_plain_byte, byte_in. cbv zeta.
  destruct (N.ltb_spec n 10); rewrite Ascii.N_ascii_embedding by lia.
  - rewrite (proj2 (N.leb_le 48 (48 + n))), (proj2 (N.leb_le (48 + n) 57)) by lia.
    simpl. by rewrite !orb_true_r.
  - by rewrite (proj2 (N.leb_le 97 (87 + n))), (proj2 (N.leb_le (87 + n) 122)) by lia.
Qed.

(** Record locations: two Runs have the same location only if they are
    the same Run, and the encoded id consists of the plain bytes and [~]
    only, so it names a file of the record directory and nothing else. *)
Theorem record_locations_sound a b :
  (record_name a = record_name b <-> a = b)
  /\ str_forall (fun c => is_plain_byte c || byte_is 126 c) (encoded_run_id a) = true.
Proof.
  split; [split; [apply record_name_inj|by intros ->]|].
  induction a as [|c a IH]; [done|]. simpl.
  destruct (is_plain_byte c) eqn:Hc; simpl; [by rewrite Hc, IH|].
  pose proof (Ascii.N_ascii_bounded c).
  rewrite (hex_digit_plain (Ascii.N_of_ascii c / 16)) by (apply N.Div0.div_lt_upper_bound; lia).
  rewrite (hex_digit_plain (Ascii.N_of_ascii c mod 16)) by (apply N.mod_lt; lia).
  by rewrite IH.
Qed.

Lemma run_paths_are_records op : is_record_name (run_path op).
Proof. apply str_ends_with_app. Qed.

(** ** Well-formed records *)

Definition lease_wf (run : RunId) (l : RunLeaseRecord) : Prop :=
  lease_run_id l = run
  /\ (1 <= lease_epoch l <= u64_max)%Z
  /\ in_u64 (lease_expires_at_unix_ms l).

(** A commit is backed by the lease it was made under: same epoch, same
    attempt, same Run, and its state is terminal. *)
Definition commit_wf (run : RunId) (lease : option RunLeaseRecord) (x : RunCommit) : Prop :=
  req_run_id (commit_request x) = run
  /\ is_terminal (req_state (commit_request x)) = true
  /\ exists l, lease = Some l
       /\ lease_epoch l = req_lease_epoch (commit_request x)
       /\ lease_attempt_id l = Some (req_attempt_id (commit_request x)).

Definition record_wf (run : RunId) (r : RunControlRecord) : Prop :=
  rec_run_id r = run
  /\ (1 <= rec_revision r <= u64_max)%Z
  /\ (forall l, rec_lease r = Some l -> lease_wf run l)
  /\ (forall x, rec_commit r = Some x -> commit_wf run (rec_lease r) x).

(** Calls that passed their guard, with clock reads of a [u64] clock. *)
Definition admitted (e : RunEvent) : Prop :=
  run_guard (ev_op e) = Ok tt
  /\ (0 <= fst (ev_clock e))%Z
  /\ match ev_op e with OpAcquire _ _ _ _ _ now => (0 <= now)%Z | _ => True end.

Lemma saturating_in_u64 a b : (0 <= a)%Z -> (0 <= b)%Z -> in_u64 (u64_saturating_add a b).
Proof. unfold in_u64, u64_saturating_add, u64_max. lia. Qed.

Lemma acquire_wf run task owner ttl force now cur r o :
  (0 <= now)%Z -> (forall r0, cur = Some r0 -> record_wf run r0) ->
  acquire_mutation run task owner ttl force now cur = Ok (Replace r o) -> record_wf run r.
Proof.
  intros Hnow Hwf H. pose proof (acquire_advances _ _ _ _ _ _ _ _ _ H) as Hadv.
  assert (Hexp : in_u64 (u64_saturating_add now (Z.max ttl 1))) by (apply saturating_in_u64; lia).
  unfold acquire_mutation in H. open_write H; unfold record_wf, lease_wf in *; simpl in *;
    try (destruct (Hwf _ eq_refl) as (? & ? & Hl & Hx); simpl in * );
    repeat match goal with
    | Hl : forall l, Some ?x = Some l -> _ |- _ => destruct (Hl x eq_refl) as (? & ? & ?); clear Hl
    end;
    split_and!; try done; try lia; intros; simplify_eq/=; split_and!; try done; lia.
Qed.

Lemma bind_wf run epoch attempt now cur r o :
  (forall r0, cur = Some r0 -> record_wf run r0) ->
  bind_mutation run epoch attempt now cur = Ok (Replace r o) -> record_wf run r.
Proof.
  intros Hwf H. unfold bind_mutation in H. open_write H.
  destruct (Hwf _ eq_refl) as (? & ? & Hl & Hx); simpl in *.
  destruct (Hl _ eq_refl) as (? & ? & ?).
  unfold record_wf, lease_wf; simpl. split_and!; try done; try lia; intros; simplify_eq/=;
    [split_and!; try done; lia|naive_solver].
Qed.

Lemma renew_wf run epoch owner ttl now cur r o :
  (0 <= now)%Z -> (forall r0, cur = Some r0 -> record_wf run r0) ->
  renew_mutation run epoch owner ttl now cur = Ok (Replace r o) -> record_wf run r.
Proof.
  intros Hnow Hwf H.
  assert (Hexp : in_u64 (u64_saturating_add now (Z.max ttl 1))) by (apply saturating_in_u64; lia).
  unfold renew_mutation in H. open_write H.
  destruct (Hwf _ eq_refl) as (? & ? & Hl & Hx); simpl in *.
  destruct (Hl _ eq_refl) as (? & ? & ?).
  unfold record_wf, lease_wf; simpl. split_and!; try done; try lia; intros; simplify_eq/=;
    [split_and!; try done; lia|naive_solver].
Qed.

Lemma commit_wf_step request now at_ cur r o :
  is_terminal (req_state request) = true ->
  (forall r0, cur = Some r0 -> record_wf (req_run_id request) r0) ->
  commit_mutation request now at_ cur = Ok (Replace r o) -> record_wf (req_run_id request) r.
Proof.
  intros Hterm Hwf H. unfold commit_mutation in H. open_write H.
  match goal with l : option RunLeaseRecord |- _ => destruct l as [l|]; [|done] end.
  destruct (Hwf _ eq_refl) as (? & ? & Hl & Hx); simpl in *.
  destruct (Hl _ eq_refl) as (? & ? & ?). guards.
  unfold record_wf, lease_wf, commit_wf; simpl. split_and!; try done; try lia;
    intros; simplify_eq/=; split_and!; try done; try lia.
  eexists. split_and!; [done|done|]. simpl.
  match goal with |- context [lease_attempt_id ?l] => destruct (lease_attempt_id l) end;
    simpl in *; guards; congruence.
Qed.

Lemma step_record_wf c e c' :
  admitted e -> run_step c e c' ->
  (forall r, c = Some r -> record_wf (op_run (ev_op e)) r) ->
  forall r, c' = Some r -> record_wf (op_run (ev_op e)) r.
Proof.
  intros (Hg & Hk & Hnow) Hs Hwf. unfold record_step in Hs.
  destruct (run_mutate _ _ _) as [[o|r o]|] eqn:Hm; [| |done]; destruct Hs as [_ ->]; [done|].
  intros ? [= <-]. destruct (ev_op e); simpl in *; inv_result;
    match goal with m : Mutation _ _ |- _ => destruct m; simplify_eq/= end;
    eauto using acquire_wf, bind_wf, renew_wf.
  eapply commit_wf_step; [|done..]. by destruct (is_terminal _).
Qed.

(** C39: over every history of admitted calls, every stored record stays well
    formed: it belongs to its Run, its revision and epoch are positive and in
    range, and a commit is terminal and backed by the lease of its epoch and
    attempt. *)
Theorem run_records_stay_wf m es m' :
  atomic_run run_path run_mutate m es m' ->
  Forall admitted es ->
  (forall run r, m (record_name run) = Some r -> record_wf run r) ->
  forall run r, m' (record_name run) = Some r -> record_wf run r.
Proof.
  intros Hrun. induction Hrun as [m m' Heq|m e m1 es m2 [Ho Hp] Hrun IH]; intros Hadm Hwf.
  - intros run r. rewrite Heq. apply Hwf.
  - inversion Hadm; subst. apply IH; [done|]. intros run r Hr.
    destruct (decide (record_name run = run_path (ev_op e))) as [Heq|Hne].
    + apply record_name_inj in Heq as ->.
      eapply (step_record_wf (m (run_path (ev_op e))) e (m1 (run_path (ev_op e)))); eauto.
    + rewrite Ho in Hr by done. by apply Hwf.
Qed.

(** [acquire_lease] (without force) replaces another owner's lease only
    after it has expired, and then with the next epoch; an unexpired lease is
    answered [Held] and nothing is written. *)
Theorem acquire_respects_live_lease run task owner ttl now record l :
  rec_commit record = None ->
  rec_lease record = Some l ->
  lease_owner l <> owner ->
  match acquire_mutation run task owner ttl false now (Some record) with
  | Ok (Unchanged o) => o = Held l /\ (now < lease_expires_at_unix_ms l)%Z
  | Ok (Replace r (Acquired l')) =>
      (lease_expires_at_unix_ms l <= now)%Z /\ lease_epoch l' = (lease_epoch l + 1)%Z
      /\ lease_owner l' = owner /\ lease_attempt_id l' = None /\ rec_lease r = Some l'
  | Ok (Replace _ _) => False
  | Err e => (lease_expires_at_unix_ms l <= now)%Z
  end.
Proof.
  intros Hc Hl Ho. unfold acquire_mutation; simpl. rewrite Hc, Hl; simpl.
  rewrite (bool_decide_eq_false_2 _ Ho); simpl.
  destruct (Z.ltb_spec now (lease_expires_at_unix_ms l)); simpl; [done|].
  destruct (u64_checked_add _ 1) as [epoch|] eqn:Hadd; simpl; [|done].
  apply u64_checked_add_Some in Hadd as [-> _].
  destruct (next_record _ _ _) as [r|] eqn:Hn; simpl; [|done].
  apply next_record_inv in Hn as (_ & _ & ->). done.
Qed.

(** ** The store: guard, then [mutate] on a backend *)

Section Store.
Context {B V St : Type} `{!Codec RunControlRecord B} `{!ObjectStore St B V}.

(** A call on [Backend::Local] that has the record's lock. *)
Definition run_call_local (pid : string) (k : RunClock) (op : RunOp) (dir : gmap string B)
  : result (StoreError RunControlError) RunOut * gmap string B :=
  match run_guard op with
  | Err e => (Err (MutateError e), dir)
  | Ok _ => mutate_local run_path run_mutate false pid k op dir
  end.

(** A call on [Backend::Object]. *)
Definition run_call_object (ks : nat -> RunClock) (interf : nat -> St -> St) (op : RunOp) (st : St)
  : result (StoreError RunControlError) RunOut * St :=
  match run_guard op with
  | Err e => (Err (MutateError e), st)
  | Ok _ => mutate_object run_path run_mutate CAS_RETRIES ks interf op st
  end.

(** [get]. *)
Definition run_get_local (run_id : RunId) (dir : gmap string B)
  : result (StoreError RunControlError) (option RunControlRecord) :=
  read_local_record (record_name run_id) dir.

Definition run_get_object (run_id : RunId) (st : St)
  : result (StoreError RunControlError) (option RunControlRecord) :=
  let? current := read_object_record (record_name run_id) st in Ok (fst <$> current).

(** [path.extension() == Some("json")]; a name that is only [.json] has no
    extension. *)
Definition has_json_extension (name : string) : bool :=
  str_ends_with ".json" name && negb (bool_decide (name = ".json")).

Definition run_id_le (a b : RunControlRecord) : Prop := String.le (rec_run_id a) (rec_run_id b).

#[export] Instance run_id_le_dec : RelDecision run_id_le.
Proof. intros a b. unfold run_id_le. apply _. Defined.

#[export] Instance run_id_le_total : Total run_id_le.
Proof. intros a b. unfold run_id_le. apply (total String.le). Qed.

(** [list] on [Backend::Local]: [entries] is the directory in the order the
    operating system returns it. *)
Definition run_list_local (entries : list (string * B))
  : result (StoreError RunControlError) (list RunControlRecord) :=
  let? records := collect_results
    (fun entry => ok_or (decode_json (snd entry)) DecodeError)
    (filter (fun entry => has_json_extension (fst entry) = true) entries) in
  Ok (merge_sort run_id_le records).

Lemma collect_results_Ok {E A C} (f : A -> result E C) l l' :
  collect_results f l = Ok l' <-> Forall2 (fun a c => f a = Ok c) l l'.
Proof.
  revert l'. induction l as [|a l IH]; intros l'; simpl.
  - split; [intros [= <-]; constructor|by inversion 1].
  - rewrite result_bind_Ok. split.
    + intros (c & Hc & (cs & Hcs & [= <-])%result_bind_Ok). constructor; [done|]. by apply IH.
    + inversion 1 as [|? c ? cs Hc Hcs]; subst. exists c. split; [done|].
      apply result_bind_Ok. exists cs. split; [by apply IH|done].
Qed.

(** [list] answers the records of all files with extension [json], each
    once, in increasing order of Run id, and fails only if one of them does
    not decode. *)
Theorem run_list_sorted_complete entries :
  match run_list_local entries with
  | Ok records =>
      Sorted run_id_le records
      /\ Some <$> records
         ≡ₚ (fun entry => decode_json (snd entry))
              <$> filter (fun entry => has_json_extension (fst entry) = true) entries
  | Err e =>
      e = DecodeError
      /\ exists name bytes, (name, bytes) ∈ entries /\ has_json_extension name = true
                            /\ decode_json bytes = None
  end.
Proof.
  unfold run_list_local. set (files := filter _ entries).
  destruct (collect_results _ files) as [records|e] eqn:Hc; simpl.
  - split; [apply (Sorted_merge_sort _)|].
    rewrite (merge_sort_Permutation _ records).
    apply collect_results_Ok in Hc.
    induction Hc as [|a c l l' Ha Hc IH]; [done|]. simpl. apply ok_or_Ok in Ha. by rewrite Ha, IH.
  - assert (forall a, a ∈ files -> a ∈ entries /\ has_json_extension (fst a) = true) as Hin.
    { intros a Ha. by apply list_elem_of_filter in Ha as [? ?]. }
    clearbody files. induction files as [|[name bytes] files IH]; simpl in *; [done|].
    destruct (decode_json bytes) as [r|] eqn:Hd; simpl in *.
    + destruct (collect_results _ files); simplify_eq. apply IH; [done|].
      intros a Ha. apply Hin. by right.
    + simplify_eq. split; [done|]. exists name, bytes.
      destruct (Hin (name, bytes)) as [? ?]; [by left|done].
Qed.

(** Two different events of one Run cannot both be winning commits. *)
Lemma atomic_single_commit m es m' e1 e2 x1 x2 :
  atomic_run run_path run_mutate m es m' ->
  e1 ∈ es -> e2 ∈ es -> e1 <> e2 -> run_path (ev_op e1) = run_path (ev_op e2) ->
  ev_out e1 = OutCommit (Committed x1) -> ev_out e2 = OutCommit (Committed x2) -> False.
Proof.
  intros Hrun He1 He2 Hne Hp H1 H2.
  apply (atomic_run_project _ _ (run_path (ev_op e2))) in Hrun.
  destruct (events_at_ordered run_path _ _ _ _ He1 He2 Hne Hp eq_refl)
    as (l1 & l2 & l3 & [Heq|Heq]); rewrite Heq in Hrun; eauto using hist_single_commit.
Qed.

(** C1: on the object backend, whatever the interleaving of callers and
    storage faults, two callers that were both told [Committed] for one Run
    are the same caller: a Run has one visible winner. *)
Theorem object_single_winner st es st' cs i j opi opj xi xj :
  store_decodes st ->
  cas_exec run_path run_mutate CAS_RETRIES (st, ∅) es (st', cs) ->
  cs !! i = Some (opi, CasDone (Ok (OutCommit (Committed xi)))) ->
  cs !! j = Some (opj, CasDone (Ok (OutCommit (Committed xj)))) ->
  op_run opi = op_run opj ->
  i = j /\ xi = xj.
Proof.
  intros Hdec Hexec Hi Hj Hrun.
  destruct (cas_exec_sim run_path run_mutate CAS_RETRIES (st, ∅) es (st', cs)) as [_ Hat]; [|done|].
  { split; [done|]. intros ? ? ?. simpl. by rewrite lookup_empty. }
  pose proof (cas_exec_logs _ _ _ _ _ _ [] Hexec (logs_ok_empty _)) as Hlogs. simpl in Hlogs.
  destruct (decide (i = j)) as [<-|Hne]; [split; congruence|exfalso].
  destruct (logs_ok_event _ _ _ _ _ _ _ Hlogs Hi eq_refl) as [ki Hei].
  destruct (logs_ok_event _ _ _ _ _ _ _ Hlogs Hj eq_refl) as [kj Hej].
  eapply atomic_single_commit; [exact Hat|exact Hei|exact Hej|congruence| |done|done].
  unfold run_path; simpl. by rewrite Hrun.
Qed.

(** On the local backend, whatever the interleaving of processes, I/O
    failures and temporary files left behind, two callers that were both told
    [Committed] for one Run are the same caller. *)
Theorem local_single_winner pid_of dir es c i j opi opj phi phj xi xj :
  dir_decodes dir ->
  local_exec run_path run_mutate false pid_of (mkLocal dir ∅ ∅) es c ->
  lc_clients c !! i = Some (opi, phi) -> local_result phi = Some (Ok (OutCommit (Committed xi))) ->
  lc_clients c !! j = Some (opj, phj) -> local_result phj = Some (Ok (OutCommit (Committed xj))) ->
  op_run opi = op_run opj ->
  i = j /\ xi = xj.
Proof.
  intros Hdec Hexec Hi Hri Hj Hrj Hrun.
  destruct (local_exec_sim run_path run_mutate run_paths_are_records false pid_of
              (mkLocal dir ∅ ∅) es c) as [_ Hat]; [|done|].
  { split; [done|]. intros ? ? ?. simpl. by rewrite lookup_empty. }
  pose proof (local_exec_logs _ _ _ _ _ _ _ [] Hexec (logs_ok_empty _)) as Hlogs. simpl in Hlogs.
  destruct (decide (i = j)) as [<-|Hne]; [split; congruence|exfalso].
  destruct (logs_ok_event _ _ _ _ _ _ _ Hlogs Hi Hri) as [ki Hei].
  destruct (logs_ok_event _ _ _ _ _ _ _ Hlogs Hj Hrj) as [kj Hej].
  eapply atomic_single_commit; [exact Hat|exact Hei|exact Hej|congruence| |done|done].
  unfold run_path; simpl. by rewrite Hrun.
Qed.

(** C2: fencing.  Once a caller has been told it holds a lease of a Run, no
    caller whose commit was still unanswered at that time can win the Run's
    commit with an older epoch. *)
Theorem object_fencing st es1 st1 cs1 es2 st2 cs2 i j opi lease req x :
  store_decodes st ->
  cas_exec run_path run_mutate CAS_RETRIES (st, ∅) es1 (st1, cs1) ->
  cs1 !! i = Some (opi, CasDone (Ok (OutLease (Acquired lease)))) ->
  cas_exec run_path run_mutate CAS_RETRIES (st1, cs1) es2 (st2, cs2) ->
  (forall res, cs1 !! j <> Some (OpCommit req, CasDone res)) ->
  cs2 !! j = Some (OpCommit req, CasDone (Ok (OutCommit (Committed x)))) ->
  op_run opi = req_run_id req ->
  (lease_epoch lease <= req_lease_epoch (commit_request x))%Z.
Proof.
  intros Hdec Hexec1 Hi Hexec2 Hpend Hj Hrun.
  destruct (cas_exec_sim run_path run_mutate CAS_RETRIES (st, ∅) es1 (st1, cs1)) as [Hinv1 Hat1]; [|done|].
  { split; [done|]. intros ? ? ?. simpl. by rewrite lookup_empty. }
  destruct (cas_exec_sim run_path run_mutate CAS_RETRIES _ _ _ Hinv1 Hexec2) as [_ Hat2].
  pose proof (cas_exec_logs _ _ _ _ _ _ [] Hexec1 (logs_ok_empty _)) as Hlogs1. simpl in Hlogs1.
  pose proof (cas_exec_logs _ _ _ _ _ _ _ Hexec2 Hlogs1) as Hlogs2. simpl in Hlogs2.
  destruct (logs_ok_event _ _ _ _ _ _ _ Hlogs1 Hi eq_refl) as [ki Hei].
  assert (exists kj, mkEvent j (OpCommit req) kj (OutCommit (Committed x)) true ∈ es2) as [kj Hej].
  { destruct (logs_ok_event _ _ _ _ _ _ _ Hlogs2 Hj eq_refl) as [kj Hej]. exists kj.
    apply elem_of_app in Hej as [Hej|Hej]; [exfalso|done].
    destruct (logs_ok_event_inv _ _ _ _ Hlogs1 Hej) as (ph & res & Hcj & Hres).
    simpl in Hcj. destruct ph; simplify_eq/=. by apply (Hpend res). }
  apply (atomic_run_project _ _ (record_name (req_run_id req))) in Hat1, Hat2.
  apply (events_at_elem run_path (record_name (req_run_id req))) in Hei;
    [|unfold run_path; simpl; by rewrite Hrun].
  apply (events_at_elem run_path (record_name (req_run_id req))) in Hej; [|done].
  apply list_elem_of_split in Hei as (a1 & a2 & Ha). rewrite Ha in Hat1.
  apply list_elem_of_split in Hej as (b1 & b2 & Hb). rewrite Hb in Hat2.
  apply record_hist_split in Hat1 as (c0 & c1 & _ & Hs1 & Hh1).
  apply record_hist_split in Hat2 as (c2 & c3 & Hh2 & Hs2 & _).
  rewrite (commit_epoch _ _ _ _ Hs2 eq_refl), <- (acquired_epoch _ _ _ _ Hs1 eq_refl).
  apply hist_epoch_mono in Hh1, Hh2. simpl in *. lia.
Qed.

(** An epoch names one owner: two leases of a Run granted with the same
    epoch, at any two points of any history, have the same owner. *)
Theorem epoch_identifies_owner m es1 e1 es2 e2 es3 m' l1 l2 :
  atomic_run run_path run_mutate m (es1 ++ e1 :: es2 ++ e2 :: es3) m' ->
  run_path (ev_op e1) = run_path (ev_op e2) ->
  ev_out e1 = OutLease (Acquired l1) -> ev_out e2 = OutLease (Acquired l2) ->
  lease_epoch l1 = lease_epoch l2 ->
  lease_owner l1 = lease_owner l2.
Proof.
  intros Hrun Hp H1 H2 Hep.
  apply (atomic_run_project _ _ (run_path (ev_op e2))) in Hrun. unfold events_at in Hrun.
  rewrite list.filter_app, filter_cons_True, list.filter_app, filter_cons_True in Hrun by done.
  apply record_hist_split in Hrun as (c0 & c1 & _ & Hs1 & Hh).
  apply record_hist_split in Hh as (c2 & c3 & Hh & Hs2 & _).
  destruct (acquired_event _ _ _ _ Hs1 H1) as [_ Hl1].
  destruct (acquired_event _ _ _ _ Hs2 H2) as [_ Hl2].
  pose proof (acquired_epoch _ _ _ _ Hs1 H1). pose proof (acquired_epoch _ _ _ _ Hs2 H2).
  pose proof (hist_epoch_mono _ _ _ Hh). pose proof (step_epoch_mono _ _ _ Hs2).
  destruct (hist_same_epoch_owner _ _ _ _ Hh Hl1) as (l' & Hl' & Ho'); [lia|].
  destruct (step_same_epoch_owner _ _ _ _ Hs2 Hl') as (l'' & Hl'' & Ho''); [lia|].
  congruence.
Qed.
End Store.

(** ** Instances of the theorems

    Worker [a] leases a Run and renews by acquiring again, worker [b] waits
    for expiry and takes the next epoch, two commits race. *)

Module RunExample.
#[local] Existing Instance id_codec.
#[local] Existing Instance versioned_object_store.

Definition request (attempt : string) (epoch : Z) (digest : string) : RunCommitRequest :=
  mkRunCommitRequest "run-1" (Some "task-1") attempt epoch Completed (Some 9%Z) digest.

Definition acquire (owner : string) (now : Z) : RunOp :=
  OpAcquire "run-1" (Some "task-1") owner 100 false now.

Definition st0 : @versioned_store RunControlRecord := mkVersioned ∅ 0.

Lemma run_st0_decodes : store_decodes (R := RunControlRecord) (V := nat) st0.
Proof. intros p b v. simpl. unfold vs_get; simpl. by rewrite lookup_empty. Qed.

(** Both commits read before either writes; client 4 loses the race. *)
Definition acts1 : list (@action RunOp RunClock) :=
  [ActInvoke 0 (acquire "a" 10); ActRead 0 (0, 0)%Z; ActWrite 0;
   ActInvoke 1 (acquire "a" 20); ActRead 1 (0, 0)%Z; ActWrite 1;
   ActInvoke 2 (acquire "b" 200); ActRead 2 (0, 0)%Z; ActWrite 2].

Definition acts2 : list (@action RunOp RunClock) :=
  [ActInvoke 3 (OpCommit (request "att-b" 2 "sha:b"));
   ActInvoke 4 (OpCommit (request "att-c" 2 "sha:c"));
   ActRead 3 (210, 211)%Z; ActRead 4 (210, 212)%Z; ActWrite 3; ActWrite 4; ActRead 4 (213, 213)%Z].

Abbreviation config := (@cas_config RunControlRecord nat (@versioned_store RunControlRecord)
                          RunOp RunOut RunClock RunControlError).

Definition run_acts (acts : list (@action RunOp RunClock)) (c : config) : list RunEvent * config :=
  match schedule (cas_do run_path run_mutate CAS_RETRIES) acts c with
  | Some ec => ec
  | None => ([], c)
  end.

Definition es1 : list RunEvent := fst (run_acts acts1 (st0, ∅)).
Definition c1 : config := snd (run_acts acts1 (st0, ∅)).
Definition es2 : list RunEvent := fst (run_acts acts2 c1).
Definition c2 : config := snd (run_acts acts2 c1).

Lemma exec1 : cas_exec run_path run_mutate CAS_RETRIES (st0, ∅) es1 c1.
Proof. apply (cas_schedule_sound _ _ _ acts1). vm_compute. reflexivity. Qed.

Lemma exec2 : cas_exec run_path run_mutate CAS_RETRIES c1 es2 c2.
Proof. apply (cas_schedule_sound _ _ _ acts2). vm_compute. reflexivity. Qed.

Lemma exec12 : cas_exec run_path run_mutate CAS_RETRIES (st0, ∅) (es1 ++ es2) c2.
Proof.
  apply (cas_schedule_sound _ _ _ (acts1 ++ acts2)). vm_compute. reflexivity.
Qed.

Lemma inv0 : cas_inv run_path run_mutate ((st0, ∅) : config).
Proof. split; [apply run_st0_decodes|]. intros i op ph. simpl. by rewrite lookup_empty. Qed.

Lemma history1 : atomic_run run_path run_mutate (cas_abs st0) es1 (cas_abs (fst c1)).
Proof. exact (proj2 (cas_exec_sim _ _ _ _ _ _ inv0 exec1)). Qed.

Lemma history12 : atomic_run run_path run_mutate (cas_abs st0) (es1 ++ es2) (cas_abs (fst c2)).
Proof. exact (proj2 (cas_exec_sim _ _ _ _ _ _ inv0 exec12)). Qed.

Definition winner : RunCommit := mkRunCommit (request "att-b" 2 "sha:b") 211.

Lemma object_single_winner_witness :
  snd c2 !! 3 = Some (OpCommit (request "att-b" 2 "sha:b"), CasDone (Ok (OutCommit (Committed winner))))
  /\ snd c2 !! 4 = Some (OpCommit (request "att-c" 2 "sha:c"), CasDone (Ok (OutCommit (Conflict winner))))
  /\ (3 = 3 /\ winner = winner).
Proof.
  split; [vm_compute; reflexivity|]. split; [vm_compute; reflexivity|].
  apply (object_single_winner st0 (es1 ++ es2) (fst c2) (snd c2) 3 3
           (OpCommit (request "att-b" 2 "sha:b")) (OpCommit (request "att-b" 2 "sha:b")) winner winner).
  - apply run_st0_decodes.
  - exact exec12.
  - vm_compute. reflexivity.
  - vm_compute. reflexivity.
  - reflexivity.
Defined.

Definition lease_a : RunLeaseRecord :=
  mkRunLeaseRecord "run-1" (Some "task-1") 1 "a" 10 110 None.

Lemma object_fencing_witness :
  snd c1 !! 0 = Some (acquire "a" 10, CasDone (Ok (OutLease (Acquired lease_a))))
  /\ (lease_epoch lease_a <= req_lease_epoch (commit_request winner))%Z.
Proof.
  split; [vm_compute; reflexivity|].
  apply (object_fencing st0 es1 (fst c1) (snd c1) es2 (fst c2) (snd c2) 0 3 (acquire "a" 10)
           lease_a (request "att-b" 2 "sha:b") winner).
  - apply run_st0_decodes.
  - exact exec1.
  - vm_compute. reflexivity.
  - exact exec2.
  - intros res H. vm_compute in H. discriminate H.
  - vm_compute. reflexivity.
  - reflexivity.
Defined.

Lemma epoch_identifies_owner_witness :
  lease_owner lease_a = lease_owner (set_lease_expiry 120 lease_a).
Proof.
  apply (epoch_identifies_owner (cas_abs st0) []
           (mkEvent 0 (acquire "a" 10) (0, 0)%Z (OutLease (Acquired lease_a)) true) []
           (mkEvent 1 (acquire "a" 20) (0, 0)%Z
              (OutLease (Acquired (set_lease_expiry 120 lease_a))) true)
           (drop 2 es1) (cas_abs (fst c1))); [|reflexivity..].
  exact history1.
Defined.

Lemma run_records_stay_wf_witness :
  exists r, cas_abs (fst c2) (record_name "run-1") = Some r /\ record_wf "run-1" r.
Proof.
  eexists. split; [vm_compute; reflexivity|].
  apply (run_records_stay_wf (cas_abs st0) (es1 ++ es2) (cas_abs (fst c2))); [..|vm_compute; reflexivity].
  - exact history12.
  - repeat (constructor; [split_and!; [vm_compute; reflexivity|simpl; lia|simpl; lia || done]|]).
    constructor.
  - intros run r H. vm_compute in H. discriminate H.
Defined.

Definition record_a : RunControlRecord := mkRunControlRecord 1 "run-1" (Some lease_a) None.

Lemma acquire_respects_live_lease_witness :
  match acquire_mutation "run-1" None "b" 100 false 50 (Some record_a) with
  | Ok (Unchanged o) => o = Held lease_a /\ (50 < lease_expires_at_unix_ms lease_a)%Z
  | Ok (Replace r (Acquired l')) =>
      (lease_expires_at_unix_ms lease_a <= 50)%Z /\ lease_epoch l' = (lease_epoch lease_a + 1)%Z
      /\ lease_owner l' = "b" /\ lease_attempt_id l' = None /\ rec_lease r = Some l'
  | Ok (Replace _ _) => False
  | Err e => (lease_expires_at_unix_ms lease_a <= 50)%Z
  end.
Proof.
  apply (acquire_respects_live_lease "run-1" None "b" 100 50 record_a lease_a);
    [reflexivity|reflexivity|discriminate].
Defined.

Definition local_acts : list (@action RunOp RunClock) :=
  [ActInvoke 0 (acquire "a" 10); ActLock 0; ActRead 0 (0, 0)%Z; ActWrite 0; ActUnlock 0;
   ActInvoke 1 (OpCommit (request "att-b" 1 "sha:b")); ActInvoke 2 (OpCommit (request "att-c" 1 "sha:c"));
   ActLock 1; ActRead 1 (20, 21)%Z; ActWrite 1; ActUnlock 1; ActLock 2; ActRead 2 (22, 22)%Z].

Definition local_final :=
  match schedule (local_do run_path run_mutate false (fun _ => "7")) local_acts
          (mkLocal (∅ : gmap string RunControlRecord) ∅ ∅) with
  | Some ec => ec
  | None => ([], mkLocal ∅ ∅ ∅)
  end.

Definition local_winner : RunCommit := mkRunCommit (request "att-b" 1 "sha:b") 21.

Lemma local_single_winner_witness :
  lc_clients (snd local_final) !! 2
  = Some (OpCommit (request "att-c" 1 "sha:c"), LocalHolding (Ok (OutCommit (Conflict local_winner))))
  /\ (1 = 1 /\ local_winner = local_winner).
Proof.
  split; [vm_compute; reflexivity|].
  apply (local_single_winner (fun _ => "7") (∅ : gmap string RunControlRecord)
           (fst local_final) (snd local_final) 1 1
           (OpCommit (request "att-b" 1 "sha:b")) (OpCommit (request "att-b" 1 "sha:b"))
           (LocalDone (Ok (OutCommit (Committed local_winner))))
           (LocalDone (Ok (OutCommit (Committed local_winner))))).
  - intros p b _. by rewrite lookup_empty.
  - apply (local_schedule_sound _ _ _ _ local_acts). vm_compute. reflexivity.
  - vm_compute. reflexivity.
  - reflexivity.
  - vm_compute. reflexivity.
  - reflexivity.
  - reflexivity.
Defined.
End RunExample.
