(* ===== verification/AttemptRegistry.v ===== *)
(** * Attempt liveness and terminal results

    [AttemptRegistry] of
    [crates/persisting-pchronicle/src/store/attempt_registry.rs]: one record
    per Run, fenced by the lease epoch, updated through the same [mutate]
    protocol as [RunControl] (its local writer opens the temporary file with
    [create_new]).  The terminal result is an arbitrary JSON value, the
    parameter [Value] with decidable equality. *)

From Stdlib Require Import ZArith Lia.
From stdpp Require Import base list strings gmap numbers option.
From S2P Require Import Prelude RuntimeTypes Durable RunControl.

#[local] Set Warnings "-clear-no-such-hyp".

Inductive AttemptRecordState : Type :=
| Active
| Terminal.

#[global] Instance AttemptRecordState_eq_dec : EqDecision AttemptRecordState.
Proof. solve_decision. Defined.

Inductive AttemptError : Type :=
| InvalidIdentity
| AttemptRevisionOverflow.

Section Registry.
Context {Value : Type} `{!EqDecision Value}.

Record AttemptRecord : Type := mkAttemptRecord {
  att_revision : Z;
  att_run_id : string;
  att_attempt_id : string;
  att_lease_epoch : Z;
  att_state : AttemptRecordState;
  heartbeat_at_unix_ms : Z;
  att_expires_at_unix_ms : Z;
  terminal_result : option Value;
}.

Definition is_live_at (record : AttemptRecord) (now_unix_ms : Z) : bool :=
  bool_decide (att_state record = Active) && (now_unix_ms <? att_expires_at_unix_ms record)%Z.

Definition validate_identity (run_id attempt_id : string) (lease_epoch : Z)
  : result AttemptError unit :=
  if str_blank run_id || str_blank attempt_id || (lease_epoch =? 0)%Z
  then Err InvalidIdentity else Ok tt.

Definition next_revision (current : option AttemptRecord) : result AttemptError Z :=
  ok_or (u64_checked_add (default 0%Z (att_revision <$> current)) 1) AttemptRevisionOverflow.

(** [encoded_id] spells the same encoding as [encoded_run_id]. *)
Definition encoded_id (value : string) : string := encoded_run_id value.

Definition attempt_record_name (run_id : string) : string := encoded_id run_id +:+ ".json".

Definition publish_active_mutation (run_id attempt_id : string) (lease_epoch ttl_ms now : Z)
    (current : option AttemptRecord) : result AttemptError (Mutation AttemptRecord bool) :=
  let refused :=
    match current with
    | None => false
    | Some record =>
        (lease_epoch <? att_lease_epoch record)%Z
        || ((att_lease_epoch record =? lease_epoch)%Z
            && (negb (bool_decide (att_attempt_id record = attempt_id))
                || bool_decide (att_state record = Terminal)))
    end in
  if refused then Ok (Unchanged false)
  else
    let? revision := next_revision current in
    Ok (Replace
          (mkAttemptRecord revision run_id attempt_id lease_epoch Active now
             (u64_saturating_add now (Z.max ttl_ms 1)) None)
          true).

Definition heartbeat_mutation (run_id attempt_id : string) (lease_epoch ttl_ms now : Z)
    (current : option AttemptRecord) : result AttemptError (Mutation AttemptRecord bool) :=
  match current with
  | None => Ok (Unchanged false)
  | Some record =>
      if negb (bool_decide (att_run_id record = run_id))
         || negb (bool_decide (att_attempt_id record = attempt_id))
         || negb (att_lease_epoch record =? lease_epoch)%Z
         || negb (bool_decide (att_state record = Active))
      then Ok (Unchanged false)
      else
        let? revision := next_revision (Some record) in
        Ok (Replace
              (mkAttemptRecord revision (att_run_id record) (att_attempt_id record)
                 (att_lease_epoch record) (att_state record) now
                 (u64_saturating_add now (Z.max ttl_ms 1)) (terminal_result record))
              true)
  end.

Definition publish_terminal_mutation (run_id attempt_id : string) (lease_epoch : Z)
    (res : Value) (now : Z) (current : option AttemptRecord)
  : result AttemptError (Mutation AttemptRecord bool) :=
  match current with
  | None => Ok (Unchanged false)
  | Some record =>
      if negb (bool_decide (att_run_id record = run_id))
         || negb (bool_decide (att_attempt_id record = attempt_id))
         || negb (att_lease_epoch record =? lease_epoch)%Z
      then Ok (Unchanged false)
      else if bool_decide (att_state record = Terminal)
      then Ok (Unchanged (bool_decide (terminal_result record = Some res)))
      else
        let? revision := next_revision (Some record) in
        Ok (Replace
              (mkAttemptRecord revision (att_run_id record) (att_attempt_id record)
                 (att_lease_epoch record) Terminal now now (Some res))
              true)
  end.

Inductive AttemptOp : Type :=
| PublishActive (run_id attempt_id : string) (lease_epoch ttl_ms : Z)
| Heartbeat (run_id attempt_id : string) (lease_epoch ttl_ms : Z)
| PublishTerminal (run_id attempt_id : string) (lease_epoch : Z) (res : Value).

Definition aop_run (op : AttemptOp) : string :=
  match op with
  | PublishActive run_id _ _ _ | Heartbeat run_id _ _ _ | PublishTerminal run_id _ _ _ => run_id
  end.

Definition aop_attempt (op : AttemptOp) : string :=
  match op with
  | PublishActive _ a _ _ | Heartbeat _ a _ _ | PublishTerminal _ a _ _ => a
  end.

Definition aop_epoch (op : AttemptOp) : Z :=
  match op with
  | PublishActive _ _ e _ | Heartbeat _ _ e _ | PublishTerminal _ _ e _ => e
  end.

Definition attempt_path (op : AttemptOp) : string := attempt_record_name (aop_run op).

Definition attempt_mutate (op : AttemptOp) (now : Z) (current : option AttemptRecord)
  : result AttemptError (Mutation AttemptRecord bool) :=
  match op with
  | PublishActive run_id a e ttl => publish_active_mutation run_id a e ttl now current
  | Heartbeat run_id a e ttl => heartbeat_mutation run_id a e ttl now current
  | PublishTerminal run_id a e res => publish_terminal_mutation run_id a e res now current
  end.

Definition attempt_guard (op : AttemptOp) : result AttemptError unit :=
  validate_identity (aop_run op) (aop_attempt op) (aop_epoch op).

(** [mutate] of the registry on its two backends. *)
Definition attempt_call_local {B} `{!Codec AttemptRecord B} (pid : string) (now : Z)
    (op : AttemptOp) (dir : gmap string B) : result (StoreError AttemptError) bool * gmap string B :=
  match attempt_guard op with
  | Err e => (Err (MutateError e), dir)
  | Ok _ => mutate_local attempt_path attempt_mutate true pid now op dir
  end.

Definition attempt_call_object {B V St} `{!Codec AttemptRecord B} `{!ObjectStore St B V}
    (ks : nat -> Z) (interf : nat -> St -> St) (op : AttemptOp) (st : St)
  : result (StoreError AttemptError) bool * St :=
  match attempt_guard op with
  | Err e => (Err (MutateError e), st)
  | Ok _ => mutate_object attempt_path attempt_mutate CAS_RETRIES ks interf op st
  end.

(** The registry's own file and object access: as in the Run control store,
    but the temporary file must be new. *)
Definition attempt_read_local {B} `{!Codec AttemptRecord B} (p : string) (dir : gmap string B)
  : result (StoreError AttemptError) (option AttemptRecord) := read_local_record p dir.

Definition attempt_write_local {B} (pid p : string) (bytes : B) (dir : gmap string B) :=
  write_local_record (E := AttemptError) true pid p bytes dir.

Definition attempt_read_object {B V St} `{!Codec AttemptRecord B} `{!ObjectStore St B V}
    (p : string) (st : St) : result (StoreError AttemptError) (option (AttemptRecord * V)) :=
  read_object_record p st.

(** [get]. *)
Definition attempt_get_local {B} `{!Codec AttemptRecord B} (run_id : string) (dir : gmap string B)
  : result (StoreError AttemptError) (option AttemptRecord) :=
  attempt_read_local (attempt_record_name run_id) dir.

Definition attempt_get_object {B V St} `{!Codec AttemptRecord B} `{!ObjectStore St B V}
    (run_id : string) (st : St) : result (StoreError AttemptError) (option AttemptRecord) :=
  let? current := attempt_read_object (attempt_record_name run_id) st in Ok (fst <$> current).

(** ** Fencing *)

Abbreviation att_hist := (record_hist attempt_mutate).
Abbreviation att_step := (record_step attempt_mutate).

Definition att_epoch (c : option AttemptRecord) : Z := default 0%Z (att_lease_epoch <$> c).

(** Every accepted update is made with an epoch at least the recorded one,
    and equal to the new record's; the revision goes up by one. *)
Lemma attempt_replace op now c r b :
  attempt_mutate op now c = Ok (Replace r b) ->
  b = true /\ (forall r0, c = Some r0 -> (att_lease_epoch r0 <= aop_epoch op)%Z)
  /\ att_lease_epoch r = aop_epoch op
  /\ att_attempt_id r = aop_attempt op
  /\ att_revision r = (default 0 (att_revision <$> c) + 1)%Z
  /\ (att_revision r <= u64_max)%Z
  /\ (forall r0, c = Some r0 -> att_state r0 = Terminal ->
        (att_lease_epoch r0 < aop_epoch op)%Z).
Proof.
  unfold attempt_mutate, publish_active_mutation, heartbeat_mutation, publish_terminal_mutation,
    next_revision.
  destruct op; simpl; intros H; branches H; inv_result; guards; simpl in *;
    split_and!; intros; simplify_eq; try done; try lia; guards; try congruence; try lia.
  match goal with
  | Ht : att_state ?r = Terminal, Hb : _ && _ = false |- _ =>
      rewrite Ht in Hb; simpl in Hb; rewrite orb_true_r, andb_true_r in Hb; guards; lia
  end.
Qed.

(** An operation answered [true] leaves a record of its own epoch and
    attempt. *)
Lemma attempt_true op now c m :
  attempt_mutate op now c = Ok m ->
  match m with
  | Unchanged true =>
      exists r, c = Some r /\ att_lease_epoch r = aop_epoch op /\ att_attempt_id r = aop_attempt op
                /\ att_state r = Terminal
                /\ exists res, op = PublishTerminal (aop_run op) (aop_attempt op) (aop_epoch op) res
                                /\ terminal_result r = Some res
  | _ => True
  end.
Proof.
  destruct m as [[]|]; [|done..]. destruct op; simpl;
    unfold publish_active_mutation, heartbeat_mutation, publish_terminal_mutation, next_revision;
    intros H; branches H; inv_result; guards.
  eexists. split_and!; [done..|]. eexists. split; [done|].
  done.
Qed.

Lemma att_step_epoch c e c' :
  att_step c e c' ->
  (forall r, c = Some r -> (att_lease_epoch r <= att_epoch c')%Z)
  /\ (ev_out e = true ->
      exists r, c' = Some r /\ att_lease_epoch r = aop_epoch (ev_op e)
                /\ att_attempt_id r = aop_attempt (ev_op e)).
Proof.
  unfold record_step. destruct (attempt_mutate _ _ _) as [[b|r b]|] eqn:Hm; [| |done]; intros [<- ->].
  - split; [intros r ->; done|]. intros ->.
    destruct (attempt_true _ _ _ _ Hm) as (r & -> & ? & ? & _). eauto.
  - destruct (attempt_replace _ _ _ _ _ Hm) as (-> & Hle & He & Ha & _).
    unfold att_epoch; simpl. rewrite He. split; [exact Hle|]. intros _. eauto.
Qed.

(** Within one epoch the attempt never changes. *)
Lemma att_step_same_epoch c e c' r :
  att_step c e c' -> c = Some r -> att_epoch c' = att_lease_epoch r ->
  exists r', c' = Some r' /\ att_attempt_id r' = att_attempt_id r.
Proof.
  unfold record_step. destruct (attempt_mutate _ _ _) as [[b|r' b]|] eqn:Hm; [| |done]; intros [_ ->].
  - eauto.
  - intros ->. unfold att_epoch; simpl. intros Hep. eexists. split; [done|].
    unfold attempt_mutate, publish_active_mutation, heartbeat_mutation, publish_terminal_mutation in Hm.
    destruct (ev_op e); simpl in *; branches Hm; inv_result; guards; simpl in *; try done.
    subst. rewrite Z.eqb_refl in *. simpl in *. guards. done.
Qed.

Lemma att_hist_epoch c es c' r :
  att_hist c es c' -> c = Some r ->
  exists r', c' = Some r' /\ (att_lease_epoch r <= att_lease_epoch r')%Z
    /\ (att_lease_epoch r' = att_lease_epoch r -> att_attempt_id r' = att_attempt_id r).
Proof.
  intros Hh. revert r. induction Hh as [c|c e c1 es c2 Hs Hh IH]; intros r Hr.
  { exists r. split_and!; [done|lia|done]. }
  destruct (att_step_epoch _ _ _ Hs) as [Hmono _]. specialize (Hmono _ Hr).
  assert (exists r1, c1 = Some r1) as [r1 ->].
  { unfold record_step in Hs. destruct (attempt_mutate _ _ _) as [[]|]; [..|done];
      destruct Hs as [_ ->]; eauto. }
  destruct (IH _ eq_refl) as (r2 & -> & Hle & Hatt). unfold att_epoch in Hmono; simpl in Hmono.
  exists r2. split_and!; [done|lia|]. intros Heq. rewrite Hatt by lia.
  destruct (att_step_same_epoch _ _ _ _ Hs Hr) as (r1' & [= <-] & Ha); [|done].
  unfold att_epoch; simpl; lia.
Qed.

(** Terminal results stick: the record is past the epoch, or it is the
    terminal record of that attempt with that result. *)
Definition settled (epoch : Z) (attempt : string) (res : Value) (c : option AttemptRecord) : Prop :=
  match c with
  | None => False
  | Some r =>
      (epoch < att_lease_epoch r)%Z
      \/ (att_lease_epoch r = epoch /\ att_state r = Terminal
          /\ att_attempt_id r = attempt /\ terminal_result r = Some res)
  end.

Lemma settled_step epoch attempt res c e c' :
  settled epoch attempt res c -> att_step c e c' ->
  settled epoch attempt res c'
  /\ (ev_out e = true ->
      (epoch < aop_epoch (ev_op e))%Z
      \/ (exists run, ev_op e = PublishTerminal run attempt epoch res)).
Proof.
  intros Hset Hs. destruct c as [r|]; [|done]. unfold record_step in Hs.
  destruct (attempt_mutate _ _ _) as [[b|r' b]|] eqn:Hm; [| |done]; destruct Hs as [<- ->].
  - split; [done|]. intros ->.
    destruct (attempt_true _ _ _ _ Hm) as (r0 & [= <-] & He & Ha & Ht & v & Hop & Hv).
    destruct Hset as [Hlt|(He' & _ & Ha' & Hv')]; [left; lia|right].
    exists (aop_run (ev_op e)). rewrite Hop. f_equal; congruence.
  - destruct (attempt_replace _ _ _ _ _ Hm) as (-> & Hle & He & _ & _ & _ & Hterm).
    specialize (Hle _ eq_refl). specialize (Hterm _ eq_refl). simpl in *.
    destruct Hset as [Hlt|(He' & Ht & _)]; [|specialize (Hterm Ht)];
      (split; [left; lia|intros _; left; lia]).
Qed.

Lemma settled_hist epoch attempt res c es c' :
  settled epoch attempt res c -> att_hist c es c' -> settled epoch attempt res c'.
Proof.
  intros Hset Hh. induction Hh as [c|c e c1 es c2 Hs Hh IH]; [done|].
  apply IH. by eapply settled_step.
Qed.

(** Fencing.  In every history, among the calls of one Run that were
    answered [true], epochs never go down, and two of them with the same
    epoch are of the same attempt: a stale attempt is always refused. *)
Theorem attempt_epoch_fences m es1 e1 es2 e2 es3 m' :
  atomic_run attempt_path attempt_mutate m (es1 ++ e1 :: es2 ++ e2 :: es3) m' ->
  attempt_path (ev_op e1) = attempt_path (ev_op e2) ->
  ev_out e1 = true -> ev_out e2 = true ->
  (aop_epoch (ev_op e1) <= aop_epoch (ev_op e2))%Z
  /\ (aop_epoch (ev_op e1) = aop_epoch (ev_op e2) ->
      aop_attempt (ev_op e1) = aop_attempt (ev_op e2)).
Proof.
  intros Hrun Hp H1 H2.
  apply (atomic_run_project _ _ (attempt_path (ev_op e2))) in Hrun. unfold events_at in Hrun.
  rewrite list.filter_app, filter_cons_True, list.filter_app, filter_cons_True in Hrun by done.
  apply record_hist_split in Hrun as (c0 & c1 & _ & Hs1 & Hh).
  apply record_hist_split in Hh as (c2 & c3 & Hh & Hs2 & _).
  destruct (att_step_epoch _ _ _ Hs1) as [_ Ht1], (att_step_epoch _ _ _ Hs2) as [Hm2 Ht2].
  destruct (Ht1 H1) as (r1 & -> & He1 & Ha1), (Ht2 H2) as (r2 & -> & He2 & Ha2).
  destruct (att_hist_epoch _ _ _ _ Hh eq_refl) as (r & -> & Hle & Hatt).
  specialize (Hm2 _ eq_refl). unfold att_epoch in Hm2; simpl in Hm2. split; [lia|].
  intros Heq. destruct (att_step_same_epoch _ _ _ _ Hs2 eq_refl) as (r' & [= <-] & Ha);
    [unfold att_epoch; simpl; lia|].
  rewrite <- Ha1, <- Ha2, Ha, Hatt by lia. done.
Qed.

(** Terminal results are immutable.  After a terminal publication was
    answered [true], any later call of the Run answered [true] is from a
    newer epoch or publishes the same result of the same attempt. *)
Theorem attempt_terminal_immutable m es1 e1 es2 e2 es3 m' run attempt epoch res :
  atomic_run attempt_path attempt_mutate m (es1 ++ e1 :: es2 ++ e2 :: es3) m' ->
  ev_op e1 = PublishTerminal run attempt epoch res -> ev_out e1 = true ->
  aop_run (ev_op e2) = run -> ev_out e2 = true ->
  (epoch < aop_epoch (ev_op e2))%Z \/ ev_op e2 = PublishTerminal run attempt epoch res.
Proof.
  intros Hrun Hop1 H1 Hr2 H2.
  assert (attempt_path (ev_op e1) = attempt_path (ev_op e2)) as Hp.
  { unfold attempt_path. by rewrite Hop1, Hr2. }
  apply (atomic_run_project _ _ (attempt_path (ev_op e2))) in Hrun. unfold events_at in Hrun.
  rewrite list.filter_app, filter_cons_True, list.filter_app, filter_cons_True in Hrun by done.
  apply record_hist_split in Hrun as (c0 & c1 & _ & Hs1 & Hh).
  apply record_hist_split in Hh as (c2 & c3 & Hh & Hs2 & _).
  assert (settled epoch attempt res c1) as Hset.
  { unfold record_step in Hs1. rewrite Hop1, H1 in Hs1. simpl in Hs1.
    unfold publish_terminal_mutation in Hs1. destruct c0 as [r|]; [|by destruct Hs1].
    destruct (negb _ || _ || _) eqn:Hid; [by destruct Hs1|]. guards.
    destruct (bool_decide (att_state r = Terminal)) eqn:Hst; guards.
    - destruct Hs1 as [Hb ->]. guards. by right.
    - destruct (next_revision _); simpl in Hs1; [|done]. destruct Hs1 as [_ ->]. by right. }
  destruct (settled_step _ _ _ _ _ _ (settled_hist _ _ _ _ _ _ Hset Hh) Hs2) as [_ Hor].
  destruct (Hor H2) as [?|[run' Hop]]; [by left|right]. rewrite Hop in Hr2 |- *.
  simpl in Hr2. by subst.
Qed.
End Registry.
Arguments AttemptRecord Value : clear implicits.
Arguments AttemptOp Value : clear implicits.

(** ** Instances of the theorems *)

Module AttemptExample.
#[local] Existing Instance id_codec.
#[local] Existing Instance versioned_object_store.

Abbreviation record := (AttemptRecord nat).
Abbreviation op := (AttemptOp nat).

Definition st0 : @versioned_store record := mkVersioned ∅ 0.

Definition acts : list (@action op Z) :=
  [ActInvoke 0 (PublishActive "run-1" "a1" 1 10); ActRead 0 5%Z; ActWrite 0;
   ActInvoke 1 (PublishTerminal "run-1" "a1" 1 7); ActRead 1 6%Z; ActWrite 1;
   ActInvoke 2 (PublishActive "run-1" "a2" 2 10); ActRead 2 7%Z; ActWrite 2;
   ActInvoke 3 (Heartbeat "run-1" "a1" 1 10); ActRead 3 8%Z;
   ActInvoke 4 (Heartbeat "run-1" "a2" 2 10); ActRead 4 9%Z; ActWrite 4].

Abbreviation config := (@cas_config record nat (@versioned_store record) op bool Z AttemptError).

Definition final : list (@event op bool Z) * config :=
  match schedule (cas_do attempt_path attempt_mutate CAS_RETRIES) acts (st0, ∅) with
  | Some ec => ec
  | None => ([], (st0, ∅))
  end.

Definition ev0 : @event op bool Z := mkEvent 0 (PublishActive "run-1" "a1" 1 10) 5%Z true true.
Definition ev1 : @event op bool Z := mkEvent 1 (PublishTerminal "run-1" "a1" 1 7) 6%Z true true.
Definition ev2 : @event op bool Z := mkEvent 2 (PublishActive "run-1" "a2" 2 10) 7%Z true true.
Definition ev3 : @event op bool Z := mkEvent 3 (Heartbeat "run-1" "a1" 1 10) 8%Z false true.
Definition ev4 : @event op bool Z := mkEvent 4 (Heartbeat "run-1" "a2" 2 10) 9%Z true true.

Lemma history :
  atomic_run attempt_path attempt_mutate (cas_abs st0) [ev0; ev1; ev2; ev3; ev4]
    (cas_abs (fst (snd final))).
Proof.
  refine (proj2 (cas_exec_sim attempt_path attempt_mutate CAS_RETRIES (st0, ∅) _ (snd final) _ _)).
  - split; [intros p b v; simpl; unfold vs_get; simpl; by rewrite lookup_empty|].
    intros i o ph. simpl. by rewrite lookup_empty.
  - apply (cas_schedule_sound _ _ _ acts). vm_compute. reflexivity.
Qed.

Lemma attempt_epoch_fences_witness :
  ev_out ev3 = false
  /\ ((1 <= 2)%Z /\ (1%Z = 2%Z -> "a1" = "a2")).
Proof.
  split; [reflexivity|].
  apply (attempt_epoch_fences (cas_abs st0) [ev0] ev1 [ev2; ev3] ev4 [] (cas_abs (fst (snd final))));
    [exact history|reflexivity..].
Defined.

Lemma attempt_terminal_immutable_witness :
  (1 < 2)%Z \/ ev_op ev2 = PublishTerminal "run-1" "a1" 1 7.
Proof.
  apply (attempt_terminal_immutable (cas_abs st0) [ev0] ev1 [] ev2 [ev3; ev4]
           (cas_abs (fst (snd final))) "run-1" "a1" 1%Z 7); [exact history|reflexivity..].
Defined.
End AttemptExample.
