(* ===== verification/MemoryControl.v ===== *)
(** * The control interface and its in-memory implementation

    [ChronicleControl] of [crates/persisting-events/src/control.rs] is the
    contract pPilot programs against.  [MemoryChronicleControl] implements it
    with two maps behind mutexes; the durable implementation is
    [RunControl] with [AttemptRegistry].  [RunAuthority] states what a client
    may rely on, both implementations are instances, and the client theorem
    at the end is proved against the interface alone. *)

From Stdlib Require Import ZArith Lia.
From stdpp Require Import base list strings gmap numbers option.
From S2P Require Import Prelude RuntimeTypes Durable RunControl AttemptRegistry.

#[local] Set Warnings "-clear-no-such-hyp".

Definition u64_saturating_inc (n : Z) : Z := u64_saturating_add n 1.

(** ** [MemoryChronicleControl]: Runs *)

Definition mem_acquire_inner (run_id : RunId) (task_id : option string) (owner : string)
    (ttl_ms : Z) (force : bool) (now : Z) (runs : gmap string RunControlRecord)
  : result RunControlError (LeaseAcquireOutcome * gmap string RunControlRecord) :=
  ensure! negb (str_blank owner) else EmptyOwner in
  let current := runs !! run_id in
  let expires := u64_saturating_add now (Z.max ttl_ms 1) in
  let fresh :=
    let? epoch := ok_or
      (u64_checked_add (default 0%Z (lease_epoch <$> (current ≫= rec_lease))) 1) EpochOverflow in
    let lease := mkRunLeaseRecord run_id task_id epoch owner now expires None in
    let revision := match current with
                    | None => 1%Z
                    | Some record => u64_saturating_inc (rec_revision record)
                    end in
    Ok (Acquired lease,
        <[run_id := mkRunControlRecord revision run_id (Some lease) None]> runs) in
  match current ≫= rec_commit with
  | Some commit => Ok (LeaseAlreadyCommitted commit, runs)
  | None =>
      match current with
      | Some record =>
          match rec_lease record with
          | Some existing =>
              if negb (bool_decide (lease_owner existing = owner))
                 && (now <? lease_expires_at_unix_ms existing)%Z && negb force
              then Ok (Held existing, runs)
              else if bool_decide (lease_owner existing = owner) && negb force
              then
                let lease := set_lease_expiry expires existing in
                let record' := set_rec_lease (Some lease)
                                 (set_rec_revision (u64_saturating_inc (rec_revision record)) record) in
                Ok (Acquired lease, <[run_id := record']> runs)
              else fresh
          | None => fresh
          end
      | None => fresh
      end
  end.

Definition mem_bind_attempt (run_id : RunId) (epoch : Z) (attempt_id : AttemptId) (now : Z)
    (runs : gmap string RunControlRecord) : result RunControlError (bool * gmap string RunControlRecord) :=
  match runs !! run_id with
  | None => Ok (false, runs)
  | Some record =>
      match rec_lease record with
      | None => Ok (false, runs)
      | Some lease =>
          if bool_decide (is_Some (rec_commit record)) || negb (lease_epoch lease =? epoch)%Z
             || (lease_expires_at_unix_ms lease <=? now)%Z
          then Ok (false, runs)
          else if match lease_attempt_id lease with
                  | Some current => negb (bool_decide (current = attempt_id))
                  | None => false
                  end
          then Ok (false, runs)
          else match lease_attempt_id lease with
               | Some _ => Ok (true, runs)
               | None =>
                   let record' := set_rec_lease (Some (set_lease_attempt (Some attempt_id) lease))
                     (set_rec_revision (u64_saturating_inc (rec_revision record)) record) in
                   Ok (true, <[run_id := record']> runs)
               end
      end
  end.

Definition mem_renew_lease (run_id : RunId) (epoch : Z) (owner : string) (ttl_ms now : Z)
    (runs : gmap string RunControlRecord) : result RunControlError (bool * gmap string RunControlRecord) :=
  match runs !! run_id with
  | None => Ok (false, runs)
  | Some record =>
      match rec_lease record with
      | None => Ok (false, runs)
      | Some lease =>
          if bool_decide (is_Some (rec_commit record)) || negb (lease_epoch lease =? epoch)%Z
             || negb (bool_decide (lease_owner lease = owner))
             || (lease_expires_at_unix_ms lease <=? now)%Z
          then Ok (false, runs)
          else
            let lease' := set_lease_expiry (u64_saturating_add now (Z.max ttl_ms 1)) lease in
            let record' := set_rec_lease (Some lease')
              (set_rec_revision (u64_saturating_inc (rec_revision record)) record) in
            Ok (true, <[run_id := record']> runs)
      end
  end.

Definition mem_commit_run (request : RunCommitRequest) (now : Z)
    (runs : gmap string RunControlRecord)
  : result RunControlError (CommitRunOutcome * gmap string RunControlRecord) :=
  ensure! is_terminal (req_state request) else NotTerminal in
  ensure! (0 <? req_lease_epoch request)%Z else ZeroEpoch in
  ensure! negb (str_blank (result_digest request)) else EmptyDigest in
  match runs !! req_run_id request with
  | None => Ok (StaleLease (req_lease_epoch request) None, runs)
  | Some record =>
      match rec_commit record with
      | Some existing =>
          Ok (if bool_decide (commit_request existing = request)
              then AlreadyCommitted existing else Conflict existing, runs)
      | None =>
          let current_epoch := lease_epoch <$> rec_lease record in
          let matches :=
            match rec_lease record with
            | None => false
            | Some lease =>
                (lease_epoch lease =? req_lease_epoch request)%Z
                && (now <? lease_expires_at_unix_ms lease)%Z
                && match lease_attempt_id lease with
                   | None => true
                   | Some attempt => bool_decide (attempt = req_attempt_id request)
                   end
            end in
          if negb matches
          then Ok (StaleLease (req_lease_epoch request) current_epoch, runs)
          else
            let commit := mkRunCommit request now in
            let lease' := get_or_insert_attempt (req_attempt_id request) <$> rec_lease record in
            let record' := mkRunControlRecord (u64_saturating_inc (rec_revision record))
                             (rec_run_id record) lease' (Some commit) in
            Ok (Committed commit, <[req_run_id request := record']> runs)
      end
  end.

Definition map_fst_result {A A' C E} (f : A -> A') (r : result E (A * C)) : result E (A' * C) :=
  let? p := r in Ok (f (fst p), snd p).

(** One call of the trait; [now] is the single clock read of the call.  The
    [now] of [OpAcquire] is that read too. *)
Definition mem_run_call (op : RunOp) (now : Z) (runs : gmap string RunControlRecord)
  : result RunControlError (RunOut * gmap string RunControlRecord) :=
  match op with
  | OpAcquire run_id task_id owner ttl_ms force at_ =>
      map_fst_result OutLease (mem_acquire_inner run_id task_id owner ttl_ms force at_ runs)
  | OpBind run_id epoch attempt_id =>
      map_fst_result OutBool (mem_bind_attempt run_id epoch attempt_id now runs)
  | OpRenew run_id epoch owner ttl_ms =>
      map_fst_result OutBool (mem_renew_lease run_id epoch owner ttl_ms now runs)
  | OpCommit request =>
      map_fst_result OutCommit (mem_commit_run request now runs)
  end.

Definition mem_get_run (run_id : RunId) (runs : gmap string RunControlRecord)
  : option RunControlRecord := runs !! run_id.

(** ** [MemoryChronicleControl]: Attempts *)

Section MemoryAttempts.
Context {Value : Type} `{!EqDecision Value}.

Definition mem_get_attempt (run_id : string) (attempts : gmap string (AttemptRecord Value))
  : option (AttemptRecord Value) := attempts !! run_id.

Definition mem_publish_active (run_id attempt_id : string) (lease_epoch ttl_ms now : Z)
    (attempts : gmap string (AttemptRecord Value))
  : result AttemptError (bool * gmap string (AttemptRecord Value)) :=
  ensure! negb (str_blank run_id) && negb (str_blank attempt_id) && (0 <? lease_epoch)%Z
    else InvalidIdentity in
  let current := attempts !! run_id in
  if match current with
     | None => false
     | Some record =>
         (lease_epoch <? att_lease_epoch record)%Z
         || ((att_lease_epoch record =? lease_epoch)%Z
             && (negb (bool_decide (att_attempt_id record = attempt_id))
                 || bool_decide (att_state record = Terminal)))
     end
  then Ok (false, attempts)
  else
    let revision := match current with
                    | None => 1%Z
                    | Some record => u64_saturating_inc (att_revision record)
                    end in
    Ok (true, <[run_id := mkAttemptRecord revision run_id attempt_id lease_epoch Active now
                            (u64_saturating_add now (Z.max ttl_ms 1)) None]> attempts).

Definition mem_publish_terminal (run_id attempt_id : string) (lease_epoch : Z) (res : Value)
    (now : Z) (attempts : gmap string (AttemptRecord Value))
  : result AttemptError (bool * gmap string (AttemptRecord Value)) :=
  match attempts !! run_id with
  | None => Ok (false, attempts)
  | Some record =>
      if negb (bool_decide (att_attempt_id record = attempt_id))
         || negb (att_lease_epoch record =? lease_epoch)%Z
      then Ok (false, attempts)
      else if bool_decide (att_state record = Terminal)
      then Ok (bool_decide (terminal_result record = Some res), attempts)
      else Ok (true, <[run_id := mkAttemptRecord (u64_saturating_inc (att_revision record))
                                   (att_run_id record) (att_attempt_id record)
                                   (att_lease_epoch record) Terminal now now (Some res)]> attempts)
  end.

Definition mem_heartbeat (run_id attempt_id : string) (lease_epoch ttl_ms now : Z)
    (attempts : gmap string (AttemptRecord Value))
  : result AttemptError (bool * gmap string (AttemptRecord Value)) :=
  match attempts !! run_id with
  | None => Ok (false, attempts)
  | Some record =>
      if negb (bool_decide (att_attempt_id record = attempt_id))
         || negb (att_lease_epoch record =? lease_epoch)%Z
         || negb (bool_decide (att_state record = Active))
      then Ok (false, attempts)
      else Ok (true, <[run_id := mkAttemptRecord (u64_saturating_inc (att_revision record))
                                   (att_run_id record) (att_attempt_id record)
                                   (att_lease_epoch record) (att_state record) now
                                   (u64_saturating_add now (Z.max ttl_ms 1))
                                   (terminal_result record)]> attempts)
  end.

Definition mem_attempt_call (op : AttemptOp Value) (now : Z)
    (attempts : gmap string (AttemptRecord Value))
  : result AttemptError (bool * gmap string (AttemptRecord Value)) :=
  match op with
  | PublishActive run_id a e ttl => mem_publish_active run_id a e ttl now attempts
  | Heartbeat run_id a e ttl => mem_heartbeat run_id a e ttl now attempts
  | PublishTerminal run_id a e res => mem_publish_terminal run_id a e res now attempts
  end.
End MemoryAttempts.

(** ** The in-memory maps implement the durable closures *)

(** The record belongs to its key and its revision can still be bumped: the
    store refuses a bump past [u64::MAX], the maps saturate. *)
Definition run_has_room (run : RunId) (current : option RunControlRecord) : Prop :=
  forall r, current = Some r -> rec_run_id r = run /\ (rec_revision r < u64_max)%Z.

(** A lease epoch is a [u64]. *)
Definition op_epoch_ok (op : RunOp) : Prop :=
  match op with OpCommit request => (0 <= req_lease_epoch request)%Z | _ => True end.

(** One atomic operation on a map of records. *)
Definition atomic_map_call (op : RunOp) (k : RunClock) (runs : gmap string RunControlRecord)
  : result RunControlError (RunOut * gmap string RunControlRecord) :=
  let? _ := run_guard op in
  let? m := run_mutate op k (runs !! op_run op) in
  match m with
  | Unchanged o => Ok (o, runs)
  | Replace r o => Ok (o, <[op_run op := r]> runs)
  end.

Lemma next_record_room current run f :
  run_has_room run current ->
  let r0 := default (mkRunControlRecord 0 run None None) current in
  next_record current run f = Ok (f (set_rec_revision (rec_revision r0 + 1) r0)).
Proof.
  intros Hroom. unfold next_record. destruct current as [r|]; simpl.
  - destruct (Hroom r eq_refl) as [Hid Hrev].
    rewrite (bool_decide_eq_true_2 _ Hid). simpl.
    assert (u64_checked_add (rec_revision r) 1 = Some (rec_revision r + 1)%Z) as ->
      by (apply u64_checked_add_Some; lia). done.
  - by rewrite bool_decide_eq_true_2.
Qed.

Lemma saturating_inc_room n : (n < u64_max)%Z -> u64_saturating_inc n = (n + 1)%Z.
Proof. unfold u64_saturating_inc, u64_saturating_add. lia. Qed.

Lemma mem_acquire_refines run task owner ttl force now runs :
  run_has_room run (runs !! run) ->
  map_fst_result OutLease (mem_acquire_inner run task owner ttl force now runs)
  = atomic_map_call (OpAcquire run task owner ttl force now) (now, now) runs.
Proof.
  intros Hroom. unfold atomic_map_call, mem_acquire_inner; simpl.
  destruct (negb (str_blank owner)); simpl; [|done].
  unfold acquire_mutation, current_commit, current_lease.
  destruct (runs !! run) as [[rev rid lease commit]|] eqn:Hr; simpl.
  - destruct (Hroom _ eq_refl) as [Hid Hrev]; simpl in *. subst rid.
    rewrite saturating_inc_room by done.
    destruct commit as [x|]; [done|].
    destruct lease as [l|]; simpl.
    + destruct (_ && _ && _); [done|]. destruct (_ && _).
      * by rewrite next_record_room.
      * destruct (u64_checked_add _ 1); simpl; [|done]. by rewrite next_record_room.
    + by rewrite next_record_room.
  - by rewrite next_record_room.
Qed.

Lemma mem_bind_refines run epoch attempt now runs :
  run_has_room run (runs !! run) ->
  map_fst_result OutBool (mem_bind_attempt run epoch attempt now runs)
  = atomic_map_call (OpBind run epoch attempt) (now, now) runs.
Proof.
  intros Hroom. unfold atomic_map_call, mem_bind_attempt, bind_mutation; simpl.
  destruct (runs !! run) as [[rev rid [l|] commit]|] eqn:Hr; simpl; [|done..].
  rewrite next_record_room by done. simpl.
  destruct (Hroom _ eq_refl) as [Hid Hrev]; simpl in *. subst rid.
  rewrite saturating_inc_room by done.
  destruct (_ || _ || _); [done|].
  destruct (lease_attempt_id l) as [a|]; simpl.
  - repeat (case_bool_decide; simpl); naive_solver.
  - done.
Qed.

Lemma mem_renew_refines run epoch owner ttl now runs :
  run_has_room run (runs !! run) ->
  map_fst_result OutBool (mem_renew_lease run epoch owner ttl now runs)
  = atomic_map_call (OpRenew run epoch owner ttl) (now, now) runs.
Proof.
  intros Hroom. unfold atomic_map_call, mem_renew_lease, renew_mutation; simpl.
  destruct (runs !! run) as [[rev rid lease commit]|] eqn:Hr; simpl; [|done].
  rewrite next_record_room by done. simpl.
  destruct (Hroom _ eq_refl) as [Hid Hrev]; simpl in *. subst rid.
  rewrite saturating_inc_room by done.
  destruct lease as [l|]; simpl; [|by rewrite andb_false_r].
  destruct (bool_decide (is_Some commit)); simpl; [done|].
  destruct (lease_epoch l =? epoch)%Z; simpl; [|done].
  destruct (bool_decide (lease_owner l = owner)); simpl; [|done].
  rewrite Z.leb_antisym. by destruct (now <? _)%Z.
Qed.

Lemma mem_commit_refines request now runs :
  (0 <= req_lease_epoch request)%Z ->
  run_has_room (req_run_id request) (runs !! req_run_id request) ->
  map_fst_result OutCommit (mem_commit_run request now runs)
  = atomic_map_call (OpCommit request) (now, now) runs.
Proof.
  intros Hep Hroom. unfold atomic_map_call, mem_commit_run; simpl.
  destruct (is_terminal (req_state request)); simpl; [|done].
  assert (negb (req_lease_epoch request =? 0)%Z = (0 <? req_lease_epoch request)%Z) as -> by lia.
  destruct (0 <? req_lease_epoch request)%Z; simpl; [|done].
  destruct (negb (str_blank (result_digest request))); simpl; [|done].
  unfold commit_mutation, current_commit, current_lease.
  rewrite next_record_room by done.
  destruct (runs !! req_run_id request) as [[rev rid lease commit]|] eqn:Hr; simpl; [|done].
  destruct (Hroom _ eq_refl) as [Hid Hrev]; simpl in *. subst rid.
  rewrite saturating_inc_room by done.
  destruct commit as [x|]; simpl; [by case_bool_decide|].
  destruct lease as [l|]; simpl; [|done].
  by destruct (_ && _ && _).
Qed.

Lemma mem_run_refines op now runs :
  op_epoch_ok op ->
  match op with OpAcquire _ _ _ _ _ at_ => at_ = now | _ => True end ->
  run_has_room (op_run op) (runs !! op_run op) ->
  mem_run_call op now runs = atomic_map_call op (now, now) runs.
Proof.
  destruct op; simpl; intros Hep Hat Hroom; subst;
    auto using mem_acquire_refines, mem_bind_refines, mem_renew_refines, mem_commit_refines.
Qed.

(** Records filed under their own Run with revision at most [n]. *)
Definition filed (n : Z) (runs : gmap string RunControlRecord) : Prop :=
  forall run r, runs !! run = Some r -> rec_run_id r = run /\ (rec_revision r <= n)%Z.

Lemma filed_room n runs run : filed n runs -> (n < u64_max)%Z -> run_has_room run (runs !! run).
Proof. intros Hf Hn r Hr. destruct (Hf _ _ Hr). split; [done|lia]. Qed.

Lemma filed_step n op k runs o runs' :
  (0 <= n)%Z -> filed n runs -> atomic_map_call op k runs = Ok (o, runs') -> filed (n + 1) runs'.
Proof.
  intros Hn Hf H. unfold atomic_map_call in H. inv_result.
  destruct x0 as [o'|r o']; inv_result.
  - intros run r Hr. destruct (Hf _ _ Hr). split; [done|lia].
  - match goal with Hm : run_mutate _ _ _ = _ |- _ =>
      apply run_mutate_advances in Hm as (_ & Hid & Hrev & _) end.
    intros run r0. destruct (decide (op_run op = run)) as [<-|Hne].
    + rewrite lookup_insert_eq. intros [= <-]. split; [done|]. rewrite Hrev.
      destruct (runs !! op_run op) as [r1|] eqn:Hr1; simpl; [|lia].
      destruct (Hf _ _ Hr1). lia.
    + rewrite lookup_insert_ne by done. intros Hr. destruct (Hf _ _ Hr). split; [done|lia].
Qed.

Definition call_ok (call : RunOp * Z) : Prop :=
  op_epoch_ok (fst call)
  /\ match fst call with OpAcquire _ _ _ _ _ at_ => at_ = snd call | _ => True end.

(** C38: the in-memory control is the durable one: any sequence of fewer than
    2^64 - 1 calls gets, call by call, the answers of the durable store's
    guarded closures run atomically, and ends with the same records. *)
Theorem memory_control_refines_store calls :
  Forall call_ok calls ->
  (Z.of_nat (length calls) < u64_max)%Z ->
  run_calls (fun call runs => mem_run_call (fst call) (snd call) runs) calls ∅
  = run_calls (fun call runs => atomic_map_call (fst call) (snd call, snd call) runs) calls ∅.
Proof.
  intros Hok Hlen.
  assert (forall n runs, (0 <= n)%Z -> filed n runs -> (n + Z.of_nat (length calls) < u64_max)%Z ->
    run_calls (fun call runs => mem_run_call (fst call) (snd call) runs) calls runs
    = run_calls (fun call runs => atomic_map_call (fst call) (snd call, snd call) runs) calls runs)
    as Hgen.
  { clear Hlen. induction Hok as [|call calls [Hep Hat] Hok IH]; intros n runs Hn Hf Hlen; simpl in *; [done|].
    rewrite mem_run_refines; [|done|done|eapply filed_room; [done|lia]].
    destruct (atomic_map_call _ _ _) as [[o runs']|e] eqn:Hcall.
    - rewrite (IH (n + 1)%Z); [done|lia|by eapply filed_step|lia].
    - rewrite (IH n); [done|lia|done|lia]. }
  apply (Hgen 0%Z); [lia| |lia]. intros run r. by rewrite lookup_empty.
Qed.

Section MemoryAttemptsRefine.
Context {Value : Type} `{!EqDecision Value}.

(** Likewise for Attempts: a call whose identity the registry accepts is
    answered by the maps as by the registry's closure, and stores the same
    record, as long as the record is filed under its Run and its revision can
    be bumped. *)
Theorem memory_attempts_refine_registry (op : AttemptOp Value) now attempts :
  attempt_guard op = Ok tt ->
  (0 <= aop_epoch op)%Z ->
  (forall r, attempts !! aop_run op = Some r ->
     att_run_id r = aop_run op /\ (att_revision r < u64_max)%Z) ->
  mem_attempt_call op now attempts
  = (let? m := attempt_mutate op now (attempts !! aop_run op) in
     match m with
     | Unchanged b => Ok (b, attempts)
     | Replace r b => Ok (b, <[aop_run op := r]> attempts)
     end).
Proof.
  intros Hg Hep Hroom. unfold attempt_guard, validate_identity in Hg.
  destruct (_ || _ || _) eqn:Hid; [done|]. guards.
  assert (forall r, attempts !! aop_run op = Some r ->
            u64_checked_add (att_revision r) 1 = Some (u64_saturating_inc (att_revision r))) as Hinc.
  { intros r Hr. destruct (Hroom r Hr). rewrite saturating_inc_room by done.
    apply u64_checked_add_Some. lia. }
  destruct op as [run a e ttl|run a e ttl|run a e res]; simpl in *;
    unfold mem_publish_active, mem_heartbeat, mem_publish_terminal, publish_active_mutation,
      heartbeat_mutation, publish_terminal_mutation, next_revision.
  - repeat match goal with Hb : str_blank _ = false |- _ => rewrite Hb; clear Hb end.
    assert ((0 <? e)%Z = true) as -> by lia. simpl.
    destruct (attempts !! run) as [r|]; simpl; [|done].
    destruct (_ || _); [done|]. by rewrite Hinc.
  - destruct (attempts !! run) as [r|]; simpl; [|done].
    destruct (Hroom r eq_refl) as [Hr _]. rewrite (bool_decide_eq_true_2 _ Hr). simpl.
    destruct (_ || _ || _); [done|]. by rewrite Hinc.
  - destruct (attempts !! run) as [r|]; simpl; [|done].
    destruct (Hroom r eq_refl) as [Hr _]. rewrite (bool_decide_eq_true_2 _ Hr). simpl.
    destruct (_ || _); [done|]. destruct (bool_decide (att_state r = Terminal)); [done|].
    by rewrite Hinc.
Qed.
End MemoryAttemptsRefine.

(** ** What a client of the control plane relies on *)

Definition mutation_out {R T} (m : Mutation R T) : T :=
  match m with Unchanged o | Replace _ o => o end.

Definition mutation_record {R T} (c : option R) (m : Mutation R T) : option R :=
  match m with Unchanged _ => c | Replace r _ => Some r end.

(** A call made at time [now] answers what its closure answers on the current
    record and stores what the closure stores, leaving other Runs alone. *)
Class RunAuthority (S : Type) : Type := {
  ra_ready : S -> Prop;
  ra_record : S -> RunId -> option RunControlRecord;
  ra_call : RunOp -> Z -> S -> result (StoreError RunControlError) RunOut * S;
  ra_call_spec : forall op now s m,
    ra_ready s -> run_guard op = Ok tt -> call_ok (op, now) ->
    run_has_room (op_run op) (ra_record s (op_run op)) ->
    run_mutate op (now, now) (ra_record s (op_run op)) = Ok m ->
    exists s', ra_call op now s = (Ok (mutation_out m), s')
      /\ ra_ready s'
      /\ ra_record s' (op_run op) = mutation_record (ra_record s (op_run op)) m
      /\ (forall run, run <> op_run op -> ra_record s' run = ra_record s run);
}.

#[global, refine] Instance memory_authority : RunAuthority (gmap string RunControlRecord) := {|
  ra_ready _ := True;
  ra_record runs run := runs !! run;
  ra_call op now runs :=
    match mem_run_call op now runs with
    | Ok (o, runs') => (Ok o, runs')
    | Err e => (Err (MutateError e), runs)
    end;
|}.
Proof.
  intros op now runs m _ Hg [Hep Hat] Hroom Hm. simpl in *.
  rewrite mem_run_refines by done. unfold atomic_map_call. rewrite Hg. simpl. rewrite Hm. simpl.
  destruct m as [o|r o]; eexists; (split; [done|]); simpl; (split; [done|]).
  - done.
  - split; [apply lookup_insert_eq|]. intros. by apply lookup_insert_ne.
Defined.

Lemma record_name_ne a b : a <> b -> record_name a <> record_name b.
Proof. intros Hne Heq. by apply Hne, record_name_inj. Qed.

#[global, refine] Instance object_authority {B V St} `{!Codec RunControlRecord B, !ObjectStore St B V}
  : RunAuthority St := {|
  ra_ready := store_decodes;
  ra_record st run := cas_abs st (record_name run);
  ra_call op now st := run_call_object (fun _ => (now, now)) (fun _ st => st) op st;
|}.
Proof.
  intros op now st m Hdec Hg _ _ Hm. unfold run_call_object. rewrite Hg.
  destruct (mutate_object_pass run_path run_mutate 31 (fun _ => (now, now)) (fun _ st => st) op st)
    as (st' & Hcall & Hrec & Hother & Hdec'); [done|done|].
  change (cas_abs st (run_path op)) with (cas_abs st (record_name (op_run op))) in *.
  rewrite Hm in Hcall, Hrec. exists st'. split_and!; [by destruct m| done|by destruct m|].
  intros run Hne. apply Hother, record_name_ne, Hne.
Defined.

#[global, refine] Instance local_authority {B} `{!Codec RunControlRecord B}
  : RunAuthority (gmap string B) := {|
  ra_ready := dir_decodes;
  ra_record dir run := local_abs dir (record_name run);
  ra_call op now dir := run_call_local "pid" (now, now) op dir;
|}.
Proof.
  intros op now dir m Hdec Hg _ _ Hm. unfold run_call_local. rewrite Hg.
  destruct (mutate_local_atomic run_path run_mutate run_paths_are_records "pid" (now, now) op dir m)
    as (dir' & Hcall & Hrec & Hother & Hdec'); [done|done|].
  exists dir'. split_and!; [by destruct m|done|by destruct m|].
  intros run Hne. apply Hother, record_name_ne, Hne.
Defined.

Section Client.
Context {S : Type} `{!RunAuthority S}.

(** Call on a known record, keeping what the interface promises. *)
Lemma authority_step op now s c m :
  ra_ready s -> run_guard op = Ok tt -> call_ok (op, now) ->
  ra_record s (op_run op) = c -> run_has_room (op_run op) c ->
  run_mutate op (now, now) c = Ok m ->
  exists s', ra_call op now s = (Ok (mutation_out m), s') /\ ra_ready s'
    /\ ra_record s' (op_run op) = mutation_record c m.
Proof.
  intros Hr Hg Hc <- Hroom Hm.
  destruct (ra_call_spec op now s m Hr Hg Hc Hroom Hm) as (s' & ? & ? & ? & _). eauto.
Qed.

Context (run : RunId) (task : option string) (ttl now : Z).
Hypothesis Hnow : (0 <= now < u64_max)%Z.

Definition lease_at (epoch : Z) (owner : string) : RunLeaseRecord :=
  mkRunLeaseRecord run task epoch owner now (u64_saturating_add now (Z.max ttl 1)) None.

Definition leased (revision epoch : Z) (owner : string) : RunControlRecord :=
  mkRunControlRecord revision run (Some (lease_at epoch owner)) None.

Definition won (revision epoch : Z) (owner : string) (req : RunCommitRequest) : RunControlRecord :=
  mkRunControlRecord revision run
    (Some (set_lease_attempt (Some (req_attempt_id req)) (lease_at epoch owner)))
    (Some (mkRunCommit req now)).

Lemma first_acquire a :
  run_mutate (OpAcquire run task a ttl false now) (now, now) None
  = Ok (Replace (leased 1 1 a) (OutLease (Acquired (lease_at 1 a)))).
Proof.
  simpl. unfold acquire_mutation, next_record. simpl. by rewrite bool_decide_eq_true_2.
Qed.

Lemma forced_acquire a b rev :
  (rev < 10)%Z ->
  run_mutate (OpAcquire run task b ttl true now) (now, now) (Some (leased rev 1 a))
  = Ok (Replace (leased (rev + 1) 2 b) (OutLease (Acquired (lease_at 2 b)))).
Proof.
  intros Hrev. simpl. unfold acquire_mutation, next_record. simpl. rewrite !andb_false_r. simpl.
  rewrite bool_decide_eq_true_2 by done. simpl.
  assert (u64_checked_add rev 1 = Some (rev + 1)%Z) as ->
    by (apply u64_checked_add_Some; unfold u64_max; lia). done.
Qed.

Lemma stale_commit b rev req :
  req_lease_epoch req = 1%Z ->
  run_mutate (OpCommit req) (now, now) (Some (leased rev 2 b))
  = Ok (Unchanged (OutCommit (StaleLease 1 (Some 2%Z)))).
Proof. intros Hep. simpl. unfold commit_mutation; simpl. by rewrite Hep. Qed.

Lemma winning_commit b rev req :
  req_run_id req = run -> req_lease_epoch req = 2%Z -> (rev < 10)%Z ->
  run_mutate (OpCommit req) (now, now) (Some (leased rev 2 b))
  = Ok (Replace (won (rev + 1) 2 b req) (OutCommit (Committed (mkRunCommit req now)))).
Proof.
  intros Hrun Hep Hrev. simpl. unfold commit_mutation, next_record; simpl. rewrite Hep. simpl.
  assert ((now <? u64_saturating_add now (Z.max ttl 1))%Z = true) as ->
    by (unfold u64_saturating_add; lia). simpl.
  rewrite bool_decide_eq_true_2 by done. simpl.
  assert (u64_checked_add rev 1 = Some (rev + 1)%Z) as ->
    by (apply u64_checked_add_Some; unfold u64_max; lia). done.
Qed.

Lemma conflicting_commit b rev req req' :
  req <> req' ->
  run_mutate (OpCommit req) (now, now) (Some (won rev 2 b req'))
  = Ok (Unchanged (OutCommit (Conflict (mkRunCommit req' now)))).
Proof.
  intros Hne. simpl. unfold commit_mutation; simpl. by rewrite bool_decide_eq_false_2 by congruence.
Qed.

Lemma small_room r rev :
  rec_run_id r = run -> rec_revision r = rev -> (rev < 10)%Z -> run_has_room run (Some r).
Proof. intros ? ? ? ? [= <-]. unfold u64_max. split; [done|lia]. Qed.

(** Losing a takeover.  On every implementation of the control interface
    and a Run it does not know yet: worker [a] acquires the Run, worker [b]
    takes it over; [a]'s commit under its old lease is refused as stale,
    [b]'s commit wins, and [a]'s later attempt to commit finds the conflict. *)
Theorem takeover_fences_old_owner s a b reqa reqb :
  ra_ready s -> ra_record s run = None ->
  str_blank a = false -> str_blank b = false ->
  req_run_id reqa = run -> req_run_id reqb = run -> reqa <> reqb ->
  run_guard (OpCommit reqa) = Ok tt -> run_guard (OpCommit reqb) = Ok tt ->
  req_lease_epoch reqa = 1%Z -> req_lease_epoch reqb = 2%Z ->
  exists s1 s2 s3 s4 s5,
    ra_call (OpAcquire run task a ttl false now) now s = (Ok (OutLease (Acquired (lease_at 1 a))), s1)
    /\ ra_call (OpAcquire run task b ttl true now) now s1 = (Ok (OutLease (Acquired (lease_at 2 b))), s2)
    /\ ra_call (OpCommit reqa) now s2 = (Ok (OutCommit (StaleLease 1 (Some 2%Z))), s3)
    /\ ra_call (OpCommit reqb) now s3 = (Ok (OutCommit (Committed (mkRunCommit reqb now))), s4)
    /\ ra_call (OpCommit reqa) now s4 = (Ok (OutCommit (Conflict (mkRunCommit reqb now))), s5).
Proof.
  intros Hs Hnone Ha Hb Hra Hrb Hne Hga Hgb Hea Heb.
  destruct (authority_step (OpAcquire run task a ttl false now) now s None _ Hs (ltac:(simpl; by rewrite Ha)) (ltac:(done)) Hnone
    (ltac:(done)) (first_acquire a)) as (s1 & H1 & Hs1 & Hr1).
  destruct (authority_step (OpAcquire run task b ttl true now) now s1 (Some (leased 1 1 a)) _ Hs1 (ltac:(simpl; by rewrite Hb)) (ltac:(done)) Hr1
    (ltac:(by apply (small_room _ 1))) (forced_acquire a b 1 ltac:(lia)))
    as (s2 & H2 & Hs2 & Hr2).
  destruct (authority_step (OpCommit reqa) now s2 (Some (leased 2 2 b)) _ Hs2 Hga
    (ltac:(split; simpl; [lia|done])) (ltac:(simpl; by rewrite Hra))
    (ltac:(simpl; rewrite Hra; by apply (small_room _ 2))) (stale_commit b 2 reqa Hea))
    as (s3 & H3 & Hs3 & Hr3).
  destruct (authority_step (OpCommit reqb) now s3 (Some (leased 2 2 b)) _ Hs3 Hgb
    (ltac:(split; simpl; [lia|done])) (ltac:(simpl in *; rewrite Hrb; by rewrite Hra in Hr3))
    (ltac:(simpl; rewrite Hrb; by apply (small_room _ 2)))
    (winning_commit b 2 reqb Hrb Heb ltac:(lia))) as (s4 & H4 & Hs4 & Hr4).
  destruct (authority_step (OpCommit reqa) now s4 (Some (won 3 2 b reqb)) _ Hs4 Hga
    (ltac:(split; simpl; [lia|done])) (ltac:(simpl in *; rewrite Hra; by rewrite Hrb in Hr4))
    (ltac:(simpl; rewrite Hra; by apply (small_room _ 3))) (conflicting_commit b 3 reqa reqb Hne))
    as (s5 & H5 & _).
  by exists s1, s2, s3, s4, s5.
Qed.
End Client.

(** ** Instances of the theorems *)

Module MemoryExample.
Definition request (attempt : string) (epoch : Z) : RunCommitRequest :=
  mkRunCommitRequest "run-1" None attempt epoch Completed None "sha:x".

Definition calls : list (RunOp * Z) :=
  [(OpAcquire "run-1" None "a" 100 false 10, 10%Z);
   (OpBind "run-1" 1 "att", 20%Z);
   (OpRenew "run-1" 1 "a" 100, 30%Z);
   (OpCommit (request "att" 1), 40%Z);
   (OpCommit (request "att" 1), 50%Z)].

Lemma memory_control_refines_store_witness :
  fst (run_calls (fun call runs => mem_run_call (fst call) (snd call) runs) calls ∅)
  = [Ok (OutLease (Acquired (mkRunLeaseRecord "run-1" None 1 "a" 10 110 None)));
     Ok (OutBool true); Ok (OutBool true);
     Ok (OutCommit (Committed (mkRunCommit (request "att" 1) 40)));
     Ok (OutCommit (AlreadyCommitted (mkRunCommit (request "att" 1) 40)))]
  /\ run_calls (fun call runs => mem_run_call (fst call) (snd call) runs) calls ∅
     = run_calls (fun call runs => atomic_map_call (fst call) (snd call, snd call) runs) calls ∅.
Proof.
  split; [vm_compute; reflexivity|].
  apply (memory_control_refines_store calls).
  - repeat (constructor; [split; [simpl; lia || done|done]|]). constructor.
  - vm_compute. reflexivity.
Defined.

Lemma memory_attempts_refine_registry_witness :
  mem_attempt_call (PublishActive (Value := nat) "run-1" "att" 1 10) 5 ∅
  = (let? m := attempt_mutate (PublishActive (Value := nat) "run-1" "att" 1 10) 5
                 ((∅ : gmap string (AttemptRecord nat)) !! "run-1") in
     match m with
     | Unchanged b => Ok (b, ∅)
     | Replace r b => Ok (b, <["run-1" := r]> ∅)
     end).
Proof.
  apply (memory_attempts_refine_registry (PublishActive "run-1" "att" 1 10) 5 ∅).
  - vm_compute. reflexivity.
  - simpl. lia.
  - intros r H. vm_compute in H. discriminate H.
Defined.

(** The client theorem on the in-memory implementation. *)
Lemma takeover_fences_old_owner_witness :
  exists s1 s2 s3 s4 s5 : gmap string RunControlRecord,
    ra_call (OpAcquire "run-1" None "a" 100 false 10) 10 ∅
      = (Ok (OutLease (Acquired (lease_at "run-1" None 100 10 1 "a"))), s1)
    /\ ra_call (OpAcquire "run-1" None "b" 100 true 10) 10 s1
      = (Ok (OutLease (Acquired (lease_at "run-1" None 100 10 2 "b"))), s2)
    /\ ra_call (OpCommit (request "att-a" 1)) 10 s2 = (Ok (OutCommit (StaleLease 1 (Some 2%Z))), s3)
    /\ ra_call (OpCommit (request "att-b" 2)) 10 s3
      = (Ok (OutCommit (Committed (mkRunCommit (request "att-b" 2) 10))), s4)
    /\ ra_call (OpCommit (request "att-a" 1)) 10 s4
      = (Ok (OutCommit (Conflict (mkRunCommit (request "att-b" 2) 10))), s5).
Proof.
  apply (takeover_fences_old_owner "run-1" None 100 10); try (vm_compute; reflexivity).
  - split; [lia|vm_compute; reflexivity].
  - discriminate.
Defined.
End MemoryExample.
