(* ===== verification/IpAddr.v ===== *)
(** * IP addresses: [std::net::IpAddr], its parser and printer, and the
      egress classification of addresses

    The network policy decides on hosts that may be IP literals and on the
    addresses a name resolved to.  This file models what
    [persisting-agentctl/src/lib.rs] uses of the standard library
    ([IpAddr::from_str], [Display], the [is_*] predicates,
    [to_ipv4_mapped]) and the two classifications of that file,
    [is_public_egress_ip] and [is_opt_in_private_ip], which are shown to be
    the complement and a part of the special-purpose address blocks. *)

From Stdlib Require Import ZArith Lia Ascii.
From stdpp Require Import base list strings gmap numbers option.
From S2P Require Import Prelude.

#[local] Set Warnings "-clear-no-such-hyp".
#[local] Open Scope Z_scope.

(** ** Addresses *)

(** An IPv4 address is its four octets, an IPv6 address its eight 16-bit
    segments. *)
Inductive IpAddr : Type :=
| V4 (a b c d : Z)
| V6 (s0 s1 s2 s3 s4 s5 s6 s7 : Z).

#[global] Instance IpAddr_eq_dec : EqDecision IpAddr.
Proof. solve_decision. Defined.

Definition is_u8 (z : Z) : Prop := 0 <= z < 256.
Definition is_u16 (z : Z) : Prop := 0 <= z < 65536.

Definition ip_wf (ip : IpAddr) : Prop :=
  match ip with
  | V4 a b c d => Forall is_u8 [a; b; c; d]
  | V6 s0 s1 s2 s3 s4 s5 s6 s7 => Forall is_u16 [s0; s1; s2; s3; s4; s5; s6; s7]
  end.

(** [Ipv6Addr::to_ipv4_mapped]: [::ffff:a.b.c.d]. *)
Definition to_ipv4_mapped (ip : IpAddr) : option IpAddr :=
  match ip with
  | V6 s0 s1 s2 s3 s4 s5 s6 s7 =>
      if (s0 =? 0) && (s1 =? 0) && (s2 =? 0) && (s3 =? 0) && (s4 =? 0) && (s5 =? 0xffff)
      then Some (V4 (s6 / 256) (s6 mod 256) (s7 / 256) (s7 mod 256)) else None
  | _ => None
  end.

(** [Ipv4Addr::is_loopback], [is_private], [is_link_local], [is_multicast],
    [is_broadcast]. *)
Definition v4_is_loopback (a b c d : Z) : bool := a =? 127.
Definition v4_is_private (a b c d : Z) : bool :=
  (a =? 10)
  || ((a =? 172) && ((16 <=? b) && (b <=? 31)))
  || ((a =? 192) && (b =? 168)).
Definition v4_is_link_local (a b c d : Z) : bool := (a =? 169) && (b =? 254).
Definition v4_is_multicast (a b c d : Z) : bool := (224 <=? a) && (a <=? 239).
Definition v4_is_broadcast (a b c d : Z) : bool :=
  (a =? 255) && (b =? 255) && (c =? 255) && (d =? 255).

(** [Ipv6Addr::is_loopback]. *)
Definition v6_is_loopback (s0 s1 s2 s3 s4 s5 s6 s7 : Z) : bool :=
  bool_decide (V6 s0 s1 s2 s3 s4 s5 s6 s7 = V6 0 0 0 0 0 0 0 1).

(** ** The egress classification of [lib.rs] *)

Definition v4_is_public (a b c d : Z) : bool :=
  negb (a =? 0)
  && negb (v4_is_loopback a b c d)
  && negb (v4_is_private a b c d)
  && negb (v4_is_link_local a b c d)
  && negb (v4_is_multicast a b c d)
  && negb (v4_is_broadcast a b c d)
  && negb ((a =? 100) && ((64 <=? b) && (b <=? 127)))
  && negb ((a =? 192) && (b =? 0) && (c =? 0))
  && negb ((a =? 192) && (b =? 0) && (c =? 2))
  && negb ((a =? 198) && ((18 <=? b) && (b <=? 19)))
  && negb ((a =? 198) && (b =? 51) && (c =? 100))
  && negb ((a =? 203) && (b =? 0) && (c =? 113))
  && (a <? 240).

Definition v6_is_public (s0 s1 : Z) : bool :=
  (Z.land s0 0xe000 =? 0x2000)
  && negb ((s0 =? 0x2001) && (s1 <=? 0x01ff))
  && negb ((s0 =? 0x2001) && (s1 =? 0x0db8))
  && negb (s0 =? 0x2002)
  && negb ((s0 =? 0x3fff) && (Z.land s1 0xf000 =? 0)).

Definition is_public_egress_ip (ip : IpAddr) : bool :=
  match ip with
  | V4 a b c d => v4_is_public a b c d
  | V6 s0 s1 _ _ _ _ _ _ =>
      match to_ipv4_mapped ip with
      | Some (V4 a b c d) => v4_is_public a b c d
      | _ => v6_is_public s0 s1
      end
  end.

Definition is_opt_in_private_ip (ip : IpAddr) : bool :=
  match ip with
  | V4 a b c d => v4_is_private a b c d || v4_is_loopback a b c d
  | V6 s0 s1 s2 s3 s4 s5 s6 s7 =>
      match to_ipv4_mapped ip with
      | Some (V4 a b c d) => v4_is_private a b c d || v4_is_loopback a b c d
      | _ => v6_is_loopback s0 s1 s2 s3 s4 s5 s6 s7 || (Z.land s0 0xfe00 =? 0xfc00)
      end
  end.

(** ** [FromStr for IpAddr]: the parser of [core::net]

    A parser takes the remaining bytes and returns a value and what is left;
    [None] leaves the input where it was (the standard library's
    [read_atomically]). *)

(** [char::to_digit]. *)
Definition to_digit (radix : Z) (c : Ascii.ascii) : option Z :=
  let n := Z.of_N (Ascii.N_of_ascii c) in
  let digit :=
    if byte_in 48 57 c then Some (n - 48)
    else if byte_in 97 122 c then Some (n - 87)
    else if byte_in 65 90 c then Some (n - 55)
    else None in
  match digit with
  | Some d => if d <? radix then Some d else None
  | None => None
  end.

Definition read_given_char (target : Ascii.ascii) (s : string) : option string :=
  match s with
  | String c r => if bool_decide (c = target) then Some r else None
  | EmptyString => None
  end.

(** The digit loop of [read_number]: too many digits fail. *)
Fixpoint read_digits (radix : Z) (max_digits count : nat) (acc : Z) (s : string)
  : option (nat * Z * string) :=
  match s with
  | EmptyString => Some (count, acc, s)
  | String c r =>
      match to_digit radix c with
      | None => Some (count, acc, s)
      | Some d =>
          if (max_digits <? S count)%nat then None
          else read_digits radix max_digits (S count) (acc * radix + d) r
      end
  end.

Definition read_number (radix : Z) (max_digits : nat) (allow_zero_prefix : bool)
    (max_value : Z) (s : string) : option (Z * string) :=
  let has_leading_zero := str_starts_with "0" s in
  match read_digits radix max_digits 0 0 s with
  | None => None
  | Some (digit_count, result, rest) =>
      if (digit_count =? 0)%nat then None
      else if negb allow_zero_prefix && has_leading_zero && (1 <? digit_count)%nat then None
      else if result <=? max_value then Some (result, rest) else None
  end.

(** [read_separator]: a separator before every item but the first. *)
Definition read_separator {A} (sep : Ascii.ascii) (index : nat)
    (inner : string -> option (A * string)) (s : string) : option (A * string) :=
  if (0 <? index)%nat then
    match read_given_char sep s with
    | Some r => inner r
    | None => None
    end
  else inner s.

Definition read_octet (index : nat) : string -> option (Z * string) :=
  read_separator "."%char index (read_number 10 3 false 255).

Definition read_ipv4_addr (s : string) : option (IpAddr * string) :=
  match read_octet 0 s with
  | None => None
  | Some (a, s) =>
      match read_octet 1 s with
      | None => None
      | Some (b, s) =>
          match read_octet 2 s with
          | None => None
          | Some (c, s) =>
              match read_octet 3 s with
              | None => None
              | Some (d, s) => Some (V4 a b c d, s)
              end
          end
      end
  end.

(** [read_groups]: up to [limit] groups, starting at group [index]; the last
    two may be an embedded IPv4 address.  Returns the groups read, whether an
    IPv4 address was embedded, and what is left. *)
Fixpoint read_groups (limit left index : nat) (s : string) : list Z * bool * string :=
  match left with
  | O => ([], false, s)
  | S left' =>
      let plain :=
        match read_separator ":"%char index (read_number 16 4 true 65535) s with
        | Some (g, r) =>
            let '(gs, embedded, r') := read_groups limit left' (S index) r in
            (g :: gs, embedded, r')
        | None => ([], false, s)
        end in
      if (index <? limit - 1)%nat then
        match read_separator ":"%char index read_ipv4_addr s with
        | Some (V4 a b c d, r) => ([a * 256 + b; c * 256 + d], true, r)
        | _ => plain
        end
      else plain
  end.

Definition v6_of_groups (gs : list Z) : option IpAddr :=
  match gs with
  | [s0; s1; s2; s3; s4; s5; s6; s7] => Some (V6 s0 s1 s2 s3 s4 s5 s6 s7)
  | _ => None
  end.

Definition read_ipv6_addr (s : string) : option (IpAddr * string) :=
  let '(head, head_ipv4, s1) := read_groups 8 8 0 s in
  if (length head =? 8)%nat then option_map (fun ip => (ip, s1)) (v6_of_groups head)
  else if head_ipv4 then None
  else
    match read_given_char ":"%char s1 with
    | None => None
    | Some s2 =>
        match read_given_char ":"%char s2 with
        | None => None
        | Some s3 =>
            let limit := (8 - (length head + 1))%nat in
            let '(tail, _, s4) := read_groups limit limit 0 s3 in
            let zeros := replicate (8 - length head - length tail) 0 in
            option_map (fun ip => (ip, s4)) (v6_of_groups (head ++ zeros ++ tail))
        end
    end.

Definition read_ip_addr (s : string) : option (IpAddr * string) :=
  match read_ipv4_addr s with
  | Some r => Some r
  | None => read_ipv6_addr s
  end.

(** [IpAddr::from_str]: the whole input is consumed. *)
Definition ip_from_str (s : string) : option IpAddr :=
  match read_ip_addr s with
  | Some (ip, EmptyString) => Some ip
  | _ => None
  end.

(** ** [Display for IpAddr] *)

Definition digit_char (d : Z) : Ascii.ascii :=
  Ascii.ascii_of_N (Z.to_N (if d <? 10 then 48 + d else 87 + d)).

(** Digits of [n] in [radix], most significant first, at most [fuel + 1]. *)
Fixpoint show_radix (fuel : nat) (radix n : Z) (acc : string) : string :=
  match fuel with
  | O => String (digit_char (n mod radix)) acc
  | S fuel' =>
      if n <? radix then String (digit_char n) acc
      else show_radix fuel' radix (n / radix) (String (digit_char (n mod radix)) acc)
  end.

(** [{}] of a [u8] and [{:x}] of a [u16]. *)
Definition show_u8 (n : Z) : string := show_radix 2 10 n "".
Definition show_hex (n : Z) : string := show_radix 3 16 n "".

Definition show_v4 (a b c d : Z) : string :=
  show_u8 a +:+ "." +:+ show_u8 b +:+ "." +:+ show_u8 c +:+ "." +:+ show_u8 d.

(** The first longest run of zero segments: (start, length). *)
Fixpoint zero_span (i : nat) (segs : list Z) (longest current : nat * nat) : nat * nat :=
  match segs with
  | [] => longest
  | s :: rest =>
      if s =? 0 then
        let start := if (snd current =? 0)%nat then i else fst current in
        let current' := (start, S (snd current)) in
        zero_span (S i) rest (if (snd longest <? snd current')%nat then current' else longest) current'
      else zero_span (S i) rest longest (0, 0)%nat
  end.

(** [fmt_subslice]: groups in hexadecimal, separated by colons. *)
Fixpoint fmt_subslice (chunk : list Z) : string :=
  match chunk with
  | [] => ""
  | [g] => show_hex g
  | g :: rest => show_hex g +:+ ":" +:+ fmt_subslice rest
  end.

Definition ip_to_string (ip : IpAddr) : string :=
  match ip with
  | V4 a b c d => show_v4 a b c d
  | V6 s0 s1 s2 s3 s4 s5 s6 s7 =>
      match to_ipv4_mapped ip with
      | Some (V4 a b c d) => "::ffff:" +:+ show_v4 a b c d
      | _ =>
          let segs := [s0; s1; s2; s3; s4; s5; s6; s7] in
          let '(start, len) := zero_span 0 segs (0, 0)%nat (0, 0)%nat in
          if (1 <? len)%nat
          then fmt_subslice (take start segs) +:+ "::" +:+ fmt_subslice (drop (start + len) segs)
          else fmt_subslice segs
      end
  end.

Example parse_v4 : ip_from_str "192.168.0.1" = Some (V4 192 168 0 1).
Proof. vm_compute. reflexivity. Qed.
Example parse_octal : ip_from_str "192.168.010.1" = None.
Proof. vm_compute. reflexivity. Qed.
Example parse_v6 : ip_from_str "2001:db8::ff00:42:8329" = Some (V6 0x2001 0xdb8 0 0 0 0xff00 0x42 0x8329).
Proof. vm_compute. reflexivity. Qed.
Example parse_mapped : ip_from_str "::ffff:10.0.0.1" = Some (V6 0 0 0 0 0 65535 0x0a00 1).
Proof. vm_compute. reflexivity. Qed.
Example parse_too_long : ip_from_str "1:2:3:4:5:6:7:8:9" = None.
Proof. vm_compute. reflexivity. Qed.
Example print_v6 : ip_to_string (V6 0x2001 0xdb8 0 0 1 0 0 1) = "2001:db8::1:0:0:1".
Proof. vm_compute. reflexivity. Qed.

(** ** The classification and the special-purpose blocks *)

Definition v4_value (a b c d : Z) : Z := ((a * 256 + b) * 256 + c) * 256 + d.

Definition v6_value (s0 s1 s2 s3 s4 s5 s6 s7 : Z) : Z :=
  ((((((s0 * 65536 + s1) * 65536 + s2) * 65536 + s3) * 65536 + s4) * 65536 + s5) * 65536 + s6)
    * 65536 + s7.

(** [value] has the first [len] of [bits] bits of [base]. *)
Definition in_block (bits value : Z) (block : Z * Z) : bool :=
  let '(base, len) := block in Z.shiftr value (bits - len) =? Z.shiftr base (bits - len).

(** The IPv4 blocks that are not globally reachable unicast: this network,
    private use, shared address space, loopback, link local, protocol
    assignments, documentation, benchmarking, multicast, reserved. *)
Definition special_v4 : list (Z * Z) :=
  [(v4_value 0 0 0 0, 8); (v4_value 127 0 0 0, 8); (v4_value 10 0 0 0, 8);
   (v4_value 172 16 0 0, 12); (v4_value 192 168 0 0, 16); (v4_value 169 254 0 0, 16);
   (v4_value 224 0 0 0, 4); (v4_value 100 64 0 0, 10); (v4_value 192 0 0 0, 24);
   (v4_value 192 0 2 0, 24); (v4_value 198 18 0 0, 15); (v4_value 198 51 100 0, 24);
   (v4_value 203 0 113 0, 24); (v4_value 240 0 0 0, 4)].

(** Global unicast [2000::/3] and the carve-outs: protocol assignments
    [2001::/23], documentation [2001:db8::/32] and [3fff::/20], 6to4
    [2002::/16]. *)
Definition global_unicast_v6 : Z * Z := (v6_value 0x2000 0 0 0 0 0 0 0, 3).
Definition special_v6 : list (Z * Z) :=
  [(v6_value 0x2001 0 0 0 0 0 0 0, 23); (v6_value 0x2001 0xdb8 0 0 0 0 0 0, 32);
   (v6_value 0x2002 0 0 0 0 0 0 0, 16); (v6_value 0x3fff 0 0 0 0 0 0 0, 20)].
Definition mapped_v4 : Z * Z := (v6_value 0 0 0 0 0 0xffff 0 0, 96).

(** What an address must satisfy to be public, by its numeric value. *)
Definition public_by_blocks (ip : IpAddr) : bool :=
  match ip with
  | V4 a b c d => negb (existsb (in_block 32 (v4_value a b c d)) special_v4)
  | V6 s0 s1 s2 s3 s4 s5 s6 s7 =>
      let v := v6_value s0 s1 s2 s3 s4 s5 s6 s7 in
      if in_block 128 v mapped_v4
      then negb (existsb (in_block 32 (v mod 2 ^ 32)) special_v4)
      else in_block 128 v global_unicast_v6 && negb (existsb (in_block 128 v) special_v6)
  end.

Lemma shiftr_split (x hi lo n : Z) :
  0 <= n -> x = hi * 2 ^ n + lo -> 0 <= lo < 2 ^ n -> Z.shiftr x n = hi.
Proof.
  intros Hn -> Hlo. rewrite Z.shiftr_div_pow2 by done. symmetry.
  apply Z.div_unique with lo; lia.
Qed.

(** Evaluate the constant side of a block comparison. *)
Ltac eval_blocks :=
  repeat match goal with
  | |- context [Z.shiftr ?x ?n] =>
      let v := eval vm_compute in (Z.shiftr x n) in
      lazymatch v with Zpos _ => idtac | Z0 => idtac end;
      change (Z.shiftr x n) with v
  end.

Section V4Blocks.
Context (a b c d : Z).
Context (Ha : is_u8 a) (Hb : is_u8 b) (Hc : is_u8 c) (Hd : is_u8 d).

Lemma v4_shr_24 : Z.shiftr (v4_value a b c d) 24 = a.
Proof. unfold is_u8, v4_value in *. apply shiftr_split with ((b * 256 + c) * 256 + d); lia. Qed.
Lemma v4_shr_16 : Z.shiftr (v4_value a b c d) 16 = a * 256 + b.
Proof. unfold is_u8, v4_value in *. apply shiftr_split with (c * 256 + d); lia. Qed.
Lemma v4_shr_8 : Z.shiftr (v4_value a b c d) 8 = (a * 256 + b) * 256 + c.
Proof. unfold is_u8, v4_value in *. apply shiftr_split with d; lia. Qed.

Lemma v4_shr_28 : Z.shiftr (v4_value a b c d) 28 = a / 16.
Proof.
  change 28 with (24 + 4). rewrite <- Z.shiftr_shiftr, v4_shr_24 by lia.
  apply Z.shiftr_div_pow2. lia.
Qed.
Lemma v4_shr_16_plus n : 0 <= n -> Z.shiftr (v4_value a b c d) (16 + n) = (a * 256 + b) / 2 ^ n.
Proof. intros. rewrite <- Z.shiftr_shiftr, v4_shr_16 by lia. by apply Z.shiftr_div_pow2. Qed.

Lemma v4_blocks :
  map (in_block 32 (v4_value a b c d)) special_v4
  = [a =? 0; v4_is_loopback a b c d; a =? 10; (a =? 172) && ((16 <=? b) && (b <=? 31));
     (a =? 192) && (b =? 168); v4_is_link_local a b c d; v4_is_multicast a b c d;
     (a =? 100) && ((64 <=? b) && (b <=? 127));
     (a =? 192) && (b =? 0) && (c =? 0); (a =? 192) && (b =? 0) && (c =? 2);
     (a =? 198) && ((18 <=? b) && (b <=? 19)); (a =? 198) && (b =? 51) && (c =? 100);
     (a =? 203) && (b =? 0) && (c =? 113); negb (a <? 240)].
Proof.
  unfold special_v4, in_block, map.
  change (32 - 8) with 24. change (32 - 12) with (16 + 4). change (32 - 16) with 16.
  change (32 - 4) with 28. change (32 - 10) with (16 + 6). change (32 - 24) with 8.
  change (32 - 15) with (16 + 1).
  rewrite v4_shr_24, v4_shr_16, v4_shr_28, v4_shr_8, !v4_shr_16_plus by lia.
  eval_blocks. change (2 ^ 4) with 16. change (2 ^ 6) with 64. change (2 ^ 1) with 2.
  unfold v4_is_loopback, v4_is_link_local, v4_is_multicast, is_u8 in *.
  repeat (refine (f_equal2 cons _ _); [first [reflexivity | Z.to_euclidean_division_equations; lia]|]).
  reflexivity.
Qed.

Lemma v4_public_blocks :
  v4_is_public a b c d = negb (existsb (in_block 32 (v4_value a b c d)) special_v4).
Proof.
  assert (existsb (in_block 32 (v4_value a b c d)) special_v4
          = existsb id (map (in_block 32 (v4_value a b c d)) special_v4)) as -> by done.
  rewrite v4_blocks. unfold v4_is_public, v4_is_private, existsb, id.
  rewrite !negb_orb, negb_involutive, <- !andb_assoc. simpl negb.
  assert (v4_is_broadcast a b c d = true -> (a <? 240) = false).
  { unfold v4_is_broadcast. lia. }
  destruct (v4_is_broadcast a b c d); simpl; [rewrite H by done|]; by rewrite ?andb_false_r, ?andb_true_r.
Qed.
End V4Blocks.

Section V6Blocks.
Context (s0 s1 s2 s3 s4 s5 s6 s7 : Z).
Context (H0 : is_u16 s0) (H1 : is_u16 s1) (H2 : is_u16 s2) (H3 : is_u16 s3).
Context (H4 : is_u16 s4) (H5 : is_u16 s5) (H6 : is_u16 s6) (H7 : is_u16 s7).

#[local] Abbreviation v := (v6_value s0 s1 s2 s3 s4 s5 s6 s7).

Lemma v6_shr_96 : Z.shiftr v 96 = s0 * 65536 + s1.
Proof.
  unfold is_u16, v6_value in *.
  apply shiftr_split with (((((s2 * 65536 + s3) * 65536 + s4) * 65536 + s5) * 65536 + s6) * 65536 + s7); lia.
Qed.
Lemma v6_shr_96_plus n : 0 <= n -> Z.shiftr v (96 + n) = (s0 * 65536 + s1) / 2 ^ n.
Proof. intros. rewrite <- Z.shiftr_shiftr, v6_shr_96 by lia. by apply Z.shiftr_div_pow2. Qed.

Lemma v6_shr_32 :
  Z.shiftr v 32 = ((((s0 * 65536 + s1) * 65536 + s2) * 65536 + s3) * 65536 + s4) * 65536 + s5.
Proof. unfold is_u16, v6_value in *. apply shiftr_split with (s6 * 65536 + s7); lia. Qed.

Lemma v6_low_32 : v mod 2 ^ 32 = v4_value (s6 / 256) (s6 mod 256) (s7 / 256) (s7 mod 256).
Proof.
  unfold is_u16 in *. symmetry.
  apply Z.mod_unique with (((((s0 * 65536 + s1) * 65536 + s2) * 65536 + s3) * 65536 + s4) * 65536 + s5);
    unfold v4_value, v6_value; Z.to_euclidean_division_equations; lia.
Qed.

Lemma to_ipv4_mapped_spec :
  to_ipv4_mapped (V6 s0 s1 s2 s3 s4 s5 s6 s7)
  = if in_block 128 v mapped_v4
    then Some (V4 (s6 / 256) (s6 mod 256) (s7 / 256) (s7 mod 256)) else None.
Proof.
  unfold in_block, mapped_v4. change (128 - 96) with 32. rewrite v6_shr_32. eval_blocks.
  unfold is_u16 in *.
  unfold to_ipv4_mapped.
  assert (forall x y : bool, x = y -> forall T (p q : T), (if x then p else q) = (if y then p else q))
    as cong by (by intros x y ->).
  apply cong. lia.
Qed.

Lemma land_high_bits :
  (Z.land s0 0xe000 =? 0x2000) = (s0 / 8192 =? 1)
  /\ (Z.land s1 0xf000 =? 0) = (s1 / 4096 =? 0).
Proof.
  assert (forall x, is_u16 x -> (Z.land x 0xe000 =? 0x2000) = (x / 8192 =? 1)
                                /\ (Z.land x 0xf000 =? 0) = (x / 4096 =? 0)) as H; [|split; by apply H].
  intros x Hx.
  assert (forall_below (Z.to_nat 65536) 0 (fun x => eqb (Z.land x 0xe000 =? 0x2000) (x / 8192 =? 1)
            && eqb (Z.land x 0xf000 =? 0) (x / 4096 =? 0)) = true) as Hall by (vm_compute; reflexivity).
  apply forall_below_sound with (z := x) in Hall; [|unfold is_u16 in Hx; lia].
  apply andb_prop in Hall as [?%eqb_prop ?%eqb_prop]. done.
Qed.

Lemma v6_public_blocks :
  v6_is_public s0 s1 = in_block 128 v global_unicast_v6 && negb (existsb (in_block 128 v) special_v6).
Proof.
  destruct land_high_bits as [L0 L1]. unfold v6_is_public. rewrite L0, L1.
  unfold special_v6, global_unicast_v6, in_block, existsb.
  change (128 - 23) with (96 + 9). change (128 - 32) with 96. change (128 - 16) with (96 + 16).
  change (128 - 3) with (96 + 29). change (128 - 20) with (96 + 12).
  rewrite v6_shr_96, !v6_shr_96_plus by lia. eval_blocks.
  change (2 ^ 9) with 512. change (2 ^ 16) with 65536. change (2 ^ 12) with 4096. change (2 ^ 29) with 536870912.
  unfold is_u16 in *.
  rewrite !negb_orb, <- !andb_assoc. simpl negb.
  repeat (refine (f_equal2 andb _ _); [first [reflexivity | Z.to_euclidean_division_equations; lia]|]).
  rewrite andb_true_r. Z.to_euclidean_division_equations; lia.
Qed.
End V6Blocks.

(** The egress classification is exactly "outside every special-purpose
    block": a public IPv4 address is in none of the fourteen blocks, a public
    IPv6 address is global unicast outside the four carve-outs, and an
    IPv4-mapped address is judged by the address it maps. *)
Theorem public_egress_by_blocks ip :
  ip_wf ip -> is_public_egress_ip ip = public_by_blocks ip.
Proof.
  destruct ip as [a b c d|s0 s1 s2 s3 s4 s5 s6 s7]; unfold ip_wf; intros Hwf;
    repeat (apply Forall_cons_1 in Hwf as [? Hwf]).
  - by apply (v4_public_blocks a b c d).
  - unfold is_public_egress_ip, public_by_blocks. rewrite to_ipv4_mapped_spec by done.
    destruct (in_block _ _ mapped_v4); [|by apply v6_public_blocks].
    rewrite v6_low_32 by done. unfold is_u16 in *.
    apply v4_public_blocks; unfold is_u8; Z.to_euclidean_division_equations; lia.
Qed.

(** ** Parsing what is printed *)

Definition head_not (p : Ascii.ascii -> bool) (s : string) : Prop :=
  match s with EmptyString => True | String c _ => p c = false end.

Definition is_digit (radix : Z) (c : Ascii.ascii) : bool :=
  match to_digit radix c with Some _ => true | None => false end.

Lemma read_digits_app radix md count acc s n v rest :
  read_digits radix md count acc s = Some (n, v, "") -> head_not (is_digit radix) rest ->
  read_digits radix md count acc (s +:+ rest) = Some (n, v, rest).
Proof.
  intros H Hrest. revert count acc H. induction s as [|c s IH]; intros count acc H; simpl in H.
  - simplify_eq. change ("" +:+ rest) with rest. destruct rest as [|c rest]; [done|].
    simpl in *. unfold is_digit in Hrest. by destruct (to_digit radix c).
  - rewrite str_app_cons. simpl.
    destruct (to_digit radix c); [|done]. destruct (_ <? _)%nat; [done|]. by apply IH.
Qed.

Lemma starts_with_app p s rest :
  s <> "" -> str_starts_with (String p "") (s +:+ rest) = str_starts_with (String p "") s.
Proof.
  destruct s as [|c s]; [done|]. intros _. rewrite str_app_cons. unfold str_starts_with. simpl.
  destruct (Ascii.ascii_dec p c); [|done]. by destruct s, rest.
Qed.

Lemma read_number_app radix md az mv s v rest :
  read_number radix md az mv s = Some (v, "") -> head_not (is_digit radix) rest ->
  read_number radix md az mv (s +:+ rest) = Some (v, rest).
Proof.
  unfold read_number. intros H Hrest.
  destruct (decide (s = "")) as [->|Hne]; [done|]. rewrite starts_with_app by done.
  destruct (read_digits _ _ _ _ s) as [[[n x] r]|] eqn:E; [|done].
  assert (r = "") as -> by (clear -H; repeat case_match; by simplify_eq).
  rewrite (read_digits_app _ _ _ _ _ _ _ rest E Hrest). clear E.
  repeat case_match; by simplify_eq.
Qed.

Lemma read_show_u8 n : is_u8 n -> read_number 10 3 false 255 (show_u8 n) = Some (n, "").
Proof.
  intros Hn.
  assert (forall_below (Z.to_nat 256) 0
            (fun n => bool_decide (read_number 10 3 false 255 (show_u8 n) = Some (n, ""))) = true)
    as H by (vm_compute; reflexivity).
  apply forall_below_sound with (z := n) in H; [by apply bool_decide_eq_true in H|unfold is_u8 in Hn; lia].
Qed.

(** A printed group: up to four lower-case hexadecimal digits that read back. *)
Definition lower_hex (c : Ascii.ascii) : bool := byte_in 48 57 c || byte_in 97 102 c.

Lemma read_show_hex_chars n :
  is_u16 n -> read_number 16 4 true 65535 (show_hex n) = Some (n, "")
              /\ str_forall lower_hex (show_hex n) = true.
Proof.
  intros Hn.
  assert (forall_below (Z.to_nat 65536) 0
            (fun n => bool_decide (read_number 16 4 true 65535 (show_hex n) = Some (n, ""))
                      && str_forall lower_hex (show_hex n)) = true)
    as H by (vm_compute; reflexivity).
  apply forall_below_sound with (z := n) in H; [|unfold is_u16 in Hn; lia].
  apply andb_true_iff in H as [H1 H2]. by apply bool_decide_eq_true in H1.
Qed.

Lemma lower_hex_digit c : lower_hex c = true -> is_digit 16 c = true.
Proof. destruct c as [[] [] [] [] [] [] [] []]; vm_compute; auto. Qed.

Lemma read_show_hex n :
  is_u16 n -> read_number 16 4 true 65535 (show_hex n) = Some (n, "")
              /\ str_forall (is_digit 16) (show_hex n) = true.
Proof.
  intros Hn. destruct (read_show_hex_chars n Hn) as [? ?]. split; [done|].
  by eapply str_forall_impl; [apply lower_hex_digit|].
Qed.

Lemma read_octet_first n rest :
  is_u8 n -> head_not (is_digit 10) rest -> read_octet 0 (show_u8 n +:+ rest) = Some (n, rest).
Proof.
  intros. change (read_number 10 3 false 255 (show_u8 n +:+ rest) = Some (n, rest)).
  apply read_number_app; [by apply read_show_u8|done].
Qed.

Lemma read_octet_next i n rest :
  is_u8 n -> head_not (is_digit 10) rest -> read_octet (S i) ("." +:+ show_u8 n +:+ rest) = Some (n, rest).
Proof.
  intros. change (read_number 10 3 false 255 (show_u8 n +:+ rest) = Some (n, rest)).
  apply read_number_app; [by apply read_show_u8|done].
Qed.

Lemma read_show_v4 a b c d rest :
  ip_wf (V4 a b c d) -> head_not (is_digit 10) rest ->
  read_ipv4_addr (show_v4 a b c d +:+ rest) = Some (V4 a b c d, rest).
Proof.
  unfold ip_wf. intros Hwf Hrest. repeat (apply Forall_cons_1 in Hwf as [? Hwf]).
  unfold show_v4, read_ipv4_addr. rewrite !str_app_assoc.
  rewrite (read_octet_first a) by done.
  rewrite (read_octet_next 0 b) by done.
  rewrite (read_octet_next 1 c) by done.
  by rewrite (read_octet_next 2 d) by done.
Qed.

(** Hexadecimal digits that are not followed by a dot are not an IPv4 address. *)
Lemma read_digits_rest md count acc s rest n v r :
  str_forall (is_digit 16) s = true -> head_not (byte_is 46) rest -> head_not (is_digit 16) rest ->
  read_digits 10 md count acc (s +:+ rest) = Some (n, v, r) -> head_not (byte_is 46) r.
Proof.
  intros Hs Hr Hd. revert count acc. induction s as [|c s IH]; intros count acc.
  - change ("" +:+ rest) with rest. clear Hs. destruct rest as [|c rest]; simpl; [naive_solver|].
    destruct (to_digit 10 c) eqn:E; [|naive_solver].
    intros _. exfalso. simpl in Hd. revert Hd E. unfold is_digit, to_digit.
    repeat case_match; try done; intros; guards; simplify_eq; lia.
  - simpl in Hs. guards. rewrite str_app_cons. simpl.
    destruct (to_digit 10 c) eqn:E; [destruct (_ <? _)%nat; [done|by apply IH]|].
    intros [= <- <- <-]. simpl. destruct (byte_is 46 c) eqn:E46; [|done]. exfalso.
    unfold byte_is in E46. apply N.eqb_eq in E46. rewrite <- (Ascii.ascii_N_embedding c), E46 in H. done.
Qed.

Lemma read_octet_stops i s : head_not (byte_is 46) s -> read_octet (S i) s = None.
Proof.
  destruct s as [|c s]; [done|]. unfold read_octet, read_separator. simpl. intros H.
  destruct (bool_decide_reflect (c = "."%char)) as [->|]; done.
Qed.

Lemma read_ipv4_hex_None s rest :
  str_forall (is_digit 16) s = true -> head_not (byte_is 46) rest -> head_not (is_digit 16) rest ->
  read_ipv4_addr (s +:+ rest) = None.
Proof.
  intros Hs Hr Hd. unfold read_ipv4_addr.
  destruct (read_octet 0 (s +:+ rest)) as [[v r]|] eqn:E; [|done].
  rewrite read_octet_stops; [done|].
  unfold read_octet, read_separator, read_number in E. simpl (0 <? 0)%nat in E. cbv iota in E.
  destruct (read_digits 10 3 0 0 (s +:+ rest)) as [[[n v'] r']|] eqn:E'; [|done].
  apply read_digits_rest in E'; [|done..]. clear -E E'. by repeat case_match; simplify_eq.
Qed.

(** The groups after the first one: each with its colon. *)
Fixpoint tail_text (gs : list Z) : string :=
  match gs with
  | [] => ""
  | g :: rest => ":" +:+ show_hex g +:+ tail_text rest
  end.

Lemma fmt_subslice_cons g gs : fmt_subslice (g :: gs) = show_hex g +:+ tail_text gs.
Proof.
  revert g. induction gs as [|h gs IH]; intros g.
  - simpl. by rewrite str_app_nil_r.
  - change (fmt_subslice (g :: h :: gs)) with (show_hex g +:+ ":" +:+ fmt_subslice (h :: gs)).
    by rewrite IH.
Qed.

(** Where a list of groups ends: the end of the input, or [::]. *)
Definition groups_end (rest : string) : Prop := rest = "" \/ exists r, rest = "::" +:+ r.

Lemma groups_end_head gs rest p :
  groups_end rest -> p ":"%char = false -> head_not p (tail_text gs +:+ rest).
Proof. intros [->|[r ->]] Hp; destruct gs; simpl; done. Qed.

Lemma read_group_ends i rest :
  groups_end rest ->
  read_separator ":"%char i (read_number 16 4 true 65535) rest = None
  /\ read_separator ":"%char i read_ipv4_addr rest = None.
Proof. intros [->|[r ->]]; destruct i; split; reflexivity. Qed.

Lemma read_groups_end limit left i rest :
  groups_end rest -> read_groups limit left i rest = ([], false, rest).
Proof.
  intros H. destruct left as [|left]; [done|]. simpl.
  destruct (read_group_ends i rest H) as [-> ->]. by destruct (_ <? _)%nat.
Qed.

(** One group: the IPv4 attempt fails, the hexadecimal one reads it. *)
Lemma read_group g gs rest :
  is_u16 g -> groups_end rest ->
  read_number 16 4 true 65535 (show_hex g +:+ tail_text gs +:+ rest) = Some (g, tail_text gs +:+ rest)
  /\ read_ipv4_addr (show_hex g +:+ tail_text gs +:+ rest) = None.
Proof.
  intros Hg Hend. destruct (read_show_hex g Hg) as [H1 H2]. split.
  - apply read_number_app; [done|]. by apply groups_end_head.
  - apply read_ipv4_hex_None; [done|by apply groups_end_head..].
Qed.

Lemma read_groups_step limit left i s g r :
  read_separator ":"%char i (read_number 16 4 true 65535) s = Some (g, r) ->
  read_separator ":"%char i read_ipv4_addr s = None ->
  read_groups limit (S left) i s
  = (let '(gs, embedded, r') := read_groups limit left (S i) r in (g :: gs, embedded, r')).
Proof. intros H1 H2. simpl. rewrite H1, H2. by destruct (_ <? _)%nat. Qed.

Lemma read_groups_tail limit left i gs rest :
  Forall is_u16 gs -> (length gs <= left)%nat -> groups_end rest ->
  read_groups limit left (S i) (tail_text gs +:+ rest) = (gs, false, rest).
Proof.
  intros Hgs. revert left i. induction Hgs as [|g gs Hg Hgs IH]; intros left i Hlen Hend.
  - by apply read_groups_end.
  - destruct left as [|left]; [simpl in Hlen; lia|].
    destruct (read_group g gs rest Hg Hend) as [Hn Hv].
    simpl in Hlen. change (tail_text (g :: gs) +:+ rest)
      with (String ":"%char ((show_hex g +:+ tail_text gs) +:+ rest)).
    rewrite str_app_assoc, (read_groups_step _ _ _ _ g (tail_text gs +:+ rest)) by done.
    by rewrite IH by (done || lia).
Qed.

Lemma read_groups_fmt limit left gs rest :
  Forall is_u16 gs -> (length gs <= left)%nat -> groups_end rest ->
  read_groups limit left 0 (fmt_subslice gs +:+ rest) = (gs, false, rest).
Proof.
  intros Hgs Hlen Hend. destruct Hgs as [|g gs Hg Hgs]; [by apply read_groups_end|].
  destruct left as [|left]; [simpl in Hlen; lia|]. simpl in Hlen.
  destruct (read_group g gs rest Hg Hend) as [Hn Hv].
  rewrite fmt_subslice_cons, str_app_assoc, (read_groups_step _ _ _ _ g (tail_text gs +:+ rest)) by done.
  by rewrite read_groups_tail by (done || lia).
Qed.

(** ** The longest run of zeros *)

Definition zero_run (all : list Z) (span : nat * nat) : Prop :=
  (fst span + snd span <= length all)%nat
  /\ forall k, (fst span <= k < fst span + snd span)%nat -> all !! k = Some 0.

Lemma zero_span_run all segs i longest current :
  drop i all = segs -> (i <= length all)%nat ->
  zero_run all longest -> zero_run all current ->
  (snd current = 0 \/ fst current + snd current = i)%nat ->
  zero_run all (zero_span i segs longest current).
Proof.
  revert i longest current. induction segs as [|s segs IH]; intros i longest current Hd Hi HL HC HE; [done|].
  assert (all !! i = Some s) as Hs.
  { rewrite <- (Nat.add_0_r i), <- lookup_drop, Hd. done. }
  assert (drop (S i) all = segs) as Hd'.
  { rewrite <- Nat.add_1_r, <- drop_drop, Hd. done. }
  pose proof (lookup_lt_Some _ _ _ Hs).
  simpl. destruct (Z.eqb_spec s 0) as [->|].
  - set (current' := (if (snd current =? 0)%nat then i else fst current, S (snd current))).
    assert (zero_run all current').
    { destruct HC as [HC1 HC2], current as [st ln]. simpl in *. unfold current'.
      destruct (Nat.eqb_spec ln 0) as [->|]; (split; simpl; [lia|]); intros k Hk.
      - by replace k with i by lia.
      - destruct (decide (k = i)) as [->|]; [done|]. apply HC2. lia. }
    apply IH; try done; [by destruct (_ <? _)%nat|].
    right. unfold current'. simpl. destruct (Nat.eqb_spec (snd current) 0); lia.
  - apply IH; try done; [|by left]. split; simpl; lia.
Qed.

Lemma zero_run_split all start len :
  zero_run all (start, len) ->
  all = take start all ++ replicate len 0 ++ drop (start + len) all /\ (start + len <= length all)%nat.
Proof.
  intros [Hle Hz]. simpl in *. split; [|done].
  rewrite <- (take_drop start all) at 1. f_equal.
  rewrite <- (take_drop len (drop start all)), drop_drop. f_equal.
  apply list_eq. intros k. destruct (decide (k < len)%nat).
  - rewrite lookup_take_lt, lookup_drop, Hz by lia. symmetry. by apply lookup_replicate_2.
  - rewrite lookup_take_ge by lia. symmetry. apply lookup_replicate_None. lia.
Qed.

(** ** The round trip *)

Lemma read_v6_compressed head tail len :
  Forall is_u16 head -> Forall is_u16 tail -> (2 <= len)%nat ->
  (length head + len + length tail = 8)%nat ->
  read_ipv6_addr (fmt_subslice head +:+ "::" +:+ fmt_subslice tail)
  = option_map (fun ip => (ip, "")) (v6_of_groups (head ++ replicate len 0 ++ tail)).
Proof.
  intros Hh Ht Hlen Hsum. unfold read_ipv6_addr.
  rewrite read_groups_fmt by (done || lia || (right; by eexists)).
  destruct (Nat.eqb_spec (length head) 8); [lia|].
  change (read_given_char ":"%char ("::" +:+ fmt_subslice tail))
    with (Some (String ":"%char (fmt_subslice tail))). cbv iota beta.
  change (read_given_char ":"%char (String ":"%char (fmt_subslice tail)))
    with (Some (fmt_subslice tail)). cbv iota beta.
  rewrite <- (str_app_nil_r (fmt_subslice tail)).
  rewrite read_groups_fmt by (done || lia || by left).
  by replace (8 - length head - length tail)%nat with len by lia.
Qed.

Lemma read_v6_full gs :
  Forall is_u16 gs -> length gs = 8%nat ->
  read_ipv6_addr (fmt_subslice gs) = option_map (fun ip => (ip, "")) (v6_of_groups gs).
Proof.
  intros Hgs Hlen. unfold read_ipv6_addr. rewrite <- (str_app_nil_r (fmt_subslice gs)).
  rewrite read_groups_fmt by (done || lia || by left). by rewrite Hlen.
Qed.

Lemma read_ipv4_fmt_None gs rest :
  Forall is_u16 gs -> (gs = [] -> rest <> "") -> groups_end rest ->
  read_ipv4_addr (fmt_subslice gs +:+ rest) = None.
Proof.
  intros Hgs Hne Hend. destruct Hgs as [|g gs Hg Hgs].
  - destruct Hend as [->|[r ->]]; [by destruct Hne|done].
  - rewrite fmt_subslice_cons, str_app_assoc. by apply read_group.
Qed.

Lemma read_v6_mapped a b c d :
  ip_wf (V4 a b c d) ->
  read_ipv6_addr ("::ffff:" +:+ show_v4 a b c d)
  = Some (V6 0 0 0 0 0 0xffff (a * 256 + b) (c * 256 + d), "").
Proof.
  intros Hwf. pose proof (read_show_v4 a b c d "" Hwf I) as H. rewrite str_app_nil_r in H.
  set (s := show_v4 a b c d) in *. unfold read_ipv6_addr.
  rewrite read_groups_end by (right; by eexists). cbv iota beta zeta. simpl (length _ =? 8)%nat. cbv iota.
  change (read_given_char ":"%char ("::ffff:" +:+ s))
    with (Some (String ":"%char ("ffff:" +:+ s))). cbv iota beta.
  change (read_given_char ":"%char (String ":"%char ("ffff:" +:+ s)))
    with (Some ("ffff:" +:+ s)). cbv iota beta.
  change (8 - (length (A:=Z) [] + 1))%nat with (S (S 5)).
  rewrite (read_groups_step _ _ _ _ 65535 (String ":"%char s)) by reflexivity.
  assert (read_groups 7 6 1 (String ":"%char s) = ([a * 256 + b; c * 256 + d], true, "")) as ->.
  { cbn [read_groups]. simpl (1 <? 7 - 1)%nat. cbv iota.
    change (read_separator ":"%char 1 read_ipv4_addr (String ":"%char s)) with (read_ipv4_addr s).
    by rewrite H. }
  reflexivity.
Qed.

Lemma mapped_inv s0 s1 s2 s3 s4 s5 s6 s7 m :
  ip_wf (V6 s0 s1 s2 s3 s4 s5 s6 s7) -> to_ipv4_mapped (V6 s0 s1 s2 s3 s4 s5 s6 s7) = Some m ->
  exists a b c d, m = V4 a b c d /\ ip_wf m
    /\ V6 s0 s1 s2 s3 s4 s5 s6 s7 = V6 0 0 0 0 0 0xffff (a * 256 + b) (c * 256 + d).
Proof.
  unfold ip_wf, to_ipv4_mapped. intros Hwf Hm.
  do 6 (apply Forall_cons_1 in Hwf as [_ Hwf]). repeat (apply Forall_cons_1 in Hwf as [? Hwf]).
  case_match; simplify_eq. guards. subst. unfold is_u16 in *.
  eexists _, _, _, _. split; [done|]. split.
  - repeat constructor; unfold is_u8; Z.to_euclidean_division_equations; lia.
  - f_equal; Z.to_euclidean_division_equations; lia.
Qed.

Lemma ip_roundtrip ip : ip_wf ip -> ip_from_str (ip_to_string ip) = Some ip.
Proof.
  intros Hwf. unfold ip_from_str, read_ip_addr.
  destruct ip as [a b c d|s0 s1 s2 s3 s4 s5 s6 s7].
  - simpl ip_to_string. pose proof (read_show_v4 a b c d "" Hwf I) as H.
    rewrite str_app_nil_r in H. by rewrite H.
  - unfold ip_to_string.
    set (segs := [s0; s1; s2; s3; s4; s5; s6; s7]).
    assert (Forall is_u16 segs) as Hsegs by done.
    destruct (to_ipv4_mapped _) as [m|] eqn:Hm.
    + apply mapped_inv in Hm as (a & b & c & d & -> & Hw & Hm); [|done]. rewrite Hm.
      change (read_ipv4_addr ("::ffff:" +:+ show_v4 a b c d)) with (@None (IpAddr * string)).
      by rewrite read_v6_mapped by done.
    + assert (zero_run segs (zero_span 0 segs (0, 0)%nat (0, 0)%nat)) as Hrun.
      { apply zero_span_run; try done; [simpl; lia| | |by left]; split; simpl; lia. }
      destruct (zero_span _ _ _ _) as [start len].
      destruct (Nat.ltb_spec 1 len).
      * apply zero_run_split in Hrun as [Hsplit Hle].
        assert (Forall is_u16 (take start segs)) by (by apply Forall_take).
        assert (Forall is_u16 (drop (start + len) segs)) by (by apply Forall_drop).
        rewrite read_ipv4_fmt_None by (done || (right; by eexists)).
        rewrite (read_v6_compressed _ _ len), <- Hsplit; try done.
        rewrite length_take, length_drop. change (length segs) with 8%nat in *. lia.
      * rewrite <- (str_app_nil_r (fmt_subslice segs)), read_ipv4_fmt_None by (done || by left).
        by rewrite str_app_nil_r, read_v6_full.
Qed.

(** Printing an address and parsing it back gives the same address, for
    every IPv4 and IPv6 address: zero-run compression and the IPv4-mapped
    notation included. *)
Theorem ip_print_parse ip : ip_wf ip -> ip_from_str (ip_to_string ip) = Some ip.
Proof. apply ip_roundtrip. Qed.

(** ** Parsed addresses are in range *)

Lemma to_digit_nonneg radix c d : to_digit radix c = Some d -> 0 <= d.
Proof.
  unfold to_digit, byte_in. repeat case_match; intros; simplify_eq; guards;
    repeat match goal with H : (_ <=? _)%N = true |- _ => apply N.leb_le in H end; lia.
Qed.

Lemma read_digits_nonneg radix md count acc s n v r :
  0 <= radix -> 0 <= acc -> read_digits radix md count acc s = Some (n, v, r) -> 0 <= v.
Proof.
  intros Hr. revert count acc. induction s as [|c s IH]; intros count acc Hacc H; simpl in H; [by simplify_eq|].
  destruct (to_digit radix c) as [d|] eqn:E; [|by simplify_eq]. destruct (_ <? _)%nat; [done|].
  apply to_digit_nonneg in E. apply IH in H; [done|nia].
Qed.

Lemma read_number_range radix md az mv s v r :
  0 <= radix -> read_number radix md az mv s = Some (v, r) -> 0 <= v <= mv.
Proof.
  intros Hr. unfold read_number. destruct (read_digits _ _ _ _ s) as [[[n x] r']|] eqn:E; [|done].
  apply read_digits_nonneg in E; [|done|done]. repeat case_match; intros; simplify_eq; guards; lia.
Qed.

Lemma read_octet_range i s v r : read_octet i s = Some (v, r) -> is_u8 v.
Proof.
  unfold read_octet, read_separator, is_u8. intros H.
  assert (exists s', read_number 10 3 false 255 s' = Some (v, r)) as [s' Hs']
    by (repeat case_match; by eauto).
  apply read_number_range in Hs'; lia.
Qed.

Lemma read_ipv4_wf s ip r : read_ipv4_addr s = Some (ip, r) -> ip_wf ip /\ exists a b c d, ip = V4 a b c d.
Proof.
  unfold read_ipv4_addr.
  destruct (read_octet 0 s) as [[a s1]|] eqn:Ha; [|done]. destruct (read_octet 1 s1) as [[b s2]|] eqn:Hb; [|done].
  destruct (read_octet 2 s2) as [[c s3]|] eqn:Hc; [|done]. destruct (read_octet 3 s3) as [[d s4]|] eqn:Hd; [|done].
  intros [= <- _]. split; [|by eauto]. repeat constructor; by eapply read_octet_range.
Qed.

Lemma read_groups_wf limit left i s : Forall is_u16 (fst (fst (read_groups limit left i s))).
Proof.
  revert i s. induction left as [|left IH]; intros i s; [constructor|]. simpl.
  assert (Forall is_u16 (fst (fst match read_separator ":"%char i (read_number 16 4 true 65535) s with
        | Some (g, r) => let '(gs, embedded, r') := read_groups limit left (S i) r in (g :: gs, embedded, r')
        | None => ([], false, s) end))) as Hplain.
  { destruct (read_separator _ _ _ _) as [[g r]|] eqn:E; [|constructor].
    specialize (IH (S i) r). destruct (read_groups _ _ _ r) as [[gs e] r']. constructor; [|done].
    assert (exists s', read_number 16 4 true 65535 s' = Some (g, r)) as [s' Hs']
      by (unfold read_separator in E; repeat case_match; by eauto).
    apply read_number_range in Hs'; unfold is_u16; lia. }
  destruct (_ <? _)%nat; [|done].
  destruct (read_separator _ _ read_ipv4_addr s) as [[ip r]|] eqn:E; [|done].
  assert (exists s', read_ipv4_addr s' = Some (ip, r)) as [s' Hs']
    by (unfold read_separator in E; repeat case_match; by eauto).
  apply read_ipv4_wf in Hs' as [Hwf (a & b & c & d & ->)]. unfold ip_wf in Hwf.
  repeat (apply Forall_cons_1 in Hwf as [? Hwf]). unfold is_u8 in *.
  repeat constructor; lia.
Qed.

Lemma v6_of_groups_wf gs ip : Forall is_u16 gs -> v6_of_groups gs = Some ip -> ip_wf ip.
Proof. intros Hgs. unfold v6_of_groups. repeat case_match; intros; by simplify_eq. Qed.

Lemma read_ipv6_wf s ip r : read_ipv6_addr s = Some (ip, r) -> ip_wf ip.
Proof.
  unfold read_ipv6_addr. pose proof (read_groups_wf 8 8 0 s) as Hh.
  destruct (read_groups 8 8 0 s) as [[head e] s1]. simpl in Hh.
  destruct (_ =? 8)%nat.
  { destruct (v6_of_groups head) eqn:E; simpl; intros; simplify_eq. by eapply v6_of_groups_wf. }
  destruct e; [done|]. destruct (read_given_char _ s1) as [s2|]; [|done].
  destruct (read_given_char _ s2) as [s3|]; [|done].
  set (limit := (8 - _)%nat). pose proof (read_groups_wf limit limit 0 s3) as Ht.
  destruct (read_groups limit limit 0 s3) as [[tail e'] s4]. simpl in Ht.
  destruct (v6_of_groups _) eqn:E; simpl; intros; simplify_eq. eapply v6_of_groups_wf; [|done].
  apply Forall_app; split; [done|]. apply Forall_app; split; [|done]. apply Forall_replicate. done.
Qed.

Lemma ip_from_str_wf s ip : ip_from_str s = Some ip -> ip_wf ip.
Proof.
  unfold ip_from_str, read_ip_addr. destruct (read_ipv4_addr s) as [[ip' r]|] eqn:E4.
  - destruct r; [|done]. intros [= <-]. by apply read_ipv4_wf in E4 as [? _].
  - destruct (read_ipv6_addr s) as [[ip' r]|] eqn:E6; [|done].
    destruct r; [|done]. intros [= <-]. by apply read_ipv6_wf in E6.
Qed.

(** The opt-in private addresses are not public. *)
Lemma opt_in_private_not_public ip : is_opt_in_private_ip ip = true -> is_public_egress_ip ip = false.
Proof.
  assert (forall a b c d, v4_is_private a b c d || v4_is_loopback a b c d = true -> v4_is_public a b c d = false)
    as H4.
  { intros a b c d H. unfold v4_is_public.
    destruct (v4_is_loopback a b c d), (v4_is_private a b c d); try done;
      rewrite ?andb_false_r; done. }
  destruct ip as [a b c d|s0 s1 s2 s3 s4 s5 s6 s7]; [apply H4|].
  unfold is_opt_in_private_ip, is_public_egress_ip.
  destruct (to_ipv4_mapped _) as [[a b c d|]|]; [apply H4| |];
    (intros [H|H]%orb_true_iff; unfold v6_is_public;
     [unfold v6_is_loopback in H; apply bool_decide_eq_true in H; injection H; intros; subst; reflexivity|];
     guards; destruct (Z.eqb_spec (Z.land s0 0xe000) 0x2000) as [E|]; [|done];
     exfalso; apply (f_equal (fun x => Z.testbit x 15)) in H, E;
     rewrite Z.land_spec in H, E; change (Z.testbit 0xfe00 15) with true in H;
     change (Z.testbit 0xe000 15) with true in E; change (Z.testbit 0xfc00 15) with true in H;
     change (Z.testbit 0x2000 15) with false in E; rewrite andb_true_r in H, E; congruence).
Qed.

(** ** The characters of a printed address *)

Definition ip_char (c : Ascii.ascii) : bool := lower_hex c || byte_is 58 c || byte_is 46 c.

(** The text does not end in a dot. *)
Definition ends_ok (s : string) : Prop := exists q c, s = q +:+ String c "" /\ byte_is 46 c = false.

Definition ip_text (s : string) : Prop := str_forall ip_char s = true /\ ends_ok s.

Lemma ip_text_app a b : str_forall ip_char a = true -> ip_text b -> ip_text (a +:+ b).
Proof.
  intros Ha [Hb (q & c & -> & Hc)]. split; [by rewrite str_forall_app, Ha|].
  exists (a +:+ q), c. by rewrite str_app_assoc.
Qed.

Lemma lower_hex_ip c : lower_hex c = true -> ip_char c = true.
Proof. unfold ip_char. by intros ->. Qed.

Lemma hex_ip_text s : str_forall lower_hex s = true -> s <> "" -> ip_text s.
Proof.
  intros Hs Hne. split; [by eapply str_forall_impl; [apply lower_hex_ip|]|].
  destruct (str_last_char s) as [->|(q & c & ->)]; [done|]. exists q, c. split; [done|].
  rewrite str_forall_app in Hs. simpl in Hs. guards.
  unfold lower_hex, byte_in, byte_is in *. destruct (N.eqb_spec (Ascii.N_of_ascii c) 46) as [E|]; [|done].
  by rewrite E in *.
Qed.

Lemma show_hex_text n : is_u16 n -> ip_text (show_hex n).
Proof.
  intros Hn. destruct (read_show_hex_chars n Hn) as [Hr Hc]. apply hex_ip_text; [done|].
  intros E. by rewrite E in Hr.
Qed.

Lemma show_u8_text n : is_u8 n -> ip_text (show_u8 n).
Proof.
  intros Hn.
  assert (forall_below (Z.to_nat 256) 0
            (fun n => str_forall lower_hex (show_u8 n) && negb (bool_decide (show_u8 n = ""))) = true)
    as H by (vm_compute; reflexivity).
  apply forall_below_sound with (z := n) in H; [|unfold is_u8 in Hn; lia]. guards. by apply hex_ip_text.
Qed.

Lemma show_v4_text a b c d : ip_wf (V4 a b c d) -> ip_text (show_v4 a b c d).
Proof.
  unfold ip_wf. intros Hwf. repeat (apply Forall_cons_1 in Hwf as [? Hwf]). unfold show_v4.
  repeat (apply ip_text_app; [first [done | by apply show_u8_text]|]). by apply show_u8_text.
Qed.

Lemma fmt_subslice_text gs : Forall is_u16 gs -> gs <> [] -> ip_text (fmt_subslice gs).
Proof.
  induction 1 as [|g gs Hg Hgs IH]; intros Hne; [done|]. destruct gs as [|h gs]; [by apply show_hex_text|].
  change (fmt_subslice (g :: h :: gs)) with (show_hex g +:+ ":" +:+ fmt_subslice (h :: gs)).
  apply ip_text_app; [by apply show_hex_text|]. by apply ip_text_app; [|apply IH].
Qed.

Lemma fmt_subslice_chars gs : Forall is_u16 gs -> str_forall ip_char (fmt_subslice gs) = true.
Proof. intros H. destruct gs; [done|]. by apply fmt_subslice_text. Qed.

Lemma ip_to_string_text ip : ip_wf ip -> ip_text (ip_to_string ip).
Proof.
  intros Hwf. destruct ip as [a b c d|s0 s1 s2 s3 s4 s5 s6 s7]; [by apply show_v4_text|].
  unfold ip_to_string. set (segs := [s0; s1; s2; s3; s4; s5; s6; s7]).
  assert (Forall is_u16 segs) as Hsegs by done.
  assert (ip_text (let '(start, len) := zero_span 0 segs (0, 0)%nat (0, 0)%nat in
            if (1 <? len)%nat
            then fmt_subslice (take start segs) +:+ "::" +:+ fmt_subslice (drop (start + len) segs)
            else fmt_subslice segs)) as Hplain.
  { destruct (zero_span _ _ _ _) as [start len]. case_match; [|by apply fmt_subslice_text].
    apply ip_text_app; [by apply fmt_subslice_chars, Forall_take|].
    destruct (drop (start + len) segs) as [|g gs] eqn:E; [by split; [|exists ":", ":"%char]|].
    apply ip_text_app; [done|]. apply fmt_subslice_text; [|done]. rewrite <- E. by apply Forall_drop. }
  destruct (to_ipv4_mapped _) as [m|] eqn:Hm; [|done].
  apply mapped_inv in Hm as (a & b & c & d & -> & Hw & _); [|done].
  apply ip_text_app; [done|]. by apply show_v4_text.
Qed.

Module IpExample.
Lemma public_egress_by_blocks_witness :
  is_public_egress_ip (V4 172 31 255 1) = false
  /\ is_public_egress_ip (V6 0x2606 0x4700 0 0 0 0 0 1) = public_by_blocks (V6 0x2606 0x4700 0 0 0 0 0 1)
  /\ is_public_egress_ip (V6 0x2606 0x4700 0 0 0 0 0 1) = true.
Proof.
  split; [reflexivity|]. split; [|reflexivity].
  apply public_egress_by_blocks. repeat constructor; discriminate.
Defined.

Lemma ip_print_parse_witness :
  ip_to_string (V6 0x2001 0xdb8 0 0 1 0 0 1) = "2001:db8::1:0:0:1"
  /\ ip_from_str (ip_to_string (V6 0x2001 0xdb8 0 0 1 0 0 1)) = Some (V6 0x2001 0xdb8 0 0 1 0 0 1).
Proof. split; [reflexivity|]. apply ip_print_parse. repeat constructor; discriminate. Defined.
End IpExample.
