(* ===== verification/AgentControl.v ===== *)
(** * Agent control: authorization as a state machine, network and model policy

    Models [persisting-agentctl/src/lib.rs] and the policy data of
    [persisting-agentctl/src/runtime.rs]: the control machine a driver runs
    for each request, the policy controller, the compiled network guard and
    its rule matching, the host rule parser and the model patterns.

    The [ipnet] crate is the class [IpNetLib]: a type of networks with its
    parser and its membership test. *)

From Stdlib Require Import ZArith Lia Ascii.
From stdpp Require Import base list strings gmap numbers option sorting.
From S2P Require Import Prelude RuntimeTypes IpAddr.

#[local] Set Warnings "-clear-no-such-hyp".

(** ** Data of [runtime.rs] *)

Inductive NetworkTransport := Http | Https | TcpTunnel.

#[global] Instance NetworkTransport_eq_dec : EqDecision NetworkTransport.
Proof. solve_decision. Defined.

Record NetworkAccessRule := mkNetworkAccessRule {
  nar_host : string;
  nar_ports : list Z;
  nar_transports : list NetworkTransport;
  nar_allow_private_ips : bool;
}.

Record NetworkBandwidthLimit := mkNetworkBandwidthLimit {
  nbl_host : option string;
  nbl_port : option Z;
  nbl_bytes_per_second : Z;
}.

#[global] Instance NetworkBandwidthLimit_eq_dec : EqDecision NetworkBandwidthLimit.
Proof. solve_decision. Defined.

Inductive NetworkDefaultAction := DefaultAllow | DefaultDeny.

Inductive NetworkCapability :=
| Ambient
| Deny
| AllowList (hosts : list string) (rules : list NetworkAccessRule)
| Policy (default_action : NetworkDefaultAction) (allow deny : list NetworkAccessRule)
    (limits : list NetworkBandwidthLimit).

Record NetworkAccessRequest := mkNetworkAccessRequest {
  nreq_run_id : option RunId;
  nreq_attempt_id : option AttemptId;
  nreq_storyline_id : option StorylineId;
  nreq_host : string;
  nreq_port : option Z;
  nreq_transport : NetworkTransport;
  nreq_resolved_ip : option IpAddr;
}.

(** [request.resolved_ip = ip]. *)
Definition set_resolved_ip (ip : option IpAddr) (r : NetworkAccessRequest) : NetworkAccessRequest :=
  mkNetworkAccessRequest (nreq_run_id r) (nreq_attempt_id r) (nreq_storyline_id r)
    (nreq_host r) (nreq_port r) (nreq_transport r) ip.

Record ModelCallRequest := mkModelCallRequest {
  mreq_run_id : option RunId;
  mreq_attempt_id : option AttemptId;
  mreq_storyline_id : option StorylineId;
  mreq_call_id : string;
  mreq_client_model : string;
  mreq_upstream_model : string;
  mreq_provider : string;
  mreq_protocol : string;
  mreq_upstream_host : string;
}.

Record ModelAccessPolicy := mkModelAccessPolicy {
  map_allowed_models : list string;
  map_allowed_providers : list string;
}.

Inductive ControlEffect := EffectAllow | EffectDeny.

Inductive ControlReason :=
| AmbientNetwork | TrustedLocal | NetworkAllowList | NetworkDenied | NetworkAllowListEmpty
| HostNotAllowed | PortNotAllowed | TransportNotAllowed | ResolvedAddressNotAllowed
| ExplicitlyDenied | ModelAllowed | ModelNotAllowed | ProviderNotAllowed.

#[global] Instance ControlEffect_eq_dec : EqDecision ControlEffect.
Proof. solve_decision. Defined.
#[global] Instance ControlReason_eq_dec : EqDecision ControlReason.
Proof. solve_decision. Defined.

(** [AccessReason::code]. *)
Definition reason_code (r : ControlReason) : string :=
  match r with
  | AmbientNetwork => "ambient-network"
  | TrustedLocal => "trusted-local"
  | NetworkAllowList => "network-allowlist"
  | NetworkDenied => "network-denied"
  | NetworkAllowListEmpty => "network-allowlist-empty"
  | HostNotAllowed => "host-not-allowed"
  | PortNotAllowed => "port-not-allowed"
  | TransportNotAllowed => "transport-not-allowed"
  | ResolvedAddressNotAllowed => "resolved-address-not-allowed"
  | ExplicitlyDenied => "explicitly-denied"
  | ModelAllowed => "model-allowed"
  | ModelNotAllowed => "model-not-allowed"
  | ProviderNotAllowed => "provider-not-allowed"
  end.

(** ** The control machine *)

Inductive ControlState :=
| Requested
| Allowed
| Denied
| Applied (effect : ControlEffect)
| Failed (effect : ControlEffect).

#[global] Instance ControlState_eq_dec : EqDecision ControlState.
Proof. solve_decision. Defined.

Record ControlTransition := mkControlTransition {
  ct_from : ControlState;
  ct_to : ControlState;
  ct_reason : ControlReason;
}.

Record ControlMachine := mkControlMachine {
  cm_state : ControlState;
  cm_history : list ControlTransition;
}.

Inductive ControlError :=
| AlreadyAuthorized (s : ControlState)
| InvalidAuthorization (t : ControlTransition)
| NotAuthorized
| StateMismatch (s : ControlState) (t : ControlTransition)
| CannotApply (s : ControlState).

(** [ControlTransition::allowed], [denied]. *)
Definition ct_allowed (reason : ControlReason) : ControlTransition :=
  mkControlTransition Requested Allowed reason.
Definition ct_denied (reason : ControlReason) : ControlTransition :=
  mkControlTransition Requested Denied reason.

Definition ct_is_allowed (t : ControlTransition) : bool :=
  match ct_to t with
  | Allowed | Applied EffectAllow => true
  | _ => false
  end.

Definition ct_follow (t : ControlTransition) (applied : bool) : result ControlError ControlTransition :=
  let? effect := match ct_to t with
                 | Allowed => Ok EffectAllow
                 | Denied => Ok EffectDeny
                 | state => Err (CannotApply state)
                 end in
  let to := if applied then Applied effect else Failed effect in
  Ok (mkControlTransition (ct_to t) to (ct_reason t)).

Definition machine_new : ControlMachine := mkControlMachine Requested [].

Definition machine_commit (m : ControlMachine) (t : ControlTransition)
  : result ControlError (ControlTransition * ControlMachine) :=
  ensure! bool_decide (ct_from t = cm_state m) else StateMismatch (cm_state m) t in
  Ok (t, mkControlMachine (ct_to t) (cm_history m ++ [t])).

(** [ControlMachine::authorize]; the controller is code the machine does not
    trust. *)
Definition machine_authorize {R} (controller : R -> ControlTransition) (request : R) (m : ControlMachine)
  : result ControlError (ControlTransition * ControlMachine) :=
  ensure! bool_decide (cm_state m = Requested) else AlreadyAuthorized (cm_state m) in
  let transition := controller request in
  ensure! bool_decide (ct_from transition = Requested)
          && match ct_to transition with Allowed | Denied => true | _ => false end
    else InvalidAuthorization transition in
  machine_commit m transition.

(** [ControlMachine::applied] and [failed]. *)
Definition machine_follow (applied : bool) (m : ControlMachine)
  : result ControlError (ControlTransition * ControlMachine) :=
  let? authorized := ok_or (last (cm_history m)) NotAuthorized in
  let? transition := ct_follow authorized applied in
  machine_commit m transition.

Definition machine_applied : ControlMachine -> _ := machine_follow true.
Definition machine_failed : ControlMachine -> _ := machine_follow false.

(** ** Hosts and rules *)

Class IpNetLib (IpNet : Type) := {
  ipnet_from_str : string -> option IpNet;
  ipnet_contains : IpNet -> IpAddr -> bool;
  ipnet_addr : IpNet -> IpAddr;
}.

Definition normalize_host (host : string) : string :=
  trim_end_matches (byte_is 46)
    (to_ascii_lowercase
       (trim_matches (fun c => byte_is 91 c || byte_is 93 c) (str_trim host))).

Section Policy.
Context {IpNet : Type} `{ipnet_lib : !IpNetLib IpNet}.

Inductive NetworkHostRule :=
| RuleExact (host : string)
| RuleWildcardSuffix (suffix : string)
| RuleIp (ip : IpAddr)
| RuleCidr (network : IpNet).

Record NetworkRule := mkNetworkRule {
  nr_host : NetworkHostRule;
  nr_ports : list Z;
  nr_transports : list NetworkTransport;
  nr_allow_private_ips : bool;
}.

Inductive RuleError :=
| PortZero
| EntryEmpty
| EntryShape
| EntryHasPort
| InvalidWildcard
| UnsupportedWildcard
| InvalidHostname.

Definition is_ok_ip (s : string) : bool :=
  match ip_from_str s with Some _ => true | None => false end.

Definition all_digits : string -> bool := str_forall (byte_in 48 57).

Definition parse_network_host_rule (raw : string) : result RuleError NetworkHostRule :=
  let entry := str_trim raw in
  ensure! negb (bool_decide (entry = "")) else EntryEmpty in
  ensure! negb (str_contains "://" entry || str_contains_char 93 entry || str_contains_char 91 entry)
    else EntryShape in
  ensure! negb (str_contains_char 47 entry
                && match ipnet_from_str entry with Some _ => false | None => true end)
    else EntryShape in
  ensure! negb (match str_rsplit_once 58 entry with
                | Some (host, port) =>
                    negb (bool_decide (host = "")) && all_digits port
                    && negb (str_contains_char 47 entry) && negb (is_ok_ip host)
                    && negb (str_contains_char 58 host)
                | None => false
                end)
    else EntryHasPort in
  match str_strip_prefix "*." entry with
  | Some suffix =>
      let suffix := normalize_host suffix in
      ensure! negb (bool_decide (suffix = "") || str_contains_char 42 suffix || is_ok_ip suffix)
        else InvalidWildcard in
      Ok (RuleWildcardSuffix suffix)
  | None =>
      ensure! negb (str_contains_char 42 entry) else UnsupportedWildcard in
      match ipnet_from_str entry with
      | Some network =>
          if str_contains_char 47 entry then Ok (RuleCidr network)
          else Ok (RuleIp (ipnet_addr network))
      | None =>
          match ip_from_str entry with
          | Some ip => Ok (RuleIp ip)
          | None =>
              let host := normalize_host entry in
              ensure! negb (bool_decide (host = "") || str_contains_char 58 host)
                else InvalidHostname in
              Ok (RuleExact host)
          end
      end
  end.

Definition compile_network_rule (rule : NetworkAccessRule) : result RuleError NetworkRule :=
  ensure! negb (bool_decide (0%Z ∈ nar_ports rule)) else PortZero in
  let ports := dedup (merge_sort Z.le (nar_ports rule)) in
  let transports := dedup (nar_transports rule) in
  let? host := parse_network_host_rule (nar_host rule) in
  Ok (mkNetworkRule host ports transports (nar_allow_private_ips rule)).

(** The declared rule a plain host entry stands for. *)
Definition host_entry (raw : string) : NetworkAccessRule := mkNetworkAccessRule raw [] [] false.

Definition parse_network_rule (raw : string) : result RuleError NetworkRule :=
  compile_network_rule (host_entry raw).

(** [host.as_bytes()[host.len() - suffix.len() - 1] == b'.'], under the
    guard [host.len() > suffix.len()]. *)
Definition dot_before_suffix (host suffix : string) : bool :=
  match String.get (String.length host - String.length suffix - 1) host with
  | Some c => byte_is 46 c
  | None => false
  end.

Definition matches_host (rule : NetworkRule) (host : string) (resolved_ip : option IpAddr) : bool :=
  let host := normalize_host host in
  let host_ip := ip_from_str host in
  match nr_host rule with
  | RuleExact allowed => bool_decide (host = allowed)
  | RuleWildcardSuffix suffix =>
      str_ends_with suffix host
      && (String.length suffix <? String.length host)%nat
      && dot_before_suffix host suffix
  | RuleIp allowed => bool_decide (host_ip = Some allowed) || bool_decide (resolved_ip = Some allowed)
  | RuleCidr network =>
      match (match host_ip with Some ip => Some ip | None => resolved_ip end) with
      | Some ip => ipnet_contains network ip
      | None => false
      end
  end.

Definition matches_port (rule : NetworkRule) (port : option Z) : bool :=
  match nr_ports rule with
  | [] => true
  | ports => match port with Some p => bool_decide (p ∈ ports) | None => false end
  end.

Definition matches_transport (rule : NetworkRule) (transport : NetworkTransport) : bool :=
  match nr_transports rule with
  | [] => true
  | transports => bool_decide (transport ∈ transports)
  end.

Definition allows_resolved_address (rule : NetworkRule) (resolved_ip : option IpAddr) : bool :=
  match resolved_ip with
  | None => true
  | Some ip =>
      match nr_host rule with
      | RuleIp allowed => bool_decide (ip = allowed)
      | RuleCidr network => ipnet_contains network ip
      | RuleExact _ | RuleWildcardSuffix _ =>
          is_public_egress_ip ip || (nr_allow_private_ips rule && is_opt_in_private_ip ip)
      end
  end.

Inductive NetworkMatchFailure :=
| FailEmpty | FailHost | FailPort | FailTransport | FailResolvedAddress.

Definition is_some {A} (o : option A) : bool := match o with Some _ => true | None => false end.
Definition is_nil {A} (l : list A) : bool := match l with [] => true | _ => false end.

Definition evaluate_rules (rules : list NetworkRule) (request : NetworkAccessRequest)
    (enforce_resolved_address_safety : bool) : result NetworkMatchFailure unit :=
  ensure! negb (is_nil rules) else FailEmpty in
  let host_rules := List.filter (fun r => matches_host r (nreq_host request) (nreq_resolved_ip request)) rules in
  ensure! negb (is_nil host_rules)
    else if is_some (nreq_resolved_ip request) then FailResolvedAddress else FailHost in
  let port_rules := List.filter (fun r => matches_port r (nreq_port request)) host_rules in
  ensure! negb (is_nil port_rules) else FailPort in
  let transport_rules := List.filter (fun r => matches_transport r (nreq_transport request)) port_rules in
  ensure! negb (is_nil transport_rules) else FailTransport in
  ensure! negb (enforce_resolved_address_safety
                && is_some (nreq_resolved_ip request)
                && negb (existsb (fun r => allows_resolved_address r (nreq_resolved_ip request)) transport_rules))
    else FailResolvedAddress in
  Ok tt.

Definition host_matches (host : string) (rules : list NetworkRule) : bool :=
  existsb (fun r => matches_host r host None) rules.

(** ** The guard *)

Record NetworkGuard := mkNetworkGuard {
  ng_capability : NetworkCapability;
  ng_rules : list NetworkRule;
  ng_deny_rules : list NetworkRule;
  ng_trusted_hosts : list string;
}.

Definition guard_compile (capability : NetworkCapability) (trusted_hosts : list string)
  : result RuleError NetworkGuard :=
  let? rules := match capability with
                | AllowList hosts rules =>
                    let? compiled := collect_results parse_network_rule hosts in
                    let? more := collect_results compile_network_rule rules in
                    Ok (compiled ++ more)
                | Policy _ allow _ _ => collect_results compile_network_rule allow
                | _ => Ok []
                end in
  let? deny_rules := match capability with
                     | Policy _ _ deny _ => collect_results compile_network_rule deny
                     | _ => Ok []
                     end in
  Ok (mkNetworkGuard capability rules deny_rules (map normalize_host trusted_hosts)).

Definition guard_evaluate (g : NetworkGuard) (request : NetworkAccessRequest) :=
  evaluate_rules (ng_rules g) request true.

Definition guard_denied (g : NetworkGuard) (request : NetworkAccessRequest) : bool :=
  is_ok (evaluate_rules (ng_deny_rules g) request false).

Definition guard_is_trusted (g : NetworkGuard) (host : string) : bool :=
  existsb (fun trusted => bool_decide (trusted = normalize_host host)) (ng_trusted_hosts g).

(** The verdict of the allow rules: the same match in both [AllowList] and
    default-deny [Policy]. *)
Definition evaluated (r : result NetworkMatchFailure unit) : ControlTransition :=
  match r with
  | Ok _ => ct_allowed NetworkAllowList
  | Err FailEmpty => ct_denied NetworkAllowListEmpty
  | Err FailHost => ct_denied HostNotAllowed
  | Err FailPort => ct_denied PortNotAllowed
  | Err FailTransport => ct_denied TransportNotAllowed
  | Err FailResolvedAddress => ct_denied ResolvedAddressNotAllowed
  end.

Definition authorize_network (policy : NetworkGuard) (request : NetworkAccessRequest) : ControlTransition :=
  if guard_denied policy request then ct_denied ExplicitlyDenied
  else if guard_is_trusted policy (nreq_host request) then ct_allowed TrustedLocal
  else match ng_capability policy with
       | Ambient => ct_allowed AmbientNetwork
       | Deny => ct_denied NetworkDenied
       | AllowList _ _ => evaluated (guard_evaluate policy request)
       | Policy DefaultAllow _ _ _ => ct_allowed AmbientNetwork
       | Policy DefaultDeny _ _ _ => evaluated (guard_evaluate policy request)
       end.

(** ** Models *)

Definition model_matches (pattern model : string) : bool :=
  if bool_decide (pattern = "*") then true
  else match str_strip_suffix "*" pattern with
       | Some prefix => negb (bool_decide (prefix = "")) && str_starts_with prefix model
       | None =>
           match str_strip_prefix "*" pattern with
           | Some suffix => negb (bool_decide (suffix = "")) && str_ends_with suffix model
           | None => bool_decide (pattern = model)
           end
       end.

Definition authorize_model (policy : ModelAccessPolicy) (request : ModelCallRequest) : ControlTransition :=
  let model_allowed :=
    existsb (fun pattern => model_matches pattern (mreq_client_model request)
                            || model_matches pattern (mreq_upstream_model request))
      (map_allowed_models policy) in
  if negb model_allowed then ct_denied ModelNotAllowed
  else if negb (is_nil (map_allowed_providers policy))
          && negb (existsb (fun provider => eq_ignore_ascii_case provider (mreq_provider request))
                     (map_allowed_providers policy))
  then ct_denied ProviderNotAllowed
  else ct_allowed ModelAllowed.

Inductive ControlRequest :=
| RequestNetwork (policy : NetworkGuard) (request : NetworkAccessRequest)
| RequestModel (policy : ModelAccessPolicy) (request : ModelCallRequest).

(** [PolicyControlController::authorize]. *)
Definition policy_controller (request : ControlRequest) : ControlTransition :=
  match request with
  | RequestNetwork policy request => authorize_network policy request
  | RequestModel policy request => authorize_model policy request
  end.

(** ** Rule evaluation, by existence of a rule *)

Lemma is_nil_filter {A} (p : A -> bool) l : is_nil (List.filter p l) = negb (existsb p l).
Proof. induction l as [|x l IH]; [done|]. simpl. by destruct (p x). Qed.

Lemma existsb_filter {A} (p q : A -> bool) l :
  existsb p (List.filter q l) = existsb (fun x => q x && p x) l.
Proof. induction l as [|x l IH]; [done|]. simpl. destruct (q x); simpl; by rewrite IH. Qed.

Lemma filter_andb {A} (p q : A -> bool) l :
  List.filter p (List.filter q l) = List.filter (fun x => q x && p x) l.
Proof. induction l as [|x l IH]; [done|]. simpl. destruct (q x); simpl; by rewrite IH. Qed.

Lemma existsb_elem {A} (p : A -> bool) l : existsb p l = true <-> exists x, x ∈ l /\ p x = true.
Proof. rewrite existsb_exists. by setoid_rewrite list_elem_of_In. Qed.

Lemma existsb_none {A} (p : A -> bool) l : existsb p l = false <-> forall x, x ∈ l -> p x = false.
Proof.
  rewrite <- not_true_iff_false, existsb_elem. split.
  - intros H x Hx. apply not_true_iff_false. naive_solver.
  - intros H (x & Hx & Hp). rewrite H in Hp; done.
Qed.

(** A rule covers a request in one more dimension each. *)
Definition covers_host (req : NetworkAccessRequest) (r : NetworkRule) : bool :=
  matches_host r (nreq_host req) (nreq_resolved_ip req).
Definition covers_port (req : NetworkAccessRequest) (r : NetworkRule) : bool :=
  covers_host req r && matches_port r (nreq_port req).
Definition covers (req : NetworkAccessRequest) (r : NetworkRule) : bool :=
  covers_port req r && matches_transport r (nreq_transport req).
Definition grants (req : NetworkAccessRequest) (r : NetworkRule) : bool :=
  covers req r && allows_resolved_address r (nreq_resolved_ip req).

Lemma evaluate_rules_exists rules req enforce :
  evaluate_rules rules req enforce
  = if is_nil rules then Err FailEmpty
    else if negb (existsb (covers_host req) rules)
    then Err (if is_some (nreq_resolved_ip req) then FailResolvedAddress else FailHost)
    else if negb (existsb (covers_port req) rules) then Err FailPort
    else if negb (existsb (covers req) rules) then Err FailTransport
    else if enforce && is_some (nreq_resolved_ip req) && negb (existsb (grants req) rules)
    then Err FailResolvedAddress
    else Ok tt.
Proof.
  unfold evaluate_rules.
  change (List.filter (fun r => matches_host r _ _) rules) with (List.filter (covers_host req) rules).
  rewrite (filter_andb (fun r => matches_port r _)).
  change (List.filter (fun r => covers_host req r && _) rules) with (List.filter (covers_port req) rules).
  rewrite (filter_andb (fun r => matches_transport r _)).
  change (List.filter (fun r => covers_port req r && _) rules) with (List.filter (covers req) rules).
  rewrite !is_nil_filter, existsb_filter.
  change (existsb (fun r => covers req r && _) rules) with (existsb (grants req) rules).
  by repeat (case_match; try done).
Qed.

Lemma grants_no_address req r : nreq_resolved_ip req = None -> grants req r = covers req r.
Proof. intros H. unfold grants, allows_resolved_address. rewrite H. apply andb_true_r. Qed.

Lemma covers_weaken req r : covers req r = true -> covers_port req r = true /\ covers_host req r = true.
Proof. unfold covers, covers_port. intros. guards. split; [|done]. by apply andb_true_iff. Qed.

Lemma evaluate_rules_Ok rules req enforce :
  is_ok (evaluate_rules rules req enforce)
  = existsb (if enforce then grants req else covers req) rules.
Proof.
  rewrite evaluate_rules_exists. destruct rules as [|r rules]; [by destruct enforce|].
  set (l := r :: rules). simpl (is_nil l). cbv iota. clearbody l.
  assert (existsb (grants req) l = true -> existsb (covers req) l = true) as Hg.
  { rewrite !existsb_elem. intros (x & ? & Hx). unfold grants in Hx. guards. by exists x. }
  assert (existsb (covers req) l = true -> existsb (covers_port req) l = true /\ existsb (covers_host req) l = true) as Hc.
  { rewrite !existsb_elem. intros (x & ? & [??]%covers_weaken). split; by exists x. }
  assert (is_some (nreq_resolved_ip req) = false -> existsb (grants req) l = existsb (covers req) l) as Hn.
  { destruct (nreq_resolved_ip req) eqn:E; [done|]. intros _. apply eq_true_iff_eq. rewrite !existsb_elem.
    by setoid_rewrite (grants_no_address req _ E). }
  destruct enforce, (existsb (covers req) l), (existsb (grants req) l), (is_some _);
    try (destruct (Hc eq_refl) as [-> ->]; done);
    try (specialize (Hg eq_refl); done); try (specialize (Hn eq_refl); done);
    destruct (existsb (covers_host req) l), (existsb (covers_port req) l); done.
Qed.

(** ** What the network policy decides *)

(** A default-deny guard with its allow rules; [None] otherwise. *)
Definition default_deny (c : NetworkCapability) : bool :=
  match c with
  | AllowList _ _ | Policy DefaultDeny _ _ _ => true
  | _ => false
  end.
Definition default_allow (c : NetworkCapability) : bool :=
  match c with
  | Ambient | Policy DefaultAllow _ _ _ => true
  | _ => false
  end.

(** The reference policy: no deny rule covers the request, and the host is
    trusted, or the default is to allow, or some allow rule covers the
    request and admits the resolved address. *)
Definition network_permits (g : NetworkGuard) (req : NetworkAccessRequest) : Prop :=
  (forall r, r ∈ ng_deny_rules g -> covers req r = false)
  /\ (normalize_host (nreq_host req) ∈ ng_trusted_hosts g
      \/ default_allow (ng_capability g) = true
      \/ (default_deny (ng_capability g) = true /\ exists r, r ∈ ng_rules g /\ grants req r = true)).

Lemma guard_is_trusted_spec g host :
  guard_is_trusted g host = true <-> normalize_host host ∈ ng_trusted_hosts g.
Proof.
  unfold guard_is_trusted. rewrite existsb_elem. split.
  - intros (x & ? & Hx). guards. by subst.
  - intros. eexists. split; [done|]. by apply bool_decide_eq_true.
Qed.

Lemma evaluated_allowed r : ct_is_allowed (evaluated r) = is_ok r.
Proof. by destruct r as [|[]]. Qed.

Lemma guard_denied_false g req :
  guard_denied g req = false <-> forall r, r ∈ ng_deny_rules g -> covers req r = false.
Proof. unfold guard_denied. rewrite evaluate_rules_Ok. apply existsb_none. Qed.

Lemma authorize_network_allowed g req :
  ct_is_allowed (authorize_network g req) = true <-> network_permits g req.
Proof.
  unfold authorize_network, network_permits.
  destruct (guard_denied g req) eqn:Hd.
  { split; [done|]. intros [H _]. apply guard_denied_false in H. congruence. }
  rewrite guard_denied_false in Hd.
  rewrite <- guard_is_trusted_spec. destruct (guard_is_trusted g _); [by split; auto|].
  assert (ct_is_allowed (evaluated (guard_evaluate g req)) = true
          <-> exists r, r ∈ ng_rules g /\ grants req r = true) as Heval.
  { unfold guard_evaluate. by rewrite evaluated_allowed, evaluate_rules_Ok, existsb_elem. }
  destruct (ng_capability g) as [| | |[]]; simpl; rewrite ?Heval; clear Heval; intuition done.
Qed.

(** The network policy grants exactly what the reference policy permits:
    explicit denies win over trusted hosts and over every grant, and under a
    default-deny capability some single rule must cover host, port and
    transport and admit the address the name resolved to. *)
Theorem network_policy_decision g req :
  ct_is_allowed (policy_controller (RequestNetwork g req)) = true <-> network_permits g req.
Proof. apply authorize_network_allowed. Qed.

(** The reason of a denial names the first dimension in which no rule
    covers the request: no rules at all, host, port, transport, or the
    resolved address (which also stands for the host once the name is
    resolved). *)
Theorem denial_reason_precise g req :
  default_deny (ng_capability g) = true ->
  guard_denied g req = false -> guard_is_trusted g (nreq_host req) = false ->
  let reason := ct_reason (authorize_network g req) in
  let some_rule p := exists r, r ∈ ng_rules g /\ p req r = true in
  (reason = NetworkAllowListEmpty <-> ng_rules g = [])
  /\ (reason = HostNotAllowed <->
      ng_rules g <> [] /\ nreq_resolved_ip req = None /\ ~ some_rule covers_host)
  /\ (reason = PortNotAllowed <-> some_rule covers_host /\ ~ some_rule covers_port)
  /\ (reason = TransportNotAllowed <-> some_rule covers_port /\ ~ some_rule covers)
  /\ (reason = ResolvedAddressNotAllowed <->
      ng_rules g <> [] /\ nreq_resolved_ip req <> None
      /\ (~ some_rule covers_host \/ (some_rule covers /\ ~ some_rule grants)))
  /\ (reason = NetworkAllowList <-> some_rule grants).
Proof.
  intros Hdef Hd Ht reason some_rule.
  assert (reason = ct_reason (evaluated (evaluate_rules (ng_rules g) req true))) as ->.
  { unfold reason, authorize_network. rewrite Hd, Ht. by destruct (ng_capability g) as [| | |[]]. }
  assert (forall p, some_rule p <-> existsb (p req) (ng_rules g) = true) as Hex
    by (intros p; by rewrite existsb_elem).
  rewrite !Hex. clear Hex some_rule. rewrite evaluate_rules_exists. clear Hdef Hd Ht.
  destruct (ng_rules g) as [|r rs]; [naive_solver|]. set (l := r :: rs).
  assert (l <> []) as Hl by done. simpl (is_nil l). cbv iota. clearbody l.
  assert (existsb (grants req) l = true -> existsb (covers req) l = true) as Hg.
  { rewrite !existsb_elem. intros (x & ? & Hx). unfold grants in Hx. guards. by exists x. }
  assert (existsb (covers req) l = true -> existsb (covers_port req) l = true) as Hc1.
  { rewrite !existsb_elem. intros (x & ? & [??]%covers_weaken). by exists x. }
  assert (existsb (covers_port req) l = true -> existsb (covers_host req) l = true) as Hc2.
  { rewrite !existsb_elem. intros (x & ? & Hx). unfold covers_port in Hx. guards. by exists x. }
  assert (nreq_resolved_ip req = None -> existsb (grants req) l = existsb (covers req) l) as Hn.
  { intros E. apply eq_true_iff_eq. rewrite !existsb_elem. by setoid_rewrite (grants_no_address req _ E). }
  destruct (existsb (grants req) l), (existsb (covers req) l), (existsb (covers_port req) l),
    (existsb (covers_host req) l), (nreq_resolved_ip req); simpl; naive_solver.
Qed.

(** ** From the declared capability to the compiled guard *)

Definition declared_allow (c : NetworkCapability) : list NetworkAccessRule :=
  match c with
  | AllowList hosts rules => map host_entry hosts ++ rules
  | Policy _ allow _ _ => allow
  | _ => []
  end.
Definition declared_deny (c : NetworkCapability) : list NetworkAccessRule :=
  match c with
  | Policy _ _ deny _ => deny
  | _ => []
  end.

Lemma guard_compile_Ok c trusted g :
  guard_compile c trusted = Ok g <->
  exists rules deny,
    collect_results compile_network_rule (declared_allow c) = Ok rules
    /\ collect_results compile_network_rule (declared_deny c) = Ok deny
    /\ g = mkNetworkGuard c rules deny (map normalize_host trusted).
Proof.
  unfold guard_compile. rewrite result_bind_Ok.
  setoid_rewrite result_bind_Ok.
  assert ((match c with
           | AllowList hosts rules =>
               let? compiled := collect_results parse_network_rule hosts in
               let? more := collect_results compile_network_rule rules in
               Ok (compiled ++ more)
           | Policy _ allow _ _ => collect_results compile_network_rule allow
           | _ => Ok []
           end) = collect_results compile_network_rule (declared_allow c)) as ->.
  { destruct c; try done. simpl. by rewrite collect_results_app, collect_results_map. }
  assert ((match c with
           | Policy _ _ deny _ => collect_results compile_network_rule deny
           | _ => Ok []
           end) = collect_results compile_network_rule (declared_deny c)) as -> by (by destruct c).
  naive_solver.
Qed.

Lemma compile_network_rule_Ok d r :
  compile_network_rule d = Ok r <->
  (0%Z ∉ nar_ports d) /\ exists h, parse_network_host_rule (nar_host d) = Ok h
    /\ r = mkNetworkRule h (dedup (merge_sort Z.le (nar_ports d))) (dedup (nar_transports d))
             (nar_allow_private_ips d).
Proof.
  unfold compile_network_rule. case_bool_decide; simpl; [naive_solver|].
  rewrite result_bind_Ok. naive_solver.
Qed.

(** What makes an address acceptable under a declared rule. *)
Definition address_declared (ip : IpAddr) (d : NetworkAccessRule) : Prop :=
  parse_network_host_rule (nar_host d) = Ok (RuleIp ip)
  \/ (exists n, parse_network_host_rule (nar_host d) = Ok (RuleCidr n) /\ ipnet_contains n ip = true)
  \/ (nar_allow_private_ips d = true /\ is_opt_in_private_ip ip = true).

Lemma grants_address d r req ip :
  compile_network_rule d = Ok r -> nreq_resolved_ip req = Some ip -> grants req r = true ->
  is_public_egress_ip ip = true \/ address_declared ip d.
Proof.
  intros (_ & h & Hh & ->)%compile_network_rule_Ok Hip Hg. unfold address_declared. rewrite Hh.
  unfold grants, allows_resolved_address in Hg. rewrite Hip in Hg. simpl in Hg. guards.
  destruct h as [e|s|ip'|n]; guards; subst; eauto 6;
    destruct (is_public_egress_ip ip); simpl in *; guards; eauto 6.
Qed.

(** C40: under a default-deny capability, a request whose name resolved to an
    address is only granted if its host is one of the configured trusted hosts
    (which are not asked for their address), or that address is public, or some
    declared rule covers the request's host, port and transport and is for an IP
    entry with that address or a CIDR entry with that address in it, or opts in
    to private addresses and the address is private or loopback.  So for a host
    that is not trusted a hostname entry alone never reaches a private,
    loopback, link-local or otherwise special-purpose address. *)
Theorem no_private_egress c trusted g req ip :
  guard_compile c trusted = Ok g ->
  default_deny c = true ->
  nreq_resolved_ip req = Some ip ->
  ct_is_allowed (policy_controller (RequestNetwork g req)) = true ->
  normalize_host (nreq_host req) ∈ map normalize_host trusted
  \/ is_public_egress_ip ip = true
  \/ exists d r, d ∈ declared_allow c /\ compile_network_rule d = Ok r /\ covers req r = true /\ address_declared ip d.
Proof.
  intros (rules & deny & Hrules & _ & ->)%guard_compile_Ok Hdef Hip.
  change (policy_controller (RequestNetwork ?g req)) with (authorize_network g req).
  rewrite authorize_network_allowed. intros [_ [Ht|[Ha|[_ (r & Hr & Hg)]]]]; simpl in *; [by left| |].
  { by destruct c as [| | |[]]. }
  destruct (collect_results_elem _ _ _ _ Hrules Hr) as (d & Hd & Hc).
  destruct (grants_address d r req ip); eauto. right. right. exists d, r.
  split_and!; [done|done| |done]. unfold grants in Hg. by apply andb_true_iff in Hg as [? _].
Qed.

(** ** Host rules *)

Lemma str_get_app (a b : string) n : String.get (String.length a + n) (a +:+ b) = String.get n b.
Proof. induction a as [|x a IH]; [done|]. rewrite str_app_cons. simpl. apply IH. Qed.

(** A [*.suffix] entry matches the proper subdomains of the suffix and
    nothing else: the normalized host must be some label sequence, a dot, and
    the suffix; the suffix itself and names that merely end in it do not
    match. *)
Theorem wildcard_matches_subdomains suffix ports transports private host ip :
  matches_host (mkNetworkRule (RuleWildcardSuffix suffix) ports transports private) host ip = true
  <-> exists sub, normalize_host host = sub +:+ "." +:+ suffix.
Proof.
  unfold matches_host. simpl. set (h := normalize_host host). clearbody h.
  rewrite !andb_true_iff, str_ends_with_spec, Nat.ltb_lt. split.
  - intros [[[r ->] Hlen] Hdot]. rewrite str_length_app in Hlen.
    unfold dot_before_suffix in Hdot.
    replace (String.length (r +:+ suffix) - String.length suffix - 1)%nat
      with (String.length r - 1)%nat in Hdot by (rewrite str_length_app; lia).
    destruct (str_last_char r) as [->|(q & c & ->)]; [simpl in Hlen; lia|].
    rewrite str_length_app, str_app_assoc in Hdot. simpl (String.length (String c "")) in Hdot.
    replace (String.length q + 1 - 1)%nat with (String.length q + 0)%nat in Hdot by lia.
    rewrite str_get_app in Hdot. simpl in Hdot.
    apply N.eqb_eq in Hdot. apply (f_equal Ascii.ascii_of_N) in Hdot.
    rewrite Ascii.ascii_N_embedding in Hdot. exists q. subst. by rewrite str_app_assoc.
  - intros [sub ->]. split; [split; [exists (sub +:+ "."); by rewrite str_app_assoc|]|].
    + rewrite !str_length_app. simpl. lia.
    + unfold dot_before_suffix. rewrite !str_length_app. simpl (String.length ".").
      replace (String.length sub + (1 + String.length suffix) - String.length suffix - 1)%nat
        with (String.length sub + 0)%nat by lia.
      rewrite str_get_app. done.
Qed.

(** What a compiled host rule looks like: hostnames are in the normal form
    [normalize_host] produces, and cannot be read as anything else. *)
Definition normalized (h : string) : Prop := exists raw, h = normalize_host raw.

Definition host_rule_wf (h : NetworkHostRule) : Prop :=
  match h with
  | RuleExact host => host <> "" /\ normalized host /\ str_contains_char 58 host = false
  | RuleWildcardSuffix suffix =>
      suffix <> "" /\ normalized suffix /\ str_contains_char 42 suffix = false /\ ip_from_str suffix = None
  | RuleIp _ | RuleCidr _ => True
  end.

Lemma parse_network_host_rule_wf raw h : parse_network_host_rule raw = Ok h -> host_rule_wf h.
Proof.
  unfold parse_network_host_rule, is_ok_ip.
  repeat (case_match; try discriminate); intros; simplify_eq; guards; simpl; try done;
    (split; [done|]; split; [by eexists|]); try done; split; try done;
    by destruct (ip_from_str _).
Qed.

(** Compiling a rule keeps its meaning and normalizes its form: the ports
    are the declared ones, in strictly increasing order and without zero; the
    transports are the declared ones; the host rule is well formed; and a rule
    with port zero or an unreadable host does not compile. *)
Theorem compiled_rule_wf d r :
  compile_network_rule d = Ok r ->
  (forall p, p ∈ nr_ports r <-> p ∈ nar_ports d)
  /\ StronglySorted Z.lt (nr_ports r) /\ (0%Z ∉ nr_ports r)
  /\ (forall t, t ∈ nr_transports r <-> t ∈ nar_transports d)
  /\ host_rule_wf (nr_host r) /\ nr_allow_private_ips r = nar_allow_private_ips d.
Proof.
  intros (H0 & h & Hh & ->)%compile_network_rule_Ok. simpl.
  assert (forall p, p ∈ dedup (merge_sort Z.le (nar_ports d)) <-> p ∈ nar_ports d) as Hports.
  { intros p. by rewrite elem_of_dedup, merge_sort_Permutation. }
  split; [done|]. split; [|split; [by rewrite Hports|split; [apply elem_of_dedup|]]].
  - apply dedup_sorted. apply (StronglySorted_merge_sort Z.le).
  - split; [by eapply parse_network_host_rule_wf|done].
Qed.

(** ** Model patterns *)

(** A pattern is [*], a prefix followed by [*], [*] followed by a suffix, or a
    name. *)
Definition model_pattern_covers (pattern model : string) : Prop :=
  pattern = "*"
  \/ (exists p r, p <> "" /\ pattern = p +:+ "*" /\ model = p +:+ r)
  \/ (exists s r, s <> "" /\ pattern = "*" +:+ s /\ str_ends_with "*" pattern = false /\ model = r +:+ s)
  \/ (str_ends_with "*" pattern = false /\ str_starts_with "*" pattern = false /\ pattern = model).

Lemma strip_prefix_None p s : str_strip_prefix p s = None <-> str_starts_with p s = false.
Proof.
  unfold str_starts_with. rewrite <- not_true_iff_false, str_prefix_spec.
  destruct (str_strip_prefix p s) as [r|] eqn:E.
  - apply str_strip_prefix_spec in E. naive_solver.
  - split; [|done]. intros _ [r Hr]. apply str_strip_prefix_spec in Hr. congruence.
Qed.

Lemma strip_suffix_None p s : str_strip_suffix p s = None <-> str_ends_with p s = false.
Proof.
  unfold str_strip_suffix. rewrite option_map_None. apply strip_prefix_None.
Qed.

Lemma model_matches_spec pattern model :
  model_matches pattern model = true <-> model_pattern_covers pattern model.
Proof.
  unfold model_matches, model_pattern_covers. case_bool_decide as Hstar; [naive_solver|].
  destruct (str_strip_suffix "*" pattern) as [p|] eqn:Hs.
  - apply str_strip_suffix_spec in Hs as Hp.
    assert (str_ends_with "*" pattern = true) as Hends by (apply str_ends_with_spec; eauto).
    rewrite andb_true_iff, negb_true_iff, bool_decide_eq_false.
    unfold str_starts_with. rewrite str_prefix_spec. split.
    + intros [Hne [r ->]]. right. left. eauto.
    + intros [?|[(p' & r & Hne & Hp' & ->)|[(? & ? & ? & ? & ? & ?)|(? & ? & ?)]]]; [done| |congruence..].
      apply str_strip_suffix_spec in Hp'. rewrite Hs in Hp'. simplify_eq. eauto.
  - apply strip_suffix_None in Hs as Hends.
    assert (forall p, pattern <> p +:+ "*") as Hnot.
    { intros p Hp. apply str_strip_suffix_spec in Hp. congruence. }
    destruct (str_strip_prefix "*" pattern) as [q|] eqn:Hq.
    + apply str_strip_prefix_spec in Hq as Hqq.
      assert (str_starts_with "*" pattern = true) by (unfold str_starts_with; apply str_prefix_spec; eauto).
      rewrite andb_true_iff, negb_true_iff, bool_decide_eq_false, str_ends_with_spec. split.
      * intros [Hne [r ->]]. right. right. left. eauto 7.
      * intros [?|[(p' & r & Hne & Hp' & ->)|[(s & r & Hne & Hs' & _ & ->)|(_ & ? & _)]]];
          [done|by destruct (Hnot p')| |congruence].
        apply str_strip_prefix_spec in Hs'. rewrite Hq in Hs'. simplify_eq. eauto.
    + apply strip_prefix_None in Hq as Hstarts. rewrite bool_decide_eq_true. split.
      * intros ->. right. right. right. done.
      * intros [?|[(p' & r & Hne & Hp' & ->)|[(s & r & Hne & Hs' & _ & ->)|(_ & _ & ?)]]];
          [done|by destruct (Hnot p')| |done].
        apply str_strip_prefix_spec in Hs'. congruence.
Qed.

(** A model call is granted exactly if some pattern covers the client or
    the upstream model and the provider is listed (ignoring ASCII case) or no
    provider is; the model is judged before the provider. *)
Theorem model_policy_decision policy req :
  let covered := exists p, p ∈ map_allowed_models policy
    /\ (model_pattern_covers p (mreq_client_model req) \/ model_pattern_covers p (mreq_upstream_model req)) in
  let listed := map_allowed_providers policy = []
    \/ exists p, p ∈ map_allowed_providers policy
         /\ to_ascii_lowercase p = to_ascii_lowercase (mreq_provider req) in
  let verdict := policy_controller (RequestModel policy req) in
  (verdict = ct_allowed ModelAllowed <-> covered /\ listed)
  /\ (verdict = ct_denied ModelNotAllowed <-> ~ covered)
  /\ (verdict = ct_denied ProviderNotAllowed <-> covered /\ ~ listed).
Proof.
  intros covered listed verdict.
  assert (covered <-> existsb (fun p => model_matches p (mreq_client_model req)
                              || model_matches p (mreq_upstream_model req)) (map_allowed_models policy) = true)
    as Hcov.
  { unfold covered. rewrite existsb_elem. by setoid_rewrite orb_true_iff; setoid_rewrite model_matches_spec. }
  assert (listed <-> negb (is_nil (map_allowed_providers policy))
            && negb (existsb (fun p => eq_ignore_ascii_case p (mreq_provider req)) (map_allowed_providers policy))
          = false) as Hlist.
  { unfold listed. rewrite andb_false_iff, !negb_false_iff, existsb_elem.
    setoid_rewrite bool_decide_eq_true. destruct (map_allowed_providers policy); naive_solver. }
  rewrite Hcov, Hlist. unfold verdict. simpl. unfold authorize_model.
  destruct (existsb _ (map_allowed_models policy)); simpl; [|naive_solver].
  destruct (negb _ && negb _); naive_solver.
Qed.

End Policy.

(** ** The life of a control request *)

(** Any call on the machine, with any controller. *)
Inductive machine_step {R} : ControlMachine -> ControlMachine -> Prop :=
| step_authorize controller (request : R) m t m' :
    machine_authorize controller request m = Ok (t, m') -> machine_step m m'
| step_applied m t m' : machine_applied m = Ok (t, m') -> machine_step m m'
| step_failed m t m' : machine_failed m = Ok (t, m') -> machine_step m m'.

Definition effect_of (s : ControlState) : option ControlEffect :=
  match s with
  | Allowed => Some EffectAllow
  | Denied => Some EffectDeny
  | _ => None
  end.

(** The histories a machine can have: nothing, an authorization, or an
    authorization and its outcome, with the effect that was authorized. *)
Definition machine_wf (m : ControlMachine) : Prop :=
  match cm_history m with
  | [] => cm_state m = Requested
  | [a] => ct_from a = Requested /\ cm_state m = ct_to a /\ is_Some (effect_of (ct_to a))
  | [a; o] =>
      ct_from a = Requested /\ ct_from o = ct_to a /\ ct_reason o = ct_reason a /\ cm_state m = ct_to o
      /\ exists e, effect_of (ct_to a) = Some e /\ (ct_to o = Applied e \/ ct_to o = Failed e)
  | _ => False
  end.

Lemma machine_authorize_Ok {R} controller (request : R) m t m' :
  machine_authorize controller request m = Ok (t, m') <->
  cm_state m = Requested /\ t = controller request /\ ct_from t = Requested
  /\ is_Some (effect_of (ct_to t)) /\ m' = mkControlMachine (ct_to t) (cm_history m ++ [t]).
Proof.
  unfold machine_authorize, machine_commit. set (T := controller request).
  assert (match ct_to T with Allowed | Denied => true | _ => false end = true <-> is_Some (effect_of (ct_to T)))
    as Heff by (destruct (ct_to T); simpl; rewrite ?is_Some_alt; done).
  case_bool_decide as Hm; [|naive_solver].
  case_bool_decide as Hf; simpl; [|naive_solver].
  rewrite Hm, Hf, bool_decide_true by done.
  destruct (match ct_to T with Allowed | Denied => true | _ => false end) eqn:E; [naive_solver|].
  split; [done|]. intros (_ & -> & _ & He & _). apply Heff in He. congruence.
Qed.

Lemma machine_follow_Ok applied m t m' :
  machine_wf m ->
  machine_follow applied m = Ok (t, m') <->
  exists a e, cm_history m = [a] /\ effect_of (ct_to a) = Some e
    /\ t = mkControlTransition (ct_to a) (if applied then Applied e else Failed e) (ct_reason a)
    /\ m' = mkControlMachine (ct_to t) [a; t].
Proof.
  unfold machine_wf, machine_follow, machine_commit. intros Hwf.
  destruct (cm_history m) as [|a [|o [|]]]; simpl in *; [naive_solver| | |done].
  - destruct Hwf as (Hf & Hs & [e He]). unfold ct_follow.
    destruct (ct_to a) eqn:Hto; simpl in He; simplify_eq; simpl; rewrite Hs, bool_decide_true by done;
      (split; [intros [= <- <-]; eexists a, _; by rewrite Hto|]);
      intros (a' & e & [= <-] & He & -> & ->); rewrite Hto in He; simpl in He; injection He as <-; by rewrite ?Hto.
  - destruct Hwf as (_ & _ & _ & _ & e & _ & [Ho|Ho]); unfold ct_follow; rewrite Ho; simpl;
      (split; [done|]); by intros (? & ? & ? & _).
Qed.

Lemma machine_step_wf {R} m m' : machine_wf m -> @machine_step R m m' -> machine_wf m'.
Proof.
  intros Hwf Hstep. destruct Hstep as [controller request m t m' H|m t m' H|m t m' H].
  - apply machine_authorize_Ok in H as (Hs & _ & Hf & Heff & ->).
    unfold machine_wf in *. simpl. destruct (cm_history m) as [|a [|o [|]]]; simpl; [done| | |done].
    + destruct Hwf as (_ & Hs' & [e He]). by rewrite <- Hs', Hs in He.
    + destruct Hwf as (_ & _ & _ & Hs' & e & _ & [He|He]); rewrite <- Hs', Hs in He; done.
  - apply machine_follow_Ok in H as (a & e & Ha & He & -> & ->); [|done].
    unfold machine_wf in *. rewrite Ha in Hwf. simpl. naive_solver.
  - apply machine_follow_Ok in H as (a & e & Ha & He & -> & ->); [|done].
    unfold machine_wf in *. rewrite Ha in Hwf. simpl. naive_solver.
Qed.

Lemma reachable_wf {R} m m' : rtc (@machine_step R) m m' -> machine_wf m -> machine_wf m'.
Proof. induction 1 as [|m1 m2 m3 Hstep _ IH]; [done|]. intros. by eapply IH, machine_step_wf. Qed.

(** Whatever the controller answers and in whatever order the machine is
    called, its history is an authorization followed by at most one outcome
    that carries the authorized effect and reason; the state is where the last
    transition led. *)
Theorem control_history_sound {R} m : rtc (@machine_step R) machine_new m -> machine_wf m.
Proof. intros H. by apply (reachable_wf _ _ H). Qed.

(** Each request is decided once and settled once: from a reachable
    machine an authorization succeeds only in the initial state, an outcome
    only right after an authorization, and a settled machine refuses every
    call; in particular nothing that was denied is ever applied as allowed. *)
Theorem control_settles_once {R} m m' :
  rtc (@machine_step R) machine_new m -> @machine_step R m m' ->
  (cm_state m = Requested /\ is_Some (effect_of (cm_state m')))
  \/ (exists e, effect_of (cm_state m) = Some e
      /\ (cm_state m' = Applied e \/ cm_state m' = Failed e)
      /\ forall m'', ~ @machine_step R m' m'').
Proof.
  intros Hr Hstep.
  assert (machine_wf m) as Hwf by (by apply (reachable_wf _ _ Hr)).
  assert (forall e (x : ControlMachine), machine_wf x -> (cm_state x = Applied e \/ cm_state x = Failed e) ->
            forall y, ~ @machine_step R x y) as Hfinal.
  { intros e x Hx Hs y Hxy. inversion Hxy as [controller request ? t ? H|? t ? H|? t ? H]; subst;
      [apply machine_authorize_Ok in H as (H & _); destruct Hs; congruence|..];
      (apply machine_follow_Ok in H as (a & e' & Ha & He & _); [|done]);
      unfold machine_wf in Hx; rewrite Ha in Hx; destruct Hx as (_ & Hx & _);
      rewrite <- Hx in He; destruct Hs as [Hs|Hs]; by rewrite Hs in He. }
  pose proof (machine_step_wf _ _ Hwf Hstep) as Hwf'.
  destruct Hstep as [controller request m t m' H|m t m' H|m t m' H].
  - left. apply machine_authorize_Ok in H as (Hs & _ & _ & He & ->). done.
  - right. apply machine_follow_Ok in H as (a & e & Ha & He & -> & ->); [|done]. exists e.
    assert (cm_state m = ct_to a) as -> by (unfold machine_wf in Hwf; rewrite Ha in Hwf; naive_solver).
    simpl. split; [done|]. split; [by left|]. eapply Hfinal; [done|by left].
  - right. apply machine_follow_Ok in H as (a & e & Ha & He & -> & ->); [|done]. exists e.
    assert (cm_state m = ct_to a) as -> by (unfold machine_wf in Hwf; rewrite Ha in Hwf; naive_solver).
    simpl. split; [done|]. split; [by right|]. eapply Hfinal; [done|by right].
Qed.

(** A concrete network library for the examples: an address, a slash and a
    prefix length; membership by leading bits. *)
Definition parse_prefix_len (s : string) : option Z :=
  match read_number 10 3 false 128 s with
  | Some (n, EmptyString) => Some n
  | _ => None
  end.

Definition block_ipnet : IpNetLib (IpAddr * Z) := {|
  ipnet_from_str s :=
    match str_split_once 47 s with
    | Some (host, len) =>
        match ip_from_str host, parse_prefix_len len with
        | Some ip, Some n => Some (ip, n)
        | _, _ => None
        end
    | None => None
    end;
  ipnet_contains net ip :=
    match net, ip with
    | (V4 a b c d, n), V4 a' b' c' d' => in_block 32 (v4_value a' b' c' d') (v4_value a b c d, n)
    | (V6 s0 s1 s2 s3 s4 s5 s6 s7, n), V6 t0 t1 t2 t3 t4 t5 t6 t7 =>
        in_block 128 (v6_value t0 t1 t2 t3 t4 t5 t6 t7) (v6_value s0 s1 s2 s3 s4 s5 s6 s7, n)
    | _, _ => false
    end;
  ipnet_addr net := fst net;
|}.

Module ControlExample.
#[local] Existing Instance block_ipnet.

Definition capability : NetworkCapability :=
  AllowList ["*.Example.com"; "10.1.0.0/16"] [mkNetworkAccessRule "api.local." [443; 80; 443]%Z [Https] true].

Definition guard : NetworkGuard (IpNet := IpAddr * Z) :=
  match guard_compile capability [] with
  | Ok g => g
  | Err _ => mkNetworkGuard Deny [] [] []
  end.

Definition request (host : string) (port : Z) (ip : option IpAddr) : NetworkAccessRequest :=
  mkNetworkAccessRequest None None None host (Some port) Https ip.

Example decisions :
  map (fun r => ct_reason (authorize_network guard r))
    [request "a.example.com" 443 (Some (V4 93 184 216 34)); request "a.example.com" 443 (Some (V4 127 0 0 1));
     request "example.com" 443 None; request "API.local" 443 (Some (V4 192 168 0 7));
     request "api.local" 22 None; request "db.internal" 5432 (Some (V4 10 1 2 3))]
  = [NetworkAllowList; ResolvedAddressNotAllowed; HostNotAllowed; NetworkAllowList; PortNotAllowed; NetworkAllowList].
Proof. vm_compute. reflexivity. Qed.

Lemma denial_reason_precise_witness :
  ct_reason (authorize_network guard (request "api.local" 22 None)) = PortNotAllowed
  /\ (ct_reason (authorize_network guard (request "api.local" 22 None)) = PortNotAllowed <->
      (exists r, r ∈ ng_rules guard /\ covers_host (request "api.local" 22 None) r = true)
      /\ ~ (exists r, r ∈ ng_rules guard /\ covers_port (request "api.local" 22 None) r = true)).
Proof.
  split; [vm_compute; reflexivity|].
  assert (default_deny (ng_capability guard) = true) as H1 by (vm_compute; reflexivity).
  assert (guard_denied guard (request "api.local" 22 None) = false) as H2 by (vm_compute; reflexivity).
  assert (guard_is_trusted guard (nreq_host (request "api.local" 22 None)) = false) as H3
    by (vm_compute; reflexivity).
  pose proof (denial_reason_precise guard (request "api.local" 22 None) H1 H2 H3) as (_ & _ & H & _).
  exact H.
Defined.

Lemma no_private_egress_witness :
  let req := request "db.internal" 5432 (Some (V4 10 1 2 3)) in
  normalize_host (nreq_host req) ∈ map normalize_host []
  \/ is_public_egress_ip (V4 10 1 2 3) = true
  \/ exists d r, d ∈ declared_allow capability /\ compile_network_rule d = Ok r /\ covers req r = true
       /\ address_declared (V4 10 1 2 3) d.
Proof.
  assert (guard_compile capability [] = Ok guard) as H1 by (vm_compute; reflexivity).
  assert (ct_is_allowed (policy_controller (RequestNetwork guard
            (request "db.internal" 5432 (Some (V4 10 1 2 3))))) = true) as H2 by (vm_compute; reflexivity).
  exact (no_private_egress capability [] guard (request "db.internal" 5432 (Some (V4 10 1 2 3)))
           (V4 10 1 2 3) H1 eq_refl eq_refl H2).
Defined.

Lemma compiled_rule_wf_witness :
  exists r, compile_network_rule (mkNetworkAccessRule "*.Example.com" [443; 80; 443]%Z [Https] false) = Ok r
    /\ nr_host r = RuleWildcardSuffix "example.com" /\ nr_ports r = [80; 443]%Z
    /\ StronglySorted Z.lt (nr_ports r).
Proof.
  eexists. split; [vm_compute; reflexivity|]. split; [reflexivity|]. split; [reflexivity|].
  apply (compiled_rule_wf (mkNetworkAccessRule "*.Example.com" [443; 80; 443]%Z [Https] false)).
  vm_compute. reflexivity.
Defined.

(** A deny rule for an IPv4 address does not see its IPv4-mapped form, which
    the address classification does unmap. *)
Lemma deny_rule_ignores_mapped_form :
  exists g, guard_compile (Policy DefaultAllow [] [host_entry "10.0.0.1"] []) [] = Ok g
    /\ authorize_network g (request "10.0.0.1" 443 None) = ct_denied ExplicitlyDenied
    /\ authorize_network g (request "::ffff:10.0.0.1" 443 (Some (V6 0 0 0 0 0 0xffff 0x0a00 1)))
       = ct_allowed AmbientNetwork
    /\ is_opt_in_private_ip (V6 0 0 0 0 0 0xffff 0x0a00 1) = true.
Proof. eexists. split; [vm_compute; reflexivity|]. repeat split; vm_compute; reflexivity. Qed.

(** A denied request that is settled. *)
Definition settled : ControlMachine :=
  mkControlMachine (Applied EffectDeny)
    [ct_denied NetworkDenied; mkControlTransition Denied (Applied EffectDeny) NetworkDenied].

Lemma control_history_sound_witness : machine_wf settled.
Proof.
  apply (@control_history_sound unit).
  eapply rtc_l; [apply (step_authorize (fun _ : unit => ct_denied NetworkDenied) tt _ (ct_denied NetworkDenied));
    vm_compute; reflexivity|].
  eapply rtc_l; [eapply step_applied; vm_compute; reflexivity|]. apply rtc_refl.
Defined.

Lemma control_settles_once_witness :
  (Denied = Requested /\ is_Some (effect_of (Applied EffectDeny)))
  \/ (exists e, effect_of Denied = Some e
      /\ (Applied EffectDeny = Applied e \/ Applied EffectDeny = Failed e)
      /\ forall m'', ~ @machine_step unit settled m'').
Proof.
  apply (@control_settles_once unit (mkControlMachine Denied [ct_denied NetworkDenied]) settled).
  - eapply rtc_l; [apply (step_authorize (fun _ : unit => ct_denied NetworkDenied) tt _ (ct_denied NetworkDenied));
      vm_compute; reflexivity|]. apply rtc_refl.
  - eapply step_applied. vm_compute. reflexivity.
Defined.
End ControlExample.
