(* ===== verification/Capability.v ===== *)
(** * Capability enforcement evidence

    Models the capability set, the resource limits and the per-dimension
    enforcement evidence of [persisting-agentctl/src/runtime.rs], by which a
    Run in [PolicyMode::Enforce] is refused unless every dimension it
    restricts has a non-bypassable mechanism. *)

From Stdlib Require Import ZArith Lia Sorted.
From stdpp Require Import base list strings gmap numbers option.
From S2P Require Import Prelude RuntimeTypes IpAddr AgentControl.

#[local] Set Warnings "-clear-no-such-hyp".

(** ** Data *)

Record ResourceLimits := mkResourceLimits {
  rl_memory_bytes : option Z;
  rl_processes : option Z;
  rl_cpu_time_ms : option Z;
  rl_open_files : option Z;
  rl_file_size_bytes : option Z;
}.

Definition is_none {A} (o : option A) : bool := negb (is_some o).

(** [ResourceLimits::is_empty]. *)
Definition limits_is_empty (l : ResourceLimits) : bool :=
  is_none (rl_memory_bytes l) && is_none (rl_processes l) && is_none (rl_cpu_time_ms l)
  && is_none (rl_open_files l) && is_none (rl_file_size_bytes l).

Inductive FilesystemAccess := Read | ReadWrite.

#[global] Instance FilesystemAccess_eq_dec : EqDecision FilesystemAccess.
Proof. solve_decision. Defined.

Record FilesystemCapability := mkFilesystemCapability {
  fc_path : string;
  fc_access : FilesystemAccess;
}.

Record CapabilitySet := mkCapabilitySet {
  cs_models : list string;
  cs_tools : list string;
  cs_filesystem : list FilesystemCapability;
  cs_network : NetworkCapability;
  cs_secrets : list string;
  cs_allow_subprocess : bool;
}.

Inductive EnforcementLevel := Unenforced | Cooperative | Enforced.

Inductive CapabilityDimension :=
| Models | Tools | FilesystemRead | FilesystemWrite | Network | Secrets | Subprocess | Resources.

#[global] Instance EnforcementLevel_eq_dec : EqDecision EnforcementLevel.
Proof. solve_decision. Defined.
#[global] Instance CapabilityDimension_eq_dec : EqDecision CapabilityDimension.
Proof. solve_decision. Defined.

(** The derived orders: declaration order. *)
Definition level_rank (l : EnforcementLevel) : nat :=
  match l with Unenforced => 0 | Cooperative => 1 | Enforced => 2 end.
Definition dimension_rank (d : CapabilityDimension) : nat :=
  match d with
  | Models => 0 | Tools => 1 | FilesystemRead => 2 | FilesystemWrite => 3
  | Network => 4 | Secrets => 5 | Subprocess => 6 | Resources => 7
  end.

Record EnforcementEvidence := mkEnforcementEvidence {
  ee_level : EnforcementLevel;
  ee_mechanisms : list string;
}.

Definition evidence_default : EnforcementEvidence := mkEnforcementEvidence Unenforced [].

(** [BTreeMap<CapabilityDimension, EnforcementEvidence>]: an association list
    in key order. *)
Definition EvidenceMap : Type := list (CapabilityDimension * EnforcementEvidence).

Fixpoint ev_get (m : EvidenceMap) (d : CapabilityDimension) : option EnforcementEvidence :=
  match m with
  | [] => None
  | (d', e) :: rest => if decide (d' = d) then Some e else ev_get rest d
  end.

Fixpoint ev_insert (m : EvidenceMap) (d : CapabilityDimension) (e : EnforcementEvidence) : EvidenceMap :=
  match m with
  | [] => [(d, e)]
  | (d', e') :: rest =>
      if decide (d' = d) then (d, e) :: rest
      else if (dimension_rank d <? dimension_rank d')%nat then (d, e) :: (d', e') :: rest
      else (d', e') :: ev_insert rest d e
  end.

(** ** Operations *)

(** [CapabilityEnforcementEvidence::record]. *)
Definition record (m : EvidenceMap) (dimension : CapabilityDimension) (level : EnforcementLevel)
    (mechanism : string) : EvidenceMap :=
  let evidence := match ev_get m dimension with Some e => e | None => evidence_default end in
  let level' := if (level_rank (ee_level evidence) <? level_rank level)%nat then level else ee_level evidence in
  let mechanisms' :=
    if bool_decide (mechanism ∈ ee_mechanisms evidence) then ee_mechanisms evidence
    else ee_mechanisms evidence ++ [mechanism] in
  ev_insert m dimension (mkEnforcementEvidence level' mechanisms').

Definition enforced (m : EvidenceMap) (d : CapabilityDimension) (mechanism : string) : EvidenceMap :=
  record m d Enforced mechanism.
Definition cooperative (m : EvidenceMap) (d : CapabilityDimension) (mechanism : string) : EvidenceMap :=
  record m d Cooperative mechanism.

(** [CapabilityEnforcementEvidence::is_enforced]. *)
Definition is_enforced (m : EvidenceMap) (d : CapabilityDimension) : bool :=
  match ev_get m d with
  | Some e => bool_decide (ee_level e = Enforced)
  | None => false
  end.

(** [BTreeSet::insert] on dimensions. *)
Fixpoint dim_insert (d : CapabilityDimension) (s : list CapabilityDimension) : list CapabilityDimension :=
  match s with
  | [] => [d]
  | d' :: rest =>
      if decide (d = d') then s
      else if (dimension_rank d <? dimension_rank d')%nat then d :: s
      else d' :: dim_insert d rest
  end.

Definition dim_insert_if (b : bool) (d : CapabilityDimension) (s : list CapabilityDimension) :=
  if b then dim_insert d s else s.

Definition request_filesystem (s : list CapabilityDimension) (f : FilesystemCapability)
  : list CapabilityDimension :=
  dim_insert_if (bool_decide (fc_access f = ReadWrite)) FilesystemWrite (dim_insert FilesystemRead s).

Definition requested_enforcement_dimensions (c : CapabilitySet) (r : ResourceLimits)
  : list CapabilityDimension :=
  let s := [] in
  let s := dim_insert_if (negb (is_nil (cs_models c))) Models s in
  let s := dim_insert_if (negb (is_nil (cs_tools c))) Tools s in
  let s := fold_left request_filesystem (cs_filesystem c) s in
  let s := dim_insert Network s in
  let s := dim_insert_if (negb (is_nil (cs_secrets c))) Secrets s in
  let s := dim_insert_if (negb (cs_allow_subprocess c)) Subprocess s in
  dim_insert_if (negb (limits_is_empty r)) Resources s.

Definition missing_dimensions (m : EvidenceMap) (c : CapabilitySet) (r : ResourceLimits)
  : list CapabilityDimension :=
  List.filter (fun d => negb (is_enforced m d)) (requested_enforcement_dimensions c r).

(** ** Evidence maps *)

Lemma ev_get_insert m d e d' :
  ev_get (ev_insert m d e) d' = if decide (d = d') then Some e else ev_get m d'.
Proof.
  induction m as [|[k v] m IH]; simpl; [done|].
  destruct (decide (k = d)) as [->|Hk]; simpl; [by repeat case_decide|].
  destruct (_ <? _)%nat; simpl; repeat case_decide; try congruence; by rewrite IH; case_decide.
Qed.

(** Recording evidence never lowers what is already known: a dimension
    gets at least the recorded level and keeps its own, keeps its mechanisms
    in order with the new one added once, and every other dimension is
    untouched. *)
Theorem record_monotone m d level mechanism :
  (exists e, ev_get (record m d level mechanism) d = Some e
    /\ level_rank (ee_level e)
       = Nat.max (level_rank level)
           (match ev_get m d with Some e0 => level_rank (ee_level e0) | None => 0%nat end)
    /\ mechanism ∈ ee_mechanisms e
    /\ (forall e0, ev_get m d = Some e0 ->
          ee_mechanisms e0 `prefix_of` ee_mechanisms e
          /\ (NoDup (ee_mechanisms e0) -> NoDup (ee_mechanisms e))))
  /\ forall d', d' <> d -> ev_get (record m d level mechanism) d' = ev_get m d'.
Proof.
  unfold record. split; [|intros d' Hd; rewrite ev_get_insert; by case_decide].
  rewrite ev_get_insert, decide_True by done. eexists. split; [done|]. simpl.
  set (e := match ev_get m d with Some e => e | None => evidence_default end).
  split; [|split].
  - assert (match ev_get m d with Some e0 => level_rank (ee_level e0) | None => 0%nat end
            = level_rank (ee_level e)) as -> by (unfold e; by destruct (ev_get m d)).
    destruct (Nat.ltb_spec (level_rank (ee_level e)) (level_rank level)); lia.
  - case_bool_decide; [done|]. set_solver.
  - intros e0 He0. assert (e = e0) as -> by (unfold e; by rewrite He0).
    case_bool_decide as Hin; [done|]. split; [by eexists|].
    intros. apply list.NoDup_app. split; [done|]. split; [set_solver|]. apply NoDup_singleton.
Qed.

(** ** Requested dimensions *)

Lemma elem_of_dim_insert d d' s : d ∈ dim_insert d' s <-> d = d' \/ d ∈ s.
Proof.
  induction s as [|x s IH]; simpl; [set_solver|].
  case_decide as E; [subst; set_solver|]. case_match; [set_solver|].
  rewrite !elem_of_cons, IH. naive_solver.
Qed.

Lemma elem_of_dim_insert_if b d d' s : d ∈ dim_insert_if b d' s <-> (b = true /\ d = d') \/ d ∈ s.
Proof. destruct b; simpl; [rewrite elem_of_dim_insert|]; naive_solver. Qed.

Definition dims_sorted : list CapabilityDimension -> Prop :=
  StronglySorted (fun a b => (dimension_rank a < dimension_rank b)%nat).

Lemma dimension_rank_inj a b : dimension_rank a = dimension_rank b -> a = b.
Proof. by destruct a, b. Qed.

Lemma dim_insert_sorted d s : dims_sorted s -> dims_sorted (dim_insert d s).
Proof.
  unfold dims_sorted. induction 1 as [|x s Hs IH Hx]; simpl; [repeat constructor|].
  case_decide as E; [by constructor|]. destruct (Nat.ltb_spec (dimension_rank d) (dimension_rank x)).
  - constructor; [by constructor|]. constructor; [done|]. eapply List.Forall_impl; [|done]. simpl. lia.
  - constructor; [done|]. apply List.Forall_forall. intros y Hy%list_elem_of_In%elem_of_dim_insert.
    destruct Hy as [->|Hy].
    + assert (dimension_rank d <> dimension_rank x) by (intros ?%dimension_rank_inj; done). lia.
    + rewrite List.Forall_forall in Hx. by apply Hx, list_elem_of_In.
Qed.

Lemma dim_insert_if_sorted b d s : dims_sorted s -> dims_sorted (dim_insert_if b d s).
Proof. destruct b; [apply dim_insert_sorted|done]. Qed.

Lemma dims_sorted_nil : dims_sorted [].
Proof. constructor. Qed.

#[export] Hint Resolve dims_sorted_nil dim_insert_sorted dim_insert_if_sorted : rust.

Lemma request_filesystem_fold fs s d :
  d ∈ fold_left request_filesystem fs s <->
  (d = FilesystemRead /\ fs <> [])
  \/ (d = FilesystemWrite /\ exists f, f ∈ fs /\ fc_access f = ReadWrite) \/ d ∈ s.
Proof.
  revert s. induction fs as [|f fs IH]; intros s; simpl; [set_solver|]. rewrite IH.
  unfold request_filesystem. rewrite elem_of_dim_insert_if, bool_decide_eq_true, elem_of_dim_insert.
  setoid_rewrite elem_of_cons. destruct fs; naive_solver.
Qed.

Lemma request_filesystem_sorted fs s : dims_sorted s -> dims_sorted (fold_left request_filesystem fs s).
Proof. revert s. induction fs as [|f fs IH]; intros s Hs; simpl; [done|]. apply IH. unfold request_filesystem. auto with rust. Qed.

#[export] Hint Resolve request_filesystem_sorted : rust.

Lemma requested_spec c r d :
  d ∈ requested_enforcement_dimensions c r <->
  match d with
  | Models => cs_models c <> []
  | Tools => cs_tools c <> []
  | FilesystemRead => cs_filesystem c <> []
  | FilesystemWrite => exists f, f ∈ cs_filesystem c /\ fc_access f = ReadWrite
  | Network => True
  | Secrets => cs_secrets c <> []
  | Subprocess => cs_allow_subprocess c = false
  | Resources => limits_is_empty r = false
  end.
Proof.
  unfold requested_enforcement_dimensions.
  rewrite !elem_of_dim_insert_if, elem_of_dim_insert, request_filesystem_fold,
    !elem_of_dim_insert_if, elem_of_nil, !negb_true_iff.
  assert (forall A (l : list A), is_nil l = false <-> l <> []) as Hnil by (by intros A [|]).
  rewrite !Hnil. destruct d; naive_solver.
Qed.

(** Enforce mode fails closed.  The missing dimensions are, in order and
    without repetition, exactly the restricted dimensions without enforced
    evidence: the network always counts as restricted, subprocesses unless
    they are allowed, a filesystem entry restricts reads and a writable one
    writes too, and cooperative evidence is never enough. *)
Theorem enforcement_fails_closed m c r :
  dims_sorted (missing_dimensions m c r)
  /\ forall d, d ∈ missing_dimensions m c r <->
     (match d with
      | Models => cs_models c <> []
      | Tools => cs_tools c <> []
      | FilesystemRead => cs_filesystem c <> []
      | FilesystemWrite => exists f, f ∈ cs_filesystem c /\ fc_access f = ReadWrite
      | Network => True
      | Secrets => cs_secrets c <> []
      | Subprocess => cs_allow_subprocess c = false
      | Resources => limits_is_empty r = false
      end)
     /\ forall e, ev_get m d = Some e -> ee_level e <> Enforced.
Proof.
  split.
  - unfold missing_dimensions.
    assert (dims_sorted (requested_enforcement_dimensions c r)) as Hs
      by (unfold requested_enforcement_dimensions; cbv zeta; auto 10 with rust).
    induction Hs as [|x s Hs IH Hx]; simpl; [constructor|]. case_match; [|done].
    constructor; [done|]. rewrite List.Forall_forall in Hx |- *. intros y [Hy _]%filter_In. by apply Hx.
  - intros d. rewrite <- (requested_spec c r d). unfold missing_dimensions.
    rewrite list_elem_of_In, filter_In, <- list_elem_of_In, negb_true_iff.
    unfold is_enforced. destruct (ev_get m d); [rewrite bool_decide_eq_false|]; naive_solver.
Qed.
