(* ===== verification/OverlayNet.v ===== *)
(** * OverlayNet: the egress data plane

    Models [persisting-overlaynet/src/policy.rs] (the network configuration,
    its compilation to a guard and bandwidth limits, authorization through an
    injected controller), [resolver.rs] (authorization of every resolved
    address), the CONNECT target parser of [forward.rs] and
    [EgressRuntime::authorize_tcp] of [egress.rs].

    DNS is the argument [lookup_host]; the [http] crate's authority parser is
    the argument [authority_host]; an injected controller is an arbitrary
    function on a state of its own. *)

From Stdlib Require Import ZArith Lia Ascii.
From stdpp Require Import base list strings gmap numbers option.
From S2P Require Import Prelude RuntimeTypes IpAddr AgentControl.

#[local] Set Warnings "-clear-no-such-hyp".

(** ** Configuration ([policy.rs]) *)

Inductive NetworkMode := Public | NoNetwork | Allowlist.

#[global] Instance NetworkMode_eq_dec : EqDecision NetworkMode.
Proof. solve_decision. Defined.

Record NetworkConfig := mkNetworkConfig {
  nc_mode : NetworkMode;
  nc_allowed_hosts : list string;
  nc_rules : list NetworkAccessRule;
  nc_deny_rules : list NetworkAccessRule;
  nc_limits : list NetworkBandwidthLimit;
}.

Definition network_capability (network : NetworkConfig) : NetworkCapability :=
  let policy default_action :=
    Policy default_action (nc_rules network ++ map host_entry (nc_allowed_hosts network))
      (nc_deny_rules network) (nc_limits network) in
  let plain := is_nil (nc_deny_rules network) && is_nil (nc_limits network) in
  match nc_mode network with
  | NoNetwork => Deny
  | Public => if plain then Ambient else policy DefaultAllow
  | Allowlist =>
      if plain then AllowList (nc_allowed_hosts network) (nc_rules network) else policy DefaultDeny
  end.

Inductive DenyReason :=
| DenyNoNetwork | DenyAllowlistEmpty | DenyNotInAllowlist | DenyPortNotAllowed
| DenyTransportNotAllowed | DenyResolvedAddressNotAllowed | DenyExplicitDeny.

#[global] Instance DenyReason_eq_dec : EqDecision DenyReason.
Proof. solve_decision. Defined.

(** [DenyReason::as_str]. *)
Definition deny_reason_str (r : DenyReason) : string :=
  match r with
  | DenyNoNetwork => "no-network"
  | DenyAllowlistEmpty => "allowlist-empty"
  | DenyNotInAllowlist => "not-in-allowlist"
  | DenyPortNotAllowed => "port-not-allowed"
  | DenyTransportNotAllowed => "transport-not-allowed"
  | DenyResolvedAddressNotAllowed => "resolved-address-not-allowed"
  | DenyExplicitDeny => "explicit-deny"
  end.

Inductive PolicyError :=
| AllowEntriesOutsideAllowlist
| LimitRateZero
| LimitPortZero
| PolicyRule (e : RuleError).

(** What stops an egress request: a denial, or the [expect] on a controller
    that returned no valid authorization. *)
Inductive EgressStop :=
| Deny_ (r : DenyReason)
| ControllerPanic (e : ControlError).

(** Socket addresses: the IPv6 flow and scope take part in equality. *)
Record SocketAddr := mkSocketAddr {
  sa_ip : IpAddr;
  sa_port : Z;
  sa_flowinfo : Z;
  sa_scope_id : Z;
}.

#[global] Instance SocketAddr_eq_dec : EqDecision SocketAddr.
Proof. solve_decision. Defined.

Definition map_err {E F A} (f : E -> F) (r : result E A) : result F A :=
  match r with Ok a => Ok a | Err e => Err (f e) end.

Section Egress.
Context {IpNet : Type} `{ipnet_lib : !IpNetLib IpNet}.

#[local] Abbreviation Guard := (NetworkGuard (IpNet := IpNet)).
#[local] Abbreviation Rule := (NetworkRule (IpNet := IpNet)).
#[local] Abbreviation Request := (ControlRequest (IpNet := IpNet)).

Record CompiledBandwidthLimit := mkCompiledBandwidthLimit {
  cbl_matcher : option Rule;
  cbl_config : NetworkBandwidthLimit;
}.

Record NetworkPolicy := mkNetworkPolicy {
  np_mode : NetworkMode;
  np_guard : Guard;
  np_limits : list CompiledBandwidthLimit;
}.

Definition compile_limit (config : NetworkBandwidthLimit) : result PolicyError CompiledBandwidthLimit :=
  ensure! (0 <? nbl_bytes_per_second config)%Z else LimitRateZero in
  ensure! negb (bool_decide (nbl_port config = Some 0%Z)) else LimitPortZero in
  let? matcher := match nbl_host config with
                  | None => Ok None
                  | Some host => let? r := map_err PolicyRule (parse_network_rule host) in Ok (Some r)
                  end in
  Ok (mkCompiledBandwidthLimit matcher config).

(** [NetworkPolicy::compile]. *)
Definition policy_compile (network : NetworkConfig) : result PolicyError NetworkPolicy :=
  ensure! bool_decide (nc_mode network = Allowlist)
          || (is_nil (nc_allowed_hosts network) && is_nil (nc_rules network))
    else AllowEntriesOutsideAllowlist in
  let? guard := map_err PolicyRule (guard_compile (network_capability network) []) in
  let? limits := collect_results compile_limit (nc_limits network) in
  Ok (mkNetworkPolicy (nc_mode network) guard limits).

(** A controller decides on its state and may change it. *)
Definition Controller (C : Type) : Type := C -> Request -> ControlTransition * C.

(** [PolicyControlController] has no state. *)
Definition policy_control : Controller unit := fun _ request => (policy_controller request, tt).

Definition deny_reason_of (reason : ControlReason) : DenyReason :=
  match reason with
  | NetworkDenied => DenyNoNetwork
  | NetworkAllowListEmpty => DenyAllowlistEmpty
  | PortNotAllowed => DenyPortNotAllowed
  | TransportNotAllowed => DenyTransportNotAllowed
  | ResolvedAddressNotAllowed => DenyResolvedAddressNotAllowed
  | ExplicitlyDenied => DenyExplicitDeny
  | _ => DenyNotInAllowlist
  end.

Definition authorize_egress {C} (controller : Controller C) (st : C) (policy : NetworkPolicy)
    (request : NetworkAccessRequest) : result EgressStop unit * C :=
  let control := machine_new in
  let answer := controller st (RequestNetwork (np_guard policy) request) in
  (match machine_authorize (fun _ => fst answer) (RequestNetwork (np_guard policy) request) control with
   | Err e => Err (ControllerPanic e)
   | Ok (transition, _) =>
       if ct_is_allowed transition then Ok tt
       else Err (Deny_ (deny_reason_of (ct_reason transition)))
   end, snd answer).

Definition preflight (policy : NetworkPolicy) (request : NetworkAccessRequest) : result EgressStop unit :=
  fst (authorize_egress policy_control tt policy request).

(** [NetworkPolicy::authorize]: the compiled policy first, then the injected
    controller. *)
Definition policy_authorize {C} (controller : Controller C) (st : C) (policy : NetworkPolicy)
    (request : NetworkAccessRequest) : result EgressStop unit * C :=
  match preflight policy request with
  | Err e => (Err e, st)
  | Ok _ => authorize_egress controller st policy request
  end.

Definition limit_applies (host : string) (port : option Z) (resolved_addresses : list SocketAddr)
    (limit : CompiledBandwidthLimit) : bool :=
  match nbl_port (cbl_config limit) with
  | None => true
  | Some expected => bool_decide (port = Some expected)
  end
  && match cbl_matcher limit with
     | None => true
     | Some matcher =>
         host_matches host [matcher]
         || existsb (fun address => host_matches (ip_to_string (sa_ip address)) [matcher]) resolved_addresses
     end.

Definition matching_limits (policy : NetworkPolicy) (host : string) (port : option Z)
    (resolved_addresses : list SocketAddr) : list NetworkBandwidthLimit :=
  map cbl_config (List.filter (limit_applies host port resolved_addresses) (np_limits policy)).

(** [find(']')] splits at the first closing bracket. *)
Definition host_from_authority (authority : string) : string :=
  let authority := str_trim authority in
  let without_brackets :=
    match str_rsplit_once 58 authority with
    | Some (host, port) =>
        if negb (bool_decide (host = "")) && all_digits port then normalize_host host
        else normalize_host authority
    | None => normalize_host authority
    end in
  match str_strip_prefix "[" authority with
  | Some rest =>
      match str_split_once 93 rest with
      | Some (inner, _) => normalize_host inner
      | None => without_brackets
      end
  | None => without_brackets
  end.

(** ** CONNECT targets ([forward.rs]) *)

Record ConnectTarget := mkConnectTarget {
  ctg_host : string;
  ctg_port : Z;
  ctg_authority : string;
}.

Inductive ConnectError :=
| ConnectUserInfo | ConnectInvalidAuthority | ConnectNoHost | ConnectPortRange | ConnectPortZero.

(** [u16::from_str]: an optional [+], then at least one digit, in range. *)
Fixpoint parse_digits (acc : Z) (s : string) : option Z :=
  match s with
  | EmptyString => Some acc
  | String c r => match to_digit 10 c with
                  | Some d => parse_digits (acc * 10 + d) r
                  | None => None
                  end
  end.
Definition parse_u16 (s : string) : option Z :=
  let digits := match str_strip_prefix "+" s with Some r => r | None => s end in
  match digits with
  | EmptyString => None
  | _ => match parse_digits 0 digits with
         | Some n => if (n <=? u16_max)%Z then Some n else None
         | None => None
         end
  end.

Definition parse_connect_target (authority_host : string -> option string) (authority : string)
  : result ConnectError ConnectTarget :=
  ensure! negb (str_contains_char 64 authority) else ConnectUserInfo in
  let? parsed_host := ok_or (authority_host authority) ConnectInvalidAuthority in
  let host :=
    match str_strip_prefix "[" parsed_host with
    | Some h => match str_strip_suffix "]" h with Some h => h | None => parsed_host end
    | None => parsed_host
    end in
  ensure! negb (bool_decide (host = "")) else ConnectNoHost in
  let explicit_port :=
    if str_starts_with "[" authority then
      match str_split_once 93 authority with
      | Some (_, rest) => str_strip_prefix ":" rest
      | None => None
      end
    else option_map snd (str_rsplit_once 58 authority) in
  let? port := match explicit_port with
               | Some port => ok_or (parse_u16 port) ConnectPortRange
               | None => Ok 443%Z
               end in
  ensure! negb (port =? 0)%Z else ConnectPortZero in
  let shown := show_radix 4 10 port "" in
  Ok (mkConnectTarget host port
        (if str_contains_char 58 host then "[" +:+ host +:+ "]:" +:+ shown else host +:+ ":" +:+ shown)).

(** The CONNECT branch of [dispatch] ([server.rs]): the host that is
    authorized is read from the target's host as if it were an authority. *)
Definition connect_host (authority_host : string -> option string) (authority : string)
  : result ConnectError (string * Z) :=
  let? target := parse_connect_target authority_host authority in
  Ok (host_from_authority (ctg_host target), ctg_port target).

(** ** Resolution ([resolver.rs]) *)

Inductive ResolvedAddressPolicy := Strict | HostConnectorAliases.

Inductive ResolveError := NoEffectivePort | DnsTimeout | DnsFailed | DnsEmpty.

Inductive TargetAuthorizationError :=
| TargetDenied (r : DenyReason)
| TargetResolve (e : ResolveError)
| TargetPanic (e : ControlError).

Record AuthorizedTarget := mkAuthorizedTarget {
  at_host : string;
  at_addresses : list SocketAddr;
}.

Definition is_host_connector_alias (host : string) (address : IpAddr) : bool :=
  if is_ok_ip host then false
  else match address with
       | V4 a b _ _ => (a =? 198)%Z && ((b =? 18)%Z || (b =? 19)%Z)
       | V6 _ _ _ _ _ _ _ _ => false
       end.

Definition aliases_enabled (p : ResolvedAddressPolicy) : bool :=
  match p with HostConnectorAliases => true | Strict => false end.

(** One address: the concrete request, and the logical one again if the
    address is an accepted connector alias. *)
Definition authorize_address {C} (controller : Controller C) (st : C) (policy : NetworkPolicy)
    (request : NetworkAccessRequest) (mode : ResolvedAddressPolicy) (address : SocketAddr)
  : result EgressStop unit * C :=
  let request := set_resolved_ip (Some (sa_ip address)) request in
  match policy_authorize controller st policy request with
  | (Err (Deny_ reason), st) =>
      if negb (bool_decide (reason = DenyResolvedAddressNotAllowed))
         || negb (aliases_enabled mode)
         || negb (is_host_connector_alias (nreq_host request) (sa_ip address))
      then (Err (Deny_ reason), st)
      else policy_authorize controller st policy (set_resolved_ip None request)
  | r => r
  end.

(** The loop over the resolved addresses: [seen], the accepted addresses in
    order, and the last denial. *)
Fixpoint authorize_addresses {C} (controller : Controller C) (st : C) (policy : NetworkPolicy)
    (request : NetworkAccessRequest) (mode : ResolvedAddressPolicy)
    (seen addresses : list SocketAddr) (denied : DenyReason) (resolved : list SocketAddr)
  : result ControlError (list SocketAddr * DenyReason) * C :=
  match resolved with
  | [] => (Ok (addresses, denied), st)
  | address :: rest =>
      if bool_decide (address ∈ seen)
      then authorize_addresses controller st policy request mode seen addresses denied rest
      else
        match authorize_address controller st policy request mode address with
        | (Ok _, st) =>
            authorize_addresses controller st policy request mode (address :: seen)
              (addresses ++ [address]) denied rest
        | (Err (Deny_ reason), st) =>
            authorize_addresses controller st policy request mode (address :: seen)
              addresses reason rest
        | (Err (ControllerPanic e), st) => (Err e, st)
        end
  end.

Definition authorize_resolved_target_with_policy {C} (controller : Controller C) (st : C)
    (policy : NetworkPolicy) (request : NetworkAccessRequest) (resolved : list SocketAddr)
    (mode : ResolvedAddressPolicy) : result TargetAuthorizationError AuthorizedTarget * C :=
  match authorize_addresses controller st policy request mode [] [] DenyResolvedAddressNotAllowed resolved with
  | (Err e, st) => (Err (TargetPanic e), st)
  | (Ok (addresses, denied), st) =>
      (if is_nil resolved then Err (TargetResolve DnsEmpty)
       else if is_nil addresses then Err (TargetDenied denied)
       else Ok (mkAuthorizedTarget (nreq_host request) addresses), st)
  end.

Definition authorize_target_with_policy {C} (lookup_host : string -> Z -> result ResolveError (list SocketAddr))
    (controller : Controller C) (st : C) (policy : NetworkPolicy) (request : NetworkAccessRequest)
    (mode : ResolvedAddressPolicy) : result TargetAuthorizationError AuthorizedTarget * C :=
  let request := set_resolved_ip None request in
  match policy_authorize controller st policy request with
  | (Err (Deny_ reason), st) => (Err (TargetDenied reason), st)
  | (Err (ControllerPanic e), st) => (Err (TargetPanic e), st)
  | (Ok _, st) =>
      match nreq_port request with
      | None => (Err (TargetResolve NoEffectivePort), st)
      | Some port =>
          match lookup_host (nreq_host request) port with
          | Err e => (Err (TargetResolve e), st)
          | Ok resolved => authorize_resolved_target_with_policy controller st policy request resolved mode
          end
      end
  end.

(** [authorize_target]: the proxy's own path accepts no aliases. *)
Definition authorize_target {C} lookup_host (controller : Controller C) st policy request :=
  authorize_target_with_policy lookup_host controller st policy request Strict.

(** ** Authorization *)

Lemma policy_controller_decides g req :
  exists reason, policy_controller (RequestNetwork g req) = ct_allowed reason
              \/ policy_controller (RequestNetwork g req) = ct_denied reason.
Proof.
  simpl. unfold authorize_network, evaluated. repeat case_match; eauto.
Qed.

(** The compiled policy always decides, without a panic. *)
Lemma preflight_eq p req :
  preflight p req
  = (let t := authorize_network (np_guard p) req in
     if ct_is_allowed t then Ok tt else Err (Deny_ (deny_reason_of (ct_reason t)))).
Proof.
  unfold preflight, authorize_egress, policy_control. cbv zeta. cbn [fst snd].
  destruct (policy_controller_decides (np_guard p) req) as [reason [H|H]]; simpl in H; simpl; by rewrite H.
Qed.

Lemma preflight_permits p req : preflight p req = Ok tt <-> network_permits (np_guard p) req.
Proof.
  rewrite preflight_eq. cbv zeta. rewrite <- authorize_network_allowed.
  by destruct (ct_is_allowed _).
Qed.

Lemma preflight_denied p req r :
  preflight p req = Err (Deny_ r) -> r <> DenyExplicitDeny ->
  forall rule, rule ∈ ng_deny_rules (np_guard p) -> covers req rule = false.
Proof.
  rewrite preflight_eq. cbv zeta. unfold authorize_network.
  destruct (guard_denied (np_guard p) req) eqn:Hd; simpl; [naive_solver|].
  intros _ _. by apply guard_denied_false.
Qed.

Lemma policy_authorize_Ok {C} (ctl : Controller C) st p req st' :
  policy_authorize ctl st p req = (Ok tt, st') -> preflight p req = Ok tt.
Proof. unfold policy_authorize. by destruct (preflight p req) as [[]|]. Qed.

Lemma policy_authorize_self p req : policy_authorize policy_control tt p req = (preflight p req, tt).
Proof.
  unfold policy_authorize. destruct (preflight p req) as [[]|] eqn:E; [|done].
  unfold preflight in E. by destruct (authorize_egress policy_control tt p req) as [? []]; simpl in E; subst.
Qed.

(** An injected controller can only narrow the compiled policy: whatever
    it is and whatever state it keeps, a request it lets through is permitted
    by the policy, a request the policy denies is refused for the policy's own
    reason without the controller being asked, and with the policy's own
    controller the verdict is the policy's. *)
Theorem controller_only_narrows {C} (ctl : Controller C) st p req :
  (fst (policy_authorize ctl st p req) = Ok tt ->
     network_permits (np_guard p) req /\ ct_is_allowed (fst (ctl st (RequestNetwork (np_guard p) req))) = true)
  /\ (~ network_permits (np_guard p) req ->
      exists r, policy_authorize ctl st p req = (Err (Deny_ r), st) /\ preflight p req = Err (Deny_ r))
  /\ policy_authorize policy_control tt p req = (preflight p req, tt).
Proof.
  unfold policy_authorize. rewrite <- preflight_permits. split; [|split].
  - destruct (preflight p req) as [[]|]; [|done]. unfold authorize_egress. simpl.
    destruct (machine_authorize _ _ _) as [[t m]|] eqn:E; [|done].
    apply machine_authorize_Ok in E as (_ & -> & _). by destruct (ct_is_allowed _).
  - rewrite preflight_eq. cbv zeta. destruct (ct_is_allowed _); [done|]. eauto.
  - apply policy_authorize_self.
Qed.

(** ** Configurations *)

Definition declared_rules (network : NetworkConfig) : list NetworkAccessRule :=
  nc_rules network ++ map host_entry (nc_allowed_hosts network).

(** What a configuration means, independent of the capability it is lowered
    to. *)
Definition config_permits (network : NetworkConfig) (req : NetworkAccessRequest) : Prop :=
  nc_mode network <> NoNetwork
  /\ (forall d r, d ∈ nc_deny_rules network -> compile_network_rule d = Ok r -> covers req r = false)
  /\ (nc_mode network = Allowlist ->
      exists d r, d ∈ declared_rules network /\ compile_network_rule d = Ok r /\ grants req r = true).

Lemma policy_compile_Ok network p :
  policy_compile network = Ok p ->
  (nc_mode network = Allowlist \/ (nc_allowed_hosts network = [] /\ nc_rules network = []))
  /\ guard_compile (network_capability network) [] = Ok (np_guard p)
  /\ collect_results compile_limit (nc_limits network) = Ok (np_limits p)
  /\ np_mode p = nc_mode network.
Proof.
  unfold policy_compile. case_match eqn:Hm; [|done]. intros H. inv_result.
  unfold map_err in *. case_match; simplify_eq. split; [|done].
  apply orb_true_iff in Hm as [Hm|Hm]; guards; [by left|].
  right. by destruct (nc_allowed_hosts network), (nc_rules network).
Qed.

Lemma declared_allow_capability network d :
  nc_mode network = Allowlist -> d ∈ declared_allow (network_capability network) <-> d ∈ declared_rules network.
Proof.
  unfold network_capability, declared_rules. intros ->. case_match; simpl; [|done]. set_solver.
Qed.

Lemma declared_deny_capability network :
  nc_mode network <> NoNetwork -> declared_deny (network_capability network) = nc_deny_rules network.
Proof.
  unfold network_capability. intros H.
  destruct (nc_mode network); try done; destruct (nc_deny_rules network); try done;
    destruct (nc_limits network); done.
Qed.

Lemma network_capability_default network :
  default_deny (network_capability network) = bool_decide (nc_mode network = Allowlist)
  /\ default_allow (network_capability network) = bool_decide (nc_mode network = Public).
Proof.
  unfold network_capability. destruct (nc_mode network); simpl; [|done|]; by destruct (_ && _).
Qed.

Lemma compiled_permits network p req :
  policy_compile network = Ok p -> network_permits (np_guard p) req <-> config_permits network req.
Proof.
  intros (_ & Hg & _ & _)%policy_compile_Ok.
  apply guard_compile_Ok in Hg as (rules & deny & Hrules & Hdeny & ->).
  unfold network_permits, config_permits. simpl.
  destruct (network_capability_default network) as [-> ->].
  rewrite !bool_decide_eq_true.
  destruct (decide (nc_mode network = NoNetwork)) as [Hno|Hno].
  { rewrite Hno. split; [intros [_ [H|[H|[H _]]]]; [by apply elem_of_nil in H|done..]|naive_solver]. }
  rewrite declared_deny_capability in Hdeny by done.
  assert ((forall r, r ∈ deny -> covers req r = false)
          <-> (forall d r, d ∈ nc_deny_rules network -> compile_network_rule d = Ok r -> covers req r = false))
    as <-.
  { pose proof (collect_results_exists _ _ _ (fun r => covers req r = true) Hdeny) as He. split.
    - intros H d r Hd Hr. destruct (covers req r) eqn:E; [|done].
      destruct (proj2 He) as (r' & Hr' & E'); [by eauto|]. by rewrite H in E'.
    - intros H r Hr. destruct (covers req r) eqn:E; [|done].
      destruct (proj1 He) as (d & r' & Hd & Hc & E'); [by eauto|]. by rewrite (H d r') in E'. }
  pose proof (collect_results_exists _ _ _ (fun r => grants req r = true) Hrules) as Hgr.
  destruct (nc_mode network) eqn:Hm; [|done|].
  - intuition done.
  - setoid_rewrite (declared_allow_capability network _ Hm) in Hgr. rewrite <- Hgr.
    split; [|naive_solver]. intros [? [Ht|[?|[_ ?]]]]; [by apply elem_of_nil in Ht|done|done].
Qed.

(** A compiled configuration decides by its mode, its entries and its deny
    rules alone: no-network permits nothing, public permits what no deny rule
    covers, allowlist requires a declared entry or rule on top.  Adding
    bandwidth limits or deny rules changes the capability it is lowered to
    but not the meaning of the other entries. *)
Theorem config_decision network p req :
  policy_compile network = Ok p -> preflight p req = Ok tt <-> config_permits network req.
Proof. intros H. rewrite preflight_permits. by apply compiled_permits. Qed.

(** ** Resolved targets *)

(** Why the data plane may connect to an address: the policy permits the
    request at that address; or, where aliases are accepted, the address is an
    opaque alias of a host name, the policy permits the name, and no deny rule
    covers the request at that address. *)
Definition address_permitted (p : NetworkPolicy) (req : NetworkAccessRequest)
    (mode : ResolvedAddressPolicy) (ip : IpAddr) : Prop :=
  network_permits (np_guard p) (set_resolved_ip (Some ip) req)
  \/ (mode = HostConnectorAliases
      /\ is_host_connector_alias (nreq_host req) ip = true
      /\ network_permits (np_guard p) (set_resolved_ip None req)
      /\ forall r, r ∈ ng_deny_rules (np_guard p) -> covers (set_resolved_ip (Some ip) req) r = false).

Lemma authorize_address_sound {C} (ctl : Controller C) st p req mode a st' :
  authorize_address ctl st p req mode a = (Ok tt, st') -> address_permitted p req mode (sa_ip a).
Proof.
  unfold authorize_address, address_permitted. cbv zeta.
  destruct (policy_authorize ctl st p _) as [[[]|[reason|e]] st1] eqn:E1; [|case_match eqn:Hg|]; intros H;
    simplify_eq.
  - left. by apply preflight_permits, (policy_authorize_Ok _ _ _ _ _ E1).
  - destruct (preflight p (set_resolved_ip (Some (sa_ip a)) req)) as [[]|stop] eqn:Hp.
    { left. by apply preflight_permits. }
    right. unfold policy_authorize in E1. rewrite Hp in E1. simplify_eq. guards. subst.
    split; [by destruct mode|]. split; [done|]. split.
    + by apply preflight_permits, (policy_authorize_Ok _ _ _ _ _ H).
    + by eapply preflight_denied.
Qed.

Lemma authorize_addresses_sound {C} (ctl : Controller C) p req mode resolved st seen acc denied addrs denied' st' :
  authorize_addresses ctl st p req mode seen acc denied resolved = (Ok (addrs, denied'), st') ->
  acc ⊆ seen ->
  exists new, addrs = acc ++ new /\ new `sublist_of` resolved /\ NoDup new
    /\ (forall a, a ∈ new -> a ∉ seen) /\ (forall a, a ∈ new -> address_permitted p req mode (sa_ip a)).
Proof.
  revert st seen acc denied. induction resolved as [|a rest IH]; intros st seen acc denied H Hsub; simpl in H.
  { simplify_eq. exists []. rewrite app_nil_r. split_and!; [done|constructor|constructor|set_solver..]. }
  case_bool_decide as Hseen.
  { destruct (IH _ _ _ _ H Hsub) as (new & ? & ? & ? & ? & ?). exists new.
    split_and!; try done. by constructor. }
  destruct (authorize_address ctl st p req mode a) as [[[]|[reason|e]] st1] eqn:E; [| |done].
  - apply IH in H as (new & -> & Hsubl & Hnd & Hnew & Hperm); [|set_solver].
    exists (a :: new). split_and!.
    + by rewrite <- app_assoc.
    + by constructor.
    + constructor; [|done]. intros Ha. apply (Hnew a Ha). set_solver.
    + intros b [->|Hb]%elem_of_cons; [done|]. specialize (Hnew b Hb). set_solver.
    + intros b [->|Hb]%elem_of_cons; [by eapply authorize_address_sound|by apply Hperm].
  - apply IH in H as (new & -> & Hsubl & Hnd & Hnew & Hperm); [|set_solver].
    exists new. split_and!; try done; [by constructor|]. intros b Hb. specialize (Hnew b Hb). set_solver.
Qed.

Lemma authorize_target_Ok {C} lookup (ctl : Controller C) st p req mode target st' :
  authorize_target_with_policy lookup ctl st p req mode = (Ok target, st') ->
  exists port resolved,
    nreq_port req = Some port /\ lookup (nreq_host req) port = Ok resolved
    /\ network_permits (np_guard p) (set_resolved_ip None req)
    /\ at_host target = nreq_host req /\ at_addresses target <> []
    /\ at_addresses target `sublist_of` resolved /\ NoDup (at_addresses target)
    /\ forall a, a ∈ at_addresses target -> address_permitted p req mode (sa_ip a).
Proof.
  unfold authorize_target_with_policy. cbv zeta. set (logical := set_resolved_ip None req).
  destruct (policy_authorize ctl st p logical) as [[[]|[|]] st1] eqn:E; [|done..].
  change (nreq_port logical) with (nreq_port req). change (nreq_host logical) with (nreq_host req).
  destruct (nreq_port req) as [port|]; [|done].
  destruct (lookup (nreq_host req) port) as [resolved|] eqn:El; [|done].
  unfold authorize_resolved_target_with_policy.
  destruct (authorize_addresses ctl st1 p logical mode [] [] _ resolved) as [[[addrs denied]|] st2] eqn:Ea; [|done].
  apply authorize_addresses_sound in Ea as (new & -> & Hsub & Hnd & _ & Hperm); [|done].
  destruct (is_nil resolved) eqn:Hr; [done|]. destruct (is_nil ([] ++ new)) eqn:Hn; [done|]. simpl in *.
  intros; simplify_eq. exists port, resolved. simpl. split_and!; try done.
  - by apply preflight_permits, (policy_authorize_Ok _ _ _ _ _ E).
  - by destruct new.
Qed.

(** C36: the connector only ever gets addresses that were authorized one by
    one.  For any DNS answer and any injected controller, a successful target
    keeps the requested host, its addresses are resolved ones, in order and
    without repetition, the name itself was permitted, and each address is
    permitted on its own (or is an accepted connector alias of a permitted
    host name that no deny rule covers). *)
Theorem resolved_target_sound {C} lookup (ctl : Controller C) st p req mode target st' :
  authorize_target_with_policy lookup ctl st p req mode = (Ok target, st') ->
  exists port resolved,
    nreq_port req = Some port /\ lookup (nreq_host req) port = Ok resolved
    /\ network_permits (np_guard p) (set_resolved_ip None req)
    /\ at_host target = nreq_host req /\ at_addresses target <> []
    /\ at_addresses target `sublist_of` resolved /\ NoDup (at_addresses target)
    /\ forall a, a ∈ at_addresses target -> address_permitted p req mode (sa_ip a).
Proof. apply authorize_target_Ok. Qed.

(** End to end, an allowlist of host names never leads to a private
    address: if no declared entry is an IP or a CIDR and none opts in to
    private addresses, then whatever DNS answers and whatever the controller
    says, every address the strict path hands to the connector is public. *)
Theorem allowlist_targets_public {C} lookup (ctl : Controller C) network p st req target st' :
  policy_compile network = Ok p ->
  nc_mode network = Allowlist ->
  (forall d, d ∈ declared_rules network ->
     nar_allow_private_ips d = false
     /\ match parse_network_host_rule (nar_host d) with
        | Ok (RuleExact _) | Ok (RuleWildcardSuffix _) => True
        | _ => False
        end) ->
  authorize_target lookup ctl st p req = (Ok target, st') ->
  forall a, a ∈ at_addresses target -> is_public_egress_ip (sa_ip a) = true.
Proof.
  intros Hp Hm Hnames (port & resolved & _ & _ & _ & _ & _ & _ & _ & Hperm)%authorize_target_Ok a Ha.
  destruct (Hperm a Ha) as [H|[? _]]; [|done].
  apply (compiled_permits _ _ _ Hp) in H as (_ & _ & H). destruct (H Hm) as (d & r & Hd & Hc & Hg).
  destruct (grants_address d r (set_resolved_ip (Some (sa_ip a)) req) (sa_ip a) Hc eq_refl Hg) as [?|Haddr]; [done|].
  destruct (Hnames d Hd) as [Hpriv Hshape].
  destruct Haddr as [E|[(n & E & _)|[E _]]]; [by rewrite E in Hshape..|congruence].
Qed.

(** ** Nothing permitted is dropped *)

Lemma authorize_address_policy p req mode a :
  exists r, authorize_address policy_control tt p req mode a = (r, tt)
    /\ (forall e, r <> Err (ControllerPanic e))
    /\ (network_permits (np_guard p) (set_resolved_ip (Some (sa_ip a)) req) -> r = Ok tt).
Proof.
  assert (forall rq e, preflight p rq <> Err (ControllerPanic e)) as Hnp.
  { intros rq e. rewrite preflight_eq. cbv zeta. by case_match. }
  unfold authorize_address. cbv zeta. rewrite policy_authorize_self.
  pose proof (preflight_permits p (set_resolved_ip (Some (sa_ip a)) req)) as Hpp.
  specialize (Hnp (set_resolved_ip (Some (sa_ip a)) req)) as Hnp1.
  destruct (preflight p _) as [[]|[reason|e]] eqn:E; [by eauto| |by destruct (Hnp1 e)].
  assert (~ network_permits (np_guard p) (set_resolved_ip (Some (sa_ip a)) req)) as Hno
    by (intros H%Hpp; done).
  case_match; [by exists (Err (Deny_ reason))|]. rewrite policy_authorize_self.
  eexists. split; [done|]. split; [apply Hnp|done].
Qed.

Lemma authorize_addresses_policy p req mode resolved seen acc denied :
  exists addrs denied',
    authorize_addresses policy_control tt p req mode seen acc denied resolved = (Ok (addrs, denied'), tt)
    /\ acc ⊆ addrs
    /\ forall a, a ∈ resolved -> a ∉ seen \/ a ∈ acc ->
         network_permits (np_guard p) (set_resolved_ip (Some (sa_ip a)) req) -> a ∈ addrs.
Proof.
  revert seen acc denied. induction resolved as [|a rest IH]; intros seen acc denied; simpl.
  { exists acc, denied. set_solver. }
  case_bool_decide as Hseen.
  { destruct (IH seen acc denied) as (addrs & d' & -> & Hacc & Hall). exists addrs, d'.
    split_and!; [done|done|]. intros b [->|Hb]%elem_of_cons Hor Hp; [|by apply Hall].
    destruct Hor; [done|by apply Hacc]. }
  destruct (authorize_address_policy p req mode a) as (r & -> & Hnp & Hok).
  destruct r as [[]|[reason|e]]; [| |by destruct (Hnp e)].
  - destruct (IH (a :: seen) (acc ++ [a]) denied) as (addrs & d' & -> & Hacc & Hall). exists addrs, d'.
    split_and!; [done|set_solver|]. intros b [->|Hb]%elem_of_cons Hor Hp; [set_solver|].
    destruct (decide (b = a)) as [->|]; [set_solver|]. apply Hall; [done|set_solver|done].
  - destruct (IH (a :: seen) acc reason) as (addrs & d' & -> & Hacc & Hall). exists addrs, d'.
    split_and!; [done|done|]. intros b [->|Hb]%elem_of_cons Hor Hp; [by specialize (Hok Hp)|].
    destruct (decide (b = a)) as [->|]; [by specialize (Hok Hp)|]. apply Hall; [done|set_solver|done].
Qed.

(** Nothing permitted is dropped: with the policy's own controller, when
    the name is permitted and DNS answers with an address the policy permits,
    authorization succeeds and the connector gets that address. *)
Theorem resolver_keeps_permitted lookup p req mode port resolved a :
  nreq_port req = Some port -> lookup (nreq_host req) port = Ok resolved ->
  network_permits (np_guard p) (set_resolved_ip None req) ->
  a ∈ resolved -> network_permits (np_guard p) (set_resolved_ip (Some (sa_ip a)) req) ->
  exists target, authorize_target_with_policy lookup policy_control tt p req mode = (Ok target, tt)
    /\ a ∈ at_addresses target.
Proof.
  intros Hport Hl Hname Ha Hp. unfold authorize_target_with_policy. cbv zeta.
  rewrite policy_authorize_self, (proj2 (preflight_permits p _) Hname).
  change (nreq_port (set_resolved_ip None req)) with (nreq_port req).
  change (nreq_host (set_resolved_ip None req)) with (nreq_host req). rewrite Hport, Hl.
  unfold authorize_resolved_target_with_policy.
  destruct (authorize_addresses_policy p (set_resolved_ip None req) mode resolved [] [] DenyResolvedAddressNotAllowed)
    as (addrs & d' & -> & _ & Hall).
  assert (a ∈ addrs) as Hin by (apply Hall; [done|left; apply not_elem_of_nil|done]).
  destruct resolved as [|x resolved]; [by apply elem_of_nil in Ha|].
  destruct addrs as [|y addrs]; [by apply elem_of_nil in Hin|]. eexists. split; [done|done].
Qed.

(** ** Bandwidth limits *)

Lemma trim_front_head w2 w3 s :
  head_not ws1 s -> (forall a r, s = String a r -> forall b, w2 a b = false) ->
  (forall a r, s = String a r -> forall b c, w3 a b c = false) -> trim_front w2 w3 s = s.
Proof.
  destruct s as [|a s]; [done|]. simpl. intros -> H2 H3.
  destruct s as [|b s]; [done|]. rewrite (H2 a _ eq_refl). destruct s as [|c s]; [done|].
  by rewrite (H3 a _ eq_refl).
Qed.

Lemma ip_char_ascii c : ip_char c = true ->
  ws1 c = false /\ (byte_is 91 c || byte_is 93 c) = false /\ ascii_lower c = c
  /\ (forall b, ws2 c b = false) /\ (forall b, ws2 b c = false)
  /\ (forall a b, ws3 c a b = false) /\ (forall a b, ws3 a b c = false).
Proof.
  assert (forall c, ip_char c = true -> ws1 c = false /\ (byte_is 91 c || byte_is 93 c) = false /\ ascii_lower c = c
            /\ byte_in 128 255 c = false) as H
    by (intros [[] [] [] [] [] [] [] []]; vm_compute; intros; try discriminate; auto).
  intros Hc. destruct (H c Hc) as (H1 & H2 & H3 & H4). clear H.
  assert (Ascii.N_of_ascii c < 128)%N as Hlt.
  { unfold byte_in in H4. pose proof (Ascii.N_ascii_bounded c).
    apply andb_false_iff in H4 as [?%N.leb_gt|?%N.leb_gt]; lia. }
  assert (forall k, (128 <= k)%N -> byte_is k c = false) as His
    by (intros k Hk; apply N.eqb_neq; lia).
  assert (forall lo hi, (128 <= lo)%N -> byte_in lo hi c = false) as Hin
    by (intros lo hi Hk; unfold byte_in; rewrite (proj2 (N.leb_gt _ _)); [done|lia]).
  split_and!; try done; intros; unfold ws2, ws3; rewrite ?(His 194%N), ?(His 133%N), ?(His 160%N), ?(His 225%N),
    ?(His 226%N), ?(His 227%N), ?(His 128%N), ?(His 168%N), ?(His 169%N), ?(His 175%N), ?(His 159%N), ?Hin by lia;
    simpl; by rewrite ?andb_false_r.
Qed.

Lemma str_rev_snoc q c : String.rev (q +:+ String c "") = String c (String.rev q).
Proof. by rewrite str_rev_app. Qed.

Lemma ip_text_ends s :
  ip_text s -> exists a r q c, s = String a r /\ ip_char a = true
    /\ String.rev s = String c (String.rev q) /\ ip_char c = true /\ byte_is 46 c = false.
Proof.
  intros [Hall (q & c & E & Hc)].
  assert (String.rev s = String c (String.rev q)) as Hrev by (rewrite E; apply str_rev_snoc).
  assert (ip_char c = true) as Hcc
    by (rewrite E, str_forall_app in Hall; simpl in Hall; by guards).
  destruct s as [|a r]; [by destruct q|]. simpl in Hall. apply andb_true_iff in Hall as [Ha _].
  by exists a, r, q, c.
Qed.

Lemma str_map_id f s p :
  str_forall p s = true -> (forall c, p c = true -> f c = c) -> str_map f s = s.
Proof. intros Hs Hf. induction s as [|c s IH]; [done|]. simpl in *. guards. by rewrite Hf, IH. Qed.

(** A printed address is a normalized host. *)
Lemma normalize_ip ip : ip_wf ip -> normalize_host (ip_to_string ip) = ip_to_string ip.
Proof.
  intros Ht%ip_to_string_text. pose proof Ht as [Hall _].
  destruct (ip_text_ends _ Ht) as (a & r & q & c & Hs & Ha & Hr & Hc & Hdot).
  set (s := ip_to_string ip) in *. clearbody s.
  destruct (ip_char_ascii a Ha) as (A1 & A2 & _ & A3 & _ & A4 & _).
  destruct (ip_char_ascii c Hc) as (C1 & C2 & _ & _ & C3 & _ & C4).
  assert (str_trim s = s) as E1.
  { unfold str_trim, str_trim_start, str_trim_end.
    rewrite (trim_front_head ws2 ws3 s), trim_front_head, str_rev_involutive; try done;
      rewrite ?Hr, ?Hs; simpl; try done; intros; by simplify_eq. }
  assert (trim_matches (fun c => byte_is 91 c || byte_is 93 c) s = s) as E2.
  { unfold trim_matches, trim_end_matches.
    assert (trim_start_matches (fun c => byte_is 91 c || byte_is 93 c) s = s) as ->
      by (rewrite Hs; simpl; by rewrite A2).
    assert (trim_start_matches (fun c => byte_is 91 c || byte_is 93 c) (String.rev s) = String.rev s) as ->
      by (rewrite Hr; simpl; by rewrite C2).
    apply str_rev_involutive. }
  assert (to_ascii_lowercase s = s) as E3.
  { eapply str_map_id; [done|]. intros x Hx. by apply ip_char_ascii. }
  unfold normalize_host. rewrite E1, E2, E3. unfold trim_end_matches.
  assert (trim_start_matches (byte_is 46) (String.rev s) = String.rev s) as ->
    by (rewrite Hr; simpl; by rewrite Hdot).
  apply str_rev_involutive.
Qed.

(** How a limit's host entry covers an address. *)
Definition rule_covers_address (r : Rule) (ip : IpAddr) : bool :=
  match nr_host r with
  | RuleIp limited => bool_decide (limited = ip)
  | RuleCidr network => ipnet_contains network ip
  | RuleExact host => bool_decide (host = ip_to_string ip)
  | RuleWildcardSuffix _ => matches_host r (ip_to_string ip) None
  end.

Lemma host_matches_address r ip :
  ip_wf ip -> ip_from_str (ip_to_string ip) = Some ip ->
  host_matches (ip_to_string ip) [r] = rule_covers_address r ip.
Proof.
  intros Hwf Hrt. unfold host_matches, rule_covers_address. simpl. rewrite orb_false_r.
  unfold matches_host. rewrite normalize_ip, Hrt by done.
  destruct (nr_host r); try done; rewrite ?orb_false_r; apply bool_decide_ext; naive_solver.
Qed.

Lemma compile_limit_Ok config c :
  compile_limit config = Ok c <->
  (0 < nbl_bytes_per_second config)%Z /\ nbl_port config <> Some 0%Z /\ cbl_config c = config
  /\ match nbl_host config with
     | None => cbl_matcher c = None
     | Some raw => exists r, parse_network_rule raw = Ok r /\ cbl_matcher c = Some r
     end.
Proof.
  destruct c as [m cfg]. unfold compile_limit. simpl.
  destruct (Z.ltb_spec 0 (nbl_bytes_per_second config)); [|split; [done|lia]].
  case_bool_decide; simpl; [naive_solver|].
  destruct (nbl_host config) as [raw|]; simpl; [|naive_solver].
  unfold map_err. destruct (parse_network_rule raw); simpl; naive_solver.
Qed.

Lemma limit_applies_spec host port resolved c :
  (forall a, a ∈ resolved -> ip_wf (sa_ip a)) ->
  limit_applies host port resolved c = true <->
  (nbl_port (cbl_config c) = None \/ nbl_port (cbl_config c) = port)
  /\ (cbl_matcher c = None
      \/ exists r, cbl_matcher c = Some r
         /\ (matches_host r host None = true
             \/ exists a, a ∈ resolved /\ rule_covers_address r (sa_ip a) = true)).
Proof.
  intros Hwf. unfold limit_applies. rewrite andb_true_iff. apply Morphisms_Prop.and_iff_morphism.
  { destruct (nbl_port (cbl_config c)); [rewrite bool_decide_eq_true|]; naive_solver. }
  destruct (cbl_matcher c) as [m|]; [|naive_solver].
  rewrite orb_true_iff, existsb_elem. unfold host_matches at 1. simpl. rewrite orb_false_r.
  assert ((exists x, x ∈ resolved /\ host_matches (ip_to_string (sa_ip x)) [m] = true)
          <-> exists a, a ∈ resolved /\ rule_covers_address m (sa_ip a) = true) as ->; [|naive_solver].
  split; intros (x & Hx & Hm); exists x; (split; [done|]);
    specialize (Hwf x Hx); pose proof (ip_roundtrip _ Hwf).
  - by rewrite host_matches_address in Hm.
  - by rewrite host_matches_address.
Qed.

(** The limits of a connection: exactly the configured limits whose port
    is absent or the connection's and whose host is absent, or covers the
    requested host, or covers a resolved address; an IP or CIDR limit is
    compared with the resolved addresses as addresses, so a name cannot
    bypass it. *)
Theorem matching_limits_spec network p host port resolved limit :
  policy_compile network = Ok p ->
  (forall a, a ∈ resolved -> ip_wf (sa_ip a)) ->
  limit ∈ matching_limits p host port resolved <->
  limit ∈ nc_limits network
  /\ (nbl_port limit = None \/ nbl_port limit = port)
  /\ (nbl_host limit = None
      \/ exists raw r, nbl_host limit = Some raw /\ parse_network_rule raw = Ok r
         /\ (matches_host r host None = true
             \/ exists a, a ∈ resolved /\ rule_covers_address r (sa_ip a) = true)).
Proof.
  intros (_ & _ & Hl & _)%policy_compile_Ok Hwf.
  unfold matching_limits. rewrite list_elem_of_In, in_map_iff. setoid_rewrite filter_In.
  setoid_rewrite <- list_elem_of_In. setoid_rewrite (limit_applies_spec _ _ _ _ Hwf). split.
  - intros (c & <- & Hc & Hp & Hm).
    destruct (collect_results_elem _ _ _ _ Hl Hc) as (cfg & Hcfg & Hcc).
    apply compile_limit_Ok in Hcc as (_ & _ & Hcfg' & Hmm). rewrite Hcfg' in *. split; [done|]. split; [done|].
    destruct (nbl_host cfg) as [raw|]; [|by left]. destruct Hmm as (r & Hr & Hc').
    right. exists raw, r. rewrite Hc' in Hm. by destruct Hm as [?|(r' & [= <-] & Hm)].
  - intros (Hin & Hp & Hh). destruct (collect_results_elem_l _ _ _ _ Hl Hin) as (c & Hc & Hcc).
    apply compile_limit_Ok in Hcc as (_ & _ & Hcfg & Hmm). exists c. rewrite Hcfg.
    split_and!; [done|done|done|]. destruct (nbl_host limit) as [raw|]; [|by left].
    destruct Hmm as (r & Hr & Hc'). right. exists r. split; [done|].
    destruct Hh as [?|(raw' & r' & [= <-] & Hr' & Hm)]; [done|]. rewrite Hr in Hr'. by injection Hr' as <-.
Qed.

(** ** Authorities *)

Lemma rsplit_once_snoc k (h p : string) c :
  byte_is k c = true -> str_contains_char k p = false -> str_rsplit_once k (h +:+ String c p) = Some (h, p).
Proof.
  intros Hc Hp. unfold str_contains_char in Hp. apply negb_false_iff in Hp.
  assert (str_rsplit_once k p = None) as Hnone.
  { induction p as [|x p IH]; [done|]. simpl in *. guards. by rewrite IH, H. }
  induction h as [|x h IH].
  - change ("" +:+ String c p) with (String c p). simpl. by rewrite Hnone, Hc.
  - rewrite str_app_cons. simpl. by rewrite IH.
Qed.

(** Reading the host of an authority: text before the last colon when
    only digits follow it.  So [host:port] gives the host, and an IPv6 address
    without brackets whose last group is written in digits loses that group. *)
Theorem host_from_authority_splits host port :
  str_trim (host +:+ ":" +:+ port) = host +:+ ":" +:+ port ->
  host <> "" -> str_starts_with "[" host = false -> all_digits port = true ->
  host_from_authority (host +:+ ":" +:+ port) = normalize_host host.
Proof.
  intros Ht Hne Hb Hd. unfold host_from_authority. rewrite Ht. cbv zeta.
  assert (str_strip_prefix "[" (host +:+ ":" +:+ port) = None) as ->.
  { apply strip_prefix_None. rewrite starts_with_app by done. done. }
  change (host +:+ ":" +:+ port) with (host +:+ String ":"%char port).
  rewrite rsplit_once_snoc; [|done|].
  - rewrite bool_decide_false by done. simpl. by rewrite Hd.
  - unfold str_contains_char. apply negb_false_iff. eapply str_forall_impl; [|done].
    intros c Hc. by destruct c as [[] [] [] [] [] [] [] []].
Qed.
End Egress.

Module EgressExample.
#[local] Existing Instance block_ipnet.

Definition api_limit : NetworkBandwidthLimit := mkNetworkBandwidthLimit (Some "93.184.216.34") (Some 443%Z) 1000.

Definition network : NetworkConfig :=
  mkNetworkConfig Allowlist ["*.example.com"] [] [] [api_limit].

Definition policy : NetworkPolicy (IpNet := IpAddr * Z) :=
  match policy_compile network with
  | Ok p => p
  | Err _ => mkNetworkPolicy NoNetwork (mkNetworkGuard Deny [] [] []) []
  end.

Definition request (host : string) : NetworkAccessRequest :=
  mkNetworkAccessRequest None None None host (Some 443%Z) Https None.

Definition public_addr : SocketAddr := mkSocketAddr (V4 93 184 216 34) 443 0 0.
Definition private_addr : SocketAddr := mkSocketAddr (V4 192 168 1 1) 443 0 0.

(** A resolver that mixes in a private address and repeats itself. *)
Definition lookup (host : string) (port : Z) : result ResolveError (list SocketAddr) :=
  Ok [public_addr; private_addr; public_addr].

Lemma policy_compiles : policy_compile network = Ok policy.
Proof. vm_compute. reflexivity. Qed.

Lemma target_authorized :
  authorize_target lookup policy_control tt policy (request "a.example.com")
  = (Ok (mkAuthorizedTarget "a.example.com" [public_addr]), tt).
Proof. vm_compute. reflexivity. Qed.

Lemma config_decision_witness :
  preflight policy (request "a.example.com") = Ok tt
  /\ (preflight policy (request "a.example.com") = Ok tt <-> config_permits network (request "a.example.com")).
Proof.
  split; [vm_compute; reflexivity|]. exact (config_decision network policy _ policy_compiles).
Defined.

Lemma resolved_target_sound_witness :
  exists port resolved,
    nreq_port (request "a.example.com") = Some port /\ lookup "a.example.com" port = Ok resolved
    /\ network_permits (np_guard policy) (set_resolved_ip None (request "a.example.com"))
    /\ "a.example.com" = nreq_host (request "a.example.com") /\ [public_addr] <> []
    /\ [public_addr] `sublist_of` resolved /\ NoDup [public_addr]
    /\ forall a, a ∈ [public_addr] -> address_permitted policy (request "a.example.com") Strict (sa_ip a).
Proof.
  exact (resolved_target_sound lookup policy_control tt policy (request "a.example.com") Strict _ tt target_authorized).
Defined.

Lemma allowlist_targets_public_witness : is_public_egress_ip (sa_ip public_addr) = true.
Proof.
  refine (allowlist_targets_public lookup policy_control network policy tt (request "a.example.com") _ tt
           policy_compiles eq_refl _ target_authorized public_addr _); [|left].
  intros d Hd. unfold declared_rules in Hd. simpl in Hd.
  apply list_elem_of_singleton in Hd as ->. split; [reflexivity|]. vm_compute. exact I.
Defined.

Lemma resolver_keeps_permitted_witness :
  exists target,
    authorize_target_with_policy lookup policy_control tt policy (request "a.example.com") Strict = (Ok target, tt)
    /\ public_addr ∈ at_addresses target.
Proof.
  assert (forall req, preflight policy req = Ok tt -> network_permits (np_guard policy) req) as H
    by (intros req Hreq; by apply preflight_permits).
  apply (resolver_keeps_permitted lookup policy (request "a.example.com") Strict 443
           [public_addr; private_addr; public_addr] public_addr eq_refl eq_refl).
  - apply H. vm_compute. reflexivity.
  - apply elem_of_cons. by left.
  - apply H. vm_compute. reflexivity.
Defined.

Lemma matching_limits_spec_witness :
  matching_limits policy "a.example.com" (Some 443%Z) [public_addr] = [api_limit]
  /\ (api_limit ∈ matching_limits policy "a.example.com" (Some 443%Z) [public_addr] <->
      api_limit ∈ nc_limits network
      /\ (nbl_port api_limit = None \/ nbl_port api_limit = Some 443%Z)
      /\ (nbl_host api_limit = None
          \/ exists raw r, nbl_host api_limit = Some raw /\ parse_network_rule raw = Ok r
             /\ (matches_host r "a.example.com" None = true
                 \/ exists a, a ∈ [public_addr] /\ rule_covers_address r (sa_ip a) = true))).
Proof.
  split; [vm_compute; reflexivity|].
  apply (matching_limits_spec network policy "a.example.com" (Some 443%Z) [public_addr] api_limit policy_compiles).
  intros a Ha. apply list_elem_of_singleton in Ha as ->. repeat constructor; discriminate.
Defined.

(** An authority parser that splits off the port. *)
Definition split_port (authority : string) : option string :=
  option_map fst (str_rsplit_once 58 authority).

(** The host a CONNECT request to an IPv6 literal is authorized for loses its
    last group when that group is written in digits: the brackets are removed
    and the rest is read as an authority again. *)
Lemma connect_ipv6_host_truncated :
  parse_connect_target split_port "[2001:db8::1]:443"
  = Ok (mkConnectTarget "2001:db8::1" 443 "[2001:db8::1]:443")
  /\ connect_host split_port "[2001:db8::1]:443" = Ok ("2001:db8:", 443%Z)
  /\ connect_host split_port "[2001:db8::a]:443" = Ok ("2001:db8::a", 443%Z).
Proof. repeat split; vm_compute; reflexivity. Qed.

Lemma host_from_authority_splits_witness :
  host_from_authority ("api.example.com" +:+ ":" +:+ "8443") = normalize_host "api.example.com".
Proof.
  apply host_from_authority_splits; [vm_compute; reflexivity|discriminate|reflexivity|reflexivity].
Defined.
End EgressExample.
