(* ===== verification/Bandwidth.v ===== *)
(** * OverlayNet: aggregate bandwidth scheduling

    Models [persisting-overlaynet/src/bandwidth.rs]: buckets that hand out
    consecutive time slots, the registry that shares one bucket per limit
    between sessions, and the throttle of a session over all its buckets.

    Instants are nanoseconds since some origin; [instant_max] is the largest
    one the platform represents, beyond which [Instant + Duration] panics
    ([None]).  Every [Instant::now()] is an argument.  A bucket is shared
    behind an [Arc], so the buckets live in a store and a session holds
    indices. *)

From Stdlib Require Import ZArith Lia Sorted.
From stdpp Require Import base list strings gmap numbers option.
From S2P Require Import Prelude RuntimeTypes IpAddr AgentControl OverlayNet.

#[local] Set Warnings "-clear-no-such-hyp".
#[local] Open Scope Z_scope.

Definition u128_saturating_mul (a b : Z) : Z := Z.min (a * b) u128_max.
Definition div_ceil (a b : Z) : Z := if a mod b =? 0 then a / b else a / b + 1.

Record BandwidthBucket := mkBandwidthBucket {
  bb_bytes_per_second : Z;
  bb_next_available : Z;
}.

(** [BandwidthBucket::new]. *)
Definition bucket_new (bytes_per_second now : Z) : BandwidthBucket := mkBandwidthBucket bytes_per_second now.

(** The time [bytes] take at the bucket's rate, in nanoseconds. *)
Definition reserve_nanos (rate bytes : Z) : Z :=
  Z.min (div_ceil (u128_saturating_mul bytes 1000000000) rate) u64_max.

Section Buckets.
Context (instant_max : Z).

(** [Instant + Duration] and [div_ceil] by zero panic. *)
Definition instant_add (t d : Z) : option Z := if t + d <=? instant_max then Some (t + d) else None.

(** [BandwidthBucket::reserve], with the instant read before the lock. *)
Definition reserve (b : BandwidthBucket) (now bytes : Z) : option (Z * BandwidthBucket) :=
  if bb_bytes_per_second b =? 0 then None
  else
    let starts_at := Z.max (bb_next_available b) now in
    match instant_add starts_at (reserve_nanos (bb_bytes_per_second b) bytes) with
    | None => None
    | Some ready_at => Some (ready_at, mkBandwidthBucket (bb_bytes_per_second b) ready_at)
    end.

(** ** The registry *)

(** The buckets of the process, and which one each limit has. *)
Record BandwidthRegistry := mkBandwidthRegistry {
  br_store : list BandwidthBucket;
  br_buckets : list (NetworkBandwidthLimit * nat);
}.

Definition registry_new : BandwidthRegistry := mkBandwidthRegistry [] [].

Fixpoint registry_get (m : list (NetworkBandwidthLimit * nat)) (limit : NetworkBandwidthLimit) : option nat :=
  match m with
  | [] => None
  | (l, i) :: rest => if decide (l = limit) then Some i else registry_get rest limit
  end.

(** [entry(limit).or_insert_with(...)]. *)
Definition registry_entry (r : BandwidthRegistry) (limit : NetworkBandwidthLimit) (now : Z)
  : nat * BandwidthRegistry :=
  match registry_get (br_buckets r) limit with
  | Some i => (i, r)
  | None =>
      let i := length (br_store r) in
      (i, mkBandwidthRegistry (br_store r ++ [bucket_new (nbl_bytes_per_second limit) now])
            ((limit, i) :: br_buckets r))
  end.

(** [BandwidthRegistry::session]: one bucket per limit, each once. *)
Fixpoint session_loop (r : BandwidthRegistry) (buckets : list nat) (limits : list (NetworkBandwidthLimit * Z))
  : list nat * BandwidthRegistry :=
  match limits with
  | [] => (buckets, r)
  | (limit, now) :: rest =>
      let '(bucket, r) := registry_entry r limit now in
      session_loop r (if bool_decide (bucket ∈ buckets) then buckets else buckets ++ [bucket]) rest
  end.

Definition session (r : BandwidthRegistry) (limits : list (NetworkBandwidthLimit * Z))
  : list nat * BandwidthRegistry := session_loop r [] limits.

(** ** Throttling *)

(** The loop of [throttle]: the latest slot of all the session's buckets.
    Each bucket comes with the instant its [reserve] reads. *)
Fixpoint throttle_loop (store : list BandwidthBucket) (ready_at bytes : Z) (buckets : list (nat * Z))
  : option (Z * list BandwidthBucket) :=
  match buckets with
  | [] => Some (ready_at, store)
  | (i, now) :: rest =>
      match store !! i with
      | None => None
      | Some b =>
          match reserve b now bytes with
          | None => None
          | Some (ready, b') => throttle_loop (<[i := b']> store) (Z.max ready_at ready) bytes rest
          end
      end
  end.

(** [BandwidthSession::throttle]: the instant until which the caller sleeps
    ([None] inside: it does not). *)
Definition throttle (store : list BandwidthBucket) (now bytes : Z) (buckets : list (nat * Z))
  : option (option Z * list BandwidthBucket) :=
  if (bytes =? 0) || is_nil buckets then Some (None, store)
  else match throttle_loop store now bytes buckets with
       | Some (ready_at, store) => Some (Some ready_at, store)
       | None => None
       end.

(** ** The transparent TCP path ([egress.rs]) *)

Record EgressContext := mkEgressContext {
  ec_run_id : option RunId;
  ec_attempt_id : option AttemptId;
  ec_storyline_id : option StorylineId;
}.

(** [EgressRuntime::authorize_tcp]: aliases are accepted, and the session is
    that of the limits matching the authorized addresses; [clock] gives the
    instant of each bucket creation. *)
Definition authorize_tcp {IpNet C} `{!IpNetLib IpNet}
    (lookup_host : string -> Z -> result ResolveError (list SocketAddr))
    (controller : Controller (IpNet := IpNet) C) (st : C) (policy : NetworkPolicy (IpNet := IpNet))
    (registry : BandwidthRegistry) (clock : Z) (context : EgressContext) (host : string) (port : Z)
  : result TargetAuthorizationError (list SocketAddr * list nat) * C * BandwidthRegistry :=
  let request := mkNetworkAccessRequest (ec_run_id context) (ec_attempt_id context)
                   (ec_storyline_id context) host (Some port) TcpTunnel None in
  match authorize_target_with_policy lookup_host controller st policy request HostConnectorAliases with
  | (Err e, st) => (Err e, st, registry)
  | (Ok target, st) =>
      let limits := matching_limits policy host (Some port) (at_addresses target) in
      let '(buckets, registry) := session registry (map (fun l => (l, clock)) limits) in
      (Ok (at_addresses target, buckets), st, registry)
  end.

(** ** The rate of a bucket *)

Lemma div_ceil_spec a b : 0 < b -> a <= div_ceil a b * b < a + b.
Proof.
  intros Hb. unfold div_ceil. pose proof (Z.div_mod a b ltac:(lia)). pose proof (Z.mod_pos_bound a b Hb).
  destruct (Z.eqb_spec (a mod b) 0); nia.
Qed.

(** A slot that is not cut off at the longest duration ([u64::MAX]
    nanoseconds, 584 years). *)
Definition slot_fits (rate bytes : Z) : Prop := 0 <= bytes <= u64_max /\ bytes * 1000000000 <= u64_max * rate.

Lemma reserve_nanos_spec rate bytes :
  0 < rate -> slot_fits rate bytes ->
  bytes * 1000000000 <= reserve_nanos rate bytes * rate < bytes * 1000000000 + rate.
Proof.
  intros Hr [Hb Hfit]. unfold reserve_nanos, u128_saturating_mul.
  assert (bytes * 1000000000 <= u128_max) by (unfold u64_max, u128_max in *; lia).
  rewrite (Z.min_l (bytes * 1000000000)) by done.
  pose proof (div_ceil_spec (bytes * 1000000000) rate Hr).
  assert (div_ceil (bytes * 1000000000) rate <= u64_max); [|rewrite Z.min_l; lia].
  unfold div_ceil in *. pose proof (Z.div_mod (bytes * 1000000000) rate ltac:(lia)).
  pose proof (Z.mod_pos_bound (bytes * 1000000000) rate Hr).
  destruct (Z.eqb_spec ((bytes * 1000000000) mod rate) 0); nia.
Qed.

Lemma reserve_nanos_nonneg rate bytes : 0 < rate -> 0 <= bytes -> 0 <= reserve_nanos rate bytes.
Proof.
  intros Hr Hb. unfold reserve_nanos, u128_saturating_mul.
  set (a := Z.min _ u128_max). assert (0 <= a) by (unfold a, u128_max; lia).
  pose proof (div_ceil_spec a rate Hr). unfold u64_max. nia.
Qed.

(** A run of reservations on one bucket: (instant read, bytes) in the order
    the lock was taken. *)
Fixpoint reserve_all (b : BandwidthBucket) (ops : list (Z * Z)) : option (list Z * BandwidthBucket) :=
  match ops with
  | [] => Some ([], b)
  | (now, bytes) :: rest =>
      match reserve b now bytes with
      | None => None
      | Some (ready, b') =>
          match reserve_all b' rest with
          | None => None
          | Some (readies, b'') => Some (ready :: readies, b'')
          end
      end
  end.

Lemma reserve_Some b now bytes ready b' :
  reserve b now bytes = Some (ready, b') ->
  bb_bytes_per_second b' = bb_bytes_per_second b /\ bb_next_available b' = ready
  /\ ready = Z.max (bb_next_available b) now + reserve_nanos (bb_bytes_per_second b) bytes
  /\ ready <= instant_max.
Proof.
  unfold reserve, instant_add. repeat case_match; intros; simplify_eq. guards. simpl. lia.
Qed.

Definition bytes_of (ops : list (Z * Z)) : Z := foldr (fun op acc => snd op + acc) 0 ops.

(** A bucket never exceeds its rate, over any run of reservations made by
    any mix of sessions with any clock readings: between the bucket's horizon
    before and after, the bytes take at least their time at the configured
    rate; the slots come one after the other, and no slot is ready before the
    caller's own clock reading. *)
Theorem bucket_rate_bound b ops readies b' :
  0 < bb_bytes_per_second b ->
  Forall (fun op => slot_fits (bb_bytes_per_second b) (snd op)) ops ->
  reserve_all b ops = Some (readies, b') ->
  bytes_of ops * 1000000000 <= bb_bytes_per_second b * (bb_next_available b' - bb_next_available b)
  /\ StronglySorted Z.le (bb_next_available b :: readies)
  /\ Forall2 (fun op ready => fst op <= ready) ops readies.
Proof.
  intros Hr Hfit. revert b b' readies Hr Hfit.
  induction ops as [|[now bytes] ops IH]; intros b b' readies Hr Hfit H; simpl in H.
  { simplify_eq. simpl. split; [lia|]. split; [by repeat constructor|constructor]. }
  destruct (reserve b now bytes) as [[ready b1]|] eqn:E; [|done].
  destruct (reserve_all b1 ops) as [[rs b2]|] eqn:E2; [|done]. simplify_eq.
  apply reserve_Some in E as (Hrate & Hnext & Hready & _).
  apply Forall_cons_1 in Hfit as [Hf Hfit]. simpl in Hf.
  pose proof (reserve_nanos_spec _ _ Hr Hf). pose proof (reserve_nanos_nonneg _ bytes Hr (proj1 (proj1 Hf))).
  destruct (IH b1 b' rs) as (Hsum & Hsort & Hall); [congruence|by rewrite Hrate|done|].
  rewrite Hrate, Hnext in *. simpl. split; [nia|]. split.
  - constructor; [done|]. constructor; [lia|]. inversion Hsort as [|? ? _ Hle]; subst.
    eapply List.Forall_impl; [|done]. simpl. lia.
  - constructor; [simpl; lia|done].
Qed.

(** ** Sharing *)

(** The registry maps each limit to a bucket of its own rate, and no two
    limits to the same bucket. *)
Definition registry_wf (r : BandwidthRegistry) : Prop :=
  (forall limit i, registry_get (br_buckets r) limit = Some i ->
     exists b, br_store r !! i = Some b /\ bb_bytes_per_second b = nbl_bytes_per_second limit)
  /\ (forall l1 l2 i, registry_get (br_buckets r) l1 = Some i -> registry_get (br_buckets r) l2 = Some i -> l1 = l2).

(** What later calls keep: entries stay, buckets stay at their rate. *)
Definition registry_extends (r r' : BandwidthRegistry) : Prop :=
  (forall limit i, registry_get (br_buckets r) limit = Some i -> registry_get (br_buckets r') limit = Some i)
  /\ br_store r `prefix_of` br_store r'.

#[local] Instance registry_extends_preorder : PreOrder registry_extends.
Proof.
  split; [by split|]. intros a b c [H1 H2] [H3 H4]. split; [auto|by etrans].
Qed.

Lemma registry_entry_spec r limit now i r' :
  registry_wf r -> registry_entry r limit now = (i, r') ->
  registry_wf r' /\ registry_extends r r' /\ registry_get (br_buckets r') limit = Some i.
Proof.
  unfold registry_entry. intros Hwf H. destruct (registry_get _ limit) as [j|] eqn:E; simplify_eq.
  { split; [done|]. split; [done|done]. }
  destruct Hwf as [Hb Hinj].
  assert (forall l j, registry_get (br_buckets r) l = Some j -> (j < length (br_store r))%nat) as Hlt.
  { intros l j Hj. destruct (Hb l j Hj) as (b & Hl & _). by apply lookup_lt_Some in Hl. }
  split; [split|split; [split|]]; simpl.
  - intros l j. case_decide as D; intros Hj.
    + simplify_eq. eexists. split; [by apply list_lookup_middle|done].
    + destruct (Hb l j Hj) as (b & Hl & Hr). exists b. split; [by apply lookup_app_l_Some|done].
  - intros l1 l2 j. repeat case_decide; intros; simplify_eq; try done;
      try (match goal with H : registry_get _ _ = Some (length _) |- _ => apply Hlt in H; lia end); eauto.
  - intros l j Hj. case_decide as D; [|done]. congruence.
  - by eexists.
  - by rewrite decide_True.
Qed.

Lemma session_loop_spec limits r acc buckets r' :
  registry_wf r -> NoDup acc -> session_loop r acc limits = (buckets, r') ->
  registry_wf r' /\ registry_extends r r' /\ NoDup buckets
  /\ forall i, i ∈ buckets <-> i ∈ acc \/ exists limit, limit ∈ map fst limits
                                            /\ registry_get (br_buckets r') limit = Some i.
Proof.
  revert r acc. induction limits as [|[limit now] limits IH]; intros r acc Hwf Hnd H; simpl in H.
  { simplify_eq. split_and!; [done|done|done|]. intros i. simpl. setoid_rewrite elem_of_nil. naive_solver. }
  destruct (registry_entry r limit now) as [i r1] eqn:E.
  apply registry_entry_spec in E as (Hwf1 & Hext1 & Hget1); [|done].
  apply IH in H as (Hwf' & Hext & Hnd' & Hin); [|done|].
  2: { case_bool_decide; [done|]. apply list.NoDup_app. split_and!; [done|set_solver|apply NoDup_singleton]. }
  split_and!; [done|by etrans|done|]. intros j. rewrite Hin. simpl.
  assert (registry_get (br_buckets r') limit = Some i) as Hget' by (by apply Hext).
  setoid_rewrite elem_of_cons.
  assert (j ∈ (if bool_decide (i ∈ acc) then acc else acc ++ [i]) <-> j ∈ acc \/ j = i) as ->.
  { case_bool_decide; set_solver. }
  split.
  - intros [[?| ->]|(l & ? & ?)]; [by left|right; by exists limit; auto|right; exists l; auto].
  - intros [?|(l & [->|?] & ?)]; [by left; left|left; right; congruence|right; by exists l].
Qed.

(** Sessions share buckets by limit: from a well-formed registry a session
    gets each bucket once, exactly the buckets of its limits, each at its
    limit's rate; existing entries keep their bucket, so two sessions with the
    same limit draw on the same bucket and sessions with different limits do
    not. *)
Theorem sessions_share_buckets r limits buckets r' :
  registry_wf r -> session r limits = (buckets, r') ->
  registry_wf r' /\ registry_extends r r' /\ NoDup buckets
  /\ forall i, i ∈ buckets <->
       exists limit, limit ∈ map fst limits /\ registry_get (br_buckets r') limit = Some i.
Proof.
  intros Hwf H. apply session_loop_spec in H as (? & ? & ? & Hin); [|done|constructor].
  split_and!; try done. intros i. rewrite Hin. set_solver.
Qed.

Lemma throttle_loop_spec bytes buckets store ready_at ready store' :
  NoDup (map fst buckets) -> throttle_loop store ready_at bytes buckets = Some (ready, store') ->
  ready_at <= ready
  /\ (forall i now, (i, now) ∈ buckets ->
       exists b slot b', store !! i = Some b /\ reserve b now bytes = Some (slot, b')
                      /\ store' !! i = Some b' /\ slot <= ready)
  /\ (forall i, i ∉ map fst buckets -> store' !! i = store !! i).
Proof.
  revert store ready_at. induction buckets as [|[i now] buckets IH]; intros store ready_at Hnd H; simpl in H.
  { simplify_eq. split_and!; [done|set_solver|done]. }
  destruct (store !! i) as [b|] eqn:Eb; [|done].
  destruct (reserve b now bytes) as [[slot b']|] eqn:Er; [|done].
  simpl in Hnd. apply list.NoDup_cons in Hnd as [Hi Hnd].
  apply IH in H as (Hle & Hall & Hother); [|done]. split_and!; [lia| |].
  - intros j nw [[= -> ->]|Hj]%elem_of_cons.
    + exists b, slot, b'. rewrite Hother, list_lookup_insert_eq by (done || by eapply lookup_lt_Some).
      split_and!; try done. lia.
    + destruct (Hall j nw Hj) as (bj & sj & bj' & Hs & Hr & Hs' & Hle'). exists bj, sj, bj'.
      assert (j <> i). { intros ->. apply Hi. apply list_elem_of_fmap. by exists (i, nw). }
      rewrite list_lookup_insert_ne in Hs by done. done.
  - intros j Hj. simpl in Hj. apply not_elem_of_cons in Hj as [? ?]. rewrite Hother by done.
    by apply list_lookup_insert_ne.
Qed.

(** Stacked limits all bind: a throttled transfer takes a slot in every
    bucket of its session and sleeps until the latest of them, leaving the
    other buckets alone; only empty transfers and unlimited sessions pass
    without a slot. *)
Theorem throttle_waits_for_all store now bytes buckets sleep store' :
  NoDup (map fst buckets) ->
  throttle store now bytes buckets = Some (sleep, store') ->
  (sleep = None <-> bytes = 0 \/ buckets = [])
  /\ (forall until, sleep = Some until ->
        now <= until
        /\ (forall i nw, (i, nw) ∈ buckets ->
             exists b slot b', store !! i = Some b /\ reserve b nw bytes = Some (slot, b')
                            /\ store' !! i = Some b' /\ slot <= until))
  /\ (forall i, i ∉ map fst buckets -> store' !! i = store !! i).
Proof.
  intros Hnd. unfold throttle. destruct (Z.eqb_spec bytes 0) as [->|Hb]; simpl.
  { intros; simplify_eq. split; [by split; auto|by split]. }
  destruct buckets as [|ib buckets]; simpl is_nil; cbv iota.
  { intros; simplify_eq. split; [by split; auto|by split]. }
  destruct (throttle_loop _ _ _ _) as [[ready st]|] eqn:E; [|done]. intros; simplify_eq.
  apply throttle_loop_spec in E as (? & ? & ?); [|done].
  split; [by split; [|intros [|]]|]. split; [by intros ? [= <-]|done].
Qed.
End Buckets.

Module BandwidthExample.
Definition limit (rate : Z) : NetworkBandwidthLimit := mkNetworkBandwidthLimit None None rate.

Lemma bucket_rate_bound_witness :
  bytes_of [(5, 1000); (7, 500)] * 1000000000 <= 1000 * (1500000010 - 10)
  /\ StronglySorted Z.le (10 :: [1000000010; 1500000010])
  /\ Forall2 (fun op ready => fst op <= ready) [(5, 1000); (7, 500)] [1000000010; 1500000010].
Proof.
  apply (bucket_rate_bound u64_max (mkBandwidthBucket 1000 10) [(5, 1000); (7, 500)]
           [1000000010; 1500000010] (mkBandwidthBucket 1000 1500000010)).
  - reflexivity.
  - repeat constructor; discriminate.
  - vm_compute. reflexivity.
Defined.

(** The same limit twice, and another one. *)
Definition shared : BandwidthRegistry :=
  mkBandwidthRegistry [bucket_new 100 0; bucket_new 200 0] [(limit 200, 1%nat); (limit 100, 0%nat)].

Lemma sessions_share_buckets_witness :
  registry_wf shared /\ registry_extends registry_new shared /\ NoDup [0%nat; 1%nat]
  /\ forall i, i ∈ [0%nat; 1%nat] <->
       exists l, l ∈ map fst [(limit 100, 0); (limit 200, 0); (limit 100, 0)]
                 /\ registry_get (br_buckets shared) l = Some i.
Proof.
  apply (sessions_share_buckets registry_new [(limit 100, 0); (limit 200, 0); (limit 100, 0)] [0%nat; 1%nat] shared).
  - split; intros; discriminate.
  - vm_compute. reflexivity.
Defined.

Lemma throttle_waits_for_all_witness :
  (Some 10000000003 = None <-> 1000 = 0 \/ [(0%nat, 3); (1%nat, 4)] = [])
  /\ (forall u, Some 10000000003 = Some u ->
        2 <= u
        /\ (forall i nw, (i, nw) ∈ [(0%nat, 3); (1%nat, 4)] ->
             exists b slot b', br_store shared !! i = Some b /\ reserve u64_max b nw 1000 = Some (slot, b')
               /\ [mkBandwidthBucket 100 10000000003; mkBandwidthBucket 200 5000000004] !! i = Some b' /\ slot <= u))
  /\ (forall i, i ∉ map fst [(0%nat, 3); (1%nat, 4)] ->
        [mkBandwidthBucket 100 10000000003; mkBandwidthBucket 200 5000000004] !! i = br_store shared !! i).
Proof.
  apply (throttle_waits_for_all u64_max (br_store shared) 2 1000 [(0%nat, 3); (1%nat, 4)]
           (Some 10000000003)).
  - repeat constructor; set_solver.
  - vm_compute. reflexivity.
Defined.
End BandwidthExample.
