(* ===== verification/Scheduler.v ===== *)
(** * pPilot: slot placement under concurrency

    Models [persisting-ppilot/src/scheduler.rs] at the granularity of its
    atomic operations.  The shared state is the vectors of atomics; every
    task that calls the scheduler is a thread with a program counter, and one
    step of a thread is one atomic load, compare-exchange, fetch-and-add or
    swap, one registration with the [Notify], or one dropped [SlotGuard].
    [Notify::notify_waiters] wakes the threads that are registered at that
    moment and leaves no permit behind, as tokio documents. *)

From Stdlib Require Import ZArith Lia.
From stdpp Require Import base list strings gmap numbers option relations.
From S2P Require Import Prelude.

#[local] Set Warnings "-clear-no-such-hyp".
#[local] Open Scope nat_scope.

Definition usize_wrap (z : Z) : Z := (z mod 2 ^ 64)%Z.

Definition DEFAULT_QUARANTINE_AFTER : nat := 3.

(** ** State *)

Record Scheduler := mkScheduler {
  sc_loads : list nat;
  sc_per_worker : nat;
  sc_consecutive_failures : list Z;
  sc_quarantined : list bool;
  sc_quarantine_after : nat;
}.

Definition with_quarantine_after (n_workers per_worker quarantine_after : nat) : Scheduler :=
  let per_worker := Nat.max per_worker 1 in
  let n_workers := Nat.max n_workers 1 in
  let quarantine_after := Nat.max quarantine_after 1 in
  mkScheduler (replicate n_workers 0%nat) per_worker (replicate n_workers 0%Z)
    (replicate n_workers false) quarantine_after.

Definition scheduler_new (n_workers per_worker : nat) : Scheduler :=
  with_quarantine_after n_workers per_worker DEFAULT_QUARANTINE_AFTER.

Definition set_loads (l : list nat) (s : Scheduler) : Scheduler :=
  mkScheduler l (sc_per_worker s) (sc_consecutive_failures s) (sc_quarantined s) (sc_quarantine_after s).
Definition set_failures (f : list Z) (s : Scheduler) : Scheduler :=
  mkScheduler (sc_loads s) (sc_per_worker s) f (sc_quarantined s) (sc_quarantine_after s).
Definition set_quarantined (q : list bool) (s : Scheduler) : Scheduler :=
  mkScheduler (sc_loads s) (sc_per_worker s) (sc_consecutive_failures s) q (sc_quarantine_after s).

(** [active_slots] and [capacity], read at one moment. *)
Definition active_slots (s : Scheduler) : nat := length (List.filter negb (sc_quarantined s)).
Definition capacity (s : Scheduler) : Z :=
  Z.max (Z.min (Z.of_nat (active_slots s) * Z.of_nat (sc_per_worker s)) u64_max) 1.

(** [is_quarantined]: an index out of range counts as quarantined. *)
Definition is_quarantined (s : Scheduler) (index : nat) : bool :=
  match sc_quarantined s !! index with Some q => q | None => true end.

(** ** Threads *)

(** The three ways to acquire a slot: [acquire] (and [acquire_prefer(None)]),
    [acquire_prefer(Some(i))], [acquire_sticky(slot)]. *)
Inductive AcquireKind := AcquireAny | AcquirePrefer (i : nat) | AcquireSticky (slot : nat).

Inductive Pc :=
| Idle
(** [acquire_sticky]: read the flag of the slot. *)
| StickyCheck (slot : nat)
(** [try_acquire_index]: the bounds check and flag, the load, the exchange. *)
| IndexCheck (k : AcquireKind) (i : nat)
| IndexLoad (k : AcquireKind) (i : nat)
| IndexCas (k : AcquireKind) (i cur : nat)
(** [try_acquire]: at slot [i], about to read its load; then its flag. *)
| Scan (k : AcquireKind) (i : nat) (best : option (nat * nat))
| ScanFlag (k : AcquireKind) (i cur : nat) (best : option (nat * nat))
| Cas (k : AcquireKind) (i expect : nat)
(** [active_slots], flag by flag. *)
| Active (k : AcquireKind) (i count : nat)
(** about to create [notify.notified()]; then registered and asleep. *)
| Register (k : AcquireKind)
| Waiting (k : AcquireKind)
(** the guard is held; or the call failed. *)
| Holding (i : nat)
| AllQuarantined
| StickyLost (slot : nat)
(** [note_failure] after its fetch-and-add: about to swap the flag. *)
| QuarantineSwap (i : nat).

(** The loop head of each call. *)
Definition loop_head (k : AcquireKind) : Pc :=
  match k with
  | AcquireAny => Scan k 0 None
  | AcquirePrefer i => IndexCheck k i
  | AcquireSticky slot => StickyCheck slot
  end.

(** What follows a failed [try_acquire_index]. *)
Definition index_failed (k : AcquireKind) : Pc :=
  match k with
  | AcquireSticky _ => Register k
  | _ => Scan k 0 None
  end.

(** The [match best] of [try_acquire]. *)
Definition better (i cur : nat) (best : option (nat * nat)) : option (nat * nat) :=
  match best with
  | None => Some (i, cur)
  | Some (bi, b) => if ((cur <? b) || ((cur =? b) && (i <? bi)))%nat then Some (i, cur) else best
  end.

Definition slot_usable (s : Scheduler) (i cur : nat) : bool :=
  negb (is_quarantined s i) && (cur <? sc_per_worker s)%nat.

(** [compare_exchange]. *)
Definition compare_exchange (s : Scheduler) (i expect new : nat) : option Scheduler :=
  match sc_loads s !! i with
  | Some cur => if (cur =? expect)%nat then Some (set_loads (<[i := new]> (sc_loads s)) s) else None
  | None => None
  end.

(** One atomic step of a thread inside a call: the new shared state, where
    the thread goes, and whether [notify_waiters] was called. *)
Definition advance (s : Scheduler) (pc : Pc) : Scheduler * Pc * bool :=
  match pc with
  | StickyCheck slot =>
      (s, if is_quarantined s slot then StickyLost slot else IndexCheck (AcquireSticky slot) slot, false)
  | IndexCheck k i =>
      (s, if (length (sc_loads s) <=? i)%nat || is_quarantined s i then index_failed k else IndexLoad k i, false)
  | IndexLoad k i =>
      (s, match sc_loads s !! i with
          | Some cur => if (sc_per_worker s <=? cur)%nat then index_failed k else IndexCas k i cur
          | None => index_failed k
          end, false)
  | IndexCas k i cur =>
      match compare_exchange s i cur (S cur) with
      | Some s' => (s', Holding i, false)
      | None => (s, IndexLoad k i, false)
      end
  | Scan k i best =>
      (s, match sc_loads s !! i with
          | Some cur => ScanFlag k i cur best
          | None => match best with
                    | Some (bi, expect) => Cas k bi expect
                    | None => Active k 0 0
                    end
          end, false)
  | ScanFlag k i cur best =>
      (s, Scan k (S i) (if slot_usable s i cur then better i cur best else best), false)
  | Cas k i expect =>
      match compare_exchange s i expect (S expect) with
      | Some s' => (s', Holding i, false)
      | None => (s, Scan k 0 None, false)
      end
  | Active k i count =>
      (s, match sc_quarantined s !! i with
          | Some true => Active k (S i) count
          | Some false => Active k (S i) (S count)
          | None => if (count =? 0)%nat then AllQuarantined else Register k
          end, false)
  | Register k => (s, Waiting k, false)
  | Holding i =>
      (* the guard is dropped: [release] *)
      match sc_loads s !! i with
      | Some cur => (set_loads (<[i := pred cur]> (sc_loads s)) s, Idle, true)
      | None => (s, Idle, false)
      end
  | QuarantineSwap i =>
      (set_quarantined (<[i := true]> (sc_quarantined s)) s, Idle, negb (is_quarantined s i))
  | Idle | Waiting _ | AllQuarantined | StickyLost _ => (s, pc, false)
  end.

(** The calls a thread can start. *)
Inductive Call :=
| CallAcquire (k : AcquireKind)
| CallNoteSuccess (i : nat)
| CallNoteFailure (i : nat)
| CallForceQuarantine (i : nat).

(** Starting a call, with the first atomic operation of [note_success] and
    [note_failure]. *)
Definition start (s : Scheduler) (c : Call) : Scheduler * Pc :=
  match c with
  | CallAcquire k => (s, loop_head k)
  | CallNoteSuccess i =>
      (if (i <? length (sc_consecutive_failures s))%nat then set_failures (<[i := 0%Z]> (sc_consecutive_failures s)) s
       else s, Idle)
  | CallNoteFailure i =>
      match sc_consecutive_failures s !! i with
      | None => (s, Idle)
      | Some old =>
          let n := usize_wrap (old + 1) in
          (set_failures (<[i := n]> (sc_consecutive_failures s)) s,
           if (Z.of_nat (sc_quarantine_after s) <=? n)%Z then QuarantineSwap i else Idle)
      end
  | CallForceQuarantine i =>
      (s, if (length (sc_quarantined s) <=? i)%nat then Idle else QuarantineSwap i)
  end.

(** ** Interleavings *)

Record World := mkWorld { w_sched : Scheduler; w_threads : list Pc }.

Definition wake (pc : Pc) : Pc := match pc with Waiting k => loop_head k | _ => pc end.

Definition wake_all (notified : bool) (threads : list Pc) : list Pc :=
  if notified then map wake threads else threads.

(** Thread [t] takes its next step. *)
Definition step_thread (t : nat) (w : World) : World :=
  match w_threads w !! t with
  | None => w
  | Some pc =>
      let '(s', pc', notified) := advance (w_sched w) pc in
      mkWorld s' (wake_all notified (<[t := pc']> (w_threads w)))
  end.

(** Thread [t] starts a call; a failed acquisition is over. *)
Definition call_thread (t : nat) (c : Call) (w : World) : World :=
  match w_threads w !! t with
  | Some (Idle | AllQuarantined | StickyLost _) =>
      let '(s', pc') := start (w_sched w) c in mkWorld s' (<[t := pc']> (w_threads w))
  | _ => w
  end.

Inductive world_step : World -> World -> Prop :=
| world_advance t w : world_step w (step_thread t w)
| world_call t c w : world_step w (call_thread t c w).

Definition world_new (n_workers per_worker quarantine_after threads : nat) : World :=
  mkWorld (with_quarantine_after n_workers per_worker quarantine_after) (replicate threads Idle).

(** ** Slots and guards *)

Definition is_holding (i : nat) (pc : Pc) : bool :=
  match pc with Holding j => (j =? i)%nat | _ => false end.

(** The number of live guards of slot [i]. *)
Definition guards_of (i : nat) (threads : list Pc) : nat := length (List.filter (is_holding i) threads).

Lemma guards_of_insert i t threads pc pc' :
  threads !! t = Some pc ->
  guards_of i (<[t := pc']> threads) + Nat.b2n (is_holding i pc)
  = guards_of i threads + Nat.b2n (is_holding i pc').
Proof.
  unfold guards_of. revert t. induction threads as [|x threads IH]; intros t H; [done|].
  destruct t as [|t]; simpl in *.
  - simplify_eq. destruct (is_holding i pc), (is_holding i pc'); simpl; lia.
  - specialize (IH t H). destruct (is_holding i x); simpl; lia.
Qed.

Lemma guards_of_wake i b threads : guards_of i (wake_all b threads) = guards_of i threads.
Proof.
  destruct b; [|done]. simpl. unfold guards_of.
  induction threads as [|pc threads IH]; [done|]. simpl.
  assert (is_holding i (wake pc) = is_holding i pc) as -> by (by destruct pc as [| | | | | | | | | |[]| | | |]).
  destruct (is_holding i pc); simpl; by rewrite IH.
Qed.

Lemma guards_of_pos i t threads : threads !! t = Some (Holding i) -> (0 < guards_of i threads)%nat.
Proof.
  intros H. pose proof (guards_of_insert i t threads (Holding i) Idle H) as E.
  simpl in E. rewrite Nat.eqb_refl in E. simpl in E. lia.
Qed.

(** What a thread knows at each program point. *)
Definition pc_ok (n per : nat) (pc : Pc) : Prop :=
  match pc with
  | IndexLoad _ i => (i < n)%nat
  | IndexCas _ i cur => (i < n)%nat /\ (cur < per)%nat
  | Scan _ i best | ScanFlag _ i _ best =>
      match best with Some (bi, b) => (bi < n)%nat /\ (b < per)%nat | None => True end
      /\ match pc with ScanFlag _ _ _ _ => (i < n)%nat | _ => True end
  | Cas _ i expect => (i < n)%nat /\ (expect < per)%nat
  | Holding i | QuarantineSwap i => (i < n)%nat
  | _ => True
  end.

Definition shape (n per : nat) (s : Scheduler) : Prop :=
  length (sc_loads s) = n /\ length (sc_quarantined s) = n /\ length (sc_consecutive_failures s) = n
  /\ sc_per_worker s = per.

(** How one atomic step changes the loads. *)
Definition loads_effect (s s' : Scheduler) (pc pc' : Pc) (per : nat) : Prop :=
  (sc_loads s' = sc_loads s /\ forall i, is_holding i pc = is_holding i pc')
  \/ (exists i cur, sc_loads s !! i = Some cur /\ (cur < per)%nat /\ sc_loads s' = <[i := S cur]> (sc_loads s)
       /\ pc' = Holding i /\ forall j, is_holding j pc = false)
  \/ (exists i cur, sc_loads s !! i = Some cur /\ sc_loads s' = <[i := pred cur]> (sc_loads s)
       /\ pc = Holding i /\ pc' = Idle).

Lemma loop_head_ok n per k : pc_ok n per (loop_head k).
Proof. by destruct k. Qed.
Lemma index_failed_ok n per k : pc_ok n per (index_failed k) /\ forall i, is_holding i (index_failed k) = false.
Proof. by destruct k. Qed.

Lemma compare_exchange_Some s i expect new s' :
  compare_exchange s i expect new = Some s' ->
  sc_loads s !! i = Some expect /\ s' = set_loads (<[i := new]> (sc_loads s)) s.
Proof.
  unfold compare_exchange. destruct (sc_loads s !! i) as [cur|]; [|done].
  destruct (Nat.eqb_spec cur expect); intros; by simplify_eq.
Qed.

Lemma advance_ok n per s pc s' pc' b :
  shape n per s -> pc_ok n per pc -> advance s pc = (s', pc', b) ->
  shape n per s' /\ pc_ok n per pc' /\ loads_effect s s' pc pc' per.
Proof.
  intros (Hl & Hq & Hf & Hp) Hok H. unfold loads_effect.
  assert (shape n per s) as Hs by done.
  destruct pc as [|slot|k i|k i|k i cur|k i best|k i cur best|k i expect|k i count|k|k|i| |slot|i]; simpl in H;
    try (injection H as <- <- <-; split; [done|split; [done|by left]]).
  - (* StickyCheck *) injection H as <- <- <-. split; [done|]. case_match; (split; [done|by left]).
  - (* IndexCheck *) injection H as <- <- <-. split; [done|].
    destruct (index_failed_ok n per k) as [Hko Hkh]. case_match eqn:E.
    + split; [done|]. left. split; [done|]. intros j. by rewrite Hkh.
    + apply orb_false_iff in E as [E%Nat.leb_gt _]. split; [simpl; lia|by left].
  - (* IndexLoad *) injection H as <- <- <-. split; [done|].
    destruct (index_failed_ok n per k) as [Hko Hkh].
    destruct (sc_loads s !! i) as [cur|] eqn:E; [destruct (Nat.leb_spec (sc_per_worker s) cur)|];
      (split; [first [done | simpl in *; lia]|]); left; (split; [done|]); intros j; by rewrite ?Hkh.
  - (* IndexCas *) destruct Hok as [Hi Hc].
    destruct (compare_exchange s i cur (S cur)) as [s1|] eqn:E; injection H as <- <- <-; [|split; [done|split; [done|by left]]].
    apply compare_exchange_Some in E as [E ->]. split; [|split; [done|right; left; exists i, cur; done]].
    unfold shape. simpl. by rewrite length_insert.
  - (* Scan *) injection H as <- <- <-. split; [done|]. destruct Hok as [Hb _].
    destruct (sc_loads s !! i) as [cur|] eqn:E.
    + apply lookup_lt_Some in E. split; [split; [done|lia]|by left].
    + destruct best as [[bi expect]|]; (split; [done|by left]).
  - (* ScanFlag *) injection H as <- <- <-. split; [done|]. destruct Hok as [Hb Hi]. split; [|by left]. split; [|done].
    destruct (slot_usable s i cur) eqn:E; [|done]. unfold slot_usable in E. apply andb_true_iff in E as [_ E%Nat.ltb_lt]. rewrite Hp in E.
    simpl in Hi, Hb. unfold better. destruct best as [[bi expect]|]; [|done].
    by destruct ((cur <? expect) || ((cur =? expect) && (i <? bi)))%nat.
  - (* Cas *) destruct Hok as [Hi Hc].
    destruct (compare_exchange s i expect (S expect)) as [s1|] eqn:E; injection H as <- <- <-; [|split; [done|split; [done|by left]]].
    apply compare_exchange_Some in E as [E ->]. split; [|split; [done|right; left; exists i, expect; done]].
    unfold shape. simpl. by rewrite length_insert.
  - (* Active *) injection H as <- <- <-. split; [done|]. destruct (sc_quarantined s !! i) as [[]|]; [| |case_match]; (split; [done|by left]).
  - (* Holding *) simpl in Hok. destruct (lookup_lt_is_Some_2 (sc_loads s) i ltac:(lia)) as [cur Hcur].
    rewrite Hcur in H. injection H as <- <- <-. split; [unfold shape; simpl; by rewrite length_insert|].
    split; [done|]. right. right. exists i, cur. done.
  - (* QuarantineSwap *) injection H as <- <- <-. split; [unfold shape; simpl; by rewrite length_insert|]. split; [done|by left].
Qed.

Definition world_inv (n per : nat) (w : World) : Prop :=
  shape n per (w_sched w) /\ Forall (pc_ok n per) (w_threads w)
  /\ forall i load, sc_loads (w_sched w) !! i = Some load ->
       load = guards_of i (w_threads w) /\ (load <= per)%nat.

Lemma wake_ok n per b threads : Forall (pc_ok n per) threads -> Forall (pc_ok n per) (wake_all b threads).
Proof.
  destruct b; [|done]. simpl. intros H. apply List.Forall_map. eapply List.Forall_impl; [|done].
  intros pc Hpc. destruct pc; simpl; try done. apply loop_head_ok.
Qed.

Lemma step_thread_inv n per t w : world_inv n per w -> world_inv n per (step_thread t w).
Proof.
  intros (Hs & Hpcs & Hl). unfold step_thread. destruct (w_threads w !! t) as [pc|] eqn:Et; [|done].
  destruct (advance (w_sched w) pc) as [[s' pc'] b] eqn:Ea.
  assert (pc_ok n per pc) as Hpc by (by eapply Forall_lookup_1).
  destruct (advance_ok _ _ _ _ _ _ _ Hs Hpc Ea) as (Hs' & Hpc' & Heff).
  split; [done|]. split; [simpl; apply wake_ok; by apply Forall_insert|].
  intros i load Hi. simpl in *. rewrite guards_of_wake.
  pose proof (guards_of_insert i t _ pc pc' Et) as Hg.
  destruct Heff as [[Hll Hh]|[(j & cur & Hj & Hlt & Hll & -> & Hh)|(j & cur & Hj & Hll & -> & ->)]];
    rewrite Hll in Hi.
  - destruct (Hl i load Hi) as [-> ?]. rewrite (Hh i) in Hg. lia.
  - rewrite (Hh i) in Hg. simpl in Hg. destruct (Hl j cur Hj) as [-> ?].
    destruct (decide (i = j)) as [->|Hne].
    + rewrite list_lookup_insert_eq in Hi by (by eapply lookup_lt_Some). simplify_eq.
      rewrite Nat.eqb_refl in Hg. simpl in Hg. lia.
    + rewrite list_lookup_insert_ne in Hi by done. destruct (Hl i load Hi) as [-> ?].
      destruct (Nat.eqb_spec j i); [congruence|]. simpl in Hg. lia.
  - simpl in Hg. destruct (Hl j cur Hj) as [-> ?]. pose proof (guards_of_pos j t _ Et).
    destruct (decide (i = j)) as [->|Hne].
    + rewrite list_lookup_insert_eq in Hi by (by eapply lookup_lt_Some). simplify_eq.
      rewrite Nat.eqb_refl in Hg. simpl in Hg. lia.
    + rewrite list_lookup_insert_ne in Hi by done. destruct (Hl i load Hi) as [-> ?].
      destruct (Nat.eqb_spec j i); [congruence|]. simpl in Hg. lia.
Qed.

Lemma start_ok n per s c s' pc' :
  shape n per s -> start s c = (s', pc') ->
  shape n per s' /\ sc_loads s' = sc_loads s /\ pc_ok n per pc' /\ forall i, is_holding i pc' = false.
Proof.
  intros (Hl & Hq & Hf & Hp) H. assert (shape n per s) as Hs by done.
  destruct c as [k|i|i|i]; simpl in H.
  - injection H as <- <-. split_and!; try done; [apply loop_head_ok|]. by destruct k.
  - injection H as <- <-. case_match; split_and!; try done; unfold shape; simpl; by rewrite length_insert.
  - destruct (sc_consecutive_failures s !! i) as [old|] eqn:E; injection H as <- <-; [|done].
    apply lookup_lt_Some in E. split_and!; try done; [unfold shape; simpl; by rewrite length_insert|..];
      case_match; simpl; try done; lia.
  - injection H as <- <-. destruct (Nat.leb_spec (length (sc_quarantined s)) i); split_and!; try done. simpl. lia.
Qed.

Lemma call_thread_inv n per t c w : world_inv n per w -> world_inv n per (call_thread t c w).
Proof.
  intros (Hs & Hpcs & Hl). unfold call_thread. destruct (w_threads w !! t) as [pc|] eqn:Et; [|done].
  assert (world_inv n per w) as Hw by done.
  assert ((forall i, is_holding i pc = false) ->
          world_inv n per (let '(s', pc') := start (w_sched w) c in mkWorld s' (<[t:=pc']> (w_threads w)))) as Hgo.
  { intros Hh. destruct (start (w_sched w) c) as [s' pc'] eqn:E.
    apply (start_ok n per) in E as (Hs' & Hll & Hpc' & Hh'); [|done].
    split; [done|]. split; [by apply Forall_insert|]. intros i load Hi. simpl in *. rewrite Hll in Hi.
    pose proof (guards_of_insert i t _ pc pc' Et) as Hg. rewrite Hh, Hh' in Hg. destruct (Hl i load Hi). simpl in Hg. lia. }
  destruct pc; try done; by apply Hgo.
Qed.

Lemma world_new_inv n p q t : world_inv (Nat.max n 1) (Nat.max p 1) (world_new n p q t).
Proof.
  split; [unfold shape; simpl; by rewrite !length_replicate|].
  split; [simpl; by apply Forall_replicate|]. simpl. intros i load Hi.
  apply lookup_replicate in Hi as [-> _].
  assert (guards_of i (replicate t Idle) = 0%nat) as -> by (by induction t). lia.
Qed.

Lemma reachable_inv n per w w' : rtc world_step w w' -> world_inv n per w -> world_inv n per w'.
Proof.
  induction 1 as [|w1 w2 w3 Hstep _ IH]; [done|]. intros Hw. apply IH.
  destruct Hstep; [by apply step_thread_inv|by apply call_thread_inv].
Qed.

(** C37: slot accounting is exact under every interleaving of atomic
    operations: the load of a slot is the number of live guards on it and
    never exceeds the per-worker bound, a guard names an existing slot whose
    load is at least one (so a release never underflows), whatever mix of
    acquisitions, releases and quarantines runs. *)
Theorem slot_capacity_respected n p q t w :
  rtc world_step (world_new n p q t) w ->
  (forall i load, sc_loads (w_sched w) !! i = Some load ->
     load = guards_of i (w_threads w) /\ (load <= Nat.max p 1)%nat)
  /\ (forall th i, w_threads w !! th = Some (Holding i) ->
        exists load, sc_loads (w_sched w) !! i = Some load /\ (0 < load)%nat).
Proof.
  intros H. pose proof (reachable_inv _ _ _ _ H (world_new_inv n p q t)) as (Hs & Hpcs & Hl).
  split; [done|]. intros th i Hth. assert (pc_ok (Nat.max n 1) (Nat.max p 1) (Holding i)) as Hok by (by eapply Forall_lookup_1).
  simpl in Hok. destruct Hs as (Hlen & _). destruct (lookup_lt_is_Some_2 (sc_loads (w_sched w)) i ltac:(lia)) as [load Hload].
  exists load. split; [done|]. destruct (Hl i load Hload) as [-> _]. by eapply guards_of_pos.
Qed.

(** ** Placement without interference *)

(** [n] steps of one thread while nobody else moves. *)
Fixpoint solo (n : nat) (s : Scheduler) (pc : Pc) : Scheduler * Pc :=
  match n with
  | O => (s, pc)
  | S n' => let '(s', pc', _) := advance s pc in solo n' s' pc'
  end.

Lemma solo_add a b s pc : solo (a + b) s pc = (let '(s', pc') := solo a s pc in solo b s' pc').
Proof.
  revert s pc. induction a as [|a IH]; intros s pc; simpl; [done|].
  by destruct (advance s pc) as [[s' pc'] ?].
Qed.

(** Slot [i] is usable with load [c]. *)
Definition usable (s : Scheduler) (i c : nat) : Prop :=
  sc_loads s !! i = Some c /\ sc_quarantined s !! i = Some false /\ (c < sc_per_worker s)%nat.

(** The least loaded usable slot below [bound], the first one of them. *)
Definition best_below (s : Scheduler) (bound : nat) (best : option (nat * nat)) : Prop :=
  match best with
  | None => forall j c, (j < bound)%nat -> ~ usable s j c
  | Some (i, c) =>
      (i < bound)%nat /\ usable s i c
      /\ forall j c', (j < bound)%nat -> usable s j c' -> (c < c')%nat \/ (c = c' /\ (i <= j)%nat)
  end.

Lemma slot_usable_spec s i cur :
  sc_loads s !! i = Some cur -> slot_usable s i cur = true <-> usable s i cur.
Proof.
  intros H. unfold slot_usable, usable, is_quarantined. rewrite andb_true_iff, negb_true_iff, Nat.ltb_lt.
  destruct (sc_quarantined s !! i); naive_solver.
Qed.

Lemma best_below_step s i cur best :
  sc_loads s !! i = Some cur -> best_below s i best ->
  best_below s (S i) (if slot_usable s i cur then better i cur best else best).
Proof.
  intros Hi Hb.
  assert (forall j c, (j < S i)%nat -> usable s j c -> (j < i)%nat \/ (j = i /\ c = cur /\ usable s i cur)) as Hsplit.
  { intros j c Hj Hu. destruct (decide (j = i)) as [->|]; [|left; lia]. right.
    assert (c = cur) as -> by (destruct Hu as [Hu _]; congruence). done. }
  destruct (slot_usable s i cur) eqn:E.
  - apply slot_usable_spec in E as Hu; [|done]. unfold better. destruct best as [[bi b]|]; simpl in *.
    + destruct Hb as (Hbi & Hbu & Hmin).
      destruct (Nat.ltb_spec cur b); simpl.
      { split; [lia|]. split; [done|]. intros j c' Hj Hj'.
        destruct (Hsplit j c' Hj Hj') as [Hlt|(-> & -> & _)]; [|right; lia].
        destruct (Hmin j c' Hlt Hj'); left; lia. }
      assert ((cur =? b) && (i <? bi) = false)%nat as -> by (destruct (Nat.ltb_spec i bi); [lia|apply andb_false_r]).
      split; [lia|]. split; [done|]. intros j c' Hj Hj'.
      destruct (Hsplit j c' Hj Hj') as [Hlt|(-> & -> & _)]; [by apply Hmin|]. lia.
    + split; [lia|]. split; [done|]. intros j c' Hj Hj'.
      destruct (Hsplit j c' Hj Hj') as [Hlt|(-> & -> & _)]; [by destruct (Hb j c' Hlt)|lia].
  - assert (~ usable s i cur) as Hnu by (rewrite <- slot_usable_spec by done; by rewrite E).
    destruct best as [[bi b]|]; simpl in *.
    + destruct Hb as (Hbi & Hbu & Hmin). split; [lia|]. split; [done|]. intros j c' Hj Hj'.
      destruct (Hsplit j c' Hj Hj') as [Hlt|(-> & -> & ?)]; [by apply Hmin|done].
    + intros j c' Hj Hj'. destruct (Hsplit j c' Hj Hj') as [Hlt|(-> & -> & ?)]; [by apply (Hb j c')|done].
Qed.

Lemma solo_scan s k m i best :
  (i + m = length (sc_loads s))%nat -> best_below s i best ->
  exists best', solo (2 * m) s (Scan k i best) = (s, Scan k (length (sc_loads s)) best')
    /\ best_below s (length (sc_loads s)) best'.
Proof.
  revert i best. induction m as [|m IH]; intros i best Hm Hb.
  { exists best. replace (length (sc_loads s)) with i by lia. done. }
  destruct (lookup_lt_is_Some_2 (sc_loads s) i ltac:(lia)) as [cur Hcur].
  destruct (IH (S i) (if slot_usable s i cur then better i cur best else best)) as (best' & Hs & Hb');
    [lia|by apply best_below_step|].
  exists best'. split; [|done]. replace (2 * S m)%nat with (2 + 2 * m)%nat by lia.
  rewrite solo_add. simpl. rewrite Hcur. simpl. exact Hs.
Qed.

(** Slot flags counted by [active_slots]. *)
Lemma solo_active s k m i count :
  (i + m = length (sc_quarantined s))%nat ->
  count = length (List.filter negb (take i (sc_quarantined s))) ->
  solo (S m) s (Active k i count) = (s, if (active_slots s =? 0)%nat then AllQuarantined else Register k).
Proof.
  revert i count. induction m as [|m IH]; intros i count Hm Hc.
  - simpl. rewrite lookup_ge_None_2 by lia. rewrite Hc, take_ge by lia. done.
  - destruct (lookup_lt_is_Some_2 (sc_quarantined s) i ltac:(lia)) as [q Hq].
    change (solo (S (S m)) s (Active k i count))
      with (let '(s', pc', _) := advance s (Active k i count) in solo (S m) s' pc').
    simpl advance. rewrite Hq.
    assert (forall c, c = length (List.filter negb (take (S i) (sc_quarantined s))) ->
              solo (S m) s (Active k (S i) c) = (s, if (active_slots s =? 0)%nat then AllQuarantined else Register k))
      as Hnext by (intros c ->; apply IH; [lia|done]).
    rewrite (take_S_r _ _ _ Hq), List.filter_app, length_app in Hnext.
    destruct q; simpl in Hnext; apply Hnext; lia.
Qed.

(** Undisturbed, [acquire] places on the least loaded usable slot, the
    first of them if several tie, in a bounded number of atomic steps; with no
    usable slot it fails fast exactly when every slot is quarantined, and
    goes to wait otherwise. *)
Theorem acquire_least_loaded s k :
  length (sc_quarantined s) = length (sc_loads s) ->
  exists n, (n <= 3 * length (sc_loads s) + 2)%nat
    /\ ((exists i c, usable s i c /\ solo n s (Scan k 0 None) = (set_loads (<[i := S c]> (sc_loads s)) s, Holding i)
           /\ forall j c', usable s j c' -> (c < c')%nat \/ (c = c' /\ (i <= j)%nat))
        \/ ((forall j c', ~ usable s j c')
            /\ solo n s (Scan k 0 None) = (s, if (active_slots s =? 0)%nat then AllQuarantined else Register k))).
Proof.
  intros Hlen. set (n := length (sc_loads s)) in *.
  destruct (solo_scan s k n 0 None) as (best & Hsolo & Hbest); [done|intros j c Hj; lia|].
  fold n in Hsolo, Hbest.
  assert (forall j c', usable s j c' -> (j < n)%nat) as Hin
    by (intros j c' [Hj _]; by eapply lookup_lt_Some).
  destruct best as [[i c]|]; simpl in Hbest.
  - destruct Hbest as (_ & Hu & Hmin). exists (2 * n + 2)%nat. split; [lia|]. left. exists i, c. split; [done|].
    split; [|intros j c' Hj; apply Hmin; [by eapply Hin|done]].
    rewrite solo_add, Hsolo. simpl. rewrite lookup_ge_None_2 by (unfold n; lia). simpl.
    unfold compare_exchange. destruct Hu as (-> & _). by rewrite Nat.eqb_refl.
  - exists (2 * n + S (S n))%nat. split; [lia|]. right.
    split; [intros j c' Hj; by apply (Hbest j c' (Hin j c' Hj))|].
    rewrite solo_add, Hsolo.
    change (solo (S (S n)) s (Scan k n None)) with (let '(s', pc', _) := advance s (Scan k n None) in solo (S n) s' pc').
    simpl advance. rewrite lookup_ge_None_2 by (unfold n; lia). apply solo_active; [lia|done].
Qed.

(** ** Quarantine *)

Definition quarantines (s s' : Scheduler) : Prop :=
  forall i, (i < length (sc_quarantined s))%nat -> is_quarantined s i = true -> is_quarantined s' i = true.

Lemma quarantines_refl s : length (sc_quarantined s) = length (sc_quarantined s) /\ quarantines s s.
Proof. split; [done|]. by intros i _ H. Qed.

Lemma advance_quarantines s pc s' pc' b :
  advance s pc = (s', pc', b) ->
  length (sc_quarantined s') = length (sc_quarantined s) /\ quarantines s s'.
Proof.
  intros H. assert (sc_quarantined s' = sc_quarantined s \/ exists i, sc_quarantined s' = <[i := true]> (sc_quarantined s))
    as [E|[i E]].
  { destruct pc; simpl in H; unfold compare_exchange in H; repeat case_match; simplify_eq; simpl; eauto. }
  - unfold quarantines, is_quarantined. rewrite E. done.
  - rewrite E, length_insert. split; [done|]. intros j Hj. unfold is_quarantined. rewrite E.
    destruct (decide (i = j)) as [->|]; [by rewrite list_lookup_insert_eq|by rewrite list_lookup_insert_ne].
Qed.

Lemma start_quarantines s c s' pc' : start s c = (s', pc') -> sc_quarantined s' = sc_quarantined s.
Proof. intros H. destruct c; simpl in H; repeat case_match; simplify_eq; done. Qed.

(** Quarantine is permanent: once the flag of a slot is set it stays set
    in every later state, whatever the threads do and however they interleave. *)
Theorem quarantine_permanent w w' i :
  rtc world_step w w' -> (i < length (sc_quarantined (w_sched w)))%nat ->
  is_quarantined (w_sched w) i = true -> is_quarantined (w_sched w') i = true.
Proof.
  induction 1 as [|w1 w2 w3 Hstep _ IH]; [done|]. intros Hi Hq.
  assert (length (sc_quarantined (w_sched w2)) = length (sc_quarantined (w_sched w1))
          /\ quarantines (w_sched w1) (w_sched w2)) as [Hlen Hmono].
  { destruct Hstep as [t w|t c w].
    - unfold step_thread. destruct (w_threads w !! t) as [pc|]; [|apply quarantines_refl].
      destruct (advance (w_sched w) pc) as [[s' pc'] b] eqn:E. by eapply advance_quarantines.
    - unfold call_thread.
      assert (length (sc_quarantined (w_sched (let '(s', pc') := start (w_sched w) c in
                mkWorld s' (<[t:=pc']> (w_threads w))))) = length (sc_quarantined (w_sched w))
              /\ quarantines (w_sched w) (w_sched (let '(s', pc') := start (w_sched w) c in
                mkWorld s' (<[t:=pc']> (w_threads w))))) as Hgo.
      { destruct (start (w_sched w) c) as [s' pc'] eqn:E. apply start_quarantines in E. simpl.
        unfold quarantines, is_quarantined. by rewrite E. }
      destruct (w_threads w !! t) as [pc|]; [|apply quarantines_refl].
      destruct pc; first [exact Hgo | apply quarantines_refl]. }
  apply IH; [lia|]. by apply Hmono.
Qed.

(** A run of notes on one slot: failures ([true]) and successes. *)
Fixpoint note_all (s : Scheduler) (i : nat) (notes : list bool) : Scheduler :=
  match notes with
  | [] => s
  | failed :: rest =>
      let '(s1, pc) := start s (if failed then CallNoteFailure i else CallNoteSuccess i) in
      let '(s2, _, _) := advance s1 pc in
      note_all s2 i rest
  end.

(** The longest streak reached, starting from a streak of [cur]. *)
Fixpoint reaches (after cur : nat) (notes : list bool) : bool :=
  match notes with
  | [] => false
  | true :: rest => (after <=? S cur)%nat || reaches after (S cur) rest
  | false :: rest => reaches after 0 rest
  end.

Lemma note_step s i failed cur q :
  (0 < sc_quarantine_after s)%nat ->
  sc_consecutive_failures s !! i = Some (Z.of_nat cur) -> sc_quarantined s !! i = Some q ->
  (Z.of_nat cur + 1 < 2 ^ 64)%Z ->
  let s' := note_all s i [failed] in
  sc_quarantine_after s' = sc_quarantine_after s
  /\ sc_consecutive_failures s' !! i = Some (Z.of_nat (if failed then S cur else 0%nat))
  /\ sc_quarantined s' !! i = Some (q || (failed && (sc_quarantine_after s <=? S cur)%nat)).
Proof.
  intros Hpos Hf Hq Hb. pose proof (lookup_lt_Some _ _ _ Hf) as Hlf. pose proof (lookup_lt_Some _ _ _ Hq) as Hlq.
  destruct failed; simpl.
  - rewrite Hf. unfold usize_wrap. rewrite Z.mod_small by lia.
    replace (Z.of_nat cur + 1)%Z with (Z.of_nat (S cur)) by lia.
    destruct (Nat.leb_spec (sc_quarantine_after s) (S cur)) as [Hle|Hgt].
    + rewrite (proj2 (Z.leb_le _ _)) by lia. simpl. rewrite !list_lookup_insert_eq by done.
      by rewrite orb_true_r.
    + rewrite (proj2 (Z.leb_gt _ _)) by lia. simpl. rewrite list_lookup_insert_eq by done. by rewrite orb_false_r.
  - rewrite (proj2 (Nat.ltb_lt _ _)) by done. simpl. rewrite list_lookup_insert_eq by done. by rewrite orb_false_r.
Qed.

(** A slot is quarantined by its notes exactly if some run of failures
    without a success in between reaches the threshold. *)
Theorem quarantine_by_streak s i notes cur :
  (0 < sc_quarantine_after s)%nat ->
  sc_consecutive_failures s !! i = Some (Z.of_nat cur) -> sc_quarantined s !! i = Some false ->
  (Z.of_nat (cur + length notes) < 2 ^ 64)%Z ->
  sc_quarantined (note_all s i notes) !! i = Some (reaches (sc_quarantine_after s) cur notes).
Proof.
  assert (forall notes s cur q,
    (0 < sc_quarantine_after s)%nat ->
    sc_consecutive_failures s !! i = Some (Z.of_nat cur) -> sc_quarantined s !! i = Some q ->
    (Z.of_nat (cur + length notes) < 2 ^ 64)%Z ->
    sc_quarantined (note_all s i notes) !! i = Some (q || reaches (sc_quarantine_after s) cur notes)) as H.
  { clear. induction notes as [|failed notes IH]; intros s cur q Hpos Hf Hq Hb.
    - simpl. by rewrite orb_false_r.
    - simpl in Hb. destruct (note_step s i failed cur q Hpos Hf Hq ltac:(lia)) as (Ha & Hf' & Hq').
      assert (note_all s i (failed :: notes) = note_all (note_all s i [failed]) i notes) as ->.
      { simpl. destruct (start s _) as [s1 pc]. by destruct (advance s1 pc) as [[s2 ?] ?]. }
      rewrite (IH _ _ _ ltac:(by rewrite Ha) Hf' Hq') by (destruct failed; simpl; lia).
      rewrite Ha. f_equal. rewrite <- orb_assoc. f_equal. by destruct failed. }
  intros. by apply (H notes s cur false).
Qed.

(** ** A wakeup that is lost *)

(** [notified()] is created after [try_acquire] has failed; a release in
    between notifies nobody. *)
Definition lost_wakeup_run : World :=
  let w := world_new 1 1 3 2 in
  let w := call_thread 0 (CallAcquire AcquireAny) w in
  let w := Nat.iter 4 (step_thread 0) w in
  let w := call_thread 1 (CallAcquire AcquireAny) w in
  let w := Nat.iter 5 (step_thread 1) w in
  let w := step_thread 0 w in
  step_thread 1 w.

Lemma iter_steps n t w : rtc world_step w (Nat.iter n (step_thread t) w).
Proof.
  induction n as [|n IH]; [done|]. eapply rtc_r; [done|]. simpl. constructor.
Qed.

(** A waiting acquisition can miss its wakeup: there is an interleaving
    of one release and one acquisition after which the only slot is free and
    not quarantined, nobody holds it, and the acquiring task sleeps with no
    step left that would wake it. *)
Theorem acquire_can_sleep_forever :
  exists w, rtc world_step (world_new 1 1 3 2) w
    /\ w_threads w = [Idle; Waiting AcquireAny]
    /\ sc_loads (w_sched w) = [0%nat] /\ sc_quarantined (w_sched w) = [false]
    /\ forall t, step_thread t w = w.
Proof.
  exists lost_wakeup_run. split; [|split; [|split; [|split]]]; try (vm_compute; reflexivity).
  - unfold lost_wakeup_run. cbv zeta.
    eapply rtc_r; [|apply (world_advance 1)]. eapply rtc_r; [|apply (world_advance 0)].
    etrans; [|apply (iter_steps 5 1)]. eapply rtc_r; [|apply (world_call 1 (CallAcquire AcquireAny))].
    etrans; [|apply (iter_steps 4 0)]. eapply rtc_r; [done|apply (world_call 0 (CallAcquire AcquireAny))].
  - assert (lost_wakeup_run = mkWorld (with_quarantine_after 1 1 3) [Idle; Waiting AcquireAny]) as ->
      by (vm_compute; reflexivity).
    intros [|[|t]]; reflexivity.
Qed.

Module SchedulerExample.
Lemma slot_capacity_respected_witness :
  (forall i load, sc_loads (w_sched lost_wakeup_run) !! i = Some load ->
     load = guards_of i (w_threads lost_wakeup_run) /\ (load <= Nat.max 1 1)%nat)
  /\ (forall th i, w_threads lost_wakeup_run !! th = Some (Holding i) ->
        exists load, sc_loads (w_sched lost_wakeup_run) !! i = Some load /\ (0 < load)%nat).
Proof.
  apply (slot_capacity_respected 1 1 3 2).
  unfold lost_wakeup_run. cbv zeta.
  eapply rtc_r; [|apply (world_advance 1)]. eapply rtc_r; [|apply (world_advance 0)].
  etrans; [|apply (iter_steps 5 1)]. eapply rtc_r; [|apply (world_call 1 (CallAcquire AcquireAny))].
  etrans; [|apply (iter_steps 4 0)]. eapply rtc_r; [done|apply (world_call 0 (CallAcquire AcquireAny))].
Defined.

(** Three slots: the second is idle, the third quarantined. *)
Definition three_slots : Scheduler := mkScheduler [1; 0; 0] 2 [0; 0; 0]%Z [false; false; true] 3.

Lemma acquire_least_loaded_witness :
  exists n, (n <= 3 * 3 + 2)%nat
    /\ ((exists i c, usable three_slots i c
           /\ solo n three_slots (Scan AcquireAny 0 None) = (set_loads (<[i := S c]> (sc_loads three_slots)) three_slots, Holding i)
           /\ forall j c', usable three_slots j c' -> (c < c')%nat \/ (c = c' /\ (i <= j)%nat))
        \/ ((forall j c', ~ usable three_slots j c')
            /\ solo n three_slots (Scan AcquireAny 0 None)
               = (three_slots, if (active_slots three_slots =? 0)%nat then AllQuarantined else Register AcquireAny))).
Proof. apply (acquire_least_loaded three_slots AcquireAny). reflexivity. Defined.

Lemma quarantine_permanent_witness :
  is_quarantined (w_sched (call_thread 0 (CallNoteSuccess 2) (mkWorld three_slots [Idle]))) 2 = true.
Proof.
  apply (quarantine_permanent (mkWorld three_slots [Idle]));
    [apply rtc_once, (world_call 0 (CallNoteSuccess 2))|simpl; lia|reflexivity].
Defined.

Lemma quarantine_by_streak_witness :
  sc_quarantined (note_all three_slots 0 [true; true; false; true; true; true; false]) !! 0%nat
  = Some (reaches 3 0 [true; true; false; true; true; true; false]).
Proof.
  apply (quarantine_by_streak three_slots 0 [true; true; false; true; true; true; false] 0);
    [simpl; lia|reflexivity|reflexivity|simpl; lia].
Defined.
End SchedulerExample.
