(* ===== verification/Json.v ===== *)
(** * JSON values

    What the program uses of [serde_json]: values, lookup by key, indexed
    assignment and removal of fields. *)

From Stdlib Require Import ZArith Lia Ascii.
From stdpp Require Import base list strings gmap numbers option pretty countable.
From S2P Require Import Prelude.

#[local] Set Warnings "-register-all".

(** A number keeps its integer, or the text it is written as when it is not
    one ([Number::to_string]). *)
Inductive JsonNumber := JInt (z : Z) | JFloat (text : string).

(** [serde_json::Value]; an object is its fields in iteration order, and its
    keys are distinct. *)
Inductive Value :=
| JNull
| JBool (b : bool)
| JNumber (n : JsonNumber)
| JString (s : string)
| JArray (l : list Value)
| JObject (fields : list (string * Value)).

(** Induction under the lists of arrays and objects. *)
Fixpoint value_ind (P : Value -> Prop)
    (Pnull : P JNull) (Pbool : forall b, P (JBool b)) (Pnumber : forall n, P (JNumber n))
    (Pstring : forall s, P (JString s)) (Parray : forall l, Forall P l -> P (JArray l))
    (Pobject : forall fields, Forall (fun kv => P (snd kv)) fields -> P (JObject fields))
    (v : Value) : P v :=
  let rec := value_ind P Pnull Pbool Pnumber Pstring Parray Pobject in
  match v with
  | JNull => Pnull
  | JBool b => Pbool b
  | JNumber n => Pnumber n
  | JString s => Pstring s
  | JArray l =>
      Parray l ((fix go l : Forall P l :=
           match l with [] => Forall_nil_2 P | v :: l => Forall_cons_2 P v l (rec v) (go l) end) l)
  | JObject fields =>
      Pobject fields
        ((fix go l : Forall (fun kv => P (snd kv)) l := match l with
           | [] => Forall_nil_2 _
           | kv :: l => Forall_cons_2 (fun kv => P (snd kv)) kv l (rec (snd kv)) (go l)
           end) fields)
  end.

(** [Value::get] with a key: only objects have keys. *)
Fixpoint assoc_get (fields : list (string * Value)) (key : string) : option Value :=
  match fields with
  | [] => None
  | (k, v) :: rest => if decide (k = key) then Some v else assoc_get rest key
  end.
Definition json_get (v : Value) (key : string) : option Value :=
  match v with JObject fields => assoc_get fields key | _ => None end.
Definition as_str (v : Value) : option string := match v with JString s => Some s | _ => None end.
Definition as_object (v : Value) : option (list (string * Value)) :=
  match v with JObject fields => Some fields | _ => None end.
Definition as_array (v : Value) : option (list Value) := match v with JArray l => Some l | _ => None end.

(** [payload[key] = value]: replaces or appends; indexing a value that is
    neither an object nor null panics, null becomes an object. *)
Fixpoint assoc_set (fields : list (string * Value)) (key : string) (v : Value) : list (string * Value) :=
  match fields with
  | [] => [(key, v)]
  | (k, w) :: rest => if decide (k = key) then (k, v) :: rest else (k, w) :: assoc_set rest key v
  end.
Definition json_set (payload : Value) (key : string) (v : Value) : option Value :=
  match payload with
  | JObject fields => Some (JObject (assoc_set fields key v))
  | JNull => Some (JObject [(key, v)])
  | _ => None
  end.

(** [Map::remove]: the field's value and the remaining fields. *)
Fixpoint assoc_remove (fields : list (string * Value)) (key : string)
  : option Value * list (string * Value) :=
  match fields with
  | [] => (None, [])
  | (k, v) :: rest =>
      if decide (k = key) then (Some v, rest)
      else let '(o, rest') := assoc_remove rest key in (o, (k, v) :: rest')
  end.

(** [Number::to_string]. *)
Definition number_to_string (n : JsonNumber) : string :=
  match n with
  | JInt z => pretty z
  | JFloat text => text
  end.

Lemma assoc_remove_spec fields key :
  fst (assoc_remove fields key) = assoc_get fields key
  /\ (NoDup (map fst fields) ->
      forall k, assoc_get (snd (assoc_remove fields key)) k
                = if decide (k = key) then None else assoc_get fields k).
Proof.
  induction fields as [|[k v] fields [IH1 IH2]]; simpl.
  { split; [done|]. intros _ k. by case_decide. }
  case_decide as E; simpl.
  - subst. split; [done|]. intros Hnd k'. apply list.NoDup_cons in Hnd as [Hk _].
    destruct (decide (k' = key)) as [->|Hne]; [|by rewrite decide_False by congruence].
    clear -Hk. induction fields as [|[j w] fields IH]; [done|]. simpl in *.
    apply not_elem_of_cons in Hk as [? ?]. rewrite decide_False by congruence. by apply IH.
  - destruct (assoc_remove fields key) as [o rest]. simpl in *. split; [done|].
    intros Hnd k'. apply list.NoDup_cons in Hnd as [_ Hnd]. specialize (IH2 Hnd k').
    destruct (decide (k = k')) as [->|Hne]; simpl; [|done].
    by rewrite decide_False by congruence.
Qed.

(** A value that [payload[key] = value] accepts. *)
Definition json_indexable (v : Value) : bool :=
  match v with JObject _ | JNull => true | _ => false end.

Lemma assoc_get_set fields key v k :
  assoc_get (assoc_set fields key v) k = if decide (k = key) then Some v else assoc_get fields k.
Proof.
  induction fields as [|[j w] fields IH]; simpl.
  { by repeat case_decide; simplify_eq. }
  destruct (decide (j = key)) as [->|Hj]; simpl; [by repeat case_decide; simplify_eq|].
  rewrite IH. by repeat case_decide; simplify_eq.
Qed.

Lemma json_set_Some payload key v payload' :
  json_set payload key v = Some payload' ->
  json_indexable payload = true /\ json_indexable payload' = true
  /\ forall k, json_get payload' k = if decide (k = key) then Some v else json_get payload k.
Proof.
  destruct payload; intros; simplify_eq/=; (split; [done|]); (split; [done|]); intros k.
  - by repeat case_decide; simplify_eq.
  - apply assoc_get_set.
Qed.

Lemma json_set_None payload key v : json_set payload key v = None <-> json_indexable payload = false.
Proof. by destruct payload. Qed.

(** ** A text of values

    One text for each value, between brackets, that is read back: a model of
    the printing and parsing the code takes from [serde_json]. *)
Fixpoint value_tree (v : Value) : gen_tree (string + Z) :=
  match v with
  | JNull => GenNode 0 []
  | JBool b => GenNode (if b then 2 else 1) []
  | JNumber (JInt z) => GenNode 3 [GenLeaf (inr z)]
  | JNumber (JFloat t) => GenNode 4 [GenLeaf (inl t)]
  | JString s => GenNode 5 [GenLeaf (inl s)]
  | JArray l => GenNode 6 (map value_tree l)
  | JObject fields => GenNode 7 (map (fun kv => GenNode 8 [GenLeaf (inl (fst kv)); value_tree (snd kv)]) fields)
  end.

Fixpoint tree_value (t : gen_tree (string + Z)) : Value :=
  match t with
  | GenNode 1 _ => JBool false
  | GenNode 2 _ => JBool true
  | GenNode 3 [GenLeaf (inr z)] => JNumber (JInt z)
  | GenNode 4 [GenLeaf (inl t)] => JNumber (JFloat t)
  | GenNode 5 [GenLeaf (inl s)] => JString s
  | GenNode 6 l => JArray (map tree_value l)
  | GenNode 7 l =>
      JObject (map (fun t => match t with
                             | GenNode 8 [GenLeaf (inl k); v] => (k, tree_value v)
                             | _ => (EmptyString, JNull)
                             end) l)
  | _ => JNull
  end.

Lemma value_tree_value v : tree_value (value_tree v) = v.
Proof.
  induction v as [|[]|[]|s|l IH|fields IH] using value_ind; simpl; try done; f_equal; rewrite map_map.
  - induction IH as [|v l Hv _ IH]; [done|]. simpl. by rewrite Hv, IH.
  - induction IH as [|[k v] l Hv _ IH]; [done|]. simpl in *. by rewrite Hv, IH.
Qed.

#[global] Instance Value_eq_dec : EqDecision Value.
Proof.
  intros v v'. destruct (decide (value_tree v = value_tree v')) as [H|H]; [left|right].
  - by rewrite <- (value_tree_value v), <- (value_tree_value v'), H.
  - by intros ->.
Defined.

#[global] Instance Value_countable : Countable Value := inj_countable' value_tree tree_value value_tree_value.

Fixpoint bits_of (p : positive) : string :=
  match p with
  | xH => "]"
  | xO p => String "0"%char (bits_of p)
  | xI p => String "1"%char (bits_of p)
  end.
Fixpoint of_bits (s : string) : option positive :=
  match s with
  | String "]"%char "" => Some xH
  | String "0"%char s => xO <$> of_bits s
  | String "1"%char s => xI <$> of_bits s
  | _ => None
  end.

Lemma of_bits_of p : of_bits (bits_of p) = Some p.
Proof. induction p as [p IH|p IH|]; simpl; by rewrite ?IH. Qed.

Lemma bits_end p : exists s, bits_of p = s +:+ "]".
Proof.
  induction p as [p [s IH]|p [s IH]|]; [exists (String "1"%char s)|exists (String "0"%char s)|by exists ""];
    simpl; by rewrite IH.
Qed.

Definition value_text (v : Value) : string := String "["%char (bits_of (encode v)).
Definition value_of_text (s : string) : option Value :=
  match s with String "["%char s => p ← of_bits s; decode p | _ => None end.

Lemma value_of_value_text v : value_of_text (value_text v) = Some v.
Proof. simpl. rewrite of_bits_of. apply decode_encode. Qed.

Lemma trim_front_stop w2 w3 a s :
  ws1 a = false -> (forall b, w2 a b = false) -> (forall b c, w3 a b c = false) ->
  trim_front w2 w3 (String a s) = String a s.
Proof.
  intros H1 H2 H3. simpl. rewrite H1. destruct s as [|b s]; [done|]. rewrite H2.
  destruct s as [|c s]; [done|]. by rewrite H3.
Qed.

Lemma value_text_trim v : str_trim (value_text v) = value_text v.
Proof.
  unfold value_text. destruct (bits_end (encode v)) as [s ->]. unfold str_trim, str_trim_start, str_trim_end.
  rewrite trim_front_stop by done. set (t := String _ _).
  assert (String.rev t = String "]"%char (String.rev (String "["%char s))) as Ht.
  { change t with (String "["%char s +:+ "]"). by rewrite str_rev_app. }
  rewrite Ht, trim_front_stop, <- Ht; [apply str_rev_involutive|done|..]; intros; unfold ws2, ws3;
    simpl; by rewrite ?andb_false_r.
Qed.
