(* ===== verification/JsonLines.v ===== *)
(** * Files of JSON lines

    What the program uses of the standard library and of [serde_json] to
    write and read append-only files: UTF-8 validation ([str::from_utf8]), the
    lines of a reader ([BufRead::lines]), the text of a value with its laws,
    and the field access of derived [Serialize] and [Deserialize]
    implementations. *)

From Stdlib Require Import ZArith Lia Ascii.
From stdpp Require Import base list strings gmap numbers option.
From S2P Require Import Prelude Json.

#[local] Set Warnings "-register-all".

(** ** UTF-8 *)

Definition utf8_tail : ascii -> bool := byte_in 128 191.

(** The bytes that may follow a first byte, up to the common tail. *)
Definition utf8_second3 (a b : ascii) : bool :=
  (byte_is 224 a && byte_in 160 191 b) || (byte_in 225 236 a && byte_in 128 191 b)
  || (byte_is 237 a && byte_in 128 159 b) || (byte_in 238 239 a && byte_in 128 191 b).
Definition utf8_second4 (a b : ascii) : bool :=
  (byte_is 240 a && byte_in 144 191 b) || (byte_in 241 243 a && byte_in 128 191 b)
  || (byte_is 244 a && byte_in 128 143 b).

Fixpoint utf8_valid (s : string) : bool :=
  match s with
  | EmptyString => true
  | String a r =>
      if byte_in 0 127 a then utf8_valid r
      else match r with
      | String b r2 =>
          if byte_in 194 223 a then utf8_tail b && utf8_valid r2
          else match r2 with
          | String c r3 =>
              if byte_in 224 239 a then utf8_second3 a b && utf8_tail c && utf8_valid r3
              else match r3 with
              | String d r4 => utf8_second4 a b && utf8_tail c && utf8_tail d && utf8_valid r4
              | EmptyString => false
              end
          | EmptyString => false
          end
      | EmptyString => false
      end
  end.

Lemma utf8_valid_ascii s : str_forall (byte_in 0 127) s = true -> utf8_valid s = true.
Proof.
  induction s as [|a s IH]; [done|]. simpl. intros [Ha Hs]%andb_prop. rewrite Ha. auto.
Qed.

(** [String::from_utf8_lossy]: a maximal invalid part becomes U+FFFD. *)
Definition replacement_char : string := String "239"%char (String "191"%char (String "189"%char "")).
Fixpoint from_utf8_lossy (s : string) : string :=
  match s with
  | EmptyString => EmptyString
  | String a r =>
      if byte_in 0 127 a then String a (from_utf8_lossy r)
      else match r with
      | EmptyString => replacement_char
      | String b r2 =>
          if byte_in 194 223 a && utf8_tail b then String a (String b (from_utf8_lossy r2))
          else if byte_in 224 239 a && utf8_second3 a b then
            match r2 with
            | String c r3 => if utf8_tail c then String a (String b (String c (from_utf8_lossy r3)))
                             else replacement_char +:+ from_utf8_lossy r2
            | EmptyString => replacement_char
            end
          else if utf8_second4 a b then
            match r2 with
            | String c r3 =>
                if utf8_tail c then
                  match r3 with
                  | String d r4 => if utf8_tail d then String a (String b (String c (String d (from_utf8_lossy r4))))
                                   else replacement_char +:+ from_utf8_lossy r3
                  | EmptyString => replacement_char
                  end
                else replacement_char +:+ from_utf8_lossy r2
            | EmptyString => replacement_char
            end
          else replacement_char +:+ from_utf8_lossy r
      end
  end.

(** Valid text is taken as it is. *)
Lemma from_utf8_lossy_valid s : utf8_valid s = true -> from_utf8_lossy s = s.
Proof.
  assert (forall k s, String.length s <= k -> utf8_valid s = true -> from_utf8_lossy s = s) as Hk; [|by apply (Hk (String.length s))].
  clear s. induction k as [|k IH]; intros s Hlen Hs; (destruct s as [|a r]; [done|]); simpl in Hlen; [lia|].
  cbn [utf8_valid from_utf8_lossy] in Hs |- *. destruct (byte_in 0 127 a); [by rewrite IH by (lia || done)|].
  destruct r as [|b r2]; [done|]. destruct (byte_in 194 223 a) eqn:H2; simpl in Hlen.
  { apply andb_prop in Hs as [-> Hr]. simpl. by rewrite IH by (lia || done). }
  destruct r2 as [|c r3]; [done|]. destruct (byte_in 224 239 a) eqn:H3; simpl in Hlen.
  { apply andb_prop in Hs as [[-> Hc]%andb_prop Hr]. cbn [andb]. rewrite Hc. by rewrite IH by (lia || done). }
  destruct r3 as [|d r4]; [done|]. apply andb_prop in Hs as [[[-> Hc]%andb_prop Hd]%andb_prop Hr]. simpl in Hlen.
  cbn [andb]. rewrite Hc, Hd. by rewrite IH by (lia || done).
Qed.

(** ** Lines *)

Definition newline : string := String "010"%char "".
Definition no_newline (s : string) : bool := str_forall (fun a => negb (byte_is 10 a)) s.
Definition strip_cr (s : string) : string := default s (str_strip_suffix (String "013"%char "") s).

(** [BufRead::lines]: a terminated line loses its line feed and one carriage
    return before it; what follows the last line feed is a line when it is not
    empty; a line that is not valid UTF-8 is an error. *)
Fixpoint terminated_lines (pieces : list string) : list string :=
  match pieces with
  | [] => []
  | [last] => if bool_decide (last = "") then [] else [last]
  | line :: rest => strip_cr line :: terminated_lines rest
  end.
Definition checked_line (s : string) : option string := if utf8_valid s then Some s else None.
Definition read_lines (contents : string) : list (option string) :=
  map checked_line (terminated_lines (str_split 10 contents)).

Lemma str_split_line line rest :
  no_newline line = true -> str_split 10 (line +:+ newline +:+ rest) = line :: str_split 10 rest.
Proof.
  induction line as [|a line IH]; [done|]. intros [Ha Hl]%andb_prop. simpl.
  apply negb_true_iff in Ha. rewrite Ha. simpl in IH. by rewrite IH.
Qed.

Lemma str_split_no_newline line : no_newline line = true -> str_split 10 line = [line].
Proof.
  induction line as [|a line IH]; [done|]. intros [Ha Hl]%andb_prop. simpl.
  apply negb_true_iff in Ha. by rewrite Ha, IH.
Qed.

Lemma str_split_ne k s : str_split k s <> [].
Proof. destruct s as [|a s]; simpl; [done|]. destruct (byte_is k a); [done|]. by destruct (str_split k s). Qed.

Lemma terminated_lines_cons line rest :
  terminated_lines (line :: str_split 10 rest) = strip_cr line :: terminated_lines (str_split 10 rest).
Proof.
  pose proof (str_split_ne 10 rest). by destruct (str_split 10 rest) as [|? ?].
Qed.

Lemma read_lines_line line rest :
  no_newline line = true ->
  read_lines (line +:+ newline +:+ rest) = checked_line (strip_cr line) :: read_lines rest.
Proof. intros Hl. unfold read_lines. by rewrite str_split_line, terminated_lines_cons. Qed.

Lemma read_lines_tail tail :
  no_newline tail = true -> read_lines tail = if bool_decide (tail = "") then [] else [checked_line tail].
Proof. intros Ht. unfold read_lines. rewrite str_split_no_newline by done. simpl. by case_bool_decide. Qed.

(** ** The text of a value *)

(** [serde_json::to_string] and [from_str]: a printed value parses back, and
    takes one line. *)
Class JsonText := {
  json_text : Value -> string;
  json_parse : string -> option Value;
  json_text_parse : forall v, json_parse (str_trim (json_text v)) = Some v;
  json_text_not_blank : forall v, str_blank (json_text v) = false;
  json_text_one_line : forall v, no_newline (json_text v) = true /\ strip_cr (json_text v) = json_text v;
  json_text_utf8 : forall v, utf8_valid (json_text v) = true;
}.

Lemma bits_chars p : str_forall (byte_in 48 93) (bits_of p) = true.
Proof. by induction p. Qed.

Lemma value_text_chars v : str_forall (byte_in 48 93) (value_text v) = true.
Proof. unfold value_text. apply (bits_chars (encode v)). Qed.

Lemma strip_cr_id s c : c <> "013"%char -> strip_cr (s +:+ String c "") = s +:+ String c "".
Proof.
  intros Hc. unfold strip_cr, str_strip_suffix. rewrite str_rev_app. simpl.
  by rewrite bool_decide_eq_false_2 by congruence.
Qed.

#[refine] Instance value_json : JsonText := {| json_text := value_text; json_parse := value_of_text |}.
Proof.
  - intros v. rewrite value_text_trim. apply value_of_value_text.
  - intros v. unfold str_blank. by rewrite value_text_trim.
  - intros v. split.
    + eapply str_forall_impl; [|apply value_text_chars]. intros c Hc. unfold byte_in, byte_is in *.
      apply andb_prop in Hc as [?%N.leb_le ?%N.leb_le]. apply negb_true_iff, N.eqb_neq. lia.
    + unfold value_text. destruct (bits_end (encode v)) as [s ->].
      by apply (strip_cr_id (String "["%char s)).
  - intros v. apply utf8_valid_ascii. eapply str_forall_impl; [|apply value_text_chars]. intros c Hc.
    unfold byte_in in *. apply andb_prop in Hc as [?%N.leb_le ?%N.leb_le]. apply andb_true_iff.
    split; apply N.leb_le; lia.
Defined.

(** ** Derived serialization *)

(** One field; one written only when a condition holds; an [Option] skipped
    when it is [None]; an [Option] written as null. *)
Definition field (key : string) (v : Value) : list (string * Value) := [(key, v)].
Definition field_if (present : bool) (key : string) (v : Value) : list (string * Value) :=
  if present then [(key, v)] else [].
Definition field_opt {A} (key : string) (f : A -> Value) (o : option A) : list (string * Value) :=
  match o with Some a => [(key, f a)] | None => [] end.


Definition field_null {A} (key : string) (f : A -> Value) (o : option A) : list (string * Value) :=
  [(key, match o with Some a => f a | None => JNull end)].

(** A required field; an [Option] (missing and null are [None]); a field with
    a default. *)
Definition get_field {A} (v : Value) (key : string) (decode : Value -> option A) : option A :=
  json_get v key ≫= decode.
Definition get_opt {A} (v : Value) (key : string) (decode : Value -> option A) : option (option A) :=
  match json_get v key with
  | None | Some JNull => Some None
  | Some w => Some <$> decode w
  end.
Definition get_default {A} (d : A) (v : Value) (key : string) (decode : Value -> option A) : option A :=
  match json_get v key with None => Some d | Some w => decode w end.

Definition as_bool (v : Value) : option bool := match v with JBool b => Some b | _ => None end.
Definition as_uint (max : Z) (v : Value) : option Z :=
  match v with
  | JNumber (JInt z) => if bool_decide (0 <= z <= max)%Z then Some z else None
  | _ => None
  end.
Definition as_vec {A} (decode : Value -> option A) (v : Value) : option (list A) :=
  match v with JArray l => mapM decode l | _ => None end.

Lemma as_uint_int max z : (0 <= z <= max)%Z -> as_uint max (JNumber (JInt z)) = Some z.
Proof. intros Hz. simpl. by rewrite bool_decide_eq_true_2. Qed.

Lemma as_vec_map {A} (decode : Value -> option A) (f : A -> Value) l :
  (forall a, a ∈ l -> decode (f a) = Some a) -> as_vec decode (JArray (map f l)) = Some l.
Proof.
  intros Hf. simpl. induction l as [|a l IH]; [done|]. simpl. rewrite Hf by left. simpl.
  rewrite IH; [done|]. intros b Hb. apply Hf. by right.
Qed.

(** Lookup in the fields of a derived serialization. *)
Lemma assoc_get_app l1 l2 key :
  assoc_get (l1 ++ l2) key = match assoc_get l1 key with Some v => Some v | None => assoc_get l2 key end.
Proof. induction l1 as [|[k v] l1 IH]; [done|]. simpl. by destruct (decide (k = key)). Qed.

Lemma assoc_get_opt {A} k key (f : A -> Value) o :
  assoc_get (field_opt k f o) key = if decide (k = key) then f <$> o else None.
Proof. destruct o; simpl; by destruct (decide (k = key)). Qed.

Lemma assoc_get_if b k key v :
  assoc_get (field_if b k v) key = if b then if decide (k = key) then Some v else None else None.
Proof. by destruct b. Qed.

Create Rewrite HintDb json_fields.
#[export] Hint Rewrite assoc_get_app @assoc_get_opt assoc_get_if : json_fields.
