(* ===== verification/Events.v ===== *)
(** * Runtime events

    Models [persisting-events/src/lib.rs]: the event envelope producers emit
    and consumers persist, and its validation. *)

From Stdlib Require Import ZArith.
From stdpp Require Import base list strings option.
From S2P Require Import Prelude Json.

Record EventIdentity := mkEventIdentity {
  ei_event_id : option string;
  ei_run_id : option string;
  ei_attempt_id : option string;
  ei_storyline_id : option string;
  ei_turn_id : option string;
  ei_timestamp_unix_ms : option Z;
  ei_producer : option string;
}.

(** [EventIdentity::default()]. *)
Definition identity_default : EventIdentity := mkEventIdentity None None None None None None None.

Record EventRecord := mkEventRecord {
  er_identity : EventIdentity;
  er_seq : Z;
  er_source : string;
  er_kind : string;
  er_timestamp : option string;
  er_session_id : option string;
  er_agent_id : option string;
  er_parent_uuid : option string;
  er_trace_id : option string;
  er_call_id : option string;
  er_subagent_id : option string;
  er_parent_agent_id : option string;
  er_branch : option string;
  er_parent_call_id : option string;
  er_payload : Value;
}.

Definition set_payload (r : EventRecord) (payload : Value) : EventRecord :=
  mkEventRecord (er_identity r) (er_seq r) (er_source r) (er_kind r) (er_timestamp r) (er_session_id r)
    (er_agent_id r) (er_parent_uuid r) (er_trace_id r) (er_call_id r) (er_subagent_id r)
    (er_parent_agent_id r) (er_branch r) (er_parent_call_id r) payload.

Inductive EventValidationError := MissingSource | MissingKind.

(** [EventRecord::validate]. *)
Definition validate (r : EventRecord) : result EventValidationError unit :=
  if str_blank (er_source r) then Err MissingSource
  else if str_blank (er_kind r) then Err MissingKind
  else Ok tt.

Lemma set_payload_id r : set_payload r (er_payload r) = r.
Proof. by destruct r. Qed.
#[export] Hint Rewrite set_payload_id : rust.
