(* ===== verification/TurnMachine.v ===== *)
(** * Gateway: the turn index of a story

    Models [persisting-gateway/src/engine/story/turn_machine.rs] with its read
    model ([model.rs], [ids.rs]) and the part of the record interpretation of
    [persisting-gateway/src/record.rs] that decides on turns: the JSON payload,
    internal requests (with the path routing of [protocol.rs]) and the visible
    user text.  The machine is generic in the extraction of assistant text from
    provider payloads ([dialogue_extract.rs]). *)

From Stdlib Require Import ZArith Lia.
From stdpp Require Import base list strings gmap numbers option pretty.
From S2P Require Import Prelude RuntimeTypes Json JsonLines Events.

#[local] Set Warnings "-clear-no-such-hyp".

(** ** Records *)

Definition non_empty (s : string) : option string := if str_blank s then None else Some s.

Fixpoint join (sep : string) (l : list string) : string :=
  match l with
  | [] => ""
  | [x] => x
  | x :: rest => x +:+ sep +:+ join sep rest
  end.



Definition content_to_string (v : Value) : option string :=
  match v with
  | JString s => Some s
  | JArray parts =>
      let out := omap (fun p => match json_get p "text" with Some t => as_str t | None => None end) parts in
      match out with
      | [] => None
      | _ => Some (join newline out)
      end
  | _ => None
  end.

Definition has_key (v : Value) (key : string) : bool :=
  match json_get v key with Some _ => true | None => false end.

Definition llm_inner_body (payload : Value) : option Value :=
  match json_get payload "body" with
  | None => None
  | Some wrap =>
      if has_key wrap "messages" || has_key wrap "choices" then Some wrap else json_get wrap "body"
  end.

(** The newest user message with readable content decides, blank or not. *)
Fixpoint last_user_text (messages_rev : list Value) : option string :=
  match messages_rev with
  | [] => None
  | msg :: rest =>
      if bool_decide ((json_get msg "role" ≫= as_str) = Some "user") then
        match json_get msg "content" ≫= content_to_string with
        | Some text => non_empty text
        | None => last_user_text rest
        end
      else last_user_text rest
  end.

Definition visible_user_from_payload (payload : Value) : option string :=
  match json_get payload "user_content" ≫= as_str with
  | Some s => non_empty s
  | None =>
      let messages :=
        match llm_inner_body payload ≫= (fun b => json_get b "messages") with
        | Some m => Some m
        | None => json_get payload "messages"
        end in
      match messages ≫= as_array with
      | Some l => last_user_text (rev l)
      | None => None
      end
  end.

(** ** Protocols *)

Inductive ProtocolKind :=
| ChatCompletions | Messages | Responses | Gemini | Embeddings | CountTokens | Realtime | Detect | Unknown.

#[global] Instance ProtocolKind_eq_dec : EqDecision ProtocolKind.
Proof. solve_decision. Defined.

(** [ProtocolKind::from_path]. *)
Definition protocol_from_path (path : string) : ProtocolKind :=
  let p := trim_end_matches (byte_is 47) path in
  if str_ends_with "/chat/completions" p || str_ends_with "chat/completions" p then ChatCompletions
  else if str_ends_with "/messages" p || (str_contains "/messages" p && negb (str_contains "count_tokens" p))
  then Messages
  else if str_ends_with "/responses" p then Responses
  else if str_contains "/models/" p
          && (str_ends_with ":generateContent" p || str_ends_with ":streamGenerateContent" p)
  then Gemini
  else if str_ends_with "/embeddings" p then Embeddings
  else if str_contains "count_tokens" p || str_ends_with "/count-tokens" p then CountTokens
  else if str_contains "/realtime" p then Realtime
  else if str_ends_with "/detect" p then Detect
  else Unknown.

Definition protocol_as_str (k : ProtocolKind) : string :=
  match k with
  | ChatCompletions => "chat_completions"
  | Messages => "messages"
  | Responses => "responses"
  | Gemini => "gemini"
  | Embeddings => "embeddings"
  | CountTokens => "count_tokens"
  | Realtime => "realtime"
  | Detect => "detect"
  | Unknown => "unknown"
  end.

(** [EventRecordExt::is_internal_llm_request]. *)
Definition is_internal_llm_request (rec : EventRecord) : bool :=
  bool_decide (er_kind rec = "llm.request")
  && (bool_decide ((json_get (er_payload rec) "protocol" ≫= as_str) = Some (protocol_as_str CountTokens))
      || match json_get (er_payload rec) "path" ≫= as_str with
         | Some path => bool_decide (protocol_from_path path = CountTokens)
         | None => false
         end).

(** ** The read model *)

Inductive TurnKind := Dialogue | Autonomous | Internal.
Inductive CallPhase := Request | Draft | Complete | Cancel.

#[global] Instance CallPhase_eq_dec : EqDecision CallPhase.
Proof. solve_decision. Defined.

Record TextBlock := mkTextBlock { tb_text : string; tb_call_id : option string }.

Record TurnCall := mkTurnCall {
  tc_call_id : string;
  tc_trace_id : string;
  tc_protocol : option string;
  tc_model : option string;
  tc_events : list CallPhase;
}.

Record Turn := mkTurn {
  tn_turn_id : string;
  tn_index : Z;
  tn_kind : TurnKind;
  tn_user : option TextBlock;
  tn_assistant : option TextBlock;
  tn_calls : list TurnCall;
}.

(** [TurnId::new]. *)
Definition turn_id_new (story_id : string) (index : Z) : string :=
  story_id +:+ "#turn-" +:+ pretty (Z.to_N index).

Record TurnMachine := mkTurnMachine {
  tm_story_id : string;
  tm_agent_id : string;
  tm_run_id : option string;
  tm_turns : list Turn;
  tm_active_turn : option string;
  tm_call_turns : gmap string string;
  tm_next_index : Z;
}.

Record TurnObserveOutcome := mkOutcome { oc_turn_id : option string; oc_turn_index : option Z }.

Definition machine_with_context (story_id agent_id : string) (run_id : option string) : TurnMachine :=
  mkTurnMachine story_id agent_id run_id [] None ∅ 0.

Definition set_story_meta (m : TurnMachine) (agent_id : string) (run_id : option string) : TurnMachine :=
  mkTurnMachine (tm_story_id m)
    (if bool_decide (tm_agent_id m = "") then agent_id else tm_agent_id m)
    (match tm_run_id m with None => run_id | r => r end)
    (tm_turns m) (tm_active_turn m) (tm_call_turns m) (tm_next_index m).

Definition set_index (m : TurnMachine) (turns : list Turn) (active : option string)
    (calls : gmap string string) (next : Z) : TurnMachine :=
  mkTurnMachine (tm_story_id m) (tm_agent_id m) (tm_run_id m) turns active calls next.

(** ** Operations *)

(** [turn_index] and [turn_mut]: the first turn with the id. *)
Definition find_turn (turns : list Turn) (turn_id : string) : option Turn :=
  List.find (fun t => bool_decide (tn_turn_id t = turn_id)) turns.
Definition turn_index (m : TurnMachine) (turn_id : string) : option Z :=
  option_map tn_index (find_turn (tm_turns m) turn_id).

Fixpoint update_turn (turns : list Turn) (turn_id : string) (f : Turn -> Turn) : list Turn :=
  match turns with
  | [] => []
  | t :: rest =>
      if bool_decide (tn_turn_id t = turn_id) then f t :: rest else t :: update_turn rest turn_id f
  end.

Definition set_calls (t : Turn) (calls : list TurnCall) : Turn :=
  mkTurn (tn_turn_id t) (tn_index t) (tn_kind t) (tn_user t) (tn_assistant t) calls.
Definition set_assistant (t : Turn) (a : TextBlock) : Turn :=
  mkTurn (tn_turn_id t) (tn_index t) (tn_kind t) (tn_user t) (Some a) (tn_calls t).

Definition add_event (c : TurnCall) (kind : CallPhase) : TurnCall :=
  if bool_decide (kind ∈ tc_events c) then c
  else mkTurnCall (tc_call_id c) (tc_trace_id c) (tc_protocol c) (tc_model c) (tc_events c ++ [kind]).

(** The first entry of the call gets the event; without one, a new entry. *)
Fixpoint add_call_event (calls : list TurnCall) (call_id : string) (kind : CallPhase) : list TurnCall :=
  match calls with
  | [] => [mkTurnCall call_id "" None None [kind]]
  | c :: rest =>
      if bool_decide (tc_call_id c = call_id) then add_event c kind :: rest
      else c :: add_call_event rest call_id kind
  end.

Definition ensure_call_in_turn (m : TurnMachine) (turn_id call_id : string) (kind : CallPhase) : TurnMachine :=
  match find_turn (tm_turns m) turn_id with
  | None => m
  | Some _ =>
      set_index m
        (update_turn (tm_turns m) turn_id (fun t => set_calls t (add_call_event (tn_calls t) call_id kind)))
        (tm_active_turn m) (<[call_id := turn_id]> (tm_call_turns m)) (tm_next_index m)
  end.

Definition ensure_call_on_active_turn (m : TurnMachine) (call_id : string) (kind : CallPhase)
  : option string * TurnMachine :=
  match tm_active_turn m with
  | None => (None, m)
  | Some turn_id => (Some turn_id, ensure_call_in_turn m turn_id call_id kind)
  end.

Definition ensure_call_for_call (m : TurnMachine) (call_id : string) (kind : CallPhase)
  : option string * TurnMachine :=
  match (match tm_call_turns m !! call_id with Some t => Some t | None => tm_active_turn m end) with
  | None => (None, m)
  | Some turn_id => (Some turn_id, ensure_call_in_turn m turn_id call_id kind)
  end.

Definition u32_wrap (z : Z) : Z := (z mod 2 ^ 32)%Z.

(** Opening a turn: the two record literals of [on_request]. *)
Definition open_turn (m : TurnMachine) (call_id : string) (kind : TurnKind) (user : option TextBlock)
  : TurnObserveOutcome * TurnMachine :=
  let index := tm_next_index m in
  let turn_id := turn_id_new (tm_story_id m) index in
  let turn := mkTurn turn_id index kind user None [mkTurnCall call_id "" None None [Request]] in
  (mkOutcome (Some turn_id) (Some index),
   set_index m (tm_turns m ++ [turn]) (Some turn_id) (<[call_id := turn_id]> (tm_call_turns m))
     (u32_wrap (index + 1))).

Definition outcome_of (r : option string * TurnMachine) : TurnObserveOutcome * TurnMachine :=
  let '(turn_id, m) := r in (mkOutcome turn_id (turn_id ≫= turn_index m), m).

Section Machine.
(** The assistant text of a payload. *)
Context (visible_assistant_text : Value -> option string).

Definition on_request (m : TurnMachine) (call_id : string) (rec : EventRecord)
  : TurnObserveOutcome * TurnMachine :=
  if is_internal_llm_request rec then outcome_of (ensure_call_on_active_turn m call_id Request)
  else match visible_user_from_payload (er_payload rec) with
       | Some text => open_turn m call_id Dialogue (Some (mkTextBlock text (Some call_id)))
       | None =>
           match tm_active_turn m with
           | Some _ => outcome_of (ensure_call_on_active_turn m call_id Request)
           | None => open_turn m call_id Autonomous None
           end
       end.

Definition on_response (m : TurnMachine) (call_id : string) (rec : EventRecord)
  : TurnObserveOutcome * TurnMachine :=
  let '(turn_id, m) := ensure_call_for_call m call_id Complete in
  let m :=
    match visible_assistant_text (er_payload rec), turn_id with
    | Some text, Some id =>
        set_index m (update_turn (tm_turns m) id (fun t => set_assistant t (mkTextBlock text (Some call_id))))
          (tm_active_turn m) (tm_call_turns m) (tm_next_index m)
    | _, _ => m
    end in
  outcome_of (turn_id, m).

Definition on_cancel (m : TurnMachine) (call_id : string) : TurnObserveOutcome * TurnMachine :=
  outcome_of (ensure_call_for_call m call_id Cancel).

Definition record_call_id (rec : EventRecord) : string :=
  match er_call_id rec with Some c => c | None => "unknown" end.

Definition apply_record (m : TurnMachine) (rec : EventRecord) : TurnObserveOutcome * TurnMachine :=
  let call_id := record_call_id rec in
  if bool_decide (er_kind rec = "llm.request") then on_request m call_id rec
  else if bool_decide (er_kind rec = "llm.response") || bool_decide (er_kind rec = "llm.response.stream")
  then on_response m call_id rec
  else if bool_decide (er_kind rec = "llm.call.cancelled") then on_cancel m call_id
  else (mkOutcome (tm_active_turn m) (tm_active_turn m ≫= turn_index m), m).

(** [observe_record]: the stamped record; [None] if the payload cannot be
    indexed by a key. *)
Definition stamp (rec : EventRecord) (o : TurnObserveOutcome) : option EventRecord :=
  match (match oc_turn_id o with
         | Some id => json_set (er_payload rec) "turn_id" (JString id)
         | None => Some (er_payload rec)
         end) with
  | None => None
  | Some payload =>
      match oc_turn_index o with
      | Some idx => option_map (set_payload rec) (json_set payload "turn_index" (JNumber (JInt idx)))
      | None => Some (set_payload rec payload)
      end
  end.

Definition observe_record (m : TurnMachine) (rec : EventRecord)
  : option EventRecord * TurnObserveOutcome * TurnMachine :=
  let '(o, m') := apply_record m rec in (stamp rec o, o, m').

(** [replay_records]. *)
Definition replay_records (story_id agent_id : string) (run_id : option string) (records : list EventRecord)
  : TurnMachine :=
  fold_left (fun m rec => snd (apply_record m rec)) records (machine_with_context story_id agent_id run_id).

(** ** Positions and ids *)

Lemma turn_id_inj story i j :
  (0 <= i)%Z -> (0 <= j)%Z -> turn_id_new story i = turn_id_new story j -> i = j.
Proof.
  unfold turn_id_new. intros Hi Hj H. apply (inj (String.app story)), (inj (String.app "#turn-")) in H.
  apply (inj pretty) in H. lia.
Qed.

(** The turns of a story from position [k] on. *)
Definition turns_from (story : string) (k : nat) (turns : list Turn) : Prop :=
  forall i t, turns !! i = Some t ->
    tn_index t = Z.of_nat (k + i) /\ tn_turn_id t = turn_id_new story (Z.of_nat (k + i)).

Lemma turns_from_cons story k t turns :
  turns_from story k (t :: turns) <->
  (tn_index t = Z.of_nat k /\ tn_turn_id t = turn_id_new story (Z.of_nat k)) /\ turns_from story (S k) turns.
Proof.
  unfold turns_from. split.
  - intros H. split; [rewrite <- (Nat.add_0_r k); by apply (H 0%nat)|].
    intros i u Hu. replace (S k + i)%nat with (k + S i)%nat by lia. by apply (H (S i)).
  - intros [H0 H] [|i] u Hu; simpl in Hu; [simplify_eq; by rewrite Nat.add_0_r|].
    replace (k + S i)%nat with (S k + i)%nat by lia. by apply H.
Qed.

Lemma id_at story k turns i :
  turns_from story k turns ->
  find_turn turns (turn_id_new story (Z.of_nat (k + i))) = turns !! i
  /\ forall f, update_turn turns (turn_id_new story (Z.of_nat (k + i))) f = alter f i turns.
Proof.
  revert k i. induction turns as [|t turns IH]; intros k i Hf; [done|].
  apply turns_from_cons in Hf as [[_ Hid] Hf]. unfold find_turn. simpl. rewrite Hid.
  destruct i as [|i].
  - rewrite Nat.add_0_r, bool_decide_true by done. done.
  - rewrite bool_decide_false by (intros E%turn_id_inj; lia).
    replace (k + S i)%nat with (S k + i)%nat by lia. destruct (IH (S k) i Hf) as [Hfind Hupd].
    split; [exact Hfind|]. intros f. by rewrite Hupd.
Qed.

Definition call_ids (t : Turn) : list string := map tc_call_id (tn_calls t).

(** Calls of a turn: each call once, each event of a call once. *)
Definition calls_ok (t : Turn) : Prop :=
  NoDup (call_ids t) /\ Forall (fun c => NoDup (tc_events c) /\ tc_events c <> []) (tn_calls t).

(** The invariant of the machine: the turns are numbered by their position,
    the active turn is the last one, and a call that is known is filed in the
    turn it is known for. *)
Record machine_wf (m : TurnMachine) : Prop := {
  wf_turns : turns_from (tm_story_id m) 0 (tm_turns m);
  wf_next : tm_next_index m = Z.of_nat (length (tm_turns m));
  wf_active : tm_active_turn m = option_map tn_turn_id (last (tm_turns m));
  wf_calls : forall c id, tm_call_turns m !! c = Some id ->
    exists i t, tm_turns m !! i = Some t /\ tn_turn_id t = id /\ c ∈ call_ids t;
  wf_turn_calls : Forall calls_ok (tm_turns m);
}.

(** What a turn keeps for good. *)
Definition turn_grows (t t' : Turn) : Prop :=
  tn_turn_id t' = tn_turn_id t /\ tn_index t' = tn_index t /\ tn_kind t' = tn_kind t
  /\ tn_user t' = tn_user t /\ call_ids t `prefix_of` call_ids t'.

#[local] Instance turn_grows_preorder : PreOrder turn_grows.
Proof.
  split; [by split|]. intros a b c (?&?&?&?&?) (?&?&?&?&?). split_and!; try congruence. by etrans.
Qed.

Definition turns_grow (turns turns' : list Turn) : Prop :=
  forall i t, turns !! i = Some t -> exists t', turns' !! i = Some t' /\ turn_grows t t'.

Lemma add_call_event_ids calls c k :
  map tc_call_id (add_call_event calls c k)
  = if bool_decide (c ∈ map tc_call_id calls) then map tc_call_id calls else map tc_call_id calls ++ [c].
Proof.
  induction calls as [|x calls IH]; [done|]. simpl.
  destruct (decide (tc_call_id x = c)) as [E|E].
  - rewrite bool_decide_true by done. rewrite (bool_decide_true (c ∈ _)) by (apply elem_of_cons; by left).
    assert (tc_call_id (add_event x k) = tc_call_id x) as Hid by (unfold add_event; by destruct (bool_decide (k ∈ _))).
    simpl. by rewrite Hid.
  - rewrite bool_decide_false by done. simpl. rewrite IH. case_bool_decide as E1.
    + by rewrite bool_decide_true by (apply elem_of_cons; by right).
    + by rewrite bool_decide_false by (rewrite elem_of_cons; naive_solver).
Qed.

Lemma add_call_event_ok t c k : calls_ok t -> calls_ok (set_calls t (add_call_event (tn_calls t) c k)).
Proof.
  intros [Hnd Hev]. unfold calls_ok, call_ids in *. simpl. split.
  - rewrite add_call_event_ids. case_bool_decide; [done|]. apply list.NoDup_app.
    split_and!; [done|set_solver|apply NoDup_singleton].
  - clear Hnd. induction Hev as [|x calls [Hx Hne] Hev IH]; simpl.
    { constructor; [|constructor]. split; [apply NoDup_singleton|done]. }
    case_bool_decide; constructor; try done. unfold add_event. case_bool_decide as Hk; [done|]. simpl.
    split; [|by destruct (tc_events x)]. apply list.NoDup_app. split_and!; [done|set_solver|apply NoDup_singleton].
Qed.

Lemma alter_grows f i turns :
  (forall t, turns !! i = Some t -> turn_grows t (f t)) -> turns_grow turns (alter f i turns).
Proof.
  intros Hf j t Hj. destruct (decide (i = j)) as [->|Hne].
  - exists (f t). split; [by rewrite list_lookup_alter_eq, Hj|by apply Hf].
  - exists t. by rewrite list_lookup_alter_ne.
Qed.

(** Changing one turn so that it grows keeps the machine well formed. *)
Lemma alter_wf m f i calls :
  machine_wf m ->
  (forall t, tm_turns m !! i = Some t -> turn_grows t (f t) /\ calls_ok (f t)) ->
  (forall c id, calls !! c = Some id ->
     exists j t, alter f i (tm_turns m) !! j = Some t /\ tn_turn_id t = id /\ c ∈ call_ids t) ->
  machine_wf (set_index m (alter f i (tm_turns m)) (tm_active_turn m) calls (tm_next_index m)).
Proof.
  intros [Ht Hn Ha Hc Hk] Hf Hcalls. split; simpl.
  - intros j t Hj. destruct (decide (i = j)) as [->|Hne].
    + rewrite list_lookup_alter_eq in Hj. destruct (tm_turns m !! j) as [t0|] eqn:E; simplify_eq/=.
      destruct (Hf t0 eq_refl) as [(-> & -> & _) _]. by apply Ht.
    + rewrite list_lookup_alter_ne in Hj by done. by apply Ht.
  - by rewrite length_alter.
  - rewrite Ha, !last_lookup, length_alter.
    destruct (decide (i = pred (length (tm_turns m)))) as [->|Hne];
      [rewrite list_lookup_alter_eq|by rewrite list_lookup_alter_ne].
    destruct (tm_turns m !! _) as [t|] eqn:E; simpl; [|done]. by destruct (Hf t eq_refl) as [(-> & _) _].
  - done.
  - apply Forall_alter; [done|]. intros t Et _. by apply Hf.
Qed.

Lemma alter_calls_filed m f i c :
  machine_wf m -> (exists t, tm_turns m !! i = Some t) ->
  (forall t, tm_turns m !! i = Some t -> turn_grows t (f t) /\ c ∈ call_ids (f t)) ->
  forall c' id, <[c := turn_id_new (tm_story_id m) (Z.of_nat i)]> (tm_call_turns m) !! c' = Some id ->
    exists j t, alter f i (tm_turns m) !! j = Some t /\ tn_turn_id t = id /\ c' ∈ call_ids t.
Proof.
  intros Hwf [t0 Ht0] Hf c' id Hc'. destruct (Hf t0 Ht0) as [Hg0 Hin0].
  destruct (decide (c' = c)) as [->|Hne].
  - rewrite lookup_insert_eq in Hc'. simplify_eq. exists i, (f t0).
    rewrite list_lookup_alter_eq, Ht0. split; [done|]. split; [|done].
    destruct Hg0 as (-> & _). by apply (wf_turns m Hwf).
  - rewrite lookup_insert_ne in Hc' by done. destruct (wf_calls m Hwf c' id Hc') as (j & t & Hj & Hid & Hin).
    destruct (alter_grows f i (tm_turns m) (fun t H => proj1 (Hf t H)) j t Hj) as (t' & Hj' & Hg).
    exists j, t'. split; [done|]. destruct Hg as (-> & _ & _ & _ & Hpre). split; [done|].
    by eapply elem_of_prefix.
Qed.

Lemma add_call_event_grows t c k :
  turn_grows t (set_calls t (add_call_event (tn_calls t) c k))
  /\ c ∈ call_ids (set_calls t (add_call_event (tn_calls t) c k)).
Proof.
  unfold turn_grows, call_ids. simpl. rewrite add_call_event_ids. case_bool_decide.
  - done.
  - split; [|set_solver]. split_and!; try done. by eexists.
Qed.

(** [id] is the id of the turn at some position. *)
Definition turn_at (m : TurnMachine) (id : string) (i : nat) : Prop :=
  (i < length (tm_turns m))%nat /\ id = turn_id_new (tm_story_id m) (Z.of_nat i).

Lemma active_at m id : machine_wf m -> tm_active_turn m = Some id -> exists i, turn_at m id i.
Proof.
  intros Hwf H. rewrite (wf_active m Hwf), last_lookup in H.
  destruct (tm_turns m !! _) as [t|] eqn:E; simplify_eq/=.
  exists (pred (length (tm_turns m))). split; [by eapply lookup_lt_Some|]. by apply (wf_turns m Hwf) in E as [_ ->].
Qed.

Lemma active_none m : machine_wf m -> tm_active_turn m = None -> tm_turns m = [].
Proof.
  intros Hwf H. rewrite (wf_active m Hwf) in H. apply option_map_None in H. by apply last_None.
Qed.

Lemma call_at m c id : machine_wf m -> tm_call_turns m !! c = Some id -> exists i, turn_at m id i.
Proof.
  intros Hwf H. destruct (wf_calls m Hwf c id H) as (i & t & Hi & <- & _). exists i.
  split; [by eapply lookup_lt_Some|]. by apply (wf_turns m Hwf) in Hi as [_ ->].
Qed.

Lemma turn_index_at m id i : machine_wf m -> turn_at m id i -> turn_index m id = Some (Z.of_nat i).
Proof.
  intros Hwf [Hi ->]. unfold turn_index.
  destruct (id_at _ 0 (tm_turns m) i (wf_turns m Hwf)) as [Hfind _]. simpl in Hfind. rewrite Hfind.
  destruct (lookup_lt_is_Some_2 _ _ Hi) as [t Ht]. rewrite Ht. simpl. by apply (wf_turns m Hwf) in Ht as [-> _].
Qed.

(** What every operation keeps, and where it files call [c]. *)
Record op_ok (m m' : TurnMachine) (c : string) : Prop := {
  op_wf : machine_wf m';
  op_story : tm_story_id m' = tm_story_id m;
  op_grow : turns_grow (tm_turns m) (tm_turns m');
  op_len : (length (tm_turns m) <= length (tm_turns m') <= S (length (tm_turns m)))%nat;
  op_frame : forall c', c' <> c -> tm_call_turns m' !! c' = tm_call_turns m !! c';
}.

Lemma op_refl m c : machine_wf m -> op_ok m m c.
Proof. intros. split; try done; [|lia]. intros i t Ht. by exists t. Qed.

Lemma ensure_call_in_turn_ok m id i c k :
  machine_wf m -> turn_at m id i ->
  let m' := ensure_call_in_turn m id c k in
  op_ok m m' c /\ turn_at m' id i /\ tm_call_turns m' !! c = Some id
  /\ length (tm_turns m') = length (tm_turns m).
Proof.
  intros Hwf [Hi ->]. destruct (lookup_lt_is_Some_2 _ _ Hi) as [t Ht].
  destruct (id_at _ 0 (tm_turns m) i (wf_turns m Hwf)) as [Hfind Hupd]. simpl in Hfind, Hupd.
  unfold ensure_call_in_turn. rewrite Hfind, Ht, Hupd. cbv zeta.
  set (f := fun t => set_calls t (add_call_event (tn_calls t) c k)).
  assert (forall t, turn_grows t (f t) /\ c ∈ call_ids (f t)) as Hf by (intros; apply add_call_event_grows).
  split; [split; simpl|split; [|split]].
  - apply alter_wf; [done| |].
    + intros u Hu. split; [apply Hf|]. apply add_call_event_ok.
      by apply (Forall_lookup_1 _ _ _ _ (wf_turn_calls m Hwf) Hu).
    + apply alter_calls_filed; [done|by eexists|]. intros; apply Hf.
  - done.
  - apply alter_grows. intros; apply Hf.
  - rewrite length_alter. lia.
  - intros c' Hc. by apply lookup_insert_ne.
  - split; simpl; [by rewrite length_alter|done].
  - apply lookup_insert_eq.
  - simpl. apply length_alter.
Qed.

Definition outcome_at (m : TurnMachine) (o : TurnObserveOutcome) : Prop :=
  (o = mkOutcome None None /\ tm_turns m = [])
  \/ exists id i, turn_at m id i /\ o = mkOutcome (Some id) (Some (Z.of_nat i)).

Lemma open_turn_ok m c kind user o m' :
  machine_wf m -> (Z.of_nat (length (tm_turns m)) + 1 < 2 ^ 32)%Z ->
  open_turn m c kind user = (o, m') ->
  op_ok m m' c /\ outcome_at m' o /\ (forall id, oc_turn_id o = Some id -> tm_call_turns m' !! c = Some id).
Proof.
  intros Hwf Hb H. unfold open_turn in H. cbv zeta in H. injection H as <- <-. rewrite (wf_next m Hwf).
  set (n := length (tm_turns m)). set (id := turn_id_new _ _). set (t := mkTurn _ _ _ _ _ _).
  assert (forall j u, tm_turns m !! j = Some u -> (tm_turns m ++ [t]) !! j = Some u) as Hkeep
    by (intros; by apply lookup_app_l_Some).
  assert ((tm_turns m ++ [t]) !! n = Some t) as Hnew by (by apply list_lookup_middle).
  split; [split; simpl|split].
  - split; simpl.
    + intros j u Hj. apply lookup_app_Some in Hj as [Hj|[Hj Hu]]; [by apply (wf_turns m Hwf)|].
      apply list_lookup_singleton_Some in Hu as [Hz <-]. by replace (0 + j)%nat with n by (unfold n; lia).
    + unfold u32_wrap. rewrite Z.mod_small by (unfold n; lia). rewrite length_app. simpl. unfold n. lia.
    + by rewrite last_snoc.
    + intros c' id' Hc'. destruct (decide (c' = c)) as [->|Hne].
      * rewrite lookup_insert_eq in Hc'. simplify_eq. exists n, t. split; [done|]. split; [done|].
        apply list_elem_of_singleton. done.
      * rewrite lookup_insert_ne in Hc' by done.
        destruct (wf_calls m Hwf c' id' Hc') as (j & u & Hj & ? & ?). exists j, u. auto.
    + apply Forall_app. split; [apply (wf_turn_calls m Hwf)|]. constructor; [|constructor].
      split; [apply NoDup_singleton|]. constructor; [|constructor]. split; [apply NoDup_singleton|done].
  - done.
  - intros j u Hj. exists u. split; [by apply Hkeep|done].
  - rewrite length_app. simpl. lia.
  - intros c' Hc'. by apply lookup_insert_ne.
  - right. exists id, n. split; [|done]. split; [simpl; rewrite length_app; simpl; unfold n; lia|done].
  - simpl. intros id' [= <-]. apply lookup_insert_eq.
Qed.

Lemma outcome_of_ok m m' id i c :
  op_ok m m' c -> turn_at m' id i -> outcome_of (Some id, m') = (mkOutcome (Some id) (Some (Z.of_nat i)), m').
Proof. intros Hop Hat. unfold outcome_of. simpl. by rewrite (turn_index_at m' id i (op_wf _ _ _ Hop) Hat). Qed.

(** Filing an event of [c] in a known turn. *)
Lemma file_event_ok m id i c k o m' :
  machine_wf m -> turn_at m id i -> outcome_of (Some id, ensure_call_in_turn m id c k) = (o, m') ->
  op_ok m m' c /\ outcome_at m' o /\ oc_turn_id o = Some id
  /\ (forall id', oc_turn_id o = Some id' -> tm_call_turns m' !! c = Some id').
Proof.
  intros Hwf Hat H. destruct (ensure_call_in_turn_ok m id i c k Hwf Hat) as (Hop & Hat' & Hc & _).
  rewrite (outcome_of_ok _ _ _ _ _ Hop Hat') in H. injection H as <- <-.
  split; [done|]. split; [right; by exists id, i|]. split; [done|]. simpl. by intros id' [= <-].
Qed.

Lemma set_assistant_ok m id i c a :
  machine_wf m -> turn_at m id i -> tm_call_turns m !! c = Some id ->
  let m' := set_index m (update_turn (tm_turns m) id (fun t => set_assistant t a))
              (tm_active_turn m) (tm_call_turns m) (tm_next_index m) in
  op_ok m m' c /\ turn_at m' id i.
Proof.
  intros Hwf [Hi ->] Hc. destruct (id_at _ 0 (tm_turns m) i (wf_turns m Hwf)) as [_ Hupd]. simpl in Hupd.
  cbv zeta. rewrite Hupd. set (f := fun t => set_assistant t a).
  assert (forall t, turn_grows t (f t)) as Hf by (intros t; by repeat split).
  split; [split; simpl|].
  - apply alter_wf; [done| |].
    + intros t Ht. split; [done|]. by apply (Forall_lookup_1 _ _ _ _ (wf_turn_calls m Hwf) Ht).
    + intros c' id' Hc'. destruct (wf_calls m Hwf c' id' Hc') as (j & t & Hj & Hid & Hin).
      destruct (alter_grows f i (tm_turns m) (fun t _ => Hf t) j t Hj) as (t' & Hj' & Hg).
      exists j, t'. destruct Hg as (-> & _ & _ & _ & Hpre). split; [done|]. split; [done|]. by eapply elem_of_prefix.
  - done.
  - by apply alter_grows.
  - rewrite length_alter. lia.
  - done.
  - split; simpl; [by rewrite length_alter|done].
Qed.

Lemma op_trans m1 m2 m3 c :
  op_ok m1 m2 c -> op_ok m2 m3 c -> length (tm_turns m3) = length (tm_turns m2) -> op_ok m1 m3 c.
Proof.
  intros [W1 S1 G1 L1 F1] [W2 S2 G2 L2 F2] Hlen. split; [done|congruence| |lia|].
  - intros i t Ht. destruct (G1 i t Ht) as (t2 & Ht2 & Hg). destruct (G2 i t2 Ht2) as (t3 & Ht3 & Hg').
    exists t3. split; [done|by etrans].
  - intros c' Hc. by rewrite F2, F1.
Qed.

(** ** The handlers *)

Definition is_call_event (kind : string) : bool :=
  bool_decide (kind = "llm.response") || bool_decide (kind = "llm.response.stream")
  || bool_decide (kind = "llm.call.cancelled").
Definition is_call_record (kind : string) : bool := bool_decide (kind = "llm.request") || is_call_event kind.

Lemma on_request_ok m c rec o m' :
  machine_wf m -> (Z.of_nat (length (tm_turns m)) + 1 < 2 ^ 32)%Z ->
  on_request m c rec = (o, m') ->
  op_ok m m' c /\ outcome_at m' o /\ (forall id, oc_turn_id o = Some id -> tm_call_turns m' !! c = Some id).
Proof.
  intros Hwf Hb H. unfold on_request in H.
  assert (outcome_of (ensure_call_on_active_turn m c Request) = (o, m') ->
          op_ok m m' c /\ outcome_at m' o /\ (forall id, oc_turn_id o = Some id -> tm_call_turns m' !! c = Some id))
    as Hact.
  { unfold ensure_call_on_active_turn. destruct (tm_active_turn m) as [id|] eqn:Ea; intros Ho.
    - destruct (active_at m id Hwf Ea) as [i Hat].
      destruct (file_event_ok m id i c Request o m' Hwf Hat Ho) as (? & ? & _ & ?). done.
    - injection Ho as <- <-. split; [by apply op_refl|]. split; [|done]. left. split; [done|]. by apply active_none. }
  destruct (is_internal_llm_request rec); [by apply Hact|].
  destruct (visible_user_from_payload _); [by eapply open_turn_ok|].
  destruct (tm_active_turn m); [by apply Hact|by eapply open_turn_ok].
Qed.

(** A response or cancellation goes to the turn its call is known for, else
    to the active one. *)
Definition event_turn (m : TurnMachine) (c : string) : option string :=
  match tm_call_turns m !! c with Some t => Some t | None => tm_active_turn m end.

Lemma event_turn_at m c id : machine_wf m -> event_turn m c = Some id -> exists i, turn_at m id i.
Proof.
  unfold event_turn. intros Hwf. destruct (tm_call_turns m !! c) eqn:E; intros; simplify_eq;
    [by eapply call_at|by eapply active_at].
Qed.

Lemma on_cancel_ok m c o m' :
  machine_wf m -> on_cancel m c = (o, m') ->
  op_ok m m' c /\ outcome_at m' o /\ oc_turn_id o = event_turn m c
  /\ (forall id, oc_turn_id o = Some id -> tm_call_turns m' !! c = Some id).
Proof.
  intros Hwf. unfold on_cancel, ensure_call_for_call. change (match tm_call_turns m !! c with
    | Some t => Some t | None => tm_active_turn m end) with (event_turn m c).
  destruct (event_turn m c) as [id|] eqn:E; intros H.
  - destruct (event_turn_at m c id Hwf E) as [i Hat].
    destruct (file_event_ok m id i c Cancel o m' Hwf Hat H) as (? & ? & -> & ?). done.
  - injection H as <- <-. split; [by apply op_refl|]. split; [|done]. left. split; [done|].
    apply active_none; [done|]. unfold event_turn in E. by destruct (tm_call_turns m !! c).
Qed.

Lemma on_response_ok m c rec o m' :
  machine_wf m -> on_response m c rec = (o, m') ->
  op_ok m m' c /\ outcome_at m' o /\ oc_turn_id o = event_turn m c
  /\ (forall id, oc_turn_id o = Some id -> tm_call_turns m' !! c = Some id).
Proof.
  intros Hwf. unfold on_response, ensure_call_for_call. change (match tm_call_turns m !! c with
    | Some t => Some t | None => tm_active_turn m end) with (event_turn m c).
  destruct (event_turn m c) as [id|] eqn:E; intros H.
  - destruct (event_turn_at m c id Hwf E) as [i Hat].
    destruct (ensure_call_in_turn_ok m id i c Complete Hwf Hat) as (Hop & Hat' & Hc & Hlen).
    set (m1 := ensure_call_in_turn m id c Complete) in *.
    destruct (visible_assistant_text (er_payload rec)) as [text|].
    + destruct (set_assistant_ok m1 id i c (mkTextBlock text (Some c)) (op_wf _ _ _ Hop) Hat' Hc) as [Hop2 Hat2].
      rewrite (outcome_of_ok _ _ _ _ _ Hop2 Hat2) in H. injection H as <- <-.
      split; [|split; [right; by exists id, i|split; [done|by intros ? [= <-]]]].
      eapply op_trans; [done|done|].
      destruct (id_at _ 0 (tm_turns m1) i (wf_turns _ (op_wf _ _ _ Hop))) as [_ Hupd]. simpl in Hupd. simpl.
      rewrite (proj2 Hat') at 1. rewrite Hupd. apply length_alter.
    + rewrite (outcome_of_ok _ _ _ _ _ Hop Hat') in H. injection H as <- <-.
      split; [done|]. split; [right; by exists id, i|]. split; [done|]. by intros ? [= <-].
  - assert ((o, m') = (mkOutcome None None, m)) as [= -> ->].
    { rewrite <- H. by destruct (visible_assistant_text (er_payload rec)). }
    split; [by apply op_refl|]. split; [|done]. left. split; [done|].
    apply active_none; [done|]. unfold event_turn in E. by destruct (tm_call_turns m !! c).
Qed.

Lemma apply_record_ok m rec o m' :
  machine_wf m -> (Z.of_nat (length (tm_turns m)) + 1 < 2 ^ 32)%Z ->
  apply_record m rec = (o, m') ->
  op_ok m m' (record_call_id rec) /\ outcome_at m' o
  /\ (is_call_event (er_kind rec) = true -> oc_turn_id o = event_turn m (record_call_id rec))
  /\ (is_call_record (er_kind rec) = true ->
      forall id, oc_turn_id o = Some id -> tm_call_turns m' !! record_call_id rec = Some id).
Proof.
  intros Hwf Hb H. unfold apply_record in H. unfold is_call_record, is_call_event.
  case_bool_decide as Hk.
  { apply on_request_ok in H as (? & ? & ?); [|done|done]. rewrite Hk. done. }
  destruct (bool_decide (er_kind rec = "llm.response") || bool_decide (er_kind rec = "llm.response.stream")) eqn:Hr.
  { apply on_response_ok in H as (? & ? & ? & ?); done. }
  case_bool_decide.
  { apply on_cancel_ok in H as (? & ? & ? & ?); done. }
  injection H as <- <-. split; [by apply op_refl|]. split; [|done].
  destruct (tm_active_turn m) as [id|] eqn:Ea; simpl.
  - destruct (active_at m id Hwf Ea) as [i Hat]. right. exists id, i. by rewrite (turn_index_at m id i).
  - left. split; [done|]. by apply active_none.
Qed.

(** Replaying records from a well-formed machine. *)
Definition run_records (m : TurnMachine) (records : list EventRecord) : TurnMachine :=
  fold_left (fun m rec => snd (apply_record m rec)) records m.

Lemma run_records_ok records m :
  machine_wf m -> (Z.of_nat (length (tm_turns m) + length records) < 2 ^ 32)%Z ->
  let m' := run_records m records in
  machine_wf m' /\ tm_story_id m' = tm_story_id m /\ turns_grow (tm_turns m) (tm_turns m')
  /\ (length (tm_turns m') <= length (tm_turns m) + length records)%nat
  /\ (forall c, (forall r, r ∈ records -> record_call_id r <> c) -> tm_call_turns m' !! c = tm_call_turns m !! c).
Proof.
  revert m. induction records as [|rec records IH]; intros m Hwf Hb; simpl in *.
  { split_and!; try done; [|lia]. intros i t Ht. by exists t. }
  destruct (apply_record m rec) as [o m1] eqn:E. simpl.
  destruct (apply_record_ok m rec o m1 Hwf ltac:(lia) E) as ([W S G L F] & _).
  destruct (IH m1 W ltac:(lia)) as (W' & S' & G' & L' & F').
  split_and!; [done|congruence| |lia|].
  - intros i t Ht. destruct (G i t Ht) as (t1 & Ht1 & Hg). destruct (G' i t1 Ht1) as (t2 & Ht2 & Hg').
    exists t2. split; [done|by etrans].
  - intros c Hc. rewrite F' by (intros r Hr; apply Hc, elem_of_cons; by right).
    apply F. intros ->. apply (Hc rec); [apply elem_of_cons; by left|done].
Qed.

Lemma machine_with_context_wf story agent run : machine_wf (machine_with_context story agent run).
Proof. by split. Qed.

(** The turn index of any replayed record sequence is well formed: turns
    are numbered by position and carry the id of their number, the active turn
    is the newest, every call that is known is filed in the turn it is known
    for, and no turn lists a call twice or a phase of a call twice. *)
Theorem turn_index_wf story agent run records :
  (Z.of_nat (length records) < 2 ^ 32)%Z -> machine_wf (replay_records story agent run records).
Proof.
  intros Hb. apply (run_records_ok records (machine_with_context story agent run)); [|done].
  apply machine_with_context_wf.
Qed.

(** [rec'] is [rec] with the turn's id and number in its payload and nothing
    else changed; there is none exactly if the payload takes no keys. *)
Definition stamped_with (id : string) (index : Z) (rec : EventRecord) (rec' : option EventRecord) : Prop :=
  match rec' with
  | None => json_indexable (er_payload rec) = false
  | Some r =>
      r = set_payload rec (er_payload r)
      /\ json_get (er_payload r) "turn_id" = Some (JString id)
      /\ json_get (er_payload r) "turn_index" = Some (JNumber (JInt index))
      /\ forall k, k <> "turn_id" -> k <> "turn_index" ->
         json_get (er_payload r) k = json_get (er_payload rec) k
  end.

Lemma stamp_stamps rec id index :
  stamped_with id index rec (stamp rec (mkOutcome (Some id) (Some index))).
Proof.
  unfold stamp. simpl. destruct (json_set (er_payload rec) "turn_id" _) as [p1|] eqn:E1;
    [|by eapply json_set_None].
  apply json_set_Some in E1 as (_ & I1 & G1).
  destruct (json_set p1 "turn_index" _) as [p2|] eqn:E2;
    [|apply json_set_None in E2; congruence].
  apply json_set_Some in E2 as (_ & _ & G2). simpl. split; [done|].
  rewrite !G2, !G1. split; [done|]. split; [done|].
  intros k ? ?. by rewrite G2, G1, !decide_False.
Qed.

(** Every observed record is stamped with a turn that exists, by matching
    id and number written into its payload and nothing else, unless no turn
    has been opened yet (the record is then left as it is); and observing
    never rewrites history: earlier turns keep their id, number, kind, user
    text and the calls they list.  The write fails only for a payload that is
    neither an object nor null. *)
Theorem observed_records_stamped m rec rec' o m' :
  machine_wf m -> (Z.of_nat (length (tm_turns m)) + 1 < 2 ^ 32)%Z ->
  observe_record m rec = (rec', o, m') ->
  machine_wf m' /\ turns_grow (tm_turns m) (tm_turns m')
  /\ ((o = mkOutcome None None /\ tm_turns m' = [] /\ rec' = Some rec)
      \/ exists i t, tm_turns m' !! i = Some t
         /\ o = mkOutcome (Some (tn_turn_id t)) (Some (Z.of_nat i)) /\ tn_index t = Z.of_nat i
         /\ stamped_with (tn_turn_id t) (Z.of_nat i) rec rec').
Proof.
  intros Hwf Hb H. unfold observe_record in H. destruct (apply_record m rec) as [o1 m1] eqn:E.
  injection H as <- <- <-. destruct (apply_record_ok m rec o1 m1 Hwf Hb E) as ([W S G _ _] & Ho & _).
  split; [done|]. split; [done|]. destruct Ho as [[-> Hnil]|(id & i & [Hi Hid] & ->)].
  - left. split; [done|]. split; [done|]. by destruct rec.
  - right. destruct (lookup_lt_is_Some_2 _ _ Hi) as [t Ht]. exists i, t. split; [done|].
    destruct (wf_turns m1 W i t Ht) as [Hti Htid]. rewrite Htid. rewrite Hid.
    split; [done|]. split; [done|]. apply stamp_stamps.
Qed.

(** A call stays in the turn of its request: once a request of call [c]
    was stamped with a turn, then however many other calls open new turns in
    between, the response or cancellation of [c] is stamped with the same
    turn. *)
Theorem response_joins_its_request m req records resp o1 m1 id :
  machine_wf m -> (Z.of_nat (length (tm_turns m) + length records) + 2 < 2 ^ 32)%Z ->
  is_call_record (er_kind req) = true ->
  apply_record m req = (o1, m1) -> oc_turn_id o1 = Some id ->
  (forall r, r ∈ records -> record_call_id r <> record_call_id req) ->
  record_call_id resp = record_call_id req -> is_call_event (er_kind resp) = true ->
  oc_turn_id (fst (apply_record (run_records m1 records) resp)) = Some id.
Proof.
  intros Hwf Hb Hreq E1 Hid Hothers Hc Hresp.
  destruct (apply_record_ok m req o1 m1 Hwf ltac:(lia) E1) as ([W S G L F] & _ & _ & Hfiled).
  destruct (run_records_ok records m1 W ltac:(lia)) as (W2 & _ & _ & L2 & F2).
  destruct (apply_record (run_records m1 records) resp) as [o2 m2] eqn:E2.
  destruct (apply_record_ok _ resp o2 m2 W2 ltac:(lia) E2) as (_ & _ & Hev & _).
  simpl. rewrite Hev by done. unfold event_turn. rewrite Hc, F2 by done. by rewrite (Hfiled Hreq id Hid).
Qed.
End Machine.

Module TurnExample.
(** Assistant text from a plain [assistant_content]. *)
Definition assistant (payload : Value) : option string := json_get payload "assistant_content" ≫= as_str.

Definition call_record (kind call : string) (payload : Value) : EventRecord :=
  mkEventRecord identity_default 0 "gateway" kind None None None None None (Some call) None None None None
    payload.
Definition user_request (call text : string) : EventRecord :=
  call_record "llm.request" call (JObject [("user_content", JString text)]).
Definition response (call text : string) : EventRecord :=
  call_record "llm.response" call (JObject [("assistant_content", JString text)]).

Definition start : TurnMachine := machine_with_context "run|main" "agent" None.

(** Two dialogue turns; the first call answers after the second was asked. *)
Example interleaved :
  map (fun t => (tn_turn_id t, option_map tb_text (tn_user t), option_map tb_text (tn_assistant t)))
    (tm_turns (replay_records assistant "run|main" "agent" None
       [user_request "c1" "hi"; user_request "c2" "more"; response "c1" "hello"; response "c2" "yes"]))
  = [("run|main#turn-0", Some "hi", Some "hello"); ("run|main#turn-1", Some "more", Some "yes")].
Proof. vm_compute. reflexivity. Qed.

Lemma turn_index_wf_witness :
  machine_wf (replay_records assistant "run|main" "agent" None
    [user_request "c1" "hi"; user_request "c2" "more"; response "c1" "hello"]).
Proof. apply (turn_index_wf assistant "run|main" "agent" None). simpl. lia. Defined.

Lemma observed_records_stamped_witness :
  let '(rec', o, m') := observe_record assistant start (user_request "c1" "hi") in
  machine_wf m' /\ turns_grow (tm_turns start) (tm_turns m')
  /\ ((o = mkOutcome None None /\ tm_turns m' = [] /\ rec' = Some (user_request "c1" "hi"))
      \/ exists i t, tm_turns m' !! i = Some t
         /\ o = mkOutcome (Some (tn_turn_id t)) (Some (Z.of_nat i)) /\ tn_index t = Z.of_nat i
         /\ stamped_with (tn_turn_id t) (Z.of_nat i) (user_request "c1" "hi") rec').
Proof.
  destruct (observe_record assistant start (user_request "c1" "hi")) as [[rec' o] m'] eqn:E.
  apply (observed_records_stamped assistant start _ rec' o m');
    [apply machine_with_context_wf|simpl; lia|exact E].
Defined.

Lemma response_joins_its_request_witness :
  oc_turn_id (fst (apply_record assistant
    (run_records assistant (snd (apply_record assistant start (user_request "c1" "hi")))
       [user_request "c2" "more"]) (response "c1" "hello"))) = Some "run|main#turn-0".
Proof.
  apply (response_joins_its_request assistant start (user_request "c1" "hi") [user_request "c2" "more"]
           (response "c1" "hello") (fst (apply_record assistant start (user_request "c1" "hi"))));
    try (vm_compute; reflexivity).
  - apply machine_with_context_wf.
  - intros r Hr. apply list_elem_of_singleton in Hr as ->. discriminate.
Defined.
End TurnExample.
