(* ===== verification/Capture.v ===== *)
(** * Gateway: captured events and their persisted form

    Models the capture data of [persisting-gateway]: [engine/story/event.rs],
    [engine/story/context.rs], [engine/story/call.rs], [session/storage.rs]
    (routes), [config.rs] (capture level), [provider.rs], [usage.rs] (metrics),
    the redaction of [sink.rs], and [dead_letter.rs], which turns a call and
    its event into the row that the write-ahead log and the dead-letter file
    keep, and back.

    The [url] crate is a parameter; so are the parsed request and response
    semantics an event may carry, which are never persisted. *)

From Stdlib Require Import ZArith Lia Ascii.
From stdpp Require Import base list strings gmap numbers option.
From S2P Require Import Prelude Json JsonLines Events TurnMachine.

(** ** Calls and routes *)

Record CaptureRoute := mkRoute {
  rt_root_session : option string;
  rt_session_id : string;
  rt_storage_session_id : string;
  rt_subagent_id : option string;
}.

Definition seq_key (r : CaptureRoute) : string :=
  match rt_root_session r with
  | Some root => root +:+ "|" +:+ rt_storage_session_id r
  | None => rt_storage_session_id r
  end.

Record Call := mkCall { ca_call_id : string; ca_trace_id : string; ca_started_at : string }.

Inductive CaptureLevel := LevelSummary | LevelDialogue | LevelFull.
Definition includes_user_text (l : CaptureLevel) : bool := match l with LevelSummary => false | _ => true end.
Definition includes_assistant_text (l : CaptureLevel) : bool := match l with LevelSummary => false | _ => true end.
Definition includes_full_body (l : CaptureLevel) : bool := match l with LevelFull => true | _ => false end.

Inductive ProviderKind :=
| ProvOpenAi | ProvAnthropic | ProvGemini | ProvVertex | ProvBedrock | ProvAzure | ProvCopilot | ProvCustom.

Definition provider_as_str (k : ProviderKind) : string :=
  match k with
  | ProvOpenAi => "openai"
  | ProvAnthropic => "anthropic"
  | ProvGemini => "gemini"
  | ProvVertex => "vertex"
  | ProvBedrock => "bedrock"
  | ProvAzure => "azure"
  | ProvCopilot => "copilot"
  | ProvCustom => "custom"
  end.
Definition provider_parse (s : string) : ProviderKind :=
  let s := to_ascii_lowercase s in
  if bool_decide (s = "openai") || bool_decide (s = "open_ai") then ProvOpenAi
  else if bool_decide (s = "anthropic") then ProvAnthropic
  else if bool_decide (s = "gemini") then ProvGemini
  else if bool_decide (s = "vertex") then ProvVertex
  else if bool_decide (s = "bedrock") then ProvBedrock
  else if bool_decide (s = "azure") then ProvAzure
  else if bool_decide (s = "copilot") then ProvCopilot
  else ProvCustom.

Definition protocol_parse (s : string) : ProtocolKind :=
  if bool_decide (s = "chat_completions") then ChatCompletions
  else if bool_decide (s = "messages") then Messages
  else if bool_decide (s = "responses") then Responses
  else if bool_decide (s = "gemini") then Gemini
  else if bool_decide (s = "embeddings") then Embeddings
  else if bool_decide (s = "count_tokens") then CountTokens
  else if bool_decide (s = "realtime") then Realtime
  else if bool_decide (s = "detect") then Detect
  else Unknown.

Record TokenUsage := mkUsage {
  tu_input : Z; tu_output : Z; tu_total : Z; tu_cache_read : Z; tu_cache_write : Z; tu_reasoning : Z;
}.
Record StreamMetrics := mkMetrics { sm_usage : TokenUsage; sm_ttft_ms : option Z }.

Record SessionClientMeta := mkClientMeta {
  cm_peer : string; cm_peer_port : Z; cm_pid : Z; cm_command : string; cm_machine_fp : option string;
}.

Definition Headers : Type := list (string * string).

Record StoryContext := mkStoryContext {
  sc_run_id : option string; sc_story_id : string; sc_route : CaptureRoute; sc_agent_id : string;
}.
Definition story_from_route (route : CaptureRoute) (agent_id : string) : StoryContext :=
  mkStoryContext (rt_root_session route) (seq_key route) route agent_id.

Record CallContext := mkCallContext {
  cc_story : StoryContext;
  cc_call : Call;
  cc_request_headers : Headers;
  cc_level : CaptureLevel;
  cc_client_model : string;
  cc_upstream_model : string;
  cc_provider : ProviderKind;
  cc_protocol : ProtocolKind;
  cc_debug_on : bool;
  cc_client_peer : option string;
  cc_client_meta : option SessionClientMeta;
  cc_http_version : option string;
  cc_upstream_url : option string;
}.

Definition call_context_new (route : CaptureRoute) (agent_id : string) (call : Call) (headers : Headers)
    (level : CaptureLevel) (client_model upstream_model : string) (provider : ProviderKind)
    (protocol : ProtocolKind) (debug_on : bool) : CallContext :=
  mkCallContext (story_from_route route agent_id) call headers level client_model upstream_model provider
    protocol debug_on None None None None.
Definition attach_client (peer : string) (meta : option SessionClientMeta) (c : CallContext) : CallContext :=
  mkCallContext (cc_story c) (cc_call c) (cc_request_headers c) (cc_level c) (cc_client_model c)
    (cc_upstream_model c) (cc_provider c) (cc_protocol c) (cc_debug_on c) (Some peer) meta
    (cc_http_version c) (cc_upstream_url c).
Definition set_client_meta (meta : option SessionClientMeta) (c : CallContext) : CallContext :=
  mkCallContext (cc_story c) (cc_call c) (cc_request_headers c) (cc_level c) (cc_client_model c)
    (cc_upstream_model c) (cc_provider c) (cc_protocol c) (cc_debug_on c) (cc_client_peer c) meta
    (cc_http_version c) (cc_upstream_url c).
Definition attach_http_version (v : string) (c : CallContext) : CallContext :=
  mkCallContext (cc_story c) (cc_call c) (cc_request_headers c) (cc_level c) (cc_client_model c)
    (cc_upstream_model c) (cc_provider c) (cc_protocol c) (cc_debug_on c) (cc_client_peer c)
    (cc_client_meta c) (Some v) (cc_upstream_url c).
Definition attach_upstream_url (u : string) (c : CallContext) : CallContext :=
  mkCallContext (cc_story c) (cc_call c) (cc_request_headers c) (cc_level c) (cc_client_model c)
    (cc_upstream_model c) (cc_provider c) (cc_protocol c) (cc_debug_on c) (cc_client_peer c)
    (cc_client_meta c) (cc_http_version c) (Some u).
Definition context_story_id (c : CallContext) : string := sc_story_id (cc_story c).

(** ** Events *)

Section Events.
Context {ReqSemantic RespSemantic : Type}.

Record RequestEvent := mkRequestEvent {
  rq_path : string;
  rq_method : string;
  rq_url : option string;
  rq_body_bytes : Z;
  rq_user_content : option string;
  rq_body_json : option Value;
  rq_semantic : option ReqSemantic;
  rq_model_rewritten : bool;
  rq_headers : Headers;
}.
Record CompleteEvent := mkCompleteEvent {
  cp_status : Z;
  cp_resp_bytes : string;
  cp_streaming : bool;
  cp_stream_metrics : option StreamMetrics;
  cp_assistant_content : option string;
  cp_semantic : option RespSemantic;
  cp_headers : Headers;
}.
Record DraftEvent := mkDraftEvent { df_status : Z; df_assistant_content : string }.
Record CancelEvent := mkCancelEvent { cn_status : Z; cn_bytes_received : Z; cn_streaming : bool }.

Inductive Event :=
| EvRequest (e : RequestEvent)
| EvResponseDraft (e : DraftEvent)
| EvResponseComplete (e : CompleteEvent)
| EvCancelled (e : CancelEvent).
End Events.
Arguments RequestEvent : clear implicits.
Arguments CompleteEvent : clear implicits.
Arguments Event : clear implicits.

(** ** Redaction ([sink.rs]) *)

Definition REDACTED_VALUE : string := "<redacted>".
Definition REDACT_HEADER_NAMES : list string :=
  ["authorization"; "proxy-authorization"; "cookie"; "set-cookie"; "x-api-key"; "api-key"; "x-goog-api-key"].
Definition SECRET_FIELDS : list string :=
  ["apikey"; "accesstoken"; "refreshtoken"; "authorization"; "password"; "secret"; "clientsecret"; "cookie";
   "setcookie"; "token"; "idtoken"; "sessiontoken"; "bearertoken"; "secretaccesskey"; "privatekey"].

Definition is_sensitive_header_name (name : string) : bool :=
  let name := to_ascii_lowercase name in
  bool_decide (name ∈ REDACT_HEADER_NAMES)
  || str_ends_with "-api-key" name || str_ends_with "-token" name || str_contains "secret-key" name.

Definition is_ascii_alphanumeric (a : ascii) : bool :=
  byte_in 48 57 a || byte_in 65 90 a || byte_in 97 122 a.
Fixpoint str_filter (p : ascii -> bool) (s : string) : string :=
  match s with
  | EmptyString => EmptyString
  | String a r => if p a then String a (str_filter p r) else str_filter p r
  end.
Definition is_sensitive_field_name (name : string) : bool :=
  bool_decide (to_ascii_lowercase (str_filter is_ascii_alphanumeric name) ∈ SECRET_FIELDS).
Definition is_sensitive_query_field_name (name : string) : bool :=
  eq_ignore_ascii_case name "key" || is_sensitive_field_name name.

Definition redact_sensitive_headers (headers : Headers) : Headers :=
  map (fun '(name, value) => (name, if is_sensitive_header_name name then REDACTED_VALUE else value)) headers.

Fixpoint redact_sensitive_body (v : Value) : Value :=
  match v with
  | JObject fields =>
      JObject ((fix go fields := match fields with
                | [] => []
                | (key, w) :: rest =>
                    (key, if is_sensitive_field_name key then JString REDACTED_VALUE
                          else redact_sensitive_body w) :: go rest
                end) fields)
  | JArray l => JArray (map redact_sensitive_body l)
  | _ => v
  end.

(** What the program uses of the [url] crate: absolute URLs with their user
    info, whose setters refuse some URLs and leave them as they are, and
    [form_urlencoded], whose output is made of unreserved characters, [%],
    [+], [=] and [&], and parses back to the pairs it was made of. *)
Class UrlCrate := {
  Url : Type;
  url_parse : string -> option Url;
  url_username : Url -> string;
  url_password : Url -> option string;
  url_set_username : Url -> string -> option Url;
  url_set_password : Url -> option string -> option Url;
  url_to_string : Url -> string;
  form_parse : string -> list (string * string);
  form_serialize : list (string * string) -> string;
  form_roundtrip : forall pairs, form_parse (form_serialize pairs) = pairs;
  form_chars : forall pairs, str_contains_char 35 (form_serialize pairs) = false;
}.

Section Redact.
Context {UC : UrlCrate}.

Definition redact_pair '((name, value) : string * string) : string * string :=
  (name, if is_sensitive_query_field_name name then REDACTED_VALUE else value).

(** The user-info step of [redact_sensitive_url]. *)
Definition redact_userinfo (value : string) : string :=
  let '(parsed, scheme_relative) :=
    if str_starts_with "//" value
    then match url_parse ("http:" +:+ value) with Some url => (Some url, true) | None => (None, false) end
    else (url_parse value, false) in
  match parsed with
  | None => value
  | Some url =>
      let url := if bool_decide (url_username url = "") then url
                 else default url (url_set_username url REDACTED_VALUE) in
      let url := match url_password url with
                 | Some _ => default url (url_set_password url (Some REDACTED_VALUE))
                 | None => url
                 end in
      let rendered := url_to_string url in
      if scheme_relative then default rendered (str_strip_prefix "http:" rendered) else rendered
  end.

(** Its query step; a query string starts at the first question mark and ends
    at the first number sign after it. *)
Definition split_query (value : string) : option (string * string * option string) :=
  match str_split_once 63 value with
  | None => None
  | Some (prefix, rest) =>
      match str_split_once 35 rest with
      | Some (query, fragment) => Some (prefix, query, Some fragment)
      | None => Some (prefix, rest, None)
      end
  end.

Definition redact_query (value : string) : string :=
  match split_query value with
  | None => value
  | Some (prefix, query, fragment) =>
      let pairs := form_parse query in
      if existsb (fun '(name, _) => is_sensitive_query_field_name name) pairs
      then
        let redacted_url := prefix +:+ "?" +:+ form_serialize (map redact_pair pairs) in
        match fragment with
        | Some fragment => redacted_url +:+ "#" +:+ fragment
        | None => redacted_url
        end
      else value
  end.

Definition redact_sensitive_url (value : string) : string := redact_query (redact_userinfo value).

(** ** Rows of the dead-letter file and of the log ([dead_letter.rs]) *)

Record DeadLetterContext := mkDeadLetterContext {
  dl_route : CaptureRoute;
  dl_agent_id : string;
  dl_call : Call;
  dl_request_headers : Headers;
  dl_level : CaptureLevel;
  dl_client_model : string;
  dl_upstream_model : string;
  dl_provider : ProviderKind;
  dl_protocol : ProtocolKind;
  dl_client_peer : option string;
  dl_client_meta : option SessionClientMeta;
  dl_http_version : option string;
  dl_upstream_url : option string;
}.

Definition from_context (c : CallContext) : DeadLetterContext :=
  mkDeadLetterContext (sc_route (cc_story c)) (sc_agent_id (cc_story c)) (cc_call c)
    (redact_sensitive_headers (cc_request_headers c)) (cc_level c) (cc_client_model c) (cc_upstream_model c)
    (cc_provider c) (cc_protocol c) (cc_client_peer c) (cc_client_meta c) (cc_http_version c)
    (redact_sensitive_url <$> cc_upstream_url c).

Definition to_call_context (d : DeadLetterContext) : CallContext :=
  let ctx := call_context_new (dl_route d) (dl_agent_id d) (dl_call d) (dl_request_headers d) (dl_level d)
               (dl_client_model d) (dl_upstream_model d) (dl_provider d) (dl_protocol d) false in
  let ctx := match dl_client_peer d with
             | Some peer => attach_client peer (dl_client_meta d) ctx
             | None => match dl_client_meta d with
                       | Some _ => set_client_meta (dl_client_meta d) ctx
                       | None => ctx
                       end
             end in
  let ctx := match dl_http_version d with Some v => attach_http_version v ctx | None => ctx end in
  match dl_upstream_url d with Some u => attach_upstream_url u ctx | None => ctx end.

(** A response body is kept as text when it is valid UTF-8. *)
Inductive RespPayload := PayloadText (s : string) | PayloadBytes (b : string).
Definition resp_to_payload (bytes : string) : RespPayload :=
  if utf8_valid bytes then PayloadText bytes else PayloadBytes bytes.
Definition payload_to_bytes (p : RespPayload) : string := match p with PayloadText s | PayloadBytes s => s end.

Inductive SerializableEvent :=
| SerRequest (path method : string) (url : option string) (body_bytes : Z) (user_content : option string)
    (body_json : option Value) (model_rewritten : bool) (headers : Headers)
| SerResponseComplete (status : Z) (resp_payload : RespPayload) (streaming : bool)
    (stream_metrics : option StreamMetrics) (assistant_content : option string) (headers : Headers)
| SerResponseDraft (status : Z) (assistant_content : string)
| SerCancelled (status bytes_received : Z) (streaming : bool).

Context {ReqSemantic RespSemantic : Type}.
#[local] Abbreviation Ev := (Event ReqSemantic RespSemantic).

Definition from_event (e : Ev) : SerializableEvent :=
  match e with
  | EvRequest e =>
      SerRequest (redact_sensitive_url (rq_path e)) (rq_method e) (redact_sensitive_url <$> rq_url e)
        (rq_body_bytes e) (rq_user_content e) (redact_sensitive_body <$> rq_body_json e)
        (rq_model_rewritten e) (redact_sensitive_headers (rq_headers e))
  | EvResponseComplete e =>
      SerResponseComplete (cp_status e) (resp_to_payload (cp_resp_bytes e)) (cp_streaming e)
        (cp_stream_metrics e) (cp_assistant_content e) (redact_sensitive_headers (cp_headers e))
  | EvResponseDraft e => SerResponseDraft (df_status e) (df_assistant_content e)
  | EvCancelled e => SerCancelled (cn_status e) (cn_bytes_received e) (cn_streaming e)
  end.

Definition to_event (s : SerializableEvent) : Ev :=
  match s with
  | SerRequest path method url body_bytes user_content body_json model_rewritten headers =>
      EvRequest (mkRequestEvent path method url body_bytes user_content body_json None model_rewritten headers)
  | SerResponseComplete status payload streaming metrics content headers =>
      EvResponseComplete
        (mkCompleteEvent status (payload_to_bytes payload) streaming metrics content None headers)
  | SerResponseDraft status content => EvResponseDraft (mkDraftEvent status content)
  | SerCancelled status bytes streaming => EvCancelled (mkCancelEvent status bytes streaming)
  end.

(** A dead letter: beside the redacted call and event, why it was written and,
    for an event whose application failed, the record prepared for the store. *)
Record DeadLetterEntry := mkDeadLetterEntry {
  de_timestamp : string;
  de_context : DeadLetterContext;
  de_event : SerializableEvent;
  de_error : string;
  de_prepared_record_json : option string;
}.

(** The entry [append_dead_letter] writes: the error and the record are taken
    as they are given. *)
Definition dead_letter_entry (timestamp : string) (ctx : CallContext) (event : Ev) (error : string)
    (prepared_record_json : option string) : DeadLetterEntry :=
  mkDeadLetterEntry timestamp (from_context ctx) (from_event event) error prepared_record_json.

(** The entry of [RejectedEventWriter] for an event its queue did not take. *)
Definition rejected_letter (timestamp : string) (ctx : CallContext) (event : Ev) : DeadLetterEntry :=
  dead_letter_entry timestamp ctx event "apply queue full or closed" None.
End Redact.

(** ** Their JSON (derived [Serialize] and [Deserialize]) *)

Definition headers_value (h : Headers) : Value :=
  JArray (map (fun '(n, v) => JArray [JString n; JString v]) h).
Definition header_of_value (v : Value) : option (string * string) :=
  match v with JArray [JString n; JString w] => Some (n, w) | _ => None end.
Definition headers_of_value : Value -> option Headers := as_vec header_of_value.

Definition route_value (r : CaptureRoute) : Value :=
  JObject (field_null "root_session" JString (rt_root_session r)
    ++ field "session_id" (JString (rt_session_id r))
    ++ field "storage_session_id" (JString (rt_storage_session_id r))
    ++ field_null "subagent_id" JString (rt_subagent_id r)).
Definition route_of_value (v : Value) : option CaptureRoute :=
  root ← get_opt v "root_session" as_str;
  session ← get_field v "session_id" as_str;
  storage ← get_field v "storage_session_id" as_str;
  subagent ← get_opt v "subagent_id" as_str;
  Some (mkRoute root session storage subagent).

Definition call_value (c : Call) : Value :=
  JObject (field "call_id" (JString (ca_call_id c)) ++ field "trace_id" (JString (ca_trace_id c))
    ++ field "started_at" (JString (ca_started_at c))).
Definition call_of_value (v : Value) : option Call :=
  id ← get_field v "call_id" as_str;
  trace ← get_field v "trace_id" as_str;
  started ← get_field v "started_at" as_str;
  Some (mkCall id trace started).

Definition level_str (l : CaptureLevel) : string :=
  match l with LevelSummary => "summary" | LevelDialogue => "dialogue" | LevelFull => "full" end.
Definition level_of_value (v : Value) : option CaptureLevel :=
  s ← as_str v;
  if bool_decide (s = "summary") then Some LevelSummary
  else if bool_decide (s = "dialogue") then Some LevelDialogue
  else if bool_decide (s = "full") then Some LevelFull
  else None.

Definition uint (z : Z) : Value := JNumber (JInt z).
Definition as_u64 : Value -> option Z := as_uint u64_max.
Definition as_u32 : Value -> option Z := as_uint u32_max.
Definition as_u16 : Value -> option Z := as_uint u16_max.
Definition as_u8 : Value -> option Z := as_uint 255.

Definition client_meta_value (m : SessionClientMeta) : Value :=
  JObject (field "peer" (JString (cm_peer m)) ++ field "peer_port" (uint (cm_peer_port m))
    ++ field "pid" (uint (cm_pid m)) ++ field "command" (JString (cm_command m))
    ++ field_opt "machine_fp" JString (cm_machine_fp m)).
Definition client_meta_of_value (v : Value) : option SessionClientMeta :=
  peer ← get_field v "peer" as_str;
  port ← get_field v "peer_port" as_u16;
  pid ← get_field v "pid" as_u32;
  command ← get_field v "command" as_str;
  fp ← get_opt v "machine_fp" as_str;
  Some (mkClientMeta peer port pid command fp).

Definition usage_value (u : TokenUsage) : Value :=
  JObject (field "input_tokens" (uint (tu_input u)) ++ field "output_tokens" (uint (tu_output u))
    ++ field "total_tokens" (uint (tu_total u)) ++ field "cache_read_tokens" (uint (tu_cache_read u))
    ++ field "cache_write_tokens" (uint (tu_cache_write u))
    ++ field "reasoning_tokens" (uint (tu_reasoning u))).
Definition usage_of_value (v : Value) : option TokenUsage :=
  i ← get_field v "input_tokens" as_u64;
  o ← get_field v "output_tokens" as_u64;
  t ← get_field v "total_tokens" as_u64;
  r ← get_field v "cache_read_tokens" as_u64;
  w ← get_field v "cache_write_tokens" as_u64;
  n ← get_default 0%Z v "reasoning_tokens" as_u64;
  Some (mkUsage i o t r w n).

Definition metrics_value (m : StreamMetrics) : Value :=
  JObject (field "usage" (usage_value (sm_usage m)) ++ field_null "ttft_ms" uint (sm_ttft_ms m)).
Definition metrics_of_value (v : Value) : option StreamMetrics :=
  u ← get_field v "usage" usage_of_value;
  t ← get_opt v "ttft_ms" as_u64;
  Some (mkMetrics u t).

Definition bytes_of_string : string -> list Z := fun s => map (fun a => Z.of_N (N_of_ascii a)) (String.list_ascii_of_string s).
Definition string_of_bytes (l : list Z) : string := String.string_of_list_ascii (map (fun z => ascii_of_N (Z.to_N z)) l).

(** An untagged enum: the first variant that fits. *)
Definition payload_value (p : RespPayload) : Value :=
  match p with
  | PayloadText s => JString s
  | PayloadBytes b => JArray (map uint (bytes_of_string b))
  end.
Definition payload_of_value (v : Value) : option RespPayload :=
  match v with
  | JString s => Some (PayloadText s)
  | _ => PayloadBytes ∘ string_of_bytes <$> as_vec as_u8 v
  end.

Definition context_value (d : DeadLetterContext) : Value :=
  JObject (field "route" (route_value (dl_route d))
    ++ field "agent_id" (JString (dl_agent_id d))
    ++ field "call" (call_value (dl_call d))
    ++ field_if (match dl_request_headers d with [] => false | _ => true end) "request_headers"
         (headers_value (dl_request_headers d))
    ++ field "level" (JString (level_str (dl_level d)))
    ++ field "client_model" (JString (dl_client_model d))
    ++ field "upstream_model" (JString (dl_upstream_model d))
    ++ field "provider" (JString (provider_as_str (dl_provider d)))
    ++ field "protocol" (JString (protocol_as_str (dl_protocol d)))
    ++ field_opt "client_peer" JString (dl_client_peer d)
    ++ field_opt "client_meta" client_meta_value (dl_client_meta d)
    ++ field_opt "http_version" JString (dl_http_version d)
    ++ field_opt "upstream_url" JString (dl_upstream_url d)).
Definition context_of_value (v : Value) : option DeadLetterContext :=
  route ← get_field v "route" route_of_value;
  agent ← get_field v "agent_id" as_str;
  call ← get_field v "call" call_of_value;
  headers ← get_default [] v "request_headers" headers_of_value;
  level ← get_field v "level" level_of_value;
  client_model ← get_field v "client_model" as_str;
  upstream_model ← get_field v "upstream_model" as_str;
  provider ← get_field v "provider" as_str;
  protocol ← get_field v "protocol" as_str;
  peer ← get_opt v "client_peer" as_str;
  meta ← get_opt v "client_meta" client_meta_of_value;
  version ← get_opt v "http_version" as_str;
  url ← get_opt v "upstream_url" as_str;
  Some (mkDeadLetterContext route agent call headers level client_model upstream_model
          (provider_parse provider) (protocol_parse protocol) peer meta version url).

Definition event_value (e : SerializableEvent) : Value :=
  match e with
  | SerRequest path method url body_bytes user_content body_json model_rewritten headers =>
      JObject (field "kind" (JString "request") ++ field "path" (JString path)
        ++ field "method" (JString method) ++ field_null "url" JString url
        ++ field "body_bytes" (uint body_bytes) ++ field_null "user_content" JString user_content
        ++ field_null "body_json" id body_json ++ field "model_rewritten" (JBool model_rewritten)
        ++ field "headers" (headers_value headers))
  | SerResponseComplete status payload streaming metrics content headers =>
      JObject (field "kind" (JString "response_complete") ++ field "status" (uint status)
        ++ field "resp_payload" (payload_value payload) ++ field "streaming" (JBool streaming)
        ++ field_null "stream_metrics" metrics_value metrics
        ++ field_null "assistant_content" JString content ++ field "headers" (headers_value headers))
  | SerResponseDraft status content =>
      JObject (field "kind" (JString "response_draft") ++ field "status" (uint status)
        ++ field "assistant_content" (JString content))
  | SerCancelled status bytes streaming =>
      JObject (field "kind" (JString "cancelled") ++ field "status" (uint status)
        ++ field "bytes_received" (uint bytes) ++ field "streaming" (JBool streaming))
  end.
Definition dead_letter_value (entry : DeadLetterEntry) : Value :=
  JObject ([("timestamp", JString (de_timestamp entry)); ("context", context_value (de_context entry));
            ("event", event_value (de_event entry)); ("error", JString (de_error entry))]
    ++ match de_prepared_record_json entry with
       | Some record => [("prepared_record_json", JString record)]
       | None => []
       end).

Definition event_of_value (v : Value) : option SerializableEvent :=
  kind ← get_field v "kind" as_str;
  if bool_decide (kind = "request") then
    path ← get_field v "path" as_str;
    method ← get_default "POST" v "method" as_str;
    url ← get_opt v "url" as_str;
    body_bytes ← get_field v "body_bytes" as_u64;
    user_content ← get_opt v "user_content" as_str;
    body_json ← get_opt v "body_json" Some;
    rewritten ← get_field v "model_rewritten" as_bool;
    headers ← get_default [] v "headers" headers_of_value;
    Some (SerRequest path method url body_bytes user_content body_json rewritten headers)
  else if bool_decide (kind = "response_complete") then
    status ← get_field v "status" as_u16;
    payload ← get_field v "resp_payload" payload_of_value;
    streaming ← get_field v "streaming" as_bool;
    metrics ← get_opt v "stream_metrics" metrics_of_value;
    content ← get_opt v "assistant_content" as_str;
    headers ← get_default [] v "headers" headers_of_value;
    Some (SerResponseComplete status payload streaming metrics content headers)
  else if bool_decide (kind = "response_draft") then
    status ← get_field v "status" as_u16;
    content ← get_field v "assistant_content" as_str;
    Some (SerResponseDraft status content)
  else if bool_decide (kind = "cancelled") then
    status ← get_field v "status" as_u16;
    bytes ← get_field v "bytes_received" as_u64;
    streaming ← get_field v "streaming" as_bool;
    Some (SerCancelled status bytes streaming)
  else None.

(** ** Round trips *)

Definition usage_wf (u : TokenUsage) : Prop :=
  in_u64 (tu_input u) /\ in_u64 (tu_output u) /\ in_u64 (tu_total u) /\ in_u64 (tu_cache_read u)
  /\ in_u64 (tu_cache_write u) /\ in_u64 (tu_reasoning u).
Definition metrics_wf (m : StreamMetrics) : Prop :=
  usage_wf (sm_usage m) /\ match sm_ttft_ms m with Some t => in_u64 t | None => True end.
Definition client_meta_wf (m : SessionClientMeta) : Prop :=
  (0 <= cm_peer_port m <= u16_max)%Z /\ (0 <= cm_pid m <= u32_max)%Z.
Definition option_wf {A} (P : A -> Prop) (o : option A) : Prop :=
  match o with Some a => P a | None => True end.

(** The machine widths of a row, and no JSON [null] as a request body, which
    reads back as no body. *)
Definition context_wf (d : DeadLetterContext) : Prop := option_wf client_meta_wf (dl_client_meta d).
Definition event_wf (e : SerializableEvent) : Prop :=
  match e with
  | SerRequest _ _ _ body_bytes _ body_json _ _ => in_u64 body_bytes /\ body_json <> Some JNull
  | SerResponseComplete status _ _ metrics _ _ => (0 <= status <= u16_max)%Z /\ option_wf metrics_wf metrics
  | SerResponseDraft status _ => (0 <= status <= u16_max)%Z
  | SerCancelled status bytes _ => (0 <= status <= u16_max)%Z /\ in_u64 bytes
  end.

Lemma headers_roundtrip h : headers_of_value (headers_value h) = Some h.
Proof. apply as_vec_map. by intros [n v]. Qed.

Lemma provider_roundtrip k : provider_parse (provider_as_str k) = k.
Proof. by destruct k. Qed.

Lemma protocol_roundtrip k : protocol_parse (protocol_as_str k) = k.
Proof. by destruct k. Qed.

Lemma level_roundtrip l : level_of_value (JString (level_str l)) = Some l.
Proof. by destruct l. Qed.

Lemma route_roundtrip r : route_of_value (route_value r) = Some r.
Proof. by destruct r as [[] ? ? []]. Qed.

Lemma call_roundtrip c : call_of_value (call_value c) = Some c.
Proof. by destruct c. Qed.

Lemma client_meta_roundtrip m : client_meta_wf m -> client_meta_of_value (client_meta_value m) = Some m.
Proof.
  intros [Hport Hpid]. destruct m as [peer port pid command fp]. unfold client_meta_of_value, get_field.
  simpl in *. rewrite !bool_decide_eq_true_2 by done. by destruct fp.
Qed.

Lemma usage_roundtrip u : usage_wf u -> usage_of_value (usage_value u) = Some u.
Proof.
  intros (? & ? & ? & ? & ? & ?). destruct u. unfold usage_of_value, get_field, get_default, in_u64 in *. simpl in *.
  rewrite !bool_decide_eq_true_2 by done. reflexivity.
Qed.

Lemma metrics_roundtrip m : metrics_wf m -> metrics_of_value (metrics_value m) = Some m.
Proof.
  intros [Hu Ht]. destruct m as [u t]. unfold metrics_of_value, get_field. simpl.
  rewrite usage_roundtrip by done. simpl. unfold get_opt. simpl in *. destruct t; simpl; [|done].
  by rewrite bool_decide_eq_true_2.
Qed.

Lemma string_of_bytes_of s : string_of_bytes (bytes_of_string s) = s.
Proof.
  unfold string_of_bytes, bytes_of_string. rewrite map_map. induction s as [|a s IH]; [done|].
  simpl. by rewrite N2Z.id, ascii_N_embedding, IH.
Qed.

Lemma payload_roundtrip p : payload_of_value (payload_value p) = Some p.
Proof.
  destruct p as [s|b]; [done|]. unfold payload_of_value, payload_value.
  rewrite (as_vec_map as_u8 uint).
  - simpl. by rewrite string_of_bytes_of.
  - unfold bytes_of_string. intros z (a & -> & _)%list_elem_of_fmap. apply as_uint_int.
    pose proof (N_ascii_bounded a). lia.
Qed.

Arguments headers_value : simpl never.
Arguments headers_of_value : simpl never.
Arguments route_of_value : simpl never.
Arguments call_of_value : simpl never.
Arguments level_of_value : simpl never.
Arguments payload_of_value : simpl never.
Arguments metrics_value : simpl never.
Arguments metrics_of_value : simpl never.

Ltac get_known :=
  unfold get_field, get_opt, get_default; simpl; autorewrite with json_fields; simpl;
  rewrite ?headers_roundtrip, ?route_roundtrip, ?call_roundtrip, ?level_roundtrip, ?payload_roundtrip,
    ?provider_roundtrip, ?protocol_roundtrip; simpl.

Lemma context_roundtrip d : context_wf d -> context_of_value (context_value d) = Some d.
Proof.
  intros Hd. destruct d as [route agent call headers level cm um prov proto peer meta ver url].
  unfold context_wf in Hd. simpl in Hd. set (v := context_value _).
  assert (get_default [] v "request_headers" headers_of_value = Some headers) as Hh
    by (subst v; destruct headers; by get_known).
  assert (get_opt v "client_peer" as_str = Some peer) as Hp
    by (subst v; destruct headers; get_known; by destruct peer).
  assert (get_opt v "client_meta" client_meta_of_value = Some meta) as Hm.
  { subst v. destruct headers; get_known; destruct meta; simpl; by rewrite ?client_meta_roundtrip. }
  assert (get_opt v "http_version" as_str = Some ver) as Hv
    by (subst v; destruct headers; get_known; by destruct ver).
  assert (get_opt v "upstream_url" as_str = Some url) as Hu
    by (subst v; destruct headers; get_known; by destruct url).
  unfold context_of_value. rewrite Hh, Hp, Hm, Hv, Hu. clear Hh Hp Hm Hv Hu. subst v.
  destruct headers; get_known; by destruct call.
Qed.

Lemma event_roundtrip e : event_wf e -> event_of_value (event_value e) = Some e.
Proof.
  intros He. destruct e as [path method url bytes content body rewritten headers
                           |status payload streaming metrics content headers|status content|status bytes streaming];
    simpl in He; unfold event_of_value.
  - destruct He as [Hb Hn]. get_known. rewrite bool_decide_eq_true_2 by done. simpl.
    by destruct url, content, body as [[]|].
  - destruct He as [Hs Hm]. get_known. rewrite bool_decide_eq_true_2 by done. simpl.
    assert (match metrics with Some m => metrics_of_value (metrics_value m) = Some m | None => True end) as Hr
      by (destruct metrics; [by apply metrics_roundtrip|done]).
    destruct metrics as [[]|], content; simpl; by rewrite ?Hr.
  - get_known. by rewrite bool_decide_eq_true_2.
  - destruct He as [Hs Hb]. get_known. by rewrite !bool_decide_eq_true_2.
Qed.

(** ** Redaction *)

(** A place in a value: keys and indices from its root. *)
Inductive Step := Key (k : string) | Index (i : nat).
Definition json_step (v : Value) (s : Step) : option Value :=
  match s with Key k => json_get v k | Index i => l ← as_array v; l !! i end.
Fixpoint json_at (v : Value) (path : list Step) : option Value :=
  match path with [] => Some v | s :: path => w ← json_step v s; json_at w path end.
Definition plain_step (s : Step) : Prop :=
  match s with Key k => is_sensitive_field_name k = false | Index _ => True end.
Definition is_scalar (v : Value) : Prop := match v with JArray _ | JObject _ => False | _ => True end.

(** No sensitive field, at any depth, carries anything but the marker. *)
Definition body_clean (v : Value) : Prop :=
  forall path key w, json_at v (path ++ [Key key]) = Some w -> is_sensitive_field_name key = true ->
  w = JString REDACTED_VALUE.

Lemma redact_get v key :
  json_get (redact_sensitive_body v) key
  = (fun w => if is_sensitive_field_name key then JString REDACTED_VALUE else redact_sensitive_body w)
      <$> json_get v key.
Proof.
  destruct v as [| | | | |fields]; try done. simpl. induction fields as [|[k w] fields IH]; [done|]. simpl.
  destruct (decide (k = key)) as [->|Hk]; [done|exact IH].
Qed.

Lemma redact_step v s :
  json_step (redact_sensitive_body v) s
  = (fun w => match s with
              | Key k => if is_sensitive_field_name k then JString REDACTED_VALUE else redact_sensitive_body w
              | Index _ => redact_sensitive_body w
              end) <$> json_step v s.
Proof.
  destruct s as [k|i]; [apply redact_get|]. destruct v as [| | | |l|]; try done. simpl.
  apply list_lookup_fmap.
Qed.

Lemma redact_body_clean v : body_clean (redact_sensitive_body v).
Proof.
  intros path. revert v. induction path as [|s path IH]; intros v key w; simpl.
  - intros Hw Hs. destruct (json_get _ _) as [u|] eqn:E; [|done]. simplify_eq/=.
    rewrite redact_get, Hs in E. destruct (json_get v key); by simplify_eq/=.
  - destruct (json_step _ s) as [u|] eqn:E; [|done]. simpl. rewrite redact_step in E.
    destruct (json_step v s) as [u'|]; simplify_eq/=.
    destruct s as [k|i]; [|apply IH]. destruct (is_sensitive_field_name k); [|apply IH].
    intros Hw. exfalso. by destruct path as [|[] ?].
Qed.

Lemma redact_scalar v leaf : is_scalar leaf -> redact_sensitive_body v = leaf <-> v = leaf.
Proof. by destruct v, leaf. Qed.

(** [redact_sensitive_body] removes exactly the credentials.  At no depth
    does a field with a sensitive name (whatever its case and punctuation)
    keep a value other than the marker, and every scalar reached without
    passing such a field is found at the same place before and after. *)
Theorem redact_body_exact v :
  body_clean (redact_sensitive_body v)
  /\ (forall path leaf, Forall plain_step path -> is_scalar leaf ->
        json_at (redact_sensitive_body v) path = Some leaf <-> json_at v path = Some leaf).
Proof.
  split; [apply redact_body_clean|]. intros path. revert v.
  induction path as [|s path IH]; intros v leaf Hp Hl; simpl.
  - pose proof (redact_scalar v leaf Hl). split; intros H'; apply (inj Some) in H'; f_equal; tauto.
  - apply Forall_cons_1 in Hp as [Hs Hp]. rewrite redact_step. destruct (json_step v s) as [w|]; [|done].
    simpl. destruct s as [k|i]; [|by apply IH]. simpl in Hs. rewrite Hs. by apply IH.
Qed.

(** *** URLs *)

Lemma split_once_spec k s h t :
  str_split_once k s = Some (h, t) -> str_contains_char k h = false.
Proof.
  revert h. induction s as [|a s IH]; intros h; [done|]. simpl. destruct (byte_is k a) eqn:Ha.
  - intros [= <- _]. done.
  - destruct (str_split_once k s) as [[h' t']|]; [|done]. simpl. intros [= <- <-].
    specialize (IH h' eq_refl). unfold str_contains_char in *. simpl. by rewrite Ha.
Qed.

Lemma split_once_app k a h t :
  byte_is k a = true -> str_contains_char k h = false -> str_split_once k (h +:+ String a t) = Some (h, t).
Proof.
  intros Ha. induction h as [|b h IH]; simpl; [by rewrite Ha|]. unfold str_contains_char in *. simpl.
  intros Hb. destruct (byte_is k b); [done|]. simpl in Hb. by rewrite IH.
Qed.

Lemma split_once_none k s : str_contains_char k s = false -> str_split_once k s = None.
Proof.
  induction s as [|a s IH]; [done|]. unfold str_contains_char in *. simpl. intros Ha.
  destruct (byte_is k a); [done|]. simpl in Ha. by rewrite IH.
Qed.

Section RedactUrl.
Context {UC : UrlCrate} {ReqSemantic RespSemantic : Type}.

(** The query fields of a URL, as a server would read them. *)
Definition query_fields (url : string) : list (string * string) :=
  match split_query url with Some (_, query, _) => form_parse query | None => [] end.
Definition url_clean (url : string) : Prop :=
  forall name value, (name, value) ∈ query_fields url -> is_sensitive_query_field_name name = true ->
  value = REDACTED_VALUE.

Lemma redact_query_fields value :
  query_fields (redact_query value) = map redact_pair (query_fields value).
Proof.
  unfold redact_query, query_fields. destruct (split_query value) as [[[prefix query] fragment]|] eqn:E;
    [|by rewrite E]. destruct (existsb _ _) eqn:Hs.
  - assert (str_contains_char 63 prefix = false) as Hp.
    { unfold split_query in E. destruct (str_split_once 63 value) as [[h t]|] eqn:E2; [|done].
      apply split_once_spec in E2. by destruct (str_split_once 35 t) as [[]|]; simplify_eq. }
    pose proof (form_chars (map redact_pair (form_parse query))) as Hc. unfold split_query.
    destruct fragment as [fragment|]; rewrite ?str_app_assoc; change ("?" +:+ ?s) with (String "?"%char s).
    + rewrite split_once_app by done. change ("#" +:+ fragment) with (String "#"%char fragment).
      rewrite split_once_app by done. apply form_roundtrip.
    + rewrite split_once_app, split_once_none by done. apply form_roundtrip.
  - rewrite E. symmetry. rewrite <- (map_id (form_parse query)) at 2. apply map_ext_in.
    intros [n w] Hin%list_elem_of_In. unfold redact_pair.
    destruct (is_sensitive_query_field_name n) eqn:Hn; [|done]. exfalso.
    assert (existsb (fun '(name, _) => is_sensitive_query_field_name name) (form_parse query) = true) as H.
    { apply existsb_exists. exists (n, w). split; [by apply list_elem_of_In|done]. }
    congruence.
Qed.

Lemma redact_url_clean value : url_clean (redact_sensitive_url value).
Proof.
  intros name v. unfold redact_sensitive_url. rewrite redact_query_fields.
  intros ([n w] & [= -> ->] & _)%list_elem_of_fmap ->. done.
Qed.

Lemma redact_headers_clean headers name value :
  (name, value) ∈ redact_sensitive_headers headers -> is_sensitive_header_name name = true ->
  value = REDACTED_VALUE.
Proof. intros ([n w] & [= -> ->] & _)%list_elem_of_fmap ->. done. Qed.

(** A call and an event as they come back from a row. *)
Definition redacted_context (c : CallContext) : CallContext :=
  mkCallContext (cc_story c) (cc_call c) (redact_sensitive_headers (cc_request_headers c)) (cc_level c)
    (cc_client_model c) (cc_upstream_model c) (cc_provider c) (cc_protocol c) false (cc_client_peer c)
    (cc_client_meta c) (cc_http_version c) (redact_sensitive_url <$> cc_upstream_url c).
Definition redacted_event (e : Event ReqSemantic RespSemantic) : Event ReqSemantic RespSemantic :=
  match e with
  | EvRequest r =>
      EvRequest (mkRequestEvent (redact_sensitive_url (rq_path r)) (rq_method r)
        (redact_sensitive_url <$> rq_url r) (rq_body_bytes r) (rq_user_content r)
        (redact_sensitive_body <$> rq_body_json r) None (rq_model_rewritten r)
        (redact_sensitive_headers (rq_headers r)))
  | EvResponseComplete c =>
      EvResponseComplete (mkCompleteEvent (cp_status c) (cp_resp_bytes c) (cp_streaming c)
        (cp_stream_metrics c) (cp_assistant_content c) None (redact_sensitive_headers (cp_headers c)))
  | EvResponseDraft _ | EvCancelled _ => e
  end.

(** The story of a call context made by [CallContext::new]. *)
Definition context_consistent (c : CallContext) : Prop :=
  cc_story c = story_from_route (sc_route (cc_story c)) (sc_agent_id (cc_story c)).

(** The machine widths of an event's numbers, and no JSON [null] as its body. *)
Definition event_in_range (e : Event ReqSemantic RespSemantic) : Prop :=
  match e with
  | EvRequest r => in_u64 (rq_body_bytes r) /\ rq_body_json r <> Some JNull
  | EvResponseComplete c => (0 <= cp_status c <= u16_max)%Z /\ option_wf metrics_wf (cp_stream_metrics c)
  | EvResponseDraft d => (0 <= df_status d <= u16_max)%Z
  | EvCancelled c => (0 <= cn_status c <= u16_max)%Z /\ in_u64 (cn_bytes_received c)
  end.

Lemma context_row_roundtrip c : context_consistent c -> to_call_context (from_context c) = redacted_context c.
Proof.
  intros Hc. destruct c as [story call headers level cm um prov proto dbg peer meta ver url].
  unfold context_consistent in Hc. simpl in Hc.
  assert (call_context_new (sc_route story) (sc_agent_id story) call (redact_sensitive_headers headers) level
            cm um prov proto false
          = mkCallContext story call (redact_sensitive_headers headers) level cm um prov proto false
              None None None None) as E by (unfold call_context_new; by rewrite <- Hc).
  unfold to_call_context. simpl. rewrite E. by destruct peer, meta, ver, url.
Qed.

Lemma event_row_roundtrip e : to_event (from_event e) = redacted_event e.
Proof.
  destruct e as [r|[]|c|[]]; try done. simpl. unfold resp_to_payload. by destruct (utf8_valid _).
Qed.

Lemma event_row_wf e : event_in_range e -> event_wf (from_event e).
Proof.
  destruct e as [r| |c|]; try done. simpl. intros [Hb Hn]. split; [done|].
  destruct (rq_body_json r) as [[]|]; simpl; congruence.
Qed.

(** The headers, URLs and body of a row. *)
Definition row_headers (d : DeadLetterContext) (e : SerializableEvent) : Headers :=
  dl_request_headers d
  ++ match e with
     | SerRequest _ _ _ _ _ _ _ headers | SerResponseComplete _ _ _ _ _ headers => headers
     | _ => []
     end.
Definition row_urls (d : DeadLetterContext) (e : SerializableEvent) : list string :=
  option_list (dl_upstream_url d)
  ++ match e with SerRequest path _ url _ _ _ _ _ => path :: option_list url | _ => [] end.
Definition row_body (e : SerializableEvent) : option Value :=
  match e with SerRequest _ _ _ _ _ body _ _ => body | _ => None end.

(** No credential in a header, a URL query or a request body: each sensitive
    header has the marker as its value, so has each sensitive query field of the
    path and the URLs, and the body is clean at every depth. *)
Definition row_clean (d : DeadLetterContext) (e : SerializableEvent) : Prop :=
  (forall name value, (name, value) ∈ row_headers d e -> is_sensitive_header_name name = true -> value = REDACTED_VALUE)
  /\ Forall url_clean (row_urls d e)
  /\ match row_body e with Some body => body_clean body | None => True end.

Lemma written_rows_clean (ctx : CallContext) (ev : Event ReqSemantic RespSemantic) :
  row_clean (from_context ctx) (from_event ev).
Proof.
  split_and!.
  - intros name value [Hin|Hin]%elem_of_app; [by eapply (redact_headers_clean (cc_request_headers ctx))|].
    destruct ev as [r| |r|]; simpl in Hin; try (by apply elem_of_nil in Hin);
      by eapply redact_headers_clean.
  - apply Forall_app. split; [|destruct ev as [r| | |]; simpl; try done; constructor; [apply redact_url_clean|]].
    + simpl. destruct (cc_upstream_url ctx); repeat constructor; apply redact_url_clean.
    + destruct (rq_url r); repeat constructor; apply redact_url_clean.
  - destruct ev as [r| | |]; simpl; try done. destruct (rq_body_json r); simpl; [apply redact_body_clean|done].
Qed.
End RedactUrl.

Module CaptureExample.
(** A [url] crate that takes no text for an absolute URL and writes the pairs
    of a form as one number. *)
#[refine] Instance example_urls : UrlCrate := {|
  Url := Empty_set;
  url_parse := fun _ => None;
  url_username := fun u => match u with end;
  url_password := fun u => match u with end;
  url_set_username := fun u _ => None;
  url_set_password := fun u _ => None;
  url_to_string := fun u => match u with end;
  form_parse := fun s => default [] (p ← of_bits s; decode p);
  form_serialize := fun pairs => bits_of (encode pairs);
|}.
Proof.
  - intros pairs. rewrite of_bits_of. simpl. by rewrite decode_encode.
  - intros pairs. unfold str_contains_char. apply negb_false_iff.
    eapply str_forall_impl; [|apply bits_chars]. intros c Hc. unfold byte_in, byte_is in *.
    apply andb_prop in Hc as [?%N.leb_le ?%N.leb_le]. apply negb_true_iff, N.eqb_neq. lia.
Defined.

Definition route : CaptureRoute := mkRoute (Some "run-1") "sess" "run-1" None.
Definition ctx : CallContext :=
  attach_upstream_url ("https://h/v1?" +:+ form_serialize [("key", "s3cret"); ("q", "x")])
    (call_context_new route "agent" (mkCall "c1" "t1" "2026-01-01T00:00:00Z") [("X-Api-Key", "s3cret")]
       LevelDialogue "m" "m" ProvOpenAi ChatCompletions false).
Definition request : Event unit unit :=
  EvRequest (mkRequestEvent "/v1/chat/completions" "POST" None 10 (Some "hi")
    (Some (JObject [("model", JString "m"); ("auth", JObject [("API-Key", JString "s3cret")])]))
    (Some tt) false [("authorization", "Bearer s3cret")]).

Example context_is_redacted :
  dl_request_headers (from_context ctx) = [("X-Api-Key", REDACTED_VALUE)]
  /\ (dl_upstream_url (from_context ctx) ≫= fun u => Some (query_fields u))
     = Some [("key", REDACTED_VALUE); ("q", "x")].
Proof. vm_compute. split; reflexivity. Qed.

(** The letter for an event whose application failed carries the prepared
    record; at the level Full that record has the body as the client sent it. *)
Theorem letter_of_failed_application_keeps_the_record :
  let record := "{'payload':{'body':{'auth':{'API-Key':'s3cret'}}}}" in
  let letter := dead_letter_entry "t" ctx request "store unavailable" (Some record) in
  row_body (de_event letter)
  = Some (JObject [("model", JString "m"); ("auth", JObject [("API-Key", JString REDACTED_VALUE)])])
  /\ json_get (dead_letter_value letter) "prepared_record_json" = Some (JString record).
Proof. vm_compute. split; reflexivity. Qed.
End CaptureExample.
