(* ===== verification/Wal.v ===== *)
(** * Gateway: the event write-ahead log

    Models [persisting-gateway/src/engine/wal.rs]: the lines of the log and
    their JSON, the scan that recovers unacknowledged events, the sequence a
    reopened log continues with, and the group-commit writer with its bounded
    command queue.

    A log file is its bytes and how many of them are known to be on disk.  A
    write may stop after any number of bytes, a sync may fail, and a crash
    keeps at least what was synced. *)

From Stdlib Require Import ZArith Lia Ascii.
From stdpp Require Import base list strings gmap numbers option sorting.
From S2P Require Import Prelude Json JsonLines Events TurnMachine Capture.

Record WalEventBody := mkWalBody {
  wb_seq : Z; wb_timestamp : string; wb_context : DeadLetterContext; wb_event : SerializableEvent;
}.
Inductive WalLine := WalEvent (b : WalEventBody) | WalAck (seq : Z).
Definition line_seq (l : WalLine) : Z := match l with WalEvent b => wb_seq b | WalAck seq => seq end.

Record PendingEntry := mkPending {
  pe_seq : Z; pe_context : DeadLetterContext; pe_event : SerializableEvent;
}.
Definition pending_of (b : WalEventBody) : PendingEntry := mkPending (wb_seq b) (wb_context b) (wb_event b).

Definition GROUP_COMMIT_MAX_LINES : nat := 256.
Definition WAL_QUEUE_CAPACITY : nat := 256.

(** ** Lines as JSON *)

Definition wal_line_value (l : WalLine) : Value :=
  match l with
  | WalEvent b =>
      JObject (field "kind" (JString "event") ++ field "seq" (uint (wb_seq b))
        ++ field "timestamp" (JString (wb_timestamp b)) ++ field "context" (context_value (wb_context b))
        ++ field "event" (event_value (wb_event b)))
  | WalAck seq => JObject (field "kind" (JString "ack") ++ field "seq" (uint seq))
  end.

Definition wal_line_of_value (v : Value) : option WalLine :=
  kind ← get_field v "kind" as_str;
  if bool_decide (kind = "event") then
    seq ← get_field v "seq" as_u64;
    timestamp ← get_field v "timestamp" as_str;
    context ← get_field v "context" context_of_value;
    event ← get_field v "event" event_of_value;
    Some (WalEvent (mkWalBody seq timestamp context event))
  else if bool_decide (kind = "ack") then WalAck <$> get_field v "seq" as_u64
  else None.

Section Log.
Context {JT : JsonText}.

Definition wal_line_text (l : WalLine) : string := json_text (wal_line_value l).
Definition wal_line_parse (s : string) : option WalLine := json_parse s ≫= wal_line_of_value.

(** What a batch writes: each line and a line feed. *)
Fixpoint render (lines : list WalLine) : string :=
  match lines with [] => "" | l :: lines => wal_line_text l +:+ newline +:+ render lines end.

(** ** Recovery *)

(** One line of [replay_pending]: an unreadable or unparsable line is skipped. *)
Definition replay_line (acc : gmap Z PendingEntry * gset Z) (line : option string)
  : gmap Z PendingEntry * gset Z :=
  let '(events, acked) := acc in
  match line with
  | None => acc
  | Some line =>
      let trimmed := str_trim line in
      if bool_decide (trimmed = "") then acc
      else match wal_line_parse trimmed with
      | Some (WalEvent b) => (<[wb_seq b := pending_of b]> events, acked)
      | Some (WalAck seq) => (events, {[seq]} ∪ acked)
      | None => acc
      end
  end.

(** The entries of a [BTreeMap], by key. *)
Definition seq_le (a b : Z * PendingEntry) : Prop := (fst a <= fst b)%Z.
#[global] Instance seq_le_dec a b : Decision (seq_le a b).
Proof. unfold seq_le. apply _. Defined.

Definition replay_pending (contents : option string) : list PendingEntry :=
  match contents with
  | None => []
  | Some contents =>
      let '(events, acked) := foldl replay_line (∅, ∅) (read_lines contents) in
      omap (fun '(seq, entry) => if bool_decide (seq ∈ acked) then None else Some entry)
        (merge_sort seq_le (map_to_list events))
  end.

(** [next_sequence]: the scan stops at the first unreadable line. *)
Fixpoint map_while_ok (lines : list (option string)) : list string :=
  match lines with Some l :: rest => l :: map_while_ok rest | _ => [] end.
Fixpoint max_seq (l : list Z) : option Z :=
  match l with
  | [] => None
  | z :: l => Some (match max_seq l with Some m => Z.max z m | None => z end)
  end.
Definition next_sequence (contents : option string) : Z :=
  match contents with
  | None => 0
  | Some contents =>
      match max_seq (omap (fun line => line_seq <$> wal_line_parse (str_trim line))
                       (map_while_ok (read_lines contents))) with
      | None => 0
      | Some seq => u64_saturating_add seq 1
      end
  end.

(** ** The file and the writer *)

(** The body of the line that [append_event] submits. *)
Definition wal_body {UC : UrlCrate} {ReqSemantic RespSemantic : Type} (seq : Z) (timestamp : string)
    (ctx : CallContext) (event : Event ReqSemantic RespSemantic) : WalEventBody :=
  mkWalBody seq timestamp (from_context ctx) (from_event event).

Record Disk := mkDisk { dk_bytes : string; dk_synced : nat }.

(** [commit_lines]: the batch is written line by line and then synced; the
    write may stop after [limit] bytes, and the error is only reported. *)
Record WriteFate := mkWriteFate { wf_limit : option nat; wf_sync : bool }.
Definition commit_lines (fate : WriteFate) (batch : list WalLine) (d : Disk) : Disk :=
  let text := render batch in
  match wf_limit fate with
  | Some n => mkDisk (dk_bytes d +:+ String.substring 0 n text) (dk_synced d)
  | None =>
      let bytes := dk_bytes d +:+ text in
      mkDisk bytes (if wf_sync fate then String.length bytes else dk_synced d)
  end.

Inductive WalCommand := CmdLine (l : WalLine) | CmdFlush (c : nat) | CmdTruncate (c : nat) | CmdShutdown.

(** The writer thread: about to take a command (one may have been put aside
    while collecting a batch), collecting a batch, or gone. *)
Inductive Writer := Receiving (deferred : option WalCommand) | Collecting (batch : list WalLine) | Stopped.

(** [EventWal::open] on a file that can be opened or created: the writer
    starts, and the sequence continues the file's. *)
Definition wal_open (d : Disk) : Writer * Z := (Receiving None, next_sequence (Some (dk_bytes d))).

(** [try_send] and [send] on the bounded queue; a blocking [send] waits when
    there is no room and fails when the receiver is gone. *)
Definition chan_room (writer : Writer) (chan : list WalCommand) : bool :=
  match writer with Stopped => false | _ => (length chan <? WAL_QUEUE_CAPACITY)%nat end.

Definition wal_try_send (writer : Writer) (cmd : WalCommand) (chan : list WalCommand) : option (list WalCommand) :=
  if chan_room writer chan then Some (chan ++ [cmd]) else None.

(** ** Round trip *)

Definition line_wf (l : WalLine) : Prop :=
  in_u64 (line_seq l)
  /\ match l with WalEvent b => context_wf (wb_context b) /\ event_wf (wb_event b) | WalAck _ => True end.

Lemma wal_line_value_roundtrip l : line_wf l -> wal_line_of_value (wal_line_value l) = Some l.
Proof.
  intros [Hs Hl]. destruct l as [[seq ts c e]|seq]; unfold wal_line_of_value, get_field, in_u64 in *;
    simpl in *; rewrite bool_decide_eq_true_2 by done; [|done].
  destruct Hl as [Hc He]. simpl. by rewrite context_roundtrip, event_roundtrip.
Qed.

Lemma wal_line_roundtrip l : line_wf l -> wal_line_parse (str_trim (wal_line_text l)) = Some l.
Proof.
  intros Hl. unfold wal_line_parse, wal_line_text. rewrite json_text_parse. by apply wal_line_value_roundtrip.
Qed.

Lemma read_lines_render lines rest :
  read_lines (render lines +:+ rest) = map (fun l => Some (wal_line_text l)) lines ++ read_lines rest.
Proof.
  induction lines as [|l lines IH]; [done|].
  change (render (l :: lines)) with (wal_line_text l +:+ newline +:+ render lines).
  rewrite !str_app_assoc, read_lines_line by apply json_text_one_line.
  rewrite IH. unfold checked_line, wal_line_text at 1 2. by rewrite (proj2 (json_text_one_line _)), json_text_utf8.
Qed.

Lemma line_not_empty l : bool_decide (str_trim (wal_line_text l) = "") = false.
Proof. apply (json_text_not_blank (wal_line_value l)). Qed.

(** The scan of a rendered log as a scan of its lines. *)
Definition note_line (acc : gmap Z PendingEntry * gset Z) (l : WalLine) : gmap Z PendingEntry * gset Z :=
  match l with
  | WalEvent b => (<[wb_seq b := pending_of b]> (fst acc), snd acc)
  | WalAck seq => (fst acc, {[seq]} ∪ snd acc)
  end.

Lemma replay_lines lines acc :
  Forall line_wf lines ->
  foldl replay_line acc (map (fun l => Some (wal_line_text l)) lines) = foldl note_line acc lines.
Proof.
  revert acc. induction lines as [|l lines IH]; intros acc; [done|]. intros [Hl Hrest]%Forall_cons_1. simpl.
  rewrite <- IH by done. f_equal. destruct acc as [events acked]. unfold replay_line.
  rewrite line_not_empty, wal_line_roundtrip by done. by destruct l.
Qed.

(** A tail that the scan skips: nothing, or bytes without a line feed that are
    not a line. *)
Definition torn (tail : string) : Prop :=
  no_newline tail = true
  /\ (tail = "" \/ utf8_valid tail = false \/ wal_line_parse (str_trim tail) = None).

Lemma torn_nil : torn "".
Proof. split; [done|by left]. Qed.

Lemma torn_skipped tail acc : torn tail -> foldl replay_line acc (read_lines tail) = acc.
Proof.
  intros [Hn Hbad]. rewrite read_lines_tail by done. case_bool_decide; [done|]. simpl.
  destruct acc as [events acked]. unfold checked_line. destruct (utf8_valid tail); simpl; [|done].
  destruct Hbad as [?|[|Hp]]; [done..|]. rewrite Hp. by case_bool_decide.
Qed.

(** *** What the scan finds *)

(** The last event of a sequence number in the log, and whether the number is
    acknowledged. *)
Definition event_of (seq : Z) (l : WalLine) : option WalEventBody :=
  match l with WalEvent b => if bool_decide (wb_seq b = seq) then Some b else None | WalAck _ => None end.
Definition last_event (lines : list WalLine) (seq : Z) : option WalEventBody :=
  list.last (omap (event_of seq) lines).
Definition acked (lines : list WalLine) (seq : Z) : Prop := WalAck seq ∈ lines.

Lemma last_event_cons l lines seq :
  last_event (l :: lines) seq
  = match last_event lines seq with Some b => Some b | None => event_of seq l end.
Proof.
  unfold last_event.
  change (omap (event_of seq) (l :: lines))
    with (match event_of seq l with
          | Some b => b :: omap (event_of seq) lines
          | None => omap (event_of seq) lines
          end).
  destruct (event_of seq l); [apply last_cons|]. by destruct (list.last _).
Qed.

Lemma note_lines_events lines events acks seq :
  fst (foldl note_line (events, acks) lines) !! seq
  = match last_event lines seq with Some b => Some (pending_of b) | None => events !! seq end.
Proof.
  revert events acks. induction lines as [|l lines IH]; intros events acks; [done|].
  rewrite last_event_cons. destruct l as [b|s]; simpl; rewrite IH; destruct (last_event lines seq); try done.
  case_bool_decide as Hb; [subst; apply lookup_insert_eq|by rewrite lookup_insert_ne].
Qed.

Lemma note_lines_acks lines events acks seq :
  seq ∈ snd (foldl note_line (events, acks) lines) <-> acked lines seq \/ seq ∈ acks.
Proof.
  revert events acks. induction lines as [|l lines IH]; intros events acks; simpl; unfold acked in *.
  - split; [auto|]. intros [[]%elem_of_nil|?]; done.
  - destruct l as [b|s]; simpl; rewrite IH, elem_of_cons.
    + split; [tauto|]. intros [[|]|]; [done|tauto|tauto].
    + rewrite elem_of_union, elem_of_singleton. split.
      * intros [?|[->|?]]; auto.
      * intros [[[=]|?]|?]; auto.
Qed.

Lemma event_of_seq seq l b : event_of seq l = Some b -> wb_seq b = seq /\ l = WalEvent b.
Proof. destruct l; simpl; [|done]. case_bool_decide; [|done]. by intros [= <-]. Qed.

Lemma last_event_in lines seq b : last_event lines seq = Some b -> wb_seq b = seq /\ WalEvent b ∈ lines.
Proof.
  intros H%last_Some_elem_of. apply list_elem_of_omap in H as (l & Hl & He).
  apply event_of_seq in He as [<- ->]. done.
Qed.

#[global] Instance seq_le_total : Total seq_le.
Proof. intros [a ?] [b ?]. unfold seq_le. simpl. lia. Qed.
#[global] Instance seq_le_trans : Transitive seq_le.
Proof. intros [a ?] [b ?] [c ?]. unfold seq_le. simpl. lia. Qed.

(** Filtering a list that is sorted by key, with distinct keys. *)
Lemma sorted_keys (f : Z * PendingEntry -> option PendingEntry) (l : list (Z * PendingEntry)) :
  (forall k e e', (k, e) ∈ l -> f (k, e) = Some e' -> pe_seq e' = k) ->
  StronglySorted seq_le l -> NoDup (fst <$> l) -> StronglySorted Z.lt (pe_seq <$> omap f l).
Proof.
  intros Hf. induction l as [|[k e] l IH]; intros Hs Hn; [constructor|].
  apply StronglySorted_inv in Hs as [Hs Hk]. apply list.NoDup_cons in Hn as [Hnk Hn].
  assert (StronglySorted Z.lt (pe_seq <$> omap f l)) as Hrest
    by (apply IH; [intros; eapply Hf; [by right|done]|done|done]).
  change (omap f ((k, e) :: l)) with (match f (k, e) with Some y => y :: omap f l | None => omap f l end).
  destruct (f (k, e)) as [e'|] eqn:E; [|done]. simpl. rewrite (Hf k e e') by (done || left).
  constructor; [done|]. apply Forall_forall. intros z (x & -> & Hx)%list_elem_of_fmap.
  apply list_elem_of_omap in Hx as ([k' e''] & Hin & Hf'). rewrite (Hf k' e'' x) by (done || by right).
  rewrite Forall_forall in Hk. specialize (Hk _ Hin). unfold seq_le in Hk. simpl in Hk.
  assert (k <> k'); [|lia]. intros ->. apply Hnk, list_elem_of_fmap. by exists (k', e'').
Qed.

Lemma pending_sorted (events : gmap Z PendingEntry) :
  StronglySorted seq_le (merge_sort seq_le (map_to_list events))
  /\ NoDup (fst <$> merge_sort seq_le (map_to_list events)).
Proof.
  split; [apply StronglySorted_merge_sort; apply _|].
  rewrite (merge_sort_Permutation seq_le (map_to_list events)). apply NoDup_fst_map_to_list.
Qed.

Lemma replay_spec lines tail :
  Forall line_wf lines -> torn tail ->
  let out := replay_pending (Some (render lines +:+ tail)) in
  StronglySorted Z.lt (pe_seq <$> out)
  /\ (forall e, e ∈ out <-> exists b, last_event lines (wb_seq b) = Some b /\ ~ acked lines (wb_seq b)
                                    /\ e = pending_of b).
Proof.
  intros Hl Ht out. subst out. unfold replay_pending.
  rewrite read_lines_render, foldl_app, replay_lines, torn_skipped by done.
  pose proof (note_lines_events lines ∅ ∅) as He. pose proof (note_lines_acks lines ∅ ∅) as Ha.
  destruct (foldl note_line (∅, ∅) lines) as [events acks]. simpl in He, Ha.
  assert (forall k e, events !! k = Some e -> exists b, last_event lines k = Some b /\ e = pending_of b) as Hev.
  { intros k e. rewrite He, lookup_empty. destruct (last_event lines k) as [b|]; [|done].
    intros [= <-]. eauto. }
  destruct (pending_sorted events) as [Hs Hn]. split.
  - apply sorted_keys; [|done|done]. intros k e e' Hin. case_bool_decide; [done|]. intros [= <-].
    rewrite merge_sort_Permutation in Hin. apply elem_of_map_to_list in Hin.
    destruct (Hev _ _ Hin) as (b & Hb & ->). by apply last_event_in in Hb as [<- _].
  - intros e. rewrite list_elem_of_omap. split.
    + intros ([k x] & Hin & Hx). rewrite merge_sort_Permutation in Hin. apply elem_of_map_to_list in Hin.
      case_bool_decide as Hack; [done|]. injection Hx as ->.
      destruct (Hev _ _ Hin) as (b & Hb & ->). exists b.
      pose proof (last_event_in _ _ _ Hb) as [-> _]. split_and!; [done| |done]. intros Hk. apply Hack, Ha. by left.
    + intros (b & Hb & Hna & ->). exists (wb_seq b, pending_of b). split.
      * rewrite merge_sort_Permutation. apply elem_of_map_to_list. by rewrite He, Hb.
      * case_bool_decide as Hack; [|done]. apply Ha in Hack as [|[]%elem_of_empty]. done.
Qed.
(** C24: the scan of the log finds exactly the events that must be replayed.
    On a log of complete lines, followed by a line that was cut short or by
    nothing, [replay_pending] returns, in increasing order of their sequence
    numbers and once each, the last event written under every number that no
    line acknowledges. *)
Theorem replay_exact lines tail :
  Forall line_wf lines -> torn tail ->
  let out := replay_pending (Some (render lines +:+ tail)) in
  StronglySorted Z.lt (pe_seq <$> out)
  /\ (forall e, e ∈ out <-> exists b, last_event lines (wb_seq b) = Some b /\ ~ acked lines (wb_seq b)
                                    /\ e = pending_of b).
Proof. apply replay_spec. Qed.

(** *** Sequence numbers *)

Lemma max_seq_spec l :
  match max_seq l with
  | None => l = []
  | Some m => m ∈ l /\ forall z, z ∈ l -> (z <= m)%Z
  end.
Proof.
  induction l as [|z l IH]; [done|]. simpl. destruct (max_seq l) as [m|].
  - destruct IH as [Hm Hle]. split.
    + destruct (Z.max_spec z m) as [[_ ->]|[_ ->]]; [by right|left].
    + intros y [->|Hy]%elem_of_cons; [lia|]. specialize (Hle _ Hy). lia.
  - subst l. split; [left|]. intros y [->|[]%elem_of_nil]%elem_of_cons. lia.
Qed.

Lemma map_while_ok_app lines rest : map_while_ok (map Some lines ++ rest) = lines ++ map_while_ok rest.
Proof. induction lines as [|l lines IH]; [done|]. simpl. by rewrite IH. Qed.

Lemma scan_seqs lines :
  Forall line_wf lines ->
  omap (fun line => line_seq <$> wal_line_parse (str_trim line)) (map wal_line_text lines) = map line_seq lines.
Proof.
  induction 1 as [|l lines Hl _ IH]; [done|]. simpl. rewrite wal_line_roundtrip by done. simpl. f_equal.
  exact IH.
Qed.

Lemma read_lines_render_some lines rest :
  read_lines (render lines +:+ rest) = map Some (map wal_line_text lines) ++ read_lines rest.
Proof. rewrite map_map. apply read_lines_render. Qed.

Lemma next_sequence_torn lines tail :
  Forall line_wf lines -> torn tail ->
  next_sequence (Some (render lines +:+ tail))
  = match max_seq (map line_seq lines) with None => 0%Z | Some seq => u64_saturating_add seq 1 end.
Proof.
  intros Hl [Hn Hbad]. unfold next_sequence. rewrite read_lines_render_some, map_while_ok_app, omap_app, scan_seqs by done.
  assert (omap (fun line => line_seq <$> wal_line_parse (str_trim line)) (map_while_ok (read_lines tail)) = []) as ->.
  { rewrite read_lines_tail by done. case_bool_decide; [done|]. unfold checked_line.
    destruct (utf8_valid tail); [|done]. destruct Hbad as [?|[|Hp]]; [done..|]. simpl. by rewrite Hp. }
  by rewrite app_nil_r.
Qed.

Lemma next_sequence_spec lines tail :
  Forall line_wf lines -> torn tail ->
  let n := next_sequence (Some (render lines +:+ tail)) in
  in_u64 n
  /\ (forall l, l ∈ lines -> (line_seq l <= n)%Z)
  /\ (forall l, l ∈ lines -> (n < u64_max)%Z -> (line_seq l < n)%Z).
Proof.
  intros Hl Ht n. subst n. rewrite next_sequence_torn by done.
  pose proof (max_seq_spec (map line_seq lines)) as Hm. destruct (max_seq _) as [m|].
  - destruct Hm as [Hin Hle].
    assert (in_u64 m) as Hu.
    { apply list_elem_of_fmap in Hin as (l & -> & Hin). rewrite Forall_forall in Hl. by apply Hl. }
    unfold u64_saturating_add, in_u64 in *.
    assert (forall l, l ∈ lines -> (line_seq l <= m)%Z) as Hle'
      by (intros l Hlin; apply Hle, list_elem_of_fmap; by exists l).
    split_and!; [lia|lia|..]; intros l Hlin; specialize (Hle' l Hlin); lia.
  - apply map_eq_nil in Hm as ->. split_and!; [unfold in_u64, u64_max; lia|..]; intros l []%elem_of_nil.
Qed.

(** A reopened log continues the sequence.  On a log of complete lines,
    with or without a line cut short at its end, [next_sequence] is a u64 that
    is at least every number of the log, and above all of them unless the
    numbers are exhausted: a new event never takes a number that an event or
    an acknowledgement of the log has. *)
Theorem sequence_continues lines tail :
  Forall line_wf lines -> torn tail ->
  let n := next_sequence (Some (render lines +:+ tail)) in
  in_u64 n
  /\ (forall l, l ∈ lines -> (line_seq l <= n)%Z)
  /\ (forall l, l ∈ lines -> (n < u64_max)%Z -> (line_seq l < n)%Z).
Proof. apply next_sequence_spec. Qed.

(** *** Lines that were cut short *)

Lemma no_newline_app a b : no_newline (a +:+ b) = no_newline a && no_newline b.
Proof. apply str_forall_app. Qed.

Lemma render_app l1 l2 : render (l1 ++ l2) = render l1 +:+ render l2.
Proof. induction l1 as [|l l1 IH]; [done|]. simpl. by rewrite IH, !str_app_assoc. Qed.

(** A line that the scan skips. *)
Definition skipped (line : string) : Prop :=
  utf8_valid line = false \/ wal_line_parse (str_trim line) = None.

Lemma replay_skipped line acc : skipped line -> replay_line acc (checked_line line) = acc.
Proof.
  intros Hs. destruct acc as [events acks]. unfold checked_line, replay_line.
  destruct Hs as [->|Hp]; [done|]. destruct (utf8_valid line); [|done]. rewrite Hp. by case_bool_decide.
Qed.

(** A line cut short takes the next one with it.  The writer appends
    directly after the bytes of a line that a crash or a failed write left
    unfinished; if the two texts do not happen to form a line together, the
    new line, although written completely and synced, is not seen by the scan:
    an event is not replayed and an acknowledgement has no effect. *)
Theorem torn_line_swallows_next lines tail l n :
  Forall line_wf lines -> torn tail -> skipped (strip_cr (tail +:+ wal_line_text l)) ->
  let d := commit_lines (mkWriteFate None true) [l] (mkDisk (render lines +:+ tail) n) in
  dk_synced d = String.length (dk_bytes d)
  /\ replay_pending (Some (dk_bytes d)) = replay_pending (Some (render lines +:+ tail)).
Proof.
  intros Hl Ht Hs d. subst d. simpl. split; [done|]. unfold replay_pending.
  rewrite str_app_nil_r, str_app_assoc.
  change (tail +:+ wal_line_text l +:+ newline) with (tail +:+ (wal_line_text l +:+ newline +:+ "")).
  assert (tail +:+ (wal_line_text l +:+ newline +:+ "") = (tail +:+ wal_line_text l) +:+ newline +:+ "") as ->
    by (by rewrite !str_app_assoc).
  rewrite !read_lines_render, !foldl_app. f_equal.
  rewrite read_lines_line by (rewrite no_newline_app, (proj1 Ht); apply json_text_one_line).
  rewrite torn_skipped by done. simpl. by rewrite replay_skipped.
Qed.

(** A line that is not valid UTF-8 makes the log reuse sequence numbers.
    [next_sequence] stops at such a line (a multi-byte character cut in two is
    enough) while [replay_pending] reads on.  A reopened log then starts at a
    number that later lines already use; if one of them acknowledges it, the
    new event of that number is never replayed, however durable its line. *)
Theorem unreadable_line_reuses_sequence before bad after b :
  Forall line_wf before -> Forall line_wf after ->
  no_newline bad = true -> utf8_valid (strip_cr bad) = false ->
  let log := render before +:+ bad +:+ newline +:+ render after in
  line_wf (WalEvent b) -> wb_seq b = next_sequence (Some log) -> acked after (wb_seq b) ->
  next_sequence (Some log) = next_sequence (Some (render before))
  /\ (forall e, e ∈ replay_pending (Some (log +:+ render [WalEvent b])) -> pe_seq e <> wb_seq b).
Proof.
  intros Hb Ha Hn Hu log Hwf Hseq Hack. split.
  - unfold log, next_sequence. rewrite read_lines_render_some, read_lines_line by done.
    rewrite <- (str_app_nil_r (render before)) at 1. rewrite read_lines_render_some.
    unfold checked_line at 1. rewrite Hu, !map_while_ok_app. done.
  - intros e He Heq. unfold replay_pending, log in He.
    rewrite !str_app_assoc, read_lines_render in He.
    rewrite read_lines_line in He by done. rewrite <- render_app in He.
    rewrite <- (str_app_nil_r (render (after ++ _))) in He.
    rewrite read_lines_render, app_nil_r, foldl_app in He. simpl in He.
    rewrite replay_skipped in He by (by left).
    rewrite (replay_lines (after ++ _)) in He by (apply Forall_app; split; [done|by constructor]).
    rewrite (replay_lines before), <- foldl_app in He by done.
    pose proof (note_lines_acks (before ++ after ++ [WalEvent b]) ∅ ∅ (wb_seq b)) as Hk.
    pose proof (note_lines_events (before ++ after ++ [WalEvent b]) ∅ ∅) as Hev.
    destruct (foldl note_line (∅, ∅) _) as [events acks]. simpl in *.
    apply list_elem_of_omap in He as ([k x] & Hin & Hx). case_bool_decide as Hka; [done|]. injection Hx as ->.
    rewrite merge_sort_Permutation in Hin. apply elem_of_map_to_list in Hin. rewrite Hev, lookup_empty in Hin.
    destruct (last_event _ k) as [b'|] eqn:El; [|done]. injection Hin as <-.
    apply last_event_in in El as [<- _]. simpl in Heq. rewrite Heq in Hka. apply Hka, Hk.
    left. unfold acked in *. apply elem_of_app. right. apply elem_of_app. by left.
Qed.

(** C25: an event survives its line.  For every call and event within machine
    widths (and whose JSON body is not the literal null), the line that
    [append_event] submits parses back to a row with the same sequence number
    whose call and event are the original ones with their credentials
    redacted, without the parsed semantics and the debug flag, which are not
    persisted. *)
Theorem wal_row_roundtrip {UC : UrlCrate} {ReqSemantic RespSemantic : Type} seq ts ctx
    (ev : Event ReqSemantic RespSemantic) :
  in_u64 seq -> context_consistent ctx -> option_wf client_meta_wf (cc_client_meta ctx) -> event_in_range ev ->
  exists b, wal_line_parse (str_trim (wal_line_text (WalEvent (wal_body seq ts ctx ev)))) = Some (WalEvent b)
    /\ wb_seq b = seq
    /\ to_call_context (wb_context b) = redacted_context ctx
    /\ to_event (wb_event b) = redacted_event ev.
Proof.
  intros Hs Hc Hm He. exists (wal_body seq ts ctx ev). split_and!; [|done|..].
  - apply wal_line_roundtrip. split; [done|]. split; [done|by apply event_row_wf].
  - by apply context_row_roundtrip.
  - apply event_row_roundtrip.
Qed.
End Log.

(** ** Credentials *)

(** C26: neither the write-ahead log nor a dead letter for a rejected event holds
    a credential in a header, a URL query or a JSON request body.  For every call
    and event, the row the log is given and the letter written when the apply
    queue does not take the event have a call and an event in which each sensitive
    header has the marker as its value, so has each sensitive query field of the
    path and the URLs, and the request body is clean at every depth; and the
    letter has nothing else but its time and a fixed reason.  (A letter for an
    event whose application failed also has the error and the record prepared for
    the store, which are not redacted:
    [letter_of_failed_application_keeps_the_record].) *)
Theorem rows_carry_no_credentials {UC : UrlCrate} {ReqSemantic RespSemantic : Type} seq timestamp
    (ctx : CallContext) (ev : Event ReqSemantic RespSemantic) :
  let row := wal_body seq timestamp ctx ev in
  let letter := rejected_letter timestamp ctx ev in
  row_clean (wb_context row) (wb_event row)
  /\ row_clean (de_context letter) (de_event letter)
  /\ de_error letter = "apply queue full or closed" /\ de_prepared_record_json letter = None.
Proof. split_and!; [apply written_rows_clean..|done|done]. Qed.

Module WalExample.
Import CaptureExample.

Definition body (seq : Z) : WalEventBody := wal_body seq "t" ctx request.
Definition lines : list WalLine := [WalEvent (body 0); WalEvent (body 1); WalAck 0].
Definition tail : string := String.substring 0 5 (wal_line_text (WalAck 1)).

Lemma lines_wf : Forall line_wf lines.
Proof. repeat constructor; done. Qed.

Lemma tail_torn : torn tail.
Proof. split; [vm_compute; reflexivity|]. right. right. vm_compute. reflexivity. Qed.

Lemma replay_exact_witness :
  replay_pending (Some (render lines +:+ tail)) = [pending_of (body 1)]
  /\ pending_of (body 1) ∈ replay_pending (Some (render lines +:+ tail)).
Proof.
  split; [vm_compute; reflexivity|].
  apply (proj2 (replay_exact lines tail lines_wf tail_torn)). exists (body 1).
  split; [vm_compute; reflexivity|]. split; [|reflexivity].
  intros H. unfold acked, lines in H. rewrite !elem_of_cons, elem_of_nil in H.
  destruct H as [H|[H|[H|[]]]]; discriminate.
Defined.

Lemma sequence_continues_witness :
  next_sequence (Some (render lines +:+ tail)) = 2%Z
  /\ in_u64 (next_sequence (Some (render lines +:+ tail))).
Proof. split; [vm_compute; reflexivity|]. apply (sequence_continues lines tail lines_wf tail_torn). Defined.

Lemma torn_line_swallows_next_witness :
  replay_pending
    (Some (dk_bytes (commit_lines (mkWriteFate None true) [WalEvent (body 2)] (mkDisk (render lines +:+ tail) 0))))
  = [pending_of (body 1)].
Proof.
  etransitivity; [apply (torn_line_swallows_next lines tail (WalEvent (body 2)) 0 lines_wf tail_torn)|].
  - right. vm_compute. reflexivity.
  - vm_compute. reflexivity.
Defined.

(** A line cut inside a two-byte character, continued by a later line. *)
Definition bad : string := String "195"%char (wal_line_text (WalAck 7)).

Lemma unreadable_line_reuses_sequence_witness :
  next_sequence (Some (render [WalEvent (body 0)] +:+ bad +:+ newline +:+ render [WalEvent (body 1); WalAck 1]))
  = 1%Z
  /\ forall e, e ∈ replay_pending
        (Some ((render [WalEvent (body 0)] +:+ bad +:+ newline +:+ render [WalEvent (body 1); WalAck 1])
                 +:+ render [WalEvent (body 1)])) ->
      pe_seq e <> 1%Z.
Proof.
  split; [vm_compute; reflexivity|].
  apply (unreadable_line_reuses_sequence [WalEvent (body 0)] bad [WalEvent (body 1); WalAck 1] (body 1));
    [repeat constructor; done|repeat constructor; done|vm_compute; reflexivity|vm_compute; reflexivity
    |repeat constructor; done|vm_compute; reflexivity|right; left].
Defined.

Lemma wal_row_roundtrip_witness :
  exists b, wal_line_parse (str_trim (wal_line_text (WalEvent (body 3)))) = Some (WalEvent b)
    /\ wb_seq b = 3%Z /\ to_call_context (wb_context b) = redacted_context ctx
    /\ to_event (wb_event b) = redacted_event request.
Proof.
  apply (wal_row_roundtrip 3 "t" ctx request); [split; vm_compute; discriminate|reflexivity|exact I|].
  split; [split; vm_compute; discriminate|discriminate].
Defined.
End WalExample.
