(* ===== verification/CaptureRuntime.v ===== *)
(** * Gateway: the capture runtime

    Models [persisting-gateway/src/engine/apply_queue.rs] (one ordered queue
    and consumer per story, rejected jobs to the dead-letter writer, barriers)
    and the parts of [engine/coordinator.rs] that tie it to the write-ahead
    log: [spawn_apply], the replay of a restarted runtime, [flush] and
    [shutdown].

    Callers, consumers, the log writer, the dead-letter writer and the
    shutdown run concurrently; a step is one of their atomic operations.
    Whether an event can be applied is the story actor's answer, a choice of
    the step; so are the failures of the file system and a crash, which loses
    everything but the file. *)

From Stdlib Require Import ZArith Lia Ascii.
From stdpp Require Import base list strings gmap numbers option sorting relations.
From S2P Require Import Prelude Json JsonLines Events TurnMachine Capture Wal.

Definition APPLY_QUEUE_CAPACITY : nat := 256.
Definition REJECTED_EVENT_QUEUE_CAPACITY : nat := 256.

Lemma exists_last' {A} (l : list A) : l = [] \/ exists l' x, l = l' ++ [x].
Proof. destruct (list.last l) as [x|] eqn:E; [right|left; by apply last_None]. apply last_Some in E as [l' ->]. eauto. Qed.

Section Runtime.
Context {JT : JsonText} {UC : UrlCrate} {ReqSemantic RespSemantic : Type}.
#[local] Abbreviation Ev := (Event ReqSemantic RespSemantic).

(** ** State *)

Record LogState := mkLog {
  lg_enabled : bool;
  lg_disk : Disk;
  lg_writer : Writer;
  lg_chan : list WalCommand;
  lg_next : Z;
  lg_answers : gmap nat bool;
}.

Inductive ApplyJob :=
| JobCapture (ctx : CallContext) (event : Ev) (wal_seq : option Z)
| JobBarrier (token : nat).

(** A consumer between two receives: applying an event, or about to
    acknowledge one. *)
Inductive Busy := Applying (ctx : CallContext) (event : Ev) (wal_seq : option Z)
                | Acking (ctx : CallContext) (event : Ev) (seq : Z).

(** A [spawn_apply] call: entered, with its sequence number, and past the log. *)
Inductive Caller :=
| CallerStart (ctx : CallContext) (event : Ev)
| CallerSeq (ctx : CallContext) (event : Ev) (seq : Z)
| CallerQueue (ctx : CallContext) (event : Ev) (wal_seq : option Z).

(** The points of [shutdown]: the barriers of [flush], its other parts, the
    snapshots, the check of the log and its truncation. *)
Inductive Shutdown :=
| ShRunning
| ShBarriers (todo : list string)
| ShAwait (token : nat) (todo : list string)
| ShStories
| ShFlush
| ShFlushWait
| ShPersist
| ShCheck
| ShTruncate
| ShTruncateWait
| ShDone
| ShFailed.

Record Runtime := mkRuntime {
  rn_log : LogState;
  rn_replay : list PendingEntry;
  rn_callers : gmap nat Caller;
  rn_queues : gmap string (list ApplyJob);
  rn_busy : gmap string Busy;
  rn_barriers : gset nat;
  rn_rejected : list (CallContext * Ev);
  rn_dead_letters : list (CallContext * Ev);
  rn_shutdown : Shutdown;
  rn_delivered : list (CallContext * Ev);
  rn_committed : list WalEventBody;
}.

Definition set_log (lg : LogState) (w : Runtime) : Runtime :=
  mkRuntime lg (rn_replay w) (rn_callers w) (rn_queues w) (rn_busy w) (rn_barriers w) (rn_rejected w)
    (rn_dead_letters w) (rn_shutdown w) (rn_delivered w) (rn_committed w).
Definition set_replay (l : list PendingEntry) (w : Runtime) : Runtime :=
  mkRuntime (rn_log w) l (rn_callers w) (rn_queues w) (rn_busy w) (rn_barriers w) (rn_rejected w)
    (rn_dead_letters w) (rn_shutdown w) (rn_delivered w) (rn_committed w).
Definition set_callers (f : gmap nat Caller -> gmap nat Caller) (w : Runtime) : Runtime :=
  mkRuntime (rn_log w) (rn_replay w) (f (rn_callers w)) (rn_queues w) (rn_busy w) (rn_barriers w)
    (rn_rejected w) (rn_dead_letters w) (rn_shutdown w) (rn_delivered w) (rn_committed w).
Definition set_queues (f : gmap string (list ApplyJob) -> gmap string (list ApplyJob)) (w : Runtime) : Runtime :=
  mkRuntime (rn_log w) (rn_replay w) (rn_callers w) (f (rn_queues w)) (rn_busy w) (rn_barriers w)
    (rn_rejected w) (rn_dead_letters w) (rn_shutdown w) (rn_delivered w) (rn_committed w).
Definition set_busy (f : gmap string Busy -> gmap string Busy) (w : Runtime) : Runtime :=
  mkRuntime (rn_log w) (rn_replay w) (rn_callers w) (rn_queues w) (f (rn_busy w)) (rn_barriers w)
    (rn_rejected w) (rn_dead_letters w) (rn_shutdown w) (rn_delivered w) (rn_committed w).
Definition note_barrier (token : nat) (w : Runtime) : Runtime :=
  mkRuntime (rn_log w) (rn_replay w) (rn_callers w) (rn_queues w) (rn_busy w) ({[token]} ∪ rn_barriers w)
    (rn_rejected w) (rn_dead_letters w) (rn_shutdown w) (rn_delivered w) (rn_committed w).
Definition set_letters (rejected dead : list (CallContext * Ev)) (w : Runtime) : Runtime :=
  mkRuntime (rn_log w) (rn_replay w) (rn_callers w) (rn_queues w) (rn_busy w) (rn_barriers w)
    rejected dead (rn_shutdown w) (rn_delivered w) (rn_committed w).
Definition set_shutdown (s : Shutdown) (w : Runtime) : Runtime :=
  mkRuntime (rn_log w) (rn_replay w) (rn_callers w) (rn_queues w) (rn_busy w) (rn_barriers w)
    (rn_rejected w) (rn_dead_letters w) s (rn_delivered w) (rn_committed w).
Definition note_delivered (ctx : CallContext) (event : Ev) (w : Runtime) : Runtime :=
  mkRuntime (rn_log w) (rn_replay w) (rn_callers w) (rn_queues w) (rn_busy w) (rn_barriers w)
    (rn_rejected w) (rn_dead_letters w) (rn_shutdown w) (rn_delivered w ++ [(ctx, event)]) (rn_committed w).
Definition note_committed (bodies : list WalEventBody) (w : Runtime) : Runtime :=
  mkRuntime (rn_log w) (rn_replay w) (rn_callers w) (rn_queues w) (rn_busy w) (rn_barriers w)
    (rn_rejected w) (rn_dead_letters w) (rn_shutdown w) (rn_delivered w) (rn_committed w ++ bodies).

Definition set_chan (chan : list WalCommand) (lg : LogState) : LogState :=
  mkLog (lg_enabled lg) (lg_disk lg) (lg_writer lg) chan (lg_next lg) (lg_answers lg).
Definition set_next (next : Z) (lg : LogState) : LogState :=
  mkLog (lg_enabled lg) (lg_disk lg) (lg_writer lg) (lg_chan lg) next (lg_answers lg).
Definition set_writer (d : Disk) (wr : Writer) (chan : list WalCommand) (lg : LogState) : LogState :=
  mkLog (lg_enabled lg) d wr chan (lg_next lg) (lg_answers lg).
Definition answer (token : nat) (ok : bool) (lg : LogState) : LogState :=
  mkLog (lg_enabled lg) (lg_disk lg) (lg_writer lg) (lg_chan lg) (lg_next lg)
    (<[token := ok]> (lg_answers lg)).

(** ** The queues *)

Definition try_record_rejected (ctx : CallContext) (event : Ev) (w : Runtime) : Runtime :=
  if (length (rn_rejected w) <? REJECTED_EVENT_QUEUE_CAPACITY)%nat
  then set_letters (rn_rejected w ++ [(ctx, event)]) (rn_dead_letters w) w
  else w.

Definition enqueue (ctx : CallContext) (event : Ev) (wal_seq : option Z) (w : Runtime) : Runtime :=
  let story_id := context_story_id ctx in
  let queue := default [] (rn_queues w !! story_id) in
  if (length queue <? APPLY_QUEUE_CAPACITY)%nat
  then set_queues (<[story_id := queue ++ [JobCapture ctx event wal_seq]]>) w
  else try_record_rejected ctx event (set_queues (<[story_id := queue]>) w).

(** The dead-letter writer takes the oldest rejected event. *)
Definition dead_letter_step (written : bool) (w : Runtime) : option Runtime :=
  match rn_rejected w with
  | [] => None
  | row :: rest =>
      Some (set_letters rest (if written then rn_dead_letters w ++ [row] else rn_dead_letters w) w)
  end.

(** A consumer receives its next job. *)
Definition consume (story_id : string) (w : Runtime) : option Runtime :=
  match rn_busy w !! story_id, rn_queues w !! story_id with
  | None, Some (job :: rest) =>
      let w := set_queues (<[story_id := rest]>) w in
      Some (match job with
            | JobCapture ctx event wal_seq => set_busy (<[story_id := Applying ctx event wal_seq]>) w
            | JobBarrier token => note_barrier token w
            end)
  | _, _ => None
  end.

Definition wal_ack (seq : Z) (lg : LogState) : LogState :=
  if lg_enabled lg then
    match wal_try_send (lg_writer lg) (CmdLine (WalAck seq)) (lg_chan lg) with
    | Some chan => set_chan chan lg
    | None => lg
    end
  else lg.

(** It applies an event, and acknowledges it if that succeeded. *)
Definition finish_apply (story_id : string) (ok : bool) (w : Runtime) : option Runtime :=
  match rn_busy w !! story_id with
  | Some (Applying ctx event wal_seq) =>
      Some (match ok, wal_seq with
            | true, Some seq =>
                note_delivered ctx event (set_busy (<[story_id := Acking ctx event seq]>) w)
            | true, None => note_delivered ctx event (set_busy (delete story_id) w)
            | false, _ => set_busy (delete story_id) w
            end)
  | Some (Acking ctx event seq) => Some (set_busy (delete story_id) (set_log (wal_ack seq (rn_log w)) w))
  | None => None
  end.

(** ** Calls and the replay *)

(** [append_event] takes its number, then submits its line; [spawn_apply] then
    enqueues the job. *)
Definition call_step (timestamp : string) (i : nat) (w : Runtime) : option Runtime :=
  let lg := rn_log w in
  match rn_callers w !! i with
  | None => None
  | Some (CallerStart ctx event) =>
      Some (if lg_enabled lg
            then set_callers (<[i := CallerSeq ctx event (lg_next lg)]>)
                   (set_log (set_next ((lg_next lg + 1) mod 2 ^ 64) lg) w)
            else set_callers (<[i := CallerQueue ctx event None]>) w)
  | Some (CallerSeq ctx event seq) =>
      Some (match wal_try_send (lg_writer lg) (CmdLine (WalEvent (wal_body seq timestamp ctx event)))
                    (lg_chan lg) with
            | Some chan =>
                set_callers (<[i := CallerQueue ctx event (Some seq)]>) (set_log (set_chan chan lg) w)
            | None => set_callers (<[i := CallerQueue ctx event None]>) w
            end)
  | Some (CallerQueue ctx event wal_seq) => Some (enqueue ctx event wal_seq (set_callers (delete i) w))
  end.

(** [replay_wal]: one entry. *)
Definition replay_step (w : Runtime) : option Runtime :=
  match rn_replay w with
  | [] => None
  | entry :: rest =>
      Some (enqueue (to_call_context (pe_context entry)) (to_event (pe_event entry)) (Some (pe_seq entry))
              (set_replay rest w))
  end.

(** ** The log writer ([group_commit_loop]) *)

(** A truncation may fail to open the file, or to sync it once it is empty. *)
Inductive TruncateFate := TruncateOk | TruncateOpenFailed | TruncateSyncFailed.

Definition line_body (l : WalLine) : option WalEventBody :=
  match l with WalEvent b => Some b | WalAck _ => None end.

Definition handle_command (tf : TruncateFate) (cmd : WalCommand) (chan : list WalCommand) (lg : LogState)
  : LogState :=
  match cmd with
  | CmdLine l => set_writer (lg_disk lg) (Collecting [l]) chan lg
  | CmdFlush token => answer token true (set_writer (lg_disk lg) (Receiving None) chan lg)
  | CmdTruncate token =>
      match tf with
      | TruncateOk => answer token true (set_writer (mkDisk "" 0) (Receiving None) chan lg)
      | TruncateOpenFailed => answer token false (set_writer (lg_disk lg) (Receiving None) chan lg)
      | TruncateSyncFailed => answer token false (set_writer (mkDisk "" 0) (Receiving None) chan lg)
      end
  | CmdShutdown => set_writer (lg_disk lg) Stopped chan lg
  end.

(** One move of the writer; [timeout] says that the commit window is over.
    The events whose lines the move made durable are reported. *)
Definition writer_step (timeout : bool) (fate : WriteFate) (tf : TruncateFate) (lg : LogState)
  : option (LogState * list WalEventBody) :=
  match lg_writer lg with
  | Stopped => None
  | Receiving (Some cmd) => Some (handle_command tf cmd (lg_chan lg) lg, [])
  | Receiving None =>
      match lg_chan lg with
      | [] => None
      | cmd :: chan => Some (handle_command tf cmd chan lg, [])
      end
  | Collecting batch =>
      let commit deferred chan :=
        Some (set_writer (commit_lines fate batch (lg_disk lg)) (Receiving deferred) chan lg,
              match wf_limit fate with
              | None => if wf_sync fate then omap line_body batch else []
              | Some _ => []
              end) in
      if timeout || (GROUP_COMMIT_MAX_LINES <=? length batch)%nat then commit None (lg_chan lg)
      else match lg_chan lg with
           | [] => None
           | CmdLine l :: chan => Some (set_writer (lg_disk lg) (Collecting (batch ++ [l])) chan lg, [])
           | cmd :: chan => commit (Some cmd) chan
           end
  end.

(** ** Shutdown *)

Definition FLUSH_TOKEN : nat := 0.
Definition TRUNCATE_TOKEN : nat := 1.

(** [EventWal::control]: nothing to do when disabled, an error when the writer
    is gone, and otherwise the command in the queue as soon as it has room. *)
Definition control_send (cmd : WalCommand) (lg : LogState) : option (option LogState) :=
  match lg_writer lg with
  | Stopped => Some None
  | _ => if chan_room (lg_writer lg) (lg_chan lg) then Some (Some (set_chan (lg_chan lg ++ [cmd]) lg)) else None
  end.

(** One move of [shutdown]; [ok] is the answer of the calls that are not
    modelled (story mailboxes, session index, snapshots). *)
Definition shutdown_step (ok : bool) (w : Runtime) : option Runtime :=
  let lg := rn_log w in
  match rn_shutdown w with
  | ShRunning | ShDone | ShFailed => None
  | ShBarriers [] => Some (set_shutdown ShStories w)
  | ShBarriers (story_id :: todo) =>
      let queue := default [] (rn_queues w !! story_id) in
      if (length queue <? APPLY_QUEUE_CAPACITY)%nat
      then Some (set_shutdown (ShAwait (length todo) todo)
                   (set_queues (<[story_id := queue ++ [JobBarrier (length todo)]]>) w))
      else None
  | ShAwait token todo => if bool_decide (token ∈ rn_barriers w) then Some (set_shutdown (ShBarriers todo) w) else None
  | ShStories => Some (set_shutdown (if ok then ShFlush else ShFailed) w)
  | ShFlush =>
      if lg_enabled lg then
        match control_send (CmdFlush FLUSH_TOKEN) lg with
        | None => None
        | Some None => Some (set_shutdown ShFailed w)
        | Some (Some lg) => Some (set_shutdown ShFlushWait (set_log lg w))
        end
      else Some (set_shutdown ShPersist w)
  | ShFlushWait =>
      match lg_answers lg !! FLUSH_TOKEN with
      | Some true => Some (set_shutdown ShPersist w)
      | Some false => Some (set_shutdown ShFailed w)
      | None => match lg_writer lg with Stopped => Some (set_shutdown ShFailed w) | _ => None end
      end
  | ShPersist => Some (set_shutdown (if ok then ShCheck else ShFailed) w)
  | ShCheck =>
      Some (set_shutdown (match replay_pending (Some (dk_bytes (lg_disk lg))) with
                          | [] => ShTruncate
                          | _ => ShDone
                          end) w)
  | ShTruncate =>
      if lg_enabled lg then
        match control_send (CmdTruncate TRUNCATE_TOKEN) lg with
        | None => None
        | Some None => Some (set_shutdown ShDone w)
        | Some (Some lg) => Some (set_shutdown ShTruncateWait (set_log lg w))
        end
      else Some (set_shutdown ShDone w)
  | ShTruncateWait =>
      match lg_answers lg !! TRUNCATE_TOKEN with
      | Some _ => Some (set_shutdown ShDone w)
      | None => match lg_writer lg with Stopped => Some (set_shutdown ShDone w) | _ => None end
      end
  end.

(** [CaptureRuntime::new] on the log a previous process left; the log may fail
    to open and stay disabled. *)
Definition restart (enabled : bool) (d : Disk) (w : Runtime) : Runtime :=
  let '(writer, next) := if enabled then wal_open d else (Stopped, 0%Z) in
  mkRuntime (mkLog enabled d writer [] next ∅) (replay_pending (Some (dk_bytes d))) ∅ ∅ ∅ ∅ []
    (rn_dead_letters w) ShRunning (rn_delivered w) (rn_committed w).

Definition first_start : Runtime :=
  mkRuntime (mkLog true (mkDisk "" 0) (Receiving None) [] 0 ∅) [] ∅ ∅ ∅ ∅ [] [] ShRunning [] [].

(** ** Executions *)

(** Two assumptions a theorem may make: that an interrupted write or a crash
    leaves complete lines, and that no call runs during a shutdown. *)
Record Policy := mkPolicy { whole_lines : bool; exclusive : bool }.

Definition write_allowed (P : Policy) (fate : WriteFate) (lg : LogState) : Prop :=
  match lg_writer lg, wf_limit fate with
  | Collecting batch, Some n =>
      (n < String.length (render batch))%nat
      /\ (whole_lines P = true ->
          exists done rest, batch = done ++ rest /\ n = String.length (render done))
  | _, _ => True
  end.

(** What a crash keeps of the file. *)
Definition crash_keeps (P : Policy) (d d' : Disk) : Prop :=
  if whole_lines P then
    exists kept lost, Forall line_wf (kept ++ lost) /\ dk_bytes d = render (kept ++ lost)
      /\ (dk_synced d <= String.length (render kept))%nat /\ d' = mkDisk (render kept) (dk_synced d)
  else
    exists n, (dk_synced d <= n)%nat /\ d' = mkDisk (String.substring 0 n (dk_bytes d)) (dk_synced d).

Inductive step (P : Policy) : Runtime -> Runtime -> Prop :=
| step_enter w i ctx event :
    rn_replay w = [] -> rn_callers w !! i = None ->
    context_consistent ctx -> option_wf client_meta_wf (cc_client_meta ctx) -> event_in_range event ->
    (exclusive P = true -> rn_shutdown w = ShRunning) ->
    step P w (set_callers (<[i := CallerStart ctx event]>) w)
| step_call w i timestamp w' :
    (lg_next (rn_log w) < u64_max)%Z -> call_step timestamp i w = Some w' -> step P w w'
| step_replay w w' : replay_step w = Some w' -> step P w w'
| step_consume w story_id w' : consume story_id w = Some w' -> step P w w'
| step_finish w story_id ok w' : finish_apply story_id ok w = Some w' -> step P w w'
| step_dead_letter w written w' : dead_letter_step written w = Some w' -> step P w w'
| step_writer w timeout fate tf lg bodies :
    write_allowed P fate (rn_log w) -> writer_step timeout fate tf (rn_log w) = Some (lg, bodies) ->
    step P w (note_committed bodies (set_log lg w))
| step_begin_shutdown w stories :
    rn_replay w = [] -> rn_shutdown w = ShRunning -> stories ≡ₚ map fst (map_to_list (rn_queues w)) ->
    (exclusive P = true -> rn_callers w = ∅) ->
    step P w (set_shutdown (ShBarriers stories) w)
| step_shutdown w ok w' : shutdown_step ok w = Some w' -> step P w w'
| step_drop w :
    rn_callers w = ∅ -> rn_busy w = ∅ -> chan_room (lg_writer (rn_log w)) (lg_chan (rn_log w)) = true ->
    step P w (set_log (set_chan (lg_chan (rn_log w) ++ [CmdShutdown]) (rn_log w)) w)
| step_crash w d enabled : crash_keeps P (lg_disk (rn_log w)) d -> step P w (restart enabled d w).

(** An event of the log reached the story: as it was captured, or as it came
    back from the log. *)
Definition delivers (b : WalEventBody) (call : CallContext * Ev) : Prop :=
  (wb_context b = from_context (fst call) /\ wb_event b = from_event (snd call))
  \/ (fst call = to_call_context (wb_context b) /\ snd call = to_event (wb_event b)).
Definition delivered (w : Runtime) (b : WalEventBody) : Prop :=
  exists call, call ∈ rn_delivered w /\ delivers b call.

(** ** The bookkeeping of sequence numbers *)

(** What the invariant says of a state, by number: the event and
    acknowledgement lines in the file or on their way to it, the calls that a
    job carries, the numbers callers hold before their line is sent, and the
    events that were delivered. *)
Record view := mkView {
  vE : WalEventBody -> Prop;
  vA : Z -> Prop;
  vT : Z -> CallContext * Ev -> Prop;
  vO : nat -> Z -> Prop;
  vD : WalEventBody -> Prop;
}.

Record good (v : view) (next : Z) : Prop := {
  good_event_lt : forall b, vE v b -> (wb_seq b < next)%Z;
  good_ack_lt : forall s, vA v s -> (s < next)%Z;
  good_tag_lt : forall s c, vT v s c -> (0 <= s < next)%Z;
  good_open_lt : forall i s, vO v i s -> (0 <= s < next)%Z;
  good_open_inj : forall i j s, vO v i s -> vO v j s -> i = j;
  good_open_event : forall i b, vO v i (wb_seq b) -> ~ vE v b;
  good_open_ack : forall i s, vO v i s -> ~ vA v s;
  good_open_tag : forall i s c, vO v i s -> ~ vT v s c;
  good_event_inj : forall b b', vE v b -> vE v b' -> wb_seq b = wb_seq b' -> b = b';
  good_tag : forall s c b, vT v s c -> vE v b -> wb_seq b = s -> delivers b c;
  good_ack : forall b, vA v (wb_seq b) -> vE v b -> vD v b;
}.

Definition view_le (v v' : view) : Prop :=
  (forall b, vE v b -> vE v' b) /\ (forall s, vA v s -> vA v' s) /\ (forall s c, vT v s c -> vT v' s c)
  /\ (forall i s, vO v i s -> vO v' i s) /\ (forall b, vD v' b -> vD v b).

Lemma good_weaken v v' next next' : good v' next -> view_le v v' -> (next <= next')%Z -> good v next'.
Proof.
  intros Hg (HE & HA & HT & HO & HD) Hn. destruct Hg. split.
  - intros b Hb. specialize (good_event_lt0 b (HE b Hb)). lia.
  - intros s Hs. specialize (good_ack_lt0 s (HA s Hs)). lia.
  - intros s c Hs. specialize (good_tag_lt0 s c (HT s c Hs)). lia.
  - intros i s Hs. specialize (good_open_lt0 i s (HO i s Hs)). lia.
  - intros i j s Hi Hj. eauto.
  - intros i b Hi Hb. eapply good_open_event0; eauto.
  - intros i s Hi Hs. eapply good_open_ack0; eauto.
  - intros i s c Hi Hs. eapply good_open_tag0; eauto.
  - intros b b' Hb Hb'. eauto.
  - intros s c b Hs Hb. eauto.
  - intros b Hs Hb. eauto.
Qed.

(** A caller takes the next number. *)
Lemma good_alloc v next i :
  good v next -> (0 <= next)%Z -> (forall s, ~ vO v i s) ->
  good (mkView (vE v) (vA v) (vT v) (fun j s => vO v j s \/ (j = i /\ s = next)) (vD v)) (next + 1)%Z.
Proof.
  intros Hg Hn Hi. destruct Hg. split; simpl.
  - intros b Hb. specialize (good_event_lt0 b Hb). lia.
  - intros s Hs. specialize (good_ack_lt0 s Hs). lia.
  - intros s c Hs. specialize (good_tag_lt0 s c Hs). lia.
  - intros j s [Hs|[-> ->]]; [specialize (good_open_lt0 _ _ Hs); lia|lia].
  - intros j k s [Hj|[-> ->]] [Hk|[-> Hk]]; eauto.
    + subst. specialize (good_open_lt0 _ _ Hj). lia.
    + specialize (good_open_lt0 _ _ Hk). lia.
  - intros j b [Hj|[-> Hs]] Hb; [by eapply good_open_event0|]. specialize (good_event_lt0 b Hb). lia.
  - intros j s [Hj|[-> ->]] Hs; [by eapply good_open_ack0|]. specialize (good_ack_lt0 _ Hs). lia.
  - intros j s c [Hj|[-> ->]] Hs; [by eapply good_open_tag0|]. specialize (good_tag_lt0 _ _ Hs). lia.
  - done.
  - done.
  - done.
Qed.

(** It submits the line of its event and becomes a job. *)
Lemma good_send v next i b call :
  good v next -> vO v i (wb_seq b) -> delivers b call ->
  good (mkView (fun b' => vE v b' \/ b' = b) (vA v) (fun s c => vT v s c \/ (s = wb_seq b /\ c = call))
          (fun j s => vO v j s /\ j <> i) (vD v)) next.
Proof.
  intros Hg Hi Hd. destruct Hg. split; simpl.
  - intros b' [Hb| ->]; eauto. specialize (good_open_lt0 _ _ Hi). lia.
  - done.
  - intros s c [Hs|[-> ->]]; eauto.
  - intros j s [Hj _]. eauto.
  - intros j k s [Hj _] [Hk _]. eauto.
  - intros j b' [Hj Hne] [Hb| ->]; [by eapply good_open_event0|]. eauto.
  - intros j s [Hj _]. eauto.
  - intros j s c [Hj Hne] [Hs|[-> ->]]; [by eapply good_open_tag0|]. eauto.
  - intros b1 b2 [H1| ->] [H2| ->] Heq; eauto; exfalso.
    + rewrite <- Heq in Hi. by eapply good_open_event0.
    + rewrite Heq in Hi. by eapply good_open_event0.
  - intros s c b' [Hs|[-> ->]] [Hb| ->] Heq; eauto.
    + subst. exfalso. by eapply good_open_tag0.
    + exfalso. rewrite <- Heq in Hi. by eapply good_open_event0.
  - intros b' Ha [Hb| ->]; [by apply good_ack0|]. exfalso. by eapply good_open_ack0.
Qed.

(** A delivered job is acknowledged. *)
Lemma good_acked v next s call :
  good v next -> vT v s call -> (forall b, delivers b call -> vD v b) ->
  good (mkView (vE v) (fun s' => vA v s' \/ s' = s) (vT v) (vO v) (vD v)) next.
Proof.
  intros Hg Ht Hd. destruct Hg. split; simpl; try done.
  - intros s' [Hs| ->]; eauto. specialize (good_tag_lt0 _ _ Ht). lia.
  - intros i s' Hi [Hs| ->]; [by eapply good_open_ack0|]. by eapply good_open_tag0.
  - intros b [Ha| <-] Hb; [by apply good_ack0|]. apply Hd. by eapply good_tag0.
Qed.

(** ** The invariant *)

Definition cmd_line (cmd : WalCommand) : option WalLine := match cmd with CmdLine l => Some l | _ => None end.
Definition batch_of (wr : Writer) : list WalLine := match wr with Collecting batch => batch | _ => [] end.
Definition deferred_of (wr : Writer) : list WalCommand :=
  match wr with Receiving (Some cmd) => [cmd] | _ => [] end.
(** The commands the writer has not handled, and the lines not yet written. *)
Definition commands (lg : LogState) : list WalCommand := deferred_of (lg_writer lg) ++ lg_chan lg.
Definition inflight (lg : LogState) : list WalLine := batch_of (lg_writer lg) ++ omap cmd_line (commands lg).

Inductive tagged (w : Runtime) (s : Z) : CallContext * Ev -> Prop :=
| tag_caller i c e : rn_callers w !! i = Some (CallerQueue c e (Some s)) -> tagged w s (c, e)
| tag_job story q c e :
    rn_queues w !! story = Some q -> JobCapture c e (Some s) ∈ q -> tagged w s (c, e)
| tag_applying story c e : rn_busy w !! story = Some (Applying c e (Some s)) -> tagged w s (c, e)
| tag_acking story c e : rn_busy w !! story = Some (Acking c e s) -> tagged w s (c, e)
| tag_replay entry :
    entry ∈ rn_replay w -> pe_seq entry = s ->
    tagged w s (to_call_context (pe_context entry), to_event (pe_event entry)).

Definition holds (w : Runtime) (i : nat) (s : Z) : Prop :=
  exists c e, rn_callers w !! i = Some (CallerSeq c e s).

Definition view_of (lines : list WalLine) (w : Runtime) : view :=
  mkView (fun b => WalEvent b ∈ lines ++ inflight (rn_log w)) (fun s => WalAck s ∈ lines ++ inflight (rn_log w))
    (tagged w) (holds w) (delivered w).

Definition caller_ok (c : Caller) : Prop :=
  match c with
  | CallerStart ctx event | CallerSeq ctx event _ =>
      option_wf client_meta_wf (cc_client_meta ctx) /\ event_in_range event
  | CallerQueue _ _ _ => True
  end.

(** The bound on sequence numbers; a disabled log gives out none. *)
Definition seq_bound (lg : LogState) : Z := if lg_enabled lg then lg_next lg else u64_max.

(** The file is a log of complete lines, of which the first ones are on disk. *)
Record log_inv (lg : LogState) (synced rest : list WalLine) : Prop := {
  li_bytes : dk_bytes (lg_disk lg) = render (synced ++ rest);
  li_synced : dk_synced (lg_disk lg) = String.length (render synced);
  li_wf : Forall line_wf ((synced ++ rest) ++ inflight lg);
  li_next : lg_enabled lg = true -> (0 <= lg_next lg <= u64_max)%Z;
  li_disabled : lg_enabled lg = false -> lg_writer lg = Stopped /\ lg_chan lg = [];
}.

Record core (w : Runtime) (synced rest : list WalLine) : Prop := {
  co_log : log_inv (rn_log w) synced rest;
  co_good : good (view_of (synced ++ rest) w) (seq_bound (rn_log w));
  co_callers : forall i c, rn_callers w !! i = Some c -> caller_ok c;
  co_acking : forall story c e s, rn_busy w !! story = Some (Acking c e s) -> (c, e) ∈ rn_delivered w;
  co_committed : forall b, b ∈ rn_committed w -> delivered w b \/ WalEvent b ∈ synced;
}.

(** While a shutdown runs there are no callers; what follows a flush in the
    queue is not an event, and a truncation is only on its way when every
    event of the log was delivered. *)
Definition is_ack (l : WalLine) : Prop := match l with WalAck _ => True | WalEvent _ => False end.
Definition ev_free (lg : LogState) : Prop := Forall is_ack (inflight lg).
Definition log_delivered (w : Runtime) (lines : list WalLine) : Prop :=
  forall b, WalEvent b ∈ lines -> delivered w b.
Definition late (s : Shutdown) : bool :=
  match s with ShPersist | ShCheck | ShTruncate | ShTruncateWait => true | _ => false end.

Record closing (w : Runtime) (lines : list WalLine) : Prop := {
  cl_callers : rn_shutdown w <> ShRunning -> rn_callers w = ∅ /\ rn_replay w = [];
  cl_flush : forall t pre post, commands (rn_log w) = pre ++ CmdFlush t :: post ->
    rn_shutdown w <> ShRunning /\ Forall is_ack (omap cmd_line post);
  cl_truncate : forall t, CmdTruncate t ∈ commands (rn_log w) ->
    rn_shutdown w <> ShRunning /\ ev_free (rn_log w) /\ log_delivered w lines;
  cl_answers : lg_answers (rn_log w) <> ∅ -> rn_shutdown w <> ShRunning /\ ev_free (rn_log w);
  cl_late : late (rn_shutdown w) = true -> ev_free (rn_log w);
  cl_checked : rn_shutdown w = ShTruncate -> log_delivered w lines;
}.

Definition rt_inv (w : Runtime) : Prop := exists synced rest, core w synced rest /\ closing w (synced ++ rest).

(** Steps that leave the log alone. *)
Record same_log (w w' : Runtime) : Prop := {
  sl_log : rn_log w' = rn_log w;
  sl_tagged : forall s c, tagged w' s c -> tagged w s c;
  sl_holds : forall i s, holds w' i s -> holds w i s;
  sl_callers : forall i c, rn_callers w' !! i = Some c -> caller_ok c;
  sl_delivered : forall c, c ∈ rn_delivered w -> c ∈ rn_delivered w';
  sl_acking : forall story c e s, rn_busy w' !! story = Some (Acking c e s) -> (c, e) ∈ rn_delivered w';
  sl_committed : rn_committed w' = rn_committed w;
}.

Lemma delivered_mono w w' b :
  (forall c, c ∈ rn_delivered w -> c ∈ rn_delivered w') -> delivered w b -> delivered w' b.
Proof. intros H (c & Hc & Hd). exists c. auto. Qed.

Lemma core_same_log w w' synced rest : core w synced rest -> same_log w w' -> core w' synced rest.
Proof.
  intros Hc Hs. destruct Hc as [Hl Hg _ _ Hco], Hs as [El Ht Hh Hcal Hd Hack Ecom]. split.
  - by rewrite El.
  - rewrite El. eapply good_weaken; [exact Hg| |lia]. unfold view_of. rewrite El.
    split_and!; simpl; auto. intros b. by apply delivered_mono.
  - done.
  - done.
  - rewrite Ecom. intros b Hb. destruct (Hco b Hb) as [H|H]; [left; by eapply delivered_mono|by right].
Qed.

Lemma closing_same_log w w' lines :
  closing w lines -> rn_log w' = rn_log w -> (forall c, c ∈ rn_delivered w -> c ∈ rn_delivered w') ->
  rn_shutdown w' = rn_shutdown w ->
  (rn_shutdown w <> ShRunning -> rn_callers w' = ∅ /\ rn_replay w' = []) -> closing w' lines.
Proof.
  intros Hc El Hd Es Hcal. destruct Hc as [? Hf Ht Ha Hl Hk].
  assert (log_delivered w lines -> log_delivered w' lines) as Hld
    by (intros H b Hb; by eapply delivered_mono, H).
  split; rewrite ?El, ?Es; try done.
  - intros t Hin. destruct (Ht t Hin) as (? & ? & ?). auto.
  - intros H. auto.
Qed.

(** *** The queues *)

Lemma enqueue_frame c e ws w :
  let w' := enqueue c e ws w in
  rn_log w' = rn_log w /\ rn_replay w' = rn_replay w /\ rn_callers w' = rn_callers w /\ rn_busy w' = rn_busy w
  /\ rn_shutdown w' = rn_shutdown w /\ rn_delivered w' = rn_delivered w /\ rn_committed w' = rn_committed w.
Proof. unfold enqueue, try_record_rejected. by repeat case_match. Qed.

Lemma enqueue_jobs c e ws w story q job :
  rn_queues (enqueue c e ws w) !! story = Some q -> job ∈ q ->
  job = JobCapture c e ws \/ exists q', rn_queues w !! story = Some q' /\ job ∈ q'.
Proof.
  unfold enqueue. set (queue := default [] _).
  assert (job ∈ queue -> exists q', rn_queues w !! context_story_id c = Some q' /\ job ∈ q') as Hold.
  { subst queue. destruct (rn_queues w !! context_story_id c) as [q'|]; simpl; [eauto|by intros []%elem_of_nil]. }
  assert (forall q0, (<[context_story_id c := q0]> (rn_queues w)) !! story = Some q -> job ∈ q ->
            (story = context_story_id c /\ q = q0)
            \/ exists q', rn_queues w !! story = Some q' /\ job ∈ q') as Hins.
  { intros q0 Hq Hj. destruct (decide (story = context_story_id c)) as [->|Hne].
    - rewrite lookup_insert_eq in Hq. left. split; [done|congruence].
    - rewrite lookup_insert_ne in Hq by done. eauto. }
  destruct (length queue <? _)%nat; [|unfold try_record_rejected; case_match]; simpl; intros Hq Hj;
    (destruct (Hins _ Hq Hj) as [[-> ->]|?]; [|by right]); auto.
  apply elem_of_app in Hj as [Hj|Hj%list_elem_of_singleton]; auto.
Qed.

Lemma enqueue_tagged c e ws w s call :
  tagged (enqueue c e ws w) s call -> tagged w s call \/ (ws = Some s /\ call = (c, e)).
Proof.
  destruct (enqueue_frame c e ws w) as (_ & Er & Ec & Eb & _).
  destruct 1 as [i c' e' H|story q c' e' Hq Hj|story c' e' H|story c' e' H|entry H Hs].
  - left. rewrite Ec in H. by eapply tag_caller.
  - destruct (enqueue_jobs _ _ _ _ _ _ _ Hq Hj) as [[= -> -> <-]|(q' & Hq' & Hj')]; [by right|].
    left. by eapply tag_job.
  - left. rewrite Eb in H. by eapply tag_applying.
  - left. rewrite Eb in H. by eapply tag_acking.
  - left. rewrite Er in H. by eapply tag_replay.
Qed.

(** Enqueuing a job whose tag the state has already. *)
Lemma enqueue_same_log c e ws w w0 :
  same_log w w0 -> (forall s, ws = Some s -> tagged w s (c, e)) -> same_log w (enqueue c e ws w0).
Proof.
  intros [El Ht Hh Hcal Hd Hack Ecom] Hws.
  destruct (enqueue_frame c e ws w0) as (E1 & E2 & E3 & E4 & E5 & E6 & E7).
  split; rewrite ?E1, ?E3, ?E4, ?E6, ?E7; try done.
  - intros s call [H|[-> ->]]%enqueue_tagged; auto.
  - intros i s (c' & e' & H). rewrite E3 in H. apply Hh. by exists c', e'.
Qed.

Lemma same_log_refl w :
  (forall i c, rn_callers w !! i = Some c -> caller_ok c) ->
  (forall story c e s, rn_busy w !! story = Some (Acking c e s) -> (c, e) ∈ rn_delivered w) -> same_log w w.
Proof. by split. Qed.

Ltac tag_cases := destruct 1 as [i' c' e' H|story' q' c' e' Hq Hj|story' c' e' H|story' c' e' H|entry' H Hpe]; simpl in *.

(** A tag of an insertion into, or a deletion from, one of the maps. *)
Lemma consume_same_log story w w' :
  (forall i c, rn_callers w !! i = Some c -> caller_ok c) ->
  (forall story c e s, rn_busy w !! story = Some (Acking c e s) -> (c, e) ∈ rn_delivered w) ->
  consume story w = Some w' -> same_log w w'.
Proof.
  intros Hcal Hack. unfold consume. destruct (rn_busy w !! story) eqn:Eb; [done|].
  destruct (rn_queues w !! story) as [[|job rest]|] eqn:Eq; [done| |done]. intros [= <-].
  assert (forall story' q c e s, <[story := rest]> (rn_queues w) !! story' = Some q ->
            JobCapture c e (Some s) ∈ q -> tagged w s (c, e)) as Hjobs.
  { intros story' q c e s Hq Hj. destruct (decide (story' = story)) as [->|Hne].
    - rewrite lookup_insert_eq in Hq. injection Hq as <-. eapply tag_job; [exact Eq|by right].
    - rewrite lookup_insert_ne in Hq by done. by eapply tag_job. }
  destruct job as [c e ws|t]; split; simpl; try done.
  - intros s call. tag_cases; [by eapply tag_caller|by eapply Hjobs| | |by eapply tag_replay].
    + destruct (decide (story' = story)) as [->|Hne].
      * rewrite lookup_insert_eq in H. injection H as -> -> ->. eapply tag_job; [exact Eq|left].
      * rewrite lookup_insert_ne in H by done. by eapply tag_applying.
    + destruct (decide (story' = story)) as [->|Hne]; [by rewrite lookup_insert_eq in H|].
      rewrite lookup_insert_ne in H by done. by eapply tag_acking.
  - intros story' c' e' s H. destruct (decide (story' = story)) as [->|Hne]; [by rewrite lookup_insert_eq in H|].
    rewrite lookup_insert_ne in H by done. by eapply Hack.
  - intros s call. tag_cases;
      [by eapply tag_caller|by eapply Hjobs|by eapply tag_applying|by eapply tag_acking|by eapply tag_replay].
Qed.

Section Quiet.
Context (w : Runtime).
Hypothesis Hcal : forall i c, rn_callers w !! i = Some c -> caller_ok c.
Hypothesis Hack : forall story c e s, rn_busy w !! story = Some (Acking c e s) -> (c, e) ∈ rn_delivered w.

Lemma busy_delete story story' b : delete story (rn_busy w) !! story' = Some b -> rn_busy w !! story' = Some b.
Proof. by intros [_ ?]%lookup_delete_Some. Qed.

(** An event was applied, or was not. *)
Lemma applied_same_log story ok c e ws w' :
  rn_busy w !! story = Some (Applying c e ws) -> finish_apply story ok w = Some w' -> same_log w w'.
Proof.
  intros Eb. unfold finish_apply. rewrite Eb. intros [= <-].
  assert (forall s call, tagged (set_busy (delete story) w) s call -> tagged w s call) as Hdel.
  { intros s call. tag_cases; [by eapply tag_caller|by eapply tag_job| | |by eapply tag_replay].
    - eapply tag_applying, busy_delete, H.
    - eapply tag_acking, busy_delete, H. }
  assert (forall c0 e0, c0 ∈ rn_delivered w -> c0 ∈ rn_delivered w ++ [e0]) as Hmore
    by (intros; apply elem_of_app; by left).
  destruct ok, ws as [s0|]; split; simpl; try done; try (by intros; apply elem_of_app; left).
  - intros s call. tag_cases; [by eapply tag_caller|by eapply tag_job| | |by eapply tag_replay].
    + apply lookup_insert_Some in H as [[_ [=]]|[_ H]]. by eapply tag_applying.
    + apply lookup_insert_Some in H as [[_ [= -> -> ->]]|[_ H]]; [by eapply tag_applying|by eapply tag_acking].
  - intros story' c' e' s H. apply lookup_insert_Some in H as [[_ [= -> -> ->]]|[_ H]].
    + apply elem_of_app. right. by apply list_elem_of_singleton.
    + apply Hmore. by eapply Hack.
  - intros s call. tag_cases; [by eapply tag_caller|by eapply tag_job| | |by eapply tag_replay].
    + eapply tag_applying, busy_delete, H.
    + eapply tag_acking, busy_delete, H.
  - intros story' c' e' s H. apply Hmore. by eapply Hack, busy_delete.
  - intros story' c' e' s H. by eapply Hack, busy_delete.
  - intros story' c' e' s H. by eapply Hack, busy_delete.
Qed.

Lemma replay_same_log w' : replay_step w = Some w' -> same_log w w'.
Proof.
  unfold replay_step. destruct (rn_replay w) as [|entry rest] eqn:Er; [done|]. intros [= <-].
  apply enqueue_same_log.
  - split; simpl; try done. intros s call. tag_cases;
      [by eapply tag_caller|by eapply tag_job|by eapply tag_applying|by eapply tag_acking|].
    eapply tag_replay; [|done]. rewrite Er. by right.
  - intros s [= <-]. eapply tag_replay; [rewrite Er; left|done].
Qed.

Lemma dead_letter_same_log written w' : dead_letter_step written w = Some w' -> same_log w w'.
Proof.
  unfold dead_letter_step. destruct (rn_rejected w); [done|]. intros [= <-]. split; simpl; try done.
  intros s call. tag_cases;
    [by eapply tag_caller|by eapply tag_job|by eapply tag_applying|by eapply tag_acking|by eapply tag_replay].
Qed.

Lemma enter_same_log i ctx event :
  rn_callers w !! i = None -> option_wf client_meta_wf (cc_client_meta ctx) -> event_in_range event ->
  same_log w (set_callers (<[i := CallerStart ctx event]>) w).
Proof.
  intros Hi Hm He. split; simpl; try done.
  - intros s call. tag_cases;
      [|by eapply tag_job|by eapply tag_applying|by eapply tag_acking|by eapply tag_replay].
    apply lookup_insert_Some in H as [[_ [=]]|[_ H]]. by eapply tag_caller.
  - intros j s (c & e & H). simpl in H. apply lookup_insert_Some in H as [[_ [=]]|[_ H]]. by exists c, e.
  - intros j c [[_ <-]|[_ H]]%lookup_insert_Some; [done|by eapply Hcal].
Qed.

(** The last part of a call, after its line was submitted or refused. *)
Lemma queue_same_log i c e ws :
  rn_callers w !! i = Some (CallerQueue c e ws) -> same_log w (enqueue c e ws (set_callers (delete i) w)).
Proof.
  intros Hi. apply enqueue_same_log.
  - split; simpl; try done.
    + intros s call. tag_cases;
        [|by eapply tag_job|by eapply tag_applying|by eapply tag_acking|by eapply tag_replay].
      apply lookup_delete_Some in H as [_ H]. by eapply tag_caller.
    + intros j s (c' & e' & H). simpl in H. apply lookup_delete_Some in H as [_ H]. by exists c', e'.
    + intros j c' [_ H]%lookup_delete_Some. by eapply Hcal.
  - intros s ->. by eapply tag_caller.
Qed.

(** A caller's line that was refused, or a log that is disabled. *)
Lemma refuse_same_log i c e :
  same_log w (set_callers (<[i := CallerQueue c e None]>) w).
Proof.
  split; simpl; try done.
  - intros s call. tag_cases;
      [|by eapply tag_job|by eapply tag_applying|by eapply tag_acking|by eapply tag_replay].
    apply lookup_insert_Some in H as [[_ [=]]|[_ H]]. by eapply tag_caller.
  - intros j s (c' & e' & H). simpl in H. apply lookup_insert_Some in H as [[_ [=]]|[_ H]]. by exists c', e'.
  - intros j c' [[_ <-]|[_ H]]%lookup_insert_Some; [done|by eapply Hcal].
Qed.

Lemma shutdown_same_log sh : same_log w (set_shutdown sh w).
Proof.
  split; simpl; try done. intros s call. tag_cases;
    [by eapply tag_caller|by eapply tag_job|by eapply tag_applying|by eapply tag_acking|by eapply tag_replay].
Qed.

Lemma barrier_same_log story t sh :
  same_log w (set_shutdown sh
    (set_queues (<[story := default [] (rn_queues w !! story) ++ [JobBarrier t]]>) w)).
Proof.
  split; simpl; try done. intros s call. tag_cases;
    [by eapply tag_caller| |by eapply tag_applying|by eapply tag_acking|by eapply tag_replay].
  apply lookup_insert_Some in Hq as [[<- <-]|[_ Hq]]; [|by eapply tag_job].
  apply elem_of_app in Hj as [Hj|Hj%list_elem_of_singleton]; [|done].
  destruct (rn_queues w !! story) as [q|] eqn:Eq; simpl in Hj; [by eapply tag_job|by apply elem_of_nil in Hj].
Qed.
End Quiet.

(** *** Commands on their way to the writer *)

Lemma commands_push lg cmd : commands (set_chan (lg_chan lg ++ [cmd]) lg) = commands lg ++ [cmd].
Proof. unfold commands. simpl. by rewrite (assoc_L (++)). Qed.

Lemma inflight_push lg cmd :
  inflight (set_chan (lg_chan lg ++ [cmd]) lg) = inflight lg ++ option_list (cmd_line cmd).
Proof.
  unfold inflight. rewrite commands_push, omap_app, (assoc_L (++)). by destruct cmd.
Qed.

Lemma ev_free_push lg cmd :
  ev_free lg -> (forall l, cmd = CmdLine l -> is_ack l) -> ev_free (set_chan (lg_chan lg ++ [cmd]) lg).
Proof.
  intros Hf Hc. unfold ev_free. rewrite inflight_push. apply Forall_app. split; [done|].
  destruct cmd; repeat constructor. by apply Hc.
Qed.

Lemma closing_push w w' cmd lines :
  closing w lines -> rn_log w' = set_chan (lg_chan (rn_log w) ++ [cmd]) (rn_log w) ->
  (forall c, c ∈ rn_delivered w -> c ∈ rn_delivered w') ->
  (rn_shutdown w <> ShRunning -> rn_shutdown w' <> ShRunning) ->
  (rn_shutdown w' <> ShRunning -> rn_callers w' = ∅ /\ rn_replay w' = []) ->
  (forall l, cmd = CmdLine l -> is_ack l) ->
  (forall t, cmd = CmdFlush t -> rn_shutdown w' <> ShRunning) ->
  (forall t, cmd = CmdTruncate t ->
     rn_shutdown w' <> ShRunning /\ ev_free (rn_log w) /\ log_delivered w lines) ->
  (late (rn_shutdown w') = true -> ev_free (rn_log w)) ->
  (rn_shutdown w' = ShTruncate -> log_delivered w lines) -> closing w' lines.
Proof.
  intros Hc El Hd Hsh Hcal Hline Hflush Htrunc Hlate Hchk. destruct Hc as [_ Hf Ht Ha _ _].
  assert (log_delivered w lines -> log_delivered w' lines) as Hld
    by (intros H b Hb; by eapply delivered_mono, H).
  assert (ev_free (rn_log w) -> ev_free (rn_log w')) as Hfree
    by (intros H; rewrite El; by apply ev_free_push).
  split; [done| | | |auto|auto].
  - intros t pre post E. rewrite El, commands_push in E.
    destruct (exists_last' post) as [->|(post' & x & ->)].
    + apply app_inj_tail in E as [_ ->]. split; [by eapply Hflush|done].
    + rewrite app_comm_cons, (assoc_L (++)) in E. apply app_inj_tail in E as [E <-].
      destruct (Hf t pre post' E) as [Hr Hp]. split; [auto|]. rewrite omap_app. apply Forall_app.
      split; [done|]. destruct cmd; simpl; repeat constructor. by apply Hline.
  - intros t Hin. rewrite El, commands_push in Hin. apply elem_of_app in Hin as [Hin|Hin%list_elem_of_singleton].
    + destruct (Ht t Hin) as (? & ? & ?). auto.
    + destruct (Htrunc t) as (? & ? & ?); [done|]. auto.
  - intros H. rewrite El in H. destruct (Ha H) as [? ?]. auto.
Qed.

(** Before a shutdown the writer has no command but lines, and nothing was
    answered. *)
Lemma closing_running w w' lines lines' :
  closing w lines -> rn_shutdown w = ShRunning -> rn_shutdown w' = ShRunning ->
  (forall cmd, cmd ∈ commands (rn_log w') -> cmd ∈ commands (rn_log w) \/ cmd_line cmd <> None) ->
  lg_answers (rn_log w') = lg_answers (rn_log w) -> closing w' lines'.
Proof.
  intros [_ Hf Ht Ha _ _] Hr Hr' Hcmd Hans.
  assert (forall t, ~ CmdFlush t ∈ commands (rn_log w')) as Hnf.
  { intros t Hin. destruct (Hcmd _ Hin) as [H|H]; [|done].
    apply list_elem_of_split in H as (pre & post & E). by destruct (Hf t pre post E). }
  split; rewrite ?Hr'; try done.
  - intros t pre post E. exfalso. apply (Hnf t). rewrite E. apply elem_of_app. right. left.
  - intros t Hin. destruct (Hcmd _ Hin) as [H|H]; [|done]. by destruct (Ht t H).
  - rewrite Hans. intros H. by destruct (Ha H).
Qed.

Lemma tagged_set_log lg w s c : tagged (set_log lg w) s c <-> tagged w s c.
Proof.
  split; tag_cases;
    [by eapply tag_caller|by eapply tag_job|by eapply tag_applying|by eapply tag_acking|by eapply tag_replay
    |by eapply (tag_caller (set_log lg w))|by eapply (tag_job (set_log lg w))
    |by eapply (tag_applying (set_log lg w))|by eapply (tag_acking (set_log lg w))
    |by eapply (tag_replay (set_log lg w))].
Qed.

Lemma log_inv_push lg cmd synced rest :
  log_inv lg synced rest -> chan_room (lg_writer lg) (lg_chan lg) = true ->
  (forall l, cmd = CmdLine l -> line_wf l) -> log_inv (set_chan (lg_chan lg ++ [cmd]) lg) synced rest.
Proof.
  intros [Hb Hs Hw Hn Hd] Hroom Hl. split; try done.
  - rewrite inflight_push, (assoc_L (++)). apply Forall_app. split; [done|].
    destruct cmd; repeat constructor; try done; by apply Hl.
  - intros E. destruct (Hd E) as [Ew _]. by rewrite Ew in Hroom.
Qed.

(** A command, or the acknowledgement of a delivered job, is submitted. *)
Lemma core_push w w' cmd synced rest :
  core w synced rest -> same_log w (set_log (rn_log w) w') ->
  rn_log w' = set_chan (lg_chan (rn_log w) ++ [cmd]) (rn_log w) ->
  chan_room (lg_writer (rn_log w)) (lg_chan (rn_log w)) = true ->
  (forall l, cmd = CmdLine l -> exists s call, l = WalAck s /\ tagged w s call /\ call ∈ rn_delivered w) ->
  core w' synced rest.
Proof.
  intros Hc Hsame El Hroom Hack. pose proof (core_same_log _ _ _ _ Hc Hsame) as [Hlog0 _ Hcal0 Hacking0 Hcom0].
  destruct Hc as [Hlog Hg _ _ _], Hsame as [_ Ht Hh _ Hd _ _]. simpl in *.
  assert (seq_bound (rn_log w') = seq_bound (rn_log w)) as Ebound by (by rewrite El).
  split; try done.
  - rewrite El. apply log_inv_push; [done|done|]. intros l E.
    destruct (Hack l E) as (s & call & -> & Htag & _). split; [|done]. simpl.
    pose proof (good_tag_lt _ _ Hg s call Htag). destruct Hlog as [_ _ _ Hn _]. unfold seq_bound, in_u64 in *.
    destruct (lg_enabled (rn_log w)); [|lia]. specialize (Hn eq_refl). lia.
  - rewrite Ebound.
    assert (forall l, l ∈ (synced ++ rest) ++ inflight (rn_log w') ->
              l ∈ (synced ++ rest) ++ inflight (rn_log w) \/ cmd = CmdLine l) as Hlines.
    { intros l. rewrite El, inflight_push, !elem_of_app. intros [?|[?|H]]; [tauto|tauto|].
      destruct cmd; simpl in H; try (by apply elem_of_nil in H). apply list_elem_of_singleton in H as ->. by right. }
    assert (forall b, delivered w b -> delivered w' b) as Hdel by (intros b; by apply delivered_mono).
    destruct (cmd_line cmd) as [l|] eqn:Ecmd.
    + destruct cmd as [l'| | |]; try done. injection Ecmd as <-.
      destruct (Hack l' eq_refl) as (s & call & -> & Htag & Hin).
      eapply good_weaken; [apply (good_acked _ _ s call Hg Htag)|split_and!; simpl|lia].
      * intros b Hb. by exists call.
      * intros b Hb. by destruct (Hlines _ Hb).
      * intros s' Hs'. destruct (Hlines _ Hs') as [?|[= ->]]; auto.
      * intros s' c Hc. apply Ht. by apply tagged_set_log.
      * intros i s' Hi. by apply Hh.
      * exact Hdel.
    + eapply good_weaken; [exact Hg|split_and!; simpl|lia].
      * intros b Hb. destruct (Hlines _ Hb) as [?| ->]; done.
      * intros s' Hs'. destruct (Hlines _ Hs') as [?| ->]; done.
      * intros s' c Hc. apply Ht. by apply tagged_set_log.
      * intros i s' Hi. by apply Hh.
      * exact Hdel.
Qed.

(** A call takes a number, and submits its line. *)
Lemma core_alloc w i c e synced rest :
  core w synced rest -> lg_enabled (rn_log w) = true -> (lg_next (rn_log w) < u64_max)%Z ->
  rn_callers w !! i = Some (CallerStart c e) ->
  core (set_callers (<[i := CallerSeq c e (lg_next (rn_log w))]>)
          (set_log (set_next ((lg_next (rn_log w) + 1) mod 2 ^ 64) (rn_log w)) w)) synced rest.
Proof.
  intros [[Hb Hs Hw Hn Hdis] Hg Hcal Hack Hcom] Hen Hlt Hi.
  specialize (Hn Hen). rewrite Z.mod_small by (unfold u64_max in *; lia). split.
  - split; try done. simpl. intros _. lia.
  - unfold seq_bound in *. simpl. rewrite Hen in *.
    eapply good_weaken; [apply (good_alloc _ _ i Hg)| |]; [lia| |split_and!; simpl; try done|lia].
    + intros s (c' & e' & H). congruence.
    + intros s call. tag_cases;
        [|by eapply tag_job|by eapply tag_applying|by eapply tag_acking|by eapply tag_replay].
      apply lookup_insert_Some in H as [[_ [=]]|[_ H]]. by eapply tag_caller.
    + intros j s (c' & e' & H). simpl in H. apply lookup_insert_Some in H as [[<- [= -> -> ->]]|[_ H]]; [by right|].
      left. by exists c', e'.
  - simpl. intros j c' [[_ <-]|[_ H]]%lookup_insert_Some; [by apply (Hcal _ _ Hi)|by eapply Hcal].
  - done.
  - done.
Qed.

Lemma core_send w i c e s ts synced rest :
  core w synced rest -> rn_callers w !! i = Some (CallerSeq c e s) ->
  chan_room (lg_writer (rn_log w)) (lg_chan (rn_log w)) = true ->
  core (set_callers (<[i := CallerQueue c e (Some s)]>)
          (set_log (set_chan (lg_chan (rn_log w) ++ [CmdLine (WalEvent (wal_body s ts c e))]) (rn_log w)) w))
    synced rest.
Proof.
  intros [Hlog Hg Hcal Hack Hcom] Hi Hroom. set (b := wal_body s ts c e).
  assert (holds w i (wb_seq b)) as Ho by (by exists c, e).
  destruct (Hcal _ _ Hi) as [Hm He]. split.
  - apply log_inv_push; [done|done|]. intros l [= <-]. split; [|split; [done|by apply event_row_wf]].
    simpl. pose proof (good_open_lt _ _ Hg i s Ho). destruct Hlog as [_ _ _ Hn _]. unfold seq_bound, in_u64 in *.
    destruct (lg_enabled (rn_log w)); [|lia]. specialize (Hn eq_refl). lia.
  - eapply good_weaken; [apply (good_send _ _ i b (c, e) Hg Ho)| |reflexivity]; [by left|].
    assert (forall l, l ∈ (synced ++ rest) ++ inflight (set_chan (lg_chan (rn_log w) ++ [CmdLine (WalEvent b)]) (rn_log w)) ->
              l ∈ (synced ++ rest) ++ inflight (rn_log w) \/ l = WalEvent b) as Hlines.
    { intros l. rewrite inflight_push, !elem_of_app. simpl. rewrite list_elem_of_singleton. tauto. }
    split_and!; simpl.
    + intros b' Hb'. destruct (Hlines _ Hb') as [?|[= ->]]; auto.
    + intros s' Hs'. destruct (Hlines _ Hs') as [?|[=]]; auto.
    + intros s' call. tag_cases;
        [|left; by eapply tag_job|left; by eapply tag_applying|left; by eapply tag_acking|left; by eapply tag_replay].
      apply lookup_insert_Some in H as [[_ [= -> -> ->]]|[_ H]]; [by right|left; by eapply tag_caller].
    + intros j s' (c' & e' & H). simpl in H. apply lookup_insert_Some in H as [[_ [=]]|[Hne H]].
      split; [by exists c', e'|done].
    + intros b' Hb'. done.
  - simpl. intros j c' [[_ <-]|[_ H]]%lookup_insert_Some; [done|by eapply Hcal].
  - done.
  - done.
Qed.

(** *** The writer *)

Lemma substring_prefix a b : String.substring 0 (String.length a) (a +:+ b) = a.
Proof. induction a as [|c a IH]; simpl; [by destruct b|by rewrite IH]. Qed.

Lemma core_writer w lg' bodies synced rest synced' rest' :
  core w synced rest -> log_inv lg' synced' rest' ->
  lg_enabled lg' = lg_enabled (rn_log w) -> lg_next lg' = lg_next (rn_log w) ->
  (forall l, l ∈ (synced' ++ rest') ++ inflight lg' -> l ∈ (synced ++ rest) ++ inflight (rn_log w)) ->
  (forall b, b ∈ bodies -> WalEvent b ∈ synced') ->
  (forall b, WalEvent b ∈ synced -> delivered w b \/ WalEvent b ∈ synced') ->
  core (note_committed bodies (set_log lg' w)) synced' rest'.
Proof.
  intros [_ Hg Hcal Hack Hcom] Hlog Een Enext Hlines Hbodies Hsync. split; try done.
  - assert (seq_bound lg' = seq_bound (rn_log w)) as Eb by (unfold seq_bound; by rewrite Een, Enext).
    simpl. rewrite Eb. eapply good_weaken; [exact Hg|split_and!; simpl|lia].
    + intros b Hb. by apply Hlines.
    + intros s Hs. by apply Hlines.
    + intros s c. tag_cases;
        [by eapply tag_caller|by eapply tag_job|by eapply tag_applying|by eapply tag_acking|by eapply tag_replay].
    + intros i s (c & e & H). by exists c, e.
    + done.
  - simpl. intros b [Hb|Hb]%elem_of_app; [|auto].
    destruct (Hcom b Hb) as [Hd|Hin]; [by left|]. by apply Hsync.
Qed.

Lemma closing_writer w lg' bodies lines lines' pre0 :
  closing w lines -> commands (rn_log w) = pre0 ++ commands lg' ->
  (forall l, l ∈ inflight lg' -> l ∈ inflight (rn_log w)) ->
  (forall b, WalEvent b ∈ lines' -> WalEvent b ∈ lines ++ inflight (rn_log w)) ->
  lg_answers lg' = lg_answers (rn_log w) \/ (rn_shutdown w <> ShRunning /\ ev_free lg') ->
  closing (note_committed bodies (set_log lg' w)) lines'.
Proof.
  intros [Hcal Hf Ht Ha Hl Hk] Ecmd Hin Hlines Hans.
  assert (ev_free (rn_log w) -> ev_free lg') as Hfree.
  { unfold ev_free. rewrite !Forall_forall. auto. }
  assert (ev_free (rn_log w) -> log_delivered w lines -> log_delivered w lines') as Hld.
  { intros Hfr Hd b Hb. apply Hlines, elem_of_app in Hb as [Hb|Hb]; [by apply Hd|].
    unfold ev_free in Hfr. rewrite Forall_forall in Hfr. by apply Hfr in Hb. }
  split; simpl; try done.
  - intros t pre post E. apply (Hf t (pre0 ++ pre) post). by rewrite Ecmd, E, (assoc_L (++)).
  - intros t Hin'. destruct (Ht t) as (? & ? & ?); [rewrite Ecmd; apply elem_of_app; by right|].
    split_and!; auto.
  - intros H. destruct Hans as [Eans|[? ?]]; [|done]. rewrite Eans in H. destruct (Ha H). auto.
  - auto.
  - intros H. intros b Hb. apply Hld; [apply Hl; by rewrite H|by apply Hk|done].
Qed.

(** The lines of a commit that reached the file. *)
Lemma commit_log_inv fate batch deferred chan lg synced rest :
  log_inv lg synced rest -> lg_writer lg = Collecting batch -> commands lg = option_list deferred ++ chan ->
  write_allowed (mkPolicy true true) fate lg ->
  exists synced' rest' done tail,
    log_inv (set_writer (commit_lines fate batch (lg_disk lg)) (Receiving deferred) chan lg) synced' rest'
    /\ batch = done ++ tail /\ synced' ++ rest' = (synced ++ rest) ++ done
    /\ (forall l, l ∈ synced -> l ∈ synced')
    /\ (wf_limit fate = None -> wf_sync fate = true -> forall l, l ∈ batch -> l ∈ synced').
Proof.
  intros [Hb Hs Hw Hn Hd] Ewr Ecmd Hallow.
  assert (forall d, inflight (set_writer d (Receiving deferred) chan lg) = omap cmd_line (commands lg)) as Einf.
  { intros d. unfold inflight. simpl. f_equal. rewrite Ecmd. by destruct deferred. }
  assert (inflight lg = batch ++ omap cmd_line (commands lg)) as Eold by (unfold inflight; by rewrite Ewr).
  assert (forall synced' rest' done tail d, batch = done ++ tail -> synced' ++ rest' = (synced ++ rest) ++ done ->
            dk_bytes d = render (synced' ++ rest') -> dk_synced d = String.length (render synced') ->
            log_inv (set_writer d (Receiving deferred) chan lg) synced' rest') as Hmk.
  { intros synced' rest' done tail d Eb El Ebytes Esync. split; simpl; try done.
    - rewrite Einf, El. rewrite Eold, Eb in Hw. rewrite !Forall_app in Hw. rewrite !Forall_app. tauto.
    - intros E. destruct (Hd E) as [E' _]. by rewrite Ewr in E'. }
  unfold commit_lines, write_allowed in *. rewrite Ewr in Hallow. destruct fate as [[n|] sync]; simpl in *.
  - destruct Hallow as [_ Hdone]. destruct (Hdone eq_refl) as (done & tail & Ebatch & ->).
    exists synced, (rest ++ done), done, tail. split_and!; [|done|by rewrite (assoc_L (++))|done|done].
    apply (Hmk _ _ done tail); simpl; try done; [by rewrite (assoc_L (++))|].
    rewrite Ebatch, render_app, substring_prefix, Hb, (assoc_L (++)). by rewrite (render_app (synced ++ rest)).
  - destruct sync.
    + exists (synced ++ rest ++ batch), [], batch, [].
      split_and!; [|by rewrite app_nil_r|by rewrite app_nil_r, (assoc_L (++))| |].
      * apply (Hmk _ _ batch []); simpl; rewrite ?app_nil_r, ?(assoc_L (++)); try done.
        -- by rewrite Hb, (render_app (synced ++ rest)).
        -- by rewrite Hb, (render_app (synced ++ rest)).
      * intros l Hl. apply elem_of_app. by left.
      * intros _ _ l Hl. rewrite !elem_of_app. auto.
    + exists synced, (rest ++ batch), batch, [].
      split_and!; [|by rewrite app_nil_r|by rewrite (assoc_L (++))|done|done].
      apply (Hmk _ _ batch []); simpl; rewrite ?app_nil_r, ?(assoc_L (++)); try done.
      by rewrite Hb, (render_app (synced ++ rest)).
Qed.

Lemma handle_inv w tf cmd chan :
  rt_inv w -> commands (rn_log w) = cmd :: chan -> batch_of (lg_writer (rn_log w)) = [] ->
  lg_writer (rn_log w) <> Stopped ->
  rt_inv (note_committed [] (set_log (handle_command tf cmd chan (rn_log w)) w)).
Proof.
  intros (synced & rest & Hco & Hcl) Ecmd Ebatch Hrun. pose proof (co_log _ _ _ Hco) as [Hb Hs Hw Hn Hd].
  assert (lg_enabled (rn_log w) = true) as Hen.
  { destruct (lg_enabled (rn_log w)) eqn:E; [done|]. by destruct (Hd eq_refl). }
  assert (inflight (rn_log w) = omap cmd_line (cmd :: chan)) as Einf
    by (unfold inflight; by rewrite Ebatch, Ecmd).
  (* the moves that leave the file alone *)
  assert (forall wr answers,
            batch_of wr ++ omap cmd_line (deferred_of wr ++ chan) = omap cmd_line (cmd :: chan)
            \/ batch_of wr ++ omap cmd_line (deferred_of wr ++ chan) = omap cmd_line chan ->
            deferred_of wr = [] ->
            answers = lg_answers (rn_log w) \/
              (rn_shutdown w <> ShRunning /\ Forall is_ack (batch_of wr ++ omap cmd_line chan)) ->
            rt_inv (note_committed [] (set_log (mkLog true (lg_disk (rn_log w)) wr chan (lg_next (rn_log w))
                      answers) w))) as Hkeep.
  { intros wr answers Hinf Edef Hans. exists synced, rest.
    set (lg' := mkLog true _ wr chan _ answers).
    assert (forall l, l ∈ inflight lg' -> l ∈ inflight (rn_log w)) as Hsub.
    { intros l. unfold inflight at 1, commands. simpl. rewrite Einf.
      destruct Hinf as [-> | ->]; [done|]. intros Hl. change (cmd :: chan) with ([cmd] ++ chan).
      rewrite omap_app. apply elem_of_app. by right. }
    split.
    - apply (core_writer w lg' [] synced rest); try done; [| |by intros b []%elem_of_nil|by right].
      + split; try done; [|by intros _; apply Hn]. rewrite Forall_app in Hw |- *. destruct Hw as [? Hi].
        split; [done|]. rewrite Forall_forall in Hi |- *. auto.
      + intros l. rewrite !elem_of_app. intros [?|?]; auto.
    - apply (closing_writer w lg' [] (synced ++ rest) _ [cmd]); try done.
      + unfold commands at 2. simpl. by rewrite Edef.
      + intros b Hb'. apply elem_of_app. by left.
      + destruct Hans as [?|[? ?]]; [by left|right]. split; [done|]. unfold ev_free, inflight, commands. simpl.
        by rewrite Edef. }
  assert (forall t post, cmd = CmdFlush t -> chan = post -> rn_shutdown w <> ShRunning /\ Forall is_ack (omap cmd_line post)) as Hflush.
  { intros t post -> <-. by apply (cl_flush _ _ Hcl t []). }
  unfold handle_command, set_writer, answer. destruct cmd as [l|t|t|]; simpl; rewrite Hen.
  - apply Hkeep; auto.
  - apply Hkeep; auto. right. by apply (Hflush t).
  - destruct (cl_truncate _ _ Hcl t) as (Hr & Hfree & Hdel); [rewrite Ecmd; left|].
    assert (Forall is_ack (omap cmd_line chan)) as Hchan by (unfold ev_free in Hfree; by rewrite Einf in Hfree).
    destruct tf; [|by apply Hkeep; auto|];
      (exists [], []; split;
       [ apply (core_writer w _ [] synced rest); try done;
         [ split; try done; simpl;
           [rewrite Einf in Hw; rewrite Forall_app in Hw; by destruct Hw|by intros _; apply Hn]
         | intros l Hl; apply elem_of_app; right; rewrite Einf; exact Hl
         | by intros b []%elem_of_nil
         | intros b Hb'; left; apply Hdel, elem_of_app; by left ]
       | apply (closing_writer w _ [] (synced ++ rest) _ [CmdTruncate t]); try done;
         [ intros l Hl; rewrite Einf; exact Hl | by intros b Hb'%elem_of_nil | right; done ] ]).
  - apply Hkeep; auto.
Qed.

Lemma writer_inv P w timeout fate tf lg' bodies :
  whole_lines P = true -> rt_inv w -> write_allowed P fate (rn_log w) ->
  writer_step timeout fate tf (rn_log w) = Some (lg', bodies) ->
  rt_inv (note_committed bodies (set_log lg' w)).
Proof.
  intros HP Hinv Hallow. unfold writer_step.
  destruct (lg_writer (rn_log w)) as [[cmd|]|batch|] eqn:Ewr; [..|done].
  - intros [= <- <-]. apply handle_inv; try done; unfold commands; by rewrite ?Ewr.
  - destruct (lg_chan (rn_log w)) as [|cmd chan] eqn:Ech; [done|]. intros [= <- <-].
    apply handle_inv; try done; unfold commands; by rewrite ?Ewr.
  - destruct Hinv as (synced & rest & Hco & Hcl). pose proof (co_log _ _ _ Hco) as Hlog.
    assert (forall deferred chan bodies0,
              lg_chan (rn_log w) = option_list deferred ++ chan ->
              bodies0 = (match wf_limit fate with
                         | None => if wf_sync fate then omap line_body batch else []
                         | Some _ => []
                         end) ->
              rt_inv (note_committed bodies0 (set_log
                (set_writer (commit_lines fate batch (lg_disk (rn_log w))) (Receiving deferred) chan (rn_log w)) w)))
      as Hcommit.
    { intros deferred chan bodies0 Ech ->.
      destruct (commit_log_inv fate batch deferred chan (rn_log w) synced rest Hlog Ewr)
        as (synced' & rest' & done & tail & Hlog' & Ebatch & Elines & Hkept & Hall).
      { unfold commands. by rewrite Ewr. }
      { unfold write_allowed in *. rewrite Ewr in *. destruct (wf_limit fate); [|done]. by rewrite HP in Hallow. }
      assert (inflight (rn_log w) = batch ++ omap cmd_line (lg_chan (rn_log w))) as Eold
        by (unfold inflight, commands; by rewrite Ewr).
      assert (forall d, inflight (set_writer d (Receiving deferred) chan (rn_log w)) = omap cmd_line (lg_chan (rn_log w)))
        as Enew by (intros d; rewrite Ech; by destruct deferred).
      exists synced', rest'. split.
      - apply (core_writer w _ _ synced rest); try done.
        + intros l. rewrite Elines, Enew, Eold, Ebatch, !elem_of_app. tauto.
        + intros b. destruct (wf_limit fate); [by intros []%elem_of_nil|].
          destruct (wf_sync fate); [|by intros []%elem_of_nil]. intros (l & Hl & Hb)%list_elem_of_omap.
          destruct l as [b'|]; [|done]. injection Hb as ->. by apply Hall.
        + intros b Hb. right. by apply Hkept.
      - apply (closing_writer w _ _ (synced ++ rest) _ []); try done.
        + unfold commands. rewrite Ewr. simpl. rewrite Ech. by destruct deferred.
        + intros l. rewrite Enew, Eold, elem_of_app. by right.
        + intros b. rewrite Elines, Eold, Ebatch, !elem_of_app. tauto.
        + by left. }
    destruct (timeout || _); [intros [= <- <-]; by apply (Hcommit None)|].
    destruct (lg_chan (rn_log w)) as [|cmd chan] eqn:Ech; [done|].
    destruct cmd as [l|t|t|]; intros [= <- <-]; try by apply (Hcommit (Some _)).
    exists synced, rest.
    assert (inflight (set_writer (lg_disk (rn_log w)) (Collecting (batch ++ [l])) chan (rn_log w)) = inflight (rn_log w))
      as Einf by (unfold inflight, commands; rewrite Ewr, Ech; simpl; by rewrite <- (assoc_L (++))).
    destruct Hlog as [Hb Hs Hw Hn Hd]. split.
    + apply (core_writer w _ [] synced rest); try done; [|by rewrite Einf|by intros b []%elem_of_nil|by right].
      split; try done; [by rewrite Einf|]. intros E. destruct (Hd E) as [E' _]. by rewrite Ewr in E'.
    + apply (closing_writer w _ [] (synced ++ rest) _ [CmdLine l]); try done; [|by rewrite Einf| |by left].
      * unfold commands. by rewrite Ewr, Ech.
      * intros b Hb'. apply elem_of_app. by left.
Qed.

(** *** Crashes *)

Lemma texts_inj (l1 l2 : list WalLine) :
  Forall line_wf l1 -> Forall line_wf l2 -> map wal_line_text l1 = map wal_line_text l2 -> l1 = l2.
Proof.
  intros H1. revert l2. induction H1 as [|a l1 Ha _ IH]; intros [|b l2] H2 E; try done.
  apply Forall_cons_1 in H2 as [Hb H2]. injection E as Et E. f_equal; [|by apply IH].
  apply (f_equal (fun t => wal_line_parse (str_trim t))) in Et.
  rewrite !wal_line_roundtrip in Et by done. congruence.
Qed.

Lemma render_inj (l1 l2 : list WalLine) :
  Forall line_wf l1 -> Forall line_wf l2 -> render l1 = render l2 -> l1 = l2.
Proof.
  intros H1 H2 E. apply texts_inj; [done..|].
  apply (f_equal (fun s => omap id (read_lines (s +:+ "")))) in E.
  rewrite !read_lines_render_some in E. rewrite !app_nil_r in E.
  assert (forall l : list string, omap id (map Some l) = l) as Hid by (induction l; simpl; f_equal; done).
  by rewrite !Hid in E.
Qed.

Lemma render_nil (l : list WalLine) : String.length (render l) = 0 -> l = [].
Proof. destruct l as [|a l]; [done|]. simpl. rewrite str_length_app. simpl. lia. Qed.

(** A crash that keeps complete lines keeps the synced ones. *)
Lemma kept_lines synced rest (kept lost : list WalLine) :
  kept ++ lost = synced ++ rest -> (String.length (render synced) <= String.length (render kept))%nat ->
  exists rest', kept = synced ++ rest'.
Proof.
  intros E Hlen. apply app_eq_app in E as (k & [[-> _]|[-> _]]); [by exists k|].
  rewrite render_app, str_length_app in Hlen. exists []. rewrite app_nil_r.
  by rewrite (render_nil k), app_nil_r by lia.
Qed.

Lemma log_is_torn (lines : list WalLine) : render lines = render lines +:+ "".
Proof. by rewrite str_app_nil_r. Qed.

(** The numbers of a log stay below the sequence it is reopened with. *)
Lemma reopened_bound (enabled : bool) (kept : list WalLine) n :
  Forall line_wf kept -> (forall l, l ∈ kept -> (line_seq l < u64_max)%Z) ->
  let '(writer, next) := if enabled then wal_open (mkDisk (render kept) n) else (Stopped, 0%Z) in
  (enabled = true -> (0 <= next <= u64_max)%Z)
  /\ (forall l, l ∈ kept -> (0 <= line_seq l < seq_bound (mkLog enabled (mkDisk (render kept) n) writer [] next ∅))%Z)
  /\ deferred_of writer = [] /\ batch_of writer = [] /\ (enabled = false -> writer = Stopped).
Proof.
  intros Hwf Hmax.
  assert (forall l, l ∈ kept -> (0 <= line_seq l)%Z) as Hpos
    by (intros l Hl; rewrite Forall_forall in Hwf; apply (Hwf l Hl)).
  destruct enabled; unfold wal_open, seq_bound; cbn [dk_bytes lg_enabled lg_next deferred_of batch_of].
  - rewrite log_is_torn. destruct (next_sequence_spec kept "" Hwf torn_nil) as ([Hn0 Hn] & Hle & Hlt).
    split; [done|]. split; [|done]. intros l Hl. split; [auto|].
    destruct (Z.lt_ge_cases (next_sequence (Some (render kept +:+ ""))) u64_max) as [H|H]; [by apply Hlt|].
    specialize (Hmax l Hl). lia.
  - split_and!; try done. auto.
Qed.

Lemma restart_inv P w enabled d :
  whole_lines P = true -> rt_inv w -> crash_keeps P (lg_disk (rn_log w)) d -> rt_inv (restart enabled d w).
Proof.
  intros HP (synced & rest & Hco & Hcl) Hkeep. unfold crash_keeps in Hkeep. rewrite HP in Hkeep.
  destruct Hkeep as (kept & lost & Hwf & Ebytes & Hlen & ->). destruct Hco as [[Hb Hs Hw Hn _] Hg _ _ Hcom].
  assert (kept ++ lost = synced ++ rest) as Elines.
  { apply render_inj; [done| |congruence]. by apply Forall_app in Hw as [? _]. }
  rewrite Hs in Hlen. destruct (kept_lines _ _ _ _ Elines Hlen) as [rest' Ekept].
  assert (Forall line_wf kept) as Hkwf by (by apply Forall_app in Hwf as [? _]).
  assert (forall l, l ∈ kept -> l ∈ (synced ++ rest) ++ inflight (rn_log w)) as Hsub.
  { intros l Hl. apply elem_of_app. left. rewrite <- Elines. apply elem_of_app. by left. }
  assert (forall l, l ∈ kept -> (line_seq l < u64_max)%Z) as Hmax.
  { intros l Hl%Hsub. assert (line_seq l < seq_bound (rn_log w))%Z as H.
    { destruct l as [b|s]; [by apply (good_event_lt _ _ Hg)|by apply (good_ack_lt _ _ Hg)]. }
    unfold seq_bound in H. destruct (lg_enabled (rn_log w)) eqn:E; [specialize (Hn eq_refl)|]; lia. }
  pose proof (reopened_bound enabled kept (dk_synced (lg_disk (rn_log w))) Hkwf Hmax) as Hopen.
  unfold restart.
  destruct (if enabled then wal_open (mkDisk (render kept) (dk_synced (lg_disk (rn_log w)))) else (Stopped, 0%Z))
    as [writer next].
  destruct Hopen as (Hnext & Hbound & Edef & Ebatch & Hdis).
  destruct (replay_spec kept "" Hkwf torn_nil) as [_ Hpend]. rewrite <- log_is_torn in Hpend.
  assert (forall lg, lg_writer lg = writer -> lg_chan lg = [] -> inflight lg = []) as Hnone.
  { intros lg E1 E2. unfold inflight, commands. by rewrite E1, E2, Edef, Ebatch. }
  exists synced, rest'. rewrite <- Ekept. split; split; simpl; try done.
  - split; simpl; try done; [by rewrite <- Ekept| |by intros ?%Hdis].
    rewrite Hnone, app_nil_r, <- Ekept by done. done.
  - rewrite <- Ekept. unfold view_of. simpl. rewrite Hnone, app_nil_r by done. split; simpl.
    + intros b Hb'. apply (Hbound _ Hb').
    + intros s Hs'. apply (Hbound _ Hs').
    + intros s c. tag_cases; try done. apply Hpend in H as (b & Hlast & _ & ->). simpl in Hpe. subst s.
      apply last_event_in in Hlast as [_ Hin]. apply (Hbound _ Hin).
    + intros i s (c & e & H). done.
    + intros i j s (c & e & H). done.
    + intros i b (c & e & H). done.
    + intros i s (c & e & H). done.
    + intros i s c (c' & e & H). done.
    + intros b b' H1 H2. apply (good_event_inj _ _ Hg); by apply Hsub.
    + intros s c b. tag_cases; try done. intros Hb' Eseq. apply Hpend in H as (b0 & Hlast & _ & ->).
      simpl in Hpe. apply last_event_in in Hlast as [_ Hin].
      assert (b = b0) as -> by (apply (good_event_inj _ _ Hg); [by apply Hsub|by apply Hsub|congruence]).
      by right.
    + intros b H1 H2. assert (delivered w b) as (c & Hc & Hd)
        by (apply (good_ack _ _ Hg); simpl; by apply Hsub). by exists c.
  - intros t pre post E. unfold commands in E. simpl in E. rewrite Edef in E. by destruct pre.
  - intros t Hin. unfold commands in Hin. simpl in Hin. rewrite Edef in Hin. by apply elem_of_nil in Hin.
Qed.

(** *** The steps of the other threads *)

(** A step that leaves the log and the shutdown alone. *)
Lemma quiet_inv w w' :
  rt_inv w ->
  ((forall i c, rn_callers w !! i = Some c -> caller_ok c) ->
   (forall story c e s, rn_busy w !! story = Some (Acking c e s) -> (c, e) ∈ rn_delivered w) -> same_log w w') ->
  rn_shutdown w' = rn_shutdown w ->
  (rn_shutdown w <> ShRunning -> rn_callers w = ∅ -> rn_replay w = [] -> rn_callers w' = ∅ /\ rn_replay w' = []) ->
  rt_inv w'.
Proof.
  intros (synced & rest & Hco & Hcl) Hsame Hsh Hcal. exists synced, rest.
  specialize (Hsame (co_callers _ _ _ Hco) (co_acking _ _ _ Hco)). split; [by eapply core_same_log|].
  destruct Hsame as [El _ _ _ Hd _ _]. eapply closing_same_log; try done.
  intros Hr. destruct (cl_callers _ _ Hcl Hr). auto.
Qed.

Lemma call_inv ts i w w' :
  rt_inv w -> (lg_next (rn_log w) < u64_max)%Z -> call_step ts i w = Some w' -> rt_inv w'.
Proof.
  intros Hinv Hlt. unfold call_step. destruct (rn_callers w !! i) as [cl|] eqn:Ei; [|done].
  assert (rn_shutdown w = ShRunning) as Hrun.
  { destruct Hinv as (synced & rest & _ & Hcl). destruct (rn_shutdown w) eqn:E; try done;
      (destruct (cl_callers _ _ Hcl) as [Hnone _]; [by rewrite E|by rewrite Hnone in Ei]). }
  assert (forall w0, rn_shutdown w0 = rn_shutdown w ->
            ((forall i c, rn_callers w !! i = Some c -> caller_ok c) ->
             (forall story c e s, rn_busy w !! story = Some (Acking c e s) -> (c, e) ∈ rn_delivered w) ->
             same_log w w0) -> rt_inv w0) as Hquiet.
  { intros w0 Hs Hsame. eapply quiet_inv; [done|exact Hsame|done|]. by rewrite Hrun. }
  destruct cl as [c e|c e s|c e ws].
  - destruct (lg_enabled (rn_log w)) eqn:Hen; intros [= <-].
    + destruct Hinv as (synced & rest & Hco & Hcl). exists synced, rest. split; [by apply core_alloc|].
      eapply closing_running; try done. intros cmd Hcmd. by left.
    + apply Hquiet; [done|]. intros. by apply refuse_same_log.
  - intros [= <-]. unfold wal_try_send. destruct (chan_room _ _) eqn:Hroom.
    + destruct Hinv as (synced & rest & Hco & Hcl). exists synced, rest. split; [by apply core_send|].
      eapply closing_running; try done. intros cmd. simpl. rewrite commands_push.
      intros [?|Hin%list_elem_of_singleton]%elem_of_app; [by left|right]. by rewrite Hin.
    + apply Hquiet; [done|]. intros. by apply refuse_same_log.
  - intros [= <-]. apply Hquiet; [|intros; by apply queue_same_log].
    destruct (enqueue_frame c e ws (set_callers (delete i) w)) as (_ & _ & _ & _ & E & _). exact E.
Qed.

Lemma finish_inv story ok w w' : rt_inv w -> finish_apply story ok w = Some w' -> rt_inv w'.
Proof.
  intros Hinv Hf. pose proof Hf as Hf'. unfold finish_apply in Hf.
  destruct (rn_busy w !! story) as [[c e ws|c e s]|] eqn:Eb; [| |done].
  - eapply quiet_inv; [done|intros; by eapply applied_same_log|..].
    + injection Hf as <-. by destruct ok, ws.
    + injection Hf as <-. by destruct ok, ws.
  - injection Hf as <-.
    assert (forall (Hack : forall story c e s, rn_busy w !! story = Some (Acking c e s) -> (c, e) ∈ rn_delivered w)
              (Hcal : forall i c, rn_callers w !! i = Some c -> caller_ok c),
              same_log w (set_log (rn_log w) (set_busy (delete story) w))) as Hdel.
    { intros Hack Hcal. split; simpl; try done.
      - intros s' call. tag_cases; [by eapply tag_caller|by eapply tag_job| | |by eapply tag_replay].
        + eapply tag_applying, busy_delete, H.
        + eapply tag_acking, busy_delete, H.
      - intros story' c' e' s' H. by eapply Hack, busy_delete. }
    unfold wal_ack, wal_try_send. destruct (lg_enabled (rn_log w)) eqn:Hen; [destruct (chan_room _ _) eqn:Hroom|].
    + destruct Hinv as (synced & rest & Hco & Hcl). exists synced, rest.
      pose proof (co_acking _ _ _ Hco) as Hack. pose proof (co_callers _ _ _ Hco) as Hcal. split.
      * eapply (core_push w _ (CmdLine (WalAck s))); [done|exact (Hdel Hack Hcal)|done|done|].
        intros l [= <-]. exists s, (c, e). split_and!; [done|by eapply tag_acking|by eapply Hack].
      * eapply (closing_push w _ (CmdLine (WalAck s))); try done; simpl.
        -- apply (cl_callers _ _ Hcl).
        -- by intros l [= <-].
        -- apply (cl_late _ _ Hcl).
        -- apply (cl_checked _ _ Hcl).
    + eapply quiet_inv; [done|intros; by apply Hdel|done|done].
    + eapply quiet_inv; [done|intros; by apply Hdel|done|done].
Qed.

Lemma drop_inv w :
  rt_inv w -> chan_room (lg_writer (rn_log w)) (lg_chan (rn_log w)) = true ->
  rt_inv (set_log (set_chan (lg_chan (rn_log w) ++ [CmdShutdown]) (rn_log w)) w).
Proof.
  intros (synced & rest & Hco & Hcl) Hroom. exists synced, rest. split.
  - eapply (core_push w _ CmdShutdown); try done. destruct Hco as [_ _ Hcal Hack _]. split; simpl; try done.
    intros s c Hc. by apply tagged_set_log, tagged_set_log in Hc.
  - eapply (closing_push w _ CmdShutdown); try done; simpl.
    + apply (cl_callers _ _ Hcl).
    + apply (cl_late _ _ Hcl).
    + apply (cl_checked _ _ Hcl).
Qed.

(** The shutdown moves on without a command. *)
Lemma closing_shutdown w w' lines :
  closing w lines -> rn_log w' = rn_log w -> rn_delivered w' = rn_delivered w ->
  rn_shutdown w' <> ShRunning -> rn_callers w' = ∅ /\ rn_replay w' = [] ->
  (late (rn_shutdown w') = true -> ev_free (rn_log w)) ->
  (rn_shutdown w' = ShTruncate -> log_delivered w lines) -> closing w' lines.
Proof.
  intros [_ Hf Ht Ha Hl Hk] El Ed Hr Hcal Hlate Hchk.
  assert (forall b, delivered w' b <-> delivered w b) as Hdel by (intros b; unfold delivered; by rewrite Ed).
  split; rewrite ?El; try done.
  - intros t pre post E. destruct (Hf t pre post E). auto.
  - intros t Hin. destruct (Ht t Hin) as (? & ? & Hd). split_and!; auto. intros b Hb. by apply Hdel, Hd.
  - intros H. destruct (Ha H). auto.
  - intros H b Hb. by apply Hdel, Hchk.
Qed.

Lemma acked_or_not (lines : list WalLine) seq : acked lines seq \/ ~ acked lines seq.
Proof.
  unfold acked. induction lines as [|l lines IH]; [right; apply not_elem_of_nil|].
  destruct IH as [?|Hn]; [left; by right|]. destruct l as [b|s].
  - right. by intros [[=]|?]%elem_of_cons.
  - destruct (decide (s = seq)) as [->|Hne]; [left; left|right]. by intros [[= ?]|?]%elem_of_cons.
Qed.

Lemma event_has_last (lines : list WalLine) b : WalEvent b ∈ lines -> last_event lines (wb_seq b) = None -> False.
Proof.
  intros Hin El. apply last_None in El.
  assert (b ∈ omap (event_of (wb_seq b)) lines) as H.
  { apply list_elem_of_omap. exists (WalEvent b). split; [done|]. simpl. by rewrite bool_decide_eq_true_2. }
  rewrite El in H. by apply elem_of_nil in H.
Qed.

(** An empty answer of the scan: every event of the log was delivered. *)
Lemma nothing_pending w synced rest :
  core w synced rest -> replay_pending (Some (dk_bytes (lg_disk (rn_log w)))) = [] ->
  log_delivered w (synced ++ rest).
Proof.
  intros [[Hb _ Hw _ _] Hg _ _ _] Hnone b Hin. apply Forall_app in Hw as [Hw _].
  destruct (replay_spec (synced ++ rest) "" Hw torn_nil) as [_ Hpend].
  rewrite <- log_is_torn, <- Hb, Hnone in Hpend.
  assert (vE (view_of (synced ++ rest) w) b) as HE by (apply elem_of_app; by left).
  apply (good_ack _ _ Hg b); [|done]. simpl. apply elem_of_app. left.
  destruct (last_event (synced ++ rest) (wb_seq b)) as [b'|] eqn:El.
  - pose proof (last_event_in _ _ _ El) as [Eseq Hin'].
    assert (b' = b) as -> by (apply (good_event_inj _ _ Hg); [apply elem_of_app; by left|done|done]).
    destruct (acked_or_not (synced ++ rest) (wb_seq b)) as [?|Hna]; [done|].
    exfalso. apply (elem_of_nil (pending_of b)), Hpend. by exists b.
  - exfalso. by eapply event_has_last.
Qed.

Lemma move_inv w sh synced rest :
  core w synced rest -> closing w (synced ++ rest) -> rn_shutdown w <> ShRunning -> sh <> ShRunning ->
  (late sh = true -> ev_free (rn_log w)) ->
  (sh = ShTruncate -> log_delivered w (synced ++ rest)) -> rt_inv (set_shutdown sh w).
Proof.
  intros Hco Hcl Hr Hsh Hlate Hchk. exists synced, rest. split.
  - eapply core_same_log; [done|]. apply shutdown_same_log; [apply (co_callers _ _ _ Hco)|apply (co_acking _ _ _ Hco)].
  - eapply closing_shutdown; try done. by apply (cl_callers _ _ Hcl).
Qed.

(** A control command of the shutdown is submitted. *)
Lemma control_inv w cmd sh lg synced rest :
  core w synced rest -> closing w (synced ++ rest) -> rn_shutdown w <> ShRunning -> sh <> ShRunning ->
  control_send cmd (rn_log w) = Some (Some lg) -> cmd_line cmd = None ->
  (forall t, cmd = CmdTruncate t -> ev_free (rn_log w) /\ log_delivered w (synced ++ rest)) ->
  (late sh = true -> ev_free (rn_log w)) -> sh <> ShTruncate -> rt_inv (set_shutdown sh (set_log lg w)).
Proof.
  intros Hco Hcl Hr Hsh Hsend Hnl Htr Hlate Hne. exists synced, rest. unfold control_send in Hsend.
  assert (chan_room (lg_writer (rn_log w)) (lg_chan (rn_log w)) = true
          /\ lg = set_chan (lg_chan (rn_log w) ++ [cmd]) (rn_log w)) as [Hroom ->].
  { destruct (lg_writer (rn_log w)); [| |done]; destruct (chan_room _ _); by simplify_eq. }
  split.
  - eapply (core_push w _ cmd); try done; [|intros l ->; done].
    destruct Hco as [_ _ Hcal Hack _]. split; simpl; try done. intros s c. tag_cases;
      [by eapply tag_caller|by eapply tag_job|by eapply tag_applying|by eapply tag_acking|by eapply tag_replay].
  - eapply (closing_push w _ cmd); try done; simpl.
    + intros _. by apply (cl_callers _ _ Hcl).
    + intros l ->. done.
    + intros t ->. destruct (Htr t eq_refl). done.
Qed.

Lemma shutdown_inv ok w w' : rt_inv w -> shutdown_step ok w = Some w' -> rt_inv w'.
Proof.
  intros (synced & rest & Hco & Hcl). unfold shutdown_step.
  pose proof (cl_late _ _ Hcl) as Hlate. pose proof (cl_checked _ _ Hcl) as Hchk.
  pose proof (cl_answers _ _ Hcl) as Hans.
  assert (lg_enabled (rn_log w) = false -> ev_free (rn_log w)) as Hoff.
  { intros E. destruct (li_disabled _ _ _ (co_log _ _ _ Hco) E) as [E1 E2].
    unfold ev_free, inflight, commands. by rewrite E1, E2. }
  destruct (rn_shutdown w) as [|todo|t todo| | | | | | | | |] eqn:Esh; try done.
  - destruct todo as [|story todo].
    + intros [= <-]. eapply move_inv; try done; by rewrite Esh.
    + destruct (_ <? _)%nat; [|done]. intros [= <-]. exists synced, rest. split.
      * eapply core_same_log; [done|]. apply barrier_same_log;
          [apply (co_callers _ _ _ Hco)|apply (co_acking _ _ _ Hco)].
      * eapply closing_shutdown; try done. apply (cl_callers _ _ Hcl). by rewrite Esh.
  - case_bool_decide; [|done]. intros [= <-]. eapply move_inv; try done; by rewrite Esh.
  - intros [= <-]. destruct ok; eapply move_inv; try done; by rewrite Esh.
  - destruct (lg_enabled (rn_log w)) eqn:Een.
    + destruct (control_send _ _) as [[lg|]|] eqn:Ec; [| |done]; intros [= <-].
      * eapply control_inv; try done. by rewrite Esh.
      * eapply move_inv; try done; by rewrite Esh.
    + intros [= <-]. eapply move_inv; try done; [by rewrite Esh|]. intros _. by apply Hoff.
  - destruct (lg_answers (rn_log w) !! FLUSH_TOKEN) as [[|]|] eqn:Ea.
    + intros [= <-]. eapply move_inv; try done; [by rewrite Esh|]. intros _. apply Hans. intros E. by rewrite E in Ea.
    + intros [= <-]. eapply move_inv; try done; by rewrite Esh.
    + destruct (lg_writer (rn_log w)); try done. intros [= <-]. eapply move_inv; try done; by rewrite Esh.
  - intros [= <-]. destruct ok; eapply move_inv; try done; (by rewrite Esh) || (intros _; by apply Hlate).
  - destruct (replay_pending (Some (dk_bytes (lg_disk (rn_log w))))) eqn:Ep; intros [= <-].
    + eapply move_inv; try done; [by rewrite Esh|intros _; by apply nothing_pending].
    + eapply move_inv; try done; by rewrite Esh.
  - destruct (lg_enabled (rn_log w)) eqn:Een.
    + destruct (control_send _ _) as [[lg|]|] eqn:Ec; [| |done]; intros [= <-].
      * eapply control_inv; try done; [by rewrite Esh|]. intros t _. split; [by apply Hlate|by apply Hchk].
      * eapply move_inv; try done; by rewrite Esh.
    + intros [= <-]. eapply move_inv; try done; by rewrite Esh.
  - destruct (lg_answers (rn_log w) !! TRUNCATE_TOKEN) as [?|] eqn:Ea.
    + intros [= <-]. eapply move_inv; try done; by rewrite Esh.
    + destruct (lg_writer (rn_log w)); try done. intros [= <-]. eapply move_inv; try done; by rewrite Esh.
Qed.

Lemma replay_shutdown w w' : replay_step w = Some w' -> rn_shutdown w' = rn_shutdown w.
Proof.
  unfold replay_step. destruct (rn_replay w) as [|entry rest]; [done|]. intros [= <-].
  match goal with |- context [enqueue ?c ?e ?ws ?w0] =>
    by destruct (enqueue_frame c e ws w0) as (_ & _ & _ & _ & -> & _) end.
Qed.

Lemma step_inv w w' : step (mkPolicy true true) w w' -> rt_inv w -> rt_inv w'.
Proof.
  intros Hstep Hinv.
  destruct Hstep as [w i ctx event Hrep Hi Hcons Hm He Hex|w i ts w' Hlt Hc|w w' Hr|w st w' Hc|w st ok w' Hf
                    |w wr w' Hd|w timeout fate tf lg bodies Hal Hw|w stories Hrep Hrun Hst Hex|w ok w' Hs
                    |w Hcal Hb Hroom|w d enabled Hk].
  - eapply quiet_inv; [done|intros; by apply enter_same_log|done|]. intros Hr. by rewrite Hex in Hr.
  - by eapply call_inv.
  - eapply quiet_inv; [done|intros; by eapply replay_same_log|..].
    + by apply replay_shutdown in Hr.
    + intros _ _ Hnone. unfold replay_step in Hr. by rewrite Hnone in Hr.
  - eapply quiet_inv; [done|intros; by eapply consume_same_log|..];
      unfold consume in Hc; destruct (rn_busy w !! st); try done;
      destruct (rn_queues w !! st) as [[|[] ?]|]; try done; by injection Hc as <-.
  - by eapply finish_inv.
  - eapply quiet_inv; [done|intros; by eapply dead_letter_same_log|..];
      unfold dead_letter_step in Hd; destruct (rn_rejected w); try done; by injection Hd as <-.
  - by eapply (writer_inv (mkPolicy true true)).
  - destruct Hinv as (synced & rest & Hco & Hcl). exists synced, rest. split.
    + eapply core_same_log; [done|]. apply shutdown_same_log;
        [apply (co_callers _ _ _ Hco)|apply (co_acking _ _ _ Hco)].
    + eapply closing_shutdown; try done. split; [by apply Hex|done].
  - by eapply shutdown_inv.
  - by apply drop_inv.
  - by eapply (restart_inv (mkPolicy true true)).
Qed.

Lemma first_inv : rt_inv first_start.
Proof.
  exists [], []. split; split; simpl; try done.
  - split; simpl; try (by intros ? []%elem_of_nil).
    + intros s c. tag_cases; try done. by apply elem_of_nil in H.
    + by intros i s (c & e & H).
    + by intros i j s (c & e & H).
    + by intros i b (c & e & H).
    + by intros i s (c & e & H).
    + by intros i s c (c' & e & H).
    + by intros b b' []%elem_of_nil.
    + intros s c b. tag_cases; try done. by apply elem_of_nil in H.
  - by intros b []%elem_of_nil.
  - intros t pre post E. by destruct pre.
  - by intros t []%elem_of_nil.
Qed.

Lemma reachable_rt_inv w : rtc (step (mkPolicy true true)) first_start w -> rt_inv w.
Proof.
  intros H. remember first_start as w0 eqn:E. assert (rt_inv w0) as H0 by (subst; apply first_inv). clear E.
  induction H as [|w1 w2 w3 Hs _ IH]; [done|]. apply IH. by eapply step_inv.
Qed.

(** ** No committed event is lost *)

(** C7: in every execution of the capture runtime (calls, consumers, the group
    commit, crashes that keep complete lines, restarts with their replay, and
    shutdowns while no call runs, in any interleaving), an event whose line was
    committed to the log was either delivered to its story or is among those
    the next start replays.  An acknowledgement never hides an event that was
    not applied, a sequence number is never taken twice, and a shutdown never
    truncates a log that still has work in it. *)
Theorem no_committed_event_lost w b :
  rtc (step (mkPolicy true true)) first_start w -> b ∈ rn_committed w ->
  delivered w b \/ pending_of b ∈ replay_pending (Some (dk_bytes (lg_disk (rn_log w)))).
Proof.
  intros Hr Hb. destruct (reachable_rt_inv w Hr) as (synced & rest & Hco & _).
  destruct (co_committed _ _ _ Hco b Hb) as [?|Hin]; [by left|].
  assert (WalEvent b ∈ synced ++ rest) as Hline by (apply elem_of_app; by left).
  destruct Hco as [[Hbytes _ Hw _ _] Hg _ _ _].
  assert (vE (view_of (synced ++ rest) w) b) as HE by (apply elem_of_app; by left).
  destruct (acked_or_not (synced ++ rest) (wb_seq b)) as [Ha|Hna].
  - left. apply (good_ack _ _ Hg); [|done]. simpl. apply elem_of_app. by left.
  - right. apply Forall_app in Hw as [Hw _].
    destruct (replay_spec (synced ++ rest) "" Hw torn_nil) as [_ Hpend].
    rewrite Hbytes, log_is_torn. apply Hpend. exists b. split_and!; [|done|done].
    destruct (last_event (synced ++ rest) (wb_seq b)) as [b'|] eqn:El.
    + destruct (last_event_in _ _ _ El) as [Eseq Hin']. f_equal.
      apply (good_event_inj _ _ Hg); [apply elem_of_app; by left|done|done].
    + exfalso. by eapply event_has_last.
Qed.

(** ** The race of a shutdown with a call *)

Section Race.
Context (ctx : CallContext) (ev : Ev) (ts : string).
Hypothesis Hctx : context_consistent ctx.
Hypothesis Hmeta : option_wf client_meta_wf (cc_client_meta ctx).
Hypothesis Hev : event_in_range ev.

#[local] Abbreviation racing := (step (mkPolicy true false)).

Definition the_line : WalEventBody := wal_body 0 ts ctx ev.
(** A state of the race: the log, the caller, the shutdown, and what was
    committed. *)
Definition racing_log (d : Disk) (wr : Writer) (chan : list WalCommand) (next : Z) (answers : gmap nat bool) : LogState :=
  mkLog true d wr chan next answers.
Definition race (lg : LogState) (callers : gmap nat Caller) (sh : Shutdown) (committed : list WalEventBody)
  : Runtime :=
  mkRuntime lg [] callers ∅ ∅ ∅ [] [] sh [] committed.

Definition flushed : gmap nat bool := <[FLUSH_TOKEN := true]> ∅.
Definition empty_log (chan : list WalCommand) (next : Z) (answers : gmap nat bool) : LogState :=
  racing_log (mkDisk "" 0) (Receiving None) chan next answers.

(** The shutdown has flushed and checked the log, and is about to truncate it. *)
Definition checked : Runtime := race (empty_log [] 0 flushed) ∅ ShTruncate [].

Lemma checked_reached : rtc racing first_start checked.
Proof.
  eapply rtc_l; [by apply (step_begin_shutdown _ first_start [])|].
  eapply rtc_l; [by apply (step_shutdown _ _ true (race (empty_log [] 0 ∅) ∅ ShStories []))|].
  eapply rtc_l; [by apply (step_shutdown _ _ true (race (empty_log [] 0 ∅) ∅ ShFlush []))|].
  eapply rtc_l; [by apply (step_shutdown _ _ true (race (empty_log [CmdFlush FLUSH_TOKEN] 0 ∅) ∅ ShFlushWait []))|].
  eapply rtc_l;
    [by apply (step_writer _ _ false (mkWriteFate None true) TruncateOk (empty_log [] 0 flushed) [])|].
  eapply rtc_l; [by apply (step_shutdown _ _ true (race (empty_log [] 0 flushed) ∅ ShPersist []))|].
  eapply rtc_l; [by apply (step_shutdown _ _ true (race (empty_log [] 0 flushed) ∅ ShCheck []))|].
  apply rtc_once. by apply (step_shutdown _ _ true checked).
Qed.

(** A call submits its line; then the truncation is submitted behind it. *)
Definition submitted : Runtime :=
  race (empty_log [CmdLine (WalEvent the_line); CmdTruncate TRUNCATE_TOKEN] 1 flushed)
    {[0 := CallerQueue ctx ev (Some 0%Z)]} ShTruncateWait [].

Lemma submitted_reached : rtc racing checked submitted.
Proof.
  eapply rtc_l; [by apply (step_enter _ checked 0 ctx ev)|].
  eapply rtc_l; [apply (step_call _ _ 0 ts (race (empty_log [] 1 flushed) {[0 := CallerSeq ctx ev 0]} ShTruncate []));
    done|].
  eapply rtc_l; [apply (step_call _ _ 0 ts (race (empty_log [CmdLine (WalEvent the_line)] 1 flushed)
                          {[0 := CallerQueue ctx ev (Some 0%Z)]} ShTruncate [])); done|].
  apply rtc_once. by apply (step_shutdown _ _ true submitted).
Qed.

(** The writer commits the line and handles the truncation. *)
Definition truncated : Runtime :=
  race (racing_log (mkDisk "" 0) (Receiving None) [] 1 (<[TRUNCATE_TOKEN := true]> flushed))
    {[0 := CallerQueue ctx ev (Some 0%Z)]} ShTruncateWait [the_line].

Lemma truncated_reached : rtc racing submitted truncated.
Proof.
  set (fate := mkWriteFate None true).
  set (lg1 := racing_log (mkDisk "" 0) (Collecting [WalEvent the_line]) [CmdTruncate TRUNCATE_TOKEN] 1 flushed).
  set (lg2 := racing_log (commit_lines fate [WalEvent the_line] (mkDisk "" 0))
                (Receiving (Some (CmdTruncate TRUNCATE_TOKEN))) [] 1 flushed).
  eapply rtc_l; [by apply (step_writer _ _ false fate TruncateOk lg1 [])|].
  eapply rtc_l; [by apply (step_writer _ _ false fate TruncateOk lg2 [the_line])|].
  eapply rtc_l; [by apply (step_writer _ _ false fate TruncateOk (rn_log truncated) [])|]. reflexivity.
Qed.

(** A call that runs while a shutdown truncates the log can lose its
    event.  The check that nothing is pending and the truncation are separate
    operations: the line of a call that is submitted between them is committed,
    and erased by the truncation behind it; if the process ends before the
    event is applied, nothing of it is left. *)
Theorem truncation_race_loses_event :
  exists w, rtc racing first_start w
  /\ wal_body 0 ts ctx ev ∈ rn_committed w
  /\ rn_delivered w = [] /\ rn_callers w = ∅ /\ rn_queues w = ∅ /\ rn_replay w = []
  /\ replay_pending (Some (dk_bytes (lg_disk (rn_log w)))) = [].
Proof.
  exists (restart true (mkDisk "" 0) truncated). split.
  - etransitivity; [apply checked_reached|]. etransitivity; [apply submitted_reached|].
    eapply rtc_r; [apply truncated_reached|]. apply step_crash. exists [], []. split_and!; [constructor|reflexivity|apply Nat.le_refl|reflexivity].
  - split_and!; try done. by left.
Qed.
End Race.
End Runtime.

Module RuntimeExample.
Import CaptureExample.

(** A call whose line is committed; the process crashes before its event is
    enqueued, and is started again. *)
Definition b0 : WalEventBody := wal_body 0 "t" ctx request.
Definition log1 : LogState :=
  mkLog true (commit_lines (mkWriteFate None true) [WalEvent b0] (mkDisk "" 0)) (Receiving None) [] 1 ∅.
Definition w1 : Runtime (ReqSemantic := unit) (RespSemantic := unit) :=
  mkRuntime log1 [] {[0 := CallerQueue ctx request (Some 0%Z)]} ∅ ∅ ∅ [] [] ShRunning [] [b0].
Definition w2 : Runtime (ReqSemantic := unit) (RespSemantic := unit) := restart true (lg_disk log1) w1.

#[local] Abbreviation steps := (rtc (step (ReqSemantic := unit) (RespSemantic := unit) (mkPolicy true true))).

Lemma ctx_ok : context_consistent ctx /\ option_wf client_meta_wf (cc_client_meta ctx) /\ event_in_range request.
Proof. split_and!; [reflexivity|exact I|]. split; [split; vm_compute; discriminate|discriminate]. Qed.

Lemma committed_reached : steps first_start w1.
Proof.
  destruct ctx_ok as (H1 & H2 & H3).
  set (at_log lg cal := mkRuntime lg [] cal ∅ ∅ ∅ [] [] ShRunning [] [] : Runtime (ReqSemantic := unit) (RespSemantic := unit)).
  set (lg wr chan next := mkLog true (mkDisk "" 0) wr chan next ∅).
  eapply rtc_l; [by apply (step_enter _ first_start 0 ctx request)|].
  eapply rtc_l; [apply (step_call _ _ 0 "t" (at_log (lg (Receiving None) [] 1%Z) {[0 := CallerSeq ctx request 0]}));
    done|].
  eapply rtc_l; [apply (step_call _ _ 0 "t" (at_log (lg (Receiving None) [CmdLine (WalEvent b0)] 1%Z)
                         {[0 := CallerQueue ctx request (Some 0%Z)]})); done|].
  eapply rtc_l; [by apply (step_writer _ _ false (mkWriteFate None true) TruncateOk
                             (lg (Collecting [WalEvent b0]) [] 1%Z) [])|].
  eapply rtc_l; [by apply (step_writer _ _ true (mkWriteFate None true) TruncateOk log1 [b0])|]. reflexivity.
Qed.

Lemma restarted : steps first_start w2.
Proof.
  eapply rtc_r; [apply committed_reached|]. apply step_crash. exists [WalEvent b0], [].
  split_and!; [|vm_compute; reflexivity|vm_compute; lia|vm_compute; reflexivity].
  repeat constructor; vm_compute; discriminate.
Qed.

Lemma no_committed_event_lost_witness :
  delivered w2 b0 \/ pending_of b0 ∈ replay_pending (Some (dk_bytes (lg_disk (rn_log w2)))).
Proof. apply (no_committed_event_lost w2 b0); [exact restarted|left]. Defined.

Lemma truncation_race_loses_event_witness :
  exists w, rtc (step (ReqSemantic := unit) (RespSemantic := unit) (mkPolicy true false)) first_start w
  /\ wal_body 0 "t" ctx request ∈ rn_committed w
  /\ rn_delivered w = [] /\ rn_callers w = ∅ /\ rn_queues w = ∅ /\ rn_replay w = []
  /\ replay_pending (Some (dk_bytes (lg_disk (rn_log w)))) = [].
Proof.
  apply (truncation_race_loses_event ctx request "t"); [reflexivity|exact I|].
  split; [split; vm_compute; discriminate|discriminate].
Defined.
End RuntimeExample.
