(* ===== verification/Tasks.v ===== *)
(** * pPilot: tasks, claims and cached results

    Models [persisting-ppilot/src/task.rs] (the plan item and the terminal
    result), [skip.rs] (the set of task ids that must not be dispatched) and
    [result_cache.rs] (the bounded idempotency cache of a worker).

    Floating-point times are an abstract type; a measured number keeps the
    JSON number it was converted from. *)

From Stdlib Require Import ZArith Lia.
From stdpp Require Import base list strings gmap numbers option.
From S2P Require Import Prelude Json.

#[local] Set Warnings "-clear-no-such-hyp".

(** ** Plan items ([task.rs]) *)

Record TaskExpr := mkTaskExpr {
  tx_id : string;
  tx_op : string;
  tx_args : list (string * Value);
  tx_meta : list (string * Value);
}.

Inductive TaskError :=
| TaskNotObject | TaskIdMissing | TaskIdEmpty | TaskIdType | TaskMetaType | TaskArgsType.

(** [obj.remove(a).or_else(|| obj.remove(b))]. *)
Definition remove_either (a b : string) (obj : list (string * Value))
  : option Value * list (string * Value) :=
  match assoc_remove obj a with
  | (Some v, obj) => (Some v, obj)
  | (None, obj) => assoc_remove obj b
  end.

Definition task_id_of (v : option Value) : result TaskError string :=
  match v with
  | None => Err TaskIdMissing
  | Some (JString s) => if str_blank s then Err TaskIdEmpty else Ok s
  | Some (JNumber n) => Ok (number_to_string n)
  | Some _ => Err TaskIdType
  end.

(** [TaskExpr::from_value]. *)
Definition task_from_value (v : Value) : result TaskError TaskExpr :=
  let? obj := ok_or (as_object v) TaskNotObject in
  let '(id_value, obj) := remove_either "id" "task_id" obj in
  let? id := task_id_of id_value in
  let '(op_value, obj) := remove_either "op" "type" obj in
  let op := match op_value ≫= as_str with Some s => s | None => "execute" end in
  let '(meta_value, obj) := assoc_remove obj "meta" in
  let? meta := match meta_value with
               | Some (JObject m) => Ok m
               | Some _ => Err TaskMetaType
               | None => Ok []
               end in
  let '(args_value, obj) := assoc_remove obj "args" in
  let? args := match args_value with
               | Some (JObject m) => Ok m
               | Some _ => Err TaskArgsType
               | None => Ok obj
               end in
  Ok (mkTaskExpr id op args meta).

(** ** Results *)

Inductive ErrorKind := KindExecute | KindInfra | KindCancelled.

Section Results.
Context {F64 : Type}.

Record TaskResult := mkTaskResult {
  tr_task_id : string;
  tr_run_id : option string;
  tr_attempt_id : option string;
  tr_lease_epoch : Z;
  tr_ok : bool;
  tr_cancelled : bool;
  tr_value : option Value;
  tr_metrics : list (string * JsonNumber);
  tr_artifacts : list (string * Value);
  tr_error : option string;
  tr_traceback : option string;
  tr_error_kind : option ErrorKind;
  tr_retryable : bool;
  tr_worker : option string;
  tr_started_at : option F64;
  tr_finished_at : option F64;
  tr_infra_retries : Z;
}.

(** [Value::as_f64]: every number has one. *)
Definition as_number (v : Value) : option JsonNumber :=
  match v with JNumber n => Some n | _ => None end.

Definition result_metadata (value : Value) : list (string * JsonNumber) * list (string * Value) :=
  match as_object value with
  | None => ([], [])
  | Some obj =>
      let metrics :=
        match assoc_get obj "metrics" ≫= as_object with
        | Some items => omap (fun '(name, v) => n ← as_number v; Some (name, n)) items
        | None => []
        end in
      let artifacts :=
        match assoc_get obj "artifacts" ≫= as_object with
        | Some items => items
        | None => []
        end in
      (metrics, artifacts)
  end.

Definition task_success (task_id : string) (value : Value) (worker : string) (started_at now : F64)
  : TaskResult :=
  let '(metrics, artifacts) := result_metadata value in
  mkTaskResult task_id None None 0 true false (Some value) metrics artifacts None None None false
    (Some worker) (Some started_at) (Some now) 0.

Definition failure_with_kind (task_id error : string) (traceback : option string) (worker : string)
    (started_at now : F64) (error_kind : ErrorKind) (retryable : bool) : TaskResult :=
  mkTaskResult task_id None None 0 false false None [] [] (Some error) traceback (Some error_kind)
    retryable (Some worker) (Some started_at) (Some now) 0.

Definition task_failure (task_id error : string) (traceback : option string) (worker : string)
    (started_at now : F64) : TaskResult :=
  failure_with_kind task_id error traceback worker started_at now KindExecute false.

Definition task_cancelled (task_id : string) (now : F64) : TaskResult :=
  mkTaskResult task_id None None 0 false true None [] [] (Some "cancelled") None (Some KindCancelled)
    false None (Some now) (Some now) 0.

(** ** The skip set ([skip.rs]) *)

Inductive SkipOp := SkipInsert (id : string) | SkipRemove (id : string) | SkipContains (id : string).

(** One locked call: the answer and the new set. *)
Definition skip_call (op : SkipOp) (s : gset string) : bool * gset string :=
  match op with
  | SkipInsert id => (bool_decide (id ∉ s), {[id]} ∪ s)
  | SkipRemove id => (bool_decide (id ∈ s), s ∖ {[id]})
  | SkipContains id => (bool_decide (id ∈ s), s)
  end.

Fixpoint skip_calls (ops : list SkipOp) (s : gset string) : list bool * gset string :=
  match ops with
  | [] => ([], s)
  | op :: rest =>
      let '(b, s) := skip_call op s in
      let '(bs, s) := skip_calls rest s in (b :: bs, s)
  end.

(** ** The result cache ([result_cache.rs]) *)

Record ResultCache := mkResultCache {
  rc_map : gmap string TaskResult;
  rc_order : list string;
  rc_cap : nat;
}.

Definition cache_new (cap : nat) : ResultCache := mkResultCache ∅ [] (Nat.max cap 1).

Definition cache_get (c : ResultCache) (task_id : string) : option TaskResult := rc_map c !! task_id.

(** The eviction loop of [put]: oldest first, while the order is full. *)
Fixpoint evict (cap : nat) (m : gmap string TaskResult) (order : list string)
  : gmap string TaskResult * list string :=
  if (cap <=? length order)%nat then
    match order with
    | [] => (m, order)
    | old :: rest => evict cap (delete old m) rest
    end
  else (m, order).

Definition cache_put (c : ResultCache) (task_id : string) (r : TaskResult) : ResultCache :=
  if tr_cancelled r then c
  else match rc_map c !! task_id with
       | Some _ => mkResultCache (<[task_id := r]> (rc_map c)) (rc_order c) (rc_cap c)
       | None =>
           let '(m, order) := evict (rc_cap c) (rc_map c) (rc_order c) in
           mkResultCache (<[task_id := r]> m) (order ++ [task_id]) (rc_cap c)
       end.

(** ** Task identity *)

(** A task is accepted only with a stable identity of its own: the id is
    the [id] field, or [task_id] without one, a string that is not blank or a
    number; it is never made up.  A task that is not an object, has no usable
    id, or has [meta] or [args] of another type is refused. *)
Theorem task_identity v t :
  task_from_value v = Ok t ->
  exists obj, v = JObject obj
    /\ (let id := match assoc_get obj "id" with Some x => Some x | None => assoc_get obj "task_id" end in
        (id = Some (JString (tx_id t)) /\ str_blank (tx_id t) = false)
        \/ exists n, id = Some (JNumber n) /\ tx_id t = number_to_string n).
Proof.
  unfold task_from_value. intros H. apply result_bind_Ok in H as (obj & Hobj & H).
  apply ok_or_Ok in Hobj. destruct v; simplify_eq/=. exists obj. split; [done|].
  unfold remove_either in H at 1.
  pose proof (assoc_remove_spec obj "id") as [Hid _]. destruct (assoc_remove obj "id") as [[v1|] obj1] eqn:E1;
    simpl in Hid; rewrite <- Hid.
  - apply result_bind_Ok in H as (id & Hids & H).
    assert (tx_id t = id) as -> by (clear -H; repeat case_match; inv_result; done).
    unfold task_id_of in Hids. destruct v1; try done; [right; eexists; by simplify_eq|].
    destruct (str_blank s) eqn:Eb; simplify_eq. by left.
  - assert (obj1 = obj) as ->.
    { clear -E1. revert obj1 E1. induction obj as [|[k v] obj IH]; intros obj1 E1; simpl in E1; [by simplify_eq|].
      case_decide; [done|]. destruct (assoc_remove obj "id") as [o r]. simplify_eq. f_equal. by apply IH. }
    pose proof (assoc_remove_spec obj "task_id") as [Hid2 _].
    destruct (assoc_remove obj "task_id") as [v2 obj2]. simpl in Hid2. rewrite <- Hid2.
    apply result_bind_Ok in H as (id & Hids & H).
    assert (tx_id t = id) as -> by (clear -H; repeat case_match; inv_result; done).
    unfold task_id_of in Hids. destruct v2 as [[]|]; try done; [right; eexists; by simplify_eq|].
    destruct (str_blank s) eqn:Eb; simplify_eq. by left.
Qed.

(** ** Claims *)

(** The claims of [id] a run of calls granted, and those it gave back. *)
Fixpoint granted (id : string) (ops : list SkipOp) (answers : list bool) : nat :=
  match ops, answers with
  | SkipInsert i :: ops, true :: answers => (if decide (i = id) then 1 else 0) + granted id ops answers
  | _ :: ops, _ :: answers => granted id ops answers
  | _, _ => 0
  end.
Fixpoint returned (id : string) (ops : list SkipOp) (answers : list bool) : nat :=
  match ops, answers with
  | SkipRemove i :: ops, true :: answers => (if decide (i = id) then 1 else 0) + returned id ops answers
  | _ :: ops, _ :: answers => returned id ops answers
  | _, _ => 0
  end.

Definition held (id : string) (s : gset string) : nat := if decide (id ∈ s) then 1 else 0.

(** A task id is dispatched at most once at a time: over any sequence of
    locked calls from any callers, the claims granted for an id exceed those
    given back by exactly whether the id is in the set, so between two grants
    there is a return, and an id seeded by a resume is never granted before it
    is removed. *)
Theorem skip_claims_once ops s id :
  let '(answers, s') := skip_calls ops s in
  (granted id ops answers + held id s = returned id ops answers + held id s')%nat.
Proof.
  revert s. induction ops as [|op ops IH]; intros s; cbn [skip_calls]; [simpl; lia|].
  destruct (skip_call op s) as [b s1] eqn:E. specialize (IH s1).
  destruct (skip_calls ops s1) as [bs s2].
  assert (granted id (op :: ops) (b :: bs) + held id s + returned id ops bs
          = returned id (op :: ops) (b :: bs) + held id s1 + granted id ops bs)%nat; [|lia].
  unfold held. destruct op as [i|i|i]; simpl in E; simplify_eq; simpl.
  - case_bool_decide; repeat case_decide; simplify_eq; try lia; set_solver.
  - case_bool_decide; repeat case_decide; simplify_eq; try lia; set_solver.
  - lia.
Qed.

(** ** The cache *)

Definition cache_wf (c : ResultCache) : Prop :=
  NoDup (rc_order c) /\ (forall k, is_Some (rc_map c !! k) <-> k ∈ rc_order c)
  /\ (length (rc_order c) <= rc_cap c)%nat /\ (1 <= rc_cap c)%nat
  /\ (forall k r, rc_map c !! k = Some r -> tr_cancelled r = false).

Lemma elem_of_drop {A} n (l : list A) x : x ∈ drop n l -> x ∈ l.
Proof. intros H. eapply elem_of_suffix; [done|apply suffix_drop]. Qed.

Lemma NoDup_drop {A} n (l : list A) : NoDup l -> NoDup (drop n l).
Proof. intros H. eapply sublist_NoDup; [done|apply sublist_drop]. Qed.

Lemma evict_spec cap m order m' order' :
  NoDup order -> (forall k, is_Some (m !! k) <-> k ∈ order) -> (1 <= cap)%nat ->
  evict cap m order = (m', order') ->
  order' = drop (S (length order) - cap) order
  /\ (forall k, is_Some (m' !! k) <-> k ∈ order')
  /\ forall k, k ∈ order' -> m' !! k = m !! k.
Proof.
  revert m. induction order as [|old order IH]; intros m Hnd Hdom Hcap H; simpl in H.
  { destruct (cap <=? 0)%nat; simplify_eq; by rewrite drop_nil. }
  apply list.NoDup_cons in Hnd as [Hold Hnd].
  destruct (Nat.leb_spec cap (S (length order))) as [Hle|Hgt]; simplify_eq.
  - apply IH in H as (-> & Hdom' & Hkeep); [| done | |done].
    + split; [simpl length; replace (S (S (length order)) - cap)%nat with (S (S (length order) - cap)) by lia; done|].
      split; [done|]. intros k Hk. rewrite Hkeep by done. apply lookup_delete_ne. intros <-.
      apply Hold. eapply elem_of_drop, Hk.
    + intros k. destruct (decide (k = old)) as [->|Hne].
      * rewrite lookup_delete_eq. split; [by intros []|done].
      * rewrite lookup_delete_ne by done. rewrite Hdom, elem_of_cons. naive_solver.
  - simpl length. replace (S (S (length order)) - cap)%nat with 0%nat by lia. done.
Qed.

Lemma cache_put_wf c k r : cache_wf c -> cache_wf (cache_put c k r).
Proof.
  intros Hwf. unfold cache_put. destruct (tr_cancelled r) eqn:Er; [done|].
  destruct Hwf as (Hnd & Hdom & Hlen & Hcap & Hnc).
  destruct (rc_map c !! k) as [old|] eqn:Ek.
  - split_and!; simpl; try done.
    + intros k'. destruct (decide (k' = k)) as [->|]; [|by rewrite lookup_insert_ne].
      rewrite lookup_insert_eq, <- Hdom, Ek. naive_solver.
    + intros k' r'. destruct (decide (k' = k)) as [->|]; [rewrite lookup_insert_eq|rewrite lookup_insert_ne by done]; naive_solver.
  - destruct (evict _ _ _) as [m order] eqn:E.
    apply evict_spec in E as (-> & Hdom' & Hkeep); [|done..].
    assert (k ∉ rc_order c) as Hk by (rewrite <- Hdom, Ek; by intros []).
    assert (k ∉ drop (S (length (rc_order c)) - rc_cap c) (rc_order c)) as Hk' by (intros H; apply Hk; by eapply elem_of_drop).
    split_and!; simpl; try done.
    + apply list.NoDup_app. split_and!; [by apply NoDup_drop|set_solver|apply NoDup_singleton].
    + intros k'. rewrite elem_of_app, list_elem_of_singleton.
      destruct (decide (k' = k)) as [->|]; [rewrite lookup_insert_eq|rewrite lookup_insert_ne, Hdom' by done]; naive_solver.
    + rewrite length_app, length_drop. simpl. lia.
    + intros k' r'. destruct (decide (k' = k)) as [->|]; [rewrite lookup_insert_eq|rewrite lookup_insert_ne by done]; [naive_solver|].
      intros Hr'. assert (k' ∈ drop (S (length (rc_order c)) - rc_cap c) (rc_order c)) by (apply Hdom'; eauto).
      rewrite Hkeep in Hr' by done. eauto.
Qed.

Definition cache_puts (puts : list (string * TaskResult)) (c : ResultCache) : ResultCache :=
  fold_left (fun c p => cache_put c (fst p) (snd p)) puts c.

Lemma cache_puts_wf puts c : cache_wf c -> cache_wf (cache_puts puts c).
Proof. revert c. induction puts as [|p puts IH]; intros c Hc; [done|]. simpl. by apply IH, cache_put_wf. Qed.

Lemma cache_puts_cap puts c : rc_cap (cache_puts puts c) = rc_cap c.
Proof.
  revert c. induction puts as [|p puts IH]; intros c; [done|]. simpl. rewrite IH.
  unfold cache_put. repeat case_match; done.
Qed.

(** The idempotency cache is bounded and consistent over any run of puts:
    it never holds more than its capacity, remembers no cancelled result, and
    its insertion order lists exactly the cached ids once each; a new result
    is found right after it is put, and making room drops the oldest entries
    and leaves the others as they are. *)
Theorem result_cache_sound cap puts k r :
  let c := cache_puts puts (cache_new cap) in
  cache_wf c /\ rc_cap c = Nat.max cap 1
  /\ (tr_cancelled r = false ->
      cache_get (cache_put c k r) k = Some r
      /\ forall k', k' <> k ->
           (k' ∈ rc_order (cache_put c k r) -> cache_get (cache_put c k r) k' = cache_get c k')
           /\ (cache_get c k' = None -> cache_get (cache_put c k r) k' = None)).
Proof.
  intros c.
  assert (cache_wf c) as Hwf.
  { apply cache_puts_wf. split_and!; simpl; [constructor| |lia|lia|].
    - intros k'. rewrite lookup_empty, elem_of_nil. split; [by intros []|done].
    - intros k' r'. by rewrite lookup_empty. }
  split; [done|]. split.
  { apply cache_puts_cap. }
  intros Hr. destruct Hwf as (Hnd & Hdom & Hlen & Hcap & Hnc). unfold cache_put, cache_get. rewrite Hr.
  destruct (rc_map c !! k) as [old|] eqn:Ek; simpl.
  - rewrite lookup_insert_eq. split; [done|]. intros k' Hk'. by rewrite lookup_insert_ne.
  - destruct (evict _ _ _) as [m order] eqn:E. apply evict_spec in E as (-> & Hdom' & Hkeep); [|done..].
    simpl. rewrite lookup_insert_eq. split; [done|]. intros k' Hk'. rewrite lookup_insert_ne by done. split.
    + intros [Hin|?%list_elem_of_singleton]%elem_of_app; [by apply Hkeep|done].
    + intros Hnone. apply eq_None_not_Some. intros Hs%Hdom'.
      apply Hkeep in Hs as Heq. apply Hdom' in Hs as [x Hx]. rewrite Hx in Heq. congruence.
Qed.
End Results.

Module TaskExample.
Lemma task_identity_witness :
  task_from_value (JObject [("task_id", JNumber (JInt 7)); ("prompt", JString "hi")])
    = Ok (mkTaskExpr "7" "execute" [("prompt", JString "hi")] [])
  /\ exists obj, JObject [("task_id", JNumber (JInt 7)); ("prompt", JString "hi")] = JObject obj
    /\ (let id := match assoc_get obj "id" with Some x => Some x | None => assoc_get obj "task_id" end in
        (id = Some (JString "7") /\ str_blank "7" = false)
        \/ exists n, id = Some (JNumber n) /\ "7" = number_to_string n).
Proof.
  split; [vm_compute; reflexivity|].
  apply (task_identity _ (mkTaskExpr "7" "execute" [("prompt", JString "hi")] [])). vm_compute. reflexivity.
Defined.

Example cache_evicts_oldest :
  rc_order (cache_puts (map (fun k => (k, task_success k JNull "w" 0%Z 1%Z)) ["a"; "b"; "c"]) (cache_new 2)) = ["b"; "c"].
Proof. vm_compute. reflexivity. Qed.
End TaskExample.
