(* ===== verification/Effects.v ===== *)
(** * Effects that fail and processes that die

    A process changes its durable world by a sequence of effects: control
    calls, file writes, appends.  Before each effect other processes may act;
    the effect may be refused, or take place with its answer lost; and the
    process may die between any two effects.  [M A] is code of that kind: it
    consumes one environment per effect and dies when they run out, so every
    crash point of an execution is the execution on a shorter list. *)

From Stdlib Require Import ZArith.
From stdpp Require Import base list.
From S2P Require Import Prelude.

Inductive Fate := Answered | FailedBefore | AnswerLost.

(** [env_errno] is the number of the error of a call that fails. *)
Record Env (O : Type) := mkEnv { env_now : Z; env_others : list O; env_fate : Fate; env_errno : Z }.
Arguments mkEnv {O}.
Arguments env_now {O}.
Arguments env_others {O}.
Arguments env_fate {O}.
Arguments env_errno {O}.

Section Effects.
Context {W O E : Type}.

Inductive outcome (A : Type) := Crashed | Done (r : result E A) (rest : list (Env O)).
Arguments Crashed {A}.
Arguments Done {A}.

Definition M (A : Type) : Type := list (Env O) -> W -> outcome A * W.

Definition ret {A} (a : A) : M A := fun envs w => (Done (Ok a) envs, w).
Definition throw {A} (e : E) : M A := fun envs w => (Done (Err e) envs, w).

Definition bind {A B} (m : M A) (k : A -> M B) : M B := fun envs w =>
  match m envs w with
  | (Crashed, w') => (Crashed, w')
  | (Done (Err e) rest, w') => (Done (Err e) rest, w')
  | (Done (Ok a) rest, w') => k a rest w'
  end.

(** [match m.await { Ok(..) => .., Err(..) => .. }]. *)
Definition attempt {A} (m : M A) : M (result E A) := fun envs w =>
  match m envs w with
  | (Crashed, w') => (Crashed, w')
  | (Done r rest, w') => (Done (Ok r) rest, w')
  end.

Definition lift {A} (r : result E A) : M A := match r with Ok a => ret a | Err e => throw e end.

(** What only this process sees cannot fail. *)
Definition modify (f : W -> W) : M unit := fun envs w => (Done (Ok tt) envs, f w).
Definition ask {A} (f : W -> A) : M A := fun envs w => (Done (Ok (f w)) envs, w).

Fixpoint for_each {X A} (l : list X) (body : X -> A -> M A) (a : A) : M A :=
  match l with
  | [] => ret a
  | x :: rest => bind (body x a) (for_each rest body)
  end.

Context (other : O -> W -> W) (io_error : Z -> E).

(** One effect, at the time and with the fate its environment says. *)
Definition effect {A} (f : Z -> W -> result E A * W) : M A := fun envs w =>
  match envs with
  | [] => (Crashed, w)
  | e :: rest =>
      let w := fold_left (fun w o => other o w) (env_others e) w in
      match env_fate e with
      | FailedBefore => (Done (Err (io_error (env_errno e))) rest, w)
      | Answered => let '(r, w') := f (env_now e) w in (Done r rest, w')
      | AnswerLost => let '(_, w') := f (env_now e) w in (Done (Err (io_error (env_errno e))) rest, w')
      end
  end.

(** ** Crash triples

    From [P], the code dies only in worlds of [C], fails only in worlds of
    [F], and answers [a] only in worlds of [Q a]. *)
Definition triple {A} (P : W -> Prop) (m : M A) (Q : A -> W -> Prop) (F C : W -> Prop) : Prop :=
  forall envs w, P w ->
  match m envs w with
  | (Crashed, w') => C w'
  | (Done (Err _) _, w') => F w'
  | (Done (Ok a) _, w') => Q a w'
  end.

Lemma triple_ret {A} (P : W -> Prop) (a : A) (Q : A -> W -> Prop) F C :
  (forall w, P w -> Q a w) -> triple P (ret a) Q F C.
Proof. intros H envs w Hw. apply H, Hw. Qed.

Lemma triple_throw {A} (P : W -> Prop) e (Q : A -> W -> Prop) F C :
  (forall w, P w -> F w) -> triple P (throw e) Q F C.
Proof. intros H envs w Hw. apply H, Hw. Qed.

Lemma triple_bind {A B} P (m : M A) (k : A -> M B) R Q F C :
  triple P m R F C -> (forall a, triple (R a) (k a) Q F C) -> triple P (bind m k) Q F C.
Proof.
  intros Hm Hk envs w Hw. unfold bind. specialize (Hm envs w Hw).
  destruct (m envs w) as [[|[a|e] rest] w']; [done|by apply Hk|done].
Qed.

Lemma triple_attempt {A} P (m : M A) Q (F C R : W -> Prop) :
  triple P m (fun a => Q (Ok a)) R C -> (forall w e, R w -> Q (Err e) w) ->
  triple P (attempt m) Q F C.
Proof.
  intros Hm HR envs w Hw. unfold attempt. specialize (Hm envs w Hw).
  destruct (m envs w) as [[|[a|e] rest] w']; [done|done|by apply HR].
Qed.

Lemma triple_modify (P : W -> Prop) f (Q : unit -> W -> Prop) F C :
  (forall w, P w -> Q tt (f w)) -> triple P (modify f) Q F C.
Proof. intros H envs w Hw. apply H, Hw. Qed.

Lemma triple_ask {A} (P : W -> Prop) (f : W -> A) (Q : A -> W -> Prop) F C :
  (forall w, P w -> Q (f w) w) -> triple P (ask f) Q F C.
Proof. intros H envs w Hw. apply H, Hw. Qed.

Lemma triple_pre {A} (P P' : W -> Prop) (m : M A) Q F C :
  (forall w, P w -> P' w) -> triple P' m Q F C -> triple P m Q F C.
Proof. intros HP H envs w Hw. apply H, HP, Hw. Qed.

Lemma triple_post {A} P (m : M A) (Q Q' : A -> W -> Prop) (F F' C C' : W -> Prop) :
  triple P m Q' F' C' ->
  (forall a w, Q' a w -> Q a w) -> (forall w, F' w -> F w) -> (forall w, C' w -> C w) ->
  triple P m Q F C.
Proof.
  intros H HQ HF HC envs w Hw. specialize (H envs w Hw).
  destruct (m envs w) as [[|[a|e] rest] w']; auto.
Qed.

(** A fact that does not depend on the world. *)
Lemma triple_fact {A} (φ : Prop) P (m : M A) Q F C :
  (φ -> triple P m Q F C) -> triple (fun w => φ /\ P w) m Q F C.
Proof. intros H envs w [Hφ Hw]. by apply H. Qed.

Lemma triple_extract {A} (φ : Prop) P (m : M A) Q F C :
  (forall w, P w -> φ) -> (φ -> triple P m Q F C) -> triple P m Q F C.
Proof. intros Hφ H envs w Hw. apply H; eauto. Qed.

Lemma triple_for {X A} (J : list X -> A -> W -> Prop) (body : X -> A -> M A) l a F C :
  (forall x rest a, triple (J (x :: rest) a) (body x a) (J rest) F C) ->
  triple (J l a) (for_each l body a) (J []) F C.
Proof.
  intros H. revert a. induction l as [|x rest IH]; intros a; simpl.
  - by apply triple_ret.
  - eapply triple_bind; [apply H|done].
Qed.

(** An effect in a world that others keep in [P]. *)
Lemma triple_effect {A} (P : W -> Prop) (f : Z -> W -> result E A * W) Q (F C : W -> Prop) :
  (forall o w, P w -> P (other o w)) ->
  (forall w, P w -> F w) -> (forall w, P w -> C w) ->
  (forall now w, P w -> match f now w with (Ok a, w') => Q a w' /\ F w' | (Err _, w') => F w' end) ->
  triple P (effect f) Q F C.
Proof.
  intros Ho HF HC Hf envs w Hw. unfold effect. destruct envs as [|e rest]; [by apply HC|].
  assert (P (fold_left (fun w o => other o w) (env_others e) w)) as Hw'.
  { generalize dependent w. induction (env_others e) as [|o os IH]; intros w Hw; simpl; auto. }
  cbv zeta. specialize (Hf (env_now e) _ Hw').
  destruct (env_fate e); [|by apply HF|]; destruct (f _ _) as [[a|err] w']; tauto.
Qed.
End Effects.
Arguments outcome : clear implicits.
Arguments Crashed {O E A}.
Arguments Done {O E A}.
Arguments M : clear implicits.

Declare Scope effect_scope.
Notation "'let!' x := m 'in' k" := (bind m (fun x => k))
  (at level 10, x pattern, m at level 100, k at level 200) : effect_scope.
Notation "m ;; k" := (bind m (fun _ => k)) (at level 100, k at level 200, right associativity) : effect_scope.
