(* ===== verification/Sink.v ===== *)
(** * pPilot: the result ledger

    Models [persisting-ppilot/src/sink.rs] (append-only ledgers of terminal
    results, one line each, deduplicated by task id) and
    [persisting-ppilot/src/checkpoint.rs] (loading the ledgers to resume a
    job, and the throttled progress file).

    A ledger file is its bytes.  An append opens the file, writes the line,
    writes the line feed and flushes; each byte that reaches the file is an
    effect of its own, so an append that fails or a process that dies leaves any
    part of the line behind, and what is appended next continues that line.  The
    text of a JSON value is the [serde_json] library's, with the law that a
    printed value parses back. *)

From Stdlib Require Import ZArith Lia.
From stdpp Require Import base list strings gmap numbers option.
From S2P Require Import Prelude Json JsonLines Tasks Effects.

#[local] Set Warnings "-clear-no-such-hyp".
Open Scope effect_scope.

(** ** Terminal results as JSON (the derived [Serialize] of [TaskResult]) *)

Definition error_kind_str (k : ErrorKind) : string :=
  match k with KindExecute => "execute" | KindInfra => "infra" | KindCancelled => "cancelled" end.

Section Ledger.
Context {F64 : Type} (f64_value : F64 -> Value) (f64_of_number : JsonNumber -> F64).

Definition task_result_value (r : @TaskResult F64) : Value :=
  JObject
    (field "task_id" (JString (tr_task_id r))
     ++ field_opt "run_id" JString (tr_run_id r)
     ++ field_opt "attempt_id" JString (tr_attempt_id r)
     ++ field_if (negb (tr_lease_epoch r =? 0)%Z) "lease_epoch" (JNumber (JInt (tr_lease_epoch r)))
     ++ field "ok" (JBool (tr_ok r))
     ++ field "cancelled" (JBool (tr_cancelled r))
     ++ field_opt "value" id (tr_value r)
     ++ field_if (match tr_metrics r with [] => false | _ => true end) "metrics"
          (JObject (map (fun '(name, n) => (name, f64_value (f64_of_number n))) (tr_metrics r)))
     ++ field_if (match tr_artifacts r with [] => false | _ => true end) "artifacts"
          (JObject (tr_artifacts r))
     ++ field_opt "error" JString (tr_error r)
     ++ field_opt "traceback" JString (tr_traceback r)
     ++ field_opt "error_kind" (fun k => JString (error_kind_str k)) (tr_error_kind r)
     ++ field_if (tr_retryable r) "retryable" (JBool true)
     ++ field_opt "worker" JString (tr_worker r)
     ++ field_opt "started_at" f64_value (tr_started_at r)
     ++ field_opt "finished_at" f64_value (tr_finished_at r)
     ++ field_if (negb (tr_infra_retries r =? 0)%Z) "infra_retries" (JNumber (JInt (tr_infra_retries r)))).

(** ** Loading a ledger ([checkpoint.rs]) *)

Context {JT : JsonText}.

(** [to_ndjson]. *)
Definition to_ndjson (r : @TaskResult F64) : string := json_text (task_result_value r).

Definition line_task_id (line : string) : option string :=
  let line := str_trim line in
  if bool_decide (line = "") then None
  else v ← json_parse line; json_get v "task_id" ≫= as_str.

(** [BufReader::lines] to the end: a line that is not UTF-8 is an error of the
    whole reading. *)
Definition all_lines (contents : string) : option (list string) := mapM id (read_lines contents).

Definition listed_ids (lines : list string) : gset string := list_to_set (omap line_task_id lines).

Definition load_task_ids (contents : string) : option (gset string) := listed_ids <$> all_lines contents.

Record CheckpointLedger := mkLedger { cl_ready : gset string; cl_failed : gset string }.

(** [CheckpointLedger::load]; a file that is missing reads like an empty one. *)
Definition ledger_load (ready failures : string) : option CheckpointLedger :=
  ready ← load_task_ids ready; failed ← load_task_ids failures; Some (mkLedger ready failed).

Definition skip_ids (l : CheckpointLedger) : gset string := cl_ready l ∪ cl_failed l.

(** [failed_ids_matching]: a row without [error_kind] counts as [execute]. *)
Definition failed_ids_matching (kinds : list string) (failures : string) : option (gset string) :=
  if bool_decide (kinds = []) then Some ∅
  else (fun lines => list_to_set (omap (fun line =>
         v ← json_parse (str_trim line);
         let kind := default "execute" (json_get v "error_kind" ≫= as_str) in
         if bool_decide (kind ∈ kinds) then json_get v "task_id" ≫= as_str else None) lines)) <$> all_lines failures.

(** ** The file sink ([sink.rs]) *)

Record JsonlFileSink := mkSink {
  sk_ready : string;
  sk_failures : string;
  sk_seen_ready : gset string;
  sk_seen_fail : gset string;
}.

Inductive LedgerFile := Ready | Failures.

#[global] Instance LedgerFile_eq_dec : EqDecision LedgerFile.
Proof. solve_decision. Defined.

Definition sk_file (l : LedgerFile) (s : JsonlFileSink) : string :=
  match l with Ready => sk_ready s | Failures => sk_failures s end.
Definition sk_seen (l : LedgerFile) (s : JsonlFileSink) : gset string :=
  match l with Ready => sk_seen_ready s | Failures => sk_seen_fail s end.
Definition set_file (l : LedgerFile) (f : string -> string) (s : JsonlFileSink) : JsonlFileSink :=
  match l with
  | Ready => mkSink (f (sk_ready s)) (sk_failures s) (sk_seen_ready s) (sk_seen_fail s)
  | Failures => mkSink (sk_ready s) (f (sk_failures s)) (sk_seen_ready s) (sk_seen_fail s)
  end.
Definition set_seen (l : LedgerFile) (f : gset string -> gset string) (s : JsonlFileSink) : JsonlFileSink :=
  match l with
  | Ready => mkSink (sk_ready s) (sk_failures s) (f (sk_seen_ready s)) (sk_seen_fail s)
  | Failures => mkSink (sk_ready s) (sk_failures s) (sk_seen_ready s) (f (sk_seen_fail s))
  end.

(** [JsonlFileSink::open]: what was seen is read back from the files; a ledger
    that cannot be read keeps the sink from opening. *)
Definition sink_open (ready failures : string) : option JsonlFileSink :=
  ledger ← ledger_load ready failures; Some (mkSink ready failures (cl_ready ledger) (cl_failed ledger)).

Definition sink_reopen (s : JsonlFileSink) : option JsonlFileSink := sink_open (sk_ready s) (sk_failures s).

(** The sink of a new directory. *)
Definition empty_sink : JsonlFileSink := mkSink "" "" ∅ ∅.

(** The sink as a part of a larger world. *)
Section SinkOperations.
Context {W O E : Type} (other : O -> W -> W) (io_error : E).
Context (on_sink : (JsonlFileSink -> JsonlFileSink) -> W -> W) (the_sink : W -> JsonlFileSink).

(** Bytes at the end of a ledger. *)
Definition add_text (l : LedgerFile) (text : string) : W -> W := on_sink (set_file l (fun c => c +:+ text)).

(** A call that changes no byte of a file: [open], which may create it empty,
    and [flush]. *)
Definition file_call : M W O E unit := effect other (fun _ => io_error) (fun _ w => (Ok tt, w)).

(** [write_all] repeats [write] until everything is taken.  A write takes any
    number of bytes; here it takes one, so that every place where the writing
    can stop is between two effects. *)
Definition write (l : LedgerFile) (a : Ascii.ascii) : M W O E unit :=
  effect other (fun _ => io_error) (fun _ w => (Ok tt, add_text l (String a "") w)).
Fixpoint write_all (l : LedgerFile) (buf : string) : M W O E unit :=
  match buf with
  | EmptyString => ret tt
  | String a buf => write l a ;; write_all l buf
  end.

Definition append_line (l : LedgerFile) (r : @TaskResult F64) : M W O E unit :=
  file_call ;; write_all l (to_ndjson r) ;; write_all l newline ;; file_call.

Definition reserve (l : LedgerFile) (task_id : string) : M W O E bool :=
  let! fresh := ask (fun w => bool_decide (task_id ∉ sk_seen l (the_sink w))) in
  modify (on_sink (set_seen l (union {[task_id]}))) ;; ret fresh.

Definition unreserve (l : LedgerFile) (task_id : string) : M W O E unit :=
  modify (on_sink (set_seen l (fun s => s ∖ {[task_id]}))).

(** [append_ready] and [append_failure]. *)
Definition sink_append (l : LedgerFile) (r : @TaskResult F64) : M W O E unit :=
  let! fresh := reserve l (tr_task_id r) in
  if negb fresh then ret tt
  else
    let! o := attempt (append_line l r) in
    match o with
    | Ok _ => ret tt
    | Err e => unreserve l (tr_task_id r) ;; throw e
    end.

Definition ledger_of (r : @TaskResult F64) : LedgerFile :=
  if tr_ok r && negb (tr_cancelled r) then Ready else Failures.

Definition persist_terminal (r : @TaskResult F64) : M W O E unit := sink_append (ledger_of r) r.

(** [TeeSink]: every sink is tried, the first error is answered. *)
Definition tee_append (sinks : list (@TaskResult F64 -> M W O E unit)) (r : @TaskResult F64) : M W O E unit :=
  let! first_err := for_each sinks (fun sink first_err =>
    let! o := attempt (sink r) in
    ret (match o, first_err with Err e, None => Some e | _, _ => first_err end)) None in
  match first_err with Some e => throw e | None => ret tt end.
End SinkOperations.

(** ** Lines of a ledger *)

(** The file is empty or ends with a line feed. *)
Fixpoint ends_line (c : string) : bool :=
  match c with
  | EmptyString => true
  | String a EmptyString => byte_is 10 a
  | String _ c => ends_line c
  end.

Lemma ends_line_cons a b c : ends_line (String a (String b c)) = ends_line (String b c).
Proof. done. Qed.

Lemma first_line c :
  ends_line c = true -> c <> "" ->
  exists line rest, no_newline line = true /\ c = line +:+ newline +:+ rest /\ ends_line rest = true.
Proof.
  induction c as [|a c IH]; [done|]. intros He _. destruct (byte_is 10 a) eqn:Ha.
  - exists "", c. split; [done|]. split; [|by destruct c].
    unfold byte_is in Ha. apply N.eqb_eq in Ha. rewrite <- (Ascii.ascii_N_embedding a), Ha. done.
  - destruct c as [|b c]; [simpl in He; congruence|].
    rewrite ends_line_cons in He. destruct (IH He ltac:(done)) as (line & rest & Hl & Hc & Hr).
    exists (String a line), rest. rewrite Hc. split; [|done]. unfold no_newline in *. simpl. by rewrite Ha.
Qed.

Lemma read_lines_app c d : ends_line c = true -> read_lines (c +:+ d) = read_lines c ++ read_lines d.
Proof.
  remember (String.length c) as n eqn:Hn. revert c Hn.
  induction (lt_wf n) as [n _ IH]. intros c -> He. destruct (decide (c = "")) as [->|Hne]; [done|].
  destruct (first_line c He Hne) as (line & rest & Hl & -> & Hr).
  rewrite !str_app_assoc, !read_lines_line, (IH (String.length rest)) by (rewrite ?str_length_app; simpl; lia || done).
  done.
Qed.

Lemma ends_line_app c line : ends_line (c +:+ line +:+ newline) = true.
Proof.
  rewrite <- str_app_assoc. induction (c +:+ line) as [|a s IH]; [done|]. by destruct s.
Qed.

Lemma ndjson_line r : checked_line (strip_cr (to_ndjson r)) = Some (to_ndjson r).
Proof.
  unfold to_ndjson, checked_line. by rewrite (proj2 (json_text_one_line _)), json_text_utf8.
Qed.

Lemma read_lines_append c r :
  ends_line c = true -> read_lines (c +:+ to_ndjson r +:+ newline) = read_lines c ++ [Some (to_ndjson r)].
Proof.
  intros He. rewrite read_lines_app by done. rewrite <- (str_app_nil_r (_ +:+ newline)), str_app_assoc.
  rewrite read_lines_line, ndjson_line by apply json_text_one_line. done.
Qed.

Lemma line_task_id_ndjson r : line_task_id (to_ndjson r) = Some (tr_task_id r).
Proof.
  unfold line_task_id, to_ndjson. pose proof (json_text_not_blank (task_result_value r)) as Hb.
  unfold str_blank in Hb. cbv zeta. rewrite Hb, json_text_parse. reflexivity.
Qed.

Lemma listed_ids_app lines r : listed_ids (lines ++ [to_ndjson r]) = {[tr_task_id r]} ∪ listed_ids lines.
Proof.
  unfold listed_ids. rewrite omap_app. simpl. rewrite line_task_id_ndjson.
  rewrite list_to_set_app_L. simpl. set_solver.
Qed.

Lemma elem_of_listed_ids id lines : id ∈ listed_ids lines <-> id ∈ omap line_task_id lines.
Proof. apply elem_of_list_to_set. Qed.

Lemma all_lines_append c lines r :
  ends_line c = true -> all_lines c = Some lines ->
  all_lines (c +:+ to_ndjson r +:+ newline) = Some (lines ++ [to_ndjson r]).
Proof.
  intros He Hc. unfold all_lines in *. rewrite read_lines_append by done.
  apply mapM_Some. apply mapM_Some in Hc. apply Forall2_app; [done|]. by constructor.
Qed.

(** ** One call *)

(** The sink on its own. *)
Definition sink_call (r : @TaskResult F64) : M JsonlFileSink Empty_set unit unit :=
  persist_terminal (fun (o : Empty_set) _ => match o with end) tt (fun f => f) (fun s => s) r.

Lemma nobody_else (others : list Empty_set) (s : JsonlFileSink) :
  fold_left (fun w (o : Empty_set) => match o with end) others s = s.
Proof. by destruct others as [|[] ?]. Qed.

(** What was written is a part of the text from its beginning, all of it when
    the call is answered. *)
Definition wrote {A} (l : LedgerFile) (text : string) (s : JsonlFileSink)
    (res : outcome Empty_set unit A * JsonlFileSink) : Prop :=
  exists added rest, text = added +:+ rest
    /\ snd res = set_file l (fun c => c +:+ added) s
    /\ match fst res with Done (Ok _) _ => rest = "" | _ => True end.

Lemma set_file_nothing l s : s = set_file l (fun c => c +:+ "") s.
Proof. destruct l, s; simpl; by rewrite str_app_nil_r. Qed.

Lemma wrote_nothing {A} l text s (o : outcome Empty_set unit A) :
  match o with Done (Ok _) _ => text = "" | _ => True end -> wrote l text s (o, s).
Proof. intros Ho. exists "", text. split; [done|]. split; [apply set_file_nothing|done]. Qed.

Lemma wrote_bind {A B} l t1 t2 (m : M JsonlFileSink Empty_set unit A) (k : A -> M JsonlFileSink Empty_set unit B) envs s :
  wrote l t1 s (m envs s) -> (forall a envs s, wrote l t2 s (k a envs s)) ->
  wrote l (t1 +:+ t2) s (bind m k envs s).
Proof.
  intros (p & q & -> & Hs & Hok) Hk. unfold bind. destruct (m envs s) as [[|[a|e] rest] s1]; simpl in Hs, Hok; subst s1.
  - exists p, (q +:+ t2). by rewrite str_app_assoc.
  - subst q. destruct (Hk a rest (set_file l (fun c => c +:+ p) s)) as (p2 & q2 & -> & Hs2 & Hok2).
    exists (p +:+ p2), q2. rewrite str_app_nil_r, str_app_assoc. split; [done|]. split; [|done].
    rewrite Hs2. destruct l; simpl; by rewrite str_app_assoc.
  - exists p, (q +:+ t2). by rewrite str_app_assoc.
Qed.

Abbreviation alone f := (f (fun (o : Empty_set) (_ : JsonlFileSink) => match o with end) tt) (only parsing).

Lemma wrote_call l envs s : wrote l "" s (alone file_call envs s).
Proof.
  unfold file_call, effect. destruct envs as [|e rest]; [by apply wrote_nothing|]. cbv zeta.
  rewrite nobody_else. destruct (env_fate e); by apply wrote_nothing.
Qed.

Lemma wrote_byte l a envs s : wrote l (String a "") s (alone write (fun f => f) l a envs s).
Proof.
  unfold write, effect. destruct envs as [|e rest]; [by apply wrote_nothing|]. cbv zeta. rewrite nobody_else.
  destruct (env_fate e); [|by apply wrote_nothing|]; by exists (String a ""), "".
Qed.

Lemma wrote_all l buf envs s : wrote l buf s (alone write_all (fun f => f) l buf envs s).
Proof.
  revert envs s. induction buf as [|a buf IH]; intros envs s; [by apply wrote_nothing|].
  apply (wrote_bind l (String a "") buf); [apply wrote_byte|]. intros ? ? ?. apply IH.
Qed.

Lemma wrote_line l r envs s : wrote l (to_ndjson r +:+ newline) s (alone append_line (fun f => f) l r envs s).
Proof.
  apply (wrote_bind l ""); [apply wrote_call|]. intros _ envs1 s1.
  apply wrote_bind; [apply wrote_all|]. intros _ envs2 s2.
  rewrite <- (str_app_nil_r newline). apply wrote_bind; [apply wrote_all|]. intros _ envs3 s3. apply wrote_call.
Qed.

(** The branches of one call: already listed; appended, refused or dead with
    [added] in the file. *)
Lemma sink_call_cases r envs s o s' :
  sink_call r envs s = (o, s') ->
  let l := ledger_of r in
  let id := tr_task_id r in
  let reserved := set_seen l (union {[id]}) s in
  (id ∈ sk_seen l s /\ o = Done (Ok tt) envs /\ s' = reserved)
  \/ (~ id ∈ sk_seen l s /\ exists added rest,
       to_ndjson r +:+ newline = added +:+ rest
       /\ let written := set_file l (fun c => c +:+ added) reserved in
          match o with
          | Done (Ok _) _ => rest = "" /\ s' = written
          | Done (Err _) _ => s' = set_seen l (fun x => x ∖ {[id]}) written
          | Crashed => s' = written
          end).
Proof.
  cbv zeta. unfold sink_call, persist_terminal, sink_append, reserve, unreserve, bind, ask, modify, ret, throw. intros H.
  destruct (decide (tr_task_id r ∈ sk_seen (ledger_of r) s)) as [Hin|Hin].
  - rewrite (bool_decide_eq_false_2 (tr_task_id r ∉ sk_seen (ledger_of r) s)) in H by tauto. simpl in H.
    left. by simplify_eq.
  - rewrite (bool_decide_eq_true_2 (tr_task_id r ∉ sk_seen (ledger_of r) s)) in H by done. simpl in H.
    right. split; [done|]. unfold attempt in H.
    destruct (wrote_line (ledger_of r) r envs (set_seen (ledger_of r) (union {[tr_task_id r]}) s))
      as (added & rest & Ht & Hs & Ho). exists added, rest. split; [done|].
    destruct (append_line _ _ _ _ _ envs _) as [[|[[]|e] env'] s1]; simpl in Hs, Ho; subst s1; simplify_eq; done.
Qed.

Lemma set_seen_id l f s : f (sk_seen l s) = sk_seen l s -> set_seen l f s = s.
Proof. by destruct l, s; simpl; intros ->. Qed.

Lemma set_seen_undo l id f s :
  ~ id ∈ sk_seen l s ->
  set_seen l (fun x => x ∖ {[id]}) (set_file l f (set_seen l (union {[id]}) s)) = set_file l f s.
Proof. destruct l, s; simpl; intros H; f_equal; set_solver. Qed.

(** ** Histories *)

(** Nothing is left in a file by a call that was not answered well: no append
    was cut short by an error or a death, and none failed after its bytes had
    reached the file. *)
Definition whole (o : outcome Empty_set unit unit) (s s' : JsonlFileSink) : Prop :=
  match o with Done (Ok _) _ => True | _ => forall l, sk_file l s' = sk_file l s end.

(** A result is persisted, or the process dies doing so and the next one
    opens the files. *)
Inductive sink_step : JsonlFileSink -> JsonlFileSink -> Prop :=
| sink_persisted r envs s o rest s' :
    sink_call r envs s = (Done o rest, s') -> whole (Done o rest) s s' -> sink_step s s'
| sink_died r envs s s' s'' :
    sink_call r envs s = (Crashed, s') -> whole Crashed s s' -> sink_reopen s' = Some s'' -> sink_step s s''.

(** The lines of a ledger list no task twice and the sink knows them all. *)
Definition ledger_ok (l : LedgerFile) (s : JsonlFileSink) : Prop :=
  ends_line (sk_file l s) = true
  /\ exists lines, all_lines (sk_file l s) = Some lines
     /\ NoDup (omap line_task_id lines) /\ sk_seen l s = listed_ids lines.

Lemma set_file_same l f s : sk_file l (set_file l f s) = f (sk_file l s).
Proof. by destruct l. Qed.
Lemma set_file_ne l l' f s : l <> l' -> sk_file l (set_file l' f s) = sk_file l s.
Proof. by destruct l, l'. Qed.
Lemma set_file_seen l l' f s : sk_seen l (set_file l' f s) = sk_seen l s.
Proof. by destruct l, l'. Qed.
Lemma set_seen_file l l' f s : sk_file l (set_seen l' f s) = sk_file l s.
Proof. by destruct l, l'. Qed.
Lemma set_seen_same l f s : sk_seen l (set_seen l f s) = f (sk_seen l s).
Proof. by destruct l. Qed.
Lemma set_seen_ne l l' f s : l <> l' -> sk_seen l (set_seen l' f s) = sk_seen l s.
Proof. by destruct l, l'. Qed.

Create Rewrite HintDb sink.
#[local] Hint Rewrite set_file_same set_file_seen set_seen_file set_seen_same : sink.
#[local] Hint Rewrite set_file_ne set_seen_ne using done : sink.

Lemma ledger_ok_append l r s :
  ledger_ok l s -> ~ tr_task_id r ∈ sk_seen l s ->
  ledger_ok l (set_file l (fun c => c +:+ to_ndjson r +:+ newline) (set_seen l (union {[tr_task_id r]}) s)).
Proof.
  intros (He & lines & Hl & Hnd & Hseen) Hnew. unfold ledger_ok. autorewrite with sink.
  split; [apply ends_line_app|]. exists (lines ++ [to_ndjson r]). split; [by apply all_lines_append|].
  rewrite listed_ids_app, omap_app, Hseen. split; [|done]. simpl. rewrite line_task_id_ndjson.
  apply list.NoDup_app. split; [done|]. split; [|apply NoDup_singleton].
  intros id Hid ->%list_elem_of_singleton. apply Hnew. by rewrite Hseen, elem_of_listed_ids.
Qed.

Lemma ledger_ok_file l s s' : sk_file l s' = sk_file l s -> sk_seen l s' = sk_seen l s -> ledger_ok l s -> ledger_ok l s'.
Proof. unfold ledger_ok. by intros -> ->. Qed.

Lemma sink_reopen_ok s s' s'' :
  (forall l, ledger_ok l s) -> (forall l, sk_file l s' = sk_file l s) -> sink_reopen s' = Some s'' ->
  forall l, ledger_ok l s''.
Proof.
  intros Hok Hf Hr l. unfold sink_reopen, sink_open, ledger_load, load_task_ids in Hr.
  pose proof (Hf Ready) as H1. pose proof (Hf Failures) as H2. simpl in H1, H2. rewrite H1, H2 in Hr.
  destruct (Hok Ready) as (He1 & lines1 & Hl1 & Hn1 & _), (Hok Failures) as (He2 & lines2 & Hl2 & Hn2 & _).
  simpl in *. rewrite Hl1, Hl2 in Hr. simpl in Hr. simplify_eq. destruct l; split; simpl; eauto.
Qed.

Lemma sink_call_ok r envs s o s' :
  (forall l, ledger_ok l s) -> sink_call r envs s = (o, s') -> whole o s s' ->
  match o with Done _ _ => forall l, ledger_ok l s' | Crashed => forall l, sk_file l s' = sk_file l s end.
Proof.
  intros Hok Hcall Hw. destruct (sink_call_cases _ _ _ _ _ Hcall) as [(Hin & -> & ->)|(Hnew & added & rest & Ht & Ho)].
  - rewrite set_seen_id by set_solver. done.
  - cbv zeta in Ho. destruct o as [|[[]|e] env']; [by apply Hw| |].
    + destruct Ho as [-> ->]. rewrite str_app_nil_r in Ht. subst added. intros l.
      destruct (decide (l = ledger_of r)) as [->|Hne]; [by apply ledger_ok_append|].
      eapply ledger_ok_file; [..|apply Hok]; by autorewrite with sink.
    + subst s'. intros l. simpl in Hw. specialize (Hw l). rewrite set_seen_undo in * by done.
      eapply ledger_ok_file; [done| |apply Hok]. by autorewrite with sink.
Qed.

Lemma sink_step_ok s s' : sink_step s s' -> (forall l, ledger_ok l s) -> forall l, ledger_ok l s'.
Proof.
  intros [r envs s1 o rest s2 Hcall Hw|r envs s1 s2 s3 Hcall Hw Hre] Hok.
  - exact (sink_call_ok _ _ _ _ _ Hok Hcall Hw).
  - eapply sink_reopen_ok; [exact Hok|exact (sink_call_ok _ _ _ _ _ Hok Hcall Hw)|done].
Qed.

Lemma sink_reachable_ok s s' : rtc sink_step s s' -> (forall l, ledger_ok l s) -> forall l, ledger_ok l s'.
Proof. induction 1; eauto using sink_step_ok. Qed.

Lemma empty_sink_ok l : ledger_ok l empty_sink.
Proof. destruct l; (split; [done|]); exists []; (split; [done|]); (split; [constructor|done]). Qed.

(** C23: what a call does to the ledgers, and when they are exact.  In any state
    and whatever fails, a call adds to the ledger of its kind a beginning of
    the result's line with its line feed, and nothing to the other ledger.
    Answered well, it has added the whole line, or nothing if the sink had seen
    the task, and the sink has seen the task; if the file ended with a line
    feed, the reader finds exactly one line more, the result.  Refused, the
    sink has seen what it had seen before, so the task can be persisted later.
    After a history in which no call that failed or died left bytes in a file
    ([whole]), with every death followed by a new opening of the files, each
    ledger ends with a line feed, can be read, lists no task twice, and the
    sink has seen exactly the tasks listed.  An append that is cut short or
    that fails after its last byte is outside the second part, and the ledger
    is not exact after it ([torn_append_swallows_the_next_result],
    [failed_flush_writes_twice]). *)
Theorem ledger_exact r envs s o s' :
  sink_call r envs s = (o, s') ->
  let l := ledger_of r in
  let fresh := bool_decide (tr_task_id r ∉ sk_seen l s) in
  (exists added rest,
     to_ndjson r +:+ newline = added +:+ rest
     /\ sk_file l s' = sk_file l s +:+ added
     /\ (forall l', l' <> l -> sk_file l' s' = sk_file l' s)
     /\ match o with
        | Done (Ok _) _ =>
            added = (if fresh then to_ndjson r +:+ newline else "")
            /\ tr_task_id r ∈ sk_seen l s'
            /\ (ends_line (sk_file l s) = true ->
                read_lines (sk_file l s') = read_lines (sk_file l s) ++ (if fresh then [Some (to_ndjson r)] else []))
        | Done (Err _) _ => forall l', sk_seen l' s' = sk_seen l' s
        | Crashed => True
        end)
  /\ (rtc sink_step empty_sink s -> forall l', ledger_ok l' s).
Proof.
  intros Hcall. cbv zeta. split; [|intros Hr; eapply sink_reachable_ok; [done|apply empty_sink_ok]].
  destruct (sink_call_cases _ _ _ _ _ Hcall) as [(Hin & -> & ->)|(Hnew & added & rest & Ht & Ho)].
  - exists "", (to_ndjson r +:+ newline). rewrite bool_decide_eq_false_2 by tauto.
    autorewrite with sink. rewrite str_app_nil_r, app_nil_r. split_and!; [done..| |done|set_solver|done].
    intros l' Hne. by autorewrite with sink.
  - exists added, rest. rewrite bool_decide_eq_true_2 by done. cbv zeta in Ho.
    split; [done|]. destruct o as [|[[]|e] env'].
    + subst s'. autorewrite with sink. split_and!; [done| |done]. intros l' Hne. by autorewrite with sink.
    + destruct Ho as [-> ->]. rewrite str_app_nil_r in Ht. subst added. autorewrite with sink.
      split_and!; [done| |done|set_solver|apply read_lines_append]. intros l' Hne. by autorewrite with sink.
    + subst s'. rewrite set_seen_undo by done. autorewrite with sink.
      split_and!; [done|intros l' Hne; by autorewrite with sink|intros l'; by autorewrite with sink].
Qed.

(** What an append makes of a line that was cut short: one line, of the part
    and the new result. *)
Lemma read_lines_glued c part r :
  ends_line c = true -> no_newline part = true ->
  read_lines ((c +:+ part) +:+ to_ndjson r +:+ newline)
  = read_lines c ++ [checked_line (strip_cr (part +:+ to_ndjson r))].
Proof.
  intros He Hp. rewrite str_app_assoc, read_lines_app by done. f_equal.
  rewrite <- str_app_assoc, <- (str_app_nil_r newline), read_lines_line; [done|].
  unfold no_newline in *. rewrite str_forall_app, Hp. apply json_text_one_line.
Qed.

End Ledger.

(** ** The progress file ([checkpoint.rs]) *)

Section Tracker.
Context {F64 : Type}.

Record CheckpointProgress := mkProgress {
  cp_ok : Z; cp_fail : Z; cp_cancelled : Z; cp_skipped : Z; cp_dispatched : Z; cp_updated_at : F64;
}.

Record CheckpointTracker := mkTracker {
  ct_state : CheckpointProgress;
  ct_last_flush : Z;
  ct_flush_every_ms : Z;
  ct_dirty : Z;
}.

(** The clock in milliseconds: a new tracker counts as last flushed two
    seconds ago. *)
Definition tracker_new (zero : F64) (now_ms : Z) : CheckpointTracker :=
  mkTracker (mkProgress 0 0 0 0 0 zero) (now_ms - 2000) 1000 0.

Definition seed_from_ledger (l : CheckpointLedger) (now : F64) (t : CheckpointTracker) : CheckpointTracker :=
  let g := ct_state t in
  mkTracker (mkProgress (Z.of_nat (size (cl_ready l))) (Z.of_nat (size (cl_failed l))) (cp_cancelled g)
               (cp_skipped g) (cp_dispatched g) now)
    (ct_last_flush t) (ct_flush_every_ms t) (ct_dirty t).

Inductive ProgressNote := NoteSkipped (n : Z) | NoteDispatched | NoteTerminal (ok cancelled : bool).

(** [note_skipped], [note_dispatched] and [note_terminal]; [dirty] is an
    atomic counter that wraps. *)
Definition progress_note (note : ProgressNote) (now : F64) (g : CheckpointProgress) : CheckpointProgress :=
  match note with
  | NoteSkipped n =>
      mkProgress (cp_ok g) (cp_fail g) (cp_cancelled g) (u64_saturating_add (cp_skipped g) n)
        (cp_dispatched g) now
  | NoteDispatched =>
      mkProgress (cp_ok g) (cp_fail g) (cp_cancelled g) (cp_skipped g)
        (u64_saturating_add (cp_dispatched g) 1) now
  | NoteTerminal ok cancelled =>
      if cancelled then
        mkProgress (cp_ok g) (cp_fail g) (u64_saturating_add (cp_cancelled g) 1) (cp_skipped g)
          (cp_dispatched g) now
      else if ok then
        mkProgress (u64_saturating_add (cp_ok g) 1) (cp_fail g) (cp_cancelled g) (cp_skipped g)
          (cp_dispatched g) now
      else
        mkProgress (cp_ok g) (u64_saturating_add (cp_fail g) 1) (cp_cancelled g) (cp_skipped g)
          (cp_dispatched g) now
  end.
Definition tracker_note (note : ProgressNote) (now : F64) (t : CheckpointTracker) : CheckpointTracker :=
  mkTracker (progress_note note now (ct_state t)) (ct_last_flush t) (ct_flush_every_ms t)
    ((ct_dirty t + 1) mod (u64_max + 1)).

(** [flush]: [written] says whether both file operations succeeded; the
    snapshot that is now in the file, and the tracker. *)
Definition tracker_flush (written : bool) (now_ms : Z) (t : CheckpointTracker)
  : option CheckpointProgress * CheckpointTracker :=
  if written then
    (Some (ct_state t), mkTracker (ct_state t) now_ms (ct_flush_every_ms t) 0)
  else (None, t).

Definition maybe_flush (written : bool) (now_ms : Z) (t : CheckpointTracker)
  : option CheckpointProgress * CheckpointTracker :=
  if (ct_dirty t =? 0)%Z then (None, t)
  else if (ct_flush_every_ms t <=? now_ms - ct_last_flush t)%Z then tracker_flush written now_ms t
  else (None, t).
End Tracker.

Module SinkExample.
Definition f64_value (_ : unit) : Value := JNull.
Definition f64_of_number (_ : JsonNumber) : unit := tt.
Definition result (id : string) : TaskResult := task_success id (JNumber (JInt 1)) "w0" tt tt.
Definition env (fate : Fate) : Env Empty_set := mkEnv 0 [] fate 5.
Definition line (id : string) : string := to_ndjson f64_value f64_of_number (result id).
Abbreviation call := (sink_call f64_value f64_of_number).

(** [n] effects that are answered; a whole append has three besides its bytes. *)
Definition answered (n : nat) : list (Env Empty_set) := repeat (env Answered) n.
Definition enough (id : string) : list (Env Empty_set) := answered (3 + String.length (line id)).

(** A refused append, then a persisted one. *)
Definition s1 : JsonlFileSink := snd (call (result "a") [env FailedBefore] empty_sink).
Definition s2 : JsonlFileSink := snd (call (result "a") (enough "a") s1).
Definition s3 : JsonlFileSink := snd (call (result "b") (enough "b") s2).

Lemma reach : rtc (sink_step f64_value f64_of_number) empty_sink s2.
Proof.
  eapply rtc_l; [|apply rtc_once].
  - eapply (sink_persisted _ _ (result "a") [env FailedBefore] _ (Err tt) [] s1);
      [vm_compute; reflexivity|by intros []].
  - eapply (sink_persisted _ _ (result "a") (enough "a") _ (Ok tt) [] s2); [vm_compute; reflexivity|done].
Qed.

Lemma ledger_exact_witness :
  read_lines (sk_ready s3) = read_lines (sk_ready s2) ++ [Some (line "b")] /\ ledger_ok Ready s2.
Proof.
  destruct (ledger_exact f64_value f64_of_number (result "b") (enough "b") s2 (Done (Ok tt) []) s3)
    as ((added & rest & H1 & H2 & H3 & H4 & H5 & H6) & H7).
  - vm_compute. reflexivity.
  - split; [|exact (H7 reach Ready)].
    transitivity (read_lines (sk_ready s2)
      ++ (if bool_decide (tr_task_id (result "b") ∉ sk_seen (ledger_of (result "b")) s2) then [Some (line "b")] else []));
      [apply H6; vm_compute; reflexivity|].
    rewrite bool_decide_eq_true_2; [reflexivity|]. apply (bool_decide_eq_true_1 _). vm_compute. reflexivity.
Defined.

(** A process dies with ten bytes of a line in the ledger; the next one
    continues that line, so the result it answers as persisted is not listed. *)
Definition torn : JsonlFileSink := snd (call (result "a") (answered 11) empty_sink).
Theorem torn_append_swallows_the_next_result :
  exists s s', sink_reopen torn = Some s
    /\ call (result "b") (enough "b") s = (Done (Ok tt) [], s')
    /\ load_task_ids (sk_ready s') = Some ∅.
Proof.
  eexists _, _. split; [vm_compute; reflexivity|]. split; vm_compute; reflexivity.
Qed.

(** The flush fails after the line reached the file: the task can be persisted
    again, and is then listed twice. *)
Definition unflushed : list (Env Empty_set) := answered (2 + String.length (line "a")) ++ [env FailedBefore].
Theorem failed_flush_writes_twice :
  exists s s', call (result "a") unflushed empty_sink = (Done (Err tt) [], s)
    /\ call (result "a") (enough "a") s = (Done (Ok tt) [], s')
    /\ ((fun lines : list string => omap line_task_id lines) <$> all_lines (sk_ready s')) = Some ["a"; "a"].
Proof.
  eexists _, _. split; [vm_compute; reflexivity|]. split; vm_compute; reflexivity.
Qed.
End SinkExample.
