(* ===== verification/Coordination.v ===== *)
(** * pPilot: ownership, terminal commit and restart reconciliation

    Models [persisting-ppilot/src/coordination.rs] with the conversion of a
    pVisor result ([run_result_to_task_result] of [executor.rs]).

    The coordinator's world is the Run control state and the attempt registry
    (maps of records changed by one atomic closure at a time, which is what
    every backend offers), the result journal (one file per task, replaced by
    rename), the sink and the coordinator's own memory.  Code runs in the
    monad of [Effects]: other processes act between any two effects, any
    effect may fail or lose its answer, and the process may die anywhere. *)

From Stdlib Require Import ZArith Lia.
From stdpp Require Import base list strings gmap numbers option sorting pretty.
From S2P Require Import Prelude RuntimeTypes Durable RunControl AttemptRegistry MemoryControl Json JsonLines Tasks.
From S2P Require Import Effects Sink.

#[local] Set Warnings "-clear-no-such-hyp".
Open Scope effect_scope.

Definition RESULT_JOURNAL_SCHEMA_VERSION : Z := 1.
Definition MIN_LEASE_TTL_MS : Z := 1000.

Inductive DurableResultStatus := ResultStaged | ResultCommitted | ResultFenced.

#[global] Instance DurableResultStatus_eq_dec : EqDecision DurableResultStatus.
Proof. solve_decision. Defined.

Inductive CoordError :=
| IoFailure | ControlFailed (e : RunControlError)
| NoRunId | NoAttemptId | NoLeaseEpoch | LeaseNotOwned | StaleResult | CommitConflict
| LeaseHeld | RunAlreadyCommitted | UnsupportedSchema | LeaseTtlTooShort
| NoTerminalResult | UndecodableResult | NoLeaseTask.

(** ** What pVisor reports ([agentctl/src/runtime.rs]) *)

Inductive RunFailureKind :=
| InvalidSpec | Unsupported | Spawn | ProcessExit | Workload | DeadlineExceeded | Infrastructure.

Record RunFailure := mkRunFailure { rf_kind : RunFailureKind; rf_message : string; rf_retryable : bool }.

Record ProcessOutput := mkProcessOutput {
  po_stdout : option string; po_stderr : option string;
  po_stdout_truncated : bool; po_stderr_truncated : bool;
}.

Record ArtifactRef := mkArtifactRef {
  ar_name : string; ar_uri : string; ar_media_type : option string; ar_digest : option string;
}.

Section Coordinator.
Context {F64 : Type}.

Record RunResult := mkRunResult {
  rr_run_id : RunId;
  rr_attempt_id : AttemptId;
  rr_lease_epoch : Z;
  rr_state : RunState;
  rr_started_at_unix_ms : Z;
  rr_finished_at_unix_ms : Z;
  rr_exit_code : option Z;
  rr_failure : option RunFailure;
  rr_output : ProcessOutput;
  rr_value : option Value;
  rr_metrics : list (string * F64);
  rr_artifacts : list ArtifactRef;
  rr_event_stream_ref : option string;
  rr_warnings : list string;
}.

Definition set_control (run attempt : string) (epoch : Z) (r : @TaskResult F64) : TaskResult :=
  mkTaskResult (tr_task_id r) (Some run) (Some attempt) epoch (tr_ok r) (tr_cancelled r) (tr_value r)
    (tr_metrics r) (tr_artifacts r) (tr_error r) (tr_traceback r) (tr_error_kind r) (tr_retryable r)
    (tr_worker r) (tr_started_at r) (tr_finished_at r) (tr_infra_retries r).

Definition set_finished_at (t : F64) (r : @TaskResult F64) : TaskResult :=
  mkTaskResult (tr_task_id r) (tr_run_id r) (tr_attempt_id r) (tr_lease_epoch r) (tr_ok r) (tr_cancelled r)
    (tr_value r) (tr_metrics r) (tr_artifacts r) (tr_error r) (tr_traceback r) (tr_error_kind r)
    (tr_retryable r) (tr_worker r) (tr_started_at r) (Some t) (tr_infra_retries r).

(** Milliseconds as seconds, and the decoders [serde] derives. *)
Context (secs : Z -> F64) (f64_value : F64 -> Value) (f64_of_number : JsonNumber -> F64).
Context (parse_task_result : string -> option (@TaskResult F64)).
Context (decode_run_result : Value -> option RunResult).
Context {JT : JsonText}.
(** [sha256_hex]. *)
Context (sha256_hex : string -> string).

Definition run_result_to_task_result (result : RunResult) (task_id worker_id : string)
    (fallback_started now : F64) : TaskResult :=
  let control := set_control (rr_run_id result) (rr_attempt_id result) (rr_lease_epoch result) in
  match stdout ← po_stdout (rr_output result); parse_task_result (str_trim stdout) with
  | Some task => control task
  | None =>
      let started_at := if (rr_started_at_unix_ms result =? 0)%Z then fallback_started
                        else secs (rr_started_at_unix_ms result) in
      control
        (match rr_state result with
         | Completed =>
             set_finished_at (secs (rr_finished_at_unix_ms result))
               (task_success task_id (default JNull (rr_value result)) worker_id started_at now)
         | Cancelled => task_cancelled task_id now
         | _ =>
             let failure := default (mkRunFailure Infrastructure
                              "pVisor Run failed without a failure record" true) (rr_failure result) in
             failure_with_kind task_id (rf_message failure) (po_stderr (rr_output result)) worker_id
               started_at now
               (match rf_kind failure with Infrastructure | Spawn => KindInfra | _ => KindExecute end)
               (rf_retryable failure)
         end)
  end.

(** ** The world *)

Record DurableResultRecord := mkDurable {
  dr_schema_version : Z;
  dr_task_id : string;
  dr_run_id : RunId;
  dr_attempt_id : AttemptId;
  dr_lease_epoch : Z;
  dr_result_digest : string;
  dr_result : @TaskResult F64;
  dr_status : DurableResultStatus;
  dr_sink_persisted : bool;
}.

Definition set_status (s : DurableResultStatus) (r : DurableResultRecord) : DurableResultRecord :=
  mkDurable (dr_schema_version r) (dr_task_id r) (dr_run_id r) (dr_attempt_id r) (dr_lease_epoch r)
    (dr_result_digest r) (dr_result r) s (dr_sink_persisted r).
Definition set_persisted (r : DurableResultRecord) : DurableResultRecord :=
  mkDurable (dr_schema_version r) (dr_task_id r) (dr_run_id r) (dr_attempt_id r) (dr_lease_epoch r)
    (dr_result_digest r) (dr_result r) (dr_status r) true.

Record World := mkWorld {
  wd_runs : gmap string RunControlRecord;
  wd_attempts : gmap string (AttemptRecord Value);
  wd_journal : gmap string DurableResultRecord;
  wd_sink : JsonlFileSink;
  (* of this process: *)
  wd_orphaned : gset string;
  wd_heartbeats : gmap string nat;
  wd_stopped : gset nat;
}.

Definition set_runs (f : gmap string RunControlRecord -> gmap string RunControlRecord) (w : World) : World :=
  mkWorld (f (wd_runs w)) (wd_attempts w) (wd_journal w) (wd_sink w) (wd_orphaned w) (wd_heartbeats w)
    (wd_stopped w).
Definition set_attempts (f : gmap string (AttemptRecord Value) -> gmap string (AttemptRecord Value)) (w : World) : World :=
  mkWorld (wd_runs w) (f (wd_attempts w)) (wd_journal w) (wd_sink w) (wd_orphaned w) (wd_heartbeats w)
    (wd_stopped w).
Definition set_journal (f : gmap string DurableResultRecord -> gmap string DurableResultRecord) (w : World)
  : World :=
  mkWorld (wd_runs w) (wd_attempts w) (f (wd_journal w)) (wd_sink w) (wd_orphaned w) (wd_heartbeats w)
    (wd_stopped w).
Definition set_sink (f : JsonlFileSink -> JsonlFileSink) (w : World) : World :=
  mkWorld (wd_runs w) (wd_attempts w) (wd_journal w) (f (wd_sink w)) (wd_orphaned w) (wd_heartbeats w)
    (wd_stopped w).
Definition set_process (orphaned : gset string) (heartbeats : gmap string nat) (stopped : gset nat) (w : World)
  : World :=
  mkWorld (wd_runs w) (wd_attempts w) (wd_journal w) (wd_sink w) orphaned heartbeats stopped.

(** ** What other processes do *)

Inductive Other := OtherRun (op : RunOp) (now : Z) | OtherAttempt (op : AttemptOp Value) (now : Z).

(** One atomic registry call, as on every backend. *)
Definition attempt_map_call (op : AttemptOp Value) (now : Z) (attempts : gmap string (AttemptRecord Value))
  : gmap string (AttemptRecord Value) :=
  match (let? _ := attempt_guard op in attempt_mutate op now (attempts !! aop_run op)) with
  | Ok (Replace r _) => <[aop_run op := r]> attempts
  | _ => attempts
  end.

Definition other (o : Other) (w : World) : World :=
  match o with
  | OtherRun op now =>
      match atomic_map_call op (now, now) (wd_runs w) with
      | Ok (_, runs) => set_runs (fun _ => runs) w
      | Err _ => w
      end
  | OtherAttempt op now => set_attempts (attempt_map_call op now) w
  end.

(** ** Effects of the coordinator *)

Definition Co (A : Type) : Type := M World Other CoordError A.

Definition io {A} (f : Z -> World -> result CoordError A * World) : Co A := effect other (fun _ => IoFailure) f.

(** A control call: [op] with the time it is made at. *)
Definition control (op : Z -> RunOp) : Co RunOut :=
  io (fun now w =>
        match atomic_map_call (op now) (now, now) (wd_runs w) with
        | Ok (o, runs) => (Ok o, set_runs (fun _ => runs) w)
        | Err e => (Err (ControlFailed e), w)
        end).

Definition bind_attempt (run_id : RunId) (epoch : Z) (attempt_id : AttemptId) : Co bool :=
  let! o := control (fun _ => OpBind run_id epoch attempt_id) in
  ret (match o with OutBool b => b | _ => false end).

Definition task_result_digest (r : @TaskResult F64) : string :=
  "sha256:" +:+ sha256_hex (json_text (task_result_value f64_value f64_of_number r)).

(** The file a task's result is journalled in. *)
Definition journal_path (task_id : string) : string := sha256_hex task_id +:+ ".json".

(** [write_record]: a temporary file is renamed over the record's. *)
Definition write_record (record : DurableResultRecord) : Co unit :=
  io (fun _ w => (Ok tt, set_journal (<[journal_path (dr_task_id record) := record]>) w)).

(** [read_records]: the directory's records, in no particular order. *)
Definition read_records : Co (list DurableResultRecord) :=
  io (fun _ w => (Ok (map snd (map_to_list (wd_journal w))), w)).

Definition list_runs : Co (list RunControlRecord) :=
  io (fun _ w => (Ok (merge_sort run_id_le (map snd (map_to_list (wd_runs w)))), w)).

Definition note_orphaned (run_id : RunId) : Co unit :=
  modify (fun w => set_process ({[run_id]} ∪ wd_orphaned w) (wd_heartbeats w) (wd_stopped w) w).

(** The registered heartbeat of a Run is cancelled and forgotten. *)
Definition stop_lease_heartbeat (run_id : RunId) : Co unit :=
  modify (fun w =>
    match wd_heartbeats w !! run_id with
    | Some token => set_process (wd_orphaned w) (delete run_id (wd_heartbeats w)) ({[token]} ∪ wd_stopped w) w
    | None => w
    end).

Definition persist (r : @TaskResult F64) : Co unit :=
  persist_terminal f64_value f64_of_number other IoFailure set_sink wd_sink r.

(** ** Coordinators *)

Record RunCoordinator := mkCoordinator {
  co_lease_ttl_ms : Z;
  co_owner_id : string;
  co_run_id_prefix : option string;
}.

(** [open_with_control]. *)
Definition open_with_control (owner_id : string) (lease_ttl_ms : Z) (run_id_prefix : option string)
  : result CoordError RunCoordinator :=
  ensure! (MIN_LEASE_TTL_MS <=? lease_ttl_ms)%Z else LeaseTtlTooShort in
  Ok (mkCoordinator lease_ttl_ms owner_id run_id_prefix).

Definition acquire_lease (c : RunCoordinator) (run_id : RunId) (task_id owner : string) : Co Z :=
  let! force := ask (fun w => bool_decide (run_id ∈ wd_orphaned w)) in
  modify (fun w => set_process (wd_orphaned w ∖ {[run_id]}) (wd_heartbeats w) (wd_stopped w) w) ;;
  let! o := control (fun now => OpAcquire run_id (Some task_id) owner (co_lease_ttl_ms c) force now) in
  match o with
  | OutLease (Acquired lease) => ret (lease_epoch lease)
  | OutLease (Held _) => throw LeaseHeld
  | OutLease (LeaseAlreadyCommitted _) => throw RunAlreadyCommitted
  | _ => throw IoFailure
  end.

(** ** Finalizing a result *)

Definition task_result_state (r : @TaskResult F64) : RunState :=
  if tr_ok r && negb (tr_cancelled r) then Completed
  else if tr_cancelled r then Cancelled
  else Failed.

Definition stage_result (r : @TaskResult F64) : Co DurableResultRecord :=
  let! run_id := lift (ok_or (tr_run_id r) NoRunId) in
  let! attempt_id := lift (ok_or (tr_attempt_id r) NoAttemptId) in
  if (tr_lease_epoch r =? 0)%Z then throw NoLeaseEpoch
  else
    let record := mkDurable RESULT_JOURNAL_SCHEMA_VERSION (tr_task_id r) run_id attempt_id (tr_lease_epoch r)
                    (task_result_digest r) r ResultStaged false in
    write_record record ;; ret record.

(** The request that commits a journalled result. *)
Definition commit_request_of (record : DurableResultRecord) : RunCommitRequest :=
  mkRunCommitRequest (dr_run_id record) (Some (dr_task_id record)) (dr_attempt_id record)
    (dr_lease_epoch record) (task_result_state (dr_result record)) None (dr_result_digest record).

(** [commit_record]: the record as it is left on success; on failure only its
    status may have changed. *)
Definition commit_record (record : DurableResultRecord) : Co DurableResultRecord :=
  let! bound := bind_attempt (dr_run_id record) (dr_lease_epoch record) (dr_attempt_id record) in
  if negb bound then write_record (set_status ResultFenced record) ;; throw LeaseNotOwned
  else
    let! outcome := control (fun _ => OpCommit (commit_request_of record)) in
    match outcome with
    | OutCommit (Committed _) | OutCommit (AlreadyCommitted _) =>
        let record := set_status ResultCommitted record in write_record record ;; ret record
    | OutCommit (StaleLease _ _) => write_record (set_status ResultFenced record) ;; throw StaleResult
    | OutCommit (Conflict _) => write_record (set_status ResultFenced record) ;; throw CommitConflict
    | _ => throw IoFailure
    end.

Definition finalize_result (r : @TaskResult F64) : Co unit :=
  let! outcome := attempt (
    let! record := stage_result r in
    let! record := commit_record record in
    persist (dr_result record) ;;
    write_record (set_persisted record)) in
  match tr_run_id r with
  | Some run_id => stop_lease_heartbeat run_id
  | None => ret tt
  end ;;
  lift outcome.

(** ** Reconciliation *)

Inductive AttemptObservation :=
| ObsAbsent
| ObsActive (attempt_id : AttemptId) (lease_epoch : Z)
| ObsTerminal (r : @TaskResult F64)
| ObsPending.

(** The trait [AttemptObserver]. *)
Record AttemptObserver := mkObserver {
  observe : RunLeaseRecord -> Co AttemptObservation;
  cancel_stale : RunId -> AttemptId -> Co unit;
}.

(** [ProcessLocalAttemptObserver]: no attempt survives the process. *)
Definition process_local_observer : AttemptObserver :=
  mkObserver (fun _ => ret ObsAbsent) (fun _ _ => ret tt).

(** [DurableAttemptObserver]: what the attempt registry says. *)
Definition durable_observe (lease : RunLeaseRecord) : Co AttemptObservation :=
  let! found := io (fun now w => (Ok (wd_attempts w !! lease_run_id lease, now), w)) in
  let '(found, now) := found in
  match found with
  | None => ret (if (now <? lease_expires_at_unix_ms lease)%Z then ObsPending else ObsAbsent)
  | Some record =>
      if negb (att_lease_epoch record =? lease_epoch lease)%Z then ret ObsAbsent
      else match att_state record with
           | Active =>
               ret (if is_live_at record now
                    then ObsActive (att_attempt_id record) (att_lease_epoch record)
                    else ObsAbsent)
           | Terminal =>
               let! value := lift (ok_or (terminal_result record) NoTerminalResult) in
               let! result := lift (ok_or (decode_run_result value) UndecodableResult) in
               let! task_id := lift (ok_or (lease_task_id lease) NoLeaseTask) in
               ret (ObsTerminal (run_result_to_task_result result task_id "recovered" (secs now) (secs now)))
           end
  end.

Definition durable_observer : AttemptObserver := mkObserver durable_observe (fun _ _ => ret tt).

Record ReconcileReport := mkReport {
  rp_committed : gset string;
  rp_retry : gset string;
  rp_deferred : gset string;
  rp_recovered_commits : nat;
  rp_recovered_sink_appends : nat;
  rp_fenced_results : nat;
  rp_active_attempts : nat;
  rp_stale_cancelled : nat;
}.

Definition report_default : ReconcileReport := mkReport ∅ ∅ ∅ 0 0 0 0 0.

Definition add_committed (t : string) (r : ReconcileReport) : ReconcileReport :=
  mkReport ({[t]} ∪ rp_committed r) (rp_retry r) (rp_deferred r) (rp_recovered_commits r)
    (rp_recovered_sink_appends r) (rp_fenced_results r) (rp_active_attempts r) (rp_stale_cancelled r).
Definition add_retry (t : string) (r : ReconcileReport) : ReconcileReport :=
  mkReport (rp_committed r) ({[t]} ∪ rp_retry r) (rp_deferred r) (rp_recovered_commits r)
    (rp_recovered_sink_appends r) (rp_fenced_results r) (rp_active_attempts r) (rp_stale_cancelled r).
Definition add_deferred (t : string) (r : ReconcileReport) : ReconcileReport :=
  mkReport (rp_committed r) (rp_retry r) ({[t]} ∪ rp_deferred r) (rp_recovered_commits r)
    (rp_recovered_sink_appends r) (rp_fenced_results r) (rp_active_attempts r) (rp_stale_cancelled r).
Definition count (commits appends fenced active stale : nat) (r : ReconcileReport) : ReconcileReport :=
  mkReport (rp_committed r) (rp_retry r) (rp_deferred r) (commits + rp_recovered_commits r)
    (appends + rp_recovered_sink_appends r) (fenced + rp_fenced_results r) (active + rp_active_attempts r)
    (stale + rp_stale_cancelled r).

(** The Runs of this coordinator's job. *)
Definition in_scope (c : RunCoordinator) (run_id : RunId) : bool :=
  match co_run_id_prefix c with Some prefix => str_starts_with prefix run_id | None => true end.

(** One journalled result. *)
Definition reconcile_record (c : RunCoordinator) (record : DurableResultRecord) (report : ReconcileReport)
  : Co ReconcileReport :=
  if negb (in_scope c (dr_run_id record)) then ret report
  else if negb (dr_schema_version record =? RESULT_JOURNAL_SCHEMA_VERSION)%Z then throw UnsupportedSchema
  else
    let committed record report :=
      let report := add_committed (dr_task_id record) report in
      if dr_sink_persisted record then ret report
      else
        persist (dr_result record) ;;
        write_record (set_persisted record) ;;
        ret (count 0 1 0 0 0 report) in
    match dr_status record with
    | ResultStaged =>
        let! o := attempt (commit_record record) in
        match o with
        | Ok record => committed record (count 1 0 0 0 0 report)
        | Err _ =>
            write_record (set_status ResultFenced record) ;;
            note_orphaned (dr_run_id record) ;;
            ret (add_retry (dr_task_id record) (count 0 0 1 0 0 report))
        end
    | ResultFenced =>
        note_orphaned (dr_run_id record) ;;
        ret (add_retry (dr_task_id record) (count 0 0 1 0 0 report))
    | ResultCommitted => committed record report
    end.

(** One Run of the control state. *)
Definition reconcile_run (c : RunCoordinator) (observer : AttemptObserver) (run : RunControlRecord)
    (report : ReconcileReport) : Co ReconcileReport :=
  if negb (in_scope c (rec_run_id run)) then ret report
  else match rec_commit run with
       | Some commit =>
           ret (match req_task_id (commit_request commit) with
                | Some task_id => add_committed task_id report
                | None => report
                end)
       | None =>
           match rec_lease run with
           | None => ret report
           | Some lease =>
               match lease_task_id lease with
               | None => ret report
               | Some task_id =>
                   if bool_decide (task_id ∈ rp_committed report) then ret report
                   else
                     let! seen := observe observer lease in
                     match seen with
                     | ObsAbsent => note_orphaned (lease_run_id lease) ;; ret (add_retry task_id report)
                     | ObsPending => ret (add_deferred task_id (count 0 0 0 1 0 report))
                     | ObsActive attempt_id epoch =>
                         if (epoch =? lease_epoch lease)%Z then
                           let! _ := bind_attempt (lease_run_id lease) (lease_epoch lease) attempt_id in
                           ret (add_deferred task_id (count 0 0 0 1 0 report))
                         else
                           cancel_stale observer (lease_run_id lease) attempt_id ;;
                           note_orphaned (lease_run_id lease) ;;
                           ret (add_retry task_id (count 0 0 0 0 1 report))
                     | ObsTerminal r =>
                         finalize_result r ;;
                         ret (add_committed task_id (count 1 1 0 0 0 report))
                     end
               end
           end
       end.

Definition reconcile (c : RunCoordinator) (observer : AttemptObserver) : Co ReconcileReport :=
  let! records := read_records in
  let! report := for_each records (reconcile_record c) report_default in
  let! runs := list_runs in
  let! report := for_each runs (reconcile_run c observer) report in
  ret (mkReport (rp_committed report) (rp_retry report ∖ rp_committed report) (rp_deferred report)
         (rp_recovered_commits report) (rp_recovered_sink_appends report) (rp_fenced_results report)
         (rp_active_attempts report) (rp_stale_cancelled report)).

(** A new process on the same disk and the same control plane; none when the
    sink's files cannot be read. *)
Definition restart (w : World) : option World :=
  (fun sink => set_process ∅ ∅ ∅ (set_sink (fun _ => sink) w)) <$> sink_reopen (wd_sink w).

(** ** Committed Runs stay as they are *)

Definition runs_extend (runs runs' : gmap string RunControlRecord) : Prop :=
  forall run r c, runs !! run = Some r -> rec_commit r = Some c -> runs' !! run = Some r.

#[local] Instance runs_extend_preorder : PreOrder runs_extend.
Proof. split; unfold runs_extend; intros ?; eauto. Qed.

Lemma map_call_extends op k runs o runs' :
  atomic_map_call op k runs = Ok (o, runs') -> runs_extend runs runs'.
Proof.
  unfold atomic_map_call. intros H run r c Hr Hc. apply result_bind_Ok in H as (? & _ & H).
  apply result_bind_Ok in H as (m & Hm & H).
  destruct (decide (run = op_run op)) as [->|Hne].
  - destruct (committed_unchanged op k (runs !! op_run op) c) as (o' & Hu & _).
    { rewrite Hr. done. }
    rewrite Hu in Hm. simplify_eq. done.
  - destruct m; simplify_eq; [done|]. by rewrite lookup_insert_ne.
Qed.

Lemma map_commit_wins req k runs o runs' :
  atomic_map_call (OpCommit req) k runs = Ok (o, runs') ->
  (exists x, o = OutCommit (Committed x) \/ o = OutCommit (AlreadyCommitted x)) ->
  exists r c, runs' !! req_run_id req = Some r /\ rec_commit r = Some c /\ commit_request c = req.
Proof.
  unfold atomic_map_call. intros H [x Ho]. apply result_bind_Ok in H as (? & _ & H).
  apply result_bind_Ok in H as (m & Hm & H). simpl in Hm. apply result_bind_Ok in Hm as (m' & Hm & [= <-]).
  unfold commit_mutation in Hm. simpl in H.
  destruct (current_commit (runs !! req_run_id req)) as [c|] eqn:Hc.
  - destruct (runs !! req_run_id req) as [r|] eqn:Hr; [|done]. simpl in Hc.
    case_bool_decide; simplify_eq/=; destruct Ho; simplify_eq. eauto.
  - destruct (lease_matches _ _ _); simplify_eq/=; [|by destruct Ho].
    apply result_bind_Ok in Hm as (r & Hr & [= <-]). simplify_eq/=.
    apply next_record_inv in Hr as (_ & _ & ->).
    eexists _, _. split; [apply lookup_insert_eq|]. by split.
Qed.

(** ** The sink holds only winners *)

(** [r] is the result its Run was committed with. *)
Definition result_won (runs : gmap string RunControlRecord) (r : @TaskResult F64) : Prop :=
  exists run attempt rec c,
    tr_run_id r = Some run /\ tr_attempt_id r = Some attempt
    /\ runs !! run = Some rec /\ rec_commit rec = Some c
    /\ commit_request c
       = mkRunCommitRequest run (Some (tr_task_id r)) attempt (tr_lease_epoch r) (task_result_state r) None
           (task_result_digest r).

Definition record_ok (record : DurableResultRecord) : Prop :=
  tr_run_id (dr_result record) = Some (dr_run_id record)
  /\ tr_attempt_id (dr_result record) = Some (dr_attempt_id record)
  /\ tr_lease_epoch (dr_result record) = dr_lease_epoch record
  /\ tr_task_id (dr_result record) = dr_task_id record
  /\ dr_result_digest record = task_result_digest (dr_result record).

(** A part of the line of a result, from its beginning. *)
Definition part_of (l : LedgerFile) (runs : gmap string RunControlRecord) (piece : @TaskResult F64 * string) : Prop :=
  ledger_of piece.1 = l /\ result_won runs piece.1 /\ piece.2 <> ""
  /\ exists rest, to_ndjson f64_value f64_of_number piece.1 +:+ newline = piece.2 +:+ rest.

Definition str_concat (texts : list string) : string := foldr String.append "" texts.

(** The bytes of a ledger, one piece for each append that reached it. *)
Definition of_winners (l : LedgerFile) (runs : gmap string RunControlRecord) (contents : string) : Prop :=
  exists pieces, contents = str_concat pieces.*2 /\ Forall (part_of l runs) pieces.

Record co_inv (w : World) : Prop := {
  inv_path : forall p record, wd_journal w !! p = Some record -> p = journal_path (dr_task_id record);
  inv_record : forall p record, wd_journal w !! p = Some record -> record_ok record;
  inv_committed : forall p record, wd_journal w !! p = Some record ->
    dr_status record = ResultCommitted -> result_won (wd_runs w) (dr_result record);
  inv_sink : forall l, of_winners l (wd_runs w) (sk_file l (wd_sink w));
}.

Lemma result_won_extends runs runs' r : runs_extend runs runs' -> result_won runs r -> result_won runs' r.
Proof.
  intros Hext (run & attempt & rec & c & H1 & H2 & H3 & H4 & H5).
  exists run, attempt, rec, c. split_and!; eauto.
Qed.

Lemma of_winners_extends l runs runs' contents :
  runs_extend runs runs' -> of_winners l runs contents -> of_winners l runs' contents.
Proof.
  intros Hext (pieces & Hc & Hp). exists pieces. split; [done|]. eapply Forall_impl; [exact Hp|].
  intros piece (? & ? & ? & ?). split_and!; eauto using result_won_extends.
Qed.

Lemma str_concat_app l1 l2 : str_concat (l1 ++ l2) = str_concat l1 +:+ str_concat l2.
Proof. induction l1 as [|a l1 IH]; [done|]. simpl. by rewrite IH, str_app_assoc. Qed.

Lemma of_winners_add l runs contents r text rest :
  of_winners l runs contents -> ledger_of r = l -> result_won runs r ->
  to_ndjson f64_value f64_of_number r +:+ newline = text +:+ rest -> of_winners l runs (contents +:+ text).
Proof.
  intros (pieces & -> & Hp) Hl Hwon Ht. destruct (decide (text = "")) as [->|Hne].
  { rewrite str_app_nil_r. by exists pieces. }
  exists (pieces ++ [(r, text)]). rewrite fmap_app, str_concat_app. simpl. rewrite str_app_nil_r. split; [done|].
  apply Forall_app. split; [done|]. constructor; [|constructor]. split_and!; simpl; eauto.
Qed.

(** Whole appends are whole lines. *)
Lemma whole_pieces_lines (pieces : list (@TaskResult F64 * string)) :
  Forall (fun piece => piece.2 = to_ndjson f64_value f64_of_number piece.1 +:+ newline) pieces ->
  read_lines (str_concat pieces.*2) = (fun piece => Some (to_ndjson f64_value f64_of_number piece.1)) <$> pieces.
Proof.
  induction 1 as [|[r text] pieces Ht _ IH]; [done|]. cbn [fst snd] in Ht. subst text. rewrite !fmap_cons, <- IH.
  cbn [fst snd str_concat foldr]. rewrite str_app_assoc, read_lines_line, ndjson_line by apply json_text_one_line.
  done.
Qed.

Lemma set_runs_inv runs w : runs_extend (wd_runs w) runs -> co_inv w -> co_inv (set_runs (fun _ => runs) w).
Proof.
  intros Hext [H1 H2 H3 H4]. split; simpl; eauto using result_won_extends, of_winners_extends.
Qed.

Lemma other_extends o w : runs_extend (wd_runs w) (wd_runs (other o w)).
Proof.
  destruct o as [op now|op now]; simpl; [|done].
  destruct (atomic_map_call _ _ _) as [[? ?]|?] eqn:E; [by eapply map_call_extends|done].
Qed.

Lemma other_inv o w : co_inv w -> co_inv (other o w).
Proof.
  intros Hw. destruct o as [op now|op now]; simpl; [|by destruct Hw].
  destruct (atomic_map_call _ _ _) as [[? ?]|?] eqn:E; [|done].
  apply set_runs_inv; [by eapply map_call_extends|done].
Qed.

Lemma write_inv record w :
  record_ok record -> (dr_status record = ResultCommitted -> result_won (wd_runs w) (dr_result record)) ->
  co_inv w -> co_inv (set_journal (<[journal_path (dr_task_id record) := record]>) w).
Proof.
  intros Hok Hwon [H1 H2 H3 H4]. split; simpl; [| | |done]; intros p rec';
    (destruct (decide (p = journal_path (dr_task_id record))) as [->|Hne];
     [rewrite lookup_insert_eq; intros [= <-]|rewrite lookup_insert_ne by done]); eauto.
Qed.

(** ** Crash triples of the coordinator

    [Fr] is what a caller knows besides the invariant: facts on committed Runs
    and on the journal ([stable]), which a write to the file at [p] keeps if
    they are about the other files ([frame p]). *)
Definition stable (Fr : World -> Prop) : Prop :=
  forall w w', Fr w -> wd_journal w' = wd_journal w -> runs_extend (wd_runs w) (wd_runs w') -> Fr w'.
Definition frame (p : string) (Fr : World -> Prop) : Prop :=
  forall w w', Fr w -> delete p (wd_journal w') = delete p (wd_journal w) ->
    runs_extend (wd_runs w) (wd_runs w') -> Fr w'.

Lemma frame_stable p Fr : frame p Fr -> stable Fr.
Proof. intros HFr w w' Hf Hj Hext. eapply HFr; [done|by rewrite Hj|done]. Qed.

Definition inv_with (Fr : World -> Prop) (w : World) : Prop := co_inv w /\ Fr w.

Section Triples.
Context (Fr : World -> Prop) (HFr : stable Fr).

Lemma inv_with_other o w : inv_with Fr w -> inv_with Fr (other o w).
Proof.
  intros [Hi Hf]. split; [by apply other_inv|]. eapply HFr; [done| |apply other_extends].
  destruct o; simpl; [|done]. by destruct (atomic_map_call _ _ _) as [[? ?]|].
Qed.

Lemma io_triple {A} (f : Z -> World -> result CoordError A * World) Q :
  (forall now w, inv_with Fr w ->
     match f now w with (Ok a, w') => Q a w' /\ inv_with Fr w' | (Err _, w') => inv_with Fr w' end) ->
  triple (inv_with Fr) (io f) (fun a w => Q a w /\ inv_with Fr w) (inv_with Fr) co_inv.
Proof.
  intros Hf. apply triple_effect; [apply inv_with_other|done|by intros w []|].
  intros now w Hw. specialize (Hf now w Hw). destruct (f now w) as [[a|e] w']; tauto.
Qed.

Lemma control_triple op :
  triple (inv_with Fr) (control op)
    (fun o w => (forall req, (forall now, op now = OpCommit req) ->
       (exists x, o = OutCommit (Committed x) \/ o = OutCommit (AlreadyCommitted x)) ->
       exists r c, wd_runs w !! req_run_id req = Some r /\ rec_commit r = Some c /\ commit_request c = req)
       /\ inv_with Fr w)
    (inv_with Fr) co_inv.
Proof.
  apply io_triple. intros now w [Hi Hf].
  destruct (atomic_map_call (op now) (now, now) (wd_runs w)) as [[o runs]|e] eqn:E; [|done].
  assert (runs_extend (wd_runs w) runs) as Hext by (by eapply map_call_extends). split.
  - intros req Hop Ho. rewrite (Hop now) in E. by eapply map_commit_wins.
  - split; [by apply set_runs_inv|]. by eapply HFr.
Qed.

Lemma bind_attempt_triple run epoch attempt :
  triple (inv_with Fr) (bind_attempt run epoch attempt) (fun _ => inv_with Fr) (inv_with Fr) co_inv.
Proof.
  unfold bind_attempt. eapply triple_bind; [apply control_triple|]. intros o. apply triple_ret.
  by intros w [_ Hw].
Qed.

Lemma write_triple p record :
  frame p Fr -> p = journal_path (dr_task_id record) -> record_ok record ->
  (forall w, Fr w -> dr_status record = ResultCommitted -> result_won (wd_runs w) (dr_result record)) ->
  triple (inv_with Fr) (write_record record)
    (fun _ w => wd_journal w !! p = Some record /\ inv_with Fr w) (inv_with Fr) co_inv.
Proof.
  intros Hframe Hp Hok Hwon. apply io_triple. intros now w [Hi Hf]. simpl.
  split; [rewrite Hp; apply lookup_insert_eq|].
  split; [apply write_inv; auto|]. eapply Hframe; [done| |done]. simpl. rewrite Hp. apply delete_insert_eq.
Qed.

Lemma sink_seen_inv l f w : co_inv w -> co_inv (set_sink (set_seen l f) w).
Proof. intros [H1 H2 H3 H4]. split; [done..|]. intros l'. simpl. rewrite set_seen_file. apply H4. Qed.

Lemma inv_with_sink f w : co_inv (set_sink f w) -> Fr w -> inv_with Fr (set_sink f w).
Proof. intros Hi Hf. split; [done|]. by eapply HFr. Qed.

(** The ledger of [r] ends with [text], a part of its line. *)
Definition writing (r : @TaskResult F64) (text : string) (w : World) : Prop :=
  exists contents, sk_file (ledger_of r) (wd_sink w) = contents +:+ text
    /\ of_winners (ledger_of r) (wd_runs w) contents.

Lemma writing_other r text o w : writing r text w -> writing r text (other o w).
Proof.
  intros (contents & Hc & Hp). exists contents. split; [|eapply of_winners_extends; [apply other_extends|done]].
  destruct o; simpl; [|done]. by destruct (atomic_map_call _ _ _) as [[? ?]|].
Qed.

Lemma write_byte_inv r text a rest w :
  (Fr w -> result_won (wd_runs w) r) ->
  to_ndjson f64_value f64_of_number r +:+ newline = text +:+ String a rest ->
  inv_with Fr w -> writing r text w ->
  let w' := add_text set_sink (ledger_of r) (String a "") w in
  inv_with Fr w' /\ writing r (text +:+ String a "") w'.
Proof.
  intros Hwon Ht [[H1 H2 H3 H4] Hf] (contents & Hc & Hp). cbv zeta.
  assert (sk_file (ledger_of r) (wd_sink (add_text set_sink (ledger_of r) (String a "") w))
          = contents +:+ text +:+ String a "") as Hfile
    by (simpl; by rewrite set_file_same, Hc, str_app_assoc).
  split; [|exists contents; by split]. apply inv_with_sink; [|done]. split; [done..|]. intros l.
  destruct (decide (l = ledger_of r)) as [->|Hne].
  - change (of_winners (ledger_of r) (wd_runs w)
      (sk_file (ledger_of r) (wd_sink (add_text set_sink (ledger_of r) (String a "") w)))).
    rewrite Hfile. eapply of_winners_add; [done|done|by apply Hwon|].
    rewrite Ht, str_app_assoc. reflexivity.
  - simpl. rewrite set_file_ne by done. apply H4.
Qed.

Lemma ledger_write_triple r text buf rest :
  (forall w, Fr w -> result_won (wd_runs w) r) ->
  to_ndjson f64_value f64_of_number r +:+ newline = text +:+ buf +:+ rest ->
  triple (fun w => inv_with Fr w /\ writing r text w) (write_all other IoFailure set_sink (ledger_of r) buf)
    (fun _ w => inv_with Fr w /\ writing r (text +:+ buf) w) (inv_with Fr) co_inv.
Proof.
  intros Hwon. revert text. induction buf as [|a buf IH]; intros text Ht; simpl.
  { apply triple_ret. by rewrite str_app_nil_r. }
  apply (triple_bind _ _ _ (fun _ w => inv_with Fr w /\ writing r (text +:+ String a "") w)).
  - apply triple_effect; [|by intros w []|by intros w [[] _]|].
    + intros o w [Hi Hw]. split; [by apply inv_with_other|by apply writing_other].
    + intros now w [Hi Hw]. destruct (write_byte_inv r text a (buf +:+ rest) w) as [? ?]; auto.
  - intros _. eapply triple_post; [apply IH; by rewrite str_app_assoc| |done|done].
    intros ? w. by rewrite str_app_assoc.
Qed.

Lemma file_call_triple r text :
  triple (fun w => inv_with Fr w /\ writing r text w) (file_call other IoFailure)
    (fun _ w => inv_with Fr w /\ writing r text w) (inv_with Fr) co_inv.
Proof.
  apply triple_effect; [|by intros w []|by intros w [[] _]|by intros now w []].
  intros o w [Hi Hw]. split; [by apply inv_with_other|by apply writing_other].
Qed.

Lemma append_line_triple r :
  (forall w, Fr w -> result_won (wd_runs w) r) ->
  triple (inv_with Fr) (append_line f64_value f64_of_number other IoFailure set_sink (ledger_of r) r)
    (fun _ => inv_with Fr) (inv_with Fr) co_inv.
Proof.
  intros Hwon. apply (triple_pre _ (fun w => inv_with Fr w /\ writing r "" w)).
  { intros w Hw. split; [done|]. eexists. split; [by rewrite str_app_nil_r|]. apply Hw. }
  unfold append_line. eapply triple_bind; [apply file_call_triple|]. intros ?.
  eapply triple_bind; [apply (ledger_write_triple r "" _ newline); [done|done]|]. intros ?.
  eapply triple_bind; [apply (ledger_write_triple r _ newline ""); [done|by rewrite str_app_nil_r]|]. intros ?.
  eapply triple_post; [apply file_call_triple|by intros ? w []|done|done].
Qed.

Lemma persist_triple r :
  (forall w, Fr w -> result_won (wd_runs w) r) ->
  triple (inv_with Fr) (persist r) (fun _ => inv_with Fr) (inv_with Fr) co_inv.
Proof.
  intros Hwon. unfold persist, persist_terminal, sink_append, reserve, unreserve.
  apply (triple_bind _ _ _ (fun _ => inv_with Fr)).
  { apply (triple_bind _ _ _ (fun _ => inv_with Fr)); [by apply triple_ask|]. intros fresh.
    apply (triple_bind _ _ _ (fun _ => inv_with Fr)); [|intros _; by apply triple_ret].
    apply triple_modify. intros w [Hi Hf]. by apply inv_with_sink; [apply sink_seen_inv|]. }
  intros []; simpl; [|by apply triple_ret].
  apply (triple_bind _ _ _ (fun _ => inv_with Fr)).
  - eapply (triple_attempt _ _ (fun _ => inv_with Fr) _ _ (inv_with Fr)); [by apply append_line_triple|done].
  - intros [[]|e]; [by apply triple_ret|].
    apply (triple_bind _ _ _ (fun _ => inv_with Fr)); [|intros _; by apply triple_throw].
    apply triple_modify. intros w [Hi Hf]. by apply inv_with_sink; [apply sink_seen_inv|].
Qed.

Lemma process_triple orphaned heartbeats stopped :
  triple (inv_with Fr)
    (modify (fun w => set_process (orphaned w) (heartbeats w) (stopped w) w) : Co unit)
    (fun _ => inv_with Fr) (inv_with Fr) co_inv.
Proof.
  apply triple_modify. intros w [[H1 H2 H3 H4] Hf]. split; [by split|]. by eapply HFr.
Qed.

Lemma stop_triple run :
  triple (inv_with Fr) (stop_lease_heartbeat run) (fun _ => inv_with Fr) (inv_with Fr) co_inv.
Proof.
  apply triple_modify. intros w [[H1 H2 H3 H4] Hf]. destruct (wd_heartbeats w !! run); [|by split].
  split; [by split|]. by eapply HFr.
Qed.
End Triples.

(** What is known of a result that won. *)
Definition and_won (Fr : World -> Prop) (r : @TaskResult F64) (w : World) : Prop :=
  Fr w /\ result_won (wd_runs w) r.

Lemma frame_won p Fr r : frame p Fr -> frame p (and_won Fr r).
Proof. intros HFr w w' [Hf Hwon] Hj Hext. split; [by eapply HFr|by eapply result_won_extends]. Qed.

Lemma frame_true p : frame p (fun _ => True).
Proof. done. Qed.

Lemma set_status_ok st record : record_ok record -> record_ok (set_status st record).
Proof. done. Qed.
Lemma set_persisted_ok record : record_ok record -> record_ok (set_persisted record).
Proof. done. Qed.

Lemma commit_request_won runs record r c :
  record_ok record -> runs !! dr_run_id record = Some r -> rec_commit r = Some c ->
  commit_request c = commit_request_of record -> result_won runs (dr_result record).
Proof.
  intros (H1 & H2 & H3 & H4 & H5) Hr Hc Hreq. exists (dr_run_id record), (dr_attempt_id record), r, c.
  split_and!; [done..|]. by rewrite Hreq, H3, H4, <- H5.
Qed.

Section CommitTriples.
Context (Fr : World -> Prop).

Lemma fence_triple record e (Q : DurableResultRecord -> World -> Prop) :
  frame (journal_path (dr_task_id record)) Fr -> record_ok record ->
  triple (inv_with Fr) (write_record (set_status ResultFenced record) ;; throw e) Q (inv_with Fr) co_inv.
Proof.
  intros HFr Hok. eapply triple_bind.
  - eapply write_triple; [by eapply frame_stable|done|done|by apply set_status_ok|done].
  - intros ?. apply triple_throw. by intros w [_ Hw].
Qed.

Lemma commit_record_triple record :
  frame (journal_path (dr_task_id record)) Fr -> record_ok record ->
  triple (inv_with Fr) (commit_record record)
    (fun record' w => record' = set_status ResultCommitted record
                      /\ wd_journal w !! journal_path (dr_task_id record) = Some record'
                      /\ inv_with (and_won Fr (dr_result record)) w)
    (inv_with Fr) co_inv.
Proof.
  intros HFr Hok. unfold commit_record.
  eapply triple_bind; [by eapply bind_attempt_triple, frame_stable|]. intros []; simpl; [|by apply fence_triple].
  eapply triple_bind; [by eapply control_triple, frame_stable|]. intros o.
  set (req := commit_request_of record).
  assert (triple (fun w => (exists r c, wd_runs w !! dr_run_id record = Some r /\ rec_commit r = Some c
                              /\ commit_request c = req) /\ inv_with Fr w)
            (write_record (set_status ResultCommitted record) ;; ret (set_status ResultCommitted record))
            (fun record' w => record' = set_status ResultCommitted record
                              /\ wd_journal w !! journal_path (dr_task_id record) = Some record'
                              /\ inv_with (and_won Fr (dr_result record)) w) (inv_with Fr) co_inv) as Hwin.
  { apply (triple_pre _ (inv_with (and_won Fr (dr_result record)))).
    { intros w [(r & c & Hr & Hc & Hreq) [Hi Hf]]. split; [done|]. split; [done|].
      by eapply commit_request_won. }
    apply (triple_bind _ _ _ (fun _ w =>
      wd_journal w !! journal_path (dr_task_id record) = Some (set_status ResultCommitted record)
      /\ inv_with (and_won Fr (dr_result record)) w)).
    - eapply triple_post; [eapply write_triple with (p := journal_path (dr_task_id record));
        [by eapply frame_stable, frame_won|by apply frame_won|done|by apply set_status_ok|by intros w []]|done| |done].
      intros w [? []]. by split.
    - intros ?. by apply triple_ret. }
  destruct o as [| |[x|x|e1 e2|x]];
    [apply triple_throw; by intros w [_ ?]| apply triple_throw; by intros w [_ ?]| | | |].
  - eapply triple_pre; [|exact Hwin]. intros w [Hw ?]. split; [|done].
    apply (Hw req (fun _ => eq_refl)). eauto.
  - eapply triple_pre; [|exact Hwin]. intros w [Hw ?]. split; [|done].
    apply (Hw req (fun _ => eq_refl)). eauto.
  - eapply triple_pre; [|by apply fence_triple]. by intros w [_ ?].
  - eapply triple_pre; [|by apply fence_triple]. by intros w [_ ?].
Qed.

(** A journalled result reconciliation is done with. *)
Definition settled (record : DurableResultRecord) : Prop :=
  dr_status record = ResultFenced
  \/ (dr_status record = ResultCommitted /\ dr_sink_persisted record = true).

(** Sink append and the final write of a committed record. *)
Lemma publish_triple record :
  frame (journal_path (dr_task_id record)) Fr -> record_ok record ->
  triple (inv_with (and_won Fr (dr_result record)))
    (persist (dr_result record) ;; write_record (set_persisted record))
    (fun _ w => wd_journal w !! journal_path (dr_task_id record) = Some (set_persisted record)
                /\ inv_with Fr w)
    (inv_with Fr) co_inv.
Proof.
  intros HFr Hok. assert (forall w, inv_with (and_won Fr (dr_result record)) w -> inv_with Fr w) as Hweak
    by (intros w [? []]; by split).
  eapply triple_bind.
  - eapply triple_post; [apply (persist_triple (and_won Fr (dr_result record)));
      [by eapply frame_stable, frame_won|by intros w []]|intros ? ? H; exact H|exact Hweak|done].
  - intros ?. eapply triple_post; [eapply write_triple with (p := journal_path (dr_task_id record));
      [by eapply frame_stable, frame_won|by apply frame_won|done|by apply set_persisted_ok|by intros w []]| |exact Hweak|done].
    intros _ w [Hj Hw]. split; [done|by apply Hweak].
Qed.

Lemma stage_triple r :
  frame (journal_path (tr_task_id r)) Fr ->
  triple (inv_with Fr) (stage_result r)
    (fun record w => (record_ok record /\ dr_task_id record = tr_task_id r) /\ inv_with Fr w)
    (inv_with Fr) co_inv.
Proof.
  intros HFr. unfold stage_result.
  destruct (tr_run_id r) as [run|] eqn:Hrun; [|by apply triple_throw].
  destruct (tr_attempt_id r) as [att|] eqn:Hatt; [|by apply triple_throw].
  eapply (triple_bind _ _ _ (fun run' w => run' = run /\ inv_with Fr w)); [by apply triple_ret|].
  intros run'. apply triple_fact. intros ->.
  eapply (triple_bind _ _ _ (fun att' w => att' = att /\ inv_with Fr w)); [by apply triple_ret|].
  intros att'. apply triple_fact. intros ->.
  destruct (tr_lease_epoch r =? 0)%Z; [by apply triple_throw|]. cbv zeta.
  set (record := mkDurable _ _ _ _ _ _ _ _ _).
  eapply triple_bind; [eapply write_triple with (p := journal_path (tr_task_id r));
    [by eapply frame_stable|done|done|by split_and!|done]|].
  intros ?. apply triple_ret. intros w [_ Hw]. by split_and!.
Qed.

Lemma finalize_triple r :
  frame (journal_path (tr_task_id r)) Fr ->
  triple (inv_with Fr) (finalize_result r)
    (fun _ w => (exists record, wd_journal w !! journal_path (tr_task_id r) = Some record /\ settled record)
                /\ inv_with Fr w)
    (inv_with Fr) co_inv.
Proof.
  intros HFr. unfold finalize_result.
  set (Fin := fun w => exists record, wd_journal w !! journal_path (tr_task_id r) = Some record /\ settled record).
  apply (triple_bind _ _ _ (fun o w => (forall u, o = Ok u -> Fin w) /\ inv_with Fr w)).
  - eapply (triple_attempt _ _ _ _ _ (inv_with Fr)); [|by intros w e ?; split].
    eapply triple_bind; [by apply stage_triple|].
    intros record. apply triple_fact. intros [Hok Hid].
    rewrite <- Hid in HFr. eapply triple_bind; [by apply commit_record_triple|].
    intros rec'. apply triple_fact. intros ->. eapply triple_pre; [intros w [_ Hw]; exact Hw|].
    eapply triple_post; [apply (publish_triple (set_status ResultCommitted record) HFr Hok)| |done|done].
    intros ? w [Hj Hw]. split; [|done]. intros _ _. unfold Fin. rewrite <- Hid. exists (set_persisted (set_status ResultCommitted record)).
    split; [done|]. by right.
  - intros o. eapply (triple_bind _ _ _ (fun _ w => (forall u, o = Ok u -> Fin w) /\ inv_with Fr w)).
    + destruct (tr_run_id r) as [run|]; [|by apply triple_ret].
      apply triple_modify. intros w [Ho [[H1 H2 H3 H4] Hf]].
      destruct (wd_heartbeats w !! run); [|by split]. split; [done|]. split; [by split|]. by eapply HFr.
    + intros ?. destruct o as [u|e]; [apply triple_ret|apply triple_throw].
      * intros w [Ho ?]. split; [by eapply Ho|done].
      * by intros w [_ ?].
Qed.
End CommitTriples.

(** ** Reconciliation settles the journal *)

Section Reconcile.
Context (c : RunCoordinator) (obs : AttemptObserver).

(** An observer reads, or talks to processes, but changes nothing here. *)
Definition observer_ok : Prop :=
  forall Fr, stable Fr ->
    (forall lease, triple (inv_with Fr) (observe obs lease) (fun _ => inv_with Fr) (inv_with Fr) co_inv)
    /\ (forall run attempt,
          triple (inv_with Fr) (cancel_stale obs run attempt) (fun _ => inv_with Fr) (inv_with Fr) co_inv).

(** Every journalled result in scope is settled or still to be processed;
    [outside p] says so of the files other than [p]. *)
Definition journal_ok (rest : list DurableResultRecord) (w : World) : Prop :=
  forall p record, wd_journal w !! p = Some record -> in_scope c (dr_run_id record) = true ->
    settled record \/ record ∈ rest.
Definition outside (p : string) (rest : list DurableResultRecord) (w : World) : Prop :=
  forall q record, q <> p -> wd_journal w !! q = Some record -> in_scope c (dr_run_id record) = true ->
    settled record \/ record ∈ rest.

(** The records read at the start. *)
Definition snapshot_ok (rest : list DurableResultRecord) (w : World) : Prop :=
  forall record, record ∈ rest ->
    record_ok record /\ (dr_status record = ResultCommitted -> result_won (wd_runs w) (dr_result record)).

Context (K : World -> Prop) (HK : forall p, frame p K).

Definition known (rest : list DurableResultRecord) (w : World) : Prop :=
  journal_ok rest w /\ snapshot_ok rest w /\ K w.
Definition known_outside (p : string) (rest : list DurableResultRecord) (w : World) : Prop :=
  outside p rest w /\ snapshot_ok rest w /\ K w.

Lemma snapshot_extends rest w w' :
  runs_extend (wd_runs w) (wd_runs w') -> snapshot_ok rest w -> snapshot_ok rest w'.
Proof. intros Hext H record Hr. destruct (H record Hr). split; eauto using result_won_extends. Qed.

Lemma known_stable rest : stable (known rest).
Proof.
  intros w w' (H1 & H2 & H3) Hj Hext. split_and!.
  - intros p record. rewrite Hj. apply H1.
  - by eapply snapshot_extends.
  - eapply (HK ""); [done|by rewrite Hj|done].
Qed.

Lemma known_frame p rest : frame p (known_outside p rest).
Proof.
  intros w w' (H1 & H2 & H3) Hj Hext. split_and!.
  - intros q record Hq Hr. apply (H1 q record Hq).
    rewrite <- (lookup_delete_ne (wd_journal w) p q) by done. by rewrite <- Hj, lookup_delete_ne.
  - by eapply snapshot_extends.
  - by eapply HK.
Qed.

Lemma known_outside_intro x rest w :
  inv_with (known (x :: rest)) w -> inv_with (known_outside (journal_path (dr_task_id x)) rest) w.
Proof.
  intros [Hi (H1 & H2 & H3)]. split; [done|]. split_and!; [| |done].
  - intros q record Hq Hr Hs. destruct (H1 q record Hr Hs) as [?|[->|?]%elem_of_cons]; [by left| |by right].
    by destruct Hq; apply (inv_path w Hi).
  - intros record Hr. apply H2. by right.
Qed.

Lemma known_outside_elim p y rest w :
  wd_journal w !! p = Some y -> settled y ->
  inv_with (known_outside p rest) w -> inv_with (known rest) w.
Proof.
  intros Hy Hset [Hi (H1 & H2 & H3)]. split; [done|]. split_and!; [|done|done].
  intros q record Hr Hs. destruct (decide (q = p)) as [->|Hne]; [|by eapply H1].
  left. congruence.
Qed.

(** A record that needs no write. *)
Lemma known_skip x rest w :
  (in_scope c (dr_run_id x) = true -> settled x) -> inv_with (known (x :: rest)) w -> inv_with (known rest) w.
Proof.
  intros Hx [Hi (H1 & H2 & H3)]. split; [done|]. split_and!; [| |done].
  - intros q record Hr Hs. destruct (H1 q record Hr Hs) as [?|[->|?]%elem_of_cons]; auto.
  - intros record Hr. apply H2. by right.
Qed.

(** The end of a record that is committed: append if it was not, and note it. *)
Lemma reconcile_committed_triple x rest record report :
  record_ok record -> dr_task_id record = dr_task_id x -> dr_status record = ResultCommitted ->
  triple (fun w => (dr_sink_persisted record = true -> inv_with (known rest) w)
                   /\ inv_with (and_won (known_outside (journal_path (dr_task_id x)) rest) (dr_result record)) w)
    (if dr_sink_persisted record then ret (report : ReconcileReport)
     else persist (dr_result record) ;; write_record (set_persisted record) ;; ret (count 0 1 0 0 0 report))
    (fun _ => inv_with (known rest)) co_inv co_inv.
Proof.
  intros Hok Hid Hst. destruct (dr_sink_persisted record) eqn:Hp; [apply triple_ret; intros w [Hw _]; auto|].
  assert (triple (inv_with (and_won (known_outside (journal_path (dr_task_id x)) rest) (dr_result record)))
            (persist (dr_result record) ;; write_record (set_persisted record))
            (fun _ => inv_with (known rest)) co_inv co_inv) as Hpub.
  { eapply triple_post; [apply publish_triple; [rewrite Hid; apply known_frame|done]| |by intros w []|done].
    intros _ w [Hj Hw]. rewrite Hid in Hj. eapply known_outside_elim; [done|by right|done]. }
  intros envs w [_ Hw]. specialize (Hpub envs w Hw). unfold bind in *.
  destruct (persist _ _ _) as [[|[[]|e] envs'] w']; [done| |done].
  destruct (write_record _ _ _) as [[|[[]|e] envs''] w'']; done.
Qed.

Lemma reconcile_record_triple x rest report :
  triple (inv_with (known (x :: rest))) (reconcile_record c x report) (fun _ => inv_with (known rest))
    co_inv co_inv.
Proof.
  unfold reconcile_record. set (p := journal_path (dr_task_id x)).
  destruct (in_scope c (dr_run_id x)) eqn:Hscope; simpl; [|apply triple_ret; intros w; by apply known_skip; rewrite Hscope].
  destruct (negb _); [by apply triple_throw; intros w []|].
  eapply triple_extract; [intros w [_ (_ & Hs & _)]; exact (proj1 (Hs x (list_elem_of_here _ _)))|]. intros Hok.
  cbv zeta. destruct (dr_status x) eqn:Hst.
  - apply (triple_bind _ _ _ (fun o w =>
      match o with
      | Ok record => record = set_status ResultCommitted x /\ wd_journal w !! p = Some record
                     /\ inv_with (and_won (known_outside p rest) (dr_result x)) w
      | Err _ => inv_with (known_outside p rest) w
      end)).
    + eapply triple_attempt; [|by intros w e Hw; exact Hw].
      eapply triple_pre; [intros w Hw; exact (known_outside_intro _ _ _ Hw)|].
      by apply commit_record_triple; [apply known_frame|].
    + intros [record|e]; simpl.
      * apply triple_fact. intros ->. eapply triple_pre; [|by apply (reconcile_committed_triple x)].
        intros w [Hj Hw]. split; [|done]. intros Hp. eapply known_outside_elim; [exact Hj|by right|].
        by destruct Hw as [? []].
      * eapply triple_bind.
        { eapply triple_post; [eapply write_triple with (p := p);
            [eapply frame_stable, known_frame|apply known_frame|done|by apply set_status_ok|done]| |by intros w []|done].
          intros ? w H; exact H. }
        intros ?. eapply triple_pre; [intros w [Hj Hw]; eapply known_outside_elim; [exact Hj|by left|exact Hw]|].
        eapply triple_bind; [eapply triple_post; [apply process_triple, known_stable|done|by intros w []|done]|].
        intros ?. by apply triple_ret.
  - eapply triple_pre; [|by apply (reconcile_committed_triple x)]. intros w Hw. split.
    + intros Hp. apply (known_skip x); [by right|done].
    + destruct (known_outside_intro _ _ _ Hw) as [Hi Ho]. split; [done|]. split; [done|].
      destruct Hw as [_ (_ & Hs & _)]. by apply Hs; [left|].
  - eapply triple_pre; [intros w Hw; apply (known_skip x); [by left|exact Hw]|].
    eapply triple_bind; [eapply triple_post; [apply process_triple, known_stable|done|by intros w []|done]|].
    intros ?. by apply triple_ret.
Qed.

Lemma known_weaken p w : inv_with (known []) w -> inv_with (known_outside p []) w.
Proof. intros [Hi (H1 & H2 & H3)]. split; [done|]. split_and!; [|done|done]. intros q record _. apply H1. Qed.

(** Whether a control record says its task is committed. *)
Definition commits (run : RunControlRecord) (t : string) : Prop :=
  in_scope c (rec_run_id run) = true
  /\ exists commit, rec_commit run = Some commit /\ req_task_id (commit_request commit) = Some t.

Context (Hobs : observer_ok).

Lemma reconcile_run_triple x report :
  triple (inv_with (known [])) (reconcile_run c obs x report)
    (fun report' w => (rp_committed report ⊆ rp_committed report'
                       /\ forall t, commits x t -> t ∈ rp_committed report')
                      /\ inv_with (known []) w)
    co_inv co_inv.
Proof.
  destruct (Hobs (known []) (known_stable [])) as [Hobserve Hcancel].
  assert (forall w, inv_with (known []) w -> co_inv w) as Hweak by (by intros w []).
  unfold reconcile_run. destruct (in_scope c (rec_run_id x)) eqn:Hs; simpl.
  2:{ apply triple_ret. intros w Hw. split; [|done]. split; [done|]. intros t [? _]. congruence. }
  destruct (rec_commit x) as [commit|] eqn:Hc.
  { apply triple_ret. intros w Hw. split; [|done]. split.
    - destruct (req_task_id _); simpl; set_solver.
    - intros t (_ & commit' & Hc' & Ht). simplify_eq. rewrite Ht. simpl. set_solver. }
  assert (forall (m : Co ReconcileReport),
    triple (inv_with (known [])) m
      (fun report' w => rp_committed report ⊆ rp_committed report' /\ inv_with (known []) w) co_inv co_inv ->
    triple (inv_with (known [])) m
      (fun report' w => (rp_committed report ⊆ rp_committed report'
                         /\ forall t, commits x t -> t ∈ rp_committed report') /\ inv_with (known []) w)
      co_inv co_inv) as Hsimpl.
  { intros m Hm. eapply triple_post; [exact Hm| |done|done]. intros report' w [? ?]. split_and!; [done| |done].
    intros t (_ & ? & ? & _). congruence. }
  destruct (rec_lease x) as [lease|]; [|by apply Hsimpl, triple_ret].
  destruct (lease_task_id lease) as [t|]; [|by apply Hsimpl, triple_ret].
  case_bool_decide; [by apply Hsimpl, triple_ret|]. apply Hsimpl.
  assert (forall (report' : ReconcileReport), rp_committed report ⊆ rp_committed report' ->
    triple (inv_with (known [])) (note_orphaned (lease_run_id lease) ;; ret report')
      (fun report' w => rp_committed report ⊆ rp_committed report' /\ inv_with (known []) w) co_inv co_inv) as Hnote.
  { intros report' Hsub. eapply triple_bind;
      [eapply triple_post; [apply process_triple, known_stable|done|done|done]|].
    intros ?. by apply triple_ret. }
  eapply triple_bind; [eapply triple_post; [apply Hobserve|done|done|done]|].
  intros [|att ep|r|]; simpl.
  - by apply Hnote.
  - destruct (ep =? lease_epoch lease)%Z.
    + eapply triple_bind; [eapply triple_post; [apply bind_attempt_triple, known_stable|done|done|done]|].
      intros ?. by apply triple_ret.
    + eapply triple_bind; [eapply triple_post; [apply Hcancel|done|done|done]|]. intros ?. by apply Hnote.
  - set (q := journal_path (tr_task_id r)).
    eapply triple_bind.
    + eapply triple_post; [eapply triple_pre; [apply (known_weaken q)|apply finalize_triple, known_frame]
        |intros ? w Hw; exact Hw|by intros w []|done].
    + intros ?. apply triple_ret. intros w [(record & Hr & Hset) Hw]. split; [simpl; set_solver|].
      by eapply known_outside_elim.
  - by apply triple_ret.
Qed.

Lemma reconcile_triple (all : gmap string RunControlRecord) :
  (forall w, K w -> forall run r, all !! run = Some r -> wd_runs w !! run = Some r) ->
  triple (inv_with K) (reconcile c obs)
    (fun report w => (forall run r t, all !! run = Some r -> commits r t ->
                        t ∈ rp_committed report /\ ~ t ∈ rp_retry report)
                     /\ journal_ok [] w /\ co_inv w) co_inv co_inv.
Proof.
  intros Hall. assert (stable K) as HKs by (apply (frame_stable ""), HK).
  assert (forall Fr w, inv_with Fr w -> co_inv w) as Hweak by (by intros Fr w []).
  unfold reconcile.
  apply (triple_bind _ _ _ (fun records w => inv_with (known records) w)).
  { eapply triple_post; [apply (io_triple K HKs _ (fun records w => records = map snd (map_to_list (wd_journal w))))
      | |apply Hweak|done].
    - intros now w Hw. by split.
    - intros records w [-> [Hi HKw]]. split; [done|]. split_and!; [| |done].
      + intros q record Hq _. right. apply list_elem_of_fmap. exists (q, record). split; [done|].
        by apply elem_of_map_to_list.
      + intros record Hr. apply list_elem_of_fmap in Hr as ([q record'] & -> & Hq%elem_of_map_to_list).
        split; [by eapply inv_record|by eapply inv_committed]. }
  intros records.
  apply (triple_bind _ _ _ (fun _ w => inv_with (known []) w)).
  { apply (triple_for (fun rest _ => inv_with (known rest))). intros x rest report. apply reconcile_record_triple. }
  intros report.
  apply (triple_bind _ _ _ (fun runs w => (forall run r, all !! run = Some r -> r ∈ runs)
                                          /\ inv_with (known []) w)).
  { eapply triple_post; [apply (io_triple _ (known_stable []) _ (fun runs w => forall run r, all !! run = Some r -> r ∈ runs))
      |done|apply Hweak|done].
    intros now w Hw. split; [|done]. intros run r Hr. rewrite (merge_sort_Permutation _ _).
    apply list_elem_of_fmap. exists (run, r). split; [done|]. apply elem_of_map_to_list.
    apply (Hall w); [by destruct Hw as [_ (_ & _ & ?)]|done]. }
  intros runs. apply triple_fact. intros Hruns.
  apply (triple_bind _ _ _ (fun report w =>
    (forall x t, x ∈ runs -> commits x t -> t ∈ rp_committed report \/ x ∈ []) /\ inv_with (known []) w)).
  { eapply triple_pre, (triple_for (fun rest report w =>
      (forall x t, x ∈ runs -> commits x t -> t ∈ rp_committed report \/ x ∈ rest) /\ inv_with (known []) w)).
    - intros w Hw. split; [|done]. intros x t Hx _. by right.
    - intros x rest report'. apply triple_fact. intros Hx.
      eapply triple_post; [apply reconcile_run_triple| |done|done].
      intros report'' w [[Hsub Hadd] Hw]. split; [|done]. intros y t Hy Hct.
      destruct (Hx y t Hy Hct) as [?|[->|?]%elem_of_cons]; [left; set_solver|left; by apply Hadd|by right]. }
  intros report'. apply triple_ret. intros w [Hrep [Hi (Hj & _ & _)]]. split; [|done].
  intros run r t Hr Hct. destruct (Hrep r t) as [Ht|Ht]; [by eapply Hruns|done| |by apply elem_of_nil in Ht].
  split; [done|]. simpl. set_solver.
Qed.
End Reconcile.

Lemma process_local_ok : observer_ok process_local_observer.
Proof. intros Fr _. by split; intros; apply triple_ret. Qed.

Lemma durable_ok : observer_ok durable_observer.
Proof.
  intros Fr HFr. split; [|by intros; apply triple_ret]. intros lease. simpl. unfold durable_observe.
  eapply triple_bind; [eapply triple_post; [by apply (io_triple Fr HFr _ (fun _ _ => True))| |done|done]|].
  { intros a w [_ Hw]. exact Hw. }
  intros [[record|] now]; [|by apply triple_ret].
  destruct (negb _); [by apply triple_ret|]. destruct (att_state record); [by apply triple_ret|].
  assert (forall A (o : option A) (e : CoordError),
    triple (inv_with Fr) (lift (ok_or o e) : Co A) (fun _ => inv_with Fr) (inv_with Fr) co_inv) as Hlift.
  { intros A [a|] e; [by apply triple_ret|by apply triple_throw]. }
  eapply triple_bind; [apply Hlift|]. intros value. eapply triple_bind; [apply Hlift|]. intros result.
  eapply triple_bind; [apply Hlift|]. intros task. by apply triple_ret.
Qed.

(** ** Histories *)

(** Whatever coordinators, other processes and restarts do, in any order; each
    call runs on any environments, so it may also die on the way. *)
Inductive co_step : World -> World -> Prop :=
| step_finalize r envs w : co_step w (snd (finalize_result r envs w))
| step_reconcile c obs envs w :
    obs = process_local_observer \/ obs = durable_observer -> co_step w (snd (reconcile c obs envs w))
| step_acquire c run task owner envs w : co_step w (snd (acquire_lease c run task owner envs w))
| step_other o w : co_step w (other o w)
| step_restart w w' : restart w = Some w' -> co_step w w'.

(** A control plane in any state, no journal and an empty sink. *)
Definition fresh_world (runs : gmap string RunControlRecord) (attempts : gmap string (AttemptRecord Value))
  : World := mkWorld runs attempts ∅ empty_sink ∅ ∅ ∅.

Lemma triple_final {A} P (m : Co A) envs w :
  triple P m (fun _ => co_inv) co_inv co_inv -> P w -> co_inv (snd (m envs w)).
Proof. intros Hm Hw. specialize (Hm envs w Hw). by destruct (m envs w) as [[|[a|e] rest] w']. Qed.

Lemma acquire_triple c run task owner :
  triple (inv_with (fun _ => True)) (acquire_lease c run task owner) (fun _ => co_inv) co_inv co_inv.
Proof.
  assert (stable (fun _ => True)) as Hst by done. unfold acquire_lease.
  apply (triple_bind _ _ _ (fun _ => inv_with (fun _ => True))); [by apply triple_ask|]. intros force.
  apply (triple_bind _ _ _ (fun _ => inv_with (fun _ => True)));
    [eapply triple_post; [by apply process_triple|done|by intros w []|done]|]. intros ?.
  apply (triple_bind _ _ _ (fun _ => inv_with (fun _ => True)));
    [eapply triple_post; [by apply control_triple|by intros ? ? []|by intros w []|done]|].
  intros [[l|l|x]|b|o]; first [by apply triple_ret; intros w []|by apply triple_throw; intros w []].
Qed.

(** Opening the sink changes no file. *)
Lemma sink_reopen_file l s s' : sink_reopen s = Some s' -> sk_file l s' = sk_file l s.
Proof.
  unfold sink_reopen, sink_open. intros H. apply bind_Some in H as (ledger & _ & [= <-]). by destruct l.
Qed.

Lemma restarted_inv w w' : restart w = Some w' -> co_inv w -> co_inv w'.
Proof.
  unfold restart. intros (sink & Hs & ->)%fmap_Some [H1 H2 H3 H4]. split; [done..|]. intros l. simpl.
  rewrite (sink_reopen_file l _ _ Hs). apply H4.
Qed.

Lemma co_step_inv w w' : co_step w w' -> co_inv w -> co_inv w'.
Proof.
  intros Hstep Hi. assert (inv_with (fun _ => True) w) as Hw by (by split).
  destruct Hstep as [r envs w|c obs envs w Hobs|c run task owner envs w|o w|w w' Hre].
  - eapply triple_final; [|exact Hw]. eapply triple_post;
      [by apply (finalize_triple (fun _ => True))|by intros ? ? [_ []]|by intros ? []|done].
  - eapply triple_final; [|exact Hw].
    eapply triple_post; [apply (reconcile_triple c obs (fun _ => True) frame_true) with (all := ∅)|..];
      [by destruct Hobs as [-> | ->]; [apply process_local_ok|apply durable_ok]|done|by intros ? ? (_ & _ & ?)|done|done].
  - eapply triple_final; [apply acquire_triple|done].
  - by apply other_inv.
  - by eapply restarted_inv.
Qed.

Lemma co_reachable_inv runs attempts w : rtc co_step (fresh_world runs attempts) w -> co_inv w.
Proof.
  intros H. assert (co_inv (fresh_world runs attempts)) as Hi.
  { split; simpl; [by intros ? ?; rewrite lookup_empty..|]. intros []; by exists []. }
  induction H; eauto using co_step_inv.
Qed.

(** C5: the ledgers hold only winners.  Whatever calls, crashes, restarts, lost
    answers and interference of other owners led here, one call of the sink at
    a time, the bytes of a ledger are, one after the other, beginnings of lines
    of results of its kind whose Runs are committed with them: same Run, task,
    attempt, fencing epoch, terminal state and digest.  A beginning is shorter
    than its line when an append failed or the process died in the middle of
    it; if there is none such, every line that a reader finds is the text of a
    result that won. *)
Theorem sink_holds_only_winners runs attempts w l :
  rtc co_step (fresh_world runs attempts) w ->
  exists pieces : list (@TaskResult F64 * string),
    sk_file l (wd_sink w) = str_concat pieces.*2
    /\ Forall (fun piece =>
         ledger_of piece.1 = l /\ result_won (wd_runs w) piece.1 /\ piece.2 <> ""
         /\ String.prefix piece.2 (to_ndjson f64_value f64_of_number piece.1 +:+ newline) = true) pieces
    /\ (Forall (fun piece => piece.2 = to_ndjson f64_value f64_of_number piece.1 +:+ newline) pieces ->
        forall line, line ∈ read_lines (sk_file l (wd_sink w)) ->
        exists r, line = Some (to_ndjson f64_value f64_of_number r)
          /\ ledger_of r = l /\ result_won (wd_runs w) r).
Proof.
  intros H. destruct (inv_sink w (co_reachable_inv runs attempts w H) l) as (pieces & Hc & Hp).
  exists pieces. split; [done|]. split.
  - eapply Forall_impl; [exact Hp|]. intros piece (? & ? & ? & Ht). split_and!; [done..|]. by apply str_prefix_spec.
  - intros Hw line. rewrite Hc, whole_pieces_lines by done. intros (piece & -> & Hin)%list_elem_of_fmap.
    rewrite Forall_forall in Hp. destruct (Hp piece Hin) as (? & ? & _). eauto.
Qed.

(** A reconciliation that answers leaves nothing of its job half done:
    every journalled result is fenced, or committed and in the sink. *)
Theorem reconcile_settles_journal runs attempts w c obs envs report rest w' p record :
  rtc co_step (fresh_world runs attempts) w ->
  obs = process_local_observer \/ obs = durable_observer ->
  reconcile c obs envs w = (Done (Ok report) rest, w') ->
  wd_journal w' !! p = Some record -> in_scope c (dr_run_id record) = true ->
  settled record.
Proof.
  intros Hreach Hobs Hrec Hr Hs.
  pose proof (reconcile_triple c obs (fun _ => True) frame_true) as H.
  assert (observer_ok obs) as Hok by (destruct Hobs as [-> | ->]; [apply process_local_ok|apply durable_ok]).
  specialize (H Hok ∅ ltac:(by intros v _ run r; rewrite lookup_empty) envs w (conj (co_reachable_inv _ _ _ Hreach) I)). rewrite Hrec in H.
  destruct H as (_ & Hj & _). by destruct (Hj p record Hr Hs) as [?|?%elem_of_nil].
Qed.

(** A task whose Run was committed when a reconciliation started is
    reported as committed and never handed out again, however the process, the
    other owners and the control plane behave meanwhile. *)
Theorem reconcile_never_retries_committed runs attempts w c obs envs report rest w' run r commit t :
  rtc co_step (fresh_world runs attempts) w ->
  obs = process_local_observer \/ obs = durable_observer ->
  reconcile c obs envs w = (Done (Ok report) rest, w') ->
  wd_runs w !! run = Some r -> in_scope c (rec_run_id r) = true ->
  rec_commit r = Some commit -> req_task_id (commit_request commit) = Some t ->
  t ∈ rp_committed report /\ ~ t ∈ rp_retry report.
Proof.
  intros Hreach Hobs Hrec Hr Hs Hc Ht. set (K := fun w => wd_runs w !! run = Some r).
  assert (forall p, frame p K) as HK by (intros p v v' Hv _ Hext; by eapply Hext).
  assert (observer_ok obs) as Hok by (destruct Hobs as [-> | ->]; [apply process_local_ok|apply durable_ok]).
  pose proof (reconcile_triple c obs K HK Hok {[run := r]}) as H.
  specialize (H ltac:(by intros v Hv run' r' [<- <-]%lookup_singleton_Some) envs w
                (conj (co_reachable_inv _ _ _ Hreach) Hr)).
  rewrite Hrec in H. destruct H as (H & _). apply (H run r); [by apply lookup_singleton_Some|].
  split; [done|]. eauto.
Qed.

(** ** Crash windows of [finalize_result]

    One leased Run and nothing else; the process dies after [n] of the effects
    of [finalize_result] (stage, bind, commit, note the commit, open the ledger,
    write the bytes of the line and its line feed, flush, note the append), is
    restarted and reconciles while the lease is valid. *)
Section CrashWindows.
Context (c : RunCoordinator) (r : @TaskResult F64) (run att : string) (lease : RunLeaseRecord) (rev now : Z).
Context (attempts : gmap string (AttemptRecord Value)).
Hypothesis Hscope : in_scope c run = true.
Hypothesis Hrun : tr_run_id r = Some run.
Hypothesis Hatt : tr_attempt_id r = Some att.
Hypothesis Hepoch : tr_lease_epoch r = lease_epoch lease.
Hypothesis Hpos : lease_epoch lease <> 0%Z.
Hypothesis Hfree : lease_attempt_id lease = None.
Hypothesis Hlive : (now < lease_expires_at_unix_ms lease)%Z.
Hypothesis Hdigest : str_blank (task_result_digest r) = false.
Hypothesis Hroom : (0 <= rev /\ rev + 2 <= u64_max)%Z.

Definition quiet (n : nat) : list (Env Other) := repeat (mkEnv now [] Answered 0) n.
Arguments quiet : simpl never.

Definition leased_run (rev : Z) (attempt : option string) (commit : option RunCommit) : RunControlRecord :=
  mkRunControlRecord rev run (Some (set_lease_attempt attempt lease)) commit.

Definition journalled (st : DurableResultStatus) (persisted : bool) : DurableResultRecord :=
  mkDurable RESULT_JOURNAL_SCHEMA_VERSION (tr_task_id r) run att (tr_lease_epoch r)
    (task_result_digest r) r st persisted.

Definition the_commit : RunCommit := mkRunCommit (commit_request_of (journalled ResultStaged false)) now.

Definition leased_world : World := fresh_world {[run := mkRunControlRecord rev run (Some lease) None]} attempts.

Definition crashed_world (n : nat) : option World := restart (snd (finalize_result r (quiet n) leased_world)).

Definition line : string := to_ndjson f64_value f64_of_number r.
Definition line_length : nat := String.length line.

(** What is in the ledger after [n] effects. *)
Definition text_after (n : nat) : string := String.substring 0 (n - 5) (line +:+ newline).
Definition files_after (n : nat) : JsonlFileSink :=
  set_file (ledger_of r) (fun c => c +:+ text_after n) empty_sink.

(** The world after [n] effects and a restart. *)
Definition after_with (n : nat) (sink : JsonlFileSink) : World :=
  mkWorld
    {[run := match n with
             | 0 | 1 => mkRunControlRecord rev run (Some lease) None
             | 2 => leased_run (rev + 1) (Some att) None
             | _ => leased_run (rev + 2) (Some att) (Some the_commit)
             end]}
    attempts
    (match n with
     | 0 => ∅
     | 1 | 2 | 3 => {[journal_path (tr_task_id r) := journalled ResultStaged false]}
     | _ => {[journal_path (tr_task_id r) := journalled ResultCommitted (8 + line_length <=? n)]}
     end)
    sink ∅ ∅ ∅.
Definition after (n : nat) : option World := after_with n <$> sink_reopen (files_after n).

Lemma bind_free :
  atomic_map_call (OpBind run (tr_lease_epoch r) att) (now, now)
    {[run := mkRunControlRecord rev run (Some lease) None]}
  = Ok (OutBool true, {[run := leased_run (rev + 1) (Some att) None]}).
Proof.
  unfold atomic_map_call. simpl. rewrite lookup_singleton_eq. unfold bind_mutation. simpl.
  rewrite Hepoch, Z.eqb_refl, (proj2 (Z.leb_gt _ _) Hlive), Hfree. simpl.
  unfold next_record. simpl. rewrite bool_decide_eq_true_2 by done. simpl.
  rewrite (proj2 (u64_checked_add_Some rev 1 (rev + 1))) by lia. simpl.
  by rewrite insert_singleton_eq.
Qed.

Lemma bind_bound rev' :
  atomic_map_call (OpBind run (tr_lease_epoch r) att) (now, now) {[run := leased_run rev' (Some att) None]}
  = Ok (OutBool true, {[run := leased_run rev' (Some att) None]}).
Proof.
  unfold atomic_map_call. simpl. rewrite lookup_singleton_eq. unfold bind_mutation. simpl.
  rewrite Hepoch, Z.eqb_refl, (proj2 (Z.leb_gt _ _) Hlive). simpl. by rewrite bool_decide_eq_true_2.
Qed.

Lemma bind_committed rev' commit :
  atomic_map_call (OpBind run (tr_lease_epoch r) att) (now, now)
    {[run := leased_run rev' (Some att) (Some commit)]}
  = Ok (OutBool false, {[run := leased_run rev' (Some att) (Some commit)]}).
Proof. unfold atomic_map_call. simpl. by rewrite lookup_singleton_eq. Qed.

Lemma commit_bound :
  atomic_map_call (OpCommit (commit_request_of (journalled ResultStaged false))) (now, now)
    {[run := leased_run (rev + 1) (Some att) None]}
  = Ok (OutCommit (Committed the_commit), {[run := leased_run (rev + 2) (Some att) (Some the_commit)]}).
Proof.
  unfold atomic_map_call. simpl.
  assert (is_terminal (task_result_state r) = true) as ->
    by (unfold task_result_state; by destruct (tr_ok r), (tr_cancelled r)).
  rewrite Hepoch, (proj2 (Z.eqb_neq _ _) Hpos), Hdigest. simpl.
  rewrite lookup_singleton_eq. unfold commit_mutation, lease_matches. simpl.
  rewrite Hepoch, Z.eqb_refl, (proj2 (Z.ltb_lt _ _) Hlive), bool_decide_eq_true_2 by done. simpl.
  unfold next_record. simpl. rewrite bool_decide_eq_true_2 by done. simpl.
  rewrite (proj2 (u64_checked_add_Some (rev + 1) 1 (rev + 2))) by lia. simpl.
  rewrite insert_singleton_eq. unfold the_commit, commit_request_of. simpl. rewrite ?Hepoch. reflexivity.
Qed.

Lemma io_quiet {A} (f : Z -> World -> result CoordError A * World) n w :
  io f (quiet (S n)) w = let '(a, w') := f now w in (Done a (quiet n), w').
Proof. done. Qed.

Lemma stage_quiet n w :
  stage_result r (quiet (S n)) w
  = (Done (Ok (journalled ResultStaged false)) (quiet n),
     set_journal (<[journal_path (tr_task_id r) := journalled ResultStaged false]>) w).
Proof.
  unfold stage_result. rewrite Hrun, Hatt. unfold bind at 1 2. simpl.
  rewrite Hepoch, (proj2 (Z.eqb_neq _ _) Hpos). unfold bind, write_record. rewrite io_quiet.
  simpl. unfold journalled. by rewrite Hepoch.
Qed.

Lemma write_quiet record n w :
  write_record record (quiet (S n)) w
  = (Done (Ok tt) (quiet n), set_journal (<[journal_path (dr_task_id record) := record]>) w).
Proof. done. Qed.

Lemma control_quiet op n w o runs :
  atomic_map_call (op now) (now, now) (wd_runs w) = Ok (o, runs) ->
  control op (quiet (S n)) w = (Done (Ok o) (quiet n), set_runs (fun _ => runs) w).
Proof. intros H. unfold control. rewrite io_quiet, H. done. Qed.

Lemma dead {A} (f : Z -> World -> result CoordError A * World) w : io f (quiet 0) w = (Crashed, w).
Proof. done. Qed.

(** Writing with [n] effects left. *)
Lemma add_text_nil l w : add_text set_sink l "" w = w.
Proof. destruct w as [? ? ? [] ? ? ?], l; unfold add_text, set_sink; simpl; by rewrite str_app_nil_r. Qed.
Lemma add_text_app l a b w : add_text set_sink l b (add_text set_sink l a w) = add_text set_sink l (a +:+ b) w.
Proof. destruct w as [? ? ? [] ? ? ?], l; unfold add_text, set_sink; simpl; by rewrite str_app_assoc. Qed.

Definition survived {A} (n k : nat) (a : A) : outcome Other CoordError A :=
  if (n <? k)%nat then Crashed else Done (Ok a) (quiet (n - k)).

Lemma write_all_quiet l buf n w :
  write_all other IoFailure set_sink l buf (quiet n) w
  = (survived n (String.length buf) tt, add_text set_sink l (String.substring 0 n buf) w).
Proof.
  revert n w. induction buf as [|a buf IH]; intros n w.
  { unfold survived. simpl. rewrite Nat.sub_0_r. destruct n; simpl; by rewrite add_text_nil. }
  destruct n as [|n]; [simpl; by rewrite add_text_nil|]. simpl. unfold bind, write.
  change (effect other (fun _ => IoFailure) ?f) with (io f). rewrite io_quiet. cbv beta iota.
  rewrite IH, add_text_app. done.
Qed.

Lemma take_none (s : string) : String.substring 0 0 s = "".
Proof. by destruct s. Qed.

Lemma take_app n (a b : string) :
  String.substring 0 n (a +:+ b) = String.substring 0 n a +:+ String.substring 0 (n - String.length a) b.
Proof.
  revert n. induction a as [|x a IH]; intros n; [destruct n; by rewrite ?Nat.sub_0_r|].
  destruct n as [|n]; [by destruct b|]. simpl. by rewrite IH.
Qed.

Lemma take_all n (s : string) : (String.length s <= n)%nat -> String.substring 0 n s = s.
Proof.
  revert n. induction s as [|x s IH]; intros n Hn; [by destruct n|].
  destruct n as [|n]; simpl in *; [lia|]. by rewrite IH by lia.
Qed.

Lemma file_call_quiet n w : file_call other IoFailure (quiet n) w = (survived n 1 tt, w).
Proof. unfold survived. destruct n; [done|]. unfold file_call. simpl. by rewrite Nat.sub_0_r. Qed.

Lemma bind_survived {A B} (m : Co A) (k : A -> Co B) n i a w w1 :
  m (quiet n) w = (survived n i a, w1) ->
  bind m k (quiet n) w = if (n <? i)%nat then (Crashed, w1) else k a (quiet (n - i)) w1.
Proof. unfold bind, survived. intros ->. by destruct (n <? i)%nat. Qed.

Lemma append_quiet l n w :
  append_line f64_value f64_of_number other IoFailure set_sink l r (quiet n) w
  = (survived n (3 + line_length) tt, add_text set_sink l (String.substring 0 (n - 1) (line +:+ newline)) w).
Proof.
  unfold append_line. rewrite (bind_survived _ _ n 1 tt w w) by apply file_call_quiet.
  destruct n as [|n]; [simpl; by rewrite take_none, add_text_nil|]. change (S n <? 1)%nat with false. cbv iota.
  replace (S n - 1)%nat with n by lia. rewrite take_app. fold line_length.
  erewrite bind_survived by apply write_all_quiet. fold line. fold line_length.
  destruct (Nat.ltb_spec n line_length) as [Hlt|Hge].
  { replace (n - line_length)%nat with 0 by lia. unfold survived.
    rewrite (proj2 (Nat.ltb_lt _ _)) by lia. simpl. by rewrite str_app_nil_r. }
  erewrite bind_survived by apply write_all_quiet. rewrite add_text_app.
  destruct (Nat.ltb_spec (n - line_length) (String.length newline)) as [Hlt|Hge'];
    change (String.length newline) with 1%nat in *.
  { unfold survived. rewrite (proj2 (Nat.ltb_lt _ _)) by lia. done. }
  rewrite file_call_quiet. f_equal. unfold survived.
  replace (S n - (3 + line_length))%nat with (n - line_length - 1 - 1)%nat by lia.
  replace (S n <? 3 + line_length)%nat with (n - line_length - 1 <? 1)%nat; [done|].
  apply eq_bool_prop_intro. rewrite !Is_true_true, !Nat.ltb_lt. lia.
Qed.

(** An append to a sink that does not list the task yet, and to one that does. *)
Lemma persist_quiet n w :
  ~ tr_task_id r ∈ sk_seen (ledger_of r) (wd_sink w) ->
  persist r (quiet n) w
  = (survived n (3 + line_length) tt,
     add_text set_sink (ledger_of r) (String.substring 0 (n - 1) (line +:+ newline))
       (set_sink (set_seen (ledger_of r) (union {[tr_task_id r]})) w)).
Proof.
  intros Hnew. unfold persist, persist_terminal, sink_append, reserve.
  unfold bind, ask, modify, ret. rewrite bool_decide_eq_true_2 by done. cbn [negb]. unfold attempt.
  rewrite append_quiet. unfold survived. by destruct (n <? 3 + line_length)%nat.
Qed.

Lemma persist_known n w :
  tr_task_id r ∈ sk_seen (ledger_of r) (wd_sink w) ->
  persist r (quiet n) w = (Done (Ok tt) (quiet n), w).
Proof.
  clear secs parse_task_result decode_run_result.
  intros Hin. unfold persist, persist_terminal, sink_append, reserve, bind, ask, modify, ret.
  rewrite (bool_decide_eq_false_2 (tr_task_id r ∉ _)) by tauto. simpl. unfold set_sink.
  rewrite set_seen_id by set_solver. by destruct w.
Qed.

(** A dead process leaves its control plane, its journal and its files. *)
Lemma restart_mk runs atts journal sink orphans beats stops :
  restart (mkWorld runs atts journal sink orphans beats stops)
  = (fun sink => mkWorld runs atts journal sink ∅ ∅ ∅) <$> sink_reopen sink.
Proof. done. Qed.

Lemma set_world_mk runs atts journal sink orphans beats stops :
  let w := mkWorld runs atts journal sink orphans beats stops in
  (forall f, set_runs f w = mkWorld (f runs) atts journal sink orphans beats stops)
  /\ (forall f, set_journal f w = mkWorld runs atts (f journal) sink orphans beats stops)
  /\ (forall f, set_sink f w = mkWorld runs atts journal (f sink) orphans beats stops)
  /\ (forall o b s, set_process o b s w = mkWorld runs atts journal sink o b s).
Proof. by split_and!. Qed.

Lemma stop_none id envs w :
  wd_heartbeats w !! id = None -> stop_lease_heartbeat id envs w = (Done (Ok tt) envs, w).
Proof. unfold stop_lease_heartbeat, modify. by intros ->. Qed.
Lemma control_dead op w : control op (quiet 0) w = (Crashed, w).
Proof. done. Qed.
Lemma write_dead record w : write_record record (quiet 0) w = (Crashed, w).
Proof. done. Qed.
Lemma stage_dead w : stage_result r (quiet 0) w = (Crashed, w).
Proof.
  unfold stage_result. rewrite Hrun, Hatt. unfold bind. simpl. by rewrite Hepoch, (proj2 (Z.eqb_neq _ _) Hpos).
Qed.

(** The setters on an explicit world, so that a composition of them is
    normalised from the inside out. *)
Ltac settle_world :=
  rewrite ?control_dead, ?write_dead; unfold leased_world, fresh_world, add_text; cbv beta iota; cbn [fst snd];
  repeat first
    [ rewrite (proj1 (set_world_mk _ _ _ _ _ _ _))
    | rewrite (proj1 (proj2 (set_world_mk _ _ _ _ _ _ _)))
    | rewrite (proj1 (proj2 (proj2 (set_world_mk _ _ _ _ _ _ _))))
    | rewrite (proj2 (proj2 (proj2 (set_world_mk _ _ _ _ _ _ _)))) ];
  rewrite restart_mk; unfold after, after_with, files_after, text_after;
  rewrite ?insert_empty, ?insert_singleton_eq.

(** Reopening does not look at what was seen. *)
Lemma reopen_seen l f s : sink_reopen (set_seen l f s) = sink_reopen s.
Proof. by destruct l. Qed.
Lemma reopen_file_seen l l' f g s : sink_reopen (set_file l g (set_seen l' f s)) = sink_reopen (set_file l g s).
Proof. by destruct l, l'. Qed.
Lemma set_file_empty l : set_file l (fun c => c +:+ "") empty_sink = empty_sink.
Proof. by destruct l. Qed.

Lemma crashed_is_after n : (n <= 8 + line_length)%nat -> crashed_world n = after n.
Proof.
  intros Hn. unfold crashed_world, finalize_result, attempt, bind.
  destruct n as [|n].
  { rewrite stage_dead. settle_world. by rewrite take_none, set_file_empty. }
  rewrite stage_quiet. unfold commit_record, bind_attempt, bind.
  destruct n as [|n]; [settle_world; by rewrite take_none, set_file_empty|].
  erewrite control_quiet by apply bind_free. simpl.
  destruct n as [|n]; [settle_world; by rewrite take_none, set_file_empty|].
  erewrite control_quiet by apply commit_bound.
  destruct n as [|n]; [settle_world; by rewrite take_none, set_file_empty|].
  rewrite write_quiet. unfold ret. simpl.
  rewrite persist_quiet by (destruct (ledger_of r); apply not_elem_of_empty). unfold survived.
  destruct (Nat.ltb_spec n (3 + line_length)) as [Hlt|Hge].
  { settle_world. rewrite reopen_file_seen. replace (S (S (S (S n))) - 5)%nat with (n - 1)%nat by lia.
    rewrite (proj2 (Nat.leb_gt _ _)) by lia. done. }
  destruct (n - (3 + line_length))%nat as [|j] eqn:Hj.
  { settle_world. rewrite reopen_file_seen. replace (S (S (S (S n))) - 5)%nat with (n - 1)%nat by lia.
    rewrite (proj2 (Nat.leb_gt _ _)) by lia. done. }
  rewrite write_quiet, Hrun. cbv beta iota. rewrite stop_none by apply lookup_empty.
  unfold lift, ret. cbv beta iota. settle_world. rewrite reopen_file_seen.
  replace (S (S (S (S n))) - 5)%nat with (n - 1)%nat by lia.
  rewrite (proj2 (Nat.leb_le _ _)) by lia. done.
Qed.

Lemma read_quiet k w record :
  wd_journal w = {[journal_path (tr_task_id r) := record]} ->
  read_records (quiet (S k)) w = (Done (Ok [record]) (quiet k), w).
Proof. intros Hj. unfold read_records. rewrite io_quiet, Hj, map_to_list_singleton. done. Qed.

Lemma list_quiet k w rec :
  wd_runs w = {[run := rec]} -> list_runs (quiet (S k)) w = (Done (Ok [rec]) (quiet k), w).
Proof. intros Hr. unfold list_runs. rewrite io_quiet, Hr, map_to_list_singleton. done. Qed.

(** Once the journal is done with and the Run is committed, the rest of a
    reconciliation only reports. *)
Lemma reconcile_committed_rest k w w1 record report rev' :
  wd_journal w = {[journal_path (tr_task_id r) := record]} ->
  reconcile_record c record report_default (quiet k) w = (Done (Ok report) (quiet 1), w1) ->
  wd_runs w1 = {[run := leased_run rev' (Some att) (Some the_commit)]} ->
  exists report', reconcile c process_local_observer (quiet (S k)) w = (Done (Ok report') (quiet 0), w1)
    /\ tr_task_id r ∈ rp_committed report' /\ ~ tr_task_id r ∈ rp_retry report'.
Proof.
  clear secs parse_task_result decode_run_result.
  intros Hj Hrec Hw1. unfold reconcile, bind. rewrite (read_quiet k w record Hj). simpl.
  unfold bind, ret. rewrite Hrec. cbv beta iota. rewrite (list_quiet 0 w1 _ Hw1). simpl.
  unfold bind, reconcile_run. simpl. rewrite Hscope. simpl. unfold ret.
  eexists. split; [done|]. simpl. set_solver.
Qed.

Lemma commit_quiet k w rev' :
  wd_runs w = {[run := leased_run (rev + 1) (Some att) None]} \/
  wd_runs w = {[run := mkRunControlRecord rev run (Some lease) None]} ->
  rev' = (rev + 2)%Z ->
  commit_record (journalled ResultStaged false) (quiet (3 + k)) w
  = (Done (Ok (journalled ResultCommitted false)) (quiet k),
     set_journal (<[journal_path (tr_task_id r) := journalled ResultCommitted false]>)
       (set_runs (fun _ => {[run := leased_run rev' (Some att) (Some the_commit)]}) w)).
Proof.
  intros Hw ->. unfold commit_record, bind_attempt, bind.
  assert (atomic_map_call (OpBind run (tr_lease_epoch r) att) (now, now) (wd_runs w)
          = Ok (OutBool true, {[run := leased_run (rev + 1) (Some att) None]})) as Hb
    by (destruct Hw as [-> | ->]; [apply bind_bound|apply bind_free]).
  change (quiet (3 + k)) with (quiet (S (S (S k)))). erewrite control_quiet by exact Hb.
  cbv beta iota delta [lift ret negb]. erewrite control_quiet by apply commit_bound.
  cbv beta iota zeta. rewrite write_quiet. done.
Qed.

(** *** What the reader finds in the ledger *)

Lemma line_one_line : no_newline line = true.
Proof. apply json_text_one_line. Qed.

Lemma ndjson_not_empty : line <> "".
Proof.
  unfold line, to_ndjson. intros H. pose proof (json_text_not_blank (task_result_value f64_value f64_of_number r)) as Hb.
  rewrite H in Hb. done.
Qed.

(** The line is listed from its last byte on, its line feed written or not. *)
Lemma lines_after n : (5 + line_length <= n)%nat -> read_lines (text_after n) = [Some line].
Proof.
  intros Hn. unfold text_after. rewrite take_app. fold line_length.
  rewrite (take_all _ line) by (fold line_length; lia).
  destruct (n - 5 - line_length)%nat as [|k] eqn:Hk.
  - rewrite take_none, str_app_nil_r, read_lines_tail by apply line_one_line.
    rewrite bool_decide_eq_false_2 by apply ndjson_not_empty. unfold checked_line, line, to_ndjson.
    by rewrite json_text_utf8.
  - rewrite (take_all _ newline) by (simpl; lia).
    exact (read_lines_append f64_value f64_of_number "" r eq_refl).
Qed.

Lemma files_after_lines l n :
  read_lines (sk_file l (files_after n)) = if decide (l = ledger_of r) then read_lines (text_after n) else [].
Proof. unfold files_after. by destruct l, (ledger_of r). Qed.

Lemma appended_lines l (s : JsonlFileSink) g :
  (forall l, sk_file l s = "") ->
  read_lines (sk_file l (set_file (ledger_of r) (fun c => c +:+ line +:+ newline) (set_seen (ledger_of r) g s)))
  = if decide (l = ledger_of r) then [Some line] else [].
Proof.
  intros Hs. destruct (decide (l = ledger_of r)) as [->|Hne].
  - rewrite set_file_same, set_seen_file, Hs. exact (read_lines_append f64_value f64_of_number "" r eq_refl).
  - by rewrite set_file_ne, set_seen_file, Hs.
Qed.

Lemma reopen_empty n : (n <= 5)%nat -> sink_reopen (files_after n) = Some empty_sink.
Proof.
  intros Hn. unfold files_after, text_after. replace (n - 5)%nat with 0%nat by lia.
  by rewrite take_none, set_file_empty.
Qed.

Lemma reopen_lists n :
  (5 + line_length <= n)%nat ->
  exists sink, sink_reopen (files_after n) = Some sink
    /\ (forall l, sk_file l sink = sk_file l (files_after n)) /\ tr_task_id r ∈ sk_seen (ledger_of r) sink.
Proof.
  clear secs parse_task_result decode_run_result. intros Hn. pose proof (lines_after n Hn) as Hl.
  assert (load_task_ids (text_after n) = Some ({[tr_task_id r]} ∪ listed_ids [])) as Hload.
  { unfold load_task_ids, all_lines. rewrite Hl.
    by rewrite <- (listed_ids_app f64_value f64_of_number [] r). }
  unfold sink_reopen, sink_open, ledger_load, files_after.
  destruct (ledger_of r); simpl; change ("" +:+ text_after n) with (text_after n); rewrite Hload; simpl;
    (eexists; split; [reflexivity|]; split; [by intros []|set_solver]).
Qed.

Lemma persist_done k w :
  ~ tr_task_id r ∈ sk_seen (ledger_of r) (wd_sink w) ->
  persist r (quiet (3 + line_length + k)) w
  = (Done (Ok tt) (quiet k),
     add_text set_sink (ledger_of r) (line +:+ newline)
       (set_sink (set_seen (ledger_of r) (union {[tr_task_id r]})) w)).
Proof.
  intros Hnew. rewrite persist_quiet by done. rewrite take_all
    by (rewrite str_length_app; fold line_length; change (String.length newline) with 1%nat; lia).
  unfold survived. rewrite (proj2 (Nat.ltb_ge _ _)) by lia.
  by replace (3 + line_length + k - (3 + line_length))%nat with k by lia.
Qed.

(** *** Reconciliation after a crash *)

(** With [m] effects the reconciliation of the restarted process answers; each
    ledger has the lines it should. *)
Definition recovered (m : nat) (n : nat) : Prop :=
  exists w0 report w', crashed_world n = Some w0
  /\ reconcile c process_local_observer (quiet m) w0 = (Done (Ok report) (quiet 0), w')
  /\ (forall l, read_lines (sk_file l (wd_sink w')) = if decide (l = ledger_of r) then [Some line] else [])
  /\ wd_journal w' = {[journal_path (tr_task_id r) := journalled ResultCommitted true]}
  /\ tr_task_id r ∈ rp_committed report /\ ~ tr_task_id r ∈ rp_retry report.

(** A name for a number that is not to be computed. *)
Lemma eq_exists (n : nat) : exists k, k = n.
Proof. eauto. Qed.

Lemma not_seen_empty : ~ tr_task_id r ∈ sk_seen (ledger_of r) empty_sink.
Proof. destruct (ledger_of r); apply not_elem_of_empty. Qed.

Lemma recover_staged n : n = 1%nat \/ n = 2%nat -> recovered (9 + line_length) n.
Proof.
  intros Hn. exists (after_with n empty_sink). destruct (eq_exists (3 + line_length + 2)) as [k Hk].
  edestruct (reconcile_committed_rest (3 + k) (after_with n empty_sink)) as (report' & Hrec & Hrep).
  - by destruct Hn as [-> | ->].
  - unfold reconcile_record. simpl. rewrite Hscope. simpl. unfold attempt, bind at 1.
    change (S (S (S k))) with (3 + k). rewrite (commit_quiet k (after_with n empty_sink) (rev + 2))
      by (by destruct Hn as [-> | ->]; auto). simpl.
    unfold bind. rewrite Hk, (persist_done 2) by apply not_seen_empty.
    rewrite write_quiet. unfold ret. reflexivity.
  - reflexivity.
  - eexists _, _. split; [by rewrite crashed_is_after by lia; unfold after; rewrite reopen_empty by lia|].
    split; [replace (9 + line_length) with (S (3 + k)) by lia; exact Hrec|].
    split; [intros l; apply appended_lines; by intros []|].
    split; [|exact Hrep]. destruct Hn as [-> | ->]; simpl; by rewrite ?insert_singleton_eq.
Qed.

Lemma recover_committed n : n = 4%nat \/ n = 5%nat -> recovered (6 + line_length) n.
Proof.
  intros Hn. exists (after_with n empty_sink).
  assert (after_with n empty_sink = after_with 4 empty_sink) as Hsame.
  { destruct Hn as [-> | ->]; [done|]. unfold after_with. rewrite !(proj2 (Nat.leb_gt _ _)) by
      (pose proof ndjson_not_empty; unfold line_length; destruct line; simpl; [done|lia]). done. }
  destruct (eq_exists (3 + line_length + 2)) as [k Hk].
  edestruct (reconcile_committed_rest k (after_with 4 empty_sink)) as (report' & Hrec & Hrep).
  - reflexivity.
  - unfold reconcile_record. simpl. rewrite Hscope. simpl.
    unfold bind. rewrite Hk, (persist_done 2) by apply not_seen_empty.
    rewrite write_quiet. unfold ret. reflexivity.
  - reflexivity.
  - eexists _, _. split; [by rewrite crashed_is_after by lia; unfold after; rewrite reopen_empty by lia|].
    rewrite Hsame.
    split; [replace (6 + line_length) with (S k) by lia; exact Hrec|].
    split; [intros l; apply appended_lines; by intros []|].
    split; [|exact Hrep]. simpl. by rewrite ?insert_singleton_eq.
Qed.

(** The journal after [n] effects, from the note of the commit on. *)
Lemma journal_after n sink :
  (4 <= n)%nat ->
  wd_journal (after_with n sink)
  = {[journal_path (tr_task_id r) := journalled ResultCommitted (8 + line_length <=? n)]}.
Proof. intros Hn. do 4 (destruct n as [|n]; [lia|]). done. Qed.

Lemma runs_after n sink :
  (3 <= n)%nat -> wd_runs (after_with n sink) = {[run := leased_run (rev + 2) (Some att) (Some the_commit)]}.
Proof. intros Hn. do 3 (destruct n as [|n]; [lia|]). done. Qed.

Lemma recover_appended n : (5 + line_length <= n <= 8 + line_length)%nat -> exists m, recovered m n.
Proof.
  intros Hn. destruct (reopen_lists n) as (sink & Hre & Hfile & Hseen); [lia|].
  assert (crashed_world n = Some (after_with n sink)) as Hcr
    by (rewrite crashed_is_after by lia; unfold after; by rewrite Hre).
  assert (forall l, read_lines (sk_file l sink) = if decide (l = ledger_of r) then [Some line] else []) as Hlines
    by (intros l; rewrite Hfile, files_after_lines; by rewrite lines_after by lia).
  destruct (8 + line_length <=? n) eqn:Hdone.
  - edestruct (reconcile_committed_rest 1 (after_with n sink) (after_with n sink)) as (report' & Hrec & Hrep);
      [by rewrite journal_after, Hdone by lia| |by apply runs_after; lia|].
    { unfold reconcile_record. simpl. rewrite Hscope. simpl. reflexivity. }
    exists 2, (after_with n sink), report', (after_with n sink). split_and!; [done|done|done| |by apply Hrep..].
    by rewrite journal_after, Hdone by lia.
  - edestruct (reconcile_committed_rest 2 (after_with n sink)) as (report' & Hrec & Hrep);
      [by rewrite journal_after, Hdone by lia| | |].
    { unfold reconcile_record. simpl. rewrite Hscope. simpl.
      unfold bind. rewrite (persist_known 2) by exact Hseen. rewrite write_quiet. unfold ret. reflexivity. }
    { exact (runs_after n sink ltac:(lia)). }
    eexists 3, (after_with n sink), report', _. split_and!; [done|exact Hrec|done| |by apply Hrep..].
    cbn [wd_journal set_journal]. rewrite journal_after, Hdone by lia. by rewrite insert_singleton_eq.
Qed.

(** C6: [finalize_result] survives a crash, in this setting: the control plane
    holds one Run, leased to this result's epoch, no attempt bound and no
    commit; the result names that Run, an attempt and the nonzero epoch, and its
    digest is not blank; the revision does not overflow; the coordinator's
    scope includes the Run; journal and ledgers are new; nobody else acts and
    no effect fails; the process dies after [n] effects of [finalize_result],
    of which the bytes of the line are one each, and is restarted with the
    process-local observer, which reconciles while the lease is valid.  Then for
    every [n] from the staging on to the end, except the commit without the note
    of it ([crash_after_commit_loses_result]) and the line cut short
    ([crash_inside_append_glues_result]), the reconciliation answers, a reader of
    the ledgers finds the result as their only line, in the ledger of its kind,
    the journal is settled, and the task is reported as committed and not to be
    retried: the workload is not executed again.  Before the staging there is
    nothing to recover, and the task is retried ([crash_before_staging_retries]). *)
Theorem finalize_crash_recovers n :
  (1 <= n <= 8 + line_length)%nat -> n <> 3%nat -> ~ (5 < n < 5 + line_length)%nat -> exists m, recovered m n.
Proof.
  intros Hn H3 Htorn. destruct (decide (n <= 5)%nat) as [Hle|Hgt].
  - assert (n = 1 \/ n = 2 \/ n = 4 \/ n = 5)%nat as [?|[?|[?|?]]] by lia; eauto using recover_staged, recover_committed.
  - apply recover_appended. lia.
Qed.

(** A process that dies before the result is staged leaves a lease without an
    attempt: the task is handed out again. *)
Theorem crash_before_staging_retries :
  lease_task_id lease = Some (tr_task_id r) ->
  exists w0 report w', crashed_world 0 = Some w0
  /\ reconcile c process_local_observer (quiet 2) w0 = (Done (Ok report) (quiet 0), w')
  /\ sk_ready (wd_sink w') = "" /\ sk_failures (wd_sink w') = "" /\ wd_journal w' = ∅
  /\ tr_task_id r ∈ rp_retry report /\ ~ tr_task_id r ∈ rp_committed report.
Proof.
  clear secs parse_task_result decode_run_result. intros Htask. exists (after_with 0 empty_sink).
  eexists _, _. split; [by rewrite crashed_is_after by lia; unfold after; rewrite reopen_empty by lia|].
  split.
  { unfold reconcile, bind. unfold read_records. rewrite io_quiet. simpl. rewrite map_to_list_empty. simpl.
    unfold ret. rewrite map_to_list_singleton. simpl. unfold bind, reconcile_run. simpl. rewrite Hscope, Htask. simpl.
    rewrite bool_decide_eq_false_2 by set_solver. reflexivity. }
  simpl. split_and!; [done..|set_solver|set_solver].
Qed.

(** The window that loses a result.  If the process dies between the commit
    of the Run and the journal's note of it, the reconciliation finds the
    lease no longer bindable (the Run is committed), fences the staged result
    and never appends it, although it reports the task as committed and does
    not retry it: the only result of the Run is in no ledger. *)
Theorem crash_after_commit_loses_result :
  exists w0 report w', crashed_world 3 = Some w0
  /\ reconcile c process_local_observer (quiet 5) w0 = (Done (Ok report) (quiet 0), w')
  /\ result_won (wd_runs w') r
  /\ sk_ready (wd_sink w') = "" /\ sk_failures (wd_sink w') = ""
  /\ wd_journal w' = {[journal_path (tr_task_id r) := journalled ResultFenced false]}
  /\ tr_task_id r ∈ rp_committed report /\ ~ tr_task_id r ∈ rp_retry report.
Proof.
  edestruct (reconcile_committed_rest 4 (after_with 3 empty_sink)) as (report' & Hrec & Hrep).
  - reflexivity.
  - unfold reconcile_record. simpl. rewrite Hscope. simpl. unfold attempt, commit_record, bind_attempt, bind.
    change (quiet 4) with (quiet (S 3)). erewrite control_quiet by apply bind_committed. reflexivity.
  - reflexivity.
  - exists (after_with 3 empty_sink). eexists _, _.
    split; [by rewrite crashed_is_after by lia; unfold after; rewrite reopen_empty by lia|].
    split; [exact Hrec|]. split_and!; [|done|done| |apply Hrep|apply Hrep].
    + exists run, att, (leased_run (rev + 2) (Some att) (Some the_commit)), the_commit. simpl.
      split_and!; [done|done|apply lookup_singleton_eq|done|done].
    + simpl. by rewrite ?insert_singleton_eq.
Qed.

(** The windows that make a result unreadable.  If the process dies inside the
    line and what it left is not itself taken for the task, the reconciliation
    appends the line after it, notes the result as persisted and reports the
    task as committed; the ledger has one line, of the two run together. *)
Theorem crash_inside_append_glues_result n w0 :
  (5 < n < 5 + line_length)%nat -> crashed_world n = Some w0 ->
  ~ tr_task_id r ∈ sk_seen (ledger_of r) (wd_sink w0) ->
  exists m report w', reconcile c process_local_observer (quiet m) w0 = (Done (Ok report) (quiet 0), w')
  /\ read_lines (sk_file (ledger_of r) (wd_sink w')) = [checked_line (strip_cr (text_after n +:+ line))]
  /\ wd_journal w' = {[journal_path (tr_task_id r) := journalled ResultCommitted true]}
  /\ tr_task_id r ∈ rp_committed report /\ ~ tr_task_id r ∈ rp_retry report.
Proof.
  intros Hn Hcr Hnew. rewrite crashed_is_after in Hcr by lia. apply fmap_Some in Hcr as (sink & Hre & ->).
  destruct (eq_exists (3 + line_length + 2)) as [k Hk].
  edestruct (reconcile_committed_rest k (after_with n sink)) as (report' & Hrec & Hrep);
    [by rewrite journal_after, (proj2 (Nat.leb_gt (8 + line_length) n)) by lia| | |].
  { unfold reconcile_record. simpl. rewrite Hscope. simpl.
    unfold bind. rewrite Hk, (persist_done 2) by exact Hnew. rewrite write_quiet. unfold ret. reflexivity. }
  { exact (runs_after n sink ltac:(lia)). }
  eexists (S k), report', _. split_and!; [exact Hrec| | |by apply Hrep..].
  - cbn [wd_sink set_journal set_sink add_text after_with].
    rewrite set_file_same, set_seen_file, (sink_reopen_file _ _ _ Hre). unfold files_after.
    rewrite set_file_same. replace (sk_file (ledger_of r) empty_sink) with "" by (by destruct (ledger_of r)).
    apply (read_lines_glued f64_value f64_of_number ""); [done|]. unfold text_after. rewrite take_app.
    replace (n - 5 - String.length line)%nat with 0%nat by (fold line_length; lia).
    rewrite take_none, str_app_nil_r.
    pose proof line_one_line as Hl. clear -Hl. revert Hl. generalize (n - 5)%nat.
    induction line as [|a s IH]; intros [|i]; try done. unfold no_newline in *. simpl.
    intros [-> Hs]%andb_prop. by apply IH.
  - cbn [wd_journal set_journal set_sink add_text]. rewrite journal_after by lia. by rewrite insert_singleton_eq.
Qed.
End CrashWindows.

(** ** Registered heartbeats

    A heartbeat is known by its token.  [start_lease_heartbeat] registers a new
    one and cancels the one it replaces; dropping the handle cancels it and
    unregisters the Run, unless the handle was detached. *)
Definition start_lease_heartbeat (run_id : RunId) (token : nat) : Co unit :=
  modify (fun w =>
    set_process (wd_orphaned w) (<[run_id := token]> (wd_heartbeats w))
      (match wd_heartbeats w !! run_id with Some old => {[old]} ∪ wd_stopped w | None => wd_stopped w end) w).

Definition drop_heartbeat (run_id : RunId) (token : nat) (detached : bool) : Co unit :=
  if detached then ret tt
  else modify (fun w =>
         set_process (wd_orphaned w) (delete run_id (wd_heartbeats w)) ({[token]} ∪ wd_stopped w) w).

(** Effects leave the registered heartbeats alone. *)
Definition keeps_heartbeats {A} (m : Co A) : Prop :=
  forall h, let P := fun w => wd_heartbeats w = h in triple P m (fun _ => P) P P.

Lemma keeps_io {A} (f : Z -> World -> result CoordError A * World) :
  (forall now w, wd_heartbeats (snd (f now w)) = wd_heartbeats w) -> keeps_heartbeats (io f).
Proof.
  intros Hf h P. apply triple_effect; [|done|done|].
  - intros o w Hw. destruct o; simpl; [|done]. by destruct (atomic_map_call _ _ _) as [[? ?]|].
  - intros now w Hw. specialize (Hf now w). destruct (f now w) as [[a|e] w']; simpl in Hf;
      unfold P in *; rewrite Hf; done.
Qed.

Lemma keeps_bind {A B} (m : Co A) (k : A -> Co B) :
  keeps_heartbeats m -> (forall a, keeps_heartbeats (k a)) -> keeps_heartbeats (bind m k).
Proof. intros Hm Hk h P. eapply triple_bind; [apply Hm|]. intros a. apply Hk. Qed.

Lemma keeps_lift {A} (x : result CoordError A) : keeps_heartbeats (lift x).
Proof. intros h P. destruct x; [by apply triple_ret|by apply triple_throw]. Qed.

Lemma keeps_attempt {A} (m : Co A) : keeps_heartbeats m -> keeps_heartbeats (attempt m).
Proof. intros Hm h P. eapply triple_attempt; [apply Hm|done]. Qed.

Lemma keeps_modify (f : World -> World) :
  (forall w, wd_heartbeats (f w) = wd_heartbeats w) -> keeps_heartbeats (modify f).
Proof. intros Hf h P. apply triple_modify. intros w Hw. unfold P in *. by rewrite Hf. Qed.

Lemma keeps_ask {A} (f : World -> A) : keeps_heartbeats (ask f).
Proof. intros h P. by apply triple_ask. Qed.

Lemma keeps_write record : keeps_heartbeats (write_record record).
Proof. by apply keeps_io. Qed.

Lemma keeps_control op : keeps_heartbeats (control op).
Proof. apply keeps_io. intros now w. by destruct (atomic_map_call _ _ _) as [[? ?]|]. Qed.

Lemma keeps_write_all l buf : keeps_heartbeats (write_all other IoFailure set_sink l buf).
Proof.
  induction buf as [|a buf IH]; [apply (keeps_lift (Ok tt))|]. apply keeps_bind; [by apply keeps_io|done].
Qed.

Ltac keeps :=
  repeat first
    [ progress intros
    | apply keeps_write | apply keeps_control | apply keeps_write_all | apply keeps_lift | apply keeps_ask | apply keeps_attempt
    | apply (keeps_lift (Ok _)) | apply (keeps_lift (Err _))
    | (apply keeps_modify; by intros) | (apply keeps_io; by intros) | apply keeps_bind
    | case_match ].

Lemma keeps_inner r :
  keeps_heartbeats (let! record := stage_result r in
     let! record := commit_record record in
     persist (dr_result record) ;; write_record (set_persisted record)).
Proof.
  unfold stage_result, commit_record, bind_attempt, persist, persist_terminal, sink_append, reserve, unreserve,
    append_line, file_call. keeps.
Qed.

(** A finished [finalize_result], successful or not, has stopped the heartbeat
    of its Run. *)
Lemma finalize_stops_heartbeat r run envs w token :
  tr_run_id r = Some run -> wd_heartbeats w !! run = Some token ->
  match finalize_result r envs w with
  | (Crashed, _) => True
  | (Done _ _, w') => wd_heartbeats w' !! run = None /\ token ∈ wd_stopped w'
  end.
Proof.
  intros Hrun Htok. unfold finalize_result, bind at 1.
  pose proof (keeps_attempt _ (keeps_inner r) (wd_heartbeats w) envs w eq_refl) as Hkeep.
  destruct (attempt _ envs w) as [[|[o|e] rest] w'] eqn:E; [done| |].
  - rewrite Hrun. unfold bind, stop_lease_heartbeat, modify. rewrite Hkeep, Htok.
    destruct o; simpl; (split; [apply lookup_delete_eq|set_solver]).
  - exfalso. unfold attempt in E. by destruct (bind _ _ envs w) as [[|? ?] ?].
Qed.
End Coordinator.

Module CoordExample.
Definition secs (_ : Z) : unit := tt.
Definition f64_value (_ : unit) : Value := JNull.
Definition f64_of_number (_ : JsonNumber) : unit := tt.
Definition parse (_ : string) : option (@TaskResult unit) := None.
Definition decode (_ : Value) : option (@RunResult unit) := None.
Definition sha (s : string) : string := s.

Definition job : RunCoordinator := mkCoordinator 30000 "owner" (Some "run-").
Definition lease : RunLeaseRecord := mkRunLeaseRecord "run-1" (Some "task-1") 1 "owner" 0 30000 None.
Definition result : TaskResult :=
  set_control "run-1" "att-1" 1 (task_success "task-1" (JNumber (JInt 42)) "w0" tt tt).
Definition w0 : @World unit := fresh_world {[ "run-1" := mkRunControlRecord 1 "run-1" (Some lease) None ]} ∅.
Definition envs (n : nat) : list (Env Other) := repeat (mkEnv 10 [] Answered 0) n.

Local Abbreviation step := (co_step secs f64_value f64_of_number parse decode sha).

(** The world after a complete [finalize_result]: eight effects and the bytes
    of the line. *)
Definition bytes : nat := line_length f64_value f64_of_number result.
Definition w1 : @World unit := snd (finalize_result f64_value f64_of_number sha result (envs (8 + bytes)) w0).

Lemma reach1 : rtc step w0 w1.
Proof. apply rtc_once, (step_finalize secs f64_value f64_of_number parse decode sha). Qed.

Lemma sink_holds_only_winners_witness :
  exists piece pieces, sk_ready (wd_sink w1) = str_concat (piece :: pieces).*2
    /\ ledger_of piece.1 = Ready /\ result_won f64_value f64_of_number sha (wd_runs w1) piece.1.
Proof.
  destruct (sink_holds_only_winners secs f64_value f64_of_number parse decode sha
           {[ "run-1" := mkRunControlRecord 1 "run-1" (Some lease) None ]} ∅ w1 Ready reach1)
    as ([|piece pieces] & Hc & Hp & _).
  - exfalso. revert Hc. vm_compute. discriminate.
  - apply Forall_cons_1 in Hp as [(Hl & Hwon & _) _]. exists piece, pieces. split; [exact Hc|]. split; [exact Hl|exact Hwon].
Defined.

(** A crash after the commit was noted, a restart, and a reconciliation. *)
Definition w2 : @World unit :=
  default w0 (restart (snd (finalize_result f64_value f64_of_number sha result (envs 4) w0))).
Definition reconciled := reconcile f64_value f64_of_number sha job process_local_observer (envs (6 + bytes)) w2.

Lemma reach2 : rtc step w0 w2.
Proof.
  eapply rtc_l; [apply (step_finalize secs f64_value f64_of_number parse decode sha result (envs 4))|].
  apply rtc_once, (step_restart secs f64_value f64_of_number parse decode sha). vm_compute. reflexivity.
Qed.

Definition report2 : ReconcileReport :=
  match fst reconciled with Done (Ok report) _ => report | _ => report_default end.
Lemma reconciled_ok : reconciled = (Done (Ok report2) [], snd reconciled).
Proof. vm_compute. reflexivity. Qed.

Lemma reconcile_settles_journal_witness :
  exists record, wd_journal (snd reconciled) !! journal_path sha "task-1" = Some record /\ settled record.
Proof.
  eexists. split; [vm_compute; reflexivity|].
  eapply (reconcile_settles_journal secs f64_value f64_of_number parse decode sha
           {[ "run-1" := mkRunControlRecord 1 "run-1" (Some lease) None ]} ∅ w2 job process_local_observer
           (envs (6 + bytes)) report2 [] (snd reconciled) (journal_path sha "task-1"));
    [exact reach2|by left|exact reconciled_ok|vm_compute; reflexivity|reflexivity].
Defined.

Lemma reconcile_never_retries_committed_witness :
  "task-1" ∈ rp_committed report2 /\ ~ "task-1" ∈ rp_retry report2.
Proof.
  eapply (reconcile_never_retries_committed secs f64_value f64_of_number parse decode sha
           {[ "run-1" := mkRunControlRecord 1 "run-1" (Some lease) None ]} ∅ w2 job process_local_observer
           (envs (6 + bytes)) report2 [] (snd reconciled) "run-1");
    [exact reach2|by left|exact reconciled_ok|vm_compute; reflexivity..].
Defined.

Lemma finalize_crash_recovers_witness :
  exists m, recovered f64_value f64_of_number sha job result "run-1" "att-1" lease 1 10 ∅ m 5.
Proof.
  apply (finalize_crash_recovers f64_value f64_of_number sha job result "run-1" "att-1" lease 1 10 ∅);
    try reflexivity; try discriminate; [vm_compute; split; discriminate|lia..].
Defined.

Lemma crash_after_commit_loses_result_witness :
  exists w0 report w',
    crashed_world f64_value f64_of_number sha result "run-1" lease 1 10 ∅ 3 = Some w0
  /\ reconcile f64_value f64_of_number sha job process_local_observer (quiet 10 5) w0
    = (Done (Ok report) (quiet 10 0), w')
  /\ result_won f64_value f64_of_number sha (wd_runs w') result
  /\ sk_ready (wd_sink w') = "" /\ sk_failures (wd_sink w') = ""
  /\ wd_journal w'
     = {[journal_path sha "task-1" := journalled f64_value f64_of_number sha result "run-1" "att-1" ResultFenced false]}
  /\ "task-1" ∈ rp_committed report /\ ~ "task-1" ∈ rp_retry report.
Proof.
  apply (crash_after_commit_loses_result f64_value f64_of_number sha job result "run-1" "att-1" lease 1 10 ∅);
    try reflexivity; try discriminate; vm_compute; split; discriminate.
Defined.

(** Ten bytes of the line are in the ledger when the process dies. *)
Definition torn : option (@World unit) := crashed_world f64_value f64_of_number sha result "run-1" lease 1 10 ∅ 15.
Lemma crash_inside_append_glues_result_witness :
  exists w m report w', torn = Some w
  /\ reconcile f64_value f64_of_number sha job process_local_observer (quiet 10 m) w
     = (Done (Ok report) (quiet 10 0), w')
  /\ "task-1" ∈ rp_committed report.
Proof.
  destruct torn as [w|] eqn:Hw; [|exfalso; revert Hw; vm_compute; discriminate].
  destruct (crash_inside_append_glues_result f64_value f64_of_number sha job result "run-1" "att-1" lease 1 10 ∅
              ltac:(reflexivity) ltac:(reflexivity) ltac:(reflexivity) ltac:(reflexivity) ltac:(discriminate)
              ltac:(reflexivity) ltac:(reflexivity) ltac:(reflexivity) ltac:(vm_compute; split; discriminate)
              15 w) as (m & report & w' & Hrec & _ & _ & Hin & _).
  - vm_compute. lia.
  - exact Hw.
  - apply (bool_decide_eq_true_1 _). revert Hw. vm_compute. by intros [= <-].
  - exists w, m, report, w'. done.
Defined.
End CoordExample.
