(* ===== verification/Heartbeat.v ===== *)
(** * pPilot: the lease heartbeat

    Models the task spawned by [start_lease_heartbeat] of
    [persisting-ppilot/src/coordination.rs] with [wait_for_lease_renewal]: when
    it renews, when it gives up and cancels the task it watches over.  Times
    are milliseconds of the process's monotonic clock; what the control plane
    answers, and when, is an input. *)

From Stdlib Require Import ZArith Lia.
From stdpp Require Import base list numbers option.
From S2P Require Import Prelude.

Open Scope Z_scope.


Inductive LeaseRenewalOutcome :=
| RenewStopped
| RenewDeadlineExceeded
| RenewFinished (answer : result unit bool).

(** A reply of the control plane: when it arrives and what it says. *)
Record Reply := mkReply { reply_at : Z; reply_answer : result unit bool }.

(** [wait_for_lease_renewal], from [start] on: the outcome and when it is
    known.  The future is polled before its timeout. *)
Definition wait_for_lease_renewal (stop : option Z) (deadline start : Z) (reply : option Reply)
  : LeaseRenewalOutcome * Z :=
  let timeout := Z.max deadline start in
  let '(outcome, at_) :=
    match reply with
    | Some r => if reply_at r <=? timeout then (RenewFinished (reply_answer r), reply_at r)
                else (RenewDeadlineExceeded, timeout)
    | None => (RenewDeadlineExceeded, timeout)
    end in
  match stop with
  | Some s => if s <? at_ then (RenewStopped, Z.max s start) else (outcome, at_)
  | None => (outcome, at_)
  end.

(** One turn of the loop: when its tick comes and what the renewal started
    then is answered. *)
Record Beat := mkBeat { beat_tick : Z; beat_reply : option Reply }.

Inductive HeartbeatState :=
| Beating (last_success since : Z)
| TaskCancelled (at_ : Z)
| HeartbeatStopped.

Definition heartbeat_turn (ttl_ms : Z) (stop : option Z) (last_success : Z) (b : Beat) : HeartbeatState :=
  if match stop with Some s => s <=? beat_tick b | None => false end then HeartbeatStopped
  else
    let deadline := last_success + ttl_ms in
    match wait_for_lease_renewal stop deadline (beat_tick b) (beat_reply b) with
    | (RenewStopped, _) => HeartbeatStopped
    | (RenewDeadlineExceeded, now) => TaskCancelled now
    | (RenewFinished (Ok true), now) => Beating now now
    | (RenewFinished (Ok false), now) => TaskCancelled now
    | (RenewFinished (Err _), now) =>
        if ttl_ms <=? now - last_success then TaskCancelled now else Beating last_success now
    end.

Fixpoint heartbeat_loop (ttl_ms : Z) (stop : option Z) (st : HeartbeatState) (beats : list Beat)
  : HeartbeatState :=
  match st, beats with
  | Beating last _, b :: rest => heartbeat_loop ttl_ms stop (heartbeat_turn ttl_ms stop last b) rest
  | _, _ => st
  end.

(** The loop as it is spawned at [now]. *)
Definition heartbeat_run (ttl_ms : Z) (stop : option Z) (now : Z) (beats : list Beat) : HeartbeatState :=
  heartbeat_loop ttl_ms stop (Beating now now) beats.

(** ** Ownership is bounded *)







Module HeartbeatExample.
(** Two renewals, then silence until the deadline. *)
Definition beats : list Beat :=
  [mkBeat 1000 (Some (mkReply 1010 (Ok true))); mkBeat 2010 (Some (mkReply 2020 (Ok true)));
   mkBeat 3020 (Some (mkReply 3030 (Err tt))); mkBeat 4030 None].

Example silence_cancels : heartbeat_run 3000 None 0 beats = TaskCancelled 5020.
Proof. reflexivity. Qed.

End HeartbeatExample.
