(* ===== verification/OverlayFs.v ===== *)
(** * The file system under the overlay

    [persisting-overlay-core] reads several lower directories and changes one
    upper directory, a work directory on the same device and a journal
    directory.  This file has what it uses of the operating system: nodes with
    their metadata, directory entries that name inodes (so that hard links
    share a node), path look-up, and the calls that change entries or nodes.
    Every changing call is one effect of [Effects]: it may fail with any error
    number, and the process may die before it.

    A path is the list of its components as [Path::components] yields them;
    the component ["/"] stands for the root of an absolute path. *)

From Stdlib Require Import ZArith Lia.
From stdpp Require Import base list strings gmap pretty sorting.
From S2P Require Import Prelude Effects.
Open Scope string_scope.
Open Scope list_scope.
Open Scope effect_scope.

(** ** Error numbers *)

Definition EPERM : Z := 1.
Definition ENOENT : Z := 2.
Definition EIO : Z := 5.
Definition EACCES : Z := 13.
Definition EEXIST : Z := 17.
Definition EXDEV : Z := 18.
Definition ENOTDIR : Z := 20.
Definition EISDIR : Z := 21.
Definition EINVAL : Z := 22.
Definition ENOTEMPTY : Z := 39.
Definition ENODATA : Z := 61.
Definition ENOTSUP : Z := 95.

(** ** Nodes *)

Abbreviation Path := (list string).

Record Meta := mkMeta {
  md_perm : Z;                    (* st_mode & 0o7777 *)
  md_uid : Z;
  md_gid : Z;
  md_atime : Z * Z;               (* seconds, nanoseconds *)
  md_mtime : Z * Z;
  md_xattrs : gmap string string;
}.

Inductive Kind :=
| KFile (content : string)
| KDir
| KSymlink (target : string)
| KOther (format rdev : Z).       (* the S_IFMT bits of a device, pipe or socket *)

#[global] Instance Kind_eq_dec : EqDecision Kind.
Proof. solve_decision. Defined.

Record Node := mkNode { n_kind : Kind; n_meta : Meta }.

Definition kind_is_dir (k : Kind) : bool := match k with KDir => true | _ => false end.
Definition kind_is_file (k : Kind) : bool := match k with KFile _ => true | _ => false end.
Definition kind_is_symlink (k : Kind) : bool := match k with KSymlink _ => true | _ => false end.
Definition node_is_dir (n : Node) : bool := kind_is_dir (n_kind n).

(** [MetadataExt::mode]: the type bits and the permissions. *)
Definition st_mode (n : Node) : Z :=
  Z.lor (match n_kind n with
         | KFile _ => 0x8000
         | KDir => 0x4000
         | KSymlink _ => 0xA000
         | KOther format _ => format
         end) (md_perm (n_meta n)).

Definition set_perm (p : Z) (n : Node) : Node :=
  mkNode (n_kind n) (mkMeta (Z.land p 0xFFF) (md_uid (n_meta n)) (md_gid (n_meta n))
    (md_atime (n_meta n)) (md_mtime (n_meta n)) (md_xattrs (n_meta n))).
Definition set_owner (uid gid : Z) (n : Node) : Node :=
  mkNode (n_kind n) (mkMeta (md_perm (n_meta n)) uid gid
    (md_atime (n_meta n)) (md_mtime (n_meta n)) (md_xattrs (n_meta n))).
Definition set_stamps (atime mtime : Z * Z) (n : Node) : Node :=
  mkNode (n_kind n) (mkMeta (md_perm (n_meta n)) (md_uid (n_meta n)) (md_gid (n_meta n))
    atime mtime (md_xattrs (n_meta n))).
Definition put_xattr (name value : string) (n : Node) : Node :=
  mkNode (n_kind n) (mkMeta (md_perm (n_meta n)) (md_uid (n_meta n)) (md_gid (n_meta n))
    (md_atime (n_meta n)) (md_mtime (n_meta n)) (<[name := value]> (md_xattrs (n_meta n)))).
Definition set_kind (k : Kind) (n : Node) : Node := mkNode k (n_meta n).

(** ** Lower layers

    A lower directory is what the system calls answer below it.  Its symbolic
    links are followed by the kernel, so a layer is given by its answers. *)

Record Stat := mkStat { st_node : Node; st_dev : Z; st_ino : Z; st_nlink : Z }.

Record Layer := mkLayer {
  ly_lstat : Path -> option Stat;                (* symlink_metadata *)
  ly_blocked : Path -> bool;                     (* it fails with ENOTDIR, not with ENOENT *)
  ly_read_dir : Path -> option (list string);    (* read_dir *)
  ly_height : nat;
}.

(** What a directory tree guarantees: a listing is the set of names that can be
    looked up, a directory can be listed, a name that can be looked up lies in
    something that exists and can be listed, and the tree has a height. *)
Class LayerLaws (l : Layer) := {
  layer_root : exists st, ly_lstat l [] = Some st /\ node_is_dir (st_node st) = true;
  layer_listing : forall p ns n, ly_read_dir l p = Some ns -> n ∈ ns <-> is_Some (ly_lstat l (p ++ [n]));
  layer_parent : forall p n, is_Some (ly_lstat l (p ++ [n])) -> is_Some (ly_read_dir l p);
  layer_dir : forall p, is_Some (ly_read_dir l p) -> is_Some (ly_lstat l p);
  layer_lists : forall p st, ly_lstat l p = Some st -> node_is_dir (st_node st) = true -> is_Some (ly_read_dir l p);
  layer_height : forall p, is_Some (ly_lstat l p) -> length p <= ly_height l;
}.

(** What nothing can be looked up in; a symbolic link may lead somewhere. *)
Definition leaf_kind (k : Kind) : bool := negb (kind_is_dir k) && negb (kind_is_symlink k).

(** A layer without symbolic links in its directories, from its nodes. *)
Definition layer_of (m : gmap Path Stat) : Layer :=
  mkLayer (fun p => m !! p)
    (fun p => existsb (fun k => match m !! take k p with Some st => leaf_kind (n_kind (st_node st)) | None => false end) (seq 0 (length p)))
    (fun p => match m !! p with
              | Some st =>
                  if node_is_dir (st_node st)
                  then Some (omap (fun '(q, _) => match reverse q with
                                                  | n :: r => if bool_decide (reverse r = p) then Some n else None
                                                  | [] => None
                                                  end) (map_to_list m))
                  else None
              | None => None
              end)
    (max_list (length ∘ fst <$> map_to_list m)).

(** ** The changing directories

    The upper and the work directory of an overlay, and the directory its
    changes are applied to. *)

Inductive Area := Upper | Work | Target.

#[global] Instance Area_eq_dec : EqDecision Area.
Proof. solve_decision. Defined.
#[global] Instance Area_countable : Countable Area.
Proof.
  refine (inj_countable (fun a => match a with Upper => 0 | Work => 1 | Target => 2 end)
    (fun k : nat => Some (match k with 0 => Upper | 1 => Work | _ => Target end)) _). by intros [].
Defined.

Abbreviation FPath := (Area * list string)%type.
Abbreviation Ino := positive.

(** *** Preimages *)

Inductive PathFingerprint :=
| FpAbsent
| FpFile (sha256 : string) (mode uid gid : Z)
| FpDirectory (mode uid gid mtime_seconds mtime_nanoseconds : Z)
| FpSymlink (target : string) (uid gid : Z)
| FpOther (mode uid gid rdev : Z).

#[global] Instance PathFingerprint_eq_dec : EqDecision PathFingerprint.
Proof. solve_decision. Defined.

Record PathPreimage := mkPreimage { pi_path : Path; pi_state : PathFingerprint }.

#[global] Instance PathPreimage_eq_dec : EqDecision PathPreimage.
Proof. solve_decision. Defined.

(** A journal file: created, or completely written. *)
Inductive JournalFile := JCreated | JWritten (p : PathPreimage).

Record World := mkWorld {
  w_lowers : list Layer;
  w_entries : gmap FPath Ino;
  w_inodes : gmap Ino Node;
  w_journal : gmap string JournalFile;     (* the "entries" directory, by file name *)
  w_complete : bool;                       (* the journal's "complete-v1" marker *)
  w_links : gmap (Z * Z) FPath;            (* copied_hard_links *)
  w_temp : Z;                              (* TEMP_ID *)
}.

Definition set_entries (f : gmap FPath Ino -> gmap FPath Ino) (w : World) : World :=
  mkWorld (w_lowers w) (f (w_entries w)) (w_inodes w) (w_journal w) (w_complete w) (w_links w) (w_temp w).
Definition set_inodes (f : gmap Ino Node -> gmap Ino Node) (w : World) : World :=
  mkWorld (w_lowers w) (w_entries w) (f (w_inodes w)) (w_journal w) (w_complete w) (w_links w) (w_temp w).
Definition set_journal (f : gmap string JournalFile -> gmap string JournalFile) (w : World) : World :=
  mkWorld (w_lowers w) (w_entries w) (w_inodes w) (f (w_journal w)) (w_complete w) (w_links w) (w_temp w).
Definition set_complete (w : World) : World :=
  mkWorld (w_lowers w) (w_entries w) (w_inodes w) (w_journal w) true (w_links w) (w_temp w).
Definition set_links (f : gmap (Z * Z) FPath -> gmap (Z * Z) FPath) (w : World) : World :=
  mkWorld (w_lowers w) (w_entries w) (w_inodes w) (w_journal w) (w_complete w) (f (w_links w)) (w_temp w).
Definition set_temp (n : Z) (w : World) : World :=
  mkWorld (w_lowers w) (w_entries w) (w_inodes w) (w_journal w) (w_complete w) (w_links w) n.
Definition set_lowers (f : list Layer -> list Layer) (w : World) : World :=
  mkWorld (f (w_lowers w)) (w_entries w) (w_inodes w) (w_journal w) (w_complete w) (w_links w) (w_temp w).

(** ** Look-up *)

(** The node an entry names. *)
Definition node_at (w : World) (f : FPath) : option Node :=
  i ← w_entries w !! f; w_inodes w !! i.

(** [Path::starts_with], by components. *)
Definition under (prefix p : Path) : bool := bool_decide (prefix `prefix_of` p).

(** The shortest symbolic link among the directories of [p]: its path and what
    follows it. *)
Fixpoint first_link (w : World) (a : Area) (seen rest : Path) : option (Path * Path) :=
  match rest with
  | [] | [_] => None
  | c :: ((_ :: _) as rest') =>
      match node_at w (a, seen ++ [c]) with
      | Some n => if kind_is_symlink (n_kind n) then Some (seen ++ [c], rest')
                  else first_link w a (seen ++ [c]) rest'
      | None => first_link w a (seen ++ [c]) rest'
      end
  end.

(** The entries one level below a directory. *)
Definition names_under (w : World) (f : FPath) : list string :=
  omap (fun '((a, q), _) =>
    match reverse q with
    | n :: r => if bool_decide (a = fst f /\ reverse r = snd f) then Some n else None
    | [] => None
    end) (map_to_list (w_entries w)).

Definition subtree (f : FPath) (g : FPath) : bool :=
  bool_decide (fst f = fst g) && under (snd f) (snd g).

(** ** Renaming

    The entries below [src] take the names below [dst].  The two are disjoint,
    so exchanging the prefixes is a bijection of paths. *)
Definition swap_prefix (src dst : FPath) (g : FPath) : FPath :=
  if subtree src g then (fst dst, snd dst ++ drop (length (snd src)) (snd g))
  else if subtree dst g then (fst src, snd src ++ drop (length (snd dst)) (snd g))
  else g.

Definition move_entries (src dst : FPath) (m : gmap FPath Ino) : gmap FPath Ino :=
  kmap (swap_prefix src dst) (filter (fun '(g, _) => subtree dst g = false) m).

Section Syscalls.
Context {O : Type} (other : O -> World -> World).

(** The kernel follows a symbolic link met inside a path; where that leads is
    not part of this tree. *)
Context (beyond : World -> FPath -> Path -> option Node).

(** [fs::symlink_metadata] in the upper or the work directory. *)
Definition lstat (w : World) (f : FPath) : option Node :=
  match node_at w f with
  | Some n => Some n
  | None => match first_link w (fst f) [] (snd f) with
            | Some (link, rest) => beyond w (fst f, link) rest
            | None => None
            end
  end.
Definition exists_at (w : World) (f : FPath) : bool := bool_decide (is_Some (lstat w f)).

(** [fs::read_dir] *)
Definition read_dir (w : World) (f : FPath) : option (list string) :=
  match node_at w f with
  | Some n => if node_is_dir n then Some (names_under w f) else None
  | None => None
  end.

(** One system call that changes something.  A call that fails by the
    environment's choice does so with an error number, and does not claim that
    an existing file is missing. *)
Definition fault (e : Z) : Z := if (Z.abs e =? ENOENT)%Z then EIO else Z.abs e.
Abbreviation Fs A := (M World O Z A).
Definition sys {A} (f : World -> result Z A * World) : Fs A := effect other fault (fun _ w => f w).

Definition parent_of (f : FPath) : option FPath :=
  match reverse (snd f) with [] => None | _ :: r => Some (fst f, reverse r) end.

(** Whether a name may be created in the directory that would hold it. *)
Definition parent_error (w : World) (f : FPath) : option Z :=
  match parent_of f with
  | None => None
  | Some d => match node_at w d with
              | None => Some ENOENT
              | Some n => if node_is_dir n then None else Some ENOTDIR
              end
  end.

Definition fresh_ino (w : World) : Ino := fresh (dom (w_inodes w)).

(** A new name for a new node: [mkdir], [open] with [O_EXCL], [symlink],
    [mknod]. *)
Definition create (n : Node) (f : FPath) (w : World) : result Z unit * World :=
  match parent_error w f with
  | Some e => (Err e, w)
  | None =>
      match w_entries w !! f with
      | Some _ => (Err EEXIST, w)
      | None =>
          let i := fresh_ino w in
          (Ok tt, set_entries <[f := i]> (set_inodes <[i := n]> w))
      end
  end.

(** [link] *)
Definition link (old new : FPath) (w : World) : result Z unit * World :=
  match w_entries w !! old with
  | None => (Err ENOENT, w)
  | Some i =>
      match w_inodes w !! i with
      | None => (Err ENOENT, w)
      | Some n =>
          if node_is_dir n then (Err EPERM, w) else
          match parent_error w new with
          | Some e => (Err e, w)
          | None =>
              match w_entries w !! new with
              | Some _ => (Err EEXIST, w)
              | None => (Ok tt, set_entries <[new := i]> w)
              end
          end
      end
  end.

(** [rename] *)
Definition replace_error (w : World) (source : Node) (dst : FPath) : option Z :=
  match node_at w dst with
  | None => None
  | Some n =>
      match node_is_dir source, node_is_dir n with
      | true, false => Some ENOTDIR
      | false, true => Some EISDIR
      | true, true => if bool_decide (names_under w dst = []) then None else Some ENOTEMPTY
      | false, false => None
      end
  end.

Definition rename_entry (src dst : FPath) (w : World) : result Z unit * World :=
  match w_entries w !! src, node_at w src with
  | Some i, Some n =>
      if bool_decide (w_entries w !! dst = Some i) then (Ok tt, w) else
      if subtree src dst then (Err EINVAL, w) else
      match parent_error w dst with
      | Some e => (Err e, w)
      | None =>
          match replace_error w n dst with
          | Some e => (Err e, w)
          | None => (Ok tt, set_entries (move_entries src dst) w)
          end
      end
  | _, _ => (Err ENOENT, w)
  end.

(** [unlink], and [rmdir] of an empty directory. *)
Definition unlink (f : FPath) (w : World) : result Z unit * World :=
  match node_at w f with
  | None => (Err ENOENT, w)
  | Some n => if node_is_dir n then (Err EISDIR, w) else (Ok tt, set_entries (delete f) w)
  end.
Definition rmdir (f : FPath) (w : World) : result Z unit * World :=
  match node_at w f with
  | None => (Err ENOENT, w)
  | Some n =>
      if node_is_dir n then
        if bool_decide (names_under w f = []) then (Ok tt, set_entries (delete f) w) else (Err ENOTEMPTY, w)
      else (Err ENOTDIR, w)
  end.

(** A change of the node an entry names. *)
Definition change (g : Node -> Node) (f : FPath) (w : World) : result Z unit * World :=
  match w_entries w !! f with
  | None => (Err ENOENT, w)
  | Some i =>
      match w_inodes w !! i with
      | None => (Err ENOENT, w)
      | Some n => (Ok tt, set_inodes <[i := g n]> w)
      end
  end.

(** *** The functions of [std::fs] and of [sys.rs] that the overlay calls *)

(** The process's own identity and file mode mask. *)
Context (uid gid umask : Z).

Definition new_node (k : Kind) (mode : Z) : Node :=
  mkNode k (mkMeta (Z.ldiff (Z.land mode 0xFFF) umask) uid gid (0, 0)%Z (0, 0)%Z ∅).

Definition fs_create_dir (f : FPath) : Fs unit := sys (create (new_node KDir 0x1FF) f).
Definition open_new (f : FPath) (mode : Z) : Fs unit := sys (create (new_node (KFile "") mode) f).
Definition fs_symlink (target : string) (f : FPath) : Fs unit :=
  sys (create (mkNode (KSymlink target) (mkMeta 0x1FF uid gid (0, 0)%Z (0, 0)%Z ∅)) f).
(** [mknod] with the file type of [mode]; no type bits mean a regular file. *)
Definition mknod (f : FPath) (mode rdev : Z) : Fs unit :=
  let format := Z.land mode 0xF000 in
  if (format =? 0x4000)%Z then throw EPERM else
  if (format =? 0xA000)%Z then throw EINVAL else
  sys (create (new_node (if ((format =? 0) || (format =? 0x8000))%Z then KFile "" else KOther format rdev) mode) f).
Definition write_all (f : FPath) (content : string) : Fs unit :=
  sys (fun w => match node_at w f with
                | Some n => if kind_is_file (n_kind n) then change (set_kind (KFile content)) f w else (Err EINVAL, w)
                | None => (Err ENOENT, w)
                end).
Definition fs_hard_link (old new : FPath) : Fs unit := sys (link old new).
Definition fs_rename (src dst : FPath) : Fs unit := sys (rename_entry src dst).
Definition remove_file (f : FPath) : Fs unit := sys (unlink f).
Definition set_permissions (f : FPath) (mode : Z) : Fs unit := sys (change (set_perm mode) f).
Definition chown (f : FPath) (u g : Z) : Fs unit := sys (change (set_owner u g) f).
Definition set_xattr (f : FPath) (name value : string) : Fs unit := sys (change (put_xattr name value) f).
Definition set_times (f : FPath) (atime mtime : Z * Z) : Fs unit := sys (change (set_stamps atime mtime) f).

(** [fs::remove_dir_all]: everything below, the deepest first, one call each. *)
Definition deeper (a b : FPath) : Prop := length (snd b) <= length (snd a).
#[global] Instance deeper_dec a b : Decision (deeper a b).
Proof. unfold deeper. apply _. Defined.

Definition contents (w : World) (f : FPath) : list FPath :=
  merge_sort deeper (fst <$> map_to_list (filter (fun '(g, _) => subtree f g = true) (w_entries w))).

Definition remove_any (f : FPath) : Fs unit :=
  sys (fun w => match node_at w f with
                | Some n => if node_is_dir n then rmdir f w else unlink f w
                | None => (Err ENOENT, w)
                end).
Definition remove_dir_all (f : FPath) : Fs unit :=
  let! fs := ask (fun w => contents w f) in
  for_each fs (fun g _ => remove_any g) tt.
End Syscalls.
