(* ===== verification/OverlayCore.v ===== *)
(** * The layered file system: [persisting-overlay-core/src/core.rs]

    [OverlayCore] shows several lower directories merged under one upper
    directory.  A whiteout [.wh.NAME] in the upper directory hides NAME of the
    layers below, an opaque marker hides everything below a directory, and a
    change first copies what it changes to the upper directory.  Before a path
    is changed for the first time, its state in the apply target (the last
    lower directory) is written to the preimage journal.

    Each function below is the function of the same name, over the calls of
    [OverlayFs]: every changing call is a separate effect. *)

From Stdlib Require Import ZArith Lia.
From stdpp Require Import base list strings gmap pretty sorting.
From S2P Require Import Prelude Effects OverlayFs.
Open Scope string_scope.
Open Scope list_scope.
Open Scope effect_scope.

Definition WHITEOUT_PREFIX : string := ".wh.".
Definition OPAQUE_NAME : string := ".wh..wh..opq".
Definition TEMP_PREFIX : string := ".wh..persisting-copyup-".
Definition OPAQUE_XATTRS : list string :=
  ["trusted.overlay.opaque"; "user.overlay.opaque"; "user.fuseoverlayfs.opaque"].

(** The open flags that [create_file] reads. *)
Definition O_RDONLY : Z := 0.
Definition O_WRONLY : Z := 1.
Definition O_ACCMODE : Z := 3.
Definition O_TRUNC : Z := 0x200.
Definition O_APPEND : Z := 0x400.

(** A journal file that does not parse, and a recursion without end, are not
    errors of the operating system. *)
Definition INVALID_DATA : Z := -1.
Definition OUT_OF_FUEL : Z := -2.

Record OverlayCore := mkCore {
  oc_work : bool;                (* work is given *)
  oc_excluded : list Path;
  oc_preimages : bool;           (* preimage_dir is given *)
}.

(** The place a path resolves to. *)
Inductive Loc := InUpper (p : Path) | InLower (i : nat) (p : Path).
Record Resolved := mkResolved { rs_path : Loc; is_upper : bool }.

Definition ignorable_metadata_error (err : Z) : bool := ((err =? EPERM) || (err =? EACCES) || (err =? ENOTSUP))%Z.
Definition ignorable_ownership_error (err : Z) : bool := ignorable_metadata_error err || (err =? EINVAL)%Z.

(** ** Paths and names *)

Definition normal_component (c : string) : bool := negb (bool_decide (c = "/" \/ c = "." \/ c = "..")).
Definition validate_rel (rel : Path) : result Z unit :=
  if forallb normal_component rel then Ok tt else Err EINVAL.

Definition is_whiteout_name (name : string) : bool := str_starts_with WHITEOUT_PREFIX name.

Definition validate_name (name : string) : result Z unit :=
  if bool_decide (name = "") || bool_decide (name = ".") || bool_decide (name = "..")
     || str_contains_char 47 name || is_whiteout_name name
  then Err EINVAL else Ok tt.

Definition child (parent : Path) (name : string) : result Z Path :=
  let? _ := validate_rel parent in
  let? _ := validate_name name in
  Ok (parent ++ [name]).

(** [Path::file_name] and [Path::parent] *)
Definition file_name (rel : Path) : option string := last rel.
Definition parent (rel : Path) : Path := take (length rel - 1) rel.

Definition whiteout_path (parent : Path) (name : string) : FPath := (Upper, parent ++ [WHITEOUT_PREFIX +:+ name]).

(** The paths a loop over [rel.components()] pushes together. *)
Fixpoint prefixes (seen rel : Path) : list Path :=
  match rel with
  | [] => []
  | c :: rest => (seen ++ [c]) :: prefixes (seen ++ [c]) rest
  end.

(** The bytes of a path. *)
Definition path_bytes (rel : Path) : string := String.concat "/" rel.

Section Core.
Context {O : Type} (other : O -> World -> World) (beyond : World -> FPath -> Path -> option Node).
Context (uid gid umask : Z) (pid : string) (sha256_hex : string -> string) (core : OverlayCore).

Abbreviation Fs A := (M World O Z A).
Abbreviation exists_at := (exists_at beyond).

(** ** Reading *)

Definition is_excluded (rel : Path) : bool := existsb (fun prefix => under prefix rel) (oc_excluded core).

Definition require_visible (rel : Path) : result Z unit :=
  let? _ := validate_rel rel in
  if is_excluded rel then Err ENOENT else Ok tt.

Definition is_whiteouted (w : World) (parent : Path) (name : string) : bool := exists_at w (whiteout_path parent name).

Definition get_xattr (w : World) (f : FPath) (name : string) : option string :=
  n ← lstat beyond w f; md_xattrs (n_meta n) !! name.

Definition is_opaque (w : World) (rel : Path) : bool :=
  exists_at w (Upper, rel ++ [OPAQUE_NAME])
  || existsb (fun name => bool_decide (get_xattr w (Upper, rel) name = Some "y")) OPAQUE_XATTRS.

Fixpoint find_lower (i : nat) (lowers : list Layer) (rel : Path) : option nat :=
  match lowers with
  | [] => None
  | l :: rest => if bool_decide (is_Some (ly_lstat l rel)) then Some i else find_lower (S i) rest rel
  end.

Definition resolve_component (w : World) (rel : Path) : option Resolved :=
  if exists_at w (Upper, rel) then Some (mkResolved (InUpper rel) true) else
  match file_name rel with
  | None => None
  | Some name =>
      if is_whiteouted w (parent rel) name || is_opaque w (parent rel) then None
      else (fun i => mkResolved (InLower i rel) false) <$> find_lower 0 (w_lowers w) rel
  end.

(** [fs::symlink_metadata] of a resolved place. *)
Definition loc_node (w : World) (l : Loc) : option Node :=
  match l with
  | InUpper p => lstat beyond w (Upper, p)
  | InLower i p => l ← w_lowers w !! i; st_node <$> ly_lstat l p
  end.

(** The loop of [resolve] over the prefixes of the path. *)
Fixpoint resolve_loop (w : World) (ps : list Path) (resolved : option Resolved) : option Resolved :=
  match ps with
  | [] => resolved
  | current :: rest =>
      match resolve_component w current with
      | None => None
      | Some item =>
          if bool_decide (rest = []) then resolve_loop w rest (Some item) else
          match loc_node w (rs_path item) with
          | None => None
          | Some metadata => if node_is_dir metadata then resolve_loop w rest (Some item) else None
          end
      end
  end.

Definition resolve (w : World) (rel : Path) : option Resolved :=
  match require_visible rel with
  | Err _ => None
  | Ok _ =>
      match rel with
      | [] => Some (mkResolved (InUpper []) true)
      | _ => resolve_loop w (prefixes [] rel) None
      end
  end.

Definition metadata (w : World) (rel : Path) : result Z Node :=
  let? _ := require_visible rel in
  let? resolved := ok_or (resolve w rel) ENOENT in
  ok_or (loc_node w (rs_path resolved)) ENOENT.

Definition exists_in_lower (w : World) (rel : Path) : bool :=
  match require_visible rel with
  | Err _ => false
  | Ok _ => existsb (fun l => bool_decide (is_Some (ly_lstat l rel))) (w_lowers w)
  end.

(** The names of a [BTreeSet<OsString>], in order. *)
Definition sorted_names (names : list string) : list string := dedup (merge_sort String.le names).

(** The names that [list_names] retains. *)
Definition retained (w : World) (rel : Path) (name : string) : bool :=
  negb (is_whiteouted w rel name)
  && match child rel name with Ok c => negb (is_excluded c) | Err _ => false end.

Definition list_names (w : World) (rel : Path) : result Z (list string) :=
  let? _ := require_visible rel in
  let? metadata := metadata w rel in
  if negb (node_is_dir metadata) then Err ENOTDIR else
  let visible := filter (fun name => is_whiteout_name name = false) in
  let lower_names :=
    if is_opaque w rel then []
    else flat_map (fun l => default [] (visible <$> ly_read_dir l rel)) (w_lowers w) in
  let upper_names := default [] (visible <$> read_dir w (Upper, rel)) in
  Ok (filter (fun name => retained w rel name = true) (sorted_names (lower_names ++ upper_names))).

(** ** The preimage journal *)

Definition fingerprint_at (target : Layer) (rel : Path) : result Z PathFingerprint :=
  let? _ := validate_rel rel in
  match ly_lstat target rel with
  | None => if ly_blocked target rel then Err ENOTDIR else Ok FpAbsent
  | Some st =>
      let n := st_node st in let m := n_meta n in
      Ok (match n_kind n with
          | KFile content => FpFile (sha256_hex content) (st_mode n) (md_uid m) (md_gid m)
          | KDir => FpDirectory (st_mode n) (md_uid m) (md_gid m) (fst (md_mtime m)) (snd (md_mtime m))
          | KSymlink target => FpSymlink target (md_uid m) (md_gid m)
          | KOther _ rdev => FpOther (st_mode n) (md_uid m) (md_gid m) rdev
          end)
  end.

Definition journal_name (rel : Path) : string := sha256_hex (path_bytes rel) +:+ ".json".

(** [OpenOptions::create_new] on a journal file; [write_all] on it; [sync_all]. *)
Definition journal_create (name : string) : Fs unit :=
  sys other (fun w => match w_journal w !! name with
                      | Some _ => (Err EEXIST, w)
                      | None => (Ok tt, set_journal <[name := JCreated]> w)
                      end).
Definition journal_write (name : string) (p : PathPreimage) : Fs unit :=
  sys other (fun w => (Ok tt, set_journal <[name := JWritten p]> w)).
Definition sync_all : Fs unit := sys other (fun w => (Ok tt, w)).

Definition record_preimage (rel : Path) : Fs unit :=
  if negb (oc_preimages core) then ret tt else
  lift (validate_rel rel) ;;
  let destination := journal_name rel in
  let! present := ask (fun w => bool_decide (is_Some (w_journal w !! destination))) in
  if (present : bool) then ret tt else
  let! lowers := ask w_lowers in
  let! target := lift (ok_or (last lowers) EINVAL) in
  let! state := lift (fingerprint_at target rel) in
  journal_create destination ;;
  journal_write destination (mkPreimage rel state) ;;
  sync_all ;;
  sync_all.

(** The recursions over a tree stop at the height of the layers. *)
Definition height (w : World) : nat :=
  max_list ((ly_height <$> w_lowers w) ++ (length ∘ snd ∘ fst <$> map_to_list (w_entries w))).

Fixpoint record_tree (fuel : nat) (source destination : Path) : Fs unit :=
  match fuel with
  | 0 => throw OUT_OF_FUEL
  | S fuel =>
      record_preimage destination ;;
      let! meta := ask (fun w => metadata w source) in
      let! meta := lift meta in
      if negb (node_is_dir meta) then ret tt else
      let! names := ask (fun w => list_names w source) in
      let! names := lift names in
      for_each names (fun name _ =>
        let! source_child := lift (child source name) in
        let! destination_child := lift (child destination name) in
        record_tree fuel source_child destination_child) tt
  end.
Definition record_logical_tree_mapping (source destination : Path) : Fs unit :=
  let! h := ask height in
  record_tree (S (S h)) source destination.

(** ** Copying up *)

(** [if let Err(err) = call { if !ignorable(&err) { return Err(err); } }] *)
Definition best_effort (ignorable : Z -> bool) (call : Fs unit) : Fs unit :=
  let! r := attempt call in
  match r with
  | Ok _ => ret tt
  | Err err => if ignorable err then ret tt else throw err
  end.

(** [sys::copy_xattrs] *)
Definition copy_xattrs (source : Loc) (destination : FPath) : Fs unit :=
  let! node := ask (fun w => loc_node w source) in
  let! node := lift (ok_or node ENOENT) in
  for_each (map_to_list (md_xattrs (n_meta node)))
    (fun '(name, value) _ => set_xattr other destination name value) tt.

Definition copy_metadata (source : Loc) (destination : FPath) (metadata : Node) : Fs unit :=
  let m := n_meta metadata in
  best_effort ignorable_ownership_error (chown other destination (md_uid m) (md_gid m)) ;;
  (if kind_is_symlink (n_kind metadata) then ret tt
   else set_permissions other destination (Z.land (st_mode metadata) 0xFFF)) ;;
  best_effort ignorable_metadata_error (copy_xattrs source destination) ;;
  let stamp t := (Z.max (fst t) 0, snd t) in
  best_effort ignorable_metadata_error
    (set_times other destination (stamp (md_atime m)) (stamp (md_mtime m))).

(** One turn of the loop of [ensure_upper_parents]. *)
Definition ensure_upper_parent (current : Path) : Fs unit :=
  let! upper := ask (fun w => lstat beyond w (Upper, current)) in
  match upper with
  | Some n => if node_is_dir n then ret tt else throw ENOTDIR
  | None =>
      let! resolved := ask (fun w => resolve w current) in
      let! resolved := lift (ok_or resolved ENOENT) in
      let! meta := ask (fun w => loc_node w (rs_path resolved)) in
      let! meta := lift (ok_or meta ENOENT) in
      if negb (node_is_dir meta) then throw ENOTDIR else
      record_preimage current ;;
      fs_create_dir other uid gid umask (Upper, current) ;;
      copy_metadata (rs_path resolved) (Upper, current) meta
  end.

Definition ensure_upper_parents (rel : Path) : Fs unit :=
  lift (require_visible rel) ;;
  for_each (prefixes [] (parent rel)) (fun current _ => ensure_upper_parent current) tt.

(** [TEMP_ID.fetch_add] and the name it gives; the counter does not reach
    [2 ^ 64]. *)
Definition temp_name (id : Z) : string := TEMP_PREFIX +:+ pid +:+ "-" +:+ pretty id.

Definition temporary_path (parent : Path) : Fs FPath :=
  let! id := ask w_temp in
  modify (set_temp (id + 1)%Z) ;;
  ret (if oc_work core then (Work, [temp_name id]) else (Upper, parent ++ [temp_name id])).

(** [fs::symlink_metadata] of a lower file, with its identity. *)
Definition lower_stat (w : World) (l : Loc) : option Stat :=
  match l with
  | InUpper _ => None
  | InLower i p => l ← w_lowers w !! i; ly_lstat l p
  end.

(** The upper copy already made of another name of this file. *)
Definition copied_link (st : Stat) (w : World) : option FPath :=
  if (1 <? st_nlink st)%Z then
    match w_links w !! (st_dev st, st_ino st) with
    | Some path => if exists_at w path then Some path else None
    | None => None
    end
  else None.

(** The new node under its temporary name. *)
Definition make_copy (st : Stat) (temporary : FPath) : Fs unit :=
  match n_kind (st_node st) with
  | KDir => fs_create_dir other uid gid umask temporary
  | KSymlink target => fs_symlink other uid gid target temporary
  | KFile content =>
      let! existing := ask (copied_link st) in
      match existing with
      | Some existing => fs_hard_link other existing temporary
      | None =>
          open_new other uid gid umask temporary (Z.land (st_mode (st_node st)) 0xFFF) ;;
          write_all other temporary content
      end
  | KOther _ rdev => mknod other uid gid umask temporary (st_mode (st_node st)) (rdev mod 2 ^ 32)%Z
  end.

Definition publish_copy (source : Loc) (st : Stat) (temporary upper : FPath) : Fs unit :=
  make_copy st temporary ;;
  copy_metadata source temporary (st_node st) ;;
  fs_rename other temporary upper ;;
  if kind_is_file (n_kind (st_node st)) && (1 <? st_nlink st)%Z
  then modify (set_links <[(st_dev st, st_ino st) := upper]>)
  else ret tt.

(** [let _ = remove(..)]: a failure is ignored. *)
Definition ignore {A} (call : Fs A) : Fs unit := let! _ := attempt call in ret tt.

Definition remove_physical (f : FPath) : Fs unit :=
  let! n := ask (fun w => lstat beyond w f) in
  let! n := lift (ok_or n ENOENT) in
  if node_is_dir n then remove_dir_all other f else remove_file other f.

(** The clean-up of a failed copy. *)
Definition discard (f : FPath) : Fs unit :=
  let! n := ask (fun w => node_at w f) in
  match n with
  | Some n => if node_is_dir n then remove_dir_all other f else remove_file other f
  | None => remove_file other f
  end.

Definition copy_up (rel : Path) : Fs FPath :=
  lift (require_visible rel) ;;
  record_preimage rel ;;
  let upper := (Upper, rel) in
  let! present := ask (fun w => exists_at w upper) in
  if (present : bool) then ret upper else
  let! resolved := ask (fun w => resolve w rel) in
  let! resolved := lift (ok_or resolved ENOENT) in
  if is_upper resolved then ret upper else
  ensure_upper_parents rel ;;
  let! st := ask (fun w => lower_stat w (rs_path resolved)) in
  let! st := lift (ok_or st ENOENT) in
  let! temporary := temporary_path (parent rel) in
  let! result := attempt (publish_copy (rs_path resolved) st temporary upper) in
  match result with
  | Ok _ => ret upper
  | Err e => ignore (discard temporary) ;; throw e
  end.

(** ** Markers *)

Fixpoint set_opaque_xattr (f : FPath) (names : list string) : Fs unit :=
  match names with
  | [] => ret tt
  | name :: rest =>
      let! r := attempt (set_xattr other f name "y") in
      match r with
      | Ok _ => ret tt
      | Err e => if ignorable_metadata_error e then set_opaque_xattr f rest else throw e
      end
  end.

(** A marker file, unless it is there. *)
Definition create_marker (marker : FPath) : Fs unit :=
  let! present := ask (fun w => exists_at w marker) in
  if (present : bool) then ret tt else open_new other uid gid umask marker 0x180.

Definition mark_opaque (rel : Path) : Fs unit :=
  create_marker (Upper, rel ++ [OPAQUE_NAME]) ;;
  set_opaque_xattr (Upper, rel) OPAQUE_XATTRS.

Definition create_whiteout (rel : Path) : Fs unit :=
  ensure_upper_parents rel ;;
  let! name := lift (ok_or (file_name rel) EINVAL) in
  create_marker (whiteout_path (parent rel) name).

Definition clear_whiteout (rel : Path) : Fs unit :=
  lift (require_visible rel) ;;
  let! name := lift (ok_or (file_name rel) EINVAL) in
  let! r := attempt (remove_file other (whiteout_path (parent rel) name)) in
  match r with
  | Ok _ => ret tt
  | Err e => if (e =? ENOENT)%Z then ret tt else throw e
  end.

(** ** Creating *)

(** What the four creating functions do before they create. *)
Definition prepare_create (rel : Path) : Fs unit :=
  lift (require_visible rel) ;;
  let! found := ask (fun w => resolve w rel) in
  match found with
  | Some _ => throw EEXIST
  | None => record_preimage rel
  end.

(** [OpenOptions::open] with [create_new]: the access and creation modes it
    refuses before any call. *)
Definition open_options_ok (write append : bool) : bool := write || append.

Definition create_file (rel : Path) (mode flags : Z) : Fs unit :=
  prepare_create rel ;;
  ensure_upper_parents rel ;;
  clear_whiteout rel ;;
  let access_mode := Z.land flags O_ACCMODE in
  if open_options_ok (negb (access_mode =? O_RDONLY)%Z) (negb (Z.land flags O_APPEND =? 0)%Z)
  then open_new other uid gid umask (Upper, rel) (Z.land mode 0xFFF)
  else throw EINVAL.

Definition create_dir (rel : Path) (mode : Z) : Fs unit :=
  prepare_create rel ;;
  let! shadows_lower := ask (fun w => exists_in_lower w rel) in
  ensure_upper_parents rel ;;
  clear_whiteout rel ;;
  fs_create_dir other uid gid umask (Upper, rel) ;;
  set_permissions other (Upper, rel) (Z.land mode 0xFFF) ;;
  if (shadows_lower : bool) then mark_opaque rel else ret tt.

Definition create_symlink (rel : Path) (target : string) : Fs unit :=
  prepare_create rel ;;
  ensure_upper_parents rel ;;
  clear_whiteout rel ;;
  fs_symlink other uid gid target (Upper, rel).

Definition create_node (rel : Path) (mode rdev : Z) : Fs unit :=
  prepare_create rel ;;
  ensure_upper_parents rel ;;
  clear_whiteout rel ;;
  mknod other uid gid umask (Upper, rel) mode rdev.

(** ** Removing *)

Definition remove (rel : Path) (directory : bool) : Fs unit :=
  lift (require_visible rel) ;;
  let! resolved := ask (fun w => resolve w rel) in
  let! resolved := lift (ok_or resolved ENOENT) in
  let! meta := ask (fun w => loc_node w (rs_path resolved)) in
  let! meta := lift (ok_or meta ENOENT) in
  (if directory then
     if negb (node_is_dir meta) then throw ENOTDIR else
     let! names := ask (fun w => list_names w rel) in
     let! names := lift names in
     if bool_decide (names = []) then ret tt else throw ENOTEMPTY
   else if node_is_dir meta then throw EISDIR else ret tt) ;;
  record_logical_tree_mapping rel rel ;;
  (if is_upper resolved then
     if directory then remove_dir_all other (Upper, rel) else remove_file other (Upper, rel)
   else ret tt) ;;
  let! shadowing := ask (fun w => exists_in_lower w rel) in
  if (shadowing : bool) then create_whiteout rel else ret tt.

(** ** Moving *)

Fixpoint materialize (fuel : nat) (rel : Path) : Fs FPath :=
  match fuel with
  | 0 => throw OUT_OF_FUEL
  | S fuel =>
      lift (require_visible rel) ;;
      let! meta := ask (fun w => metadata w rel) in
      let! meta := lift meta in
      if negb (node_is_dir meta) then copy_up rel else
      let! names := ask (fun w => list_names w rel) in
      let! names := lift names in
      copy_up rel ;;
      for_each names (fun name _ =>
        let! c := lift (child rel name) in
        let! meta := ask (fun w => metadata w c) in
        let! meta := lift meta in
        (if node_is_dir meta then materialize fuel c else copy_up c) ;;
        ret tt) tt ;;
      mark_opaque rel ;;
      ret (Upper, rel)
  end.
Definition materialize_tree (rel : Path) : Fs FPath :=
  let! h := ask height in
  materialize (S (S h)) rel.

(** The physical destination that a rename replaces. *)
Definition validate_replacement (old new : Path) (no_replace : bool) (w : World) : result Z (option Path) :=
  match resolve w new with
  | None => Ok None
  | Some destination =>
      if no_replace then Err EEXIST else
      let? source_meta := metadata w old in
      let? destination_meta := ok_or (loc_node w (rs_path destination)) ENOENT in
      let replaced := if is_upper destination then Some new else None in
      match node_is_dir source_meta, node_is_dir destination_meta with
      | true, false => Err ENOTDIR
      | false, true => Err EISDIR
      | true, true =>
          let? names := list_names w new in
          if bool_decide (names = []) then Ok replaced else Err ENOTEMPTY
      | false, false => Ok replaced
      end
  end.

(** The table of copied hard links follows the entries. *)
Definition remap_path (old new path : FPath) : FPath :=
  if subtree old path then (fst new, snd new ++ drop (length (snd old)) (snd path)) else path.
Definition remap_copied_hard_links (old new : FPath) : World -> World :=
  set_links (fmap (remap_path old new)).
Definition exchange_copied_hard_links (first second : FPath) : World -> World :=
  set_links (fmap (fun path => if subtree first path then remap_path first second path
                               else remap_path second first path)).

(** What [rename] does once the destination has been moved aside. *)
Definition rename_into_place (old new : Path) (source : FPath) (source_needs_whiteout : bool)
    (backup : option (FPath * FPath)) : Fs unit :=
  let! moved := attempt (fs_rename other source (Upper, new)) in
  match moved with
  | Err e =>
      (match backup with
       | Some (destination, backup) => ignore (fs_rename other backup destination)
       | None => ret tt
       end) ;;
      (if source_needs_whiteout then ignore (clear_whiteout old) else ret tt) ;;
      throw e
  | Ok _ =>
      (match backup with
       | Some (_, backup) => ignore (remove_physical backup)
       | None => ret tt
       end) ;;
      modify (remap_copied_hard_links (Upper, old) (Upper, new))
  end.

Definition rename (old new : Path) (no_replace : bool) : Fs unit :=
  lift (require_visible old) ;;
  lift (require_visible new) ;;
  if bool_decide (old = new) then ret tt else
  let! source_meta := ask (fun w => metadata w old) in
  let! source_meta := lift source_meta in
  if node_is_dir source_meta && under old new then throw EINVAL else
  let! replaced_upper := ask (validate_replacement old new no_replace) in
  let! replaced_upper := lift replaced_upper in
  record_logical_tree_mapping old old ;;
  record_logical_tree_mapping old new ;;
  let! source := (if node_is_dir source_meta then materialize_tree old else copy_up old) in
  ensure_upper_parents new ;;
  clear_whiteout new ;;
  let! source_needs_whiteout := ask (fun w => exists_in_lower w old) in
  (if (source_needs_whiteout : bool) then create_whiteout old else ret tt) ;;
  match replaced_upper with
  | None => rename_into_place old new source source_needs_whiteout None
  | Some destination =>
      let! backup := temporary_path [] in
      let! aside := attempt (fs_rename other (Upper, destination) backup) in
      match aside with
      | Err e =>
          (if (source_needs_whiteout : bool) then ignore (clear_whiteout old) else ret tt) ;;
          throw e
      | Ok _ => rename_into_place old new source source_needs_whiteout (Some ((Upper, destination), backup))
      end
  end.

Definition hard_link (source destination : Path) : Fs unit :=
  lift (require_visible source) ;;
  lift (require_visible destination) ;;
  let! meta := ask (fun w => metadata w source) in
  let! meta := lift meta in
  if node_is_dir meta then throw EPERM else
  let! found := ask (fun w => resolve w destination) in
  match found with
  | Some _ => throw EEXIST
  | None =>
      record_preimage destination ;;
      let! source := copy_up source in
      ensure_upper_parents destination ;;
      clear_whiteout destination ;;
      fs_hard_link other source (Upper, destination)
  end.

Definition exchange (first second : Path) : Fs unit :=
  lift (require_visible first) ;;
  lift (require_visible second) ;;
  if bool_decide (first = second) then ret tt else
  if under second first || under first second then throw EINVAL else
  let! first_meta := ask (fun w => metadata w first) in
  let! first_meta := lift first_meta in
  let! second_meta := ask (fun w => metadata w second) in
  let! second_meta := lift second_meta in
  record_logical_tree_mapping first first ;;
  record_logical_tree_mapping second second ;;
  record_logical_tree_mapping first second ;;
  record_logical_tree_mapping second first ;;
  let! first_upper := (if node_is_dir first_meta then materialize_tree first else copy_up first) in
  let! second_upper := (if node_is_dir second_meta then materialize_tree second else copy_up second) in
  let! temporary := temporary_path [] in
  fs_rename other first_upper temporary ;;
  let! r := attempt (fs_rename other second_upper first_upper) in
  match r with
  | Err e => ignore (fs_rename other temporary first_upper) ;; throw e
  | Ok _ =>
      let! r := attempt (fs_rename other temporary second_upper) in
      match r with
      | Err e =>
          ignore (fs_rename other first_upper second_upper) ;;
          ignore (fs_rename other temporary first_upper) ;;
          throw e
      | Ok _ => modify (exchange_copied_hard_links first_upper second_upper)
      end
  end.

(** ** Reading the journal back *)

Definition path_le (a b : PathPreimage) : Prop := String.le (path_bytes (pi_path a)) (path_bytes (pi_path b)).
#[global] Instance path_le_dec a b : Decision (path_le a b).
Proof. unfold path_le. apply _. Defined.

Definition load_preimages (w : World) : result Z (list PathPreimage) :=
  let files := filter (fun '(name, _) => str_ends_with ".json" name = true) (map_to_list (w_journal w)) in
  let? preimages := collect_results (fun '(_, file) =>
    match file with
    | JCreated => Err INVALID_DATA
    | JWritten p => let? _ := validate_rel (pi_path p) in Ok p
    end) files in
  Ok (merge_sort path_le preimages).

Definition preimage_journal_is_complete (w : World) : bool := w_complete w.

Definition remove_preimages (paths : list Path) : Fs unit :=
  for_each paths (fun path _ =>
    lift (validate_rel path) ;;
    let name := journal_name path in
    let! r := attempt (sys other (fun w => match w_journal w !! name with
                                           | Some _ => (Ok tt, set_journal (delete name) w)
                                           | None => (Err ENOENT, w)
                                           end)) in
    match r with
    | Ok _ => ret tt
    | Err e => if (e =? ENOENT)%Z then ret tt else throw e
    end) tt ;;
  sync_all.

(** ** Opening *)

(** [fs::create_dir_all] of a root. *)
Definition create_root (a : Area) : Fs unit :=
  let! present := ask (fun w => bool_decide (is_Some (node_at w (a, [])))) in
  if (present : bool) then ret tt else fs_create_dir other uid gid umask (a, []).

(** The leftovers of interrupted copies in the work directory. *)
Definition clean_work : Fs unit :=
  let! names := ask (fun w => default [] (read_dir w (Work, []))) in
  for_each (filter (fun name => str_starts_with TEMP_PREFIX name = true) names)
    (fun name _ => remove_physical (Work, [name])) tt.

(** [fs::create_dir_all] of the journal's directory: a call that can fail and
    changes nothing that is read. *)
Definition create_entries : Fs unit := sys other (fun w => (Ok tt, w)).

(** The journal's marker: its existence is what is read, not its content. *)
Definition create_complete_marker : Fs unit :=
  sys other (fun w => if w_complete w then (Err EEXIST, w) else (Ok tt, set_complete w)) ;;
  sys other (fun w => (Ok tt, w)) ;;
  sync_all ;;
  sync_all.

Definition validate_excluded (excluded : list Path) : result Z (list Path) :=
  collect_results (fun path =>
    let? _ := validate_rel path in
    if bool_decide (path = []) then Err EINVAL else Ok path) excluded.
End Core.

(** [new_with_exclusions_and_preimages]: [upper_dir] and [work_dir] are the
    absolute paths, [same_device] compares their devices. *)
Definition overlay_new {O} (other : O -> World -> World) (beyond : World -> FPath -> Path -> option Node)
    (uid gid umask : Z) (upper_dir : Path) (work_dir : option Path) (same_device : bool)
    (excluded : list Path) (preimages : bool) : M World O Z OverlayCore :=
  let! lowers := ask w_lowers in
  if bool_decide (lowers = []) then throw EINVAL else
  if negb (forallb (fun l => bool_decide (is_Some (ly_read_dir l []))) lowers) then throw ENOTDIR else
  create_root other uid gid umask Upper ;;
  let! upper_was_empty := ask (fun w => bool_decide (names_under w (Upper, []) = [])) in
  (match work_dir with
   | None => ret tt
   | Some work =>
       create_root other uid gid umask Work ;;
       if under upper_dir work || under work upper_dir then throw EINVAL else
       if negb same_device then throw EXDEV else
       clean_work other beyond
   end) ;;
  let! excluded := lift (validate_excluded excluded) in
  (if preimages then
     create_entries other ;;
     let! complete := ask preimage_journal_is_complete in
     if upper_was_empty && negb complete then create_complete_marker other else ret tt
   else ret tt) ;;
  modify (set_links (fun _ => ∅)) ;;
  let core := mkCore (bool_decide (is_Some work_dir)) excluded preimages in
  let! empty := ask (fun w => bool_decide (names_under w (Upper, []) = [])) in
  (if (empty : bool) then
     let! root := ask (fun w => loc_node beyond w (InLower 0 [])) in
     let! root := lift (ok_or root ENOENT) in
     copy_metadata other beyond (InLower 0 []) (Upper, []) root
   else ret tt) ;;
  ret core.
#[global] Arguments temp_name : simpl never.
