(* ===== verification/OverlayView.v ===== *)
(** * What the overlay shows

    [view w p] is the node a path resolves to.  It is computed by one rule per
    component: a name of a visible directory is the upper entry if there is
    one, nothing if it is hidden, and otherwise the entry of the first lower
    directory that has it ([view_snoc]).  Names that begin with [.wh.] are the
    overlay's own; the theorems are about the other ones. *)

From Stdlib Require Import ZArith Lia.
From stdpp Require Import base list strings gmap pretty sorting.
From S2P Require Import Prelude Effects OverlayFs OverlayCore.
#[local] Set Warnings "-clear-no-such-hyp".
Open Scope string_scope.
Open Scope list_scope.

(** ** Paths *)

Lemma prefixes_app seen p q : prefixes seen (p ++ q) = prefixes seen p ++ prefixes (seen ++ p) q.
Proof.
  revert seen. induction p as [|c p IH]; intros seen; simpl; [by rewrite app_nil_r|].
  rewrite IH. do 3 f_equal. by rewrite <- app_assoc.
Qed.

Lemma prefixes_snoc p n : prefixes [] (p ++ [n]) = prefixes [] p ++ [p ++ [n]].
Proof. apply prefixes_app. Qed.

Lemma elem_of_prefixes seen p q :
  q ∈ prefixes seen p <-> exists r, q = seen ++ r /\ r <> [] /\ r `prefix_of` p.
Proof.
  revert seen. induction p as [|c p IH]; intros seen; simpl.
  - split; [by intros ?%elem_of_nil|]. intros (r & _ & Hr & Hp). by apply prefix_nil_inv in Hp.
  - rewrite elem_of_cons, IH. split.
    + intros [->|(r & -> & Hr & Hp)].
      * exists [c]. split; [done|]. split; [done|]. exists p. done.
      * exists (c :: r). rewrite <- app_assoc. split; [done|]. split; [done|]. by apply prefix_cons.
    + intros (r & -> & Hr & Hp). destruct r as [|c' r]; [done|].
      apply prefix_cons_inv_1 in Hp as Hc. apply prefix_cons_inv_2 in Hp. subst c'.
      destruct r as [|d r]; [by left|]. right. exists (d :: r). by rewrite <- app_assoc.
Qed.

Lemma file_name_snoc p n : file_name (p ++ [n]) = Some n.
Proof. unfold file_name. by rewrite last_snoc. Qed.

Lemma parent_snoc p n : parent (p ++ [n]) = p.
Proof. unfold parent. rewrite length_app. simpl. rewrite Nat.add_sub, take_app_length. done. Qed.

Lemma path_snoc (p : Path) : p <> [] -> exists q n, p = q ++ [n].
Proof. induction p as [|n q _] using rev_ind; [done|eauto]. Qed.

Lemma under_refl p : under p p = true.
Proof. unfold under. by rewrite bool_decide_true. Qed.
Lemma under_spec p q : under p q = true <-> exists r, q = p ++ r.
Proof. unfold under. rewrite bool_decide_eq_true. done. Qed.
Lemma under_nil p : under [] p = true.
Proof. apply under_spec. by exists p. Qed.
Lemma under_app p q : under p (p ++ q) = true.
Proof. apply under_spec. by exists q. Qed.
Lemma under_snoc p q n : under p (q ++ [n]) = true -> p = q ++ [n] \/ under p q = true.
Proof.
  rewrite !under_spec. intros [r Hr]. destruct r as [|x r _] using rev_ind.
  - left. by rewrite app_nil_r in Hr.
  - right. exists r. rewrite app_assoc in Hr. by apply app_inj_tail in Hr as [-> _].
Qed.
Lemma under_snoc_weaken p q n : under p q = true -> under p (q ++ [n]) = true.
Proof. rewrite !under_spec. intros [r ->]. exists (r ++ [n]). by rewrite app_assoc. Qed.
Lemma under_snoc_l p n q : under (p ++ [n]) q = true -> under p q = true.
Proof. rewrite !under_spec. intros [r ->]. exists (n :: r). by rewrite <- app_assoc. Qed.

Lemma under_snoc_self q n : under (q ++ [n]) q = false.
Proof.
  destruct (under (q ++ [n]) q) eqn:E; [|done]. apply under_spec in E as [r E]. apply (f_equal length) in E.
  rewrite !length_app in E. simpl in E. lia.
Qed.

(** ** Names *)

Definition plain_name (n : string) : bool := is_ok (validate_name n).
Definition plain (p : Path) : Prop := Forall (fun n => plain_name n = true) p.

Lemma plain_snoc p n : plain (p ++ [n]) <-> plain p /\ plain_name n = true.
Proof. unfold plain. rewrite Forall_app, Forall_singleton. done. Qed.

Lemma plain_not_whiteout n : plain_name n = true -> is_whiteout_name n = false.
Proof. unfold plain_name, validate_name. destruct (is_whiteout_name n); [|done]. by rewrite orb_true_r. Qed.

Lemma plain_normal n : plain_name n = true -> normal_component n = true.
Proof.
  unfold plain_name, validate_name, normal_component. intros H. apply negb_true_iff.
  apply bool_decide_eq_false. intros [->|[->| ->]]; by vm_compute in H.
Qed.

Lemma plain_rel p : plain p -> validate_rel p = Ok tt.
Proof.
  intros Hp. unfold validate_rel. assert (forallb normal_component p = true) as ->; [|done].
  apply forallb_forall. intros n Hn. apply list_elem_of_In in Hn. apply plain_normal.
  by apply (proj1 (Forall_forall _ _) Hp).
Qed.

Lemma child_plain p n : plain p -> plain_name n = true -> child p n = Ok (p ++ [n]).
Proof.
  intros Hp Hn. unfold child. rewrite plain_rel by done. simpl.
  unfold plain_name in Hn. destruct (validate_name n); done.
Qed.

Lemma child_inv p n c : child p n = Ok c -> c = p ++ [n] /\ plain_name n = true.
Proof.
  unfold child, plain_name. intros H. destruct (validate_rel p); [|done]. simpl in H.
  destruct (validate_name n); [|done]. simpl in H. by injection H as <-.
Qed.

Lemma whiteout_name_app n : is_whiteout_name (WHITEOUT_PREFIX +:+ n) = true.
Proof. apply str_prefix_app. Qed.

Lemma whiteout_not_plain n : plain_name (WHITEOUT_PREFIX +:+ n) = false.
Proof.
  destruct (plain_name _) eqn:E; [|done]. apply plain_not_whiteout in E. by rewrite whiteout_name_app in E.
Qed.

Lemma str_app_inj_l (a b c : string) : a +:+ b = a +:+ c -> b = c.
Proof. induction a as [|x a IH]; [done|]. rewrite !str_app_cons. intros [= H]. auto. Qed.

Lemma opaque_marker_is_not_a_whiteout n : plain_name n = true -> WHITEOUT_PREFIX +:+ n <> OPAQUE_NAME.
Proof.
  intros Hn H. assert (n = ".wh..opq") as ->.
  { apply (str_app_inj_l WHITEOUT_PREFIX). by rewrite H. }
  by vm_compute in Hn.
Qed.

(** ** Well-formed trees *)

Record wf (w : World) : Prop := mkWf {
  wf_root : exists n, node_at w (Upper, []) = Some n /\ node_is_dir n = true;
  wf_inode : forall f i, w_entries w !! f = Some i -> is_Some (w_inodes w !! i);
  wf_parent : forall a p n, is_Some (w_entries w !! (a, p ++ [n])) ->
    exists d, node_at w (a, p) = Some d /\ node_is_dir d = true;
  wf_dir : forall f g i n, w_entries w !! f = Some i -> w_entries w !! g = Some i ->
    w_inodes w !! i = Some n -> node_is_dir n = true -> f = g;
}.

Lemma node_at_entry w f n : node_at w f = Some n -> exists i, w_entries w !! f = Some i /\ w_inodes w !! i = Some n.
Proof. unfold node_at. destruct (w_entries w !! f) as [i|]; [|done]. simpl. eauto. Qed.

Lemma node_at_Some w f i n : w_entries w !! f = Some i -> w_inodes w !! i = Some n -> node_at w f = Some n.
Proof. unfold node_at. intros ->. done. Qed.

Lemma entry_node w f : wf w -> is_Some (w_entries w !! f) -> is_Some (node_at w f).
Proof. intros Hw [i Hi]. unfold node_at. rewrite Hi. apply (wf_inode _ Hw _ _ Hi). Qed.

Lemma node_at_None w f : wf w -> node_at w f = None <-> w_entries w !! f = None.
Proof.
  intros Hw. split; intros H.
  - destruct (w_entries w !! f) as [i|] eqn:E; [|done].
    destruct (entry_node w f Hw ltac:(by eexists)) as [n Hn]. congruence.
  - unfold node_at. by rewrite H.
Qed.

(** Everything above an entry is a directory. *)
Lemma wf_above w a p q n : wf w -> node_at w (a, p ++ q) = Some n -> q <> [] ->
  exists d, node_at w (a, p) = Some d /\ node_is_dir d = true.
Proof.
  intros Hw. revert n. induction q as [|c q IH] using rev_ind; intros n Hn Hq; [done|].
  rewrite app_assoc in Hn. apply node_at_entry in Hn as (i & Hi & _).
  destruct (wf_parent _ Hw _ _ _ ltac:(by eexists)) as (d & Hd & Hdir).
  destruct q as [|c' q _] using rev_ind; [rewrite app_nil_r in Hd; eauto|].
  eapply IH; [exact Hd|]. by destruct q.
Qed.

Lemma wf_below_absent w a p q : wf w -> node_at w (a, p) = None -> node_at w (a, p ++ q) = None.
Proof.
  intros Hw Hp. destruct q as [|c q]; [by rewrite app_nil_r|].
  destruct (node_at w (a, p ++ c :: q)) as [n|] eqn:E; [|done].
  destruct (wf_above w a p (c :: q) n Hw E ltac:(done)) as (d & Hd & _). by rewrite Hp in Hd.
Qed.

Lemma wf_below_file w a p q n : wf w -> node_at w (a, p) = Some n -> node_is_dir n = false -> q <> [] ->
  node_at w (a, p ++ q) = None.
Proof.
  intros Hw Hp Hn Hq. destruct (node_at w (a, p ++ q)) as [m|] eqn:E; [|done].
  destruct (wf_above w a p q m Hw E Hq) as (d & Hd & Hdir). rewrite Hp in Hd. by injection Hd as <-; rewrite Hn in Hdir.
Qed.

(** ** One name of a directory *)

Section View.
Context (beyond : World -> FPath -> Path -> option Node) (core : OverlayCore).
Implicit Types (w : World) (p q : Path) (n : string).

Definition opaque_xattr (nd : Node) : bool :=
  existsb (fun name => bool_decide (md_xattrs (n_meta nd) !! name = Some "y")) OPAQUE_XATTRS.

Definition opaque_dir w p : bool :=
  bool_decide (is_Some (node_at w (Upper, p ++ [OPAQUE_NAME])))
  || match node_at w (Upper, p) with Some nd => opaque_xattr nd | None => false end.

Definition hidden w p n : bool :=
  bool_decide (is_Some (node_at w (whiteout_path p n))) || opaque_dir w p.

Definition lower_node (lowers : list Layer) p : option Node :=
  i ← find_lower 0 lowers p; l ← lowers !! i; st_node <$> ly_lstat l p.

Definition comp w p n : option Node :=
  match node_at w (Upper, p ++ [n]) with
  | Some nd => Some nd
  | None => if hidden w p n then None else lower_node (w_lowers w) (p ++ [n])
  end.

(** No symbolic link among the directories of a path. *)
Definition straight w p : Prop :=
  forall q nd, q `prefix_of` p -> node_at w (Upper, q) = Some nd -> kind_is_symlink (n_kind nd) = false.

Lemma first_link_straight w seen rest : straight w (seen ++ rest) -> forall c, first_link w Upper seen (rest ++ [c]) = None.
Proof.
  revert seen. induction rest as [|x rest IH]; intros seen Hs c; [done|].
  simpl. destruct (rest ++ [c]) as [|y l] eqn:E; [by destruct rest|]. rewrite <- E.
  assert (straight w ((seen ++ [x]) ++ rest)) as Hs' by by rewrite <- app_assoc.
  destruct (node_at w (Upper, seen ++ [x])) as [nd|] eqn:En; [|by apply IH].
  rewrite (Hs (seen ++ [x]) nd); [by apply IH| |done].
  exists rest. by rewrite <- app_assoc.
Qed.

Lemma lstat_straight w p c : straight w p -> lstat beyond w (Upper, p ++ [c]) = node_at w (Upper, p ++ [c]).
Proof.
  intros Hs. unfold lstat. destruct (node_at w _); [done|].
  simpl. by rewrite (first_link_straight w [] p Hs).
Qed.

Lemma lstat_self w p : straight w p -> lstat beyond w (Upper, p) = node_at w (Upper, p).
Proof.
  intros Hs. destruct p as [|c p _] using rev_ind.
  - unfold lstat. by destruct (node_at w _).
  - apply lstat_straight. intros q nd Hq. apply Hs. etrans; [exact Hq|]. by exists [c].
Qed.

Lemma is_opaque_straight w p : straight w p -> is_opaque beyond w p = opaque_dir w p.
Proof.
  intros Hs. unfold is_opaque, opaque_dir, exists_at. rewrite lstat_straight by done. f_equal.
  unfold get_xattr. rewrite lstat_self by done. unfold opaque_xattr.
  destruct (node_at w (Upper, p)); done.
Qed.

Lemma is_whiteouted_straight w p n : straight w p ->
  is_whiteouted beyond w p n = bool_decide (is_Some (node_at w (whiteout_path p n))).
Proof. intros Hs. unfold is_whiteouted, exists_at, whiteout_path. by rewrite lstat_straight. Qed.

Lemma find_lower_spec k lowers p i : find_lower k lowers p = Some i ->
  k <= i /\ exists l st, lowers !! (i - k) = Some l /\ ly_lstat l p = Some st.
Proof.
  revert k. induction lowers as [|l lowers IH]; intros k; simpl; [done|].
  case_bool_decide as H.
  - intros [= ->]. split; [lia|]. rewrite Nat.sub_diag. destruct H as [st Hst]. eauto.
  - intros (Hle & l' & st & Hl & Hst)%IH. split; [lia|].
    exists l', st. split; [|done]. replace (i - k) with (S (i - S k)) by lia. done.
Qed.

Lemma find_lower_None k lowers p : find_lower k lowers p = None <-> Forall (fun l => ly_lstat l p = None) lowers.
Proof.
  revert k. induction lowers as [|l lowers IH]; intros k; simpl; [done|].
  rewrite Forall_cons. case_bool_decide as H.
  - split; [done|]. intros [H' _]. rewrite H' in H. by destruct H.
  - rewrite IH. apply eq_None_not_Some in H. naive_solver.
Qed.

Lemma lower_node_None lowers p : lower_node lowers p = None <-> Forall (fun l => ly_lstat l p = None) lowers.
Proof.
  unfold lower_node. rewrite <- (find_lower_None 0). destruct (find_lower 0 lowers p) as [i|] eqn:E; [|done].
  apply find_lower_spec in E as (_ & l & st & Hl & Hst). rewrite Nat.sub_0_r in Hl. simpl. rewrite Hl. simpl.
  by rewrite Hst.
Qed.

Lemma lower_node_is_Some lowers p : is_Some (lower_node lowers p) <-> exists l, l ∈ lowers /\ is_Some (ly_lstat l p).
Proof.
  split.
  - unfold lower_node. intros [nd H]. destruct (find_lower 0 lowers p) as [i|] eqn:E; [|done].
    apply find_lower_spec in E as (_ & l & st & Hl & Hst). exists l. split; [by eapply list_elem_of_lookup_2|by eexists].
  - intros (l & Hl & Hst). destruct (lower_node lowers p) eqn:E; [by eexists|].
    apply lower_node_None in E. rewrite Forall_forall in E. rewrite (E l Hl) in Hst. by destruct Hst.
Qed.

(** One component of a resolution, where nothing above is a symbolic link. *)
Lemma resolve_component_straight w p n : straight w p ->
  match resolve_component beyond w (p ++ [n]) with
  | Some r => loc_node beyond w (rs_path r) = comp w p n /\ is_Some (comp w p n)
              /\ is_upper r = bool_decide (is_Some (node_at w (Upper, p ++ [n])))
              /\ rs_path r = (if is_upper r then InUpper (p ++ [n])
                              else InLower (default 0 (find_lower 0 (w_lowers w) (p ++ [n]))) (p ++ [n]))
  | None => comp w p n = None
  end.
Proof.
  intros Hs. unfold resolve_component, comp, exists_at. rewrite lstat_straight by done.
  case_bool_decide as Hu.
  - simpl. rewrite lstat_straight by done. destruct Hu as [nd Hu]. rewrite Hu. done.
  - apply eq_None_not_Some in Hu. rewrite Hu, file_name_snoc, parent_snoc.
    rewrite is_whiteouted_straight, is_opaque_straight by done. fold (hidden w p n).
    destruct (hidden w p n); [done|]. unfold lower_node.
    destruct (find_lower 0 (w_lowers w) (p ++ [n])) as [i|] eqn:E; [|done]. simpl.
    apply find_lower_spec in E as (_ & l & st & Hl & Hst). rewrite Nat.sub_0_r in Hl. rewrite Hl. simpl.
    rewrite Hst. done.
Qed.

(** ** The view *)

Definition view w p : option Node :=
  match resolve beyond core w p with
  | Some r => loc_node beyond w (rs_path r)
  | None => None
  end.

Definition is_dir_node (o : option Node) : bool := match o with Some nd => node_is_dir nd | None => false end.

Definition step_dir w p : bool :=
  match resolve_component beyond w p with
  | Some item => is_dir_node (loc_node beyond w (rs_path item))
  | None => false
  end.

Definition walk w p : bool := forallb (step_dir w) (prefixes [] p).

Lemma resolve_loop_snoc w ps q r :
  resolve_loop beyond w (ps ++ [q]) r =
    if forallb (step_dir w) ps then resolve_component beyond w q else None.
Proof.
  revert r. induction ps as [|c ps IH]; intros r; simpl.
  - destruct (resolve_component beyond w q); [|done]. done.
  - unfold step_dir at 1. destruct (resolve_component beyond w c) as [item|]; [|done].
    rewrite bool_decide_false by (by destruct ps). unfold is_dir_node.
    destruct (loc_node beyond w (rs_path item)) as [m|]; [|done].
    destruct (node_is_dir m); [|done]. apply IH.
Qed.

Lemma require_visible_plain p : plain p -> require_visible core p = if is_excluded core p then Err ENOENT else Ok tt.
Proof. intros Hp. unfold require_visible. by rewrite plain_rel. Qed.

Lemma resolve_snoc w p n : plain (p ++ [n]) ->
  resolve beyond core w (p ++ [n]) =
    if is_excluded core (p ++ [n]) then None else
    if walk w p then resolve_component beyond w (p ++ [n]) else None.
Proof.
  intros Hp. unfold resolve. rewrite require_visible_plain by done.
  destruct (is_excluded core (p ++ [n])); [done|].
  destruct (p ++ [n]) as [|c l] eqn:E; [by destruct p|]. rewrite <- E, prefixes_snoc. apply resolve_loop_snoc.
Qed.

Lemma walk_snoc w p n : walk w (p ++ [n]) = walk w p && step_dir w (p ++ [n]).
Proof. unfold walk. rewrite prefixes_snoc, forallb_app. simpl. by rewrite andb_true_r. Qed.

Lemma walk_straight w p : wf w -> walk w p = true -> straight w p.
Proof.
  intros Hw. induction p as [|n p IH] using rev_ind.
  - intros _ q nd Hq Hn. apply prefix_nil_inv in Hq as ->.
    destruct (wf_root _ Hw) as (d & Hd & Hdir). rewrite Hd in Hn. injection Hn as ->.
    unfold node_is_dir, kind_is_dir in Hdir. by destruct (n_kind nd).
  - rewrite walk_snoc, andb_true_iff. intros [Hp Hstep]. specialize (IH Hp).
    intros q nd Hq Hn. destruct (under_snoc q p n) as [->|Hu]; [by apply under_spec|..].
    + unfold step_dir in Hstep. pose proof (resolve_component_straight w p n IH) as Hr.
      destruct (resolve_component beyond w (p ++ [n])) as [r|]; [|done].
      destruct Hr as (Hr & _ & _). rewrite Hr in Hstep. unfold comp in Hstep. rewrite Hn in Hstep.
      simpl in Hstep. unfold node_is_dir, kind_is_dir in Hstep. by destruct (n_kind nd).
    + apply under_spec in Hu as [r ->]. apply (IH q nd); [by exists r|done].
Qed.

Lemma step_dir_comp w p n : straight w p -> step_dir w (p ++ [n]) = is_dir_node (comp w p n).
Proof.
  intros Hs. unfold step_dir. pose proof (resolve_component_straight w p n Hs) as Hr.
  destruct (resolve_component beyond w (p ++ [n])) as [r|]; [by destruct Hr as [-> _]|by rewrite Hr].
Qed.

Lemma is_excluded_snoc p n : is_excluded core p = true -> is_excluded core (p ++ [n]) = true.
Proof.
  unfold is_excluded. rewrite !existsb_exists. intros (x & Hx & Hu). exists x.
  split; [done|by apply under_snoc_weaken].
Qed.

Lemma view_nil w : wf w -> is_excluded core [] = false -> view w [] = node_at w (Upper, []).
Proof.
  intros Hw He. unfold view, resolve. rewrite require_visible_plain by constructor. rewrite He. simpl.
  unfold lstat. simpl. by destruct (node_at w _).
Qed.

Lemma view_dir_walk w p : wf w -> plain p -> is_excluded core p = false ->
  is_dir_node (view w p) = walk w p.
Proof.
  intros Hw Hp He. destruct p as [|n p _] using rev_ind.
  - rewrite view_nil by done. destruct (wf_root _ Hw) as (d & -> & Hd). done.
  - unfold view. rewrite resolve_snoc, He by done. rewrite walk_snoc.
    destruct (walk w p) eqn:Ewalk; [|done]. simpl. unfold step_dir.
    by destruct (resolve_component beyond w (p ++ [n])).
Qed.

(** The view, component by component. *)
Lemma view_snoc w p n : wf w -> plain (p ++ [n]) ->
  view w (p ++ [n]) =
    if is_excluded core (p ++ [n]) then None else
    if is_dir_node (view w p) then comp w p n else None.
Proof.
  intros Hw Hp. apply plain_snoc in Hp as Hp'. destruct Hp' as [Hpp _].
  unfold view at 1. rewrite resolve_snoc by done.
  destruct (is_excluded core (p ++ [n])) eqn:He; [done|].
  assert (is_excluded core p = false) as Hep.
  { destruct (is_excluded core p) eqn:E; [|done]. by rewrite (is_excluded_snoc p n E) in He. }
  rewrite view_dir_walk by done. destruct (walk w p) eqn:Ewalk; [|done].
  pose proof (resolve_component_straight w p n (walk_straight w p Hw Ewalk)) as Hr.
  destruct (resolve_component beyond w (p ++ [n])) as [r|]; [by destruct Hr as [-> _]|by rewrite Hr].
Qed.

(** ** Listing *)

Lemma elem_of_names_under w a p n : n ∈ names_under w (a, p) <-> is_Some (w_entries w !! (a, p ++ [n])).
Proof.
  unfold names_under. rewrite list_elem_of_omap. split.
  - intros ([[b q] i] & Hin & Hn). apply elem_of_map_to_list in Hin. simpl in Hn.
    destruct (reverse q) as [|m r] eqn:E; [done|]. case_bool_decide as Hd; [|done]. injection Hn as ->.
    destruct Hd as [-> Hp]. simpl in Hp. subst p. rewrite <- (reverse_involutive q), E, reverse_cons in Hin. by eexists.
  - intros [i Hi]. exists ((a, p ++ [n]), i). split; [by apply elem_of_map_to_list|].
    rewrite reverse_snoc, reverse_involutive. by rewrite bool_decide_true.
Qed.

(** A whiteout hides a name only where the upper directory does not have it. *)
Definition unshadowed w : Prop := forall p n, plain_name n = true ->
  is_Some (node_at w (Upper, p ++ [n])) -> node_at w (whiteout_path p n) = None.

Lemma view_excluded w p : plain p -> is_excluded core p = true -> view w p = None.
Proof. intros Hp He. unfold view, resolve. by rewrite require_visible_plain, He by done. Qed.

Lemma metadata_view w p : plain p -> metadata beyond core w p = ok_or (view w p) ENOENT.
Proof.
  intros Hp. unfold metadata. rewrite require_visible_plain by done.
  destruct (is_excluded core p) eqn:He; simpl; [by rewrite view_excluded|].
  unfold view. by destruct (resolve beyond core w p).
Qed.

Lemma resolve_view w p : wf w -> plain p -> is_Some (resolve beyond core w p) <-> is_Some (view w p).
Proof.
  intros Hw Hp. destruct p as [|n p _] using rev_ind.
  - destruct (is_excluded core []) eqn:E.
    + rewrite view_excluded by done. unfold resolve. rewrite require_visible_plain, E by constructor.
      by split; intros [??].
    + rewrite view_nil by done. unfold resolve. rewrite require_visible_plain, E by constructor. simpl.
      destruct (wf_root _ Hw) as (d & -> & _). done.
  - unfold view. rewrite resolve_snoc by done. destruct (is_excluded core _); [by split; intros [??]|].
    destruct (walk w p) eqn:Ew; [|by split; intros [??]].
    pose proof (resolve_component_straight w p n (walk_straight w p Hw Ew)) as Hr.
    destruct (resolve_component beyond w (p ++ [n])) as [r|]; [|by split; intros [??]].
    destruct Hr as (-> & Hr & _). done.
Qed.

Lemma view_is_dir w p : is_dir_node (view w p) = true <-> exists d, view w p = Some d /\ node_is_dir d = true.
Proof. destruct (view w p) as [d|]; simpl; naive_solver. Qed.

Lemma view_straight w p : wf w -> plain p -> is_dir_node (view w p) = true -> straight w p.
Proof.
  intros Hw Hp Hd. apply walk_straight; [done|]. rewrite <- view_dir_walk; [done..|].
  destruct (is_excluded core p) eqn:E; [|done]. by rewrite view_excluded in Hd.
Qed.

(** The upper entry of a visible directory is that directory. *)
Lemma view_upper w p nd : wf w -> plain p -> is_Some (view w p) ->
  node_at w (Upper, p) = Some nd -> view w p = Some nd.
Proof.
  intros Hw Hp Hv Hn. destruct p as [|n p _] using rev_ind.
  - destruct (is_excluded core []) eqn:E; [rewrite view_excluded in Hv by done; by destruct Hv|].
    by rewrite view_nil.
  - rewrite view_snoc in Hv |- * by done. destruct (is_excluded core _); [by destruct Hv|].
    destruct (is_dir_node _); [|by destruct Hv]. unfold comp. by rewrite Hn.
Qed.

Definition lists_lower w p n : Prop := opaque_dir w p = false /\ is_Some (lower_node (w_lowers w) (p ++ [n])).

Lemma elem_of_lower_names w p n : Forall LayerLaws (w_lowers w) ->
  n ∈ flat_map (fun l => default [] (filter (fun name => is_whiteout_name name = false) <$> ly_read_dir l p)) (w_lowers w)
  <-> is_whiteout_name n = false /\ is_Some (lower_node (w_lowers w) (p ++ [n])).
Proof.
  intros Hl. rewrite list_elem_of_In, in_flat_map. setoid_rewrite <- list_elem_of_In.
  rewrite lower_node_is_Some.
  rewrite Forall_forall in Hl. split.
  - intros (l & Hin & Hn). specialize (Hl l Hin). destruct (ly_read_dir l p) as [ns|] eqn:E; [|by apply elem_of_nil in Hn].
    simpl in Hn. apply list_elem_of_filter in Hn as [Hw Hn]. split; [done|]. exists l. split; [done|].
    by apply (layer_listing p ns n E).
  - intros (Hw & l & Hin & Hn). specialize (Hl l Hin). exists l. split; [done|].
    destruct (layer_parent p n Hn) as [ns E]. rewrite E. simpl. apply list_elem_of_filter. split; [done|].
    by apply (layer_listing p ns n E).
Qed.

Lemma elem_of_upper_names w p n : wf w ->
  n ∈ default [] (filter (fun name => is_whiteout_name name = false) <$> read_dir w (Upper, p))
  <-> is_whiteout_name n = false /\ is_Some (node_at w (Upper, p ++ [n])).
Proof.
  intros Hw. unfold read_dir. destruct (node_at w (Upper, p)) as [d|] eqn:E.
  - destruct (node_is_dir d) eqn:Ed.
    + simpl. rewrite list_elem_of_filter, elem_of_names_under. split; intros [H1 H2]; (split; [done|]).
      * by apply entry_node.
      * destruct H2 as [nd (i & Hi & _)%node_at_entry]. by eexists.
    + simpl. rewrite elem_of_nil. split; [done|]. intros [_ H].
      rewrite (wf_below_file w Upper p [n] d) in H by done. by destruct H.
  - simpl. rewrite elem_of_nil. split; [done|]. intros [_ H].
    rewrite (wf_below_absent w Upper p [n]) in H by done. by destruct H.
Qed.

(** The names that are collected and retained are those that are visible. *)
Lemma retained_spec w p n : wf w -> unshadowed w -> plain p -> is_dir_node (view w p) = true ->
  retained beyond core w p n = true
    /\ (is_whiteout_name n = false /\ lists_lower w p n
        \/ is_whiteout_name n = false /\ is_Some (node_at w (Upper, p ++ [n])))
  <-> plain_name n = true /\ is_Some (view w (p ++ [n])).
Proof.
  intros Hw Hu Hp Hd. pose proof (view_straight w p Hw Hp Hd) as Hs.
  unfold retained. rewrite is_whiteouted_straight by done.
  destruct (plain_name n) eqn:En.
  - rewrite child_plain, view_snoc, Hd by (done || by apply plain_snoc). pose proof (plain_not_whiteout n En) as Hn.
    destruct (is_excluded core (p ++ [n])) eqn:Eex; simpl.
    + rewrite andb_false_r. split; [by intros []|]. by intros [_ [? ?]].
    + rewrite andb_true_r, negb_true_iff, bool_decide_eq_false. unfold comp, hidden, lists_lower.
      destruct (node_at w (Upper, p ++ [n])) as [nd|] eqn:Eu.
      * rewrite (Hu p n) by (done || by rewrite Eu). split; [done|]. intros _. split; [by intros [? ?]|]. right. done.
      * case_bool_decide as Hwh; simpl; [naive_solver|]. destruct (opaque_dir w p); [|naive_solver].
        split; [intros [_ [[_ [? _]]|[_ [? ?]]]]; done|]. by intros [_ [? ?]].
  - split; [|naive_solver]. intros [H _]. apply andb_true_iff in H as [_ H].
    destruct (child p n) as [c|] eqn:Ec; [|done]. apply child_inv in Ec as [_ Ec]. congruence.
Qed.

Lemma strongly_sorted_filter {A} (R : relation A) (P : A -> Prop) `{forall x, Decision (P x)} (l : list A) :
  StronglySorted R l -> StronglySorted R (filter P l).
Proof.
  induction 1 as [|x l Hl IH Hx]; [constructor|]. rewrite filter_cons. destruct (decide (P x)); [|done].
  constructor; [done|]. rewrite List.Forall_forall in Hx |- *. intros y Hy. apply Hx.
  apply list_elem_of_In in Hy. apply list_elem_of_filter in Hy as [_ Hy]. by apply list_elem_of_In.
Qed.

Lemma list_names_spec w p : wf w -> unshadowed w -> Forall LayerLaws (w_lowers w) -> plain p ->
  match list_names beyond core w p with
  | Ok names =>
      is_dir_node (view w p) = true
      /\ StronglySorted (fun a b => String.le a b /\ a <> b) names
      /\ forall n, n ∈ names <-> plain_name n = true /\ is_Some (view w (p ++ [n]))
  | Err _ => is_dir_node (view w p) = false
  end.
Proof.
  intros Hw Hu Hl Hp. unfold list_names. rewrite require_visible_plain by done.
  destruct (is_excluded core p) eqn:He; simpl; [by rewrite view_excluded|].
  rewrite metadata_view by done. destruct (view w p) as [d|] eqn:Ev; simpl; [|done].
  destruct (node_is_dir d) eqn:Ed; simpl; [|done].
  assert (is_dir_node (view w p) = true) as Hd by by rewrite Ev.
  pose proof (view_straight w p Hw Hp Hd) as Hs. split; [done|]. split.
  - apply strongly_sorted_filter, (dedup_strict String.le), (StronglySorted_merge_sort String.le).
  - intros n. rewrite list_elem_of_filter. unfold sorted_names. rewrite elem_of_dedup.
    rewrite (elem_of_Permutation_proper n _ _ (merge_sort_Permutation String.le _)), elem_of_app.
    rewrite is_opaque_straight by done. rewrite elem_of_upper_names by done.
    assert (n ∈ (if opaque_dir w p then [] else flat_map (fun l => default []
              (filter (fun name => is_whiteout_name name = false) <$> ly_read_dir l p)) (w_lowers w))
            <-> is_whiteout_name n = false /\ lists_lower w p n) as ->.
    { unfold lists_lower. destruct (opaque_dir w p); [rewrite elem_of_nil; naive_solver|].
      rewrite elem_of_lower_names by done. naive_solver. }
    by rewrite retained_spec.
Qed.
End View.
