(* ===== verification/OverlaySteps.v ===== *)
(** * The changing calls, seen from the upper directory

    What the overlay shows depends on the upper directory only through a
    summary: for each path, the kind of its entry and whether it is a directory
    marked opaque by an attribute.  This file has what each system call does to
    the tree's well-formedness and to that summary. *)

From Stdlib Require Import ZArith Lia.
From stdpp Require Import base list strings gmap pretty sorting.
From S2P Require Import Prelude Effects OverlayFs OverlayCore OverlayView.
#[local] Set Warnings "-clear-no-such-hyp".
Open Scope string_scope.
Open Scope list_scope.

Definition Shape : Type := Path -> option (Kind * bool).

Definition node_sum (nd : Node) : Kind * bool := (n_kind nd, node_is_dir nd && opaque_xattr nd).
Definition usum (w : World) : Shape := fun p => node_sum <$> node_at w (Upper, p).

(** ** Moving entries *)

Lemma subtree_spec f g : subtree f g = true <-> fst f = fst g /\ exists r, snd g = snd f ++ r.
Proof. unfold subtree. rewrite andb_true_iff, bool_decide_eq_true, under_spec. done. Qed.
Lemma subtree_false f g : subtree f g = false <-> ~ (fst f = fst g /\ exists r, snd g = snd f ++ r).
Proof. rewrite <- subtree_spec. destruct (subtree f g); naive_solver. Qed.
Lemma subtree_pair a p b q : subtree (a, p) (b, q) = true <-> a = b /\ exists r, q = p ++ r.
Proof. apply subtree_spec. Qed.

Definition disjoint_paths (f g : FPath) : Prop := subtree f g = false /\ subtree g f = false.

Lemma subtree_both f g x : subtree f x = true -> subtree g x = true -> subtree f g = true \/ subtree g f = true.
Proof.
  destruct f as [a p], g as [b q], x as [c z]. rewrite !subtree_pair.
  intros [-> [r ->]] [-> [r' Hr]]. destruct (decide (length p <= length q)) as [H|H].
  - left. split; [done|]. exists (drop (length p) q).
    assert (p = take (length p) q) as Hp.
    { apply (f_equal (take (length p))) in Hr. rewrite take_app_length, take_app_le in Hr by done. done. }
    rewrite Hp at 1. symmetry. apply take_drop.
  - right. split; [done|]. exists (drop (length q) p).
    assert (q = take (length q) p) as Hq.
    { apply (f_equal (take (length q))) in Hr. rewrite take_app_length, take_app_le in Hr by lia. done. }
    rewrite Hq at 1. symmetry. apply take_drop.
Qed.

Lemma swap_prefix_involutive f g x : disjoint_paths f g -> swap_prefix f g (swap_prefix f g x) = x.
Proof.
  intros [Hfg Hgf]. destruct f as [a p], g as [b q], x as [c z]. unfold swap_prefix. simpl.
  destruct (subtree (a, p) (c, z)) eqn:E1.
  - apply subtree_pair in E1 as [<- [r ->]]. simpl. rewrite drop_app_length.
    destruct (subtree (a, p) (b, q ++ r)) eqn:E2.
    + destruct (subtree_both (a, p) (b, q) (b, q ++ r)); [done|by apply subtree_pair; eauto|congruence|congruence].
    + assert (subtree (b, q) (b, q ++ r) = true) as -> by (apply subtree_pair; eauto).
      by rewrite drop_app_length.
  - destruct (subtree (b, q) (c, z)) eqn:E2.
    + apply subtree_pair in E2 as [<- [r ->]]. simpl. rewrite drop_app_length.
      assert (subtree (a, p) (a, p ++ r) = true) as -> by (apply subtree_pair; eauto).
      by rewrite drop_app_length.
    + by rewrite E1, E2.
Qed.

Lemma swap_prefix_inj f g : disjoint_paths f g -> Inj (=) (=) (swap_prefix f g).
Proof. intros Hd x y H. by rewrite <- (swap_prefix_involutive f g x Hd), H, swap_prefix_involutive. Qed.

(** The map after a move, at each path. *)
Lemma lookup_move_entries f g m x : disjoint_paths f g ->
  move_entries f g m !! x =
    if subtree g x then m !! (fst f, snd f ++ drop (length (snd g)) (snd x))
    else if subtree f x then None else m !! x.
Proof.
  intros Hd. pose proof (swap_prefix_inj f g Hd) as Hinj. unfold move_entries.
  rewrite <- (swap_prefix_involutive f g x Hd) at 1. rewrite lookup_kmap by done.
  destruct Hd as [Hfg Hgf]. unfold swap_prefix.
  destruct (subtree g x) eqn:Eg.
  - destruct (subtree f x) eqn:Ef.
    { destruct (subtree_both f g x Ef Eg); congruence. }
    rewrite map_lookup_filter. destruct (m !! _) as [i|]; simpl; [|done].
    rewrite option_guard_True; [done|]. destruct (subtree g (f.1, f.2 ++ drop (length g.2) x.2)) eqn:E; [|done].
    destruct (subtree_both f g (f.1, f.2 ++ drop (length g.2) x.2)); [|done|congruence|congruence].
    apply subtree_spec. simpl. split; [done|]. eauto.
  - destruct (subtree f x) eqn:Ef.
    + rewrite map_lookup_filter. destruct (m !! _) as [i|]; simpl; [|done].
      rewrite option_guard_False; [done|]. intros H.
      assert (subtree g (g.1, g.2 ++ drop (length f.2) x.2) = true); [|congruence].
      apply subtree_spec. simpl. split; [done|]. eauto.
    + rewrite map_lookup_filter. destruct (m !! x) as [i|]; simpl; [|done].
      by rewrite option_guard_True.
Qed.

(** ** What the calls keep *)

(** Everything but the entries and their nodes. *)
Definition frame (w w' : World) : Prop :=
  w_lowers w' = w_lowers w /\ w_journal w' = w_journal w /\ w_links w' = w_links w /\ w_temp w' = w_temp w.

Lemma frame_refl w : frame w w.
Proof. done. Qed.

Lemma parent_of_snoc a p n : parent_of (a, p ++ [n]) = Some (a, p).
Proof. unfold parent_of. simpl. rewrite reverse_snoc. simpl. by rewrite reverse_involutive. Qed.

Lemma parent_error_None w a p n : parent_error w (a, p ++ [n]) = None ->
  exists d, node_at w (a, p) = Some d /\ node_is_dir d = true.
Proof.
  unfold parent_error. rewrite parent_of_snoc. destruct (node_at w (a, p)) as [d|]; [|done].
  destruct (node_is_dir d) eqn:E; [eauto|done].
Qed.

(** The only name of its node. *)
Definition sole (w : World) (f : FPath) : Prop :=
  forall g i, w_entries w !! f = Some i -> w_entries w !! g = Some i -> g = f.

Lemma fresh_ino_unused w f i : wf w -> w_entries w !! f = Some i -> i <> fresh_ino w.
Proof.
  intros Hw Hi ->. destruct (wf_inode _ Hw _ _ Hi) as [n Hn]. apply elem_of_dom_2 in Hn.
  by apply (is_fresh (dom (w_inodes w))).
Qed.

Lemma create_spec nd f w r w' : wf w -> create nd f w = (r, w') ->
  match r with
  | Err _ => w' = w
  | Ok _ => wf w' /\ frame w w' /\ node_at w f = None /\ sole w' f
            /\ (forall a p n, f = (a, p ++ [n]) -> exists d, node_at w (a, p) = Some d /\ node_is_dir d = true)
            /\ forall g, node_at w' g = if decide (g = f) then Some nd else node_at w g
  end.
Proof.
  intros Hw H. unfold create in H. destruct (parent_error w f) as [e|] eqn:Ep; [by simplify_eq|].
  destruct (w_entries w !! f) as [i|] eqn:Ef; [by simplify_eq|]. injection H as <- <-.
  set (i := fresh_ino w).
  set (w' := set_entries <[f:=i]> (set_inodes <[i:=nd]> w)).
  assert (forall g, node_at w' g = if decide (g = f) then Some nd else node_at w g) as Hn.
  { intros g. unfold node_at, w'. simpl. destruct (decide (g = f)) as [->|Hne].
    - rewrite lookup_insert_eq. simpl. by rewrite lookup_insert_eq.
    - rewrite lookup_insert_ne by done. destruct (w_entries w !! g) as [j|] eqn:Eg; [|done]. simpl.
      rewrite lookup_insert_ne; [done|]. by apply not_eq_sym, (fresh_ino_unused w g). }
  assert (forall g j, w_entries w' !! g = Some j -> (g = f /\ j = i) \/ (g <> f /\ w_entries w !! g = Some j)) as He.
  { intros g j. unfold w'. simpl. rewrite lookup_insert_Some. naive_solver. }
  assert (node_at w f = None) as HfN by (unfold node_at; by rewrite Ef).
  assert (forall a p n, f = (a, p ++ [n]) -> exists d, node_at w (a, p) = Some d /\ node_is_dir d = true) as Hpar.
  { intros a p n ->. by eapply parent_error_None. }
  split; [|split; [done|split; [done|split; [|split; [done|done]]]]].
  - constructor.
    + destruct (wf_root _ Hw) as (d & Hd & Hdir). exists d. rewrite Hn.
      destruct (decide ((Upper, []) = f)) as [<-|]; [congruence|done].
    + intros g j [[-> ->]|[Hg Hj]]%He; simpl; [rewrite lookup_insert_eq; by eexists|].
      rewrite lookup_insert_ne; [by eapply wf_inode|]. by apply not_eq_sym, (fresh_ino_unused w g).
    + intros a p n [j Hj]. apply He in Hj as Hcases.
      assert (exists d, node_at w (a, p) = Some d /\ node_is_dir d = true) as (d & Hd & Hdir).
      { destruct Hcases as [[<- _]|[_ Hj']]; [by eapply Hpar|]. by eapply wf_parent. }
      exists d. rewrite Hn. destruct (decide ((a, p) = f)) as [<-|]; [congruence|done].
    + intros g h j m [[-> ->]|[Hg Hj]]%He [[-> Hji]|[Hh Hj']]%He Hm Hdir; try done.
      * by apply fresh_ino_unused in Hj'.
      * subst j. by apply fresh_ino_unused in Hj.
      * simpl in Hm. rewrite lookup_insert_ne in Hm by by apply not_eq_sym, (fresh_ino_unused w g).
        by eapply (wf_dir _ Hw).
  - intros g j [[_ ->]|[? _]]%He [[-> _]|[_ Hg]]%He; try done. by apply fresh_ino_unused in Hg.
Qed.

(** A change of a node that keeps directories directories. *)
Lemma change_spec h f w r w' : wf w -> (forall n, node_at w f = Some n -> node_is_dir (h n) = node_is_dir n) ->
  change h f w = (r, w') ->
  match r with
  | Err _ => w' = w
  | Ok _ => wf w' /\ frame w w' /\ w_entries w' = w_entries w
            /\ exists i nd, w_entries w !! f = Some i /\ w_inodes w !! i = Some nd
               /\ forall g, node_at w' g = if decide (w_entries w !! g = Some i) then Some (h nd) else node_at w g
  end.
Proof.
  intros Hw Hh0 H. unfold change in H. destruct (w_entries w !! f) as [i|] eqn:Ef; [|by simplify_eq].
  destruct (w_inodes w !! i) as [nd|] eqn:Ei; [|by simplify_eq]. injection H as <- <-.
  pose proof (Hh0 nd (node_at_Some _ _ _ _ Ef Ei)) as Hh.
  set (w' := set_inodes <[i:=h nd]> w).
  assert (forall g, node_at w' g = if decide (w_entries w !! g = Some i) then Some (h nd) else node_at w g) as Hn.
  { intros g. unfold node_at, w'. simpl. destruct (w_entries w !! g) as [j|]; simpl; [|done].
    destruct (decide (Some j = Some i)) as [[= ->]|Hne]; [apply lookup_insert_eq|].
    rewrite lookup_insert_ne; congruence. }
  assert (forall g d, node_at w g = Some d -> node_is_dir d = true -> exists d', node_at w' g = Some d' /\ node_is_dir d' = true) as Hd.
  { intros g d Hg Hdir. rewrite Hn. destruct (decide _) as [Hgi|]; [|eauto]. exists (h nd). split; [done|].
    rewrite Hh. unfold node_at in Hg. rewrite Hgi in Hg. simpl in Hg. congruence. }
  split; [|split; [done|split; [done|eauto 10]]]. constructor.
  - destruct (wf_root _ Hw) as (d & H1 & H2). eauto.
  - intros g j Hj. unfold w'. simpl. destruct (decide (j = i)) as [->|]; [rewrite lookup_insert_eq; by eexists|].
    rewrite lookup_insert_ne by done. by apply (wf_inode _ Hw g).
  - intros a p n Hp. destruct (wf_parent _ Hw _ _ _ Hp) as (d & H1 & H2). eauto.
  - intros g x j m Hg Hx Hm Hdir. unfold w' in Hm. simpl in Hm. destruct (decide (i = j)) as [<-|].
    + rewrite lookup_insert_eq in Hm. injection Hm as <-. rewrite Hh in Hdir. by eapply (wf_dir _ Hw).
    + rewrite lookup_insert_ne in Hm by done. by eapply (wf_dir _ Hw).
Qed.

(** Deleting an entry with nothing below it. *)
Lemma delete_spec f w : wf w -> f <> (Upper, []) -> (forall n, w_entries w !! (fst f, snd f ++ [n]) = None) ->
  let w' := set_entries (delete f) w in
  wf w' /\ forall g, node_at w' g = if decide (g = f) then None else node_at w g.
Proof.
  intros Hw Hroot Hleaf w'.
  assert (forall g, node_at w' g = if decide (g = f) then None else node_at w g) as Hn.
  { intros g. unfold node_at, w'. simpl. destruct (decide (g = f)) as [->|]; [by rewrite lookup_delete_eq|].
    by rewrite lookup_delete_ne. }
  assert (forall g i, w_entries w' !! g = Some i -> g <> f /\ w_entries w !! g = Some i) as He.
  { intros g i. unfold w'. simpl. rewrite lookup_delete_Some. naive_solver. }
  split; [|done]. constructor.
  - destruct (wf_root _ Hw) as (d & Hd & Hdir). exists d. rewrite Hn. by rewrite decide_False.
  - intros g i [_ Hi]%He. by apply (wf_inode _ Hw g).
  - intros a p n [i [Hne Hi]%He]. destruct (wf_parent _ Hw a p n) as (d & Hd & Hdir); [by eexists|].
    exists d. split; [|done]. rewrite Hn. destruct (decide ((a, p) = f)) as [<-|]; [|done].
    simpl in Hleaf. by rewrite Hleaf in Hi.
  - intros g h i m [_ Hg]%He [_ Hh]%He. by apply (wf_dir _ Hw).
Qed.

Lemma unlink_spec f w r w' : wf w -> unlink f w = (r, w') ->
  match r with
  | Err e => w' = w /\ (e = ENOENT -> node_at w f = None)
  | Ok _ => wf w' /\ frame w w' /\ (exists nd, node_at w f = Some nd /\ node_is_dir nd = false)
            /\ (forall g, w_entries w' !! g = if decide (g = f) then None else w_entries w !! g)
            /\ forall g, node_at w' g = if decide (g = f) then None else node_at w g
  end.
Proof.
  intros Hw H. unfold unlink in H. destruct (node_at w f) as [n|] eqn:E; [|by simplify_eq].
  destruct (node_is_dir n) eqn:En; [by simplify_eq|]. injection H as <- <-.
  destruct (delete_spec f w Hw) as [Hw' Hn].
  - intros ->. destruct (wf_root _ Hw) as (d & Hd & Hdir). congruence.
  - intros m. apply (node_at_None _ _ Hw). destruct f as [a p]. simpl. by apply (wf_below_file w a p [m] n).
  - split; [done|]. split; [done|]. split; [eauto|]. split; [|done]. intros g. simpl.
    destruct (decide (g = f)) as [->|]; [by rewrite lookup_delete_eq|by rewrite lookup_delete_ne].
Qed.

Lemma rmdir_spec f w r w' : wf w -> f <> (Upper, []) -> rmdir f w = (r, w') ->
  match r with
  | Err _ => w' = w
  | Ok _ => wf w' /\ frame w w'
            /\ (forall g, w_entries w' !! g = if decide (g = f) then None else w_entries w !! g)
            /\ forall g, node_at w' g = if decide (g = f) then None else node_at w g
  end.
Proof.
  intros Hw Hroot H. unfold rmdir in H. destruct (node_at w f) as [n|] eqn:E; [|by simplify_eq].
  destruct (node_is_dir n); [|by simplify_eq]. case_bool_decide as Hnames; [|by simplify_eq]. injection H as <- <-.
  destruct (delete_spec f w Hw Hroot) as [Hw' Hn].
  - intros m. destruct f as [a p]. simpl. destruct (w_entries w !! (a, p ++ [m])) as [i|] eqn:Em; [|done].
    assert (m ∈ names_under w (a, p)) as Hm by (apply elem_of_names_under; by eexists). rewrite Hnames in Hm. by apply elem_of_nil in Hm.
  - split; [done|]. split; [done|]. split; [|done]. intros g. simpl.
    destruct (decide (g = f)) as [->|]; [by rewrite lookup_delete_eq|by rewrite lookup_delete_ne].
Qed.

Lemma link_spec old new w r w' : wf w -> link old new w = (r, w') ->
  match r with
  | Err _ => w' = w
  | Ok _ => wf w' /\ frame w w' /\ node_at w new = None
            /\ exists nd, node_at w old = Some nd /\ node_is_dir nd = false
               /\ forall g, node_at w' g = if decide (g = new) then Some nd else node_at w g
  end.
Proof.
  intros Hw H. unfold link in H. destruct (w_entries w !! old) as [i|] eqn:Eo; [|by simplify_eq].
  destruct (w_inodes w !! i) as [nd|] eqn:Ei; [|by simplify_eq].
  destruct (node_is_dir nd) eqn:Ed; [by simplify_eq|].
  destruct (parent_error w new) as [e|] eqn:Ep; [by simplify_eq|].
  destruct (w_entries w !! new) as [j|] eqn:En; [by simplify_eq|]. injection H as <- <-.
  set (w' := set_entries <[new:=i]> w).
  assert (node_at w new = None) as HnN by (unfold node_at; by rewrite En).
  assert (forall g, node_at w' g = if decide (g = new) then Some nd else node_at w g) as Hn.
  { intros g. unfold node_at, w'. simpl. destruct (decide (g = new)) as [->|]; [by rewrite lookup_insert_eq|].
    by rewrite lookup_insert_ne. }
  assert (forall g d, node_at w g = Some d -> node_at w' g = Some d) as Hkeep.
  { intros g d Hg. rewrite Hn. destruct (decide (g = new)) as [->|]; [congruence|done]. }
  assert (forall g j, w_entries w' !! g = Some j -> (g = new /\ j = i) \/ (g <> new /\ w_entries w !! g = Some j)) as He.
  { intros g j. unfold w'. simpl. rewrite lookup_insert_Some. naive_solver. }
  split; [|split; [done|split; [done|]]]; [|exists nd; unfold node_at; rewrite Eo; done]. constructor.
  - destruct (wf_root _ Hw) as (d & Hd & Hdir). eauto.
  - intros g j [[_ ->]|[_ Hj]]%He; [by eexists|]. by apply (wf_inode _ Hw g).
  - intros a p n [j [[<- _]|[_ Hj]]%He].
    + destruct (parent_error_None _ _ _ _ Ep) as (d & Hd & Hdir). eauto.
    + destruct (wf_parent _ Hw a p n) as (d & Hd & Hdir); [by eexists|]. eauto.
  - intros g h j m [[-> ->]|[Hg Hj]]%He [[-> Hji]|[Hh Hj']]%He Hm Hdir; try done;
      [simpl in Hm; congruence|subst j; simpl in Hm; congruence|]. by eapply (wf_dir _ Hw).
Qed.

Lemma subtree_below w f g : wf w -> subtree f g = true -> f <> g -> is_Some (w_entries w !! g) ->
  exists d, node_at w f = Some d /\ node_is_dir d = true /\ names_under w f <> [].
Proof.
  destruct f as [a p], g as [b q]. rewrite subtree_pair. intros Hw [-> [r ->]] Hne Hg.
  destruct r as [|n r]; [by rewrite app_nil_r in Hne|].
  destruct (entry_node w _ Hw Hg) as [nd Hnd].
  destruct (wf_above w b p (n :: r) nd Hw Hnd ltac:(done)) as (d & Hd & Hdir). exists d. split; [done|]. split; [done|].
  assert (is_Some (w_entries w !! (b, p ++ [n]))) as Hn.
  { destruct r as [|m r]; [done|]. replace (p ++ n :: m :: r) with ((p ++ [n]) ++ m :: r) in Hnd by by rewrite <- app_assoc.
    destruct (wf_above w b (p ++ [n]) (m :: r) nd Hw Hnd ltac:(done)) as (d' & Hd' & _).
    apply node_at_entry in Hd' as (i & Hi & _). by eexists. }
  apply elem_of_names_under in Hn. intros Hnil. rewrite Hnil in Hn. by apply elem_of_nil in Hn.
Qed.

Definition moved (src dst : FPath) {A} (m : FPath -> option A) (g : FPath) : option A :=
  if subtree dst g then m (fst src, snd src ++ drop (length (snd dst)) (snd g))
  else if subtree src g then None else m g.

Lemma moved_wf src dst w : wf w -> disjoint_paths src dst -> src <> (Upper, []) -> dst <> (Upper, []) ->
  (forall a p n, dst = (a, p ++ [n]) -> exists d, node_at w (a, p) = Some d /\ node_is_dir d = true) ->
  wf (set_entries (move_entries src dst) w).
Proof.
  intros Hw Hd Hs Hr Hpar. set (w' := set_entries _ w).
  assert (forall g, w_entries w' !! g = moved src dst (fun g => w_entries w !! g) g) as He.
  { intros g. unfold w', moved. simpl. by rewrite lookup_move_entries. }
  assert (forall g, node_at w' g = moved src dst (node_at w) g) as Hn.
  { intros g. unfold node_at. rewrite He. unfold moved, w'. simpl. destruct (subtree dst g); [done|]. by destruct (subtree src g). }
  assert (forall g i, w_entries w' !! g = Some i -> exists h, w_entries w !! h = Some i) as Hex.
  { intros g i. rewrite He. unfold moved. destruct (subtree dst g); [eauto|]. destruct (subtree src g); [done|]. eauto. }
  constructor.
  - destruct (wf_root _ Hw) as (d & Hd0 & Hdir). exists d. rewrite Hn. unfold moved.
    assert (forall f, f <> (Upper, []) -> subtree f (Upper, []) = false) as Hroot.
    { intros [a p] Hf. apply subtree_false. simpl. intros [-> [r Hr']]. symmetry in Hr'. by apply app_nil in Hr' as [-> _]. }
    by rewrite !Hroot.
  - intros g i (h & Hi)%Hex. by apply (wf_inode _ Hw h).
  - intros a p n Hin. rewrite He in Hin. rewrite Hn. unfold moved in *. destruct dst as [b q], src as [c s]. simpl in *.
    destruct (subtree (b, q) (a, p ++ [n])) eqn:E1.
    + apply subtree_pair in E1 as E1'. destruct E1' as [<- [r Hr']].
      destruct r as [|m r _] using rev_ind.
      * rewrite app_nil_r in Hr'. subst q. assert (subtree (b, p ++ [n]) (b, p) = false) as ->.
        { apply subtree_false. simpl. intros [_ [r Hr']]. apply (f_equal length) in Hr'. rewrite !length_app in Hr'. simpl in Hr'. lia. }
        destruct (Hpar b p n eq_refl) as (d & Hd0 & Hdir).
        destruct (subtree (c, s) (b, p)) eqn:E2; [|eauto].
        apply subtree_pair in E2 as [-> [r ->]]. destruct Hd as [Hd _]. apply subtree_false in Hd. simpl in Hd.
        exfalso. apply Hd. split; [done|]. exists (r ++ [n]). by rewrite app_assoc.
      * rewrite app_assoc in Hr'. apply app_inj_tail in Hr' as [-> ->].
        assert (subtree (b, q) (b, q ++ r) = true) as -> by (apply subtree_pair; eauto).
        rewrite drop_app_length. rewrite <- app_assoc, drop_app_length, app_assoc in Hin. by apply (wf_parent _ Hw c (s ++ r) m).
    + destruct (subtree (c, s) (a, p ++ [n])) eqn:E2; [by destruct Hin|].
      destruct (wf_parent _ Hw a p n Hin) as (d & Hd0 & Hdir).
      assert (forall x y, subtree (x, y) (a, p ++ [n]) = false -> subtree (x, y) (a, p) = false) as Hmono.
      { intros x y Hx. apply subtree_false. simpl. intros [-> [r ->]]. apply subtree_false in Hx. apply Hx. simpl. split; [done|].
        exists (r ++ [n]). by rewrite app_assoc. }
      rewrite !Hmono by done. eauto.
  - intros g h i m Hg Hh Hm Hdir. unfold w' in Hm. simpl in Hm. rewrite He in Hg, Hh.
    apply (swap_prefix_inj src dst Hd). 
    assert (forall x, moved src dst (fun g => w_entries w !! g) x = Some i -> w_entries w !! swap_prefix src dst x = Some i) as Hback.
    { intros x Hx. unfold moved in Hx. unfold swap_prefix. destruct (subtree dst x) eqn:E1.
      - destruct (subtree src x) eqn:E2; [|done]. destruct Hd. destruct (subtree_both src dst x E2 E1); congruence.
      - destruct (subtree src x); done. }
    eapply (wf_dir _ Hw); eauto.
Qed.

Lemma rename_spec src dst w r w' : wf w -> src <> (Upper, []) -> dst <> (Upper, []) -> rename_entry src dst w = (r, w') ->
  match r with
  | Err _ => w' = w
  | Ok _ => wf w' /\ frame w w' /\ is_Some (node_at w src)
            /\ (w_entries w !! dst = w_entries w !! src /\ w' = w
                \/ disjoint_paths src dst /\ (forall g, w_entries w' !! g = moved src dst (fun g => w_entries w !! g) g)
                   /\ (forall a p n, dst = (a, p ++ [n]) -> exists d, node_at w (a, p) = Some d /\ node_is_dir d = true)
                   /\ (forall g, node_at w' g = moved src dst (node_at w) g))
  end.
Proof.
  intros Hw Hs Hr H. unfold rename_entry in H. destruct (w_entries w !! src) as [i|] eqn:Es; [|by simplify_eq].
  destruct (node_at w src) as [nd|] eqn:En; [|by simplify_eq].
  case_bool_decide as Hsame; [simplify_eq; split_and!; try done; left; by rewrite Hsame|].
  destruct (subtree src dst) eqn:Esd; [by simplify_eq|].
  destruct (parent_error w dst) as [e|] eqn:Ep; [by simplify_eq|].
  destruct (replace_error w nd dst) as [e|] eqn:Er; [by simplify_eq|]. injection H as <- <-.
  assert (disjoint_paths src dst) as Hd.
  { split; [done|]. destruct (subtree dst src) eqn:Eds; [|done]. exfalso.
    destruct (decide (dst = src)) as [->|Hne]; [congruence|].
    destruct (subtree_below w dst src Hw Eds Hne ltac:(by eexists)) as (d & Hd & Hdir & Hnn).
    unfold replace_error in Er. rewrite Hd, Hdir in Er. rewrite bool_decide_false in Er by done. by destruct (node_is_dir nd). }
  assert (forall a p n, dst = (a, p ++ [n]) -> exists d, node_at w (a, p) = Some d /\ node_is_dir d = true) as Hpar.
  { intros a p n ->. by eapply parent_error_None. }
  split; [by apply moved_wf|]. split; [done|]. split; [by eexists|]. right. split; [done|].
  assert (forall g, w_entries (set_entries (move_entries src dst) w) !! g = moved src dst (fun g => w_entries w !! g) g) as He.
  { intros g. unfold moved. simpl. by rewrite lookup_move_entries. }
  split; [done|]. split; [done|]. intros g. unfold node_at. rewrite He. unfold moved. simpl.
  destruct (subtree dst g); [done|]. by destruct (subtree src g).
Qed.
