(* ===== verification/OverlayShape.v ===== *)
(** * The view as a function of the upper directory's summary

    [kv s p] is the kind of node the overlay shows at [p] when the upper
    directory has the summary [s]; [kview_kv] says that it is the view.  What
    follows from there is about functions on paths: which changes of the
    summary leave the view as it is, and what the others do to it. *)

From Stdlib Require Import ZArith Lia.
From stdpp Require Import base list strings gmap pretty sorting.
From S2P Require Import Prelude Effects OverlayFs OverlayCore OverlayView OverlaySteps.
#[local] Set Warnings "-clear-no-such-hyp".
Open Scope string_scope.
Open Scope list_scope.

Definition is_kdir (o : option Kind) : bool := match o with Some KDir => true | _ => false end.

Lemma is_kdir_spec o : is_kdir o = true <-> o = Some KDir.
Proof. destruct o as [[]|]; naive_solver. Qed.

Definition upd (s : Shape) (q : Path) (x : option (Kind * bool)) : Shape :=
  fun p => if decide (p = q) then x else s p.

Lemma upd_eq s q x : upd s q x q = x.
Proof. unfold upd. by rewrite decide_True. Qed.
Lemma upd_ne s q x p : p <> q -> upd s q x p = s p.
Proof. intros H. unfold upd. by rewrite decide_False. Qed.

Section Shape.
Context (beyond : World -> FPath -> Path -> option Node) (core : OverlayCore) (L : list Layer).
Implicit Types (s : Shape) (p q : Path) (n : string).

Definition opq s p : bool :=
  bool_decide (is_Some (s (p ++ [OPAQUE_NAME]))) || match s p with Some (_, b) => b | None => false end.
Definition hides s p n : bool := bool_decide (is_Some (s (p ++ [WHITEOUT_PREFIX +:+ n]))) || opq s p.
Definition lowk p : option Kind := n_kind <$> lower_node L p.
Definition kcomp s p n : option Kind :=
  match s (p ++ [n]) with
  | Some (k, _) => Some k
  | None => if hides s p n then None else lowk (p ++ [n])
  end.

Fixpoint kv_from s (seen : Path) (k : Kind) (rest : Path) : option Kind :=
  match rest with
  | [] => Some k
  | n :: rest =>
      if is_kdir (Some k) then
        if is_excluded core (seen ++ [n]) then None else
        match kcomp s seen n with
        | Some k' => kv_from s (seen ++ [n]) k' rest
        | None => None
        end
      else None
  end.
Definition kv s p : option Kind := if is_excluded core [] then None else kv_from s [] KDir p.

Lemma kv_from_snoc s seen k p n : kv_from s seen k (p ++ [n]) =
  if is_kdir (kv_from s seen k p) then
    if is_excluded core (seen ++ p ++ [n]) then None else kcomp s (seen ++ p) n
  else None.
Proof.
  revert seen k. induction p as [|m p IH]; intros seen k; cbn [kv_from app].
  - rewrite app_nil_r. destruct (is_kdir (Some k)); [|done]. destruct (is_excluded _ _); [done|].
    by destruct (kcomp s seen n).
  - destruct (is_kdir (Some k)); [|done]. destruct (is_excluded core (seen ++ [m])); [done|].
    destruct (kcomp s seen m) as [k'|]; [|done]. rewrite IH. by rewrite <- !app_assoc.
Qed.

Lemma kv_snoc s p n : kv s (p ++ [n]) =
  if is_excluded core (p ++ [n]) then None else if is_kdir (kv s p) then kcomp s p n else None.
Proof.
  unfold kv. destruct (is_excluded core []) eqn:E; [by destruct (is_excluded core (p ++ [n]))|].
  rewrite kv_from_snoc. simpl. destruct (is_kdir _), (is_excluded core (p ++ [n])); done.
Qed.

Lemma kv_nil s : kv s [] = if is_excluded core [] then None else Some KDir.
Proof. done. Qed.

(** What is visible lies in visible directories. *)
Lemma kv_parent s p n : is_Some (kv s (p ++ [n])) -> kv s p = Some KDir /\ is_excluded core (p ++ [n]) = false.
Proof.
  rewrite kv_snoc. destruct (is_excluded core (p ++ [n])); [by intros [? ?]|].
  destruct (is_kdir (kv s p)) eqn:E; [|by intros [? ?]]. intros _. split; [by apply is_kdir_spec|done].
Qed.

Lemma kv_above s p q : is_Some (kv s (p ++ q)) -> is_Some (kv s p).
Proof.
  induction q as [|n q IH] using rev_ind; [by rewrite app_nil_r|].
  rewrite app_assoc. intros [H _]%kv_parent. apply IH. by eexists.
Qed.

Lemma kv_above_dir s p q : q <> [] -> is_Some (kv s (p ++ q)) -> kv s p = Some KDir.
Proof.
  intros Hq H. destruct q as [|n q]; [done|].
  replace (p ++ n :: q) with ((p ++ [n]) ++ q) in H by by rewrite <- app_assoc.
  by apply kv_above, kv_parent in H as [H _].
Qed.

Lemma kv_comp s p n k : kv s (p ++ [n]) = Some k -> kcomp s p n = Some k.
Proof.
  intros H. assert (is_Some (kv s (p ++ [n]))) as [Hd Hx]%kv_parent by by rewrite H.
  rewrite kv_snoc, Hx, Hd in H. done.
Qed.

Lemma kv_excluded s p : is_excluded core p = true -> kv s p = None.
Proof.
  destruct p as [|n p _] using rev_ind; intros H; [by rewrite kv_nil, H|]. by rewrite kv_snoc, H.
Qed.

Lemma kview_kv w p : wf w -> w_lowers w = L -> plain p -> n_kind <$> view beyond core w p = kv (usum w) p.
Proof.
  intros Hw HL. induction p as [|n p IH] using rev_ind; intros Hp.
  - rewrite kv_nil. destruct (is_excluded core []) eqn:E; [by rewrite view_excluded|].
    rewrite view_nil by done. destruct (wf_root _ Hw) as (d & -> & Hd). simpl.
    unfold node_is_dir, kind_is_dir in Hd. by destruct (n_kind d).
  - rewrite view_snoc, kv_snoc by done. destruct (is_excluded core _); [done|].
    apply plain_snoc in Hp as [Hp Hn]. specialize (IH Hp).
    assert (is_dir_node (view beyond core w p) = is_kdir (kv (usum w) p)) as Hd.
    { rewrite <- IH. destruct (view beyond core w p) as [nd|]; [|done]. simpl.
      unfold node_is_dir. by destruct (n_kind nd). }
    rewrite <- Hd. destruct (is_dir_node (view beyond core w p)) eqn:Edir; [|done].
    unfold comp, kcomp, usum. destruct (node_at w (Upper, p ++ [n])) as [nd|]; [done|]. simpl.
    assert (hidden w p n = hides (usum w) p n) as ->.
    { unfold hidden, hides, whiteout_path, usum, opaque_dir, opq. f_equal.
      - by destruct (node_at w (Upper, p ++ [WHITEOUT_PREFIX +:+ n])).
      - f_equal; [by destruct (node_at w (Upper, p ++ [OPAQUE_NAME]))|].
        destruct (node_at w (Upper, p)) as [nd|] eqn:E; [|done]. simpl.
        apply view_is_dir in Edir as (d & Hv & Hdir). rewrite (view_upper beyond core w p nd) in Hv by (done || by rewrite Hv).
        injection Hv as <-. by rewrite Hdir. }
    rewrite HL. by destruct (hides _ _ _).
Qed.

(** ** Changes that the view does not see *)

Lemma kv_ext s s' : (forall p, s p = s' p) -> forall p, kv s p = kv s' p.
Proof.
  intros H p. induction p as [|n p IH] using rev_ind; [done|]. rewrite !kv_snoc, IH.
  unfold kcomp, hides, opq. by rewrite !H.
Qed.

(** The names of visible directories decide. *)
Lemma kv_same s s' :
  (forall p n, plain p -> plain_name n = true -> kv s p = Some KDir -> is_Some (kv s (p ++ [n])) \/ is_excluded core (p ++ [n]) = false ->
     kcomp s' p n = kcomp s p n) ->
  forall p, plain p -> kv s' p = kv s p.
Proof.
  intros H p. induction p as [|n p IH] using rev_ind; [done|]. intros [Hp Hn]%plain_snoc.
  rewrite !kv_snoc, IH by done. destruct (is_excluded core (p ++ [n])) eqn:Ex; [done|].
  destruct (is_kdir (kv s p)) eqn:E; [|done]. apply is_kdir_spec in E. apply H; auto.
Qed.

(** Copying what is visible into the upper directory. *)
Lemma kv_install s q k : plain q -> q <> [] -> kv s q = Some k -> s q = None ->
  forall p, plain p -> kv (upd s q (Some (k, false))) p = kv s p.
Proof.
  intros Hq Hne Hk Hs. apply kv_same. intros p n Hp Hn Hd _.
  destruct (path_snoc q Hne) as (q' & m & ->). apply plain_snoc in Hq as [Hq' Hm].
  assert (forall x, plain_name x = false -> upd s (q' ++ [m]) (Some (k, false)) (p ++ [x]) = s (p ++ [x])) as Hother.
  { intros x Hx. apply upd_ne. intros [_ ->]%app_inj_tail. congruence. }
  assert (opq (upd s (q' ++ [m]) (Some (k, false))) p = opq s p) as Hopq.
  { unfold opq. rewrite Hother by done. f_equal. unfold upd. destruct (decide (p = q' ++ [m])) as [->|]; [|done]. by rewrite Hs. }
  unfold kcomp, hides. rewrite Hopq, (Hother (WHITEOUT_PREFIX +:+ n)) by apply whiteout_not_plain.
  unfold upd at 1. destruct (decide (p ++ [n] = q' ++ [m])) as [[-> ->]%app_inj_tail|Hne']; [|done].
  rewrite Hs. apply kv_comp in Hk. unfold kcomp, hides in Hk. by rewrite Hs in Hk.
Qed.

(** ** Changes at one path *)

Definition whiteout_of (q : Path) : Path := parent q ++ [WHITEOUT_PREFIX +:+ default "" (file_name q)].

Lemma whiteout_of_snoc q m : whiteout_of (q ++ [m]) = q ++ [WHITEOUT_PREFIX +:+ m].
Proof. unfold whiteout_of. by rewrite parent_snoc, file_name_snoc. Qed.

Lemma plain_app p q : plain (p ++ q) <-> plain p /\ plain q.
Proof. apply Forall_app. Qed.

Lemma under_marker q p x : plain q -> plain_name x = false -> under q (p ++ [x]) = true -> under q p = true.
Proof.
  intros Hq Hx H. apply under_snoc in H as [->|H]; [|done].
  apply plain_snoc in Hq as [_ Hq]. congruence.
Qed.

(** Away from a set of subtrees and of their whiteouts, the view does not
    depend on them. *)
Lemma kv_local (roots : list Path) s s' :
  Forall (fun q => plain q /\ q <> []) roots ->
  (forall p, (forall q, q ∈ roots -> under q p = false /\ p <> whiteout_of q) -> s' p = s p) ->
  forall p, plain p -> (forall q, q ∈ roots -> under q p = false) -> kv s' p = kv s p.
Proof.
  intros Hroots Hs p. rewrite Forall_forall in Hroots.
  induction p as [|n p IH] using rev_ind; intros Hp Hu; [done|]. apply plain_snoc in Hp as [Hp Hn].
  assert (forall q, q ∈ roots -> under q p = false) as Hu'.
  { intros q Hq. specialize (Hu q Hq). destruct (under q p) eqn:E; [|done]. by rewrite under_snoc_weaken in Hu. }
  assert (forall x, x = n \/ plain_name x = false -> (forall m, plain_name m = true -> x <> WHITEOUT_PREFIX +:+ m) -> s' (p ++ [x]) = s (p ++ [x])) as Hmark.
  { intros x Hx Hwh. apply Hs. intros q Hq. destruct (Hroots q Hq) as [Hpq Hne]. split.
    - destruct Hx as [->|Hx]; [auto|]. destruct (under q (p ++ [x])) eqn:E; [|done].
      apply under_marker in E; [|done..]. by rewrite Hu' in E.
    - destruct (path_snoc q Hne) as (q' & m & ->). rewrite whiteout_of_snoc. intros [_ E]%app_inj_tail.
      apply plain_snoc in Hpq as [_ Hm]. by apply (Hwh m). }
  assert (s' (p ++ [WHITEOUT_PREFIX +:+ n]) = s (p ++ [WHITEOUT_PREFIX +:+ n])) as Hwh.
  { apply Hs. intros q Hq. destruct (Hroots q Hq) as [Hpq Hne]. split.
    - destruct (under q (p ++ [WHITEOUT_PREFIX +:+ n])) eqn:E; [|done].
      apply under_marker in E; [by rewrite Hu' in E|done|apply whiteout_not_plain].
    - destruct (path_snoc q Hne) as (q' & m & ->). rewrite whiteout_of_snoc. intros [-> E%str_app_inj_l]%app_inj_tail. subst m.
      specialize (Hu _ Hq). by rewrite under_refl in Hu. }
  assert (s' p = s p) as Hsp.
  { apply Hs. intros q Hq. split; [auto|]. intros ->. destruct (Hroots q Hq) as [Hpq Hne].
    destruct (path_snoc q Hne) as (q' & m & ->). rewrite whiteout_of_snoc in Hp. apply plain_snoc in Hp as [_ Hp].
    by rewrite whiteout_not_plain in Hp. }
  rewrite !kv_snoc, IH by done. destruct (is_excluded _ _); [done|]. destruct (is_kdir _); [|done].
  assert (s' (p ++ [n]) = s (p ++ [n])) as Hspn.
  { apply Hmark; [by left|]. intros m _ ->. by rewrite whiteout_not_plain in Hn. }
  assert (s' (p ++ [OPAQUE_NAME]) = s (p ++ [OPAQUE_NAME])) as Hsop.
  { apply Hmark; [by right|]. intros m Hm E. symmetry in E. by apply opaque_marker_is_not_a_whiteout in E. }
  unfold kcomp, hides, opq. by rewrite Hwh, Hsp, Hspn, Hsop.
Qed.

(** An upper entry in upper directories is visible. *)
Lemma kv_upper s p k b : (forall q n, is_Some (s (q ++ [n])) -> exists b, s q = Some (KDir, b)) ->
  is_excluded core p = false -> (p = [] -> k = KDir) -> s p = Some (k, b) -> kv s p = Some k.
Proof.
  intros Hup. revert k b. induction p as [|n p IH] using rev_ind; intros k b Hx Hroot Hs.
  - rewrite kv_nil, Hx. by rewrite Hroot.
  - destruct (Hup p n ltac:(by eexists)) as [b' Hp].
    assert (is_excluded core p = false) as Hxp.
    { destruct (is_excluded core p) eqn:E; [|done]. by rewrite (is_excluded_snoc core p n E) in Hx. }
    rewrite kv_snoc, Hx, (IH KDir b') by done. simpl. unfold kcomp. by rewrite Hs.
Qed.

(** A new node where nothing was visible. *)
Lemma kv_create s s' q k b : plain q -> q <> [] -> is_excluded core q = false ->
  kv s q = None -> kv s (parent q) = Some KDir ->
  s' q = Some (k, b) ->
  (forall r, plain r -> r <> [] -> s' (q ++ r) = None) ->
  (k = KDir -> opq s' q = true \/ forall n, lowk (q ++ [n]) = None) ->
  (forall p, under q p = false -> p <> whiteout_of q -> s' p = s p) ->
  forall p, plain p -> kv s' p = if decide (p = q) then Some k else kv s p.
Proof.
  intros Hq Hne Hx HN Hpar Hs' Hbelow' Hdir Hother p Hp.
  assert (forall p, plain p -> under q p = false -> kv s' p = kv s p) as Hlocal.
  { intros p' Hp' Hu. apply (kv_local [q]); [by repeat constructor| |done|by intros ? ->%list_elem_of_singleton].
    intros p0 H0. destruct (H0 q) as [H1 H2]; [by apply list_elem_of_singleton|]. by apply Hother. }
  destruct (path_snoc q Hne) as (q' & m & ->). rewrite parent_snoc in Hpar. apply plain_snoc in Hq as Hq'. destruct Hq' as [Hq' Hm].
  assert (kv s' (q' ++ [m]) = Some k) as Hk.
  { rewrite kv_snoc, Hx, Hlocal, Hpar; [|done|].
    - simpl. unfold kcomp. by rewrite Hs'.
    - destruct (under (q' ++ [m]) q') eqn:E; [|done]. apply under_spec in E as [r E]. apply (f_equal length) in E.
      rewrite !length_app in E. simpl in E. lia. }
  destruct (decide (p = q' ++ [m])) as [->|Hpne]; [done|].
  destruct (under (q' ++ [m]) p) eqn:Eu; [|by apply Hlocal].
  apply under_spec in Eu as [r ->]. destruct r as [|n r]; [by rewrite app_nil_r in Hpne|].
  assert (kv s ((q' ++ [m]) ++ n :: r) = None) as ->.
  { destruct (kv s ((q' ++ [m]) ++ n :: r)) eqn:E; [|done].
    assert (is_Some (kv s (q' ++ [m]))) as [? ?] by (eapply kv_above; by rewrite E). congruence. }
  apply plain_app in Hp as [_ Hnr]. apply Forall_cons in Hnr as [Hn Hr].
  destruct (kv s' ((q' ++ [m]) ++ n :: r)) eqn:E; [|done]. exfalso.
  replace ((q' ++ [m]) ++ n :: r) with (((q' ++ [m]) ++ [n]) ++ r) in E by (by rewrite <- app_assoc).
  assert (is_Some (kv s' ((q' ++ [m]) ++ [n]))) as Hv by (eapply kv_above; by rewrite E).
  pose proof Hv as [Hd Hxn]%kv_parent. rewrite Hk in Hd. injection Hd as ->.
  rewrite kv_snoc, Hxn, Hk in Hv. simpl in Hv. unfold kcomp in Hv.
  rewrite (Hbelow' [n]) in Hv by (done || by repeat constructor).
  destruct (Hdir eq_refl) as [Ho|Hlow].
  - unfold hides in Hv. rewrite Ho, orb_true_r in Hv. by destruct Hv.
  - destruct (hides _ _ _); [by destruct Hv|]. rewrite Hlow in Hv. by destruct Hv.
Qed.

(** A subtree that is gone and does not show through. *)
Lemma kv_remove s s' q : plain q -> q <> [] -> s' q = None ->
  is_Some (s' (whiteout_of q)) \/ lowk q = None ->
  (forall p, under q p = false -> p <> whiteout_of q -> s' p = s p) ->
  forall p, plain p -> kv s' p = if under q p then None else kv s p.
Proof.
  intros Hq Hne Hs' Hhid Hother p Hp. destruct (under q p) eqn:Eu.
  - apply under_spec in Eu as [r ->]. destruct (kv s' (q ++ r)) eqn:E; [|done].
    assert (is_Some (kv s' q)) as Hv by (eapply kv_above; by rewrite E).
    destruct (path_snoc q Hne) as (q' & m & ->). pose proof Hv as [Hd Hx]%kv_parent.
    rewrite kv_snoc, Hx, Hd in Hv. simpl in Hv. unfold kcomp, hides in Hv. rewrite Hs' in Hv. rewrite whiteout_of_snoc in Hhid.
    destruct Hhid as [Hwh|Hlow].
    + rewrite bool_decide_true in Hv by done. by destruct Hv.
    + rewrite Hlow in Hv. destruct (_ || _); by destruct Hv.
  - apply (kv_local [q]); [by repeat constructor| |done|by intros ? ->%list_elem_of_singleton].
    intros p0 H0. destruct (H0 q) as [H1 H2]; [by apply list_elem_of_singleton|]. by apply Hother.
Qed.
End Shape.
