(* ===== verification/OverlayCopy.v ===== *)
(** * Copying up

    A copy-up changes where a file lives and nothing of what the overlay shows:
    however far it gets, with any call failing and the process dying anywhere,
    every path shows the kind and content it showed before. *)

From Stdlib Require Import ZArith Lia.
From stdpp Require Import base list strings gmap pretty sorting.
From S2P Require Import Prelude Effects OverlayFs OverlayCore OverlayView OverlaySteps OverlayShape.
#[local] Set Warnings "-clear-no-such-hyp".
Open Scope string_scope.
Open Scope list_scope.
Open Scope effect_scope.

(** A lower node whose copy is like it: a regular file has no other names (the
    link counts of directories do not matter), the node carries no attribute that
    would make the copy opaque, and a device's number fits [mknod]. *)
Definition copyable (st : Stat) : Prop :=
  let nd := st_node st in
  opaque_xattr nd = false
  /\ match n_kind nd with
     | KFile _ => (st_nlink st <= 1)%Z
     | KOther format rdev =>
         Z.land (st_mode nd) 0xF000 = format /\ (format ∉ [0; 0x8000; 0x4000; 0xA000])%Z /\ (0 <= rdev < 2 ^ 32)%Z
     | _ => True
     end.

Section Copy.
Context {O : Type} (other : O -> World -> World) (beyond : World -> FPath -> Path -> option Node).
Context (uid gid umask : Z) (pid : string) (sha256_hex : string -> string) (core : OverlayCore) (L : list Layer).

(** Nobody else changes the directories; there is a work directory; the lower
    nodes can be copied. *)
Context (others_quiet : forall o w, other o w = w).
Context (has_work : oc_work core = true).
Context (lowers_copyable : forall l p st, l ∈ L -> ly_lstat l p = Some st -> copyable st).

Implicit Types (s : Shape) (p q : Path) (n : string) (w : World).

Abbreviation kv := (kv core L).
Abbreviation Fs A := (M World O Z A).

(** Temporary names that were not given out yet are free. *)
Definition fresh_temps w : Prop :=
  forall id, is_Some (node_at w (Work, [temp_name pid id])) -> (id < w_temp w)%Z.

Definition Is s w : Prop := wf w /\ w_lowers w = L /\ (forall p, usum w p = s p) /\ fresh_temps w.

(** [s] is [s0] with copies of visible nodes. *)
Definition keeps s0 s : Prop :=
  (forall p, plain p -> kv s p = kv s0 p)
  /\ forall p, s p = s0 p \/ plain p /\ p <> [] /\ s0 p = None /\ exists k, kv s0 p = Some k /\ s p = Some (k, false).

Definition Good s0 w : Prop := exists s, Is s w /\ keeps s0 s.

Lemma keeps_refl s : keeps s s.
Proof. split; [done|]. intros p. by left. Qed.

Lemma keeps_trans s0 s1 s2 : keeps s0 s1 -> keeps s1 s2 -> keeps s0 s2.
Proof.
  intros [Hv1 Hs1] [Hv2 Hs2]. split; [intros p Hp; by rewrite Hv2, Hv1|]. intros p.
  destruct (Hs2 p) as [->|(Hp & Hne & HN & k & Hk & Hsome)]; [apply Hs1|].
  right. split; [done|]. split; [done|]. rewrite Hv1 in Hk by done.
  destruct (Hs1 p) as [E|(_ & _ & _ & k' & _ & E)]; [|congruence]. rewrite <- E. eauto.
Qed.

Lemma keeps_install s q k : plain q -> q <> [] -> kv s q = Some k -> s q = None -> keeps s (upd s q (Some (k, false))).
Proof.
  intros Hq Hne Hk HN. split; [by apply kv_install|]. intros p. unfold upd.
  destruct (decide (p = q)) as [->|]; [|by left]. right. eauto 10.
Qed.

Lemma Is_Good s0 s w : Is s w -> keeps s0 s -> Good s0 w.
Proof. intros H Hk. by exists s. Qed.
Hint Resolve Is_Good keeps_refl : core.

Lemma Good_trans s0 s w : keeps s0 s -> Good s w -> Good s0 w.
Proof. intros H (s' & Hs & Hk). exists s'. split; [done|]. by eapply keeps_trans. Qed.

Lemma Is_below s w p q : Is s w -> s p = None -> s (p ++ q) = None.
Proof.
  intros (Hw & _ & Hs & _) Hp. rewrite <- Hs in Hp |- *. unfold usum in *.
  destruct (node_at w (Upper, p)) eqn:E; [done|]. by rewrite (wf_below_absent w Upper p q).
Qed.

Lemma Is_view s w p : Is s w -> plain p -> n_kind <$> view beyond core w p = kv s p.
Proof. intros (Hw & HL & Hs & _) Hp. rewrite (kview_kv beyond core L) by done. by apply kv_ext. Qed.

(** ** Triples *)

Lemma triple_sys {A} (P : World -> Prop) (f : World -> result Z A * World) Q (F C : World -> Prop) :
  (forall w, P w -> F w) -> (forall w, P w -> C w) ->
  (forall w, P w -> match f w with (Ok a, w') => Q a w' /\ F w' | (Err _, w') => F w' end) ->
  triple P (sys other f) Q F C.
Proof.
  intros HF HC Hf. apply triple_effect; [|done|done|intros _; apply Hf]. intros o w. by rewrite others_quiet.
Qed.

Lemma triple_lift {A} (P : World -> Prop) (r : result Z A) (Q : A -> World -> Prop) (F C : World -> Prop) :
  (forall a w, r = Ok a -> P w -> Q a w) -> (forall w, P w -> F w) -> triple P (lift (O:=O) r) Q F C.
Proof. intros HQ HF. destruct r; [apply triple_ret; auto|apply triple_throw; auto]. Qed.

(** A call whose failures are ignored ends in what it leaves behind. *)
Lemma triple_ignore {A} (P R : World -> Prop) (m : Fs A) (F C : World -> Prop) :
  triple P m (fun _ => R) R C -> triple P (ignore m) (fun _ => R) F C.
Proof.
  intros Hm. unfold ignore. eapply (triple_bind _ _ _ (fun _ => R)); [|intros a; by apply triple_ret].
  eapply (triple_attempt _ _ (fun _ => R)); [exact Hm|done].
Qed.

(** *** The journal is not shown *)

Definition journal_stable (I : World -> Prop) : Prop := forall f w, I w -> I (set_journal f w).

Lemma Is_journal s f w : Is s w -> Is s (set_journal f w).
Proof. intros (Hw & Hrest). split; [|done]. by destruct Hw; constructor. Qed.

Lemma record_preimage_keeps (I : World -> Prop) rel : journal_stable I ->
  triple I (record_preimage other sha256_hex core rel) (fun _ => I) I I.
Proof.
  intros HI. unfold record_preimage. destruct (negb _); [by apply triple_ret|].
  eapply triple_bind; [by apply (triple_lift _ _ (fun _ => I))|intros ?].
  eapply triple_bind; [by apply (triple_ask _ _ (fun _ => I))|intros []; [by apply triple_ret|]].
  eapply triple_bind; [by apply (triple_ask _ _ (fun _ => I))|intros lowers].
  eapply triple_bind; [by apply (triple_lift _ _ (fun _ => I))|intros target].
  eapply triple_bind; [by apply (triple_lift _ _ (fun _ => I))|intros state].
  unfold journal_create, journal_write, sync_all.
  repeat (eapply (triple_bind _ _ _ (fun _ => I)); [|intros ?]); apply triple_sys; try done.
  - intros w Hw. destruct (_ !! _); auto.
  - intros w Hw. auto.
Qed.

(** *** Metadata is not shown *)

Definition fsum w f : option (Kind * bool) := node_sum <$> node_at w f.

Lemma fresh_temps_sums w w' : (forall g, fsum w' g = fsum w g) -> w_temp w' = w_temp w -> fresh_temps w -> fresh_temps w'.
Proof.
  intros Hg Ht Hw id Hid. rewrite Ht. apply Hw. specialize (Hg (Work, [temp_name pid id])). unfold fsum in Hg.
  destruct (node_at w _); [done|]. destruct Hid as [nd Hid]. by rewrite Hid in Hg.
Qed.

(** Everything but the kind, without becoming opaque. *)
Definition meta_change (h : Node -> Node) : Prop :=
  forall nd, n_kind (h nd) = n_kind nd /\ (opaque_xattr nd = false -> opaque_xattr (h nd) = false).

Lemma meta_change_sum h nd k : meta_change h -> node_sum nd = (k, false) -> node_sum (h nd) = (k, false).
Proof.
  intros Hh. destruct (Hh nd) as [Hk Ho]. unfold node_sum, node_is_dir. rewrite Hk. intros [= -> H]. f_equal.
  destruct (kind_is_dir k); [|done]. simpl in *. auto.
Qed.

(** A name for a node of kind [k], without anything below it. *)
Definition Bare (f : FPath) (k : Kind) w : Prop :=
  fsum w f = Some (k, false) /\ forall r, r <> [] -> node_at w (fst f, snd f ++ r) = None.

(** The state while the metadata of [f] is copied. *)
Definition Copying s (f : FPath) (k : Kind) w : Prop := Is s w /\ Bare f k w.

Lemma change_keeps s f k w r w' h : Copying s f k w -> meta_change h -> change h f w = (r, w') -> Copying s f k w'.
Proof.
  intros [(Hw & HL & Hs & Ht) [Hf Hb]] Hh H. eapply change_spec in H; [|done|].
  - destruct r as [?|?]; [|by subst].
    destruct H as (Hw' & (HL' & _ & _ & Ht') & He & i & nd & Hi & Hnd & Hn).
    assert (node_sum nd = (k, false)) as Hsum.
    { unfold fsum in Hf. rewrite (node_at_Some _ _ _ _ Hi Hnd) in Hf. change (Some (node_sum nd) = Some (k, false)) in Hf. congruence. }
    assert (forall g, fsum w' g = fsum w g) as Hsame.
    { intros g. unfold fsum. rewrite Hn. destruct (decide _) as [Hg|]; [|done].
      rewrite (node_at_Some _ _ _ _ Hg Hnd). simpl. rewrite Hsum. f_equal. by apply meta_change_sum. }
    split.
    + split; [done|]. split; [congruence|]. split; [intros p; rewrite <- Hs; apply Hsame|].
      by apply (fresh_temps_sums w).
    + split; [by rewrite Hsame|]. intros r Hr. specialize (Hb r Hr). apply node_at_None; [done|].
      rewrite He. by apply node_at_None.
  - intros m _. unfold node_is_dir. by rewrite (proj1 (Hh m)).
Qed.

Lemma change_triple s f k h : meta_change h ->
  triple (Copying s f k) (sys other (change h f)) (fun _ => Copying s f k) (Copying s f k) (Copying s f k).
Proof.
  intros Hh. apply triple_sys; [done|done|]. intros w HI.
  destruct (change h f w) as [r w'] eqn:E. pose proof (change_keeps s f k w r w' h HI Hh E). by destruct r.
Qed.

Lemma best_effort_triple (I : World -> Prop) ignorable (m : Fs unit) :
  triple I m (fun _ => I) I I -> triple I (best_effort ignorable m) (fun _ => I) I I.
Proof.
  intros Hm. unfold best_effort. eapply triple_bind; [by apply (triple_attempt _ _ (fun _ => I) I I I)|].
  intros [?|e]; [by apply triple_ret|]. destruct (ignorable e); [by apply triple_ret|by apply triple_throw].
Qed.

Lemma put_xattr_meta name value : (name ∈ OPAQUE_XATTRS -> value <> "y") -> meta_change (put_xattr name value).
Proof.
  intros Hv nd. split; [done|]. unfold opaque_xattr. intros H. apply not_true_iff_false. intros Hx.
  apply existsb_exists in Hx as (x & Hin & Hx). apply bool_decide_eq_true in Hx. simpl in Hx.
  apply list_elem_of_In in Hin as Hin'. destruct (decide (name = x)) as [->|Hne].
  - rewrite lookup_insert_eq in Hx. injection Hx as ->. by apply Hv.
  - rewrite lookup_insert_ne in Hx by done. apply not_true_iff_false in H. apply H. apply existsb_exists.
    exists x. split; [done|]. by apply bool_decide_eq_true.
Qed.

Lemma lower_xattr_meta i p nd name value w : w_lowers w = L -> loc_node beyond w (InLower i p) = Some nd ->
  (name, value) ∈ map_to_list (md_xattrs (n_meta nd)) -> meta_change (put_xattr name value).
Proof.
  intros HL Hnd Hin. apply put_xattr_meta. intros Hname ->. apply elem_of_map_to_list in Hin.
  simpl in Hnd. rewrite HL in Hnd. destruct (L !! i) as [l|] eqn:El; [|done]. simpl in Hnd.
  destruct (ly_lstat l p) as [st|] eqn:Est; [|done]. injection Hnd as <-.
  destruct (lowers_copyable l p st) as [Hx _]; [by eapply list_elem_of_lookup_2|done|].
  apply not_true_iff_false in Hx. apply Hx. apply existsb_exists. exists name.
  split; [by apply list_elem_of_In|]. by apply bool_decide_eq_true.
Qed.

Lemma copy_metadata_triple s f k i p meta :
  triple (Copying s f k) (copy_metadata other beyond (InLower i p) f meta) (fun _ => Copying s f k) (Copying s f k) (Copying s f k).
Proof.
  unfold copy_metadata.
  eapply triple_bind; [apply best_effort_triple, change_triple; by intros nd|intros ?].
  eapply (triple_bind _ _ _ (fun _ => Copying s f k)); [|intros ?].
  { destruct (kind_is_symlink _); [by apply triple_ret|]. apply change_triple. by intros nd. }
  eapply triple_bind; [apply best_effort_triple|intros ?].
  - unfold copy_xattrs.
    eapply (triple_bind _ _ _ (fun o w => Copying s f k w /\ forall nd name value, o = Some nd ->
      (name, value) ∈ map_to_list (md_xattrs (n_meta nd)) -> meta_change (put_xattr name value))).
    { apply triple_ask. intros w Hw. split; [done|]. intros nd name value Hnd. eapply lower_xattr_meta; [|done]. apply Hw. }
    intros o. eapply (triple_bind _ _ _ (fun nd w => Copying s f k w /\ forall name value,
      (name, value) ∈ map_to_list (md_xattrs (n_meta nd)) -> meta_change (put_xattr name value))).
    { apply triple_lift; [|tauto]. intros nd w Ho [HI Hx]. split; [done|]. intros name value. apply Hx. by destruct o; simplify_eq/=. }
    intros nd. set (J := fun (rest : list (string * string)) (_ : unit) w => Copying s f k w /\
      forall name value, (name, value) ∈ rest -> meta_change (put_xattr name value)).
    eapply (triple_post _ _ _ (J [])); [|by intros ? w [Hw _]|done|done].
    eapply (triple_pre _ (J (map_to_list (md_xattrs (n_meta nd))) tt)); [|apply triple_for].
    + intros w H. exact H.
    + intros [name value] rest []. apply (triple_extract (forall name' value',
        (name', value') ∈ (name, value) :: rest -> meta_change (put_xattr name' value'))); [intros w Hw; apply Hw|].
      intros Hx. eapply (triple_pre _ (Copying s f k)); [intros w Hw; apply Hw|]. eapply triple_post; [apply change_triple, Hx; by left| |done|done].
      intros ? w Hw. split; [done|]. intros name' value' Hin. apply Hx. by right.
  - apply best_effort_triple, change_triple. by intros nd.
Qed.

(** *** The calls *)

(** A call in the work directory that adds at most a name given out before. *)
Lemma Is_work s w w' : Is s w -> wf w' -> frame w w' ->
  (forall g, fst g = Upper -> fsum w' g = fsum w g) ->
  (forall id, node_at w' (Work, [temp_name pid id]) = None \/ is_Some (node_at w (Work, [temp_name pid id])) \/ (id < w_temp w)%Z) ->
  Is s w'.
Proof.
  intros (Hw & HL & Hs & Ht) Hw' (HL' & _ & _ & Htemp) Hup Hwork. split; [done|]. split; [congruence|]. split.
  - intros p. rewrite <- Hs. by apply (Hup (Upper, p)).
  - intros id Hid. rewrite Htemp. destruct (Hwork id) as [H|[H|H]]; [rewrite H in Hid; by destruct Hid|by apply Ht|done].
Qed.

(** A new name in the work directory. *)
Lemma create_temp s id nd w r w' : Is s w -> (id < w_temp w)%Z -> node_sum nd = (n_kind nd, false) ->
  create nd (Work, [temp_name pid id]) w = (r, w') ->
  Is s w' /\ w_temp w' = w_temp w
  /\ (r = Ok tt -> Bare (Work, [temp_name pid id]) (n_kind nd) w' /\ sole w' (Work, [temp_name pid id])).
Proof.
  intros HI Hid Hnd H. set (f := (Work, [temp_name pid id])) in *.
  pose proof (create_spec nd f w r w' (proj1 HI) H) as Hc. destruct r as [[]|e]; [|subst; split_and!; done].
  destruct Hc as (Hw' & Hfr & HN & Hsole & _ & Hn). split; [|split; [apply Hfr|intros _; split; [split|done]]].
  - eapply (Is_work s w); [done|done|done|..].
    + intros g Hg. unfold fsum. rewrite Hn. destruct (decide (g = f)) as [->|]; [done|done].
    + intros id'. rewrite Hn. destruct (decide _) as [E|]; [|destruct (node_at w (Work, [temp_name pid id'])) eqn:E; rewrite ?E; eauto].
      right. right. unfold f, temp_name in E. injection E as E. apply str_app_inj_l, str_app_inj_l, str_app_inj_l in E.
      by apply (inj pretty) in E as ->.
  - unfold fsum. rewrite Hn, decide_True by done. simpl. by rewrite Hnd.
  - intros r Hr. rewrite Hn. rewrite decide_False.
    + apply (wf_below_absent w Work [temp_name pid id] r); [apply HI|done].
    + unfold f. simpl. intros [= ->]. done.
Qed.

Lemma node_sum_new k mode : node_sum (new_node uid gid umask k mode) = (k, false).
Proof. unfold node_sum. simpl. f_equal. by destruct (node_is_dir _). Qed.

Definition Ready s (id : Z) w : Prop := Is s w /\ (id < w_temp w)%Z.

Lemma create_temp_triple s id nd : node_sum nd = (n_kind nd, false) ->
  triple (Ready s id) (sys other (create nd (Work, [temp_name pid id])))
    (fun _ w => Copying s (Work, [temp_name pid id]) (n_kind nd) w /\ sole w (Work, [temp_name pid id])) (Is s) (Is s).
Proof.
  intros Hnd. apply triple_sys; [by intros w []|by intros w []|]. intros w [HI Hid].
  destruct (create _ _ w) as [r w'] eqn:E. destruct (create_temp s id nd w r w' HI Hid Hnd E) as (HI' & _ & Hb).
  destruct r as [[]|e]; [|done]. destruct (Hb eq_refl) as [H1 H2]. done.
Qed.

Lemma write_all_triple s f c content :
  triple (fun w => Copying s f (KFile c) w /\ sole w f /\ fst f = Work) (write_all other f content)
    (fun _ w => Copying s f (KFile content) w) (Is s) (Is s).
Proof.
  apply triple_sys; [by intros w [[]]|by intros w [[]]|]. intros w ([HI [Hf Hb]] & Hsole & Hwork).
  destruct (node_at w f) as [nd|] eqn:End; [|done].
  destruct (kind_is_file (n_kind nd)) eqn:Ek; [|done].
  destruct (change _ f w) as [r w'] eqn:E. eapply change_spec in E; [|apply HI|].
  - destruct r as [[]|e]; [|by subst]. destruct E as (Hw' & Hfr & He & i & nd' & Hi & Hnd' & Hn).
    assert (forall g, g <> f -> node_at w' g = node_at w g) as Hne.
    { intros g Hg. rewrite Hn. destruct (decide _) as [Hgi|]; [|done]. by rewrite (Hsole g i Hi Hgi) in Hg. }
    assert (forall g, node_at w g = None -> node_at w' g = None) as HN.
    { intros g Hg. destruct (decide (g = f)) as [->|]; [congruence|]. by rewrite Hne. }
    assert (Is s w') as HI'.
    { apply (Is_work s w); [done|done|done|..].
      - intros g Hg. unfold fsum. rewrite Hne; [done|]. intros ->. congruence.
      - intros id. destruct (node_at w (Work, [temp_name pid id])) eqn:Eid; [right; left; by eexists|left; auto]. }
    split; [|done]. split; [done|]. split.
    + unfold fsum. rewrite Hn, decide_True by done. simpl. done.
    + intros r Hr. apply HN, Hb, Hr.
  - intros m Hm. rewrite End in Hm. injection Hm as <-. unfold node_is_dir. simpl. by destruct (n_kind nd).
Qed.

Lemma make_copy_triple s st id : copyable st ->
  triple (Ready s id) (make_copy other beyond uid gid umask st (Work, [temp_name pid id]))
    (fun _ => Copying s (Work, [temp_name pid id]) (n_kind (st_node st))) (Is s) (Is s).
Proof.
  intros [_ Hother]. unfold make_copy. destruct (n_kind (st_node st)) as [content| |target|format rdev] eqn:Ek.
  - eapply (triple_bind _ _ _ (fun o w => Ready s id w /\ o = None)).
    { apply triple_ask. intros w Hw. split; [done|]. unfold copied_link. by destruct (Z.ltb_spec 1 (st_nlink st)); [lia|]. }
    intros o. eapply triple_extract; [by intros w [_ Ho]; exact Ho|]. intros ->.
    eapply triple_pre; [intros w [Hw _]; exact Hw|].
    eapply triple_bind; [apply create_temp_triple, node_sum_new|intros ?].
    eapply triple_pre; [|apply (write_all_triple s _ "")]. intros w [H1 H2]. exact (conj H1 (conj H2 eq_refl)).
  - eapply triple_post; [apply create_temp_triple, node_sum_new|by intros ? w []|done|done].
  - eapply triple_post; [apply create_temp_triple; done|by intros ? w []|done|done].
  - destruct Hother as (Hf & Hnot & Hr). unfold mknod. rewrite Hf.
    destruct (Z.eqb_spec format 0x4000) as [->|_]; [set_solver|].
    destruct (Z.eqb_spec format 0xA000) as [->|_]; [set_solver|].
    destruct (Z.eqb_spec format 0) as [->|_]; [set_solver|].
    destruct (Z.eqb_spec format 0x8000) as [->|_]; [set_solver|]. simpl. rewrite Z.mod_small by done.
    eapply triple_post; [apply create_temp_triple, node_sum_new|by intros ? w []|done|done].
Qed.

(** The copy takes its name in the upper directory. *)
Lemma publish_rename s id k rel w r w' : Copying s (Work, [temp_name pid id]) k w -> rel <> [] -> s rel = None ->
  rename_entry (Work, [temp_name pid id]) (Upper, rel) w = (r, w') ->
  match r with Ok _ => Is (upd s rel (Some (k, false))) w' | Err _ => w' = w end.
Proof.
  intros [HI [Hf Hb]] Hrel HN H. eapply rename_spec in H; [|apply HI|done|congruence].
  destruct r as [?|?]; [|done]. destruct H as (Hw' & (HL & _ & _ & Ht) & Hsrc & [[Hsame _]|(Hd & _ & _ & Hn)]).
  - destruct HI as (Hw & _ & Hs & _). rewrite <- Hs in HN. unfold usum in HN.
    destruct (node_at w (Upper, rel)) eqn:E; [done|]. apply node_at_None in E; [|done].
    rewrite E in Hsame. destruct Hsrc as [nd (i & Hi & _)%node_at_entry]. congruence.
  - destruct HI as (Hw & HL0 & Hs & Hfresh). split; [done|]. split; [congruence|]. split.
    + intros p. unfold usum. rewrite Hn. unfold moved, upd. simpl.
      destruct (subtree (Upper, rel) (Upper, p)) eqn:Esub.
      * apply subtree_pair in Esub as [_ [r ->]]. rewrite drop_app_length. destruct r as [|x r].
        { rewrite app_nil_r, decide_True by done. exact Hf. }
        rewrite decide_False by (intros E; apply (f_equal length) in E; rewrite length_app in E; simpl in E; lia).
        specialize (Hb (x :: r) ltac:(done)). simpl in Hb. rewrite Hb. symmetry.
        apply (Is_below s w rel (x :: r)); [done|done].
      * rewrite decide_False; [apply Hs|]. intros ->. apply subtree_false in Esub. apply Esub. split; [done|]. exists []. by rewrite app_nil_r.
    + intros id' Hid. rewrite Hn in Hid. unfold moved in Hid. cbn [fst snd] in Hid. rewrite Ht.
      destruct (subtree (Upper, rel) _) eqn:E1; [by apply subtree_pair in E1 as [? _]|].
      destruct (subtree (Work, [temp_name pid id]) _); [by destruct Hid|]. by apply Hfresh.
Qed.

(** *** Removing in the work directory *)

Lemma delete_work s f w w' : Is s w -> fst f = Work -> wf w' -> frame w w' ->
  (forall g, node_at w' g = if decide (g = f) then None else node_at w g) -> Is s w'.
Proof.
  intros HI Hf Hw' Hfr Hn. apply (Is_work s w); [done|done|done|..].
  - intros g Hg. unfold fsum. rewrite Hn, decide_False; [done|]. intros ->. congruence.
  - intros id. rewrite Hn. destruct (decide _); [by left|].
    destruct (node_at w (Work, [temp_name pid id])) eqn:E; [right; left; by eexists|by left].
Qed.

Lemma remove_file_work s f : fst f = Work -> triple (Is s) (remove_file other f) (fun _ => Is s) (Is s) (Is s).
Proof.
  intros Hf. apply triple_sys; [done|done|]. intros w HI. destruct (unlink f w) as [r w'] eqn:E.
  eapply unlink_spec in E; [|apply HI]. destruct r as [?|?]; [|destruct E as [-> _]; done].
  destruct E as (Hw' & Hfr & _ & _ & Hn). assert (Is s w') by by eapply delete_work. done.
Qed.

Lemma remove_any_work s f : fst f = Work -> triple (Is s) (remove_any other f) (fun _ => Is s) (Is s) (Is s).
Proof.
  intros Hf. apply triple_sys; [done|done|]. intros w HI. destruct (node_at w f) as [n|] eqn:En; [|done].
  destruct (node_is_dir n).
  - destruct (rmdir f w) as [r w'] eqn:E. eapply rmdir_spec in E; [|apply HI|by intros ->].
    destruct r as [?|?]; [|by subst]. destruct E as (Hw' & Hfr & _ & Hn). assert (Is s w') by by eapply delete_work. done.
  - destruct (unlink f w) as [r w'] eqn:E. eapply unlink_spec in E; [|apply HI].
    destruct r as [?|?]; [|destruct E as [-> _]; done].
    destruct E as (Hw' & Hfr & _ & _ & Hn). assert (Is s w') by by eapply delete_work. done.
Qed.

Lemma elem_of_contents w f g : g ∈ contents w f -> subtree f g = true /\ is_Some (w_entries w !! g).
Proof.
  unfold contents. rewrite (elem_of_Permutation_proper g _ _ (merge_sort_Permutation deeper _)).
  rewrite list_elem_of_fmap. intros ([g' i] & -> & Hin). apply elem_of_map_to_list, map_lookup_filter_Some in Hin as [Hi Hg].
  split; [done|by eexists].
Qed.

Lemma remove_dir_all_work s f : fst f = Work -> triple (Is s) (remove_dir_all other f) (fun _ => Is s) (Is s) (Is s).
Proof.
  intros Hf. unfold remove_dir_all.
  eapply (triple_bind _ _ _ (fun fs w => Is s w /\ Forall (fun g => fst g = Work) fs)).
  { apply triple_ask. intros w HI. split; [done|]. apply Forall_forall. intros g [Hg _]%elem_of_contents.
    apply subtree_spec in Hg as [<- _]. done. }
  intros fs. set (J := fun (rest : list FPath) (_ : unit) w => Is s w /\ Forall (fun g => fst g = Work) rest).
  eapply (triple_post _ _ _ (J [])); [|by intros ? w []|intros w HI; exact HI|intros w HI; exact HI].
  eapply (triple_pre _ (J fs tt)); [intros w H; exact H|]. apply (triple_for J). intros g rest []. apply triple_extract with (φ := Forall (fun g => fst g = Work) (g :: rest)); [by intros w []|].
  intros [Hg Hrest]%Forall_cons_1. eapply (triple_pre _ (Is s)); [by intros w []|].
  eapply triple_post; [by apply remove_any_work|by intros ? w ?|done|done].
Qed.

Lemma discard_work s f : fst f = Work -> triple (Is s) (discard other f) (fun _ => Is s) (Is s) (Is s).
Proof.
  intros Hf. unfold discard. eapply triple_bind; [by apply (triple_ask _ _ (fun _ => Is s))|intros [n|]].
  - destruct (node_is_dir n); [by apply remove_dir_all_work|by apply remove_file_work].
  - by apply remove_file_work.
Qed.

(** *** The parents *)

Lemma create_upper s nd q w r w' : Is s w -> q <> [] -> create nd (Upper, q) w = (r, w') ->
  match r with
  | Ok _ => s q = None /\ Is (upd s q (Some (node_sum nd))) w'
            /\ (forall k, node_sum nd = (k, false) -> Bare (Upper, q) k w')
            /\ exists b, s (parent q) = Some (KDir, b)
  | Err _ => w' = w
  end.
Proof.
  intros (Hw & HL & Hs & Ht) Hq H. pose proof (create_spec nd (Upper, q) w r w' Hw H) as Hc.
  destruct r as [?|?]; [|done]. destruct Hc as (Hw' & (HL' & _ & _ & Ht') & HN & _ & Hpar & Hn).
  assert (s q = None) as HsN by (rewrite <- Hs; unfold usum; by rewrite HN).
  split; [done|]. split; [split; [done|split; [congruence|split]]|split].
  - intros p. unfold usum, upd. rewrite Hn. destruct (decide (p = q)) as [->|Hne].
    + by rewrite decide_True.
    + rewrite decide_False by congruence. apply Hs.
  - intros id Hid. rewrite Ht'. apply Ht. by rewrite Hn, decide_False in Hid.
  - intros k Hk. split; [unfold fsum; rewrite Hn, decide_True by done; simpl; by rewrite Hk|].
    intros r Hr. simpl. rewrite Hn, decide_False; [by apply wf_below_absent|].
    intros [= E]. apply (f_equal length) in E. rewrite length_app in E. destruct r; [done|simpl in E; lia].
  - destruct (path_snoc q Hq) as (q' & n & ->). rewrite parent_snoc.
    destruct (Hpar Upper q' n eq_refl) as (d & Hd & Hdir). rewrite <- Hs. unfold usum. rewrite Hd. simpl.
    unfold node_sum. rewrite Hdir. unfold node_is_dir, kind_is_dir in Hdir. destruct (n_kind d); try done. eauto.
Qed.

Lemma resolve_lower w p r : plain p -> p <> [] -> exists_at beyond w (Upper, p) = false ->
  resolve beyond core w p = Some r -> exists i, rs_path r = InLower i p /\ is_upper r = false.
Proof.
  intros Hp Hne He Hr. destruct (path_snoc p Hne) as (q & n & ->).
  rewrite resolve_snoc in Hr by done. destruct (is_excluded core _); [done|]. destruct (walk _ _ _); [|done].
  unfold resolve_component in Hr. rewrite He, file_name_snoc in Hr. destruct (_ || _); [done|].
  destruct (find_lower _ _ _) as [i|]; [|done]. simpl in Hr. injection Hr as <-. by exists i.
Qed.

(** [s'] has copies of directories above [rel] that [s] does not have. *)
Definition Above s rel s' : Prop := keeps s s' /\ forall p, under p (parent rel) = false -> s' p = s p.

Lemma Above_refl s rel : Above s rel s.
Proof. split; [apply keeps_refl|done]. Qed.

Lemma Above_install s s' rel q : Above s rel s' -> plain q -> q <> [] -> under q (parent rel) = true ->
  kv s' q = Some KDir -> s' q = None -> Above s rel (upd s' q (Some (KDir, false))).
Proof.
  intros [Hk Ho] Hp Hne Hu Hkv HN. split.
  - eapply keeps_trans; [done|]. by apply keeps_install.
  - intros p Hp'. rewrite upd_ne; [auto|]. intros ->. congruence.
Qed.

Definition Parents s rel w : Prop := exists s', Is s' w /\ Above s rel s'.

Lemma Parents_Good s rel w : Parents s rel w -> Good s w.
Proof. intros (s' & HI & [Hk _]). by exists s'. Qed.

Lemma triple_exists {A X} (P : X -> World -> Prop) (m : Fs A) Q F C :
  (forall x, triple (P x) m Q F C) -> triple (fun w => exists x, P x w) m Q F C.
Proof. intros H envs w [x Hx]. by apply (H x). Qed.

Lemma triple_ask_eq {A} (P : World -> Prop) (f : World -> A) F C :
  triple P (ask (O:=O) (E:=Z) f) (fun a w => P w /\ a = f w) F C.
Proof. by apply triple_ask. Qed.

Lemma triple_lift_eq {A} (P : World -> Prop) (r : result Z A) (F C : World -> Prop) :
  (forall w, P w -> F w) -> triple P (lift (O:=O) r) (fun a w => P w /\ r = Ok a) F C.
Proof. intros HF. by apply triple_lift. Qed.

(** An entry of the upper directory lies in upper directories, none of which is
    a symbolic link. *)
Lemma Is_up s w q n : Is s w -> is_Some (s (q ++ [n])) -> exists b, s q = Some (KDir, b).
Proof.
  intros (Hw & _ & Hs & _). rewrite <- !Hs. unfold usum. intros Hn.
  destruct (node_at w (Upper, q ++ [n])) as [nd|] eqn:E; [|by destruct Hn].
  destruct (wf_above w Upper q [n] nd Hw E ltac:(done)) as (d & -> & Hd). simpl. unfold node_sum. rewrite Hd.
  unfold node_is_dir, kind_is_dir in Hd. destruct (n_kind d); try done. eauto.
Qed.

Lemma Is_root s w : Is s w -> exists b, s [] = Some (KDir, b).
Proof.
  intros (Hw & _ & Hs & _). rewrite <- !Hs. unfold usum. destruct (wf_root _ Hw) as (d & -> & Hd). simpl.
  unfold node_sum. rewrite Hd. unfold node_is_dir, kind_is_dir in Hd. destruct (n_kind d); try done. eauto.
Qed.

Lemma Is_straight s w q b : Is s w -> s q = Some (KDir, b) -> straight w q.
Proof.
  intros (Hw & _ & Hs & _) Hq p nd Hp Hn. rewrite <- Hs in Hq. unfold usum in Hq.
  destruct (node_at w (Upper, q)) as [d|] eqn:E; [|done]. destruct Hp as [r ->]. destruct r as [|x r].
  - rewrite app_nil_r in E. rewrite Hn in E. injection E as ->. simpl in Hq. injection Hq as Hk _. by rewrite Hk.
  - destruct (wf_above w Upper p (x :: r) d Hw E ltac:(done)) as (d' & Hd' & Hdir). rewrite Hn in Hd'. injection Hd' as ->.
    unfold node_is_dir, kind_is_dir in Hdir. by destruct (n_kind d').
Qed.

Lemma Is_lstat s w q b n : Is s w -> s q = Some (KDir, b) -> lstat beyond w (Upper, q ++ [n]) = node_at w (Upper, q ++ [n]).
Proof. intros HI Hq. apply lstat_straight. by eapply Is_straight. Qed.

Definition ParentsAt s rel q w : Prop := exists s', Is s' w /\ Above s rel s' /\ exists b, s' q = Some (KDir, b).

Lemma ParentsAt_Parents s rel q w : ParentsAt s rel q w -> Parents s rel w.
Proof. intros (s' & HI & Ha & _). by exists s'. Qed.

Lemma install_parent_triple s rel s' i current meta : plain current -> current <> [] -> under current (parent rel) = true ->
  Above s rel s' -> kv s' current = Some KDir ->
  triple (Is s') (record_preimage other sha256_hex core current ;;
                  fs_create_dir other uid gid umask (Upper, current) ;;
                  copy_metadata other beyond (InLower i current) (Upper, current) meta)
    (fun _ => ParentsAt s rel current) (Parents s rel) (Parents s rel).
Proof.
  intros Hp Hne Hu Ha Hkv. assert (forall w, Is s' w -> Parents s rel w) as HP by (intros w HI; by exists s').
  eapply (triple_bind _ _ _ (fun _ => Is s')); [|intros ?].
  { eapply triple_post; [apply record_preimage_keeps; intros f w; apply Is_journal|done|done|done]. }
  set (s1 := upd s' current (Some (KDir, false))).
  assert (s' current = None -> forall w, Copying s1 (Upper, current) KDir w -> ParentsAt s rel current w) as HP1.
  { intros HN w [HI _]. exists s1. split; [done|]. split; [by apply Above_install|]. exists false. apply upd_eq. }
  assert (s' current = None -> forall w, Copying s1 (Upper, current) KDir w -> Parents s rel w) as HP2.
  { intros HN w HC. eapply ParentsAt_Parents. eauto. }
  eapply (triple_bind _ _ _ (fun _ w => s' current = None /\ Copying s1 (Upper, current) KDir w)).
  - apply triple_sys; [done|done|]. intros w HI. destruct (create _ _ w) as [r w'] eqn:E.
    pose proof (create_upper s' _ current w r w' HI Hne E) as Hc. destruct r as [[]|?]; [|subst; auto].
    destruct Hc as (HN & HI' & Hb & _). rewrite node_sum_new in HI'.
    assert (Copying s1 (Upper, current) KDir w') by (split; [done|]; apply Hb, node_sum_new). eauto.
  - intros ?. apply triple_fact. intros HN. eapply triple_post; [apply copy_metadata_triple|..]; eauto.
Qed.

Lemma ensure_upper_parent_triple s rel seen n : plain (seen ++ [n]) -> under (seen ++ [n]) (parent rel) = true ->
  triple (ParentsAt s rel seen) (ensure_upper_parent other beyond uid gid umask sha256_hex core (seen ++ [n]))
    (fun _ => ParentsAt s rel (seen ++ [n])) (Parents s rel) (Parents s rel).
Proof.
  intros Hp Hu. assert (seen ++ [n] <> []) as Hne by (by destruct seen).
  set (current := seen ++ [n]) in *. unfold ensure_upper_parent. eapply triple_bind; [apply triple_ask_eq|intros [nd|]].
  { cbn beta. destruct (node_is_dir nd) eqn:Ed; [apply triple_ret|apply triple_throw]; intros w [H Hl];
      [|by eapply ParentsAt_Parents]. destruct H as (s' & HI & Ha & b & Hb). exists s'. split; [done|]. split; [done|].
    unfold current in Hl. rewrite (Is_lstat s' w seen b n HI Hb) in Hl. destruct HI as (_ & _ & Hs & _). fold current in Hl.
    rewrite <- Hs. unfold usum. rewrite <- Hl. simpl. unfold node_sum. rewrite Ed.
    unfold node_is_dir, kind_is_dir in Ed. destruct (n_kind nd); try done. eauto. }
  eapply triple_bind; [apply triple_ask_eq|intros o]. cbn beta.
  eapply triple_bind; [apply triple_lift_eq; intros w [[H _] _]; by eapply ParentsAt_Parents|intros resolved]. cbn beta.
  eapply triple_bind; [apply triple_ask_eq|intros o']. cbn beta.
  eapply triple_bind; [apply triple_lift_eq; intros w [[[[H _] _] _] _]; by eapply ParentsAt_Parents|intros meta]. cbn beta.
  destruct (node_is_dir meta) eqn:Ed; simpl; [|apply triple_throw; intros w [[[[[H _] _] _] _] _]; by eapply ParentsAt_Parents].
  apply (triple_pre _ (fun w => (exists i, rs_path resolved = InLower i current) /\
    exists s', (Above s rel s' /\ kv s' current = Some KDir) /\ Is s' w)).
  { intros w [[[[[(s' & HI & Ha & _) Hl] ->] Hr] ->] Hm].
    destruct (resolve beyond core w current) as [r|] eqn:Er; [|done]. injection Hr as ->.
    split.
    - destruct (resolve_lower w current resolved) as (i & Hi & _); [done|done| |done|by exists i].
      unfold exists_at. by rewrite <- Hl.
    - exists s'. split; [split; [done|]|done]. rewrite <- (Is_view s' w current) by done. unfold view. rewrite Er.
      destruct (loc_node beyond w (rs_path resolved)) as [m|]; [|done]. injection Hm as ->. simpl.
      unfold node_is_dir, kind_is_dir in Ed. by destruct (n_kind meta). }
  apply triple_fact. intros [i ->]. apply triple_exists. intros s'. apply triple_fact. intros [Ha Hk].
  by apply install_parent_triple.
Qed.

Lemma plain_parent rel : plain rel -> plain (parent rel).
Proof. intros Hp. unfold plain in *. rewrite <- (take_drop (length rel - 1) rel) in Hp. by apply Forall_app in Hp as [Hp _]. Qed.

Lemma parents_loop_triple s rel seen rest : plain rel -> parent rel = seen ++ rest ->
  triple (ParentsAt s rel seen)
    (for_each (prefixes seen rest) (fun current _ => ensure_upper_parent other beyond uid gid umask sha256_hex core current) tt)
    (fun _ => ParentsAt s rel (parent rel)) (Parents s rel) (Parents s rel).
Proof.
  intros Hp. revert seen. induction rest as [|n rest IH]; intros seen Hrel; simpl.
  - apply triple_ret. intros w. by rewrite Hrel, app_nil_r.
  - assert (parent rel = (seen ++ [n]) ++ rest) as Hrel' by by rewrite <- app_assoc.
    eapply (triple_bind _ _ _ (fun _ => ParentsAt s rel (seen ++ [n]))); [|intros []; by apply (IH (seen ++ [n]))].
    apply ensure_upper_parent_triple; [|apply under_spec; by exists rest].
    pose proof (plain_parent rel Hp) as Hpp. rewrite Hrel' in Hpp. by apply plain_app in Hpp as [Hpp _].
Qed.

Lemma ensure_upper_parents_triple s rel : plain rel ->
  triple (Is s) (ensure_upper_parents other beyond uid gid umask sha256_hex core rel)
    (fun _ => ParentsAt s rel (parent rel)) (Parents s rel) (Parents s rel).
Proof.
  intros Hp. unfold ensure_upper_parents.
  eapply (triple_bind _ _ _ (fun _ => ParentsAt s rel [])).
  - apply triple_lift; intros; [|by exists s; split; [|apply Above_refl]].
    exists s. split; [done|]. split; [apply Above_refl|]. by eapply Is_root.
  - intros ?. by apply parents_loop_triple.
Qed.

(** ** [copy_up] *)

Lemma publish_copy_triple s rel st id i p : copyable st -> rel <> [] -> s rel = None ->
  let s1 := upd s rel (Some (n_kind (st_node st), false)) in
  triple (Ready s id)
    (publish_copy other beyond uid gid umask (InLower i p) st (Work, [temp_name pid id]) (Upper, rel))
    (fun _ => Is s1) (fun w => Is s w \/ Is s1 w) (fun w => Is s w \/ Is s1 w).
Proof.
  intros Hc Hrel HN s1. unfold publish_copy.
  eapply (triple_bind _ _ _ (fun _ => Copying s (Work, [temp_name pid id]) (n_kind (st_node st)))).
  { eapply triple_post; [by apply make_copy_triple|done|auto|auto]. }
  intros ?. eapply (triple_bind _ _ _ (fun _ => Copying s (Work, [temp_name pid id]) (n_kind (st_node st)))).
  { eapply triple_post; [apply copy_metadata_triple|done|intros w []; auto|intros w []; auto]. }
  intros ?. eapply (triple_bind _ _ _ (fun _ => Is s1)).
  - apply triple_sys; [intros w []; auto|intros w []; auto|]. intros w Hw. destruct (rename_entry _ _ w) as [r w'] eqn:E.
    pose proof (publish_rename s id (n_kind (st_node st)) rel w r w' Hw Hrel HN E) as Hr.
    destruct r as [?|?]; [auto|]. subst. left. apply Hw.
  - intros ?. destruct (_ && _); [|by apply triple_ret; auto]. apply triple_modify. intros w HI.
    destruct HI as ([] & Hrest). split; [by constructor|done].
Qed.

(** A visible path with an upper entry. *)
Lemma visible_exists s w p : Is s w -> plain p -> is_Some (kv s p) ->
  exists_at beyond w (Upper, p) = bool_decide (is_Some (s p)).
Proof.
  intros HI Hp Hk. pose proof HI as (Hw & _ & Hs & _). rewrite <- Hs. unfold exists_at, usum.
  assert (lstat beyond w (Upper, p) = node_at w (Upper, p)) as ->.
  { destruct p as [|n p _] using rev_ind; [unfold lstat; by destruct (node_at w _)|].
    apply plain_snoc in Hp as [Hp _]. apply lstat_straight, (view_straight beyond core); [done|done|].
    apply kv_parent in Hk as [Hd _]. rewrite <- (Is_view s w p) in Hd by done.
    destruct (view beyond core w p) as [d|]; [|done]. simpl in Hd. injection Hd as Hd. simpl. unfold node_is_dir. by rewrite Hd. }
  by destruct (node_at w (Upper, p)).
Qed.

Definition CopiedUp s rel w : Prop := exists s', Is s' w /\ keeps s s' /\ (is_Some (kv s rel) -> is_Some (s' rel))
  /\ forall p, under p rel = false -> s' p = s p.

Lemma CopiedUp_Good s rel w : CopiedUp s rel w -> Good s w.
Proof. intros (s' & HI & Hk & _). by exists s'. Qed.

Lemma under_parent p rel : rel <> [] -> under p (parent rel) = true -> under p rel = true /\ p <> rel.
Proof.
  intros Hne. destruct (path_snoc rel Hne) as (q & n & ->). rewrite parent_snoc. intros H. split.
  - by apply under_snoc_weaken.
  - intros ->. apply under_spec in H as [r H]. apply (f_equal length) in H. rewrite !length_app in H. simpl in H. lia.
Qed.

(** The lower node a path shows. *)
Definition shown_lower s rel i st : Prop :=
  (exists l, L !! i = Some l /\ ly_lstat l rel = Some st) /\ kv s rel = Some (n_kind (st_node st)) /\ s rel = None.

Lemma resolved_shown s w rel resolved : Is s w -> plain rel -> exists_at beyond w (Upper, rel) = false ->
  resolve beyond core w rel = Some resolved ->
  rel <> [] /\ is_upper resolved = false /\ exists i st, rs_path resolved = InLower i rel /\ shown_lower s rel i st.
Proof.
  intros HI Hp He Hr. pose proof HI as (Hw & HL & Hs & _).
  assert (rel <> []) as Hne.
  { intros ->. destruct (wf_root _ Hw) as (d & Hd & _). unfold exists_at, lstat in He. by rewrite Hd in He. }
  destruct (resolve_lower w rel resolved Hp Hne He Hr) as (i & Hi & Hu). split; [done|]. split; [done|].
  assert (is_Some (view beyond core w rel)) as [nd Hnd] by (apply resolve_view; [done|done|by eexists]).
  pose proof (Is_view s w rel HI Hp) as Hkv. rewrite Hnd in Hkv. unfold view in Hnd. rewrite Hr, Hi in Hnd. simpl in Hnd.
  rewrite HL in Hnd. destruct (L !! i) as [l|] eqn:El; [|done]. simpl in Hnd.
  destruct (ly_lstat l rel) as [st|] eqn:Est; [|done]. injection Hnd as <-. exists i, st. split; [done|].
  split; [by exists l|]. split; [done|]. unfold exists_at in He. apply bool_decide_eq_false, eq_None_not_Some in He.
  rewrite <- Hs. unfold usum. unfold lstat in He. by destruct (node_at w (Upper, rel)).
Qed.

Lemma copy_lower_triple s s' rel i st : plain rel -> rel <> [] -> Above s rel s' -> shown_lower s rel i st ->
  triple (Is s')
    (let! temporary := temporary_path pid core (parent rel) in
     let! result := attempt (publish_copy other beyond uid gid umask (InLower i rel) st temporary (Upper, rel)) in
     match result with
     | Ok _ => ret (Upper, rel)
     | Err e => ignore (discard other temporary) ;; throw e
     end)
    (fun f w => f = (Upper, rel) /\ CopiedUp s rel w) (Good s) (Good s).
Proof.
  intros Hp Hne [Hk Ho] ((l & Hl & Hst) & Hkv & HN).
  assert (s' rel = None) as HN'.
  { rewrite Ho; [done|]. destruct (under rel (parent rel)) eqn:E; [|done]. by apply under_parent in E as [_ ?]. }
  assert (copyable st) as Hcopy by (eapply lowers_copyable; [by eapply list_elem_of_lookup_2|done]).
  set (s1 := upd s' rel (Some (n_kind (st_node st), false))).
  assert (keeps s s1) as Hk1.
  { eapply keeps_trans; [exact Hk|]. apply keeps_install; [done|done| |done]. by rewrite (proj1 Hk). }
  assert (forall w, Is s1 w -> CopiedUp s rel w) as HC.
  { intros w HI. exists s1. split; [done|]. split; [done|]. unfold s1. rewrite upd_eq. split; [done|].
    intros p Hu. rewrite upd_ne; [apply Ho|intros ->; by rewrite under_refl in Hu].
    destruct (under p (parent rel)) eqn:E; [|done]. apply under_parent in E as [? _]; congruence. }
  assert (forall w, Is s' w \/ Is s1 w -> Good s w) as HG by (intros w [?|?]; eauto).
  eapply (triple_bind _ _ _ (fun f w => exists id, f = (Work, [temp_name pid id]) /\ Ready s' id w)).
  { unfold temporary_path. rewrite has_work. eapply triple_bind; [apply triple_ask_eq|intros id]. cbn beta.
    eapply (triple_bind _ _ _ (fun _ w => Ready s' id w)); [|intros ?; apply triple_ret; eauto].
    apply triple_modify. intros w [(Hw & HL & Hs & Ht) ->]. split; [|simpl; lia]. destruct Hw.
    split; [by constructor|]. split; [done|]. split; [done|]. intros id' Hid'. simpl. specialize (Ht id' Hid'). lia. }
  intros temporary. apply triple_exists. intros id. apply triple_fact. intros ->.
  eapply (triple_bind _ _ _ (fun r w => match r with Ok _ => Is s1 w | Err _ => Is s' w \/ Is s1 w end)).
  { eapply triple_attempt; [|intros w e H; exact H].
    eapply triple_post; [apply publish_copy_triple; [exact Hcopy|exact Hne|exact HN']|done|done|exact HG]. }
  intros [?|e]; [apply triple_ret; auto|].
  eapply (triple_bind _ _ _ (fun _ w => Is s' w \/ Is s1 w)); [|intros ?; by apply triple_throw].
  apply triple_ignore. intros envs w [HI|HI].
  - pose proof (discard_work s' (Work, [temp_name pid id]) eq_refl envs w HI) as H. cbv beta in H.
    destruct (discard _ _ envs w) as [[|[?|?] rest] w']; eauto.
  - pose proof (discard_work s1 (Work, [temp_name pid id]) eq_refl envs w HI) as H.
    destruct (discard _ _ envs w) as [[|[?|?] rest] w']; eauto.
Qed.

Lemma copy_up_triple s rel : plain rel ->
  triple (Is s) (copy_up other beyond uid gid umask pid sha256_hex core rel)
    (fun f w => f = (Upper, rel) /\ CopiedUp s rel w) (Good s) (Good s).
Proof.
  intros Hp. unfold copy_up. assert (forall w, Is s w -> Good s w) as HG by eauto.
  eapply triple_bind; [apply (triple_lift _ _ (fun _ => Is s)); auto|intros ?]. cbn beta.
  eapply (triple_bind _ _ _ (fun _ => Is s)).
  { eapply triple_post; [apply record_preimage_keeps; intros f w; apply Is_journal|auto|auto|auto]. }
  intros ?. eapply triple_bind; [apply triple_ask_eq|intros present]. cbn beta. destruct present.
  { apply triple_ret. intros w [HI He]. split; [done|]. exists s. split; [done|]. split; [done|]. split; [|done]. intros Hk.
    rewrite (visible_exists s) in He by done. symmetry in He. by apply bool_decide_eq_true in He. }
  eapply triple_bind; [apply triple_ask_eq|intros o]. cbn beta.
  eapply triple_bind; [apply triple_lift_eq; intros w [[HI _] _]; auto|intros resolved]. cbn beta.
  apply (triple_pre _ (fun w => (rel <> [] /\ is_upper resolved = false /\ exists i st, rs_path resolved = InLower i rel /\ shown_lower s rel i st) /\ Is s w)).
  { intros w [[[HI He] ->] Hr]. split; [|done]. eapply resolved_shown; [done|done|done|].
    by destruct (resolve beyond core w rel); simplify_eq/=. }
  apply triple_fact. intros (Hne & -> & i & st & -> & Hshown).
  eapply (triple_bind _ _ _ (fun _ => Parents s rel)).
  { eapply triple_post; [by apply ensure_upper_parents_triple|intros ? w; apply ParentsAt_Parents|apply Parents_Good|apply Parents_Good]. }
  intros ?. apply triple_exists. intros s'.
  eapply triple_bind; [apply triple_ask_eq|intros o']. cbn beta.
  eapply triple_bind; [apply triple_lift_eq; intros w [[HI [Hk _]] _]; by exists s'|intros st']. cbn beta.
  apply (triple_pre _ (fun w => (Above s rel s' /\ st' = st) /\ Is s' w)).
  { intros w [[[HI Ha] ->] Hr]. split; [split; [done|]|done]. destruct Hshown as ((l & Hl & Hst) & _).
    destruct HI as (_ & HL & _). simpl in Hr. rewrite HL, Hl in Hr. simpl in Hr. rewrite Hst in Hr. by injection Hr. }
  apply triple_fact. intros [Ha ->]. by apply copy_lower_triple.
Qed.
End Copy.
