(* ===== verification/OverlayEdit.v ===== *)
(** * Creating and removing

    When a creating function answers [Ok], the overlay shows the new node at
    its path and everything else as before; a removed path, and everything
    below it, is gone and stays hidden. *)

From Stdlib Require Import ZArith Lia.
From stdpp Require Import base list strings gmap pretty sorting.
From S2P Require Import Prelude Effects OverlayFs OverlayCore OverlayView OverlaySteps OverlayShape OverlayCopy.
#[local] Set Warnings "-clear-no-such-hyp".
Open Scope string_scope.
Open Scope list_scope.
Open Scope effect_scope.

Section Edit.
Context {O : Type} (other : O -> World -> World) (beyond : World -> FPath -> Path -> option Node).
Context (uid gid umask : Z) (pid : string) (sha256_hex : string -> string) (core : OverlayCore) (L : list Layer).
Context (others_quiet : forall o w, other o w = w).
Context (has_work : oc_work core = true).
Context (lowers_copyable : forall l p st, l ∈ L -> ly_lstat l p = Some st -> copyable st).
Context (lowers_lawful : Forall LayerLaws L).
Context (excluded_plain : Forall plain (oc_excluded core)).

Implicit Types (s : Shape) (p q : Path) (n : string) (w : World).

Abbreviation kv := (kv core L).
Abbreviation Is := (Is pid L).
Abbreviation Fs A := (M World O Z A).

Definition Any w : Prop := exists s, Is s w.

Lemma Is_Any s w : Is s w -> Any w.
Proof. intros H. by exists s. Qed.
Lemma Parents_Any s rel w : Parents pid core L s rel w -> Any w.
Proof. intros (s' & H & _). by exists s'. Qed.
Lemma Good_Any s w : Good pid core L s w -> Any w.
Proof. intros (s' & H & _). by exists s'. Qed.
Hint Resolve Is_Any Parents_Any Good_Any : core.

(** No name is both in the upper directory and whited out. *)
Definition tidy s : Prop := forall p n, plain_name n = true -> is_Some (s (p ++ [n])) -> s (p ++ [WHITEOUT_PREFIX +:+ n]) = None.

Lemma tidy_unshadowed s w : Is s w -> tidy s <-> unshadowed w.
Proof.
  intros (_ & _ & Hs & _). unfold tidy, unshadowed, whiteout_path. setoid_rewrite <- Hs. unfold usum.
  split; intros H p n Hn Hp; specialize (H p n Hn).
  - rewrite fmap_is_Some, fmap_None in H. auto.
  - rewrite fmap_is_Some in Hp. rewrite fmap_None. auto.
Qed.

Lemma tidy_keeps s s' : keeps core L s s' -> tidy s -> tidy s'.
Proof.
  intros [Hv Hs] Ht p n Hn Hp.
  assert (s' (p ++ [WHITEOUT_PREFIX +:+ n]) = s (p ++ [WHITEOUT_PREFIX +:+ n])) as ->.
  { destruct (Hs (p ++ [WHITEOUT_PREFIX +:+ n])) as [H|[H _]]; [done|]. apply plain_snoc in H as [_ H].
    by rewrite whiteout_not_plain in H. }
  destruct (Hs (p ++ [n])) as [H|(Hpl & _ & HN & k & Hk & _)]; [apply Ht; [done|by rewrite <- H]|].
  apply kv_comp in Hk. unfold kcomp, hides in Hk. rewrite HN in Hk.
  destruct (s (p ++ [WHITEOUT_PREFIX +:+ n])); done.
Qed.

(** Nothing of an excluded path is in the upper directory. *)
Definition clean s : Prop := forall p, is_excluded core p = true -> s p = None.

Definition neat s : Prop := tidy s /\ clean s.

Lemma neat_keeps s s' : keeps core L s s' -> neat s -> neat s'.
Proof.
  intros Hk [Ht Hc]. split; [by eapply tidy_keeps|]. intros p Hx. destruct (proj2 Hk p) as [->|(_ & _ & _ & k & Hv & _)]; [auto|].
  by rewrite kv_excluded in Hv.
Qed.

(** The overlay's own names are excluded only with their directory. *)
Lemma excluded_marker p x : plain_name x = false -> is_excluded core (p ++ [x]) = is_excluded core p.
Proof.
  intros Hx. unfold is_excluded. apply eq_true_iff_eq. rewrite !existsb_exists. split; intros (e & He & Hu); exists e; (split; [done|]).
  - apply under_snoc in Hu as [->|Hu]; [|done]. exfalso. rewrite Forall_forall in excluded_plain.
    apply list_elem_of_In, excluded_plain, plain_snoc in He as [_ He]. congruence.
  - by apply under_snoc_weaken.
Qed.

(** ** Markers *)

Lemma fault_not_ENOENT e : fault e <> ENOENT.
Proof. unfold fault. by destruct (Z.eqb_spec (Z.abs e) ENOENT). Qed.

Lemma triple_attempt_sys {A} (P : World -> Prop) (f : World -> result Z A * World) (Q : result Z A -> World -> Prop) (F C : World -> Prop) :
  (forall w, P w -> C w) ->
  (forall w, P w -> Q (fst (f w)) (snd (f w))
     /\ forall e, e <> ENOENT -> Q (Err e) w /\ Q (Err e) (snd (f w))) ->
  triple P (attempt (sys other f)) Q F C.
Proof.
  intros HC Hf envs w Hw. unfold attempt, sys, effect. destruct envs as [|e rest]; [by apply HC|].
  assert (fold_left (fun w o => other o w) (env_others e) w = w) as ->.
  { clear -others_quiet. induction (env_others e) as [|o os IH]; [done|]. simpl. by rewrite others_quiet. }
  destruct (Hf w Hw) as [H1 H2]. destruct (H2 _ (fault_not_ENOENT (env_errno e))) as [H3 H4].
  destruct (env_fate e); [|done|]; by destruct (f w).
Qed.

Lemma Is_ext s s' w : Is s w -> (forall p, s' p = s p) -> Is s' w.
Proof. intros (Hw & HL & Hs & Ht) H. split; [done|]. split; [done|]. split; [|done]. intros p. by rewrite Hs, H. Qed.

Lemma delete_upper s q w w' : Is s w -> wf w' -> frame w w' ->
  (forall g, node_at w' g = if decide (g = (Upper, q)) then None else node_at w g) -> Is (upd s q None) w'.
Proof.
  intros (Hw & HL & Hs & Ht) Hw' (HL' & _ & _ & Ht') Hn. split; [done|]. split; [congruence|]. split.
  - intros p. unfold usum, upd. rewrite Hn. destruct (decide (p = q)) as [->|].
    + by rewrite decide_True.
    + rewrite decide_False by congruence. apply Hs.
  - intros id Hid. rewrite Ht'. apply Ht. by rewrite Hn, decide_False in Hid.
Qed.

Lemma clear_whiteout_triple s rel : rel <> [] ->
  triple (Is s) (clear_whiteout other core rel) (fun _ => Is (upd s (whiteout_of rel) None)) Any Any.
Proof.
  intros Hne. destruct (path_snoc rel Hne) as (q & m & ->). unfold clear_whiteout.
  eapply (triple_bind _ _ _ (fun _ => Is s)); [by apply triple_lift; eauto|intros ?].
  rewrite file_name_snoc, parent_snoc, whiteout_of_snoc. unfold whiteout_path.
  eapply (triple_bind _ _ _ (fun n w => n = m /\ Is s w)); [by apply triple_ret|intros n]. apply triple_fact. intros ->.
  set (mk := q ++ [WHITEOUT_PREFIX +:+ m]).
  eapply (triple_bind _ _ _ (fun r w => match r with
    | Ok _ => Is (upd s mk None) w | Err e => Any w /\ (e = ENOENT -> Is (upd s mk None) w) end)).
  - apply triple_attempt_sys; [eauto|]. intros w HI. destruct (unlink (Upper, mk) w) as [r w'] eqn:E. simpl.
    eapply unlink_spec in E; [|apply HI]. destruct r as [?|e].
    + destruct E as (Hw' & Hfr & _ & _ & Hn). assert (Is (upd s mk None) w') as HI' by by eapply delete_upper.
      split; [done|]. intros e He. split; (split; [eauto|done]).
    + destruct E as [-> He]. split; [|by intros e' He'; split; (split; [eauto|done])]. split; [eauto|]. intros Hee.
      eapply Is_ext; [exact HI|]. intros p. unfold upd. destruct (decide (p = mk)) as [->|]; [|done].
      destruct HI as (_ & _ & Hs & _). rewrite <- Hs. unfold usum. by rewrite He.
  - intros [?|e]; [by apply triple_ret|]. destruct (Z.eqb_spec e ENOENT); [apply triple_ret|apply triple_throw]; naive_solver.
Qed.

(** A marker file: the shape with it. *)
Definition mark s (mk : Path) : Shape := match s mk with Some _ => s | None => upd s mk (Some (KFile "", false)) end.

Lemma mark_here s mk : is_Some (mark s mk mk).
Proof. unfold mark. destruct (s mk) eqn:E; [by rewrite E|]. by rewrite upd_eq. Qed.
Lemma mark_other s mk p : p <> mk -> mark s mk p = s p.
Proof. intros H. unfold mark. destruct (s mk); [done|]. by apply upd_ne. Qed.

Lemma create_marker_triple s q b x : s q = Some (KDir, b) ->
  triple (Is s) (create_marker other beyond uid gid umask (Upper, q ++ [x])) (fun _ => Is (mark s (q ++ [x])))
    (fun w => Is s w \/ Is (mark s (q ++ [x])) w) (fun w => Is s w \/ Is (mark s (q ++ [x])) w).
Proof.
  intros Hq. unfold create_marker. eapply triple_bind; [apply triple_ask_eq|intros present]. cbn beta.
  apply (triple_pre _ (fun w => present = bool_decide (is_Some (s (q ++ [x]))) /\ Is s w)).
  { intros w [HI ->]. split; [|done]. unfold exists_at. rewrite (Is_lstat beyond pid L s w q b x HI Hq).
    destruct HI as (_ & _ & Hs & _). rewrite <- Hs. unfold usum. by destruct (node_at w _). }
  apply triple_fact. intros ->. unfold mark. destruct (s (q ++ [x])) eqn:E; simpl; [apply triple_ret; auto|].
  apply triple_sys; [done|auto|auto|]. intros w HI. destruct (create _ _ w) as [r w'] eqn:Ec.
  eapply create_upper in Ec; [|exact HI|by destruct q]. destruct r as [?|?]; [|subst; auto].
  destruct Ec as (_ & HI' & _). rewrite node_sum_new in HI'. auto.
Qed.

Lemma opaque_xattr_put name nd : name ∈ OPAQUE_XATTRS -> opaque_xattr (put_xattr name "y" nd) = true.
Proof.
  intros Hn. apply existsb_exists. exists name. split; [by apply list_elem_of_In|]. simpl.
  by rewrite lookup_insert_eq, bool_decide_true.
Qed.

Lemma set_opaque s q b name w r w' : Is s w -> s q = Some (KDir, b) -> name ∈ OPAQUE_XATTRS ->
  change (put_xattr name "y") (Upper, q) w = (r, w') ->
  match r with Ok _ => Is (upd s q (Some (KDir, true))) w' | Err _ => w' = w end.
Proof.
  intros HI Hq Hname H. eapply change_spec in H; [|apply HI|done]. destruct r as [?|?]; [|done].
  destruct H as (Hw' & (HL' & _ & _ & Ht') & He & i & nd & Hi & Hnd & Hn). destruct HI as (Hw & HL & Hs & Ht).
  assert (n_kind nd = KDir) as Hk.
  { rewrite <- Hs in Hq. unfold usum in Hq. rewrite (node_at_Some _ _ _ _ Hi Hnd) in Hq. by injection Hq. }
  split; [done|]. split; [congruence|]. split.
  - intros p. unfold usum, upd. rewrite Hn. destruct (decide (p = q)) as [->|Hne].
    + rewrite decide_True by done. simpl. unfold node_sum, node_is_dir. simpl. rewrite Hk. simpl.
      f_equal. f_equal. by apply opaque_xattr_put.
    + rewrite decide_False; [apply Hs|]. intros Hp. assert ((Upper, p) = (Upper, q)); [|congruence].
      eapply (wf_dir _ Hw); [exact Hp|exact Hi|exact Hnd|]. unfold node_is_dir. by rewrite Hk.
  - intros id Hid. rewrite Ht'. apply Ht. rewrite Hn in Hid. destruct (decide _) as [E|]; [|done].
    by rewrite (node_at_Some _ _ _ _ E Hnd).
Qed.

(** [q] with its marker; the attribute may be set too. *)
Definition Marked q s s' : Prop :=
  (forall p, p <> q -> p <> q ++ [OPAQUE_NAME] -> s' p = s p)
  /\ is_Some (s' (q ++ [OPAQUE_NAME]))
  /\ (s' q = s q \/ s' q = Some (KDir, true)).

Lemma Marked_dir q s s' b : s q = Some (KDir, b) -> Marked q s s' -> exists b', s' q = Some (KDir, b').
Proof. intros Hq (_ & _ & [->| ->]); eauto. Qed.

Lemma snoc_ne q n : q <> q ++ [n].
Proof. intros E. apply (f_equal length) in E. rewrite length_app in E. simpl in E. lia. Qed.

Lemma Marked_upd q s s' : Marked q s s' -> Marked q s (upd s' q (Some (KDir, true))).
Proof.
  intros (H1 & H2 & H3). split; [intros p Hp Hp'; rewrite upd_ne by done; by apply H1|].
  split; [rewrite upd_ne by apply not_eq_sym, snoc_ne; done|]. right. apply upd_eq.
Qed.

Lemma set_opaque_xattr_triple s q b names : s q = Some (KDir, b) -> (forall n, n ∈ names -> n ∈ OPAQUE_XATTRS) ->
  let P w := exists s', Is s' w /\ Marked q s s' in
  triple P (set_opaque_xattr other (Upper, q) names) (fun _ => P) P P.
Proof.
  intros Hq Hin P. induction names as [|name names IH]; simpl; [by apply triple_ret|].
  eapply (triple_bind _ _ _ (fun _ => P)).
  - eapply triple_attempt; [|intros w e H; exact H]. apply triple_sys; [done|done|done|]. intros w (s' & HI & Hm).
    destruct (Marked_dir q s s' b Hq Hm) as [b' Hb']. destruct (change _ _ w) as [r w'] eqn:E.
    eapply set_opaque in E; [|exact HI|exact Hb'|apply Hin; left]. destruct r as [?|?]; [|subst; by exists s'].
    assert (P w'); [|done]. eexists. split; [exact E|by apply Marked_upd].
  - intros [?|e]; [by apply triple_ret|]. destruct (ignorable_metadata_error e); [|by apply triple_throw].
    apply IH. intros n Hn. apply Hin. by right.
Qed.

Lemma mark_opaque_triple s q b : s q = Some (KDir, b) ->
  triple (Is s) (mark_opaque other beyond uid gid umask q) (fun _ w => exists s', Is s' w /\ Marked q s s') Any Any.
Proof.
  intros Hq. unfold mark_opaque. set (s1 := mark s (q ++ [OPAQUE_NAME])).
  assert (Marked q s s1) as Hm1.
  { split; [intros p _ Hp; by apply mark_other|]. split; [apply mark_here|]. left. apply mark_other, snoc_ne. }
  eapply (triple_bind _ _ _ (fun _ => Is s1)).
  { eapply triple_post; [by eapply create_marker_triple|done|intros w []; eauto|intros w []; eauto]. }
  intros ?. eapply triple_pre; [|eapply triple_post; [by apply (set_opaque_xattr_triple s q b)|done|..]].
  - intros w HI. by exists s1.
  - intros w (s' & H & _). eauto.
  - intros w (s' & H & _). eauto.
Qed.

Lemma Marked_opq q s s' : Marked q s s' -> opq s' q = true.
Proof. intros (_ & H & _). unfold opq. by rewrite bool_decide_true. Qed.

(** ** Creating *)

Lemma require_visible_ok rel a : plain rel -> require_visible core rel = Ok a -> is_excluded core rel = false.
Proof. intros Hp. rewrite require_visible_plain by done. by destruct (is_excluded core rel). Qed.

Lemma resolve_kv s w rel : Is s w -> plain rel -> is_Some (resolve beyond core w rel) <-> is_Some (kv s rel).
Proof.
  intros HI Hp. rewrite resolve_view by (done || apply HI). rewrite <- (Is_view beyond pid core L s w rel HI Hp).
  by rewrite fmap_is_Some.
Qed.

Definition Creating s rel : Prop := plain rel /\ rel <> [] /\ is_excluded core rel = false /\ kv s rel = None.

Lemma prepare_create_triple s rel : plain rel ->
  triple (Is s) (prepare_create other beyond sha256_hex core rel) (fun _ w => Creating s rel /\ Is s w) (Is s) (Is s).
Proof.
  intros Hp. unfold prepare_create. eapply triple_bind; [apply triple_lift_eq; done|intros a]. cbn beta.
  eapply triple_bind; [apply triple_ask_eq|intros [r|]]; cbn beta; [apply triple_throw; by intros w [[H _] _]|].
  apply (triple_pre _ (fun w => Creating s rel /\ Is s w)).
  { intros w [[HI Ha] Hr]. split; [|done]. apply require_visible_ok in Ha as Hx; [|done].
    assert (kv s rel = None) as Hkv.
    { destruct (kv s rel) eqn:E; [|done]. assert (is_Some (resolve beyond core w rel)) as [? ?]; [|congruence].
      apply (resolve_kv s w rel HI Hp). by rewrite E. }
    split; [done|]. split; [|done]. intros ->. rewrite kv_nil, Hx in Hkv. done. }
  eapply triple_post; [apply record_preimage_keeps; [done|]|done|by intros w []|by intros w []].
  intros f w [Hc HI]. split; [done|]. by apply Is_journal.
Qed.

(** The shape in which the new name is made. *)
Definition Prepared s rel s1 : Prop :=
  exists s0, Above core L s rel s0 /\ s1 = upd s0 (whiteout_of rel) None /\ kv s0 (parent rel) = Some KDir.

Lemma prepare_parents_triple s rel : plain rel -> rel <> [] -> is_excluded core rel = false ->
  triple (Is s) (ensure_upper_parents other beyond uid gid umask sha256_hex core rel ;; clear_whiteout other core rel)
    (fun _ w => exists s1, Prepared s rel s1 /\ Is s1 w) Any Any.
Proof.
  intros Hp Hne Hx. eapply (triple_bind _ _ _ (fun _ => ParentsAt pid core L s rel (parent rel))).
  { eapply triple_post; [by apply ensure_upper_parents_triple|done|eauto|eauto]. }
  intros ?. apply triple_exists. intros s0.
  apply (triple_pre _ (fun w => (Above core L s rel s0 /\ kv s0 (parent rel) = Some KDir) /\ Is s0 w)).
  { intros w (HI & Ha & b & Hb). split; [|done]. split; [done|].
    eapply kv_upper; [intros q n; by eapply Is_up| |done|done].
    destruct (path_snoc rel Hne) as (q & n & ->). rewrite parent_snoc.
    destruct (is_excluded core q) eqn:E; [|done]. by rewrite (is_excluded_snoc core q n E) in Hx. }
  apply triple_fact. intros [Ha Hb]. eapply triple_post; [by apply clear_whiteout_triple| |done|done].
  intros ? w HI. exists (upd s0 (whiteout_of rel) None). split; [|done]. by exists s0.
Qed.

(** What a creation of [k] at [rel] does to the view. *)
Definition Shows (k : Kind) rel s s' : Prop :=
  (forall p, plain p -> kv s' p = if decide (p = rel) then Some k else kv s p) /\ (neat s -> neat s').

Lemma whiteout_of_not_plain rel : rel <> [] -> ~ plain (whiteout_of rel).
Proof.
  intros Hne. destruct (path_snoc rel Hne) as (q & n & ->). rewrite whiteout_of_snoc.
  intros [_ H]%plain_snoc. by rewrite whiteout_not_plain in H.
Qed.

Lemma Prepared_create s rel s1 s' k b : Creating s rel -> Prepared s rel s1 ->
  s' rel = Some (k, b) ->
  (forall r, plain r -> r <> [] -> s' (rel ++ r) = None) ->
  (k = KDir -> opq s' rel = true \/ forall n, lowk L (rel ++ [n]) = None) ->
  (forall p, p <> rel -> p <> rel ++ [OPAQUE_NAME] -> s' p = s1 p) ->
  Shows k rel s s'.
Proof.
  intros (Hp & Hne & Hx & HN) (s0 & [Hk Hab] & -> & Hpar) Hs' Hbelow Hdir Hother.
  assert (rel <> whiteout_of rel) as Hwne by (intros E; apply (whiteout_of_not_plain rel Hne); by rewrite <- E).
  split.
  - intros p Hpp. rewrite (kv_create core L s0 s' rel k b); [|done|done|done|by rewrite (proj1 Hk)|done|done|done|done| |done].
    + by rewrite (proj1 Hk).
    + intros p' Hu Hwh. rewrite Hother; [by apply upd_ne|..].
      * intros ->. by rewrite under_refl in Hu.
      * intros ->. by rewrite under_app in Hu.
  - intros [Ht Hcl]%(neat_keeps s s0 Hk). split.
    2: { intros p Hxp. rewrite Hother; [unfold upd; destruct (decide _); [done|auto]|..]; intros ->; [congruence|].
         rewrite excluded_marker in Hxp by done. congruence. }
    intros p n Hn Hsome. assert (p ++ [n] <> whiteout_of rel) as Hpn.
    { destruct (path_snoc rel Hne) as (q & m & ->). rewrite whiteout_of_snoc. intros [_ ->]%app_inj_tail. by rewrite whiteout_not_plain in Hn. }
    assert (p ++ [n] <> rel ++ [OPAQUE_NAME]) as Hpo by (by intros [_ ->]%app_inj_tail).
    assert (p ++ [WHITEOUT_PREFIX +:+ n] <> rel) as Hwr.
    { intros <-. apply plain_snoc in Hp as [_ Hp]. by rewrite whiteout_not_plain in Hp. }
    assert (p ++ [WHITEOUT_PREFIX +:+ n] <> rel ++ [OPAQUE_NAME]) as Hwo.
    { intros [_ E]%app_inj_tail. by apply (opaque_marker_is_not_a_whiteout n). }
    rewrite Hother by done. unfold upd. destruct (decide _) as [|Hwne']; [done|].
    destruct (decide (p ++ [n] = rel)) as [<-|Hnr]; [by rewrite whiteout_of_snoc in Hwne'|].
    apply Ht; [done|]. rewrite Hother, upd_ne in Hsome; done.
Qed.

Lemma lowk_below rel n : lowk L rel = None -> lowk L (rel ++ [n]) = None.
Proof.
  unfold lowk. rewrite !fmap_None, !lower_node_None, !Forall_forall. intros H l Hl. specialize (H l Hl).
  pose proof (proj1 (Forall_forall _ _) lowers_lawful l Hl) as Hlaw.
  destruct (ly_lstat l (rel ++ [n])) eqn:E; [|done]. exfalso.
  destruct (layer_dir rel) as [? ?]; [apply (layer_parent rel n); by rewrite E|congruence].
Qed.

Lemma exists_in_lower_lowk w rel : plain rel -> is_excluded core rel = false -> w_lowers w = L ->
  exists_in_lower core w rel = bool_decide (is_Some (lowk L rel)).
Proof.
  intros Hp Hx HL. unfold exists_in_lower. rewrite require_visible_plain, Hx, HL by done. unfold lowk.
  apply eq_true_iff_eq. rewrite existsb_exists, bool_decide_eq_true, fmap_is_Some, lower_node_is_Some.
  split; intros (l & Hl & H); exists l; (split; [by apply list_elem_of_In|]); [by apply bool_decide_eq_true in H|by apply bool_decide_eq_true].
Qed.

(** A new node that is not a directory. *)
Lemma create_leaf_triple s rel nd : Creating s rel -> node_sum nd = (n_kind nd, false) -> n_kind nd <> KDir ->
  forall s1, Prepared s rel s1 ->
  triple (Is s1) (sys other (create nd (Upper, rel))) (fun _ w => exists s', Is s' w /\ Shows (n_kind nd) rel s s') Any Any.
Proof.
  intros Hc Hsum Hk s1 Hprep. pose proof Hc as (Hp & Hne & _). apply triple_sys; [done|eauto|eauto|]. intros w HI.
  destruct (create _ _ w) as [r w'] eqn:E. eapply create_upper in E; [|exact HI|done].
  destruct r as [?|?]; [|subst; eauto]. destruct E as (HN & HI' & _). split; [|eauto]. eexists. split; [exact HI'|].
  rewrite Hsum. apply (Prepared_create s rel s1 _ (n_kind nd) false Hc Hprep).
  - apply upd_eq.
  - intros r _ Hr. rewrite upd_ne; [by eapply Is_below|]. intros E. apply (f_equal length) in E. rewrite length_app in E.
    destruct r; [done|simpl in E; lia].
  - done.
  - intros p Hpr _. by apply upd_ne.
Qed.

Definition Created (k : Kind) rel s w : Prop := exists s', Is s' w /\ Shows k rel s s'.

Lemma after_parents_triple {A} s rel (m : Fs A) Q : Creating s rel ->
  (forall s1, Prepared s rel s1 -> triple (Is s1) m Q Any Any) ->
  triple (Is s)
    (ensure_upper_parents other beyond uid gid umask sha256_hex core rel ;; clear_whiteout other core rel ;; m) Q Any Any.
Proof.
  intros (Hp & Hne & Hx & _) Hm. pose proof (prepare_parents_triple s rel Hp Hne Hx) as Hpar.
  intros envs w HI. specialize (Hpar envs w HI). unfold bind in *.
  destruct (ensure_upper_parents _ _ _ _ _ _ _ _ envs w) as [[|[?|?] rest] w1]; try done.
  destruct (clear_whiteout _ _ _ rest w1) as [[|[?|?] rest'] w2]; try done.
  destruct Hpar as (s1 & Hprep & HI1). by apply (Hm s1).
Qed.

Lemma create_prelude_triple {A} s rel (m : Fs A) Q : plain rel ->
  (Creating s rel -> forall s1, Prepared s rel s1 -> triple (Is s1) m Q Any Any) ->
  triple (Is s)
    (prepare_create other beyond sha256_hex core rel ;;
     ensure_upper_parents other beyond uid gid umask sha256_hex core rel ;; clear_whiteout other core rel ;; m) Q Any Any.
Proof.
  intros Hp Hm. eapply triple_bind; [eapply triple_post; [by apply prepare_create_triple|done|eauto|eauto]|intros ?].
  apply triple_fact. intros Hc. apply after_parents_triple; auto.
Qed.

Lemma create_file_triple s rel mode flags : plain rel ->
  triple (Is s) (create_file other beyond uid gid umask sha256_hex core rel mode flags)
    (fun _ => Created (KFile "") rel s) Any Any.
Proof.
  intros Hp. apply create_prelude_triple; [done|]. intros Hc s1 Hprep. cbv zeta. case_match; [|apply triple_throw; eauto].
  by apply (create_leaf_triple s rel _ Hc (node_sum_new _ _ _ _ _)).
Qed.

Lemma create_symlink_triple s rel target : plain rel ->
  triple (Is s) (create_symlink other beyond uid gid umask sha256_hex core rel target)
    (fun _ => Created (KSymlink target) rel s) Any Any.
Proof.
  intros Hp. apply create_prelude_triple; [done|]. intros Hc s1 Hprep.
  apply (create_leaf_triple s rel (mkNode (KSymlink target) _) Hc); done.
Qed.

(** The kind [mknod] makes of a mode. *)
Definition node_kind (mode rdev : Z) : Kind :=
  let format := Z.land mode 0xF000 in
  if ((format =? 0) || (format =? 0x8000))%Z then KFile "" else KOther format rdev.

Lemma create_node_triple s rel mode rdev : plain rel ->
  triple (Is s) (create_node other beyond uid gid umask sha256_hex core rel mode rdev)
    (fun _ => Created (node_kind mode rdev) rel s) Any Any.
Proof.
  intros Hp. apply create_prelude_triple; [done|]. intros Hc s1 Hprep. unfold mknod. cbv zeta.
  case_match; [apply triple_throw; eauto|]. case_match; [apply triple_throw; eauto|].
  apply (create_leaf_triple s rel (new_node uid gid umask (node_kind mode rdev) mode) Hc (node_sum_new _ _ _ _ _)); [|done].
  simpl. unfold node_kind. by destruct (_ || _).
Qed.

Lemma app_self_inv p q : p ++ q = p -> q = [].
Proof. intros E. apply (f_equal length) in E. rewrite length_app in E. destruct q; [done|simpl in E; lia]. Qed.

Lemma below_upd s1 w rel x r : Is s1 w -> s1 rel = None -> r <> [] -> upd s1 rel x (rel ++ r) = None.
Proof.
  intros HI HN Hr. rewrite upd_ne; [by eapply Is_below|]. intros E. apply (f_equal length) in E. rewrite length_app in E.
  destruct r; [done|simpl in E; lia].
Qed.

(** A new directory is empty: where a lower layer has the path, it is opaque. *)
Lemma create_dir_triple s rel mode : plain rel ->
  triple (Is s) (create_dir other beyond uid gid umask sha256_hex core rel mode) (fun _ => Created KDir rel s) Any Any.
Proof.
  intros Hp. unfold create_dir.
  eapply triple_bind; [eapply triple_post; [by apply prepare_create_triple|done|eauto|eauto]|intros ?].
  apply triple_fact. intros Hc. pose proof Hc as (_ & Hne & Hx & _).
  eapply triple_bind; [apply triple_ask_eq|intros shadows]. cbn beta.
  apply (triple_pre _ (fun w => shadows = bool_decide (is_Some (lowk L rel)) /\ Is s w)).
  { intros w [HI ->]. split; [|done]. apply exists_in_lower_lowk; [done|done|apply HI]. }
  apply triple_fact. intros ->. apply after_parents_triple; [done|]. intros s1 Hprep.
  set (s2 := upd s1 rel (Some (KDir, false))).
  assert (forall w, (s1 rel = None /\ (forall r, r <> [] -> s2 (rel ++ r) = None)) /\ Copying pid L s2 (Upper, rel) KDir w -> Any w) as HA.
  { intros w [_ [HI _]]. eauto. }
  eapply (triple_bind _ _ _ (fun _ w => (s1 rel = None /\ (forall r, r <> [] -> s2 (rel ++ r) = None)) /\ Copying pid L s2 (Upper, rel) KDir w)).
  { apply triple_sys; [done|eauto|eauto|]. intros w HI. destruct (create _ _ w) as [r w'] eqn:E.
    eapply create_upper in E; [|exact HI|done]. destruct r as [?|?]; [|subst; eauto]. destruct E as (HN & HI' & Hb & _).
    rewrite node_sum_new in HI'. split; [|eauto]. split; [split; [done|]|split; [done|]; apply Hb, node_sum_new].
    intros r Hr. by eapply below_upd. }
  intros ?. apply triple_fact. intros [HN Hbelow].
  eapply (triple_bind _ _ _ (fun _ => Copying pid L s2 (Upper, rel) KDir)).
  { eapply triple_post; [apply change_triple; [done|by intros nd]|done|intros w []; eauto|intros w []; eauto]. }
  intros ?. eapply triple_pre; [intros w [HI _]; exact HI|]. case_bool_decide as Hlow.
  - eapply triple_post; [apply (mark_opaque_triple s2 rel false), upd_eq| |done|done].
    intros ? w (s' & HI & Hm). exists s'. split; [done|].
    destruct (Marked_dir rel s2 s' false (upd_eq _ _ _) Hm) as [b Hb].
    apply (Prepared_create s rel s1 s' KDir b Hc Hprep); [done| |left; by eapply Marked_opq|].
    + intros r Hr Hrne. destruct Hm as (Hother & _). rewrite Hother; [auto|by intros E%app_self_inv|].
      intros E%app_inv_head. subst r. apply Forall_cons_1 in Hr as [Hr _]. by vm_compute in Hr.
    + intros p Hpr Hpo. destruct Hm as (Hother & _). rewrite Hother by done. by apply upd_ne.
  - apply triple_ret. intros w HI. exists s2. split; [done|].
    apply (Prepared_create s rel s1 s2 KDir false Hc Hprep); [apply upd_eq|by auto| |intros p Hpr _; by apply upd_ne].
    intros _. right. intros n. apply lowk_below. by apply eq_None_not_Some.
Qed.

(** ** Removing *)

(** The journal of a subtree changes nothing else. *)
Lemma for_each_keeps {X} (I : World -> Prop) (l : list X) (body : X -> unit -> Fs unit) :
  (forall x, triple I (body x tt) (fun _ => I) I I) -> triple I (for_each l body tt) (fun _ => I) I I.
Proof.
  intros Hb. apply (triple_for (fun (_ : list X) (_ : unit) => I)). intros x rest []. apply Hb.
Qed.

Lemma record_tree_keeps (I : World -> Prop) fuel source destination : journal_stable I ->
  triple I (record_tree other beyond sha256_hex core fuel source destination) (fun _ => I) I I.
Proof.
  intros HI. revert source destination. induction fuel as [|fuel IH]; intros source destination; simpl; [by apply triple_throw|].
  eapply triple_bind; [by apply record_preimage_keeps|intros ?].
  eapply triple_bind; [by apply (triple_ask _ _ (fun _ => I))|intros meta].
  eapply triple_bind; [by apply (triple_lift _ _ (fun _ => I))|intros nd].
  destruct (negb _); [by apply triple_ret|].
  eapply triple_bind; [by apply (triple_ask _ _ (fun _ => I))|intros names].
  eapply triple_bind; [by apply (triple_lift _ _ (fun _ => I))|intros ns].
  apply for_each_keeps. intros name.
  eapply triple_bind; [by apply (triple_lift _ _ (fun _ => I))|intros c1].
  eapply triple_bind; [by apply (triple_lift _ _ (fun _ => I))|intros c2]. apply IH.
Qed.

Lemma record_mapping_keeps (I : World -> Prop) source destination : journal_stable I ->
  triple I (record_logical_tree_mapping other beyond sha256_hex core source destination) (fun _ => I) I I.
Proof.
  intros HI. eapply triple_bind; [by apply (triple_ask _ _ (fun _ => I))|intros h]. by apply record_tree_keeps.
Qed.

(** [s] without the subtree of [q]. *)
Definition Cut q s s' : Prop := (forall p, under q p = true -> s' p = None) /\ forall p, under q p = false -> s' p = s p.

Lemma remove_file_upper s rel : rel <> [] ->
  triple (Is s) (remove_file other (Upper, rel)) (fun _ w => exists s', Is s' w /\ Cut rel s s') Any Any.
Proof.
  intros Hne. apply triple_sys; [done|eauto|eauto|]. intros w HI. destruct (unlink _ w) as [r w'] eqn:E.
  eapply unlink_spec in E; [|apply HI]. destruct r as [?|?]; [|destruct E as [-> _]; eauto].
  destruct E as (Hw' & Hfr & (nd & Hnd & Hdir) & _ & Hn).
  assert (Is (upd s rel None) w') as HI' by by eapply delete_upper. split; [|eauto]. exists (upd s rel None). split; [done|].
  split; intros p Hu.
  - apply under_spec in Hu as [r ->]. unfold upd. destruct (decide _) as [|Hr]; [done|].
    destruct HI as (Hw & _ & Hs & _). rewrite <- Hs. unfold usum.
    rewrite (wf_below_file w Upper rel r nd) by (done || intros ->; by rewrite app_nil_r in Hr). done.
  - apply upd_ne. intros ->. by rewrite under_refl in Hu.
Qed.

(** What is left of a subtree that is being removed. *)
Definition Cutting q s (rest : list FPath) w : Prop := exists s', Is s' w
  /\ (forall p, under q p = false -> s' p = s p)
  /\ (forall p, under q p = true -> is_Some (s' p) -> (Upper, p) ∈ rest)
  /\ Forall (fun g => subtree (Upper, q) g = true) rest.

Lemma remove_any_upper s q g rest : q <> [] ->
  triple (Cutting q s (g :: rest)) (remove_any other g) (fun _ => Cutting q s rest) Any Any.
Proof.
  intros Hq. assert (forall w, Cutting q s (g :: rest) w -> Any w) as HA by (intros w (s' & HI & _); eauto).
  apply triple_sys; [done|done|done|]. intros w (s' & HI & Hout & Hin & Hall).
  apply Forall_cons_1 in Hall as [Hg Hall]. destruct g as [a p0]. apply subtree_pair in Hg as [<- [r ->]].
  assert ((Upper, q ++ r) <> (Upper, [])) as Hroot by (intros [= [? _]%app_nil]; done).
  assert (forall w', wf w' -> frame w w' -> (forall g, node_at w' g = if decide (g = (Upper, q ++ r)) then None else node_at w g) ->
    Cutting q s rest w' /\ Any w') as Hdone.
  { intros w' Hw' Hfr Hn. assert (Is (upd s' (q ++ r) None) w') as HI' by by eapply delete_upper. split; [|eauto].
    eexists. split; [exact HI'|]. split; [|split; [|done]].
    - intros p Hp. rewrite upd_ne; [auto|]. intros ->. by rewrite under_app in Hp.
    - intros p Hp Hsome. unfold upd in Hsome. destruct (decide (p = q ++ r)); [by destruct Hsome|].
      specialize (Hin p Hp Hsome). apply elem_of_cons in Hin as [[= ->]|Hin]; done. }
  destruct (node_at w (Upper, q ++ r)) as [nd|]; [|apply HA; exists s'; split_and!; try done; constructor; [|done]; apply subtree_pair; eauto].
  assert (Cutting q s ((Upper, q ++ r) :: rest) w) as Hsame.
  { exists s'. split_and!; try done. constructor; [|done]. apply subtree_pair. eauto. }
  destruct (node_is_dir nd).
  - destruct (rmdir _ w) as [res w'] eqn:E. eapply rmdir_spec in E; [|apply HI|done].
    destruct res as [?|?]; [|subst; auto]. destruct E as (Hw' & Hfr & _ & Hn). by apply Hdone.
  - destruct (unlink _ w) as [res w'] eqn:E. eapply unlink_spec in E; [|apply HI].
    destruct res as [?|?]; [|destruct E as [-> _]; auto]. destruct E as (Hw' & Hfr & _ & _ & Hn). by apply Hdone.
Qed.

Lemma elem_of_contents_2 w f g : subtree f g = true -> is_Some (w_entries w !! g) -> g ∈ contents w f.
Proof.
  intros Hs [i Hi]. unfold contents. rewrite (elem_of_Permutation_proper g _ _ (merge_sort_Permutation deeper _)).
  apply list_elem_of_fmap. exists (g, i). split; [done|]. by apply elem_of_map_to_list, map_lookup_filter_Some.
Qed.

Lemma remove_dir_all_upper s rel : rel <> [] ->
  triple (Is s) (remove_dir_all other (Upper, rel)) (fun _ w => exists s', Is s' w /\ Cut rel s s') Any Any.
Proof.
  intros Hne. unfold remove_dir_all. eapply (triple_bind _ _ _ (Cutting rel s)).
  { apply triple_ask. intros w HI. exists s. split; [done|]. split; [done|]. split.
    - intros p Hp Hsome. apply elem_of_contents_2; [apply subtree_pair; split; [done|by apply under_spec]|].
      destruct HI as (_ & _ & Hs & _). rewrite <- Hs in Hsome. unfold usum in Hsome. apply fmap_is_Some in Hsome as [nd Hnd].
      apply node_at_entry in Hnd as (i & Hi & _). by eexists.
    - apply Forall_forall. by intros g [Hg _]%elem_of_contents. }
  intros fs. eapply (triple_post _ _ _ (fun _ => Cutting rel s [])); [|intros ? w (s' & HI & Hout & Hin & _)|done|done].
  - eapply (triple_pre _ (Cutting rel s fs)); [done|]. apply (triple_for (fun rest _ => Cutting rel s rest)). intros g rest [].
    by apply remove_any_upper.
  - exists s'. split; [done|]. split; [|done]. intros p Hp. destruct (s' p) eqn:E; [|done].
    specialize (Hin p Hp ltac:(by rewrite E)). by apply elem_of_nil in Hin.
Qed.

Definition Removed rel s s' : Prop :=
  (forall p, plain p -> kv s' p = if under rel p then None else kv s p) /\ (neat s -> neat s').

Lemma Cut_local rel s s1 : plain rel -> rel <> [] -> Cut rel s s1 -> forall p, plain p -> under rel p = false -> kv s1 p = kv s p.
Proof.
  intros Hp Hne [_ Hout] p Hpp Hu. apply (kv_local core L [rel]); [by repeat constructor| |done|by intros ? ->%list_elem_of_singleton].
  intros p' H. apply Hout. by destruct (H rel ltac:(by apply list_elem_of_singleton)).
Qed.

Lemma Cut_neat rel s s1 : Cut rel s s1 -> neat s -> neat s1.
Proof.
  intros [Hin Hout] [Ht Hc]. split.
  2: { intros p Hx. destruct (under rel p) eqn:E; [by apply Hin|]. rewrite Hout by done. auto. }
  intros p n Hn Hsome. destruct (under rel (p ++ [WHITEOUT_PREFIX +:+ n])) eqn:E; [by apply Hin|].
  rewrite Hout by done. apply Ht; [done|]. destruct (under rel (p ++ [n])) eqn:E'.
  - rewrite Hin in Hsome by done. by destruct Hsome.
  - by rewrite <- Hout.
Qed.

(** The whiteout over a path that is no longer in the upper directory. *)
Lemma create_whiteout_triple s s1 rel : plain rel -> rel <> [] -> is_excluded core rel = false -> Cut rel s s1 ->
  triple (Is s1) (create_whiteout other beyond uid gid umask sha256_hex core rel)
    (fun _ w => exists s', Is s' w /\ Removed rel s s') Any Any.
Proof.
  intros Hp Hne Hx Hcut. destruct (path_snoc rel Hne) as (q & m & Hrel). unfold create_whiteout.
  eapply (triple_bind _ _ _ (fun _ => ParentsAt pid core L s1 rel (parent rel))).
  { eapply triple_post; [by apply ensure_upper_parents_triple|done|eauto|eauto]. }
  intros ?. apply triple_exists. intros s2.
  apply (triple_pre _ (fun w => (Above core L s1 rel s2 /\ exists b, s2 (parent rel) = Some (KDir, b)) /\ Is s2 w)); [naive_solver|].
  apply triple_fact. intros [[Hk Hab] [b Hb]]. rewrite Hrel, file_name_snoc, parent_snoc in *. subst rel.
  eapply (triple_bind _ _ _ (fun n w => n = m /\ Is s2 w)); [by apply triple_ret|intros n]. apply triple_fact. intros ->.
  unfold whiteout_path. set (wh := q ++ [WHITEOUT_PREFIX +:+ m]).
  eapply triple_post; [by apply (create_marker_triple s2 q b)| |intros w []; eauto|intros w []; eauto].
  intros ? w HI. exists (mark s2 wh). split; [done|].
  assert (wh = whiteout_of (q ++ [m])) as Hwh by by rewrite whiteout_of_snoc.
  assert (plain_name m = true) as Hm by by apply plain_snoc in Hp as [_ ?].
  assert (q ++ [m] <> wh) as Hmwh.
  { unfold wh. intros [_ E]%app_inj_tail. rewrite E, whiteout_not_plain in Hm. done. }
  assert (mark s2 wh (q ++ [m]) = None) as HN.
  { rewrite mark_other, Hab by (done || apply under_snoc_self).
    apply (proj1 Hcut), under_refl. }
  split.
  - intros p Hpp. rewrite (kv_remove core L s2 (mark s2 wh) (q ++ [m])); [|done|done|done|left; rewrite <- Hwh; apply mark_here| |done].
    + destruct (under (q ++ [m]) p) eqn:Eu; [done|]. rewrite (proj1 Hk) by done. by apply (Cut_local (q ++ [m])).
    + intros p' _ Hp'. apply mark_other. by rewrite Hwh.
  - intros [Ht Hcl]%(Cut_neat _ _ _ Hcut)%(neat_keeps _ _ Hk). split.
    2: { intros p Hxp. rewrite mark_other; [auto|]. intros ->. unfold wh in Hxp.
         rewrite excluded_marker in Hxp by apply whiteout_not_plain. by rewrite (is_excluded_snoc core q m Hxp) in Hx. }
    intros p n Hn Hsome. destruct (decide (p ++ [n] = q ++ [m])) as [E|Hpn]; [rewrite E, HN in Hsome; by destruct Hsome|].
    rewrite mark_other; [apply Ht; [done|]|].
    + rewrite mark_other in Hsome; [done|]. unfold wh. intros [_ ->]%app_inj_tail. by rewrite whiteout_not_plain in Hn.
    + unfold wh. intros [-> E%str_app_inj_l]%app_inj_tail. by subst n.
Qed.

Lemma remove_triple s rel directory : plain rel -> rel <> [] ->
  triple (Is s) (remove other beyond uid gid umask sha256_hex core rel directory)
    (fun _ w => exists s', Is s' w /\ Removed rel s s') Any Any.
Proof.
  intros Hp Hne. unfold remove.
  eapply triple_bind; [apply triple_lift_eq; eauto|intros a]. cbn beta.
  eapply triple_bind; [apply triple_ask_eq|intros o]. cbn beta.
  eapply triple_bind; [apply triple_lift_eq; intros w [[HI _] _]; eauto|intros resolved]. cbn beta.
  apply (triple_pre _ (fun w => (is_excluded core rel = false /\ (is_upper resolved = false -> s rel = None)) /\ Is s w)).
  { intros w [[[HI Ha] ->] Hr]. split; [|done]. split; [by apply require_visible_ok in Ha|]. intros Hu.
    destruct (resolve beyond core w rel) as [r|] eqn:Er; [|done]. injection Hr as ->.
    destruct (exists_at beyond w (Upper, rel)) eqn:Ee.
    - destruct (path_snoc rel Hne) as (q & m & ->). rewrite resolve_snoc in Er by done.
      destruct (is_excluded _ _); [done|]. destruct (walk _ _ _); [|done]. unfold resolve_component in Er. rewrite Ee in Er. by injection Er as <-.
    - destruct (resolved_shown beyond pid core L s w rel resolved HI Hp Ee Er) as (_ & _ & i & st & _ & _ & _ & HN). done. }
  apply triple_fact. intros [Hx Hlower].
  eapply triple_bind; [by apply (triple_ask _ _ (fun _ => Is s))|intros o']. cbn beta.
  eapply triple_bind; [by apply (triple_lift _ _ (fun _ => Is s)); eauto|intros meta]. cbn beta.
  eapply (triple_bind _ _ _ (fun _ => Is s)).
  { destruct directory.
    - destruct (negb _); [apply triple_throw; eauto|].
      eapply triple_bind; [by apply (triple_ask _ _ (fun _ => Is s))|intros names]. cbn beta.
      eapply triple_bind; [by apply (triple_lift _ _ (fun _ => Is s)); eauto|intros ns]. cbn beta.
      case_bool_decide; [by apply triple_ret|apply triple_throw; eauto].
    - destruct (node_is_dir meta); [apply triple_throw; eauto|by apply triple_ret]. }
  intros ?. eapply (triple_bind _ _ _ (fun _ => Is s)).
  { eapply triple_post; [apply record_mapping_keeps; intros f w; apply Is_journal|done|eauto|eauto]. }
  intros ?. eapply (triple_bind _ _ _ (fun _ w => exists s1, Cut rel s s1 /\ Is s1 w)).
  { destruct (is_upper resolved).
    - eapply (triple_post _ _ _ (fun _ w => exists s', Is s' w /\ Cut rel s s')); [|intros ? w (s1 & H1 & H2); by exists s1|done|done].
      destruct directory; [by apply remove_dir_all_upper|by apply remove_file_upper].
    - apply triple_ret. intros w HI. exists s. split; [|done]. split; [|done]. intros p [r ->]%under_spec. eapply Is_below; eauto. }
  intros ?. apply triple_exists. intros s1. apply triple_fact. intros Hcut.
  eapply triple_bind; [apply triple_ask_eq|intros shadowing]. cbn beta.
  apply (triple_pre _ (fun w => shadowing = bool_decide (is_Some (lowk L rel)) /\ Is s1 w)).
  { intros w [HI ->]. split; [|done]. apply exists_in_lower_lowk; [done|done|apply HI]. }
  apply triple_fact. intros ->. case_bool_decide as Hlow; [by apply create_whiteout_triple|].
  apply triple_ret. intros w HI. exists s1. split; [done|]. split; [|by apply (Cut_neat rel)].
  apply (kv_remove core L s s1 rel); [done|done|apply (proj1 Hcut), under_refl| |intros p' Hu _; by apply (proj2 Hcut)].
  right. by apply eq_None_not_Some.
Qed.
End Edit.
