(* ===== verification/OverlayMove.v ===== *)
(** * Renaming, linking and exchanging

    A directory that lives in several layers is first copied whole to the upper
    directory and made opaque; then moving its entries moves what it shows. *)

From Stdlib Require Import ZArith Lia.
From stdpp Require Import base list strings gmap pretty sorting.
From S2P Require Import Prelude Effects OverlayFs OverlayCore OverlayView OverlaySteps OverlayShape OverlayCopy OverlayEdit.
#[local] Set Warnings "-clear-no-such-hyp".
Open Scope string_scope.
Open Scope list_scope.
Open Scope effect_scope.

Section Move.
Context {O : Type} (other : O -> World -> World) (beyond : World -> FPath -> Path -> option Node).
Context (uid gid umask : Z) (pid : string) (sha256_hex : string -> string) (core : OverlayCore) (L : list Layer).
Context (others_quiet : forall o w, other o w = w).
Context (has_work : oc_work core = true).
Context (lowers_copyable : forall l p st, l ∈ L -> ly_lstat l p = Some st -> copyable st).
Context (lowers_lawful : Forall LayerLaws L).
Context (excluded_plain : Forall plain (oc_excluded core)).

Implicit Types (s : Shape) (p q : Path) (n : string) (w : World).

Abbreviation kv := (kv core L).
Abbreviation Is := (Is pid L).
Abbreviation Any := (Any pid L).
Abbreviation neat := (neat core).
Abbreviation Fs A := (M World O Z A).

Hint Resolve Is_Any : core.

(** ** Copying a tree *)

(** [s'] shows what [s] shows, with more of it around [q] in the upper
    directory. *)
Definition Ext q s s' : Prop :=
  (forall p, plain p -> kv s' p = kv s p)
  /\ (forall p, is_Some (s p) -> is_Some (s' p))
  /\ (forall p, plain p -> opq s p = true -> opq s' p = true)
  /\ (neat s -> neat s')
  /\ (forall p, under q p = false -> under p q = false -> s' p = s p).

Lemma Ext_refl q s : Ext q s s.
Proof. by split_and!. Qed.

Lemma Ext_trans q s1 s2 s3 : Ext q s1 s2 -> Ext q s2 s3 -> Ext q s1 s3.
Proof.
  intros (H1 & H2 & H3 & H4 & H5) (G1 & G2 & G3 & G4 & G5). split_and!; auto.
  - intros p Hp. by rewrite G1, H1.
  - intros p Hu Hu'. by rewrite G5, H5.
Qed.

Lemma Ext_child q n s s' : Ext (q ++ [n]) s s' -> Ext q s s'.
Proof.
  intros (H1 & H2 & H3 & H4 & H5). split_and!; auto. intros p Hu Hu'. apply H5.
  - destruct (under (q ++ [n]) p) eqn:E; [|done]. apply under_snoc_l in E. congruence.
  - destruct (under p (q ++ [n])) eqn:E; [|done]. apply under_snoc in E as [->|E]; [|congruence].
    by rewrite under_app in Hu.
Qed.

Lemma keeps_mono s s' : keeps core L s s' ->
  (forall p, is_Some (s p) -> s' p = s p) /\ (forall p, opq s p = true -> opq s' p = true).
Proof.
  intros [_ Hs].
  assert (forall p, is_Some (s p) -> s' p = s p) as Hsame.
  { intros p Hp. destruct (Hs p) as [H|(_ & _ & HN & _)]; [done|]. rewrite HN in Hp. by destruct Hp. }
  split; [done|]. intros p. unfold opq. rewrite !orb_true_iff, !bool_decide_eq_true. intros [H|H].
  - left. by rewrite Hsame.
  - right. destruct (s p) as [[k b]|] eqn:E; [|done]. rewrite Hsame by by rewrite E. by rewrite E.
Qed.

Lemma CopiedUp_Ext s rel w : CopiedUp pid core L s rel w ->
  exists s', Is s' w /\ Ext rel s s' /\ (is_Some (kv s rel) -> is_Some (s' rel)).
Proof.
  intros (s' & HI & Hk & Hs & Hout). exists s'. split; [done|]. split; [|done].
  destruct (keeps_mono s s' Hk) as [Hm1 Hm2]. split_and!.
  - apply Hk.
  - intros p Hp. by rewrite Hm1.
  - auto.
  - by apply (neat_keeps core L).
  - intros p _ Hu. by apply Hout.
Qed.

(** Everything visible from [q] down is in the upper directory. *)
Definition closed s q : Prop := forall r, plain r -> is_Some (kv s (q ++ r)) ->
  is_Some (s (q ++ r)) /\ (kv s (q ++ r) = Some KDir -> opq s (q ++ r) = true).

Lemma closed_Ext q0 s s' q : plain q -> Ext q0 s s' -> closed s q -> closed s' q.
Proof.
  intros Hq (H1 & H2 & H3 & _) Hc r Hr. rewrite H1 by by apply plain_app. intros Hv. destruct (Hc r Hr Hv) as [Ha Hb].
  split; [auto|]. intros Hd. apply H3; [by apply plain_app|auto].
Qed.

Lemma closed_leaf s q : (kv s q <> Some KDir) -> is_Some (s q) -> closed s q.
Proof.
  intros Hk Hs r _ Hv. destruct r as [|n r].
  - rewrite app_nil_r in *. split; [done|]. intros H. by destruct Hk.
  - exfalso. apply Hk. by eapply (kv_above_dir core L s q (n :: r)).
Qed.

(** Marking a directory opaque when all it shows is in the upper directory. *)
Lemma Marked_Ext s s' q : plain q -> Marked q s s' -> (exists b, s q = Some (KDir, b)) ->
  (forall n, plain_name n = true -> is_Some (kv s (q ++ [n])) -> is_Some (s (q ++ [n]))) ->
  is_excluded core q = false -> kv s q = Some KDir -> Ext q s s'.
Proof.
  intros Hq (Hother & Hmk & Hself) [b Hb] Hin Hx Hkq.
  assert (exists b', s' q = Some (KDir, b') /\ (b = true -> b' = true)) as (b' & Hb' & Hbb).
  { destruct Hself as [->| ->]; eauto. }
  assert (forall p, p <> q -> p <> q ++ [OPAQUE_NAME] -> s' p = s p) as Hsame by done.
  assert (forall p x, plain_name x = false -> x <> OPAQUE_NAME -> s' (p ++ [x]) = s (p ++ [x])) as Hwh.
  { intros p x Hx' Hxo. apply Hsame; [|by intros [_ ?]%app_inj_tail]. intros <-. apply plain_snoc in Hq as [_ Hq]. congruence. }
  assert (forall p, p <> q -> s' (p ++ [OPAQUE_NAME]) = s (p ++ [OPAQUE_NAME])) as Hop.
  { intros p Hp. apply Hsame; [|by intros [? _]%app_inj_tail]. intros <-. apply plain_snoc in Hq as [_ Hq]. by vm_compute in Hq. }
  split_and!.
  - apply kv_same. intros p n Hp Hn Hd Hvis.
    assert (WHITEOUT_PREFIX +:+ n <> OPAQUE_NAME) as Hno by by apply opaque_marker_is_not_a_whiteout.
    assert (match s' (p ++ [n]) with Some (k, _) => Some k | None => None end = match s (p ++ [n]) with Some (k, _) => Some k | None => None end) as Hkind.
    { destruct (decide (p ++ [n] = q)) as [->|Hne]; [by rewrite Hb, Hb'|]. rewrite Hsame; [done|done|].
      intros [_ ->]%app_inj_tail. by vm_compute in Hn. }
    unfold kcomp, hides. rewrite (Hwh p (WHITEOUT_PREFIX +:+ n)) by (done || apply whiteout_not_plain).
    destruct (decide (p = q)) as [->|Hpq].
    + assert (s' (q ++ [n]) = s (q ++ [n])) as ->.
      { apply Hsame; [apply not_eq_sym, snoc_ne|]. intros [_ ->]%app_inj_tail. by vm_compute in Hn. }
      destruct (s (q ++ [n])) as [[k b0]|] eqn:E; [done|].
      assert (opq s' q = true) as -> by (unfold opq; by rewrite bool_decide_true). rewrite orb_true_r.
      destruct (kv s (q ++ [n])) eqn:Ekv; [destruct (Hin n Hn); [by rewrite Ekv|congruence]|].
      destruct Hvis as [[? ?]|Hxn]; [congruence|]. rewrite kv_snoc, Hxn, Hd in Ekv. simpl in Ekv.
      unfold kcomp, hides in Ekv. by rewrite E in Ekv.
    + assert (opq s' p = opq s p) as Hopq.
      { unfold opq. rewrite Hop by done. f_equal. destruct (decide (p = q ++ [OPAQUE_NAME])) as [->|]; [|by rewrite Hsame].
        apply plain_snoc in Hp as [_ Hp]. by vm_compute in Hp. }
      rewrite Hopq. destruct (s' (p ++ [n])) as [[k1 ?]|], (s (p ++ [n])) as [[k2 ?]|]; try done; by rewrite Hkind.
  - intros p Hp. destruct (decide (p = q)) as [->|]; [by rewrite Hb'|].
    destruct (decide (p = q ++ [OPAQUE_NAME])) as [->|]; [done|]. by rewrite Hsame.
  - intros p Hp Ho. destruct (decide (p = q)) as [->|Hpq]; [unfold opq; by rewrite bool_decide_true|].
    unfold opq in *. rewrite Hop by done. rewrite Hsame; [done|done|]. intros ->.
    apply plain_snoc in Hp as [_ Hp]. by vm_compute in Hp.
  - intros [Ht Hc]. split.
    + intros p n Hn Hsome. rewrite Hwh; [|apply whiteout_not_plain|by apply opaque_marker_is_not_a_whiteout].
      apply Ht; [done|]. destruct (decide (p ++ [n] = q)) as [->|]; [by rewrite Hb|]. rewrite <- Hsame; [done|done|].
      intros [_ ->]%app_inj_tail. by vm_compute in Hn.
    + intros p Hxp. rewrite Hsame; [auto|intros ->; congruence|]. intros ->. rewrite excluded_marker in Hxp by done. congruence.
  - intros p Hu Hu'. apply Hsame; intros ->; [by rewrite under_refl in Hu|by rewrite under_app in Hu].
Qed.

Definition Materialized s q (f : FPath) w : Prop :=
  f = (Upper, q) /\ exists s', Is s' w /\ Ext q s s' /\ closed s' q.

Lemma copy_leaf_triple s q : plain q -> is_Some (kv s q) -> kv s q <> Some KDir ->
  triple (Is s) (copy_up other beyond uid gid umask pid sha256_hex core q) (Materialized s q) Any Any.
Proof.
  intros Hq Hv Hk. eapply triple_post; [by apply copy_up_triple| |intros w; apply Good_Any|intros w; apply Good_Any].
  intros f w [-> Hc]. split; [done|]. apply CopiedUp_Ext in Hc as (s' & HI & He & Hs). exists s'. split; [done|]. split; [done|].
  apply closed_leaf; [|auto]. by rewrite (proj1 He).
Qed.

(** The names that remain to be copied. *)
Definition Filling s q (names rest : list string) w : Prop := exists s', Is s' w /\ Ext q s s' /\ is_Some (s' q)
  /\ forall n, n ∈ names -> n ∈ rest \/ closed s' (q ++ [n]).

Lemma Filling_Any s q names rest w : Filling s q names rest w -> Any w.
Proof. intros (s' & HI & _). eauto. Qed.

Lemma metadata_kv s w p : Is s w -> plain p -> 
  match metadata beyond core w p with
  | Ok nd => kv s p = Some (n_kind nd)
  | Err _ => kv s p = None
  end.
Proof.
  intros HI Hp. rewrite metadata_view by done. rewrite <- (Is_view beyond pid core L s w p HI Hp).
  by destruct (view beyond core w p).
Qed.

Lemma kv_entry s w p k b k' : Is s w -> s p = Some (k, b) -> kv s p = Some k' -> k = k'.
Proof.
  intros HI Hs Hk. destruct p as [|n p _] using rev_ind.
  - destruct (Is_root pid L s w HI) as [b' Hb]. rewrite kv_nil in Hk. destruct (is_excluded core []); congruence.
  - apply kv_comp in Hk. unfold kcomp in Hk. rewrite Hs in Hk. congruence.
Qed.

Lemma fill_turn s q names n rest (step : Path -> Fs FPath) : plain q -> neat s ->
  n ∈ names -> (forall n, n ∈ names -> plain_name n = true /\ is_Some (kv s (q ++ [n]))) ->
  (forall s0, Ext q s s0 -> kv s0 (q ++ [n]) = Some KDir -> triple (Is s0) (step (q ++ [n])) (Materialized s0 (q ++ [n])) Any Any) ->
  triple (Filling s q names (n :: rest))
    (let! c := lift (child q n) in
     let! meta := ask (fun w => metadata beyond core w c) in
     let! meta := lift meta in
     (if node_is_dir meta then step c else copy_up other beyond uid gid umask pid sha256_hex core c) ;;
     ret tt)
    (fun _ => Filling s q names rest) Any Any.
Proof.
  intros Hq Hneat Hin Hnames Hstep. destruct (Hnames n Hin) as [Hn Hv]. rewrite child_plain by done.
  assert (plain (q ++ [n])) as Hqn by by apply plain_snoc.
  eapply (triple_bind _ _ _ (fun c w => c = q ++ [n] /\ Filling s q names (n :: rest) w)); [by apply triple_ret|intros c].
  apply triple_fact. intros ->. apply triple_exists. intros s0.
  apply (triple_pre _ (fun w => (Ext q s s0 /\ is_Some (s0 q) /\ forall n', n' ∈ names -> n' ∈ n :: rest \/ closed s0 (q ++ [n'])) /\ Is s0 w)); [naive_solver|].
  apply triple_fact. intros (He & Hs0 & Hdone).
  eapply triple_bind; [apply triple_ask_eq|intros meta]. cbn beta.
  eapply triple_bind; [apply triple_lift_eq; intros w [HI _]; eauto|intros nd]. cbn beta.
  apply (triple_pre _ (fun w => kv s0 (q ++ [n]) = Some (n_kind nd) /\ Is s0 w)).
  { intros w [[HI ->] Hnd]. split; [|done]. pose proof (metadata_kv s0 w (q ++ [n]) HI Hqn) as Hm. by rewrite Hnd in Hm. }
  apply triple_fact. intros Hk.
  eapply (triple_bind _ _ _ (Materialized s0 (q ++ [n]))).
  - destruct (node_is_dir nd) eqn:Ed; unfold node_is_dir, kind_is_dir in Ed; destruct (n_kind nd) eqn:Ek; try done;
      try (by apply Hstep); (apply copy_leaf_triple; [done|by rewrite Hk|by rewrite Hk]).
  - intros f. apply triple_ret. intros w (-> & s1 & HI & He1 & Hc1). exists s1. split; [done|].
    apply Ext_child in He1 as He1'. split; [by eapply Ext_trans|]. split; [by apply He1'|].
    intros n' Hn'. destruct (Hdone n' Hn') as [[->|Hr]%elem_of_cons|Hc]; [by right|by left|]. right.
    eapply closed_Ext; [|exact He1|done]. apply plain_snoc. split; [done|]. by apply Hnames.
Qed.

Lemma materialize_triple fuel : forall s q, plain q -> neat s ->
  triple (Is s) (materialize other beyond uid gid umask pid sha256_hex core fuel q) (Materialized s q) Any Any.
Proof.
  induction fuel as [|fuel IH]; intros s q Hq Hneat; simpl; [apply triple_throw; eauto|].
  eapply triple_bind; [apply triple_lift_eq; eauto|intros a]. cbn beta.
  eapply triple_bind; [apply triple_ask_eq|intros meta]. cbn beta.
  eapply triple_bind; [apply triple_lift_eq; intros w [[HI _] _]; eauto|intros nd]. cbn beta.
  apply (triple_pre _ (fun w => (kv s q = Some (n_kind nd) /\ is_excluded core q = false) /\ Is s w)).
  { intros w [[[HI Ha] ->] Hnd]. split; [|done]. pose proof (metadata_kv s w q HI Hq) as Hm. rewrite Hnd in Hm.
    split; [done|]. by apply require_visible_ok in Ha. }
  apply triple_fact. intros [Hk Hx]. destruct (node_is_dir nd) eqn:Ed; simpl.
  2: { apply copy_leaf_triple; [done|by rewrite Hk|]. rewrite Hk. unfold node_is_dir in Ed. by intros [= E]; rewrite E in Ed. }
  assert (n_kind nd = KDir) as Hdir by (unfold node_is_dir, kind_is_dir in Ed; by destruct (n_kind nd)). rewrite Hdir in Hk.
  eapply triple_bind; [apply triple_ask_eq|intros o]. cbn beta.
  eapply triple_bind; [apply triple_lift_eq; intros w [HI _]; eauto|intros names]. cbn beta.
  apply (triple_pre _ (fun w => (forall n, n ∈ names <-> plain_name n = true /\ is_Some (kv s (q ++ [n]))) /\ Is s w)).
  { intros w [[HI ->] Hnames]. split; [|done].
    assert (Forall LayerLaws (w_lowers w)) as Hlaws by (destruct HI as (_ & -> & _); done).
    pose proof (list_names_spec beyond core w q (proj1 HI) (proj1 (tidy_unshadowed pid L s w HI) (proj1 Hneat)) Hlaws Hq) as Hl.
    rewrite Hnames in Hl. destruct Hl as (_ & _ & Hl). intros n. rewrite Hl. split; intros [Hn Hv]; (split; [done|]).
    - rewrite <- (Is_view beyond pid core L s w) by (done || by apply plain_snoc). by apply fmap_is_Some.
    - rewrite <- (Is_view beyond pid core L s w) in Hv by (done || by apply plain_snoc). by apply fmap_is_Some in Hv. }
  apply triple_fact. intros Hnames.
  eapply (triple_bind _ _ _ (fun _ => Filling s q names names)).
  { eapply triple_post; [by apply copy_up_triple| |intros w; apply Good_Any|intros w; apply Good_Any].
    intros f w [_ Hc]. apply CopiedUp_Ext in Hc as (s' & HI & He & Hs). exists s'. split; [done|]. split; [done|].
    split; [apply Hs; by rewrite Hk|]. by left. }
  intros ?. eapply (triple_bind _ _ _ (fun _ => Filling s q names [])).
  { assert (forall rest, (forall n, n ∈ rest -> n ∈ names) -> triple (Filling s q names rest)
      (for_each rest (fun name _ =>
        let! c := lift (child q name) in
        let! meta := ask (fun w => metadata beyond core w c) in
        let! meta := lift meta in
        (if node_is_dir meta then materialize other beyond uid gid umask pid sha256_hex core fuel c
         else copy_up other beyond uid gid umask pid sha256_hex core c) ;; ret tt) tt)
      (fun _ => Filling s q names []) Any Any) as Hloop; [|by apply Hloop].
    induction rest as [|n rest IHrest]; intros Hsub; [by apply triple_ret|].
    eapply (triple_bind _ _ _ (fun _ => Filling s q names rest)); [|intros []; apply IHrest; intros m Hm; apply Hsub; by right].
    apply fill_turn; [done|done|apply Hsub; by left|by intros m Hm; apply Hnames|].
    intros s0 He _. apply IH; [|by apply He]. apply plain_snoc. split; [done|]. apply Hnames, Hsub. by left. }
  intros ?. apply triple_exists. intros s2.
  apply (triple_pre _ (fun w => (Ext q s s2 /\ is_Some (s2 q) /\ forall n, n ∈ names -> closed s2 (q ++ [n])) /\ Is s2 w)).
  { intros w (HI & He & Hs2 & Hdone). split; [|done]. split; [done|]. split; [done|]. intros n Hn.
    by destruct (Hdone n Hn) as [?%elem_of_nil|?]. }
  apply triple_fact. intros (He & [[k b] Hs2] & Hclosed).
  assert (kv s2 q = Some KDir) as Hk2 by by rewrite (proj1 He).
  apply (triple_pre _ (fun w => k = KDir /\ Is s2 w)).
  { intros w HI. split; [|done]. by eapply kv_entry. }
  apply triple_fact. intros ->. eapply (triple_bind _ _ _ (fun _ w => exists s3, Is s3 w /\ Marked q s2 s3)).
  { eapply mark_opaque_triple; done. }
  intros ?. apply triple_ret. intros w (s3 & HI & Hm). split; [done|]. exists s3. split; [done|].
  assert (forall n, plain_name n = true -> is_Some (kv s2 (q ++ [n])) -> n ∈ names) as Hvis.
  { intros n Hn Hv. apply Hnames. split; [done|]. by rewrite <- (proj1 He) by by apply plain_snoc. }
  assert (Ext q s2 s3) as He3.
  { apply Marked_Ext; [done|done|by exists b| |done|done]. intros n Hn Hv.
    destruct (Hclosed n (Hvis n Hn Hv) []) as [Hs _]; [constructor|by rewrite app_nil_r|]. by rewrite app_nil_r in Hs. }
  split; [by eapply Ext_trans|]. intros r Hr Hv. destruct r as [|n r].
  - rewrite app_nil_r in *. split; [|intros _; by eapply Marked_opq]. apply He3. by rewrite Hs2.
  - apply Forall_cons in Hr as [Hn Hr]. replace (q ++ n :: r) with ((q ++ [n]) ++ r) in * by by rewrite <- app_assoc.
    assert (plain (q ++ [n])) as Hqn by by apply plain_snoc.
    apply (closed_Ext q s2 s3 (q ++ [n]) Hqn He3); [|done|done]. apply Hclosed, Hvis; [done|].
    rewrite <- (proj1 He3) by done. by eapply kv_above.
Qed.

(** ** Moving entries *)

Definition cut q s : Shape := fun p => if under q p then None else s p.
Definition mv old new s : Shape := fun p =>
  if under new p then s (old ++ drop (length new) p) else if under old p then None else s p.

Lemma mv_new old new s r : mv old new s (new ++ r) = s (old ++ r).
Proof. unfold mv. by rewrite under_app, drop_app_length. Qed.

Lemma usum_moved_upper s w w' old new : Is s w -> wf w' -> frame w w' -> disjoint_paths (Upper, old) (Upper, new) ->
  (forall g, node_at w' g = moved (Upper, old) (Upper, new) (node_at w) g) -> Is (mv old new s) w'.
Proof.
  intros (Hw & HL & Hs & Ht) Hw' (HL' & _ & _ & Ht') Hd Hn. split; [done|]. split; [congruence|]. split.
  - intros p. unfold usum, mv. rewrite Hn. unfold moved. cbn [fst snd].
    assert (forall q, subtree (Upper, q) (Upper, p) = under q p) as Hsub by done. rewrite !Hsub.
    destruct (under new p); [by rewrite <- Hs|]. destruct (under old p); [done|by rewrite <- Hs].
  - intros id Hid. rewrite Ht'. apply Ht. rewrite Hn in Hid. unfold moved in Hid. cbn [fst snd] in Hid.
    destruct (subtree (Upper, new) _) eqn:E; [by apply subtree_pair in E as [? _]|].
    by destruct (subtree (Upper, old) _) eqn:E'; [apply subtree_pair in E' as [? _]|].
Qed.

(** [fs::rename] from one upper path to another that does not exist. *)
Lemma rename_upper s old new w r w' : Is s w -> old <> [] -> new <> [] -> s new = None ->
  rename_entry (Upper, old) (Upper, new) w = (r, w') ->
  match r with
  | Ok _ => Is (mv old new s) w' /\ under old new = false /\ under new old = false /\ exists b, s (parent new) = Some (KDir, b)
  | Err _ => w' = w
  end.
Proof.
  intros HI Ho Hn HN H. eapply rename_spec in H; [|apply HI|congruence|congruence].
  destruct r as [?|?]; [|done]. destruct H as (Hw' & Hfr & Hsrc & [[Hsame _]|(Hd & _ & Hpar & Hnode)]).
  - exfalso. destruct HI as (Hw & _ & Hs & _). rewrite <- Hs in HN. unfold usum in HN. apply fmap_None, node_at_None in HN; [|done].
    rewrite HN in Hsame. destruct Hsrc as [nd (i & Hi & _)%node_at_entry]. congruence.
  - split; [by eapply usum_moved_upper|]. destruct Hd as [Hd1 Hd2]. split; [done|]. split; [done|].
    destruct (path_snoc new Hn) as (q & n & ->). rewrite parent_snoc.
    destruct (Hpar Upper q n eq_refl) as (d & Hd & Hdir). destruct HI as (_ & _ & Hs & _). rewrite <- Hs. unfold usum. rewrite Hd. simpl.
    unfold node_sum. rewrite Hdir. unfold node_is_dir, kind_is_dir in Hdir. destruct (n_kind d); try done. eauto.
Qed.

(** Moving a destination aside. *)
Lemma rename_aside s q id w r w' : Is s w -> q <> [] -> (id < w_temp w)%Z -> node_at w (Work, [temp_name pid id]) = None ->
  rename_entry (Upper, q) (Work, [temp_name pid id]) w = (r, w') ->
  match r with Ok _ => Is (cut q s) w' | Err _ => w' = w end.
Proof.
  intros HI Hq Hid HN H. eapply rename_spec in H; [|apply HI|congruence|done].
  destruct r as [?|?]; [|done]. destruct H as (Hw' & (HL' & _ & _ & Ht') & Hsrc & [[Hsame _]|(Hd & _ & _ & Hn)]).
  - exfalso. apply node_at_None in HN; [|apply HI]. rewrite HN in Hsame. destruct Hsrc as [nd (i & Hi & _)%node_at_entry]. congruence.
  - destruct HI as (Hw & HL & Hs & Ht). split; [done|]. split; [congruence|]. split.
    + intros p. unfold usum, cut. rewrite Hn. unfold moved. cbn [fst snd].
      destruct (subtree (Work, [temp_name pid id]) (Upper, p)) eqn:E; [by apply subtree_pair in E as [? _]|].
      assert (subtree (Upper, q) (Upper, p) = under q p) as -> by done. destruct (under q p); [done|apply Hs].
    + intros id' Hid'. rewrite Ht'. rewrite Hn in Hid'. unfold moved in Hid'. cbn [fst snd] in Hid'.
      destruct (subtree (Work, [temp_name pid id]) (Work, [temp_name pid id'])) eqn:E.
      * apply subtree_pair in E as [_ [r E]]. injection E as E _. unfold temp_name in E.
        apply str_app_inj_l, str_app_inj_l, str_app_inj_l in E. by apply (inj pretty) in E as ->.
      * destruct (subtree (Upper, q) _) eqn:E'; [by apply subtree_pair in E' as [? _]|]. by apply Ht.
Qed.

(** A tree that is whole in the upper directory shows the same elsewhere. *)
Lemma kv_transplant s s' old new : plain old -> plain new -> old <> [] -> new <> [] ->
  (forall r, is_excluded core (new ++ r) = false) -> clean core s ->
  is_Some (kv s old) -> closed s old -> kv s' (parent new) = Some KDir ->
  (forall r, s' (new ++ r) = s (old ++ r)) ->
  forall r, plain r -> kv s' (new ++ r) = kv s (old ++ r).
Proof.
  intros Hpo Hpn Ho Hn Hx Hc Hvis Hclosed Hpar Hmv r Hr. induction r as [|n r IH] using rev_ind.
  - rewrite !app_nil_r. destruct (path_snoc new Hn) as (q & m & ->). rewrite parent_snoc in Hpar.
    pose proof (Hx []) as Hx0. rewrite app_nil_r in Hx0. rewrite kv_snoc, Hx0, Hpar.
    simpl. unfold kcomp. specialize (Hmv []). rewrite !app_nil_r in Hmv. rewrite Hmv.
    destruct (Hclosed [] ltac:(constructor)) as [[[k b] Hs] _]; rewrite ?app_nil_r in *; [done|]. rewrite Hs.
    destruct Hvis as [k' Hk]. rewrite Hk. f_equal. destruct (path_snoc old Ho) as (qo & no & ->).
    apply kv_comp in Hk. unfold kcomp in Hk. rewrite Hs in Hk. congruence.
  - apply plain_snoc in Hr as [Hr Hnn]. specialize (IH Hr). rewrite !app_assoc, !kv_snoc, IH.
    assert (is_excluded core ((new ++ r) ++ [n]) = false) as -> by (rewrite <- app_assoc; apply Hx).
    destruct (is_kdir (kv s (old ++ r))) eqn:Ed; [|by destruct (is_excluded _ _)]. apply is_kdir_spec in Ed.
    unfold kcomp at 1. rewrite <- app_assoc, Hmv, app_assoc.
    destruct (s ((old ++ r) ++ [n])) as [[k b]|] eqn:Es.
    + destruct (is_excluded core ((old ++ r) ++ [n])) eqn:E; [by rewrite Hc in Es|]. unfold kcomp. by rewrite Es.
    + assert (opq s (old ++ r) = true) as Hopq by (apply Hclosed; [done|by rewrite Ed|done]).
      assert (opq s' (new ++ r) = true) as Hopq'.
      { unfold opq. rewrite <- app_assoc, !Hmv, app_assoc. exact Hopq. }
      unfold hides. rewrite Hopq', orb_true_r.
      destruct (is_excluded core ((old ++ r) ++ [n])); [done|]. unfold kcomp, hides. by rewrite Es, Hopq, orb_true_r.
Qed.

(** What is shown after the entries below [old], all of them in the upper
    directory, have moved to [new]. *)
Lemma kv_rename s s' old new : plain old -> plain new -> old <> [] -> new <> [] ->
  under old new = false -> under new old = false ->
  (forall r, is_excluded core (new ++ r) = false) -> neat s ->
  is_Some (kv s old) -> closed s old -> kv s (parent new) = Some KDir ->
  (forall r, s' (new ++ r) = s (old ++ r)) ->
  s' old = None -> is_Some (s' (whiteout_of old)) \/ lowk L old = None ->
  (forall p, under old p = false -> under new p = false -> p <> whiteout_of old -> p <> whiteout_of new -> s' p = s p) ->
  forall p, plain p -> kv s' p =
    if under new p then kv s (old ++ drop (length new) p) else if under old p then None else kv s p.
Proof.
  intros Hpo Hpn Ho Hn Hon Hno Hx [Ht Hc] Hvis Hclosed Hpar Hmv HoldN Hhid Hother p Hp.
  assert (forall p, plain p -> under old p = false -> under new p = false -> kv s' p = kv s p) as Hlocal.
  { intros p' Hp' H1 H2. apply (kv_local core L [old; new]); [by repeat constructor| |done|].
    - intros p0 H0. destruct (H0 old) as [? ?]; [set_solver|]. destruct (H0 new) as [? ?]; [set_solver|]. by apply Hother.
    - intros q Hq. apply elem_of_cons in Hq as [->|Hq]; [done|]. by apply list_elem_of_singleton in Hq as ->. }
  destruct (under new p) eqn:Enew.
  - apply under_spec in Enew as [r ->]. rewrite drop_app_length. apply plain_app in Hp as [_ Hr].
    apply (kv_transplant s s' old new); try done. destruct (path_snoc new Hn) as (q & m & ->). rewrite parent_snoc in *.
    rewrite Hlocal; [done|by apply plain_snoc in Hpn as [? _]| |apply under_snoc_self].
    destruct (under old q) eqn:E; [|done]. by rewrite under_snoc_weaken in Hon.
  - destruct (under old p) eqn:Eold; [|by apply Hlocal].
    apply under_spec in Eold as [r ->]. destruct (kv s' (old ++ r)) eqn:E; [|done].
    assert (is_Some (kv s' old)) as Hv by (eapply kv_above; by rewrite E).
    destruct (path_snoc old Ho) as (q & m & ->). pose proof Hv as [Hd Hxo]%kv_parent.
    rewrite kv_snoc, Hxo, Hd in Hv. simpl in Hv. unfold kcomp, hides in Hv. rewrite HoldN in Hv. rewrite whiteout_of_snoc in Hhid.
    destruct Hhid as [Hwh|Hlow].
    + rewrite bool_decide_true in Hv by done. by destruct Hv.
    + rewrite Hlow in Hv. destruct (_ || _); by destruct Hv.
Qed.

(** ** [rename] *)

Definition Renamed old new s s' : Prop :=
  (forall p, plain p -> kv s' p = if under new p then kv s (old ++ drop (length new) p)
                                  else if under old p then None else kv s p)
  /\ (neat s -> neat s').

Lemma closed_keeps s s' q : plain q -> keeps core L s s' -> closed s q -> closed s' q.
Proof.
  intros Hq Hk Hc r Hr. destruct (keeps_mono s s' Hk) as [Hm1 Hm2]. rewrite (proj1 Hk) by by apply plain_app.
  intros Hv. destruct (Hc r Hr Hv) as [Ha Hb]. split; [by rewrite Hm1|auto].
Qed.

Lemma under_two p q x : under p x = true -> under q x = true -> under p q = true \/ under q p = true.
Proof. intros Hp Hq. apply (subtree_both (Upper, p) (Upper, q) (Upper, x)); done. Qed.

Lemma under_below p q r : under p q = false -> under q p = false -> under p (q ++ r) = false.
Proof.
  intros H1 H2. destruct (under p (q ++ r)) eqn:E; [|done]. destruct (under_two p q (q ++ r) E (under_app q r)); congruence.
Qed.

(** A path is not above another's whiteout. *)
Lemma under_whiteout p q : plain p -> q <> [] -> under p q = false -> under p (whiteout_of q) = false.
Proof.
  intros Hp Hq Hu. destruct (path_snoc q Hq) as (q' & n & ->). rewrite whiteout_of_snoc.
  destruct (under p (q' ++ [WHITEOUT_PREFIX +:+ n])) eqn:E; [|done].
  apply under_marker in E; [|done|apply whiteout_not_plain]. by rewrite under_snoc_weaken in Hu.
Qed.

(** The summaries along a rename: after the parents of [new] are there ([s2]),
    without the whiteout of [new] and with that of [old] ([s4]), with the
    destination aside ([s5]). *)
Lemma move_shape s s2 s4 s5 old new : plain old -> plain new -> old <> [] -> new <> [] ->
  under old new = false -> under new old = false ->
  is_excluded core old = false -> (forall r, is_excluded core (new ++ r) = false) ->
  (forall p, plain p -> kv s2 p = kv s p) -> neat s2 ->
  is_Some (kv s old) -> closed s2 old -> kv s2 (parent new) = Some KDir ->
  s4 = upd s2 (whiteout_of new) None \/ s4 = mark (upd s2 (whiteout_of new) None) (whiteout_of old) ->
  is_Some (s4 (whiteout_of old)) \/ lowk L old = None ->
  (forall p, under new p = false -> s5 p = s4 p) ->
  Renamed old new s (mv old new s5).
Proof.
  intros Hpo Hpn Ho Hn Hon Hno Hxo Hxn Hkv Hneat Hvis Hclosed Hpar Hs4 Hhid Hs5.
  assert (forall p, p <> whiteout_of old -> p <> whiteout_of new -> s4 p = s2 p) as Hs42.
  { intros p H1 H2. destruct Hs4 as [->| ->]; [by apply upd_ne|]. rewrite mark_other by done. by apply upd_ne. }
  assert (whiteout_of old <> whiteout_of new) as Hwne.
  { destruct (path_snoc old Ho) as (q1 & n1 & ->), (path_snoc new Hn) as (q2 & n2 & ->). rewrite !whiteout_of_snoc.
    intros [-> E%str_app_inj_l]%app_inj_tail. subst n2. by rewrite under_refl in Hon. }
  assert (s4 (whiteout_of new) = None) as Hwn.
  { destruct Hs4 as [->| ->]; [apply upd_eq|]. rewrite mark_other by done. apply upd_eq. }
  assert (forall x y, plain x -> y <> [] -> under x y = false -> forall r, x ++ r <> whiteout_of y) as Hnowh.
  { intros x y Hx Hy Hxy r E. pose proof (under_whiteout x y Hx Hy Hxy) as Hu. rewrite <- E, under_app in Hu. done. }
  assert (forall r, old ++ r <> whiteout_of old) as Howh.
  { intros r E. destruct (path_snoc old Ho) as (q1 & n1 & ->). rewrite whiteout_of_snoc, <- app_assoc in E.
    apply app_inv_head in E. destruct r; [|by apply (f_equal length) in E]. injection E as E.
    apply plain_snoc in Hpo as [_ Hpo]. rewrite E, whiteout_not_plain in Hpo. done. }
  assert (forall r, mv old new s5 (new ++ r) = s2 (old ++ r)) as Hmv.
  { intros r. rewrite mv_new, Hs5 by by apply under_below. apply Hs42; [apply Howh|by apply Hnowh]. }
  assert (forall p, under old p = false -> under new p = false -> mv old new s5 p = s4 p) as Hout.
  { intros p H1 H2. unfold mv. rewrite H2, H1. by apply Hs5. }
  assert (under old (whiteout_of old) = false) as Huo.
  { destruct (under old (whiteout_of old)) eqn:E; [|done]. apply under_spec in E as [r E]. by destruct (Howh r). }
  split.
  - intros p Hp. rewrite (kv_rename s2 (mv old new s5) old new); try done.
    + destruct (under new p) eqn:E; [|destruct (under old p); [done|by apply Hkv]]. apply under_spec in E as [r ->].
      rewrite drop_app_length. apply Hkv. apply plain_app in Hp as [_ Hr]. by apply plain_app.
    + by rewrite Hkv.
    + unfold mv. by rewrite Hno, under_refl.
    + rewrite Hout; [done|done|]. by apply under_whiteout.
    + intros p0 H1 H2 H3 H4. rewrite Hout by done. by apply Hs42.
  - intros _. destruct Hneat as [Ht Hc]. split.
    + intros p n Hnn Hsome. destruct (under new (p ++ [n])) eqn:En.
      * apply under_spec in En as [r Hr]. destruct r as [|m r _] using rev_ind.
        { rewrite app_nil_r in Hr. subst new. replace (p ++ [WHITEOUT_PREFIX +:+ n]) with (whiteout_of (p ++ [n])) by by rewrite whiteout_of_snoc.
          rewrite Hout; [done|by apply under_whiteout|]. 
          destruct (under (p ++ [n]) (whiteout_of (p ++ [n]))) eqn:E; [|done]. rewrite whiteout_of_snoc in E.
          apply under_marker in E; [|done|apply whiteout_not_plain]. by rewrite under_snoc_self in E. }
        rewrite app_assoc in Hr. apply app_inj_tail in Hr as [-> ->]. rewrite <- app_assoc, Hmv in Hsome |- *.
        rewrite app_assoc in Hsome |- *. by apply Ht.
      * destruct (under old (p ++ [n])) eqn:Eo; [unfold mv in Hsome; rewrite En, Eo in Hsome; by destruct Hsome|].
        assert (forall q, plain q -> under q (p ++ [n]) = false -> under q (p ++ [WHITEOUT_PREFIX +:+ n]) = false) as Hwh.
        { intros q Hq Hu. destruct (under q (p ++ [WHITEOUT_PREFIX +:+ n])) eqn:E; [|done].
          apply under_marker in E; [|done|apply whiteout_not_plain]. by rewrite under_snoc_weaken in Hu. }
        rewrite Hout in Hsome |- * by auto.
        assert (forall q, q <> [] -> p ++ [n] <> whiteout_of q) as Hpw.
        { intros q Hq E. destruct (path_snoc q Hq) as (q' & m & ->). rewrite whiteout_of_snoc in E. apply app_inj_tail in E as [_ ->].
          by rewrite whiteout_not_plain in Hnn. }
        rewrite Hs42 in Hsome by auto.
        assert (forall q, q <> [] -> p ++ [WHITEOUT_PREFIX +:+ n] = whiteout_of q -> p ++ [n] = q) as Hpq.
        { intros q Hq E. destruct (path_snoc q Hq) as (q' & m & ->). rewrite whiteout_of_snoc in E.
          by apply app_inj_tail in E as [-> ->%str_app_inj_l]. }
        destruct (decide (p ++ [WHITEOUT_PREFIX +:+ n] = whiteout_of new)) as [->|E1]; [done|].
        rewrite Hs42; [by apply Ht| |done]. intros E2. apply Hpq in E2; [|done]. subst old. by rewrite under_refl in Eo.
    + intros p Hxp. unfold mv. destruct (under new p) eqn:En; [apply under_spec in En as [r ->]; by rewrite Hxn in Hxp|].
      destruct (under old p) eqn:Eo; [done|]. rewrite Hs5 by done.
      destruct (decide (p = whiteout_of new)) as [->|]; [done|]. rewrite Hs42; [by apply Hc| |done]. intros ->.
      destruct (path_snoc old Ho) as (q & m & ->). rewrite whiteout_of_snoc, excluded_marker in Hxp by (done || apply whiteout_not_plain).
      by rewrite (is_excluded_snoc core q m Hxp) in Hxo.
Qed.

Lemma Is_above s w p r : Is s w -> is_Some (s (p ++ r)) -> is_Some (s p).
Proof.
  intros HI Hs. destruct (s p) eqn:E; [done|]. rewrite (Is_below pid L s w p r HI E) in Hs. by destruct Hs.
Qed.

(** A whiteout next to an entry that is there. *)
Lemma whiteout_present_triple s q : plain q -> q <> [] -> is_Some (s q) ->
  triple (Is s) (create_whiteout other beyond uid gid umask sha256_hex core q)
    (fun _ => Is (mark s (whiteout_of q))) Any Any.
Proof.
  intros Hp Hne Hs. destruct (path_snoc q Hne) as (q' & m & ->). unfold create_whiteout.
  apply (triple_extract (forall p, under p q' = true -> is_Some (s p))).
  { intros w HI p [r ->]%under_spec. eapply (Is_above s w p (r ++ [m])); [done|]. by rewrite app_assoc. }
  intros Hup. eapply (triple_bind _ _ _ (fun _ w => (exists b, s q' = Some (KDir, b)) /\ Is s w)).
  { eapply triple_post; [by apply ensure_upper_parents_triple| |intros w; apply Parents_Any|intros w; apply Parents_Any].
    intros ? w (s' & HI & [Hk Hab] & b & Hb). rewrite parent_snoc in Hb, Hab.
    assert (forall p, s' p = s p) as Hsame.
    { intros p. destruct (under p q') eqn:E; [|by apply Hab]. apply (proj1 (keeps_mono s s' Hk)). auto. }
    rewrite Hsame in Hb. split; [eauto|]. eapply Is_ext; [exact HI|]. intros p. by rewrite Hsame. }
  intros ?. apply triple_fact. intros [b Hb]. rewrite file_name_snoc, parent_snoc, whiteout_of_snoc.
  eapply (triple_bind _ _ _ (fun n w => n = m /\ Is s w)); [by apply triple_ret|intros n]. apply triple_fact. intros ->.
  eapply triple_post; [by apply (create_marker_triple _ _ _ _ _ _ _ others_quiet s q' b)|done|intros w []; eauto|intros w []; eauto].
Qed.

(** What the checks on the destination establish. *)
Lemma validate_replacement_spec s w old new no_replace replaced : Is s w -> neat s -> plain old -> plain new -> new <> [] ->
  is_excluded core new = false ->
  validate_replacement beyond core old new no_replace w = Ok replaced ->
  (kv s new = Some KDir -> kv s old = Some KDir /\ forall n, plain_name n = true -> kv s (new ++ [n]) = None)
  /\ match replaced with None => s new = None | Some d => d = new end.
Proof.
  intros HI Hneat Hpo Hpn Hne Hx H. unfold validate_replacement in H.
  assert (s new = None \/ exists k b, s new = Some (k, b) /\ kv s new = Some k) as Hs.
  { destruct (s new) as [[k b]|] eqn:E; [right|by left]. exists k, b. split; [done|].
    eapply kv_upper; [intros q n; by eapply Is_up|done| |done]. intros ->. done. }
  destruct (resolve beyond core w new) as [dst|] eqn:Er.
  2: { injection H as <-. assert (kv s new = None) as HN.
       { destruct (kv s new) eqn:E; [|done]. assert (is_Some (resolve beyond core w new)) as [? ?]; [|congruence].
         apply (resolve_kv beyond pid core L s w new HI Hpn). by rewrite E. }
       split; [by rewrite HN|]. destruct Hs as [?|(k & b & _ & ?)]; [done|congruence]. }
  destruct no_replace; [done|].
  pose proof (metadata_kv s w old HI Hpo) as Hmo. destruct (metadata beyond core w old) as [so|]; [|done]. simpl in H.
  pose proof (Is_view beyond pid core L s w new HI Hpn) as Hvn. unfold view in Hvn. rewrite Er in Hvn.
  destruct (loc_node beyond w (rs_path dst)) as [dm|]; [|done]. simpl in H, Hvn. symmetry in Hvn.
  assert (match if is_upper dst then Some new else None with None => s new = None | Some d => d = new end) as Hrep.
  { destruct (is_upper dst) eqn:Eu; [done|]. destruct (exists_at beyond w (Upper, new)) eqn:Ee.
    - destruct (path_snoc new Hne) as (q & m & ->). rewrite resolve_snoc in Er by done.
      destruct (is_excluded _ _); [done|]. destruct (walk _ _ _); [|done]. unfold resolve_component in Er. rewrite Ee in Er. by injection Er as <-.
    - destruct (resolved_shown beyond pid core L s w new dst HI Hpn Ee Er) as (_ & _ & i & st & _ & _ & _ & HN). done. }
  unfold node_is_dir in H. destruct (kind_is_dir (n_kind so)) eqn:Eo, (kind_is_dir (n_kind dm)) eqn:En; try done.
  - assert (Forall LayerLaws (w_lowers w)) as Hlaws by (destruct HI as (_ & -> & _); done).
    pose proof (list_names_spec beyond core w new (proj1 HI) (proj1 (tidy_unshadowed pid L s w HI) (proj1 Hneat)) Hlaws Hpn) as Hl.
    destruct (list_names beyond core w new) as [names|]; [|done]. simpl in H. case_bool_decide as Hnil; [|done]. injection H as <-.
    split; [|done]. intros _. split; [rewrite Hmo; by destruct (n_kind so)|]. intros n Hn.
    destruct Hl as (_ & _ & Hl). destruct (kv s (new ++ [n])) eqn:Ek; [|done]. exfalso.
    assert (n ∈ names) as Hin; [|rewrite Hnil in Hin; by apply elem_of_nil in Hin]. apply Hl. split; [done|].
    rewrite <- (Is_view beyond pid core L s w) in Ek by (done || by apply plain_snoc).
    destruct (view beyond core w (new ++ [n])); [by eexists|done].
  - injection H as <-. split; [|done]. rewrite Hvn. intros [= Hd]. by rewrite Hd in En.
Qed.

(** *** Committing *)

Lemma any_rename_triple src dst : src <> (Upper, []) -> dst <> (Upper, []) -> fst dst = Upper ->
  triple Any (fs_rename other src dst) (fun _ => Any) Any Any.
Proof.
  intros Hsrc Hdst Hu. apply triple_sys; [done|done|done|]. intros w (s & HI). destruct (rename_entry src dst w) as [r w'] eqn:E.
  eapply rename_spec in E; [|apply HI|done|done]. destruct r as [?|?]; [|subst; eauto].
  destruct E as (Hw' & (HL' & _ & _ & Ht') & _ & [[_ ->]|(_ & _ & _ & Hn)]); [eauto|].
  destruct HI as (Hw & HL & Hs & Ht). assert (Any w'); [|done]. exists (usum w'). split; [done|]. split; [congruence|]. split; [done|].
  intros id Hid. rewrite Ht'. apply Ht. rewrite Hn in Hid. unfold moved in Hid. destruct dst as [area q]. simpl in Hu. subst area.
  destruct (subtree (Upper, q) (Work, [temp_name pid id])) eqn:E; [by apply subtree_pair in E as [? _]|].
  destruct (subtree src _); [by destruct Hid|done].
Qed.

Lemma any_clear_triple q : q <> [] -> triple Any (clear_whiteout other core q) (fun _ => Any) Any Any.
Proof.
  intros Hq. apply triple_exists. intros s. eapply triple_post; [by apply clear_whiteout_triple|intros ? w; apply Is_Any|done|done].
Qed.

Lemma remove_physical_work s f : fst f = Work -> triple (Is s) (remove_physical other beyond f) (fun _ => Is s) (Is s) (Is s).
Proof.
  intros Hf. unfold remove_physical. eapply triple_bind; [by apply (triple_ask _ _ (fun _ => Is s))|intros o]. cbn beta.
  eapply triple_bind; [by apply (triple_lift _ _ (fun _ => Is s))|intros n]. cbn beta.
  destruct (node_is_dir n); [by apply remove_dir_all_work|by apply remove_file_work].
Qed.

Lemma Is_links s f w : Is s w -> Is s (set_links f w).
Proof. intros (Hw & Hrest). split; [|done]. by destruct Hw; constructor. Qed.

Definition backup_ok new (backup : option (FPath * FPath)) : Prop :=
  match backup with Some (d, b) => d = (Upper, new) /\ fst b = Work | None => True end.

Lemma rename_into_place_triple s old new needs backup : old <> [] -> new <> [] -> s new = None -> backup_ok new backup ->
  triple (Is s) (rename_into_place other beyond core old new (Upper, old) needs backup)
    (fun _ => Is (mv old new s)) Any Any.
Proof.
  intros Ho Hn HN Hb. unfold rename_into_place.
  eapply (triple_bind _ _ _ (fun r w => match r with Ok _ => Is (mv old new s) w | Err _ => Any w end)).
  { eapply (triple_attempt _ _ _ _ _ Any); [|done]. apply triple_sys; [done|eauto|eauto|]. intros w HI.
    destruct (rename_entry _ _ w) as [r w'] eqn:E. eapply rename_upper in E; [|exact HI|done|done|done].
    destruct r as [?|?]; [destruct E as [E _]; eauto|subst; eauto]. }
  intros [?|e].
  - eapply (triple_bind _ _ _ (fun _ => Is (mv old new s))); [|intros ?; apply triple_modify; intros w; apply Is_links].
    destruct backup as [[d b]|]; [|by apply triple_ret]. destruct Hb as [_ Hb].
    apply triple_ignore. eapply triple_post; [by apply remove_physical_work|done|done|eauto].
  - eapply (triple_bind _ _ _ (fun _ => Any)).
    { destruct backup as [[d b]|]; [|by apply triple_ret]. destruct Hb as [-> Hb].
      apply triple_ignore. apply any_rename_triple; [|congruence|done]. intros ->. done. }
    intros ?. eapply (triple_bind _ _ _ (fun _ => Any)); [|intros ?; by apply triple_throw].
    destruct needs; [|by apply triple_ret]. apply triple_ignore. by apply any_clear_triple.
Qed.

Lemma temporary_path_triple s q : 
  triple (Is s) (temporary_path (O:=O) pid core q)
    (fun f w => exists id, f = (Work, [temp_name pid id]) /\ Is s w /\ (id < w_temp w)%Z /\ node_at w (Work, [temp_name pid id]) = None)
    Any Any.
Proof.
  unfold temporary_path. rewrite has_work. eapply triple_bind; [apply triple_ask_eq|intros id]. cbn beta.
  eapply (triple_bind _ _ _ (fun _ w => Is s w /\ (id < w_temp w)%Z /\ node_at w (Work, [temp_name pid id]) = None));
    [|intros ?; apply triple_ret; eauto].
  apply triple_modify. intros w [(Hw & HL & Hs & Ht) ->].
  assert (node_at w (Work, [temp_name pid (w_temp w)]) = None) as HN.
  { destruct (node_at w _) eqn:E; [|done]. specialize (Ht (w_temp w) ltac:(by rewrite E)). lia. }
  destruct Hw. split; [|simpl; split; [lia|done]].
  split; [by constructor|]. split; [done|]. split; [done|]. intros id' Hid'. simpl. specialize (Ht id' Hid'). lia.
Qed.

(** The last part of [rename]: the destination aside, the source in place. *)
Lemma rename_commit_triple s4 old new needs replaced : old <> [] -> new <> [] ->
  match replaced with None => s4 new = None | Some d => d = new end ->
  triple (Is s4)
    (match replaced with
     | None => rename_into_place other beyond core old new (Upper, old) needs None
     | Some destination =>
         let! backup := temporary_path pid core [] in
         let! aside := attempt (fs_rename other (Upper, destination) backup) in
         match aside with
         | Err e => (if (needs : bool) then ignore (clear_whiteout other core old) else ret tt) ;; throw e
         | Ok _ => rename_into_place other beyond core old new (Upper, old) needs (Some ((Upper, destination), backup))
         end
     end)
    (fun _ w => exists s5, (forall p, under new p = false -> s5 p = s4 p) /\ Is (mv old new s5) w) Any Any.
Proof.
  intros Ho Hn Hr. destruct replaced as [d|].
  - subst d. eapply triple_bind; [apply temporary_path_triple|intros backup].
    apply triple_exists. intros id. apply triple_fact. intros ->.
    eapply (triple_bind _ _ _ (fun r w => match r with Ok _ => Is (cut new s4) w | Err _ => Any w end)).
    { eapply (triple_attempt _ _ _ _ _ Any); [|done]. apply triple_sys; [done|naive_solver eauto|naive_solver eauto|].
      intros w (HI & Hid & HN). destruct (rename_entry _ _ w) as [r w'] eqn:E.
      eapply rename_aside in E; [|exact HI|done|done|done]. destruct r as [?|?]; [eauto|subst; eauto]. }
    intros [?|e].
    + eapply triple_post; [apply rename_into_place_triple; [done|done| |done]| |done|done].
      * unfold cut. by rewrite under_refl.
      * intros ? w HI. exists (cut new s4). split; [|done]. intros p Hp. unfold cut. by rewrite Hp.
    + eapply (triple_bind _ _ _ (fun _ => Any)); [|intros ?; by apply triple_throw].
      destruct needs; [|by apply triple_ret]. apply triple_ignore. by apply any_clear_triple.
  - eapply triple_post; [by apply rename_into_place_triple| |done|done]. intros ? w HI. by exists s4.
Qed.

Lemma source_triple s q k : plain q -> neat s -> kv s q = Some k ->
  triple (Is s)
    (if kind_is_dir k then materialize_tree other beyond uid gid umask pid sha256_hex core q
     else copy_up other beyond uid gid umask pid sha256_hex core q)
    (Materialized s q) Any Any.
Proof.
  intros Hq Hneat Hk. destruct (kind_is_dir k) eqn:Ek.
  - eapply triple_bind; [by apply (triple_ask _ _ (fun _ => Is s))|intros h]. by apply materialize_triple.
  - apply copy_leaf_triple; [done|by rewrite Hk|]. rewrite Hk. by intros [= ->].
Qed.

(** Before the commit: the source is in the upper directory, the parents of the
    destination too, and the whiteouts are exchanged. *)
Definition Staged s old new s4 : Prop := exists s2,
  (forall p, plain p -> kv s2 p = kv s p) /\ neat s2 /\ closed s2 old /\ kv s2 (parent new) = Some KDir
  /\ (forall p, under old p = false -> under p old = false -> under p (parent new) = false -> s2 p = s p)
  /\ (s4 = upd s2 (whiteout_of new) None \/ s4 = mark (upd s2 (whiteout_of new) None) (whiteout_of old))
  /\ (is_Some (s4 (whiteout_of old)) \/ lowk L old = None).

Lemma move_stage_triple s k old new : plain old -> plain new -> old <> [] -> new <> [] -> neat s ->
  is_excluded core old = false -> is_excluded core new = false -> kv s old = Some k ->
  triple (Is s)
    (let! source := (if kind_is_dir k then materialize_tree other beyond uid gid umask pid sha256_hex core old
                     else copy_up other beyond uid gid umask pid sha256_hex core old) in
     ensure_upper_parents other beyond uid gid umask sha256_hex core new ;;
     clear_whiteout other core new ;;
     let! needs := ask (fun w => exists_in_lower core w old) in
     (if (needs : bool) then create_whiteout other beyond uid gid umask sha256_hex core old else ret tt) ;;
     ret (source, needs))
    (fun sn w => fst sn = (Upper, old) /\ exists s4, Staged s old new s4 /\ Is s4 w) Any Any.
Proof.
  intros Hpo Hpn Ho Hn Hneat Hxo Hxn Hk.
  eapply triple_bind; [by apply source_triple|intros source]. apply triple_fact. intros ->.
  apply triple_exists. intros s1.
  apply (triple_pre _ (fun w => (Ext old s s1 /\ closed s1 old) /\ Is s1 w)); [naive_solver|].
  apply triple_fact. intros [He Hclosed]. pose proof He as (Hkv1 & Hm1 & _ & Hneat1 & Hout1). specialize (Hneat1 Hneat).
  assert (is_Some (s1 old)) as Hs1.
  { destruct (Hclosed []) as [H _]; rewrite ?app_nil_r in *; [constructor|by rewrite Hkv1, Hk|done]. }
  pose proof (prepare_parents_triple other beyond uid gid umask pid sha256_hex core L others_quiet lowers_copyable s1 new Hpn Hn Hxn) as Hpar.
  intros envs w HI. specialize (Hpar envs w HI). unfold bind at 1. unfold bind at 1 in Hpar.
  destruct (ensure_upper_parents _ _ _ _ _ _ _ _ envs w) as [[|[?|?] rest] w1]; try done. unfold bind at 1.
  destruct (clear_whiteout _ _ _ rest w1) as [[|[?|?] rest'] w2]; try done.
  destruct Hpar as (s3 & (s2 & [Hkeep Hab] & -> & Hparent) & HI3). clear HI w w1.
  assert (closed s2 old) as Hclosed2 by by eapply closed_keeps.
  assert (is_Some (s2 old)) as Hs2 by by rewrite (proj1 (keeps_mono s1 s2 Hkeep)).
  assert (upd s2 (whiteout_of new) None old = s2 old) as Hold.
  { apply upd_ne. intros E. apply (whiteout_of_not_plain new Hn). by rewrite <- E. }
  assert (forall s4, (s4 = upd s2 (whiteout_of new) None \/ s4 = mark (upd s2 (whiteout_of new) None) (whiteout_of old)) ->
    (is_Some (s4 (whiteout_of old)) \/ lowk L old = None) -> Staged s old new s4) as HS.
  { intros s4 H4 Hh. exists s2. split_and!; try done.
    - intros p Hp. by rewrite (proj1 Hkeep), Hkv1.
    - by eapply neat_keeps.
    - intros p H1 H2 H3. rewrite Hab by done. by apply Hout1. }
  revert rest' w2 HI3. change (triple (Is (upd s2 (whiteout_of new) None))
    (let! needs := ask (fun w => exists_in_lower core w old) in
     (if (needs : bool) then create_whiteout other beyond uid gid umask sha256_hex core old else ret tt) ;;
     ret ((Upper, old), needs))
    (fun sn w => fst sn = (Upper, old) /\ exists s4, Staged s old new s4 /\ Is s4 w) Any Any).
  eapply triple_bind; [apply triple_ask_eq|intros needs]. cbn beta.
  apply (triple_pre _ (fun w => needs = bool_decide (is_Some (lowk L old)) /\ Is (upd s2 (whiteout_of new) None) w)).
  { intros w [HI ->]. split; [|done]. apply exists_in_lower_lowk; [done|done|apply HI]. }
  apply triple_fact. intros ->. case_bool_decide as Hlow.
  - eapply triple_bind; [apply whiteout_present_triple; [done|done|by rewrite Hold]|intros ?].
    apply triple_ret. intros w HI. split; [done|]. eexists. split; [|exact HI]. apply HS; [by right|]. left. apply mark_here.
  - eapply triple_bind; [by apply (triple_ret _ _ (fun _ => Is (upd s2 (whiteout_of new) None)))|intros ?].
    apply triple_ret. intros w HI. split; [done|]. eexists. split; [|exact HI]. apply HS; [by left|]. right. by apply eq_None_not_Some.
Qed.

Lemma triple_equiv {A} P (m m' : Fs A) Q F C : (forall envs w, m envs w = m' envs w) -> triple P m' Q F C -> triple P m Q F C.
Proof. intros He H envs w Hw. rewrite He. by apply H. Qed.

Lemma bind_stage {A B D} (m1 : Fs A) (m2 m3 : Fs unit) (f : World -> B) (m4 : B -> Fs unit) (k : A -> B -> Fs D) envs w :
  (let! a := m1 in m2 ;; m3 ;; let! b := ask f in m4 b ;; k a b) envs w
  = (let! ab := (let! a := m1 in m2 ;; m3 ;; let! b := ask f in m4 b ;; ret (a, b)) in k (fst ab) (snd ab)) envs w.
Proof.
  unfold bind. destruct (m1 envs w) as [[|[a|] r1] w1]; try done. destruct (m2 r1 w1) as [[|[?|] r2] w2]; try done.
  destruct (m3 r2 w2) as [[|[?|] r3] w3]; try done. simpl. by destruct (m4 (f w3) r3 w3) as [[|[?|] r4] w4].
Qed.

(** Staging, then committing. *)
Definition commit_rename old new (replaced : option Path) (source : FPath) (needs : bool) : Fs unit :=
  match replaced with
  | None => rename_into_place other beyond core old new source needs None
  | Some destination =>
      let! backup := temporary_path pid core [] in
      let! aside := attempt (fs_rename other (Upper, destination) backup) in
      match aside with
      | Err e => (if needs then ignore (clear_whiteout other core old) else ret tt) ;; throw e
      | Ok _ => rename_into_place other beyond core old new source needs (Some ((Upper, destination), backup))
      end
  end.

Lemma staged_commit_triple s k old new replaced : plain old -> plain new -> old <> [] -> new <> [] -> old <> new -> neat s ->
  is_excluded core old = false -> (forall r, is_excluded core (new ++ r) = false) -> kv s old = Some k ->
  (kind_is_dir k = true -> under old new = false) ->
  (kv s new = Some KDir -> kv s old = Some KDir /\ forall n, plain_name n = true -> kv s (new ++ [n]) = None) ->
  match replaced with None => s new = None | Some d => d = new end ->
  forall s4, Staged s old new s4 -> forall needs,
  triple (Is s4) (commit_rename old new replaced (Upper, old) needs)
    (fun _ w => exists s', Is s' w /\ Renamed old new s s') Any Any.
Proof.
  intros Hpo Hpn Ho Hn Hne Hneat Hxo Hxn Hk Hsub Hdst Hrep s4 (s2 & Hkv & Hneat2 & Hclosed & Hpar & Hout & H4 & Hhid) needs.
  assert (under new old = false) as Hno.
  { destruct (under new old) eqn:E; [|done]. apply under_spec in E as [[|n r] Hr]; [by rewrite app_nil_r in Hr|].
    assert (kv s new = Some KDir) as Hd by (apply (kv_above_dir core L s new (n :: r)); [done|by rewrite <- Hr, Hk]).
    destruct (Hdst Hd) as [_ Hempty]. assert (is_Some (kv s (new ++ [n]))) as [? Hs].
    { eapply kv_above. rewrite <- app_assoc. simpl. rewrite <- Hr, Hk. by eexists. }
    rewrite Hempty in Hs; [done|]. rewrite Hr in Hpo. apply plain_app in Hpo as [_ Hpo]. by apply Forall_cons in Hpo as [? _]. }
  assert (under old new = false) as Hon.
  { destruct (under old new) eqn:E; [|done]. destruct (path_snoc new Hn) as (q & m & ->). rewrite parent_snoc in Hpar.
    apply under_snoc in E as [->|E]; [done|]. apply under_spec in E as [r ->].
    assert (kv s2 old = Some KDir) as Hd.
    { destruct r as [|x r]; [by rewrite app_nil_r in Hpar|]. apply (kv_above_dir core L s2 old (x :: r)); [done|by rewrite Hpar]. }
    rewrite Hkv, Hk in Hd by done. injection Hd as ->. by specialize (Hsub eq_refl). }
  assert (match replaced with None => s4 new = None | Some d => d = new end) as Hrep4.
  { destruct replaced; [done|]. assert (new <> whiteout_of old) as H1 by (intros E; apply (whiteout_of_not_plain old Ho); by rewrite <- E).
    assert (new <> whiteout_of new) as H2 by (intros E; apply (whiteout_of_not_plain new Hn); by rewrite <- E).
    assert (s4 new = s2 new) as ->.
    { destruct H4 as [->| ->]; [by apply upd_ne|]. rewrite mark_other by done. by apply upd_ne. }
    rewrite Hout; [done|done|done|]. destruct (under new (parent new)) eqn:E; [|done]. by apply under_parent in E as [_ ?]. }
  eapply triple_post; [by apply rename_commit_triple| |done|done]. intros ? w (s5 & H5 & HI). eexists. split; [exact HI|].
  eapply (move_shape s s2 s4 s5); eauto.
Qed.

Lemma rename_triple s old new no_replace : plain old -> plain new -> old <> [] -> new <> [] -> neat s ->
  (forall r, is_excluded core (new ++ r) = false) ->
  triple (Is s) (rename other beyond uid gid umask pid sha256_hex core old new no_replace)
    (fun _ w => exists s', Is s' w /\ Renamed old new s s') Any Any.
Proof.
  intros Hpo Hpn Ho Hn Hneat Hxn. unfold rename.
  eapply triple_bind; [apply triple_lift_eq; eauto|intros a]. cbn beta.
  eapply triple_bind; [apply triple_lift_eq; intros w []; eauto|intros a']. cbn beta.
  apply (triple_pre _ (fun w => is_excluded core old = false /\ Is s w)).
  { intros w [[HI Ha] _]. split; [|done]. by apply require_visible_ok in Ha. }
  apply triple_fact. intros Hxo. case_bool_decide as Heq.
  { subst new. apply triple_ret. intros w HI. exists s. split; [done|]. split; [|done]. intros p Hp.
    destruct (under old p) eqn:E; [|done]. apply under_spec in E as [r ->]. by rewrite drop_app_length. }
  eapply triple_bind; [apply triple_ask_eq|intros meta]. cbn beta.
  eapply triple_bind; [apply triple_lift_eq; intros w []; eauto|intros nd]. cbn beta.
  apply (triple_pre _ (fun w => kv s old = Some (n_kind nd) /\ Is s w)).
  { intros w [[HI ->] Hnd]. split; [|done]. pose proof (metadata_kv s w old HI Hpo) as Hm. by rewrite Hnd in Hm. }
  apply triple_fact. intros Hk. unfold node_is_dir. set (k := n_kind nd) in *.
  destruct (kind_is_dir k && under old new) eqn:Esub; [apply triple_throw; eauto|].
  eapply triple_bind; [apply triple_ask_eq|intros o]. cbn beta.
  eapply triple_bind; [apply triple_lift_eq; intros w []; eauto|intros replaced]. cbn beta.
  assert (is_excluded core new = false) as Hxn0 by (specialize (Hxn []); by rewrite app_nil_r in Hxn).
  apply (triple_pre _ (fun w => ((kv s new = Some KDir -> kv s old = Some KDir /\ forall n, plain_name n = true -> kv s (new ++ [n]) = None)
    /\ match replaced with None => s new = None | Some d => d = new end) /\ Is s w)).
  { intros w [[HI ->] Hr]. split; [|done]. by eapply validate_replacement_spec. }
  apply triple_fact. intros [Hdst Hrep].
  assert (journal_stable (Is s)) as HJ by (intros f w; apply Is_journal).
  eapply (triple_bind _ _ _ (fun _ => Is s)); [eapply triple_post; [by apply record_mapping_keeps|done|eauto|eauto]|intros ?].
  eapply (triple_bind _ _ _ (fun _ => Is s)); [eapply triple_post; [by apply record_mapping_keeps|done|eauto|eauto]|intros ?].
  eapply (triple_equiv _ _ (let! sn :=
     (let! source := (if kind_is_dir k then materialize_tree other beyond uid gid umask pid sha256_hex core old
                      else copy_up other beyond uid gid umask pid sha256_hex core old) in
      ensure_upper_parents other beyond uid gid umask sha256_hex core new ;;
      clear_whiteout other core new ;;
      let! needs := ask (fun w => exists_in_lower core w old) in
      (if (needs : bool) then create_whiteout other beyond uid gid umask sha256_hex core old else ret tt) ;;
      ret (source, needs)) in
     commit_rename old new replaced (fst sn) (snd sn))).
  { intros envs w. apply (bind_stage _ _ _ _ (fun needs : bool => if needs then _ else _)). }
  eapply triple_bind; [by apply move_stage_triple|intros [source needs]]. cbn [fst snd].
  apply triple_fact. intros ->. apply triple_exists. intros s4. apply triple_fact. intros Hst.
  eapply staged_commit_triple; eauto. intros Hd. by rewrite Hd in Esub.
Qed.

(** ** [hard_link] *)

Lemma link_upper s source dest w res w' : Is s w -> dest <> [] -> link (Upper, source) (Upper, dest) w = (res, w') ->
  match res with
  | Ok _ => s dest = None /\ Is (upd s dest (s source)) w'
  | Err _ => w' = w
  end.
Proof.
  intros (Hw & HL & Hs & Ht) Hd H. eapply link_spec in H; [|done]. destruct res as [?|?]; [|done].
  destruct H as (Hw' & (HL' & _ & _ & Ht') & HN & nd & Hnd & Hdir & Hn).
  split; [rewrite <- Hs; unfold usum; by rewrite HN|]. split; [done|]. split; [congruence|]. split.
  - intros p. unfold usum, upd. rewrite Hn. destruct (decide (p = dest)) as [->|].
    + rewrite decide_True by done. rewrite <- Hs. unfold usum. by rewrite Hnd.
    + rewrite decide_False by congruence. apply Hs.
  - intros id Hid. rewrite Ht'. apply Ht. by rewrite Hn, decide_False in Hid.
Qed.

Lemma hard_link_triple s source dest : plain source -> plain dest -> source <> [] ->
  triple (Is s) (hard_link other beyond uid gid umask pid sha256_hex core source dest)
    (fun _ w => exists k, kv s source = Some k /\ Created pid core L k dest s w) Any Any.
Proof.
  intros Hps Hpd Hs. unfold hard_link.
  eapply triple_bind; [apply triple_lift_eq; eauto|intros a]. cbn beta.
  eapply triple_bind; [apply triple_lift_eq; intros w []; eauto|intros a']. cbn beta.
  eapply triple_bind; [apply triple_ask_eq|intros meta]. cbn beta.
  eapply triple_bind; [apply triple_lift_eq; intros w [[[? _] _] _]; eauto|intros nd]. cbn beta.
  destruct (node_is_dir nd) eqn:Ed; [apply triple_throw; intros w [[[[? _] _] _] _]; eauto|].
  eapply triple_bind; [apply triple_ask_eq|intros [r|]]; cbn beta; [apply triple_throw; intros w [[[[[? _] _] _] _] _]; eauto|].
  apply (triple_pre _ (fun w => (kv s source = Some (n_kind nd) /\ Creating core L s dest) /\ Is s w)).
  { intros w [[[[[HI _] Ha] ->] Hnd] Hr]. split; [|done]. split.
    - pose proof (metadata_kv s w source HI Hps) as Hm. by rewrite Hnd in Hm.
    - apply require_visible_ok in Ha as Hx; [|done]. assert (kv s dest = None) as HN.
      { destruct (kv s dest) eqn:E; [|done]. assert (is_Some (resolve beyond core w dest)) as [? ?]; [|congruence].
        apply (resolve_kv beyond pid core L s w dest HI Hpd). by rewrite E. }
      split; [done|]. split; [|done]. intros ->. by rewrite kv_nil, Hx in HN. }
  apply triple_fact. intros [Hk Hc].
  eapply (triple_bind _ _ _ (fun _ => Is s)).
  { eapply triple_post; [apply record_preimage_keeps; [done|intros f w; apply Is_journal]|done|eauto|eauto]. }
  intros ?. eapply triple_bind; [eapply triple_post; [by apply copy_up_triple|done|intros w; apply Good_Any|intros w; apply Good_Any]|intros f].
  cbn beta. apply triple_fact. intros ->. apply triple_exists. intros s1.
  apply (triple_pre _ (fun w => (keeps core L s s1 /\ is_Some (s1 source)) /\ Is s1 w)).
  { intros w (HI & Hkeep & Hs1 & _). split; [|done]. split; [done|]. apply Hs1. by rewrite Hk. }
  apply triple_fact. intros [Hkeep Hs1].
  assert (Creating core L s1 dest) as Hc1.
  { destruct Hc as (H1 & H2 & H3 & H4). split_and!; try done. by rewrite (proj1 Hkeep). }
  apply after_parents_triple; [done|done|done|]. intros s3 Hprep.
  apply triple_sys; [done|eauto|eauto|]. intros w HI. destruct (link _ _ w) as [res w'] eqn:E.
  pose proof Hc as (_ & Hd & _). eapply link_upper in E; [|exact HI|done]. destruct res as [?|?]; [|subst; eauto]. destruct E as [HN HI'].
  assert (s3 source = Some (n_kind nd, false)) as Hsrc.
  { destruct Hprep as (s0 & [Hk0 Hab0] & -> & _). rewrite upd_ne.
    - destruct Hs1 as [[k b] Hs1]. rewrite (proj1 (keeps_mono s1 s0 Hk0)) by by rewrite Hs1. rewrite Hs1.
      assert (k = n_kind nd) as ->.
      { destruct (path_snoc source Hs) as (q & n & ->). rewrite <- (proj1 Hkeep) in Hk by done. apply kv_comp in Hk. unfold kcomp in Hk.
        rewrite Hs1 in Hk. congruence. }
      assert (b = false) as ->; [|done].
      assert (upd s0 (whiteout_of dest) None source = Some (n_kind nd, b)) as Hb.
      { rewrite upd_ne; [rewrite (proj1 (keeps_mono s1 s0 Hk0) source); [done|by rewrite Hs1]|].
        intros Eq. apply (whiteout_of_not_plain dest Hd). by rewrite <- Eq. }
      destruct HI as (_ & _ & Hsum & _). rewrite <- Hsum in Hb. unfold usum in Hb.
      destruct (node_at w (Upper, source)) as [nd'|]; [|done]. simpl in Hb. injection Hb as Hb1 Hb2.
      unfold node_is_dir in Ed, Hb2. rewrite Hb1, Ed in Hb2. by rewrite <- Hb2.
    - intros Eq. apply (whiteout_of_not_plain dest Hd). by rewrite <- Eq. }
  split; [|eauto]. exists (n_kind nd). split; [done|]. eexists. split; [exact HI'|]. rewrite Hsrc.
  destruct (Prepared_create core L excluded_plain s1 dest s3 (upd s3 dest (Some (n_kind nd, false))) (n_kind nd) false Hc1 Hprep) as [Hv Hn].
  - apply upd_eq.
  - intros r _ Hr. by eapply below_upd.
  - intros Hdir. unfold node_is_dir in Ed. by rewrite Hdir in Ed.
  - intros p Hp _. by apply upd_ne.
  - split.
    + intros p Hp. rewrite Hv by done. by rewrite (proj1 Hkeep).
    + intros Hneat. apply Hn. by eapply neat_keeps.
Qed.
End Move.
