(* ===== verification/OverlayExchange.v ===== *)
(** * Exchanging two trees

    [exchange] copies both trees up and swaps them with three renames through
    the work directory.  When it answers, each path shows what its counterpart
    showed. *)

From Stdlib Require Import ZArith Lia.
From stdpp Require Import base list strings gmap pretty sorting.
From S2P Require Import Prelude Effects OverlayFs OverlayCore OverlayView OverlaySteps OverlayShape OverlayCopy OverlayEdit OverlayMove.
#[local] Set Warnings "-clear-no-such-hyp".
Open Scope string_scope.
Open Scope list_scope.
Open Scope effect_scope.

Section Exchange.
Context {O : Type} (other : O -> World -> World) (beyond : World -> FPath -> Path -> option Node).
Context (uid gid umask : Z) (pid : string) (sha256_hex : string -> string) (core : OverlayCore) (L : list Layer).
Context (others_quiet : forall o w, other o w = w).
Context (has_work : oc_work core = true).
Context (lowers_copyable : forall l p st, l ∈ L -> ly_lstat l p = Some st -> copyable st).
Context (lowers_lawful : Forall LayerLaws L).
Context (excluded_plain : Forall plain (oc_excluded core)).

Implicit Types (s : Shape) (p q : Path) (n : string) (w : World).

Abbreviation kv := (kv core L).
Abbreviation Is := (Is pid L).
Abbreviation Any := (Any pid L).
Abbreviation neat := (neat core).
Abbreviation Fs A := (M World O Z A).

Hint Resolve Is_Any : core.

(** The upper directory is [s]; the tree [t] waits under a temporary name. *)
Definition Held id s (t : Shape) w : Prop :=
  Is s w /\ forall r, node_sum <$> node_at w (Work, temp_name pid id :: r) = t r.

Lemma Held_Any id s t w : Held id s t w -> Any w.
Proof. intros [H _]. eauto. Qed.
Hint Resolve Held_Any : core.

Lemma hold_aside s q id w r w' : Is s w -> q <> [] -> (id < w_temp w)%Z -> node_at w (Work, [temp_name pid id]) = None ->
  rename_entry (Upper, q) (Work, [temp_name pid id]) w = (r, w') ->
  match r with Ok _ => Held id (cut q s) (fun r => s (q ++ r)) w' | Err _ => w' = w end.
Proof.
  intros HI Hq Hid HN H. pose proof H as Ha. eapply rename_aside in Ha; [|exact HI|done|done|done].
  destruct r as [?|?]; [|done]. split; [done|]. intros r. eapply rename_spec in H; [|apply HI|congruence|done].
  destruct H as (_ & _ & Hsrc & [[Hsame _]|(_ & _ & _ & Hn)]).
  - exfalso. apply node_at_None in HN; [|apply HI]. rewrite HN in Hsame. destruct Hsrc as [nd (i & Hi & _)%node_at_entry]. congruence.
  - rewrite Hn. unfold moved. cbn [fst snd].
    assert (subtree (Work, [temp_name pid id]) (Work, temp_name pid id :: r) = true) as ->.
    { apply subtree_spec. split; [done|]. by exists r. }
    destruct HI as (_ & _ & Hs & _). rewrite <- Hs. done.
Qed.

(** A rename inside the upper directory leaves what waits. *)
Lemma hold_across id s t old new w r w' : Held id s t w -> old <> [] -> new <> [] -> s new = None ->
  rename_entry (Upper, old) (Upper, new) w = (r, w') ->
  match r with Ok _ => Held id (mv old new s) t w' | Err _ => w' = w end.
Proof.
  intros [HI Ht] Ho Hn HN H. pose proof H as Ha. eapply rename_upper in Ha; [|exact HI|done|done|done].
  destruct r as [?|?]; [|done]. destruct Ha as [HI' _]. split; [done|]. intros r.
  eapply rename_spec in H; [|apply HI|congruence|congruence].
  destruct H as (_ & _ & _ & [[_ ->]|(_ & _ & _ & Hnode)]); [apply Ht|].
  rewrite Hnode. unfold moved. cbn [fst snd].
  destruct (subtree (Upper, new) _) eqn:E; [by apply subtree_pair in E as [? _]|].
  destruct (subtree (Upper, old) _) eqn:E'; [by apply subtree_pair in E' as [? _]|apply Ht].
Qed.

Definition plant q (t s : Shape) : Shape := fun p => if under q p then t (drop (length q) p) else s p.

Lemma release id s t q w r w' : Held id s t w -> q <> [] -> s q = None ->
  rename_entry (Work, [temp_name pid id]) (Upper, q) w = (r, w') ->
  match r with Ok _ => Is (plant q t s) w' | Err _ => w' = w end.
Proof.
  intros [HI Ht] Hq HN H. eapply rename_spec in H; [|apply HI|congruence|congruence].
  destruct r as [?|?]; [|done]. destruct HI as (Hw & HL & Hs & Hid).
  destruct H as (Hw' & (HL' & _ & _ & Ht') & Hsrc & [[Hsame _]|(_ & _ & _ & Hn)]).
  - exfalso. rewrite <- Hs in HN. unfold usum in HN. apply fmap_None, node_at_None in HN; [|done].
    rewrite HN in Hsame. destruct Hsrc as [nd (i & Hi & _)%node_at_entry]. congruence.
  - split; [done|]. split; [congruence|]. split.
    + intros p. unfold usum, plant. rewrite Hn. unfold moved. cbn [fst snd].
      assert (subtree (Upper, q) (Upper, p) = under q p) as -> by done. destruct (under q p); [by rewrite <- Ht|].
      destruct (subtree (Work, _) (Upper, p)) eqn:E; [by apply subtree_pair in E as [? _]|apply Hs].
    + intros id' H'. rewrite Ht'. apply Hid. rewrite Hn in H'. unfold moved in H'. cbn [fst snd] in H'.
      destruct (subtree (Upper, q) _) eqn:E; [by apply subtree_pair in E as [? _]|].
      by destruct (subtree (Work, _) _); [destruct H'|].
Qed.

(** ** The shape after the three renames *)

Definition swapped a b s : Shape := fun p =>
  if under a p then s (b ++ drop (length a) p) else if under b p then s (a ++ drop (length b) p) else s p.

Lemma swapped_l a b s r : swapped a b s (a ++ r) = s (b ++ r).
Proof. unfold swapped. by rewrite under_app, drop_app_length. Qed.

Lemma swapped_r a b s r : under a b = false -> under b a = false -> swapped a b s (b ++ r) = s (a ++ r).
Proof. intros H1 H2. unfold swapped. by rewrite (under_below a b), under_app, drop_app_length. Qed.

Lemma three_renames a b s : under a b = false -> under b a = false -> forall p,
  plant b (fun r => s (a ++ r)) (mv b a (cut a s)) p = swapped a b s p.
Proof.
  intros H1 H2 p. unfold plant, mv, cut, swapped. destruct (under b p) eqn:Eb.
  - destruct (under a p) eqn:Ea; [|done]. destruct (under_two a b p); congruence.
  - destruct (under a p) eqn:Ea; [|done]. rewrite under_below; [done|done|done].
Qed.

Definition Exchanged a b s s' : Prop :=
  (forall p, plain p -> kv s' p = if under a p then kv s (b ++ drop (length a) p)
                                  else if under b p then kv s (a ++ drop (length b) p) else kv s p)
  /\ (neat s -> neat s').

Lemma swapped_outside a b s p : under a p = false -> under b p = false -> swapped a b s p = s p.
Proof. intros H1 H2. unfold swapped. by rewrite H1, H2. Qed.

Lemma under_parent_disjoint a b : b <> [] -> under a b = false -> under a (parent b) = false.
Proof.
  intros Hb H. destruct (path_snoc b Hb) as (q & n & ->). rewrite parent_snoc.
  destruct (under a q) eqn:E; [|done]. by rewrite under_snoc_weaken in H.
Qed.

Lemma swapped_view a b s : plain a -> plain b -> a <> [] -> b <> [] -> under a b = false -> under b a = false ->
  (forall r, is_excluded core (a ++ r) = false) -> (forall r, is_excluded core (b ++ r) = false) -> clean core s ->
  is_Some (kv s a) -> is_Some (kv s b) -> closed core L s a -> closed core L s b ->
  forall p, plain p -> kv (swapped a b s) p =
    if under a p then kv s (b ++ drop (length a) p) else if under b p then kv s (a ++ drop (length b) p) else kv s p.
Proof.
  intros Hpa Hpb Ha Hb Hab Hba Hxa Hxb Hc Hva Hvb Hca Hcb p Hp.
  assert (forall p, plain p -> under a p = false -> under b p = false -> kv (swapped a b s) p = kv s p) as Hlocal.
  { intros p' Hp' H1 H2. apply (kv_local core L [a; b]); [by repeat constructor| |done|].
    - intros p0 H0. destruct (H0 a) as [? _]; [set_solver|]. destruct (H0 b) as [? _]; [set_solver|]. by apply swapped_outside.
    - intros q Hq. apply elem_of_cons in Hq as [->|Hq]; [done|]. by apply list_elem_of_singleton in Hq as ->. }
  assert (forall q, q <> [] -> plain q -> under a (parent q) = false -> under b (parent q) = false -> is_Some (kv s q) ->
    kv (swapped a b s) (parent q) = Some KDir) as Hpar.
  { intros q Hq Hpq H1 H2 Hv. rewrite Hlocal; [|by apply plain_parent|done|done].
    destruct (path_snoc q Hq) as (q' & n & ->). rewrite parent_snoc. by apply kv_parent in Hv as [? _]. }
  assert (forall q, q <> [] -> under q (parent q) = false) as Hself.
  { intros q Hq. destruct (path_snoc q Hq) as (q' & n & ->). rewrite parent_snoc. apply under_snoc_self. }
  destruct (under a p) eqn:Ea.
  - apply under_spec in Ea as [r ->]. apply plain_app in Hp as [_ Hr]. rewrite drop_app_length.
    apply (kv_transplant core L s _ b a); try done; [|intros r'; apply swapped_l].
    apply Hpar; [done|done|by apply Hself|by apply under_parent_disjoint|done].
  - destruct (under b p) eqn:Eb; [|by apply Hlocal].
    apply under_spec in Eb as [r ->]. apply plain_app in Hp as [_ Hr]. rewrite drop_app_length.
    apply (kv_transplant core L s _ a b); try done; [|intros r'; by apply swapped_r].
    apply Hpar; [done|done|by apply under_parent_disjoint|by apply Hself|done].
Qed.

(** Below a root that was exchanged, whiteouts move with what they hide; next to
    it there is none, because it exists. *)
Lemma swapped_neat a b s : plain a -> plain b -> a <> [] -> b <> [] -> under a b = false -> under b a = false ->
  (forall r, is_excluded core (a ++ r) = false) -> (forall r, is_excluded core (b ++ r) = false) ->
  is_Some (s a) -> is_Some (s b) -> neat s -> neat (swapped a b s).
Proof.
  intros Hpa Hpb Ha Hb Hab Hba Hxa Hxb Hsa Hsb [Ht Hc].
  assert (forall q, plain q -> forall p n, plain_name n = true ->
    under q (p ++ [WHITEOUT_PREFIX +:+ n]) = true -> under q p = true) as Hwh.
  { intros q Hq p n _ E. by apply under_marker in E; [|done|apply whiteout_not_plain]. }
  assert (forall q p n, under q (p ++ [n]) = true -> (q = p ++ [n]) \/ exists r, p = q ++ r) as Hcases.
  { intros q p n [E|E]%under_snoc; [by left|right; by apply under_spec]. }
  assert (forall q, plain q -> forall p n, plain_name n = true -> under q p = false -> under q (p ++ [WHITEOUT_PREFIX +:+ n]) = false) as Hnot.
  { intros q Hq p n Hn E. destruct (under q (p ++ [_])) eqn:E'; [|done]. rewrite (Hwh q Hq p n Hn E') in E. done. }
  split.
  - intros p n Hn Hsome. destruct (under a p) eqn:Eap.
    { apply under_spec in Eap as [r ->]. rewrite <- app_assoc, swapped_l, app_assoc in Hsome |- *. by apply Ht. }
    destruct (under b p) eqn:Ebp.
    { apply under_spec in Ebp as [r ->]. rewrite <- app_assoc, swapped_r, app_assoc in Hsome |- * by done. by apply Ht. }
    rewrite swapped_outside by auto. apply Ht; [done|].
    destruct (under a (p ++ [n])) eqn:Ea; [apply Hcases in Ea as [->|[r ->]]; [done|by rewrite under_app in Eap]|].
    destruct (under b (p ++ [n])) eqn:Eb; [apply Hcases in Eb as [->|[r ->]]; [done|by rewrite under_app in Ebp]|].
    by rewrite swapped_outside in Hsome.
  - intros p Hx. unfold swapped. destruct (under a p) eqn:Ea; [apply under_spec in Ea as [r ->]; by rewrite Hxa in Hx|].
    destruct (under b p) eqn:Eb; [apply under_spec in Eb as [r ->]; by rewrite Hxb in Hx|]. by apply Hc.
Qed.

(** ** [exchange] *)

Lemma swap_triple a b s : a <> [] -> b <> [] -> under a b = false -> under b a = false ->
  triple (Is s)
    (let! temporary := temporary_path pid core [] in
     fs_rename other (Upper, a) temporary ;;
     let! r := attempt (fs_rename other (Upper, b) (Upper, a)) in
     match r with
     | Err e => ignore (fs_rename other temporary (Upper, a)) ;; throw e
     | Ok _ =>
         let! r := attempt (fs_rename other temporary (Upper, b)) in
         match r with
         | Err e =>
             ignore (fs_rename other (Upper, a) (Upper, b)) ;;
             ignore (fs_rename other temporary (Upper, a)) ;;
             throw e
         | Ok _ => modify (exchange_copied_hard_links (Upper, a) (Upper, b))
         end
     end) (fun _ => Is (swapped a b s)) Any Any.
Proof.
  intros Ha Hb Hab Hba.
  eapply triple_bind; [by apply temporary_path_triple|intros temporary]. apply triple_exists. intros id. apply triple_fact. intros ->.
  assert (forall src dst, src <> (Upper, []) -> dst <> [] -> triple Any (ignore (fs_rename other src (Upper, dst))) (fun _ => Any) Any Any) as Hback.
  { intros src dst Hs Hd. apply triple_ignore, any_rename_triple; [done|done|congruence|done]. }
  eapply (triple_bind _ _ _ (fun _ => Held id (cut a s) (fun r => s (a ++ r)))).
  { apply triple_sys; [done|naive_solver eauto|naive_solver eauto|]. intros w (HI & Hid & HN).
    destruct (rename_entry _ _ w) as [r w'] eqn:E. eapply hold_aside in E; [|exact HI|done|done|done].
    destruct r as [?|?]; [eauto|subst; eauto]. }
  intros _. eapply (triple_bind _ _ _ (fun r w => match r with Ok _ => Held id (mv b a (cut a s)) (fun r => s (a ++ r)) w | Err _ => Any w end)).
  { eapply (triple_attempt _ _ _ _ _ Any); [|done]. apply triple_sys; [done|eauto|eauto|]. intros w HI.
    destruct (rename_entry _ _ w) as [r w'] eqn:E. eapply hold_across in E; [|exact HI|done|done|unfold cut; by rewrite under_refl].
    destruct r as [?|?]; [eauto|subst; eauto]. }
  intros [?|e].
  - eapply (triple_bind _ _ _ (fun r w => match r with Ok _ => Is (swapped a b s) w | Err _ => Any w end)).
    { eapply (triple_attempt _ _ _ _ _ Any); [|done]. apply triple_sys; [done|eauto|eauto|]. intros w HI.
      destruct (rename_entry _ _ w) as [r w'] eqn:E. eapply release in E; [|exact HI|done|].
      - destruct r as [?|?]; [|subst; eauto]. assert (Is (swapped a b s) w') as H; [|eauto].
        eapply Is_ext; [exact E|]. intros p. symmetry. by apply three_renames.
      - unfold mv. by rewrite Hab, under_refl. }
    intros [?|e].
    + apply triple_modify. intros w. apply Is_links.
    + eapply (triple_bind _ _ _ (fun _ => Any)); [apply Hback; [congruence|done]|intros ?].
      eapply (triple_bind _ _ _ (fun _ => Any)); [apply Hback; [congruence|done]|intros ?]. by apply triple_throw.
  - eapply (triple_bind _ _ _ (fun _ => Any)); [apply Hback; [congruence|done]|intros ?]. by apply triple_throw.
Qed.

Lemma exchange_triple s a b : plain a -> plain b -> neat s ->
  (forall r, is_excluded core (a ++ r) = false) -> (forall r, is_excluded core (b ++ r) = false) ->
  triple (Is s) (exchange other beyond uid gid umask pid sha256_hex core a b)
    (fun _ w => exists s', Is s' w /\ Exchanged a b s s') Any Any.
Proof.
  intros Hpa Hpb Hneat Hxa Hxb. unfold exchange.
  eapply triple_bind; [apply (triple_lift _ _ (fun _ => Is s)); eauto|intros ?]. cbn beta.
  eapply triple_bind; [apply (triple_lift _ _ (fun _ => Is s)); eauto|intros ?]. cbn beta.
  case_bool_decide as Heq.
  { subst b. apply triple_ret. intros w HI. exists s. split; [done|]. split; [|done]. intros p Hp.
    destruct (under a p) eqn:E; [|done]. apply under_spec in E as [r ->]. by rewrite drop_app_length. }
  destruct (under b a) eqn:Hba; [apply triple_throw; eauto|]. destruct (under a b) eqn:Hab; [apply triple_throw; eauto|]. cbn [orb].
  assert (a <> []) as Ha by (intros ->; by rewrite under_nil in Hab).
  assert (b <> []) as Hb by (intros ->; by rewrite under_nil in Hba).
  eapply triple_bind; [apply triple_ask_eq|intros ma]. cbn beta.
  eapply triple_bind; [apply triple_lift_eq; intros w [? _]; eauto|intros na]. cbn beta.
  eapply triple_bind; [apply triple_ask_eq|intros mb]. cbn beta.
  eapply triple_bind; [apply triple_lift_eq; intros w [[[? _] _] _]; eauto|intros nb]. cbn beta.
  apply (triple_pre _ (fun w => (kv s a = Some (n_kind na) /\ kv s b = Some (n_kind nb)) /\ Is s w)).
  { intros w [[[[HI ->] Hma] ->] Hmb]. split; [|done]. split.
    - pose proof (metadata_kv beyond pid core L s w a HI Hpa) as Hm. by rewrite Hma in Hm.
    - pose proof (metadata_kv beyond pid core L s w b HI Hpb) as Hm. by rewrite Hmb in Hm. }
  apply triple_fact. intros [Hka Hkb].
  do 4 (eapply (triple_bind _ _ _ (fun _ => Is s));
    [eapply triple_post; [apply record_mapping_keeps; [done|intros f w; apply Is_journal]|done|eauto|eauto]|intros ?]).
  eapply triple_bind; [by apply (source_triple other beyond uid gid umask pid sha256_hex core L others_quiet has_work lowers_copyable lowers_lawful excluded_plain s a (n_kind na))|intros fa].
  apply triple_fact. intros ->. apply triple_exists. intros s1.
  apply (triple_pre _ (fun w => (Ext core L a s s1 /\ closed core L s1 a) /\ Is s1 w)); [naive_solver|].
  apply triple_fact. intros [He Hclosed]. pose proof He as (Hkv1 & _ & _ & Hneat1 & _). specialize (Hneat1 Hneat).
  eapply triple_bind; [apply (source_triple other beyond uid gid umask pid sha256_hex core L others_quiet has_work lowers_copyable lowers_lawful excluded_plain s1 b (n_kind nb)); [done|done|by rewrite Hkv1]|intros fb].
  apply triple_fact. intros ->. apply triple_exists. intros s2.
  apply (triple_pre _ (fun w => (Ext core L b s1 s2 /\ closed core L s2 b) /\ Is s2 w)); [naive_solver|].
  apply triple_fact. intros [He2 Hclosed2]. pose proof He2 as (Hkv2 & _ & _ & Hneat2 & _). specialize (Hneat2 Hneat1).
  assert (closed core L s2 a) as Hclosed1 by by eapply closed_Ext.
  assert (forall p, plain p -> kv s2 p = kv s p) as Hkv by (intros p Hp; by rewrite Hkv2, Hkv1).
  assert (forall q, plain q -> closed core L s2 q -> is_Some (kv s2 q) -> is_Some (s2 q)) as Hin.
  { intros q Hq Hcl Hv. destruct (Hcl []) as [H _]; rewrite ?app_nil_r in *; [constructor|done|done]. }
  assert (is_Some (kv s2 a) /\ is_Some (kv s2 b)) as [Hva Hvb] by (rewrite !Hkv, Hka, Hkb by done; eauto).
  eapply triple_post; [by apply swap_triple| |done|done]. intros ? w HI. eexists. split; [exact HI|]. split.
  - intros p Hp. rewrite swapped_view by (done || apply Hneat2).
    destruct (under a p) eqn:Ea; [|destruct (under b p) eqn:Eb; [|by apply Hkv]].
    + apply under_spec in Ea as [r ->]. apply plain_app in Hp as [_ Hr]. rewrite drop_app_length. apply Hkv. by apply plain_app.
    + apply under_spec in Eb as [r ->]. apply plain_app in Hp as [_ Hr]. rewrite drop_app_length. apply Hkv. by apply plain_app.
  - intros _. apply swapped_neat; auto.
Qed.
End Exchange.
