(* ===== verification/OverlayDepth.v ===== *)
(** * The recursions stop

    [materialize_tree] and [record_logical_tree_mapping] recurse over the
    visible tree.  The model gives them the height of the layers to go down;
    here that is shown to be enough: every error an operation answers is an
    error number of the system, never the exhausted recursion. *)

From Stdlib Require Import ZArith Lia.
From stdpp Require Import base list strings gmap pretty sorting.
From S2P Require Import Prelude Effects OverlayFs OverlayCore OverlayView OverlaySteps OverlayShape OverlayCopy OverlayEdit OverlayMove OverlayExchange.
#[local] Set Warnings "-clear-no-such-hyp".
Open Scope string_scope.
Open Scope list_scope.
Open Scope effect_scope.

Create HintDb errs.

(** ** Errors that are error numbers *)

Definition res_ok {A} (r : result Z A) : Prop := match r with Err e => (0 <= e)%Z | Ok _ => True end.

Section Errs.
Context {O : Type} (other : O -> World -> World).
Abbreviation Fs A := (M World O Z A).

Definition errs {A} (P : World -> Prop) (m : Fs A) : Prop := forall envs w, P w ->
  match fst (m envs w) with Done r _ => res_ok r | Crashed => True end.
Definition Always (_ : World) : Prop := True.

Lemma errs_weaken {A} P (m : Fs A) : errs Always m -> errs P m.
Proof. intros H envs w _. by apply H. Qed.

Lemma errs_pre {A} (P P' : World -> Prop) (m : Fs A) : (forall w, P w -> P' w) -> errs P' m -> errs P m.
Proof. intros HP H envs w Hw. by apply H, HP. Qed.

Lemma errs_exists {A X} (P : X -> World -> Prop) (m : Fs A) : (forall x, errs (P x) m) -> errs (fun w => exists x, P x w) m.
Proof. intros H envs w [x Hx]. by apply (H x). Qed.

Lemma errs_fact {A} (φ : Prop) P (m : Fs A) : (φ -> errs P m) -> errs (fun w => φ /\ P w) m.
Proof. intros H envs w [Hφ Hw]. by apply H. Qed.

Lemma errs_ret {A} P (a : A) : errs P (ret a).
Proof. by intros envs w _. Qed.
Lemma errs_throw {A} P e : (0 <= e)%Z -> errs P (throw (A:=A) e).
Proof. by intros H envs w _. Qed.
Lemma errs_modify P f : errs P (modify f).
Proof. by intros envs w _. Qed.
Lemma errs_ask {A} P (f : World -> A) : errs P (ask f).
Proof. by intros envs w _. Qed.
Lemma errs_lift {A} P (r : result Z A) : res_ok r -> errs P (lift r).
Proof. intros H envs w _. by destruct r. Qed.

(** What the first part leaves is what the second starts from. *)
Lemma errs_bind {A B} P (m : Fs A) (k : A -> Fs B) R F C :
  errs P m -> triple P m R F C -> (forall a, errs (R a) (k a)) -> errs P (bind m k).
Proof.
  intros Hm Ht Hk envs w Hw. unfold bind. specialize (Hm envs w Hw). specialize (Ht envs w Hw).
  destruct (m envs w) as [[|[a|e] rest] w']; [done|by apply Hk|done].
Qed.

Lemma triple_trivial {A} (P : World -> Prop) (m : Fs A) : triple P m (fun _ => Always) Always Always.
Proof. intros envs w _. by destruct (m envs w) as [[|[a|e] rest] w']. Qed.

Lemma errs_seq {A B} (m : Fs A) (k : A -> Fs B) : errs Always m -> (forall a, errs Always (k a)) -> errs Always (bind m k).
Proof.
  intros Hm Hk. eapply (errs_bind _ _ _ (fun _ => Always) Always Always); [done|apply triple_trivial|done].
Qed.

Lemma errs_ask_bind {A B} P (f : World -> A) (k : A -> Fs B) : (forall a, errs (fun w => P w /\ a = f w) (k a)) -> errs P (bind (ask f) k).
Proof. intros H envs w Hw. by apply (H (f w)). Qed.

Lemma errs_lift_bind {A B} P (r : result Z A) (k : A -> Fs B) : (forall w, P w -> res_ok r) -> (forall a, r = Ok a -> errs P (k a)) -> errs P (bind (lift r) k).
Proof.
  intros Hr H envs w Hw. unfold bind, lift. specialize (Hr w Hw). destruct r as [a|e]; [by apply H|done].
Qed.

Lemma errs_ask_lift {A B} (f : World -> result Z A) (k : A -> Fs B) :
  (forall w, res_ok (f w)) -> (forall a, errs Always (k a)) -> errs Always (bind (ask f) (fun r => bind (lift r) k)).
Proof.
  intros Hf Hk. apply errs_ask_bind. intros r. apply errs_lift_bind; [intros w [_ ->]; apply Hf|].
  intros a _. by apply errs_weaken.
Qed.

Lemma errs_attempt {A B} (m : Fs A) (k : result Z A -> Fs B) :
  errs Always m -> (forall r, res_ok r -> errs Always (k r)) -> errs Always (bind (attempt m) k).
Proof.
  intros Hm Hk envs w _. unfold bind, attempt. specialize (Hm envs w I).
  destruct (m envs w) as [[|r rest] w']; [done|]. by apply Hk.
Qed.

Lemma errs_for {X A} (l : list X) (body : X -> A -> Fs A) a : (forall x a, errs Always (body x a)) -> errs Always (for_each l body a).
Proof.
  intros H. revert a. induction l as [|x l IH]; intros a; simpl; [apply errs_ret|]. apply errs_seq; [done|apply IH].
Qed.

Lemma fault_errno e : (0 <= fault e)%Z.
Proof. unfold fault. case_match; [done|lia]. Qed.

Lemma errs_sys {A} (f : World -> result Z A * World) : (forall w, res_ok (fst (f w))) -> errs Always (sys other f).
Proof.
  intros Hf envs w _. unfold sys, effect. destruct envs as [|e rest]; [done|]. cbv zeta.
  set (w1 := fold_left _ _ _). specialize (Hf w1). pose proof (fault_errno (env_errno e)).
  by destruct (env_fate e), (f w1) as [r w2].
Qed.

Lemma errs_ignore {A} (m : Fs A) : errs Always m -> errs Always (ignore m).
Proof. intros H. apply errs_attempt; [done|]. intros r _. apply errs_ret. Qed.
End Errs.

Ltac errs_sys_tac := apply errs_sys; intros; repeat first [case_match | progress simpl]; done.

Ltac errs_step := first
  [ assumption | solve [eauto 2 with errs] | apply errs_ret | apply errs_modify | apply errs_ask
  | apply errs_throw; first [done | assumption | lia]
  | apply errs_ask_lift; [intros ?; solve [eauto 2 with errs]|intros ?] | apply errs_ignore | apply errs_attempt; [|intros [?|?] ?] | apply errs_seq; [|intros ?]
  | apply errs_for; intros
  | apply errs_lift; solve [eauto with errs]
  | case_match ].
Ltac errs_tac := repeat errs_step.

(** ** The calls *)

Lemma res_ok_or {A} (o : option A) e : (0 <= e)%Z -> res_ok (ok_or o e).
Proof. by destruct o. Qed.
Lemma res_ok_rel rel : res_ok (validate_rel rel).
Proof. unfold validate_rel. by case_match. Qed.
Lemma res_ok_child p n : res_ok (child p n).
Proof. unfold child, validate_rel, validate_name. repeat first [case_match | progress simpl]; done. Qed.
Lemma res_ok_visible core rel : res_ok (require_visible core rel).
Proof. unfold require_visible, validate_rel. repeat first [case_match | progress simpl]; done. Qed.
Lemma res_ok_fingerprint sha l rel : res_ok (fingerprint_at sha l rel).
Proof. unfold fingerprint_at, validate_rel. repeat first [case_match | progress simpl]; done. Qed.
#[export] Hint Resolve res_ok_rel res_ok_child res_ok_visible res_ok_fingerprint : errs.
#[export] Hint Extern 1 (res_ok (ok_or _ _)) => apply res_ok_or; done : errs.

Lemma res_ok_metadata beyond core w rel : res_ok (metadata beyond core w rel).
Proof.
  unfold metadata. pose proof (res_ok_visible core rel) as H. destruct (require_visible core rel); [|done]. simpl.
  destruct (resolve beyond core w rel); [|done]. simpl. by apply res_ok_or.
Qed.
Lemma res_ok_list_names beyond core w rel : res_ok (list_names beyond core w rel).
Proof.
  unfold list_names. pose proof (res_ok_visible core rel) as H. destruct (require_visible core rel); [|done]. simpl.
  pose proof (res_ok_metadata beyond core w rel) as H'. destruct (metadata beyond core w rel); [|done]. simpl. by case_match.
Qed.
#[export] Hint Resolve res_ok_metadata res_ok_list_names : errs.

Lemma res_ok_replacement beyond core old new nr w : res_ok (validate_replacement beyond core old new nr w).
Proof.
  unfold validate_replacement. destruct (resolve beyond core w new) as [d|]; [|done]. destruct nr; [done|].
  pose proof (res_ok_metadata beyond core w old) as H. destruct (metadata beyond core w old); [|done]. simpl.
  destruct (loc_node beyond w (rs_path d)) as [nd'|]; [|done]. simpl. destruct (node_is_dir _), (node_is_dir nd'); try done.
  pose proof (res_ok_list_names beyond core w new) as H'. destruct (list_names beyond core w new); [|done]. simpl. by case_match.
Qed.
#[export] Hint Resolve res_ok_replacement : errs.

Section Calls.
Context {O : Type} (other : O -> World -> World) (beyond : World -> FPath -> Path -> option Node).
Context (uid gid umask : Z) (pid : string) (sha256_hex : string -> string) (core : OverlayCore).

Lemma errs_create nd f : errs (O:=O) Always (sys other (create nd f)).
Proof.
  apply errs_sys. intros w. unfold create, parent_error. repeat case_match; simplify_eq/=; done.
Qed.
Lemma errs_change g f : errs (O:=O) Always (sys other (change g f)).
Proof. apply errs_sys. intros w. unfold change. by repeat case_match. Qed.
Lemma errs_link a b : errs (O:=O) Always (fs_hard_link other a b).
Proof. apply errs_sys. intros w. unfold link, parent_error. repeat case_match; simplify_eq/=; done. Qed.
Lemma errs_rename a b : errs (O:=O) Always (fs_rename other a b).
Proof. apply errs_sys. intros w. unfold rename_entry, parent_error, replace_error. repeat case_match; simplify_eq/=; done. Qed.
Lemma errs_remove_file f : errs (O:=O) Always (remove_file other f).
Proof. apply errs_sys. intros w. unfold unlink. by repeat case_match. Qed.
Lemma errs_remove_dir_all f : errs (O:=O) Always (remove_dir_all other f).
Proof.
  unfold remove_dir_all. errs_tac. apply errs_sys. intros w. unfold rmdir, unlink. by repeat case_match.
Qed.
Lemma errs_write f c : errs (O:=O) Always (write_all other f c).
Proof. apply errs_sys. intros w. unfold change. by repeat case_match. Qed.
Lemma errs_mknod f mode rdev : errs (O:=O) Always (mknod other uid gid umask f mode rdev).
Proof. unfold mknod. repeat case_match; try (by apply errs_throw); apply errs_create. Qed.
#[local] Hint Resolve errs_create errs_change errs_link errs_rename errs_remove_file errs_remove_dir_all errs_write errs_mknod : errs.

Lemma errs_record rel : errs (O:=O) Always (record_preimage other sha256_hex core rel).
Proof.
  unfold record_preimage. errs_tac; unfold journal_create, journal_write, sync_all;
    apply errs_sys; intros w; by repeat case_match.
Qed.
#[local] Hint Resolve errs_record : errs.

Lemma errs_copy_metadata source f nd : errs (O:=O) Always (copy_metadata other beyond source f nd).
Proof.
  unfold copy_metadata, best_effort, copy_xattrs, chown, set_permissions, set_times, set_xattr. cbv zeta. errs_tac.
Qed.
#[local] Hint Resolve errs_copy_metadata : errs.

Lemma errs_parents rel : errs (O:=O) Always (ensure_upper_parents other beyond uid gid umask sha256_hex core rel).
Proof. unfold ensure_upper_parents, ensure_upper_parent, fs_create_dir. errs_tac. Qed.
#[local] Hint Resolve errs_parents : errs.

Lemma errs_discard f : errs (O:=O) Always (discard other f).
Proof. unfold discard. errs_tac. Qed.
Lemma errs_remove_physical f : errs (O:=O) Always (remove_physical other beyond f).
Proof. unfold remove_physical. errs_tac. Qed.
#[local] Hint Resolve errs_discard errs_remove_physical : errs.

Lemma errs_publish source st t u : errs (O:=O) Always (publish_copy other beyond uid gid umask source st t u).
Proof. unfold publish_copy, make_copy, fs_create_dir, fs_symlink, open_new. errs_tac. Qed.
#[local] Hint Resolve errs_publish : errs.

Lemma errs_copy_up rel : errs (O:=O) Always (copy_up other beyond uid gid umask pid sha256_hex core rel).
Proof. unfold copy_up, temporary_path. cbv zeta. errs_tac. Qed.

Lemma errs_opaque_xattr f names : errs (O:=O) Always (set_opaque_xattr other f names).
Proof. induction names; simpl; unfold set_xattr; errs_tac. Qed.
Lemma errs_mark_opaque rel : errs (O:=O) Always (mark_opaque other beyond uid gid umask rel).
Proof. pose proof errs_opaque_xattr. unfold mark_opaque, create_marker, open_new. errs_tac. Qed.
Lemma errs_whiteout rel : errs (O:=O) Always (create_whiteout other beyond uid gid umask sha256_hex core rel).
Proof. unfold create_whiteout, create_marker, open_new. errs_tac. Qed.
Lemma errs_clear rel : errs (O:=O) Always (clear_whiteout other core rel).
Proof. unfold clear_whiteout. errs_tac. Qed.
#[local] Hint Resolve errs_copy_up errs_mark_opaque errs_whiteout errs_clear : errs.

Lemma errs_into_place old new source needs backup : errs (O:=O) Always (rename_into_place other beyond core old new source needs backup).
Proof. unfold rename_into_place. errs_tac. Qed.
Lemma errs_prepare rel : errs (O:=O) Always (prepare_create other beyond sha256_hex core rel).
Proof. unfold prepare_create. errs_tac. Qed.

(** ** Going down *)

Context (L : list Layer).
Context (others_quiet : forall o w, other o w = w).
Context (has_work : oc_work core = true).
Context (lowers_copyable : forall l p st, l ∈ L -> ly_lstat l p = Some st -> copyable st).
Context (lowers_lawful : Forall LayerLaws L).
Context (excluded_plain : Forall plain (oc_excluded core)).

Implicit Types (s : Shape) (p q : Path) (n : string) (w : World) (h : nat).
Abbreviation kv := (kv core L).
Abbreviation Is := (Is pid L).
Abbreviation neat := (neat core).

(** Nothing visible is deeper than [h]. *)
Definition depth_below h s : Prop := forall p, plain p -> is_Some (kv s p) -> length p <= h.

Lemma height_bounds s w : Is s w -> depth_below (height w) s.
Proof.
  intros HI p Hp [k Hk]. pose proof HI as (Hw & HL & Hs & _). unfold height.
  destruct p as [|n p _] using rev_ind; [simpl; lia|]. apply kv_comp in Hk. unfold kcomp in Hk.
  destruct (s (p ++ [n])) as [[k' b]|] eqn:Es.
  - apply max_list_elem_of_le, elem_of_app. right. rewrite <- Hs in Es. unfold usum in Es.
    destruct (node_at w (Upper, p ++ [n])) as [nd|] eqn:En; [|done].
    apply node_at_entry in En as (i & Hi & _). apply list_elem_of_fmap. exists ((Upper, p ++ [n]), i). split; [done|].
    by apply elem_of_map_to_list.
  - destruct (hides s p n); [done|]. unfold lowk in Hk. apply fmap_Some in Hk as (nd & Hnd & _).
    destruct (proj1 (lower_node_is_Some L (p ++ [n]))) as (l & Hl & Hlst); [by eexists|].
    etrans; [apply (@layer_height l); [by eapply Forall_forall|exact Hlst]|].
    apply max_list_elem_of_le, elem_of_app. left. rewrite HL. apply list_elem_of_fmap. by exists l.
Qed.

(** A loop whose turns keep what they start from. *)
Lemma errs_loop {X} (I : World -> Prop) (l : list X) (body : X -> unit -> M World O Z unit) :
  (forall x, x ∈ l -> errs I (body x tt)) -> (forall x, x ∈ l -> triple I (body x tt) (fun _ => I) Always Always) -> errs I (for_each l body tt).
Proof.
  induction l as [|x l IH]; intros He Ht; simpl; [apply errs_ret|].
  eapply errs_bind; [apply He; by left|apply Ht; by left|]. intros []. apply IH; intros y Hy; [apply He|apply Ht]; by right.
Qed.

Lemma Is_names s w q names : Is s w -> neat s -> plain q -> list_names beyond core w q = Ok names ->
  forall n, n ∈ names -> plain_name n = true /\ is_Some (kv s (q ++ [n])).
Proof.
  intros HI Hneat Hq Hnames n Hn.
  assert (Forall LayerLaws (w_lowers w)) as Hlaws by (destruct HI as (_ & -> & _); done).
  pose proof (list_names_spec beyond core w q (proj1 HI) (proj1 (tidy_unshadowed pid L s w HI) (proj1 Hneat)) Hlaws Hq) as Hl.
  rewrite Hnames in Hl. destruct Hl as (_ & _ & Hl). apply Hl in Hn as [Hn Hv]. split; [done|].
  rewrite <- (Is_view beyond pid core L s w) by (done || by apply plain_snoc). by apply fmap_is_Some.
Qed.

Lemma triple_always {A} (P : World -> Prop) (m : M World O Z A) Q F C : triple P m Q F C -> triple P m Q Always Always.
Proof. intros H. by eapply triple_post. Qed.

Lemma Is_stable s : journal_stable (Is s).
Proof. intros f w. apply Is_journal. Qed.

Lemma record_tree_errs fuel : forall h s source destination, plain source -> neat s -> depth_below h s ->
  h < length source + fuel -> 1 <= fuel ->
  errs (Is s) (record_tree other beyond sha256_hex core fuel source destination).
Proof.
  induction fuel as [|fuel IH]; intros h s source destination Hp Hneat Hd Hh Hf; [lia|]. simpl.
  eapply (errs_bind _ _ _ (fun _ => Is s)); [apply errs_weaken, errs_record|apply record_preimage_keeps; [done|apply Is_stable]|]. intros _.
  apply errs_ask_bind. intros meta. apply errs_lift_bind; [intros w [_ ->]; apply res_ok_metadata|intros nd Hnd].
  case_match; [apply errs_ret|]. apply (errs_pre _ (Is s)); [by intros w []|].
  apply errs_ask_bind. intros names. apply errs_lift_bind; [intros w [_ ->]; apply res_ok_list_names|intros ns ->].
  apply (errs_pre _ (fun w => (forall n, n ∈ ns -> plain_name n = true /\ is_Some (kv s (source ++ [n]))) /\ Is s w)).
  { intros w [HI Hns]. split; [|done]. by eapply Is_names. }
  apply errs_fact. intros Hns. apply errs_loop.
  - intros n Hn. destruct (Hns n Hn) as [Hpn Hv]. apply errs_lift_bind; [intros _ _; apply res_ok_child|intros c Hc].
    apply child_inv in Hc as [-> _]. apply errs_lift_bind; [intros _ _; apply res_ok_child|intros c' _].
    assert (plain (source ++ [n])) as Hpl by by apply plain_snoc.
    specialize (Hd _ Hpl Hv) as Hlen. rewrite length_app in Hlen. simpl in Hlen.
    apply (IH h); [done|done|done|rewrite length_app; simpl; lia|lia].
  - intros n Hn. eapply triple_always. apply (triple_bind _ _ _ (fun _ => Is s) _ Always Always); [by apply triple_lift|intros c1].
    apply (triple_bind _ _ _ (fun _ => Is s) _ Always Always); [by apply triple_lift|intros c2].
    eapply triple_post; [apply record_tree_keeps; [done|apply Is_stable]|done|done|done].
Qed.

Lemma record_mapping_errs s source destination : plain source -> neat s ->
  errs (Is s) (record_logical_tree_mapping other beyond sha256_hex core source destination).
Proof.
  intros Hp Hneat. apply errs_ask_bind. intros h. 
  apply (errs_pre _ (fun w => depth_below h s /\ Is s w)); [intros w [HI ->]; split; [by apply height_bounds|done]|].
  apply errs_fact. intros Hd. apply (record_tree_errs _ h); try done; lia.
Qed.

(** *** Copying a tree *)

Abbreviation Filling := (Filling pid core L).
Abbreviation mat fuel := (materialize other beyond uid gid umask pid sha256_hex core fuel).

Lemma depth_Ext h q s s' : Ext core L q s s' -> depth_below h s -> depth_below h s'.
Proof. intros He Hd p Hp. rewrite (proj1 He) by done. by apply Hd. Qed.

Lemma fill_turn_errs fuel h s q names n rest : plain q -> neat s -> depth_below h s -> plain_name n = true ->
  (forall s0, Ext core L q s s0 -> is_Some (kv s0 (q ++ [n])) -> errs (Is s0) (mat fuel (q ++ [n]))) ->
  errs (Filling s q names (n :: rest))
    (let! c := lift (child q n) in
     let! meta := ask (fun w => metadata beyond core w c) in
     let! meta := lift meta in
     (if node_is_dir meta then mat fuel c else copy_up other beyond uid gid umask pid sha256_hex core c) ;;
     ret tt).
Proof.
  intros Hq Hneat Hd Hn Hstep. assert (plain (q ++ [n])) as Hqn by by apply plain_snoc.
  apply errs_lift_bind; [intros _ _; apply res_ok_child|intros c [-> _]%child_inv].
  apply errs_exists. intros s0. apply (errs_pre _ (fun w => Ext core L q s s0 /\ Is s0 w)); [naive_solver|].
  apply errs_fact. intros He. apply errs_ask_bind. intros meta.
  apply errs_lift_bind; [intros w [_ ->]; apply res_ok_metadata|intros nd Hnd].
  eapply (errs_bind _ _ _ (fun _ => Always) Always Always); [|apply triple_trivial|by intros; apply errs_ret].
  destruct (node_is_dir nd); [|apply errs_weaken, errs_copy_up].
  apply (errs_pre _ (fun w => is_Some (kv s0 (q ++ [n])) /\ Is s0 w)); [|apply errs_fact; intros Hv; by apply Hstep].
  intros w [HI ->]. split; [|done]. pose proof (metadata_kv beyond pid core L s0 w (q ++ [n]) HI Hqn) as Hm.
  rewrite Hnd in Hm. by eexists.
Qed.

Lemma materialize_errs fuel : forall h s q, plain q -> neat s -> depth_below h s -> h < length q + fuel -> 1 <= fuel ->
  errs (Is s) (mat fuel q).
Proof.
  induction fuel as [|fuel IH]; intros h s q Hq Hneat Hd Hh Hf; [lia|]. simpl.
  apply errs_lift_bind; [intros _ _; apply res_ok_visible|intros _ _].
  apply errs_ask_bind. intros meta. apply errs_lift_bind; [intros w [_ ->]; apply res_ok_metadata|intros nd ->].
  case_match; [apply errs_weaken, errs_copy_up|].
  apply (errs_pre _ (fun w => is_Some (kv s q) /\ Is s w)).
  { intros w [HI Hnd]. split; [|done]. pose proof (metadata_kv beyond pid core L s w q HI Hq) as Hm. rewrite <- Hnd in Hm. by eexists. }
  apply errs_fact. intros Hv.
  apply errs_ask_bind. intros names. apply errs_lift_bind; [intros w [_ ->]; apply res_ok_list_names|intros ns ->].
  apply (errs_pre _ (fun w => (forall n, n ∈ ns -> plain_name n = true /\ is_Some (kv s (q ++ [n]))) /\ Is s w)).
  { intros w [HI Hns]. split; [|done]. by eapply Is_names. }
  apply errs_fact. intros Hns.
  eapply (errs_bind _ _ _ (fun _ => Filling s q ns ns)); [apply errs_weaken, errs_copy_up| |intros _].
  { eapply triple_always, triple_post; [by apply copy_up_triple| |done|done].
    intros f w [_ Hc]. apply CopiedUp_Ext in Hc as (s' & HI & He & Hs). exists s'. split; [done|]. split; [done|].
    split; [by apply Hs|]. by left. }
  eapply (errs_bind _ _ _ (fun _ => Always) Always Always);
    [|apply triple_trivial|intros _; apply errs_seq; [apply errs_mark_opaque|intros _; apply errs_ret]].
  assert (forall rest, (forall n, n ∈ rest -> n ∈ ns) -> errs (Filling s q ns rest)
    (for_each rest (fun name _ =>
      let! c := lift (child q name) in
      let! meta := ask (fun w => metadata beyond core w c) in
      let! meta := lift meta in
      (if node_is_dir meta then mat fuel c else copy_up other beyond uid gid umask pid sha256_hex core c) ;; ret tt) tt)) as Hloop; [|by apply Hloop].
  induction rest as [|n rest IHrest]; intros Hsub; [apply errs_ret|].
  destruct (Hns n ltac:(apply Hsub; by left)) as [Hpn Hvn].
  eapply (errs_bind _ _ _ (fun _ => Filling s q ns rest)); [apply (fill_turn_errs fuel h); try done| |intros []; apply IHrest; intros m Hm; apply Hsub; by right].
  - intros s0 He Hv0. assert (plain (q ++ [n])) as Hqn by by apply plain_snoc.
    pose proof (depth_Ext h q s s0 He Hd) as Hd0. pose proof (Hd0 _ Hqn Hv0) as Hlen. rewrite length_app in Hlen. simpl in Hlen.
    apply (IH h); [done|by apply He|done|rewrite length_app; simpl; lia|lia].
  - eapply triple_always, fill_turn; try done; [apply Hsub; by left|].
    intros s0 He _. apply materialize_triple; try done; [by apply plain_snoc|by apply He].
Qed.

Lemma source_errs s q k : plain q -> neat s ->
  errs (Is s) (if kind_is_dir k then materialize_tree other beyond uid gid umask pid sha256_hex core q
               else copy_up other beyond uid gid umask pid sha256_hex core q).
Proof.
  intros Hq Hneat. destruct (kind_is_dir k); [|apply errs_weaken, errs_copy_up].
  apply errs_ask_bind. intros h.
  apply (errs_pre _ (fun w => depth_below h s /\ Is s w)); [intros w [HI ->]; split; [by apply height_bounds|done]|].
  apply errs_fact. intros Hd. apply (materialize_errs _ h); try done; lia.
Qed.

(** *** The operations that recurse *)

Lemma errs_drop {A B} P (m : M World O Z A) (k : A -> M World O Z B) : errs P m -> (forall a, errs Always (k a)) -> errs P (bind m k).
Proof. intros Hm Hk. eapply errs_bind; [done|apply triple_trivial|done]. Qed.

Lemma record_mapping_bind {B} s source destination (k : unit -> M World O Z B) : plain source -> neat s ->
  errs (Is s) (k tt) -> errs (Is s) (bind (record_logical_tree_mapping other beyond sha256_hex core source destination) k).
Proof.
  intros Hp Hn Hk. eapply (errs_bind _ _ _ (fun _ => Is s)); [by apply record_mapping_errs| |by intros []].
  apply record_mapping_keeps; [done|apply Is_stable].
Qed.

Lemma remove_errs s rel directory : plain rel -> neat s -> errs (Is s) (remove other beyond uid gid umask sha256_hex core rel directory).
Proof.
  intros Hp Hn. unfold remove. apply errs_lift_bind; [intros _ _; apply res_ok_visible|intros _ _].
  apply errs_ask_bind. intros r. apply errs_lift_bind; [intros _ _; by apply res_ok_or|intros resolved _].
  apply errs_ask_bind. intros m. apply errs_lift_bind; [intros _ _; by apply res_ok_or|intros meta _].
  apply (errs_pre _ (Is s)); [naive_solver|].
  eapply (errs_bind _ _ _ (fun _ => Is s)); [apply errs_weaken; errs_tac| |intros _].
  - apply triple_always with (F := Always) (C := Always). destruct directory; case_match; try (by apply triple_throw); try by apply triple_ret.
    eapply (triple_bind _ _ _ (fun _ => Is s)); [by apply triple_ask|intros names].
    eapply (triple_bind _ _ _ (fun _ => Is s)); [by apply triple_lift|intros ns]. case_match; [by apply triple_ret|by apply triple_throw].
  - apply record_mapping_bind; [done|done|]. apply errs_weaken. errs_tac.
Qed.

Lemma rename_errs s old new no_replace : plain old -> neat s ->
  errs (Is s) (rename other beyond uid gid umask pid sha256_hex core old new no_replace).
Proof.
  intros Hp Hn. unfold rename. do 2 (apply errs_lift_bind; [intros _ _; apply res_ok_visible|intros _ _]).
  case_match; [apply errs_ret|]. apply errs_ask_bind. intros m. apply errs_lift_bind; [intros w [_ ->]; apply res_ok_metadata|intros nd _].
  case_match; [by apply errs_throw|]. apply (errs_pre _ (Is s)); [by intros w []|].
  apply errs_ask_bind. intros m'. apply errs_lift_bind; [intros w [_ ->]; apply res_ok_replacement|intros replaced _].
  apply (errs_pre _ (Is s)); [by intros w []|]. do 2 (apply record_mapping_bind; [done|done|]).
  apply errs_drop; [by apply (source_errs s old (n_kind nd))|intros source]. pose proof errs_into_place. unfold temporary_path. errs_tac.
Qed.

Lemma exchange_errs s a b : plain a -> plain b -> neat s ->
  errs (Is s) (exchange other beyond uid gid umask pid sha256_hex core a b).
Proof.
  intros Ha Hb Hn. unfold exchange. do 2 (apply errs_lift_bind; [intros _ _; apply res_ok_visible|intros _ _]).
  case_match; [apply errs_ret|]. case_match; [by apply errs_throw|].
  apply errs_ask_bind. intros m. apply errs_lift_bind; [intros w [_ ->]; apply res_ok_metadata|intros na Hna].
  apply (errs_pre _ (fun w => m = metadata beyond core w a /\ Is s w)); [by intros w []|].
  apply errs_ask_bind. intros m'. apply errs_lift_bind; [intros w [_ ->]; apply res_ok_metadata|intros nb _].
  apply (errs_pre _ (fun w => kv s a = Some (n_kind na) /\ Is s w)).
  { intros w [[-> HI] _]. split; [|done]. pose proof (metadata_kv beyond pid core L s w a HI Ha) as Hm. by rewrite Hna in Hm. }
  apply errs_fact. intros Hka. do 4 (apply record_mapping_bind; [done|done|]).
  eapply (errs_bind _ _ _ (Materialized pid core L s a)); [by apply (source_errs s a (n_kind na))| |intros fa].
  { by eapply triple_always, (source_triple other beyond uid gid umask pid sha256_hex core L others_quiet has_work lowers_copyable lowers_lawful excluded_plain s a (n_kind na)). }
  apply errs_fact. intros ->. apply errs_exists. intros s1.
  apply (errs_pre _ (fun w => neat s1 /\ Is s1 w)); [intros w (HI & He & _); split; [by apply He|done]|].
  apply errs_fact. intros Hn1. apply errs_drop; [by apply (source_errs s1 b (n_kind nb))|intros fb]. unfold temporary_path. errs_tac.
Qed.

Lemma create_file_errs rel mode flags : errs (O:=O) Always (create_file other beyond uid gid umask sha256_hex core rel mode flags).
Proof. pose proof errs_prepare. unfold create_file, open_new. cbv zeta. errs_tac. Qed.
Lemma create_dir_errs rel mode : errs (O:=O) Always (create_dir other beyond uid gid umask sha256_hex core rel mode).
Proof. pose proof errs_prepare. unfold create_dir, fs_create_dir, set_permissions. errs_tac. Qed.
Lemma create_symlink_errs rel target : errs (O:=O) Always (create_symlink other beyond uid gid umask sha256_hex core rel target).
Proof. pose proof errs_prepare. unfold create_symlink, fs_symlink. errs_tac. Qed.
Lemma create_node_errs rel mode rdev : errs (O:=O) Always (create_node other beyond uid gid umask sha256_hex core rel mode rdev).
Proof. pose proof errs_prepare. unfold create_node. errs_tac. Qed.
Lemma hard_link_errs a b : errs (O:=O) Always (hard_link other beyond uid gid umask pid sha256_hex core a b).
Proof. unfold hard_link. errs_tac. Qed.
End Calls.
