(* ===== verification/OverlaySpec.v ===== *)
(** * The overlay as a tree

    What a client of [OverlayCore] relies on, stated without layers, whiteouts
    or copies: the overlay shows one tree of kinds, each operation changes that
    tree as the system call of its name does, and an operation the tree does
    not allow is refused with the error number POSIX gives it, with nothing
    changed. *)

From Stdlib Require Import ZArith Lia.
From stdpp Require Import base list strings gmap pretty sorting.
From S2P Require Import Prelude Effects OverlayFs OverlayCore OverlayView OverlaySteps OverlayShape OverlayCopy OverlayEdit OverlayMove OverlayExchange OverlayDepth.
#[local] Set Warnings "-clear-no-such-hyp".
Open Scope string_scope.
Open Scope list_scope.
Open Scope effect_scope.

(** ** The abstract tree *)

Definition Tree : Type := Path -> option Kind.

Inductive Op :=
| OpCopyUp (rel : Path)
| OpCreateFile (rel : Path) (mode flags : Z)
| OpCreateDir (rel : Path) (mode : Z)
| OpCreateSymlink (rel : Path) (target : string)
| OpCreateNode (rel : Path) (mode rdev : Z)
| OpRemove (rel : Path) (directory : bool)
| OpRename (old new : Path) (no_replace : bool)
| OpHardLink (source destination : Path)
| OpExchange (first second : Path).

Definition put_tree (p : Path) (k : Kind) (t : Tree) : Tree := fun q => if decide (q = p) then Some k else t q.
Definition prune_tree (p : Path) (t : Tree) : Tree := fun q => if under p q then None else t q.
Definition move_tree (old new : Path) (t : Tree) : Tree := fun q =>
  if under new q then t (old ++ drop (length new) q) else if under old q then None else t q.
Definition swap_tree (a b : Path) (t : Tree) : Tree := fun q =>
  if under a q then t (b ++ drop (length a) q) else if under b q then t (a ++ drop (length b) q) else t q.

(** What each operation does to the tree. *)
Definition tree_step (op : Op) (t : Tree) : Tree :=
  match op with
  | OpCopyUp _ => t
  | OpCreateFile rel _ _ => put_tree rel (KFile "") t
  | OpCreateDir rel _ => put_tree rel KDir t
  | OpCreateSymlink rel target => put_tree rel (KSymlink target) t
  | OpCreateNode rel mode rdev => put_tree rel (node_kind mode rdev) t
  | OpRemove rel _ => prune_tree rel t
  | OpRename old new _ => move_tree old new t
  | OpHardLink source destination =>
      match t source with Some k => put_tree destination k t | None => t end
  | OpExchange a b => swap_tree a b t
  end.

(** The paths an operation names. *)
Definition op_paths (op : Op) : list Path :=
  match op with
  | OpCopyUp rel | OpCreateFile rel _ _ | OpCreateDir rel _ | OpCreateSymlink rel _
  | OpCreateNode rel _ _ | OpRemove rel _ => [rel]
  | OpRename old new _ => [old; new]
  | OpHardLink a b | OpExchange a b => [a; b]
  end.

(** The path an operation creates. *)
Definition creates (op : Op) : option Path :=
  match op with
  | OpCreateFile rel _ _ | OpCreateDir rel _ | OpCreateSymlink rel _ | OpCreateNode rel _ _ => Some rel
  | _ => None
  end.

(** The operations a tree does not allow, with their error numbers. *)
Inductive refused (excluded : Path -> bool) (t : Tree) : Op -> Z -> Prop :=
| refuse_excluded op p : p ∈ op_paths op -> excluded p = true -> refused excluded t op ENOENT
| refuse_create op rel : creates op = Some rel -> is_Some (t rel) -> refused excluded t op EEXIST
| refuse_remove_missing rel d : t rel = None -> refused excluded t (OpRemove rel d) ENOENT
| refuse_rmdir_file rel k : t rel = Some k -> k <> KDir -> refused excluded t (OpRemove rel true) ENOTDIR
| refuse_unlink_dir rel : t rel = Some KDir -> refused excluded t (OpRemove rel false) EISDIR
| refuse_rmdir_full rel n : t rel = Some KDir -> plain_name n = true -> is_Some (t (rel ++ [n])) ->
    refused excluded t (OpRemove rel true) ENOTEMPTY
| refuse_rename_missing old new nr : old <> new -> t old = None -> refused excluded t (OpRename old new nr) ENOENT
| refuse_rename_into_itself old new nr : old <> new -> t old = Some KDir -> under old new = true -> excluded new = false ->
    refused excluded t (OpRename old new nr) EINVAL
| refuse_rename_exists old new k : old <> new -> t old = Some k -> (k = KDir -> under old new = false) -> is_Some (t new) ->
    refused excluded t (OpRename old new true) EEXIST
| refuse_rename_dir_over_file old new k : t old = Some KDir -> under old new = false -> t new = Some k -> k <> KDir ->
    refused excluded t (OpRename old new false) ENOTDIR
| refuse_rename_file_over_dir old new k : t old = Some k -> k <> KDir -> t new = Some KDir ->
    refused excluded t (OpRename old new false) EISDIR
| refuse_rename_full old new n : t old = Some KDir -> under old new = false -> t new = Some KDir ->
    plain_name n = true -> is_Some (t (new ++ [n])) -> refused excluded t (OpRename old new false) ENOTEMPTY
| refuse_link_missing a b : t a = None -> refused excluded t (OpHardLink a b) ENOENT
| refuse_link_dir a b : t a = Some KDir -> excluded b = false -> refused excluded t (OpHardLink a b) EPERM
| refuse_link_exists a b k : t a = Some k -> k <> KDir -> is_Some (t b) -> refused excluded t (OpHardLink a b) EEXIST
| refuse_exchange_nested a b : a <> b -> excluded a = false -> excluded b = false -> under a b || under b a = true ->
    refused excluded t (OpExchange a b) EINVAL
| refuse_exchange_missing a b : a <> b -> under a b = false -> under b a = false -> t a = None \/ t b = None ->
    refused excluded t (OpExchange a b) ENOENT.

Section Spec.
Context {O : Type} (other : O -> World -> World) (beyond : World -> FPath -> Path -> option Node).
Context (uid gid umask : Z) (pid : string) (sha256_hex : string -> string) (core : OverlayCore) (L : list Layer).

Implicit Types (p q : Path) (n : string) (w : World) (op : Op).
Abbreviation Fs A := (M World O Z A).

(** The tree the overlay shows. *)
Definition shown w : Tree := fun p => n_kind <$> view beyond core w p.

Definition run_op op : Fs unit :=
  match op with
  | OpCopyUp rel => copy_up other beyond uid gid umask pid sha256_hex core rel ;; ret tt
  | OpCreateFile rel mode flags => create_file other beyond uid gid umask sha256_hex core rel mode flags
  | OpCreateDir rel mode => create_dir other beyond uid gid umask sha256_hex core rel mode
  | OpCreateSymlink rel target => create_symlink other beyond uid gid umask sha256_hex core rel target
  | OpCreateNode rel mode rdev => create_node other beyond uid gid umask sha256_hex core rel mode rdev
  | OpRemove rel directory => remove other beyond uid gid umask sha256_hex core rel directory
  | OpRename old new no_replace => rename other beyond uid gid umask pid sha256_hex core old new no_replace
  | OpHardLink source destination => hard_link other beyond uid gid umask pid sha256_hex core source destination
  | OpExchange a b => exchange other beyond uid gid umask pid sha256_hex core a b
  end.
Definition run_ops (ops : list Op) : Fs unit := for_each ops (fun op _ => run_op op) tt.

(** The paths are made of ordinary names and are not the root; a tree is not
    moved over an excluded path. *)
Definition admissible op : Prop :=
  Forall plain (op_paths op) /\ Forall (fun p => p <> []) (op_paths op)
  /\ match op with
     | OpRename _ new _ => forall r, is_excluded core (new ++ r) = false
     | OpExchange a b => forall r, is_excluded core (a ++ r) = false /\ is_excluded core (b ++ r) = false
     | _ => True
     end.

(** The invariant of the directories: a tree, the given lowers, unused temporary
    names, and no whiteout next to what it would hide. *)
Definition Ready w : Prop := Is pid L (usum w) w /\ neat core (usum w).

(** ** Refusals *)

Lemma shown_visible w p : plain p -> is_Some (shown w p) -> is_excluded core p = false.
Proof.
  intros Hp [k Hk]. destruct (is_excluded core p) eqn:E; [|done]. unfold shown in Hk. by rewrite view_excluded in Hk.
Qed.

Lemma shown_Some w p k : plain p -> shown w p = Some k ->
  require_visible core p = Ok tt
  /\ exists nd r, n_kind nd = k /\ resolve beyond core w p = Some r /\ loc_node beyond w (rs_path r) = Some nd
     /\ metadata beyond core w p = Ok nd.
Proof.
  intros Hp Hk. rewrite require_visible_plain, (shown_visible w p) by (done || (by rewrite Hk)). split; [done|].
  rewrite metadata_view by done. unfold shown, view in *. destruct (resolve beyond core w p) as [r|]; [|done].
  destruct (loc_node beyond w (rs_path r)) as [nd|] eqn:E; [|done]. injection Hk as Hk. by exists nd, r.
Qed.

Lemma shown_None w p : wf w -> plain p -> shown w p = None ->
  resolve beyond core w p = None /\ metadata beyond core w p = Err ENOENT.
Proof.
  intros Hw Hp Hk. unfold shown in Hk. apply fmap_None in Hk. rewrite metadata_view, Hk by done. split; [|done].
  apply eq_None_not_Some. rewrite resolve_view, Hk by done. by intros [].
Qed.

Lemma dir_kind nd k : n_kind nd = k -> k <> KDir -> node_is_dir nd = false.
Proof. unfold node_is_dir. intros ->. by destruct k. Qed.
Lemma dir_kind_true nd : n_kind nd = KDir -> node_is_dir nd = true.
Proof. unfold node_is_dir. by intros ->. Qed.

Lemma listing_full w p n : wf w -> unshadowed w -> Forall LayerLaws (w_lowers w) -> plain p ->
  shown w p = Some KDir -> plain_name n = true -> is_Some (shown w (p ++ [n])) ->
  exists names, list_names beyond core w p = Ok names /\ names <> [].
Proof.
  intros Hw Hu Hl Hp Hd Hn Hs. pose proof (list_names_spec beyond core w p Hw Hu Hl Hp) as H.
  unfold shown in *. destruct (list_names beyond core w p) as [names|].
  - destruct H as (_ & _ & H). exists names. split; [done|]. intros ->. apply (elem_of_nil n), H.
    split; [done|]. by apply fmap_is_Some in Hs.
  - destruct (view beyond core w p) as [nd|]; [|done]. injection Hd as Hd. simpl in H. by rewrite dir_kind_true in H.
Qed.

(** A computation that stops at once. *)
Definition stops {A} (m : Fs A) w e : Prop := forall envs, m envs w = (Done (Err e) envs, w).

Lemma stops_throw {A} w e : stops (throw (A:=A) e) w e.
Proof. by intros envs. Qed.
Lemma stops_lift {A B} (r : result Z A) (k : A -> Fs B) w e : r = Err e -> stops (bind (lift r) k) w e.
Proof. by intros -> envs. Qed.
Lemma stops_ok {A B} (r : result Z A) a (k : A -> Fs B) w e : r = Ok a -> stops (k a) w e -> stops (bind (lift r) k) w e.
Proof. intros -> H envs. apply H. Qed.
Lemma stops_ask {A B} (f : World -> A) a (k : A -> Fs B) w e : f w = a -> stops (k a) w e -> stops (bind (ask f) k) w e.
Proof. intros <- H envs. apply H. Qed.
Lemma stops_bind {A B} (m : Fs A) (k : A -> Fs B) w e : stops m w e -> stops (bind m k) w e.
Proof. intros H envs. unfold bind. by rewrite H. Qed.

Lemma refuse_visible {A} p (k : unit -> Fs A) w e : plain p ->
  (is_excluded core p = true -> e = ENOENT) -> (is_excluded core p = false -> stops (k tt) w e) ->
  stops (bind (lift (require_visible core p)) k) w e.
Proof.
  intros Hp Hx Hk. rewrite require_visible_plain by done. destruct (is_excluded core p) eqn:E.
  - rewrite Hx by done. by apply stops_lift.
  - by apply (stops_ok _ tt); [|apply Hk].
Qed.

Lemma prepare_create_refused w rel e : plain rel -> wf w ->
  is_excluded core rel = true /\ e = ENOENT \/ is_Some (shown w rel) /\ e = EEXIST ->
  stops (prepare_create other beyond sha256_hex core rel) w e.
Proof.
  intros Hp Hw H. unfold prepare_create. apply refuse_visible; [done| |].
  - destruct H as [[_ ->]|[Hs _]]; [done|]. apply shown_visible in Hs; [|done]. congruence.
  - intros Hx. destruct H as [[? _]|[[k Hk] ->]]; [congruence|].
    apply shown_Some in Hk as (_ & nd & r & _ & Hr & _); [|done].
    eapply stops_ask; [exact Hr|]. apply stops_throw.
Qed.

Ltac shown_cases := repeat match goal with
  | H : shown _ ?p = Some ?k |- _ =>
      let nd := fresh "nd" in let r := fresh "r" in let Hk := fresh "Hk" in
      let Hr := fresh "Hr" in let Hloc := fresh "Hloc" in let Hm := fresh "Hm" in
      apply shown_Some in H as (_ & nd & r & Hk & Hr & Hloc & Hm); [|done]
  | H : shown _ ?p = None |- _ =>
      let Hr := fresh "Hr" in let Hm := fresh "Hm" in apply shown_None in H as [Hr Hm]; [|done|done]
  end.

Ltac run_head := repeat first
  [ progress cbv beta
  | eapply stops_ok; [first [reflexivity | eassumption]|]
  | eapply stops_ask; [first [eassumption | reflexivity]|] ].

Lemma remove_refused w rel d e : wf w -> unshadowed w -> Forall LayerLaws (w_lowers w) -> plain rel ->
  refused (is_excluded core) (shown w) (OpRemove rel d) e -> stops (remove other beyond uid gid umask sha256_hex core rel d) w e.
Proof.
  intros Hw Hu Hl Hp H. unfold remove. apply refuse_visible; [done|intros Hx|intros Hx].
  - assert (shown w rel = None) as HN by (unfold shown; by rewrite view_excluded). inversion H; subst; try done; congruence.
  - inversion H as [? p Hin Hxp|? ? Hcr|? ? HN|? k Hk Hne|? Hk|? n Hk Hn Hfull| | | | | | | | | | |]; subst; try done.
    + apply list_elem_of_singleton in Hin as ->. congruence.
    + shown_cases. eapply stops_ask; [exact Hr|]. by apply stops_lift.
    + shown_cases. run_head. apply stops_bind. rewrite (dir_kind _ _ Hk0 Hne). apply stops_throw.
    + shown_cases. run_head. apply stops_bind. rewrite (dir_kind_true _ Hk0). apply stops_throw.
    + destruct (listing_full w rel n) as (names & Hnames & Hne); [done..|].
      shown_cases. run_head. apply stops_bind. rewrite (dir_kind_true _ Hk0).
      eapply stops_ask; [exact Hnames|]. run_head. rewrite bool_decide_false by done. apply stops_throw.
Qed.

(** The destination of a rename. *)
Lemma validate_refused w old new nr e : wf w -> unshadowed w -> Forall LayerLaws (w_lowers w) -> plain old -> plain new ->
  refused (is_excluded core) (shown w) (OpRename old new nr) e ->
  is_excluded core new = false -> is_Some (shown w old) -> (shown w old = Some KDir -> under old new = false) ->
  validate_replacement beyond core old new nr w = Err e.
Proof.
  intros Hw Hu Hl Hpo Hpn H Hx Hvis Hun. unfold validate_replacement.
  inversion H as [? p Hin Hxp| | | | | |? ? ? ? HN|? ? ? ? Hk Hunder|? ? k ? Hk ? Hnew|? ? k Hk ? Hnew Hkd|? ? k Hk Hkd Hnew
    |? ? n Hk ? Hnew Hn Hfull| | | | |]; subst; try done.
  - apply elem_of_cons in Hin as [->|Hin%list_elem_of_singleton]; [|subst; congruence].
    apply shown_visible in Hvis; [congruence|done].
  - rewrite HN in Hvis. by destruct Hvis.
  - rewrite Hun in Hunder; done.
  - destruct Hnew as [k' Hnew]. shown_cases. by rewrite Hr.
  - shown_cases. rewrite Hr, Hm0. simpl. rewrite Hloc. simpl. by rewrite (dir_kind _ _ Hk0 Hkd), (dir_kind_true _ Hk1).
  - shown_cases. rewrite Hr, Hm0. simpl. rewrite Hloc. simpl. by rewrite (dir_kind_true _ Hk0), (dir_kind _ _ Hk1 Hkd).
  - destruct (listing_full w new n) as (names & Hnames & Hne); [done..|].
    shown_cases. rewrite Hr, Hm0. simpl. rewrite Hloc. simpl. rewrite (dir_kind_true _ Hk0), (dir_kind_true _ Hk1), Hnames. simpl.
    by rewrite bool_decide_false.
Qed.

Lemma shown_excluded w p : plain p -> is_excluded core p = true -> shown w p = None.
Proof. intros Hp Hx. unfold shown. by rewrite view_excluded. Qed.

Lemma rename_refused w old new nr e : wf w -> unshadowed w -> Forall LayerLaws (w_lowers w) -> plain old -> plain new ->
  refused (is_excluded core) (shown w) (OpRename old new nr) e ->
  stops (rename other beyond uid gid umask pid sha256_hex core old new nr) w e.
Proof.
  intros Hw Hu Hl Hpo Hpn H. unfold rename. apply refuse_visible; [done| |].
  { intros Hx%(shown_excluded w); [|done]. inversion H; subst; (done || congruence). }
  intros Hxo. apply refuse_visible; [done| |].
  { intros Hx. pose proof (shown_excluded w new Hpn Hx). inversion H; subst; try (done || congruence);
      match goal with Hs : is_Some _ |- _ => destruct Hs; congruence end. }
  intros Hxn. rewrite bool_decide_false; [|intros ->; inversion H; subst; try (done || congruence); try (rewrite under_refl in *; congruence);
    match goal with Hin : _ ∈ _ |- _ => apply elem_of_cons in Hin as [->|Hin%list_elem_of_singleton]; subst; congruence end].
  destruct (shown w old) as [k|] eqn:Ek.
  - pose proof Ek as Ek'. apply shown_Some in Ek' as (_ & nd & r & Hk & Hr & Hloc & Hm); [|done]. run_head.
    destruct (node_is_dir nd && under old new) eqn:Eself.
    + apply andb_true_iff in Eself as [Hd Hun]. assert (k = KDir) as -> by (unfold node_is_dir, kind_is_dir in Hd; by destruct (n_kind nd)).
      assert (e = EINVAL) as ->; [|apply stops_throw].
      inversion H as [? p Hin| | | | | | | |? ? k ? Hk' Hnot| | | | | | | |]; subst; try (done || congruence).
      * apply elem_of_cons in Hin as [->|Hin%list_elem_of_singleton]; subst; congruence.
      * rewrite Hnot in Hun; congruence.
    + eapply stops_ask; [eapply validate_refused; try done|by apply stops_lift].
      rewrite Ek. intros [= ->]. by rewrite (dir_kind_true _ Hk) in Eself.
  - destruct (shown_None w old) as [_ Hm]; [done..|]. eapply stops_ask; [exact Hm|].
    inversion H; subst; try (done || congruence); by apply stops_lift.
Qed.

Lemma hard_link_refused w a b e : wf w -> plain a -> plain b ->
  refused (is_excluded core) (shown w) (OpHardLink a b) e ->
  stops (hard_link other beyond uid gid umask pid sha256_hex core a b) w e.
Proof.
  intros Hw Hpa Hpb H. unfold hard_link. apply refuse_visible; [done| |].
  { intros Hx%(shown_excluded w); [|done]. inversion H; subst; (done || congruence). }
  intros Hxa. apply refuse_visible; [done| |].
  { intros Hx. pose proof (shown_excluded w b Hpb Hx). inversion H; subst; try (done || congruence);
      match goal with Hs : is_Some _ |- _ => destruct Hs; congruence end. }
  intros Hxb. inversion H as [? p Hin| | | | | | | | | | | |? ? HN|? ? Hk|? ? k Hk Hkd [k' Hb]| |]; subst; try done.
  - apply elem_of_cons in Hin as [->|Hin%list_elem_of_singleton]; subst; congruence.
  - shown_cases. eapply stops_ask; [exact Hm|]. by apply stops_lift.
  - shown_cases. run_head. rewrite (dir_kind_true _ Hk0). apply stops_throw.
  - shown_cases. eapply stops_ask; [exact Hm0|]. eapply stops_ok; [done|]. rewrite (dir_kind _ _ Hk1 Hkd).
    eapply stops_ask; [exact Hr|]. apply stops_throw.
Qed.

Lemma exchange_refused w a b e : wf w -> plain a -> plain b ->
  refused (is_excluded core) (shown w) (OpExchange a b) e ->
  stops (exchange other beyond uid gid umask pid sha256_hex core a b) w e.
Proof.
  intros Hw Hpa Hpb H. unfold exchange. apply refuse_visible; [done| |].
  { intros Hx. inversion H; subst; (done || congruence). }
  intros Hxa. apply refuse_visible; [done| |].
  { intros Hx. inversion H; subst; (done || congruence). }
  intros Hxb. inversion H as [? p Hin| | | | | | | | | | | | | | |? ? Hne ? ? Hun|? ? Hne Hab Hba HN]; subst; try done.
  - apply elem_of_cons in Hin as [->|Hin%list_elem_of_singleton]; subst; congruence.
  - rewrite bool_decide_false, orb_comm, Hun by done. apply stops_throw.
  - rewrite bool_decide_false, Hab, Hba by done. cbn [orb]. destruct (shown w a) as [k|] eqn:Ea.
    + shown_cases. run_head. destruct HN as [|HN]; [done|]. destruct (shown_None w b) as [_ Hmb]; [done..|].
      by apply stops_lift.
    + shown_cases. eapply stops_ask; [exact Hm|]. by apply stops_lift.
Qed.

Lemma op_refused op w e : Forall LayerLaws L -> Ready w -> Forall plain (op_paths op) ->
  refused (is_excluded core) (shown w) op e -> stops (run_op op) w e.
Proof.
  intros Hl [HI [Ht _]] Hp H. pose proof HI as (Hw & HL & _). rewrite <- HL in Hl.
  apply (tidy_unshadowed pid L _ w HI) in Ht.
  assert (forall rel, creates op = Some rel -> stops (prepare_create other beyond sha256_hex core rel) w e) as Hcreate.
  { intros rel Hc. apply prepare_create_refused; [|done|].
    - destruct op; simplify_eq/=; by apply Forall_cons_1 in Hp as [? _].
    - inversion H as [? p Hin Hx|? rel' Hc'| | | | | | | | | | | | | | |]; subst; simplify_eq/=; [left|by right].
      destruct op; simplify_eq/=; by apply list_elem_of_singleton in Hin as ->. }
  destruct op; simpl in *; try (apply stops_bind; by apply Hcreate).
  - apply Forall_cons_1 in Hp as [Hp _]. apply stops_bind, refuse_visible; [done| |]; intros Hx; inversion H; subst; try done.
    match goal with Hin : _ ∈ _ |- _ => apply list_elem_of_singleton in Hin as -> end. congruence.
  - apply Forall_cons_1 in Hp as [Hp _]. by apply remove_refused.
  - apply Forall_cons_1 in Hp as [Hp [Hp' _]%Forall_cons_1]. by apply rename_refused.
  - apply Forall_cons_1 in Hp as [Hp [Hp' _]%Forall_cons_1]. by apply hard_link_refused.
  - apply Forall_cons_1 in Hp as [Hp [Hp' _]%Forall_cons_1]. by apply exchange_refused.
Qed.

(** ** Refinement *)

(** Trees are compared on the paths a client can name. *)
Definition tree_eq (t t' : Tree) : Prop := forall p, plain p -> t p = t' p.

#[local] Instance tree_eq_equivalence : Equivalence tree_eq.
Proof.
  split.
  - by intros t p Hp.
  - intros t t' H p Hp. symmetry. by apply H.
  - intros t1 t2 t3 H1 H2 p Hp. rewrite H1 by done. by apply H2.
Qed.

Lemma plain_moved (a b p : Path) : plain b -> plain p -> plain (b ++ drop (length a) p).
Proof. intros Hb Hp. apply plain_app. split; [done|]. by apply Forall_drop. Qed.

Lemma tree_step_proper op t t' : Forall plain (op_paths op) -> tree_eq t t' -> tree_eq (tree_step op t) (tree_step op t').
Proof.
  intros Hop H p Hp. assert (t p = t' p) as Hpp by by apply H.
  destruct op; simpl in *; unfold put_tree, prune_tree, move_tree, swap_tree; try (by case_match).
  - done.
  - apply Forall_cons_1 in Hop as [Ho _]. repeat case_match; try done. apply H. by apply plain_moved.
  - apply Forall_cons_1 in Hop as [Ho _]. rewrite H by done. destruct (t' source); [|done]. unfold put_tree. by case_match.
  - apply Forall_cons_1 in Hop as [Ha [Hb _]%Forall_cons_1]. repeat case_match; try done; apply H; by apply plain_moved.
Qed.

Lemma neat_ext s s' : (forall p, s' p = s p) -> neat core s -> neat core s'.
Proof.
  intros He [Ht Hc]. split.
  - intros p n Hn. rewrite !He. by apply Ht.
  - intros p Hx. rewrite He. by apply Hc.
Qed.

Lemma Is_Ready s w : Is pid L s w -> neat core s -> Ready w.
Proof.
  intros HI Hn. pose proof HI as (Hw & HL & Hs & Ht). split; [by split_and!|]. by eapply neat_ext.
Qed.

Lemma Is_shown s w p : Is pid L s w -> plain p -> shown w p = kv core L s p.
Proof. apply Is_view. Qed.

Context (others_quiet : forall o w, other o w = w).
Context (has_work : oc_work core = true).
Context (lowers_copyable : forall l p st, l ∈ L -> ly_lstat l p = Some st -> copyable st).
Context (lowers_lawful : Forall LayerLaws L).
Context (excluded_plain : Forall plain (oc_excluded core)).

(** The state of the directories when the tree is [t]. *)
Definition Shown (t : Tree) w : Prop := Ready w /\ tree_eq (shown w) t.

(** What an operation does to the summary of the upper directory. *)
Definition Stepped op s w : Prop := exists s', Is pid L s' w
  /\ (forall p, plain p -> kv core L s' p = tree_step op (kv core L s) p) /\ (neat core s -> neat core s').

Lemma Created_Stepped op k rel s w : (forall p, tree_step op (kv core L s) p = put_tree rel k (kv core L s) p) ->
  Created pid core L k rel s w -> Stepped op s w.
Proof. intros Ht (s' & HI & Hv & Hn). exists s'. split; [done|]. split; [|done]. intros p Hp. rewrite Ht. by apply Hv. Qed.

Lemma op_shape_triple op s : admissible op -> neat core s ->
  triple (Is pid L s) (run_op op) (fun _ => Stepped op s) (Any pid L) (Any pid L).
Proof.
  intros (Hop & Hne & Hx) Hneat. destruct op; simpl in *;
    apply Forall_cons_1 in Hop as [Hp Hop]; apply Forall_cons_1 in Hne as [Hr Hne].
  - eapply (triple_bind _ _ _ (fun _ => Stepped (OpCopyUp rel) s)); [|intros ?; by apply triple_ret].
    eapply triple_post; [by apply copy_up_triple| |apply Good_Any|apply Good_Any].
    intros f w [_ (s' & HI & Hk & _)]. exists s'. split; [done|]. split; [apply Hk|]. by apply (neat_keeps core L).
  - eapply triple_post; [by apply create_file_triple| |done|done]. intros ? w. by apply Created_Stepped.
  - eapply triple_post; [by apply create_dir_triple| |done|done]. intros ? w. by apply Created_Stepped.
  - eapply triple_post; [by apply create_symlink_triple| |done|done]. intros ? w. by apply Created_Stepped.
  - eapply triple_post; [by apply create_node_triple| |done|done]. intros ? w. by apply Created_Stepped.
  - by apply remove_triple.
  - apply Forall_cons_1 in Hop as [Hp' _]. apply Forall_cons_1 in Hne as [Hr' _]. by apply rename_triple.
  - apply Forall_cons_1 in Hop as [Hp' _]. eapply triple_post; [by apply hard_link_triple| |done|done].
    intros ? w (k & Hk & Hc). eapply Created_Stepped; [|exact Hc]. intros p. simpl. by rewrite Hk.
  - apply Forall_cons_1 in Hop as [Hp' _]. apply exchange_triple; try done; intros r; apply Hx.
Qed.

Lemma op_triple op t : admissible op -> triple (Shown t) (run_op op) (fun _ => Shown (tree_step op t)) (Any pid L) (Any pid L).
Proof.
  intros Hop envs w [[HI Hneat] Ht]. pose proof (op_shape_triple op (usum w) Hop Hneat envs w HI) as H.
  destruct (run_op op envs w) as [[|[?|?] rest] w']; try done.
  destruct H as (s' & HI' & Hk & Hn). split; [eapply Is_Ready; [exact HI'|auto]|]. intros p Hp.
  rewrite (Is_shown s' w'), Hk by done. apply tree_step_proper; [apply Hop| |done].
  intros q Hq. rewrite <- Ht by done. by rewrite (Is_shown (usum w) w).
Qed.

Lemma ops_triple ops t : Forall admissible ops ->
  triple (Shown t) (run_ops ops) (fun _ => Shown (fold_left (fun t op => tree_step op t) ops t)) (Any pid L) (Any pid L).
Proof.
  unfold run_ops. revert t. induction ops as [|op ops IH]; intros t Hops; simpl; [by apply triple_ret|].
  apply Forall_cons_1 in Hops as [Hop Hops]. eapply triple_bind; [by apply op_triple|intros []]. by apply IH.
Qed.

(** Errors are error numbers. *)
Lemma op_errs op w : Ready w -> Forall plain (op_paths op) -> errs (fun w' => w' = w) (run_op op).
Proof.
  intros [HI Hn] Hp. apply (errs_pre _ (Is pid L (usum w))); [by intros ? ->|].
  destruct op; simpl in *; apply Forall_cons_1 in Hp as [Hp Hp'].
  - apply errs_weaken, errs_seq; [apply errs_copy_up|intros ?; apply errs_ret].
  - apply errs_weaken, create_file_errs.
  - apply errs_weaken, create_dir_errs.
  - apply errs_weaken, create_symlink_errs.
  - apply errs_weaken, create_node_errs.
  - by apply remove_errs.
  - by apply rename_errs.
  - apply errs_weaken, hard_link_errs.
  - apply Forall_cons_1 in Hp' as [Hp' _]. by apply exchange_errs.
Qed.
End Spec.
