(* ===== verification/OverlayJournal.v ===== *)
(** * The preimage journal

    Before the overlay first changes a path it records what the lowest layer
    has there.  Whatever the operations do, fail at or die in, a record that was
    written stays as it is, and it is the fingerprint of its path in that
    layer: publishing can compare the target with it. *)

From Stdlib Require Import ZArith Lia.
From stdpp Require Import base list strings gmap pretty sorting.
From S2P Require Import Prelude Effects OverlayFs OverlayCore OverlayView OverlayCopy OverlayEdit OverlayMove OverlayExchange OverlayDepth OverlaySpec.
#[local] Set Warnings "-clear-no-such-hyp".
Open Scope string_scope.
Open Scope list_scope.
Open Scope effect_scope.

Create HintDb journal.

(** ** Code that keeps a property of the journal *)

Section Safe.
Context {O : Type} (other : O -> World -> World).
Context (others_quiet : forall o w, other o w = w).
Abbreviation Fs A := (M World O Z A).
Context (J : World -> Prop).

Definition safe {A} (m : Fs A) : Prop := triple J m (fun _ => J) J J.

Lemma safe_ret {A} (a : A) : safe (ret a).
Proof. by apply triple_ret. Qed.
Lemma safe_throw {A} e : safe (throw (A:=A) e).
Proof. by apply triple_throw. Qed.
Lemma safe_ask {A} (f : World -> A) : safe (ask f).
Proof. by apply triple_ask. Qed.
Lemma safe_lift {A} (r : result Z A) : safe (lift r).
Proof. by apply triple_lift. Qed.
Lemma safe_bind {A B} (m : Fs A) (k : A -> Fs B) : safe m -> (forall a, safe (k a)) -> safe (bind m k).
Proof. intros Hm Hk. by eapply triple_bind. Qed.
Lemma safe_attempt {A} (m : Fs A) : safe m -> safe (attempt m).
Proof. intros Hm. by eapply (triple_attempt _ _ (fun _ => J)). Qed.
Lemma safe_for {X A} (l : list X) (body : X -> A -> Fs A) a : (forall x a, safe (body x a)) -> safe (for_each l body a).
Proof. intros H. apply (triple_for (fun (_ : list X) (_ : A) => J)). intros x rest b. apply H. Qed.

(** The property does not look at the tree, the links or the counter. *)
Context (blind : forall w w', w_lowers w' = w_lowers w -> w_journal w' = w_journal w -> J w -> J w').

Lemma safe_modify f : (forall w, w_lowers (f w) = w_lowers w /\ w_journal (f w) = w_journal w) -> safe (modify f).
Proof. intros Hf. apply triple_modify. intros w. by apply blind; destruct (Hf w). Qed.

Lemma safe_sys {A} (f : World -> result Z A * World) :
  (forall w, w_lowers (snd (f w)) = w_lowers w /\ w_journal (snd (f w)) = w_journal w) -> safe (sys other f).
Proof.
  intros Hf. apply triple_sys; [done|done|done|]. intros w Hw. specialize (Hf w).
  destruct (f w) as [[a|e] w'] eqn:E; simpl in Hf; [split|]; by eapply blind; [apply Hf|apply Hf|].
Qed.
End Safe.

#[export] Hint Resolve safe_ret safe_throw safe_ask safe_lift : journal.
Ltac safe_step := first
  [ assumption | solve [eauto 2 with journal] | apply safe_attempt | apply safe_for; intros | apply safe_bind; [|intros ?]
  | apply safe_modify; [assumption|by intros] | case_match ].
Ltac safe_tac := repeat safe_step.

(** ** Every operation *)

Section Ops.
Context {O : Type} (other : O -> World -> World) (beyond : World -> FPath -> Path -> option Node).
Context (uid gid umask : Z) (pid : string) (sha256_hex : string -> string) (core : OverlayCore).
Context (others_quiet : forall o w, other o w = w).
Context (J : World -> Prop).
Context (blind : forall w w', w_lowers w' = w_lowers w -> w_journal w' = w_journal w -> J w -> J w').
Context (records : forall rel, safe J (record_preimage other sha256_hex core rel)).
Abbreviation safe := (safe (O:=O) J).

Lemma safe_create nd f : safe (sys other (create nd f)).
Proof. apply safe_sys; [done|done|]. intros w. unfold create. by repeat case_match. Qed.
Lemma safe_change g f : safe (sys other (change g f)).
Proof. apply safe_sys; [done|done|]. intros w. unfold change. by repeat case_match. Qed.
Lemma safe_link a b : safe (fs_hard_link other a b).
Proof. apply safe_sys; [done|done|]. intros w. unfold link. by repeat case_match. Qed.
Lemma safe_rename a b : safe (fs_rename other a b).
Proof. apply safe_sys; [done|done|]. intros w. unfold rename_entry. by repeat case_match. Qed.
Lemma safe_remove_file f : safe (remove_file other f).
Proof. apply safe_sys; [done|done|]. intros w. unfold unlink. by repeat case_match. Qed.
Lemma safe_remove_any f : safe (remove_any other f).
Proof. apply safe_sys; [done|done|]. intros w. unfold rmdir, unlink. by repeat case_match. Qed.
Lemma safe_write f c : safe (write_all other f c).
Proof. apply safe_sys; [done|done|]. intros w. unfold change. by repeat case_match. Qed.
Lemma safe_mknod f mode rdev : safe (mknod other uid gid umask f mode rdev).
Proof. unfold mknod. repeat case_match; try apply safe_throw; apply safe_create. Qed.
#[local] Hint Resolve safe_create safe_change safe_link safe_rename safe_remove_file safe_remove_any safe_write safe_mknod : journal.

Lemma safe_remove_dir_all f : safe (remove_dir_all other f).
Proof. unfold remove_dir_all. safe_tac. Qed.
Lemma safe_copy_metadata source f nd : safe (copy_metadata other beyond source f nd).
Proof. unfold copy_metadata, best_effort, copy_xattrs, chown, set_permissions, set_times, set_xattr. cbv zeta. safe_tac. Qed.
#[local] Hint Resolve safe_remove_dir_all safe_copy_metadata : journal.

Lemma safe_parents rel : safe (ensure_upper_parents other beyond uid gid umask sha256_hex core rel).
Proof. unfold ensure_upper_parents, ensure_upper_parent, fs_create_dir. safe_tac. Qed.
Lemma safe_temporary q : safe (temporary_path pid core q).
Proof. unfold temporary_path. safe_tac. Qed.
Lemma safe_publish source st t u : safe (publish_copy other beyond uid gid umask source st t u).
Proof. unfold publish_copy, make_copy, fs_create_dir, fs_symlink, open_new. safe_tac. Qed.
#[local] Hint Resolve safe_parents safe_temporary safe_publish : journal.

Lemma safe_copy_up rel : safe (copy_up other beyond uid gid umask pid sha256_hex core rel).
Proof. unfold copy_up, ignore, discard. cbv zeta. safe_tac. Qed.
Lemma safe_opaque f names : safe (set_opaque_xattr other f names).
Proof. induction names; simpl; unfold set_xattr; safe_tac. Qed.
#[local] Hint Resolve safe_copy_up safe_opaque : journal.
Lemma safe_mark rel : safe (mark_opaque other beyond uid gid umask rel).
Proof. unfold mark_opaque, create_marker, open_new. safe_tac. Qed.
Lemma safe_whiteout rel : safe (create_whiteout other beyond uid gid umask sha256_hex core rel).
Proof. unfold create_whiteout, create_marker, open_new. safe_tac. Qed.
Lemma safe_clear rel : safe (clear_whiteout other core rel).
Proof. unfold clear_whiteout. safe_tac. Qed.
Lemma safe_prepare rel : safe (prepare_create other beyond sha256_hex core rel).
Proof. unfold prepare_create. safe_tac. Qed.
#[local] Hint Resolve safe_mark safe_whiteout safe_clear safe_prepare : journal.

Lemma safe_record_tree fuel a b : safe (record_tree other beyond sha256_hex core fuel a b).
Proof. revert a b. induction fuel as [|fuel IH]; intros a b; simpl; safe_tac. Qed.
Lemma safe_materialize fuel q : safe (materialize other beyond uid gid umask pid sha256_hex core fuel q).
Proof. revert q. induction fuel as [|fuel IH]; intros q; simpl; safe_tac. Qed.
#[local] Hint Resolve safe_record_tree safe_materialize : journal.

Lemma safe_op op : safe (run_op other beyond uid gid umask pid sha256_hex core op).
Proof.
  destruct op; simpl; unfold create_file, create_dir, create_symlink, create_node, remove, rename, hard_link, exchange,
    rename_into_place, materialize_tree, record_logical_tree_mapping, fs_create_dir, fs_symlink, open_new, set_permissions,
    remove_physical, ignore; cbv zeta; safe_tac.
Qed.
End Ops.

(** ** The records *)

Section Records.
Context {O : Type} (other : O -> World -> World) (beyond : World -> FPath -> Path -> option Node).
Context (uid gid umask : Z) (pid : string) (sha256_hex : string -> string) (core : OverlayCore) (L : list Layer).
Context (others_quiet : forall o w, other o w = w).

(** A written record names its path and holds what the lowest layer has there. *)
Definition faithful_record (name : string) (x : PathPreimage) : Prop :=
  name = journal_name sha256_hex (pi_path x) /\ validate_rel (pi_path x) = Ok tt
  /\ exists target, last L = Some target /\ fingerprint_at sha256_hex target (pi_path x) = Ok (pi_state x).

Definition Faithful (w : World) : Prop := w_lowers w = L
  /\ forall name x, w_journal w !! name = Some (JWritten x) -> faithful_record name x.

(** The records of [w0] are still there. *)
Definition Extends (w0 w : World) : Prop :=
  forall name x, w_journal w0 !! name = Some (JWritten x) -> w_journal w !! name = Some (JWritten x).

Definition Kept (w0 w : World) : Prop := Faithful w /\ Extends w0 w.

Lemma Kept_blind w0 w w' : w_lowers w' = w_lowers w -> w_journal w' = w_journal w -> Kept w0 w -> Kept w0 w'.
Proof. unfold Kept, Faithful, Extends. by intros -> ->. Qed.

Lemma Kept_insert w0 w name f : Kept w0 w -> (forall x, w_journal w !! name <> Some (JWritten x)) ->
  (forall x, f = JWritten x -> faithful_record name x) -> Kept w0 (set_journal <[name := f]> w).
Proof.
  intros [[HL HF] HE] Hn Hf. split; [split; [done|]|].
  - intros name' x H. simpl in H. apply lookup_insert_Some in H as [[<- ->]|[_ H]]; [by apply Hf|by apply HF].
  - intros name' x H. simpl. apply HE in H. destruct (decide (name = name')) as [->|]; [by destruct (Hn x)|]. by rewrite lookup_insert_ne.
Qed.

Lemma record_safe w0 rel : safe (Kept w0) (record_preimage other sha256_hex core rel).
Proof.
  unfold record_preimage. destruct (negb _); [apply safe_ret|].
  eapply triple_bind; [apply triple_lift_eq; by intros w ?|intros []]. cbn beta zeta.
  eapply triple_bind; [apply triple_ask_eq|intros [|]]; cbn beta; [apply triple_ret; by intros w [[? _] _]|].
  eapply triple_bind; [apply triple_ask_eq|intros lowers]. cbn beta.
  eapply triple_bind; [apply triple_lift_eq; by intros w [[[? _] _] _]|intros target]. cbn beta.
  eapply triple_bind; [apply triple_lift_eq; by intros w [[[[? _] _] _] _]|intros state]. cbn beta.
  set (name := journal_name sha256_hex rel).
  apply (triple_pre _ (fun w => faithful_record name (mkPreimage rel state) /\ Kept w0 w)).
  { intros w [[[[[HK Hrel] _] Hlow] Htarget] Hstate]. split; [|done]. split; [done|]. split; [done|]. exists target. simpl.
    destruct HK as [[HL _] _]. rewrite Hlow, HL in Htarget. split; [|done].
    by destruct (last L); simplify_eq/=. }
  apply triple_fact. intros Hrec.
  eapply (triple_bind _ _ _ (fun _ w => Kept w0 w /\ w_journal w !! name = Some JCreated)).
  { apply triple_sys; [done|done|done|]. intros w HK. destruct (w_journal w !! name) as [?|] eqn:E; [done|].
    assert (Kept w0 (set_journal <[name := JCreated]> w)) as HK' by (apply Kept_insert; [done|congruence|done]).
    split; [|done]. split; [done|]. simpl. by rewrite lookup_insert_eq. }
  intros _. apply (triple_bind _ _ _ (fun _ => Kept w0)).
  { apply triple_sys; [done|by intros w [? _]|by intros w [? _]|]. intros w [HK Hj].
    assert (Kept w0 (set_journal <[name := JWritten (mkPreimage rel state)]> w)); [|done].
    apply Kept_insert; [done|congruence|]. by intros x [= <-]. }
  intros _. apply safe_bind; [|intros _]; (apply safe_sys; [done|apply Kept_blind|by intros w]).
Qed.

Lemma ops_safe w0 ops : safe (Kept w0) (run_ops other beyond uid gid umask pid sha256_hex core ops).
Proof.
  apply safe_for. intros op ?. apply safe_op; [done|apply Kept_blind|apply record_safe].
Qed.

Lemma load_preimages_records w l x : load_preimages w = Ok l -> x ∈ l -> exists name, w_journal w !! name = Some (JWritten x).
Proof.
  unfold load_preimages. set (read := fun '(_, file) => _).
  assert (forall files ys, collect_results read files = Ok ys -> forall x, x ∈ ys -> exists name, (name, JWritten x) ∈ files) as Hc.
  { induction files as [|[name file] files IH]; simpl; intros ys H y Hy; [simplify_eq; by apply elem_of_nil in Hy|].
    destruct file as [|z]; [done|]. simpl in H. destruct (validate_rel (pi_path z)); [|done]. simpl in H.
    destruct (collect_results read files) as [zs|]; [|done]. simplify_eq/=.
    apply elem_of_cons in Hy as [->|Hy]; [exists name; by left|]. destruct (IH zs eq_refl y Hy) as [n Hn]. exists n. by right. }
  destruct (collect_results read _) as [ys|] eqn:E; [|done]. simpl. intros [= <-] Hx.
  rewrite (elem_of_Permutation_proper x _ _ (merge_sort_Permutation path_le ys)) in Hx.
  destruct (Hc _ _ E x Hx) as [name Hn]. exists name. apply list_elem_of_filter in Hn as [_ Hn]. by apply elem_of_map_to_list in Hn.
Qed.

End Records.
