(* ===== verification/OverlayTheorems.v ===== *)
(** * What the overlay promises

    The properties of [OverlayCore], with an overlay on which each of them is
    exercised. *)

From Stdlib Require Import ZArith Lia.
From stdpp Require Import base list strings gmap pretty sorting.
From S2P Require Import Prelude Effects OverlayFs OverlayCore OverlayView OverlaySteps OverlayShape OverlayCopy OverlayEdit OverlayMove OverlayExchange OverlayDepth OverlaySpec OverlayJournal.
#[local] Set Warnings "-clear-no-such-hyp".
Open Scope string_scope.
Open Scope list_scope.
Open Scope effect_scope.

(** ** Layers given by their nodes *)

(** A map of nodes is a tree when the root is a directory and every other node
    lies in one. *)
Definition tree_like (m : gmap Path Stat) : bool :=
  match m !! [] with Some st => node_is_dir (st_node st) | None => false end
  && forallb (fun '(p, _) => match reverse p with
                             | [] => true
                             | _ :: r => match m !! reverse r with Some d => node_is_dir (st_node d) | None => false end
                             end) (map_to_list m).

Lemma tree_like_root m : tree_like m = true -> exists st, m !! [] = Some st /\ node_is_dir (st_node st) = true.
Proof. unfold tree_like. intros [H _]%andb_true_iff. destruct (m !! []); [eauto|done]. Qed.

Lemma tree_like_parent m p n : tree_like m = true -> is_Some (m !! (p ++ [n])) ->
  exists d, m !! p = Some d /\ node_is_dir (st_node d) = true.
Proof.
  unfold tree_like. intros [_ H]%andb_true_iff [st Hst]. rewrite forallb_forall in H.
  specialize (H (p ++ [n], st)). rewrite <- list_elem_of_In in H. specialize (H (proj2 (elem_of_map_to_list m _ _) Hst)).
  simpl in H. rewrite reverse_snoc, reverse_involutive in H. destruct (m !! p) as [d|]; [eauto|done].
Qed.

Lemma layer_of_laws m : tree_like m = true -> LayerLaws (layer_of m).
Proof.
  intros Hm. assert (forall p ns, ly_read_dir (layer_of m) p = Some ns -> forall n, n ∈ ns <-> is_Some (m !! (p ++ [n]))) as Hlist.
  { intros p ns. simpl. destruct (m !! p) as [st|]; [|done]. destruct (node_is_dir (st_node st)); [|done]. intros [= <-] n.
    rewrite list_elem_of_omap. split.
    - intros ([q st'] & Hq & E). apply elem_of_map_to_list in Hq. destruct (reverse q) as [|n' r] eqn:Er; [done|].
      case_bool_decide; [|done]. simplify_eq. apply (f_equal reverse) in Er. rewrite reverse_involutive, reverse_cons in Er. subst. by eexists.
    - intros [st' Hst]. exists (p ++ [n], st'). split; [by apply elem_of_map_to_list|].
      by rewrite reverse_snoc, reverse_involutive, bool_decide_true. }
  assert (forall p st, m !! p = Some st -> node_is_dir (st_node st) = true -> is_Some (ly_read_dir (layer_of m) p)) as Hdir.
  { intros p st Hst Hd. simpl. rewrite Hst, Hd. by eexists. }
  constructor.
  - by apply tree_like_root.
  - intros p ns n H. by apply Hlist.
  - intros p n H. apply (tree_like_parent m p n Hm) in H as (d & Hd & Hdd). eauto.
  - intros p. simpl. destruct (m !! p); [done|by intros [? ?]].
  - apply Hdir.
  - intros p [st Hst]. simpl. apply max_list_elem_of_le, list_elem_of_fmap. exists (p, st). split; [done|]. by apply elem_of_map_to_list.
Qed.

(** ** A new overlay *)

(** The directories as they are when nothing was changed yet. *)
Definition new_world (L : list Layer) (root : Node) : World :=
  mkWorld L (<[(Upper, []) := 1%positive]> (<[(Work, []) := 2%positive]> ∅))
    (<[1%positive := root]> (<[2%positive := root]> ∅)) ∅ false ∅ 1.

Lemma new_world_node L root f : node_at (new_world L root) f = if bool_decide (snd f = [] /\ fst f <> Target) then Some root else None.
Proof.
  destruct f as [a p]. unfold node_at. simpl. case_bool_decide as Hp.
  - destruct Hp as [-> Ha]. destruct a; simpl; by simplify_map_eq.
  - destruct p; [destruct a; naive_solver|]. rewrite !lookup_insert_ne, lookup_empty by congruence. done.
Qed.

Lemma new_world_ready pid core L root : node_is_dir root = true ->
  is_excluded core [] = false -> Ready pid core L (new_world L root).
Proof.
  intros Hd Hx. split.
  - split; [|split; [done|split; [done|]]].
    + constructor.
      * exists root. by rewrite new_world_node.
      * intros f i Hf. simpl in *. apply lookup_insert_Some in Hf as [[_ <-]|[_ Hf]]; [by simplify_map_eq|].
        apply lookup_insert_Some in Hf as [[_ <-]|[_ Hf]]; [by simplify_map_eq|]. done.
      * intros a p n [i Hi]. assert (is_Some (node_at (new_world L root) (a, p ++ [n]))) as [nd H].
        { unfold node_at. rewrite Hi. simpl in *. apply lookup_insert_Some in Hi as [[? _]|[_ Hi]]; [by destruct p|].
          apply lookup_insert_Some in Hi as [[? _]|[_ Hi]]; [by destruct p|done]. }
        rewrite new_world_node in H. simpl in H. by rewrite bool_decide_false in H by (by destruct p; intros [? _]).
      * intros f g i n Hf Hg _ _. simpl in *.
        apply lookup_insert_Some in Hf as [[<- <-]|[_ Hf]]; [|apply lookup_insert_Some in Hf as [[<- <-]|[_ Hf]]; [|done]];
        (apply lookup_insert_Some in Hg as [[<- E]|[_ Hg]]; [done|apply lookup_insert_Some in Hg as [[<- E]|[_ Hg]]; done]).
    + intros id [nd H]. by rewrite new_world_node in H.
  - split.
    + intros p n _ [x Hs]. unfold usum in Hs. rewrite new_world_node in Hs. simpl in Hs. by rewrite bool_decide_false in Hs by (by destruct p; intros [? _]).
    + intros p Hxp. unfold usum. rewrite new_world_node. simpl. rewrite bool_decide_false; [done|]. intros [-> _]. congruence.
Qed.

(** ** The properties *)

Section Properties.
Context {O : Type} (other : O -> World -> World) (beyond : World -> FPath -> Path -> option Node).
Context (uid gid umask : Z) (pid : string) (sha256_hex : string -> string) (core : OverlayCore) (L : list Layer).

(** Nobody else changes the directories, the work directory is given, the lower
    layers are trees of nodes whose copies are like them (regular files with one
    name, no opaque attributes, device numbers that fit), and the excluded paths
    are ordinary ones. *)
Context (others_quiet : forall o w, other o w = w).
Context (has_work : oc_work core = true).
Context (lowers_copyable : forall l p st, l ∈ L -> ly_lstat l p = Some st -> copyable st).
Context (lowers_lawful : Forall LayerLaws L).
Context (excluded_plain : Forall plain (oc_excluded core)).

Abbreviation Ready := (Ready pid core L).
Abbreviation shown := (shown beyond core).
Abbreviation run_op := (run_op other beyond uid gid umask pid sha256_hex core).
Abbreviation run_ops := (run_ops other beyond uid gid umask pid sha256_hex core).

(** C8: The overlay implements one tree.  Over lower layers whose regular
    files have one name each and whose nodes carry no opaque attribute (a copied
    one hides files, [copied_opaque_attribute_hides_files]), with a work
    directory and nobody else changing the directories, start from a fresh upper
    directory or from what completed operations left ([Ready]).  However the
    operations are then mixed (copy-ups, creations of files, directories, links
    and devices, removals, renames over anything, hard links, exchanges) on
    paths that are not excluded, when they all answer Ok then every path shows
    exactly what the same operations do to the tree that was shown before, and
    the directories are in order for the next operation; when one fails or the
    process dies, the upper directory is still a tree over the unchanged lower
    layers. *)
Theorem operations_refine_tree ops envs w : Forall (admissible core) ops -> Ready w ->
  match run_ops ops envs w with
  | (Done (Ok _) _, w') =>
      Ready w' /\ forall p, plain p -> shown w' p = fold_left (fun t op => tree_step op t) ops (shown w) p
  | (_, w') => wf w' /\ w_lowers w' = L
  end.
Proof.
  intros Hops Hw. assert (Shown beyond pid core L (shown w) w) as Hs by (split; [done|by intros p]).
  pose proof (ops_triple other beyond uid gid umask pid sha256_hex core L others_quiet has_work lowers_copyable lowers_lawful
    excluded_plain ops (shown w) Hops envs w Hs) as H.
  destruct (run_ops ops envs w) as [[|[?|?] rest] w']; [destruct H as (s & H1 & H2 & _)| |destruct H as (s & H1 & H2 & _)]; done.
Qed.

(** C21: On an overlay in order ([Ready]: a fresh upper directory, or one left
    by operations that all completed; after a death inside a rename it need not
    be, [interrupted_rename_lets_a_full_directory_go]), an operation the tree does
    not allow is refused at once: creating over something, removing what is not
    there, a directory as a file or a full directory, renaming over the wrong
    kind, over a full directory or into itself, linking a directory, exchanging
    nested paths, touching an excluded path.  The answer is the error number of
    the first obstacle, and nothing at all has changed. *)
Theorem refused_operations_change_nothing op e envs w : Ready w -> Forall plain (op_paths op) ->
  refused (is_excluded core) (shown w) op e -> run_op op envs w = (Done (Err e) envs, w).
Proof. intros Hw Hp Hr. by eapply op_refused. Qed.

(** The recursions over the visible tree stop: the depth they are given is
    never exhausted, so every error an operation answers is an error number of
    the system. *)
Theorem recursions_stop op e rest envs w : Ready w -> Forall plain (op_paths op) ->
  fst (run_op op envs w) = Done (Err e) rest -> (0 <= e)%Z /\ e <> OUT_OF_FUEL.
Proof.
  intros Hw Hp He. pose proof (op_errs other beyond uid gid umask pid sha256_hex core L others_quiet has_work lowers_copyable lowers_lawful
    excluded_plain op w Hw Hp envs w eq_refl) as H. rewrite He in H. simpl in H. split; [done|]. unfold OUT_OF_FUEL. lia.
Qed.

(** A copy-up is invisible.  Whatever fails inside it and wherever the
    process dies, every path shows the kind and the content it showed before,
    and when it answers, what was shown is in the upper directory. *)
Theorem copy_up_never_changes_what_is_shown rel envs w : Ready w -> plain rel ->
  let '(r, w') := copy_up other beyond uid gid umask pid sha256_hex core rel envs w in
  (forall p, plain p -> shown w' p = shown w p)
  /\ match r with
     | Done (Ok f) _ => f = (Upper, rel) /\ (is_Some (shown w rel) -> is_Some (node_at w' f))
     | _ => True
     end.
Proof.
  intros [HI Hn] Hp. pose proof (copy_up_triple other beyond uid gid umask pid sha256_hex core L others_quiet has_work lowers_copyable
    (usum w) rel Hp envs w HI) as H.
  assert (forall s' w' p, Is pid L s' w' -> keeps core L (usum w) s' -> plain p -> shown w' p = shown w p) as Hkeep.
  { intros s' w' p HI' [Hk _] Hpp. rewrite (Is_shown beyond pid core L s' w'), (Is_shown beyond pid core L (usum w) w) by done. by apply Hk. }
  destruct (copy_up _ _ _ _ _ _ _ _ _ envs w) as [[|[f|e] rest] w'].
  - destruct H as (s' & HI' & Hk). eauto.
  - destruct H as [-> (s' & HI' & Hk & Hup & _)]. split; [eauto|]. split; [done|].
    rewrite (Is_shown beyond pid core L (usum w) w) by done. intros [x Hx]%Hup. destruct HI' as (_ & _ & Hs & _).
    rewrite <- Hs in Hx. apply fmap_Some in Hx as (nd & Hx & _). by eexists.
  - destruct H as (s' & HI' & Hk). eauto.
Qed.

(** [readdir] and [lookup] agree: a listing is exactly the ordinary names
    below the directory that can be looked up, each once, in order; and what
    cannot be listed is not a visible directory. *)
Theorem listing_agrees_with_lookup p w : Ready w -> plain p ->
  match list_names beyond core w p with
  | Ok names =>
      shown w p = Some KDir
      /\ StronglySorted (fun a b => String.le a b /\ a <> b) names
      /\ forall n, n ∈ names <-> plain_name n = true /\ is_Some (shown w (p ++ [n]))
  | Err _ => shown w p <> Some KDir
  end.
Proof.
  intros [HI [Ht _]] Hp. pose proof HI as (Hw & HL & _). apply (tidy_unshadowed pid L _ w HI) in Ht.
  pose proof (list_names_spec beyond core w p Hw Ht ltac:(by rewrite HL) Hp) as H. unfold OverlaySpec.shown.
  destruct (list_names beyond core w p) as [names|e].
  - destruct H as (Hd & Hs & Hin). split; [|split; [done|]].
    + destruct (view beyond core w p) as [nd|]; [|done]. simpl in *. unfold node_is_dir, kind_is_dir in Hd. by destruct (n_kind nd).
    + intros n. rewrite Hin, fmap_is_Some. done.
  - destruct (view beyond core w p) as [nd|]; [|done]. simpl in *. intros [= Hk]. by rewrite (dir_kind_true nd) in H.
Qed.

(** The journal tells the truth.  Run any operations, let any call fail and
    the process die anywhere: a preimage that was recorded before is still
    recorded unchanged, and every preimage that can be loaded is the fingerprint
    of its path in the lowest layer, which is the directory the changes will be
    published to. *)
Theorem recorded_preimages_are_faithful ops envs w : Faithful sha256_hex L w ->
  let w' := snd (run_ops ops envs w) in
  Extends w w'
  /\ forall l x, load_preimages w' = Ok l -> x ∈ l ->
     exists target, last L = Some target /\ fingerprint_at sha256_hex target (pi_path x) = Ok (pi_state x).
Proof.
  intros HF. assert (Kept sha256_hex L w w) as HK by (split; [done|by intros name x]). pose proof (ops_safe other beyond uid gid umask pid sha256_hex core L others_quiet w ops envs w HK) as H.
  assert (Kept sha256_hex L w (snd (run_ops ops envs w))) as [[_ HF'] HE].
  { destruct (run_ops ops envs w) as [[|[?|?] rest] w']; done. }
  split; [done|]. intros l x Hl Hx. destruct (load_preimages_records _ l x Hl Hx) as [name Hn].
  by apply HF' in Hn as (_ & _ & ?).
Qed.
End Properties.

(** ** An overlay over two layers *)

Module OverlayExample.
Definition meta : Meta := mkMeta 0x1ED 0 0 (0, 0)%Z (7, 0)%Z ∅.
Definition stat (k : Kind) (ino : Z) : Stat := mkStat (mkNode k meta) 1 ino (if kind_is_dir k then 3 else 1).

Definition top_nodes : list (Path * Stat) := [([], stat KDir 1); (["d"], stat KDir 2); (["d"; "f"], stat (KFile "old") 3)].
Definition base_nodes : list (Path * Stat) :=
  [([], stat KDir 4); (["d"], stat KDir 5); (["d"; "f"], stat (KFile "older") 6); (["d"; "g"], stat (KSymlink "f") 7); (["e"], stat KDir 8)].
Definition layers : list Layer := [layer_of (list_to_map top_nodes); layer_of (list_to_map base_nodes)].

Definition no_one : Empty_set -> World -> World := fun o _ => match o with end.
Definition nowhere : World -> FPath -> Path -> option Node := fun _ _ _ => None.
Definition core : OverlayCore := mkCore true [["secret"]] true.
Definition hex (s : string) : string := s.
Definition start : World := new_world layers (mkNode KDir meta).
Definition calm (k : nat) : list (Env Empty_set) := repeat (mkEnv 0 [] Answered 0) k.

Lemma no_one_acts o w : no_one o w = w.
Proof. destruct o. Qed.

Lemma layers_copyable l p st : l ∈ layers -> ly_lstat l p = Some st -> copyable st.
Proof.
  assert (forall nodes, Forall (fun x => copyable (snd x)) nodes -> list_to_map (M := gmap Path Stat) nodes !! p = Some st -> copyable st) as H.
  { intros nodes Hall Hst. apply elem_of_list_to_map_2 in Hst. by eapply (Forall_forall (fun x => copyable (snd x)) nodes) in Hst. }
  intros [->|[->|?%elem_of_nil]%elem_of_cons]%elem_of_cons; [| |done]; apply H; repeat constructor; done.
Qed.

Lemma layers_lawful : Forall LayerLaws layers.
Proof.
  apply Forall_cons; split; [apply layer_of_laws; vm_compute; reflexivity|].
  apply Forall_cons; split; [apply layer_of_laws; vm_compute; reflexivity|constructor].
Qed.

Lemma secret_plain : Forall plain (oc_excluded core).
Proof. by repeat constructor. Qed.

Lemma start_ready : Ready "1" core layers start.
Proof. by apply new_world_ready. Qed.

Definition story : list Op :=
  [OpCopyUp ["d"; "f"]; OpRemove ["d"; "f"] false; OpCreateDir ["d"; "f"] 0x1ED; OpRename ["d"] ["e"; "h"] false;
   OpCreateFile ["e"; "h"; "f"; "x"] 0x1A4 1; OpHardLink ["e"; "h"; "f"; "x"] ["y"]; OpExchange ["e"; "h"; "f"] ["y"];
   OpRemove ["e"; "h"; "f"] false].

Lemma no_secret p : str_starts_with "s" (default "" (head p)) = false -> p <> [] -> forall r, is_excluded core (p ++ r) = false.
Proof.
  intros Hs Hp r. unfold is_excluded. simpl. rewrite orb_false_r. destruct (under ["secret"] (p ++ r)) eqn:E; [|done].
  apply under_spec in E as [r' E]. destruct p as [|c p]; [done|]. simpl in E. injection E as -> _. done.
Qed.

Lemma story_admissible : Forall (admissible core) story.
Proof.
  repeat constructor; simpl; try done; repeat constructor; simpl; try done; try (by intros r; apply no_secret);
    intros r; split; by apply no_secret.
Qed.

Lemma operations_refine_tree_witness :
  let '(r, w') := run_ops no_one nowhere 0 0 0x12 "1" hex core story (calm 200) start in
  match r with Done (Ok _) _ => True | _ => False end
  /\ shown nowhere core w' ["e"; "h"; "g"] = Some (KSymlink "f") /\ shown nowhere core w' ["d"] = None.
Proof.
  pose proof (operations_refine_tree no_one nowhere 0 0 0x12 "1" hex core layers no_one_acts eq_refl layers_copyable layers_lawful
    secret_plain story (calm 200) start story_admissible start_ready) as H.
  assert (match fst (run_ops no_one nowhere 0 0 0x12 "1" hex core story (calm 200) start) with Done (Ok _) _ => True | _ => False end) as Hok
    by (vm_compute; exact I).
  destruct (run_ops _ _ _ _ _ _ _ _ _ _ _) as [[|[u|e] rest] w']; [destruct Hok| |destruct Hok]. clear Hok. destruct H as [_ H].
  split; [exact I|]. split; (rewrite H; [vm_compute; reflexivity|repeat constructor]).
Defined.

(** A directory that is not empty. *)
Lemma refused_operations_change_nothing_witness :
  run_op no_one nowhere 0 0 0x12 "1" hex core (OpRemove ["d"] true) (calm 5) start = (Done (Err ENOTEMPTY) (calm 5), start).
Proof.
  apply (refused_operations_change_nothing no_one nowhere 0 0 0x12 "1" hex core layers layers_lawful).
  - exact start_ready.
  - repeat constructor.
  - apply (refuse_rmdir_full _ _ _ "f"); [vm_compute; reflexivity|vm_compute; reflexivity|]. exists (KFile "old"). vm_compute. reflexivity.
Defined.

(** The disk is full at the first record. *)
Lemma recursions_stop_witness : (0 <= 28)%Z /\ 28%Z <> OUT_OF_FUEL.
Proof.
  apply (recursions_stop no_one nowhere 0 0 0x12 "1" hex core layers no_one_acts eq_refl layers_copyable layers_lawful secret_plain
    (OpRename ["d"] ["e"; "h"] false) 28 [] [mkEnv 0 [] FailedBefore 28] start start_ready).
  - repeat constructor.
  - vm_compute. reflexivity.
Defined.

(** The process dies in the copy. *)
Lemma copy_up_never_changes_what_is_shown_witness :
  let '(r, w') := copy_up no_one nowhere 0 0 0x12 "1" hex core ["d"; "f"] (calm 12) start in
  r = Crashed /\ shown nowhere core w' ["d"; "f"] = shown nowhere core start ["d"; "f"].
Proof.
  pose proof (copy_up_never_changes_what_is_shown no_one nowhere 0 0 0x12 "1" hex core layers no_one_acts eq_refl layers_copyable
    ["d"; "f"] (calm 12) start start_ready ltac:(repeat constructor)) as H.
  assert (fst (copy_up no_one nowhere 0 0 0x12 "1" hex core ["d"; "f"] (calm 12) start) = Crashed) as Hc by (vm_compute; reflexivity).
  destruct (copy_up _ _ _ _ _ _ _ _ _ _ _) as [r w']. split; [exact Hc|]. apply H. repeat constructor.
Defined.

Lemma listing_agrees_with_lookup_witness :
  list_names nowhere core start ["d"] = Ok ["f"; "g"] /\ "g" ∈ ["f"; "g"] /\ is_Some (shown nowhere core start ["d"; "g"]).
Proof.
  pose proof (listing_agrees_with_lookup nowhere "1" core layers layers_lawful ["d"] start start_ready ltac:(repeat constructor)) as H.
  assert (list_names nowhere core start ["d"] = Ok ["f"; "g"]) as E by (vm_compute; reflexivity).
  rewrite E in H. destruct H as (_ & _ & H). split; [exact E|].
  assert ("g" ∈ ["f"; "g"]) as Hin by (right; left). split; [exact Hin|]. apply (H "g"). exact Hin.
Defined.

(** The copy dies after its record was written. *)
Lemma recorded_preimages_are_faithful_witness :
  let w' := snd (run_ops no_one nowhere 0 0 0x12 "1" hex core [OpCopyUp ["d"; "f"]] (calm 4) start) in
  load_preimages w' = Ok [mkPreimage ["d"; "f"] (FpFile "older" 0x81ED 0 0)]
  /\ forall l x, load_preimages w' = Ok l -> x ∈ l ->
     exists target, last layers = Some target /\ fingerprint_at hex target (pi_path x) = Ok (pi_state x).
Proof.
  assert (Faithful hex layers start) as HF by (split; [reflexivity|]; intros name x H; vm_compute in H; discriminate).
  pose proof (recorded_preimages_are_faithful no_one nowhere 0 0 0x12 "1" hex core layers no_one_acts [OpCopyUp ["d"; "f"]] (calm 4) start HF) as [_ H].
  split; [vm_compute; reflexivity|exact H].
Defined.
End OverlayExample.

(** ** Where the overlay falls short

    Runs of the code on the overlay above, or on a small one of its own. *)

Module OverlayShortfalls.
Import OverlayExample.

Definition after {A} (m : M World Empty_set Z A) (envs : list (Env Empty_set)) (w : World) : World := snd (m envs w).
Definition answer {A} (m : M World Empty_set Z A) (envs : list (Env Empty_set)) (w : World) : option (result Z A) :=
  match fst (m envs w) with Done r _ => Some r | Crashed => None end.
Abbreviation op := (run_op no_one nowhere 0 0 0x12 "1" hex core).
Abbreviation sees w p := (shown nowhere core w p).

(** Creating a file that was removed, with a read-only open, fails with
    [EINVAL] after the whiteout has been cleared: the file of the lower layer is
    back, although nothing was created. *)
Theorem read_only_creation_revives_a_removed_file :
  let removed := after (op (OpRemove ["d"; "f"] false)) (calm 20) start in
  let create := op (OpCreateFile ["d"; "f"] 0x1A4 O_RDONLY) in
  sees removed ["d"; "f"] = None
  /\ answer create (calm 20) removed = Some (Err EINVAL)
  /\ sees (after create (calm 20) removed) ["d"; "f"] = Some (KFile "old").
Proof. vm_compute. split_and!; reflexivity. Qed.

(** [remove] takes the upper file away before it writes the whiteout.  When
    the disk is full at that moment it answers an error, and the path shows the
    older content of the lower layer instead of the content it had. *)
Theorem failed_removal_shows_the_lower_file :
  let changed := after (op (OpRename ["d"; "g"] ["d"; "f"] false)) (calm 60) start in
  let remove := op (OpRemove ["d"; "f"] false) in
  let full := calm 1 ++ [mkEnv 0 [] FailedBefore 28%Z] in
  sees changed ["d"; "f"] = Some (KSymlink "f")
  /\ answer remove full changed = Some (Err 28%Z)
  /\ sees (after remove full changed) ["d"; "f"] = Some (KFile "old").
Proof. vm_compute. split_and!; reflexivity. Qed.

(** When the process dies in a rename between the whiteout of the source and
    the move, the source can still be looked up but is no longer listed. *)
Theorem interrupted_rename_hides_the_source_from_listings :
  let w := after (op (OpRename ["d"; "f"] ["e"; "f"] false)) (calm 32) start in
  sees w ["d"; "f"] = Some (KFile "old") /\ list_names nowhere core w ["d"] = Ok ["g"].
Proof. vm_compute. split_and!; reflexivity. Qed.

(** In that state a directory whose only file is the one that is not listed
    counts as empty: removing it answers Ok, and the file is gone. *)
Theorem interrupted_rename_lets_a_full_directory_go :
  let died := after (op (OpRename ["d"; "f"] ["e"; "f"] false)) (calm 32) start in
  let w := after (op (OpRemove ["d"; "g"] false)) (calm 60) died in
  let rmdir := op (OpRemove ["d"] true) in
  sees w ["d"; "f"] = Some (KFile "old")
  /\ answer rmdir (calm 60) w = Some (Ok tt)
  /\ sees (after rmdir (calm 60) w) ["d"; "f"] = None /\ sees (after rmdir (calm 60) w) ["e"; "f"] = None.
Proof. vm_compute. split_and!; reflexivity. Qed.

(** When the process dies between the creation of a record and its writing,
    the empty record counts as recorded from then on and no preimage can be
    loaded any more. *)
Theorem torn_record_blocks_the_journal :
  let w := after (op (OpCopyUp ["d"; "f"])) (calm 1) start in
  load_preimages w = Err INVALID_DATA
  /\ answer (op (OpCopyUp ["d"; "f"])) (calm 60) w = Some (Ok tt)
  /\ load_preimages (after (op (OpCopyUp ["d"; "f"])) (calm 60) w) = Err INVALID_DATA.
Proof. vm_compute. split_and!; reflexivity. Qed.

(** A lower directory that carries the attribute of an opaque one, over a layer
    with another file in it. *)
Definition marked : Stat :=
  mkStat (mkNode KDir (mkMeta 0x1ED 0 0 (0, 0)%Z (7, 0)%Z {[ "user.overlay.opaque" := "y" ]})) 1 2 1.
Definition marked_layers : list Layer :=
  [layer_of (list_to_map [([], stat KDir 1); (["d"], marked); (["d"; "f"], stat (KFile "old") 3)]);
   layer_of (list_to_map base_nodes)].

(** The attribute does nothing while the directory is in the lower layer, but
    a copy-up of one file copies it with the parent directory, and from then on
    the other files of the directory are gone. *)
Theorem copied_opaque_attribute_hides_files :
  let w := new_world marked_layers (mkNode KDir meta) in
  let w' := after (op (OpCopyUp ["d"; "f"])) (calm 60) w in
  answer (op (OpCopyUp ["d"; "f"])) (calm 60) w = Some (Ok tt)
  /\ sees w ["d"; "g"] = Some (KSymlink "f") /\ sees w' ["d"; "g"] = None.
Proof. vm_compute. split_and!; reflexivity. Qed.

(** Two names of one lower file. *)
Definition twin : Stat := mkStat (mkNode (KFile "old") meta) 1 3 2.
Definition twin_layers : list Layer := [layer_of (list_to_map [([], stat KDir 1); (["a"], twin); (["b"], twin)])].

(** Copying up the second name of a file links it to the copy of the first
    and writes the lower file's metadata over it: a permission that was changed
    through the first name is lost. *)
Theorem copying_a_second_link_resets_the_first :
  let w := after (op (OpCopyUp ["a"])) (calm 60) (new_world twin_layers (mkNode KDir meta)) in
  let changed := after (set_permissions no_one (Upper, ["a"]) 0x180) (calm 1) w in
  let copied := after (op (OpCopyUp ["b"])) (calm 60) changed in
  let perm w := (fun nd => md_perm (n_meta nd)) <$> node_at w (Upper, ["a"]) in
  perm changed = Some 0x180%Z /\ perm copied = Some 0x1ED%Z.
Proof. vm_compute. split_and!; reflexivity. Qed.

(** A directory that took the place of a file of the target cannot be filled
    while the journal is kept: the fingerprint of a path below that file fails
    with [ENOTDIR], which is not the [NotFound] that counts as absent, and the
    creation is refused although the overlay allows it. *)
Theorem replacing_directory_cannot_be_filled :
  let replaced := after (op (OpCreateDir ["d"; "f"] 0x1ED)) (calm 60) (after (op (OpRemove ["d"; "f"] false)) (calm 20) start) in
  let create := op (OpCreateFile ["d"; "f"; "x"] 0x1A4 1) in
  sees replaced ["d"; "f"] = Some KDir
  /\ answer create (calm 60) replaced = Some (Err ENOTDIR)
  /\ sees (after create (calm 60) replaced) ["d"; "f"; "x"] = None.
Proof. vm_compute. split_and!; reflexivity. Qed.
End OverlayShortfalls.
