(* ===== verification/OverlayApply.v ===== *)
(** * Applying a staged overlay to its target

    The upper directory of an overlay is kept after the agent has ended, until
    it is applied to the target directory or dropped
    ([persisting-pvisor/src/runtime/overlay.rs]).  An application selects
    changes, closes the selection under what must go together, compares the
    target with the preimages, writes a prepared record, changes the target,
    prunes the upper directory and commits the record; whatever a crash left
    unfinished is finished by the next application. *)

From Stdlib Require Import ZArith.
From stdpp Require Import base list strings gmap pretty sorting.
From S2P Require Import Prelude JsonLines Effects OverlayFs OverlayCore.
Open Scope string_scope.
Open Scope list_scope.
Open Scope effect_scope.

(** ** The changes *)

Inductive ChangeKind := Added | Modified | Deleted | TypeChanged | Opaque.
#[global] Instance ChangeKind_eq_dec : EqDecision ChangeKind.
Proof. solve_decision. Defined.
Definition kind_rank (k : ChangeKind) : nat :=
  match k with Added => 0 | Modified => 1 | Deleted => 2 | TypeChanged => 3 | Opaque => 4 end.

Inductive ChangeEntryType := TFile | TDirectory | TSymlink | TOther.
#[global] Instance ChangeEntryType_eq_dec : EqDecision ChangeEntryType.
Proof. solve_decision. Defined.

(** The path of an entry is what [display] prints of it: bytes of a name that
    are not valid UTF-8 are replaced. *)
Definition printed (p : Path) : Path := from_utf8_lossy <$> p.
Definition text_name (n : string) : Prop := utf8_valid n = true.

#[global] Instance text_name_dec n : Decision (text_name n) := bool_eq_dec (utf8_valid n) true.

Lemma printed_text p : Forall text_name p -> printed p = p.
Proof. unfold printed. induction 1 as [|n p Hn _ IH]; [done|]. rewrite fmap_cons, IH. by rewrite from_utf8_lossy_valid. Qed.

Record ChangeEntry := mkChange {
  ce_path : Path;
  ce_kind : ChangeKind;
  ce_old_type : option ChangeEntryType;
  ce_new_type : option ChangeEntryType;
  ce_size : option Z;
  ce_mode : option Z;
}.

(** [strip_prefix(WHITEOUT_PREFIX)], not empty. *)
Definition whiteout_target (name : string) : option string :=
  if str_starts_with WHITEOUT_PREFIX name
  then (fun victim => if bool_decide (victim = "") then None else Some victim)
         (String.substring (String.length WHITEOUT_PREFIX) (String.length name) name)
  else None.

Definition metadata_type (n : Node) : ChangeEntryType :=
  match n_kind n with KFile _ => TFile | KDir => TDirectory | KSymlink _ => TSymlink | KOther _ _ => TOther end.

(** The lower directories of a change listing: layers, or the target itself. *)
Inductive LowerDir := LayerDir (l : Layer) | TargetDir.

(** ** Selections and errors *)

(** A selected path as its components; ["."], [".."] and ["/"] are those of
    [Component]. *)
Record ApplySelection := mkSelection {
  as_paths : list Path;
  as_includes : list string;
  as_excludes : list string;
}.
Definition is_all (s : ApplySelection) : bool :=
  bool_decide (as_paths s = []) && bool_decide (as_includes s = []) && bool_decide (as_excludes s = []).

(** [Unfinished] stands for a loop of the model that was not given enough turns. *)
Inductive OverlayError := InvalidConfig | ApplyError | InvalidState | MetaError | PersistError | FinalizeError | IoError (e : Z) | Unfinished.
#[global] Instance OverlayError_eq_dec : EqDecision OverlayError.
Proof. solve_decision. Defined.

Definition normalize_selection_path (path : Path) : result OverlayError Path :=
  if existsb (fun c => bool_decide (c = ".." \/ c = "/")) path then Err InvalidConfig
  else Ok (filter (fun c => c <> ".") path).

(** A fold that stops at the first error. *)
Fixpoint fold_result {E A B} (f : B -> A -> result E A) (l : list B) (a : A) : result E A :=
  match l with
  | [] => Ok a
  | b :: rest => let? a := f b a in fold_result f rest a
  end.

(** ** Planning *)

Section Plan.
(** The glob sets of the [globset] crate. *)
Context (compile_globs : list string -> option (Path -> bool)).

Record CompiledApplySelection := mkCompiled {
  cs_paths : list Path;
  cs_includes : Path -> bool;
  cs_excludes : Path -> bool;
  cs_has_positive : bool;
}.

Definition compile (s : ApplySelection) : result OverlayError CompiledApplySelection :=
  let? paths := collect_results normalize_selection_path (as_paths s) in
  let? includes := ok_or (compile_globs (as_includes s)) InvalidConfig in
  let? excludes := ok_or (compile_globs (as_excludes s)) InvalidConfig in
  Ok (mkCompiled paths includes excludes (negb (bool_decide (paths = [])) || negb (bool_decide (as_includes s = [])))).

Definition requested (c : CompiledApplySelection) (path : Path) : bool :=
  negb (cs_has_positive c) || existsb (fun selected => under selected path) (cs_paths c) || cs_includes c path.

(** [Path::parent], again and again: the nearest first, the root last. *)
Definition ancestors (path : Path) : list Path := reverse (map (fun k => take k path) (seq 0 (length path))).

Definition excluded (c : CompiledApplySelection) (path : Path) : bool := existsb (cs_excludes c) (path :: ancestors path).

Section Closure.
Context (compiled : CompiledApplySelection) (changes : list ChangeEntry).

(** Paths that must come along, unless one of them is excluded. *)
Definition take_along (paths : list Path) (selected : gset Path) : result OverlayError (gset Path) :=
  fold_result (fun path selected => if excluded compiled path then Err ApplyError else Ok ({[path]} ∪ selected)) paths selected.

Definition close_opaque (opaque : Path) (selected : gset Path) : result OverlayError (gset Path) :=
  if existsb (fun path => negb (bool_decide (path = opaque)) && under opaque path) (elements selected)
     && negb (bool_decide (opaque ∈ selected))
  then Err ApplyError else
  if bool_decide (opaque ∈ selected)
  then take_along (filter (fun path => under opaque path = true) (ce_path <$> changes)) selected
  else Ok selected.

Definition close_group (group : list Path) (selected : gset Path) : result OverlayError (gset Path) :=
  if existsb (fun path => bool_decide (path ∈ selected)) group then take_along group selected else Ok selected.

Definition is_changed_directory (path : Path) : bool :=
  existsb (fun change => bool_decide (ce_path change = path /\ ce_new_type change = Some TDirectory)) changes.
Definition close_ancestors (path : Path) (selected : gset Path) : result OverlayError (gset Path) :=
  take_along (filter (fun ancestor => is_changed_directory ancestor = true) (ancestors path)) selected.

(** One turn of the loop. *)
Definition close_once (opaque_dirs : list Path) (groups : list (list Path)) (selected : gset Path) : result OverlayError (gset Path) :=
  let? selected := fold_result close_opaque opaque_dirs selected in
  let? selected := fold_result close_group groups selected in
  fold_result close_ancestors (elements selected) selected.

Fixpoint close_loop (fuel : nat) (opaque_dirs : list Path) (groups : list (list Path)) (selected : gset Path)
    : option (result OverlayError (gset Path)) :=
  match fuel with
  | 0 => None
  | S fuel =>
      match close_once opaque_dirs groups selected with
      | Err e => Some (Err e)
      | Ok selected' =>
          if bool_decide (size selected' = size selected) then Some (Ok selected')
          else close_loop fuel opaque_dirs groups selected'
      end
  end.
End Closure.

Record ApplyPlan := mkPlan { ap_selected : list ChangeEntry; ap_paths : gset Path }.

(** [plan_overlay_apply] on its two readings of the upper directory. *)
Definition plan_apply (changes : list ChangeEntry) (hard_link_groups : list (list Path)) (selection : ApplySelection)
    : option (result OverlayError ApplyPlan) :=
  match compile selection with
  | Err e => Some (Err e)
  | Ok compiled =>
      let selected : gset Path :=
        list_to_set (filter (fun path => requested compiled path && negb (excluded compiled path) = true) (ce_path <$> changes)) in
      if negb (is_all selection) && bool_decide (selected = ∅) then Some (Err ApplyError) else
      let opaque_dirs := ce_path <$> filter (fun change => ce_kind change = Opaque) changes in
      match close_loop compiled changes (S (length changes + length (concat hard_link_groups))) opaque_dirs hard_link_groups selected with
      | None => None
      | Some (Err e) => Some (Err e)
      | Some (Ok selected) =>
          Some (Ok (mkPlan (filter (fun change => ce_path change ∈ selected) changes) selected))
      end
  end.
End Plan.

(** ** Reading the upper directory *)

Section Apply.
Context {O : Type} (other : O -> World -> World) (beyond : World -> FPath -> Path -> option Node).
Context (uid gid umask : Z) (sha256_hex : string -> string).
(** The bytes of the target's path, with a final slash. *)
Context (target_root : string).

Abbreviation Fs A := (M World O Z A).
Abbreviation lstat := (lstat beyond).

Definition path_exists (w : World) (f : FPath) : bool := bool_decide (is_Some (lstat w f)).
Definition is_real_dir (w : World) (f : FPath) : bool :=
  match lstat w f with Some n => node_is_dir n | None => false end.

Definition lower_metadata (w : World) (lower_dirs : list LowerDir) (rel : Path) : option Node :=
  head (omap (fun d => match d with
                       | LayerDir l => st_node <$> ly_lstat l rel
                       | TargetDir => lstat w (Target, rel)
                       end) lower_dirs).

(** [walk_upper]: the entries below [dir] with whether they are markers. *)
Fixpoint walk_upper (fuel : nat) (w : World) (dir : Path) : list (Path * bool) :=
  match fuel with
  | 0 => []
  | S fuel =>
      flat_map (fun name =>
        let rel := dir ++ [name] in
        let is_wh := is_whiteout_name name in
        if is_real_dir w (Upper, rel) && negb is_wh
        then (rel, false) :: walk_upper fuel w rel
        else [(rel, is_wh)]) (names_under w (Upper, dir))
  end.

Definition change_of (w : World) (lower_dirs : list LowerDir) (entry : Path * bool) : list ChangeEntry :=
  let '(rel, is_wh) := entry in
  if is_wh then
    match file_name rel with
    | Some name =>
        if bool_decide (name = OPAQUE_NAME)
        then [mkChange (printed (parent rel)) Opaque (Some TDirectory) (Some TDirectory) None None]
        else match whiteout_target name with
             | Some victim =>
                 let path := parent rel ++ [victim] in
                 [mkChange (printed path) Deleted (metadata_type <$> lower_metadata w lower_dirs path) None None None]
             | None => []
             end
    | None => []
    end
  else
    match lstat w (Upper, rel) with
    | None => []
    | Some new =>
        let old_type := metadata_type <$> lower_metadata w lower_dirs rel in
        let new_type := metadata_type new in
        let kind := match old_type with
                    | None => Added
                    | Some t => if bool_decide (t = new_type) then Modified else TypeChanged
                    end in
        [mkChange (printed rel) kind old_type (Some new_type)
           (match n_kind new with KFile content => Some (Z.of_nat (String.length content)) | _ => None end)
           (Some (md_perm (n_meta new)))]
    end.

Definition change_le (a b : ChangeEntry) : Prop :=
  match String.compare (path_bytes (ce_path a)) (path_bytes (ce_path b)) with
  | Lt => True
  | Gt => False
  | Eq => kind_rank (ce_kind a) <= kind_rank (ce_kind b)
  end.
#[global] Instance change_le_dec a b : Decision (change_le a b).
Proof. unfold change_le. destruct (String.compare _ _); apply _. Defined.

Definition overlay_changes (w : World) (lower_dirs : list LowerDir) : list ChangeEntry :=
  if is_real_dir w (Upper, [])
  then merge_sort change_le (flat_map (change_of w lower_dirs) (walk_upper (S (S (height w))) w []))
  else [].

(** [st_nlink] *)
Definition nlink (w : World) (i : Ino) : nat := length (filter (fun '(_, j) => j = i) (map_to_list (w_entries w))).

Definition shared_inode (w : World) (rel : Path) : option Ino :=
  match node_at w (Upper, rel), w_entries w !! (Upper, rel) with
  | Some n, Some i => if kind_is_file (n_kind n) && (1 <? nlink w i)%nat then Some i else None
  | _, _ => None
  end.

Definition upper_hard_link_groups (w : World) : list (list Path) :=
  if is_real_dir w (Upper, []) then
    let files := omap (fun '(rel, is_wh) => if (is_wh : bool) then None else (fun i => (rel, i)) <$> shared_inode w rel)
                   (walk_upper (S (S (height w))) w []) in
    filter (fun paths => 1 < length paths)
      ((fun i => fst <$> filter (fun '(_, j) => j = i) files) <$> remove_dups (snd <$> files))
  else [].

(** ** Changing the target *)

Definition remove_path (f : FPath) : Fs unit :=
  let! found := ask (fun w => lstat w f) in
  match found with
  | Some n => if node_is_dir n then remove_dir_all other f else remove_file other f
  | None => ret tt
  end.

(** [fs::create_dir_all] *)
Definition create_dir_all (f : FPath) : Fs unit :=
  for_each ([] :: prefixes [] (snd f)) (fun p _ =>
    let! present := ask (fun w => is_real_dir w (fst f, p)) in
    if (present : bool) then ret tt else fs_create_dir other uid gid umask (fst f, p)) tt.

Definition ensure_directory (f : FPath) : Fs unit :=
  let! found := ask (fun w => lstat w f) in
  match found with
  | Some n => if node_is_dir n then ret tt else remove_path f ;; fs_create_dir other uid gid umask f
  | None => create_dir_all f
  end.

Definition has_opaque_xattr (w : World) (f : FPath) : bool :=
  existsb (fun name => bool_decide (get_xattr beyond w f name = Some "y")) OPAQUE_XATTRS.

(** *** Metadata *)

Definition del_xattr (name : string) (n : Node) : Node :=
  mkNode (n_kind n) (mkMeta (md_perm (n_meta n)) (md_uid (n_meta n)) (md_gid (n_meta n))
    (md_atime (n_meta n)) (md_mtime (n_meta n)) (delete name (md_xattrs (n_meta n)))).
Definition remove_host_xattr (f : FPath) (name : string) : Fs unit := sys other (change (del_xattr name) f).

Definition ignorable_owner_error (e : Z) : bool := ((e =? EPERM) || (e =? EACCES))%Z.

Definition copy_host_xattrs (source : Node) (destination : FPath) : Fs unit :=
  let names := md_xattrs (n_meta source) in
  let! found := ask (fun w => match lstat w destination with
                              | Some n => fst <$> map_to_list (md_xattrs (n_meta n))
                              | None => []
                              end) in
  for_each found (fun name _ =>
    if bool_decide (name ∈ OPAQUE_XATTRS) || bool_decide (names !! name = None)
    then best_effort ignorable_metadata_error (remove_host_xattr destination name)
    else ret tt) tt ;;
  for_each (filter (fun '(name, _) => name ∉ OPAQUE_XATTRS) (map_to_list names)) (fun '(name, value) _ =>
    best_effort ignorable_metadata_error (set_xattr other destination name value)) tt.

Definition copy_host_metadata (source : Node) (destination : FPath) : Fs unit :=
  let m := n_meta source in
  let nofollow := kind_is_symlink (n_kind source) in
  best_effort ignorable_owner_error (chown other destination (md_uid m) (md_gid m)) ;;
  (if nofollow then ret tt else set_permissions other destination (Z.land (st_mode source) 0xFFF)) ;;
  copy_host_xattrs source destination ;;
  best_effort (fun e => nofollow && ((e =? ENOTSUP) || (e =? EPERM))%Z)
    (set_times other destination (md_atime m) (md_mtime m)).

(** *** Entries *)

Definition path_digest (p : Path) : string := sha256_hex (target_root +:+ path_bytes p).
Definition APPLY_PREFIX : string := ".pvisor-apply-".
Definition apply_temporary (p : Path) : FPath := (Target, parent p ++ [APPLY_PREFIX +:+ path_digest p]).

Definition sync (f : FPath) : Fs unit := sys other (fun w => (Ok tt, w)).

(** [fs::copy] to a name that is not there. *)
Definition fs_copy (content : string) (mode : Z) (destination : FPath) : Fs unit :=
  open_new other uid gid umask destination mode ;;
  set_permissions other destination mode ;;
  write_all other destination content.

(** What [copy_upper_entry] puts under the temporary name. *)
Definition make_entry (source : Node) (existing : option FPath) (temporary : FPath) : Fs unit :=
  match n_kind source with
  | KSymlink target => fs_symlink other uid gid target temporary
  | KFile content =>
      match existing with
      | Some existing => fs_hard_link other existing temporary
      | None => fs_copy content (md_perm (n_meta source)) temporary
      end
  | KOther _ rdev => mknod other uid gid umask temporary (st_mode source) rdev
  | KDir => ret tt
  end.

(** [copy_upper_entry] of an entry that is not a directory; [hard_links] maps the
    inodes that were copied to their first name in the target. *)
Definition copy_upper_entry (p : Path) (hard_links : gmap Ino FPath) : Fs (gmap Ino FPath) :=
  let! source := ask (fun w => lstat w (Upper, p)) in
  let! source := lift (ok_or source ENOENT) in
  let destination := (Target, p) in
  create_dir_all (Target, parent p) ;;
  let temporary := apply_temporary p in
  remove_path temporary ;;
  let! shared := ask (fun w => shared_inode w p) in
  let! result := attempt (
    make_entry source (i ← shared; hard_links !! i) temporary ;;
    copy_host_metadata source temporary ;;
    (if kind_is_file (n_kind source) then sync temporary else ret tt) ;;
    let! over_dir := ask (fun w => is_real_dir w destination) in
    (if (over_dir : bool) then remove_path destination else ret tt) ;;
    fs_rename other temporary destination ;;
    sync (Target, parent p)) in
  match result with
  | Ok _ => ret (match shared with Some i => <[i := destination]> hard_links | None => hard_links end)
  | Err e => ignore (remove_path temporary) ;; throw e
  end.

(** *** Directories *)

Section Selected.
Context (selected : gset Path).

Definition is_opaque_source (w : World) (rel : Path) : bool :=
  path_exists w (Upper, rel ++ [OPAQUE_NAME]) || has_opaque_xattr w (Upper, rel).

Definition has_selected_descendant (logical : Path) : bool :=
  existsb (fun path => negb (bool_decide (path = logical)) && under logical path) (elements selected).

Definition apply_whiteout (rel : Path) (name : string) : Fs unit :=
  if bool_decide (name = OPAQUE_NAME) then ret tt else
  match whiteout_target name with
  | Some victim => if bool_decide (rel ++ [victim] ∈ selected) then remove_path (Target, rel ++ [victim]) else ret tt
  | None => ret tt
  end.

Fixpoint apply_selected_directory (fuel : nat) (rel : Path) (hard_links : gmap Ino FPath) : Fs (gmap Ino FPath) :=
  match fuel with
  | 0 => throw OUT_OF_FUEL
  | S fuel =>
      ensure_directory (Target, rel) ;;
      let! opaque := ask (fun w => is_opaque_source w rel) in
      (if opaque && bool_decide (rel ∈ selected) then
         let! names := ask (fun w => names_under w (Target, rel)) in
         for_each names (fun name _ => remove_path (Target, rel ++ [name])) tt
       else ret tt) ;;
      let! entries := ask (fun w => read_dir w (Upper, rel)) in
      let! entries := lift (ok_or entries ENOTDIR) in
      for_each entries (fun name _ => apply_whiteout rel name) tt ;;
      for_each entries (fun name hard_links =>
        if is_whiteout_name name then ret hard_links else
        let logical := rel ++ [name] in
        let! source := ask (fun w => lstat w (Upper, logical)) in
        let! source := lift (ok_or source ENOENT) in
        if node_is_dir source then
          if bool_decide (logical ∈ selected) || has_selected_descendant logical then
            ensure_directory (Target, logical) ;;
            let! hard_links := apply_selected_directory fuel logical hard_links in
            (if bool_decide (logical ∈ selected) then copy_host_metadata source (Target, logical) else ret tt) ;;
            ret hard_links
          else ret hard_links
        else if bool_decide (logical ∈ selected) then copy_upper_entry logical hard_links
        else ret hard_links) hard_links
  end.

Definition apply_selected_upper : Fs unit :=
  ensure_directory (Target, []) ;;
  let! h := ask height in
  apply_selected_directory (S (S h)) [] ∅ ;;
  ret tt.

(** *** Pruning *)

Definition clear_opaque_xattrs (f : FPath) : Fs unit :=
  for_each OPAQUE_XATTRS (fun name _ =>
    let! value := ask (fun w => get_xattr beyond w f name) in
    if bool_decide (value = Some "y") then remove_host_xattr f name else ret tt) tt.

Fixpoint prune_selected_directory (fuel : nat) (rel : Path) : Fs unit :=
  match fuel with
  | 0 => throw OUT_OF_FUEL
  | S fuel =>
      (if bool_decide (rel ∈ selected) then clear_opaque_xattrs (Upper, rel) else ret tt) ;;
      let! entries := ask (fun w => read_dir w (Upper, rel)) in
      let! entries := lift (ok_or entries ENOTDIR) in
      for_each entries (fun name _ =>
        let path := (Upper, rel ++ [name]) in
        if bool_decide (name = OPAQUE_NAME) then
          if bool_decide (rel ∈ selected) then remove_path path else ret tt
        else
        match whiteout_target name with
        | Some victim => if bool_decide (rel ++ [victim] ∈ selected) then remove_path path else ret tt
        | None =>
            let logical := rel ++ [name] in
            let! n := ask (fun w => lstat w path) in
            let! n := lift (ok_or n ENOENT) in
            if node_is_dir n then
              (if bool_decide (logical ∈ selected) || has_selected_descendant logical
               then prune_selected_directory fuel logical else ret tt) ;;
              let! empty := ask (fun w => bool_decide (names_under w path = [])) in
              if bool_decide (logical ∈ selected) && empty then sys other (rmdir path) else ret tt
            else if bool_decide (logical ∈ selected) then remove_path path else ret tt
        end) tt
  end.

Definition prune_selected_upper : Fs unit :=
  let! h := ask height in
  prune_selected_directory (S (S h)) [].
End Selected.
End Apply.
