(* ===== verification/OverlayMerge.v ===== *)
(** * Applying is invisible, and complete

    While an upper directory is applied to the target below it, the merged tree
    does not change: every change of the target is at a path whose node the
    upper directory provides or hides.  When everything has been applied, the
    target by itself is the merged tree. *)

From Stdlib Require Import ZArith Lia.
From stdpp Require Import base list strings gmap pretty sorting.
From S2P Require Import Prelude Effects OverlayFs OverlayCore OverlayView OverlaySteps OverlayShape OverlayCopy OverlayEdit OverlayApply.
#[local] Set Warnings "-clear-no-such-hyp".
Open Scope string_scope.
Open Scope list_scope.
Open Scope effect_scope.

(** ** The merged tree *)

(** The kinds of nodes in the target. *)
Definition tsum (w : World) : Path -> option Kind := fun p => n_kind <$> node_at w (Target, p).

(** A layer with these kinds. *)
Definition layer_from (t : Path -> option Kind) : Layer :=
  mkLayer (fun p => (fun k => mkStat (mkNode k (mkMeta 0 0 0 (0, 0) (0, 0) ∅)%Z) 0 0 1) <$> t p) (fun _ => false) (fun _ => None) 0.

(** Names that are not the temporary ones of an application. *)
Definition ordinary_name (n : string) : bool := plain_name n && negb (str_starts_with APPLY_PREFIX n).
Definition ordinary (p : Path) : Prop := Forall (fun n => ordinary_name n = true) p.

Lemma ordinary_snoc p n : ordinary (p ++ [n]) <-> ordinary p /\ ordinary_name n = true.
Proof. unfold ordinary. rewrite Forall_app, Forall_singleton. done. Qed.
Lemma ordinary_app p q : ordinary (p ++ q) <-> ordinary p /\ ordinary q.
Proof. apply Forall_app. Qed.
Lemma ordinary_plain_name n : ordinary_name n = true -> plain_name n = true.
Proof. unfold ordinary_name. intros H. by apply andb_true_iff in H as [H _]. Qed.
Lemma ordinary_plain p : ordinary p -> plain p.
Proof. unfold ordinary, plain. intros H. eapply Forall_impl; [exact H|]. intros n Hn. by apply ordinary_plain_name. Qed.

Lemma lowk_layer_from t p : lowk [layer_from t] p = t p.
Proof.
  unfold lowk, lower_node. destruct (find_lower 0 [layer_from t] p) as [i|] eqn:E.
  - apply find_lower_spec in E as (_ & l & st & Hl & Hst). rewrite Nat.sub_0_r in Hl. simpl. rewrite Hl. simpl. rewrite Hst.
    apply list_lookup_singleton_Some in Hl as [-> <-]. simpl in Hst. revert Hst. by destruct (t p); intros [= <-].
  - apply find_lower_None in E. apply Forall_cons_1 in E as [E _]. simpl in E. revert E. by destruct (t p).
Qed.

Section Merge.
Context (core : OverlayCore).
Implicit Types (s : Shape) (t m : Path -> option Kind) (p q : Path) (n : string) (w : World).

Definition mg s t p : option Kind := kv core [layer_from t] s p.

Lemma mg_snoc s t p n : mg s t (p ++ [n]) =
  if is_excluded core (p ++ [n]) then None else
  if is_kdir (mg s t p) then
    match s (p ++ [n]) with Some (k, _) => Some k | None => if hides s p n then None else t (p ++ [n]) end
  else None.
Proof. unfold mg. rewrite kv_snoc. unfold kcomp. by rewrite lowk_layer_from. Qed.

(** A path whose node the target does not decide. *)
Definition covered s (m : Path -> option Kind) q : Prop :=
  forall p n, q = p ++ [n] -> is_excluded core q = false -> m p = Some KDir -> s q = None -> hides s p n = true.

Definition Agrees s t (m : Path -> option Kind) : Prop := forall p, ordinary p -> mg s t p = m p.

Lemma Agrees_step s t t' m : Agrees s t m ->
  (forall q, ordinary q -> q <> [] -> covered s m q \/ t' q = t q) -> Agrees s t' m.
Proof.
  intros HA Hstep p. induction p as [|n p IH] using rev_ind; intros Hp; [by rewrite <- HA by done|].
  pose proof Hp as [Hpp Hn]%ordinary_snoc. specialize (IH Hpp). rewrite <- (HA (p ++ [n])) by done. rewrite !mg_snoc, IH, (HA p) by done.
  destruct (is_excluded core (p ++ [n])) eqn:Ex; [done|]. destruct (is_kdir (m p)) eqn:Ed; [|done]. apply is_kdir_spec in Ed.
  destruct (s (p ++ [n])) as [[k b]|] eqn:Es; [done|].
  destruct (Hstep (p ++ [n]) Hp ltac:(by destruct p)) as [Hc| ->]; [|done].
  by rewrite (Hc p n eq_refl Ex Ed Es).
Qed.

(** *** Where the target may change *)

Lemma Agrees_entry s t m q k b : Agrees s t m -> ordinary q -> q <> [] -> s q = Some (k, b) -> m q = Some k \/ m q = None.
Proof.
  intros HA Hq Hne Hs. destruct (path_snoc q Hne) as (p & n & ->). rewrite <- HA, mg_snoc, Hs by done.
  destruct (is_excluded _ _); [by right|]. destruct (is_kdir _); [by left|by right].
Qed.

Lemma Agrees_above_dir s t m p r : Agrees s t m -> ordinary (p ++ r) -> r <> [] -> is_Some (m (p ++ r)) -> m p = Some KDir.
Proof.
  intros HA Hp Hr. rewrite <- !HA by (done || by apply ordinary_app in Hp as [? _]). by apply kv_above_dir.
Qed.

(** Nothing below a node that is not shown as a directory is decided by the
    target. *)
Lemma covered_below s t m q r n : Agrees s t m -> ordinary (q ++ r ++ [n]) -> m q <> Some KDir -> covered s m (q ++ r ++ [n]).
Proof.
  intros HA Ho Hq p n' E Hx Hd Hs. exfalso. apply Hq. rewrite app_assoc in E. apply app_inj_tail in E as [<- <-].
  destruct r as [|x r]; [by rewrite app_nil_r in Hd|]. rewrite app_assoc in Ho. apply ordinary_snoc in Ho as [Ho _].
  apply (Agrees_above_dir s t m q (x :: r)); [done|done|done|by rewrite Hd].
Qed.

Definition free s m q : Prop := forall r, ordinary (q ++ r) -> covered s m (q ++ r).

Lemma covered_entry s m q : is_Some (s q) -> covered s m q.
Proof. intros [x Hx] p n -> _ _ HN. congruence. Qed.

Lemma free_leaf s t m q k b : Agrees s t m -> q <> [] -> s q = Some (k, b) -> k <> KDir -> free s m q.
Proof.
  intros HA Hne Hs Hk r Ho. destruct r as [|n r _] using rev_ind; [rewrite app_nil_r; apply covered_entry; by rewrite Hs|].
  apply (covered_below s t); [done|done|]. apply ordinary_app in Ho as [Ho _].
  destruct (Agrees_entry s t m q k b) as [->| ->]; try done. congruence.
Qed.

Lemma free_hidden s t m p n : Agrees s t m -> s (p ++ [n]) = None -> hides s p n = true -> free s m (p ++ [n]).
Proof.
  intros HA Hs Hh r Ho. destruct r as [|x r _] using rev_ind.
  - rewrite app_nil_r. intros p' n' [<- <-]%app_inj_tail _ _ _. done.
  - apply (covered_below s t); [done|done|]. apply ordinary_app in Ho as [Ho _].
    rewrite <- HA, mg_snoc, Hs, Hh by done. destruct (is_excluded _ _); [done|]. by destruct (is_kdir _).
Qed.

(** Everything shown below an opaque directory is in the upper directory. *)
Definition sealed s m : Prop := forall p r, opq s p = true -> r <> [] -> ordinary (p ++ r) -> is_Some (m (p ++ r)) -> is_Some (s (p ++ r)).

Lemma sealed_covers s t m p r : Agrees s t m -> sealed s m -> opq s p = true -> r <> [] -> ordinary (p ++ r) ->
  covered s m (p ++ r) \/ t (p ++ r) = None.
Proof.
  intros HA Hsl Hop Hr Ho. destruct (t (p ++ r)) as [k|] eqn:Et; [|by right]. left. intros p' n E Hx Hd Hs.
  destruct (hides s p' n) eqn:Eh; [done|]. exfalso. assert (m (p ++ r) = Some k) as Hm.
  { rewrite <- HA by done. rewrite E in Et, Hx, Hs, Ho |- *. rewrite mg_snoc, Hx, Hs, Eh. apply ordinary_snoc in Ho as [Ho _].
    by rewrite (HA p' Ho), Hd. }
  destruct (Hsl p r Hop Hr) as [x Hx']; [done|by rewrite Hm|]. rewrite E in Hx'. congruence.
Qed.
End Merge.
