(* ===== verification/OverlayPublish.v ===== *)
(** * What an application does to the target

    Every call of an application changes the target only, and there only at
    paths that the merged tree does not read from it. *)

From Stdlib Require Import ZArith Lia.
From stdpp Require Import base list strings gmap pretty sorting.
From S2P Require Import Prelude Effects OverlayFs OverlayCore OverlayView OverlaySteps OverlayShape OverlayCopy OverlayEdit OverlayApply OverlayMerge.
#[local] Set Warnings "-clear-no-such-hyp".
Open Scope string_scope.
Open Scope list_scope.
Open Scope effect_scope.

(** ** Look-up below a directory *)

Definition dir_at (w : World) (f : FPath) : Prop := exists d, node_at w f = Some d /\ node_is_dir d = true.

Lemma dir_at_above w a p q : wf w -> dir_at w (a, p ++ q) -> dir_at w (a, p).
Proof.
  intros Hw (d & Hd & Hdir). destruct q as [|x q]; [rewrite app_nil_r in Hd; by exists d|].
  by apply (wf_above w a p (x :: q) d).
Qed.

Lemma first_link_dirs w a seen rest c :
  (forall r, r `prefix_of` rest -> r <> [] -> dir_at w (a, seen ++ r)) -> first_link w a seen (rest ++ [c]) = None.
Proof.
  revert seen. induction rest as [|x rest IH]; intros seen Hr; [done|]. simpl.
  destruct (rest ++ [c]) as [|y l] eqn:E; [by destruct rest|]. rewrite <- E.
  destruct (Hr [x]) as (d & Hd & Hdir); [by exists rest|done|]. rewrite Hd.
  unfold node_is_dir in Hdir. destruct (n_kind d); try done. simpl. rewrite ?E. apply IH. intros r Hp Hne.
  rewrite <- app_assoc. apply Hr; [by apply prefix_cons|done].
Qed.

Lemma lstat_below beyond w a p n : wf w -> dir_at w (a, p) -> lstat beyond w (a, p ++ [n]) = node_at w (a, p ++ [n]).
Proof.
  intros Hw Hd. unfold lstat. destruct (node_at w _); [done|]. simpl. rewrite first_link_dirs; [done|].
  intros r [r' ->] _. by eapply dir_at_above.
Qed.

Lemma is_real_dir_spec beyond w f : dir_at w f -> is_real_dir beyond w f = true.
Proof. intros (d & Hd & Hdir). unfold is_real_dir, lstat. by rewrite Hd. Qed.

(** What a call leaves behind, from a given world. *)
Lemma triple_at {O A} (P : World -> Prop) (m : M World O Z A) Q F C :
  (forall w0, P w0 -> triple (fun w => w = w0) m Q F C) -> triple P m Q F C.
Proof. intros H envs w Hw. by apply (H w Hw). Qed.

Section Publish.
Context {O : Type} (other : O -> World -> World) (beyond : World -> FPath -> Path -> option Node).
Context (uid gid umask : Z) (sha256_hex : string -> string) (target_root : string).
Context (core : OverlayCore) (others_quiet : forall o w, other o w = w).

(** The upper directory, and what the overlay over the target shows. *)
Context (s : Shape) (m : Path -> option Kind).
Implicit Types (p q : Path) (n : string) (w : World) (G : Path -> Prop).

Abbreviation Fs A := (M World O Z A).
Abbreviation covered := (covered core s m).
Abbreviation triple_sys := (triple_sys other others_quiet).

(** ** Footprints *)

(** No file has names on both sides. *)
Definition apart w : Prop :=
  forall p q i, w_entries w !! (Upper, p) = Some i -> w_entries w !! (Target, q) = Some i -> False.

(** A node that [mknod] makes again. *)
Definition real_node (nd : Node) : Prop :=
  match n_kind nd with
  | KOther format _ => Z.land (st_mode nd) 0xF000 = format /\ (format ∉ [0; 0x8000; 0x4000; 0xA000])%Z
  | _ => True
  end.

Definition Still w : Prop :=
  wf w /\ apart w /\ (forall p, usum w p = s p) /\ Agrees core s (tsum w) m
  /\ (forall p nd, node_at w (Upper, p) = Some nd -> real_node nd) /\ tsum w [] = Some KDir.

Definition upper_same w0 w : Prop :=
  (forall p, w_entries w !! (Upper, p) = w_entries w0 !! (Upper, p)) /\ forall p, node_at w (Upper, p) = node_at w0 (Upper, p).

Definition may q : Prop := q <> [] /\ (ordinary q -> covered q).

(** From [w0], the target changed only in [G], where it may. *)
Definition Foot G w0 w : Prop :=
  Still w /\ upper_same w0 w /\ forall q, tsum w q = tsum w0 q \/ G q /\ may q.

Definition nowhere : Path -> Prop := fun _ => False.
Definition below q : Path -> Prop := fun p => under q p = true.

Lemma Foot_refl G w : Still w -> Foot G w w.
Proof. intros H. split; [done|]. split; [done|]. by left. Qed.

Lemma Foot_trans G w0 w1 w2 : Foot G w0 w1 -> Foot G w1 w2 -> Foot G w0 w2.
Proof.
  intros (_ & [E1 N1] & H1) (HS & [E2 N2] & H2). split; [done|]. split; [split; intros p; [by rewrite E2|by rewrite N2]|].
  intros q. destruct (H2 q) as [->|?]; [apply H1|by right].
Qed.

Lemma Foot_mono G G' w0 w : (forall q, G q -> G' q) -> Foot G w0 w -> Foot G' w0 w.
Proof. intros HG (HS & E & H). split; [done|]. split; [done|]. intros q. destruct (H q) as [?|[? ?]]; [by left|right; auto]. Qed.

Lemma Foot_same G w0 w q : Foot G w0 w -> ~ G q -> tsum w q = tsum w0 q.
Proof. intros (_ & _ & H) HG. by destruct (H q) as [?|[? _]]. Qed.

Lemma Foot_Still G w0 w : Foot G w0 w -> Still w.
Proof. by intros [? _]. Qed.

(** One step. *)
Lemma Foot_step G w w' : Still w -> wf w' ->
  (forall p, w_entries w' !! (Upper, p) = w_entries w !! (Upper, p)) ->
  (forall p, node_at w' (Upper, p) = node_at w (Upper, p)) ->
  (forall q i, w_entries w' !! (Target, q) = Some i -> i = fresh_ino w \/ exists q', w_entries w !! (Target, q') = Some i) ->
  (forall q, tsum w' q = tsum w q \/ G q /\ may q) -> Foot G w w'.
Proof.
  intros (Hw & Ha & Hs & HA & Hr & Hroot) Hw' He Hn Ht HG. split; [|done]. split; [done|]. split; [|split; [|split; [|split]]].
  - intros p q i Hp Hq. rewrite He in Hp. destruct (Ht q i Hq) as [->|[q' Hq']]; [|by eapply Ha].
    by apply (fresh_ino_unused w (Upper, p)) in Hp.
  - intros p. rewrite <- Hs. unfold usum. by rewrite Hn.
  - apply (Agrees_step core s (tsum w)); [done|]. intros q Ho _. destruct (HG q) as [?|[_ [_ ?]]]; [by right|left; auto].
  - intros p nd. rewrite Hn. apply Hr.
  - rewrite <- Hroot. by destruct (HG []) as [?|[_ [? _]]].
Qed.

(** *** Single calls *)

Lemma create_foot G nd q w r w' : Still w -> create nd (Target, q) w = (r, w') -> G q -> may q ->
  Foot G w w' /\ (r = Ok tt -> node_at w (Target, q) = None /\ sole w' (Target, q)
    /\ forall g, node_at w' g = if decide (g = (Target, q)) then Some nd else node_at w g).
Proof.
  intros HS E HG Hm. pose proof HS as (Hw & _). pose proof E as E'. eapply create_spec in E'; [|done].
  destruct r as [[]|e]; [|subst; split; [by apply Foot_refl|done]]. destruct E' as (Hw' & _ & HN & Hso & _ & Hn).
  split; [|done]. unfold create in E. destruct (parent_error w _); [done|]. destruct (w_entries w !! (Target, q)); [done|].
  injection E as <-. apply Foot_step; [done|done| | | |].
  - intros p. simpl. by rewrite lookup_insert_ne.
  - intros p. by rewrite Hn, decide_False.
  - intros q' i. simpl. rewrite lookup_insert_Some. intros [[_ <-]|[_ ?]]; [by left|eauto].
  - intros q'. unfold tsum. rewrite Hn. destruct (decide _) as [[= ->]|]; [by right|by left].
Qed.

Lemma change_foot h q w r w' : Still w -> change h (Target, q) w = (r, w') -> (forall nd, n_kind (h nd) = n_kind nd) ->
  Foot nowhere w w'.
Proof.
  intros HS E Hh. pose proof HS as (Hw & Ha & _). eapply change_spec in E; [|done|].
  - destruct r as [[]|e]; [|subst; by apply Foot_refl]. destruct E as (Hw' & _ & He & i & nd & Hi & Hnd & Hn).
    apply Foot_step; [done|done|by rewrite He| |rewrite He; eauto|].
    + intros p. rewrite Hn. rewrite decide_False; [done|]. intros Hp. by eapply Ha.
    + intros q'. left. unfold tsum. rewrite Hn. destruct (decide _) as [Hq|]; [|done].
      rewrite (node_at_Some _ _ _ _ Hq Hnd). simpl. by rewrite Hh.
  - intros nd _. unfold node_is_dir. by rewrite Hh.
Qed.

Lemma delete_foot G q w w' : Still w -> wf w' -> G q -> (is_Some (tsum w q) -> may q) ->
  (forall g, w_entries w' !! g = if decide (g = (Target, q)) then None else w_entries w !! g) ->
  (forall g, node_at w' g = if decide (g = (Target, q)) then None else node_at w g) -> Foot G w w'.
Proof.
  intros HS Hw' HG Hm He Hn. apply Foot_step; [done|done| | | |].
  - intros p. by rewrite He, decide_False.
  - intros p. by rewrite Hn, decide_False.
  - intros q' i. rewrite He. destruct (decide _); [done|eauto].
  - intros q'. unfold tsum. rewrite Hn. destruct (decide _) as [[= ->]|]; [|by left].
    destruct (node_at w (Target, q)) as [nd|] eqn:E; [|by left]. right. split; [done|]. apply Hm. unfold tsum. by rewrite E.
Qed.

(** *** Removing *)

(** Everything that is at or below [q] may go. *)
Definition owned w q : Prop := forall p, under q p = true -> is_Some (tsum w p) -> may p.

Lemma Foot_owned G w0 w q : Foot G w0 w -> owned w0 q -> owned w q.
Proof. intros (_ & _ & H) Ho p Hp Hs. destruct (H p) as [E|[_ ?]]; [|done]. rewrite E in Hs. auto. Qed.

Definition Removing w0 q (rest : list FPath) w : Prop :=
  Foot (below q) w0 w
  /\ (forall p, under q p = true -> is_Some (node_at w (Target, p)) -> (Target, p) ∈ rest)
  /\ Forall (fun g => subtree (Target, q) g = true) rest.

Lemma remove_any_target w0 q g rest : owned w0 q ->
  triple (Removing w0 q (g :: rest)) (remove_any other g) (fun _ => Removing w0 q rest) (Foot (below q) w0) (Foot (below q) w0).
Proof.
  intros Ho. apply triple_sys; [by intros w [? _]|by intros w [? _]|]. intros w (HF & Hin & Hall).
  apply Forall_cons_1 in Hall as [Hg Hall]. destruct g as [a p0]. apply subtree_pair in Hg as [<- Hp0].
  apply under_spec in Hp0. pose proof HF as [HS _]. pose proof HS as (Hw & _).
  assert (forall w', wf w' -> (forall g, w_entries w' !! g = if decide (g = (Target, p0)) then None else w_entries w !! g) ->
    (forall g, node_at w' g = if decide (g = (Target, p0)) then None else node_at w g) ->
    Removing w0 q rest w' /\ Foot (below q) w0 w') as Hdone.
  { intros w' Hw' He Hn. assert (Foot (below q) w0 w') as HF'.
    { eapply Foot_trans; [exact HF|]. apply (delete_foot _ p0); [done|done|done| |done|done].
      apply (Foot_owned _ _ _ _ HF Ho). done. }
    split; [|done]. split; [done|]. split; [|done]. intros p Hp. rewrite Hn. destruct (decide _) as [|Hne]; [by intros [? ?]|].
    intros Hs. specialize (Hin p Hp Hs). apply elem_of_cons in Hin as [?|?]; done. }
  destruct (node_at w (Target, p0)) as [nd|]; [|done]. destruct (node_is_dir nd).
  - destruct (rmdir _ w) as [res w'] eqn:E. eapply rmdir_spec in E; [|done|done].
    destruct res as [?|?]; [|by subst]. destruct E as (Hw' & _ & He & Hn). by apply Hdone.
  - destruct (unlink _ w) as [res w'] eqn:E. eapply unlink_spec in E; [|done].
    destruct res as [?|?]; [|by destruct E as [-> _]]. destruct E as (Hw' & _ & _ & He & Hn). by apply Hdone.
Qed.

Lemma remove_dir_all_target w0 q : Still w0 -> owned w0 q ->
  triple (fun w => w = w0) (remove_dir_all other (Target, q))
    (fun _ w => Foot (below q) w0 w /\ node_at w (Target, q) = None) (Foot (below q) w0) (Foot (below q) w0).
Proof.
  intros HS Ho. unfold remove_dir_all. eapply (triple_bind _ _ _ (Removing w0 q)).
  { apply triple_ask. intros w ->. split; [by apply Foot_refl|]. split.
    - intros p Hp [nd Hnd]. apply elem_of_contents_2; [apply subtree_pair; split; [done|by apply under_spec]|].
      apply node_at_entry in Hnd as (i & Hi & _). by eexists.
    - apply Forall_forall. by intros g [Hg _]%elem_of_contents. }
  intros fs. eapply (triple_post _ _ _ (fun _ => Removing w0 q [])); [|intros ? w (HF & Hin & _)|done|done].
  - apply (triple_for (fun rest _ => Removing w0 q rest)). intros g rest []. by apply remove_any_target.
  - split; [done|]. destruct (node_at w (Target, q)) eqn:E; [|done].
    specialize (Hin q (under_refl q) ltac:(by rewrite E)). by apply elem_of_nil in Hin.
Qed.

Lemma remove_path_triple w0 q : Still w0 -> owned w0 q ->
  triple (fun w => w = w0) (remove_path other beyond (Target, q))
    (fun _ w => Foot (below q) w0 w /\ node_at w (Target, q) = None) (Foot (below q) w0) (Foot (below q) w0).
Proof.
  intros HS Ho. unfold remove_path. eapply triple_bind; [apply triple_ask_eq|intros found]. simpl.
  destruct found as [nd|].
  - eapply (triple_pre _ (fun w => w = w0)); [by intros w [-> _]|]. destruct (node_is_dir nd); [by apply remove_dir_all_target|].
    apply triple_sys; [intros w ->; by apply Foot_refl|intros w ->; by apply Foot_refl|]. intros w ->.
    destruct (unlink _ w0) as [res w'] eqn:E. eapply unlink_spec in E; [|apply HS].
    destruct res as [?|?]; [|destruct E as [-> _]; by apply Foot_refl]. destruct E as (Hw' & _ & _ & He & Hn).
    assert (Foot (below q) w0 w') as HF.
    { apply (delete_foot _ q); [done|done|apply under_refl| |done|done]. apply Ho, under_refl. }
    split; [|done]. split; [done|]. by rewrite Hn, decide_True.
  - apply triple_ret. intros w [-> HN]. split; [by apply Foot_refl|]. unfold lstat in HN. by destruct (node_at w0 (Target, q)).
Qed.

(** The triples compose. *)
Lemma triple_within {A} G G' w0 w1 (c : Fs A) Q : Foot G w0 w1 -> (forall p, G' p -> G p) ->
  triple (fun w => w = w1) c (fun a w => Foot G' w1 w /\ Q a w) (Foot G' w1) (Foot G' w1) ->
  triple (fun w => w = w1) c (fun a w => Foot G w0 w /\ Foot G' w1 w /\ Q a w) (Foot G w0) (Foot G w0).
Proof.
  intros HF HG H. assert (forall w, Foot G' w1 w -> Foot G w0 w) as Htr.
  { intros w HF'. eapply Foot_trans; [exact HF|]. by eapply Foot_mono. }
  eapply triple_post; [exact H| |exact Htr|exact Htr]. intros a w [HF' HQ]. auto.
Qed.

Lemma triple_foot {A} G w0 w1 (c : Fs A) Q : Foot G w0 w1 ->
  triple (fun w => w = w1) c (fun a w => Foot G w1 w /\ Q a w) (Foot G w1) (Foot G w1) ->
  triple (fun w => w = w1) c (fun a w => Foot G w0 w /\ Q a w) (Foot G w0) (Foot G w0).
Proof. intros HF H. eapply triple_post; [by eapply triple_within|by intros a w (? & _ & ?)|done|done]. Qed.

Lemma remove_within G w0 w1 q : Foot G w0 w1 -> (forall p, below q p -> G p) -> owned w1 q ->
  triple (fun w => w = w1) (remove_path other beyond (Target, q))
    (fun _ w => Foot G w0 w /\ Foot (below q) w1 w /\ node_at w (Target, q) = None) (Foot G w0) (Foot G w0).
Proof. intros HF HG Ho. eapply triple_within; [exact HF|exact HG|]. apply remove_path_triple; [apply HF|done]. Qed.

(** *** Directories *)

Lemma dir_at_tsum w p : dir_at w (Target, p) <-> tsum w p = Some KDir.
Proof.
  unfold dir_at, tsum. split.
  - intros (d & -> & Hd). unfold node_is_dir in Hd. simpl. by destruct (n_kind d).
  - destruct (node_at w (Target, p)) as [d|]; [|done]. simpl. intros [= Hk]. exists d. split; [done|]. unfold node_is_dir. by rewrite Hk.
Qed.

(** The directory that has the name [q] is there. *)
Definition seated w q : Prop := q = [] \/ tsum w (parent q) = Some KDir.

Lemma seated_snoc w p n : seated w (p ++ [n]) <-> tsum w p = Some KDir.
Proof. unfold seated. rewrite parent_snoc. split; [|by right]. by intros [?%app_nil|?]; [destruct_and?|]. Qed.

Lemma seated_above w p q : wf w -> seated w q -> p `prefix_of` q -> p <> q -> tsum w p = Some KDir.
Proof.
  intros Hw Hs Hp Hne. assert (q <> []) as (q' & n & ->)%path_snoc by (intros ->; by apply prefix_nil_inv in Hp).
  apply seated_snoc in Hs. apply dir_at_tsum. apply dir_at_tsum in Hs.
  destruct (under_snoc p q' n) as [->|Hu]; [by apply under_spec|done|]. apply under_spec in Hu as [r ->].
  by eapply dir_at_above.
Qed.

Lemma lstat_seated w q : wf w -> seated w q -> lstat beyond w (Target, q) = node_at w (Target, q).
Proof.
  intros Hw Hs. destruct q as [|n q _] using rev_ind; [unfold lstat; by destruct (node_at w _)|].
  apply lstat_below; [done|]. by apply dir_at_tsum, (seated_snoc w q n).
Qed.

Lemma real_dir_seated w q : wf w -> seated w q -> is_real_dir beyond w (Target, q) = is_kdir (tsum w q).
Proof.
  intros Hw Hs. unfold is_real_dir, tsum. rewrite lstat_seated by done. destruct (node_at w (Target, q)) as [d|]; [|done].
  simpl. unfold node_is_dir. by destruct (n_kind d).
Qed.

(** The directories above are not in the footprint. *)
Lemma Foot_seated w0 w q : Foot (below q) w0 w -> seated w0 q -> seated w q.
Proof.
  intros HF [->|Hd]; [by left|]. destruct (decide (q = [])) as [->|(p & n & ->)%path_snoc]; [by left|].
  rewrite parent_snoc in Hd. apply seated_snoc. rewrite <- Hd. apply (Foot_same (below (p ++ [n]))); [done|].
  unfold below. by rewrite under_snoc_self.
Qed.

Lemma mkdir_triple w0 q : Still w0 -> may q ->
  triple (fun w => w = w0) (fs_create_dir other uid gid umask (Target, q))
    (fun _ w => Foot (below q) w0 w /\ tsum w q = Some KDir) (Foot (below q) w0) (Foot (below q) w0).
Proof.
  intros HS Hm. apply triple_sys; [intros w ->; by apply Foot_refl|intros w ->; by apply Foot_refl|]. intros w ->.
  destruct (create _ _ w0) as [r w'] eqn:E. apply (create_foot (below q)) in E as [HF Hok]; [|done|apply under_refl|done].
  destruct r as [[]|?]; [|done]. split; [|done]. split; [done|]. destruct (Hok eq_refl) as (_ & _ & Hn).
  unfold tsum. by rewrite Hn, decide_True.
Qed.

Lemma create_dir_all_triple w0 q : Still w0 -> may q -> seated w0 q ->
  triple (fun w => w = w0) (create_dir_all other beyond uid gid umask (Target, q))
    (fun _ w => Foot (below q) w0 w /\ tsum w q = Some KDir) (Foot (below q) w0) (Foot (below q) w0).
Proof.
  intros HS Hm Hseat. unfold create_dir_all. cbn [fst snd].
  set (J := fun (rest : list Path) (_ : unit) w => Foot (below q) w0 w /\ (q ∉ rest -> tsum w q = Some KDir) /\ Forall (fun x => x `prefix_of` q) rest).
  eapply (triple_post _ _ _ (J [])); [|intros ? w (HF & Hd & _); split; [done|apply Hd, not_elem_of_nil]|done|done].
  eapply (triple_pre _ (J ([] :: prefixes [] q) tt)).
  { intros w ->. split; [by apply Foot_refl|]. split.
    - intros Hn. exfalso. apply Hn. destruct q as [|x q]; [by left|]. right. apply elem_of_prefixes. by exists (x :: q).
    - constructor; [apply prefix_nil|]. apply Forall_forall. intros x (r & -> & _ & Hr)%elem_of_prefixes. done. }
  apply (triple_for J). intros x rest []. apply triple_at. intros w (HF & Hd & [Hx Hrest]%Forall_cons_1).
  pose proof HF as [HSw _]. pose proof (Foot_seated _ _ _ HF Hseat) as Hsw.
  eapply (triple_post _ _ _ (fun _ w' => Foot (below q) w0 w' /\ (q ∉ rest -> tsum w' q = Some KDir))); [|by intros ? w' []|done|done].
  apply triple_foot; [done|]. eapply triple_bind; [apply triple_ask_eq|intros present]. cbv beta.
  destruct (decide (x = q)) as [->|Hne].
  - destruct present.
    + apply triple_ret. intros w' [-> Hp]. split; [by apply Foot_refl|]. intros _. rewrite real_dir_seated in Hp; [|apply HSw|done].
      symmetry in Hp. by apply is_kdir_spec.
    + eapply (triple_pre _ (fun w' => w' = w)); [by intros w' [-> _]|].
      eapply triple_post; [by apply mkdir_triple|by intros ? w' []|done|done].
  - apply triple_extract with (φ := present = true).
    { intros w' [-> ->]. apply is_real_dir_spec, dir_at_tsum. by apply (seated_above w x q); [apply HSw|..]. }
    intros ->. apply triple_ret. intros w' [-> _]. split; [by apply Foot_refl|]. intros Hn. apply Hd.
    by intros [?|?]%elem_of_cons; subst.
Qed.

(** Below what is not a directory there is nothing. *)
Lemma owned_leaf w q : wf w -> may q -> tsum w q <> Some KDir -> owned w q.
Proof.
  intros Hw Hm Hk p [r ->]%under_spec Hp. destruct r as [|x r]; [by rewrite app_nil_r|]. exfalso. apply Hk, dir_at_tsum.
  unfold tsum in Hp. apply fmap_is_Some in Hp as [nd Hnd]. by apply (wf_above w Target q (x :: r) nd).
Qed.

Lemma ensure_directory_triple w0 q : Still w0 -> (tsum w0 q <> Some KDir -> may q) -> seated w0 q ->
  triple (fun w => w = w0) (ensure_directory other beyond uid gid umask (Target, q))
    (fun _ w => Foot (below q) w0 w /\ tsum w q = Some KDir) (Foot (below q) w0) (Foot (below q) w0).
Proof.
  intros HS Hm Hseat. unfold ensure_directory. eapply triple_bind; [apply triple_ask_eq|intros found]. cbv beta.
  pose proof HS as (Hw & _). apply triple_extract with (φ := found = node_at w0 (Target, q)).
  { intros w [-> ->]. by apply lstat_seated. }
  intros Hf. eapply (triple_pre _ (fun w => w = w0)); [by intros w [-> _]|]. destruct found as [nd|].
  - destruct (node_is_dir nd) eqn:Ed.
    + apply triple_ret. intros w ->. split; [by apply Foot_refl|]. apply dir_at_tsum. exists nd. done.
    + assert (tsum w0 q <> Some KDir) as Hnd by (rewrite <- dir_at_tsum; intros (d & Hd & Hdir); congruence).
      specialize (Hm Hnd). assert (owned w0 q) as Ho by by apply owned_leaf.
      eapply triple_bind; [by apply remove_path_triple|intros []]. apply triple_at. intros w [HF _].
      apply triple_foot; [done|]. apply mkdir_triple; [apply HF|done].
  - apply create_dir_all_triple; [done| |done]. apply Hm. unfold tsum. by rewrite <- Hf.
Qed.

(** *** Metadata *)

Definition same w0 : World -> Prop := Foot nowhere w0.

Lemma change_same w0 q h : (forall nd, n_kind (h nd) = n_kind nd) ->
  triple (same w0) (sys other (change h (Target, q))) (fun _ => same w0) (same w0) (same w0).
Proof.
  intros Hh. apply triple_sys; [done|done|]. intros w HF. destruct (change h (Target, q) w) as [r w'] eqn:E.
  apply change_foot in E; [|apply HF|done]. assert (same w0 w') by (by eapply Foot_trans). by destruct r.
Qed.
Hint Resolve change_same : core.

Lemma copy_host_xattrs_triple w0 source q :
  triple (same w0) (copy_host_xattrs other beyond source (Target, q)) (fun _ => same w0) (same w0) (same w0).
Proof.
  unfold copy_host_xattrs. eapply (triple_bind _ _ _ (fun _ => same w0)); [by apply triple_ask|intros found].
  eapply (triple_bind _ _ _ (fun _ => same w0)); [apply for_each_keeps; intros x|intros []; apply for_each_keeps; intros [name value]].
  - destruct (_ || _); [|by apply triple_ret]. apply best_effort_triple. by apply change_same.
  - apply best_effort_triple. by apply change_same.
Qed.

Lemma copy_host_metadata_triple w0 source q :
  triple (same w0) (copy_host_metadata other beyond source (Target, q)) (fun _ => same w0) (same w0) (same w0).
Proof.
  unfold copy_host_metadata. eapply (triple_bind _ _ _ (fun _ => same w0)); [apply best_effort_triple; by apply change_same|intros []].
  eapply (triple_bind _ _ _ (fun _ => same w0)); [destruct (kind_is_symlink _); [by apply triple_ret|by apply change_same]|intros []].
  eapply (triple_bind _ _ _ (fun _ => same w0)); [apply copy_host_xattrs_triple|intros []].
  apply best_effort_triple. by apply change_same.
Qed.

(** ** One entry *)

Definition tmp p : Path := parent p ++ [APPLY_PREFIX +:+ path_digest sha256_hex target_root p].

Lemma tmp_not_ordinary p q : under (tmp p) q = true -> ~ ordinary q.
Proof.
  intros [r ->]%under_spec [Ho _]%ordinary_app. apply ordinary_snoc in Ho as [_ Ho]. unfold ordinary_name in Ho.
  apply andb_true_iff in Ho as [_ Ho]. unfold str_starts_with in Ho. by rewrite str_prefix_app in Ho.
Qed.
Lemma tmp_may p q : under (tmp p) q = true -> may q.
Proof.
  intros H. split; [|intros Ho; by destruct (tmp_not_ordinary p q)]. intros ->. apply under_spec in H as [r E].
  unfold tmp in E. by destruct (parent p).
Qed.
Lemma tmp_owned w p : owned w (tmp p).
Proof. intros q Hq _. by apply (tmp_may p). Qed.

Lemma tmp_not_below p q : ordinary p -> p <> [] -> under p (tmp p ++ q) = false.
Proof.
  intros Ho (p' & n & ->)%path_snoc. unfold tmp. rewrite parent_snoc. destruct (under _ _) eqn:E; [|done].
  apply under_spec in E as [r E]. rewrite <- !app_assoc in E. apply app_inv_head in E. injection E as E _.
  destruct (tmp_not_ordinary (p' ++ [n]) (p' ++ [n])); [|done]. unfold tmp. rewrite parent_snoc, E. apply under_refl.
Qed.

Definition copying p : Path -> Prop := fun q => under p q = true \/ under (tmp p) q = true.

(** Nothing to create. *)
Lemma create_dir_all_present w0 q : Still w0 -> tsum w0 q = Some KDir ->
  triple (fun w => w = w0) (create_dir_all other beyond uid gid umask (Target, q)) (fun _ w => w = w0) (fun w => w = w0) (fun w => w = w0).
Proof.
  intros HS Hd. unfold create_dir_all. cbn [fst snd].
  set (J := fun (rest : list Path) (_ : unit) w => w = w0 /\ Forall (fun x => x `prefix_of` q) rest).
  eapply (triple_post _ _ _ (J [])); [|by intros ? w []|done|done].
  eapply (triple_pre _ (J ([] :: prefixes [] q) tt)).
  { intros w ->. split; [done|]. constructor; [apply prefix_nil|]. apply Forall_forall. by intros x (r & -> & _ & Hr)%elem_of_prefixes. }
  apply (triple_for J). intros x rest []. eapply triple_bind; [apply triple_ask_eq|intros present]. cbv beta.
  apply triple_extract with (φ := present = true).
  { intros w [[-> [[r ->] _]%Forall_cons_1] ->]. apply is_real_dir_spec. apply (dir_at_above w0 Target x r); [apply HS|by apply dir_at_tsum]. }
  intros ->. apply triple_ret. intros w [[-> [_ Hrest]%Forall_cons_1] _]. done.
Qed.

(** The state with the new entry under its temporary name. *)
Definition Made p (k : Kind) w0 w : Prop := Foot (copying p) w0 w /\ tsum w (tmp p) = Some k.

Lemma Made_same p k w0 w1 w : Made p k w0 w1 -> same w1 w -> Made p k w0 w.
Proof.
  intros [HF Hk] HF'. split; [eapply Foot_trans; [exact HF|]; eapply Foot_mono; [|exact HF']; done|].
  rewrite <- Hk. apply (Foot_same nowhere); [done|by intros []].
Qed.

Lemma Made_keeps {A} p k w0 (c : Fs A) :
  (forall w1, Still w1 -> triple (same w1) c (fun _ => same w1) (same w1) (same w1)) ->
  triple (Made p k w0) c (fun _ => Made p k w0) (Made p k w0) (Made p k w0).
Proof.
  intros Hc. apply triple_at. intros w1 HM. assert (Still w1) as HS by apply HM.
  eapply (triple_pre _ (same w1)); [intros w ->; by apply Foot_refl|].
  eapply triple_post; [by apply Hc|..]; intros; by eapply Made_same.
Qed.

Lemma create_tmp_triple p w0 nd :
  triple (Foot (copying p) w0) (sys other (create nd (Target, tmp p)))
    (fun _ w => Made p (n_kind nd) w0 w /\ sole w (Target, tmp p)) (Foot (copying p) w0) (Foot (copying p) w0).
Proof.
  apply triple_sys; [done|done|]. intros w HF. destruct (create nd _ w) as [r w'] eqn:E.
  apply (create_foot (copying p)) in E as [HF' Hok]; [|apply HF|right; apply under_refl|apply (tmp_may p), under_refl].
  assert (Foot (copying p) w0 w') as HF2 by by eapply Foot_trans.
  destruct r as [[]|?]; [|done]. split; [|done]. destruct (Hok eq_refl) as (_ & Hso & Hn). split; [|done]. split; [done|].
  unfold tsum. by rewrite Hn, decide_True.
Qed.

Lemma write_tmp_triple p w0 content c :
  triple (fun w => Made p (KFile c) w0 w /\ sole w (Target, tmp p)) (write_all other (Target, tmp p) content)
    (fun _ => Made p (KFile content) w0) (Foot (copying p) w0) (Foot (copying p) w0).
Proof.
  apply triple_sys; [by intros w [[? _] _]|by intros w [[? _] _]|]. intros w [[HF Hk] Hso]. pose proof HF as [HS _]. pose proof HS as (Hw & Ha & _).
  destruct (node_at w (Target, tmp p)) as [nd|] eqn:En; [|done]. destruct (kind_is_file (n_kind nd)) eqn:Ek; [|done].
  destruct (change _ _ w) as [r w'] eqn:E. eapply change_spec in E; [|done|].
  - destruct r as [[]|?]; [|by subst]. destruct E as (Hw' & _ & He & i & nd' & Hi & Hnd & Hn).
    assert (Foot (copying p) w w') as HF'.
    { apply Foot_step; [done|done|by rewrite He| |rewrite He; eauto|].
      - intros q. rewrite Hn, decide_False; [done|]. intros Hq. by eapply Ha.
      - intros q. unfold tsum. rewrite Hn. destruct (decide _) as [Hq|]; [|by left]. right.
        specialize (Hso _ _ Hi Hq) as [= ->]. split; [right; apply under_refl|apply (tmp_may p), under_refl]. }
    assert (Foot (copying p) w0 w') as HF2 by by eapply Foot_trans. split; [|done]. split; [done|].
    unfold tsum. rewrite Hn, decide_True; done.
  - intros nd0. rewrite En. intros [= <-]. unfold node_is_dir. simpl. by destruct (n_kind nd).
Qed.

Lemma link_tmp_triple p k w0 q : tsum w0 q = Some k -> ~ copying p q ->
  triple (Foot (copying p) w0) (fs_hard_link other (Target, q) (Target, tmp p))
    (fun _ => Made p k w0) (Foot (copying p) w0) (Foot (copying p) w0).
Proof.
  intros Hq HG. apply triple_sys; [done|done|]. intros w HF. pose proof HF as [HS _]. pose proof HS as (Hw & _).
  destruct (link _ _ w) as [r w'] eqn:E. pose proof E as E'. eapply link_spec in E'; [|done].
  destruct r as [[]|?]; [|by subst]. destruct E' as (Hw' & _ & HN & nd & Hnd & Hdir & Hn).
  assert (Foot (copying p) w w') as HF'.
  { unfold link in E. destruct (w_entries w !! (Target, q)) as [i|] eqn:Ei; [|done]. destruct (w_inodes w !! i) as [nd'|]; [|done].
    destruct (node_is_dir nd'); [done|]. destruct (parent_error w _); [done|]. destruct (w_entries w !! (Target, tmp p)); [done|].
    injection E as <-. apply Foot_step; [done|done| | | |].
    - intros q'. simpl. by rewrite lookup_insert_ne.
    - intros q'. by rewrite Hn, decide_False.
    - intros q' j. simpl. rewrite lookup_insert_Some. intros [[_ <-]|[_ ?]]; eauto.
    - intros q'. unfold tsum. rewrite Hn. destruct (decide _) as [[= ->]|]; [|by left]. right.
      split; [right; apply under_refl|apply (tmp_may p), under_refl]. }
  assert (Foot (copying p) w0 w') as HF2 by by eapply Foot_trans. split; [|done]. split; [done|].
  unfold tsum. rewrite Hn, decide_True by done. rewrite <- Hq, <- (Foot_same _ _ _ q HF HG). unfold tsum. by rewrite Hnd.
Qed.

Lemma mknod_tmp_triple p w0 source format rdev : n_kind source = KOther format rdev -> real_node source ->
  triple (Foot (copying p) w0) (mknod other uid gid umask (Target, tmp p) (st_mode source) rdev)
    (fun _ => Made p (KOther format rdev) w0) (Foot (copying p) w0) (Foot (copying p) w0).
Proof.
  intros Hk Hr. unfold real_node in Hr. rewrite Hk in Hr. destruct Hr as [Hf Hnin]. unfold mknod. rewrite Hf.
  rewrite !not_elem_of_cons in Hnin. destruct Hnin as (H0 & H1 & H2 & H3 & _).
  apply Z.eqb_neq in H0, H1, H2, H3. rewrite H2, H3, H0, H1. simpl.
  eapply triple_post; [apply create_tmp_triple|by intros ? w [? _]|done|done].
Qed.

Lemma fs_copy_triple p w0 content mode :
  triple (Foot (copying p) w0) (fs_copy other uid gid umask content mode (Target, tmp p))
    (fun _ => Made p (KFile content) w0) (Foot (copying p) w0) (Foot (copying p) w0).
Proof.
  unfold fs_copy. eapply triple_bind; [apply create_tmp_triple|intros []]. cbn [n_kind new_node].
  eapply (triple_bind _ _ _ (fun _ w => Made p (KFile "") w0 w /\ sole w (Target, tmp p))); [|intros []; apply write_tmp_triple].
  apply triple_sys; [by intros w [[? _] _]|by intros w [[? _] _]|]. intros w [HM Hso]. pose proof HM as [[HS _] _].
  destruct (change _ _ w) as [r w'] eqn:E. pose proof E as E'. apply change_foot in E; [|done|done].
  assert (Made p (KFile "") w0 w') as HM' by by eapply Made_same.
  destruct r as [[]|?]; [|apply HM']. split; [|apply HM']. split; [done|]. unfold change in E'.
  destruct (w_entries w !! _); [|done]. destruct (w_inodes w !! _); [|done]. by injection E' as <-.
Qed.

Lemma make_entry_triple p w0 source existing : n_kind source <> KDir -> real_node source ->
  (forall f, existing = Some f -> exists q, f = (Target, q) /\ ~ copying p q /\ tsum w0 q = Some (n_kind source)) ->
  triple (Foot (copying p) w0) (make_entry other uid gid umask source existing (Target, tmp p))
    (fun _ => Made p (n_kind source) w0) (Foot (copying p) w0) (Foot (copying p) w0).
Proof.
  intros Hk Hr He. unfold make_entry. destruct (n_kind source) as [content| |target|format rdev] eqn:Ek; [|done| |].
  - destruct existing as [f|]; [|apply fs_copy_triple]. destruct (He f eq_refl) as (q & -> & HG & Hq). by apply link_tmp_triple.
  - eapply triple_post; [apply create_tmp_triple|by intros ? w [? _]|done|done].
  - by apply mknod_tmp_triple.
Qed.

(** The entry takes its place. *)
Lemma rename_tmp_triple p k w0 : ordinary p -> p <> [] -> k <> KDir -> (forall q, under p q = true -> may q) ->
  triple (Made p k w0) (fs_rename other (Target, tmp p) (Target, p))
    (fun _ w => Foot (copying p) w0 w /\ tsum w p = Some k) (Foot (copying p) w0) (Foot (copying p) w0).
Proof.
  intros Ho Hne Hk Hmay. apply triple_sys; [by intros w [? _]|by intros w [? _]|]. intros w [HF Ht].
  pose proof HF as [HS _]. pose proof HS as (Hw & _). destruct (rename_entry _ _ w) as [r w'] eqn:E.
  eapply rename_spec in E; [|done|done|done]. destruct r as [[]|?]; [|by subst].
  destruct E as (Hw' & _ & _ & [[He ->]|(_ & He & _ & Hn)]).
  { split; [|done]. split; [done|]. rewrite <- Ht. unfold tsum, node_at. by rewrite He. }
  assert (forall q, tsum w' q = if under p q then tsum w (tmp p ++ drop (length p) q) else if under (tmp p) q then None else tsum w q) as Hsum.
  { intros q. unfold tsum. rewrite Hn. unfold moved, subtree. cbn [fst snd]. rewrite bool_decide_true by done. simpl.
    destruct (under p q); [done|]. by destruct (under (tmp p) q). }
  assert (Foot (copying p) w w') as HF'.
  { apply Foot_step; [done|done| | | |].
    - intros q. rewrite He. unfold moved, subtree. cbn [fst snd]. by rewrite !bool_decide_false.
    - intros q. rewrite Hn. unfold moved, subtree. cbn [fst snd]. by rewrite !bool_decide_false.
    - intros q i. rewrite He. unfold moved. destruct (subtree _ _); [cbn [fst snd]; eauto|]. destruct (subtree _ _); [done|eauto].
    - intros q. rewrite Hsum. destruct (under p q) eqn:E1; [right; split; [by left|auto]|].
      destruct (under (tmp p) q) eqn:E2; [right; split; [by right|by apply (tmp_may p)]|by left]. }
  assert (Foot (copying p) w0 w') as HF2 by by eapply Foot_trans. split; [|done]. split; [done|].
  rewrite Hsum, under_refl, drop_all, app_nil_r. done.
Qed.

(** Where the files with several names were put. *)
Definition linked (avoid : Path -> Prop) (hard_links : gmap Ino FPath) w : Prop :=
  forall i f, hard_links !! i = Some f -> exists q k, f = (Target, q) /\ ~ avoid q /\ ordinary q /\ tsum w q = Some k
    /\ forall p, w_entries w !! (Upper, p) = Some i -> exists b, s p = Some (k, b).

Lemma Still_upper w p k b : Still w -> s p = Some (k, b) -> exists nd, node_at w (Upper, p) = Some nd /\ n_kind nd = k.
Proof.
  intros (_ & _ & Hs & _) Hp. rewrite <- Hs in Hp. unfold usum in Hp. destruct (node_at w (Upper, p)) as [nd|]; [|done].
  exists nd. split; [done|]. simpl in Hp. unfold node_sum in Hp. congruence.
Qed.

Lemma shared_inode_entry w p i : shared_inode w p = Some i -> w_entries w !! (Upper, p) = Some i.
Proof.
  unfold shared_inode. destruct (node_at w (Upper, p)); [|done]. destruct (w_entries w !! (Upper, p)); [|done].
  destruct (_ && _); [|done]. by intros [= ->].
Qed.

Lemma sync_keeps (I : World -> Prop) f : triple I (sync other f) (fun _ => I) I I.
Proof. by apply triple_sys. Qed.

(** The steps under [attempt]. *)
Lemma place_entry_triple w0 p k source existing : Still w0 -> ordinary p -> p <> [] -> n_kind source = k -> k <> KDir -> real_node source ->
  tsum w0 (parent p) = Some KDir -> (forall q, under p q = true -> may q) ->
  (forall f, existing = Some f -> exists q, f = (Target, q) /\ ~ copying p q /\ tsum w0 q = Some k) ->
  triple (Foot (copying p) w0)
    (make_entry other uid gid umask source existing (apply_temporary sha256_hex target_root p) ;;
     copy_host_metadata other beyond source (apply_temporary sha256_hex target_root p) ;;
     (if kind_is_file (n_kind source) then sync other (apply_temporary sha256_hex target_root p) else ret tt) ;;
     let! over_dir := ask (fun w => is_real_dir beyond w (Target, p)) in
     (if (over_dir : bool) then remove_path other beyond (Target, p) else ret tt) ;;
     fs_rename other (apply_temporary sha256_hex target_root p) (Target, p) ;;
     sync other (Target, parent p))
    (fun _ w => Foot (copying p) w0 w /\ tsum w p = Some k) (Foot (copying p) w0) (Foot (copying p) w0).
Proof.
  intros HS Ho Hne Ek Hk Hr Hpar Hmay He. change (apply_temporary sha256_hex target_root p) with (Target, tmp p).
  assert (forall w, Made p k w0 w -> Foot (copying p) w0 w) as HMF by by intros w [? _].
  eapply triple_bind; [apply make_entry_triple; [congruence|done|by rewrite Ek]|intros []]. rewrite Ek.
  eapply (triple_bind _ _ _ (fun _ => Made p k w0)).
  { eapply triple_post; [apply (Made_keeps p k w0); intros w1 _; apply copy_host_metadata_triple|done|done|done]. }
  intros [].
  eapply (triple_bind _ _ _ (fun _ => Made p k w0)).
  { destruct (kind_is_file k); [eapply triple_post; [apply sync_keeps|done|done|done]|by apply triple_ret]. }
  intros []. eapply (triple_bind _ _ _ (fun _ => Made p k w0)); [by apply triple_ask|intros over_dir].
  eapply (triple_bind _ _ _ (fun _ => Made p k w0)).
  { destruct over_dir; [|by apply triple_ret]. apply triple_at. intros w1 [HF Ht].
    eapply triple_post; [apply (remove_within (copying p) w0 w1 p HF); [by left|]|intros [] w (HF1 & HF' & _)|done|done].
    - intros q Hq _. auto.
    - split; [done|]. rewrite <- Ht. apply (Foot_same (below p)); [done|]. unfold below.
      rewrite <- (app_nil_r (tmp p)). by rewrite tmp_not_below. }
  intros []. eapply triple_bind; [by apply rename_tmp_triple|intros []].
  eapply triple_post; [apply sync_keeps|done|by intros w [? _]|by intros w [? _]].
Qed.

Lemma copy_upper_entry_triple w0 p k b hard_links : Still w0 -> ordinary p -> p <> [] -> s p = Some (k, b) -> k <> KDir ->
  tsum w0 (parent p) = Some KDir -> linked (copying p) hard_links w0 ->
  triple (fun w => w = w0) (copy_upper_entry other beyond uid gid umask sha256_hex target_root p hard_links)
    (fun hard_links' w => Foot (copying p) w0 w /\ tsum w p = Some k
       /\ (hard_links' = hard_links \/ exists i, w_entries w0 !! (Upper, p) = Some i /\ hard_links' = <[i := (Target, p)]> hard_links))
    (Foot (copying p) w0) (Foot (copying p) w0).
Proof.
  intros HS Ho Hne Hs Hk Hpar HL. destruct (Still_upper w0 p k b HS Hs) as (nd & Hnd & Ek).
  assert (real_node nd) as Hr by (by eapply HS). assert (forall q, under p q = true -> may q) as Hmay.
  { intros q [r ->]%under_spec. split; [by destruct p|]. intros Hoq. destruct HS as (_ & _ & _ & HA & _). by apply (free_leaf core s (tsum w0) m p k b). }
  unfold copy_upper_entry. eapply triple_bind; [apply triple_ask_eq|intros source]. cbv beta.
  apply triple_extract with (φ := source = Some nd). { intros w [-> ->]. unfold lstat. by rewrite Hnd. }
  intros ->. cbn [ok_or lift]. eapply (triple_bind _ _ _ (fun x w => w = w0 /\ x = nd)); [apply triple_ret; by intros w [-> _]|].
  intros x. eapply (triple_pre _ (fun w => x = nd /\ w = w0)); [by intros w []|]. apply triple_fact. intros ->.
  eapply triple_bind; [eapply triple_post; [by apply create_dir_all_present|intros ? w H; exact H|..]; intros w ->; by apply Foot_refl|intros []].
  eapply (triple_bind _ _ _ (fun _ => Foot (copying p) w0)).
  { eapply triple_post; [apply (remove_within (copying p) w0 w0 (tmp p)); [by apply Foot_refl|by right|apply tmp_owned]|by intros ? w []|done|done]. }
  intros []. eapply triple_bind; [apply triple_ask_eq|intros shared]. cbv beta.
  apply triple_extract with (φ := forall i, shared = Some i -> w_entries w0 !! (Upper, p) = Some i).
  { intros w [(_ & [He _] & _) ->] i. rewrite <- He. apply shared_inode_entry. }
  intros Hsh. eapply (triple_pre _ (Foot (copying p) w0)); [by intros w [? _]|].
  eapply (triple_bind _ _ _ (fun res w => Foot (copying p) w0 w /\ (is_ok res = true -> tsum w p = Some k))).
  { eapply (triple_attempt _ _ _ _ _ (Foot (copying p) w0)); [eapply triple_post|].
    - apply (place_entry_triple w0 p k nd); try done. intros f Hf. destruct shared as [i|]; [|done]. simpl in Hf.
      destruct (HL i f Hf) as (q & k' & -> & HG & _ & Hq & Hall). exists q. split; [done|]. split; [done|].
      destruct (Hall p (Hsh i eq_refl)) as [b' Hb]. rewrite Hq. congruence.
    - by intros a w [HF Ht].
    - done.
    - done.
    - by intros w e HF. }
  intros [a|e].
  - apply triple_ret. intros w [HF Ht]. split; [done|]. split; [by apply Ht|]. destruct shared as [i|]; [right; eauto|by left].
  - eapply (triple_bind _ _ _ (fun _ => Foot (copying p) w0)); [|intros []; by apply triple_throw].
    apply triple_ignore. apply triple_at. intros w1 [HF _].
    eapply triple_post; [apply (remove_within (copying p) w0 w1 (tmp p)); [done|by right|apply tmp_owned]|by intros ? w []|done|done].
Qed.
End Publish.
