(* ===== verification/OverlayApplied.v ===== *)
(** * What an application has done when it returns

    The walk over the upper directory publishes each selected change: a selected
    entry is in the target, a selected deletion has happened, and a selected
    opaque directory has only what the upper directory has. *)

From Stdlib Require Import ZArith Lia.
From stdpp Require Import base list strings gmap pretty sorting.
From S2P Require Import Prelude Effects OverlayFs OverlayCore OverlayView OverlaySteps OverlayShape OverlayCopy OverlayEdit OverlayApply OverlayMerge OverlayPublish.
#[local] Set Warnings "-clear-no-such-hyp".
Open Scope string_scope.
Open Scope list_scope.
Open Scope effect_scope.

(** ** Names *)

Lemma substring_app (a b : string) : String.substring (String.length a) (String.length (a +:+ b)) (a +:+ b) = b.
Proof.
  assert (forall x k, String.length x <= k -> String.substring 0 k x = x) as Hall.
  { induction x as [|c x IH]; intros k Hk; simpl in *; [by destruct k|]. destruct k as [|k]; [lia|]. rewrite IH by lia. done. }
  assert (forall k, String.length b <= k -> String.substring (String.length a) k (a +:+ b) = b) as H.
  { induction a as [|c a IH]; intros k Hk; [by apply Hall|]. by apply IH. }
  apply H. clear. induction a as [|c a IH]; [done|]. rewrite str_app_cons. simpl. lia.
Qed.

Lemma whiteout_target_app n : n <> "" -> whiteout_target (WHITEOUT_PREFIX +:+ n) = Some n.
Proof.
  intros Hn. unfold whiteout_target, str_starts_with. rewrite str_prefix_app, substring_app.
  by rewrite bool_decide_false.
Qed.

Lemma whiteout_target_inv name n : whiteout_target name = Some n -> name = WHITEOUT_PREFIX +:+ n.
Proof.
  unfold whiteout_target. destruct (str_starts_with WHITEOUT_PREFIX name) eqn:E; [|done].
  apply str_prefix_spec in E as [r ->]. rewrite substring_app. case_bool_decide; [done|]. by intros [= ->].
Qed.

Lemma plain_not_empty n : plain_name n = true -> n <> "".
Proof. intros H ->. by vm_compute in H. Qed.

Lemma NoDup_omap {A B} (f : A -> option B) l : NoDup l ->
  (forall x y z, x ∈ l -> y ∈ l -> f x = Some z -> f y = Some z -> x = y) -> NoDup (omap f l).
Proof.
  intros Hl. induction Hl as [|x l Hx Hl IH]; intros Hf; simpl; [constructor|].
  assert (NoDup (omap f l)) as Hrest by (apply IH; intros; eapply Hf; eauto; by apply elem_of_cons; right).
  destruct (f x) as [z|] eqn:E; [|done]. constructor; [|done]. rewrite list_elem_of_omap. intros (y & Hy & Ey).
  rewrite (Hf x y z) in Hx; [done|by left|by right|done|done].
Qed.

Lemma NoDup_names_under w f : NoDup (names_under w f).
Proof.
  unfold names_under. apply NoDup_omap; [apply NoDup_map_to_list|]. intros [[a p] i] [[b q] j] z Hi Hj Hp Hq.
  apply elem_of_map_to_list in Hi, Hj.
  destruct (reverse p) as [|x r] eqn:Ep; [done|]. destruct (reverse q) as [|y r'] eqn:Eq; [done|].
  case_bool_decide as H1; [|done]. case_bool_decide as H2; [|done]. injection Hp as ->. injection Hq as ->.
  assert ((a, p) = (b, q)) as E; [|congruence].
  destruct H1 as [-> H1], H2 as [-> H2]. f_equal. rewrite <- (reverse_involutive p), <- (reverse_involutive q), Ep, Eq, !reverse_cons.
  congruence.
Qed.

(** Siblings have nothing in common. *)
Lemma under_siblings p n x q : under (p ++ [n]) q = true -> under (p ++ [x]) q = true -> x = n.
Proof.
  rewrite !under_spec. intros [r ->] [r' E]. rewrite <- !app_assoc in E. apply app_inv_head in E. by injection E as ->.
Qed.

Section Applied.
Context {O : Type} (other : O -> World -> World) (beyond : World -> FPath -> Path -> option Node).
Context (uid gid umask : Z) (sha256_hex : string -> string) (target_root : string).
Context (core : OverlayCore) (others_quiet : forall o w, other o w = w).
Context (s : Shape) (m : Path -> option Kind) (selected : gset Path).
Implicit Types (p q : Path) (n : string) (w : World) (G avoid : Path -> Prop).

(** The upper directory has ordinary names, whiteouts of plain names and opaque
    markers; a name is not both there and deleted; and nothing below an opaque
    directory is shown that is not in the upper directory. *)
Context (names_ok : forall p n, is_Some (s (p ++ [n])) ->
  ordinary_name n = true \/ n = OPAQUE_NAME \/ exists v, plain_name v = true /\ n = WHITEOUT_PREFIX +:+ v).
Context (tidy_upper : tidy s) (sealed_upper : sealed s m).

Abbreviation Fs A := (M World O Z A).
Abbreviation Still := (Still core s m).
Abbreviation Foot := (Foot core s m).
Abbreviation may := (may core s m).
Abbreviation owned := (owned core s m).
Abbreviation linked := (linked s).
Abbreviation copying := (copying sha256_hex target_root).

Definition published (t : Path -> option Kind) q : Prop := forall p n, q = p ++ [n] ->
  (q ∈ selected -> forall k b, s q = Some (k, b) -> t q = Some k)
  /\ (q ∈ selected -> s q = None -> is_Some (s (p ++ [WHITEOUT_PREFIX +:+ n])) -> t q = None)
  /\ (p ∈ selected -> opq s p = true -> s q = None -> t q = None).

(** ** The upper directory's summary *)

Lemma Still_up w p n : Still w -> is_Some (s (p ++ [n])) -> exists b, s p = Some (KDir, b).
Proof.
  intros (Hw & _ & Hs & _). rewrite <- !Hs. unfold usum. intros Hn.
  destruct (node_at w (Upper, p ++ [n])) as [nd|] eqn:E; [|by destruct Hn].
  destruct (wf_above w Upper p [n] nd Hw E ltac:(done)) as (d & -> & Hd). simpl. unfold node_sum. rewrite Hd.
  unfold node_is_dir, kind_is_dir in Hd. destruct (n_kind d); try done. eauto.
Qed.

Lemma Still_below w p q : Still w -> (forall b, s p <> Some (KDir, b)) -> q <> [] -> s (p ++ q) = None.
Proof.
  intros HS Hp. induction q as [|n q IH] using rev_ind; [done|]. intros _. rewrite app_assoc.
  destruct (s ((p ++ q) ++ [n])) eqn:E; [|done]. destruct (Still_up w (p ++ q) n HS ltac:(by rewrite E)) as [b Hb].
  destruct q as [|x q]; [rewrite app_nil_r in Hb; by destruct (Hp b)|]. by rewrite IH in Hb.
Qed.

Lemma Still_flag w p k b : Still w -> s p = Some (k, b) -> k <> KDir -> b = false.
Proof.
  intros (_ & _ & Hs & _) Hp Hk. rewrite <- Hs in Hp. unfold usum in Hp. destruct (node_at w (Upper, p)) as [nd|]; [|done].
  simpl in Hp. unfold node_sum, node_is_dir in Hp. injection Hp as <- <-. by destruct (n_kind nd).
Qed.

(** Below what is not a directory of the upper directory there is nothing to
    publish. *)
Lemma published_vacuous w t x q : Still w -> (forall b, s x <> Some (KDir, b)) -> under x q = true -> q <> x -> published t q.
Proof.
  intros HS Hx [r ->]%under_spec Hne p n E. destruct r as [|y r _] using rev_ind; [by rewrite app_nil_r in Hne|].
  rewrite app_assoc in E |- *. apply app_inj_tail in E as [<- <-].
  assert (forall z, s ((x ++ r) ++ [z]) = None) as HN.
  { intros z. rewrite <- app_assoc. apply (Still_below w); [done|done|by destruct r]. }
  rewrite !HN. split; [done|]. split; [by intros _ _ [? ?]|]. intros _ Ho _. exfalso. unfold opq in Ho.
  rewrite HN in Ho. simpl in Ho. destruct (s (x ++ r)) as [[k b]|] eqn:E; [|done]. subst b.
  destruct r as [|z r].
  - rewrite app_nil_r in E. assert (k <> KDir) as Hk by (intros ->; by destruct (Hx true)). by pose proof (Still_flag w x k true HS E Hk).
  - rewrite (Still_below w x (z :: r)) in E; done.
Qed.

Lemma upper_names w p n : Still w -> n ∈ names_under w (Upper, p) <-> is_Some (s (p ++ [n])).
Proof.
  intros (Hw & _ & Hs & _). rewrite elem_of_names_under, <- Hs. unfold usum. rewrite fmap_is_Some. split.
  - by apply entry_node.
  - intros [nd (i & Hi & _)%node_at_entry]. by eexists.
Qed.

Lemma upper_dir_at w p b : Still w -> s p = Some (KDir, b) -> dir_at w (Upper, p).
Proof.
  intros HS Hp. destruct (Still_upper core s m w p KDir b HS Hp) as (nd & Hnd & Hk). exists nd. split; [done|].
  unfold node_is_dir. by rewrite Hk.
Qed.

Lemma is_opaque_source_spec w p b : Still w -> s p = Some (KDir, b) -> is_opaque_source beyond w p = opq s p.
Proof.
  intros HS Hp. pose proof (upper_dir_at w p b HS Hp) as Hd. pose proof HS as (Hw & _ & Hs & _).
  unfold is_opaque_source, path_exists, has_opaque_xattr, opq. rewrite lstat_below by done. rewrite <- !Hs. unfold usum. f_equal.
  - by destruct (node_at w (Upper, p ++ [OPAQUE_NAME])).
  - unfold get_xattr, lstat. destruct Hd as (d & Hd & Hdir). rewrite Hd. simpl. by rewrite Hdir.
Qed.

(** ** Making room *)

Lemma owned_opaque w p n : Still w -> opq s p = true -> owned w (p ++ [n]).
Proof.
  intros (_ & _ & _ & HA & _) Ho q [r ->]%under_spec Hq. split; [by destruct p|]. intros Hord. rewrite <- app_assoc in Hq, Hord |- *.
  destruct (sealed_covers core s (tsum w) m p ([n] ++ r)) as [?|HN]; try done. rewrite HN in Hq. by destruct Hq.
Qed.

Lemma owned_whiteout w p n : Still w -> is_Some (s (p ++ [WHITEOUT_PREFIX +:+ n])) -> plain_name n = true -> owned w (p ++ [n]).
Proof.
  intros (_ & _ & _ & HA & _) Hwh Hn q [r ->]%under_spec Hq. split; [by destruct p|]. intros Hord. apply (free_hidden core s (tsum w) m p n); [done| |unfold hides; by rewrite bool_decide_true|done].
  destruct (s (p ++ [n])) eqn:E; [|done]. rewrite (tidy_upper p n) in Hwh by (done || by rewrite E). by destruct Hwh.
Qed.

(** The names of a directory of the target go, one after the other. *)
Definition Room w0 p w : Prop := Foot (below p) w0 w /\ tsum w p = Some KDir.

Lemma remove_name_triple w0 p n w1 : Room w0 p w1 -> owned w1 (p ++ [n]) ->
  triple (fun w => w = w1) (remove_path other beyond (Target, p ++ [n]))
    (fun _ w => Room w0 p w /\ tsum w (p ++ [n]) = None /\ forall x, x <> n -> tsum w (p ++ [x]) = tsum w1 (p ++ [x]))
    (Foot (below p) w0) (Foot (below p) w0).
Proof.
  intros [HF Hd] Ho. eapply triple_post; [apply (remove_within other beyond core others_quiet s m (below p) w0 w1 (p ++ [n]) HF)| |done|done].
  - intros q. apply under_snoc_l.
  - done.
  - intros [] w (HF' & HF1 & HN). split; [split; [done|]|split].
    + rewrite <- Hd. apply (Foot_same core s m (below (p ++ [n]))); [done|]. unfold below. by rewrite under_snoc_self.
    + unfold tsum. by rewrite HN.
    + intros x Hx. apply (Foot_same core s m (below (p ++ [n]))); [done|]. unfold below. intros Hu. apply Hx.
      eapply under_siblings; [exact Hu|apply under_refl].
Qed.

(** An opaque directory loses everything. *)
Definition Emptied p w : Prop := p ∈ selected -> opq s p = true -> forall n, tsum w (p ++ [n]) = None.

Lemma empty_directory_triple w0 p : opq s p = true ->
  triple (Room w0 p)
    (let! names := ask (fun w => names_under w (Target, p)) in
     for_each names (fun name _ => remove_path other beyond (Target, p ++ [name])) tt)
    (fun _ w => Room w0 p w /\ Emptied p w) (Foot (below p) w0) (Foot (below p) w0).
Proof.
  intros Hop. eapply triple_bind; [apply triple_ask_eq|intros names]. cbv beta.
  set (J := fun (rest : list string) (_ : unit) w => Room w0 p w /\ forall n, n ∉ rest -> tsum w (p ++ [n]) = None).
  eapply (triple_post _ _ _ (J [])); [|intros ? w [HR Hn]; split; [done|]; intros _ _ n; apply Hn, not_elem_of_nil|done|done].
  eapply (triple_pre _ (J names tt)).
  { intros w [HR ->]. split; [done|]. intros n Hn. destruct HR as [HF Hd]. rewrite elem_of_names_under in Hn.
    unfold tsum, node_at. destruct (w_entries w !! (Target, p ++ [n])); [|done]. by destruct Hn. }
  apply (triple_for J). intros n rest []. apply triple_at. intros w1 [HR Hn].
  eapply triple_post; [apply (remove_name_triple w0 p n w1 HR)| |done|done].
  - apply owned_opaque; [apply HR|done].
  - intros [] w (HR' & HN & Hx). split; [done|]. intros x Hxr. destruct (decide (x = n)) as [->|Hne]; [done|].
    rewrite Hx by done. apply Hn. by intros [?|?]%elem_of_cons.
Qed.

(** The selected whiteouts take effect. *)
Definition Cleared p (rest : list string) w : Prop :=
  forall n, ordinary_name n = true -> is_Some (s (p ++ [WHITEOUT_PREFIX +:+ n])) -> WHITEOUT_PREFIX +:+ n ∉ rest ->
    p ++ [n] ∈ selected -> tsum w (p ++ [n]) = None.

Lemma apply_whiteout_triple w0 p name rest : is_Some (s (p ++ [name])) ->
  triple (fun w => Room w0 p w /\ Emptied p w /\ Cleared p (name :: rest) w) (apply_whiteout other beyond selected p name)
    (fun _ w => Room w0 p w /\ Emptied p w /\ Cleared p rest w) (Foot (below p) w0) (Foot (below p) w0).
Proof.
  intros Hname. unfold apply_whiteout.
  assert (forall w, (forall n, ordinary_name n = true -> name = WHITEOUT_PREFIX +:+ n -> p ++ [n] ∈ selected -> tsum w (p ++ [n]) = None) ->
    Cleared p (name :: rest) w -> Cleared p rest w) as Hskip.
  { intros w Hn Hc n Ho Hs Hr Hsel. destruct (decide (name = WHITEOUT_PREFIX +:+ n)) as [->|Hne]; [by apply Hn|].
    apply Hc; [done|done| |done]. by intros [?|?]%elem_of_cons. }
  case_bool_decide as Hop.
  { apply triple_ret. intros w (HR & He & Hc). split; [done|]. split; [done|]. apply Hskip; [|done]. intros n Ho E _.
    symmetry in E. rewrite Hop in E. by apply opaque_marker_is_not_a_whiteout in E; [|by apply ordinary_plain_name]. }
  destruct (whiteout_target name) as [v|] eqn:Ev.
  - apply whiteout_target_inv in Ev as ->. case_bool_decide as Hsel.
    + assert (plain_name v = true) as Hv.
      { destruct (names_ok p _ Hname) as [Ho|[?|(v' & Hv & E%str_app_inj_l)]]; [|done|by subst].
        apply ordinary_plain_name in Ho. by rewrite whiteout_not_plain in Ho. }
      apply triple_at. intros w1 (HR & He & Hc). eapply triple_post; [apply (remove_name_triple w0 p v w1 HR)| |done|done].
      * apply owned_whiteout; [apply HR|done|done].
      * intros [] w (HR' & HN & Hx). split; [done|]. split.
        -- intros H1 H2 n. destruct (decide (n = v)) as [->|]; [done|]. rewrite Hx by done. by apply He.
        -- intros n Ho Hs Hr Hsel'. destruct (decide (n = v)) as [->|]; [done|]. rewrite Hx by done.
           apply Hc; [done|done| |done]. by intros [?%str_app_inj_l|?]%elem_of_cons.
    + apply triple_ret. intros w (HR & He & Hc). split; [done|]. split; [done|]. apply Hskip; [|done].
      by intros n _ ->%str_app_inj_l.
  - apply triple_ret. intros w (HR & He & Hc). split; [done|]. split; [done|]. apply Hskip; [|done].
    intros n Ho -> _. rewrite whiteout_target_app in Ev; [done|]. by apply plain_not_empty, ordinary_plain_name.
Qed.

Lemma apply_whiteouts_triple w0 p entries : Forall (fun n => is_Some (s (p ++ [n]))) entries ->
  (forall n, is_Some (s (p ++ [n])) -> n ∈ entries) ->
  triple (fun w => Room w0 p w /\ Emptied p w) (for_each entries (fun name _ => apply_whiteout other beyond selected p name) tt)
    (fun _ w => Room w0 p w /\ Emptied p w /\ Cleared p [] w) (Foot (below p) w0) (Foot (below p) w0).
Proof.
  intros Hall Hin. set (J := fun (rest : list string) (_ : unit) w => Forall (fun n => is_Some (s (p ++ [n]))) rest /\ Room w0 p w /\ Emptied p w /\ Cleared p rest w).
  eapply (triple_post _ _ _ (J [])); [|by intros ? w [_ ?]|done|done]. eapply (triple_pre _ (J entries tt)).
  { intros w [HR He]. split; [done|]. split; [done|]. split; [done|]. intros n _ Hs Hn. by apply Hin in Hs. }
  apply (triple_for J). intros name rest []. apply triple_fact. intros [Hname Hrest]%Forall_cons_1.
  eapply triple_post; [by apply apply_whiteout_triple|done|done|done].
Qed.

(** ** The files with several names *)

Lemma linked_weaken avoid avoid' hl w : (forall q, ordinary q -> avoid' q -> avoid q) -> linked avoid hl w -> linked avoid' hl w.
Proof.
  intros Ha HL i f Hf. destruct (HL i f Hf) as (q & k & -> & Hn & Ho & Ht & Hall). exists q, k. split_and!; try done. auto.
Qed.

Lemma linked_foot G avoid hl w0 w : Foot G w0 w -> (forall q, ordinary q -> G q -> avoid q) -> linked avoid hl w0 -> linked avoid hl w.
Proof.
  intros HF Ha HL i f Hf. destruct (HL i f Hf) as (q & k & -> & Hn & Ho & Ht & Hall). exists q, k. split_and!; try done.
  - rewrite <- Ht. apply (Foot_same core s m G); auto.
  - intros p. destruct HF as (_ & [He _] & _). rewrite He. apply Hall.
Qed.

Lemma linked_insert avoid hl w p k b i : Still w -> linked avoid hl w -> ~ avoid p -> ordinary p -> tsum w p = Some k ->
  s p = Some (k, b) -> w_entries w !! (Upper, p) = Some i -> linked avoid (<[i := (Target, p)]> hl) w.
Proof.
  intros (_ & _ & Hs & _) HL Ha Ho Ht Hp Hi j f. rewrite lookup_insert_Some. intros [[<- <-]|[_ Hf]]; [|by apply HL].
  exists p, k. split_and!; try done. intros p' Hp'. rewrite <- Hs in Hp |- *. unfold usum, node_at in Hp |- *.
  rewrite Hi in Hp. rewrite Hp'. eauto.
Qed.

(** ** The walk *)

Section Walk.
Context (avoid : Path -> Prop) (rel : Path).

(** What is left to avoid while the names of [rel] are taken in turn. *)
Definition ahead (rest : list string) : Path -> Prop := fun q => avoid q \/ exists n, n ∈ rest /\ under (rel ++ [n]) q = true.

Definition Walking w0 (rest : list string) (hl : gmap Ino FPath) w : Prop :=
  (NoDup rest /\ Forall (fun n => is_Some (s (rel ++ [n]))) rest)
  /\ Room w0 rel w
  /\ (forall q, ordinary q -> under rel q = true -> q <> rel -> (forall n, n ∈ rest -> under (rel ++ [n]) q = false) -> published (tsum w) q)
  /\ linked (ahead rest) hl w.

(** One name of [rel], and temporary names. *)
Definition at_name n : Path -> Prop := fun q => under rel q = true /\ (ordinary q -> under (rel ++ [n]) q = true).

Lemma below_at_name n q : below (rel ++ [n]) q -> at_name n q.
Proof. intros H. split; [by eapply under_snoc_l|done]. Qed.

Lemma copying_at_name n q : copying (rel ++ [n]) q -> at_name n q.
Proof.
  intros [H|H]; [by apply below_at_name|]. split; [|intros Ho; by destruct (tmp_not_ordinary sha256_hex target_root _ _ H)].
  unfold tmp in H. rewrite parent_snoc in H. by eapply under_snoc_l.
Qed.

Lemma Walking_next w0 n rest hl hl' w w' : ordinary rel -> Walking w0 (n :: rest) hl w -> Foot (at_name n) w w' ->
  (forall q, ordinary q -> under (rel ++ [n]) q = true -> published (tsum w') q) ->
  linked (ahead rest) hl' w' -> Walking w0 rest hl' w'.
Proof.
  intros Ho ([[Hn Hnd]%NoDup_cons [_ Hall]%Forall_cons_1] & [HF Hd] & Hpub & _) HF' Hdone HL. split; [done|].
  assert (forall q, ordinary q -> under (rel ++ [n]) q = false -> tsum w' q = tsum w q) as Hsame.
  { intros q Hq Hu. apply (Foot_same core s m (at_name n)); [done|]. intros [_ H]. rewrite H in Hu; done. }
  split; [split|split; [|done]].
  - eapply Foot_trans; [exact HF|]. eapply Foot_mono; [|exact HF']. by intros q [? _].
  - rewrite Hsame; [done|done|by rewrite under_snoc_self].
  - intros q Hq Hu Hne Hrest. destruct (under (rel ++ [n]) q) eqn:E; [by apply Hdone|].
    assert (published (tsum w) q) as Hp.
    { apply Hpub; [done..|]. by intros x [->|Hx]%elem_of_cons; [|apply Hrest]. }
    intros p x Eq. specialize (Hp p x Eq). by rewrite Hsame.
Qed.

Lemma Walking_init w0 hl w entries b : Still w -> s rel = Some (KDir, b) ->
  (forall q, avoid q -> under rel q = false) ->
  linked (fun q => avoid q \/ under rel q = true) hl w0 -> NoDup entries -> (forall n, n ∈ entries <-> is_Some (s (rel ++ [n]))) ->
  Room w0 rel w -> Emptied rel w -> Cleared rel [] w -> Walking w0 entries hl w.
Proof.
  intros HS Hb Hav HL Hnd Hin HR He Hc. pose proof HR as [HF _]. split; [split; [done|]|split; [done|split]].
  - apply Forall_forall. intros n. apply Hin.
  - intros q Hq [r ->]%under_spec Hne Hrest. destruct r as [|n r]; [by rewrite app_nil_r in Hne|].
    assert (s (rel ++ [n]) = None) as HN.
    { destruct (s (rel ++ [n])) eqn:E; [|done]. specialize (Hrest n). rewrite Hin, E in Hrest.
      replace (rel ++ n :: r) with ((rel ++ [n]) ++ r) in Hrest by by rewrite <- app_assoc. rewrite under_app in Hrest. by specialize (Hrest ltac:(done)). }
    destruct r as [|x r].
    + intros p n' [<- <-]%app_inj_tail. split; [by rewrite HN|]. apply ordinary_snoc in Hq as [_ Hq]. split.
      * intros Hsel _ Hwh. apply Hc; [done|done|apply not_elem_of_nil|done].
      * intros Hsel Hop _. by apply He.
    + apply (published_vacuous w _ (rel ++ [n])); [done|by rewrite HN| |].
      * apply under_spec. exists (x :: r). by rewrite <- app_assoc.
      * intros E. apply (f_equal length) in E. rewrite !length_app in E. simpl in E. lia.
  - apply (linked_weaken (fun q => avoid q \/ under rel q = true)).
    + intros q _ [?|(n & _ & Hu)]; [by left|right; by eapply under_snoc_l].
    + eapply linked_foot; [exact HF|by right|done].
Qed.

Context (rel_ordinary : ordinary rel) (avoid_elsewhere : forall q, avoid q -> under rel q = false).

Lemma Walking_Foot w0 rest hl w : Walking w0 rest hl w -> Foot (below rel) w0 w.
Proof. by intros (_ & [? _] & _). Qed.

Lemma ahead_elsewhere n rest q : n ∉ rest -> ahead rest q -> under (rel ++ [n]) q = false.
Proof.
  intros Hn [Ha|(x & Hx & Hu)]; (destruct (under (rel ++ [n]) q) eqn:E; [|done]).
  - apply under_snoc_l in E. by rewrite avoid_elsewhere in E.
  - by rewrite (under_siblings rel n x q) in Hx.
Qed.

Lemma linked_here n rest hl w : linked (ahead (n :: rest)) hl w -> linked (fun q => ahead rest q \/ under (rel ++ [n]) q = true) hl w.
Proof.
  apply linked_weaken. intros q _ [[?|(x & Hx & Hu)]|Hu]; [by left| |].
  - right. exists x. split; [by right|done].
  - right. exists n. split; [by left|done].
Qed.

(** A name with nothing to do. *)
Lemma Walking_skip w0 n rest hl w : Walking w0 (n :: rest) hl w ->
  (forall q, ordinary q -> under (rel ++ [n]) q = true -> published (tsum w) q) -> Walking w0 rest hl w.
Proof.
  intros HW Hp. pose proof HW as (_ & [[HS _] _] & _ & HL). eapply Walking_next; [done|exact HW|by apply Foot_refl|done|].
  eapply linked_weaken; [|apply linked_here, HL]. by left.
Qed.

(** A file, a symbolic link or a device. *)
Lemma copy_name_triple w0 n rest hl w k b : Walking w0 (n :: rest) hl w -> ordinary_name n = true ->
  s (rel ++ [n]) = Some (k, b) -> k <> KDir ->
  triple (fun w' => w' = w) (copy_upper_entry other beyond uid gid umask sha256_hex target_root (rel ++ [n]) hl)
    (Walking w0 rest) (Foot (below rel) w0) (Foot (below rel) w0).
Proof.
  intros HW Hn Hs Hk. pose proof HW as ([[Hnr _]%NoDup_cons _] & [HF Hd] & _ & HL). pose proof HF as [HS _].
  assert (ordinary (rel ++ [n])) as Ho by (by apply ordinary_snoc). pose proof (linked_here _ _ _ _ HL) as HL'.
  assert (forall w', Foot (copying (rel ++ [n])) w w' -> Foot (below rel) w0 w') as Hout.
  { intros w' HF'. eapply Foot_trans; [exact HF|]. eapply Foot_mono; [|exact HF']. intros q [? _]%copying_at_name. done. }
  eapply triple_post; [eapply copy_upper_entry_triple; try done|intros hl' w' (HF' & Ht & Hhl)|exact Hout|exact Hout].
  - by destruct rel.
  - by rewrite parent_snoc.
  - eapply linked_weaken; [|exact HL']. intros q Hq [?|Hu]; [by right|]. by destruct (tmp_not_ordinary sha256_hex target_root _ _ Hu).
  - eapply (Walking_next w0 n rest hl hl' w w'); [done|done|eapply Foot_mono; [apply copying_at_name|done]| |].
    + intros q Hq Hu. destruct (decide (q = rel ++ [n])) as [->|Hne].
      * intros p x _. rewrite Hs, Ht. split; [congruence|done].
      * apply (published_vacuous w _ (rel ++ [n])); [done|congruence|done|done].
    + assert (linked (ahead rest) hl w') as HL2.
      { apply (linked_weaken (fun q => ahead rest q \/ under (rel ++ [n]) q = true)); [by left|].
        eapply linked_foot; [exact HF'| |exact HL']. intros q Hq [?|Hu]; [by right|].
        by destruct (tmp_not_ordinary sha256_hex target_root _ _ Hu). }
      destruct Hhl as [->|(i & Hi & ->)]; [done|]. eapply linked_insert; [apply HF'|done| |done|done|done|].
      * intros Ha. pose proof (ahead_elsewhere n rest _ Hnr Ha) as Hf. by rewrite under_refl in Hf.
      * destruct HF' as (_ & [He _] & _). by rewrite He.
Qed.

(** A directory, with what the walk does below it. *)
Lemma walk_name_triple w0 n rest hl w b source (walk : gmap Ino FPath -> Fs (gmap Ino FPath)) :
  Walking w0 (n :: rest) hl w -> ordinary_name n = true -> s (rel ++ [n]) = Some (KDir, b) ->
  (forall w1 hl, Still w1 -> seated w1 (rel ++ [n]) -> linked (fun q => ahead rest q \/ under (rel ++ [n]) q = true) hl w1 ->
     triple (fun w => w = w1) (walk hl)
       (fun hl' w => Foot (below (rel ++ [n])) w1 w /\ tsum w (rel ++ [n]) = Some KDir
          /\ (forall q, ordinary q -> under (rel ++ [n]) q = true -> q <> rel ++ [n] -> published (tsum w) q) /\ linked (ahead rest) hl' w)
       (Foot (below (rel ++ [n])) w1) (Foot (below (rel ++ [n])) w1)) ->
  triple (fun w' => w' = w)
    (ensure_directory other beyond uid gid umask (Target, rel ++ [n]) ;;
     let! hl := walk hl in
     (if bool_decide (rel ++ [n] ∈ selected) then copy_host_metadata other beyond source (Target, rel ++ [n]) else ret tt) ;;
     ret hl)
    (Walking w0 rest) (Foot (below rel) w0) (Foot (below rel) w0).
Proof.
  intros HW Hn Hs Hwalk. pose proof HW as (_ & [HF Hd] & _ & HL). pose proof HF as [HS _].
  assert (forall w', Foot (below (rel ++ [n])) w w' -> Foot (below rel) w0 w') as Hout.
  { intros w' HF'. eapply Foot_trans; [exact HF|]. eapply Foot_mono; [|exact HF']. intros q. apply under_snoc_l. }
  pose proof (linked_here _ _ _ _ HL) as HL'.
  eapply (triple_bind _ _ _ (fun _ w' => Foot (below (rel ++ [n])) w w' /\ tsum w' (rel ++ [n]) = Some KDir)).
  { eapply triple_post; [apply (ensure_directory_triple other beyond uid gid umask core others_quiet s m w (rel ++ [n]) HS)|done|exact Hout|exact Hout].
    - intros _. split; [by intros [_ ?]%app_nil|]. intros _. apply covered_entry. by rewrite Hs.
    - by apply seated_snoc. }
  intros []. apply triple_at. intros w1 [HF1 Hd1].
  eapply (triple_bind _ _ _ (fun hl' w2 => Foot (below (rel ++ [n])) w1 w2 /\ tsum w2 (rel ++ [n]) = Some KDir
    /\ (forall q, ordinary q -> under (rel ++ [n]) q = true -> q <> rel ++ [n] -> published (tsum w2) q) /\ linked (ahead rest) hl' w2)).
  { eapply triple_post; [apply Hwalk; [apply HF1|..]|done| |].
    - apply (Foot_seated core s m w); [done|]. by apply seated_snoc.
    - eapply linked_foot; [exact HF1| |exact HL']. by right.
    - intros w2 HF2. apply Hout. by eapply Foot_trans.
    - intros w2 HF2. apply Hout. by eapply Foot_trans. }
  intros hl'. apply triple_at. intros w2 (HF2 & Hd2 & Hpub & HL2).
  assert (Foot (below (rel ++ [n])) w w2) as HF12 by by eapply Foot_trans.
  eapply (triple_bind _ _ _ (fun _ => same core s m w2)).
  { assert (forall w3, same core s m w2 w3 -> Foot (below rel) w0 w3) as Hsame.
    { intros w3 HF3. apply Hout. eapply Foot_trans; [exact HF12|]. eapply Foot_mono; [|exact HF3]. done. }
    eapply (triple_pre _ (same core s m w2)); [intros w3 ->; by apply Foot_refl; apply HF2|]. destruct (bool_decide _).
    - eapply triple_post; [by apply copy_host_metadata_triple|done|exact Hsame|exact Hsame].
    - by apply triple_ret. }
  intros []. apply triple_ret. intros w3 HF3. assert (forall q, tsum w3 q = tsum w2 q) as Hq.
  { intros q. apply (Foot_same core s m nowhere); [done|by intros []]. }
  eapply (Walking_next w0 n rest hl hl' w w3); [done|done| | |].
  - eapply Foot_mono; [apply below_at_name|]. eapply Foot_trans; [exact HF12|]. eapply Foot_mono; [|exact HF3]. done.
  - intros q Ho Hu. destruct (decide (q = rel ++ [n])) as [->|Hne].
    + intros p x _. rewrite Hs, Hq, Hd2. split; [congruence|done].
    + intros p x Eq. rewrite Hq. by apply Hpub.
  - eapply linked_foot; [exact HF3|done|done].
Qed.
End Walk.

Lemma has_selected_descendant_spec logical : has_selected_descendant selected logical = true <->
  exists q, q ∈ selected /\ q <> logical /\ under logical q = true.
Proof.
  unfold has_selected_descendant. rewrite existsb_exists. setoid_rewrite <- list_elem_of_In. setoid_rewrite elem_of_elements.
  split; intros (q & Hq & H); exists q; (split; [done|]).
  - apply andb_true_iff in H as [H1 H2]. by apply negb_true_iff, bool_decide_eq_false in H1.
  - apply andb_true_iff. split; [|apply H]. apply negb_true_iff, bool_decide_eq_false. apply H.
Qed.

(** Nothing selected, nothing to publish. *)
Lemma published_unselected t x q : (forall p, under x p = true -> p ∉ selected) -> is_Some (s x) -> under x q = true -> published t q.
Proof.
  intros Hn Hx Hu p n ->. pose proof (Hn _ Hu) as Hq. split; [done|]. split; [done|].
  apply under_snoc in Hu as [->|Hu]; [|intros Hp; by apply Hn in Hu]. intros _ _ HN. rewrite HN in Hx. by destruct Hx.
Qed.

Definition walk_post avoid rel w0 (hl : gmap Ino FPath) w : Prop :=
  Foot (below rel) w0 w /\ tsum w rel = Some KDir
  /\ (forall q, ordinary q -> under rel q = true -> q <> rel -> published (tsum w) q) /\ linked avoid hl w.

(** What the walk does below a directory. *)
Definition walks fuel : Prop := forall rel avoid w0 hl b,
  ordinary rel -> (forall q, avoid q -> under rel q = false) -> Still w0 -> s rel = Some (KDir, b) -> seated w0 rel ->
  linked (fun q => avoid q \/ under rel q = true) hl w0 ->
  triple (fun w => w = w0) (apply_selected_directory other beyond uid gid umask sha256_hex target_root selected fuel rel hl)
    (walk_post avoid rel w0) (Foot (below rel) w0) (Foot (below rel) w0).

Lemma apply_name_triple fuel rel avoid w0 n rest hl0 w : walks fuel -> ordinary rel -> (forall q, avoid q -> under rel q = false) ->
  Walking avoid rel w0 (n :: rest) hl0 w ->
  triple (fun w' => w' = w)
    (if is_whiteout_name n then ret hl0 else
     let logical := rel ++ [n] in
     let! source := ask (fun w => lstat beyond w (Upper, logical)) in
     let! source := lift (ok_or source ENOENT) in
     if node_is_dir source then
       if bool_decide (logical ∈ selected) || has_selected_descendant selected logical then
         ensure_directory other beyond uid gid umask (Target, logical) ;;
         let! hard_links := apply_selected_directory other beyond uid gid umask sha256_hex target_root selected fuel logical hl0 in
         (if bool_decide (logical ∈ selected) then copy_host_metadata other beyond source (Target, logical) else ret tt) ;;
         ret hard_links
       else ret hl0
     else if bool_decide (logical ∈ selected) then copy_upper_entry other beyond uid gid umask sha256_hex target_root logical hl0
     else ret hl0)
    (Walking avoid rel w0 rest) (Foot (below rel) w0) (Foot (below rel) w0).
Proof.
  intros IH Ho Hav HW.
  pose proof HW as ([_ [Hn _]%Forall_cons_1] & [HF Hd] & _). pose proof HF as [HSw _].
  destruct (is_whiteout_name n) eqn:Ewh.
  { apply triple_ret. intros w' ->. eapply Walking_skip; [done|exact HW|]. intros q Hq [r ->]%under_spec. exfalso.
    apply ordinary_app in Hq as [Hq _]. apply ordinary_snoc in Hq as [_ Hq]. apply ordinary_plain_name, plain_not_whiteout in Hq. congruence. }
  assert (ordinary_name n = true) as Hon.
  { destruct (names_ok rel n Hn) as [?|[->|(v & _ & ->)]]; [done| |].
    - by vm_compute in Ewh.
    - by rewrite whiteout_name_app in Ewh. }
  destruct Hn as [[k b'] Hn]. destruct (Still_upper core s m w (rel ++ [n]) k b' HSw Hn) as (nd & Hsrc & Hk).
  eapply triple_bind; [apply triple_ask_eq|intros source]. cbv beta.
  apply triple_extract with (φ := source = Some nd). { intros w' [-> ->]. unfold lstat. by rewrite Hsrc. }
  intros ->. cbv zeta. cbn [ok_or lift]. eapply (triple_bind _ _ _ (fun x w' => x = nd /\ w' = w)); [apply triple_ret; by intros w' [-> _]|].
  intros x. apply triple_fact. intros ->. unfold node_is_dir. rewrite Hk.
  destruct (decide (k = KDir)) as [->|Hkd]; cbn [kind_is_dir].
  - destruct (bool_decide (rel ++ [n] ∈ selected) || has_selected_descendant selected (rel ++ [n])) eqn:Ev.
    + eapply walk_name_triple; [done|exact HW|done|done|]. intros w1 hl1 HS1 Hse1 HL1. pose proof HW as ([[Hnr _]%NoDup_cons _] & _).
      apply (IH (rel ++ [n]) (ahead avoid rel rest) w1 hl1 b'); try done.
      * by apply ordinary_snoc.
      * intros q. by apply ahead_elsewhere.
    + apply triple_ret. intros w' ->. eapply Walking_skip; [done|exact HW|]. intros q Hq Hu.
      apply (published_unselected _ (rel ++ [n])); [|by rewrite Hn|done]. intros p Hp Hsel.
      apply orb_false_iff in Ev as [E1 E2]. apply bool_decide_eq_false in E1.
      destruct (decide (p = rel ++ [n])) as [->|Hne]; [done|]. apply not_true_iff_false in E2. apply E2, has_selected_descendant_spec. eauto.
  - assert (kind_is_dir k = false) as -> by by destruct k. case_bool_decide as Hsel.
    + by eapply copy_name_triple.
    + apply triple_ret. intros w' ->. eapply Walking_skip; [done|exact HW|]. intros q Hq Hu.
      destruct (decide (q = rel ++ [n])) as [->|Hne].
      * intros p x _. rewrite Hn. done.
      * apply (published_vacuous w _ (rel ++ [n])); [done|congruence|done|done].
Qed.

Lemma apply_selected_directory_triple fuel : walks fuel.
Proof.
  induction fuel as [|fuel IH]; intros rel avoid w0 hl b Ho Hav HS Hb Hseat HL; cbn [apply_selected_directory].
  { apply triple_throw. intros w ->. by apply Foot_refl. }
  eapply (triple_bind _ _ _ (fun _ => Room w0 rel)).
  { apply ensure_directory_triple; try done. intros Hnd. split; [intros ->; by destruct HS as (_ & _ & _ & _ & _ & ?)|].
    intros _. apply covered_entry. by rewrite Hb. }
  intros []. eapply triple_bind; [apply triple_ask_eq|intros opaque]. cbv beta.
  apply triple_extract with (φ := opaque = opq s rel).
  { intros w [[[HSw _] _] ->]. by eapply is_opaque_source_spec. }
  intros ->. eapply (triple_pre _ (Room w0 rel)); [by intros w [? _]|].
  eapply (triple_bind _ _ _ (fun _ w => Room w0 rel w /\ Emptied rel w)).
  { destruct (opq s rel && bool_decide (rel ∈ selected)) eqn:Eo.
    - apply andb_true_iff in Eo as [Eo _]. by apply empty_directory_triple.
    - apply triple_ret. intros w HR. split; [done|]. intros Hsel Hop. by rewrite Hop, bool_decide_true in Eo. }
  intros []. eapply triple_bind; [apply triple_ask_eq|intros entries]. cbv beta.
  apply triple_extract with (φ := exists names, entries = Some names /\ NoDup names /\ forall n, n ∈ names <-> is_Some (s (rel ++ [n]))).
  { intros w [[[[HSw _] _] _] ->]. exists (names_under w (Upper, rel)). unfold read_dir.
    destruct (upper_dir_at w rel b HSw Hb) as (d & -> & ->). split; [done|]. split; [apply NoDup_names_under|].
    intros n. by apply upper_names. }
  intros (names & -> & Hnd & Hin). cbn [ok_or lift].
  eapply (triple_bind _ _ _ (fun x w => x = names /\ (Room w0 rel w /\ Emptied rel w))); [apply triple_ret; by intros w [? _]|].
  intros x. apply triple_fact. intros ->.
  eapply triple_bind; [apply apply_whiteouts_triple; [apply Forall_forall; intros n; apply Hin|intros n; apply Hin]|intros []].
  eapply (triple_post _ _ _ (Walking avoid rel w0 [])); [|intros hl' w (_ & [HF Hd] & Hpub & HL')|done|done].
  2:{ split; [done|]. split; [done|]. split; [|eapply linked_weaken; [|exact HL']; by left].
      intros q Hq Hu Hne. apply Hpub; try done. by intros n ?%elem_of_nil. }
  eapply (triple_pre _ (Walking avoid rel w0 names hl)).
  { intros w (HR & He & Hc). pose proof HR as [[HSw _] _]. by eapply (Walking_init avoid rel w0 hl w names b). }
  apply (triple_for (Walking avoid rel w0)). intros n rest hl0. apply triple_at. intros w HW.
  by apply apply_name_triple.
Qed.
End Applied.
