(* ===== verification/OverlayPlan.v ===== *)
(** * Planning an application

    The loop that closes a selection ends, and what it returns is closed: opaque
    directories go as a whole, the names of a file go together, and a changed
    directory goes with what is below it. *)

From Stdlib Require Import ZArith Lia.
From stdpp Require Import base list strings gmap pretty sorting.
From S2P Require Import Prelude Effects OverlayFs OverlayCore OverlayView OverlayApply.
#[local] Set Warnings "-clear-no-such-hyp".
Open Scope string_scope.
Open Scope list_scope.

(** ** Folds that only add *)

Section Folds.
Context {E B : Type}.
Implicit Types (f : B -> gset Path -> result E (gset Path)) (l : list B) (S T : gset Path).

Definition grows f : Prop := forall b S T, f b S = Ok T -> S ⊆ T.

Lemma fold_grows f l S T : grows f -> fold_result f l S = Ok T -> S ⊆ T.
Proof.
  intros Hf. revert S. induction l as [|b l IH]; intros S; simpl; [by intros [= ->]|].
  destruct (f b S) as [S'|e] eqn:Eb; [|done]. simpl. intros H. etrans; [by eapply Hf|by apply IH].
Qed.

Lemma fold_within f l S T U : (forall b S T, f b S = Ok T -> S ⊆ U -> T ⊆ U) -> fold_result f l S = Ok T -> S ⊆ U -> T ⊆ U.
Proof.
  intros Hf. revert S. induction l as [|b l IH]; intros S; simpl; [by intros [= ->]|].
  destruct (f b S) as [S'|e] eqn:Eb; [|done]. simpl. intros H HS. eapply IH; [done|]. by eapply Hf.
Qed.

(** A fold that added nothing did nothing. *)
Lemma fold_stable f l S : grows f -> fold_result f l S = Ok S -> forall b, b ∈ l -> f b S = Ok S.
Proof.
  intros Hf. induction l as [|b l IH]; intros H x Hx; [by apply elem_of_nil in Hx|]. simpl in H.
  destruct (f b S) as [S'|e] eqn:Eb; [|done]. simpl in H. assert (S' = S) as ->.
  { apply set_eq. intros p. pose proof (Hf b S S' Eb p). pose proof (fold_grows f l S' S Hf H p). tauto. }
  apply elem_of_cons in Hx as [->|Hx]; [done|by apply IH].
Qed.
End Folds.

Lemma size_list_to_set_le (l : list Path) : size (list_to_set l : gset Path) <= length l.
Proof.
  induction l as [|p l IH]; [done|]. simpl. rewrite size_union_alt, size_singleton.
  pose proof (subseteq_size (list_to_set l ∖ {[p]}) (list_to_set l : gset Path) ltac:(set_solver)). lia.
Qed.

Lemma subset_sandwich (S T U : gset Path) : S ⊆ T -> T ⊆ U -> S = U -> T = S.
Proof. intros H1 H2 <-. apply set_eq. intros p. specialize (H1 p). specialize (H2 p). tauto. Qed.

Section Plan.
Context (compiled : CompiledApplySelection) (changes : list ChangeEntry).
Implicit Types (S T : gset Path) (p q : Path).

Abbreviation take_along := (take_along compiled).
Abbreviation close_opaque := (close_opaque compiled changes).
Abbreviation close_group := (close_group compiled).
Abbreviation close_ancestors := (close_ancestors compiled changes).
Abbreviation close_once := (close_once compiled changes).

Lemma take_along_spec paths S T : take_along paths S = Ok T ->
  T = list_to_set paths ∪ S /\ Forall (fun p => excluded compiled p = false) paths.
Proof.
  unfold OverlayApply.take_along. revert S. induction paths as [|p paths IH]; intros S; simpl.
  - intros [= ->]. split; [|done]. by rewrite union_empty_l_L.
  - destruct (excluded compiled p) eqn:Ep; [done|]. simpl. intros [-> Hall]%IH. split; [|by constructor].
    apply set_eq. intros q. rewrite !elem_of_union, !elem_of_singleton. tauto.
Qed.

Lemma take_along_grows paths S T : take_along paths S = Ok T -> S ⊆ T.
Proof. intros [-> _]%take_along_spec. intros p Hp. apply elem_of_union. by right. Qed.

Lemma close_opaque_grows : grows close_opaque.
Proof.
  intros o S T. unfold OverlayApply.close_opaque. destruct (_ && _); [done|]. case_bool_decide; [apply take_along_grows|].
  by intros [= ->].
Qed.
Lemma close_group_grows : grows close_group.
Proof. intros g S T. unfold OverlayApply.close_group. destruct (existsb _ _); [apply take_along_grows|]. by intros [= ->]. Qed.
Lemma close_ancestors_grows : grows close_ancestors.
Proof. intros p S T. unfold OverlayApply.close_ancestors. apply take_along_grows. Qed.

Lemma close_once_grows opaque groups S T : close_once opaque groups S = Ok T -> S ⊆ T.
Proof.
  unfold OverlayApply.close_once. destruct (fold_result close_opaque opaque S) as [S1|] eqn:E1; [|done]. simpl.
  destruct (fold_result close_group groups S1) as [S2|] eqn:E2; [|done]. simpl. intros E3.
  apply fold_grows in E1; [|apply close_opaque_grows]. apply fold_grows in E2; [|apply close_group_grows].
  apply fold_grows in E3; [|apply close_ancestors_grows]. intros p Hp. auto.
Qed.

Lemma close_once_stable opaque groups S : close_once opaque groups S = Ok S ->
  (forall o, o ∈ opaque -> close_opaque o S = Ok S) /\ (forall g, g ∈ groups -> close_group g S = Ok S)
  /\ forall p, p ∈ S -> close_ancestors p S = Ok S.
Proof.
  unfold OverlayApply.close_once. destruct (fold_result close_opaque opaque S) as [S1|] eqn:E1; [|done]. simpl.
  destruct (fold_result close_group groups S1) as [S2|] eqn:E2; [|done]. simpl. intros E3.
  pose proof (fold_grows _ _ _ _ close_opaque_grows E1) as H1. pose proof (fold_grows _ _ _ _ close_group_grows E2) as H2.
  pose proof (fold_grows _ _ _ _ close_ancestors_grows E3) as H3.
  assert (S1 = S) as -> by (apply (subset_sandwich S S1 S); [done|intros p Hp; auto|done]).
  assert (S2 = S) as -> by (apply (subset_sandwich S S2 S); [done|done|done]).
  split; [by apply fold_stable; [apply close_opaque_grows|]|]. split; [by apply fold_stable; [apply close_group_grows|]|].
  intros p Hp. apply (fold_stable close_ancestors (elements S) S close_ancestors_grows E3). by apply elem_of_elements.
Qed.

(** ** Termination *)

Section Bound.
Context (opaque : list Path) (groups : list (list Path)) (U : gset Path).
Context (changes_in : forall c, c ∈ changes -> ce_path c ∈ U) (groups_in : forall g p, g ∈ groups -> p ∈ g -> p ∈ U).

Lemma close_opaque_within o S T : close_opaque o S = Ok T -> S ⊆ U -> T ⊆ U.
Proof.
  unfold OverlayApply.close_opaque. destruct (_ && _); [done|]. case_bool_decide; [|by intros [= ->]].
  intros [-> _]%take_along_spec HS p [Hp|Hp]%elem_of_union; [|auto]. apply elem_of_list_to_set, list_elem_of_filter in Hp as [_ Hp].
  apply list_elem_of_fmap in Hp as (c & -> & Hc). auto.
Qed.

Lemma is_changed_directory_spec p : is_changed_directory changes p = true <-> exists c, c ∈ changes /\ ce_path c = p /\ ce_new_type c = Some TDirectory.
Proof.
  unfold is_changed_directory. rewrite existsb_exists. setoid_rewrite <- list_elem_of_In. setoid_rewrite bool_decide_eq_true. done.
Qed.

Lemma close_ancestors_within q S T : close_ancestors q S = Ok T -> S ⊆ U -> T ⊆ U.
Proof.
  unfold OverlayApply.close_ancestors. intros [-> _]%take_along_spec HS p [Hp|Hp]%elem_of_union; [|auto].
  apply elem_of_list_to_set, list_elem_of_filter in Hp as [Hp _]. apply is_changed_directory_spec in Hp as (c & Hc & <- & _). auto.
Qed.

Lemma close_groups_within l S T : l ⊆ groups -> fold_result close_group l S = Ok T -> S ⊆ U -> T ⊆ U.
Proof.
  revert S. induction l as [|g l IH]; intros S Hl; simpl; [by intros [= ->]|].
  destruct (close_group g S) as [S'|] eqn:Eg; [|done]. simpl. intros H HS. apply (IH S'); [|done|].
  - intros x Hx. apply Hl. by right.
  - unfold OverlayApply.close_group in Eg. destruct (existsb _ _); [|by injection Eg as <-].
    apply take_along_spec in Eg as [-> _]. intros p [Hp|Hp]%elem_of_union; [|auto]. apply elem_of_list_to_set in Hp.
    apply (groups_in g); [apply Hl; by left|done].
Qed.

Lemma close_once_within S T : close_once opaque groups S = Ok T -> S ⊆ U -> T ⊆ U.
Proof.
  unfold OverlayApply.close_once. destruct (fold_result close_opaque opaque S) as [S1|] eqn:E1; [|done]. simpl.
  destruct (fold_result close_group groups S1) as [S2|] eqn:E2; [|done]. simpl. intros E3 HS.
  apply (fold_within _ _ _ _ U) in E1; [|apply close_opaque_within|done]. apply close_groups_within in E2; [|done|done].
  apply (fold_within _ _ _ _ U) in E3; [|apply close_ancestors_within|done]. done.
Qed.

Lemma close_loop_ends fuel S : S ⊆ U -> size U < size S + fuel -> is_Some (close_loop compiled changes fuel opaque groups S).
Proof.
  revert S. induction fuel as [|fuel IH]; intros S HS Hsize.
  - apply subseteq_size in HS. lia.
  - simpl. destruct (close_once opaque groups S) as [T|e] eqn:E; [|done]. case_bool_decide as Hsame; [done|].
    apply close_once_grows in E as HST. pose proof (close_once_within S T E HS) as HT. apply IH; [done|].
    pose proof (subseteq_size S T HST). lia.
Qed.
End Bound.

Lemma close_loop_stable fuel opaque groups S T : close_loop compiled changes fuel opaque groups S = Some (Ok T) ->
  S ⊆ T /\ close_once opaque groups T = Ok T.
Proof.
  revert S. induction fuel as [|fuel IH]; intros S; simpl; [done|].
  destruct (close_once opaque groups S) as [S'|e] eqn:E; [|done]. pose proof (close_once_grows _ _ _ _ E) as HS.
  case_bool_decide as Hsame.
  - intros [= ->]. split; [done|]. pose proof (set_subseteq_size_eq S T HS ltac:(lia)). by subst.
  - intros [H1 H2]%IH. split; [|done]. intros p Hp. auto.
Qed.

(** *** What a turn keeps out *)

Definition allowed S : Prop := forall p, p ∈ S -> excluded compiled p = false.

Lemma take_along_allowed paths S T : take_along paths S = Ok T -> allowed S -> allowed T.
Proof.
  intros [-> Hall]%take_along_spec HS p [Hp|Hp]%elem_of_union; [|auto]. apply elem_of_list_to_set in Hp.
  by apply (proj1 (Forall_forall _ _) Hall).
Qed.

Lemma fold_allowed {B} (f : B -> gset Path -> result OverlayError (gset Path)) l S T :
  (forall b S T, f b S = Ok T -> allowed S -> allowed T) -> fold_result f l S = Ok T -> allowed S -> allowed T.
Proof.
  intros Hf. revert S. induction l as [|b l IH]; intros S; simpl; [by intros [= ->]|].
  destruct (f b S) as [S'|e] eqn:Eb; [|done]. simpl. intros H HS. eapply IH; [done|]. by eapply Hf.
Qed.

Lemma close_once_allowed opaque groups S T : close_once opaque groups S = Ok T -> allowed S -> allowed T.
Proof.
  unfold OverlayApply.close_once. destruct (fold_result close_opaque opaque S) as [S1|] eqn:E1; [|done]. simpl.
  destruct (fold_result close_group groups S1) as [S2|] eqn:E2; [|done]. simpl. intros E3 HS.
  eapply fold_allowed in E1; [|intros b X Y|exact HS].
  - eapply fold_allowed in E2; [|intros b X Y|exact E1].
    + eapply fold_allowed in E3; [exact E3|intros b X Y; apply take_along_allowed|exact E2].
    + unfold OverlayApply.close_group. destruct (existsb _ _); [apply take_along_allowed|by intros [= ->]].
  - unfold OverlayApply.close_opaque. destruct (_ && _); [done|]. case_bool_decide; [apply take_along_allowed|by intros [= ->]].
Qed.

Lemma close_loop_allowed fuel opaque groups S T : close_loop compiled changes fuel opaque groups S = Some (Ok T) -> allowed S -> allowed T.
Proof.
  revert S. induction fuel as [|fuel IH]; intros S; simpl; [done|].
  destruct (close_once opaque groups S) as [S'|e] eqn:E; [|done]. intros H HS. pose proof (close_once_allowed _ _ _ _ E HS) as HS'.
  case_bool_decide; [by injection H as ->|by eapply IH].
Qed.

Lemma close_loop_within fuel opaque groups S T U : (forall c, c ∈ changes -> ce_path c ∈ U) -> (forall g p, g ∈ groups -> p ∈ g -> p ∈ U) ->
  close_loop compiled changes fuel opaque groups S = Some (Ok T) -> S ⊆ U -> T ⊆ U.
Proof.
  intros Hc Hg. revert S. induction fuel as [|fuel IH]; intros S; simpl; [done|].
  destruct (close_once opaque groups S) as [S'|e] eqn:E; [|done]. intros H HS. pose proof (close_once_within opaque groups U Hc Hg S S' E HS) as HS'.
  case_bool_decide; [by injection H as ->|by eapply IH].
Qed.

(** ** The closure *)

Record closed_under (groups : list (list Path)) S : Prop := mkClosed {
  closed_opaque : forall c q, c ∈ changes -> ce_kind c = Opaque -> q ∈ S -> under (ce_path c) q = true -> ce_path c ∈ S;
  closed_below : forall c c', c ∈ changes -> ce_kind c = Opaque -> ce_path c ∈ S -> c' ∈ changes -> under (ce_path c) (ce_path c') = true -> ce_path c' ∈ S;
  closed_links : forall g p q, g ∈ groups -> p ∈ g -> q ∈ g -> p ∈ S -> q ∈ S;
  closed_dirs : forall c q, c ∈ changes -> ce_new_type c = Some TDirectory -> q ∈ S -> under (ce_path c) q = true -> ce_path c ∈ S;
}.

Lemma elem_of_ancestors p q : q ∈ ancestors p <-> under q p = true /\ q <> p.
Proof.
  unfold ancestors. rewrite elem_of_reverse. rewrite list_elem_of_In, in_map_iff. setoid_rewrite in_seq. rewrite under_spec. split.
  - intros (k & <- & _ & Hk). split; [exists (drop k p); by rewrite take_drop|]. intros E. apply (f_equal length) in E.
    rewrite length_take in E. lia.
  - intros [[r ->] Hne]. exists (length q). split; [by rewrite take_app_length|]. rewrite length_app.
    destruct r; [by rewrite app_nil_r in Hne|]. simpl. lia.
Qed.

Lemma stable_closed groups S : close_once (ce_path <$> filter (fun c => ce_kind c = Opaque) changes) groups S = Ok S -> closed_under groups S.
Proof.
  intros (Ho & Hg & Ha)%close_once_stable. assert (forall paths, take_along paths S = Ok S -> forall p, p ∈ paths -> p ∈ S) as Htake.
  { intros paths [E _]%take_along_spec p Hp. rewrite E. apply elem_of_union. left. by apply elem_of_list_to_set. }
  assert (forall c, c ∈ changes -> ce_kind c = Opaque -> close_opaque (ce_path c) S = Ok S) as Ho'.
  { intros c Hc Hk. apply Ho, list_elem_of_fmap. exists c. split; [done|]. by apply list_elem_of_filter. }
  constructor.
  - intros c q Hc Hk Hq Hu. destruct (decide (q = ce_path c)) as [<-|Hne]; [done|]. specialize (Ho' c Hc Hk). unfold OverlayApply.close_opaque in Ho'.
    destruct (decide (ce_path c ∈ S)) as [|Hn]; [done|]. exfalso. rewrite (bool_decide_false (ce_path c ∈ S) Hn) in Ho'.
    replace (existsb _ _) with true in Ho'; [done|]. symmetry. apply existsb_exists. exists q. rewrite <- list_elem_of_In, elem_of_elements.
    split; [done|]. rewrite Hu, andb_true_r. apply negb_true_iff, bool_decide_eq_false. done.
  - intros c c' Hc Hk Hin Hc' Hu. specialize (Ho' c Hc Hk). unfold OverlayApply.close_opaque in Ho'.
    rewrite (bool_decide_true (ce_path c ∈ S) Hin), andb_false_r in Ho'. eapply Htake; [exact Ho'|]. apply list_elem_of_filter. split; [done|].
    apply list_elem_of_fmap. eauto.
  - intros g p q Hin Hp Hq HpS. specialize (Hg g Hin). unfold OverlayApply.close_group in Hg.
    replace (existsb _ _) with true in Hg; [by eapply Htake|]. symmetry. apply existsb_exists. exists p. rewrite <- list_elem_of_In.
    split; [done|by apply bool_decide_eq_true].
  - intros c q Hc Ht Hq Hu. destruct (decide (q = ce_path c)) as [<-|Hne]; [done|]. specialize (Ha q Hq). unfold OverlayApply.close_ancestors in Ha.
    eapply Htake; [exact Ha|]. apply list_elem_of_filter. split; [|by apply elem_of_ancestors]. apply is_changed_directory_spec. eauto.
Qed.
End Plan.

Section PlanApply.
Context (compile_globs : list string -> option (Path -> bool)).
Implicit Types (changes : list ChangeEntry) (groups : list (list Path)) (selection : ApplySelection).

Abbreviation plan_apply := (plan_apply compile_globs).

Definition first_selection (compiled : CompiledApplySelection) changes : gset Path :=
  list_to_set (filter (fun path => requested compiled path && negb (excluded compiled path) = true) (ce_path <$> changes)).

Lemma elem_of_first_selection compiled changes p : p ∈ first_selection compiled changes <->
  requested compiled p = true /\ excluded compiled p = false /\ exists c, c ∈ changes /\ ce_path c = p.
Proof.
  unfold first_selection. rewrite elem_of_list_to_set, list_elem_of_filter, list_elem_of_fmap, andb_true_iff, negb_true_iff. naive_solver.
Qed.

Lemma plan_ends changes groups selection : is_Some (plan_apply changes groups selection).
Proof.
  unfold OverlayApply.plan_apply. destruct (compile compile_globs selection) as [compiled|]; [|done]. destruct (_ && _); [done|].
  set (U := list_to_set ((ce_path <$> changes) ++ concat groups) : gset Path).
  edestruct (close_loop_ends compiled changes (ce_path <$> filter (fun c => ce_kind c = Opaque) changes) groups U) as [r Hr].
  - intros c Hc. apply elem_of_list_to_set, elem_of_app. left. apply list_elem_of_fmap. eauto.
  - intros g p Hg Hp. apply elem_of_list_to_set, elem_of_app. right. apply list_elem_of_In, in_concat. exists g. by rewrite <- !list_elem_of_In.
  - intros p [_ [_ (c & Hc & <-)]]%(elem_of_first_selection compiled). apply elem_of_list_to_set, elem_of_app. left. apply list_elem_of_fmap. eauto.
  - assert (size U <= length changes + length (concat groups)) as HU; [|apply Nat.lt_le_trans with (S (length changes + length (concat groups))); [lia|apply Nat.le_add_l]].
    unfold U. etrans; [apply size_list_to_set_le|]. rewrite length_app, length_fmap. done.
  - unfold first_selection in Hr. rewrite Hr. destruct r; done.
Qed.

(** What a plan is. *)
Lemma plan_spec changes groups selection plan : plan_apply changes groups selection = Some (Ok plan) ->
  exists compiled, compile compile_globs selection = Ok compiled
    /\ ap_selected plan = filter (fun c => ce_path c ∈ ap_paths plan) changes
    /\ (forall c, c ∈ changes -> requested compiled (ce_path c) = true -> excluded compiled (ce_path c) = false -> ce_path c ∈ ap_paths plan)
    /\ (forall p, p ∈ ap_paths plan -> excluded compiled p = false /\ ((exists c, c ∈ changes /\ ce_path c = p) \/ p ∈ concat groups))
    /\ (is_all selection = false -> ap_paths plan <> ∅)
    /\ closed_under changes groups (ap_paths plan).
Proof.
  unfold OverlayApply.plan_apply. destruct (compile compile_globs selection) as [compiled|]; [|done]. fold (first_selection compiled changes).
  destruct (negb (is_all selection) && _) eqn:Ee; [done|].
  destruct (close_loop _ _ _ _ _ _) as [[T|e]|] eqn:El; [|done|done]. intros [= <-]. cbn [ap_selected ap_paths].
  exists compiled. split; [done|]. split; [done|]. pose proof (close_loop_stable _ _ _ _ _ _ _ El) as [Hsub Hst].
  split; [|split; [|split]].
  - intros c Hc Hr Hx. apply Hsub, elem_of_first_selection. eauto.
  - intros p Hp. split.
    + eapply (close_loop_allowed compiled changes) in El; [by apply El|]. intros q Hq. by apply elem_of_first_selection in Hq as (_ & ? & _).
    + eapply (close_loop_within compiled changes _ _ _ _ _ (list_to_set ((ce_path <$> changes) ++ concat groups))) in El.
      * apply El, elem_of_list_to_set, elem_of_app in Hp as [Hp|Hp]; [left|by right]. apply list_elem_of_fmap in Hp as (c & -> & Hc). eauto.
      * intros c Hc. apply elem_of_list_to_set, elem_of_app. left. apply list_elem_of_fmap. eauto.
      * intros g q Hg Hq. apply elem_of_list_to_set, elem_of_app. right. apply list_elem_of_In, in_concat. exists g. by rewrite <- !list_elem_of_In.
      * intros q [_ [_ (c & Hc & <-)]]%elem_of_first_selection. apply elem_of_list_to_set, elem_of_app. left. apply list_elem_of_fmap. eauto.
  - intros Hall HN. rewrite Hall in Ee. simpl in Ee. apply bool_decide_eq_false in Ee. apply Ee. apply set_eq. intros p.
    split; [|by intros ?%elem_of_empty]. intros Hp. rewrite <- HN. by apply Hsub.
  - by apply stable_closed with compiled.
Qed.
End PlanApply.
