(* ===== verification/OverlayPrune.v ===== *)
(** * Pruning the upper directory

    After the target has the selected changes, they leave the upper directory:
    files, markers, and the directories that have become empty.  The target does
    not change, and what remains upstairs is what was not selected. *)

From Stdlib Require Import ZArith Lia.
From stdpp Require Import base list strings gmap pretty sorting.
From S2P Require Import Prelude Effects OverlayFs OverlayCore OverlayView OverlaySteps OverlayShape OverlayCopy OverlayEdit OverlayApply OverlayMerge OverlayPublish OverlayApplied.
#[local] Set Warnings "-clear-no-such-hyp".
Open Scope string_scope.
Open Scope list_scope.
Open Scope effect_scope.

Section Prune.
Context {O : Type} (other : O -> World -> World) (beyond : World -> FPath -> Path -> option Node).
Context (others_quiet : forall o w, other o w = w).
Context (s : Shape) (selected : gset Path) (w0 : World).
Implicit Types (p q : Path) (n : string) (w : World) (u : Shape) (G : Path -> Prop).

Context (names_ok : forall p n, is_Some (s (p ++ [n])) ->
  ordinary_name n = true \/ n = OPAQUE_NAME \/ exists v, plain_name v = true /\ n = WHITEOUT_PREFIX +:+ v).
Context (markers_leaf : forall p n k b, s (p ++ [n]) = Some (k, b) -> is_whiteout_name n = true -> k <> KDir).

Abbreviation Fs A := (M World O Z A).
Abbreviation triple_sys := (triple_sys other others_quiet).

(** ** What may go *)

Definition removable q : Prop := exists p n, q = p ++ [n]
  /\ (n = OPAQUE_NAME /\ p ∈ selected
      \/ (n <> OPAQUE_NAME /\ exists v, n = WHITEOUT_PREFIX +:+ v /\ p ++ [v] ∈ selected)
      \/ is_whiteout_name n = false /\ q ∈ selected).

Definition Trim u : Prop := forall p, u p = s p \/ (u p = None /\ removable p)
  \/ (s p = Some (KDir, true) /\ u p = Some (KDir, false) /\ p ∈ selected).

Definition Trimmed w : Prop :=
  wf w /\ apart w /\ (forall q, node_at w (Target, q) = node_at w0 (Target, q))
  /\ (forall p nd, node_at w (Upper, p) = Some nd -> real_node nd) /\ Trim (usum w).

Definition Cut_at G w1 w : Prop := Trimmed w /\ forall p, usum w p = usum w1 p \/ G p.

Lemma Cut_at_refl G w : Trimmed w -> Cut_at G w w.
Proof. intros H. split; [done|]. by left. Qed.
Lemma Cut_at_trans G w1 w2 w3 : Cut_at G w1 w2 -> Cut_at G w2 w3 -> Cut_at G w1 w3.
Proof. intros [_ H1] [HT H2]. split; [done|]. intros p. destruct (H2 p) as [->|?]; [apply H1|by right]. Qed.
Lemma Cut_at_mono G G' w1 w : (forall p, G p -> G' p) -> Cut_at G w1 w -> Cut_at G' w1 w.
Proof. intros HG [HT H]. split; [done|]. intros p. destruct (H p); auto. Qed.
Lemma Cut_at_same G w1 w p : Cut_at G w1 w -> ~ G p -> usum w p = usum w1 p.
Proof. intros [_ H] HG. by destruct (H p). Qed.

Lemma Trimmed_kind w p k b : Trimmed w -> usum w p = Some (k, b) -> exists b', s p = Some (k, b').
Proof. intros (_ & _ & _ & _ & HT) Hp. destruct (HT p) as [E|[[E _]|(E & E' & _)]]; [|congruence|]; rewrite Hp in *; [eauto|]. injection E' as -> ->. eauto. Qed.

Lemma Trimmed_some w p : Trimmed w -> is_Some (usum w p) -> is_Some (s p).
Proof. intros HT [[k b] Hp]. destruct (Trimmed_kind w p k b HT Hp) as [b' ->]. done. Qed.

(** *** Single calls *)

Lemma delete_trim G q w w' : Trimmed w -> wf w' -> removable q -> G q ->
  (forall g, w_entries w' !! g = if decide (g = (Upper, q)) then None else w_entries w !! g) ->
  (forall g, node_at w' g = if decide (g = (Upper, q)) then None else node_at w g) ->
  Cut_at G w w' /\ forall p, usum w' p = if decide (p = q) then None else usum w p.
Proof.
  intros (Hw & Ha & Ht & Hr & HT) Hw' Hq HG He Hn.
  assert (forall p, usum w' p = if decide (p = q) then None else usum w p) as Hu.
  { intros p. unfold usum. rewrite Hn. destruct (decide (p = q)) as [->|Hne]; [by rewrite decide_True|].
    rewrite decide_False; [done|]. congruence. }
  split; [|done]. split; [split; [done|split; [|split; [|split]]]|].
  - intros p p' i Hp Hp'. rewrite He in Hp, Hp'. destruct (decide _); [done|]. destruct (decide _); [done|]. by eapply Ha.
  - intros p. by rewrite Hn, decide_False.
  - intros p nd. rewrite Hn. destruct (decide _); [done|apply Hr].
  - intros p. rewrite Hu. destruct (decide (p = q)) as [->|]; [by right; left|apply HT].
  - intros p. rewrite Hu. destruct (decide (p = q)) as [->|]; [by right|by left].
Qed.

(** Entries that are not directories. *)
Lemma remove_leaf_triple q w1 k b : Trimmed w1 -> usum w1 q = Some (k, b) -> k <> KDir -> removable q ->
  triple (fun w => w = w1) (remove_path other beyond (Upper, q))
    (fun _ w => Cut_at (eq q) w1 w /\ usum w q = None) (Cut_at (eq q) w1) (Cut_at (eq q) w1).
Proof.
  intros HT Hq Hk Hr. unfold remove_path. eapply triple_bind; [apply triple_ask_eq|intros found]. cbv beta.
  unfold usum in Hq. destruct (node_at w1 (Upper, q)) as [nd|] eqn:En; [|done].
  change (Some (node_sum nd) = Some (k, b)) in Hq. assert (n_kind nd = k) as Hkn by (unfold node_sum in Hq; congruence).
  apply triple_extract with (φ := found = Some nd). { intros w [-> ->]. unfold lstat. by rewrite En. }
  intros ->. assert (node_is_dir nd = false) as Hd by (unfold node_is_dir; rewrite Hkn; by destruct k). rewrite Hd.
  apply triple_sys; [intros w [-> _]; by apply Cut_at_refl|intros w [-> _]; by apply Cut_at_refl|]. intros w [-> _].
  destruct (unlink _ w1) as [res w'] eqn:E. eapply unlink_spec in E; [|apply HT].
  destruct res as [?|?]; [|destruct E as [-> _]; by apply Cut_at_refl]. destruct E as (Hw' & _ & _ & He & Hn).
  destruct (delete_trim (eq q) q w1 w' HT Hw' Hr eq_refl He Hn) as [HC Hu]. split; [|done]. split; [done|]. by rewrite Hu, decide_True.
Qed.

(** Directories that have become empty. *)
Lemma rmdir_triple q w1 : Trimmed w1 -> q <> [] -> removable q ->
  triple (fun w => w = w1) (sys other (rmdir (Upper, q)))
    (fun _ w => Cut_at (eq q) w1 w /\ usum w q = None) (Cut_at (eq q) w1) (Cut_at (eq q) w1).
Proof.
  intros HT Hne Hr. apply triple_sys; [intros w ->; by apply Cut_at_refl|intros w ->; by apply Cut_at_refl|]. intros w ->.
  destruct (rmdir _ w1) as [res w'] eqn:E. eapply rmdir_spec in E; [|apply HT|congruence].
  destruct res as [?|?]; [|subst; by apply Cut_at_refl]. destruct E as (Hw' & _ & He & Hn).
  destruct (delete_trim (eq q) q w1 w' HT Hw' Hr eq_refl He Hn) as [HC Hu]. split; [|done]. split; [done|]. by rewrite Hu, decide_True.
Qed.

(** *** The attributes of an opaque directory *)

Lemma opaque_xattr_spec nd : opaque_xattr nd = true <-> exists x, x ∈ OPAQUE_XATTRS /\ md_xattrs (n_meta nd) !! x = Some "y".
Proof.
  unfold opaque_xattr. rewrite existsb_exists. setoid_rewrite <- list_elem_of_In. setoid_rewrite bool_decide_eq_true. done.
Qed.

Lemma del_xattr_lookup name nd x : md_xattrs (n_meta (del_xattr name nd)) !! x = if decide (x = name) then None else md_xattrs (n_meta nd) !! x.
Proof. simpl. destruct (decide (x = name)) as [->|]; [apply lookup_delete_eq|by apply lookup_delete_ne]. Qed.

Lemma del_xattr_opaque name nd : opaque_xattr nd = false -> opaque_xattr (del_xattr name nd) = false.
Proof.
  intros H. apply not_true_iff_false. rewrite opaque_xattr_spec. intros (x & Hx & Hy). rewrite del_xattr_lookup in Hy.
  destruct (decide _); [done|]. apply not_true_iff_false in H. apply H, opaque_xattr_spec. eauto.
Qed.

Lemma del_xattr_trim p name w nd r w' : Trimmed w -> p ∈ selected -> node_at w (Upper, p) = Some nd -> node_is_dir nd = true ->
  change (del_xattr name) (Upper, p) w = (r, w') ->
  Cut_at (eq p) w w' /\ (r = Ok tt -> node_at w' (Upper, p) = Some (del_xattr name nd)).
Proof.
  intros HT Hsel Hnd Hd E. pose proof HT as (Hw & Ha & Ht & Hr & HTr). eapply change_spec in E; [|done|done].
  destruct r as [[]|?]; [|subst; split; [by apply Cut_at_refl|done]]. destruct E as (Hw' & _ & He & i & nd' & Hi & Hnd' & Hn).
  assert (nd' = nd) as -> by (rewrite (node_at_Some _ _ _ _ Hi Hnd') in Hnd; congruence).
  assert (forall g, node_at w' g = if decide (g = (Upper, p)) then Some (del_xattr name nd) else node_at w g) as Hn'.
  { intros g. rewrite Hn. destruct (decide (g = (Upper, p))) as [->|Hne]; [by rewrite decide_True|]. rewrite decide_False; [done|].
    intros Hg. apply Hne. by eapply (wf_dir _ Hw). }
  split; [|intros _; by rewrite Hn', decide_True].
  assert (forall q, q <> p -> usum w' q = usum w q) as Hu by (intros q Hq; unfold usum; rewrite Hn', decide_False; congruence).
  split; [split; [done|split; [|split; [|split]]]|].
  - intros q q' j. rewrite He. apply Ha.
  - intros q. by rewrite Hn', decide_False.
  - intros q x. rewrite Hn'. destruct (decide _) as [[= ->]|]; [|apply Hr]. intros [= <-]. unfold real_node. simpl.
    unfold node_is_dir, kind_is_dir in Hd. by destruct (n_kind nd).
  - intros q. destruct (decide (q = p)) as [->|Hq]; [|rewrite Hu by done; apply HTr].
    assert (usum w' p = Some (KDir, opaque_xattr (del_xattr name nd)) /\ usum w p = Some (KDir, opaque_xattr nd)) as [Eu Eu0].
    { unfold usum. rewrite Hn', decide_True, Hnd by done. unfold node_sum. simpl. unfold node_is_dir in *. simpl. rewrite Hd.
      unfold kind_is_dir in Hd. by destruct (n_kind nd). }
    specialize (HTr p). rewrite Eu0 in HTr. rewrite Eu. destruct (opaque_xattr (del_xattr name nd)) eqn:E1.
    + destruct (opaque_xattr nd) eqn:E2; [|by rewrite (del_xattr_opaque name nd E2) in E1]. done.
    + destruct (opaque_xattr nd); [|done]. destruct HTr as [E|[[? _]|(_ & ? & _)]]; [|done|done]. by right; right.
  - intros q. destruct (decide (p = q)) as [->|Hq]; [by right|left; apply Hu; congruence].
Qed.

Lemma clear_opaque_xattrs_triple p w1 b : Trimmed w1 -> p ∈ selected -> usum w1 p = Some (KDir, b) ->
  triple (fun w => w = w1) (clear_opaque_xattrs other beyond (Upper, p))
    (fun _ w => Cut_at (eq p) w1 w /\ usum w p = Some (KDir, false)) (Cut_at (eq p) w1) (Cut_at (eq p) w1).
Proof.
  intros HT Hsel Hp. unfold clear_opaque_xattrs.
  set (J := fun (rest : list string) (_ : unit) w => Cut_at (eq p) w1 w /\ exists nd, node_at w (Upper, p) = Some nd /\ n_kind nd = KDir
    /\ forall x, x ∈ OPAQUE_XATTRS -> x ∉ rest -> md_xattrs (n_meta nd) !! x <> Some "y").
  eapply (triple_post _ _ _ (J [])); [|intros ? w (HC & nd & Hnd & Hk & Hx)|done|done].
  - eapply (triple_pre _ (J OPAQUE_XATTRS tt)).
    { intros w ->. split; [by apply Cut_at_refl|]. unfold usum in Hp. destruct (node_at w1 (Upper, p)) as [nd|]; [|done].
      exists nd. split; [done|]. split; [simpl in Hp; unfold node_sum in Hp; congruence|done]. }
    apply (triple_for J). intros x rest []. apply triple_at. intros w (HC & nd & Hnd & Hk & Hx). pose proof HC as [HTw _].
    eapply triple_bind; [apply triple_ask_eq|intros value]. cbv beta.
    apply triple_extract with (φ := value = md_xattrs (n_meta nd) !! x).
    { intros w' [-> ->]. unfold get_xattr, lstat. by rewrite Hnd. }
    intros ->. case_bool_decide as Hy.
    + apply triple_sys; [by intros w' [-> _]|by intros w' [-> _]|]. intros w' [-> _].
      destruct (change _ _ w) as [r w'] eqn:E.
      apply (del_xattr_trim p x w nd) in E as [HC' Hok]; [|done|done|done|unfold node_is_dir; by rewrite Hk].
      assert (Cut_at (eq p) w1 w') as HC2 by by eapply Cut_at_trans.
      destruct r as [[]|?]; [|done]. split; [|done]. split; [done|]. exists (del_xattr x nd). split; [by apply Hok|]. split; [done|].
      intros y Hin Hr. rewrite del_xattr_lookup. destruct (decide (y = x)) as [|Hne]; [done|]. apply Hx; [done|]. by intros [?|?]%elem_of_cons.
    + apply triple_ret. intros w' [-> _]. split; [done|]. exists nd. split; [done|]. split; [done|].
      intros y Hin Hr. destruct (decide (y = x)) as [->|Hne]; [done|]. apply Hx; [done|]. by intros [?|?]%elem_of_cons.
  - split; [done|]. unfold usum. rewrite Hnd. simpl. unfold node_sum, node_is_dir. rewrite Hk. simpl. f_equal. f_equal.
    apply not_true_iff_false. rewrite opaque_xattr_spec. intros (x & Hin & Hy). by apply (Hx x Hin); [apply not_elem_of_nil|].
Qed.

(** ** The walk *)

(** Nothing selected is left at [q], but a directory that still has entries. *)
Definition clean u q : Prop := forall p n, q = p ++ [n] ->
  (n = OPAQUE_NAME -> p ∈ selected -> u q = None)
  /\ (forall v, plain_name v = true -> n = WHITEOUT_PREFIX +:+ v -> p ++ [v] ∈ selected -> u q = None)
  /\ (is_whiteout_name n = false -> q ∈ selected -> u q = None \/ u q = Some (KDir, false) /\ exists x, is_Some (u (q ++ [x]))).

Lemma clean_None u q : u q = None -> clean u q.
Proof. intros H p n _. split; [done|]. split; [done|]. by left. Qed.

Lemma clean_same u u' q : u' q = u q -> (forall x, u' (q ++ [x]) = u (q ++ [x])) -> clean u q -> clean u' q.
Proof. intros E Ex H p n Eq. destruct (H p n Eq) as (H1 & H2 & H3). rewrite !E. setoid_rewrite Ex. done. Qed.

(** Nothing selected below [x], nothing to do. *)
Lemma clean_unselected u x q : (forall p, under x p = true -> p ∉ selected) -> ~ (exists p n, x = p ++ [n] /\ is_whiteout_name n = true) ->
  under x q = true -> clean u q.
Proof.
  intros Hn Hx Hu p n ->. pose proof (Hn _ Hu) as Hq. apply under_snoc in Hu as [->|Hu].
  - split; [intros ->; exfalso; apply Hx; by exists p, OPAQUE_NAME|]. split; [|done].
    intros v _ ->. exfalso. apply Hx. exists p, (WHITEOUT_PREFIX +:+ v). split; [done|apply whiteout_name_app].
  - split; [intros _ Hp; by apply Hn in Hu|]. split; [|done]. intros v _ _ Hp. exfalso. apply (Hn (p ++ [v])); [|done]. by apply under_snoc_weaken.
Qed.

Lemma usum_below w p q : wf w -> (forall b, usum w p <> Some (KDir, b)) -> q <> [] -> usum w (p ++ q) = None.
Proof.
  intros Hw Hp Hq. unfold usum in *. destruct (node_at w (Upper, p ++ q)) as [nd|] eqn:E; [|done]. exfalso.
  destruct (wf_above w Upper p q nd Hw E Hq) as (d & Hd & Hdir). rewrite Hd in Hp. simpl in Hp.
  unfold node_sum in Hp. unfold node_is_dir, kind_is_dir in *. destruct (n_kind d); try done. by eapply Hp.
Qed.

Lemma usum_names w p n : wf w -> n ∈ names_under w (Upper, p) <-> is_Some (usum w (p ++ [n])).
Proof.
  intros Hw. rewrite elem_of_names_under. unfold usum. rewrite fmap_is_Some. split; [by apply entry_node|].
  intros [nd (i & Hi & _)%node_at_entry]. by eexists.
Qed.

Section Walk.
Context (rel : Path) (w1 : World).

Definition kept w : Prop := exists b, usum w rel = Some (KDir, b) /\ (rel ∈ selected -> b = false).

Definition Pruning (rest : list string) w : Prop :=
  (NoDup rest /\ forall n, n ∈ rest -> is_Some (usum w (rel ++ [n])))
  /\ Cut_at (below rel) w1 w /\ kept w
  /\ forall q, under rel q = true -> q <> rel -> (forall n, n ∈ rest -> under (rel ++ [n]) q = false) -> clean (usum w) q.

Lemma Pruning_next n rest w w' : Pruning (n :: rest) w -> Cut_at (below (rel ++ [n])) w w' ->
  (forall q, under (rel ++ [n]) q = true -> clean (usum w') q) -> Pruning rest w'.
Proof.
  intros ([[Hn Hnd]%NoDup_cons Hall] & HC & (b & Hb & Hbs) & Hcl) HC' Hdone.
  assert (forall q, under (rel ++ [n]) q = false -> usum w' q = usum w q) as Hsame.
  { intros q Hq. apply (Cut_at_same (below (rel ++ [n]))); [done|]. unfold below. by rewrite Hq. }
  split; [split; [done|]|split; [|split]].
  - intros x Hx. rewrite Hsame; [apply Hall; by right|]. destruct (under _ _) eqn:E; [|done].
    assert (n = x) as -> by (eapply under_siblings; [apply under_refl|exact E]). done.
  - eapply Cut_at_trans; [exact HC|]. eapply Cut_at_mono; [|exact HC']. intros q. apply under_snoc_l.
  - exists b. rewrite Hsame by apply under_snoc_self. done.
  - intros q Hu Hne Hrest. destruct (under (rel ++ [n]) q) eqn:E; [by apply Hdone|].
    eapply clean_same; [by apply Hsame| |apply Hcl; [done|done|by intros x [->|Hx]%elem_of_cons; [|apply Hrest]]].
    intros x. apply Hsame. destruct (under (rel ++ [n]) (q ++ [x])) eqn:E2; [|done]. apply under_snoc in E2 as [E2|E2]; [|congruence].
    apply app_inj_tail in E2 as [<- _]. done.
Qed.

Lemma Pruning_skip n rest w : Pruning (n :: rest) w -> (forall q, under (rel ++ [n]) q = true -> clean (usum w) q) -> Pruning rest w.
Proof. intros HP. apply (Pruning_next n rest w w HP). apply Cut_at_refl. by destruct HP as (_ & [? _] & _). Qed.

Lemma Pruning_out n w w' rest : Pruning (n :: rest) w -> Cut_at (below (rel ++ [n])) w w' -> Cut_at (below rel) w1 w'.
Proof.
  intros (_ & HC & _) HC'. eapply Cut_at_trans; [exact HC|]. eapply Cut_at_mono; [|exact HC']. intros q. apply under_snoc_l.
Qed.

(** A marker, or a file. *)
Lemma prune_leaf_triple n rest w k b (take : bool) : Pruning (n :: rest) w -> usum w (rel ++ [n]) = Some (k, b) -> k <> KDir ->
  (take = true -> removable (rel ++ [n])) -> (take = false -> clean (usum w) (rel ++ [n])) ->
  triple (fun w' => w' = w) (if take then remove_path other beyond (Upper, rel ++ [n]) else ret tt)
    (fun _ => Pruning rest) (Cut_at (below rel) w1) (Cut_at (below rel) w1).
Proof.
  intros HP Hu Hk Htake Hskip. pose proof HP as (_ & HC & _). pose proof HC as [HT _].
  assert (forall q, under (rel ++ [n]) q = true -> q <> rel ++ [n] -> usum w q = None) as Hbelow.
  { intros q [r ->]%under_spec Hne. apply usum_below; [apply HT|congruence|]. intros ->. by rewrite app_nil_r in Hne. }
  assert (forall w', Cut_at (eq (rel ++ [n])) w w' -> Cut_at (below (rel ++ [n])) w w') as Hwide.
  { intros w'. apply Cut_at_mono. intros q <-. apply under_refl. }
  destruct take.
  - eapply triple_post; [apply (remove_leaf_triple (rel ++ [n]) w k b HT Hu Hk (Htake eq_refl))|intros [] w' [HC' HN]| |].
    + eapply Pruning_next; [exact HP|by apply Hwide|]. intros q Hq. apply clean_None.
      destruct (decide (q = rel ++ [n])) as [->|Hne]; [done|]. rewrite (Cut_at_same _ _ _ _ HC') by congruence. by apply Hbelow.
    + intros w' HC'. eapply Pruning_out; [exact HP|by apply Hwide].
    + intros w' HC'. eapply Pruning_out; [exact HP|by apply Hwide].
  - apply triple_ret. intros w' ->. eapply Pruning_skip; [exact HP|]. intros q Hq.
    destruct (decide (q = rel ++ [n])) as [->|Hne]; [by apply Hskip|]. by apply clean_None, Hbelow.
Qed.
End Walk.

Definition prunes (walk : Path -> Fs unit) : Prop := forall rel w1 b, Trimmed w1 -> usum w1 rel = Some (KDir, b) ->
  triple (fun w => w = w1) (walk rel)
    (fun _ w => Cut_at (below rel) w1 w /\ kept rel w /\ forall q, under rel q = true -> q <> rel -> clean (usum w) q)
    (Cut_at (below rel) w1) (Cut_at (below rel) w1).

Lemma clean_dir w p n : Trimmed w -> is_whiteout_name n = false -> kept (p ++ [n]) w ->
  (p ++ [n] ∈ selected -> names_under w (Upper, p ++ [n]) <> []) -> clean (usum w) (p ++ [n]).
Proof.
  intros HT Hn (b & Hb & Hbs) Hne p' n' [<- <-]%app_inj_tail. split; [by intros ->; vm_compute in Hn|]. split; [intros v _ ->; by rewrite whiteout_name_app in Hn|].
  intros _ Hsel. right. rewrite Hb, Hbs by done. split; [done|]. specialize (Hne Hsel).
  destruct (names_under w (Upper, p ++ [n])) as [|x l] eqn:E; [done|]. exists x. apply usum_names; [apply HT|]. rewrite E. by left.
Qed.

(** A directory, with what the walk does below it. *)
Lemma prune_dir_triple rel w1 n rest w b (walk : Path -> Fs unit) : Pruning rel w1 (n :: rest) w ->
  usum w (rel ++ [n]) = Some (KDir, b) -> is_whiteout_name n = false -> prunes walk ->
  triple (fun w' => w' = w)
    ((if bool_decide (rel ++ [n] ∈ selected) || has_selected_descendant selected (rel ++ [n]) then walk (rel ++ [n]) else ret tt) ;;
     let! empty := ask (fun w => bool_decide (names_under w (Upper, rel ++ [n]) = [])) in
     if bool_decide (rel ++ [n] ∈ selected) && empty then sys other (rmdir (Upper, rel ++ [n])) else ret tt)
    (fun _ => Pruning rel w1 rest) (Cut_at (below rel) w1) (Cut_at (below rel) w1).
Proof.
  intros HP Hu Hn Hwalk. pose proof HP as (_ & HC & _). pose proof HC as [HT _].
  destruct (bool_decide (rel ++ [n] ∈ selected) || has_selected_descendant selected (rel ++ [n])) eqn:Ev.
  - eapply (triple_bind _ _ _ (fun _ w2 => Cut_at (below (rel ++ [n])) w w2 /\ kept (rel ++ [n]) w2
      /\ forall q, under (rel ++ [n]) q = true -> q <> rel ++ [n] -> clean (usum w2) q)).
    { eapply triple_post; [by eapply Hwalk|done|..]; intros w'; by eapply Pruning_out. }
    intros []. apply triple_at. intros w2 (HC2 & Hk2 & Hcl2). pose proof HC2 as [HT2 _].
    eapply triple_bind; [apply triple_ask_eq|intros empty]. cbv beta.
    apply triple_extract with (φ := empty = bool_decide (names_under w2 (Upper, rel ++ [n]) = [])); [by intros w' [-> ->]|].
    intros ->. eapply (triple_pre _ (fun w' => w' = w2)); [by intros w' [-> _]|].
    assert (forall w', Cut_at (eq (rel ++ [n])) w2 w' -> Cut_at (below (rel ++ [n])) w w') as Hwide.
    { intros w' HC'. eapply Cut_at_trans; [exact HC2|]. eapply Cut_at_mono; [|exact HC']. intros q <-. apply under_refl. }
    destruct (bool_decide (rel ++ [n] ∈ selected) && _) eqn:Ee.
    + apply andb_true_iff in Ee as [Es Ee]. apply bool_decide_eq_true in Es, Ee.
      eapply triple_post; [apply (rmdir_triple (rel ++ [n]) w2 HT2)|intros [] w' [HC' HN]| |].
      * by destruct rel.
      * exists rel, n. split; [done|]. right. right. done.
      * eapply Pruning_next; [exact HP|by apply Hwide|]. intros q [r ->]%under_spec. apply clean_None.
        destruct r as [|x r]; [by rewrite app_nil_r|]. apply usum_below; [apply HC'|by rewrite HN|done].
      * intros w' HC'. eapply Pruning_out; [exact HP|by apply Hwide].
      * intros w' HC'. eapply Pruning_out; [exact HP|by apply Hwide].
    + apply triple_ret. intros w' ->. eapply Pruning_next; [exact HP|exact HC2|]. intros q Hq.
      destruct (decide (q = rel ++ [n])) as [->|Hne]; [|by apply Hcl2]. apply clean_dir; [done|done|done|].
      intros Hsel Hnil. by rewrite !bool_decide_true in Ee.
  - apply orb_false_iff in Ev as [E1 E2]. rewrite E1. cbn [andb].
    eapply (triple_bind _ _ _ (fun _ w' => w' = w)); [by apply triple_ret|intros []].
    eapply (triple_bind _ _ _ (fun _ w' => w' = w)); [by apply triple_ask|intros empty].
    apply triple_ret. intros w' ->. eapply Pruning_skip; [exact HP|]. intros q Hq.
    apply (clean_unselected _ (rel ++ [n])); [| |done].
    + intros p Hp Hsel. apply bool_decide_eq_false in E1. destruct (decide (p = rel ++ [n])) as [->|Hne]; [done|].
      apply not_true_iff_false in E2. apply E2, has_selected_descendant_spec. eauto.
    + intros (p & x & [_ ->]%app_inj_tail & Hx). congruence.
Qed.

Lemma prune_name_triple rel w1 n rest w (walk : Path -> Fs unit) : Pruning rel w1 (n :: rest) w -> prunes walk ->
  triple (fun w' => w' = w)
    (let path := (Upper, rel ++ [n]) in
     if bool_decide (n = OPAQUE_NAME) then
       if bool_decide (rel ∈ selected) then remove_path other beyond path else ret tt
     else
     match whiteout_target n with
     | Some victim => if bool_decide (rel ++ [victim] ∈ selected) then remove_path other beyond path else ret tt
     | None =>
         let logical := rel ++ [n] in
         let! nd := ask (fun w => lstat beyond w path) in
         let! nd := lift (ok_or nd ENOENT) in
         if node_is_dir nd then
           (if bool_decide (logical ∈ selected) || has_selected_descendant selected logical
            then walk logical else ret tt) ;;
           let! empty := ask (fun w => bool_decide (names_under w path = [])) in
           if bool_decide (logical ∈ selected) && empty then sys other (rmdir path) else ret tt
         else if bool_decide (logical ∈ selected) then remove_path other beyond path else ret tt
     end)
    (fun _ => Pruning rel w1 rest) (Cut_at (below rel) w1) (Cut_at (below rel) w1).
Proof.
  intros HP Hwalk. pose proof HP as ([_ Hall] & [HT _] & _).
  destruct (Hall n ltac:(by left)) as [[k b] Hu]. destruct (Trimmed_kind w _ _ _ HT Hu) as [b' Hs].
  assert (is_whiteout_name n = true -> k <> KDir) as Hleaf by (intros H; by eapply markers_leaf).
  cbv zeta. case_bool_decide as Hop.
  { subst n. eapply prune_leaf_triple; [exact HP|exact Hu|by apply Hleaf| |].
    - intros Hsel%bool_decide_eq_true. exists rel, OPAQUE_NAME. split; [done|]. by left.
    - intros Hsel%bool_decide_eq_false p x [<- <-]%app_inj_tail. split; [done|]. split; [|done].
      intros v Hv E. symmetry in E. by apply opaque_marker_is_not_a_whiteout in E. }
  destruct (whiteout_target n) as [v|] eqn:Ev.
  { apply whiteout_target_inv in Ev as ->. eapply prune_leaf_triple; [exact HP|exact Hu|by apply Hleaf, whiteout_name_app| |].
    - intros Hsel%bool_decide_eq_true. exists rel, (WHITEOUT_PREFIX +:+ v). split; [done|]. right. left. eauto.
    - intros Hsel%bool_decide_eq_false p x [<- <-]%app_inj_tail. split; [done|]. split.
      + by intros v' _ ->%str_app_inj_l.
      + intros H. by rewrite whiteout_name_app in H. }
  assert (is_whiteout_name n = false) as Hn.
  { destruct (names_ok rel n ltac:(by rewrite Hs)) as [Ho|[?|(v & Hv & ->)]]; [|done|].
    - by apply plain_not_whiteout, ordinary_plain_name.
    - rewrite whiteout_target_app in Ev by by apply plain_not_empty. done. }
  unfold usum in Hu. destruct (node_at w (Upper, rel ++ [n])) as [nd|] eqn:Hnd; [|done].
  change (Some (node_sum nd) = Some (k, b)) in Hu. assert (n_kind nd = k) as Hk by (unfold node_sum in Hu; congruence).
  eapply triple_bind; [apply triple_ask_eq|intros found]. cbv beta.
  apply triple_extract with (φ := found = Some nd). { intros w' [-> ->]. unfold lstat. by rewrite Hnd. }
  intros ->. cbn [ok_or lift]. eapply (triple_bind _ _ _ (fun x w' => x = nd /\ w' = w)); [apply triple_ret; by intros w' [-> _]|].
  intros x. apply triple_fact. intros ->. unfold node_is_dir. rewrite Hk.
  assert (usum w (rel ++ [n]) = Some (k, b)) as Hu' by (unfold usum; by rewrite Hnd).
  destruct (decide (k = KDir)) as [->|Hkd]; cbn [kind_is_dir]; [by eapply prune_dir_triple|].
  assert (kind_is_dir k = false) as -> by by destruct k. eapply prune_leaf_triple; [exact HP|exact Hu'|done| |].
  - intros Hsel%bool_decide_eq_true. exists rel, n. split; [done|]. by right; right.
  - intros Hsel%bool_decide_eq_false p x [<- <-]%app_inj_tail. split; [done|]. split; [|done].
    intros v _ ->. by rewrite whiteout_name_app in Hn.
Qed.

Lemma prune_selected_directory_triple fuel : prunes (prune_selected_directory other beyond selected fuel).
Proof.
  induction fuel as [|fuel IH]; intros rel w1 b HT Hb; cbn [prune_selected_directory].
  { apply triple_throw. intros w ->. by apply Cut_at_refl. }
  assert (forall w, Cut_at (eq rel) w1 w -> Cut_at (below rel) w1 w) as Hwide.
  { intros w. apply Cut_at_mono. intros q <-. apply under_refl. }
  eapply (triple_bind _ _ _ (fun _ w => Cut_at (eq rel) w1 w /\ kept rel w)).
  { case_bool_decide as Hsel.
    - eapply triple_post; [by eapply clear_opaque_xattrs_triple|intros ? w [HC Hu]; split; [done|by exists false]|done|done].
    - apply triple_ret. intros w ->. split; [by apply Cut_at_refl|]. by exists b. }
  intros []. apply triple_at. intros w [HC Hk]. pose proof HC as [HTw _]. pose proof HTw as (Hw & _).
  eapply triple_bind; [apply triple_ask_eq|intros entries]. cbv beta.
  apply triple_extract with (φ := entries = Some (names_under w (Upper, rel))).
  { intros w' [-> ->]. destruct Hk as (b' & Hb' & _). unfold read_dir. unfold usum in Hb'. destruct (node_at w (Upper, rel)) as [d|]; [|done].
    change (Some (node_sum d) = Some (KDir, b')) in Hb'. unfold node_sum in Hb'. unfold node_is_dir. by injection Hb' as -> _. }
  intros ->. cbn [ok_or lift].
  eapply (triple_bind _ _ _ (fun x w' => x = names_under w (Upper, rel) /\ w' = w)); [apply triple_ret; by intros w' [-> _]|].
  intros x. apply triple_fact. intros ->.
  eapply (triple_post _ _ _ (fun _ => Pruning rel w1 [])); [|intros ? w' (_ & HC' & Hk' & Hcl)|intros w' H; exact H|intros w' H; exact H].
  2:{ split; [done|]. split; [done|]. intros q Hq Hne. apply Hcl; try done. by intros n ?%elem_of_nil. }
  eapply (triple_pre _ (Pruning rel w1 (names_under w (Upper, rel)))).
  { intros w' ->. split; [split; [apply NoDup_names_under|intros n; by apply usum_names]|]. split; [by apply Hwide|]. split; [done|].
    intros q [r ->]%under_spec Hne Hout. destruct r as [|n r]; [by rewrite app_nil_r in Hne|]. apply clean_None.
    specialize (Hout n). rewrite usum_names in Hout by done. replace (rel ++ n :: r) with ((rel ++ [n]) ++ r) in * by by rewrite <- app_assoc.
    destruct (usum w (rel ++ [n])) as [y|] eqn:E; [rewrite under_app in Hout; by specialize (Hout ltac:(done))|].
    destruct r as [|y r]; [by rewrite app_nil_r|]. apply usum_below; [done|by rewrite E|done]. }
  apply (triple_for (fun rest _ => Pruning rel w1 rest)). intros n rest []. apply triple_at. intros w2 HP.
  by apply (prune_name_triple rel w1 n rest w2 (prune_selected_directory other beyond selected fuel)).
Qed.
End Prune.
