(* ===== verification/OverlayTransfer.v ===== *)
(** * From the upper directory to the target

    The two walks together: the merged tree is the same at every moment of the
    first walk, however far it gets, and it is the same again when the second one
    has finished; when everything is selected, the target alone is the merged
    tree. *)

From Stdlib Require Import ZArith Lia.
From stdpp Require Import base list strings gmap pretty sorting.
From S2P Require Import Prelude Effects OverlayFs OverlayCore OverlayView OverlaySteps OverlayShape OverlayCopy OverlayEdit OverlayApply OverlayMerge OverlayPublish OverlayApplied OverlayPrune.
#[local] Set Warnings "-clear-no-such-hyp".
Open Scope string_scope.
Open Scope list_scope.
Open Scope effect_scope.

(** ** Upper directories that can be applied *)

(** What the operations of the overlay leave in an upper directory: ordinary
    names, whiteouts of plain names and opaque markers, the markers being files; a
    name is not both there and deleted; what is shown below an opaque directory
    is in the upper directory; and an opaque directory has its marker. *)
Record fit (s : Shape) (m : Path -> option Kind) : Prop := mkFit {
  fit_names : forall p n, is_Some (s (p ++ [n])) ->
    ordinary_name n = true \/ n = OPAQUE_NAME \/ exists v, plain_name v = true /\ n = WHITEOUT_PREFIX +:+ v;
  fit_markers : forall p n k b, s (p ++ [n]) = Some (k, b) -> is_whiteout_name n = true -> k <> KDir;
  fit_tidy : tidy s;
  fit_sealed : sealed s m;
  fit_marked : forall p k, ordinary p -> s p = Some (k, true) -> is_Some (s (p ++ [OPAQUE_NAME]));
}.

(** Names are text. *)
Definition printable (s : Shape) : Prop := forall p n, is_Some (s (p ++ [n])) -> text_name n.

(** A selection takes an opaque directory along with what is below it. *)
Definition closed (s : Shape) (selected : gset Path) : Prop :=
  forall p q, opq s p = true -> q ∈ selected -> under p q = true -> q <> p -> p ∈ selected.

(** Everything is selected. *)
Definition whole (s : Shape) (selected : gset Path) : Prop :=
  (forall p n, plain (p ++ [n]) -> is_Some (s (p ++ [n])) \/ is_Some (s (p ++ [WHITEOUT_PREFIX +:+ n])) -> p ++ [n] ∈ selected)
  /\ forall p, plain p -> is_Some (s (p ++ [OPAQUE_NAME])) -> p ∈ selected.

Section Transfer.
Context (core : OverlayCore).
Implicit Types (s u : Shape) (t m : Path -> option Kind) (p q : Path) (n : string) (w : World) (selected : gset Path).

Abbreviation Agrees := (Agrees core).

(** ** Pruning what was published *)

Section Trimmed.
Context (s u : Shape) (selected : gset Path) (m : Path -> option Kind).
Context (s_fit : fit s m) (s_closed : closed s selected) (u_trim : Trim s selected u).

Lemma trim_kind p k b : u p = Some (k, b) -> exists b', s p = Some (k, b').
Proof. intros Hp. destruct (u_trim p) as [E|[[E _]|(E & E' & _)]]; [|congruence|]; rewrite Hp in *; [eauto|]. injection E' as -> ->. eauto. Qed.

Lemma trim_None p : s p = None -> u p = None.
Proof. intros H. destruct (u p) as [[k b]|] eqn:E; [|done]. destruct (trim_kind p k b E) as [b' Hb]. congruence. Qed.

Lemma trim_opq p : opq u p = true -> opq s p = true.
Proof.
  unfold opq. rewrite !orb_true_iff, !bool_decide_eq_true. intros [[x Hx]|Hb]; [left|right].
  - destruct (s (p ++ [OPAQUE_NAME])) eqn:E; [done|]. by rewrite trim_None in Hx.
  - destruct (u p) as [[k b]|] eqn:E; [|done]. subst b. destruct (u_trim p) as [E'|[[E' _]|(_ & E' & _)]]; try congruence.
    by rewrite <- E', E.
Qed.

Lemma trim_hides p n : hides u p n = true -> hides s p n = true.
Proof.
  unfold hides. rewrite !orb_true_iff, !bool_decide_eq_true. intros [[x Hx]|Ho]; [left|right; by apply trim_opq].
  destruct (s (p ++ [WHITEOUT_PREFIX +:+ n])) eqn:E; [done|]. by rewrite trim_None in Hx.
Qed.

Lemma trim_removed p n : ordinary_name n = true -> is_Some (s (p ++ [n])) -> u (p ++ [n]) = None -> p ++ [n] ∈ selected.
Proof.
  intros Hn [x Hs] Hu. destruct (u_trim (p ++ [n])) as [E|[[_ (p' & n' & [<- <-]%app_inj_tail & H)]|(_ & E & _)]]; [congruence| |congruence].
  apply ordinary_plain_name in Hn. destruct H as [[-> _]|[(_ & v & -> & _)|[_ ?]]]; [by vm_compute in Hn|by rewrite whiteout_not_plain in Hn|done].
Qed.

Lemma trim_whiteout p n : is_Some (s (p ++ [WHITEOUT_PREFIX +:+ n])) -> plain_name n = true -> u (p ++ [WHITEOUT_PREFIX +:+ n]) = None -> p ++ [n] ∈ selected.
Proof.
  intros [x Hs] Hn Hu. destruct (u_trim (p ++ [WHITEOUT_PREFIX +:+ n])) as [E|[[_ (p' & n' & [<- <-]%app_inj_tail & H)]|(_ & E & _)]]; [congruence| |congruence].
  destruct H as [[E _]|[(_ & v & E%str_app_inj_l & ?)|[E _]]]; [by apply opaque_marker_is_not_a_whiteout in E|by subst|by rewrite whiteout_name_app in E].
Qed.

Lemma trim_marker p : is_Some (s (p ++ [OPAQUE_NAME])) -> u (p ++ [OPAQUE_NAME]) = None -> p ∈ selected.
Proof.
  intros [x Hs] Hu. destruct (u_trim (p ++ [OPAQUE_NAME])) as [E|[[_ (p' & n' & [<- <-]%app_inj_tail & H)]|(_ & E & _)]]; [congruence| |congruence].
  destruct H as [[_ ?]|[(? & _)|[E _]]]; [done|done|by vm_compute in E].
Qed.

Lemma trim_unsealed p : ordinary p -> opq s p = true -> opq u p = false -> p ∈ selected.
Proof.
  intros Ho. unfold opq. rewrite orb_true_iff, orb_false_iff, bool_decide_eq_true, bool_decide_eq_false. intros [[x Hs]|Hb] [Hu Hub].
  - apply trim_marker; [by rewrite Hs|]. by apply eq_None_not_Some.
  - destruct (s p) as [[k b]|] eqn:E; [|done]. subst b. destruct (u_trim p) as [E'|[[E' (p' & n' & -> & H)]|(_ & _ & ?)]]; [|..|done].
    + rewrite E', E in Hub. done.
    + apply ordinary_snoc in Ho as [_ Ho%ordinary_plain_name%plain_not_whiteout].
      destruct H as [[-> _]|[(_ & v & -> & _)|[_ ?]]]; [by vm_compute in Ho|by rewrite whiteout_name_app in Ho|done].
Qed.

(** Nothing opaque is left where it was selected. *)
Context (u_clean : forall q, q <> [] -> clean selected u q) (u_root : [] ∈ selected -> forall k, u [] <> Some (k, true)).

Lemma clean_opq p : ordinary p -> p ∈ selected -> opq u p = false.
Proof.
  intros Ho Hsel. unfold opq. apply orb_false_iff. split.
  - destruct (u_clean (p ++ [OPAQUE_NAME]) ltac:(by destruct p) p OPAQUE_NAME eq_refl) as (H & _ & _). rewrite H by done. done.
  - destruct (u p) as [[k []]|] eqn:E; [|done|done]. exfalso. destruct p as [|n p _] using rev_ind; [by eapply u_root|].
    apply ordinary_snoc in Ho as [_ Ho%ordinary_plain_name%plain_not_whiteout].
    destruct (u_clean (p ++ [n]) ltac:(by destruct p) p n eq_refl) as (_ & _ & H). destruct (H Ho Hsel) as [?|[? _]]; congruence.
Qed.

Lemma trim_merge t : Agrees s t m -> (forall q, ordinary q -> q <> [] -> published s selected t q) -> Agrees u t m.
Proof.
  intros HA Hpub p. induction p as [|n p IH] using rev_ind; intros Ho; [by rewrite <- HA by done|].
  pose proof Ho as [Hop Hn]%ordinary_snoc. specialize (IH Hop). pose proof (HA _ Ho) as HAn. rewrite mg_snoc, (HA p) in HAn by done.
  rewrite mg_snoc, IH. destruct (is_excluded core (p ++ [n])); [done|]. destruct (is_kdir (m p)) eqn:Ed; [|done].
  destruct (Hpub (p ++ [n]) Ho ltac:(by destruct p) p n eq_refl) as (H1 & H2 & H3).
  destruct (s (p ++ [n])) as [[k b]|] eqn:Es.
  - destruct (u (p ++ [n])) as [[k' b']|] eqn:Eu.
    + destruct (trim_kind (p ++ [n]) k' b' Eu) as [b0 E]. congruence.
    + assert (p ++ [n] ∈ selected) as Hsel by (by apply trim_removed; [|rewrite Es|]).
      rewrite <- HAn, (H1 Hsel k b eq_refl). assert (hides u p n = false) as ->; [|done]. unfold hides. apply orb_false_iff. split.
      * rewrite trim_None; [done|]. apply (fit_tidy _ _ s_fit); [by apply ordinary_plain_name|by rewrite Es].
      * destruct (opq u p) eqn:E; [|done]. assert (p ∈ selected) as Hp.
        { apply (s_closed p (p ++ [n])); [by apply trim_opq|done|apply under_app|apply not_eq_sym, snoc_ne]. }
        by rewrite clean_opq in E.
  - rewrite trim_None by done. rewrite <- HAn. destruct (hides u p n) eqn:Eh; [by rewrite trim_hides|].
    destruct (hides s p n) eqn:Eh'; [|done]. unfold hides in Eh, Eh'. apply orb_false_iff in Eh as [Ew Eo]. apply orb_true_iff in Eh' as [Ew'|Eo'].
    + apply bool_decide_eq_true in Ew'. apply bool_decide_eq_false, eq_None_not_Some in Ew. apply H2; [|done|done].
      by apply trim_whiteout; [|apply ordinary_plain_name|].
    + apply H3; [by apply trim_unsealed|done|done].
Qed.

(** What is left can be applied in its turn. *)
Lemma trim_fit : fit u m.
Proof.
  constructor.
  - intros p n [[k b] Hu]. destruct (trim_kind _ _ _ Hu) as [b' Hs]. apply (fit_names _ _ s_fit p). by rewrite Hs.
  - intros p n k b Hu. destruct (trim_kind _ _ _ Hu) as [b' Hs]. by apply (fit_markers _ _ s_fit p n k b').
  - intros p n Hn [[k b] Hu]. destruct (trim_kind _ _ _ Hu) as [b' Hs]. apply trim_None, (fit_tidy _ _ s_fit); [done|by rewrite Hs].
  - intros p r Ho Hr Hord Hm. pose proof (trim_opq p Ho) as Hos. pose proof (fit_sealed _ _ s_fit p r Hos Hr Hord Hm) as Hs.
    destruct (u (p ++ r)) eqn:Eu; [done|]. exfalso. pose proof Hord as [Hp _]%ordinary_app.
    assert (p ++ r ∈ selected) as Hsel.
    { destruct r as [|n r _] using rev_ind; [done|]. rewrite app_assoc in *. apply ordinary_snoc in Hord as [_ Hn]. by apply trim_removed. }
    rewrite clean_opq in Ho; [done|done|]. apply (s_closed p (p ++ r)); [done|done|apply under_app|]. intros E. by apply app_self_inv in E.
  - intros p k Ho Hu. destruct (u_trim p) as [E|[[E _]|(_ & E & _)]]; [|congruence|congruence]. rewrite E in Hu.
    pose proof (fit_marked _ _ s_fit p k Ho Hu) as Hs. destruct (u (p ++ [OPAQUE_NAME])) eqn:Eu; [done|]. exfalso.
    assert (opq u p = true) as Hop by (unfold opq; rewrite E, Hu; apply orb_true_r).
    rewrite clean_opq in Hop; [done|done|]. apply (trim_marker p Hs Eu).
Qed.
(** When everything was selected, nothing is left. *)
Lemma clean_whole h : whole s selected -> (forall p, is_Some (u p) -> length p <= h) ->
  (forall p n, is_Some (u (p ++ [n])) -> ordinary p) -> forall p n, u (p ++ [n]) = None.
Proof.
  intros [Hall Hop] Hh Hord. assert (forall d p n, h < length p + d -> u (p ++ [n]) = None) as H.
  2:{ intros p n. apply (H (S h)). lia. }
  induction d as [|d IH]; intros p n Hd; (destruct (u (p ++ [n])) as [[k b]|] eqn:E; [|done]); exfalso.
  { specialize (Hh (p ++ [n]) ltac:(by rewrite E)). rewrite length_app in Hh. simpl in Hh. lia. }
  pose proof (ordinary_plain p (Hord p n ltac:(by rewrite E))) as Hp. destruct (trim_kind _ _ _ E) as [b' Hs].
  destruct (u_clean (p ++ [n]) ltac:(by destruct p) p n eq_refl) as (H1 & H2 & H3).
  destruct (fit_names _ _ s_fit p n ltac:(by rewrite Hs)) as [Ho|[->|(v & Hv & ->)]].
  - apply ordinary_plain_name in Ho. destruct (H3 (plain_not_whiteout n Ho)) as [?|(_ & x & Hx)]; [|congruence|].
    + apply Hall; [by apply plain_snoc|left; by rewrite Hs].
    + rewrite IH in Hx; [by destruct Hx|]. rewrite length_app. simpl. lia.
  - rewrite H1 in E; [done|done|]. apply Hop; [done|by rewrite Hs].
  - rewrite (H2 v Hv eq_refl) in E; [done|]. apply Hall; [by apply plain_snoc|right; by rewrite Hs].
Qed.
End Trimmed.

(** ** An empty upper directory *)

Lemma bare_merge u t m : Agrees u t m -> (forall p n, u (p ++ [n]) = None) -> (forall k, u [] <> Some (k, true)) ->
  t [] = Some KDir -> (forall p n, is_Some (t (p ++ [n])) -> t p = Some KDir) ->
  forall p, ordinary p -> is_excluded core p = false -> t p = m p.
Proof.
  intros HA Hu Hflag Hroot Htree p. induction p as [|n p IH] using rev_ind; intros Ho Hx.
  - rewrite <- HA by done. unfold mg. by rewrite kv_nil, Hx.
  - pose proof Ho as [Hop Hn]%ordinary_snoc. assert (is_excluded core p = false) as Hxp.
    { destruct (is_excluded core p) eqn:E; [|done]. by rewrite (is_excluded_snoc core p n E) in Hx. }
    specialize (IH Hop Hxp). rewrite <- (HA (p ++ [n])), mg_snoc, Hx, (HA p), Hu by done.
    assert (hides u p n = false) as ->.
    { unfold hides, opq. rewrite !Hu. simpl. destruct p as [|x p _] using rev_ind; [|by rewrite Hu].
      destruct (u []) as [[k []]|] eqn:E; [|done|done]. by destruct (Hflag k). }
    destruct (is_kdir (m p)) eqn:Ed; [done|]. destruct (t (p ++ [n])) eqn:E; [|done].
    rewrite <- IH, (Htree p n) in Ed by by rewrite E. done.
Qed.
End Transfer.

(** ** The walks *)

Section Walks.
Context {O : Type} (other : O -> World -> World) (beyond : World -> FPath -> Path -> option Node).
Context (uid gid umask : Z) (sha256_hex : string -> string) (target_root : string).
Context (core : OverlayCore) (others_quiet : forall o w, other o w = w).
Implicit Types (s u : Shape) (m : Path -> option Kind) (p q : Path) (n : string) (w : World) (selected : gset Path).

Definition everywhere : Path -> Prop := fun _ => True.
Definition all_published s selected w : Prop := forall q, ordinary q -> q <> [] -> published s selected (tsum w) q.

Lemma root_shape s m w : Still core s m w -> exists b, s [] = Some (KDir, b).
Proof.
  intros (Hw & _ & Hs & _). rewrite <- Hs. unfold usum. destruct (wf_root _ Hw) as (d & -> & Hd). simpl.
  unfold node_sum, node_is_dir in *. unfold kind_is_dir in Hd. destruct (n_kind d); try done. eauto.
Qed.

Lemma apply_selected_upper_triple s m selected w0 : Still core s m w0 -> fit s m ->
  triple (fun w => w = w0) (apply_selected_upper other beyond uid gid umask sha256_hex target_root selected)
    (fun _ w => Foot core s m everywhere w0 w /\ all_published s selected w) (Foot core s m everywhere w0) (Foot core s m everywhere w0).
Proof.
  intros HS [Hn Hl Ht Hse Hmk]. destruct (root_shape s m w0 HS) as [b Hb]. unfold apply_selected_upper.
  assert (forall w, Foot core s m (below []) w0 w -> Foot core s m everywhere w0 w) as Hwide by (intros w; by apply Foot_mono).
  eapply (triple_bind _ _ _ (fun _ => Foot core s m everywhere w0)).
  { eapply triple_post; [apply (ensure_directory_triple other beyond uid gid umask core others_quiet s m w0 [] HS)| |exact Hwide|exact Hwide].
    - by destruct HS as (_ & _ & _ & _ & _ & ?).
    - by left.
    - intros ? w [HF _]. by apply Hwide. }
  intros []. eapply (triple_bind _ _ _ (fun _ => Foot core s m everywhere w0)); [by apply triple_ask|intros h].
  apply triple_at. intros w1 HF1. pose proof HF1 as [HS1 _].
  assert (forall w, Foot core s m (below []) w1 w -> Foot core s m everywhere w0 w) as Hout.
  { intros w HF. eapply Foot_trans; [exact HF1|]. by eapply Foot_mono. }
  eapply (triple_bind _ _ _ (fun _ w => Foot core s m everywhere w0 w /\ all_published s selected w)); [|intros hl; by apply triple_ret].
  eapply triple_post; [apply (apply_selected_directory_triple other beyond uid gid umask sha256_hex target_root core others_quiet s m selected Hn Ht Hse _ [] (fun _ => False) w1 ∅ b)| |exact Hout|exact Hout].
  - constructor.
  - done.
  - done.
  - done.
  - by left.
  - intros i f Hf. by rewrite lookup_empty in Hf.
  - intros hl w (HF & _ & Hpub & _). split; [by apply Hout|]. intros q Hq Hne. apply Hpub; [done|apply under_nil|done].
Qed.

Lemma prune_selected_upper_triple s m selected w0 w1 : fit s m -> Trimmed s selected w0 w1 ->
  triple (fun w => w = w1) (prune_selected_upper other beyond selected)
    (fun _ w => Trimmed s selected w0 w /\ kept selected [] w /\ forall q, q <> [] -> clean selected (usum w) q)
    (Trimmed s selected w0) (Trimmed s selected w0).
Proof.
  intros [Hn Hl Ht Hse Hmk] HT. unfold prune_selected_upper.
  eapply (triple_bind _ _ _ (fun _ w => w = w1)); [by apply triple_ask|intros h].
  assert (exists b, usum w1 [] = Some (KDir, b)) as [b Hb].
  { destruct HT as (Hw & _). unfold usum. destruct (wf_root _ Hw) as (d & -> & Hd). simpl.
    unfold node_sum, node_is_dir in *. unfold kind_is_dir in Hd. destruct (n_kind d); try done. eauto. }
  eapply triple_post; [apply (prune_selected_directory_triple other beyond others_quiet s selected w0 Hn Hl _ [] w1 b HT Hb)| | |].
  - intros ? w ([HT' _] & Hk & Hcl). split; [done|]. split; [done|]. intros q Hq. apply Hcl; [apply under_nil|done].
  - by intros w [? _].
  - by intros w [? _].
Qed.

(** ** The states of an application *)

(** Nothing is under way. *)
Definition Awaiting m w : Prop := exists s, Still core s m w /\ fit s m /\ printable s.
(** A selection is about to be applied. *)
Definition Pending (all : bool) m selected w : Prop :=
  exists s, Still core s m w /\ (fit s m /\ printable s) /\ closed s selected /\ (all = true -> whole s selected).
(** The target has the selected changes; they are being pruned. *)
Definition Transferred (all : bool) m selected w : Prop :=
  exists s w0, Still core s m w0 /\ (fit s m /\ printable s) /\ closed s selected /\ (all = true -> whole s selected)
    /\ all_published s selected w0 /\ Trimmed s selected w0 w.
(** The upper directory is gone, and the target is the merged tree. *)
Definition Gone m w : Prop :=
  (forall p, ordinary p -> is_excluded core p = false -> tsum w p = m p) /\ forall p, node_at w (Upper, p) = None.

Lemma Still_Trimmed s m selected w : Still core s m w -> Trimmed s selected w w.
Proof. intros (Hw & Ha & Hs & _ & Hr & _). split_and!; try done. intros p. left. apply Hs. Qed.

Lemma Pending_apply all m selected :
  triple (Pending all m selected) (apply_selected_upper other beyond uid gid umask sha256_hex target_root selected)
    (fun _ w => Pending all m selected w /\ Transferred all m selected w) (Pending all m selected) (Pending all m selected).
Proof.
  apply triple_at. intros w0 (s & HS & [Hf Htext] & Hc & Hall).
  assert (forall w, Foot core s m everywhere w0 w -> Pending all m selected w) as Hout by (intros w HF; exists s; split_and!; try done; apply HF).
  eapply triple_post; [by apply (apply_selected_upper_triple s m)| |exact Hout|exact Hout].
  intros ? w [HF Hpub]. split; [by apply Hout|]. exists s, w. pose proof HF as [HS' _]. split_and!; try done. by apply (Still_Trimmed s m).
Qed.

(** A selection of nothing needs no walk. *)
Lemma Pending_nothing all m w : Pending all m ∅ w -> Transferred all m ∅ w.
Proof.
  intros (s & HS & [Hf Ht] & Hc & Hall). exists s, w. pose proof (Still_Trimmed s m ∅ w HS) as HT. split_and!; try done.
Qed.

Definition all_clean selected w : Prop := kept selected [] w /\ forall q, q <> [] -> clean selected (usum w) q.

Lemma tree_below w p n : wf w -> is_Some (tsum w (p ++ [n])) -> tsum w p = Some KDir.
Proof.
  intros Hw [k Hk]. apply dir_at_tsum. unfold tsum in Hk. destruct (node_at w (Target, p ++ [n])) as [nd|] eqn:E; [|done].
  by apply (wf_above w Target p [n] nd).
Qed.

Lemma Transferred_clean all m selected w : Transferred all m selected w -> all_clean selected w ->
  Awaiting m w /\ (all = true -> forall p n, usum w (p ++ [n]) = None).
Proof.
  intros (s & w0 & HS & [Hf Htext] & Hc & Hall & Hpub & HT) [(b & Hb & Hbs) Hcl]. pose proof HT as (Hw & Ha & Ht & Hr & HTr).
  pose proof HS as (_ & _ & _ & HA & _ & Hroot).
  assert (forall q, tsum w q = tsum w0 q) as Hsum by (intros q; unfold tsum; by rewrite Ht).
  assert ([] ∈ selected -> forall k, usum w [] <> Some (k, true)) as Hflag by (intros Hsel k; rewrite Hb, Hbs by done; congruence).
  assert (fit (usum w) m) as Hf' by by apply (trim_fit s (usum w) selected m Hf Hc HTr Hcl Hflag).
  split.
  - assert (printable (usum w)) as Htext'.
    { intros p n [[k b'] Hu]. destruct (trim_kind s (usum w) selected HTr _ _ _ Hu) as [b'' Hs]. apply (Htext p). by rewrite Hs. }
    exists (usum w). split; [|done]. split; [done|]. split; [done|]. split; [done|]. split; [|split; [done|by rewrite Hsum]].
    apply (Agrees_step core (usum w) (tsum w0)); [by apply (trim_merge core s (usum w) selected m)|]. intros q _ _. right. by rewrite Hsum.
  - intros Ha'. apply (clean_whole s (usum w) selected m Hf HTr Hcl (height w)); [auto| |].
    + intros p [x Hx]. unfold usum in Hx. destruct (node_at w (Upper, p)) as [nd|] eqn:E; [|done].
      apply node_at_entry in E as (i & Hi & _). unfold height. apply max_list_elem_of_le, elem_of_app. right.
      apply list_elem_of_fmap. exists ((Upper, p), i). split; [done|by apply elem_of_map_to_list].
    + intros p n Hs. destruct Hs as [x Hx]. unfold usum in Hx. destruct (node_at w (Upper, p ++ [n])) as [nd|] eqn:E; [|done].
      destruct (wf_above w Upper p [n] nd Hw E) as (d & Hd & Hdir); [done|]. clear -Hd Hdir Hf' Hw. revert d Hd Hdir.
      induction p as [|y p IH] using rev_ind; intros d Hd Hdir; [constructor|]. apply ordinary_snoc. split.
      * destruct (wf_above w Upper p [y] d Hw Hd) as (d' & Hd' & Hdir'); [done|]. by eapply IH.
      * unfold node_is_dir, kind_is_dir in Hdir. destruct (n_kind d) eqn:Ek; try done.
        assert (usum w (p ++ [y]) = Some (KDir, opaque_xattr d)) as Hu.
        { unfold usum. rewrite Hd. simpl. unfold node_sum, node_is_dir. by rewrite Ek. }
        destruct (fit_names _ _ Hf' p y) as [?|[->|(v & _ & ->)]]; [by rewrite Hu|done| |]; exfalso.
        -- eapply (fit_markers _ _ Hf'); [exact Hu|done|done].
        -- eapply (fit_markers _ _ Hf'); [exact Hu|apply whiteout_name_app|done].
Qed.

Lemma Transferred_prune all m selected :
  triple (Transferred all m selected) (prune_selected_upper other beyond selected)
    (fun _ w => Transferred all m selected w /\ all_clean selected w) (Transferred all m selected) (Transferred all m selected).
Proof.
  apply triple_at. intros w1 (s & w0 & HS & [Hf Htext] & Hc & Hall & Hpub & HT).
  assert (forall w, Trimmed s selected w0 w -> Transferred all m selected w) as Hout by (intros w HT'; exists s, w0; by split_and!).
  eapply triple_post; [by apply (prune_selected_upper_triple s m selected w0 w1)| |exact Hout|exact Hout].
  intros ? w (HT' & Hk & Hcl). split; [by apply Hout|done].
Qed.

Lemma nothing_clean w : wf w -> all_clean ∅ w.
Proof.
  intros Hw. split.
  - destruct (wf_root _ Hw) as (d & Hd & Hdir). exists (opaque_xattr d). split; [|intros H; by apply elem_of_empty in H].
    unfold usum. rewrite Hd. simpl. unfold node_sum, node_is_dir in *. unfold kind_is_dir in Hdir. by destruct (n_kind d).
  - intros q _ p n _. split; [intros _ H; by apply elem_of_empty in H|]. split; [intros v _ _ H; by apply elem_of_empty in H|].
    intros _ H. by apply elem_of_empty in H.
Qed.

(** An empty upper directory can go. *)
Lemma Awaiting_bare m w : Awaiting m w -> (forall p n, usum w (p ++ [n]) = None) ->
  forall p, ordinary p -> is_excluded core p = false -> tsum w p = m p.
Proof.
  intros (s & HS & Hf & _) Hbare. pose proof HS as (Hw & _ & Hs & HA & _ & Hroot).
  apply (bare_merge core s (tsum w) m HA); [intros p n; by rewrite <- Hs| |done|intros p n; by apply tree_below].
  intros k Hk. destruct (fit_marked _ _ Hf [] k) as [x Hx]; [constructor|done|]. rewrite <- Hs, Hbare in Hx. done.
Qed.
End Walks.
