(* ===== verification/OverlayChanges.v ===== *)
(** * Reading the changes of an upper directory

    The walk over the upper directory meets every entry and every marker, and
    each of them is a change. *)

From Stdlib Require Import ZArith Lia.
From stdpp Require Import base list strings gmap pretty sorting.
From S2P Require Import Prelude Effects OverlayFs OverlayCore OverlayView OverlaySteps OverlayShape OverlayEdit OverlayApply OverlayMerge OverlayPublish OverlayApplied OverlayPlan OverlayPrune OverlayTransfer.
#[local] Set Warnings "-clear-no-such-hyp".
Open Scope string_scope.
Open Scope list_scope.

Section Changes.
Context (beyond : World -> FPath -> Path -> option Node) (w : World) (lower_dirs : list LowerDir).
Context (w_wf : wf w).
Implicit Types (p q : Path) (n : string).

Lemma usum_Some p : is_Some (usum w p) <-> is_Some (node_at w (Upper, p)).
Proof. unfold usum. by rewrite fmap_is_Some. Qed.

Lemma real_dir_upper p : is_real_dir beyond w (Upper, p) = true -> forall nd, node_at w (Upper, p) = Some nd -> node_is_dir nd = true.
Proof. unfold is_real_dir, lstat. intros H nd Hn. by rewrite Hn in H. Qed.

Lemma elem_of_walk_upper fuel dir e : e ∈ walk_upper beyond fuel w dir <-> exists fuel' n, fuel = S fuel'
  /\ is_Some (usum w (dir ++ [n]))
  /\ (e = (dir ++ [n], is_whiteout_name n)
      \/ is_whiteout_name n = false /\ is_real_dir beyond w (Upper, dir ++ [n]) = true /\ e ∈ walk_upper beyond fuel' w (dir ++ [n])).
Proof.
  destruct fuel as [|fuel]; cbn [walk_upper].
  { split; [by intros ?%elem_of_nil|]. by intros (? & ? & ? & _). }
  rewrite list_elem_of_In, in_flat_map. setoid_rewrite <- list_elem_of_In. setoid_rewrite (usum_names w dir); [|done]. split.
  - intros (n & Hn & He). exists fuel, n. split; [done|]. split; [done|]. cbv zeta in He.
    destruct (is_real_dir beyond w (Upper, dir ++ [n])) eqn:Ed, (is_whiteout_name n) eqn:Ew; simpl in He.
    + apply list_elem_of_singleton in He. by left.
    + apply elem_of_cons in He as [->|He]; [by left|by right].
    + apply list_elem_of_singleton in He. by left.
    + apply list_elem_of_singleton in He. by left.
  - intros (fuel' & n & [= <-] & Hn & He). exists n. split; [done|]. cbv zeta.
    destruct He as [->|(Ew & Ed & He)].
    + destruct (is_real_dir _ _ _), (is_whiteout_name n); simpl; by left.
    + rewrite Ew, Ed. simpl. by right.
Qed.

Lemma walk_upper_meets fuel dir q n : plain q -> length q < fuel -> is_Some (usum w (dir ++ q ++ [n])) ->
  (dir ++ q ++ [n], is_whiteout_name n) ∈ walk_upper beyond fuel w dir.
Proof.
  revert fuel dir. induction q as [|x q IH]; intros fuel dir Hq Hf Hs; apply elem_of_walk_upper; (destruct fuel as [|fuel]; [simpl in Hf; lia|]).
  - exists fuel, n. split; [done|]. split; [done|by left].
  - apply Forall_cons_1 in Hq as [Hx Hq]. replace (dir ++ (x :: q) ++ [n]) with ((dir ++ [x]) ++ q ++ [n]) in * by by rewrite <- app_assoc.
    destruct (proj1 (usum_Some _) Hs) as [nd Hnd].
    destruct (wf_above w Upper (dir ++ [x]) (q ++ [n]) nd w_wf Hnd) as (d & Hd & Hdir); [by destruct q|].
    exists fuel, x. split; [done|]. split; [apply usum_Some; by rewrite Hd|]. right. split; [by apply plain_not_whiteout|].
    split; [by apply is_real_dir_spec; exists d|]. apply IH; [done|simpl in Hf; lia|done].
Qed.

Lemma walk_upper_sound fuel dir q b : (q, b) ∈ walk_upper beyond fuel w dir ->
  exists r n, q = dir ++ r ++ [n] /\ b = is_whiteout_name n /\ is_Some (usum w q) /\ Forall (fun x => is_whiteout_name x = false) r.
Proof.
  revert dir. induction fuel as [|fuel IH]; intros dir; [by intros ?%elem_of_nil|].
  intros (fuel' & n & [= <-] & Hn & [[= -> ->]|(Ew & Ed & He)])%elem_of_walk_upper; [by exists [], n|].
  destruct (IH _ He) as (r & x & -> & -> & Hs & Hr). exists (n :: r), x. rewrite <- app_assoc in Hs |- *. split_and!; try done. by constructor.
Qed.

Lemma height_bound f i : w_entries w !! f = Some i -> length (snd f) <= height w.
Proof.
  intros Hi. unfold height. apply max_list_elem_of_le, elem_of_app. right. apply list_elem_of_fmap. exists (f, i).
  split; [done|by apply elem_of_map_to_list].
Qed.

Abbreviation changes := (overlay_changes beyond w lower_dirs).

Lemma elem_of_changes c : c ∈ changes <-> exists e, e ∈ walk_upper beyond (S (S (height w))) w [] /\ c ∈ change_of beyond w lower_dirs e.
Proof.
  unfold overlay_changes. destruct (wf_root _ w_wf) as (d & Hd & Hdir). rewrite (is_real_dir_spec beyond w (Upper, [])) by by exists d.
  rewrite (elem_of_Permutation_proper c _ _ (merge_sort_Permutation change_le _)). rewrite list_elem_of_In, in_flat_map.
  by setoid_rewrite <- list_elem_of_In.
Qed.

Lemma changes_meet p n c : plain p -> is_Some (usum w (p ++ [n])) ->
  c ∈ change_of beyond w lower_dirs (p ++ [n], is_whiteout_name n) -> c ∈ changes.
Proof.
  intros Hp Hs Hc. apply elem_of_changes. exists (p ++ [n], is_whiteout_name n). split; [|done].
  apply (walk_upper_meets _ [] p n); [done| |done]. apply usum_Some in Hs as [nd (i & Hi & _)%node_at_entry].
  pose proof (height_bound _ _ Hi) as H. simpl in H. rewrite length_app in H. lia.
Qed.

(** *** Names that are text *)

Context (names_text : printable (usum w)).

Lemma upper_text p : is_Some (usum w p) -> Forall text_name p.
Proof.
  induction p as [|n p IH] using rev_ind; intros Hs; [constructor|]. apply Forall_app. split; [|constructor; [by apply (names_text p)|done]].
  destruct (proj1 (usum_Some _) Hs) as [nd Hnd]. destruct (wf_above w Upper p [n] nd w_wf Hnd) as (d & Hd & _); [done|].
  apply IH, usum_Some. by rewrite Hd.
Qed.

Lemma printed_upper p : is_Some (usum w p) -> printed p = p.
Proof. intros Hs. by apply printed_text, upper_text. Qed.

Lemma printed_parent p n : is_Some (usum w (p ++ [n])) -> printed p = p.
Proof. intros [Hp _]%upper_text%Forall_app. by apply printed_text. Qed.

Lemma printed_whiteout p v : is_Some (usum w (p ++ [WHITEOUT_PREFIX +:+ v])) -> printed (p ++ [v]) = p ++ [v].
Proof.
  intros [Hp Hv]%upper_text%Forall_app. apply printed_text, Forall_app. split; [done|]. constructor; [|done].
  by apply Forall_cons in Hv as [Hv _].
Qed.

Lemma changes_entry p n nd : plain (p ++ [n]) -> node_at w (Upper, p ++ [n]) = Some nd ->
  exists c, c ∈ changes /\ ce_path c = p ++ [n] /\ ce_new_type c = Some (metadata_type nd).
Proof.
  intros [Hp Hn]%plain_snoc Hnd. pose proof (plain_not_whiteout n Hn) as Hw. eexists. split; [|split].
  - eapply (changes_meet p n); [done|apply usum_Some; by rewrite Hnd|]. rewrite Hw. cbn [change_of]. unfold lstat. rewrite Hnd. by left.
  - cbn [ce_path]. apply printed_upper, usum_Some. by rewrite Hnd.
  - done.
Qed.

Lemma changes_whiteout p v : plain p -> plain_name v = true -> is_Some (usum w (p ++ [WHITEOUT_PREFIX +:+ v])) ->
  exists c, c ∈ changes /\ ce_path c = p ++ [v] /\ ce_kind c = Deleted.
Proof.
  intros Hp Hv Hs. eexists. split; [|split].
  - eapply (changes_meet p (WHITEOUT_PREFIX +:+ v)); [done|done|]. rewrite whiteout_name_app. cbn [change_of].
    rewrite file_name_snoc, bool_decide_false by by apply opaque_marker_is_not_a_whiteout.
    rewrite whiteout_target_app, parent_snoc by by apply plain_not_empty. by left.
  - cbn [ce_path]. by apply printed_whiteout.
  - done.
Qed.

Lemma changes_opaque p : plain p -> is_Some (usum w (p ++ [OPAQUE_NAME])) -> exists c, c ∈ changes /\ ce_path c = p /\ ce_kind c = Opaque.
Proof.
  intros Hp Hs. eexists. split; [|split].
  - eapply (changes_meet p OPAQUE_NAME); [done|done|]. cbn [change_of].
    assert (is_whiteout_name OPAQUE_NAME = true) as -> by done. rewrite file_name_snoc, bool_decide_true, parent_snoc by done. by left.
  - cbn [ce_path]. by eapply printed_parent.
  - done.
Qed.

(** *** Every change is a plain path *)

Context (names_ok : forall p n, is_Some (usum w (p ++ [n])) ->
  ordinary_name n = true \/ n = OPAQUE_NAME \/ exists v, plain_name v = true /\ n = WHITEOUT_PREFIX +:+ v).
Context (markers_leaf : forall p n k b, usum w (p ++ [n]) = Some (k, b) -> is_whiteout_name n = true -> k <> KDir).

Lemma dir_not_marker p n d : node_at w (Upper, p ++ [n]) = Some d -> node_is_dir d = true -> is_whiteout_name n = false.
Proof.
  intros Hd Hdir. destruct (is_whiteout_name n) eqn:E; [|done]. exfalso. unfold node_is_dir, kind_is_dir in Hdir.
  destruct (n_kind d) eqn:Ek; try done. eapply (markers_leaf p n KDir); [|done|done]. unfold usum. rewrite Hd. simpl. unfold node_sum. by rewrite Ek.
Qed.

Lemma upper_ordinary p : is_Some (usum w p) -> (p <> [] -> is_whiteout_name (default "" (file_name p)) = false) -> ordinary p.
Proof.
  induction p as [|n p IH] using rev_ind; intros Hs Hl; [constructor|]. rewrite file_name_snoc in Hl. specialize (Hl ltac:(by destruct p)). simpl in Hl.
  apply ordinary_snoc. split.
  - destruct (proj1 (usum_Some _) Hs) as [nd Hnd]. destruct (wf_above w Upper p [n] nd w_wf Hnd) as (d & Hd & Hdir); [done|].
    apply IH; [apply usum_Some; by rewrite Hd|]. intros (p' & n' & ->)%path_snoc. rewrite file_name_snoc. by apply (dir_not_marker p' n' d).
  - destruct (names_ok p n Hs) as [Ho|[->|(v & _ & ->)]]; [done|by vm_compute in Hl|by rewrite whiteout_name_app in Hl].
Qed.

Lemma dir_ordinary p d : node_at w (Upper, p) = Some d -> node_is_dir d = true -> ordinary p.
Proof.
  intros Hd Hdir. apply upper_ordinary; [apply usum_Some; by rewrite Hd|]. intros (p' & n' & ->)%path_snoc. rewrite file_name_snoc.
  by apply (dir_not_marker p' n' d).
Qed.

Lemma parent_ordinary p n : is_Some (usum w (p ++ [n])) -> ordinary p.
Proof.
  intros Hs. destruct (proj1 (usum_Some _) Hs) as [nd Hnd]. destruct (wf_above w Upper p [n] nd w_wf Hnd) as (d & Hd & Hdir); [done|].
  by eapply dir_ordinary.
Qed.

Lemma parent_plain p n : is_Some (usum w (p ++ [n])) -> plain p.
Proof. intros H. by apply ordinary_plain, (parent_ordinary p n). Qed.

Lemma changes_plain c : c ∈ changes -> plain (ce_path c).
Proof.
  intros ([q b] & Hw & Hc)%elem_of_changes. apply walk_upper_sound in Hw as (r & n & -> & -> & Hs & _). simpl in Hs.
  pose proof (parent_plain r n Hs) as Hr. unfold change_of in Hc. cbn [app] in Hc. rewrite file_name_snoc, parent_snoc in Hc.
  destruct (names_ok r n Hs) as [Ho|[->|(v & Hv & ->)]].
  - apply ordinary_plain_name in Ho. rewrite plain_not_whiteout in Hc by done. destruct (lstat _ _ _); [|by apply elem_of_nil in Hc].
    apply list_elem_of_singleton in Hc as ->. cbn [ce_path]. rewrite printed_upper by done. by apply plain_snoc.
  - assert (is_whiteout_name OPAQUE_NAME = true) as E by done. rewrite E, bool_decide_true in Hc by done.
    apply list_elem_of_singleton in Hc as ->. cbn [ce_path]. by rewrite (printed_parent r OPAQUE_NAME).
  - rewrite whiteout_name_app, bool_decide_false in Hc by by apply opaque_marker_is_not_a_whiteout.
    rewrite whiteout_target_app in Hc by by apply plain_not_empty. apply list_elem_of_singleton in Hc as ->. cbn [ce_path]. rewrite printed_whiteout by done. by apply plain_snoc.
Qed.

Lemma groups_plain p : p ∈ concat (upper_hard_link_groups beyond w) -> plain p.
Proof.
  rewrite list_elem_of_In, in_concat. setoid_rewrite <- list_elem_of_In. intros (g & Hg & Hp). unfold upper_hard_link_groups in Hg.
  destruct (is_real_dir _ _ _); [|by apply elem_of_nil in Hg]. apply list_elem_of_filter in Hg as [_ Hg].
  apply list_elem_of_fmap in Hg as (i & -> & _). apply list_elem_of_fmap in Hp as ([q j] & -> & Hq). simpl.
  apply list_elem_of_filter in Hq as [_ Hq]. apply list_elem_of_omap in Hq as ([q' b] & Hw & E).
  destruct b; [done|]. destruct (shared_inode w q') as [k|] eqn:Es; [|done]. injection E as -> ->.
  apply walk_upper_sound in Hw as (r & n & -> & Hn & Hs & _). apply ordinary_plain, upper_ordinary; [done|]. intros _. simpl. by rewrite file_name_snoc.
Qed.

(** Without changes the upper directory is empty. *)
Lemma changes_empty : length changes = 0 -> forall p n, usum w (p ++ [n]) = None.
Proof.
  intros HN%nil_length_inv p n. destruct (usum w (p ++ [n])) eqn:E; [|done]. exfalso.
  assert (is_Some (usum w (p ++ [n]))) as Hs by by rewrite E. pose proof (parent_plain p n Hs) as Hp.
  assert (exists c, c ∈ changes) as [c Hc]; [|rewrite HN in Hc; by apply elem_of_nil in Hc].
  destruct (names_ok p n Hs) as [Ho|[->|(v & Hv & ->)]].
  - destruct (proj1 (usum_Some _) Hs) as [nd Hnd]. destruct (changes_entry p n nd) as (c & Hc & _); [|done|eauto].
    apply plain_snoc. split; [done|by apply ordinary_plain_name].
  - destruct (changes_opaque p Hp Hs) as (c & Hc & _). eauto.
  - destruct (changes_whiteout p v Hp Hv Hs) as (c & Hc & _). eauto.
Qed.

(** ** Plans *)

Section Plans.
Context (compile_globs : list string -> option (Path -> bool)) (selection : ApplySelection) (plan : ApplyPlan).
Context (planned : plan_apply compile_globs changes (upper_hard_link_groups beyond w) selection = Some (Ok plan)).

Lemma plan_plain p : p ∈ ap_paths plan -> plain p.
Proof.
  intros Hp. destruct (plan_spec _ _ _ _ _ planned) as (compiled & _ & _ & _ & Hin & _). destruct (Hin p Hp) as [_ [(c & Hc & <-)|Hg]].
  - by apply changes_plain.
  - by apply groups_plain.
Qed.

Lemma plan_closes : (forall p k, ordinary p -> usum w p = Some (k, true) -> is_Some (usum w (p ++ [OPAQUE_NAME]))) ->
  closed (usum w) (ap_paths plan).
Proof.
  intros Hmark p q Ho Hq Hu Hne. destruct (plan_spec _ _ _ _ _ planned) as (compiled & _ & _ & _ & _ & _ & Hcl).
  assert (is_Some (usum w (p ++ [OPAQUE_NAME]))) as Hs.
  { unfold opq in Ho. apply orb_true_iff in Ho as [Ho|Ho]; [by apply bool_decide_eq_true in Ho|].
    destruct (usum w p) as [[k b]|] eqn:E; [|done]. subst b. apply (Hmark p k); [|done]. unfold usum in E.
    destruct (node_at w (Upper, p)) as [d|] eqn:Ed; [|done]. simpl in E. unfold node_sum in E. injection E as _ E.
    apply andb_true_iff in E as [E _]. by eapply dir_ordinary. }
  destruct (changes_opaque p (parent_plain _ _ Hs) Hs) as (c & Hc & <- & Hk). by apply (closed_opaque _ _ _ Hcl c q).
Qed.

(** The empty glob set matches nothing. *)
Lemma plan_all : is_all selection = true -> (forall g, compile_globs [] = Some g -> forall p, g p = false) -> whole (usum w) (ap_paths plan).
Proof.
  intros Hall Hglob. destruct (plan_spec _ _ _ _ _ planned) as (compiled & Hcomp & _ & Hreq & _).
  assert (forall c, c ∈ changes -> ce_path c ∈ ap_paths plan) as Hin.
  { unfold is_all in Hall. apply andb_true_iff in Hall as [[Hp Hi]%andb_true_iff Hx]. apply bool_decide_eq_true in Hp, Hi, Hx.
    unfold compile in Hcomp. rewrite Hp, Hi, Hx in Hcomp. simpl in Hcomp. destruct (compile_globs []) as [g|] eqn:Eg; [|done]. simpl in Hcomp.
    injection Hcomp as <-. intros c Hc. apply Hreq; [done|done|]. unfold excluded. apply not_true_iff_false. intros (x & _ & Hx')%existsb_exists.
    simpl in Hx'. by rewrite (Hglob g eq_refl) in Hx'. }
  split.
  - intros p n Hpl [Hs|Hs].
    + destruct (proj1 (usum_Some _) Hs) as [nd Hnd]. destruct (changes_entry p n nd Hpl Hnd) as (c & Hc & <- & _). auto.
    + apply plain_snoc in Hpl as [Hp Hn]. destruct (changes_whiteout p n Hp Hn Hs) as (c & Hc & <- & _). auto.
  - intros p Hp Hs. destruct (changes_opaque p Hp Hs) as (c & Hc & <- & _). auto.
Qed.
End Plans.
End Changes.
