(* ===== verification/OverlayCommit.v ===== *)
(** * The application transaction

    [apply_overlay_selected] with its ledger: an application is recorded as
    prepared before the target changes, as applied before the upper directory is
    pruned, and as committed at the end; whoever comes next finishes what a crash
    interrupted.  [discard_overlay] drops the upper directory.  An overlay has its
    record in [overlay.json] and its applications in [apply-ledger.json]; both
    are replaced atomically. *)

From Stdlib Require Import ZArith.
From stdpp Require Import base list strings gmap pretty sorting.
From S2P Require Import Prelude Effects OverlayFs OverlayCore OverlayApply.
Open Scope string_scope.
Open Scope list_scope.
Open Scope effect_scope.

(** ** Records *)

Inductive OverlayState := Active | Staged | Applied | Discarded.
#[global] Instance OverlayState_eq_dec : EqDecision OverlayState.
Proof. solve_decision. Defined.

(** The directories of an overlay are the areas of [World]; a Jujutsu upper
    directory is kept under version control besides. *)
Inductive OverlayUpper := Directory | Jujutsu (store_path workspace : string).

Record OverlayRecord := mkOverlayRecord {
  or_id : string;
  or_generation : Z;
  or_target : string;
  or_upper : OverlayUpper;
  or_merged_in_stage : bool;       (* merged_dir.starts_with(stage_dir) *)
  or_protect_target : bool;
  or_state : OverlayState;
}.
Definition set_state (st : OverlayState) (r : OverlayRecord) : OverlayRecord :=
  mkOverlayRecord (or_id r) (or_generation r) (or_target r) (or_upper r) (or_merged_in_stage r) (or_protect_target r) st.

Inductive ApplyRecordState := Prepared | TargetApplied | Committed.
#[global] Instance ApplyRecordState_eq_dec : EqDecision ApplyRecordState.
Proof. solve_decision. Defined.

Record ApplyRecord := mkApplyRecord {
  ar_schema_version : Z;
  ar_apply_id : string;
  ar_created_at_unix_ms : Z;
  ar_overlay_id : string;
  ar_overlay_generation : Z;
  ar_target : string;
  ar_selection : ApplySelection;
  ar_changes : list ChangeEntry;
  ar_planned_paths : list Path;
  ar_preimages : list PathPreimage;
  ar_state : ApplyRecordState;
  ar_remaining_changes : nat;
}.
Definition set_apply_state (state : ApplyRecordState) (remaining : option nat) (r : ApplyRecord) : ApplyRecord :=
  mkApplyRecord (ar_schema_version r) (ar_apply_id r) (ar_created_at_unix_ms r) (ar_overlay_id r) (ar_overlay_generation r)
    (ar_target r) (ar_selection r) (ar_changes r) (ar_planned_paths r) (ar_preimages r) state
    (default (ar_remaining_changes r) remaining).

Definition APPLY_LEDGER_SCHEMA_VERSION : Z := 1.

(** [apply-ledger.json]: absent, not a ledger, or a ledger. *)
Inductive LedgerFile := LedgerMissing | LedgerUnreadable | Ledger (schema_version : Z) (records : list ApplyRecord).

Record ApplyOutcome := mkOutcome { ao_apply_id : string; ao_applied : list ChangeEntry; ao_remaining : list ChangeEntry }.

(** A stage: its directories, its two files, the record in memory, and the
    number of entries of the placeholder for the mount. *)
Record Stage := mkStage {
  sg_world : World;
  sg_ledger : LedgerFile;
  sg_meta : option OverlayRecord;
  sg_record : OverlayRecord;
  sg_merged : option nat;
}.
Definition set_world (w : World) (g : Stage) : Stage := mkStage w (sg_ledger g) (sg_meta g) (sg_record g) (sg_merged g).
Definition set_ledger (l : LedgerFile) (g : Stage) : Stage := mkStage (sg_world g) l (sg_meta g) (sg_record g) (sg_merged g).
Definition set_meta (r : OverlayRecord) (g : Stage) : Stage := mkStage (sg_world g) (sg_ledger g) (Some r) (sg_record g) (sg_merged g).
Definition set_record (r : OverlayRecord) (g : Stage) : Stage := mkStage (sg_world g) (sg_ledger g) (sg_meta g) r (sg_merged g).
Definition set_merged (n : option nat) (g : Stage) : Stage := mkStage (sg_world g) (sg_ledger g) (sg_meta g) (sg_record g) n.

(** What the next process finds: the record of [overlay.json]. *)
Definition load_overlay_record (g : Stage) : result OverlayError OverlayRecord := ok_or (sg_meta g) MetaError.
Definition restart (g : Stage) : Stage := match sg_meta g with Some r => set_record r g | None => g end.

Section Commit.
Context {O : Type} (other : O -> World -> World) (beyond : World -> FPath -> Path -> option Node).
Context (uid gid umask : Z) (sha256_hex : string -> string) (target_root : string).
(** The glob sets of the [globset] crate, and the snapshot of a Jujutsu store. *)
Context (compile_globs : list string -> option (Path -> bool)).
Context (snapshot_jujutsu_upper : string -> string -> M World O Z unit).

Abbreviation St A := (M Stage O OverlayError A).

Definition other_stage (o : O) (g : Stage) : Stage := set_world (other o (sg_world g)) g.

(** [?] on an [io::Result]. *)
Definition io_as {A} (err : Z -> OverlayError) (c : M World O Z A) : St A := fun envs g =>
  match c envs (sg_world g) with
  | (Crashed, w) => (Crashed, set_world w g)
  | (Done (Ok a) rest, w) => (Done (Ok a) rest, set_world w g)
  | (Done (Err e) rest, w) => (Done (Err (err e)) rest, set_world w g)
  end.
Definition io {A} (c : M World O Z A) : St A := io_as IoError c.
Definition in_world {A} (f : World -> A) : St A := ask (fun g => f (sg_world g)).

(** [atomic_write] of a file of the stage. *)
Definition persist (f : Stage -> Stage) : St unit := effect other_stage (fun _ => PersistError) (fun _ g => (Ok tt, f g)).

(** ** The ledger *)

Definition load_apply_records (g : Stage) : result OverlayError (list ApplyRecord) :=
  match sg_ledger g with
  | LedgerMissing => Ok []
  | LedgerUnreadable => Err MetaError
  | Ledger v records => if (v =? APPLY_LEDGER_SCHEMA_VERSION)%Z then Ok records else Err MetaError
  end.

Definition read_records : St (list ApplyRecord) := let! r := ask load_apply_records in lift r.

Definition append_apply_record (apply : ApplyRecord) : St unit :=
  let! records := read_records in
  persist (set_ledger (Ledger APPLY_LEDGER_SCHEMA_VERSION (records ++ [apply]))).

(** [iter_mut().find]: the first record with this id. *)
Fixpoint update_first (apply_id : string) (f : ApplyRecord -> ApplyRecord) (records : list ApplyRecord) : option (list ApplyRecord) :=
  match records with
  | [] => None
  | r :: rest => if bool_decide (ar_apply_id r = apply_id) then Some (f r :: rest) else cons r <$> update_first apply_id f rest
  end.

Definition update_apply_state (apply_id : string) (state : ApplyRecordState) (remaining : option nat) : St unit :=
  let! records := read_records in
  let! records := lift (ok_or (update_first apply_id (set_apply_state state remaining) records) PersistError) in
  persist (set_ledger (Ledger APPLY_LEDGER_SCHEMA_VERSION records)).

Definition mark_apply_target_applied (apply_id : string) : St unit := update_apply_state apply_id TargetApplied None.
Definition mark_apply_committed (apply_id : string) (remaining : nat) : St unit :=
  update_apply_state apply_id Committed (Some remaining).

Definition write_overlay_record : St unit := persist (fun g => set_meta (sg_record g) g).

(** ** Preimages *)

Definition area_layer (w : World) (a : Area) : Layer :=
  mkLayer (fun p => (fun n => mkStat n 0 0 1) <$> lstat beyond w (a, p))
    (fun p => existsb (fun k => match node_at w (a, take k p) with Some n => leaf_kind (n_kind n) | None => false end) (seq 0 (length p)))
    (fun p => read_dir w (a, p)) (height w).

(** [BTreeSet] yields paths in the order of their components. *)
Fixpoint path_before (p q : Path) : bool :=
  match p, q with
  | [], _ => true
  | _ :: _, [] => false
  | a :: p, b :: q =>
      match String.compare a b with Lt => true | Gt => false | Eq => path_before p q end
  end.
Definition path_order (p q : Path) : Prop := path_before p q = true.
#[local] Instance path_order_dec p q : Decision (path_order p q).
Proof. unfold path_order. apply _. Defined.
Definition btree (s : gset Path) : list Path := merge_sort path_order (elements s).

Definition map_io {A} (r : result Z A) : result OverlayError A := match r with Ok a => Ok a | Err e => Err (IoError e) end.

Definition prepare_apply_preimages (w : World) (selected : gset Path) : result OverlayError (list PathPreimage) :=
  let complete := preimage_journal_is_complete w in
  let? preimages := map_io (load_preimages w) in
  let journal : gmap Path PathPreimage := list_to_map ((fun p => (pi_path p, p)) <$> reverse preimages) in
  collect_results (fun path =>
    match journal !! path with
    | Some preimage => Ok preimage
    | None =>
        if (complete : bool) then Err InvalidState else
        let? state := map_io (fingerprint_at sha256_hex (area_layer w Target) path) in
        Ok (mkPreimage path state)
    end) (btree selected).

Definition recovery_fingerprint_matches (current expected : PathFingerprint) : bool :=
  if bool_decide (current = expected) then true else
  match current, expected with
  | FpDirectory mode uid gid _ _, FpDirectory mode' uid' gid' _ _ => ((mode =? mode') && (uid =? uid') && (gid =? gid'))%Z
  | _, _ => false
  end.

Definition desired_fingerprint (w : World) (path : Path) (changes : list ChangeEntry)
    : result OverlayError (option PathFingerprint) :=
  match list_find (fun change => ce_path change = path) changes with
  | None => Ok None
  | Some (_, change) =>
      if bool_decide (ce_kind change = Deleted) then Ok (Some FpAbsent) else
      let? f := map_io (fingerprint_at sha256_hex (area_layer w Upper) path) in Ok (Some f)
  end.

Definition validate_preimage (w : World) (changes : list ChangeEntry) (recovering : bool) (preimage : PathPreimage)
    : result OverlayError unit :=
  let path := pi_path preimage in
  let? current := map_io (fingerprint_at sha256_hex (area_layer w Target) path) in
  if bool_decide (current = pi_state preimage) then Ok tt else
  if negb recovering then Err ApplyError else
  let? desired := desired_fingerprint w path changes in
  match desired with
  | Some desired => if recovery_fingerprint_matches current desired then Ok tt else Err ApplyError
  | None => Err ApplyError
  end.
Definition validate_target_preimages (w : World) (preimages : list PathPreimage) (changes : list ChangeEntry) (recovering : bool)
    : result OverlayError unit :=
  fold_result (fun preimage _ => validate_preimage w changes recovering preimage) preimages tt.

(** ** The steps *)

Definition plan_overlay_apply (w : World) (lower_dirs : list LowerDir) (selection : ApplySelection) : result OverlayError ApplyPlan :=
  default (Err Unfinished) (plan_apply compile_globs (overlay_changes beyond w lower_dirs) (upper_hard_link_groups beyond w) selection).

Definition apply_prepared_target (selected : gset Path) (preimages : list PathPreimage) (changes : list ChangeEntry) (recovering : bool)
    : St unit :=
  let! valid := in_world (fun w => validate_target_preimages w preimages changes recovering) in
  lift valid ;;
  let! upper := in_world (fun w => is_real_dir beyond w (Upper, [])) in
  if upper && negb (bool_decide (selected = ∅))
  then io (apply_selected_upper other beyond uid gid umask sha256_hex target_root selected) else ret tt.

Definition clear_path (f : FPath) : St unit :=
  let! present := in_world (fun w => path_exists beyond w f) in
  if (present : bool) then io (remove_path other beyond f) else ret tt.

(** [fs::remove_dir] of the placeholder, where an absent one or one with
    entries is left alone. *)
Definition remove_merged : St unit :=
  let! r := attempt (effect other_stage (fun e => IoError (fault e)) (fun _ g =>
    match sg_merged g with
    | None => (Err (IoError ENOENT), g)
    | Some 0 => (Ok tt, set_merged None g)
    | Some (S _) => (Err (IoError ENOTEMPTY), g)
    end)) in
  match r with
  | Ok _ => ret tt
  | Err e => if bool_decide (e = IoError ENOENT \/ e = IoError ENOTEMPTY) then ret tt else throw e
  end.

Definition cleanup_terminal_overlay_data : St unit :=
  let! record := ask sg_record in
  (match or_upper record with
   | Directory => clear_path (Upper, []) ;; clear_path (Work, [])
   | Jujutsu _ _ => clear_path (Upper, [])
   end) ;;
  if or_merged_in_stage record then remove_merged else ret tt.

Definition snapshot_upper : St unit :=
  let! record := ask sg_record in
  match or_upper record with
  | Directory => ret tt
  | Jujutsu store_path workspace => io_as (fun _ => FinalizeError) (snapshot_jujutsu_upper store_path workspace)
  end.

Definition complete_target_applied (lower_dirs : list LowerDir) (selected : gset Path) : St (list ChangeEntry) :=
  let! upper := in_world (fun w => is_real_dir beyond w (Upper, [])) in
  (if upper && negb (bool_decide (selected = ∅)) then io (prune_selected_upper other beyond selected) else ret tt) ;;
  snapshot_upper ;;
  let! remaining := in_world (fun w => overlay_changes beyond w lower_dirs) in
  (if bool_decide (length remaining = 0) then
     cleanup_terminal_overlay_data ;;
     modify (fun g => set_record (set_state Applied (sg_record g)) g)
   else modify (fun g => set_record (set_state Staged (sg_record g)) g)) ;;
  write_overlay_record ;;
  ret remaining.

Definition consume_applied_preimages (selected : gset Path) : St unit := io (remove_preimages other sha256_hex (btree selected)).

(** One pending application. *)
Definition recover_apply (lower_dirs : list LowerDir) (apply : ApplyRecord) : St string :=
  let! record := ask sg_record in
  if negb (bool_decide (ar_overlay_id apply = or_id record)) || negb (ar_overlay_generation apply =? or_generation record)%Z
     || negb (bool_decide (ar_target apply = or_target record))
  then throw InvalidState else
  let! paths := lift (collect_results normalize_selection_path (ar_planned_paths apply)) in
  let selected : gset Path := list_to_set paths in
  if bool_decide (selected = ∅) && negb (bool_decide (length (ar_changes apply) = 0)) then throw InvalidState else
  (if bool_decide (ar_state apply = Prepared) then
     apply_prepared_target selected (ar_preimages apply) (ar_changes apply) true ;;
     mark_apply_target_applied (ar_apply_id apply)
   else ret tt) ;;
  let! remaining := complete_target_applied lower_dirs selected in
  consume_applied_preimages selected ;;
  mark_apply_committed (ar_apply_id apply) (length remaining) ;;
  ret (ar_apply_id apply).

Definition recover_pending_applies_locked (lower_dirs : list LowerDir) : St (list string) :=
  let! records := read_records in
  for_each (filter (fun apply => ar_state apply <> Committed) records) (fun apply recovered =>
    let! id := recover_apply lower_dirs apply in
    ret (recovered ++ [id])) [].

(** The lock file of the target: a call that can fail and changes nothing here. *)
Definition acquire_target_lock : St unit := io (sys other (fun w => (Ok tt, w))).

Definition apply_overlay_selected (lower_dirs : list LowerDir) (selection : ApplySelection) (apply_id : string) (now : Z)
    : St ApplyOutcome :=
  let! record := ask sg_record in
  if or_protect_target record then throw ApplyError else
  acquire_target_lock ;;
  recover_pending_applies_locked lower_dirs ;;
  let! record := ask sg_record in
  match or_state record with
  | Applied => if is_all selection then ret (mkOutcome "" [] []) else throw InvalidState
  | Discarded => throw InvalidState
  | Active | Staged =>
      let! plan := in_world (fun w => plan_overlay_apply w lower_dirs selection) in
      let! plan := lift plan in
      let! preimages := in_world (fun w => prepare_apply_preimages w (ap_paths plan)) in
      let! preimages := lift preimages in
      let! valid := in_world (fun w => validate_target_preimages w preimages (ap_selected plan) false) in
      lift valid ;;
      append_apply_record (mkApplyRecord APPLY_LEDGER_SCHEMA_VERSION apply_id now (or_id record) (or_generation record)
        (or_target record) selection (ap_selected plan) (btree (ap_paths plan)) preimages Prepared 0) ;;
      apply_prepared_target (ap_paths plan) preimages (ap_selected plan) false ;;
      mark_apply_target_applied apply_id ;;
      let! remaining := complete_target_applied lower_dirs (ap_paths plan) in
      consume_applied_preimages (ap_paths plan) ;;
      mark_apply_committed apply_id (length remaining) ;;
      ret (mkOutcome apply_id (ap_selected plan) remaining)
  end.

Definition apply_overlay (apply_id : string) (now : Z) : St unit :=
  apply_overlay_selected [TargetDir] (mkSelection [] [] []) apply_id now ;;
  ret tt.

Definition discard_overlay : St unit :=
  let! record := ask sg_record in
  match or_state record with
  | Discarded => ret tt
  | Applied => throw InvalidState
  | Active | Staged =>
      (match or_upper record with
       | Directory => ret tt
       | Jujutsu store_path workspace =>
           clear_path (Upper, []) ;;
           io_as (fun _ => FinalizeError) (snapshot_jujutsu_upper store_path workspace) ;;
           clear_path (Upper, [])
       end) ;;
      cleanup_terminal_overlay_data ;;
      modify (fun g => set_record (set_state Discarded (sg_record g)) g) ;;
      write_overlay_record
  end.
End Commit.
