(* ===== verification/OverlayRecovery.v ===== *)
(** * Applications that are interrupted

    Whatever happens during an application (a call fails, its answer is lost, the
    process dies between any two calls), what the next process finds is a stage
    from which the application can be finished, with the same merged tree. *)

From Stdlib Require Import ZArith Lia.
From stdpp Require Import base list strings gmap pretty sorting.
From S2P Require Import Prelude Effects OverlayFs OverlayCore OverlayView OverlaySteps OverlayShape OverlayCopy OverlayEdit OverlayApply OverlayMerge OverlayPublish OverlayApplied OverlayPlan OverlayPrune OverlayTransfer OverlayChanges OverlayCommit.
#[local] Set Warnings "-clear-no-such-hyp".
Open Scope string_scope.
Open Scope list_scope.
Open Scope effect_scope.

(** ** Triples on stages *)

Section StageTriples.
Context {O : Type} (other : O -> World -> World) (others_quiet : forall o w, other o w = w).

Lemma triple_stage_at {A} (P : Stage -> Prop) (c : M Stage O OverlayError A) Q F C :
  (forall g0, P g0 -> triple (fun g => g = g0) c Q F C) -> triple P c Q F C.
Proof. intros H envs g Hg. by apply (H g Hg). Qed.

Lemma triple_bind_assoc {A B C'} (P : Stage -> Prop) (a : M Stage O OverlayError A) (f : A -> M Stage O OverlayError B)
    (k : B -> M Stage O OverlayError C') Q F C :
  triple P (bind (bind a f) k) Q F C -> triple P (bind a (fun x => bind (f x) k)) Q F C.
Proof.
  intros H envs g Hg. specialize (H envs g Hg). unfold bind in *. by destruct (a envs g) as [[|[x|e] rest] g'].
Qed.

Lemma triple_ask_stage {A} (P : Stage -> Prop) (f : Stage -> A) F C :
  triple P (ask (O:=O) (E:=OverlayError) f) (fun a g => P g /\ a = f g) F C.
Proof. by apply triple_ask. Qed.

Lemma triple_lift_stage {A} (P : Stage -> Prop) (r : result OverlayError A) (F C : Stage -> Prop) :
  (forall g, P g -> F g) -> triple P (lift (O:=O) r) (fun a g => P g /\ r = Ok a) F C.
Proof. intros HF. destruct r; [by apply triple_ret|by apply triple_throw]. Qed.

Lemma triple_io_as {A} (err : Z -> OverlayError) (c : M World O Z A) g0 Q F C :
  triple (fun w => w = sg_world g0) c Q F C ->
  triple (fun g => g = g0) (io_as err c) (fun a g => exists w, g = set_world w g0 /\ Q a w)
    (fun g => exists w, g = set_world w g0 /\ F w) (fun g => exists w, g = set_world w g0 /\ C w).
Proof.
  intros H envs g ->. unfold io_as. specialize (H envs (sg_world g0) eq_refl).
  destruct (c envs (sg_world g0)) as [[|[a|e] rest] w]; eauto.
Qed.

Lemma triple_persist f g0 :
  triple (fun g => g = g0) (persist other f) (fun _ g => g = f g0) (fun g => g = g0 \/ g = f g0) (fun g => g = g0).
Proof.
  unfold persist. apply triple_effect.
  - intros o g ->. unfold other_stage. rewrite others_quiet. by destruct g0.
  - by left.
  - done.
  - intros _ g ->. split; [done|by right].
Qed.
End StageTriples.

Section Recovery.
Context {O : Type} (other : O -> World -> World) (beyond : World -> FPath -> Path -> option Node).
Context (uid gid umask : Z) (sha256_hex : string -> string) (target_root : string).
Context (compile_globs : list string -> option (Path -> bool)) (snapshot_jujutsu_upper : string -> string -> M World O Z unit).
Context (core : OverlayCore) (others_quiet : forall o w, other o w = w).

(** The identity of the overlay, and what it shows over its target. *)
Context (id : string) (generation : Z) (target : string) (m : Path -> option Kind).
Implicit Types (g : Stage) (w : World) (r : ApplyRecord) (records finished : list ApplyRecord) (selected : gset Path) (all : bool).

Abbreviation St A := (M Stage O OverlayError A).
Abbreviation Awaiting := (Awaiting core m).
Abbreviation Gone := (Gone core m).

(** ** The invariant *)

Definition good_record w (record : OverlayRecord) : Prop :=
  or_id record = id /\ or_generation record = generation /\ or_target record = target /\ or_upper record = Directory
  /\ or_state record <> Discarded /\ (or_state record = Applied -> Gone w).

Definition Common g : Prop :=
  good_record (sg_world g) (sg_record g) /\ forall record, sg_meta g = Some record -> good_record (sg_world g) record.

Definition committed r : Prop := ar_state r = Committed.

(** An application of this overlay that is not committed, the last one. *)
Definition in_ledger finished r selected g : Prop :=
  load_apply_records g = Ok (finished ++ [r]) /\ Forall committed finished /\ (ar_apply_id r ∉ (ar_apply_id <$> finished))
  /\ ar_overlay_id r = id /\ ar_overlay_generation r = generation /\ ar_target r = target
  /\ exists paths, collect_results normalize_selection_path (ar_planned_paths r) = Ok paths /\ list_to_set paths = selected.

(** The record says that everything was applied. *)
Definition applied g : Prop :=
  or_state (sg_record g) = Applied /\ forall record, sg_meta g = Some record -> or_state record = Applied.

Definition Idle records g : Prop :=
  Common g /\ load_apply_records g = Ok records /\ Forall committed records
  /\ (Awaiting (sg_world g) \/ (Gone (sg_world g) /\ applied g)).
Definition AtPrepared all finished r selected g : Prop :=
  Common g /\ in_ledger finished r selected g /\ ar_state r = Prepared /\ Pending core all m selected (sg_world g).
Definition AtApplied all finished r selected g : Prop :=
  Common g /\ in_ledger finished r selected g /\ ar_state r = TargetApplied
  /\ (Transferred core all m selected (sg_world g) \/ Gone (sg_world g)).

Definition Sound g : Prop :=
  (exists records, Idle records g)
  \/ (exists all finished r selected, AtPrepared all finished r selected g)
  \/ (exists all finished r selected, AtApplied all finished r selected g).

Lemma Idle_Sound records g : Idle records g -> Sound g.
Proof. intros H. left. eauto. Qed.
Lemma AtPrepared_Sound all finished r selected g : AtPrepared all finished r selected g -> Sound g.
Proof. intros H. right. left. eauto. Qed.
Lemma AtApplied_Sound all finished r selected g : AtApplied all finished r selected g -> Sound g.
Proof. intros H. right. right. eauto. Qed.
Hint Resolve Idle_Sound AtPrepared_Sound AtApplied_Sound : core.

Lemma restart_Sound g : Sound g -> Sound (restart g).
Proof.
  unfold restart. destruct (sg_meta g) as [record|] eqn:E; [|done].
  assert (Common g -> Common (set_record record g)) as HC.
  { intros [_ Hm]. split; [by apply Hm|]. simpl. rewrite E. intros x [= <-]. by apply Hm. }
  intros [(rs & H1 & H2)|[(all & f & r & sel & H1 & H2)|(all & f & r & sel & H1 & H2)]]; [left|right; left|right; right].
  - exists rs. split; [auto|]. destruct H2 as (H2 & H3 & H4). split_and!; try done.
    destruct H4 as [?|[? [Ha Hm]]]; [by left|right]. split; [done|]. split; [by apply Hm|]. simpl. rewrite E. intros x [= <-]. by apply Hm.
  - exists all, f, r, sel. split; [auto|done].
  - exists all, f, r, sel. split; [auto|done].
Qed.

(** *** The ledger *)

Lemma update_first_last f finished r : ar_apply_id r ∉ (ar_apply_id <$> finished) ->
  update_first (ar_apply_id r) f (finished ++ [r]) = Some (finished ++ [f r]).
Proof.
  induction finished as [|x l IH]; intros Hn; simpl; [by rewrite bool_decide_true|]. rewrite fmap_cons, not_elem_of_cons in Hn.
  destruct Hn as [H1 H2]. rewrite bool_decide_false by congruence. by rewrite IH.
Qed.

Lemma update_apply_state_triple finished r selected state n g0 : in_ledger finished r selected g0 ->
  let g1 := set_ledger (Ledger APPLY_LEDGER_SCHEMA_VERSION (finished ++ [set_apply_state state n r])) g0 in
  triple (fun g => g = g0) (update_apply_state other (ar_apply_id r) state n) (fun _ g => g = g1)
    (fun g => g = g0 \/ g = g1) (fun g => g = g0).
Proof.
  intros (Hl & _ & Hn & _) g1. unfold update_apply_state, read_records.
  eapply (triple_bind _ _ _ (fun rs g => rs = finished ++ [r] /\ g = g0)).
  { eapply triple_bind; [apply triple_ask_stage|intros x]. cbv beta. apply triple_extract with (φ := x = Ok (finished ++ [r])).
    - intros g [-> ->]. done.
    - intros ->. apply triple_ret. by intros g [-> _]. }
  intros rs. apply triple_fact. intros ->. rewrite update_first_last by done. cbn [ok_or lift].
  eapply (triple_bind _ _ _ (fun rs g => rs = finished ++ [set_apply_state state n r] /\ g = g0)); [by apply triple_ret|].
  intros rs. apply triple_fact. intros ->. by apply triple_persist.
Qed.

Lemma in_ledger_update finished r selected state n g : in_ledger finished r selected g ->
  in_ledger finished (set_apply_state state n r) selected (set_ledger (Ledger APPLY_LEDGER_SCHEMA_VERSION (finished ++ [set_apply_state state n r])) g).
Proof. intros (Hl & H). done. Qed.

(** *** Changes of the world *)

Lemma good_record_world w w' record : good_record w record -> (Gone w -> Gone w') -> good_record w' record.
Proof. intros (H1 & H2 & H3 & H4 & H5 & H6) H. split_and!; auto. Qed.

Lemma Common_world g w : Common g -> (Gone (sg_world g) -> Gone w) -> Common (set_world w g).
Proof.
  intros [H1 H2] HG. split; [by eapply good_record_world|]. intros record Hr. eapply good_record_world; [by apply H2|done].
Qed.

(** While there is an upper directory, nobody says that it was applied. *)
Lemma Common_upper g w : Common g -> ~ Gone (sg_world g) -> Common (set_world w g).
Proof. intros HC HG. apply Common_world; [done|]. by intros ?. Qed.

Lemma upper_not_gone w : wf w -> ~ Gone w.
Proof. intros Hw [_ HN]. destruct (wf_root _ Hw) as (d & Hd & _). specialize (HN []). congruence. Qed.

Lemma Pending_wf all selected w : Pending core all m selected w -> wf w.
Proof. intros (s & (Hw & _) & _). done. Qed.
Lemma Transferred_wf all selected w : Transferred core all m selected w -> wf w.
Proof. intros (s & w0 & _ & _ & _ & _ & _ & (Hw & _)). done. Qed.
Lemma Awaiting_wf w : Awaiting w -> wf w.
Proof. intros (s & (Hw & _) & _). done. Qed.

Lemma upper_real w : wf w -> is_real_dir beyond w (Upper, []) = true.
Proof. intros Hw. destruct (wf_root _ Hw) as (d & Hd & Hdir). apply is_real_dir_spec. by exists d. Qed.
Lemma gone_unreal w : Gone w -> is_real_dir beyond w (Upper, []) = false.
Proof. intros [_ HN]. unfold is_real_dir, lstat. by rewrite HN. Qed.

(** ** The target *)

Lemma apply_prepared_target_triple all finished r selected preimages changes recovering :
  triple (AtPrepared all finished r selected)
    (apply_prepared_target other beyond uid gid umask sha256_hex target_root selected preimages changes recovering)
    (fun _ g => Common g /\ in_ledger finished r selected g /\ ar_state r = Prepared
       /\ Pending core all m selected (sg_world g) /\ Transferred core all m selected (sg_world g)) Sound Sound.
Proof.
  apply triple_stage_at. intros g0 (HC & HL & Hr & HP). unfold apply_prepared_target, in_world.
  assert (Sound g0) as HS0 by (eapply AtPrepared_Sound; by split_and!).
  assert (forall w, Pending core all m selected w -> AtPrepared all finished r selected (set_world w g0)) as Hout.
  { intros w Hw. split; [|by split_and!]. apply Common_upper; [done|]. eapply upper_not_gone, Pending_wf, HP. }
  eapply triple_bind; [apply triple_ask_stage|intros valid]. cbv beta.
  eapply (triple_bind _ _ _ (fun _ g => g = g0)).
  { eapply (triple_pre _ (fun g => g = g0)); [by intros g [-> _]|]. eapply triple_post; [apply triple_lift_stage| | |].
    - intros g ->. exact HS0.
    - by intros a g [-> _].
    - done.
    - intros g H. exact H. }
  intros []. eapply triple_bind; [apply triple_ask_stage|intros upper]. cbv beta.
  apply triple_extract with (φ := upper = true). { intros g [-> ->]. eapply upper_real, Pending_wf, HP. }
  intros ->. eapply (triple_pre _ (fun g => g = g0)); [by intros g [-> _]|]. case_bool_decide as Hsel; cbn [andb negb].
  - subst selected. apply triple_ret. intros g ->. split_and!; try done. by apply Pending_nothing.
  - eapply triple_post; [apply triple_io_as; eapply (triple_pre _ (Pending core all m selected)); [by intros w ->|by apply Pending_apply]| | |].
    + intros ? g (w & -> & HPw & HTw). destruct (Hout w HPw) as (? & ? & ? & ?). by split_and!.
    + intros g (w & -> & HPw). eapply AtPrepared_Sound. by apply Hout.
    + intros g (w & -> & HPw). eapply AtPrepared_Sound. by apply Hout.
Qed.

Lemma mark_target_applied_triple all finished r selected :
  triple (fun g => Common g /\ in_ledger finished r selected g /\ ar_state r = Prepared
       /\ Pending core all m selected (sg_world g) /\ Transferred core all m selected (sg_world g))
    (mark_apply_target_applied other (ar_apply_id r))
    (fun _ => AtApplied all finished (set_apply_state TargetApplied None r) selected) Sound Sound.
Proof.
  apply triple_stage_at. intros g0 (HC & HL & Hr & HP & HT). unfold mark_apply_target_applied.
  assert (Sound g0) as HS0 by (eapply AtPrepared_Sound; by split_and!).
  set (g1 := set_ledger (Ledger APPLY_LEDGER_SCHEMA_VERSION (finished ++ [set_apply_state TargetApplied None r])) g0).
  assert (AtApplied all finished (set_apply_state TargetApplied None r) selected g1) as H1.
  { split; [done|]. split; [by apply in_ledger_update|]. split; [done|by left]. }
  eapply triple_post; [by eapply update_apply_state_triple|intros ? g ->; exact H1| |by intros g ->].
  intros g [->| ->]; [done|]. eapply AtApplied_Sound, H1.
Qed.

(** ** Clearing what is left *)

Definition bare w : Prop := forall p n, usum w (p ++ [n]) = None.

(** Deleting elsewhere. *)
Lemma Gone_frame w w' : Gone w -> (forall f, fst f <> Work -> node_at w' f = node_at w f) -> Gone w'.
Proof.
  intros [Ht HN] Hf. split; [|intros p; by rewrite Hf]. intros p Ho Hx. unfold tsum. rewrite Hf by done. by apply Ht.
Qed.

Lemma node_at_delete w (f g : FPath) : g <> f -> node_at (set_entries (delete f) w) g = node_at w g.
Proof. intros H. unfold node_at. simpl. by rewrite lookup_delete_ne. Qed.

Lemma remove_any_gone (g : FPath) : fst g = Work -> triple Gone (remove_any other g) (fun _ => Gone) Gone Gone.
Proof.
  intros Hg. apply triple_sys; [done|done|done|]. intros w HG.
  assert (Gone (set_entries (delete g) w)) as HG'.
  { apply (Gone_frame w); [done|]. intros f Hf. apply node_at_delete. by intros ->. }
  destruct (node_at w g) as [n|] eqn:En; [|done]. destruct (node_is_dir n) eqn:Ed; unfold rmdir, unlink; rewrite En, Ed; [|done].
  case_bool_decide; done.
Qed.

Lemma remove_work_triple : triple Gone (remove_path other beyond (Work, [])) (fun _ => Gone) Gone Gone.
Proof.
  unfold remove_path. eapply (triple_bind _ _ _ (fun _ => Gone)); [by apply triple_ask|intros [n|]; [|by apply triple_ret]].
  destruct (node_is_dir n).
  - unfold remove_dir_all. eapply (triple_bind _ _ _ (fun fs w => Forall (fun f => fst f = Work) fs /\ Gone w)).
    { apply triple_ask. intros w HG. split; [|done]. apply Forall_forall. intros f [Hf _]%elem_of_contents. by apply subtree_spec in Hf as [<- _]. }
    intros fs. set (J := fun (rest : list FPath) (_ : unit) w => Forall (fun f => fst f = Work) rest /\ Gone w).
    eapply (triple_post _ _ _ (J [])); [apply (triple_for J)|by intros ? w []|done|done]. intros f rest [].
    apply triple_fact. intros [Hf Hrest]%Forall_cons_1. eapply triple_post; [by apply remove_any_gone|done|done|done].
  - apply triple_sys; [done|done|done|]. intros w HG. unfold unlink. destruct (node_at w (Work, [])) as [d|]; [|done].
    destruct (node_is_dir d); [done|]. assert (Gone (set_entries (delete (Work, [])) w)); [|done].
    apply (Gone_frame w); [done|]. intros f Hf. apply node_at_delete. by intros ->.
Qed.

(** The upper directory itself. *)
Lemma remove_upper_triple all selected :
  triple (fun w => Transferred core all m selected w /\ Awaiting w /\ bare w) (remove_path other beyond (Upper, []))
    (fun _ => Gone) (fun w => Transferred core all m selected w \/ Gone w) (fun w => Transferred core all m selected w \/ Gone w).
Proof.
  set (B := fun w => Transferred core all m selected w \/ Gone w).
  apply triple_at. intros w0 (HT & HA & Hbare). pose proof (Awaiting_wf w0 HA) as Hw.
  destruct (wf_root _ Hw) as (d & Hd & Hdir). unfold remove_path.
  eapply triple_bind; [apply triple_ask_eq|intros found]. cbv beta. apply triple_extract with (φ := found = Some d).
  { intros w [-> ->]. unfold lstat. by rewrite Hd. }
  intros ->. rewrite Hdir. eapply (triple_pre _ (fun w => w = w0)); [by intros w [-> _]|]. unfold remove_dir_all.
  set (J := fun (rest : list FPath) (_ : unit) w => Forall (eq (Upper, [])) rest /\ ((w = w0 /\ rest <> []) \/ Gone w)).
  eapply (triple_bind _ _ _ (fun fs => J fs tt)).
  { apply triple_ask. intros w ->. split.
    - apply Forall_forall. intros [a q] [Hs [i Hi]]%elem_of_contents. apply subtree_pair in Hs as [<- [r ->]].
      destruct r as [|n r _] using rev_ind; [done|]. exfalso. specialize (Hbare r n). unfold usum in Hbare.
      destruct (entry_node w0 (Upper, r ++ [n]) Hw ltac:(by eexists)) as [x Hx]. by rewrite Hx in Hbare.
    - left. split; [done|]. intros HN. apply node_at_entry in Hd as (i & Hi & _).
      assert ((Upper, []) ∈ contents w0 (Upper, [])) as Hin by (apply elem_of_contents_2; [by apply subtree_pair; eauto|by eexists]).
      rewrite HN in Hin. by apply elem_of_nil in Hin. }
  intros fs. eapply (triple_post _ _ _ (J [])); [apply (triple_for J)|by intros ? w [_ [[_ ?]|?]]|intros w H; exact H|intros w H; exact H].
  intros f rest []. apply triple_fact. intros [<- Hrest]%Forall_cons_1. apply triple_sys; [done|intros w [[-> _]|?]; [by left|by right]..|].
  intros w [[-> _]|HG].
  - rewrite Hd, Hdir. unfold rmdir. rewrite Hd, Hdir. assert (names_under w0 (Upper, []) = []) as Hnames.
    { destruct (names_under w0 (Upper, [])) as [|n l] eqn:E; [done|]. assert (n ∈ names_under w0 (Upper, [])) as Hn by (rewrite E; by left).
      apply usum_names in Hn; [|done]. rewrite Hbare in Hn. by destruct Hn. }
    rewrite bool_decide_true by done. assert (Gone (set_entries (delete (Upper, [])) w0)) as HG.
    { split; cycle 1.
      { intros p. destruct p as [|n p _] using rev_ind; [unfold node_at; simpl; by rewrite lookup_delete_eq|].
        rewrite node_at_delete by by destruct p. specialize (Hbare p n). unfold usum in Hbare. by destruct (node_at w0 (Upper, p ++ [n])). }
      intros p Ho Hx. unfold tsum. rewrite node_at_delete by done.
      by apply Awaiting_bare with core. }
    split; [split; [done|by right]|by right].
  - pose proof HG as [_ HN]. rewrite HN. by right.
Qed.

(** ** Finishing *)

Section Finishing.
Context (all : bool) (finished : list ApplyRecord) (r : ApplyRecord) (selected : gset Path).

Definition with_world (P : World -> Prop) g : Prop :=
  Common g /\ in_ledger finished r selected g /\ ar_state r = TargetApplied /\ P (sg_world g).

Definition pruned w : Prop := (Transferred core all m selected w /\ Awaiting w /\ (all = true -> bare w)) \/ Gone w.
Definition settled w : Prop := ((Transferred core all m selected w /\ Awaiting w) \/ Gone w) /\ (all = true -> Gone w).

Lemma with_world_Sound P g : (forall w, P w -> Transferred core all m selected w \/ Gone w) -> with_world P g -> Sound g.
Proof. intros HP (HC & HL & Hr & Hw). eapply AtApplied_Sound. split_and!; try done. by apply HP. Qed.

Lemma with_world_frame P g w : with_world P g -> (Gone (sg_world g) -> Gone w) -> forall Q : World -> Prop, Q w -> with_world Q (set_world w g).
Proof. intros (HC & HL & Hr & Hw) HG Q HQ. split_and!; try done. by apply Common_world. Qed.

Lemma prune_step_triple :
  triple (AtApplied all finished r selected)
    (let! upper := in_world (fun w => is_real_dir beyond w (Upper, [])) in
     if upper && negb (bool_decide (selected = ∅)) then OverlayCommit.io (prune_selected_upper other beyond selected) else ret tt)
    (fun _ => with_world pruned) Sound Sound.
Proof.
  apply triple_stage_at. intros g0 (HC & HL & Hr & HP). unfold in_world.
  eapply triple_bind; [apply triple_ask_stage|intros upper]. cbv beta. destruct HP as [HT|HG].
  - pose proof (Transferred_wf _ _ _ HT) as Hw. apply triple_extract with (φ := upper = true). { intros g [-> ->]. by apply upper_real. }
    intros ->. eapply (triple_pre _ (fun g => g = g0)); [by intros g [-> _]|].
    assert (with_world (Transferred core all m selected) g0) as HW0 by by split_and!.
    assert (forall w (Q : World -> Prop), Q w -> with_world Q (set_world w g0)) as Hw0.
    { intros w Q. eapply with_world_frame; [exact HW0|]. intros HG. by destruct (upper_not_gone _ Hw). }
    case_bool_decide as Hsel; cbn [andb negb].
    + apply triple_ret. intros g ->. split_and!; try done. left. split; [done|].
      apply (Transferred_clean core all m selected _ HT). rewrite Hsel. by apply nothing_clean.
    + eapply triple_post; [apply triple_io_as; eapply (triple_pre _ (Transferred core all m selected)); [by intros w ->|by apply Transferred_prune]| | |].
      * intros ? g (w & -> & HTw & Hcl). apply Hw0. left. split; [done|]. by apply (Transferred_clean core all m selected).
      * intros g (w & -> & HTw). apply (with_world_Sound (Transferred core all m selected)); [by left|by apply Hw0].
      * intros g (w & -> & HTw). apply (with_world_Sound (Transferred core all m selected)); [by left|by apply Hw0].
  - apply triple_extract with (φ := upper = false). { intros g [-> ->]. by apply gone_unreal. }
    intros ->. apply triple_ret. intros g [-> _]. split_and!; try done. by right.
Qed.

Lemma snapshot_triple P : triple (with_world P) (snapshot_upper snapshot_jujutsu_upper) (fun _ => with_world P) Sound Sound.
Proof.
  unfold snapshot_upper. eapply triple_bind; [apply triple_ask_stage|intros record]. cbv beta.
  apply triple_extract with (φ := or_upper record = Directory). { by intros g [[[(_ & _ & _ & H & _) _] _] ->]. }
  intros ->. apply triple_ret. by intros g [? _].
Qed.

Lemma clear_path_gone_work : triple (with_world Gone) (clear_path other beyond (Work, [])) (fun _ => with_world Gone) Sound Sound.
Proof.
  unfold clear_path, in_world. eapply (triple_bind _ _ _ (fun _ => with_world Gone)); [by apply triple_ask|].
  intros []; [|by apply triple_ret]. apply triple_stage_at. intros g0 HW. pose proof HW as (_ & _ & _ & HG).
  assert (forall w, Gone w -> with_world Gone (set_world w g0)) as Hout by (intros w Hw; by eapply with_world_frame).
  eapply triple_post; [apply triple_io_as; eapply (triple_pre _ Gone); [by intros w ->|apply remove_work_triple]| | |].
  - intros ? g (w & -> & Hw). auto.
  - intros g (w & -> & Hw). apply (with_world_Sound Gone); [by right|auto].
  - intros g (w & -> & Hw). apply (with_world_Sound Gone); [by right|auto].
Qed.

Lemma clear_path_upper :
  triple (with_world (fun w => (Transferred core all m selected w /\ Awaiting w /\ bare w) \/ Gone w)) (clear_path other beyond (Upper, []))
    (fun _ => with_world Gone) Sound Sound.
Proof.
  unfold clear_path, in_world. apply triple_stage_at. intros g0 HW. pose proof HW as (HC & HL & Hr & HP).
  eapply triple_bind; [apply triple_ask_stage|intros present]. cbv beta. destruct HP as [HP|HG].
  - pose proof HP as (HT & _). pose proof (Transferred_wf _ _ _ HT) as Hw. destruct (wf_root _ Hw) as (d & Hd & _).
    apply triple_extract with (φ := present = true).
    { intros g [-> ->]. unfold path_exists, lstat. rewrite Hd. by apply bool_decide_true. }
    intros ->. eapply (triple_pre _ (fun g => g = g0)); [by intros g [-> _]|].
    assert (forall w (Q : World -> Prop), Q w -> with_world Q (set_world w g0)) as Hout.
    { intros w Q. eapply with_world_frame; [exact HW|]. intros HG. by destruct (upper_not_gone _ Hw). }
    eapply triple_post; [apply triple_io_as; eapply triple_pre; [|apply (remove_upper_triple all selected)]; by intros w ->| | |].
    + intros ? g (w & -> & HG). by apply Hout.
    + intros g (w & -> & HB). eapply (with_world_Sound (fun w => Transferred core all m selected w \/ Gone w)); [done|by apply Hout].
    + intros g (w & -> & HB). eapply (with_world_Sound (fun w => Transferred core all m selected w \/ Gone w)); [done|by apply Hout].
  - apply triple_extract with (φ := present = false).
    { intros g [-> ->]. pose proof HG as [_ HN]. unfold path_exists, lstat. by rewrite HN. }
    intros ->. apply triple_ret. intros g [-> _]. by split_and!.
Qed.

Lemma remove_merged_triple : triple (with_world Gone) (remove_merged other) (fun _ => with_world Gone) Sound Sound.
Proof.
  unfold remove_merged. eapply (triple_bind _ _ _ (fun _ => with_world Gone)).
  - eapply (triple_attempt _ _ _ _ _ (with_world Gone)); [apply triple_effect|done].
    + intros o g HW. unfold other_stage. rewrite others_quiet. by destruct g.
    + done.
    + intros g. apply with_world_Sound. by right.
    + intros _ g HW. destruct (sg_merged g) as [[|n]|]; done.
  - intros [?|e]; [by apply triple_ret|]. destruct (bool_decide _); [by apply triple_ret|]. apply triple_throw. intros g. apply with_world_Sound. by right.
Qed.

Lemma cleanup_triple :
  triple (with_world (fun w => (Transferred core all m selected w /\ Awaiting w /\ bare w) \/ Gone w)) (cleanup_terminal_overlay_data other beyond)
    (fun _ => with_world Gone) Sound Sound.
Proof.
  unfold cleanup_terminal_overlay_data. eapply triple_bind; [apply triple_ask_stage|intros record]. cbv beta.
  apply triple_extract with (φ := or_upper record = Directory). { by intros g [[[(_ & _ & _ & H & _) _] _] ->]. }
  intros ->. eapply (triple_bind _ _ _ (fun _ => with_world Gone)).
  - eapply triple_bind; [eapply triple_pre; [|apply clear_path_upper]; by intros g [? _]|intros []; apply clear_path_gone_work].
  - intros []. destruct (or_merged_in_stage record); [apply remove_merged_triple|by apply triple_ret].
Qed.

Lemma set_state_record w record st : good_record w record -> st <> Discarded -> (st = Applied -> Gone w) -> good_record w (set_state st record).
Proof. intros (H1 & H2 & H3 & H4 & _ & _) Hd Ha. by split_and!. Qed.

(** The record in memory, and the one on disk. *)
Definition told g : Prop := Gone (sg_world g) -> or_state (sg_record g) = Applied.
Definition written g : Prop := Gone (sg_world g) -> applied g.

Lemma set_state_triple P st : st <> Discarded -> (st = Applied -> forall w, P w -> Gone w) ->
  triple (with_world P) (modify (O:=O) (E:=OverlayError) (fun g => set_record (set_state st (sg_record g)) g))
    (fun _ g => with_world P g /\ or_state (sg_record g) = st) Sound Sound.
Proof.
  intros Hd Ha. apply triple_modify. intros g ([HC Hm] & HL & Hr & HP). split; [|done]. split_and!; try done. split; [|done].
  apply set_state_record; [done|done|]. intros E. by apply (Ha E).
Qed.

Lemma write_record_triple P : (forall w, P w -> Transferred core all m selected w \/ Gone w) ->
  triple (fun g => with_world P g /\ told g) (write_overlay_record other) (fun _ g => with_world P g /\ written g) Sound Sound.
Proof.
  intros HP. apply triple_stage_at. intros g0 [HW Ht]. pose proof HW as ([HC Hm] & HL & Hr & Hw).
  assert (with_world P (set_meta (sg_record g0) g0)) as HW'.
  { split_and!; try done. split; [done|]. simpl. by intros record [= <-]. }
  unfold write_overlay_record. eapply triple_post; [by apply triple_persist|intros ? g ->| |].
  - split; [done|]. intros HG. split; [by apply Ht|]. simpl. intros record [= <-]. by apply Ht.
  - intros g [->| ->]; by eapply with_world_Sound.
  - intros g ->. by eapply with_world_Sound.
Qed.

Lemma bare_changes lower_dirs w : wf w -> bare w -> length (overlay_changes beyond w lower_dirs) = 0.
Proof.
  intros Hw Hb. destruct (overlay_changes beyond w lower_dirs) as [|c l] eqn:E; [done|]. exfalso.
  assert (c ∈ overlay_changes beyond w lower_dirs) as Hc by (rewrite E; by left). apply elem_of_changes in Hc as ([q b] & Hq & _); [|done].
  apply walk_upper_sound in Hq as (p & n & -> & _ & Hs & _); [|done]. simpl in Hs. rewrite Hb in Hs. by destruct Hs.
Qed.

Lemma complete_target_applied_triple lower_dirs :
  triple (AtApplied all finished r selected) (complete_target_applied other beyond snapshot_jujutsu_upper lower_dirs selected)
    (fun _ g => with_world settled g /\ written g) Sound Sound.
Proof.
  assert (forall w, settled w -> Transferred core all m selected w \/ Gone w) as Hset by (intros w [[[? _]|?] _]; auto).
  unfold complete_target_applied. apply triple_bind_assoc. eapply triple_bind; [apply prune_step_triple|intros []].
  eapply triple_bind; [apply snapshot_triple|intros []]. eapply triple_bind; [apply triple_ask_stage|intros remaining]. cbv beta.
  eapply (triple_bind _ _ _ (fun _ g => with_world settled g /\ told g)).
  2:{ intros []. eapply triple_bind; [by apply write_record_triple|intros []; by apply triple_ret]. }
  case_bool_decide as Hrem.
  - eapply (triple_bind _ _ _ (fun _ => with_world Gone)).
    + eapply triple_pre; [|apply cleanup_triple]. intros g [(HC & HL & Hr & HP) ->]. split_and!; try done.
      destruct HP as [(HT & HA & _)|HG]; [left|by right]. split; [done|]. split; [done|].
      destruct HA as (s & HS & Hf & Ht). pose proof HS as (Hw & _ & Hs & _). intros p n. apply (changes_empty beyond (sg_world g) lower_dirs Hw); [| | |done].
      * intros p' n'. rewrite Hs. apply Ht.
      * intros p' n'. rewrite Hs. apply (fit_names _ _ Hf).
      * intros p' n' k b. rewrite Hs. apply (fit_markers _ _ Hf).
    + intros []. eapply triple_post; [apply (set_state_triple Gone Applied); [done|by intros _ w]| |done|done].
      intros ? g [(HC & HL & Hr & HG) Hst]. split; [|by intros _]. split_and!; try done. split; [by right|done].
  - eapply (triple_pre _ (with_world (fun w => settled w /\ wf w))).
    2:{ eapply triple_post; [by apply set_state_triple| |done|done]. intros ? g [(HC & HL & Hr & Hs & Hw) _].
        split; [by split_and!|]. intros HG. by destruct (upper_not_gone _ Hw). }
    intros g [(HC & HL & Hr & HP) ->]. split; [done|]. split; [done|]. split; [done|].
    destruct HP as [(HT & HA & Hb)|HG].
    + pose proof (Awaiting_wf _ HA) as Hw. split; [|done]. split; [by left|]. intros Ha. destruct Hrem. apply bare_changes; auto.
    + exfalso. apply Hrem. unfold overlay_changes. by rewrite gone_unreal.
Qed.

(** The journal is not part of the trees. *)
Lemma settled_journal f w : settled w -> settled (set_journal f w).
Proof.
  assert (forall w, wf w -> wf (set_journal f w)) as Hwf by (intros x []; by constructor).
  intros [HP Ha]. split; [|done]. destruct HP as [[HT HA]|HG]; [left|by right]. split.
  - destruct HT as (s & w0 & HS & [Hf Hx] & Hc & Hall & Hpub & HT). exists s, w0. split_and!; try done. destruct HT as (Hw & HT). split; [by apply Hwf|done].
  - destruct HA as (s & HS & Hf). exists s. split; [|done]. destruct HS as (Hw & HS). split; [by apply Hwf|done].
Qed.

Lemma consume_triple :
  triple (fun g => with_world settled g /\ written g) (consume_applied_preimages other sha256_hex selected)
    (fun _ g => with_world settled g /\ written g) Sound Sound.
Proof.
  assert (forall w, settled w -> Transferred core all m selected w \/ Gone w) as Hset by (intros w [[[? _]|?] _]; auto).
  apply triple_stage_at. intros g0 [HW Ht]. pose proof HW as (HC & HL & Hr & HP).
  set (J := fun w => settled w /\ (Gone (sg_world g0) <-> Gone w)).
  assert (forall w, J w -> with_world settled (set_world w g0)) as Hout by (intros w [Hs HG]; eapply with_world_frame; [done|apply HG|done]).
  assert (forall f w, J w -> J (set_journal f w)) as HJ by (intros f w [Hs HG]; split; [by apply settled_journal|done]).
  eapply triple_post; [apply (triple_io_as IoError _ g0 (fun _ => J) J J)| | |].
  - eapply (triple_pre _ J); [intros w ->; by split|]. unfold remove_preimages.
    eapply (triple_bind _ _ _ (fun _ => J)); [apply for_each_keeps; intros path|intros []; by apply triple_sys].
    eapply (triple_bind _ _ _ (fun _ => J)); [by apply triple_lift|intros ?].
    eapply (triple_bind _ _ _ (fun _ => J)).
    + eapply (triple_attempt _ _ _ _ _ J); [apply triple_sys; [done|done|done|]|done]. intros w Hw. destruct (_ !! _); auto.
    + intros [?|e]; [by apply triple_ret|]. destruct (e =? ENOENT)%Z; [by apply triple_ret|by apply triple_throw].
  - intros ? g (w & -> & Hw). split; [auto|]. intros HG. apply Ht. by apply Hw.
  - intros g (w & -> & Hw). eapply with_world_Sound; [exact Hset|auto].
  - intros g (w & -> & Hw). eapply with_world_Sound; [exact Hset|auto].
Qed.

Lemma commit_triple n : triple (fun g => with_world settled g /\ written g) (mark_apply_committed other (ar_apply_id r) n)
  (fun _ g => Idle (finished ++ [set_apply_state Committed (Some n) r]) g /\ (all = true -> Gone (sg_world g))) Sound Sound.
Proof.
  apply triple_stage_at. intros g0 [HW Ht]. pose proof HW as (HC & HL & Hr & [HP Ha]). unfold mark_apply_committed.
  assert (Sound g0) as HS0 by (eapply (with_world_Sound settled); [intros w [[[? _]|?] _]; auto|done]).
  set (g1 := set_ledger (Ledger APPLY_LEDGER_SCHEMA_VERSION (finished ++ [set_apply_state Committed (Some n) r])) g0).
  assert (Idle (finished ++ [set_apply_state Committed (Some n) r]) g1) as H1.
  { split; [done|]. split; [done|]. split; [|destruct HP as [[_ ?]|HG]; [by left|right; split; [done|by apply Ht]]].
    apply Forall_app. split; [apply HL|by constructor]. }
  eapply triple_post; [by eapply update_apply_state_triple|by intros ? g ->| |by intros g ->].
  intros g [->| ->]; [done|]. eapply Idle_Sound, H1.
Qed.

Lemma finish_triple {A} lower_dirs (k : list ChangeEntry -> A) :
  triple (AtApplied all finished r selected)
    (let! remaining := complete_target_applied other beyond snapshot_jujutsu_upper lower_dirs selected in
     consume_applied_preimages other sha256_hex selected ;;
     mark_apply_committed other (ar_apply_id r) (length remaining) ;;
     ret (k remaining))
    (fun _ g => (exists n, Idle (finished ++ [set_apply_state Committed (Some n) r]) g) /\ (all = true -> Gone (sg_world g))) Sound Sound.
Proof.
  eapply triple_bind; [apply complete_target_applied_triple|intros remaining]. eapply triple_bind; [apply consume_triple|intros []].
  eapply triple_bind; [apply commit_triple|intros []]. apply triple_ret. intros g [HI Ha]. eauto.
Qed.
End Finishing.

(** ** Recovery *)

Abbreviation recover_apply := (recover_apply other beyond uid gid umask sha256_hex target_root snapshot_jujutsu_upper).
Abbreviation recover_pending := (recover_pending_applies_locked other beyond uid gid umask sha256_hex target_root snapshot_jujutsu_upper).

Definition unused (apply_id : string) records : Prop := apply_id ∉ (ar_apply_id <$> records).

Lemma recover_apply_triple all finished r selected lower_dirs apply_id : unused apply_id (finished ++ [r]) ->
  triple (fun g => AtPrepared all finished r selected g \/ AtApplied all finished r selected g) (recover_apply lower_dirs r)
    (fun _ g => exists records, Idle records g /\ unused apply_id records) Sound Sound.
Proof.
  intros Hun. apply triple_stage_at. intros g0 HP.
  assert (Sound g0) as HS0 by (destruct HP; [by eapply AtPrepared_Sound|by eapply AtApplied_Sound]).
  assert (Common g0 /\ in_ledger finished r selected g0) as [HC HL] by (destruct HP as [(? & ? & _)|(? & ? & _)]; done).
  unfold OverlayCommit.recover_apply. eapply triple_bind; [apply triple_ask_stage|intros record]. cbv beta.
  apply triple_extract with (φ := or_id record = id /\ or_generation record = generation /\ or_target record = target).
  { intros g [-> ->]. by destruct HC as [(? & ? & ? & _) _]. }
  intros (E1 & E2 & E3). destruct HL as (_ & _ & _ & F1 & F2 & F3 & paths & Hpaths & Hset).
  rewrite F1, F2, F3, E1, E2, E3, !bool_decide_true, Z.eqb_refl by done. cbn [negb orb]. rewrite Hpaths. cbn [lift].
  eapply (triple_pre _ (fun g => g = g0)); [by intros g [-> _]|].
  eapply (triple_bind _ _ _ (fun x g => x = paths /\ g = g0)); [by apply triple_ret|]. intros x. apply triple_fact. intros ->. cbv zeta. rewrite Hset.
  destruct (_ && _); [apply triple_throw; by intros g ->|]. apply triple_stage_at. intros g ->.
  destruct HP as [HP|HP].
  - pose proof HP as (_ & _ & Hst & _). rewrite bool_decide_true by done.
    eapply (triple_bind _ _ _ (fun _ => AtApplied all finished (set_apply_state TargetApplied None r) selected)).
    + eapply triple_bind; [eapply triple_pre; [|by apply (apply_prepared_target_triple all finished r)]; by intros g ->|intros []].
      by apply mark_target_applied_triple.
    + intros []. eapply triple_post; [apply (finish_triple all finished (set_apply_state TargetApplied None r) selected lower_dirs (fun _ => ar_apply_id r))| |done|done].
      intros ? g [(n & HI) _]. eexists. split; [exact HI|]. unfold unused in *. rewrite fmap_app in *. done.
  - pose proof HP as (_ & _ & Hst & _). rewrite bool_decide_false by congruence.
    eapply (triple_bind _ _ _ (fun _ => AtApplied all finished r selected)); [by apply triple_ret; intros g ->|intros []].
    eapply triple_post; [apply (finish_triple all finished r selected lower_dirs (fun _ => ar_apply_id r))| |done|done].
    intros ? g [(n & HI) _]. eexists. split; [exact HI|]. unfold unused in *. rewrite fmap_app in *. done.
Qed.

(** The ledger, and who is in it. *)
Definition Sound_with (apply_id : string) g : Prop := Sound g /\ forall records, load_apply_records g = Ok records -> unused apply_id records.

Lemma filter_committed finished : Forall committed finished -> filter (fun apply => ar_state apply <> Committed) finished = [].
Proof.
  induction 1 as [|x l Hx Hl IH]; [done|]. rewrite filter_cons. rewrite decide_False; [done|]. unfold committed in Hx. by intros [].
Qed.

Lemma recover_pending_triple lower_dirs apply_id :
  triple (Sound_with apply_id) (recover_pending lower_dirs) (fun _ g => exists records, Idle records g /\ unused apply_id records) Sound Sound.
Proof.
  apply triple_stage_at. intros g0 [HS Hun]. unfold recover_pending_applies_locked, read_records.
  assert (exists records, load_apply_records g0 = Ok records) as [records Hrec].
  { destruct HS as [(rs & _ & H & _)|[(? & ? & ? & ? & _ & (H & _) & _)|(? & ? & ? & ? & _ & (H & _) & _)]]; eauto. }
  eapply (triple_bind _ _ _ (fun rs g => rs = records /\ g = g0)).
  { eapply triple_bind; [apply triple_ask_stage|intros x]. cbv beta. apply triple_extract with (φ := x = Ok records).
    - intros g [-> ->]. done.
    - intros ->. apply triple_ret. by intros g [-> _]. }
  intros rs. apply triple_fact. intros ->. specialize (Hun records Hrec).
  assert (forall all finished r selected, AtPrepared all finished r selected g0 \/ AtApplied all finished r selected g0 -> records = finished ++ [r] ->
    triple (fun g => g = g0) (for_each (filter (fun apply => ar_state apply <> Committed) records)
      (fun apply recovered => let! i := recover_apply lower_dirs apply in ret (recovered ++ [i])) [])
      (fun _ g => exists records, Idle records g /\ unused apply_id records) Sound Sound) as Hone.
  { intros all finished r selected HP ->.
    assert (ar_state r <> Committed /\ Forall committed finished) as [Hst Hf].
    { destruct HP as [(_ & (_ & ? & _) & E & _)|(_ & (_ & ? & _) & E & _)]; by rewrite E. }
    rewrite filter_app, filter_committed by done. rewrite filter_cons, decide_True by done. cbn [app filter list_filter for_each].
    eapply (triple_bind _ _ _ (fun _ g => exists records, Idle records g /\ unused apply_id records)); [|intros l; by apply triple_ret].
    eapply (triple_bind _ _ _ (fun _ g => exists records, Idle records g /\ unused apply_id records)); [|intros l; by apply triple_ret].
    eapply triple_pre; [|by apply (recover_apply_triple all finished r selected)]. by intros g ->. }
  destruct HS as [(rs & HI)|[(all & finished & r & selected & HP)|(all & finished & r & selected & HP)]].
  - pose proof HI as (_ & Hl & Hc & _). rewrite Hl in Hrec. injection Hrec as ->. rewrite filter_committed by done.
    apply triple_ret. intros g ->. eauto.
  - apply (Hone all finished r selected); [by left|]. destruct HP as (_ & (Hl & _) & _). congruence.
  - apply (Hone all finished r selected); [by right|]. destruct HP as (_ & (Hl & _) & _). congruence.
Qed.

(** ** The whole application *)

Lemma normalize_plain p : plain p -> normalize_selection_path p = Ok p.
Proof.
  intros Hp. unfold normalize_selection_path.
  assert (forall n, plain_name n = true -> n <> ".." /\ n <> "/" /\ n <> ".") as Hn.
  { intros n H. split_and!; intros ->; by vm_compute in H. }
  assert (existsb (fun c => bool_decide (c = ".." \/ c = "/")) p = false) as ->.
  { apply not_true_iff_false. intros (n & Hin & Hd)%existsb_exists. apply list_elem_of_In in Hin.
    pose proof (proj1 (Forall_forall _ _) Hp n Hin) as H. destruct (Hn n H) as (? & ? & _). apply bool_decide_eq_true in Hd. by destruct Hd. }
  f_equal. induction Hp as [|n p Hx Hp IH]; [done|]. rewrite filter_cons, decide_True by by apply Hn. by rewrite IH.
Qed.

Lemma elem_of_btree (s : gset Path) p : p ∈ btree s <-> p ∈ s.
Proof. unfold btree. rewrite (elem_of_Permutation_proper p _ _ (merge_sort_Permutation path_order _)). apply elem_of_elements. Qed.

Lemma normalize_btree (s : gset Path) : (forall p, p ∈ s -> plain p) ->
  collect_results normalize_selection_path (btree s) = Ok (btree s) /\ list_to_set (btree s) = s.
Proof.
  intros Hs. split; [|apply set_eq; intros p; by rewrite elem_of_list_to_set, elem_of_btree].
  assert (Forall plain (btree s)) as Hall by (apply Forall_forall; intros p Hp; apply Hs; by apply elem_of_btree).
  induction Hall as [|p l Hp Hl IH]; [done|]. simpl. rewrite normalize_plain by done. simpl. by rewrite IH.
Qed.

Lemma fit_ext s u : (forall p, u p = s p) -> fit s m -> fit u m.
Proof.
  intros E [H1 H2 H3 H4 H5]. constructor.
  - intros p n. rewrite E. apply H1.
  - intros p n k b. rewrite E. apply H2.
  - intros p n Hn. rewrite !E. by apply H3.
  - intros p q Ho. rewrite E. apply H4. unfold opq in *. by rewrite <- !E.
  - intros p k. rewrite !E. apply H5.
Qed.

Lemma Awaiting_usum w : Awaiting w -> Still core (usum w) m w /\ fit (usum w) m /\ printable (usum w).
Proof.
  intros (s & (Hw & Ha & Hs & HA & Hrest) & Hf & Ht). split; [|split; [by apply (fit_ext s)|intros p n; rewrite Hs; apply Ht]]. split_and!; try done; try apply Hrest.
  intros p Hp. rewrite <- (HA p Hp). unfold mg. apply kv_ext. done.
Qed.

(** A plan over the stage. *)
Lemma plan_pending lower_dirs selection plan w : Awaiting w ->
  plan_overlay_apply beyond compile_globs w lower_dirs selection = Ok plan ->
  (forall matches, compile_globs [] = Some matches -> forall p, matches p = false) ->
  Pending core (is_all selection) m (ap_paths plan) w /\ forall p, p ∈ ap_paths plan -> plain p.
Proof.
  intros HA Hplan Hglob. apply Awaiting_usum in HA as (HS & Hf & Ht). pose proof HS as (Hw & _).
  assert (plan_apply compile_globs (overlay_changes beyond w lower_dirs) (upper_hard_link_groups beyond w) selection = Some (Ok plan)) as Hp.
  { unfold plan_overlay_apply in Hplan. destruct (plan_apply _ _ _ _) as [x|]; [|done]. simpl in Hplan. by subst. }
  split.
  - exists (usum w). split; [done|]. split; [done|]. split.
    + eapply (plan_closes beyond w lower_dirs Hw Ht); [apply Hf|apply Hf|exact Hp|apply Hf].
    + intros Hall. eapply (plan_all beyond w lower_dirs Hw Ht); [exact Hp|done|done].
  - eapply (plan_plain beyond w lower_dirs Hw Ht); [apply Hf|apply Hf|exact Hp].
Qed.

Abbreviation apply_overlay_selected := (apply_overlay_selected other beyond uid gid umask sha256_hex target_root compile_globs snapshot_jujutsu_upper).

Lemma append_triple all records r g0 selected : Idle records g0 -> unused (ar_apply_id r) records -> ar_state r = Prepared ->
  ar_overlay_id r = id -> ar_overlay_generation r = generation -> ar_target r = target ->
  ar_planned_paths r = btree selected -> (forall p, p ∈ selected -> plain p) -> Pending core all m selected (sg_world g0) ->
  triple (fun g => g = g0) (append_apply_record other r) (fun _ => AtPrepared all records r selected) Sound Sound.
Proof.
  intros HI Hun Hst E1 E2 E3 Hpl Hplain HP. pose proof HI as (HC & Hl & Hcm & _). unfold append_apply_record, read_records.
  eapply (triple_bind _ _ _ (fun rs g => rs = records /\ g = g0)).
  { eapply triple_bind; [apply triple_ask_stage|intros x]. cbv beta. apply triple_extract with (φ := x = Ok records).
    - intros g [-> ->]. done.
    - intros ->. apply triple_ret. by intros g [-> _]. }
  intros rs. apply triple_fact. intros ->.
  assert (AtPrepared all records r selected (set_ledger (Ledger APPLY_LEDGER_SCHEMA_VERSION (records ++ [r])) g0)) as H1.
  { split; [done|]. split; [|by split]. split_and!; try done. exists (btree selected). rewrite Hpl. by apply normalize_btree. }
  eapply triple_post; [by apply triple_persist|by intros ? g ->| |].
  - intros g [->| ->]; [by eapply Idle_Sound|by eapply AtPrepared_Sound].
  - intros g ->. by eapply Idle_Sound.
Qed.

(** A new application. *)
Lemma start_triple lower_dirs selection apply_id now records g0 :
  (forall matches, compile_globs [] = Some matches -> forall p, matches p = false) ->
  Idle records g0 -> unused apply_id records -> Awaiting (sg_world g0) ->
  triple (fun g => g = g0)
    (let! plan := in_world (fun w => plan_overlay_apply beyond compile_globs w lower_dirs selection) in
     let! plan := lift plan in
     let! preimages := in_world (fun w => prepare_apply_preimages beyond sha256_hex w (ap_paths plan)) in
     let! preimages := lift preimages in
     let! valid := in_world (fun w => validate_target_preimages beyond sha256_hex w preimages (ap_selected plan) false) in
     lift valid ;;
     append_apply_record other (mkApplyRecord APPLY_LEDGER_SCHEMA_VERSION apply_id now (or_id (sg_record g0)) (or_generation (sg_record g0))
       (or_target (sg_record g0)) selection (ap_selected plan) (btree (ap_paths plan)) preimages Prepared 0) ;;
     apply_prepared_target other beyond uid gid umask sha256_hex target_root (ap_paths plan) preimages (ap_selected plan) false ;;
     mark_apply_target_applied other apply_id ;;
     let! remaining := complete_target_applied other beyond snapshot_jujutsu_upper lower_dirs (ap_paths plan) in
     consume_applied_preimages other sha256_hex (ap_paths plan) ;;
     mark_apply_committed other apply_id (length remaining) ;;
     ret (mkOutcome apply_id (ap_selected plan) remaining))
    (fun _ g => (exists records, Idle records g) /\ (is_all selection = true -> Gone (sg_world g))) Sound Sound.
Proof.
  intros Hglob HI Hun HA. assert (Sound g0) as HS0 by by eapply Idle_Sound. unfold in_world.
  eapply triple_bind; [apply triple_ask_stage|intros planned]. cbv beta.
  apply triple_extract with (φ := planned = plan_overlay_apply beyond compile_globs (sg_world g0) lower_dirs selection); [by intros g [-> ->]|].
  intros Hplanned. eapply (triple_pre _ (fun g => g = g0)); [by intros g [-> _]|].
  eapply triple_bind; [apply triple_lift_stage; by intros g ->|intros plan]. cbv beta.
  apply triple_extract with (φ := planned = Ok plan); [by intros g [_ ->]|].
  intros ->. symmetry in Hplanned. destruct (plan_pending _ _ _ _ HA Hplanned Hglob) as [HP Hplain].
  eapply (triple_pre _ (fun g => g = g0)); [by intros g [-> _]|].
  eapply (triple_bind _ _ _ (fun _ g => g = g0)); [by apply triple_ask|intros prepared].
  eapply (triple_bind _ _ _ (fun _ g => g = g0)).
  { eapply triple_post; [apply (triple_lift_stage (fun g => g = g0)); intros g ->; exact HS0|by intros ? g [-> _]|done|intros g H; exact H]. }
  intros preimages. eapply (triple_bind _ _ _ (fun _ g => g = g0)); [by apply triple_ask|intros valid].
  eapply (triple_bind _ _ _ (fun _ g => g = g0)).
  { eapply triple_post; [apply (triple_lift_stage (fun g => g = g0)); intros g ->; exact HS0|by intros ? g [-> _]|done|intros g H; exact H]. }
  intros []. set (r := mkApplyRecord _ _ _ _ _ _ _ _ _ _ _ _).
  pose proof HI as ([(R1 & R2 & R3 & _) _] & _).
  eapply triple_bind; [by apply (append_triple (is_all selection) records r g0 (ap_paths plan))|intros []].
  eapply triple_bind; [by apply (apply_prepared_target_triple (is_all selection) records r)|intros []].
  eapply triple_bind; [by apply (mark_target_applied_triple (is_all selection) records r (ap_paths plan))|intros []].
  eapply triple_post; [apply (finish_triple (is_all selection) records (set_apply_state TargetApplied None r) (ap_paths plan) lower_dirs
    (fun remaining => mkOutcome apply_id (ap_selected plan) remaining))| |done|done].
  intros ? g [(n & HIg) Hall]. eauto.
Qed.

Lemma apply_overlay_selected_triple lower_dirs selection apply_id now :
  (forall matches, compile_globs [] = Some matches -> forall p, matches p = false) ->
  triple (Sound_with apply_id) (apply_overlay_selected lower_dirs selection apply_id now)
    (fun _ g => (exists records, Idle records g) /\ (is_all selection = true -> Gone (sg_world g))) Sound Sound.
Proof.
  intros Hglob. unfold OverlayCommit.apply_overlay_selected.
  assert (forall g, Sound_with apply_id g -> Sound g) as HSw by by intros g [].
  eapply (triple_bind _ _ _ (fun _ => Sound_with apply_id)); [by apply triple_ask|intros record0].
  destruct (or_protect_target record0); [by apply triple_throw|].
  eapply (triple_bind _ _ _ (fun _ => Sound_with apply_id)).
  { apply triple_stage_at. intros g0 HS. unfold acquire_target_lock.
    assert (forall w, w = sg_world g0 -> set_world w g0 = g0) as E by (intros w ->; by destruct g0).
    eapply triple_post; [apply (triple_io_as IoError _ g0 (fun _ w => w = sg_world g0) (fun w => w = sg_world g0) (fun w => w = sg_world g0))| | |].
    - by apply triple_sys.
    - intros ? g (w & -> & Hw). by rewrite E.
    - intros g (w & -> & Hw). rewrite E by done. auto.
    - intros g (w & -> & Hw). rewrite E by done. auto. }
  intros []. eapply triple_bind; [apply recover_pending_triple|intros ?]. cbv beta.
  apply triple_stage_at. intros g0 (records & HI & Hun). assert (Sound g0) as HS0 by by eapply Idle_Sound.
  eapply triple_bind; [apply triple_ask_stage|intros record]. cbv beta.
  apply triple_extract with (φ := record = sg_record g0); [by intros g [-> ->]|].
  intros ->. eapply (triple_pre _ (fun g => g = g0)); [by intros g [-> _]|].
  pose proof HI as ([(R1 & R2 & R3 & R4 & R5 & R6) _] & _ & _ & HP).
  assert (or_state (sg_record g0) <> Applied -> Awaiting (sg_world g0)) as HA.
  { intros Hst. destruct HP as [?|[_ [? _]]]; done. }
  destruct (or_state (sg_record g0)) eqn:Est.
  - eapply start_triple; [done|done|done|by apply HA].
  - eapply start_triple; [done|done|done|by apply HA].
  - destruct (is_all selection); [|by apply triple_throw; intros g ->]. apply triple_ret. intros g ->. split; [eauto|]. intros _. by apply R6.
  - by apply triple_throw; intros g ->.
Qed.
End Recovery.
