(* ===== verification/OverlayAttempts.v ===== *)
(** * Applications in a row

    A stage lives on between processes.  Here applications of one overlay are run
    one after the other, each of them interrupted or not, with a restart between
    them; and what an application refuses, and what a discard deletes, is
    followed to the directories. *)

From Stdlib Require Import ZArith Lia.
From stdpp Require Import base list strings gmap pretty sorting.
From S2P Require Import Prelude Effects OverlayFs OverlayCore OverlayView OverlaySteps OverlayShape OverlayCopy OverlayEdit OverlayApply OverlayMerge OverlayPublish OverlayApplied OverlayPlan OverlayPrune OverlayTransfer OverlayChanges OverlayCommit OverlayRecovery.
#[local] Set Warnings "-clear-no-such-hyp".
Open Scope string_scope.
Open Scope list_scope.
Open Scope effect_scope.

(** ** What an overlay shows over its target *)

Definition merged (core : OverlayCore) (w : World) : Path -> option Kind := mg core (usum w) (tsum w).

(** It is what the mount shows when the target is the one lower layer. *)
Lemma merged_is_shown beyond core w p : wf w -> (forall p, lowk (w_lowers w) p = tsum w p) -> plain p ->
  n_kind <$> view beyond core w p = merged core w p.
Proof.
  intros Hw Hl Hp. rewrite (kview_kv beyond core (w_lowers w)) by done. unfold merged, mg. clear Hp.
  induction p as [|n p IH] using rev_ind; [by rewrite !kv_nil|]. rewrite !kv_snoc, IH. unfold kcomp. by rewrite lowk_layer_from, Hl.
Qed.

(** Without an upper directory it is the target. *)
Lemma merged_gone core w0 w : Gone core (merged core w0) w -> forall p, ordinary p -> merged core w p = merged core w0 p.
Proof.
  intros [Ht HN] p. assert (forall p, usum w p = None) as Hu by (intros q; unfold usum; by rewrite HN).
  induction p as [|n p IH] using rev_ind; intros Ho; [unfold merged, mg; by rewrite !kv_nil|].
  pose proof Ho as [Hop _]%ordinary_snoc. unfold merged in *. rewrite mg_snoc, Hu, IH by done.
  destruct (is_excluded core (p ++ [n])) eqn:Ex; [unfold mg; by rewrite kv_excluded|].
  assert (hides (usum w) p n = false) as -> by (unfold hides, opq; by rewrite !Hu). rewrite Ht by done.
  destruct (is_kdir (mg core (usum w0) (tsum w0) p)) eqn:Ed; [done|].
  destruct (mg core (usum w0) (tsum w0) (p ++ [n])) eqn:E; [|done]. unfold mg in *.
  destruct (kv_parent core [layer_from (tsum w0)] (usum w0) p n) as [H _]; [by rewrite E|]. by rewrite H in Ed.
Qed.

Lemma merged_Still core s m w : Still core s m w -> forall p, ordinary p -> merged core w p = m p.
Proof. intros (_ & _ & Hs & HA & _) p Ho. rewrite <- (HA p Ho). by apply kv_ext. Qed.

Lemma merged_Awaiting core m w : Awaiting core m w -> forall p, ordinary p -> merged core w p = m p.
Proof. intros (s & HS & _). by eapply merged_Still. Qed.

(** ** The ids of the ledger *)

#[local] Create HintDb keep.

Section Ledger.
Context {O : Type} (other : O -> World -> World) (beyond : World -> FPath -> Path -> option Node).
Context (uid gid umask : Z) (sha256_hex : string -> string) (target_root : string).
Context (compile_globs : list string -> option (Path -> bool)) (snapshot_jujutsu_upper : string -> string -> M World O Z unit).
Context (others_quiet : forall o w, other o w = w).
Context (ids : list string).
Implicit Types (g : Stage) (records : list ApplyRecord).

(** Nobody else is in the ledger. *)
Definition known g : Prop := forall records r, load_apply_records g = Ok records -> r ∈ records -> ar_apply_id r ∈ ids.

Definition keeps_known {A} (c : M Stage O OverlayError A) : Prop := triple known c (fun _ => known) known known.

Lemma keep_bind {A B} (c : M Stage O OverlayError A) (k : A -> M Stage O OverlayError B) :
  keeps_known c -> (forall a, keeps_known (k a)) -> keeps_known (bind c k).
Proof. intros Hc Hk. by eapply triple_bind. Qed.
Lemma keep_ret {A} (a : A) : keeps_known (ret a).
Proof. by apply triple_ret. Qed.
Lemma keep_throw {A} e : keeps_known (A:=A) (throw e).
Proof. by apply triple_throw. Qed.
Lemma keep_lift {A} (r : result OverlayError A) : keeps_known (lift r).
Proof. destruct r; [apply keep_ret|apply keep_throw]. Qed.
Lemma keep_ask {A} (f : Stage -> A) : keeps_known (ask f).
Proof. by apply triple_ask. Qed.
Lemma keep_in_world {A} (f : World -> A) : keeps_known (in_world f).
Proof. apply keep_ask. Qed.
Lemma keep_io_as {A} err (c : M World O Z A) : keeps_known (io_as err c).
Proof. intros envs g Hg. unfold io_as. by destruct (c envs (sg_world g)) as [[|[a|e] rest] w]. Qed.
Lemma keep_io {A} (c : M World O Z A) : keeps_known (io c).
Proof. apply keep_io_as. Qed.
Lemma keep_modify f : (forall g, sg_ledger (f g) = sg_ledger g) -> keeps_known (modify f).
Proof. intros Hf. apply triple_modify. intros g Hg records r. unfold load_apply_records. rewrite Hf. apply Hg. Qed.
Lemma keep_for {X A} (l : list X) (body : X -> A -> M Stage O OverlayError A) a :
  (forall x a, keeps_known (body x a)) -> keeps_known (for_each l body a).
Proof. intros Hb. apply (triple_for (fun _ _ => known)). intros x rest b. apply Hb. Qed.
#[local] Hint Resolve keep_ret keep_throw keep_lift keep_ask keep_in_world keep_io keep_io_as : keep.

Lemma keep_write_overlay_record : keeps_known (write_overlay_record other).
Proof.
  apply triple_stage_at. intros g0 Hg. eapply triple_post; [by apply triple_persist|by intros ? g ->| |by intros g ->].
  by intros g [->| ->].
Qed.

Lemma update_first_ids apply_id state n records records' : update_first apply_id (set_apply_state state n) records = Some records' ->
  ar_apply_id <$> records' = ar_apply_id <$> records.
Proof.
  revert records'. induction records as [|r l IH]; intros records'; [done|]. simpl. case_bool_decide; [by intros [= <-]|].
  destruct (update_first _ _ l) as [l'|]; [|done]. intros [= <-]. rewrite !fmap_cons. by rewrite (IH l').
Qed.

Lemma keep_ledger (f : list ApplyRecord -> result OverlayError (list ApplyRecord)) :
  (forall records records', f records = Ok records' -> forall r, r ∈ records' -> ar_apply_id r ∈ ids \/ ar_apply_id r ∈ ar_apply_id <$> records) ->
  keeps_known (let! records := read_records in let! records := lift (f records) in
               persist other (set_ledger (Ledger APPLY_LEDGER_SCHEMA_VERSION records))).
Proof.
  intros Hf. unfold read_records. apply triple_stage_at. intros g0 Hg.
  eapply (triple_bind _ _ _ (fun records g => load_apply_records g0 = Ok records /\ g = g0)).
  { eapply triple_bind; [apply triple_ask_stage|intros x]. cbv beta. apply triple_extract with (φ := x = load_apply_records g0); [by intros g [-> ->]|].
    intros ->. destruct (load_apply_records g0); [by apply triple_ret; intros g [-> _]|by apply triple_throw; intros g [-> _]]. }
  intros records. apply triple_fact. intros Hl.
  eapply (triple_bind _ _ _ (fun records' g => f records = Ok records' /\ g = g0)).
  { destruct (f records); [by apply triple_ret; intros g ->|by apply triple_throw; intros g ->]. }
  intros records'. apply triple_fact. intros Hr.
  assert (known (set_ledger (Ledger APPLY_LEDGER_SCHEMA_VERSION records') g0)) as Hk.
  { intros rs r [= <-] Hin. destruct (Hf records records' Hr r Hin) as [?|(x & E & Hx)%list_elem_of_fmap]; [done|]. rewrite E. by apply (Hg records). }
  eapply triple_post; [by apply triple_persist|by intros ? g ->| |by intros g ->]. by intros g [->| ->].
Qed.

Lemma keep_update_apply_state apply_id state n : keeps_known (update_apply_state other apply_id state n).
Proof.
  apply (keep_ledger (fun records => ok_or (update_first apply_id (set_apply_state state n) records) PersistError)).
  intros records records' H r Hr. right. destruct (update_first _ _ _) as [l|] eqn:E; [|done]. injection H as <-.
  apply update_first_ids in E. rewrite <- E. by apply list_elem_of_fmap_2.
Qed.

Lemma keep_append_apply_record apply : ar_apply_id apply ∈ ids -> keeps_known (append_apply_record other apply).
Proof.
  intros Hid. apply (keep_ledger (fun records => Ok (records ++ [apply]))). intros records records' [= <-] r [Hr| ->%list_elem_of_singleton]%elem_of_app.
  - right. by apply list_elem_of_fmap_2.
  - by left.
Qed.
#[local] Hint Resolve keep_write_overlay_record keep_update_apply_state keep_append_apply_record : keep.

Ltac keep := repeat first
  [ progress auto with keep
  | apply keep_bind; [|intros ?]
  | apply keep_for; intros ? ?
  | match goal with |- keeps_known (if ?b then _ else _) => destruct b end
  | match goal with |- keeps_known (match ?x with _ => _ end) => destruct x end ].

Lemma keep_remove_merged : keeps_known (remove_merged other).
Proof.
  unfold remove_merged. apply keep_bind.
  - eapply (triple_attempt _ _ _ _ _ known); [apply triple_effect; try done|done].
    intros _ g Hg. by destruct (sg_merged g) as [[|n]|].
  - intros [?|e]; keep.
Qed.
#[local] Hint Resolve keep_remove_merged : keep.

Lemma keep_cleanup : keeps_known (cleanup_terminal_overlay_data other beyond).
Proof. unfold cleanup_terminal_overlay_data, clear_path. keep. Qed.
Lemma keep_complete lower_dirs selected : keeps_known (complete_target_applied other beyond snapshot_jujutsu_upper lower_dirs selected).
Proof.
  pose proof keep_cleanup. unfold complete_target_applied, snapshot_upper. keep; by apply keep_modify.
Qed.
Lemma keep_apply_prepared selected preimages changes recovering :
  keeps_known (apply_prepared_target other beyond uid gid umask sha256_hex target_root selected preimages changes recovering).
Proof. unfold apply_prepared_target. keep. Qed.
#[local] Hint Resolve keep_complete keep_apply_prepared : keep.

Lemma keep_recover_pending lower_dirs :
  keeps_known (recover_pending_applies_locked other beyond uid gid umask sha256_hex target_root snapshot_jujutsu_upper lower_dirs).
Proof.
  unfold recover_pending_applies_locked, read_records, recover_apply, mark_apply_target_applied, mark_apply_committed, consume_applied_preimages. keep.
Qed.
#[local] Hint Resolve keep_recover_pending : keep.

Lemma keep_apply_overlay_selected lower_dirs selection apply_id now : apply_id ∈ ids ->
  keeps_known (apply_overlay_selected other beyond uid gid umask sha256_hex target_root compile_globs snapshot_jujutsu_upper
    lower_dirs selection apply_id now).
Proof.
  intros Hid. unfold apply_overlay_selected, acquire_target_lock, mark_apply_target_applied, mark_apply_committed, consume_applied_preimages. keep.
Qed.
End Ledger.

(** ** Attempts *)

(** One call of [apply_overlay_selected], by a process of its own. *)
Record Attempt (O : Type) := mkAttempt {
  at_lower_dirs : list LowerDir;
  at_selection : ApplySelection;
  at_apply_id : string;
  at_now : Z;
  at_envs : list (Env O);
}.
Arguments mkAttempt {O}.
Arguments at_lower_dirs {O}.
Arguments at_selection {O}.
Arguments at_apply_id {O}.
Arguments at_now {O}.
Arguments at_envs {O}.

Section Attempts.
Context {O : Type} (other : O -> World -> World) (beyond : World -> FPath -> Path -> option Node).
Context (uid gid umask : Z) (sha256_hex : string -> string) (target_root : string).
Context (compile_globs : list string -> option (Path -> bool)) (snapshot_jujutsu_upper : string -> string -> M World O Z unit).
Context (core : OverlayCore) (others_quiet : forall o w, other o w = w).
Context (no_globs_match : forall matches, compile_globs [] = Some matches -> forall p, matches p = false).
Implicit Types (g : Stage) (w : World) (a : Attempt O) (l : list (Attempt O)).

Definition try_apply a g := apply_overlay_selected other beyond uid gid umask sha256_hex target_root compile_globs snapshot_jujutsu_upper
  (at_lower_dirs a) (at_selection a) (at_apply_id a) (at_now a) (at_envs a) g.

Definition attempts l g : Stage := fold_left (fun g a => restart (snd (try_apply a g))) l g.

(** A stage nobody has applied yet. *)
Definition Fresh g : Prop :=
  load_apply_records g = Ok [] /\ sg_meta g = Some (sg_record g) /\ or_upper (sg_record g) = Directory
  /\ or_state (sg_record g) ∈ [Active; Staged] /\ Awaiting core (merged core (sg_world g)) (sg_world g).

Section Story.
Context (id : string) (generation : Z) (target : string) (m : Path -> option Kind).
Abbreviation Sound := (Sound core id generation target m).
Abbreviation Idle := (Idle core id generation target m).

Lemma try_apply_Sound a g : Sound g -> (forall records, load_apply_records g = Ok records -> unused (at_apply_id a) records) ->
  Sound (snd (try_apply a g)).
Proof.
  intros HS Hun. pose proof (apply_overlay_selected_triple other beyond uid gid umask sha256_hex target_root compile_globs snapshot_jujutsu_upper
    core others_quiet id generation target m (at_lower_dirs a) (at_selection a) (at_apply_id a) (at_now a) no_globs_match (at_envs a) g (conj HS Hun)) as H.
  unfold try_apply. destruct (apply_overlay_selected _ _ _ _ _ _ _ _ _ _ _ _ _ _ g) as [[|[?|?] rest] g']; [done| |done].
  destruct H as [(records & HI) _]. by eapply Idle_Sound.
Qed.

Lemma known_unused ids apply_id g : known ids g -> apply_id ∉ ids ->
  forall records, load_apply_records g = Ok records -> unused apply_id records.
Proof. intros Hk Hn records Hl Hin. apply list_elem_of_fmap in Hin as (r & -> & Hr). by eapply Hn, Hk. Qed.

Lemma attempts_Sound l ids g : Sound g -> known ids g -> NoDup (ids ++ (at_apply_id <$> l)) ->
  Sound (attempts l g) /\ known (ids ++ (at_apply_id <$> l)) (attempts l g).
Proof.
  revert ids g. induction l as [|a l IH]; intros ids g HS Hk Hd; [by rewrite app_nil_r|].
  rewrite fmap_cons, cons_middle, app_assoc in *. simpl.
  assert (at_apply_id a ∉ ids) as Hn.
  { apply NoDup_app in Hd as [Hd _]. apply NoDup_app in Hd as (_ & Hd & _). intros Hin. apply (Hd _ Hin). by left. }
  apply IH; [|intros records r|done].
  - apply restart_Sound, try_apply_Sound; [done|]. by eapply known_unused.
  - assert (known (ids ++ [at_apply_id a]) (snd (try_apply a g))) as Hk'.
    { assert (known (ids ++ [at_apply_id a]) g) as Hg by (intros rs x Hrs Hx; apply elem_of_app; left; by eapply Hk).
      pose proof (keep_apply_overlay_selected other beyond uid gid umask sha256_hex target_root compile_globs snapshot_jujutsu_upper others_quiet
        (ids ++ [at_apply_id a]) (at_lower_dirs a) (at_selection a) (at_apply_id a) (at_now a)
        ltac:(apply elem_of_app; right; by left) (at_envs a) g Hg) as H.
      unfold try_apply. by destruct (apply_overlay_selected _ _ _ _ _ _ _ _ _ _ _ _ _ _ g) as [[|[?|?] rest] g']. }
    intros Hl. apply Hk'. revert Hl. unfold restart. by destruct (sg_meta (snd (try_apply a g))).
Qed.
End Story.

(** After any attempts, one that answers. *)
Lemma attempts_spec l a g out rest : Fresh g -> NoDup (at_apply_id <$> l ++ [a]) ->
  fst (try_apply a (attempts l g)) = Done (Ok out) rest ->
  let w' := sg_world (snd (try_apply a (attempts l g))) in
  (forall p, ordinary p -> merged core w' p = merged core (sg_world g) p)
  /\ (is_all (at_selection a) = true -> Gone core (merged core (sg_world g)) w').
Proof.
  intros (Hl & Hm & Hu & Hst & HA) Hd Hok.
  assert (Sound core (or_id (sg_record g)) (or_generation (sg_record g)) (or_target (sg_record g)) (merged core (sg_world g)) g) as HS.
  { apply (Idle_Sound _ _ _ _ _ []). assert (or_state (sg_record g) <> Discarded /\ or_state (sg_record g) <> Applied) as [H1 H2].
    { revert Hst. rewrite !elem_of_cons, elem_of_nil. naive_solver congruence. }
    assert (good_record core (or_id (sg_record g)) (or_generation (sg_record g)) (or_target (sg_record g)) (merged core (sg_world g)) (sg_world g) (sg_record g)) as Hg.
    { split_and!; done. }
    split; [|split; [done|split; [done|by left]]]. split; [done|]. rewrite Hm. by intros r [= <-]. }
  rewrite fmap_app in Hd. assert (known [] g) as Hk by (intros records r Hrs Hr; rewrite Hl in Hrs; injection Hrs as <-; by apply elem_of_nil in Hr).
  destruct (attempts_Sound _ _ _ _ l [] g HS Hk) as [HS' Hk']; [by apply NoDup_app in Hd as [? _]|].
  assert (at_apply_id a ∉ [] ++ (at_apply_id <$> l)) as Hn.
  { intros Hin. apply NoDup_app in Hd as (_ & Hd & _). apply (Hd _ Hin). by left. }
  pose proof (apply_overlay_selected_triple other beyond uid gid umask sha256_hex target_root compile_globs snapshot_jujutsu_upper
    core others_quiet _ _ _ _ (at_lower_dirs a) (at_selection a) (at_apply_id a) (at_now a) no_globs_match (at_envs a) (attempts l g)
    (conj HS' (known_unused _ _ _ Hk' Hn))) as H.
  unfold try_apply in *. destruct (apply_overlay_selected _ _ _ _ _ _ _ _ _ _ _ _ _ _ _) as [[|[?|?] ?] g']; [done| |done].
  destruct H as [(records & _ & _ & _ & HP) Hall]. cbn [snd]. split; [|done]. destruct HP as [HP|[HG _]].
  - by apply merged_Awaiting.
  - by apply merged_gone.
Qed.
End Attempts.

(** ** Refusals *)

Section Refusals.
Context {O : Type} (other : O -> World -> World) (beyond : World -> FPath -> Path -> option Node).
Context (uid gid umask : Z) (sha256_hex : string -> string) (target_root : string).
Context (compile_globs : list string -> option (Path -> bool)) (snapshot_jujutsu_upper : string -> string -> M World O Z unit).
Context (others_quiet : forall o w, other o w = w).
Implicit Types (g : Stage) (w : World) (preimages : list PathPreimage).

Lemma validate_refuses w preimages changes x : x ∈ preimages ->
  fingerprint_at sha256_hex (area_layer beyond w Target) (pi_path x) <> Ok (pi_state x) ->
  exists e, validate_target_preimages beyond sha256_hex w preimages changes false = Err e.
Proof.
  intros Hx Hf. unfold validate_target_preimages. induction preimages as [|y l IH]; [by apply elem_of_nil in Hx|]. simpl.
  destruct (validate_preimage beyond sha256_hex w changes false y) as [[]|e] eqn:E; [|simpl; eauto]. simpl.
  apply elem_of_cons in Hx as [->|Hx]; [|by apply IH]. exfalso. revert E. unfold validate_preimage.
  destruct (fingerprint_at _ _ _) as [f|e]; simpl; [|done]. case_bool_decide; [congruence|done].
Qed.

Lemma no_pending lower_dirs records g : load_apply_records g = Ok records -> Forall committed records ->
  triple (fun x => x = g) (recover_pending_applies_locked other beyond uid gid umask sha256_hex target_root snapshot_jujutsu_upper lower_dirs)
    (fun _ x => x = g) (fun x => x = g) (fun x => x = g).
Proof.
  intros Hl Hc. unfold recover_pending_applies_locked, read_records.
  eapply (triple_bind _ _ _ (fun rs x => rs = records /\ x = g)).
  { eapply triple_bind; [apply triple_ask_stage|intros r]. cbv beta. apply triple_extract with (φ := r = Ok records); [by intros ? [-> ->]|].
    intros ->. apply triple_ret. by intros ? [-> _]. }
  intros rs. apply triple_fact. intros ->. rewrite filter_committed by done. by apply triple_ret.
Qed.

(** A target that changed since is refused before anything is written. *)
Lemma conflict_triple lower_dirs selection apply_id now records plan preimages x g :
  load_apply_records g = Ok records -> Forall committed records ->
  plan_overlay_apply beyond compile_globs (sg_world g) lower_dirs selection = Ok plan ->
  prepare_apply_preimages beyond sha256_hex (sg_world g) (ap_paths plan) = Ok preimages ->
  x ∈ preimages -> fingerprint_at sha256_hex (area_layer beyond (sg_world g) Target) (pi_path x) <> Ok (pi_state x) ->
  or_state (sg_record g) <> Applied ->
  triple (fun y => y = g)
    (apply_overlay_selected other beyond uid gid umask sha256_hex target_root compile_globs snapshot_jujutsu_upper lower_dirs selection apply_id now)
    (fun _ _ => False) (fun y => y = g) (fun y => y = g).
Proof.
  intros Hl Hc Hp Hpre Hx Hf Hst. destruct (validate_refuses (sg_world g) preimages (ap_selected plan) x Hx Hf) as [e He].
  assert (forall y A (f : Stage -> A), y = g -> triple (fun z => z = y) (ask (O:=O) (E:=OverlayError) f) (fun a z => a = f g /\ z = g) (fun z => z = g) (fun z => z = g)) as Hask.
  { intros y A f ->. apply triple_ask. by intros z ->. }
  unfold apply_overlay_selected. eapply triple_bind; [by apply Hask|intros r0]. apply triple_fact. intros ->.
  destruct (or_protect_target (sg_record g)); [by apply triple_throw|].
  eapply (triple_bind _ _ _ (fun _ z => z = g)).
  { unfold acquire_target_lock, OverlayCommit.io. assert (forall w, w = sg_world g -> set_world w g = g) as E by (intros w ->; by destruct g).
    eapply triple_post; [apply (triple_io_as IoError _ g (fun _ w => w = sg_world g) (fun w => w = sg_world g) (fun w => w = sg_world g)); by apply triple_sys| | |].
    - intros ? z (w & -> & Hw). auto.
    - intros z (w & -> & Hw). auto.
    - intros z (w & -> & Hw). auto. }
  intros []. eapply triple_bind; [by eapply no_pending|intros ids].
  eapply triple_bind; [by apply Hask|intros r0]. apply triple_fact. intros ->.
  destruct (or_state (sg_record g)); [| |done|by apply triple_throw].
  all: unfold in_world; eapply triple_bind; [by apply Hask|intros r1]; apply triple_fact; intros ->; rewrite Hp;
    (eapply (triple_bind _ _ _ (fun a z => a = plan /\ z = g)); [by apply triple_ret|intros a]; apply triple_fact; intros ->);
    (eapply triple_bind; [by apply Hask|intros r1]; apply triple_fact; intros ->; rewrite Hpre);
    (eapply (triple_bind _ _ _ (fun a z => a = preimages /\ z = g)); [by apply triple_ret|intros a]; apply triple_fact; intros ->);
    (eapply triple_bind; [by apply Hask|intros r1]; apply triple_fact; intros ->; rewrite He);
    (eapply (triple_bind _ _ _ (fun _ _ => False)); [by apply triple_throw|]); intros ? ? ? [].
Qed.
End Refusals.

(** ** Discarding *)

Section Discard.
Context {O : Type} (other : O -> World -> World) (beyond : World -> FPath -> Path -> option Node).
Context (snapshot_jujutsu_upper : string -> string -> M World O Z unit).
Context (others_quiet : forall o w, other o w = w).
Implicit Types (g : Stage) (w : World) (a : Area) (p : Path).

(** Nothing was added, and in the target nothing was removed. *)
Definition Leaner w0 w : Prop :=
  (forall f, node_at w f = node_at w0 f \/ node_at w f = None) /\ forall p, node_at w (Target, p) = node_at w0 (Target, p).

Definition rooted w a : Prop := forall p, p <> [] -> is_Some (node_at w (a, p)) -> exists d, node_at w (a, []) = Some d /\ node_is_dir d = true.
Definition cleared w a : Prop := forall p, node_at w (a, p) = None.

(** An area is being emptied; [rest] is what is still to go. *)
Definition Emptying w0 a (P : World -> Prop) (rest : list FPath) w : Prop :=
  Leaner w0 w /\ P w /\ Forall (fun f => fst f = a) rest /\ forall p, is_Some (node_at w (a, p)) -> (a, p) ∈ rest.

Lemma delete_leaner w0 w a p : a <> Target -> Leaner w0 w -> Leaner w0 (set_entries (delete (a, p)) w).
Proof.
  intros Ha [H1 H2]. split.
  - intros f. destruct (decide (f = (a, p))) as [->|Hf]; [right; unfold node_at; simpl; by rewrite lookup_delete_eq|].
    rewrite node_at_delete by done. apply H1.
  - intros q. rewrite node_at_delete by congruence. apply H2.
Qed.

Definition stable_but a (P : World -> Prop) : Prop := forall w p, P w -> P (set_entries (delete (a, p)) w).

Lemma remove_any_empties w0 a P f rest : a <> Target -> stable_but a P ->
  triple (Emptying w0 a P (f :: rest)) (remove_any other f) (fun _ => Emptying w0 a P rest) (Leaner w0) (Leaner w0).
Proof.
  intros Ha HP. apply triple_sys; [done|by intros w [? _]..|]. intros w (HL & Hw & Hf & Hin). apply Forall_cons_1 in Hf as [Hf Hrest].
  destruct f as [a' p]. simpl in Hf. subst a'. pose proof (delete_leaner w0 w a p Ha HL) as HL'.
  assert (Emptying w0 a P rest (set_entries (delete (a, p)) w)) as HE.
  { split_and!; [done|by apply HP|done|]. intros q Hq. destruct (decide (q = p)) as [->|Hne].
    - unfold node_at in Hq. simpl in Hq. rewrite lookup_delete_eq in Hq. by destruct Hq.
    - rewrite node_at_delete in Hq by congruence. apply Hin, elem_of_cons in Hq as [?|?]; [congruence|done]. }
  destruct (node_at w (a, p)) as [n|] eqn:En; [|done]. unfold rmdir, unlink. rewrite En. destruct (node_is_dir n) eqn:Ed; rewrite ?Ed; [|done].
  case_bool_decide; done.
Qed.

Lemma clear_area_triple w0 a P : a <> Target -> stable_but a P ->
  triple (fun w => Leaner w0 w /\ P w /\ rooted w a) (remove_path other beyond (a, [])) (fun _ w => Leaner w0 w /\ P w /\ cleared w a) (Leaner w0) (Leaner w0).
Proof.
  intros Ha HP. unfold remove_path. apply triple_at. intros w1 (HL & Hw & Hroot). eapply triple_bind; [apply triple_ask_eq|intros found]. cbv beta.
  apply triple_extract with (φ := found = node_at w1 (a, [])).
  { intros w [-> ->]. unfold lstat. simpl. by destruct (node_at w1 (a, [])). }
  intros ->. eapply (triple_pre _ (fun w => w = w1)); [by intros w [-> _]|]. destruct (node_at w1 (a, [])) as [n|] eqn:En.
  - destruct (node_is_dir n) eqn:Hdir; [unfold remove_dir_all|].
    2:{ apply triple_sys; [done|by intros w ->..|]. intros w ->. unfold unlink. rewrite En, Hdir. pose proof (delete_leaner w0 w1 a [] Ha HL) as HL'.
        split; [|done]. split_and!; [done|by apply HP|]. intros p. destruct p as [|x p]; [unfold node_at; simpl; by rewrite lookup_delete_eq|].
        rewrite node_at_delete by congruence. destruct (node_at w1 (a, x :: p)) eqn:E; [|done].
        destruct (Hroot (x :: p)) as (d & Hd & Hd'); [done|by rewrite E|congruence]. }
    eapply (triple_bind _ _ _ (Emptying w0 a P)).
    { apply triple_ask. intros w ->. split_and!; [done|done| |].
      - apply Forall_forall. intros f [Hf _]%elem_of_contents. by apply subtree_spec in Hf as [<- _].
      - intros p [nd Hnd]. apply elem_of_contents_2; [apply subtree_pair; split; [done|by exists p]|].
        apply node_at_entry in Hnd as (i & Hi & _). by eexists. }
    intros fs. eapply (triple_post _ _ _ (fun _ => Emptying w0 a P [])); [|intros ? w (HL' & Hw' & _ & Hin)|done|done].
    + apply (triple_for (fun rest _ => Emptying w0 a P rest)). intros f rest []. by apply remove_any_empties.
    + split_and!; [done|done|]. intros p. destruct (node_at w (a, p)) eqn:E; [|done]. specialize (Hin p ltac:(by rewrite E)). by apply elem_of_nil in Hin.
  - apply triple_ret. intros w ->. split_and!; [done|done|]. intros p. destruct p as [|x p]; [done|].
    destruct (node_at w1 (a, x :: p)) eqn:E; [|done]. destruct (Hroot (x :: p)) as (d & Hd & _); [done|by rewrite E|congruence].
Qed.

Definition Spared g0 g : Prop :=
  Leaner (sg_world g0) (sg_world g) /\ sg_ledger g = sg_ledger g0
  /\ (sg_meta g = sg_meta g0 \/ exists record, sg_meta g = Some record /\ or_state record = Discarded).
Definition spared_with g0 (P : World -> Prop) g : Prop :=
  Leaner (sg_world g0) (sg_world g) /\ P (sg_world g) /\ sg_ledger g = sg_ledger g0 /\ sg_meta g = sg_meta g0.

Lemma spared_with_Spared g0 P g : spared_with g0 P g -> Spared g0 g.
Proof. intros (H1 & _ & H2 & H3). split_and!; auto. Qed.

Lemma clear_path_triple g0 a P : a <> Target -> stable_but a P ->
  triple (spared_with g0 (fun w => P w /\ rooted w a)) (clear_path other beyond (a, [])) (fun _ => spared_with g0 (fun w => P w /\ cleared w a))
    (Spared g0) (Spared g0).
Proof.
  intros Ha HP. apply triple_stage_at. intros g1 (HL & [HPw Hr] & Hl & Hm). unfold clear_path, in_world.
  eapply triple_bind; [apply triple_ask_stage|intros present]. cbv beta.
  apply triple_extract with (φ := present = path_exists beyond (sg_world g1) (a, [])); [by intros g [-> ->]|].
  intros ->. eapply (triple_pre _ (fun g => g = g1)); [by intros g [-> _]|].
  assert (forall w, Leaner (sg_world g0) w -> Spared g0 (set_world w g1)) as Hout by (intros w Hw; split_and!; [done|done|by left]).
  destruct (path_exists beyond (sg_world g1) (a, [])) eqn:Ep.
  - unfold OverlayCommit.io. eapply triple_post; [apply triple_io_as; eapply (triple_pre _ (fun w => Leaner (sg_world g0) w /\ P w /\ rooted w a));
      [by intros w ->|by apply clear_area_triple]| | |].
    + intros ? g (w & -> & HL' & HP' & Hc). by split_and!.
    + intros g (w & -> & HL'). auto.
    + intros g (w & -> & HL'). auto.
  - apply triple_ret. intros g ->. split_and!; try done. intros p. apply bool_decide_eq_false in Ep.
    assert (node_at (sg_world g1) (a, []) = None) as HN by (unfold lstat in Ep; destruct (node_at _ (a, [])); [by destruct Ep|done]).
    destruct p as [|x p]; [done|]. destruct (node_at (sg_world g1) (a, x :: p)) eqn:E; [|done].
    destruct (Hr (x :: p)) as (d & Hd & _); [done|by rewrite E|congruence].
Qed.

Lemma remove_merged_spares g0 P : triple (spared_with g0 P) (remove_merged other) (fun _ => spared_with g0 P) (Spared g0) (Spared g0).
Proof.
  unfold remove_merged. eapply (triple_bind _ _ _ (fun _ => spared_with g0 P)).
  - eapply (triple_attempt _ _ _ _ _ (spared_with g0 P)); [apply triple_effect|done].
    + intros o g HW. unfold other_stage. rewrite others_quiet. by destruct g.
    + done.
    + intros g. apply spared_with_Spared.
    + intros _ g HW. destruct (sg_merged g) as [[|n]|]; done.
  - intros [?|e]; [by apply triple_ret|]. destruct (bool_decide _); [by apply triple_ret|]. apply triple_throw. intros g. apply spared_with_Spared.
Qed.

Definition both_cleared w : Prop := cleared w Upper /\ cleared w Work.

Lemma stable_rooted_work : stable_but Upper (fun w => rooted w Work).
Proof. intros w p Hr q. rewrite !node_at_delete by congruence. apply Hr. Qed.
Lemma stable_cleared_upper : stable_but Work (fun w => cleared w Upper).
Proof. intros w p Hc q. rewrite node_at_delete by congruence. apply Hc. Qed.

Lemma discard_cleanup_triple g0 : or_upper (sg_record g0) = Directory ->
  triple (fun g => spared_with g0 (fun w => rooted w Work /\ rooted w Upper) g /\ sg_record g = sg_record g0) (cleanup_terminal_overlay_data other beyond)
    (fun _ => spared_with g0 both_cleared) (Spared g0) (Spared g0).
Proof.
  intros Hu. unfold cleanup_terminal_overlay_data. eapply triple_bind; [apply triple_ask_stage|intros record]. cbv beta.
  apply triple_extract with (φ := record = sg_record g0); [by intros g [[_ ?] ->]|]. intros ->. rewrite Hu.
  eapply (triple_bind _ _ _ (fun _ => spared_with g0 both_cleared)).
  - eapply triple_bind; [eapply triple_pre; [|apply clear_path_triple; [done|apply stable_rooted_work]]; by intros g [[? _] _]|intros []].
    eapply triple_post; [eapply triple_pre; [|apply (clear_path_triple g0 Work _ ltac:(done) stable_cleared_upper)]| |done|done].
    + intros g (H1 & [H2 H3] & H4 & H5). exact (conj H1 (conj (conj H3 H2) (conj H4 H5))).
    + done.
  - intros []. destruct (or_merged_in_stage (sg_record g0)); [apply remove_merged_spares|apply triple_ret; done].
Qed.

(** A discard that answers leaves nothing but the target and says so; whatever
    happens, the target is as it was. *)
Lemma wf_rooted w a : wf w -> rooted w a.
Proof. intros Hw p Hp [nd Hnd]. by apply (wf_above w a [] p nd). Qed.

Lemma discard_triple g0 : or_upper (sg_record g0) = Directory -> or_state (sg_record g0) ∈ [Active; Staged] ->
  wf (sg_world g0) ->
  triple (fun g => g = g0) (discard_overlay other beyond snapshot_jujutsu_upper)
    (fun _ g => spared_with (set_meta (sg_record g) g0) both_cleared g /\ or_state (sg_record g) = Discarded) (Spared g0) (Spared g0).
Proof.
  intros Hu Hst Hw. unfold discard_overlay. eapply triple_bind; [apply triple_ask_stage|intros record]. cbv beta.
  apply triple_extract with (φ := record = sg_record g0); [by intros g [-> ->]|]. intros ->. rewrite Hu.
  eapply (triple_pre _ (fun g => g = g0)); [by intros g [-> _]|].
  assert (spared_with g0 (fun w => rooted w Work /\ rooted w Upper) g0) as H0 by (split_and!; try done; try (by apply wf_rooted); split; [by left|done]).
  assert (triple (fun g => g = g0)
    (ret (E:=OverlayError) (O:=O) tt ;; cleanup_terminal_overlay_data other beyond ;;
     modify (fun g => set_record (set_state Discarded (sg_record g)) g) ;; write_overlay_record other)
    (fun _ g => spared_with (set_meta (sg_record g) g0) both_cleared g /\ or_state (sg_record g) = Discarded) (Spared g0) (Spared g0)) as Hmain.
  { eapply (triple_bind _ _ _ (fun _ g => g = g0)); [by apply triple_ret|intros []].
    eapply triple_bind; [eapply triple_pre; [|by apply discard_cleanup_triple]; by intros g ->|intros []].
    eapply (triple_bind _ _ _ (fun _ g => spared_with g0 both_cleared g /\ or_state (sg_record g) = Discarded)).
    { apply triple_modify. intros g H. by split. }
    intros []. apply triple_stage_at. intros g1 [H1 Hd]. pose proof (spared_with_Spared _ _ _ H1) as HS1.
    assert (Spared g0 (set_meta (sg_record g1) g1)) as HS2 by (destruct HS1 as (? & ? & _); split_and!; try done; right; eauto).
    unfold write_overlay_record. eapply triple_post; [by apply triple_persist|intros ? g ->| |by intros g ->].
    - destruct H1 as (? & ? & ? & ?). by split_and!.
    - by intros g [->| ->]. }
  destruct (or_state (sg_record g0)); [done|done|exfalso..].
  all: repeat (apply elem_of_cons in Hst as [?|Hst]; [done|]); by apply elem_of_nil in Hst.
Qed.
End Discard.
