(* ===== verification/OverlayEnds.v ===== *)
(** * Applications stop

    The walks over the upper directory recurse by its height, and the plan is a
    fixpoint.  Here that is shown to be enough: from any stage at all, whatever an
    application answers, it is never the exhausted recursion. *)

From Stdlib Require Import ZArith Lia.
From stdpp Require Import base list strings gmap pretty sorting.
From S2P Require Import Prelude Effects OverlayFs OverlayCore OverlayView OverlaySteps OverlayDepth OverlayApply OverlayPlan OverlayCommit.
#[local] Set Warnings "-clear-no-such-hyp".
Open Scope string_scope.
Open Scope list_scope.
Open Scope effect_scope.

Create HintDb ends.

(** ** The walks *)

Section Walks.
Context {O : Type} (other : O -> World -> World) (beyond : World -> FPath -> Path -> option Node).
Context (uid gid umask : Z) (sha256_hex : string -> string) (target_root : string).
Context (others_quiet : forall o w, other o w = w).
Context (h : nat).
Implicit Types (w : World) (p q : Path).
Abbreviation Fs A := (M World O Z A).

(** Nothing in the upper directory is deeper than [h]. *)
Definition shallow w : Prop := forall p, is_Some (w_entries w !! (Upper, p)) -> length p <= h.

(** The answer is one of the system, and the upper directory has not grown. *)
Definition ends {A} (c : Fs A) : Prop := forall envs w, shallow w ->
  match c envs w with
  | (Done r _, w') => res_ok r /\ shallow w'
  | (Crashed, _) => True
  end.

Lemma ends_ret {A} (a : A) : ends (ret a).
Proof. by intros envs w Hw. Qed.
Lemma ends_throw {A} e : (0 <= e)%Z -> ends (A:=A) (throw e).
Proof. by intros He envs w Hw. Qed.
Lemma ends_lift {A} (r : result Z A) : res_ok r -> ends (lift r).
Proof. intros Hr envs w Hw. by destruct r. Qed.
Lemma ends_ask {A} (f : World -> A) : ends (ask f).
Proof. by intros envs w Hw. Qed.
Lemma ends_bind {A B} (c : Fs A) (k : A -> Fs B) : ends c -> (forall a, ends (k a)) -> ends (bind c k).
Proof.
  intros Hc Hk envs w Hw. unfold bind. specialize (Hc envs w Hw). destruct (c envs w) as [[|[a|e] rest] w']; [done| |done].
  destruct Hc. by apply Hk.
Qed.
(** What a question was answered. *)
Lemma ends_ask_bind {A B} (f : World -> A) (k : A -> Fs B) :
  (forall w, shallow w -> ends (k (f w))) -> ends (bind (ask f) k).
Proof. intros Hk envs w Hw. by apply (Hk w Hw). Qed.
Lemma ends_attempt {A B} (c : Fs A) (k : result Z A -> Fs B) : ends c -> (forall r, res_ok r -> ends (k r)) -> ends (bind (attempt c) k).
Proof.
  intros Hc Hk envs w Hw. unfold bind, attempt. specialize (Hc envs w Hw). destruct (c envs w) as [[|r rest] w']; [done|].
  destruct Hc. by apply Hk.
Qed.
Lemma ends_for {X A} (l : list X) (body : X -> A -> Fs A) a : (forall x a, x ∈ l -> ends (body x a)) -> ends (for_each l body a).
Proof.
  revert a. induction l as [|x l IH]; intros a Hb; simpl; [apply ends_ret|].
  apply ends_bind; [apply Hb; by left|]. intros b. apply IH. intros y c Hy. apply Hb. by right.
Qed.
Lemma ends_sys {A} (f : World -> result Z A * World) :
  (forall w, res_ok (fst (f w)) /\ (shallow w -> shallow (snd (f w)))) -> ends (sys other f).
Proof.
  intros Hf envs w Hw. unfold sys, effect. destruct envs as [|e rest]; [done|].
  assert (fold_left (fun w o => other o w) (env_others e) w = w) as ->.
  { clear -others_quiet. induction (env_others e) as [|o os IH]; [done|]. simpl. by rewrite others_quiet. }
  cbv zeta. pose proof (fault_errno (env_errno e)). destruct (Hf w) as [H1 H2]. specialize (H2 Hw).
  by destruct (env_fate e), (f w) as [r w2].
Qed.

(** *** The calls *)

Lemma shallow_delete f w : shallow w -> shallow (set_entries (delete f) w).
Proof. intros Hw p [i Hi]. simpl in Hi. apply lookup_delete_Some in Hi as [_ Hi]. apply Hw. by eexists. Qed.
Lemma shallow_target q i w : shallow w -> shallow (set_entries <[(Target, q) := i]> w).
Proof. intros Hw p [j Hj]. simpl in Hj. rewrite lookup_insert_ne in Hj by congruence. apply Hw. by eexists. Qed.

Lemma ends_create nd q : ends (sys other (create nd (Target, q))).
Proof.
  apply ends_sys. intros w. unfold create, parent_error. repeat case_match; simplify_eq/=; split; try done.
  all: intros Hw; by apply shallow_target.
Qed.
Lemma ends_change g f : ends (sys other (change g f)).
Proof. apply ends_sys. intros w. unfold change. by repeat case_match. Qed.
Lemma ends_link f q : ends (fs_hard_link other f (Target, q)).
Proof.
  apply ends_sys. intros w. unfold link, parent_error. repeat case_match; simplify_eq/=; split; try done.
  all: intros Hw; by apply shallow_target.
Qed.
Lemma shallow_move p q w : shallow w -> shallow (set_entries (move_entries (Target, p) (Target, q)) w).
Proof.
  intros Hw x [i Hi]. simpl in Hi. unfold move_entries, kmap in Hi. apply elem_of_list_to_map_2 in Hi.
  apply list_elem_of_fmap in Hi as ([[a y] j] & E & Hin). simpl in E. apply elem_of_map_to_list, map_lookup_filter_Some in Hin as [Hin _].
  apply Hw. unfold swap_prefix in E. repeat case_match; simplify_eq/=. by eexists.
Qed.
Lemma ends_rename p q : ends (fs_rename other (Target, p) (Target, q)).
Proof.
  apply ends_sys. intros w. unfold rename_entry, parent_error, replace_error. repeat case_match; simplify_eq/=; split; try done.
  all: intros Hw; by apply shallow_move.
Qed.
Lemma ends_rmdir f : ends (sys other (rmdir f)).
Proof. apply ends_sys. intros w. unfold rmdir. repeat case_match; simpl; split; try done. by apply shallow_delete. Qed.
Lemma ends_remove_file f : ends (remove_file other f).
Proof. apply ends_sys. intros w. unfold unlink. repeat case_match; simpl; split; try done. by apply shallow_delete. Qed.
Lemma ends_remove_any f : ends (remove_any other f).
Proof. apply ends_sys. intros w. unfold rmdir, unlink. repeat case_match; simpl; split; try done; by apply shallow_delete. Qed.
Lemma ends_write f c : ends (write_all other f c).
Proof. apply ends_sys. intros w. unfold change. by repeat case_match. Qed.
Lemma ends_sync f : ends (sync other f).
Proof. by apply ends_sys. Qed.
#[local] Hint Resolve ends_ret ends_ask ends_create ends_change ends_link ends_rename ends_rmdir ends_remove_file ends_remove_any ends_write ends_sync : ends.

Ltac ends := repeat first
  [ solve [eauto 2 with ends]
  | apply ends_throw; first [done | assumption]
  | apply ends_lift; solve [eauto 2 with errs]
  | apply ends_attempt; [|intros [?|?] ?]
  | apply ends_bind; [|intros ?]
  | apply ends_for; intros ? ? _
  | case_match ].

Lemma ends_remove_dir_all f : ends (remove_dir_all other f).
Proof. unfold remove_dir_all. ends. Qed.
#[local] Hint Resolve ends_remove_dir_all : ends.
Lemma ends_remove_path f : ends (remove_path other beyond f).
Proof. unfold remove_path. ends. Qed.
#[local] Hint Resolve ends_remove_path : ends.
Lemma ends_create_dir_all q : ends (create_dir_all other beyond uid gid umask (Target, q)).
Proof. unfold create_dir_all, fs_create_dir. cbn [fst snd]. ends. Qed.
#[local] Hint Resolve ends_create_dir_all : ends.
Lemma ends_ensure_directory q : ends (ensure_directory other beyond uid gid umask (Target, q)).
Proof. unfold ensure_directory, fs_create_dir. ends. Qed.
Lemma ends_copy_host_metadata nd f : ends (copy_host_metadata other beyond nd f).
Proof.
  unfold copy_host_metadata, copy_host_xattrs, best_effort, chown, set_permissions, set_times, set_xattr, remove_host_xattr. cbv zeta. ends.
Qed.
#[local] Hint Resolve ends_ensure_directory ends_copy_host_metadata : ends.
Lemma ends_make_entry nd existing q : ends (make_entry other uid gid umask nd existing (Target, q)).
Proof. unfold make_entry, fs_copy, fs_symlink, mknod, open_new, set_permissions. ends. Qed.
#[local] Hint Resolve ends_make_entry : ends.
Lemma ends_copy_upper_entry p hl : ends (copy_upper_entry other beyond uid gid umask sha256_hex target_root p hl).
Proof. unfold copy_upper_entry, apply_temporary, ignore. cbv zeta. ends. Qed.
Lemma ends_apply_whiteout selected rel name : ends (apply_whiteout other beyond selected rel name).
Proof. unfold apply_whiteout. ends. Qed.
Lemma ends_clear_opaque_xattrs f : ends (clear_opaque_xattrs other beyond f).
Proof. unfold clear_opaque_xattrs, remove_host_xattr. ends. Qed.
#[local] Hint Resolve ends_copy_upper_entry ends_apply_whiteout ends_clear_opaque_xattrs : ends.

(** The names of a directory are one level further down. *)
Lemma ends_read_upper {B} rel (k : list string -> Fs B) :
  (forall names, (forall n, n ∈ names -> length (rel ++ [n]) <= h) -> ends (k names)) ->
  ends (let! entries := ask (fun w => read_dir w (Upper, rel)) in let! entries := lift (ok_or entries ENOTDIR) in k entries).
Proof.
  intros Hk. apply ends_ask_bind. intros w Hw. unfold read_dir.
  assert (ends (k (names_under w (Upper, rel)))) as Hn.
  { apply Hk. intros n Hn. apply Hw. by apply elem_of_names_under. }
  destruct (node_at w (Upper, rel)) as [nd|]; [destruct (node_is_dir nd)|]; intros envs w' Hw'; [by apply Hn|done|done].
Qed.

Lemma ends_apply_selected_directory selected fuel : forall rel hl, h < length rel + fuel -> 1 <= fuel ->
  ends (apply_selected_directory other beyond uid gid umask sha256_hex target_root selected fuel rel hl).
Proof.
  induction fuel as [|fuel IH]; intros rel hl Hh Hf; [lia|]. simpl.
  apply ends_bind; [ends|intros _]. apply ends_bind; [ends|intros opaque]. apply ends_bind; [ends|intros _].
  apply ends_read_upper. intros names Hnames. apply ends_bind; [ends|intros _]. apply ends_for. intros n hl' Hn.
  specialize (Hnames n Hn). rewrite length_app in Hnames. simpl in Hnames.
  assert (forall hl, ends (apply_selected_directory other beyond uid gid umask sha256_hex target_root selected fuel (rel ++ [n]) hl)).
  { intros hl''. apply IH; [rewrite length_app; simpl; lia|lia]. }
  ends.
Qed.

Lemma ends_prune_selected_directory selected fuel : forall rel, h < length rel + fuel -> 1 <= fuel ->
  ends (prune_selected_directory other beyond selected fuel rel).
Proof.
  induction fuel as [|fuel IH]; intros rel Hh Hf; [lia|]. simpl.
  apply ends_bind; [ends|intros _]. apply ends_read_upper. intros names Hnames. apply ends_for. intros n [] Hn.
  specialize (Hnames n Hn). rewrite length_app in Hnames. simpl in Hnames.
  assert (ends (prune_selected_directory other beyond selected fuel (rel ++ [n]))).
  { apply IH; [rewrite length_app; simpl; lia|lia]. }
  cbv zeta. ends.
Qed.
End Walks.

Lemma shallow_height w : shallow (height w) w.
Proof.
  intros p [i Hi]. unfold height. apply max_list_elem_of_le, elem_of_app. right.
  apply list_elem_of_fmap. exists ((Upper, p), i). split; [done|by apply elem_of_map_to_list].
Qed.

Lemma ends_errs {O A} (c : M World O Z A) : (forall h, ends h c) -> errs Always c.
Proof. intros Hc envs w _. specialize (Hc (height w) envs w (shallow_height w)). destruct (c envs w) as [[|r rest] w']; [done|]. by destruct Hc. Qed.

Lemma ends_errs_height {O A} h (c : M World O Z A) : ends h c -> errs (fun w => Always w /\ h = height w) c.
Proof.
  intros Hc envs w [_ ->]. specialize (Hc envs w (shallow_height w)). destruct (c envs w) as [[|r rest] w']; [done|]. by destruct Hc.
Qed.

(** ** Stages *)

Section Stages.
Context {O : Type} (other : O -> World -> World) (beyond : World -> FPath -> Path -> option Node).
Context (uid gid umask : Z) (sha256_hex : string -> string) (target_root : string).
Context (compile_globs : list string -> option (Path -> bool)) (snapshot_jujutsu_upper : string -> string -> M World O Z unit).
Context (others_quiet : forall o w, other o w = w).
Implicit Types (g : Stage) (w : World) (selected : gset Path).
Abbreviation St A := (M Stage O OverlayError A).

Lemma errs_apply_selected_upper selected : errs Always (apply_selected_upper other beyond uid gid umask sha256_hex target_root selected).
Proof.
  unfold apply_selected_upper. apply errs_seq; [apply ends_errs; intros h; by apply ends_ensure_directory|intros _].
  apply errs_ask_bind. intros h. apply ends_errs_height. apply ends_bind; [|intros ?; apply ends_ret].
  apply ends_apply_selected_directory; [done|simpl; lia|lia].
Qed.

Lemma errs_prune_selected_upper selected : errs Always (prune_selected_upper other beyond selected).
Proof.
  unfold prune_selected_upper. apply errs_ask_bind. intros h. apply ends_errs_height.
  apply ends_prune_selected_directory; [done|simpl; lia|lia].
Qed.

Lemma errs_remove_preimages paths : errs Always (remove_preimages other sha256_hex paths).
Proof.
  unfold remove_preimages, sync_all. errs_tac; apply errs_sys; intros w; simpl; [by destruct (_ !! _)|done].
Qed.

(** The answers of an application. *)
Definition system_error (e : OverlayError) : Prop := e <> Unfinished /\ e <> IoError OUT_OF_FUEL.
Definition settles {A} (r : result OverlayError A) : Prop := match r with Err e => system_error e | Ok _ => True end.
Definition halts {A} (c : St A) : Prop := forall envs g, match fst (c envs g) with Done r _ => settles r | Crashed => True end.

Lemma halts_ret {A} (a : A) : halts (ret a).
Proof. by intros envs g. Qed.
Lemma halts_throw {A} e : system_error e -> halts (A:=A) (throw e).
Proof. by intros He envs g. Qed.
Lemma halts_ask {A} (f : Stage -> A) : halts (ask f).
Proof. by intros envs g. Qed.
Lemma halts_modify f : halts (modify f).
Proof. by intros envs g. Qed.
Lemma halts_lift {A} (r : result OverlayError A) : settles r -> halts (lift r).
Proof. intros Hr envs g. by destruct r. Qed.
Lemma halts_bind {A B} (c : St A) (k : A -> St B) : halts c -> (forall a, halts (k a)) -> halts (bind c k).
Proof.
  intros Hc Hk envs g. unfold bind. specialize (Hc envs g). destruct (c envs g) as [[|[a|e] rest] g']; [done| |done]. by apply Hk.
Qed.
Lemma halts_ask_lift {A B} (f : Stage -> result OverlayError A) (k : A -> St B) :
  (forall g, settles (f g)) -> (forall a, halts (k a)) -> halts (let! r := ask f in let! a := lift r in k a).
Proof.
  intros Hf Hk envs g. unfold bind, ask. specialize (Hf g). destruct (f g) as [a|e]; [|done]. by apply Hk.
Qed.
Lemma halts_ask_lift_only {A} (f : Stage -> result OverlayError A) : (forall g, settles (f g)) -> halts (let! r := ask f in lift r).
Proof. intros Hf envs g. unfold bind, ask. specialize (Hf g). by destruct (f g). Qed.
Lemma halts_for {X A} (l : list X) (body : X -> A -> St A) a : (forall x a, halts (body x a)) -> halts (for_each l body a).
Proof. intros H. revert a. induction l as [|x l IH]; intros a; simpl; [apply halts_ret|]. apply halts_bind; [done|apply IH]. Qed.
Lemma halts_io {A} (c : M World O Z A) : errs Always c -> halts (OverlayCommit.io c).
Proof.
  intros Hc envs g. unfold OverlayCommit.io, io_as. specialize (Hc envs (sg_world g) I).
  destruct (c envs (sg_world g)) as [[|[a|e] rest] w]; [done|done|]. simpl in *. split; [done|]. intros [= ->]. unfold OUT_OF_FUEL in Hc. lia.
Qed.
Lemma halts_finalize {A} (c : M World O Z A) : halts (io_as (fun _ => FinalizeError) c).
Proof. intros envs g. unfold io_as. by destruct (c envs (sg_world g)) as [[|[a|e] rest] w]. Qed.
Lemma halts_persist f : halts (persist other f).
Proof.
  intros envs g. unfold persist, effect. destruct envs as [|e rest]; [done|]. by destruct (env_fate e).
Qed.
#[local] Hint Resolve halts_ret halts_ask halts_modify halts_finalize halts_persist : ends.

(** *** Pure steps *)

Lemma settles_bind {A B} (r : result OverlayError A) (k : A -> result OverlayError B) :
  settles r -> (forall a, settles (k a)) -> settles (let? a := r in k a).
Proof. destruct r; simpl; auto. Qed.
Lemma settles_io {A} (r : result Z A) : (match r with Err e => e <> OUT_OF_FUEL | Ok _ => True end) -> settles (map_io r).
Proof. destruct r; [done|]. simpl. intros H. split; [done|]. by intros [= ->]. Qed.
Lemma settles_collect {X A} (f : X -> result OverlayError A) l : (forall x, settles (f x)) -> settles (collect_results f l).
Proof. intros Hf. induction l as [|x l IH]; [done|]. simpl. apply settles_bind; [done|]. intros a. by apply settles_bind. Qed.
Lemma settles_fold {X A} (f : X -> A -> result OverlayError A) l a : (forall x a, settles (f x a)) -> settles (fold_result f l a).
Proof. intros Hf. revert a. induction l as [|x l IH]; intros a; [done|]. simpl. by apply settles_bind. Qed.
Lemma settles_or {A} (o : option A) e : system_error e -> settles (ok_or o e).
Proof. by destruct o. Qed.

Lemma settles_fingerprint l path : settles (map_io (fingerprint_at sha256_hex l path)).
Proof.
  apply settles_io. pose proof (res_ok_fingerprint sha256_hex l path) as H. destruct (fingerprint_at _ _ _); [done|]. simpl in H. unfold OUT_OF_FUEL. lia.
Qed.

Lemma settles_load w : settles (map_io (load_preimages w)).
Proof.
  apply settles_io. unfold load_preimages. set (files := filter _ _). clearbody files.
  assert (match collect_results (fun '(_, file) => match file with JCreated => Err INVALID_DATA | JWritten p => let? _ := validate_rel (pi_path p) in Ok p end) files
          with Err e => e <> OUT_OF_FUEL | Ok _ => True end) as H; [|by destruct (collect_results _ files)].
  induction files as [|[name file] l IH]; [done|]. simpl. destruct file as [|p]; [done|]. pose proof (res_ok_rel (pi_path p)) as Hv.
  destruct (validate_rel (pi_path p)); simpl in *; [by destruct (collect_results _ l)|]. unfold OUT_OF_FUEL. lia.
Qed.

Lemma settles_prepare w selected : settles (prepare_apply_preimages beyond sha256_hex w selected).
Proof.
  unfold prepare_apply_preimages. apply settles_bind; [apply settles_load|]. intros preimages. apply settles_collect. intros path.
  case_match; [done|]. case_match; [done|]. apply settles_bind; [apply settles_fingerprint|done].
Qed.

Lemma settles_validate w preimages changes recovering : settles (validate_target_preimages beyond sha256_hex w preimages changes recovering).
Proof.
  apply settles_fold. intros preimage []. unfold validate_preimage. apply settles_bind; [apply settles_fingerprint|]. intros current.
  case_match; [done|]. case_match; [done|]. apply settles_bind.
  - unfold desired_fingerprint. repeat case_match; try done. apply settles_bind; [apply settles_fingerprint|done].
  - intros desired. by repeat case_match.
Qed.

Lemma settles_records g : settles (load_apply_records g).
Proof. unfold load_apply_records. by repeat case_match. Qed.
Lemma settles_normalize path : settles (normalize_selection_path path).
Proof. unfold normalize_selection_path. by case_match. Qed.
Lemma settles_compile selection : settles (compile compile_globs selection).
Proof.
  unfold compile. apply settles_bind; [apply settles_collect, settles_normalize|]. intros paths.
  apply settles_bind; [by apply settles_or|]. intros includes. apply settles_bind; [by apply settles_or|done].
Qed.

Lemma settles_take_along compiled paths selected : settles (take_along compiled paths selected).
Proof. apply settles_fold. intros path s. by case_match. Qed.
Lemma settles_close_once compiled changes opaque_dirs groups selected : settles (close_once compiled changes opaque_dirs groups selected).
Proof.
  unfold close_once. apply settles_bind.
  - apply settles_fold. intros opaque s. unfold close_opaque. repeat case_match; try done. apply settles_take_along.
  - intros s. apply settles_bind; [|intros s'].
    + apply settles_fold. intros group s'. unfold close_group. case_match; [apply settles_take_along|done].
    + apply settles_fold. intros path s''. apply settles_take_along.
Qed.
Lemma settles_close_loop compiled changes fuel opaque_dirs groups selected r :
  close_loop compiled changes fuel opaque_dirs groups selected = Some r -> settles r.
Proof.
  revert selected. induction fuel as [|fuel IH]; intros selected; [done|]. simpl.
  pose proof (settles_close_once compiled changes opaque_dirs groups selected) as H.
  destruct (close_once _ _ _ _ _); [|by intros [= <-]]. case_match; [by intros [= <-]|apply IH].
Qed.

Lemma settles_plan w lower_dirs selection : settles (plan_overlay_apply beyond compile_globs w lower_dirs selection).
Proof.
  unfold plan_overlay_apply. set (changes := overlay_changes beyond w lower_dirs). set (groups := upper_hard_link_groups beyond w).
  destruct (plan_ends compile_globs changes groups selection) as [r Hr]. rewrite Hr. cbn [default]. revert Hr. unfold plan_apply.
  pose proof (settles_compile selection) as Hc. destruct (compile compile_globs selection) as [compiled|e]; [|by intros [= <-]].
  case_match; [by intros [= <-]|]. destruct (close_loop _ _ _ _ _ _) as [[s|e]|] eqn:E; [by intros [= <-]| |done].
  intros [= <-]. by apply settles_close_loop in E.
Qed.

(** *** The transaction *)

Ltac halts := repeat first
  [ solve [eauto 2 with ends]
  | apply halts_throw; done
  | apply halts_io; solve [eauto 2 with errs]
  | apply halts_ask_lift_only; intros ?; solve [eauto 2 with settles]
  | apply halts_ask_lift; [intros ?; solve [eauto 2 with settles]|intros ?]
  | apply halts_lift; solve [eauto 2 with settles]
  | apply halts_bind; [|intros ?]
  | apply halts_for; intros ? ?
  | case_match ].
#[local] Create HintDb settles.
#[local] Hint Resolve settles_records settles_normalize settles_plan settles_prepare settles_validate : settles.
#[local] Hint Resolve settles_collect : settles.
#[local] Hint Resolve errs_apply_selected_upper errs_prune_selected_upper errs_remove_preimages : errs.

Lemma halts_read_records : halts read_records.
Proof. unfold read_records. halts. Qed.
#[local] Hint Resolve halts_read_records : ends.
Lemma halts_append r : halts (append_apply_record other r).
Proof. unfold append_apply_record. halts. Qed.
Lemma halts_update apply_id state n : halts (update_apply_state other apply_id state n).
Proof. unfold update_apply_state. apply halts_bind; [halts|intros rs]. apply halts_bind; [|halts]. by apply halts_lift, settles_or. Qed.
#[local] Hint Resolve halts_append halts_update : ends.
Lemma halts_apply_prepared selected preimages changes recovering :
  halts (apply_prepared_target other beyond uid gid umask sha256_hex target_root selected preimages changes recovering).
Proof. unfold apply_prepared_target, in_world. halts. Qed.

Lemma halts_remove_merged : halts (remove_merged other).
Proof.
  unfold remove_merged. intros envs g. unfold bind, attempt, effect. destruct envs as [|e rest]; [done|]. cbv zeta.
  assert (fault (env_errno e) <> OUT_OF_FUEL) as Hf by (pose proof (fault_errno (env_errno e)); unfold OUT_OF_FUEL; lia).
  destruct (env_fate e); repeat (case_match; simplify_eq/=; try done); split; congruence.
Qed.
Lemma halts_clear_path f : halts (clear_path other beyond f).
Proof.
  assert (errs Always (remove_path other beyond f)) by (apply ends_errs; intros h; by apply ends_remove_path).
  unfold clear_path, in_world. halts.
Qed.
#[local] Hint Resolve halts_apply_prepared halts_remove_merged halts_clear_path : ends.
Lemma halts_complete lower_dirs selected : halts (complete_target_applied other beyond snapshot_jujutsu_upper lower_dirs selected).
Proof. unfold complete_target_applied, snapshot_upper, cleanup_terminal_overlay_data, write_overlay_record, in_world. halts. Qed.
Lemma halts_consume selected : halts (consume_applied_preimages other sha256_hex selected).
Proof. unfold consume_applied_preimages. halts. Qed.
#[local] Hint Resolve halts_complete halts_consume : ends.

Lemma halts_recover_pending lower_dirs :
  halts (recover_pending_applies_locked other beyond uid gid umask sha256_hex target_root snapshot_jujutsu_upper lower_dirs).
Proof.
  unfold recover_pending_applies_locked, recover_apply, mark_apply_target_applied, mark_apply_committed. halts.
Qed.
#[local] Hint Resolve halts_recover_pending : ends.

Lemma halts_apply_overlay_selected lower_dirs selection apply_id now :
  halts (apply_overlay_selected other beyond uid gid umask sha256_hex target_root compile_globs snapshot_jujutsu_upper lower_dirs selection apply_id now).
Proof.
  assert (errs Always (sys other (fun w => (Ok tt, w)))) by (by apply errs_sys).
  unfold apply_overlay_selected, acquire_target_lock, mark_apply_target_applied, mark_apply_committed, in_world. halts.
Qed.
End Stages.
