(* ===== verification/OverlayApplyTheorems.v ===== *)
(** * What an application promises

    The properties of the apply engine and its transaction, with a stage on which
    each of them is exercised. *)

From Stdlib Require Import ZArith Lia.
From stdpp Require Import base list strings gmap pretty sorting.
From S2P Require Import Prelude Effects OverlayFs OverlayCore OverlayView OverlaySteps OverlayShape OverlayCopy OverlayEdit OverlayApply OverlayMerge OverlayPublish OverlayApplied OverlayPlan OverlayPrune OverlayTransfer OverlayChanges OverlayCommit OverlayRecovery OverlayAttempts OverlayEnds.
#[local] Set Warnings "-clear-no-such-hyp".
Open Scope string_scope.
Open Scope list_scope.
Open Scope effect_scope.

(** ** Stages that can be applied *)

(** The directories are trees, the upper directory and the target share no file,
    and the upper directory is one the overlay's operations leave. *)
Definition Appliable (core : OverlayCore) (w : World) : Prop :=
  Still core (usum w) (merged core w) w /\ fit (usum w) (merged core w).

Lemma Appliable_Awaiting core w : Appliable core w -> printable (usum w) -> Awaiting core (merged core w) w.
Proof. intros [H1 H2] H3. by exists (usum w). Qed.

(** *** Deciding it *)

Section Decide.
Context (core : OverlayCore) (w : World).

Definition each (P : Area -> Path -> bool) : bool := forallb (fun x => P (fst (fst x)) (snd (fst x))) (map_to_list (w_entries w)).

Lemma each_spec P a p : each P = true -> is_Some (w_entries w !! (a, p)) -> P a p = true.
Proof.
  intros H [i Hi]. unfold each in H. rewrite forallb_forall in H. apply (H ((a, p), i)). by apply list_elem_of_In, elem_of_map_to_list.
Qed.

Definition printableb : bool := each (fun a p => negb (bool_decide (a = Upper)) || bool_decide (Forall text_name p)).
Lemma printableb_spec : printableb = true -> printable (usum w).
Proof.
  intros H p n [x Hx]. unfold usum in Hx. destruct (node_at w (Upper, p ++ [n])) as [nd|] eqn:E; [|done].
  apply node_at_entry in E as (i & Hi & _). pose proof (each_spec _ Upper (p ++ [n]) H (ex_intro _ i Hi)) as Hp. simpl in Hp.
  apply bool_decide_eq_true, Forall_app in Hp as [_ Hn]. by apply Forall_cons in Hn as [Hn _].
Qed.

Definition dir_atb (f : FPath) : bool := match node_at w f with Some d => node_is_dir d | None => false end.
Definition real_nodeb (nd : Node) : bool :=
  match n_kind nd with
  | KOther format _ => bool_decide (Z.land (st_mode nd) 0xF000 = format) && bool_decide (format ∉ [0; 0x8000; 0x4000; 0xA000])%Z
  | _ => true
  end.
Definition name_okb (n : string) : bool :=
  ordinary_name n || bool_decide (n = OPAQUE_NAME)
  || match whiteout_target n with Some v => plain_name v | None => false end.

(** A directory has one name; the upper directory and the target share nothing. *)
Definition distinctb (a : Area) (p : Path) : bool :=
  match w_entries w !! (a, p) with
  | None => true
  | Some i => each (fun b q => bool_decide ((a, p) = (b, q)) || negb (bool_decide (w_entries w !! (b, q) = Some i))
                               || (negb (dir_atb (a, p)) && (bool_decide (a = b) || negb (bool_decide (a = Upper)) || negb (bool_decide (b = Target)))))
  end.

Definition entry_okb (p : Path) : bool :=
  match node_at w (Upper, p) with
  | None => false
  | Some nd =>
      real_nodeb nd
      && (negb (node_is_dir nd && opaque_xattr nd) || bool_decide (is_Some (usum w (p ++ [OPAQUE_NAME]))))
      && match reverse p with
         | [] => true
         | n :: r => name_okb n && (negb (is_whiteout_name n) || negb (node_is_dir nd))
                     && bool_decide (usum w (reverse r ++ [WHITEOUT_PREFIX +:+ n]) = None)
         end
  end.

Definition sealedb (q : Path) : bool :=
  forallb (fun k => negb (opq (usum w) (take k q)) || bool_decide (is_Some (usum w q)) || bool_decide (merged core w q = None)) (seq 0 (length q)).

Definition appliable : bool :=
  dir_atb (Upper, []) && dir_atb (Target, [])
  && each (fun a p => bool_decide (is_Some (node_at w (a, p)))
                      && match reverse p with [] => true | _ :: r => dir_atb (a, reverse r) end
                      && distinctb a p
                      && match a with Upper => entry_okb p | Target => sealedb p | Work => true end).

Context (checked : appliable = true).

Lemma dir_atb_spec f : dir_atb f = true -> exists d, node_at w f = Some d /\ node_is_dir d = true.
Proof. unfold dir_atb. destruct (node_at w f); [eauto|done]. Qed.

Lemma checked_roots : dir_atb (Upper, []) = true /\ dir_atb (Target, []) = true.
Proof. unfold appliable in checked. rewrite !andb_true_iff in checked. naive_solver. Qed.

Lemma checked_entry a p : is_Some (w_entries w !! (a, p)) ->
  is_Some (node_at w (a, p)) /\ (forall r n, p = r ++ [n] -> dir_atb (a, r) = true) /\ distinctb a p = true
  /\ match a with Upper => entry_okb p = true | Target => sealedb p = true | Work => True end.
Proof.
  intros Hp. pose proof checked as H. unfold appliable in H. apply andb_true_iff in H as [_ H]. apply (each_spec _ a p) in H; [|done].
  rewrite !andb_true_iff in H. destruct H as (((H1 & H2) & H3) & H4). apply bool_decide_eq_true in H1. split_and!; try done.
  - intros r n ->. by rewrite reverse_snoc, reverse_involutive in H2.
  - by destruct a.
Qed.

Lemma checked_distinct a p b q i : w_entries w !! (a, p) = Some i -> w_entries w !! (b, q) = Some i ->
  (a, p) = (b, q) \/ (dir_atb (a, p) = false /\ ~ (a = Upper /\ b = Target)).
Proof.
  intros Hp Hq. destruct (checked_entry a p) as (_ & _ & H & _); [by eexists|]. unfold distinctb in H. rewrite Hp in H.
  apply (each_spec _ b q) in H; [|by eexists]. rewrite !orb_true_iff, andb_true_iff, !orb_true_iff, !negb_true_iff, !bool_decide_eq_true, !bool_decide_eq_false in H.
  destruct H as [[?|?]|[? H]]; [by left|done|]. right. split; [done|]. intros [-> ->]. naive_solver.
Qed.

Lemma checked_wf : wf w.
Proof.
  destruct checked_roots as [HU HT]. constructor.
  - by apply dir_atb_spec.
  - intros [a p] i Hi. destruct (checked_entry a p) as ([nd Hnd] & _); [by eexists|]. unfold node_at in Hnd. rewrite Hi in Hnd. by eexists.
  - intros a p n Hn. destruct (checked_entry a (p ++ [n])) as (_ & H & _); [done|]. by apply dir_atb_spec, (H p n).
  - intros [a p] [b q] i n Hp Hq Hn Hd. destruct (checked_distinct a p b q i Hp Hq) as [?|[H _]]; [done|].
    unfold dir_atb in H. rewrite (node_at_Some w (a, p) i n) in H by done. congruence.
Qed.

Lemma usum_entry p k b : usum w p = Some (k, b) ->
  exists nd, node_at w (Upper, p) = Some nd /\ n_kind nd = k /\ node_is_dir nd && opaque_xattr nd = b /\ entry_okb p = true.
Proof.
  unfold usum. destruct (node_at w (Upper, p)) as [nd|] eqn:E; [|done]. unfold node_sum. simpl. intros [= <- <-]. exists nd. split_and!; try done.
  apply node_at_entry in E as (i & Hi & _). apply (checked_entry Upper p). by eexists.
Qed.

Lemma entry_okb_spec p nd : entry_okb p = true -> node_at w (Upper, p) = Some nd ->
  real_nodeb nd = true /\ (node_is_dir nd && opaque_xattr nd = true -> is_Some (usum w (p ++ [OPAQUE_NAME])))
  /\ forall r n, p = r ++ [n] -> name_okb n = true /\ (is_whiteout_name n = true -> node_is_dir nd = false) /\ usum w (r ++ [WHITEOUT_PREFIX +:+ n]) = None.
Proof.
  unfold entry_okb. intros H Hnd. rewrite Hnd, !andb_true_iff in H. destruct H as ((H1 & H2) & H3). split; [done|]. split.
  - intros E. rewrite E in H2. simpl in H2. by apply bool_decide_eq_true in H2.
  - intros r n ->. rewrite reverse_snoc, reverse_involutive, !andb_true_iff in H3. destruct H3 as ((H3 & H4) & H5). split; [done|].
    split; [|by apply bool_decide_eq_true in H5]. intros E. rewrite E in H4. by destruct (node_is_dir nd).
Qed.

Lemma name_okb_spec n : name_okb n = true -> ordinary_name n = true \/ n = OPAQUE_NAME \/ exists v, plain_name v = true /\ n = WHITEOUT_PREFIX +:+ v.
Proof.
  unfold name_okb. rewrite !orb_true_iff, bool_decide_eq_true. intros [[?|?]|H]; [auto|auto|]. right. right.
  destruct (whiteout_target n) as [v|] eqn:E; [|done]. apply whiteout_target_inv in E as ->. eauto.
Qed.

Lemma checked_sealed : sealed (usum w) (merged core w).
Proof.
  intros p r Hop Hr _ Hm. destruct (usum w (p ++ r)) as [x|] eqn:Es; [done|]. exfalso.
  assert (is_Some (tsum w (p ++ r))) as Ht.
  { destruct (path_snoc (p ++ r) ltac:(by destruct p)) as (q & n & E). rewrite E in *. unfold merged in Hm. rewrite mg_snoc, Es in Hm.
    destruct (is_excluded _ _); [by destruct Hm|]. destruct (is_kdir _); [|by destruct Hm]. destruct (hides _ _ _); [by destruct Hm|done]. }
  unfold tsum in Ht. apply fmap_is_Some in Ht as [nd Hnd]. apply node_at_entry in Hnd as (i & Hi & _).
  destruct (checked_entry Target (p ++ r)) as (_ & _ & _ & H); [by eexists|]. unfold sealedb in H. rewrite forallb_forall in H.
  specialize (H (length p)). rewrite <- list_elem_of_In, elem_of_seq, length_app, take_app_length, Hop, Es in H.
  assert (length r <> 0) by by destruct r. specialize (H ltac:(lia)). simpl in H. apply bool_decide_eq_true in H. rewrite H in Hm. by destruct Hm.
Qed.

Lemma appliable_spec : Appliable core w.
Proof.
  pose proof checked_wf as Hw. destruct checked_roots as [_ HT]. apply dir_atb_spec in HT as (d & Hd & Hdir). split.
  - split_and!; try done.
    + intros p q i Hp Hq. destruct (checked_distinct Upper p Target q i Hp Hq) as [?|[_ H]]; [done|by destruct H].
    + intros p nd Hnd. destruct (usum_entry p (n_kind nd) (node_is_dir nd && opaque_xattr nd)) as (nd' & Hnd' & _ & _ & He); [unfold usum; by rewrite Hnd|].
      simplify_eq. destruct (entry_okb_spec p nd He Hnd) as [Hr _]. unfold real_nodeb in Hr. unfold real_node. destruct (n_kind nd); try done.
      apply andb_true_iff in Hr as [H1 H2]. apply bool_decide_eq_true in H1, H2. done.
    + unfold tsum. rewrite Hd. simpl. unfold node_is_dir, kind_is_dir in Hdir. by destruct (n_kind d).
  - constructor.
    + intros p n [[k b] Hs]. destruct (usum_entry _ _ _ Hs) as (nd & Hnd & _ & _ & He). destruct (entry_okb_spec _ _ He Hnd) as (_ & _ & H). by apply name_okb_spec, (H p n).
    + intros p n k b Hs Hwh ->. destruct (usum_entry _ _ _ Hs) as (nd & Hnd & Hk & _ & He). destruct (entry_okb_spec _ _ He Hnd) as (_ & _ & H).
      destruct (H p n eq_refl) as (_ & Hd' & _). specialize (Hd' Hwh). unfold node_is_dir in Hd'. by rewrite Hk in Hd'.
    + intros p n Hn [[k b] Hs]. destruct (usum_entry _ _ _ Hs) as (nd & Hnd & _ & _ & He). destruct (entry_okb_spec _ _ He Hnd) as (_ & _ & H). by apply (H p n).
    + apply checked_sealed.
    + intros p k _ Hs. destruct (usum_entry _ _ _ Hs) as (nd & Hnd & _ & Hb & He). destruct (entry_okb_spec _ _ He Hnd) as (_ & H & _). by apply H.
Qed.
End Decide.

(** ** The properties *)

Section Properties.
Context {O : Type} (other : O -> World -> World) (beyond : World -> FPath -> Path -> option Node).
Context (uid gid umask : Z) (sha256_hex : string -> string) (target_root : string).
Context (compile_globs : list string -> option (Path -> bool)) (snapshot_jujutsu_upper : string -> string -> M World O Z unit).
Context (core : OverlayCore).

(** Nobody else changes the directories, and an empty set of globs matches
    nothing. *)
Context (others_quiet : forall o w, other o w = w).
Context (no_globs_match : forall matches, compile_globs [] = Some matches -> forall p, matches p = false).


(** C9: Applications survive interruptions.  Take a stage nobody has applied yet
    whose upper is a directory (not a Jujutsu workspace), in the shape the
    overlay's operations leave ([Appliable], which [appliable] decides) and with
    file names that are valid UTF-8 (others are planned under the name that is
    printed, [names_that_are_no_text_stay]); nobody else changes its directories.
    Apply it any number of times, any selections, each attempt under an id of its
    own and a process of its own that may fail or die at any call, the next one
    recovering from the ledger what the last one left.  When then an attempt
    answers, the overlay over the target shows the tree it showed at the
    beginning; and when that attempt selects everything, the upper directory is
    gone and the target alone is that tree. *)
Theorem interrupted_applications_are_finished l a g out rest :
  load_apply_records g = Ok [] -> sg_meta g = Some (sg_record g) -> or_upper (sg_record g) = Directory ->
  or_state (sg_record g) ∈ [Active; Staged] -> Appliable core (sg_world g) -> printable (usum (sg_world g)) ->
  NoDup (at_apply_id <$> l ++ [a]) ->
  let try_apply := try_apply other beyond uid gid umask sha256_hex target_root compile_globs snapshot_jujutsu_upper in
  let before := attempts other beyond uid gid umask sha256_hex target_root compile_globs snapshot_jujutsu_upper l g in
  let w' := sg_world (snd (try_apply a before)) in
  fst (try_apply a before) = Done (Ok out) rest ->
  (forall p, ordinary p -> merged core w' p = merged core (sg_world g) p)
  /\ (is_all (at_selection a) = true ->
      (forall p, node_at w' (Upper, p) = None)
      /\ forall p, ordinary p -> is_excluded core p = false -> tsum w' p = merged core (sg_world g) p).
Proof.
  intros Hl Hm Hu Hst HA Ht Hd try_apply before w' Hok.
  destruct (attempts_spec other beyond uid gid umask sha256_hex target_root compile_globs snapshot_jujutsu_upper core others_quiet no_globs_match
    l a g out rest) as [H1 H2]; [|done|done|].
  - split_and!; try done. by apply Appliable_Awaiting.
  - split; [done|]. intros Ha. by destruct (H2 Ha).
Qed.

(** C11: A target that changed is not overwritten.  When the journal's preimage of
    a path that would be applied is not what the target has there, and no earlier
    application is pending, the application is refused, and nothing is changed:
    not the target, not the upper directory, not the ledger. *)
Theorem changed_target_is_not_overwritten lower_dirs selection apply_id now records plan preimages x envs g :
  load_apply_records g = Ok records -> Forall committed records ->
  plan_overlay_apply beyond compile_globs (sg_world g) lower_dirs selection = Ok plan ->
  prepare_apply_preimages beyond sha256_hex (sg_world g) (ap_paths plan) = Ok preimages ->
  x ∈ preimages -> fingerprint_at sha256_hex (area_layer beyond (sg_world g) Target) (pi_path x) <> Ok (pi_state x) ->
  or_state (sg_record g) <> Applied ->
  match apply_overlay_selected other beyond uid gid umask sha256_hex target_root compile_globs snapshot_jujutsu_upper
          lower_dirs selection apply_id now envs g with
  | (Done (Ok _) _, _) => False
  | (_, g') => g' = g
  end.
Proof.
  intros H1 H2 H3 H4 H5 H6 H7. pose proof (conflict_triple other beyond uid gid umask sha256_hex target_root compile_globs snapshot_jujutsu_upper
    others_quiet lower_dirs selection apply_id now records plan preimages x g H1 H2 H3 H4 H5 H6 H7 envs g eq_refl) as H.
  by destruct (apply_overlay_selected _ _ _ _ _ _ _ _ _ _ _ _ _ envs g) as [[|[?|?] ?] ?].
Qed.

(** C22: Planning stops and its answer is consistent.  The fixpoint over opaque
    directories and hard links always ends.  A plan has every requested change that
    is not excluded and nothing excluded; it takes an opaque directory along with
    everything below it, and a file with all its names; and a selection that
    matches nothing is refused. *)
Theorem plans_are_closed changes groups selection :
  match plan_apply compile_globs changes groups selection with
  | None => False
  | Some (Err _) => True
  | Some (Ok plan) =>
      exists compiled, compile compile_globs selection = Ok compiled
      /\ ap_selected plan = filter (fun c => ce_path c ∈ ap_paths plan) changes
      /\ (forall c, c ∈ changes -> requested compiled (ce_path c) = true -> excluded compiled (ce_path c) = false -> ce_path c ∈ ap_paths plan)
      /\ (forall p, p ∈ ap_paths plan -> excluded compiled p = false)
      /\ (is_all selection = false -> ap_paths plan <> ∅)
      /\ closed_under changes groups (ap_paths plan)
  end.
Proof.
  destruct (plan_ends compile_globs changes groups selection) as [r Hr]. rewrite Hr. destruct r as [plan|e]; [|done].
  destruct (plan_spec compile_globs changes groups selection plan Hr) as (compiled & H1 & H2 & H3 & H4 & H5 & H6).
  exists compiled. split_and!; try done. intros p Hp. by apply H4.
Qed.

(** A discard spares the target.  Wherever a discard stops, the target and
    the ledger are as they were; when it answers, nothing is left of the upper and
    the work directory, and the record on disk says that it was discarded. *)
Theorem discard_spares_the_target envs g : wf (sg_world g) -> or_upper (sg_record g) = Directory -> or_state (sg_record g) ∈ [Active; Staged] ->
  let '(r, g') := discard_overlay other beyond snapshot_jujutsu_upper envs g in
  (forall p, node_at (sg_world g') (Target, p) = node_at (sg_world g) (Target, p))
  /\ sg_ledger g' = sg_ledger g
  /\ match r with
     | Done (Ok _) _ => (forall p, node_at (sg_world g') (Upper, p) = None /\ node_at (sg_world g') (Work, p) = None)
                        /\ sg_meta g' = Some (sg_record g') /\ or_state (sg_record g') = Discarded
     | _ => True
     end.
Proof.
  intros Hw Hu Hst. pose proof (discard_triple other beyond snapshot_jujutsu_upper others_quiet g Hu Hst Hw envs g eq_refl) as H.
  destruct (discard_overlay _ _ _ envs g) as [[|[?|?] ?] g'].
  - destruct H as ([_ HL] & Hl & _). by split_and!.
  - destruct H as [([_ HL] & [HU HW] & Hl & Hm) Hd]. by split_and!.
  - destruct H as ([_ HL] & Hl & _). by split_and!.
Qed.

(** Applications stop.  From any stage, in whatever shape, an application
    answers or dies: its walks down the upper directory never exhaust the depth
    they are given and its plan never the turns, so an error it answers is one of
    the program or of the system. *)
Theorem applications_stop lower_dirs selection apply_id now envs g e rest :
  fst (apply_overlay_selected other beyond uid gid umask sha256_hex target_root compile_globs snapshot_jujutsu_upper
         lower_dirs selection apply_id now envs g) = Done (Err e) rest ->
  e <> Unfinished /\ e <> IoError OUT_OF_FUEL.
Proof.
  intros He. pose proof (halts_apply_overlay_selected other beyond uid gid umask sha256_hex target_root compile_globs snapshot_jujutsu_upper
    others_quiet lower_dirs selection apply_id now envs g) as H. by rewrite He in H.
Qed.
End Properties.

(** ** A stage *)

Module ApplyExample.
Definition meta (k : Kind) : Meta := mkMeta (if kind_is_dir k then 0x1ED else 0x1A4) 0 0 (0, 0)%Z (7, 0)%Z ∅.
Definition node (k : Kind) : Node := mkNode k (meta k).

Definition world_of (nodes : list (FPath * Kind)) : World :=
  mkWorld [] (list_to_map (imap (fun i x => (fst x, Pos.of_succ_nat i)) nodes))
    (list_to_map (imap (fun i x => (Pos.of_succ_nat i, node (snd x))) nodes)) ∅ false ∅ 1.

(** A changed file, a deleted one, and a directory that was made anew. *)
Definition upper : list (Path * Kind) :=
  [([], KDir); (["d"], KDir); (["d"; "f"], KFile "new"); ([".wh.gone"], KFile ""); (["o"], KDir); (["o"; ".wh..wh..opq"], KFile ""); (["o"; "x"], KFile "x")].
Definition target : list (Path * Kind) :=
  [([], KDir); (["d"], KDir); (["d"; "f"], KFile "old"); (["d"; "g"], KSymlink "f"); (["gone"], KFile "gone"); (["o"], KDir); (["o"; "y"], KFile "y")].
Definition start : World :=
  world_of (((Work, []), KDir) :: map (fun x => ((Upper, fst x), snd x)) upper ++ map (fun x => ((Target, fst x), snd x)) target).

Definition no_one : Empty_set -> World -> World := fun o _ => match o with end.
Definition nowhere : World -> FPath -> Path -> option Node := fun _ _ _ => None.
Definition core : OverlayCore := mkCore true [["secret"]] true.
Definition hex (s : string) : string := s.
Definition globs (patterns : list string) : option (Path -> bool) :=
  match patterns with [] => Some (fun _ => false) | _ :: _ => None end.
Definition no_jj : string -> string -> M World Empty_set Z unit := fun _ _ => ret tt.
Definition calm (k : nat) : list (Env Empty_set) := repeat (mkEnv 0 [] Answered 0) k.

Definition overlay : OverlayRecord := mkOverlayRecord "o1" 1 "/target" Directory true false Staged.
Definition stage : Stage := mkStage start LedgerMissing (Some overlay) overlay (Some 0).
Definition everything : ApplySelection := mkSelection [] [] [].

Lemma nobody_acts o w : no_one o w = w.
Proof. destruct o. Qed.
Lemma no_globs matches : globs [] = Some matches -> forall p, matches p = false.
Proof. intros H. simpl in H. by injection H as <-. Qed.
Lemma start_appliable : Appliable core start.
Proof. apply appliable_spec. vm_compute. reflexivity. Qed.


Definition first_try : Attempt Empty_set := mkAttempt [TargetDir] (mkSelection [["d"]] [] []) "a1" 1 (calm 14).
Definition second_try : Attempt Empty_set := mkAttempt [TargetDir] everything "a2" 2 (calm 400).

(** The first application dies in the target, the second one recovers it and
    goes on. *)
Lemma interrupted_applications_are_finished_witness :
  let try_apply := try_apply no_one nowhere 0 0 0x12 hex "/target" globs no_jj in
  let w' := sg_world (snd (try_apply second_try (attempts no_one nowhere 0 0 0x12 hex "/target" globs no_jj [first_try] stage))) in
  tsum w' ["d"; "f"] = Some (KFile "new") /\ tsum w' ["gone"] = None /\ tsum w' ["o"; "y"] = None /\ tsum w' ["d"; "g"] = Some (KSymlink "f").
Proof.
  assert (exists out rest, fst (try_apply no_one nowhere 0 0 0x12 hex "/target" globs no_jj second_try
    (attempts no_one nowhere 0 0 0x12 hex "/target" globs no_jj [first_try] stage)) = Done (Ok out) rest) as (out & rest & Hok)
    by (vm_compute; eauto).
  destruct (interrupted_applications_are_finished no_one nowhere 0 0 0x12 hex "/target" globs no_jj core nobody_acts no_globs
    [first_try] second_try stage out rest) as [_ H].
  - reflexivity.
  - reflexivity.
  - reflexivity.
  - right. left.
  - exact start_appliable.
  - apply printableb_spec. vm_compute. reflexivity.
  - apply (bool_decide_eq_true_1 (NoDup _)). vm_compute. reflexivity.
  - exact Hok.
  - destruct (H eq_refl) as [_ H']. cbv zeta.
    split; [|split; [|split]]; (rewrite H'; [vm_compute; reflexivity|repeat constructor|vm_compute; reflexivity]).
Defined.

(** The file was changed after it was deleted in the overlay. *)
Definition preimage : PathPreimage := mkPreimage ["gone"] (FpFile "older" 0x81A4 0 0).
Definition raced : Stage :=
  set_world (mkWorld [] (w_entries start) (w_inodes start) {[ journal_name hex ["gone"] := JWritten preimage ]} true ∅ 1) stage.
Definition deletion : ApplySelection := mkSelection [["gone"]] [] [].
Definition deletion_plan : ApplyPlan :=
  match plan_overlay_apply nowhere globs (sg_world raced) [TargetDir] deletion with Ok plan => plan | Err _ => mkPlan [] ∅ end.

Lemma changed_target_is_not_overwritten_witness :
  match apply_overlay_selected no_one nowhere 0 0 0x12 hex "/target" globs no_jj [TargetDir] deletion "a1" 1 (calm 30) raced with
  | (Done (Ok _) _, _) => False
  | (_, g') => g' = raced
  end.
Proof.
  apply (changed_target_is_not_overwritten no_one nowhere 0 0 0x12 hex "/target" globs no_jj nobody_acts [TargetDir] deletion "a1" 1 []
    deletion_plan [preimage] preimage).
  - reflexivity.
  - constructor.
  - vm_compute. reflexivity.
  - vm_compute. reflexivity.
  - left.
  - vm_compute. intros H. discriminate H.
  - vm_compute. intros H. discriminate H.
Defined.

Lemma discard_spares_the_target_witness :
  let '(r, g') := discard_overlay no_one nowhere no_jj (calm 30) stage in
  match r with Done (Ok _) _ => True | _ => False end
  /\ tsum (sg_world g') ["d"; "f"] = Some (KFile "old") /\ node_at (sg_world g') (Upper, ["d"; "f"]) = None.
Proof.
  pose proof (discard_spares_the_target no_one nowhere no_jj nobody_acts (calm 30) stage) as H.
  assert (match fst (discard_overlay no_one nowhere no_jj (calm 30) stage) with Done (Ok _) _ => True | _ => False end) as Hok by (vm_compute; exact I).
  destruct (discard_overlay _ _ _ _ _) as [[|[u|e] rest] g']; [destruct Hok| |destruct Hok].
  destruct H as (Ht & _ & Hu & _); [|reflexivity|right; left|].
  - destruct start_appliable as [[Hw _] _]. exact Hw.
  - split; [exact I|]. split; [unfold tsum; rewrite Ht; vm_compute; reflexivity|apply Hu].
Defined.

(** The disk is full when the ledger is written. *)
Lemma applications_stop_witness : PersistError <> Unfinished /\ PersistError <> IoError OUT_OF_FUEL.
Proof.
  apply (applications_stop no_one nowhere 0 0 0x12 hex "/target" globs no_jj nobody_acts [TargetDir] everything "a1" 1
    (calm 1 ++ [mkEnv 0 [] FailedBefore 28%Z]) stage PersistError []).
  vm_compute. reflexivity.
Defined.
End ApplyExample.

(** ** Where an application falls short *)

Module ApplyShortfalls.
Import ApplyExample.

Abbreviation apply := (try_apply no_one nowhere 0 0 0x12 hex "/target" globs no_jj).
Definition answered {A} (r : outcome Empty_set OverlayError A) : bool := match r with Done (Ok _) _ => true | _ => false end.
Definition error {A} (r : outcome Empty_set OverlayError A) : option OverlayError := match r with Done (Err e) _ => Some e | _ => None end.

(** [discard_overlay] does not look at the ledger.  An application that died
    right after it was recorded is still pending when the overlay is dropped; the
    next application recovers it without an upper directory, and says that the
    overlay was applied, which the target shows it was not. *)
Theorem discarded_overlay_becomes_applied :
  let died := restart (snd (apply (mkAttempt [TargetDir] everything "a1" 1 (calm 2)) stage)) in
  let '(dropped, g) := discard_overlay no_one nowhere no_jj (calm 60) died in
  let '(r, g') := apply (mkAttempt [TargetDir] everything "a2" 2 (calm 60)) (restart g) in
  answered dropped = true /\ or_state (sg_record g) = Discarded
  /\ answered r = true /\ or_state (sg_record g') = Applied
  /\ match load_apply_records g' with Ok [record] => ar_state record = Committed | _ => False end
  /\ tsum (sg_world g') ["d"; "f"] = Some (KFile "old").
Proof. vm_compute. split_and!; reflexivity. Qed.

(** A new file whose name is one byte that is no UTF-8. *)
Definition byte_name : string := String (Ascii.ascii_of_nat 255) "".
Definition untextual : World := world_of [((Work, []), KDir); ((Upper, []), KDir); ((Upper, [byte_name]), KFile "x"); ((Target, []), KDir)].

(** The change is listed, and planned, under the name that is printed, which no
    entry of the upper directory has.  An application of everything answers that
    it applied the change, and the file is not in the target but still in the
    upper directory. *)
Theorem names_that_are_no_text_stay :
  let '(r, g) := apply (mkAttempt [TargetDir] everything "a1" 1 (calm 60)) (set_world untextual stage) in
  match r with Done (Ok out) _ => ce_path <$> ao_applied out = [printed [byte_name]] | _ => False end
  /\ tsum (sg_world g) [byte_name] = None /\ usum (sg_world g) [byte_name] = Some (KFile "x", false).
Proof. vm_compute. split_and!; reflexivity. Qed.

(** Two new files in a new directory, with a complete journal. *)
Definition pair : World :=
  let w := world_of ([((Work, []), KDir); ((Upper, []), KDir); ((Upper, ["n"]), KDir); ((Upper, ["n"; "a"]), KFile "a"); ((Upper, ["n"; "b"]), KFile "b");
                      ((Target, []), KDir)]) in
  let absent (p : Path) := (journal_name hex p, JWritten (mkPreimage p FpAbsent)) in
  mkWorld [] (w_entries w) (w_inodes w) (list_to_map [absent ["n"]; absent ["n"; "a"]; absent ["n"; "b"]]) true ∅ 1.
Definition only (p : Path) (name : string) : Attempt Empty_set := mkAttempt [TargetDir] (mkSelection [p] [] []) name 1 (calm 100).

(** The first selective application takes the new directory along and consumes
    its preimage.  The directory is still in the upper directory for the other
    file, so the second application has no preimage for it and is refused: what
    was retained for later cannot be applied any more. *)
Theorem second_selection_in_a_new_directory_is_refused :
  let '(r1, g1) := apply (only ["n"; "a"] "a1") (set_world pair stage) in
  let '(r2, g2) := apply (only ["n"; "b"] "a2") (restart g1) in
  let '(r3, g3) := apply (mkAttempt [TargetDir] everything "a3" 3 (calm 100)) (restart g2) in
  answered r1 = true /\ tsum (sg_world g1) ["n"; "a"] = Some (KFile "a")
  /\ error r2 = Some InvalidState /\ error r3 = Some InvalidState /\ usum (sg_world g3) ["n"; "b"] = Some (KFile "b", false).
Proof. vm_compute. split_and!; reflexivity. Qed.

(** A new directory that only its owner may enter. *)
Definition closed_directory : World :=
  let w := world_of [((Work, []), KDir); ((Upper, []), KDir); ((Target, []), KDir)] in
  mkWorld [] (<[(Upper, ["n"]) := 9%positive]> (w_entries w))
    (<[9%positive := mkNode KDir (mkMeta 0x1C0 0 0 (0, 0)%Z (7, 0)%Z ∅)]> (w_inodes w)) ∅ false ∅ 1.

(** The target's directory is created first and gets its mode last.  When the
    process dies in between, recovery finds a directory that is neither the
    preimage nor the desired one, takes it for somebody else's, and refuses it, now
    and ever after. *)
Theorem recovery_refuses_its_own_directory :
  let g := restart (snd (apply (mkAttempt [TargetDir] everything "a1" 1 (calm 3)) (set_world closed_directory stage))) in
  let '(r, g') := apply (mkAttempt [TargetDir] everything "a2" 2 (calm 100)) g in
  tsum (sg_world g) ["n"] = Some KDir /\ error r = Some ApplyError
  /\ error (fst (apply (mkAttempt [TargetDir] everything "a3" 3 (calm 100)) (restart g'))) = Some ApplyError.
Proof. vm_compute. split_and!; reflexivity. Qed.
End ApplyShortfalls.
