(* ===== verification/EventManifest.v ===== *)
(** * The visibility manifest of the canonical event log

    pChronicle's event log keeps one small manifest per root
    ([store/events/manifest.rs]).  A manifest names the Lance segments whose
    rows readers see, in order, together with the fence of the only writer
    allowed to publish.  The four operations ([activate_with_mode],
    [publish_segment_with_mode], [replace_segments],
    [replace_segment_group_with_mode]) are closures run by [mutate_with_mode],
    which validates what they return and stores it with the compare-and-swap
    loop or the locked file of [Durable].

    The file holds the data, the closures, the validation, [mutate_with_mode]
    over both backends, the clean-up of unreferenced local segments, and the
    lemmas on what a manifest's history looks like: valid, exact, numbered
    without gaps, and fenced by growing epochs. *)

From Stdlib Require Import ZArith Lia.
From stdpp Require Import base list strings gmap numbers option.
From S2P Require Import Prelude Durable.

(** ** Data *)

Record EventWriterFence : Type := mkFence {
  epoch : Z;
  writer_id : string;
}.

Inductive EventWriterConflict : Type :=
| StaleFence
| EpochAlreadyOwned
| PublicationChanged.

Inductive ManifestWriteOutcome (T : Type) : Type :=
| Applied (value : T)
| Conflicted (conflict : EventWriterConflict).
Arguments Applied {T} value.
Arguments Conflicted {T} conflict.

Record EventSegment : Type := mkSegment {
  sg_id : string;
  sg_version : Z;
  sg_rows : Z;
  sg_level : Z;
  sg_sealed : bool;
}.

Record EventManifest : Type := mkManifest {
  mf_revision : Z;
  mf_fact_version : Z;
  mf_fact_rows : Z;
  mf_active_writer : EventWriterFence;
  mf_segments : list EventSegment;
}.

Inductive ManifestMutation (T : Type) : Type :=
| MutUnchanged (value : T)
| MutReplace (manifest : EventManifest) (value : T)
| MutConflict (conflict : EventWriterConflict).
Arguments MutUnchanged {T} value.
Arguments MutReplace {T} manifest value.
Arguments MutConflict {T} conflict.

(** The messages of the [ensure!], [context] and [bail!] of the file. *)
Inductive ManifestError : Type :=
| FenceEpochZero
| FenceWriterIdEmpty
| WriterEpochOverflow
| RevisionOverflow
| FactVersionOverflow
| ManifestDisappeared
| SegmentMovesBackwards
| SegmentChangesLevel
| SegmentReopened
| SegmentDoesNotAdvance
| RowCountOverflow
| RowsNotPreserved
| GroupEmpty
| FactRowsMismatch
| SegmentIdEmpty
| SegmentVersionZero
| DuplicateSegmentId.

#[global] Instance EventWriterFence_eq_dec : EqDecision EventWriterFence.
Proof. solve_decision. Defined.
#[global] Instance EventWriterConflict_eq_dec : EqDecision EventWriterConflict.
Proof. solve_decision. Defined.
#[global] Instance EventSegment_eq_dec : EqDecision EventSegment.
Proof. solve_decision. Defined.
#[global] Instance EventManifest_eq_dec : EqDecision EventManifest.
Proof. solve_decision. Defined.
#[global] Instance ManifestWriteOutcome_eq_dec {T} `{EqDecision T} :
  EqDecision (ManifestWriteOutcome T).
Proof. solve_decision. Defined.
#[global] Instance ManifestError_eq_dec : EqDecision ManifestError.
Proof. solve_decision. Defined.

(** [EventWriterFence::new]. *)
Definition fence_new (epoch : Z) (writer_id : string) : result ManifestError EventWriterFence :=
  ensure! (0 <? epoch)%Z else FenceEpochZero in
  ensure! negb (str_blank writer_id) else FenceWriterIdEmpty in
  Ok (mkFence epoch writer_id).

(** [EventManifest::total_rows]: an unchecked [u64] sum. *)
Definition total_rows (m : EventManifest) : Z :=
  foldl (fun total s => (total + sg_rows s) `mod` 2 ^ 64)%Z 0%Z (mf_segments m).

(** The [try_fold] with [checked_add] of the maintenance operations. *)
Fixpoint checked_rows (total : Z) (segments : list EventSegment) : result ManifestError Z :=
  match segments with
  | [] => Ok total
  | s :: rest =>
      let? total' := ok_or (u64_checked_add total (sg_rows s)) RowCountOverflow in
      checked_rows total' rest
  end.

Definition active_writer_conflict (m : EventManifest) (fence : EventWriterFence)
  : option EventWriterConflict :=
  if bool_decide (mf_active_writer m <> fence) then Some StaleFence else None.

(** ** Validation *)

Fixpoint validate_segments (ids : gset string) (segments : list EventSegment)
  : result ManifestError () :=
  match segments with
  | [] => Ok ()
  | s :: rest =>
      ensure! negb (bool_decide (sg_id s = "")) else SegmentIdEmpty in
      ensure! (0 <? sg_version s)%Z else SegmentVersionZero in
      ensure! bool_decide (sg_id s ∉ ids) else DuplicateSegmentId in
      validate_segments ({[sg_id s]} ∪ ids) rest
  end.

Definition validate_manifest (m : EventManifest) : result ManifestError () :=
  let? _ := fence_new (epoch (mf_active_writer m)) (writer_id (mf_active_writer m)) in
  ensure! (mf_fact_rows m =? total_rows m)%Z else FactRowsMismatch in
  validate_segments ∅ (mf_segments m).

(** ** The closures *)

Definition bump_revision (m : EventManifest) : result ManifestError Z :=
  ok_or (u64_checked_add (mf_revision m) 1) RevisionOverflow.

(** The closure of [activate_with_mode], after the fence is chosen. *)
Definition install_fence (current : option EventManifest) (next_fence : EventWriterFence)
  : result ManifestError (ManifestMutation EventManifest) :=
  let next := default (mkManifest 0 0 0 next_fence []) current in
  let? revision := bump_revision next in
  let next := mkManifest revision (mf_fact_version next) (mf_fact_rows next) next_fence
                (mf_segments next) in
  Ok (MutReplace next next).

Definition activate (requested : option EventWriterFence) (auto_writer_id : string)
    (current : option EventManifest) : result ManifestError (ManifestMutation EventManifest) :=
  match requested, current with
  | Some fence, Some m =>
      if bool_decide (fence = mf_active_writer m) then Ok (MutUnchanged m)
      else if (epoch fence <? epoch (mf_active_writer m))%Z then Ok (MutConflict StaleFence)
      else if (epoch fence =? epoch (mf_active_writer m))%Z then Ok (MutConflict EpochAlreadyOwned)
      else install_fence current fence
  | Some fence, None => install_fence current fence
  | None, Some m =>
      let? next := ok_or (u64_checked_add (epoch (mf_active_writer m)) 1) WriterEpochOverflow in
      install_fence current (mkFence next auto_writer_id)
  | None, None => install_fence current (mkFence 1 auto_writer_id)
  end.

(** [segments.iter().find(|existing| existing.id == id)]. *)
Fixpoint find_segment (id : string) (segments : list EventSegment) : option EventSegment :=
  match segments with
  | [] => None
  | s :: rest => if bool_decide (sg_id s = id) then Some s else find_segment id rest
  end.

(** The [match] on [iter_mut().find]: overwrite in place, or push. *)
Fixpoint put_segment (segment : EventSegment) (segments : list EventSegment)
  : list EventSegment :=
  match segments with
  | [] => [segment]
  | s :: rest =>
      if bool_decide (sg_id s = sg_id segment) then segment :: rest
      else s :: put_segment segment rest
  end.

(** The [ensure!]s of a publication over an existing descriptor. *)
Definition check_publication (existing segment : EventSegment) : result ManifestError () :=
  ensure! ((sg_version existing <=? sg_version segment)
           && (sg_rows existing <=? sg_rows segment))%Z else SegmentMovesBackwards in
  ensure! (sg_level segment =? sg_level existing)%Z else SegmentChangesLevel in
  ensure! (negb (sg_sealed existing) || sg_sealed segment) else SegmentReopened in
  ensure! ((sg_version existing <? sg_version segment)
           || ((sg_version segment =? sg_version existing)
               && (sg_rows segment =? sg_rows existing)
               && negb (sg_sealed existing) && sg_sealed segment))%Z else SegmentDoesNotAdvance in
  Ok ().

(** The manifest [publish_segment] stores once its checks have passed. *)
Definition publish_into (m : EventManifest) (segment : EventSegment)
  : result ManifestError (ManifestMutation EventManifest) :=
  let? revision := bump_revision m in
  let segments := put_segment segment (mf_segments m) in
  let next := mkManifest revision (mf_fact_version m) (mf_fact_rows m)
                (mf_active_writer m) segments in
  let visible_rows := total_rows next in
  if (mf_fact_rows m <? visible_rows)%Z then
    let? fact_version := ok_or (u64_checked_add (mf_fact_version m) 1) FactVersionOverflow in
    let next := mkManifest revision fact_version visible_rows (mf_active_writer m) segments in
    Ok (MutReplace next next)
  else Ok (MutReplace next next).

Definition publish_segment (fence : EventWriterFence) (segment : EventSegment)
    (current : option EventManifest) : result ManifestError (ManifestMutation EventManifest) :=
  let? m := ok_or current ManifestDisappeared in
  match active_writer_conflict m fence with
  | Some conflict => Ok (MutConflict conflict)
  | None =>
      match find_segment (sg_id segment) (mf_segments m) with
      | Some existing =>
          if bool_decide (existing = segment) then Ok (MutUnchanged m)
          else let? _ := check_publication existing segment in publish_into m segment
      | None => publish_into m segment
      end
  end.

Definition replace_segments (fence : EventWriterFence) (segments : list EventSegment)
    (current : option EventManifest) : result ManifestError (ManifestMutation EventManifest) :=
  let? m := ok_or current ManifestDisappeared in
  match active_writer_conflict m fence with
  | Some conflict => Ok (MutConflict conflict)
  | None =>
      let? replacement_rows := checked_rows 0 segments in
      ensure! (replacement_rows =? mf_fact_rows m)%Z else RowsNotPreserved in
      let? revision := bump_revision m in
      let next := mkManifest revision (mf_fact_version m) (mf_fact_rows m)
                    (mf_active_writer m) segments in
      Ok (MutReplace next next)
  end.

(** [segments.windows(expected.len()).position(|window| window == expected)]. *)
Fixpoint window_position (expected segments : list EventSegment) : option nat :=
  match segments with
  | [] => None
  | _ :: rest =>
      if bool_decide (take (length expected) segments = expected) then Some O
      else S <$> window_position expected rest
  end.

(** [segments.splice(start..start + n, once(replacement))]. *)
Definition splice_segments (start n : nat) (replacement : EventSegment)
    (segments : list EventSegment) : list EventSegment :=
  take start segments ++ [replacement] ++ drop (start + n) segments.

Definition replace_segment_group (fence : EventWriterFence) (expected : list EventSegment)
    (replacement : EventSegment) (current : option EventManifest)
  : result ManifestError (ManifestMutation EventManifest) :=
  let? m := ok_or current ManifestDisappeared in
  match active_writer_conflict m fence with
  | Some conflict => Ok (MutConflict conflict)
  | None =>
      match window_position expected (mf_segments m) with
      | None => Ok (MutConflict PublicationChanged)
      | Some start =>
          let? expected_rows := checked_rows 0 expected in
          ensure! (sg_rows replacement =? expected_rows)%Z else RowsNotPreserved in
          let? revision := bump_revision m in
          let next := mkManifest revision (mf_fact_version m) (mf_fact_rows m)
                        (mf_active_writer m)
                        (splice_segments start (length expected) replacement (mf_segments m)) in
          Ok (MutReplace next next)
      end
  end.

(** ** [mutate_with_mode] *)

(** The four callers of [mutate_with_mode]. *)
Inductive ManifestOp : Type :=
| OpActivate (requested : option EventWriterFence) (auto_writer_id : string)
| OpPublish (fence : EventWriterFence) (segment : EventSegment)
| OpReplace (fence : EventWriterFence) (segments : list EventSegment)
| OpReplaceGroup (fence : EventWriterFence) (expected : list EventSegment)
    (replacement : EventSegment).

Definition op_closure (op : ManifestOp) (current : option EventManifest)
  : result ManifestError (ManifestMutation EventManifest) :=
  match op with
  | OpActivate requested auto_writer_id => activate requested auto_writer_id current
  | OpPublish fence segment => publish_segment fence segment current
  | OpReplace fence segments => replace_segments fence segments current
  | OpReplaceGroup fence expected replacement =>
      replace_segment_group fence expected replacement current
  end.

(** The check before [mutate_with_mode] is entered. *)
Definition op_precheck (op : ManifestOp) : result ManifestError () :=
  match op with
  | OpReplaceGroup _ expected _ =>
      ensure! negb (bool_decide (expected = [])) else GroupEmpty in Ok ()
  | _ => Ok ()
  end.

(** The [validate_manifest] of [decode_manifest], on what was read. *)
Definition validate_current (current : option EventManifest) : result ManifestError () :=
  match current with
  | None => Ok ()
  | Some m => validate_manifest m
  end.

(** One pass: validate what was read, run the closure, validate what it
    returns.  A conflict leaves the manifest alone, as an unchanged one does. *)
Definition manifest_mutate (op : ManifestOp) (_ : ()) (current : option EventManifest)
  : result ManifestError (Mutation EventManifest (ManifestWriteOutcome EventManifest)) :=
  let? _ := validate_current current in
  let? mutation := op_closure op current in
  match mutation with
  | MutUnchanged value => Ok (Unchanged (Applied value))
  | MutConflict conflict => Ok (Unchanged (Conflicted conflict))
  | MutReplace m value =>
      let? _ := validate_manifest m in
      Ok (Replace m (Applied value))
  end.

Definition MANIFEST_FILE : string := "_manifest.json".
Definition MANIFEST_CAS_RETRIES : nat := 64.
Definition manifest_path (_ : ManifestOp) : string := MANIFEST_FILE.

(** [is_object_store_uri]. *)
Definition is_object_store_uri (uri : string) : bool := str_contains "://" uri.

(** [segment_uri]. *)
Definition segment_uri (root_uri segment_id : string) : string :=
  trim_end_matches (byte_is 47) root_uri +:+ "/segments/" +:+ segment_id +:+ ".lance".

(** One pass as an atomic operation on the stored manifest: what it answers
    and what it leaves.  [Durable] proves that both backends behave so. *)
Definition manifest_apply (op : ManifestOp) (current : option EventManifest)
  : result ManifestError (ManifestWriteOutcome EventManifest * option EventManifest) :=
  let? _ := op_precheck op in
  let? mutation := manifest_mutate op () current in
  match mutation with
  | Unchanged outcome => Ok (outcome, current)
  | Replace m outcome => Ok (outcome, Some m)
  end.

Section Backends.
Context {B V St : Type} `{!Codec EventManifest B} `{!ObjectStore St B V}.

(** [mutate_with_mode] on an object store, conditional mode: a caller that
    loses every race reports a changed publication. *)
Definition mutate_with_mode_object (interf : nat -> St -> St) (op : ManifestOp) (st : St)
  : result (StoreError ManifestError) (ManifestWriteOutcome EventManifest) * St :=
  match op_precheck op with
  | Err e => (Err (MutateError e), st)
  | Ok _ =>
      match mutate_object manifest_path manifest_mutate MANIFEST_CAS_RETRIES
              (fun _ => ()) interf op st with
      | (Err CasContention, st') => (Ok (Conflicted PublicationChanged), st')
      | other => other
      end
  end.

(** [mutate_with_mode] on a local directory, inside the lock. *)
Definition mutate_with_mode_local (uuid : string) (op : ManifestOp) (dir : gmap string B)
  : result (StoreError ManifestError) (ManifestWriteOutcome EventManifest) * gmap string B :=
  match op_precheck op with
  | Err e => (Err (MutateError e), dir)
  | Ok _ => mutate_local manifest_path manifest_mutate true uuid () op dir
  end.
End Backends.

(** ** Row counts are exact

    [total_rows] adds without checking.  No manifest the operations store has
    a sum that wrapped. *)

Fixpoint exact_rows (segments : list EventSegment) : Z :=
  match segments with
  | [] => 0
  | s :: rest => sg_rows s + exact_rows rest
  end.

Definition segment_typed (s : EventSegment) : Prop :=
  in_u64 (sg_version s) /\ in_u64 (sg_rows s) /\ (0 <= sg_level s <= 255)%Z.

Record manifest_typed (m : EventManifest) : Prop := {
  mt_revision : in_u64 (mf_revision m);
  mt_fact_version : in_u64 (mf_fact_version m);
  mt_fact_rows : in_u64 (mf_fact_rows m);
  mt_epoch : in_u64 (epoch (mf_active_writer m));
  mt_segments : Forall segment_typed (mf_segments m);
}.

(** The arguments are of their types, and a group has passed the check made
    before [mutate_with_mode]. *)
Definition op_typed (op : ManifestOp) : Prop :=
  match op with
  | OpActivate requested _ => forall f, requested = Some f -> in_u64 (epoch f)
  | OpPublish _ segment => segment_typed segment
  | OpReplace _ segments => Forall segment_typed segments
  | OpReplaceGroup _ expected replacement => expected <> [] /\ segment_typed replacement
  end.

(** A manifest as the operations keep it. *)
Record manifest_ok (m : EventManifest) : Prop := {
  mo_valid : validate_manifest m = Ok ();
  mo_typed : manifest_typed m;
  mo_exact : exact_rows (mf_segments m) = mf_fact_rows m;
}.

Definition stored_ok (current : option EventManifest) : Prop :=
  forall m, current = Some m -> manifest_ok m.

Lemma u64_checked_add_some a b c :
  u64_checked_add a b = Some c -> c = (a + b)%Z /\ (a + b <= u64_max)%Z.
Proof. unfold u64_checked_add. case_match; intros; simplify_eq. lia. Qed.

Lemma ok_or_ok {E A} (o : option A) (e : E) a : ok_or o e = Ok a -> o = Some a.
Proof. destruct o; simpl; congruence. Qed.

Lemma bind_ok {E A C} (r : result E A) (k : A -> result E C) c :
  result_bind r k = Ok c -> exists a, r = Ok a /\ k a = Ok c.
Proof. destruct r; simpl; [eauto|done]. Qed.

Lemma ensure_ok {E A} (b : bool) (e : E) (k : result E A) c :
  (if b then k else Err e) = Ok c -> b = true /\ k = Ok c.
Proof. destruct b; [done|intros; discriminate]. Qed.

(** Take a successful [let?]/[ensure!] chain apart. *)
Ltac unwrap_ok :=
  repeat match goal with
  | H : result_bind _ _ = Ok _ |- _ =>
      let a := fresh "a" in let Ha := fresh "Ha" in
      apply bind_ok in H as (a & Ha & H)
  | H : (if _ then _ else Err _) = Ok _ |- _ =>
      let Hb := fresh "Hb" in apply ensure_ok in H as [Hb H]
  | H : ok_or _ _ = Ok _ |- _ => apply ok_or_ok in H
  | H : u64_checked_add _ _ = Some _ |- _ => apply u64_checked_add_some in H as [-> H]
  | H : Ok _ = Ok _ |- _ => injection H as H
  end.

Lemma total_rows_exact_mod segments total :
  foldl (fun total s => (total + sg_rows s) `mod` 2 ^ 64)%Z total segments
  = match segments with
    | [] => total
    | _ => ((total + exact_rows segments) `mod` 2 ^ 64)%Z
    end.
Proof.
  revert total. induction segments as [|s rest IH]; intros total; [done|].
  change (foldl ?f total (s :: rest)) with (foldl f (f total s) rest). rewrite IH.
  destruct rest as [|s' rest].
  - simpl. f_equal. lia.
  - rewrite Zplus_mod_idemp_l. simpl. f_equal. lia.
Qed.

Lemma total_rows_mod m : total_rows m = (exact_rows (mf_segments m) `mod` 2 ^ 64)%Z.
Proof. unfold total_rows. rewrite total_rows_exact_mod. by destruct (mf_segments m). Qed.

Lemma checked_rows_exact total segments rows :
  checked_rows total segments = Ok rows -> rows = (total + exact_rows segments)%Z.
Proof.
  revert total. induction segments as [|s rest IH]; intros total H; simpl in *.
  - unwrap_ok. lia.
  - unwrap_ok. apply IH in H. lia.
Qed.

Lemma exact_rows_app l k : exact_rows (l ++ k) = (exact_rows l + exact_rows k)%Z.
Proof. induction l; simpl; lia. Qed.

Lemma exact_rows_put s segments :
  exact_rows (put_segment s segments)
  = (exact_rows segments + sg_rows s
     - match find_segment (sg_id s) segments with Some e => sg_rows e | None => 0 end)%Z.
Proof.
  induction segments as [|x rest IH]; simpl; [lia|].
  case_bool_decide; simpl; [lia|]. rewrite IH. lia.
Qed.

(** A window found is a window there. *)
Lemma window_position_some expected segments i :
  expected <> [] ->
  window_position expected segments = Some i ->
  segments = take i segments ++ expected ++ drop (i + length expected) segments
  /\ (i + length expected <= length segments)%nat.
Proof.
  intros Hne. revert i. induction segments as [|s rest IH]; intros i H; [done|].
  cbn [window_position] in H. case_bool_decide as Ht.
  - injection H as <-. simpl. split.
    + rewrite <- Ht at 1. by rewrite take_drop.
    + apply (f_equal length) in Ht. rewrite length_take in Ht. simpl in Ht. lia.
  - apply fmap_Some in H as (j & Hj & ->). destruct (IH j Hj) as [He Hl]. simpl.
    split; [by f_equal|lia].
Qed.

Lemma exact_rows_splice expected segments i r :
  expected <> [] ->
  window_position expected segments = Some i ->
  exact_rows (splice_segments i (length expected) r segments)
  = (exact_rows segments + sg_rows r - exact_rows expected)%Z.
Proof.
  intros Hne H. destruct (window_position_some _ _ _ Hne H) as [He _].
  unfold splice_segments. rewrite He at 3. rewrite !exact_rows_app. simpl. lia.
Qed.

Lemma typed_put s segments :
  segment_typed s -> Forall segment_typed segments ->
  Forall segment_typed (put_segment s segments).
Proof.
  intros Hs. induction 1 as [|x l Hx Hl IH]; simpl; [by constructor|].
  case_bool_decide; by constructor.
Qed.

Lemma typed_splice i n r segments :
  segment_typed r -> Forall segment_typed segments ->
  Forall segment_typed (splice_segments i n r segments).
Proof.
  intros Hr Hs. unfold splice_segments. apply Forall_app; split.
  - by apply Forall_take.
  - constructor; [done|]. by apply Forall_drop.
Qed.

(** ** What a stored replacement is *)

(** The manifest a publication leaves: new rows advance the fact version. *)
Definition published (m : EventManifest) (s : EventSegment) (m' : EventManifest) : Prop :=
  mf_revision m' = (mf_revision m + 1)%Z
  /\ mf_active_writer m' = mf_active_writer m
  /\ mf_segments m' = put_segment s (mf_segments m)
  /\ ((mf_fact_rows m < total_rows m' /\ mf_fact_rows m' = total_rows m'
       /\ mf_fact_version m' = mf_fact_version m + 1 /\ mf_fact_version m + 1 <= u64_max)
      \/ (total_rows m' <= mf_fact_rows m /\ mf_fact_rows m' = mf_fact_rows m
          /\ mf_fact_version m' = mf_fact_version m))%Z.

(** The manifest a change of layout leaves. *)
Definition relaid (m : EventManifest) (segments : list EventSegment) (m' : EventManifest) : Prop :=
  m' = mkManifest (mf_revision m + 1) (mf_fact_version m) (mf_fact_rows m)
         (mf_active_writer m) segments.

Inductive replaced : ManifestOp -> option EventManifest -> EventManifest -> Prop :=
| replaced_first requested auto fence :
    default (mkFence 1 auto) requested = fence ->
    replaced (OpActivate requested auto) None (mkManifest 1 0 0 fence [])
| replaced_fence requested auto m fence :
    default (mkFence (epoch (mf_active_writer m) + 1) auto) requested = fence ->
    (epoch (mf_active_writer m) < epoch fence)%Z ->
    (requested = None -> epoch fence <= u64_max)%Z ->
    replaced (OpActivate requested auto) (Some m)
      (mkManifest (mf_revision m + 1) (mf_fact_version m) (mf_fact_rows m) fence (mf_segments m))
| replaced_publish m s m' :
    (forall e, find_segment (sg_id s) (mf_segments m) = Some e -> check_publication e s = Ok ()) ->
    published m s m' ->
    replaced (OpPublish (mf_active_writer m) s) (Some m) m'
| replaced_all m segments m' :
    exact_rows segments = mf_fact_rows m ->
    relaid m segments m' ->
    replaced (OpReplace (mf_active_writer m) segments) (Some m) m'
| replaced_group m expected r i m' :
    window_position expected (mf_segments m) = Some i ->
    sg_rows r = exact_rows expected ->
    relaid m (splice_segments i (length expected) r (mf_segments m)) m' ->
    replaced (OpReplaceGroup (mf_active_writer m) expected r) (Some m) m'.

Definition revision_fits (m : EventManifest) : Prop := (mf_revision m <= u64_max)%Z.

Lemma install_fence_replaces requested auto current fence m' v :
  default (mkFence (match current with Some m => epoch (mf_active_writer m) + 1 | None => 1 end)%Z
             auto) requested = fence ->
  (forall m, current = Some m -> epoch (mf_active_writer m) < epoch fence
     /\ (requested = None -> epoch fence <= u64_max))%Z ->
  install_fence current fence = Ok (MutReplace m' v) ->
  v = m' /\ replaced (OpActivate requested auto) current m' /\ revision_fits m'.
Proof.
  intros Hf He H. unfold install_fence, bump_revision in H. unwrap_ok. simplify_eq.
  unfold revision_fits. destruct current as [m|]; simpl in *; split_and!; try done.
  - by destruct (He m eq_refl); constructor.
  - by constructor.
Qed.

Lemma activate_replaces requested auto current m' v :
  activate requested auto current = Ok (MutReplace m' v) ->
  v = m' /\ replaced (OpActivate requested auto) current m' /\ revision_fits m'.
Proof.
  unfold activate. intros H. destruct requested as [f|], current as [m|].
  - repeat (case_bool_decide || case_match); try discriminate.
    eapply install_fence_replaces; [| |done]; [done|]. intros; simplify_eq. split; [lia|done].
  - by eapply install_fence_replaces.
  - unwrap_ok. eapply install_fence_replaces; [| |done]; [done|].
    intros; simplify_eq. simpl. split; [lia|done].
  - by eapply install_fence_replaces.
Qed.

Lemma active_writer_conflict_none m fence :
  active_writer_conflict m fence = None -> mf_active_writer m = fence.
Proof. unfold active_writer_conflict. by case_bool_decide as Hne; [|destruct (decide (mf_active_writer m = fence))]. Qed.

Lemma publish_into_published m s m' v :
  publish_into m s = Ok (MutReplace m' v) ->
  v = m' /\ published m s m' /\ revision_fits m'.
Proof.
  unfold publish_into, bump_revision, published, revision_fits. intros H.
  repeat (unwrap_ok || case_match); simplify_eq; simpl in *; split_and!; try done.
  - left. unfold total_rows in *. simpl in *. lia.
  - right. unfold total_rows in *. simpl in *. lia.
Qed.

Lemma publish_replaces fence s current m' v :
  publish_segment fence s current = Ok (MutReplace m' v) ->
  v = m' /\ replaced (OpPublish fence s) current m' /\ revision_fits m'.
Proof.
  unfold publish_segment. intros H. unwrap_ok. subst current.
  destruct (active_writer_conflict a fence) eqn:Hc; [done|].
  apply active_writer_conflict_none in Hc as <-.
  destruct (find_segment (sg_id s) (mf_segments a)) as [e|] eqn:Hfind.
  - case_bool_decide; [done|]. unwrap_ok. destruct a0.
    destruct (publish_into_published _ _ _ _ H) as (-> & Hp & Hr). split_and!; try done.
    constructor; [|done]. intros e' He'. by simplify_eq.
  - destruct (publish_into_published _ _ _ _ H) as (-> & Hp & Hr). split_and!; try done.
    constructor; [|done]. intros e' He'. by simplify_eq.
Qed.

Lemma replace_replaces fence segments current m' v :
  replace_segments fence segments current = Ok (MutReplace m' v) ->
  v = m' /\ replaced (OpReplace fence segments) current m' /\ revision_fits m'.
Proof.
  unfold replace_segments, bump_revision. intros H. unwrap_ok. subst current.
  destruct (active_writer_conflict a fence) eqn:Hc; [done|].
  apply active_writer_conflict_none in Hc as <-.
  unwrap_ok. simplify_eq. split_and!; [done| |done].
  constructor; [|done].
  match goal with H : checked_rows _ _ = Ok _ |- _ => apply checked_rows_exact in H end. lia.
Qed.

Lemma replace_group_replaces fence expected r current m' v :
  replace_segment_group fence expected r current = Ok (MutReplace m' v) ->
  v = m' /\ replaced (OpReplaceGroup fence expected r) current m' /\ revision_fits m'.
Proof.
  unfold replace_segment_group, bump_revision. intros H. unwrap_ok. subst current.
  destruct (active_writer_conflict a fence) eqn:Hc; [done|].
  apply active_writer_conflict_none in Hc as <-.
  destruct (window_position expected (mf_segments a)) as [i|] eqn:Hw; [|done].
  unwrap_ok. simplify_eq. split_and!; [done| |done].
  econstructor; [done| |done].
  match goal with H : checked_rows _ _ = Ok _ |- _ => apply checked_rows_exact in H end. lia.
Qed.

Lemma op_closure_replaces op current m' v :
  op_closure op current = Ok (MutReplace m' v) ->
  v = m' /\ replaced op current m' /\ revision_fits m'.
Proof.
  destruct op; simpl; eauto using activate_replaces, publish_replaces, replace_replaces,
    replace_group_replaces.
Qed.

(** An operation that answers without storing found a conflict, or a
    manifest that already is what it asks for. *)
Lemma op_closure_unchanged op current m :
  op_closure op current = Ok (MutUnchanged m) ->
  current = Some m
  /\ match op with
     | OpActivate requested _ => requested = Some (mf_active_writer m)
     | OpPublish fence s =>
         mf_active_writer m = fence /\ find_segment (sg_id s) (mf_segments m) = Some s
     | _ => False
     end.
Proof.
  destruct op; simpl; intros H.
  - unfold activate, install_fence in H.
    repeat (unwrap_ok || case_bool_decide || case_match); simplify_eq. done.
  - unfold publish_segment, publish_into in H. unwrap_ok.
    destruct (active_writer_conflict a fence) eqn:Hc; [done|].
    apply active_writer_conflict_none in Hc.
    destruct (find_segment _ _) eqn:Hfind; [case_bool_decide|];
      repeat (unwrap_ok || case_match); simplify_eq; done.
  - unfold replace_segments in H. repeat (unwrap_ok || case_match); simplify_eq.
  - unfold replace_segment_group in H. repeat (unwrap_ok || case_match); simplify_eq.
Qed.

Lemma manifest_apply_cases op current outcome current' :
  manifest_apply op current = Ok (outcome, current') ->
  op_precheck op = Ok ()
  /\ ((exists m, outcome = Applied m /\ current' = current
         /\ op_closure op current = Ok (MutUnchanged m))
      \/ (exists c, outcome = Conflicted c /\ current' = current
            /\ op_closure op current = Ok (MutConflict c))
      \/ (exists m', outcome = Applied m' /\ current' = Some m'
            /\ replaced op current m' /\ validate_manifest m' = Ok () /\ revision_fits m')).
Proof.
  unfold manifest_apply, manifest_mutate. intros H. unwrap_ok.
  match goal with H : op_precheck op = Ok ?u |- _ => destruct u end. split; [done|].
  match goal with H : op_closure _ _ = Ok ?mu |- _ => destruct mu as [v|m v|c] end;
    unwrap_ok; simplify_eq.
  - left. eauto.
  - match goal with H : op_closure _ _ = Ok (MutReplace _ _) |- _ =>
      destruct (op_closure_replaces _ _ _ _ H) as (-> & Hr & Hf) end.
    match goal with H : validate_manifest _ = Ok ?u |- _ => destruct u end.
    right; right. eauto 10.
  - right; left. eauto.
Qed.

(** ** Every stored manifest is valid and exact *)

(** Fencing along a history: epochs never fall, and an epoch has one owner. *)
Definition fence_le (f g : EventWriterFence) : Prop :=
  (epoch f < epoch g)%Z \/ f = g.

#[global] Instance fence_le_preorder : PreOrder fence_le.
Proof.
  split; [by right|]. intros f g h [H| ->] [H'| <-]; unfold fence_le; try (left; lia); auto.
Qed.

(** What one stored replacement may change. *)
Record manifest_next (m m' : EventManifest) : Prop := {
  mn_revision : mf_revision m' = (mf_revision m + 1)%Z;
  mn_fence : fence_le (mf_active_writer m) (mf_active_writer m');
  mn_facts :
    (mf_fact_rows m' = mf_fact_rows m /\ mf_fact_version m' = mf_fact_version m)
    \/ ((mf_fact_rows m < mf_fact_rows m')%Z
        /\ mf_fact_version m' = (mf_fact_version m + 1)%Z
        /\ mf_active_writer m' = mf_active_writer m);
}.

Lemma replaced_next op m m' : replaced op (Some m) m' -> manifest_next m m'.
Proof.
  inversion 1 as [|? ? ? fence Hd Hlt Hle|? s ? Hck Hp|? ss ? Hx Hl|? ex r i ? Hw Hx Hl]; subst;
    [split; simpl; auto; by left | | |].
  - destruct Hp as (Hrev & Ha & _ & Hf). split; [done|by right; rewrite Ha|].
    destruct Hf as [?|?]; [right|left]; intuition lia.
  - red in Hl; subst m'. split; simpl; auto. reflexivity.
  - red in Hl; subst m'. split; simpl; auto. reflexivity.
Qed.

Lemma find_segment_typed id segments s :
  Forall segment_typed segments -> find_segment id segments = Some s -> segment_typed s.
Proof.
  induction 1 as [|x l Hx Hl IH]; simpl; [done|].
  case_bool_decide; [by intros; simplify_eq|done].
Qed.

Lemma published_rows m s m' :
  manifest_ok m -> segment_typed s ->
  (forall e, find_segment (sg_id s) (mf_segments m) = Some e -> check_publication e s = Ok ()) ->
  published m s m' -> validate_manifest m' = Ok () ->
  exact_rows (mf_segments m') = mf_fact_rows m' /\ in_u64 (mf_fact_rows m').
Proof.
  intros [_ Ht Hx] (_ & Hrows & _) Hck (_ & _ & Hsegs & Hf) Hv.
  destruct Ht as [_ _ Hfr _ Hsg]. unfold validate_manifest in Hv. unwrap_ok.
  assert (Hgrow : (mf_fact_rows m <= exact_rows (mf_segments m') <= mf_fact_rows m + u64_max)%Z).
  { rewrite Hsegs, exact_rows_put. unfold in_u64 in *.
    destruct (find_segment _ _) as [e|] eqn:He; [|lia].
    specialize (Hck e eq_refl). unfold check_publication in Hck. unwrap_ok.
    rewrite andb_true_iff in *. destruct_and!.
    assert (Hle : (sg_rows e <= sg_rows s)%Z) by lia.
    assert (Hpos : (0 <= sg_rows e)%Z); [|lia].
    pose proof (find_segment_typed _ _ _ Hsg He) as (_ & [? _] & _). lia. }
  rewrite total_rows_mod in *. unfold in_u64, u64_max in *.
  pose proof (Z.mod_pos_bound (exact_rows (mf_segments m')) (2 ^ 64) ltac:(lia)).
  destruct (decide (exact_rows (mf_segments m') < 2 ^ 64)%Z) as [Hsmall|Hbig].
  - rewrite Z.mod_small in * by lia. lia.
  - assert (exact_rows (mf_segments m') `mod` 2 ^ 64
            = exact_rows (mf_segments m') - 2 ^ 64)%Z as Hw; [|lia].
    symmetry. apply (Z.mod_unique _ _ 1); lia.
Qed.

Lemma validate_manifest_epoch m :
  validate_manifest m = Ok () -> (0 < epoch (mf_active_writer m))%Z.
Proof. unfold validate_manifest, fence_new. intros H. unwrap_ok. lia. Qed.

(** The invariant of the store, one operation at a time. *)
Lemma manifest_apply_ok op current outcome current' :
  op_typed op -> stored_ok current ->
  manifest_apply op current = Ok (outcome, current') -> stored_ok current'.
Proof.
  intros Hop Hok H.
  destruct (manifest_apply_cases _ _ _ _ H) as (Hpre & [(m & _ & -> & _)|[(c & _ & -> & _)|Hr]]);
    [done|done|].
  destruct Hr as (m' & _ & -> & Hr & Hv & Hfit). intros ? [= <-].
  pose proof (validate_manifest_epoch _ Hv) as Hep. unfold revision_fits in Hfit.
  destruct Hr as [requested auto fence Hd|requested auto m fence Hd Hlt Hle|m s m' Hck Hp
    |m segs m' Hx Hl|m ex r i m' Hw Hx Hl].
  - split; [done| |done]. split; simpl in *; try (unfold in_u64, u64_max in *; lia); [|constructor].
    destruct requested as [f|]; simpl in *; subst; [by apply Hop|unfold in_u64, u64_max; simpl; lia].
  - destruct (Hok m eq_refl) as [Hv0 [? ? ? ? ?] Hx]. split; [done| |done].
    split; simpl in *; try done; [unfold in_u64 in *; lia|].
    destruct requested as [f|]; simpl in *; subst; [by apply Hop|].
    unfold in_u64 in *. specialize (Hle eq_refl). lia.
  - destruct (published_rows _ _ _ (Hok m eq_refl) Hop Hck Hp Hv) as [Hx Hfr].
    destruct (Hok m eq_refl) as [_ [? ? ? ? ?] _]. destruct Hp as (Hrev & Ha & Hsegs & Hf).
    split; [done| |done]. split; [| |done| |].
    + unfold in_u64 in *. lia.
    + unfold in_u64 in *. lia.
    + by rewrite Ha.
    + rewrite Hsegs. by apply typed_put.
  - red in Hl. subst m'. destruct (Hok m eq_refl) as [_ [? ? ? ? ?] _].
    split; [done| |done]. split; simpl in *; try done. unfold in_u64 in *. lia.
  - red in Hl. subst m'. destruct (Hok m eq_refl) as [_ [? ? ? ? ?] Hm].
    assert (ex <> []) by (simpl in Hpre; unwrap_ok; by case_bool_decide).
    split; [done| |].
    + split; simpl in *; try done; [unfold in_u64 in *; lia|].
      destruct Hop. by apply typed_splice.
    + simpl. rewrite exact_rows_splice by done. lia.
Qed.

(** The history of one manifest, one answered operation at a time. *)
Lemma manifest_apply_next op m outcome current' :
  manifest_apply op (Some m) = Ok (outcome, current') ->
  exists m', current' = Some m' /\ (m' = m \/ (outcome = Applied m' /\ manifest_next m m')).
Proof.
  intros H.
  destruct (manifest_apply_cases _ _ _ _ H) as (_ & [(m0 & _ & -> & _)|[(c & _ & -> & _)|Hr]]);
    [by exists m; auto|by exists m; auto|].
  destruct Hr as (m' & -> & -> & Hr & _). exists m'. eauto using replaced_next.
Qed.

Lemma manifest_apply_fence op m outcome m' :
  manifest_apply op (Some m) = Ok (outcome, Some m') ->
  fence_le (mf_active_writer m) (mf_active_writer m').
Proof.
  intros H. destruct (manifest_apply_next _ _ _ _ H) as (m1 & [= <-] & [ ->|[_ Hn]]);
    [reflexivity|apply Hn].
Qed.

(** A fence that is not the active one publishes nothing. *)
Lemma stale_fence_conflicts op fence m outcome current' :
  match op with
  | OpActivate _ _ => False
  | OpPublish f _ | OpReplace f _ | OpReplaceGroup f _ _ => f = fence
  end ->
  mf_active_writer m <> fence ->
  manifest_apply op (Some m) = Ok (outcome, current') ->
  outcome = Conflicted StaleFence /\ current' = Some m.
Proof.
  intros Hop Hne H. unfold manifest_apply, manifest_mutate in H.
  destruct op; simpl in *; subst; [done|..];
    unfold publish_segment, replace_segments, replace_segment_group, active_writer_conflict in H;
    simpl in H; rewrite (bool_decide_eq_true_2 (mf_active_writer m <> fence)) in H by done;
    unwrap_ok; simplify_eq; done.
Qed.

(** ** The history of one manifest under concurrent callers *)

Abbreviation ManifestEvent := (@event ManifestOp (ManifestWriteOutcome EventManifest) ()).
Abbreviation manifest_hist := (record_hist manifest_mutate).

(** The manifest a callback was told is active. *)
Definition applied_writer (o : ManifestWriteOutcome EventManifest) : option EventWriterFence :=
  match o with Applied m => Some (mf_active_writer m) | Conflicted _ => None end.

Lemma op_typed_precheck op : op_typed op -> op_precheck op = Ok ().
Proof. destruct op; simpl; try done. intros [? _]. by rewrite bool_decide_eq_false_2. Qed.

Lemma record_step_apply c (e : ManifestEvent) c' :
  op_typed (ev_op e) -> record_step manifest_mutate c e c' ->
  manifest_apply (ev_op e) c = Ok (ev_out e, c').
Proof.
  intros Ht%op_typed_precheck. unfold record_step, manifest_apply. rewrite Ht. simpl.
  destruct (ev_clock e), (manifest_mutate _ _ c) as [[o|m o]|]; simpl; try done;
    by intros [-> ->].
Qed.

(** What a step answers with is what it leaves. *)
Lemma manifest_apply_applied op c m c' :
  manifest_apply op c = Ok (Applied m, c') -> c' = Some m.
Proof.
  intros H.
  destruct (manifest_apply_cases _ _ _ _ H)
    as (_ & [(m0 & [= ->] & -> & Hu)|[(x & [=] & _)|(m' & [= ->] & -> & _)]]); [|done].
  by apply op_closure_unchanged in Hu as [-> _].
Qed.

Lemma manifest_apply_le op c o c' m :
  manifest_apply op c = Ok (o, c') -> c = Some m ->
  exists m', c' = Some m' /\ fence_le (mf_active_writer m) (mf_active_writer m').
Proof.
  intros H ->. destruct (manifest_apply_next _ _ _ _ H) as (m' & -> & _).
  eauto using manifest_apply_fence.
Qed.

(** Along a history the stored manifest stays as it should be, every answer
    is such a manifest, and the active fence only moves up. *)
Lemma manifest_hist_spec c es c' :
  manifest_hist c es c' -> (forall e, e ∈ es -> op_typed (ev_op e)) -> stored_ok c ->
  stored_ok c'
  /\ (forall e m, e ∈ es -> ev_out e = Applied m -> manifest_ok m)
  /\ (forall m, c = Some m -> exists m', c' = Some m'
        /\ fence_le (mf_active_writer m) (mf_active_writer m')).
Proof.
  induction 1 as [c|c e c1 es c2 Hs Hh IH]; intros Ht Hok.
  - split_and!; [done|by intros ? ? ?%elem_of_nil|]. intros m ->. by exists m.
  - apply record_step_apply in Hs; [|apply Ht; by left].
    assert (Hok1 : stored_ok c1) by (eapply manifest_apply_ok, Hs; [apply Ht; by left|done]).
    destruct IH as (Hok2 & Hout & Hle); [intros; apply Ht; by right|done|].
    split_and!; [done| |].
    + intros e' m [->|He]%elem_of_cons Ho; [|by eapply Hout].
      rewrite Ho in Hs. apply Hok1. by eapply manifest_apply_applied.
    + intros m Hm. destruct (manifest_apply_le _ _ _ _ _ Hs Hm) as (m1 & -> & Hl1).
      destruct (Hle m1 eq_refl) as (m2 & -> & Hl2). exists m2. split; [done|by etrans].
Qed.

(** After an answer that names a fence, an operation of any fence that the
    named one supersedes finds itself stale. *)
Lemma manifest_hist_fenced c es c' (e : ManifestEvent) c'' m g f :
  manifest_hist c es c' -> (forall e, e ∈ es -> op_typed (ev_op e)) -> stored_ok c ->
  c = Some m -> mf_active_writer m = g ->
  record_step manifest_mutate c' e c'' -> op_typed (ev_op e) ->
  match ev_op e with
  | OpActivate _ _ => False
  | OpPublish f' _ | OpReplace f' _ | OpReplaceGroup f' _ _ => f' = f
  end ->
  ~ fence_le g f ->
  ev_out e = Conflicted StaleFence /\ c'' = c'.
Proof.
  intros Hh Ht Hok Hc <- Hs Hte Hop Hf.
  destruct (manifest_hist_spec _ _ _ Hh Ht Hok) as (_ & _ & Hle).
  destruct (Hle m Hc) as (m' & -> & Hm').
  eapply stale_fence_conflicts; [exact Hop| |by apply record_step_apply].
  intros <-. by apply Hf.
Qed.

Section Concurrent.
Context {B V St : Type} `{!Codec EventManifest B} `{!ObjectStore St B V}.

Abbreviation manifest_exec := (cas_exec manifest_path manifest_mutate MANIFEST_CAS_RETRIES).

Lemma manifest_exec_hist (st st' : St) cs cs' es pre :
  cas_inv manifest_path manifest_mutate (st, cs) -> logs_ok cas_result cs pre ->
  manifest_exec (st, cs) es (st', cs') ->
  cas_inv manifest_path manifest_mutate (st', cs')
  /\ manifest_hist (cas_abs st MANIFEST_FILE) es (cas_abs st' MANIFEST_FILE)
  /\ logs_ok cas_result cs' (pre ++ es).
Proof.
  intros Hinv Hlogs Hexec.
  destruct (cas_exec_sim _ _ _ _ _ _ Hinv Hexec) as [Hinv' Hat].
  apply (atomic_run_project _ _ MANIFEST_FILE) in Hat.
  assert (Hall : events_at manifest_path MANIFEST_FILE es = es).
  { unfold events_at. clear. induction es as [|e es IH]; [done|].
    by rewrite filter_cons_True, IH. }
  rewrite Hall in Hat. split_and!; [done|done|].
  by apply (cas_exec_logs _ _ _ _ _ _ pre Hexec).
Qed.

Lemma manifest_start (st : St) :
  store_decodes (R := EventManifest) st -> cas_inv manifest_path manifest_mutate (st, ∅).
Proof. intros Hd. split; [done|]. intros ? ? ?. simpl. by rewrite lookup_empty. Qed.

(** C15: however concurrent writers, compactors and maintainers of one event
    log interleave, and whichever of their requests are lost or answered late,
    the stored manifest and every manifest a caller is given pass validation,
    stay within their machine types, and count their rows exactly: the unchecked
    sum of [total_rows] never wraps in a manifest that reaches the store. *)
Theorem manifests_stay_exact (st st' : St) es cs :
  store_decodes (R := EventManifest) st ->
  stored_ok (cas_abs st MANIFEST_FILE) ->
  manifest_exec (st, ∅) es (st', cs) ->
  (forall e, e ∈ es -> op_typed (ev_op e)) ->
  stored_ok (cas_abs st' MANIFEST_FILE)
  /\ (forall i op m, cs !! i = Some (op, CasDone (Ok (Applied m))) ->
        manifest_ok m /\ total_rows m = exact_rows (mf_segments m)).
Proof.
  intros Hd Hok Hexec Ht.
  destruct (manifest_exec_hist _ _ _ _ _ [] (manifest_start _ Hd) (logs_ok_empty _) Hexec)
    as (_ & Hh & Hlogs).
  destruct (manifest_hist_spec _ _ _ Hh Ht Hok) as (Hok' & Hout & _). split; [done|].
  intros i op m Hi. destruct (logs_ok_event _ _ _ _ _ _ _ Hlogs Hi eq_refl) as [k He].
  assert (Hm : manifest_ok m) by (by eapply Hout). split; [done|].
  destruct Hm as [_ [_ _ [? ?] _ _] Hx]. rewrite total_rows_mod, Hx, Z.mod_small; [done|].
  unfold u64_max in *. lia.
Qed.

(** Once a caller was told that fence [g] is active, a caller that had not
    been answered yet and works under a fence [f] that [g] supersedes (a smaller
    epoch, or the same epoch and another writer) changes nothing: if it is
    answered at all, it is told its fence is stale. *)
Theorem superseded_writer_is_stale (st st1 st2 : St) es1 es2 cs1 cs2 i j opi opj m f o :
  store_decodes (R := EventManifest) st ->
  stored_ok (cas_abs st MANIFEST_FILE) ->
  manifest_exec (st, ∅) es1 (st1, cs1) ->
  manifest_exec (st1, cs1) es2 (st2, cs2) ->
  (forall e, e ∈ es1 ++ es2 -> op_typed (ev_op e)) ->
  cs1 !! i = Some (opi, CasDone (Ok (Applied m))) ->
  (forall res, cs1 !! j <> Some (opj, CasDone res)) ->
  match opj with
  | OpActivate _ _ => False
  | OpPublish f' _ | OpReplace f' _ | OpReplaceGroup f' _ _ => f' = f
  end ->
  f <> mf_active_writer m -> (epoch f <= epoch (mf_active_writer m))%Z ->
  cs2 !! j = Some (opj, CasDone (Ok o)) ->
  o = Conflicted StaleFence.
Proof.
  intros Hd Hok Hexec1 Hexec2 Ht Hi Hpend Hop Hne Hle Hj.
  destruct (manifest_exec_hist _ _ _ _ _ [] (manifest_start _ Hd) (logs_ok_empty _) Hexec1)
    as (Hinv1 & Hh1 & Hlogs1).
  destruct (manifest_exec_hist _ _ _ _ _ _ Hinv1 Hlogs1 Hexec2) as (_ & Hh2 & Hlogs2).
  destruct (logs_ok_event _ _ _ _ _ _ _ Hlogs1 Hi eq_refl) as [ki Hei].
  destruct (logs_ok_event _ _ _ _ _ _ _ Hlogs2 Hj eq_refl) as [kj Hej].
  simpl in *. apply elem_of_app in Hej as [Hej|Hej].
  { destruct (logs_ok_event_inv _ _ _ _ Hlogs1 Hej) as (ph & res & Hcj & Hres).
    simpl in Hcj. destruct ph; simplify_eq/=. by destruct (Hpend res). }
  assert (Ht1 : forall e, e ∈ es1 -> op_typed (ev_op e)) by (intros; apply Ht, elem_of_app; auto).
  assert (Ht2 : forall e, e ∈ es2 -> op_typed (ev_op e)) by (intros; apply Ht, elem_of_app; auto).
  apply list_elem_of_split in Hei as (a & b & ->), Hej as (c & d & ->).
  destruct (record_hist_split _ _ _ _ _ _ Hh1) as (x0 & x1 & Ha & Hsi & Hb).
  destruct (record_hist_split _ _ _ _ _ _ Hh2) as (y0 & y1 & Hc & Hsj & _).
  apply record_step_apply in Hsi; [|apply Ht1, elem_of_app; right; by left].
  simpl in Hsi. pose proof (manifest_apply_applied _ _ _ _ Hsi) as ->.
  destruct (manifest_hist_spec _ _ _ Ha) as (Hok0 & _); [intros; apply Ht1, elem_of_app; auto|done|].
  assert (Hok1 : stored_ok (Some m)).
  { eapply manifest_apply_ok, Hsi; [|done]. apply (Ht1 (mkEvent i opi ki (Applied m) true)).
    apply elem_of_app; right; by left. }
  destruct (manifest_hist_spec _ _ _ Hb) as (Hokb & _ & Hleb);
    [intros; apply Ht1, elem_of_app; right; by right|done|].
  destruct (Hleb m eq_refl) as (m1 & Hm1 & Hf1). rewrite Hm1 in Hc, Hokb.
  refine (proj1 (manifest_hist_fenced _ _ _ _ _ m1 _ f Hc _ Hokb eq_refl eq_refl Hsj _ _ _)).
  - intros; apply Ht2, elem_of_app; auto.
  - apply (Ht2 (mkEvent j opj kj o true)), elem_of_app; right; by left.
  - done.
  - intros Hfle. assert (Hgf : fence_le (mf_active_writer m) f) by (by etrans).
    destruct Hgf as [?|Heq]; [lia|by apply Hne].
Qed.
End Concurrent.

(** ** An instance

    A writer publishes three rows, a second one takes over, and the first
    tries to publish once more. *)
Module ManifestExample.
#[local] Existing Instance id_codec.
#[local] Existing Instance versioned_object_store.

Definition first : EventWriterFence := mkFence 1 "auto-a".
Definition second : EventWriterFence := mkFence 2 "auto-b".
Definition open_segment (version rows : Z) : EventSegment :=
  mkSegment "e1-s" version rows 0 false.

Definition acts1 : list (@action ManifestOp ()) :=
  [ActInvoke 0 (OpActivate None "auto-a"); ActRead 0 tt; ActWrite 0;
   ActInvoke 1 (OpPublish first (open_segment 1 3)); ActRead 1 tt;
   ActWrite 1; ActInvoke 2 (OpPublish first (open_segment 2 5)); ActRead 2 tt;
   ActInvoke 3 (OpActivate None "auto-b"); ActRead 3 tt; ActWrite 3].
Definition acts2 : list (@action ManifestOp ()) := [ActWrite 2; ActRead 2 tt].

Definition st0 : @versioned_store EventManifest := mkVersioned ∅ 0.
Abbreviation config := (@cas_config EventManifest nat (@versioned_store EventManifest)
                          ManifestOp (ManifestWriteOutcome EventManifest) () ManifestError).

Definition run_acts (acts : list (@action ManifestOp ())) (c : config)
  : list ManifestEvent * config :=
  match schedule (cas_do manifest_path manifest_mutate MANIFEST_CAS_RETRIES) acts c with
  | Some ec => ec
  | None => ([], c)
  end.
Definition es1 := fst (run_acts acts1 (st0, ∅)).
Definition c1 := snd (run_acts acts1 (st0, ∅)).
Definition es2 := fst (run_acts acts2 c1).
Definition c2 := snd (run_acts acts2 c1).

Lemma manifest_exec1 :
  cas_exec manifest_path manifest_mutate MANIFEST_CAS_RETRIES (st0, ∅) es1 (fst c1, snd c1).
Proof. apply (cas_schedule_sound _ _ _ acts1). vm_compute. reflexivity. Qed.

Lemma manifest_exec2 :
  cas_exec manifest_path manifest_mutate MANIFEST_CAS_RETRIES (fst c1, snd c1) es2 (fst c2, snd c2).
Proof. apply (cas_schedule_sound _ _ _ acts2). vm_compute. reflexivity. Qed.

Lemma manifest_st0_decodes : store_decodes (R := EventManifest) (V := nat) st0.
Proof. intros p b v. simpl. unfold vs_get; simpl. by rewrite lookup_empty. Qed.

Lemma manifest_st0_ok : stored_ok (cas_abs (R := EventManifest) st0 MANIFEST_FILE).
Proof. intros m. unfold cas_abs, os_get. simpl. unfold vs_get. simpl. by rewrite lookup_empty. Qed.

Definition op_typed_b (op : ManifestOp) : bool :=
  match op with
  | OpActivate None _ => true
  | OpPublish _ s => bool_decide (segment_typed s)
  | _ => false
  end.

Lemma op_typed_b_sound (es : list ManifestEvent) :
  forallb (fun e => op_typed_b (ev_op e)) es = true -> forall e, e ∈ es -> op_typed (ev_op e).
Proof.
  rewrite forallb_forall. intros H e He. apply list_elem_of_In, H in He.
  destruct (ev_op e) as [[f|] a|f s|f l|f l r]; simpl in *; try done.
  by apply bool_decide_eq_true in He.
Qed.

Definition after_takeover : EventManifest :=
  mkManifest 3 1 3 second [open_segment 1 3].

Lemma manifests_stay_exact_witness :
  stored_ok (cas_abs (R := EventManifest) (fst c1) MANIFEST_FILE)
  /\ total_rows after_takeover = 3%Z.
Proof.
  destruct (manifests_stay_exact (V := nat) st0 (fst c1) es1 (snd c1)
              manifest_st0_decodes manifest_st0_ok manifest_exec1) as [Hok Hans].
  { apply op_typed_b_sound. vm_compute. reflexivity. }
  split; [exact Hok|].
  destruct (Hans 3 (OpActivate None "auto-b") after_takeover) as [_ Hx].
  - vm_compute. reflexivity.
  - rewrite Hx. reflexivity.
Defined.

Lemma superseded_writer_is_stale_witness :
  exists o, snd c2 !! 2 = Some (OpPublish first (open_segment 2 5), CasDone (Ok o))
            /\ o = Conflicted StaleFence.
Proof.
  exists (Conflicted StaleFence). split; [vm_compute; reflexivity|].
  apply (superseded_writer_is_stale (V := nat) st0 (fst c1) (fst c2) es1 es2 (snd c1) (snd c2) 3 2
           (OpActivate None "auto-b") (OpPublish first (open_segment 2 5)) after_takeover first).
  - apply manifest_st0_decodes.
  - apply manifest_st0_ok.
  - apply manifest_exec1.
  - apply manifest_exec2.
  - apply op_typed_b_sound. vm_compute. reflexivity.
  - vm_compute. reflexivity.
  - intros res. vm_compute. discriminate.
  - reflexivity.
  - vm_compute. discriminate.
  - vm_compute. discriminate.
  - vm_compute. reflexivity.
Defined.
End ManifestExample.
