(* ===== verification/EventLog.v ===== *)
(** * The canonical event log: writers, compactors and maintainers of one root

    [store/events/mod.rs] appends rows to private Lance datasets ("segments")
    and makes them visible by publishing a segment's version in the manifest
    of [EventManifest].  Three kinds of task work on one root at the same time:
    appenders, which write a batch and then publish it; compactors, which
    rewrite a sealed segment and merge groups of sealed segments; and
    maintainers, which rewrite the whole visible log as one segment.

    Lance is a library: [LanceStore] is what the source relies on, immutable
    versions and ordered scans.  The pieces of each function between two
    effects are definitions of their own; [log_step] lets the tasks take these
    pieces in any order, each request failing before or after its effect, and
    each task dying at any time.  The locks of [dataset_write_lock] are left out,
    which only adds interleavings.

    The specification is an append-only list of rows.  The file proves that the
    rows readers see are, in every execution, the batches published so far. *)

From Stdlib Require Import ZArith Lia.
From stdpp Require Import base list strings gmap numbers option pretty.
From S2P Require Import Prelude Durable EventManifest.

(** ** The storage library *)

(** What [compact_files] and [create_index] do to a dataset. *)
Inductive Reorganisation : Type :=
| CompactFiles
| CreateIndex.

(** A Lance store.  [ln_latest] is the version [Dataset::open] finds, [ln_scan]
    the ordered rows of a version, [ln_insert] is [InsertBuilder] (a new
    dataset, or an append to an open one), [ln_reorganise] rewrites the latest
    version and says whether fragments were removed.  [ln_touched] is what an
    operation on one dataset, successful or not, may leave. *)
Class LanceStore (St Row : Type) : Type := {
  ln_latest : string -> St -> option Z;
  ln_scan : string -> Z -> St -> option (list Row);
  ln_insert : string -> option Z -> list Row -> St -> option (Z * St);
  ln_reorganise : Reorganisation -> string -> St -> option (bool * Z * St);
  ln_touched : string -> St -> St -> Prop;
  ln_latest_readable : forall u st v,
    ln_latest u st = Some v -> (0 < v <= u64_max)%Z /\ is_Some (ln_scan u v st);
  ln_create : forall u rows st v st',
    ln_insert u None rows st = Some (v, st') ->
    ln_latest u st' = Some v /\ ln_scan u v st' = Some rows;
  ln_append : forall u rows st v0 old v st',
    ln_insert u (Some v0) rows st = Some (v, st') ->
    ln_latest u st = Some v0 -> ln_scan u v0 st = Some old ->
    (v0 < v)%Z /\ ln_latest u st' = Some v /\ ln_scan u v st' = Some (old ++ rows);
  ln_reorganised : forall k u st v0 changed v st',
    ln_reorganise k u st = Some (changed, v, st') -> ln_latest u st = Some v0 ->
    (v0 <= v)%Z /\ ln_latest u st' = Some v /\ ln_scan u v st' = ln_scan u v0 st;
  ln_insert_touched : forall u d rows st v st',
    ln_insert u d rows st = Some (v, st') -> ln_touched u st st';
  ln_reorganise_touched : forall k u st r st',
    ln_reorganise k u st = Some (r, st') -> ln_touched u st st';
  ln_touched_scan : forall u st st' q v rows,
    ln_touched u st st' -> ln_scan q v st = Some rows -> ln_scan q v st' = Some rows;
  ln_touched_latest : forall u st st' q,
    ln_touched u st st' -> q <> u -> ln_latest q st' = ln_latest q st;
  ln_touched_alive : forall u st st',
    ln_touched u st st' -> is_Some (ln_latest u st) -> is_Some (ln_latest u st');
}.

Section EventLog.
Context {St Row : Type} `{!LanceStore St Row}.
Context (root_uri : string).

(** [manifest::segment_uri] of a segment of this log. *)
Definition uri (id : string) : string := segment_uri root_uri id.

(** ** Data *)

(** [CachedRawDataset]; [cd_dataset] is the version of the open dataset. *)
Record CachedRawDataset : Type := mkCached {
  cd_fence : EventWriterFence;
  cd_segment_id : string;
  cd_dataset : option Z;
  cd_rows : Z;
  cd_pending_fragments : Z;
  cd_manifest_revision : Z;
}.

Record SealedEventSegment : Type := mkSealed {
  se_fence : EventWriterFence;
  se_segment : EventSegment;
}.

(** ** Appending *)

(** [format!("e{}-{}", fence.epoch, uuid)] and [format!("compact-{}", uuid)]. *)
Definition writer_segment_id (fence : EventWriterFence) (uuid : string) : string :=
  "e" +:+ pretty (epoch fence) +:+ "-" +:+ uuid.
Definition compact_segment_id (uuid : string) : string := "compact-" +:+ uuid.

(** [new_state], after the answer of [activate_with_mode]. *)
Definition new_state (uuid : string) (answer : option (ManifestWriteOutcome EventManifest))
  : option CachedRawDataset :=
  match answer with
  | Some (Applied m) =>
      let fence := mf_active_writer m in
      Some (mkCached fence (writer_segment_id fence uuid) None 0 0 (mf_revision m))
  | _ => None
  end.

(** [append_rows]: [state.dataset.take()] decides between append and create. *)
Definition append_rows (c : CachedRawDataset) (batch : list Row) (st : St) : option (Z * St) :=
  ln_insert (uri (cd_segment_id c)) (cd_dataset c) batch st.

(** [append_event_group] up to the publication. *)
Definition count_appended (c : CachedRawDataset) (appended_rows : Z) : option CachedRawDataset :=
  rows ← u64_checked_add (cd_rows c) appended_rows;
  Some (mkCached (cd_fence c) (cd_segment_id c) None rows
          (Z.min (cd_pending_fragments c + 1) u64_max) (cd_manifest_revision c)).

Definition open_descriptor (c : CachedRawDataset) (version : Z) : EventSegment :=
  mkSegment (cd_segment_id c) version (cd_rows c) 0 false.

(** [append_event_group] after the publication; an error drops the state. *)
Definition after_publish (c : CachedRawDataset) (version : Z)
    (answer : option (ManifestWriteOutcome EventManifest)) : option CachedRawDataset :=
  match answer with
  | Some (Applied m) =>
      Some (mkCached (cd_fence c) (cd_segment_id c) (Some version) (cd_rows c)
              (cd_pending_fragments c) (mf_revision m))
  | _ => None
  end.

(** The body of the loop of [seal_fragmented_segments] for one root. *)
Definition seal_state (fragment_threshold : Z) (uuid : string) (c : CachedRawDataset)
  : option (SealedEventSegment * CachedRawDataset) :=
  if (cd_pending_fragments c <? fragment_threshold)%Z then None
  else
    version ← cd_dataset c;
    Some (mkSealed (cd_fence c) (open_descriptor c version),
          mkCached (cd_fence c) (writer_segment_id (cd_fence c) uuid) None 0 0
            (cd_manifest_revision c)).

(** ** Compaction *)

(** [compact_sealed_event_segment], from [compact_files] to the publication. *)
Definition sealed_descriptor (sealed : EventSegment) (removed : bool) (version : Z)
  : EventSegment :=
  mkSegment (sg_id sealed) (if removed then version else sg_version sealed)
    (sg_rows sealed) (sg_level sealed) true.

(** [segments.iter().all(|segment| segment.sealed && segment.level == level)]. *)
Definition one_level (group : list EventSegment) : bool :=
  match group with
  | [] => false
  | first :: _ => forallb (fun s => sg_sealed s && (sg_level s =? sg_level first)%Z) group
  end.

(** [segments.windows(fanout).find(..)]. *)
Fixpoint find_group (fanout : nat) (segments : list EventSegment) : option (list EventSegment) :=
  match segments with
  | [] => None
  | _ :: rest =>
      if bool_decide (fanout <= length segments)%nat && one_level (take fanout segments)
      then Some (take fanout segments)
      else find_group fanout rest
  end.

Definition next_hierarchy_group (m : EventManifest) (fanout : nat) : option (list EventSegment) :=
  find_group fanout (mf_segments m).

(** [open_visible_segment]: open the dataset and check the version out. *)
Definition open_visible_segment (st : St) (s : EventSegment) : option (list Row) :=
  _ ← ln_latest (uri (sg_id s)) st;
  ln_scan (uri (sg_id s)) (sg_version s) st.

(** [open_pinned_snapshot], the datasets scanned in order. *)
Definition open_pinned_snapshot (st : St) (segments : list EventSegment)
  : option (list (list Row)) :=
  mapM (open_visible_segment st) segments.

(** [compact_visible_segments]: one new dataset with the rows of all. *)
Definition compact_visible_segments (uuid : string) (datasets : list (list Row)) (st : St)
  : option (EventSegment * St) :=
  let id := compact_segment_id uuid in
  '(version, st') ← ln_insert (uri id) None (concat datasets) st;
  Some (mkSegment id version (Z.of_nat (length (concat datasets))) 0 true, st').

(** The level and the row count of a merged group, both checked. *)
Definition merged_level (group : list EventSegment) : option Z :=
  match group with
  | [] => None
  | first :: _ => if (sg_level first + 1 <=? 255)%Z then Some (sg_level first + 1)%Z else None
  end.

Definition at_level (s : EventSegment) (level : Z) : EventSegment :=
  mkSegment (sg_id s) (sg_version s) (sg_rows s) level true.

(** The body of the loop of [compact_event_hierarchy_locked] up to the
    replacement of the group. *)
Definition merge_group (uuid : string) (group : list EventSegment) (st : St)
  : option (EventSegment * St) :=
  level ← merged_level group;
  datasets ← open_pinned_snapshot st group;
  _ ← match checked_rows 0 group with Ok rows => Some rows | Err _ => None end;
  '(segment, st') ← compact_visible_segments uuid datasets st;
  Some (at_level segment level, st').

(** The loop of [compact_event_hierarchy_locked], with nobody else at work:
    whether it returned [Ok], and what it left.  [uuid n] names the segment of
    the pass with [n] passes left; [None] is a loop cut short. *)
Fixpoint compact_event_hierarchy_locked (fuel fanout : nat) (fence : EventWriterFence)
    (uuid : nat -> string) (man : option EventManifest) (st : St)
  : option (bool * option EventManifest * St) :=
  match fuel with
  | O => None
  | S n =>
      match man with
      | None => Some (false, man, st)
      | Some m =>
          match next_hierarchy_group m fanout with
          | None => Some (true, man, st)
          | Some group =>
              match merge_group (uuid n) group st with
              | None => Some (false, man, st)
              | Some (replacement, st') =>
                  match manifest_apply (OpReplaceGroup fence group replacement) man with
                  | Ok (Applied _, man') =>
                      compact_event_hierarchy_locked n fanout fence uuid man' st'
                  | _ => Some (false, man, st')
                  end
              end
          end
      end
  end.

(** [maintain] with [compact] set, from the pinned snapshot to the new segment. *)
Definition compact_snapshot (uuid : string) (snapshot : EventManifest) (st : St)
  : option (EventSegment * St) :=
  datasets ← open_pinned_snapshot st (mf_segments snapshot);
  compact_visible_segments uuid datasets st.

(** ** Reading *)

(** The rows readers see. *)
Definition visible_rows (st : St) (m : EventManifest) : option (list Row) :=
  datasets ← open_pinned_snapshot st (mf_segments m);
  Some (concat datasets).

(** The loop of [replay_available]: each segment answers a page of its rows of
    the session, [count_rows] and [scan.limit] being those of the filter. *)
Fixpoint replay_segments (mine : Row -> bool) (offset limit : nat) (datasets : list (list Row))
  : list Row :=
  match datasets with
  | [] => []
  | d :: rest =>
      if (limit =? 0)%nat then []
      else
        let rows := List.filter mine d in
        let segment_rows := length rows in
        if (segment_rows <=? offset)%nat then replay_segments mine (offset - segment_rows) limit rest
        else
          let n := Nat.min limit (segment_rows - offset) in
          take n (drop offset rows) ++ replay_segments mine 0 (limit - n) rest
  end.

(** [replay_available]; [usize_max] stands for an absent limit. *)
Definition replay_available (usize_max : nat) (mine : Row -> bool) (offset : nat)
    (limit : option nat) (man : option EventManifest) (st : St)
  : option (option (list Row)) :=
  match man with
  | None => Some None
  | Some m =>
      datasets ← open_pinned_snapshot st (mf_segments m);
      Some (Some (replay_segments mine offset (default usize_max limit) datasets))
  end.

(** ** The tasks of one root *)

(** Where a task stands between two effects. *)
Inductive task : Type :=
| Appender (requested : option EventWriterFence) (auto_writer_id : string)
    (state : option CachedRawDataset)
| Appending (requested : option EventWriterFence) (auto_writer_id : string)
    (state : CachedRawDataset) (version : Z) (batch : list Row)
| Compacting (sealed : SealedEventSegment)
| Sealing (fence : EventWriterFence) (segment : EventSegment)
| Merging (fence : EventWriterFence)
| Grouped (fence : EventWriterFence) (group : list EventSegment)
| Merged (fence : EventWriterFence) (group : list EventSegment) (replacement : EventSegment)
| Maintaining (writer : string)
| Pinned (writer : string) (snapshot : EventManifest)
| Maintainer (fence : EventWriterFence) (snapshot : EventManifest)
| Replacing (fence : EventWriterFence) (segment : EventSegment).

(** The name a task writes under: [auto_writer_id], or the one [maintain]
    makes up. *)
Definition task_writer (t : task) : option string :=
  match t with
  | Appender _ auto _ | Appending _ auto _ _ _ => Some auto
  | Maintaining writer | Pinned writer _ => Some writer
  | Maintainer fence _ | Replacing fence _ => Some (writer_id fence)
  | _ => None
  end.

(** The manifest, the datasets and the tasks; and, for the record, the segment
    ids used so far, which [uuid] never repeats. *)
Record log : Type := mkLog {
  lg_manifest : option EventManifest;
  lg_lance : St;
  lg_tasks : gmap nat task;
  lg_ids : gset string;
}.

(** Writer ids identify a task: nobody at work has this one. *)
Definition writer_free (w : string) (s : log) : Prop :=
  forall j t, lg_tasks s !! j = Some t -> task_writer t <> Some w.

(** A publication that took effect; its caller may not have been told. *)
Record publication : Type := mkPublication {
  pb_task : nat;
  pb_batch : list Row;
  pb_acked : bool;
}.

(** One call of [mutate_with_mode]: what the manifest operation answered if it
    took effect, what the caller was told ([None] is an error, a lost race
    included), and the manifest it left. *)
Inductive mutates (op : ManifestOp) (man : option EventManifest)
  : option (ManifestWriteOutcome EventManifest) -> option (ManifestWriteOutcome EventManifest) ->
    option EventManifest -> Prop :=
| mutates_answered o man' :
    manifest_apply op man = Ok (o, man') -> mutates op man (Some o) (Some o) man'
| mutates_unanswered o man' :
    manifest_apply op man = Ok (o, man') -> mutates op man (Some o) None man'
| mutates_failed : mutates op man None None man.

(** What a publication adds to the history. *)
Definition publication_of (i : nat) (batch : list Row)
    (effect answer : option (ManifestWriteOutcome EventManifest)) : list publication :=
  match effect with
  | Some (Applied _) => [mkPublication i batch (bool_decide (is_Some answer))]
  | _ => []
  end.

Definition set_task (i : nat) (t : task) (s : log) : log :=
  mkLog (lg_manifest s) (lg_lance s) (<[i := t]> (lg_tasks s)) (lg_ids s).
Definition end_task (i : nat) (s : log) : log :=
  mkLog (lg_manifest s) (lg_lance s) (delete i (lg_tasks s)) (lg_ids s).
Definition set_manifest (man : option EventManifest) (s : log) : log :=
  mkLog man (lg_lance s) (lg_tasks s) (lg_ids s).
Definition set_lance (st : St) (s : log) : log :=
  mkLog (lg_manifest s) st (lg_tasks s) (lg_ids s).
Definition use_id (id : string) (s : log) : log :=
  mkLog (lg_manifest s) (lg_lance s) (lg_tasks s) ({[id]} ∪ lg_ids s).

(** Continue a task, or end it after an error. *)
Definition go_on (i : nat) (t : option task) (s : log) : log :=
  match t with
  | Some t => set_task i t s
  | None => end_task i s
  end.

(** What a compactor or a maintainer does with an answer. *)
Definition if_applied (answer : option (ManifestWriteOutcome EventManifest))
    (k : EventManifest -> task) : option task :=
  match answer with
  | Some (Applied m) => Some (k m)
  | _ => None
  end.

Context (hierarchy_fanout : nat).

Inductive log_step (s : log) : list publication -> log -> Prop :=
| appender_starts i requested auto :
    lg_tasks s !! i = None -> writer_free auto s ->
    (forall f, requested = Some f -> writer_id f = auto /\ in_u64 (epoch f)) ->
    log_step s [] (set_task i (Appender requested auto None) s)
| appender_activates i requested auto uuid fence_id effect answer man' :
    lg_tasks s !! i = Some (Appender requested auto None) ->
    mutates (OpActivate requested auto) (lg_manifest s) effect answer man' ->
    (forall c, new_state uuid answer = Some c -> cd_segment_id c = fence_id) ->
    fence_id ∉ lg_ids s ->
    log_step s []
      (set_task i (Appender requested auto (new_state uuid answer))
         (set_manifest man' (use_id fence_id s)))
| appender_writes i requested auto c batch version st' c' :
    lg_tasks s !! i = Some (Appender requested auto (Some c)) ->
    append_rows c batch (lg_lance s) = Some (version, st') ->
    count_appended c (Z.of_nat (length batch)) = Some c' ->
    log_step s [] (set_task i (Appending requested auto c' version batch) (set_lance st' s))
| appender_write_fails i requested auto c st' :
    lg_tasks s !! i = Some (Appender requested auto (Some c)) ->
    ln_touched (uri (cd_segment_id c)) (lg_lance s) st' ->
    log_step s [] (set_task i (Appender requested auto None) (set_lance st' s))
| appender_publishes i requested auto c version batch effect answer man' :
    lg_tasks s !! i = Some (Appending requested auto c version batch) ->
    mutates (OpPublish (cd_fence c) (open_descriptor c version)) (lg_manifest s)
      effect answer man' ->
    log_step s (publication_of i batch effect answer)
      (set_task i (Appender requested auto (after_publish c version answer))
         (set_manifest man' s))
| appender_seals i j requested auto c threshold uuid sealed c' :
    lg_tasks s !! i = Some (Appender requested auto (Some c)) ->
    lg_tasks s !! j = None ->
    seal_state threshold uuid c = Some (sealed, c') ->
    cd_segment_id c' ∉ lg_ids s ->
    log_step s []
      (set_task j (Compacting sealed)
         (set_task i (Appender requested auto (Some c')) (use_id (cd_segment_id c') s)))
| compactor_rewrites i sealed removed version st' :
    lg_tasks s !! i = Some (Compacting sealed) ->
    ln_reorganise CompactFiles (uri (sg_id (se_segment sealed))) (lg_lance s)
      = Some (removed, version, st') ->
    log_step s []
      (set_task i (Sealing (se_fence sealed) (sealed_descriptor (se_segment sealed) removed version))
         (set_lance st' s))
| compactor_rewrite_fails i sealed st' :
    lg_tasks s !! i = Some (Compacting sealed) ->
    ln_touched (uri (sg_id (se_segment sealed))) (lg_lance s) st' ->
    log_step s [] (end_task i (set_lance st' s))
| compactor_publishes i fence segment effect answer man' :
    lg_tasks s !! i = Some (Sealing fence segment) ->
    mutates (OpPublish fence segment) (lg_manifest s) effect answer man' ->
    log_step s []
      (go_on i (if_applied answer (fun _ => Merging fence)) (set_manifest man' s))
| compactor_reads i fence m :
    lg_tasks s !! i = Some (Merging fence) ->
    lg_manifest s = Some m ->
    log_step s []
      (go_on i (Grouped fence <$> next_hierarchy_group m hierarchy_fanout) s)
| compactor_merges i fence group uuid replacement st' :
    lg_tasks s !! i = Some (Grouped fence group) ->
    merge_group uuid group (lg_lance s) = Some (replacement, st') ->
    sg_id replacement ∉ lg_ids s ->
    log_step s []
      (set_task i (Merged fence group replacement)
         (set_lance st' (use_id (sg_id replacement) s)))
| compactor_merge_fails i fence group id st' :
    lg_tasks s !! i = Some (Grouped fence group) ->
    id ∉ lg_ids s -> ln_touched (uri id) (lg_lance s) st' ->
    log_step s [] (end_task i (set_lance st' (use_id id s)))
| compactor_replaces i fence group replacement effect answer man' :
    lg_tasks s !! i = Some (Merged fence group replacement) ->
    mutates (OpReplaceGroup fence group replacement) (lg_manifest s) effect answer man' ->
    log_step s []
      (go_on i (if_applied answer (fun _ => Merging fence)) (set_manifest man' s))
| maintainer_starts i writer :
    lg_tasks s !! i = None -> writer_free writer s ->
    log_step s [] (set_task i (Maintaining writer) s)
| maintainer_pins i writer m :
    lg_tasks s !! i = Some (Maintaining writer) ->
    lg_manifest s = Some m -> mf_segments m <> [] ->
    log_step s [] (set_task i (Pinned writer m) s)
| maintainer_activates i writer snapshot effect answer man' :
    lg_tasks s !! i = Some (Pinned writer snapshot) ->
    mutates (OpActivate None writer) (lg_manifest s) effect answer man' ->
    log_step s []
      (go_on i (if_applied answer (fun m => Maintainer (mf_active_writer m) snapshot))
         (set_manifest man' s))
| maintainer_compacts i fence snapshot uuid segment st' :
    lg_tasks s !! i = Some (Maintainer fence snapshot) ->
    compact_snapshot uuid snapshot (lg_lance s) = Some (segment, st') ->
    sg_id segment ∉ lg_ids s ->
    log_step s []
      (set_task i (Replacing fence segment) (set_lance st' (use_id (sg_id segment) s)))
| maintainer_compact_fails i fence snapshot id st' :
    lg_tasks s !! i = Some (Maintainer fence snapshot) ->
    id ∉ lg_ids s -> ln_touched (uri id) (lg_lance s) st' ->
    log_step s [] (end_task i (set_lance st' (use_id id s)))
| maintainer_indexes i fence segment changed version st' :
    lg_tasks s !! i = Some (Replacing fence segment) ->
    ln_reorganise CreateIndex (uri (sg_id segment)) (lg_lance s)
      = Some (changed, version, st') ->
    log_step s []
      (set_task i
         (Replacing fence (mkSegment (sg_id segment) version (sg_rows segment) (sg_level segment)
                             (sg_sealed segment)))
         (set_lance st' s))
| maintainer_index_fails i fence segment st' :
    lg_tasks s !! i = Some (Replacing fence segment) ->
    ln_touched (uri (sg_id segment)) (lg_lance s) st' ->
    log_step s [] (end_task i (set_lance st' s))
| maintainer_replaces i fence segment effect answer man' :
    lg_tasks s !! i = Some (Replacing fence segment) ->
    mutates (OpReplace fence [segment]) (lg_manifest s) effect answer man' ->
    log_step s [] (end_task i (set_manifest man' s))
| task_dies i :
    log_step s [] (end_task i s).

Inductive log_exec : log -> list publication -> log -> Prop :=
| log_exec_nil s : log_exec s [] s
| log_exec_step s ps s1 ps' s2 :
    log_step s ps s1 -> log_exec s1 ps' s2 -> log_exec s (ps ++ ps') s2.

(** What readers see in a state of the system. *)
Definition log_rows (s : log) : list Row :=
  match lg_manifest s with
  | None => []
  | Some m => default [] (visible_rows (lg_lance s) m)
  end.
End EventLog.
