(* ===== verification/EventLogInvariant.v ===== *)
(** * What the tasks of an event log keep true

    The invariant of [EventLog.log_step].  Every visible segment can be read
    and has the rows its descriptor counts; every segment a task works on
    belongs to that task; the segment an active appender grows is the last of
    the manifest; a compactor's segment is still there, unsealed; a maintainer's
    snapshot is a prefix of what readers see.  The lemmas show what a write to
    a dataset and a new manifest leave of this for the other tasks. *)

From Stdlib Require Import ZArith Lia.
From stdpp Require Import base list strings gmap numbers option pretty.
From S2P Require Import Prelude Durable EventManifest EventLog.

Section Invariant.
Context {St Row : Type} `{!LanceStore St Row}.
Context (root_uri : string).

Abbreviation uri := (EventLog.uri root_uri).
Abbreviation task := (@EventLog.task Row).
Abbreviation log := (@EventLog.log St Row).

(** Segment names are names of different directories. *)
Lemma uri_inj x y : uri x = uri y -> x = y.
Proof.
  unfold EventLog.uri, segment_uri. intros H%(inj _)%(inj _).
  apply (f_equal String.rev) in H. rewrite !str_rev_app in H.
  apply (inj _) in H. apply (f_equal String.rev) in H. by rewrite !str_rev_involutive in H.
Qed.

(** ** Readable segments *)

Definition content (st : St) (s : EventSegment) : list Row :=
  default [] (ln_scan (uri (sg_id s)) (sg_version s) st).

Definition rows_of (st : St) (segments : list EventSegment) : list Row :=
  concat (map (content st) segments).

Definition scans (st : St) (s : EventSegment) : Prop :=
  is_Some (ln_latest (uri (sg_id s)) st)
  /\ is_Some (ln_scan (uri (sg_id s)) (sg_version s) st).

Definition readable (st : St) (s : EventSegment) : Prop :=
  scans st s /\ Z.of_nat (length (content st s)) = sg_rows s.

Definition segments_of (man : option EventManifest) : list EventSegment :=
  match man with Some m => mf_segments m | None => [] end.

Definition ids_of (man : option EventManifest) : list string := sg_id <$> segments_of man.

Lemma open_pinned_snapshot_scans st segments :
  Forall (scans st) segments ->
  open_pinned_snapshot root_uri st segments = Some (map (content st) segments).
Proof.
  unfold open_pinned_snapshot. induction 1 as [|s l [[v Hl] [rs Hs]] _ IH]; [done|].
  assert (Ho : open_visible_segment root_uri st s = Some (content st s)).
  { unfold content, open_visible_segment. rewrite Hl. simpl. by rewrite Hs. }
  simpl. rewrite Ho. simpl. by rewrite IH.
Qed.

Lemma open_pinned_snapshot_inv st segments datasets :
  open_pinned_snapshot root_uri st segments = Some datasets ->
  Forall (scans st) segments /\ datasets = map (content st) segments.
Proof.
  unfold open_pinned_snapshot. revert datasets.
  induction segments as [|s l IH]; intros ds H; simpl in *; [by injection H as <-; split; [constructor|]|].
  apply bind_Some in H as (d & Hd & H). apply bind_Some in H as (ds' & Hm & H).
  injection H as <-. destruct (IH _ Hm) as [? ->].
  unfold open_visible_segment in Hd. apply bind_Some in Hd as (v & Hl & Hs).
  split; [by repeat econstructor|]. f_equal. unfold content. by rewrite Hs.
Qed.

Lemma readable_scans st segments : Forall (readable st) segments -> Forall (scans st) segments.
Proof. intros H. eapply Forall_impl; [exact H|]. by intros s [? _]. Qed.

Lemma rows_of_app st l k : rows_of st (l ++ k) = rows_of st l ++ rows_of st k.
Proof. unfold rows_of. by rewrite map_app, concat_app. Qed.

Lemma rows_of_length st segments :
  Forall (readable st) segments -> Z.of_nat (length (rows_of st segments)) = exact_rows segments.
Proof.
  unfold rows_of. induction 1 as [|s l [_ Hs] _ IH]; [done|].
  simpl. rewrite length_app. lia.
Qed.

(** What a write leaves of a readable segment. *)
Lemma touched_scans u st st' s : ln_touched u st st' -> scans st s -> scans st' s.
Proof.
  intros Ht [Hl [rs Hs]]. split; [|by rewrite (ln_touched_scan _ _ _ _ _ _ Ht Hs)].
  destruct (decide (uri (sg_id s) = u)) as [<-|Hne]; [by eapply ln_touched_alive|].
  by rewrite (ln_touched_latest _ _ _ _ Ht Hne).
Qed.

Lemma touched_content u st st' s :
  ln_touched u st st' -> scans st s -> content st' s = content st s.
Proof.
  intros Ht [_ [rs Hs]]. unfold content.
  by rewrite (ln_touched_scan _ _ _ _ _ _ Ht Hs), Hs.
Qed.

Lemma touched_rows_of u st st' segments :
  ln_touched u st st' -> Forall (scans st) segments -> rows_of st' segments = rows_of st segments.
Proof.
  intros Ht. unfold rows_of. induction 1 as [|s l Hs _ IH]; [done|].
  simpl. by rewrite IH, (touched_content _ _ _ _ Ht Hs).
Qed.

Lemma touched_all_scan u st st' segments :
  ln_touched u st st' -> Forall (scans st) segments -> Forall (scans st') segments.
Proof. intros Ht H. eapply Forall_impl; [exact H|]. intros s. by apply (touched_scans u). Qed.

Lemma touched_all_readable u st st' segments :
  ln_touched u st st' -> Forall (readable st) segments -> Forall (readable st') segments.
Proof.
  intros Ht H. eapply Forall_impl; [exact H|]. intros s [Hs Hl]. split; [by eapply touched_scans|].
  by rewrite (touched_content _ _ _ _ Ht Hs).
Qed.

(** ** Tasks *)

Definition held (man : option EventManifest) (f : EventWriterFence) : Prop :=
  exists m, man = Some m /\ fence_le f (mf_active_writer m).

Definition active (man : option EventManifest) (f : EventWriterFence) : Prop :=
  exists m, man = Some m /\ mf_active_writer m = f.

(** The segment a task works on. *)
Definition task_id (t : task) : option string :=
  match t with
  | Appender _ _ (Some c) | Appending _ _ c _ _ => Some (cd_segment_id c)
  | Compacting sealed => Some (sg_id (se_segment sealed))
  | Sealing _ s | Merged _ _ s | Replacing _ s => Some (sg_id s)
  | _ => None
  end.

(** The fence of an appender that has one, of a compactor, of a maintainer. *)
Definition appender_fence (t : task) : option EventWriterFence :=
  match t with
  | Appender _ _ (Some c) | Appending _ _ c _ _ => Some (cd_fence c)
  | _ => None
  end.
Definition compactor_fence (t : task) : option EventWriterFence :=
  match t with
  | Compacting sealed => Some (se_fence sealed)
  | Sealing f _ | Merging f | Grouped f _ | Merged f _ _ => Some f
  | _ => None
  end.
Definition maintainer_fence (t : task) : option EventWriterFence :=
  match t with
  | Maintainer f _ | Replacing f _ => Some f
  | _ => None
  end.

Definition task_fence (t : task) : option EventWriterFence :=
  match appender_fence t with
  | Some f => Some f
  | None => match compactor_fence t with Some f => Some f | None => maintainer_fence t end
  end.

(** The latest version of segment [x] is [v] and holds [rs]. *)
Definition latest_is (st : St) (x : string) (v : Z) (rs : list Row) : Prop :=
  ln_latest (uri x) st = Some v /\ ln_scan (uri x) v st = Some rs.

(** A segment name nobody has published. *)
Definition new_id (man : option EventManifest) (x : string) : Prop :=
  (x ∉ ids_of man) /\ x <> "".

(** An appender's open segment. *)
Definition cached_ok (man : option EventManifest) (st : St) (c : CachedRawDataset) : Prop :=
  match cd_dataset c with
  | None =>
      cd_rows c = 0%Z /\ ln_latest (uri (cd_segment_id c)) st = None
      /\ new_id man (cd_segment_id c)
  | Some v =>
      exists rs, latest_is st (cd_segment_id c) v rs
        /\ Z.of_nat (length rs) = cd_rows c
        /\ (cd_rows c <= u64_max)%Z
        /\ (active man (cd_fence c) -> last (segments_of man) = Some (open_descriptor c v))
  end.

(** Rows written after those of the version the manifest shows, if it shows
    one. *)
Definition appending_ok (man : option EventManifest) (st : St) (c : CachedRawDataset)
    (v : Z) (batch : list Row) : Prop :=
  exists old, latest_is st (cd_segment_id c) v (old ++ batch)
    /\ Z.of_nat (length (old ++ batch)) = cd_rows c
    /\ (cd_rows c <= u64_max)%Z
    /\ ((old = [] /\ new_id man (cd_segment_id c))
        \/ exists v0, (v0 < v)%Z /\ ln_scan (uri (cd_segment_id c)) v0 st = Some old
             /\ (active man (cd_fence c) ->
                 last (segments_of man)
                 = Some (mkSegment (cd_segment_id c) v0 (Z.of_nat (length old)) 0 false))).

(** A segment handed to a compactor is in the manifest as it was sealed. *)
Definition compacting_ok (man : option EventManifest) (st : St) (f : EventWriterFence)
    (s : EventSegment) : Prop :=
  sg_level s = 0%Z /\ sg_sealed s = false
  /\ (exists rs, latest_is st (sg_id s) (sg_version s) rs /\ Z.of_nat (length rs) = sg_rows s)
  /\ (sg_rows s <= u64_max)%Z
  /\ (active man f -> s ∈ segments_of man).

(** A rewritten one has the rows of the version in the manifest. *)
Definition sealing_ok (man : option EventManifest) (st : St) (f : EventWriterFence)
    (s : EventSegment) : Prop :=
  sg_level s = 0%Z /\ sg_sealed s = true /\ (0 < sg_version s <= u64_max)%Z
  /\ (sg_rows s <= u64_max)%Z /\ readable st s
  /\ exists v0, (v0 <= sg_version s)%Z
       /\ ln_scan (uri (sg_id s)) v0 st = ln_scan (uri (sg_id s)) (sg_version s) st
       /\ (active man f -> mkSegment (sg_id s) v0 (sg_rows s) 0 false ∈ segments_of man).

Definition group_ok (st : St) (group : list EventSegment) : Prop :=
  group <> [] /\ Forall (fun s => sg_sealed s = true /\ segment_typed s) group
  /\ Forall (readable st) group.

(** A merged group's rows are in its replacement. *)
Definition merged_ok (man : option EventManifest) (st : St) (group : list EventSegment)
    (r : EventSegment) : Prop :=
  (sg_id r ∉ ids_of man) /\ segment_typed r
  /\ readable st r /\ content st r = rows_of st group.

(** A snapshot's rows are the first rows of the log. *)
Definition pinned_ok (man : option EventManifest) (st : St) (m : EventManifest) : Prop :=
  Forall (scans st) (mf_segments m)
  /\ rows_of st (mf_segments m) `prefix_of` rows_of st (segments_of man).

Definition replacing_ok (man : option EventManifest) (st : St) (s : EventSegment) : Prop :=
  (sg_id s ∉ ids_of man) /\ sg_level s = 0%Z
  /\ exists rs, latest_is st (sg_id s) (sg_version s) rs
       /\ Z.of_nat (length rs) = sg_rows s
       /\ rs `prefix_of` rows_of st (segments_of man).

Definition task_ok (man : option EventManifest) (st : St) (t : task) : Prop :=
  match t with
  | Appender requested auto state =>
      (forall f, requested = Some f -> writer_id f = auto /\ in_u64 (epoch f))
      /\ (forall c, state = Some c -> writer_id (cd_fence c) = auto /\ cached_ok man st c)
  | Appending requested auto c v batch =>
      (forall f, requested = Some f -> writer_id f = auto /\ in_u64 (epoch f))
      /\ writer_id (cd_fence c) = auto /\ appending_ok man st c v batch
  | Compacting sealed => compacting_ok man st (se_fence sealed) (se_segment sealed)
  | Sealing f s => sealing_ok man st f s
  | Merging _ => True
  | Grouped _ group => group_ok st group
  | Merged _ group r => group_ok st group /\ merged_ok man st group r
  | Maintaining _ => True
  | Pinned _ m => pinned_ok man st m
  | Maintainer _ m => pinned_ok man st m
  | Replacing _ s => replacing_ok man st s
  end.

Record inv (s : log) : Prop := {
  inv_stored : stored_ok (lg_manifest s);
  inv_readable : Forall (readable (lg_lance s)) (segments_of (lg_manifest s));
  inv_task : forall i t, lg_tasks s !! i = Some t -> task_ok (lg_manifest s) (lg_lance s) t;
  inv_held : forall i t f,
    lg_tasks s !! i = Some t -> task_fence t = Some f -> held (lg_manifest s) f;
  inv_ids : forall i t x, lg_tasks s !! i = Some t -> task_id t = Some x -> x ∈ lg_ids s;
  inv_manifest_ids : forall x, x ∈ ids_of (lg_manifest s) -> x ∈ lg_ids s;
  inv_fresh : forall x, x ∉ lg_ids s -> ln_latest (uri x) (lg_lance s) = None;
  inv_owner : forall i j t u x,
    lg_tasks s !! i = Some t -> lg_tasks s !! j = Some u ->
    task_id t = Some x -> task_id u = Some x -> i = j;
  inv_writer : forall i j t u w,
    lg_tasks s !! i = Some t -> lg_tasks s !! j = Some u ->
    task_writer t = Some w -> task_writer u = Some w -> i = j;
  inv_apart : forall i j t u f,
    lg_tasks s !! i = Some t -> lg_tasks s !! j = Some u ->
    compactor_fence t = Some f -> maintainer_fence u = Some f -> False;
}.

(** ** A write to a dataset and the other tasks *)

Lemma latest_is_touched u st st' x v rs :
  ln_touched u st st' -> uri x <> u -> latest_is st x v rs -> latest_is st' x v rs.
Proof.
  intros Ht Hne [Hl Hs]. split.
  - by rewrite (ln_touched_latest _ _ _ _ Ht Hne).
  - by eapply ln_touched_scan.
Qed.

Lemma readable_touched u st st' s : ln_touched u st st' -> readable st s -> readable st' s.
Proof.
  intros Ht [Hs Hl]. split; [by eapply touched_scans|]. by rewrite (touched_content _ _ _ _ Ht Hs).
Qed.

Lemma latest_is_content st s rs : latest_is st (sg_id s) (sg_version s) rs -> content st s = rs.
Proof. intros [_ Hs]. unfold content. by rewrite Hs. Qed.

Lemma latest_is_readable st s rs :
  latest_is st (sg_id s) (sg_version s) rs -> Z.of_nat (length rs) = sg_rows s -> readable st s.
Proof.
  intros Hl Hn. split; [|by rewrite (latest_is_content _ _ _ Hl)].
  destruct Hl as [Hl Hs]. split; by eexists.
Qed.

Lemma task_ok_touched man u st st' t :
  ln_touched u st st' -> (forall x, task_id t = Some x -> uri x <> u) ->
  Forall (scans st) (segments_of man) ->
  task_ok man st t -> task_ok man st' t.
Proof.
  intros Ht Hne Hman. pose proof (touched_rows_of _ _ _ _ Ht Hman) as Hrows.
  destruct t as [req auto state|req auto c v batch|sealed|f s|f|f g|f g r|w|w m|f m|f s]; simpl in *;
    try done.
  - intros [Hreq Hc]. split; [done|]. intros c ->. destruct (Hc c eq_refl) as [Hw Hok].
    split; [done|]. specialize (Hne _ eq_refl). unfold cached_ok in *.
    destruct (cd_dataset c) as [v|].
    + destruct Hok as (rs & Hl & Hn & Hmx & Ha). exists rs. split; [by eapply latest_is_touched|done].
    + by rewrite (ln_touched_latest _ _ _ _ Ht Hne).
  - intros (Hreq & Hw & old & Hl & Hn & Hle & Hold). split_and!; [done|done|].
    specialize (Hne _ eq_refl). exists old. split_and!; [by eapply latest_is_touched|done|done|].
    destruct Hold as [?|(v0 & Hv & Hs & Ha)]; [by left|right].
    exists v0. split_and!; [done| |done]. by eapply ln_touched_scan.
  - specialize (Hne _ eq_refl). intros (Hl & Hs & (rs & Hr & Hn) & Hle & Ha).
    split_and!; try (done || lia). exists rs. split; [by eapply latest_is_touched|done].
  - intros (Hl & Hs & Hv & Hle & Hr & v0 & Hv0 & Heq & Ha).
    split_and!; try (done || lia); [by eapply readable_touched|].
    exists v0. split_and!; [done| |done].
    destruct Hr as [[_ [rs Hrs]] _]. rewrite Hrs in Heq.
    by rewrite (ln_touched_scan _ _ _ _ _ _ Ht Hrs), (ln_touched_scan _ _ _ _ _ _ Ht Heq).
  - intros (Hne' & Hs & Hr). split_and!; [done|done|by eapply touched_all_readable].
  - intros ((Hne' & Hs & Hg) & Hid & Hty & Hr & Heq).
    split; [split_and!; [done|done|by eapply touched_all_readable]|].
    split; [done|]. split; [done|]. split; [by eapply readable_touched|].
    rewrite (touched_content _ _ _ _ Ht) by apply Hr.
    by rewrite (touched_rows_of _ _ _ _ Ht (readable_scans _ _ Hg)).
  - intros [Hs Hp]. split; [by eapply touched_all_scan|].
    by rewrite Hrows, (touched_rows_of _ _ _ _ Ht Hs).
  - intros [Hs Hp]. split; [by eapply touched_all_scan|].
    by rewrite Hrows, (touched_rows_of _ _ _ _ Ht Hs).
  - specialize (Hne _ eq_refl). intros (Hid & Hlv & rs & Hl & Hn & Hp). split_and!; [done|done|].
    exists rs. split_and!; [by eapply latest_is_touched|done|]. by rewrite Hrows.
Qed.

(** ** A new manifest and the other tasks *)

(** What a task needs of the step from one manifest to the next. *)
Record moves (st : St) (man man' : option EventManifest) (t : task) : Prop := {
  mv_fence : forall m, man = Some m -> exists m', man' = Some m'
    /\ fence_le (mf_active_writer m) (mf_active_writer m');
  mv_rows : rows_of st (segments_of man) `prefix_of` rows_of st (segments_of man');
  mv_ids : forall x, task_id t = Some x -> x ∉ ids_of man -> x ∉ ids_of man';
  mv_last : forall f x d, appender_fence t = Some f -> active man f -> active man' f ->
    task_id t = Some x -> sg_id d = x -> sg_sealed d = false ->
    last (segments_of man) = Some d -> last (segments_of man') = Some d;
  mv_in : forall f x d, compactor_fence t = Some f -> active man f -> active man' f ->
    task_id t = Some x -> sg_id d = x -> sg_sealed d = false ->
    d ∈ segments_of man -> d ∈ segments_of man';
}.

Lemma fence_le_antisym f g : fence_le f g -> fence_le g f -> f = g.
Proof. unfold fence_le. intros [?|?] [?|?]; subst; try done. lia. Qed.

Lemma held_moves st man man' t f : moves st man man' t -> held man f -> held man' f.
Proof.
  intros [Hf _ _ _ _] (m & Hm & Hle). destruct (Hf m Hm) as (m' & -> & Hle').
  exists m'. split; [done|by etrans].
Qed.

Lemma active_moves st man man' t f :
  moves st man man' t -> held man f -> active man' f -> active man f.
Proof.
  intros [Hf _ _ _ _] (m & Hm & Hle) (m' & Hm' & Ha). destruct (Hf m Hm) as (m1 & Hm1 & Hle').
  simplify_eq. exists m. split; [done|]. by apply fence_le_antisym.
Qed.

Lemma task_ok_moves st man man' t :
  moves st man man' t -> (forall f, task_fence t = Some f -> held man f) ->
  task_ok man st t -> task_ok man' st t.
Proof.
  intros Hmv Hheld. pose proof (active_moves st man man' t) as Hact.
  destruct Hmv as [Hf Hrows Hids Hlast Hin] eqn:E.
  destruct t as [req auto state|req auto c v batch|sealed|f s|f|f g|f g r|w|w m|f m|f s]; simpl in *;
    try done.
  - intros [Hreq Hc]. split; [done|]. intros c ->. destruct (Hc c eq_refl) as [Hw Hok].
    split; [done|]. unfold cached_ok in *. specialize (Hheld _ eq_refl).
    destruct (cd_dataset c) as [v|].
    + destruct Hok as (rs & Hl & Hn & Hmx & Ha). exists rs. split_and!; [apply Hl..|done|done|].
      intros Ha'. assert (active man (cd_fence c)) by eauto. by eapply Hlast; eauto.
    + destruct Hok as (? & ? & ? & ?). split_and!; [done|done|]. split; eauto.
  - intros (Hreq & Hw & old & Hl & Hn & Hle & Hold). split_and!; [done|done|].
    specialize (Hheld _ eq_refl). exists old. split_and!; [done|done|done|].
    destruct Hold as [(? & ? & ?)|(v0 & Hv & Hs & Ha)]; [left; split; [done|split; eauto]|right].
    exists v0. split_and!; [done|done|]. intros Ha'.
    assert (active man (cd_fence c)) by eauto. by eapply Hlast; eauto.
  - intros (Hl & Hs & Hr & Hle & Ha). split_and!; try (done || lia).
    intros Ha'. assert (active man (se_fence sealed)) by eauto. by eapply Hin; eauto.
  - intros (Hl & Hs & Hv & Hle & Hr & v0 & Hv0 & Heq & Ha). split_and!; try (done || lia).
    exists v0. split_and!; [done|done|]. intros Ha'. assert (active man f) by eauto.
    by eapply Hin; eauto.
  - intros (Hall & Hid & Hrest). split; [done|]. split; [by eapply Hids|done].
  - intros [Hs Hp]. split; [done|by etrans].
  - intros [Hs Hp]. split; [done|by etrans].
  - intros (Hid & Hlv & rs & Hl & Hn & Hp). split_and!; [by eapply Hids|done|].
    exists rs. split_and!; [done|done|by etrans].
Qed.
End Invariant.
