(* ===== verification/EventLogSteps.v ===== *)
(** * Every task keeps the event log's invariant

    One lemma per rule of [EventLog.log_step]: the invariant of
    [EventLogInvariant] holds again, and the rows readers see are the old ones
    followed by the batches the rule published. *)

From Stdlib Require Import ZArith Lia.
From stdpp Require Import base list strings gmap numbers option pretty.
From S2P Require Import Prelude Durable EventManifest EventLog EventLogInvariant.

#[local] Set Warnings "-clear-no-such-hyp".

(** ** Lists of segments *)

Lemma find_segment_some x segments d :
  find_segment x segments = Some d -> d ∈ segments /\ sg_id d = x.
Proof.
  induction segments as [|s l IH]; simpl; [done|].
  case_bool_decide; [intros; simplify_eq; split; [by left|done]|].
  intros Hf. destruct (IH Hf). split; [by right|done].
Qed.

Lemma find_segment_none x segments :
  find_segment x segments = None <-> x ∉ sg_id <$> segments.
Proof.
  induction segments as [|s l IH]; simpl; [split; [by intros _ ?%elem_of_nil|done]|].
  rewrite not_elem_of_cons. case_bool_decide; [split; [done|by intros [? _]]|].
  rewrite IH. split; [split; [congruence|done]|by intros [_ ?]].
Qed.

Lemma put_segment_new s segments :
  sg_id s ∉ sg_id <$> segments -> put_segment s segments = segments ++ [s].
Proof.
  induction segments as [|x l IH]; simpl; [done|].
  rewrite not_elem_of_cons. intros [Hne Hni]. rewrite bool_decide_eq_false_2 by congruence.
  by rewrite IH.
Qed.

Lemma put_segment_in_place s d segments :
  NoDup (sg_id <$> segments) -> d ∈ segments -> sg_id d = sg_id s ->
  exists l k, segments = l ++ d :: k /\ put_segment s segments = l ++ s :: k.
Proof.
  intros Hnd Hd Hid. induction segments as [|x rest IH]; [by apply elem_of_nil in Hd|].
  simpl in *. apply NoDup_cons in Hnd as [Hx Hnd].
  apply elem_of_cons in Hd as [->|Hd].
  - exists [], rest. by rewrite bool_decide_eq_true_2.
  - rewrite bool_decide_eq_false_2.
    + destruct (IH Hnd Hd) as (l & k & -> & ->). by exists (x :: l), k.
    + intros Hxs. apply Hx. rewrite Hxs, <- Hid. by apply list_elem_of_fmap_2.
Qed.

Lemma validate_segments_nodup seen segments :
  validate_segments seen segments = Ok () ->
  NoDup (sg_id <$> segments) /\ forall x, x ∈ sg_id <$> segments -> x ∉ seen.
Proof.
  revert seen. induction segments as [|s l IH]; simpl; intros seen H.
  { split; [constructor|by intros ? ?%elem_of_nil]. }
  unwrap_ok. apply IH in H as [Hnd Hseen].
  match goal with H : bool_decide (_ ∉ _) = true |- _ => apply bool_decide_eq_true in H end.
  split.
  - constructor; [|done]. intros Hin. by apply (Hseen _ Hin), elem_of_union_l, elem_of_singleton.
  - intros x [->|Hin]%elem_of_cons; [done|]. intros Hx. apply (Hseen _ Hin). by apply elem_of_union_r.
Qed.

Lemma manifest_ids_nodup m : manifest_ok m -> NoDup (sg_id <$> mf_segments m).
Proof.
  intros [Hv _ _]. unfold validate_manifest in Hv. unwrap_ok.
  by apply validate_segments_nodup in Hv as [? _].
Qed.

Lemma same_id_same_segment (segments : list EventSegment) d e :
  NoDup (sg_id <$> segments) -> d ∈ segments -> e ∈ segments -> sg_id d = sg_id e -> d = e.
Proof.
  induction segments as [|x l IH]; intros Hnd Hd He Hid; [by apply elem_of_nil in Hd|].
  simpl in Hnd. apply NoDup_cons in Hnd as [Hx Hnd].
  apply elem_of_cons in Hd as [->|Hd], He as [->|He]; try done; [..|by apply IH].
  - destruct Hx. rewrite Hid. by apply list_elem_of_fmap_2.
  - destruct Hx. rewrite <- Hid. by apply list_elem_of_fmap_2.
Qed.

Lemma last_elem {A} (l : list A) x : last l = Some x -> x ∈ l.
Proof. intros [l' ->]%last_Some. apply elem_of_app. right. by left. Qed.

Lemma last_replaced {A} (l k : list A) x y d :
  last (l ++ x :: k) = Some d -> d <> x -> last (l ++ y :: k) = Some d.
Proof.
  intros Hl Hne. destruct k as [|z k].
  - rewrite last_snoc in Hl. congruence.
  - revert Hl. rewrite !last_app. simpl. by destruct (last (z :: k)).
Qed.

Section Steps.
Context {St Row : Type} `{!LanceStore St Row}.
Context (root_uri : string).

Abbreviation uri := (EventLog.uri root_uri).
Abbreviation task := (@EventLog.task Row).
Abbreviation log := (@EventLog.log St Row).
Abbreviation inv := (@EventLogInvariant.inv St Row _ root_uri).
Abbreviation task_ok := (@EventLogInvariant.task_ok St Row _ root_uri).
Abbreviation readable := (@EventLogInvariant.readable St Row _ root_uri).
Abbreviation rows_of := (@EventLogInvariant.rows_of St Row _ root_uri).
Abbreviation moves := (@EventLogInvariant.moves St Row _ root_uri).

(** ** The invariant of a new state *)

(** What a task must bring to take the place of task [i]. *)
Record joins (s : log) (i : nat) (man : option EventManifest) (st : St) (ids : gset string)
    (t : task) : Prop := {
  jn_ok : task_ok man st t;
  jn_held : forall f, task_fence t = Some f -> held man f;
  jn_id : forall x, task_id t = Some x ->
    x ∈ ids /\ forall j u, j <> i -> lg_tasks s !! j = Some u -> task_id u <> Some x;
  jn_writer : forall w, task_writer t = Some w ->
    forall j u, j <> i -> lg_tasks s !! j = Some u -> task_writer u <> Some w;
  jn_compactor : forall f, compactor_fence t = Some f ->
    forall j u, j <> i -> lg_tasks s !! j = Some u -> maintainer_fence u <> Some f;
  jn_maintainer : forall f, maintainer_fence t = Some f ->
    forall j u, j <> i -> lg_tasks s !! j = Some u -> compactor_fence u <> Some f;
}.

Lemma inv_step (s s' : log) i t :
  inv s ->
  lg_tasks s' !! i = t ->
  (forall j, j <> i -> lg_tasks s' !! j = lg_tasks s !! j) ->
  lg_ids s ⊆ lg_ids s' ->
  stored_ok (lg_manifest s') ->
  Forall (readable (lg_lance s')) (segments_of (lg_manifest s')) ->
  (forall x, x ∈ ids_of (lg_manifest s') -> x ∈ lg_ids s') ->
  (forall x, x ∉ lg_ids s' -> ln_latest (uri x) (lg_lance s') = None) ->
  (forall j u, j <> i -> lg_tasks s !! j = Some u ->
     task_ok (lg_manifest s') (lg_lance s') u
     /\ forall f, task_fence u = Some f -> held (lg_manifest s') f) ->
  (forall u, t = Some u -> joins s i (lg_manifest s') (lg_lance s') (lg_ids s') u) ->
  inv s'.
Proof.
  intros Hinv Hi Hothers Hids Hst Hrd Hmi Hfr Hot Hown.
  assert (Hcase : forall j u, lg_tasks s' !! j = Some u ->
            (j = i /\ joins s i (lg_manifest s') (lg_lance s') (lg_ids s') u)
            \/ (j <> i /\ lg_tasks s !! j = Some u)).
  { intros j u Hj. destruct (decide (j = i)) as [->|Hne].
    - left. split; [done|]. apply Hown. congruence.
    - right. by rewrite <- Hothers. }
  split; try done.
  - intros j u [[-> [? _ _ _ _ _]]|[Hne Hj]]%Hcase; [done|]. by apply (Hot j u).
  - intros j u f [[-> [_ Hh _ _ _ _]]|[Hne Hj]]%Hcase Hf; [by apply Hh|]. by apply (Hot j u).
  - intros j u x [[-> [_ _ Hx _ _ _]]|[Hne Hj]]%Hcase Hx'; [by apply Hx|].
    apply Hids. by eapply inv_ids.
  - intros j k u v x [[-> Hu]|[Hj Hu]]%Hcase [[-> Hv]|[Hk Hv]]%Hcase Hxu Hxv; try done.
    + by destruct (proj2 (jn_id _ _ _ _ _ _ Hu x Hxu) k v Hk Hv).
    + by destruct (proj2 (jn_id _ _ _ _ _ _ Hv x Hxv) j u Hj Hu).
    + by eapply (inv_owner _ _ Hinv j k).
  - intros j k u v x [[-> Hu]|[Hj Hu]]%Hcase [[-> Hv]|[Hk Hv]]%Hcase Hxu Hxv; try done.
    + by destruct (jn_writer _ _ _ _ _ _ Hu x Hxu k v Hk Hv).
    + by destruct (jn_writer _ _ _ _ _ _ Hv x Hxv j u Hj Hu).
    + by eapply (inv_writer _ _ Hinv j k).
  - intros j k u v f Hju Hkv Hfu Hfv.
    destruct (Hcase _ _ Hju) as [[-> Hu]|[Hj Hu]], (Hcase _ _ Hkv) as [[-> Hv]|[Hk Hv]].
    + rewrite Hju in Hkv. injection Hkv as <-. by destruct u.
    + by apply (jn_compactor _ _ _ _ _ _ Hu f Hfu k v Hk Hv).
    + by apply (jn_maintainer _ _ _ _ _ _ Hv f Hfv j u Hj Hu).
    + by eapply (inv_apart _ _ Hinv j k).
Qed.

(** ** Where a new task's names come from *)

Lemma id_of_old (s : log) i t x :
  inv s -> lg_tasks s !! i = Some t -> task_id t = Some x ->
  x ∈ lg_ids s /\ forall j u, j <> i -> lg_tasks s !! j = Some u -> task_id u <> Some x.
Proof.
  intros Hinv Hi Hx. split; [by eapply inv_ids|]. intros j u Hne Hj Hu.
  apply Hne. by eapply (inv_owner _ _ Hinv j i).
Qed.

Lemma id_of_fresh (s : log) i x :
  inv s -> x ∉ lg_ids s ->
  forall j u, j <> i -> lg_tasks s !! j = Some u -> task_id u <> Some x.
Proof. intros Hinv Hx j u _ Hj Hu. apply Hx. by eapply inv_ids. Qed.

Lemma writer_of_old (s : log) i t w :
  inv s -> lg_tasks s !! i = Some t -> task_writer t = Some w ->
  forall j u, j <> i -> lg_tasks s !! j = Some u -> task_writer u <> Some w.
Proof.
  intros Hinv Hi Hw j u Hne Hj Hu. apply Hne. by eapply (inv_writer _ _ Hinv j i).
Qed.

(** Two tasks with the same fence, one of them writing under its name. *)
Lemma appender_alone (s : log) i j t u f :
  inv s -> lg_tasks s !! i = Some t -> lg_tasks s !! j = Some u ->
  appender_fence t = Some f -> appender_fence u = Some f \/ maintainer_fence u = Some f -> i = j.
Proof.
  intros Hinv Hi Hj Ht Hu.
  assert (Hwt : task_writer t = Some (writer_id f)).
  { pose proof (inv_task _ _ Hinv _ _ Hi) as Hok.
    destruct t as [req auto [c|]|req auto c v b| | | | | | | | |]; simplify_eq/=.
    - destruct Hok as [_ Hc]. by destruct (Hc c eq_refl) as [<- _].
    - by destruct Hok as (_ & <- & _). }
  assert (Hwu : task_writer u = Some (writer_id f)).
  { pose proof (inv_task _ _ Hinv _ _ Hj) as Hok.
    destruct Hu as [Hu|Hu];
      destruct u as [req auto [c|]|req auto c v b| | | | | | | | |]; simplify_eq/=; try done.
    - destruct Hok as [_ Hc]. by destruct (Hc c eq_refl) as [<- _].
    - by destruct Hok as (_ & <- & _). }
  by eapply (inv_writer _ _ Hinv i j).
Qed.

(** ** Writes *)

Lemma log_rows_inv (s : log) :
  inv s -> log_rows root_uri s = rows_of (lg_lance s) (segments_of (lg_manifest s)).
Proof.
  intros Hinv. unfold log_rows, visible_rows.
  destruct (lg_manifest s) as [m|] eqn:Hm; [|done]. simpl.
  rewrite open_pinned_snapshot_scans; [done|].
  pose proof (inv_readable _ _ Hinv) as Hr. rewrite Hm in Hr. by apply readable_scans.
Qed.

Lemma inv_written (s s' : log) i x t :
  inv s ->
  ln_touched (uri x) (lg_lance s) (lg_lance s') ->
  (forall j u, j <> i -> lg_tasks s !! j = Some u -> task_id u <> Some x) ->
  lg_manifest s' = lg_manifest s -> lg_ids s' = {[x]} ∪ lg_ids s ->
  lg_tasks s' !! i = t -> (forall j, j <> i -> lg_tasks s' !! j = lg_tasks s !! j) ->
  (forall u, t = Some u -> joins s i (lg_manifest s') (lg_lance s') (lg_ids s') u) ->
  inv s' /\ log_rows root_uri s' = log_rows root_uri s.
Proof.
  intros Hinv Ht Hx Hman Hids Hi Hoth Hown.
  pose proof (readable_scans _ _ _ (inv_readable _ _ Hinv)) as Hscan.
  assert (Hinv' : inv s').
  { eapply inv_step; [exact Hinv|exact Hi|exact Hoth|..]; try exact Hown.
    - rewrite Hids. set_solver.
    - rewrite Hman. apply Hinv.
    - rewrite Hman. eapply touched_all_readable; [exact Ht|]. apply Hinv.
    - rewrite Hman, Hids. intros y Hy. apply elem_of_union_r. by apply Hinv.
    - rewrite Hids. intros y Hy. rewrite (ln_touched_latest _ _ _ _ Ht).
      + apply Hinv. set_solver.
      + intros ->%uri_inj. set_solver.
    - rewrite Hman. intros j u Hne Hj. split.
      + eapply task_ok_touched; [exact Ht| |done|by eapply inv_task].
        intros y Hy ->%uri_inj. by apply (Hx j u).
      + intros f. by apply (inv_held _ _ Hinv j u). }
  split; [done|]. rewrite !log_rows_inv by done. rewrite Hman. by eapply touched_rows_of.
Qed.

(** ** Manifest operations *)

Lemma mutates_cases op man effect answer man' :
  op_typed op -> stored_ok man -> mutates op man effect answer man' ->
  (answer = None \/ answer = effect)
  /\ stored_ok man'
  /\ ((man' = man /\ (forall m, effect = Some (Applied m) ->
                        man = Some m /\ op_closure op man = Ok (MutUnchanged m)))
      \/ exists m', effect = Some (Applied m') /\ man' = Some m' /\ replaced op man m').
Proof.
  intros Ht Hok Hm.
  assert (Hap : forall o, manifest_apply op man = Ok (o, man') ->
    stored_ok man'
    /\ ((man' = man /\ (forall m, Some o = Some (Applied m) ->
                          man = Some m /\ op_closure op man = Ok (MutUnchanged m)))
        \/ exists m', Some o = Some (Applied m') /\ man' = Some m' /\ replaced op man m')).
  { intros o H. split; [by eapply manifest_apply_ok|].
    destruct (manifest_apply_cases _ _ _ _ H)
      as (_ & [(m & -> & -> & Hu)|[(c & -> & -> & _)|(m' & -> & -> & Hr & _)]]).
    - left. split; [done|]. intros ? [= <-]. by destruct (op_closure_unchanged _ _ _ Hu) as [? _].
    - left. split; [done|]. by intros ? [=].
    - right. eauto. }
  destruct Hm as [o man' H|o man' H|]; [split; [by right|by apply Hap]|split; [by left|by apply Hap]|].
  split; [by left|]. split; [done|]. left. split; [done|]. by intros ? [=].
Qed.

Lemma inv_manifest (s s' : log) i x t :
  inv s ->
  stored_ok (lg_manifest s') ->
  Forall (readable (lg_lance s)) (segments_of (lg_manifest s')) ->
  (forall y, y ∈ ids_of (lg_manifest s') -> y ∈ lg_ids s) ->
  (forall j u, j <> i -> lg_tasks s !! j = Some u ->
     moves (lg_lance s) (lg_manifest s) (lg_manifest s') u) ->
  lg_lance s' = lg_lance s -> lg_ids s' = x ∪ lg_ids s ->
  lg_tasks s' !! i = t -> (forall j, j <> i -> lg_tasks s' !! j = lg_tasks s !! j) ->
  (forall u, t = Some u -> joins s i (lg_manifest s') (lg_lance s') (lg_ids s') u) ->
  inv s'.
Proof.
  intros Hinv Hok Hrd Hids Hmv Hst Hx Hi Hoth Hown.
  eapply inv_step; [exact Hinv|exact Hi|exact Hoth|..]; try exact Hown; try done.
  - rewrite Hx. set_solver.
  - by rewrite Hst.
  - rewrite Hx. intros y Hy. apply elem_of_union_r. by apply Hids.
  - rewrite Hx, Hst. intros y Hy. apply Hinv. set_solver.
  - rewrite Hst. intros j u Hne Hj. specialize (Hmv j u Hne Hj). split.
    + eapply task_ok_moves; [exact Hmv| |by eapply inv_task].
      intros f. by apply (inv_held _ _ Hinv j u).
    + intros f Hf. eapply held_moves; [exact Hmv|]. by apply (inv_held _ _ Hinv j u).
Qed.

(** Nothing changed, or only the fence: every task may go on. *)
Lemma moves_same st man t : moves st man man t.
Proof. split; try done. intros m ->. exists m. by split. Qed.

Lemma moves_fence st man m' t :
  (forall m, man = Some m -> fence_le (mf_active_writer m) (mf_active_writer m')) ->
  segments_of man = mf_segments m' -> moves st man (Some m') t.
Proof.
  intros Hle Hs. assert (Hs' : segments_of (Some m') = segments_of man) by done.
  split; unfold ids_of; rewrite ?Hs'; try done.
  intros m Hm. exists m'. split; [done|by apply Hle].
Qed.

Lemma joins_like (s : log) i t0 man st ids t :
  inv s -> lg_tasks s !! i = Some t0 -> lg_ids s ⊆ ids ->
  task_ok man st t -> (forall f, task_fence t = Some f -> held man f) ->
  (forall x, task_id t = Some x -> task_id t0 = Some x \/ (x ∈ ids /\ x ∉ lg_ids s)) ->
  (forall w, task_writer t = Some w -> task_writer t0 = Some w) ->
  (forall f, compactor_fence t = Some f -> compactor_fence t0 = Some f) ->
  (forall f, maintainer_fence t = Some f -> maintainer_fence t0 = Some f) ->
  joins s i man st ids t.
Proof.
  intros Hinv Hi Hsub Hok Hheld Hid Hw Hc Hm. split; [done|done|..].
  - intros x Hx. destruct (Hid x Hx) as [H|[H Hn]].
    + destruct (id_of_old _ _ _ _ Hinv Hi H). split; [by apply Hsub|done].
    + split; [done|]. by apply id_of_fresh.
  - intros w H. eapply writer_of_old; eauto.
  - intros f H j u Hne Hj Hu. eapply (inv_apart _ _ Hinv i j); eauto.
  - intros f H j u Hne Hj Hu. eapply (inv_apart _ _ Hinv j i); eauto.
Qed.

(** ** The rules *)

(** A step keeps the invariant and shows readers what it published. *)
Definition step_ok (s : log) (ps : list (@publication Row)) (s' : log) : Prop :=
  inv s' /\ log_rows root_uri s' = log_rows root_uri s ++ concat (map pb_batch ps).

Lemma step_ok_same (s s' : log) :
  inv s' -> log_rows root_uri s' = log_rows root_uri s -> step_ok s [] s'.
Proof. intros ? ?. split; [done|]. simpl. by rewrite app_nil_r. Qed.

(** A step of task [i] that touches nothing but its own entry. *)
Lemma step_task (s s' : log) i t :
  inv s -> lg_manifest s' = lg_manifest s -> lg_lance s' = lg_lance s ->
  lg_ids s' = lg_ids s ->
  lg_tasks s' !! i = t -> (forall j, j <> i -> lg_tasks s' !! j = lg_tasks s !! j) ->
  (forall u, t = Some u -> joins s i (lg_manifest s) (lg_lance s) (lg_ids s) u) ->
  step_ok s [] s'.
Proof.
  intros Hinv Hm Hl Hids Hi Hoth Hown. apply step_ok_same.
  - eapply (inv_manifest s s' i ∅); [exact Hinv|..]; try done.
    + rewrite Hm. apply Hinv.
    + rewrite Hm. apply Hinv.
    + rewrite Hm. apply Hinv.
    + rewrite Hm. intros. apply moves_same.
    + rewrite Hids. set_solver.
    + intros u Hu. rewrite Hm, Hl, Hids. apply Hown. congruence.
  - unfold log_rows. by rewrite Hm, Hl.
Qed.

(** The other tasks' entries after one changed. *)
Ltac others :=
  intros; simpl; first [by rewrite lookup_insert_ne by congruence | by rewrite lookup_delete_ne by congruence].

Lemma set_task_self (s : log) i t : lg_tasks (set_task i t s) !! i = Some t.
Proof. simpl. by rewrite lookup_insert_eq. Qed.
Lemma end_task_self (s : log) i : lg_tasks (end_task i s) !! i = None.
Proof. simpl. by rewrite lookup_delete_eq. Qed.

Lemma step_start (s : log) i t :
  inv s -> lg_tasks s !! i = None -> task_ok (lg_manifest s) (lg_lance s) t ->
  task_fence t = None -> task_id t = None ->
  (forall w, task_writer t = Some w -> writer_free w s) ->
  step_ok s [] (set_task i t s).
Proof.
  intros Hinv Hi Hok Hf Hid Hw.
  eapply step_task; [exact Hinv|done..|apply set_task_self|others|].
  intros u [= <-]. split; [done|..].
  - by rewrite Hf.
  - by rewrite Hid.
  - intros w H j u _ Hj. by apply (Hw w H j u).
  - by intros f Hc; unfold task_fence in Hf; rewrite Hc in Hf; destruct (appender_fence t).
  - intros f Hc; unfold task_fence in Hf; rewrite Hc in Hf.
    by destruct (appender_fence t), (compactor_fence t).
Qed.

Lemma step_end (s : log) i : inv s -> step_ok s [] (end_task i s).
Proof.
  intros Hinv. eapply (step_task s _ i); [exact Hinv|done..|apply end_task_self|others|].
  by intros u [=].
Qed.

(** A manifest operation of task [i], which then goes on or ends. *)
Lemma inv_manifest_go (s : log) i man' t :
  inv s -> stored_ok man' ->
  Forall (readable (lg_lance s)) (segments_of man') ->
  (forall y, y ∈ ids_of man' -> y ∈ lg_ids s) ->
  (forall j u, j <> i -> lg_tasks s !! j = Some u -> moves (lg_lance s) (lg_manifest s) man' u) ->
  (forall u, t = Some u -> joins s i man' (lg_lance s) (lg_ids s) u) ->
  inv (go_on i t (set_manifest man' s)).
Proof.
  intros Hinv Hok Hrd Hids Hmv Hown.
  assert (Hx : lg_ids s = ∅ ∪ lg_ids s) by set_solver.
  destruct t as [t|]; simpl.
  - eapply (inv_manifest s (set_task i t (set_manifest man' s)) i ∅ (Some t) Hinv Hok Hrd Hids Hmv
              eq_refl Hx); [apply set_task_self|others|done].
  - eapply (inv_manifest s (end_task i (set_manifest man' s)) i ∅ None Hinv Hok Hrd Hids Hmv
              eq_refl Hx); [apply end_task_self|others|done].
Qed.

(** An activation that took effect leaves the segments alone. *)
Lemma activated requested auto man effect answer man' :
  (forall f, requested = Some f -> writer_id f = auto /\ in_u64 (epoch f)) ->
  stored_ok man ->
  mutates (OpActivate requested auto) man effect answer man' ->
  (answer = None \/ answer = effect)
  /\ stored_ok man'
  /\ segments_of man' = segments_of man
  /\ (forall st t, moves st man man' t)
  /\ (forall m, effect = Some (Applied m) -> man' = Some m /\ writer_id (mf_active_writer m) = auto
        /\ (requested = None -> forall m0, man = Some m0 ->
              (epoch (mf_active_writer m0) < epoch (mf_active_writer m))%Z)).
Proof.
  intros Hreq Hok Hm.
  assert (Ht : op_typed (OpActivate requested auto)) by (intros f Hf; by apply Hreq).
  destruct (mutates_cases _ _ _ _ _ Ht Hok Hm) as (Ha & Hok' & [[-> Hu]|(m' & -> & -> & Hr)]).
  - split_and!; try done.
    + intros. apply moves_same.
    + intros m He. destruct (Hu m He) as [-> Hc].
      destruct (op_closure_unchanged _ _ _ Hc) as [_ ->]. split_and!; try done.
      by apply (Hreq _ eq_refl).
  - inversion Hr as [req' auto' fence Hd|req' auto' m fence Hd Hlt Hle| | |]; subst.
    + split_and!; [done|done|done|by intros; apply moves_fence|].
      intros m [= <-]. split_and!; [done| |by intros _ ? [=]].
      simpl. destruct requested as [f|]; simpl; [by apply (Hreq f)|done].
    + split_and!; [done|done|done| |].
      * intros. apply moves_fence; [|done]. intros ? [= <-]. by left.
      * intros m1 [= <-]. split_and!; [done| |by intros _ ? [= <-]].
        simpl. destruct requested as [f|]; simpl; [by apply (Hreq f)|done].
Qed.

Lemma rows_unchanged (s s' : log) :
  inv s -> inv s' -> lg_lance s' = lg_lance s ->
  segments_of (lg_manifest s') = segments_of (lg_manifest s) ->
  log_rows root_uri s' = log_rows root_uri s.
Proof. intros H H' Hl Hs. by rewrite !log_rows_inv, Hl, Hs. Qed.

Lemma step_activate (s : log) i requested auto uuid id effect answer man' :
  inv s ->
  lg_tasks s !! i = Some (Appender requested auto None) ->
  mutates (OpActivate requested auto) (lg_manifest s) effect answer man' ->
  (forall c, new_state uuid answer = Some c -> cd_segment_id c = id) ->
  id ∉ lg_ids s ->
  step_ok s []
    (set_task i (Appender requested auto (new_state uuid answer)) (set_manifest man' (use_id id s))).
Proof.
  intros Hinv Hi Hm Hid Hfresh.
  pose proof (inv_task _ _ Hinv _ _ Hi) as [Hreq _].
  destruct (activated _ _ _ _ _ _ Hreq (inv_stored _ _ Hinv) Hm)
    as (Ha & Hok' & Hsegs & Hmv & Heff).
  assert (Hinv' : inv (set_task i (Appender requested auto (new_state uuid answer))
                         (set_manifest man' (use_id id s)))).
  { eapply (inv_manifest s _ i {[id]} _ Hinv);
      [exact Hok'| | |intros; apply Hmv|reflexivity|reflexivity|apply set_task_self
      |others|].
    - simpl. rewrite Hsegs. apply Hinv.
    - simpl. unfold ids_of. rewrite Hsegs. apply Hinv.
    - intros u [= <-]. eapply joins_like; [done|exact Hi|simpl; set_solver|..]; simpl.
      + split; [done|]. intros c Hc. pose proof (Hid c Hc) as Hidc.
        unfold new_state in Hc. destruct answer as [[m|]|]; try done.
        destruct Ha as [?|<-]; [done|]. destruct (Heff m eq_refl) as (-> & Hw & _).
        injection Hc as <-. simpl in *. subst id. split; [done|]. split_and!; [done|by apply Hinv|].
        split; [|done]. intros Hin. apply Hfresh, Hinv. unfold ids_of in *. by rewrite <- Hsegs.
      + intros f Hf. unfold new_state in Hf. destruct answer as [[m|]|]; try done.
        destruct Ha as [?|<-]; [done|]. destruct (Heff m eq_refl) as (-> & _).
        injection Hf as <-. by exists m.
      + intros x Hx. right. destruct (new_state uuid answer) as [c|] eqn:Hc; [|done].
        injection Hx as <-. rewrite (Hid c eq_refl). set_solver.
      + done.
      + by destruct (new_state uuid answer).
      + by destruct (new_state uuid answer). }
  apply step_ok_same; [done|]. by apply rows_unchanged.
Qed.

(** ** Appenders *)

(** A write of task [i] to its own segment. *)
Lemma step_write_go (s : log) i t0 x st' t :
  inv s -> lg_tasks s !! i = Some t0 -> task_id t0 = Some x ->
  ln_touched (uri x) (lg_lance s) st' ->
  (forall u, t = Some u -> joins s i (lg_manifest s) st' (lg_ids s) u) ->
  step_ok s [] (go_on i t (set_lance st' s)).
Proof.
  intros Hinv Hi Hx Ht Hown. destruct (id_of_old _ _ _ _ Hinv Hi Hx) as [Hin Hne].
  assert (Hids : lg_ids s = {[x]} ∪ lg_ids s) by set_solver.
  destruct t as [t|]; simpl.
  - destruct (inv_written s (set_task i t (set_lance st' s)) i x (Some t) Hinv Ht Hne eq_refl Hids);
      [apply set_task_self|others|done|by apply step_ok_same].
  - destruct (inv_written s (end_task i (set_lance st' s)) i x None Hinv Ht Hne eq_refl Hids);
      [apply end_task_self|others|done|by apply step_ok_same].
Qed.

(** A write of task [i] to a new segment. *)
Lemma step_create_go (s : log) i x st' t :
  inv s -> x ∉ lg_ids s -> ln_touched (uri x) (lg_lance s) st' ->
  (forall u, t = Some u -> joins s i (lg_manifest s) st' ({[x]} ∪ lg_ids s) u) ->
  step_ok s [] (go_on i t (set_lance st' (use_id x s))).
Proof.
  intros Hinv Hx Ht Hown. pose proof (id_of_fresh s i x Hinv Hx) as Hne.
  destruct t as [t|]; simpl.
  - destruct (inv_written s (set_task i t (set_lance st' (use_id x s))) i x (Some t) Hinv Ht Hne
                eq_refl eq_refl); [apply set_task_self|others|done|by apply step_ok_same].
  - destruct (inv_written s (end_task i (set_lance st' (use_id x s))) i x None Hinv Ht Hne
                eq_refl eq_refl); [apply end_task_self|others|done|by apply step_ok_same].
Qed.

Lemma count_appended_spec c n c' :
  count_appended c n = Some c' ->
  cd_fence c' = cd_fence c /\ cd_segment_id c' = cd_segment_id c
  /\ cd_rows c' = (cd_rows c + n)%Z /\ (cd_rows c' <= u64_max)%Z.
Proof.
  unfold count_appended. intros (rows & Hr & [= <-])%bind_Some. simpl.
  apply u64_checked_add_some in Hr as [-> ?]. done.
Qed.

Lemma step_append (s : log) i requested auto c batch version st' c' :
  inv s ->
  lg_tasks s !! i = Some (Appender requested auto (Some c)) ->
  append_rows root_uri c batch (lg_lance s) = Some (version, st') ->
  count_appended c (Z.of_nat (length batch)) = Some c' ->
  step_ok s [] (set_task i (Appending requested auto c' version batch) (set_lance st' s)).
Proof.
  intros Hinv Hi Hap (Hf & Hid & Hrows & Hmax)%count_appended_spec. unfold append_rows in Hap.
  pose proof (inv_task _ _ Hinv _ _ Hi) as [Hreq Hc]. destruct (Hc c eq_refl) as [Hw Hok].
  refine (step_write_go s i _ _ st' (Some _) Hinv Hi eq_refl (ln_insert_touched _ _ _ _ _ _ Hap) _).
  intros u [= <-]. eapply joins_like; [done|exact Hi|done|..]; simpl; rewrite ?Hf, ?Hid; try done.
  - split_and!; [done|done|]. unfold cached_ok in Hok. unfold appending_ok. rewrite Hf, Hid.
    destruct (cd_dataset c) as [v0|].
    + destruct Hok as (old & [Hl Hs] & Hn & _ & Ha).
      destruct (ln_append _ _ _ _ _ _ _ Hap Hl Hs) as (Hlt & Hl' & Hs').
      exists old. split; [done|]. split; [rewrite length_app; lia|]. split; [done|]. right. exists v0.
      split_and!; [done| |].
      * eapply ln_touched_scan; [by eapply ln_insert_touched|done].
      * intros Hact. rewrite (Ha Hact). unfold open_descriptor. by rewrite Hn.
    + destruct Hok as (Hz & Hnone & Hni). destruct (ln_create _ _ _ _ _ Hap) as [Hl' Hs'].
      exists []. split; [done|]. split; [simpl; lia|]. split; [done|]. by left.
  - unfold task_fence. simpl. rewrite Hf. intros f [= <-]. by eapply inv_held; [done|exact Hi|].
  - auto.
Qed.

Lemma step_append_fails (s : log) i requested auto c st' :
  inv s ->
  lg_tasks s !! i = Some (Appender requested auto (Some c)) ->
  ln_touched (uri (cd_segment_id c)) (lg_lance s) st' ->
  step_ok s [] (set_task i (Appender requested auto None) (set_lance st' s)).
Proof.
  intros Hinv Hi Ht. pose proof (inv_task _ _ Hinv _ _ Hi) as [Hreq _].
  refine (step_write_go s i _ _ st' (Some _) Hinv Hi eq_refl Ht _).
  intros u [= <-]. by eapply joins_like; [done|exact Hi|done|..].
Qed.

(** The manifest when segment [d] takes the end of the list: it is new, or it
    replaces the last one, which has its id. *)
Definition ends_with (d : EventSegment) (old : option EventSegment)
    (segments segments' : list EventSegment) : Prop :=
  exists l, segments' = l ++ [d]
    /\ match old with
       | None => segments = l /\ (sg_id d ∉ sg_id <$> segments)
       | Some d0 => segments = l ++ [d0] /\ sg_id d0 = sg_id d
       end.

Lemma put_at_end d segments :
  NoDup (sg_id <$> segments) ->
  (sg_id d ∉ sg_id <$> segments) -> ends_with d None segments (put_segment d segments).
Proof. intros Hnd Hni. exists segments. by rewrite put_segment_new. Qed.

Lemma put_over_last d d0 segments :
  NoDup (sg_id <$> segments) -> last segments = Some d0 -> sg_id d0 = sg_id d ->
  ends_with d (Some d0) segments (put_segment d segments).
Proof.
  intros Hnd Hl Hid. pose proof Hl as [l Hs]%last_Some. subst segments.
  destruct (put_segment_in_place d d0 (l ++ [d0]) Hnd) as (l1 & k & Heq & Hput);
    [by apply last_elem|done|].
  destruct k as [|z k].
  - apply app_inj_tail in Heq as [<- _]. exists l. rewrite Hput. done.
  - exfalso. rewrite Heq in Hnd. rewrite fmap_app in Hnd. simpl in Hnd.
    assert (Hz : last (l1 ++ d0 :: z :: k) = Some d0) by (by rewrite <- Heq).
    rewrite last_app_cons, last_cons_cons in Hz. apply last_elem in Hz as Hin.
    apply NoDup_app in Hnd as (_ & _ & Hnd). apply NoDup_cons in Hnd as [Hnot _].
    apply Hnot. by apply (list_elem_of_fmap_2 sg_id (z :: k)).
Qed.

Lemma ends_with_ids d old segments segments' x :
  ends_with d old segments segments' -> x ∈ sg_id <$> segments' ->
  x = sg_id d \/ x ∈ sg_id <$> segments.
Proof.
  intros (l & -> & Ho). rewrite fmap_app, elem_of_app. simpl. rewrite list_elem_of_singleton.
  intros [Hx| ->]; [right|by left].
  destruct old as [d0|]; destruct Ho as [-> _]; [|done]. rewrite fmap_app, elem_of_app. by left.
Qed.

Lemma ends_with_keeps d old segments segments' e :
  ends_with d old segments segments' -> e ∈ segments -> sg_id e <> sg_id d -> e ∈ segments'.
Proof.
  intros (l & -> & Ho) He Hne. apply elem_of_app. left.
  destruct old as [d0|]; destruct Ho as [-> Hid]; [|done].
  apply elem_of_app in He as [?|He]; [done|]. apply list_elem_of_singleton in He as ->. congruence.
Qed.

Lemma ends_with_last d old segments segments' :
  ends_with d old segments segments' -> last segments' = Some d.
Proof. intros (l & -> & _). apply last_snoc. Qed.

Lemma ends_with_readable st d old segments segments' :
  ends_with d old segments segments' -> Forall (readable st) segments -> readable st d ->
  Forall (readable st) segments'.
Proof.
  intros (l & -> & Ho) Hs Hd. apply Forall_app. split; [|by constructor].
  destruct old as [d0|]; destruct Ho as [-> _]; [|done]. by apply Forall_app in Hs as [? _].
Qed.

Lemma ends_with_rows st d old segments segments' batch :
  ends_with d old segments segments' ->
  content root_uri st d
  = match old with Some d0 => content root_uri st d0 | None => [] end ++ batch ->
  rows_of st segments' = rows_of st segments ++ batch.
Proof.
  intros (l & -> & Ho) Hc. destruct old as [d0|]; destruct Ho as [-> _].
  - rewrite !rows_of_app, <- app_assoc. f_equal. unfold EventLogInvariant.rows_of. simpl.
    by rewrite !app_nil_r, Hc.
  - rewrite rows_of_app. f_equal. unfold EventLogInvariant.rows_of. simpl. by rewrite app_nil_r, Hc.
Qed.

(** What the publication of a batch does to the segments. *)
Lemma appended (s : log) i requested auto c version batch m m' :
  inv s ->
  lg_tasks s !! i = Some (Appending requested auto c version batch) ->
  lg_manifest s = Some m -> mf_active_writer m = cd_fence c ->
  mf_segments m' = put_segment (open_descriptor c version) (mf_segments m) ->
  exists old, ends_with (open_descriptor c version) old (mf_segments m) (mf_segments m')
    /\ readable (lg_lance s) (open_descriptor c version)
    /\ content root_uri (lg_lance s) (open_descriptor c version)
       = match old with Some d0 => content root_uri (lg_lance s) d0 | None => [] end ++ batch.
Proof.
  intros Hinv Hi Hm Ha ->. pose proof (inv_task _ _ Hinv _ _ Hi) as (_ & _ & Hok).
  destruct Hok as (old & Hl & Hn & Hle & Hold).
  pose proof (manifest_ids_nodup m (inv_stored _ _ Hinv m Hm)) as Hnd.
  pose proof (latest_is_content root_uri (lg_lance s) (open_descriptor c version) _ Hl) as Hcont.
  pose proof (latest_is_readable root_uri (lg_lance s) (open_descriptor c version) _ Hl Hn) as Hrd.
  rewrite Hm in Hold. destruct Hold as [[-> [Hni _]]|(v0 & Hlt & Hs & Hlast)].
  - exists None. split_and!; [by apply put_at_end|apply Hrd..|done].
  - eexists (Some _). split; [apply put_over_last; [done|apply Hlast; by exists m|done]|].
    split; [done|]. rewrite Hcont. f_equal. unfold content. simpl. by rewrite Hs.
Qed.

Lemma appending_typed (s : log) i requested auto c version batch :
  inv s -> lg_tasks s !! i = Some (Appending requested auto c version batch) ->
  segment_typed (open_descriptor c version).
Proof.
  intros Hinv Hi. pose proof (inv_task _ _ Hinv _ _ Hi) as (_ & _ & old & [Hl Hs] & Hn & Hle & _).
  destruct (ln_latest_readable _ _ _ Hl) as [Hv _].
  unfold segment_typed, in_u64; simpl. lia.
Qed.

(** A new batch is a change of the manifest. *)
Lemma appending_changes (s : log) i requested auto c version batch m :
  inv s -> lg_tasks s !! i = Some (Appending requested auto c version batch) ->
  lg_manifest s = Some m -> mf_active_writer m = cd_fence c ->
  find_segment (cd_segment_id c) (mf_segments m) <> Some (open_descriptor c version).
Proof.
  intros Hinv Hi Hm Ha Hfind. destruct (find_segment_some _ _ _ Hfind) as [Hin _].
  pose proof (inv_task _ _ Hinv _ _ Hi) as (_ & _ & old & _ & _ & _ & Hold). rewrite Hm in Hold.
  destruct Hold as [[_ [Hni _]]|(v0 & Hlt & _ & Hlast)].
  - apply Hni. unfold ids_of. simpl. by apply (list_elem_of_fmap_2 sg_id) in Hin.
  - assert (Hl : last (mf_segments m) = Some (mkSegment (cd_segment_id c) v0
                                                (Z.of_nat (length old)) 0 false))
      by (apply Hlast; by exists m).
    pose proof (manifest_ids_nodup m (inv_stored _ _ Hinv m Hm)) as Hnd.
    pose proof (same_id_same_segment _ _ _ Hnd Hin (last_elem _ _ Hl) eq_refl) as Heq.
    injection Heq. lia.
Qed.

Lemma step_publish (s : log) i requested auto c version batch effect answer man' :
  inv s ->
  lg_tasks s !! i = Some (Appending requested auto c version batch) ->
  mutates (OpPublish (cd_fence c) (open_descriptor c version)) (lg_manifest s)
    effect answer man' ->
  step_ok s (publication_of i batch effect answer)
    (set_task i (Appender requested auto (after_publish c version answer)) (set_manifest man' s)).
Proof.
  intros Hinv Hi Hmut. pose proof (inv_task _ _ Hinv _ _ Hi) as (Hreq & Hw & Hok).
  pose proof (appending_typed _ _ _ _ _ _ _ Hinv Hi : op_typed (OpPublish (cd_fence c) _)) as Ht.
  destruct (mutates_cases _ _ _ _ _ Ht (inv_stored _ _ Hinv) Hmut) as (Hans & Hok' & [[-> Hun]|(m' & -> & -> & Hr)]).
  - assert (Hnot : forall m, effect <> Some (Applied m)).
    { intros m He. destruct (Hun m He) as [Hm Hc].
      destruct (op_closure_unchanged _ _ _ Hc) as (_ & Ha & Hfind).
      by eapply (appending_changes s i). }
    assert (Hp : publication_of i batch effect answer = []).
    { unfold publication_of. destruct effect as [[m|]|]; [by destruct (Hnot m)|done..]. }
    assert (Hd : after_publish c version answer = None).
    { destruct Hans as [->| ->]; [done|]. destruct effect as [[m|]|]; [by destruct (Hnot m)|done..]. }
    rewrite Hp, Hd. apply step_ok_same; [|done].
    refine (inv_manifest_go s i _ (Some _) Hinv (inv_stored _ _ Hinv) (inv_readable _ _ Hinv)
              (inv_manifest_ids _ _ Hinv) (fun _ _ _ _ => moves_same _ _ _) _).
    intros u [= <-]. by eapply joins_like; [done|exact Hi|done|..].
  - inversion Hr as [| |m d mx Hck (Hrev & Hact & Hsegs & Hfacts) Hf1 Hm2 Hm3| |]. subst mx d.
    symmetry in Hm2.
    destruct (appended s i _ _ _ _ _ m m' Hinv Hi Hm2 Hf1 Hsegs) as (old & He & Hrd & Hcont).
    assert (Hrows : rows_of (lg_lance s) (mf_segments m')
                    = rows_of (lg_lance s) (segments_of (lg_manifest s)) ++ batch).
    { rewrite Hm2. by eapply ends_with_rows. }
    assert (Hinv' : inv (set_task i (Appender requested auto (after_publish c version answer))
                           (set_manifest (Some m') s))).
    { refine (inv_manifest_go s i (Some m') (Some _) Hinv Hok' _ _ _ _).
      - simpl. eapply ends_with_readable; [exact He| |done].
        pose proof (inv_readable _ _ Hinv) as H. by rewrite Hm2 in H.
      - intros y Hy. destruct (ends_with_ids _ _ _ _ _ He Hy) as [->|Hy'].
        + simpl. by eapply inv_ids; [done|exact Hi|].
        + apply Hinv. by rewrite Hm2.
      - intros j u Hne Hj. rewrite Hm2 in *. split.
        + intros ? [= <-]. exists m'. split; [done|]. by rewrite Hact.
        + simpl in *. rewrite Hrows. by apply prefix_app_r.
        + intros x Hx Hni Hin. destruct (ends_with_ids _ _ _ _ _ He Hin) as [->|?]; [|done].
          by apply (proj2 (id_of_old _ _ _ _ Hinv Hi eq_refl) j u).
        + intros f x d Hf (? & [= <-] & <-) _ _ _ _ _. exfalso. apply Hne. symmetry.
          eapply (appender_alone s i j); [done|exact Hi|exact Hj| |by left]. simpl. by rewrite Hf1.
        + intros f x d Hf _ _ Hx Hid _ Hin. eapply ends_with_keeps; [exact He|done|].
          intros Heq. subst x. rewrite Heq in Hx.
          by apply (proj2 (id_of_old _ _ _ _ Hinv Hi eq_refl) j u).
      - intros u [= <-]. eapply joins_like; [done|exact Hi|done|..]; simpl.
        + split; [done|]. intros c' Hc'. unfold after_publish in Hc'.
          destruct answer as [[ma|]|]; try done. injection Hc' as <-. split; [done|].
          destruct Hok as (o & Hl & Hn & Hmx & _). exists (o ++ batch). split; [done|].
          split; [done|]. split; [done|]. intros _. by eapply ends_with_last.
        + intros f Hf. exists m'. split; [done|]. unfold after_publish in Hf.
          destruct answer as [[ma|]|]; try done. injection Hf as <-. by rewrite Hact, Hf1.
        + intros x Hx. left. unfold after_publish in Hx. by destruct answer as [[ma|]|].
        + done.
        + by destruct (after_publish c version answer).
        + by destruct (after_publish c version answer). }
    split; [done|]. rewrite !log_rows_inv by done. simpl. by rewrite Hrows, app_nil_r.
Qed.

Lemma step_ok_trans (s s1 s2 : log) : step_ok s [] s1 -> step_ok s1 [] s2 -> step_ok s [] s2.
Proof. intros [H1 E1] [H2 E2]. split; [done|]. simpl in *. by rewrite app_nil_r in *; rewrite E2, E1. Qed.

(** Sealing gives the open segment to a compactor and the appender a new one. *)
Lemma step_seal (s : log) i j requested auto c threshold uuid sealed c' :
  inv s ->
  lg_tasks s !! i = Some (Appender requested auto (Some c)) ->
  lg_tasks s !! j = None ->
  seal_state threshold uuid c = Some (sealed, c') ->
  cd_segment_id c' ∉ lg_ids s ->
  step_ok s []
    (set_task j (Compacting sealed)
       (set_task i (Appender requested auto (Some c')) (use_id (cd_segment_id c') s))).
Proof.
  intros Hinv Hi Hj Hseal Hfresh.
  assert (Hij : j <> i) by congruence.
  pose proof (inv_task _ _ Hinv _ _ Hi) as [Hreq Hc]. destruct (Hc c eq_refl) as [Hw Hok].
  unfold seal_state in Hseal. destruct (_ <? _)%Z; [done|].
  destruct (cd_dataset c) as [v|] eqn:Hd; [|done]. simpl in Hseal. injection Hseal as <- <-.
  simpl in Hfresh. set (id := writer_segment_id _ _) in *.
  unfold cached_ok in Hok. rewrite Hd in Hok. destruct Hok as (rs & Hl & Hn & Hmx & Hlast).
  set (c' := mkCached _ _ _ _ _ _).
  assert (Hstep1 : step_ok s [] (set_task i (Appender requested auto (Some c')) (use_id id s))).
  { apply step_ok_same; [|done].
    eapply (inv_manifest s _ i {[id]} _ Hinv);
      [apply Hinv|apply Hinv|apply Hinv|intros; apply moves_same|reflexivity|reflexivity
      |apply set_task_self|others|].
    intros u [= <-]. eapply joins_like; [done|exact Hi|simpl; set_solver|..]; simpl; try done.
    - split; [done|]. intros ? [= <-]. split; [done|]. split_and!; [done|by apply Hinv|].
      split; [|done]. intros Hin. by apply Hfresh, Hinv.
    - intros f [= <-]. by eapply inv_held; [done|exact Hi|].
    - intros x [= <-]. right. set_solver. }
  eapply step_ok_trans; [exact Hstep1|]. destruct Hstep1 as [Hinv1 _].
  eapply step_task; [exact Hinv1|done..|apply set_task_self|others|].
  assert (Hothers : forall k u, k <> j ->
    lg_tasks (set_task i (Appender requested auto (Some c')) (use_id id s)) !! k = Some u ->
    (k = i /\ u = Appender requested auto (Some c')) \/ (k <> i /\ lg_tasks s !! k = Some u)).
  { intros k u _ Hk. simpl in Hk. destruct (decide (k = i)) as [->|Hne].
    - rewrite lookup_insert_eq in Hk. injection Hk as <-. by left.
    - rewrite lookup_insert_ne in Hk by done. by right. }
  intros u [= <-]. split; simpl.
  - split_and!; [done|done|by exists rs|done|].
    intros Ha. by apply last_elem, Hlast.
  - intros f [= <-]. by eapply inv_held; [exact Hinv|exact Hi|].
  - intros x [= <-]. split.
    + apply elem_of_union_r. by eapply inv_ids; [exact Hinv|exact Hi|].
    + intros k u Hkj [[-> ->]|[Hne Hk]]%(Hothers k u Hkj).
      * simpl. intros [= Heq]. apply Hfresh. rewrite Heq. by eapply inv_ids; [exact Hinv|exact Hi|].
      * by apply (proj2 (id_of_old _ _ _ _ Hinv Hi eq_refl) k u).
  - done.
  - intros f [= <-] k u Hkj [[-> ->]|[Hne Hk]]%(Hothers k u Hkj); [done|]. intros Hf.
    apply Hne. symmetry. eapply (appender_alone s i k); [exact Hinv|exact Hi|exact Hk|done|by right].
  - done.
Qed.

(** ** Compactors *)

Lemma step_rewrite (s : log) i sealed removed version st' :
  inv s ->
  lg_tasks s !! i = Some (Compacting sealed) ->
  ln_reorganise CompactFiles (uri (sg_id (se_segment sealed))) (lg_lance s)
    = Some (removed, version, st') ->
  step_ok s []
    (set_task i (Sealing (se_fence sealed) (sealed_descriptor (se_segment sealed) removed version))
       (set_lance st' s)).
Proof.
  intros Hinv Hi Hre.
  pose proof (inv_task _ _ Hinv _ _ Hi) as (Hlv & Hse & (rs & [Hl Hs] & Hn) & Hmx & Ha).
  pose proof (ln_reorganise_touched _ _ _ _ _ Hre) as Ht.
  destruct (ln_reorganised _ _ _ _ _ _ _ Hre Hl) as (Hle & Hl' & Hs').
  pose proof (ln_touched_scan _ _ _ _ _ _ Ht Hs) as Hs0. rewrite Hs in Hs'.
  destruct (ln_latest_readable _ _ _ Hl) as [Hb _], (ln_latest_readable _ _ _ Hl') as [Hb' _].
  refine (step_write_go s i _ _ st' (Some _) Hinv Hi eq_refl Ht _).
  intros u [= <-]. eapply joins_like; [done|exact Hi|done|..]; simpl; auto.
  - assert (Hscan : ln_scan (uri (sg_id (se_segment sealed)))
                      (if removed then version else sg_version (se_segment sealed)) st' = Some rs)
      by (by destruct removed).
    unfold sealing_ok. simpl.
    split; [done|]. split; [done|]. split; [destruct removed; lia|]. split; [done|]. split.
    + split; [split; simpl; [by rewrite Hl'|by rewrite Hscan]|]. unfold content. simpl.
      by rewrite Hscan.
    + exists (sg_version (se_segment sealed)). rewrite Hscan.
      split; [destruct removed; lia|]. split; [done|]. intros Hact. specialize (Ha Hact).
      destruct (se_segment sealed); simpl in *; by subst.
  - intros f [= <-]. by eapply inv_held; [done|exact Hi|].
Qed.

(** A run of segments replaced by one with the same rows. *)
Lemma moves_spliced st m m' l a r k u :
  mf_segments m = l ++ a ++ k -> mf_segments m' = l ++ r :: k -> a <> [] ->
  mf_active_writer m' = mf_active_writer m ->
  rows_of st a = content root_uri st r ->
  (forall d, d ∈ a -> sg_sealed d = false -> task_id u <> Some (sg_id d)) ->
  (sg_id r ∉ sg_id <$> mf_segments m -> task_id u <> Some (sg_id r)) ->
  moves st (Some m) (Some m') u.
Proof.
  intros Hm Hm' Hne Hact Hrows Hfree Hr.
  assert (Hsame : rows_of st (mf_segments m') = rows_of st (mf_segments m)).
  { rewrite Hm, Hm', !rows_of_app, Hrows. f_equal. }
  assert (Hkeep : forall x d, task_id u = Some x -> sg_id d = x -> sg_sealed d = false -> d ∉ a).
  { intros x d Hx <- Hs Hd. by apply (Hfree d). }
  split; simpl.
  - intros ? [= <-]. exists m'. split; [done|]. by rewrite Hact.
  - by rewrite Hsame.
  - unfold ids_of. simpl. intros x Hx Hni Hin. rewrite Hm', fmap_app, fmap_cons in Hin.
    apply elem_of_app in Hin as [Hin|Hin].
    + apply Hni. rewrite Hm, fmap_app. by apply elem_of_app; left.
    + apply elem_of_cons in Hin as [->|Hin]; [by apply Hr|].
      apply Hni. rewrite Hm, !fmap_app, !elem_of_app. auto.
  - intros f x d _ _ _ Hx Hid Hs Hl. pose proof (Hkeep x d Hx Hid Hs) as Hd.
    rewrite Hm in Hl. rewrite Hm'. destruct k as [|z k].
    + rewrite app_nil_r in Hl. destruct Hd.
      destruct a as [|z a] using rev_ind; [done|]. rewrite app_assoc, last_snoc in Hl.
      injection Hl as ->. apply elem_of_app. right. by left.
    + rewrite app_assoc, last_app_cons in Hl.
      change (l ++ r :: z :: k) with (l ++ [r] ++ z :: k). by rewrite app_assoc, last_app_cons.
  - intros f x d _ _ _ Hx Hid Hs Hin. pose proof (Hkeep x d Hx Hid Hs) as Hd.
    rewrite Hm in Hin. rewrite Hm'. rewrite !elem_of_app in Hin. rewrite elem_of_app, elem_of_cons.
    naive_solver.
Qed.

(** The whole step of a task that replaces a run of segments. *)
Lemma inv_spliced (s : log) i t0 m m' l a r k t :
  inv s -> lg_tasks s !! i = Some t0 -> task_id t0 = Some (sg_id r) ->
  lg_manifest s = Some m -> stored_ok (Some m') ->
  mf_segments m = l ++ a ++ k -> mf_segments m' = l ++ r :: k -> a <> [] ->
  mf_active_writer m' = mf_active_writer m ->
  rows_of (lg_lance s) a = content root_uri (lg_lance s) r ->
  readable (lg_lance s) r ->
  (forall d, d ∈ a -> sg_sealed d = false -> sg_id d = sg_id r) ->
  (forall u, t = Some u -> joins s i (Some m') (lg_lance s) (lg_ids s) u) ->
  step_ok s [] (go_on i t (set_manifest (Some m') s)).
Proof.
  intros Hinv Hi Hid Hm Hok Hs Hs' Hne Hact Hrows Hrd Hun Hown.
  destruct (id_of_old _ _ _ _ Hinv Hi Hid) as [Hin Hown'].
  pose proof (inv_readable _ _ Hinv) as Hall. rewrite Hm in Hall. simpl in Hall.
  assert (Hinv' : inv (go_on i t (set_manifest (Some m') s))).
  { apply inv_manifest_go; [done|done| | | |done].
    - simpl. rewrite Hs'. rewrite Hs in Hall. apply Forall_app in Hall as [Hl Hall].
      apply Forall_app in Hall as [_ Hk]. apply Forall_app. split; [done|by constructor].
    - intros y Hy. unfold ids_of in Hy. simpl in Hy. rewrite Hs', fmap_app, fmap_cons in Hy.
      apply elem_of_app in Hy as [Hy|Hy]; [|apply elem_of_cons in Hy as [->|Hy]; [done|]];
        (apply (inv_manifest_ids _ _ Hinv); rewrite Hm; unfold ids_of; simpl;
         rewrite Hs, !fmap_app, !elem_of_app; auto).
    - intros j u Hne' Hj. rewrite Hm. eapply moves_spliced; try done.
      + intros d Hd Hsd. rewrite (Hun d Hd Hsd). by apply (Hown' j u).
      + intros _. by apply (Hown' j u). }
  apply step_ok_same; [done|]. rewrite !log_rows_inv by done.
  rewrite Hm. destruct t; simpl; rewrite Hs, Hs', !rows_of_app, Hrows; f_equal.
Qed.

(** A task whose manifest operation changed nothing goes on or ends. *)
Lemma step_unchanged (s : log) i t0 t :
  inv s -> lg_tasks s !! i = Some t0 ->
  (forall u, t = Some u -> joins s i (lg_manifest s) (lg_lance s) (lg_ids s) u) ->
  step_ok s [] (go_on i t (set_manifest (lg_manifest s) s)).
Proof.
  intros Hinv Hi Hown. apply step_ok_same; [|by destruct t].
  apply inv_manifest_go; try done; try apply Hinv. intros. apply moves_same.
Qed.

Lemma joins_merging (s : log) i t0 f man :
  inv s -> lg_tasks s !! i = Some t0 -> compactor_fence t0 = Some f -> held man f ->
  joins s i man (lg_lance s) (lg_ids s) (Merging f).
Proof.
  intros Hinv Hi Hf Hh. eapply joins_like; [done|exact Hi|done|..]; simpl; try done.
  - intros g [= <-]. done.
  - intros g [= <-]. done.
Qed.

Lemma step_seal_publish (s : log) i fence d effect answer man' :
  inv s ->
  lg_tasks s !! i = Some (Sealing fence d) ->
  mutates (OpPublish fence d) (lg_manifest s) effect answer man' ->
  step_ok s [] (go_on i (if_applied answer (fun _ => Merging fence)) (set_manifest man' s)).
Proof.
  intros Hinv Hi Hmut.
  pose proof (inv_task _ _ Hinv _ _ Hi) as (Hlv & Hse & Hb & Hmx & Hrd & v0 & Hv0 & Hs0 & Hin).
  pose proof (inv_held _ _ Hinv _ _ _ Hi eq_refl) as Hheld.
  assert (Ht : op_typed (OpPublish fence d)).
  { destruct Hrd as [_ Hn]. unfold op_typed, segment_typed, in_u64. lia. }
  assert (Hgo : forall man u, held man fence ->
    if_applied answer (fun _ => Merging fence) = Some u ->
    joins s i man (lg_lance s) (lg_ids s) u).
  { intros man u Hh Hu. destruct answer as [[ma|]|]; try done. injection Hu as <-.
    by eapply joins_merging. }
  destruct (mutates_cases _ _ _ _ _ Ht (inv_stored _ _ Hinv) Hmut)
    as (_ & Hok' & [[-> _]|(m' & -> & -> & Hr)]); [by eapply step_unchanged; eauto|].
  inversion Hr as [| |m e mx Hck (Hrev & Hact & Hsegs & Hfacts) Hf1 Hm2 Hm3| |]. subst mx e.
  symmetry in Hm2. rewrite Hm2 in Hin. specialize (Hin (ex_intro _ m (conj eq_refl Hf1))).
  pose proof (manifest_ids_nodup m (inv_stored _ _ Hinv m Hm2)) as Hnd.
  destruct (put_segment_in_place d _ _ Hnd Hin eq_refl) as (l & k & Heq & Hput).
  eapply (inv_spliced s i _ m m' l [_] d k);
    [done|exact Hi|done|done|done|exact Heq|by rewrite Hsegs|done|done| |done| |].
  - unfold EventLogInvariant.rows_of, content. simpl. by rewrite app_nil_r, Hs0.
  - intros e He%list_elem_of_singleton _. by subst e.
  - intros u. rewrite Hf1. apply Hgo. exists m'. split; [done|]. by rewrite Hact, Hf1.
Qed.

Lemma find_group_spec fanout segments group :
  (0 < fanout)%nat -> find_group fanout segments = Some group ->
  exists l k, segments = l ++ group ++ k /\ length group = fanout /\ one_level group = true.
Proof.
  intros Hf. induction segments as [|x rest IH]; [done|]. cbn [find_group].
  destruct (bool_decide _ && _) eqn:Hb.
  - intros [= <-]. apply andb_true_iff in Hb as [Hlen%bool_decide_eq_true Hone].
    exists [], (drop fanout (x :: rest)). rewrite take_drop, length_take. split_and!; [done|lia|done].
  - intros H. destruct (IH H) as (l & k & -> & ? & ?). by exists (x :: l), k.
Qed.

Lemma one_level_sealed group : one_level group = true -> Forall (fun s => sg_sealed s = true) group.
Proof.
  destruct group as [|x l]; [done|]. unfold one_level. rewrite forallb_forall. intros H.
  apply Forall_forall. intros s Hs%list_elem_of_In. apply H in Hs.
  by apply andb_true_iff in Hs as [? _].
Qed.

Lemma step_read (s : log) i fence m fanout :
  inv s -> (1 < fanout)%nat ->
  lg_tasks s !! i = Some (Merging fence) -> lg_manifest s = Some m ->
  step_ok s [] (go_on i (Grouped fence <$> next_hierarchy_group m fanout) s).
Proof.
  intros Hinv Hfan Hi Hm. destruct (next_hierarchy_group m fanout) as [group|] eqn:Hg;
    [|by apply step_end].
  simpl. eapply step_task; [exact Hinv|done..|apply set_task_self|others|].
  intros u [= <-]. eapply joins_like; [done|exact Hi|done|..]; simpl; try done.
  - unfold next_hierarchy_group in Hg. apply find_group_spec in Hg as (l & k & Hs & Hlen & Hone); [|lia].
    pose proof (inv_readable _ _ Hinv) as Hrd.
    pose proof (mt_segments _ (mo_typed _ (inv_stored _ _ Hinv m Hm))) as Hty.
    rewrite Hm in Hrd. simpl in Hrd. rewrite Hs in Hrd, Hty.
    apply Forall_app in Hrd as [_ Hrd], Hty as [_ Hty].
    apply Forall_app in Hrd as [Hrd _], Hty as [Hty _].
    split_and!; [by destruct group; simpl in *; [lia|]| |done].
    apply one_level_sealed in Hone. by apply Forall_and.
  - intros f [= <-]. by eapply inv_held; [done|exact Hi|].
Qed.

Lemma checked_rows_le total segments rows :
  (total <= u64_max)%Z -> checked_rows total segments = Ok rows -> (rows <= u64_max)%Z.
Proof.
  revert total. induction segments as [|s l IH]; intros total Ht H; simpl in *.
  - by injection H as <-.
  - unwrap_ok. by eapply IH.
Qed.

(** A compacted dataset: new, readable, with the rows of all it was made of. *)
Lemma compact_visible_spec uuid datasets st r st' :
  compact_visible_segments root_uri uuid datasets st = Some (r, st') ->
  ln_touched (uri (sg_id r)) st st'
  /\ latest_is root_uri st' (sg_id r) (sg_version r) (concat datasets)
  /\ sg_rows r = Z.of_nat (length (concat datasets)) /\ sg_level r = 0%Z
  /\ (0 < sg_version r <= u64_max)%Z.
Proof.
  unfold compact_visible_segments. intros H.
  apply bind_Some in H as ([v st1] & Hins & H). injection H as <- <-. simpl.
  destruct (ln_create _ _ _ _ _ Hins) as [Hl Hs].
  split_and!; try done; [by eapply ln_insert_touched|by apply (ln_latest_readable _ _ _ Hl)..].
Qed.

Lemma step_merge (s : log) i fence group uuid r st' :
  inv s ->
  lg_tasks s !! i = Some (Grouped fence group) ->
  merge_group root_uri uuid group (lg_lance s) = Some (r, st') ->
  sg_id r ∉ lg_ids s ->
  step_ok s [] (set_task i (Merged fence group r) (set_lance st' (use_id (sg_id r) s))).
Proof.
  intros Hinv Hi Hmg Hfresh.
  pose proof (inv_task _ _ Hinv _ _ Hi) as (Hne & Hsl & Hrd).
  unfold merge_group in Hmg. apply bind_Some in Hmg as (level & Hlev & Hmg).
  apply bind_Some in Hmg as (datasets & Hds & Hmg). apply bind_Some in Hmg as (rows & Hrw & Hmg).
  apply bind_Some in Hmg as ([r0 st1] & Hcv & Hmg). injection Hmg as <- <-. simpl in Hfresh.
  destruct (checked_rows 0 group) as [rows'|] eqn:Hck; [|done]. injection Hrw as ->.
  apply open_pinned_snapshot_inv in Hds as [_ ->].
  destruct (compact_visible_spec _ _ _ _ _ Hcv) as (Ht & Hl & Hrows & Hlv & Hb).
  pose proof (rows_of_length _ _ _ Hrd) as Hlen.
  pose proof (checked_rows_exact _ _ _ Hck) as Hex.
  assert (Hmax : (rows <= u64_max)%Z) by (eapply checked_rows_le, Hck; unfold u64_max; lia).
  fold (rows_of (lg_lance s) group) in Hl, Hrows.
  refine (step_create_go s i _ st1 (Some _) Hinv Hfresh Ht _).
  intros u [= <-]. eapply joins_like; [done|exact Hi|set_solver|..]; simpl; try done.
  - assert (Hg : Forall (readable st1) group) by (by eapply touched_all_readable).
    split; [done|]. split_and!.
    + intros Hin. by apply Hfresh, Hinv.
    + assert (0 <= level <= 255)%Z; [|unfold segment_typed, in_u64; simpl; lia].
      destruct group as [|g0 gs]; [done|]. unfold merged_level in Hlev.
      apply Forall_cons in Hsl as [[_ (_ & _ & Hg0)] _]. case_match; simplify_eq. lia.
    + eapply latest_is_readable; [exact Hl|]. simpl. by rewrite Hrows.
    + rewrite (latest_is_content root_uri _ (at_level r0 level) _ Hl).
      symmetry. eapply touched_rows_of; [exact Ht|by apply readable_scans].
  - intros f [= <-]. by eapply inv_held; [done|exact Hi|].
  - intros x [= <-]. right. set_solver.
Qed.

Lemma step_replace_group (s : log) i fence group r effect answer man' :
  inv s ->
  lg_tasks s !! i = Some (Merged fence group r) ->
  mutates (OpReplaceGroup fence group r) (lg_manifest s) effect answer man' ->
  step_ok s [] (go_on i (if_applied answer (fun _ => Merging fence)) (set_manifest man' s)).
Proof.
  intros Hinv Hi Hmut.
  pose proof (inv_task _ _ Hinv _ _ Hi) as ((Hne & Hsl & Hg) & Hid & Hty & Hrd & Hcont).
  pose proof (inv_held _ _ Hinv _ _ _ Hi eq_refl) as Hheld.
  assert (Hgo : forall man u, held man fence ->
    if_applied answer (fun _ => Merging fence) = Some u ->
    joins s i man (lg_lance s) (lg_ids s) u).
  { intros man u Hh Hu. destruct answer as [[ma|]|]; try done. injection Hu as <-.
    by eapply joins_merging. }
  destruct (mutates_cases _ _ _ _ _ (conj Hne Hty : op_typed (OpReplaceGroup fence group r))
              (inv_stored _ _ Hinv) Hmut)
    as (_ & Hok' & [[-> _]|(m' & -> & -> & Hr)]); [by eapply step_unchanged; eauto|].
  inversion Hr as [| | | |m ex rr p mx Hw Hx Hl Hf1 Hm2 Hm3]. subst ex rr mx.
  symmetry in Hm2. red in Hl.
  destruct (window_position_some _ _ _ Hne Hw) as [Heq _].
  eapply (inv_spliced s i _ m m' (take p (mf_segments m)) group r
            (drop (p + length group) (mf_segments m)));
    [done|exact Hi|done|done|done|exact Heq| |done| |done|done| |].
  - by rewrite Hl.
  - by rewrite Hl.
  - intros d Hd Hsd. rewrite Forall_forall in Hsl. destruct (Hsl d Hd). congruence.
  - intros u. rewrite Hf1. apply Hgo. exists m'. split; [done|]. by rewrite Hl, <- Hf1.
Qed.

(** ** Maintainers *)

Lemma step_pin (s : log) i writer m :
  inv s -> lg_tasks s !! i = Some (Maintaining writer) -> lg_manifest s = Some m ->
  step_ok s [] (set_task i (Pinned writer m) s).
Proof.
  intros Hinv Hi Hm. eapply step_task; [exact Hinv|done..|apply set_task_self|others|].
  intros u [= <-]. eapply joins_like; [done|exact Hi|done|..]; simpl; try done.
  pose proof (inv_readable _ _ Hinv) as Hr. rewrite Hm in *.
  split; [by apply readable_scans|done].
Qed.

Lemma step_take_over (s : log) i writer snapshot effect answer man' :
  inv s ->
  lg_tasks s !! i = Some (Pinned writer snapshot) ->
  mutates (OpActivate None writer) (lg_manifest s) effect answer man' ->
  step_ok s []
    (go_on i (if_applied answer (fun m => Maintainer (mf_active_writer m) snapshot))
       (set_manifest man' s)).
Proof.
  intros Hinv Hi Hmut. pose proof (inv_task _ _ Hinv _ _ Hi) as [Hsc Hpre].
  destruct (activated None writer _ _ _ _ ltac:(done) (inv_stored _ _ Hinv) Hmut)
    as (Ha & Hok' & Hsegs & Hmv & Heff).
  assert (Hinv' : inv (go_on i (if_applied answer (fun m => Maintainer (mf_active_writer m) snapshot))
                         (set_manifest man' s))).
  { apply inv_manifest_go; [done|done| | |intros; apply Hmv|].
    - rewrite Hsegs. apply Hinv.
    - unfold ids_of. rewrite Hsegs. apply Hinv.
    - intros u Hu. destruct answer as [[m|]|]; try done. injection Hu as <-.
      destruct Ha as [?|<-]; [done|]. destruct (Heff m eq_refl) as (-> & Hw & Hlt).
      split; simpl.
      + split; [done|]. by rewrite Hsegs.
      + intros f [= <-]. by exists m.
      + done.
      + rewrite Hw. intros w [= <-]. by eapply writer_of_old.
      + done.
      + intros f [= <-] j u Hne Hj Hc.
        assert (Hh : held (lg_manifest s) (mf_active_writer m)).
        { eapply (inv_held _ _ Hinv j u); [done|]. unfold task_fence. rewrite Hc. by destruct u. }
        destruct Hh as (m0 & Hm0 & Hle). specialize (Hlt eq_refl m0 Hm0).
        destruct Hle as [?|Heq]; [lia|]. rewrite Heq in Hlt. lia. }
  apply step_ok_same; [done|]. apply rows_unchanged; try done.
  - by destruct (if_applied _ _).
  - by destruct (if_applied _ _).
Qed.

Lemma step_compact_all (s : log) i fence snapshot uuid r st' :
  inv s ->
  lg_tasks s !! i = Some (Maintainer fence snapshot) ->
  compact_snapshot root_uri uuid snapshot (lg_lance s) = Some (r, st') ->
  sg_id r ∉ lg_ids s ->
  step_ok s [] (set_task i (Replacing fence r) (set_lance st' (use_id (sg_id r) s))).
Proof.
  intros Hinv Hi Hcs Hfresh. pose proof (inv_task _ _ Hinv _ _ Hi) as [Hsc Hpre].
  unfold compact_snapshot in Hcs. apply bind_Some in Hcs as (datasets & Hds & Hcv).
  apply open_pinned_snapshot_inv in Hds as [_ ->].
  destruct (compact_visible_spec _ _ _ _ _ Hcv) as (Ht & Hl & Hrows & Hlv & Hb).
  fold (rows_of (lg_lance s) (mf_segments snapshot)) in Hl, Hrows.
  refine (step_create_go s i _ st' (Some _) Hinv Hfresh Ht _).
  intros u [= <-]. eapply joins_like; [done|exact Hi|set_solver|..]; simpl; try done.
  - split_and!; [by intros Hin; apply Hfresh, Hinv|done|].
    eexists. split; [exact Hl|]. split; [done|].
    rewrite (touched_rows_of root_uri _ _ _ _ Ht); [done|]. apply readable_scans, Hinv.
  - intros f [= <-]. by eapply inv_held; [done|exact Hi|].
  - intros x [= <-]. right. set_solver.
Qed.

Lemma step_index (s : log) i fence d changed version st' :
  inv s ->
  lg_tasks s !! i = Some (Replacing fence d) ->
  ln_reorganise CreateIndex (uri (sg_id d)) (lg_lance s) = Some (changed, version, st') ->
  step_ok s []
    (set_task i
       (Replacing fence (mkSegment (sg_id d) version (sg_rows d) (sg_level d) (sg_sealed d)))
       (set_lance st' s)).
Proof.
  intros Hinv Hi Hre. pose proof (inv_task _ _ Hinv _ _ Hi) as (Hid & Hlv & rs & [Hl Hs] & Hn & Hp).
  pose proof (ln_reorganise_touched _ _ _ _ _ Hre) as Ht.
  destruct (ln_reorganised _ _ _ _ _ _ _ Hre Hl) as (_ & Hl' & Hs'). rewrite Hs in Hs'.
  refine (step_write_go s i _ _ st' (Some _) Hinv Hi eq_refl Ht _).
  intros u [= <-]. eapply joins_like; [done|exact Hi|done|..]; simpl; auto.
  - split_and!; [done|done|]. exists rs. split; [done|]. split; [done|].
    rewrite (touched_rows_of root_uri _ _ _ _ Ht); [done|]. apply readable_scans, Hinv.
  - intros f [= <-]. by eapply inv_held; [done|exact Hi|].
Qed.

(** The rows of the manifest, counted. *)
Lemma fact_rows_visible (s : log) m :
  inv s -> lg_manifest s = Some m ->
  Z.of_nat (length (rows_of (lg_lance s) (mf_segments m))) = mf_fact_rows m
  /\ (mf_fact_rows m <= u64_max)%Z.
Proof.
  intros Hinv Hm. pose proof (inv_readable _ _ Hinv) as Hr. rewrite Hm in Hr.
  destruct (inv_stored _ _ Hinv m Hm) as [_ [_ _ [_ Hb] _ _] Hx].
  split; [|done]. rewrite <- Hx. by apply rows_of_length.
Qed.

Lemma step_replace_all (s : log) i fence d effect answer man' :
  inv s ->
  lg_tasks s !! i = Some (Replacing fence d) ->
  mutates (OpReplace fence [d]) (lg_manifest s) effect answer man' ->
  step_ok s [] (end_task i (set_manifest man' s)).
Proof.
  intros Hinv Hi Hmut. pose proof (inv_task _ _ Hinv _ _ Hi) as (Hid & Hlv & rs & Hl & Hn & Hp).
  pose proof (inv_held _ _ Hinv _ _ _ Hi eq_refl) as (m & Hm & Hle).
  destruct (fact_rows_visible s m Hinv Hm) as [Hvis Hmax].
  destruct (ln_latest_readable _ _ _ (proj1 Hl)) as [Hb _].
  pose proof (prefix_length _ _ Hp) as Hplen. rewrite Hm in Hplen, Hp. simpl in Hplen, Hp.
  assert (Ht : op_typed (OpReplace fence [d])).
  { constructor; [|constructor]. unfold segment_typed, in_u64. lia. }
  destruct (mutates_cases _ _ _ _ _ Ht (inv_stored _ _ Hinv) Hmut)
    as (_ & Hok' & [[-> _]|(m' & -> & -> & Hr)]);
    [refine (step_unchanged s i _ None Hinv Hi _); by intros u [=]|].
  inversion Hr as [| | |mz ds mx Hx Hrl Hf1 Hm2 Hm3|]. subst ds mx.
  assert (mz = m) as -> by congruence. red in Hrl. subst m'.
  assert (Heq : rs = rows_of (lg_lance s) (mf_segments m)).
  { destruct Hp as [k Hk]. rewrite Hk. rewrite Hk in Hvis. simpl in Hx. rewrite length_app in Hvis.
    destruct k; [by rewrite app_nil_r|simpl in Hvis; lia]. }
  pose proof (latest_is_content root_uri _ d _ Hl) as Hcont.
  destruct (id_of_old _ _ _ _ Hinv Hi eq_refl) as [Hin Hown].
  set (m' := mkManifest _ _ _ _ _) in *.
  assert (Hsame : rows_of (lg_lance s) (mf_segments m') = rows_of (lg_lance s) (mf_segments m)).
  { unfold EventLogInvariant.rows_of at 1. simpl. by rewrite app_nil_r, Hcont. }
  assert (Hinv' : inv (end_task i (set_manifest (Some m') s))).
  { refine (inv_manifest_go s i (Some m') None Hinv Hok' _ _ _ _); [| | |by intros u [=]].
    - constructor; [|constructor]. by eapply latest_is_readable.
    - intros y Hy. unfold ids_of in Hy. simpl in Hy. by apply list_elem_of_singleton in Hy as ->.
    - intros j u Hne Hj. rewrite Hm. split.
      + intros ? [= <-]. by exists m'.
      + simpl in *. by rewrite Hsame.
      + intros x Hx' _ Hxin. unfold ids_of in Hxin. simpl in Hxin.
        apply list_elem_of_singleton in Hxin as ->. by apply (Hown j u).
      + intros f x e Hf (? & [= <-] & <-) _ _ _ _ _. exfalso. apply Hne.
        eapply (appender_alone s j i); [done|exact Hj|exact Hi|done|right]. simpl. by rewrite Hf1.
      + intros f x e Hf (? & [= <-] & <-) _ _ _ _ _. exfalso.
        eapply (inv_apart _ _ Hinv j i); [exact Hj|exact Hi|done|]. simpl. by rewrite Hf1. }
  apply step_ok_same; [done|]. rewrite !log_rows_inv by done. rewrite Hm. exact Hsame.
Qed.

(** ** Every rule *)

Lemma log_step_ok fanout (s : log) ps s' :
  (1 < fanout)%nat -> inv s -> log_step root_uri fanout s ps s' -> step_ok s ps s'.
Proof.
  intros Hfan Hinv Hstep.
  destruct Hstep as
    [i requested auto Hi Hw Hreq|i requested auto uuid id effect answer man' Hi Hm Hid Hfr
    |i requested auto c batch version st' c' Hi Hap Hc|i requested auto c st' Hi Ht
    |i requested auto c version batch effect answer man' Hi Hm
    |i j requested auto c threshold uuid sealed c' Hi Hj Hs Hfr
    |i sealed removed version st' Hi Hre|i sealed st' Hi Ht|i fence d effect answer man' Hi Hm
    |i fence m Hi Hm|i fence group uuid r st' Hi Hmg Hfr|i fence group id st' Hi Hfr Ht
    |i fence group r effect answer man' Hi Hm|i writer Hi Hw|i writer m Hi Hm Hne
    |i writer snapshot effect answer man' Hi Hm|i fence snapshot uuid d st' Hi Hc Hfr
    |i fence snapshot id st' Hi Hfr Ht|i fence d changed version st' Hi Hre
    |i fence d st' Hi Ht|i fence d effect answer man' Hi Hm|i].
  - apply step_start; try done. intros w [= <-]. done.
  - by eapply step_activate.
  - by eapply step_append.
  - by eapply step_append_fails.
  - by eapply step_publish.
  - by eapply step_seal.
  - by eapply step_rewrite.
  - refine (step_write_go s i _ _ st' None Hinv Hi eq_refl Ht _). by intros u [=].
  - by eapply step_seal_publish.
  - by eapply step_read.
  - by eapply step_merge.
  - refine (step_create_go s i _ st' None Hinv Hfr Ht _). by intros u [=].
  - by eapply step_replace_group.
  - apply step_start; try done. intros w [= <-]. done.
  - by eapply step_pin.
  - by eapply step_take_over.
  - by eapply step_compact_all.
  - refine (step_create_go s i _ st' None Hinv Hfr Ht _). by intros u [=].
  - by eapply step_index.
  - refine (step_write_go s i _ _ st' None Hinv Hi eq_refl Ht _). by intros u [=].
  - by eapply step_replace_all.
  - by apply step_end.
Qed.

Lemma log_exec_ok fanout (s : log) ps s' :
  (1 < fanout)%nat -> inv s -> log_exec root_uri fanout s ps s' -> step_ok s ps s'.
Proof.
  intros Hfan Hinv. induction 1 as [s|s ps s1 ps' s2 Hstep Hexec IH].
  - by apply step_ok_same.
  - destruct (log_step_ok _ _ _ _ Hfan Hinv Hstep) as [Hinv1 Hr1].
    destruct (IH Hinv1) as [Hinv2 Hr2]. split; [done|].
    rewrite Hr2, Hr1, map_app, concat_app. by rewrite app_assoc.
Qed.
End Steps.
