(* ===== verification/EventLogTheorems.v ===== *)
(** * The event log is an append-only log

    The theorems on [EventLog]: what readers see is what was published
    ([visible_log_is_the_publications]), what was acknowledged stays where it
    was put ([acknowledged_batches_stay]), the writer that holds the fence is not
    refused ([active_writer_is_not_refused]), pages of a replay are pages of the
    log ([replay_pages_the_log]) and the merging loop ends
    ([hierarchy_compaction_stops]).  [SnapshotStore] is a Lance store for the
    instances, in which a dataset is the list of its versions. *)

From Stdlib Require Import ZArith Lia.
From stdpp Require Import base list strings gmap numbers option pretty.
From S2P Require Import Prelude Durable EventManifest EventLog EventLogInvariant EventLogSteps.

Section Theorems.
Context {St Row : Type} `{!LanceStore St Row}.
Context (root_uri : string) (hierarchy_fanout : nat).
Hypothesis fanout_ok : (1 < hierarchy_fanout)%nat.

Abbreviation log := (@EventLog.log St Row).
Abbreviation exec := (@log_exec St Row _ root_uri hierarchy_fanout).
Abbreviation inv := (@EventLogInvariant.inv St Row _ root_uri).
Abbreviation task_ok := (@EventLogInvariant.task_ok St Row _ root_uri).
Abbreviation readable := (@EventLogInvariant.readable St Row _ root_uri).
Abbreviation rows_of := (@EventLogInvariant.rows_of St Row _ root_uri).

(** ** Starting *)

(** A root with no manifest, no segment and no task. *)
Definition empty_root (st : St) : Prop :=
  forall x, ln_latest (uri root_uri x) st = None.

Definition fresh_log (st : St) : log := mkLog None st ∅ ∅.

Lemma fresh_inv st : empty_root st -> inv (fresh_log st).
Proof.
  intros He. split; simpl; try (intros *; by rewrite lookup_empty).
  - by intros m [=].
  - constructor.
  - by intros x ?%elem_of_nil.
  - intros x _. apply He.
Qed.

Lemma reached st ps s :
  empty_root st -> exec (fresh_log st) ps s ->
  inv s /\ log_rows root_uri s = concat (map pb_batch ps).
Proof.
  intros He%fresh_inv Hexec. exact (log_exec_ok root_uri _ _ _ _ fanout_ok He Hexec).
Qed.

Lemma log_rows_readable (s : log) m :
  inv s -> lg_manifest s = Some m ->
  open_pinned_snapshot root_uri (lg_lance s) (mf_segments m)
  = Some (map (content root_uri (lg_lance s)) (mf_segments m)).
Proof.
  intros Hinv Hm. apply open_pinned_snapshot_scans, readable_scans.
  pose proof (inv_readable _ _ Hinv) as H. by rewrite Hm in H.
Qed.

(** C12: whatever appenders, compactors and maintainers do to one root, in any
    order, with any request lost, answered late or refused and any task dying at
    any point, a reader can open every segment of the manifest and sees exactly
    the batches published so far, each once and in the order of publication.
    Only an appender's publication adds rows; sealing, merging groups and
    rewriting the whole log never change what is seen. *)
Theorem visible_log_is_the_publications st ps s :
  empty_root st -> exec (fresh_log st) ps s ->
  log_rows root_uri s = concat (map pb_batch ps)
  /\ (forall m, lg_manifest s = Some m ->
        visible_rows root_uri (lg_lance s) m = Some (concat (map pb_batch ps))).
Proof.
  intros He Hexec. destruct (reached _ _ _ He Hexec) as [Hinv Hrows]. split; [done|].
  intros m Hm. rewrite <- Hrows. unfold log_rows, visible_rows. rewrite Hm.
  by rewrite (log_rows_readable s m).
Qed.

(** C13: an appender that is told its publication was applied has its batch in
    the log, directly after the rows readers saw before, and there it stays: after
    any further steps of any tasks the rows at that offset are still the batch. *)
Theorem acknowledged_batches_stay st ps s i requested auto c version batch m' man' ps2 s2 :
  empty_root st -> exec (fresh_log st) ps s ->
  lg_tasks s !! i = Some (Appending requested auto c version batch) ->
  manifest_apply (OpPublish (cd_fence c) (open_descriptor c version)) (lg_manifest s)
    = Ok (Applied m', man') ->
  exec (set_task i (Appender requested auto (after_publish c version (Some (Applied m'))))
          (set_manifest man' s)) ps2 s2 ->
  take (length batch) (drop (length (log_rows root_uri s)) (log_rows root_uri s2)) = batch.
Proof.
  intros He Hexec Hi Happ Hexec2. destruct (reached _ _ _ He Hexec) as [Hinv _].
  destruct (step_publish root_uri s i _ _ _ _ _ _ _ _ Hinv Hi (mutates_answered _ _ _ _ Happ))
    as [Hinv1 Hrows1].
  destruct (log_exec_ok root_uri _ _ _ _ fanout_ok Hinv1 Hexec2) as [_ Hrows2].
  rewrite Hrows2, Hrows1. simpl. rewrite app_nil_r, <- app_assoc, drop_app_length.
  apply take_app_length.
Qed.

(** ** The writer that holds the fence *)

Lemma validate_segments_ok seen segments :
  Forall (fun s => sg_id s <> "" /\ (0 < sg_version s)%Z) segments ->
  NoDup (sg_id <$> segments) -> (forall x, x ∈ sg_id <$> segments -> x ∉ seen) ->
  validate_segments seen segments = Ok ().
Proof.
  intros Hall. revert seen. induction Hall as [|s l [Hid Hv] _ IH]; intros seen Hnd Hseen; [done|].
  simpl in *. apply NoDup_cons in Hnd as [Hni Hnd].
  rewrite bool_decide_eq_false_2, (proj2 (Z.ltb_lt _ _)) by done.
  rewrite bool_decide_eq_true_2 by (apply Hseen; by left). apply IH; [done|].
  intros x Hx [->%elem_of_singleton|Hin]%elem_of_union; [done|]. eapply Hseen; [by right|done].
Qed.

Lemma validate_segments_inv seen segments :
  validate_segments seen segments = Ok () ->
  Forall (fun s => sg_id s <> "" /\ (0 < sg_version s)%Z) segments.
Proof.
  revert seen. induction segments as [|s l IH]; intros seen H; [constructor|].
  simpl in H. unwrap_ok. constructor; [|by eapply IH].
  split; [|lia]. by repeat case_bool_decide.
Qed.

(** The descriptor of a written batch is a proper successor of the one the
    manifest shows, if it shows one. *)
Lemma descriptor_advances (s : log) i requested auto c version batch m e :
  inv s -> lg_tasks s !! i = Some (Appending requested auto c version batch) ->
  lg_manifest s = Some m -> mf_active_writer m = cd_fence c ->
  find_segment (cd_segment_id c) (mf_segments m) = Some e ->
  e <> open_descriptor c version /\ check_publication e (open_descriptor c version) = Ok ().
Proof.
  intros Hinv Hi Hm Ha Hfind.
  assert (Hne : e <> open_descriptor c version).
  { intros ->. by eapply (appending_changes root_uri s i). }
  split; [done|]. destruct (find_segment_some _ _ _ Hfind) as [Hin Hid].
  pose proof (inv_task _ _ Hinv _ _ Hi) as (_ & _ & old & _ & Hn & _ & Hold). rewrite Hm in Hold.
  destruct Hold as [[_ [Hni _]]|(v0 & Hlt & _ & Hlast)].
  - destruct Hni. unfold ids_of. simpl. rewrite <- Hid. by apply list_elem_of_fmap_2.
  - assert (Hl := Hlast (ex_intro _ m (conj eq_refl Ha))). apply last_elem in Hl.
    pose proof (manifest_ids_nodup m (inv_stored _ _ Hinv m Hm)) as Hnd.
    pose proof (same_id_same_segment _ _ _ Hnd Hin Hl Hid) as ->.
    rewrite length_app in Hn. unfold check_publication, open_descriptor. simpl.
    rewrite (proj2 (Z.leb_le v0 version)), (proj2 (Z.leb_le _ (cd_rows c))) by lia. simpl.
    by rewrite (proj2 (Z.ltb_lt v0 version)) by lia.
Qed.

Lemma published_validates (s : log) i requested auto c version batch m m' :
  inv s -> lg_tasks s !! i = Some (Appending requested auto c version batch) ->
  lg_manifest s = Some m -> mf_active_writer m = cd_fence c ->
  (mf_fact_rows m + Z.of_nat (length batch) <= u64_max)%Z ->
  mf_active_writer m' = mf_active_writer m ->
  mf_segments m' = put_segment (open_descriptor c version) (mf_segments m) ->
  total_rows m' = (mf_fact_rows m + Z.of_nat (length batch))%Z
  /\ (mf_fact_rows m' = total_rows m' -> validate_manifest m' = Ok ()).
Proof.
  intros Hinv Hi Hm Ha Hmax Hact Hsegs.
  destruct (appended root_uri s i _ _ _ _ _ m m' Hinv Hi Hm Ha Hsegs) as (old & He & Hrd & Hcont).
  pose proof (inv_readable _ _ Hinv) as Hall. rewrite Hm in Hall. simpl in Hall.
  pose proof (ends_with_readable root_uri _ _ _ _ _ He Hall Hrd) as Hall'.
  destruct (fact_rows_visible root_uri s m Hinv Hm) as [Hvis _].
  assert (Hex : exact_rows (mf_segments m') = (mf_fact_rows m + Z.of_nat (length batch))%Z).
  { rewrite <- (rows_of_length root_uri _ _ Hall'), (ends_with_rows root_uri _ _ _ _ _ _ He Hcont).
    rewrite length_app. lia. }
  assert (Htot : total_rows m' = exact_rows (mf_segments m')).
  { rewrite total_rows_mod, Z.mod_small; [done|]. unfold u64_max in *. lia. }
  split; [congruence|]. intros Hfr.
  pose proof (inv_stored _ _ Hinv m Hm) as Hok. pose proof (mo_valid _ Hok) as Hv.
  unfold validate_manifest in *. rewrite Hact. apply bind_ok in Hv as (f & Hf & Hv).
  rewrite Hf. simpl. apply ensure_ok in Hv as [_ Hv].
  rewrite (proj2 (Z.eqb_eq _ _) Hfr).
  destruct (validate_segments_nodup _ _ Hv) as [Hnd _]. apply validate_segments_inv in Hv.
  pose proof (appending_typed root_uri _ _ _ _ _ _ _ Hinv Hi) as (_ & _ & _).
  pose proof (inv_task _ _ Hinv _ _ Hi) as (_ & _ & o & [Hl _] & _ & _ & Hold).
  destruct (ln_latest_readable _ _ _ Hl) as [Hb _].
  destruct He as (l & Hl' & Ho). rewrite Hl'. apply validate_segments_ok.
  - apply Forall_app. split; [|constructor; [|constructor]].
    + destruct old as [d0|]; destruct Ho as [Hs _]; rewrite Hs in Hv; [|done].
      by apply Forall_app in Hv as [? _].
    + simpl. split; [|lia]. destruct old as [d0|]; destruct Ho as [Hs Hid].
      * rewrite Hs in Hv. apply Forall_app in Hv as [_ Hv]. apply Forall_cons in Hv as [[Hd _] _].
        by rewrite Hid in Hd.
      * rewrite Hm in Hold. destruct Hold as [(_ & _ & ?)|(v0 & _ & _ & Hlast)]; [done|].
        exfalso. apply Hid. assert (Hd := Hlast (ex_intro _ m (conj eq_refl Ha))).
        apply last_elem in Hd. by apply (list_elem_of_fmap_2 sg_id) in Hd.
  - destruct old as [d0|]; destruct Ho as [Hs Hid]; rewrite Hs in Hnd; rewrite fmap_app.
    + rewrite fmap_app in Hnd. simpl in *. by rewrite Hid in Hnd.
    + simpl. apply NoDup_app. split_and!; [done| |by apply NoDup_singleton].
      intros x Hx ->%list_elem_of_singleton. apply Hid. by rewrite Hs.
  - intros x _. apply not_elem_of_empty.
Qed.

(** C14: the checks of a publication never turn the rightful writer away.  An
    appender that has written a batch and still holds the active fence is
    answered [Applied], whatever compactors of its own have done in the
    meantime, as long as no counter is at the end of its type. *)
Theorem active_writer_is_not_refused st ps s i requested auto c version batch m :
  empty_root st -> exec (fresh_log st) ps s ->
  lg_tasks s !! i = Some (Appending requested auto c version batch) ->
  lg_manifest s = Some m -> mf_active_writer m = cd_fence c ->
  (mf_revision m < u64_max)%Z -> (mf_fact_version m < u64_max)%Z ->
  (mf_fact_rows m + Z.of_nat (length batch) <= u64_max)%Z ->
  exists m', manifest_apply (OpPublish (cd_fence c) (open_descriptor c version)) (Some m)
             = Ok (Applied m', Some m')
    /\ mf_fact_rows m' = (mf_fact_rows m + Z.of_nat (length batch))%Z.
Proof.
  intros He Hexec Hi Hm Ha Hrev Hfv Hmax. destruct (reached _ _ _ He Hexec) as [Hinv _].
  pose proof (inv_stored _ _ Hinv m Hm) as Hok.
  set (d := open_descriptor c version).
  set (rev := (mf_revision m + 1)%Z).
  set (m0 := mkManifest rev (mf_fact_version m) (mf_fact_rows m) (mf_active_writer m)
               (put_segment d (mf_segments m))).
  destruct (published_validates s i _ _ _ _ _ m m0 Hinv Hi Hm Ha Hmax eq_refl eq_refl) as [Htot Hv0].
  assert (Hinto : exists m', publish_into m d = Ok (MutReplace m' m')
            /\ validate_manifest m' = Ok ()
            /\ mf_fact_rows m' = (mf_fact_rows m + Z.of_nat (length batch))%Z).
  { unfold publish_into, bump_revision, u64_checked_add.
    rewrite (proj2 (Z.leb_le _ _)) by lia. simpl. fold rev m0. rewrite Htot.
    destruct (Z.ltb_spec (mf_fact_rows m) (mf_fact_rows m + Z.of_nat (length batch))) as [Hlt|Hge].
    - rewrite (proj2 (Z.leb_le _ _)) by lia. simpl. eexists. split; [reflexivity|].
      destruct (published_validates s i _ _ _ _ _ m
                  (mkManifest rev (mf_fact_version m + 1)
                     (mf_fact_rows m + Z.of_nat (length batch)) (mf_active_writer m)
                     (put_segment d (mf_segments m))) Hinv Hi Hm Ha Hmax eq_refl eq_refl) as [Ht Hv].
      split; [|done]. apply Hv. by rewrite Ht.
    - exists m0. split; [done|]. split; [apply Hv0; simpl; lia|simpl; lia]. }
  destruct Hinto as (m' & Hp & Hv' & Hr). exists m'. split; [|done].
  unfold manifest_apply, manifest_mutate. simpl. rewrite (mo_valid _ Hok). simpl.
  unfold publish_segment, active_writer_conflict. simpl. rewrite bool_decide_eq_false_2 by (by intros ?).
  destruct (find_segment (cd_segment_id c) (mf_segments m)) as [e|] eqn:Hfind.
  - destruct (descriptor_advances s i _ _ _ _ _ m e Hinv Hi Hm Ha Hfind) as [Hne Hck].
    rewrite bool_decide_eq_false_2 by done. fold d in Hck |- *. rewrite Hck. simpl.
    rewrite Hp. simpl. by rewrite Hv'.
  - fold d. rewrite Hp. simpl. by rewrite Hv'.
Qed.

(** ** Replay *)

Lemma replay_segments_pages (mine : Row -> bool) datasets offset limit :
  replay_segments mine offset limit datasets
  = take limit (drop offset (List.filter mine (concat datasets))).
Proof.
  revert offset limit. induction datasets as [|d rest IH]; intros offset limit.
  { simpl. by rewrite drop_nil, take_nil. }
  simpl. rewrite List.filter_app. destruct (Nat.eqb_spec limit 0) as [->|Hl]; [done|].
  destruct (Nat.leb_spec (length (List.filter mine d)) offset) as [Hle|Hgt].
  - by rewrite IH, drop_app_ge.
  - rewrite drop_app_le, take_app, length_drop by lia. rewrite IH, drop_0.
    destruct (decide (limit <= length (List.filter mine d) - offset)%nat) as [Hs|Hb].
    + rewrite Nat.min_l by lia. by rewrite Nat.sub_diag, (proj2 (Nat.sub_0_le _ _)).
    + rewrite Nat.min_r by lia. f_equal. by rewrite !take_ge by (rewrite length_drop; lia).
Qed.

(** C16: a replay of a reachable root never fails on a segment, and returns the
    page the caller asked for of the session's rows in log order: [offset] rows
    skipped and at most [limit] taken over all segments together, although each
    segment is counted and paged on its own. *)
Theorem replay_pages_the_log st ps s usize_max (mine : Row -> bool) offset limit :
  empty_root st -> exec (fresh_log st) ps s ->
  is_Some (lg_manifest s) -> (length (log_rows root_uri s) <= usize_max)%nat ->
  replay_available root_uri usize_max mine offset limit (lg_manifest s) (lg_lance s)
  = Some (Some (match limit with Some n => take n | None => id end
                  (drop offset (List.filter mine (concat (map pb_batch ps)))))).
Proof.
  intros He Hexec [m Hm] Hmax. destruct (reached _ _ _ He Hexec) as [Hinv Hrows].
  rewrite <- Hrows. unfold replay_available. rewrite Hm. rewrite (log_rows_readable s m) by done.
  simpl. rewrite replay_segments_pages.
  assert (Hc : concat (map (content root_uri (lg_lance s)) (mf_segments m)) = log_rows root_uri s).
  { rewrite log_rows_inv by done. by rewrite Hm. }
  rewrite Hc. do 2 f_equal. destruct limit as [n|]; simpl; [done|].
  apply take_ge. rewrite length_drop. pose proof (List.filter_length_le mine (log_rows root_uri s)).
  lia.
Qed.

(** ** The merging loop *)

Lemma group_replacement_shrinks fence group r m o man' :
  manifest_apply (OpReplaceGroup fence group r) (Some m) = Ok (Applied o, man') ->
  exists m', man' = Some m'
    /\ (length (mf_segments m') + length group = length (mf_segments m) + 1)%nat.
Proof.
  intros H. destruct (manifest_apply_cases _ _ _ _ H)
    as (Hpre & [(m0 & _ & _ & Hu)|[(x & [=] & _)|(m' & [= ->] & -> & Hr & _)]]).
  - by destruct (op_closure_unchanged _ _ _ Hu).
  - exists m'. split; [done|]. simpl in Hpre. apply ensure_ok in Hpre as [Hne _].
    assert (Hg : group <> []) by (by case_bool_decide).
    inversion Hr as [| | | |mz ex rr p mx Hw Hx Hl Hf1 Hm2 Hm3]; subst. red in Hl. subst m'.
    destruct (window_position_some _ _ _ Hg Hw) as [_ Hlen].
    simpl. unfold splice_segments. rewrite !length_app, length_take, length_drop. simpl. lia.
Qed.

(** C17: merging a hierarchy ends.  With a fanout above one the loop needs at
    most one pass more than the manifest has segments, whatever its storage
    calls answer; and when it returns [Ok] no group is left to merge. *)
Theorem hierarchy_compaction_stops fuel fence uuid m (st : St) :
  (length (mf_segments m) < fuel)%nat ->
  exists ok man' st',
    compact_event_hierarchy_locked root_uri fuel hierarchy_fanout fence uuid (Some m) st
    = Some (ok, man', st')
    /\ (ok = true -> exists m', man' = Some m' /\ next_hierarchy_group m' hierarchy_fanout = None).
Proof.
  revert m st. induction fuel as [|n IH]; intros m st Hlen; [lia|]. simpl.
  destruct (next_hierarchy_group m hierarchy_fanout) as [group|] eqn:Hg;
    [|by exists true, (Some m), st; split; [|intros _; exists m]].
  destruct (merge_group root_uri (uuid n) group st) as [[r st']|];
    [|by exists false, (Some m), st].
  destruct (manifest_apply (OpReplaceGroup fence group r) (Some m)) as [[[o|c] man']|e] eqn:Happ;
    [|by exists false, (Some m), st'..].
  destruct (group_replacement_shrinks _ _ _ _ _ _ Happ) as (m' & -> & Hlen').
  apply find_group_spec in Hg as (l & k & _ & Hgl & _); [|lia].
  apply IH. lia.
Qed.
End Theorems.

(** ** A Lance store made of snapshots *)

Section SnapshotStore.
Context {Row : Type}.

(** A dataset is the list of its versions, numbered from one. *)
#[local] Abbreviation snapshots := (gmap string (list (list Row))).

Definition version_of (n : nat) : option Z :=
  if decide (0 < Z.of_nat n <= u64_max)%Z then Some (Z.of_nat n) else None.
Definition sn_versions (u : string) (st : snapshots) : list (list Row) := default [] (st !! u).
Definition sn_latest (u : string) (st : snapshots) : option Z := version_of (length (sn_versions u st)).
Definition sn_scan (u : string) (v : Z) (st : snapshots) : option (list Row) :=
  if decide (0 < v)%Z then sn_versions u st !! Z.to_nat (v - 1) else None.

(** Commit one more version. *)
Definition sn_commit (u : string) (rows : list Row) (st : snapshots) : option (Z * snapshots) :=
  version ← version_of (S (length (sn_versions u st)));
  Some (version, <[u := sn_versions u st ++ [rows]]> st).

Definition sn_insert (u : string) (dataset : option Z) (rows : list Row) (st : snapshots)
  : option (Z * snapshots) :=
  match dataset with
  | None => if decide (sn_versions u st = []) then sn_commit u rows st else None
  | Some v =>
      old ← sn_scan u v st;
      if decide (sn_latest u st = Some v) then sn_commit u (old ++ rows) st else None
  end.

Definition sn_reorganise (k : Reorganisation) (u : string) (st : snapshots)
  : option (bool * Z * snapshots) :=
  version ← sn_latest u st;
  rows ← sn_scan u version st;
  '(version', st') ← sn_commit u rows st;
  Some (true, version', st').

Definition sn_touched (u : string) (st st' : snapshots) : Prop :=
  (forall q v rows, sn_scan q v st = Some rows -> sn_scan q v st' = Some rows)
  /\ (forall q, q <> u -> sn_latest q st' = sn_latest q st)
  /\ (is_Some (sn_latest u st) -> is_Some (sn_latest u st')).

Lemma version_of_some n v :
  version_of n = Some v -> v = Z.of_nat n /\ (0 < v <= u64_max)%Z.
Proof. unfold version_of. case_decide; intros; simplify_eq. lia. Qed.

Lemma sn_commit_spec u rows st v st' :
  sn_commit u rows st = Some (v, st') ->
  sn_touched u st st' /\ sn_latest u st' = Some v /\ sn_scan u v st' = Some rows
  /\ v = Z.of_nat (S (length (sn_versions u st))).
Proof.
  unfold sn_commit. intros (w & Hw & [= <- <-])%bind_Some.
  destruct (version_of_some _ _ Hw) as [Hv Hb].
  assert (Hself : forall l, sn_versions u (<[u:=l]> st) = l)
    by (intros l; unfold sn_versions; by rewrite lookup_insert_eq).
  assert (Hother : forall l q, q <> u -> sn_versions q (<[u:=l]> st) = sn_versions q st)
    by (intros l q Hq; unfold sn_versions; by rewrite lookup_insert_ne).
  assert (Hlatest : sn_latest u (<[u:=sn_versions u st ++ [rows]]> st) = Some w).
  { unfold sn_latest. rewrite Hself, length_app, Nat.add_comm. exact Hw. }
  split_and!; [|done| |done].
  - split_and!.
    + intros q v rs. unfold sn_scan. case_decide; [|done].
      destruct (decide (q = u)) as [->|Hq]; [rewrite Hself|by rewrite Hother].
      apply lookup_app_l_Some.
    + intros q Hq. unfold sn_latest. by rewrite Hother.
    + intros _. by rewrite Hlatest.
  - unfold sn_scan. rewrite decide_True by lia. rewrite Hself, lookup_app_r by lia.
    by replace (Z.to_nat (w - 1) - length (sn_versions u st))%nat with O by lia.
Qed.

#[refine] Instance snapshot_store : LanceStore snapshots Row := {|
  ln_latest := sn_latest;
  ln_scan := sn_scan;
  ln_insert := sn_insert;
  ln_reorganise := sn_reorganise;
  ln_touched := sn_touched;
|}.
Proof.
  - intros u st v [Hv Hb]%version_of_some. split; [done|]. unfold sn_scan.
    rewrite decide_True by lia. apply lookup_lt_is_Some. lia.
  - intros u rows st v st'. simpl. case_decide; [|done].
    by intros (_ & ? & ? & _)%sn_commit_spec.
  - intros u rows st v0 old v st' Hins Hl Hs. simpl in Hins. rewrite Hs in Hins. simpl in Hins.
    rewrite decide_True in Hins by done. destruct (version_of_some _ _ Hl) as [-> _].
    apply sn_commit_spec in Hins as (_ & ? & ? & ->). split_and!; [lia|done|done].
  - intros k u st v0 changed v st' Hre Hl. unfold sn_reorganise in Hre. rewrite Hl in Hre.
    simpl in Hre. apply bind_Some in Hre as (rows & Hs & Hre).
    apply bind_Some in Hre as ([w st1] & Hc & [= <- <- <-]).
    destruct (version_of_some _ _ Hl) as [-> _].
    apply sn_commit_spec in Hc as (_ & ? & ? & ->). split_and!; [lia|done|by rewrite Hs].
  - intros u d rows st v st' Hins. destruct d as [v0|]; simpl in Hins.
    + apply bind_Some in Hins as (old & _ & Hins). case_decide; [|done].
      by apply sn_commit_spec in Hins as [? _].
    + case_decide; [|done]. by apply sn_commit_spec in Hins as [? _].
  - intros k u st r st' Hre. unfold sn_reorganise in Hre.
    apply bind_Some in Hre as (v & _ & Hre). apply bind_Some in Hre as (rows & _ & Hre).
    apply bind_Some in Hre as ([w st1] & Hc & [= <- <-]). by apply sn_commit_spec in Hc as [? _].
  - intros u st st' q v rows [H _]. apply H.
  - intros u st st' q (_ & H & _). apply H.
  - by intros u st st' (_ & _ & H).
Defined.
End SnapshotStore.

(** ** Running a schedule *)

Section Schedule.
Context {St Row : Type} `{!LanceStore St Row}.
Context (root_uri : string) (fanout : nat).

Abbreviation log := (@EventLog.log St Row).

(** One step of a task in a run in which every request is answered. *)
Inductive log_action : Type :=
| DoStart (i : nat) (requested : option EventWriterFence) (auto : string)
| DoActivate (i : nat) (uuid : string)
| DoWrite (i : nat) (batch : list Row)
| DoPublish (i : nat)
| DoSeal (i j : nat) (threshold : Z) (uuid : string)
| DoRewrite (i : nat)
| DoRead (i : nat)
| DoMerge (i : nat) (uuid : string)
| DoMaintain (i : nat) (writer : string)
| DoPin (i : nat).

Definition answered (op : ManifestOp) (man : option EventManifest)
  : option (ManifestWriteOutcome EventManifest) * option EventManifest :=
  match manifest_apply op man with
  | Ok (o, man') => (Some o, man')
  | Err _ => (None, man)
  end.

Lemma answered_mutates op man o man' :
  answered op man = (o, man') -> mutates op man o o man'.
Proof.
  unfold answered. destruct (manifest_apply op man) as [[o' m']|e] eqn:H; intros [= <- <-];
    by constructor.
Qed.

Definition writer_free_b (w : string) (s : log) : bool :=
  forallb (fun jt => negb (bool_decide (task_writer (snd jt) = Some w))) (map_to_list (lg_tasks s)).

Lemma writer_free_b_sound w s : writer_free_b w s = true -> writer_free w s.
Proof.
  unfold writer_free_b. rewrite forallb_forall. intros H j t Hj Hw.
  specialize (H (j, t)). rewrite <- list_elem_of_In, elem_of_map_to_list in H.
  specialize (H Hj). simpl in H. by rewrite bool_decide_eq_true_2 in H.
Qed.

Definition requested_ok (requested : option EventWriterFence) (auto : string) : bool :=
  match requested with
  | None => true
  | Some f => bool_decide (writer_id f = auto) && bool_decide (in_u64 (epoch f))
  end.

Definition log_do (a : log_action) (s : log) : option (list (@publication Row) * log) :=
  match a with
  | DoStart i requested auto =>
      match lg_tasks s !! i with
      | None =>
          if writer_free_b auto s && requested_ok requested auto
          then Some ([], set_task i (Appender requested auto None) s) else None
      | Some _ => None
      end
  | DoActivate i uuid =>
      match lg_tasks s !! i with
      | Some (Appender requested auto None) =>
          let '(answer, man') := answered (OpActivate requested auto) (lg_manifest s) in
          let id := match new_state uuid answer with Some c => cd_segment_id c | None => uuid end in
          if decide (id ∉ lg_ids s) then
            Some ([], set_task i (Appender requested auto (new_state uuid answer))
                        (set_manifest man' (use_id id s)))
          else None
      | Some (Pinned writer snapshot) =>
          let '(answer, man') := answered (OpActivate None writer) (lg_manifest s) in
          Some ([], go_on i (if_applied answer (fun m => Maintainer (mf_active_writer m) snapshot))
                      (set_manifest man' s))
      | _ => None
      end
  | DoWrite i batch =>
      match lg_tasks s !! i with
      | Some (Appender requested auto (Some c)) =>
          match append_rows root_uri c batch (lg_lance s),
                count_appended c (Z.of_nat (length batch)) with
          | Some (version, st'), Some c' =>
              Some ([], set_task i (Appending requested auto c' version batch) (set_lance st' s))
          | _, _ => None
          end
      | _ => None
      end
  | DoPublish i =>
      match lg_tasks s !! i with
      | Some (Appending requested auto c version batch) =>
          let '(answer, man') :=
            answered (OpPublish (cd_fence c) (open_descriptor c version)) (lg_manifest s) in
          Some (publication_of i batch answer answer,
                set_task i (Appender requested auto (after_publish c version answer))
                  (set_manifest man' s))
      | Some (Sealing fence segment) =>
          let '(answer, man') := answered (OpPublish fence segment) (lg_manifest s) in
          Some ([], go_on i (if_applied answer (fun _ => Merging fence)) (set_manifest man' s))
      | Some (Merged fence group r) =>
          let '(answer, man') := answered (OpReplaceGroup fence group r) (lg_manifest s) in
          Some ([], go_on i (if_applied answer (fun _ => Merging fence)) (set_manifest man' s))
      | Some (Replacing fence segment) =>
          let '(answer, man') := answered (OpReplace fence [segment]) (lg_manifest s) in
          Some ([], end_task i (set_manifest man' s))
      | _ => None
      end
  | DoSeal i j threshold uuid =>
      match lg_tasks s !! i, lg_tasks s !! j with
      | Some (Appender requested auto (Some c)), None =>
          '(sealed, c') ← seal_state threshold uuid c;
          if decide (cd_segment_id c' ∉ lg_ids s) then
            Some ([], set_task j (Compacting sealed)
                        (set_task i (Appender requested auto (Some c'))
                           (use_id (cd_segment_id c') s)))
          else None
      | _, _ => None
      end
  | DoRewrite i =>
      match lg_tasks s !! i with
      | Some (Compacting sealed) =>
          '(removed, version, st') ←
            ln_reorganise CompactFiles (uri root_uri (sg_id (se_segment sealed))) (lg_lance s);
          Some ([], set_task i (Sealing (se_fence sealed)
                                  (sealed_descriptor (se_segment sealed) removed version))
                      (set_lance st' s))
      | Some (Replacing fence d) =>
          '(changed, version, st') ←
            ln_reorganise CreateIndex (uri root_uri (sg_id d)) (lg_lance s);
          Some ([], set_task i (Replacing fence (mkSegment (sg_id d) version (sg_rows d)
                                                   (sg_level d) (sg_sealed d))) (set_lance st' s))
      | _ => None
      end
  | DoRead i =>
      match lg_tasks s !! i, lg_manifest s with
      | Some (Merging fence), Some m =>
          Some ([], go_on i (Grouped fence <$> next_hierarchy_group m fanout) s)
      | _, _ => None
      end
  | DoMerge i uuid =>
      match lg_tasks s !! i with
      | Some (Grouped fence group) =>
          '(r, st') ← merge_group root_uri uuid group (lg_lance s);
          if decide (sg_id r ∉ lg_ids s) then
            Some ([], set_task i (Merged fence group r) (set_lance st' (use_id (sg_id r) s)))
          else None
      | Some (Maintainer fence snapshot) =>
          '(d, st') ← compact_snapshot root_uri uuid snapshot (lg_lance s);
          if decide (sg_id d ∉ lg_ids s) then
            Some ([], set_task i (Replacing fence d) (set_lance st' (use_id (sg_id d) s)))
          else None
      | _ => None
      end
  | DoMaintain i writer =>
      match lg_tasks s !! i with
      | None => if writer_free_b writer s then Some ([], set_task i (Maintaining writer) s) else None
      | Some _ => None
      end
  | DoPin i =>
      match lg_tasks s !! i, lg_manifest s with
      | Some (Maintaining writer), Some m =>
          if decide (mf_segments m <> []) then Some ([], set_task i (Pinned writer m) s) else None
      | _, _ => None
      end
  end.

Fixpoint log_do_all (acts : list log_action) (s : log) : option (list (@publication Row) * log) :=
  match acts with
  | [] => Some ([], s)
  | a :: rest =>
      '(ps, s1) ← log_do a s;
      '(ps', s2) ← log_do_all rest s1;
      Some (ps ++ ps', s2)
  end.

(** Take an answered request apart. *)
Ltac answered_as Hm :=
  match goal with
  | H : (let '(_, _) := answered ?op ?man in _) = Some _ |- _ =>
      destruct (answered op man) as [answer man'] eqn:Hm; apply answered_mutates in Hm
  end.

Lemma log_do_sound a s ps s' : log_do a s = Some (ps, s') -> log_step root_uri fanout s ps s'.
Proof.
  destruct a as [i requested auto|i uuid|i batch|i|i j threshold uuid|i|i|i uuid|i writer|i];
    simpl; intros H;
    destruct (lg_tasks s !! i) as [[req au [c|]|req au c v b|sealed|f d|f|f g|f g r|w|w m|f m|f d]|]
      eqn:Hi; try discriminate.
  - destruct (writer_free_b auto s) eqn:Hw; [|done]. simpl in H.
    destruct (requested_ok requested auto) eqn:Hr; [|done]. injection H as <- <-.
    apply appender_starts; [done|by apply writer_free_b_sound|].
    intros f ->. simpl in Hr. apply andb_true_iff in Hr as [H1 H2].
    by apply bool_decide_eq_true in H1, H2.
  - answered_as Hm. case_decide as Hfr; [|done]. injection H as <- <-.
    eapply appender_activates; [done|exact Hm| |exact Hfr]. by intros c ->.
  - answered_as Hm. injection H as <- <-. by eapply maintainer_activates.
  - destruct (append_rows root_uri c batch (lg_lance s)) as [[v st']|] eqn:Hap; [|done].
    destruct (count_appended _ _) as [c'|] eqn:Hc; [|done]. injection H as <- <-.
    by eapply appender_writes.
  - answered_as Hm. injection H as <- <-. by eapply appender_publishes.
  - answered_as Hm. injection H as <- <-. by eapply compactor_publishes.
  - answered_as Hm. injection H as <- <-. by eapply compactor_replaces.
  - answered_as Hm. injection H as <- <-. by eapply maintainer_replaces.
  - destruct (lg_tasks s !! j) eqn:Hj; [done|]. apply bind_Some in H as ([sealed c'] & Hs & H).
    case_decide as Hfr; [|done]. injection H as <- <-. by eapply appender_seals.
  - apply bind_Some in H as ([[removed v] st'] & Hre & H). injection H as <- <-.
    by eapply compactor_rewrites.
  - apply bind_Some in H as ([[changed v] st'] & Hre & H). injection H as <- <-.
    by eapply maintainer_indexes.
  - destruct (lg_manifest s) as [m|] eqn:Hm; [|done]. injection H as <- <-.
    by eapply compactor_reads.
  - apply bind_Some in H as ([r st'] & Hmg & H). case_decide as Hfr; [|done].
    injection H as <- <-. by eapply compactor_merges.
  - apply bind_Some in H as ([r st'] & Hmg & H). case_decide as Hfr; [|done].
    injection H as <- <-. by eapply maintainer_compacts.
  - destruct (writer_free_b writer s) eqn:Hw; [|done]. injection H as <- <-.
    apply maintainer_starts; [done|by apply writer_free_b_sound].
  - destruct (lg_manifest s) as [m|] eqn:Hm; [|done]. case_decide as Hne; [|done].
    injection H as <- <-. by eapply maintainer_pins.
Qed.

Lemma log_do_all_sound acts s ps s' :
  log_do_all acts s = Some (ps, s') -> log_exec root_uri fanout s ps s'.
Proof.
  revert s ps. induction acts as [|a rest IH]; intros s ps H; simpl in H.
  - injection H as <- <-. constructor.
  - apply bind_Some in H as ([ps1 s1] & H1 & H). apply bind_Some in H as ([ps2 s2] & H2 & H).
    injection H as <- <-. econstructor; [by eapply log_do_sound|by apply IH].
Qed.
End Schedule.

(** ** An instance

    One writer appends in micro-batches, its segments are sealed, compacted
    and merged; a maintainer whose snapshot has become too old is refused, the
    next one rewrites the log. *)
Module EventLogExample.
#[local] Existing Instance snapshot_store.

Definition root : string := "/runs/r1/events.lance".
Definition empty : gmap string (list (list nat)) := ∅.
Abbreviation state := (@EventLog.log (gmap string (list (list nat))) nat).

Definition append (i : nat) (batch : list nat) : list (@log_action nat) :=
  [DoWrite i batch; DoPublish i].
Definition compact (i j : nat) (uuid : string) : list (@log_action nat) :=
  [DoSeal i j 2 uuid; DoRewrite j; DoPublish j; DoRead j].
Definition maintain_with (i : nat) (writer uuid : string) : list (@log_action nat) :=
  [DoMaintain i writer; DoPin i; DoActivate i ""; DoMerge i uuid; DoRewrite i; DoPublish i].

(** Up to a batch that is written and not yet published. *)
Definition acts1 : list (@log_action nat) :=
  [DoStart 0 None "auto-a"; DoActivate 0 "u1"] ++ append 0 [1; 2] ++ append 0 [3]
  ++ compact 0 1 "u2" ++ append 0 [4] ++ append 0 [5] ++ compact 0 1 "u3"
  ++ [DoMerge 1 "u4"; DoPublish 1; DoRead 1] ++ [DoWrite 0 [6; 7]].

(** A maintainer pins the log before the batch is published. *)
Definition acts2 : list (@log_action nat) :=
  [DoPublish 0].
Definition acts3 : list (@log_action nat) :=
  [DoMaintain 2 "m1"; DoPin 2] ++ append 0 [8] ++ [DoActivate 2 ""; DoMerge 2 "u5"; DoPublish 2]
  ++ maintain_with 3 "m2" "u6".

Definition run (acts : list (@log_action nat)) (s : state) : list (@publication nat) * state :=
  match log_do_all root 2 acts s with
  | Some r => r
  | None => ([], s)
  end.
Definition ps1 := fst (run acts1 (fresh_log empty)).
Definition s1 := snd (run acts1 (fresh_log empty)).
Definition ps2 := fst (run acts2 s1).
Definition s2 := snd (run acts2 s1).
Definition ps3 := fst (run acts3 s2).
Definition s3 := snd (run acts3 s2).

Example example_rows :
  log_rows root s3 = [1; 2; 3; 4; 5; 6; 7; 8]
  /\ option_map (fun m => map sg_rows (mf_segments m)) (lg_manifest s1) = Some [5%Z]
  /\ option_map (fun m => map sg_rows (mf_segments m)) (lg_manifest s3) = Some [8%Z].
Proof. vm_compute. done. Qed.

Lemma empty_is_empty : empty_root root empty.
Proof. intros x. reflexivity. Qed.

Lemma log_exec1 : log_exec root 2 (fresh_log empty) ps1 s1.
Proof. apply (log_do_all_sound root 2 acts1). vm_compute. reflexivity. Qed.

Definition all : list (@log_action nat) := acts1 ++ acts2 ++ acts3.
Definition ps_all := fst (run all (fresh_log empty)).
Definition s_all := snd (run all (fresh_log empty)).
Lemma log_exec_all : log_exec root 2 (fresh_log empty) ps_all s_all.
Proof. apply (log_do_all_sound root 2 all). vm_compute. reflexivity. Qed.

Definition writing : CachedRawDataset * Z :=
  match lg_tasks s1 !! 0 with
  | Some (Appending _ _ c v _) => (c, v)
  | _ => (mkCached (mkFence 0 "") "" None 0 0 0, 0%Z)
  end.
Definition cached := fst writing.
Definition version := snd writing.
Definition no_manifest : EventManifest := mkManifest 0 0 0 (mkFence 0 "") [].
Definition before := default no_manifest (lg_manifest s1).
Definition after := default no_manifest (lg_manifest s2).

Lemma visible_log_is_the_publications_witness :
  log_rows root s_all = concat (map pb_batch ps_all) /\ concat (map pb_batch ps_all) = [1;2;3;4;5;6;7;8].
Proof.
  split; [|vm_compute; reflexivity].
  apply (visible_log_is_the_publications root 2 ltac:(lia) empty ps_all s_all
           empty_is_empty log_exec_all).
Defined.

Lemma acknowledged_batches_stay_witness :
  take 2 (drop (length (log_rows root s1)) (log_rows root s3)) = [6; 7].
Proof.
  apply (acknowledged_batches_stay root 2 ltac:(lia) empty ps1 s1 0 None "auto-a" cached version
           [6; 7] after (Some after) ps3 s3 empty_is_empty log_exec1).
  - vm_compute. reflexivity.
  - vm_compute. reflexivity.
  - apply (log_do_all_sound root 2 acts3). vm_compute. reflexivity.
Defined.

Lemma active_writer_is_not_refused_witness :
  exists m', manifest_apply (OpPublish (cd_fence cached) (open_descriptor cached version))
               (Some before) = Ok (Applied m', Some m')
    /\ mf_fact_rows m' = (mf_fact_rows before + 2)%Z.
Proof.
  apply (active_writer_is_not_refused root 2 ltac:(lia) empty ps1 s1 0 None "auto-a" cached version
           [6; 7] before empty_is_empty log_exec1); vm_compute; (reflexivity || discriminate).
Defined.

Lemma replay_pages_the_log_witness :
  replay_available root 100 (fun n => Nat.odd n) 1 (Some 2) (lg_manifest s_all) (lg_lance s_all)
  = Some (Some [3; 5]).
Proof.
  rewrite (replay_pages_the_log root 2 ltac:(lia) empty ps_all s_all 100 (fun n => Nat.odd n) 1 (Some 2)
             empty_is_empty log_exec_all).
  - vm_compute. reflexivity.
  - vm_compute. eexists. reflexivity.
  - vm_compute. lia.
Defined.

Lemma hierarchy_compaction_stops_witness :
  exists ok man' st',
    compact_event_hierarchy_locked root 9 2 (mf_active_writer before) (fun _ => "u9") (Some before)
      (lg_lance s1) = Some (ok, man', st')
    /\ (ok = true -> exists m', man' = Some m' /\ next_hierarchy_group m' 2 = None).
Proof. apply (hierarchy_compaction_stops root 2 ltac:(lia)). vm_compute. lia. Defined.

(** An explicit maintenance pass takes the epoch after the active one, so the
    next holder of the Run's lease, whose epoch that is, is turned away. *)
Theorem maintenance_takes_the_next_lease_epoch :
  let first := mkFence 1 "attempt-a" in
  let second := mkFence 2 "attempt-b" in
  exists m1 m2,
    manifest_apply (OpActivate (Some first) "attempt-a") None = Ok (Applied m1, Some m1)
    /\ manifest_apply (OpActivate None "maintenance-1") (Some m1) = Ok (Applied m2, Some m2)
    /\ manifest_apply (OpActivate (Some second) "attempt-b") (Some m2)
       = Ok (Conflicted EpochAlreadyOwned, Some m2).
Proof.
  exists (mkManifest 1 0 0 (mkFence 1 "attempt-a") []),
         (mkManifest 2 0 0 (mkFence 2 "maintenance-1") []).
  split_and!; vm_compute; reflexivity.
Qed.
End EventLogExample.
