(* ===== verification/AppendQueue.v ===== *)
(** * pChronicle's append queue

    [append_queue.rs] lets synchronous capture callbacks hand events to one
    worker thread that appends them to the event log in micro-batches.  Senders
    ([enqueue], [append_durable]) register themselves in [in_flight] between two
    looks at [accepting]; [finish] and a failing worker close the queue by
    clearing [accepting] and waiting for [in_flight] to fall to zero.

    The threads are a step relation [q_step], one atomic operation per step: a
    load, a fetch-and-add, a [try_send], a receive, one append of a batch, the
    notification of its waiters.  An append answers per partition; a partition
    that fails may or may not have reached the log, which is what [EventLog]
    proves of its appender.  The path of a story is a parameter. *)

From Stdlib Require Import ZArith Lia.
From stdpp Require Import base list strings gmap numbers option sorting.
From S2P Require Import Prelude.

#[local] Set Warnings "-clear-no-such-hyp".

(** ** Data *)

Inductive RawEventAppendOutcome : Type :=
| Accepted
| Full
| Unavailable.

(** What a waiter can be told went wrong: the path of its story, the storage
    failure of its partition, that another waiter has that failure, the failure
    of the whole batch, that the worker stopped before its event. *)
Inductive AppendError : Type :=
| PathFailed
| StorageFailed
| PartitionFailed
| BatchFailed
| WorkerStopped.

#[global] Instance RawEventAppendOutcome_eq_dec : EqDecision RawEventAppendOutcome.
Proof. solve_decision. Defined.
#[global] Instance AppendError_eq_dec : EqDecision AppendError.
Proof. solve_decision. Defined.

Definition DEFAULT_RAW_EVENT_QUEUE_CAPACITY : nat := 256.
Definition DEFAULT_RAW_EVENT_BATCH_SIZE : nat := 256.
Definition DEFAULT_RAW_EVENT_COMPACTION_THRESHOLD : nat := 8.
Definition DEFAULT_RAW_EVENT_TARGET_ROWS_PER_FRAGMENT : nat := DEFAULT_RAW_EVENT_COMPACTION_THRESHOLD.
Definition DEFAULT_RAW_EVENT_HIERARCHY_FANOUT : nat := 8.

Section AppendQueue.
Context {Coords Event : Type}.
(** [raw_event_lance_path]. *)
Context (raw_event_lance_path : Coords -> option string).

(** [RawEventAppendJob]; [jb_sender] stands for the completion channel, which
    a job of [append_durable] has. *)
Record RawEventAppendJob : Type := mkJob {
  jb_sender : nat;
  jb_coords : Coords;
  jb_record : Event;
  jb_durable : bool;
}.

Inductive WriterMessage : Type :=
| Append (job : RawEventAppendJob)
| Finish.

Abbreviation answer := (result AppendError ()).

(** ** Handling a batch *)

Definition job_uri (j : RawEventAppendJob) : option string := raw_event_lance_path (jb_coords j).

(** The entries of one partition, in the order of the batch. *)
Definition partition_of (u : string) (jobs : list RawEventAppendJob) : list RawEventAppendJob :=
  filter (fun j => job_uri j = Some u) jobs.

(** [completions[u]]: the waiters of a partition. *)
Definition waiters (jobs : list RawEventAppendJob) : list nat :=
  jb_sender <$> filter (fun j => jb_durable j = true) jobs.

(** [notify_partition_completions]: the first waiter owns the error. *)
Definition notify_partition_completions (waiting : list nat) (r : answer) : list (nat * answer) :=
  match r, waiting with
  | Ok _, _ => (fun i => (i, Ok ())) <$> waiting
  | Err e, first :: rest => (first, Err e) :: ((fun i => (i, Err PartitionFailed)) <$> rest)
  | Err _, [] => []
  end.

(** The jobs whose path cannot be computed are told so at once. *)
Definition path_failures (jobs : list RawEventAppendJob) : list (nat * answer) :=
  (fun i => (i, Err PathFailed)) <$> waiters (filter (fun j => job_uri j = None) jobs).

(** The partitions of a batch, the keys of [completions]. *)
Definition uris (jobs : list RawEventAppendJob) : list string :=
  merge_sort String.le (remove_dups (omap job_uri jobs)).

(** [report.take_outcome(&uri)]; a missing outcome is an error. *)
Definition partition_outcome (report : gmap string answer) (u : string) : answer :=
  default (Err StorageFailed) (report !! u).

Definition notifications (jobs : list RawEventAppendJob) (report : gmap string answer)
  : list (nat * answer) :=
  u ← uris jobs;
  notify_partition_completions (waiters (partition_of u jobs)) (partition_outcome report u).

(** [complete_terminal_append_failure], after the queue is drained: the first
    waiter of all partitions owns the error. *)
Definition terminal_notifications (jobs : list RawEventAppendJob) : list (nat * answer) :=
  notify_partition_completions
    (u ← uris jobs; waiters (partition_of u jobs)) (Err BatchFailed).

Definition deliver (sent : list (nat * answer)) (answers : gmap nat answer) : gmap nat answer :=
  foldr (fun ia m => <[fst ia := snd ia]> m) answers sent.

(** What an append leaves in the log of a partition: [took] says whether the
    rows of the partition became visible. *)
Definition append_log (took : string -> bool) (jobs : list RawEventAppendJob)
    (log : gmap string (list Event)) : gmap string (list Event) :=
  foldr (fun u m =>
           if took u then <[u := default [] (m !! u) ++ (jb_record <$> partition_of u jobs)]> m else m)
    log (uris jobs).

(** ** The threads *)

(** [enqueue], and what [append_durable] does after it. *)
Inductive sender_phase : Type :=
| Checking
| Registering
| Rechecking
| Sending
| Leaving (outcome : RawEventAppendOutcome)
| Waiting
| Returned (r : result AppendError RawEventAppendOutcome).

(** [run_append_worker]; [Failing*] is [complete_terminal_append_failure]. *)
Inductive worker_phase : Type :=
| Receiving
| Batching (jobs : list RawEventAppendJob)
| Batched (jobs : list RawEventAppendJob) (finishing : bool)
| Notifying (jobs : list RawEventAppendJob) (report : gmap string answer) (finishing : bool)
| FailingStop (jobs : list RawEventAppendJob)
| FailingWait (jobs : list RawEventAppendJob)
| FailingDrain (jobs : list RawEventAppendJob)
| Ended (ok : bool).

(** [RawEventAppendWorker::finish]. *)
Inductive finish_phase : Type :=
| NotFinishing
| Closing
| Settling
| Signalling
| Joining (signalled : bool)
| Finished (ok : bool).

(** The shared state, the threads, the log, the completion channels; and, for
    the record, the jobs accepted and the jobs dealt with so far. *)
Record queue : Type := mkQueue {
  q_accepting : bool;
  q_in_flight : nat;
  q_channel : list WriterMessage;
  q_senders : list (RawEventAppendJob * sender_phase);
  q_worker : worker_phase;
  q_finisher : finish_phase;
  q_log : gmap string (list Event);
  q_answers : gmap nat answer;
  q_accepted : list RawEventAppendJob;
  q_handled : list RawEventAppendJob;
}.

Definition set_sender (i : nat) (j : RawEventAppendJob) (p : sender_phase) (s : queue) : queue :=
  mkQueue (q_accepting s) (q_in_flight s) (q_channel s) (<[i := (j, p)]> (q_senders s)) (q_worker s)
    (q_finisher s) (q_log s) (q_answers s) (q_accepted s) (q_handled s).
Definition set_in_flight (n : nat) (s : queue) : queue :=
  mkQueue (q_accepting s) n (q_channel s) (q_senders s) (q_worker s)
    (q_finisher s) (q_log s) (q_answers s) (q_accepted s) (q_handled s).
Definition push (m : WriterMessage) (s : queue) : queue :=
  mkQueue (q_accepting s) (q_in_flight s) (q_channel s ++ [m]) (q_senders s) (q_worker s)
    (q_finisher s) (q_log s) (q_answers s)
    (q_accepted s ++ match m with Append j => [j] | Finish => [] end) (q_handled s).
Definition set_worker (w : worker_phase) (c : list WriterMessage) (s : queue) : queue :=
  mkQueue (q_accepting s) (q_in_flight s) c (q_senders s) w
    (q_finisher s) (q_log s) (q_answers s) (q_accepted s) (q_handled s).
Definition set_finisher (f : finish_phase) (s : queue) : queue :=
  mkQueue (q_accepting s) (q_in_flight s) (q_channel s) (q_senders s) (q_worker s)
    f (q_log s) (q_answers s) (q_accepted s) (q_handled s).
Definition stop_accepting (s : queue) : queue :=
  mkQueue false (q_in_flight s) (q_channel s) (q_senders s) (q_worker s)
    (q_finisher s) (q_log s) (q_answers s) (q_accepted s) (q_handled s).
Definition notify (jobs : list RawEventAppendJob) (sent : list (nat * answer)) (s : queue) : queue :=
  mkQueue (q_accepting s) (q_in_flight s) (q_channel s) (q_senders s) (q_worker s)
    (q_finisher s) (q_log s) (deliver sent (q_answers s)) (q_accepted s) (q_handled s ++ jobs).
Definition tell (sent : list (nat * answer)) (s : queue) : queue := notify [] sent s.
Definition set_log (l : gmap string (list Event)) (s : queue) : queue :=
  mkQueue (q_accepting s) (q_in_flight s) (q_channel s) (q_senders s) (q_worker s)
    (q_finisher s) l (q_answers s) (q_accepted s) (q_handled s).

(** Whether the receiver still exists. *)
Definition rx_open (s : queue) : bool :=
  match q_worker s with Ended _ => false | _ => true end.

(** [try_send] on a channel of the given capacity. *)
Definition try_send_outcome (capacity : nat) (s : queue) : RawEventAppendOutcome :=
  if negb (rx_open s) then Unavailable
  else if (length (q_channel s) <? capacity)%nat then Accepted
  else Full.

(** What [append_durable] returns for an admission outcome. *)
Definition after_admission (j : RawEventAppendJob) (o : RawEventAppendOutcome) : sender_phase :=
  match o with
  | Accepted => if jb_durable j then Waiting else Returned (Ok Accepted)
  | _ => Returned (Ok o)
  end.

Definition answer_of (a : answer) : result AppendError RawEventAppendOutcome :=
  match a with Ok _ => Ok Accepted | Err e => Err e end.

(** A drained message: a waiting job is told that the worker stopped. *)
Definition rejection (m : WriterMessage) : list (nat * answer) :=
  match m with
  | Append j => if jb_durable j then [(jb_sender j, Err WorkerStopped)] else []
  | Finish => []
  end.
Definition jobs_of (ms : list WriterMessage) : list RawEventAppendJob :=
  omap (fun m => match m with Append j => Some j | Finish => None end) ms.

Inductive q_step (capacity : nat) (s : queue) : queue -> Prop :=
| sender_checks i j :
    q_senders s !! i = Some (j, Checking) ->
    q_step capacity s
      (set_sender i j (if q_accepting s then Registering else Returned (Ok Unavailable)) s)
| sender_registers i j :
    q_senders s !! i = Some (j, Registering) ->
    q_step capacity s (set_sender i j Rechecking (set_in_flight (S (q_in_flight s)) s))
| sender_rechecks i j :
    q_senders s !! i = Some (j, Rechecking) ->
    q_step capacity s
      (set_sender i j (if q_accepting s then Sending else Leaving Unavailable) s)
| sender_sends i j :
    q_senders s !! i = Some (j, Sending) ->
    q_step capacity s
      (set_sender i j (Leaving (try_send_outcome capacity s))
         (match try_send_outcome capacity s with Accepted => push (Append j) s | _ => s end))
| sender_leaves i j o :
    q_senders s !! i = Some (j, Leaving o) ->
    q_step capacity s (set_sender i j (after_admission j o) (set_in_flight (pred (q_in_flight s)) s))
| sender_answered i j a :
    q_senders s !! i = Some (j, Waiting) -> q_answers s !! i = Some a ->
    q_step capacity s (set_sender i j (Returned (answer_of a)) s)
| worker_receives j rest :
    q_worker s = Receiving -> q_channel s = Append j :: rest ->
    q_step capacity s (set_worker (Batching [j]) rest s)
| worker_finishes rest :
    q_worker s = Receiving -> q_channel s = Finish :: rest ->
    q_step capacity s (set_worker (Ended true) rest s)
| worker_collects jobs j rest :
    q_worker s = Batching jobs -> (length jobs < DEFAULT_RAW_EVENT_BATCH_SIZE)%nat ->
    q_channel s = Append j :: rest ->
    q_step capacity s (set_worker (Batching (jobs ++ [j])) rest s)
| worker_collects_finish jobs rest :
    q_worker s = Batching jobs -> (length jobs < DEFAULT_RAW_EVENT_BATCH_SIZE)%nat ->
    q_channel s = Finish :: rest ->
    q_step capacity s (set_worker (Batched jobs true) rest s)
| worker_batch_ready jobs :
    q_worker s = Batching jobs ->
    q_channel s = [] \/ length jobs = DEFAULT_RAW_EVENT_BATCH_SIZE ->
    q_step capacity s (set_worker (Batched jobs false) (q_channel s) s)
| worker_appends jobs finishing report took :
    q_worker s = Batched jobs finishing ->
    (forall u, report !! u = Some (Ok ()) -> took u = true) ->
    q_step capacity s
      (set_worker (Notifying jobs report finishing) (q_channel s)
         (set_log (append_log took jobs (q_log s)) (tell (path_failures jobs) s)))
| worker_notifies jobs report finishing :
    q_worker s = Notifying jobs report finishing ->
    q_step capacity s
      (set_worker (if finishing then Ended true else Receiving) (q_channel s)
         (notify jobs (notifications jobs report) s))
(* The appender computes the paths again before it writes anything. *)
| worker_fails jobs finishing :
    q_worker s = Batched jobs finishing -> uris jobs <> [] ->
    q_step capacity s (set_worker (FailingStop jobs) (q_channel s) (tell (path_failures jobs) s))
| worker_stops_accepting jobs :
    q_worker s = FailingStop jobs ->
    q_step capacity s (set_worker (FailingWait jobs) (q_channel s) (stop_accepting s))
| worker_settles jobs :
    q_worker s = FailingWait jobs -> q_in_flight s = O ->
    q_step capacity s (set_worker (FailingDrain jobs) (q_channel s) s)
| worker_drains jobs m rest :
    q_worker s = FailingDrain jobs -> q_channel s = m :: rest ->
    q_step capacity s
      (set_worker (FailingDrain jobs) rest (notify (jobs_of [m]) (rejection m) s))
| worker_gives_up jobs :
    q_worker s = FailingDrain jobs -> q_channel s = [] ->
    q_step capacity s
      (set_worker (Ended false) []
         (notify jobs (terminal_notifications jobs) s))
| finish_closes :
    q_finisher s = Closing ->
    q_step capacity s (set_finisher Settling (stop_accepting s))
| finish_settles :
    q_finisher s = Settling -> q_in_flight s = O ->
    q_step capacity s (set_finisher Signalling s)
| finish_signals :
    q_finisher s = Signalling -> rx_open s = true -> (length (q_channel s) < capacity)%nat ->
    q_step capacity s (set_finisher (Joining true) (push Finish s))
| finish_signal_fails :
    q_finisher s = Signalling -> rx_open s = false ->
    q_step capacity s (set_finisher (Joining false) s)
| finish_joins signalled ok :
    q_finisher s = Joining signalled -> q_worker s = Ended ok ->
    q_step capacity s (set_finisher (Finished (ok && signalled)) s).

(** New calls: of [try_append] or [append_durable], and of [finish]. *)
Inductive q_call (s : queue) : queue -> Prop :=
| sender_starts coords record durable :
    q_call s
      (mkQueue (q_accepting s) (q_in_flight s) (q_channel s)
         (q_senders s ++ [(mkJob (length (q_senders s)) coords record durable, Checking)])
         (q_worker s) (q_finisher s) (q_log s) (q_answers s) (q_accepted s) (q_handled s))
| finish_starts :
    q_finisher s = NotFinishing -> q_call s (set_finisher Closing s).

Definition q_start : queue :=
  mkQueue true 0 [] [] Receiving NotFinishing ∅ ∅ [] [].

(** [None] is a refused option. *)
Definition raw_event_append_queue_with_options
    (capacity compaction_threshold target_rows_per_fragment hierarchy_fanout : nat) : option queue :=
  if (capacity =? 0)%nat then None
  else if negb (1 <? compaction_threshold)%nat then None
  else if negb (0 <? target_rows_per_fragment)%nat then None
  else if negb (1 <? hierarchy_fanout)%nat then None
  else Some q_start.
Definition raw_event_append_queue_with_capacity (capacity : nat) : option queue :=
  raw_event_append_queue_with_options capacity DEFAULT_RAW_EVENT_COMPACTION_THRESHOLD
    DEFAULT_RAW_EVENT_TARGET_ROWS_PER_FRAGMENT DEFAULT_RAW_EVENT_HIERARCHY_FANOUT.
Definition raw_event_append_queue : option queue :=
  raw_event_append_queue_with_capacity DEFAULT_RAW_EVENT_QUEUE_CAPACITY.

Inductive q_reach (capacity : nat) : queue -> Prop :=
| q_reach_start : q_reach capacity q_start
| q_reach_step s s' : q_reach capacity s -> q_step capacity s s' -> q_reach capacity s'
| q_reach_call s s' : q_reach capacity s -> q_call s s' -> q_reach capacity s'.

(** ** What the threads keep true *)

(** Between the two counters' updates of a sender. *)
Definition registered (p : sender_phase) : nat :=
  match p with Rechecking | Sending | Leaving _ => 1 | _ => 0 end.

(** A sender whose job went into the channel. *)
Definition admitted (p : sender_phase) : Prop :=
  match p with
  | Leaving Accepted | Waiting | Returned (Ok Accepted) | Returned (Err _) => True
  | _ => False
  end.

Definition in_hand (w : worker_phase) : list RawEventAppendJob :=
  match w with
  | Batching jobs | Batched jobs _ | Notifying jobs _ _
  | FailingStop jobs | FailingWait jobs | FailingDrain jobs => jobs
  | Receiving | Ended _ => []
  end.

(** The worker has seen [Finish]. *)
Definition told_to_finish (w : worker_phase) : bool :=
  match w with
  | Batched _ finishing | Notifying _ _ finishing => finishing
  | Ended ok => ok
  | _ => false
  end.

(** The worker is on its failure path, or gone. *)
Definition failing (w : worker_phase) : bool :=
  match w with
  | FailingStop _ | FailingWait _ | FailingDrain _ | Ended _ => true
  | _ => false
  end.

(** Jobs are dealt with in the order of their admission until a failing
    worker rejects the waiting ones before those of its batch. *)
Definition in_order (w : worker_phase) : bool :=
  match w with FailingDrain _ | Ended false => false | _ => true end.

Definition signalled (f : finish_phase) : bool :=
  match f with Joining true | Finished _ => true | _ => false end.

(** Somebody has cleared [accepting]. *)
Definition closing (s : queue) : bool :=
  match q_finisher s with NotFinishing | Closing => false | _ => true end
  || match q_worker s with FailingWait _ | FailingDrain _ | Ended _ => true | _ => false end.

(** Somebody has seen [in_flight] at zero after that. *)
Definition settled (s : queue) : bool :=
  match q_finisher s with Signalling | Joining _ | Finished _ => true | _ => false end
  || match q_worker s with FailingDrain _ | Ended _ => true | _ => false end.

Definition sends (s : queue) : Prop := exists i j, q_senders s !! i = Some (j, Sending).

(** A job told [Ok] is in the log of its story. *)
Definition logged (s : queue) (j : RawEventAppendJob) : Prop :=
  exists u, job_uri j = Some u /\ jb_record j ∈ default [] (q_log s !! u).

(** Reports the worker holds are about rows in the log. *)
Definition report_ok (s : queue) : Prop :=
  match q_worker s with
  | Notifying jobs report _ =>
      forall u j, report !! u = Some (Ok ()) -> j ∈ jobs -> job_uri j = Some u -> logged s j
  | _ => True
  end.

(** Jobs without a path have been told so when the batch is appended. *)
Definition told_of_path (s : queue) : Prop :=
  match q_worker s with
  | Notifying jobs _ _ | FailingStop jobs | FailingWait jobs | FailingDrain jobs =>
      forall j, j ∈ jobs -> job_uri j = None -> jb_durable j = true ->
        is_Some (q_answers s !! jb_sender j)
  | _ => True
  end.

Record q_inv (capacity : nat) (s : queue) : Prop := {
  qi_index : forall i j p, q_senders s !! i = Some (j, p) -> jb_sender j = i;
  qi_count : q_in_flight s = sum_list_with (fun jp => registered (snd jp)) (q_senders s);
  qi_all : q_accepted s ≡ₚ q_handled s ++ in_hand (q_worker s) ++ jobs_of (q_channel s);
  qi_fifo : in_order (q_worker s) = true ->
    q_accepted s = q_handled s ++ in_hand (q_worker s) ++ jobs_of (q_channel s);
  qi_admitted : forall i j p, q_senders s !! i = Some (j, p) -> admitted p -> j ∈ q_accepted s;
  qi_known : forall j, j ∈ q_accepted s ->
    exists p, q_senders s !! jb_sender j = Some (j, p) /\ admitted p;
  qi_answered : forall j, j ∈ q_handled s -> jb_durable j = true ->
    is_Some (q_answers s !! jb_sender j);
  qi_ok : forall i, q_answers s !! i = Some (Ok ()) ->
    exists j p, q_senders s !! i = Some (j, p) /\ logged s j;
  qi_returned : forall i j, q_senders s !! i = Some (j, Returned (Ok Accepted)) ->
    jb_durable j = true -> logged s j;
  qi_report : report_ok s;
  qi_told : told_of_path s;
  qi_closing : closing s = true -> q_accepting s = false;
  qi_settled : settled s = true -> ~ sends s;
  qi_channel : exists js, q_channel s = (Append <$> js)
    \/ (q_channel s = (Append <$> js) ++ [Finish] /\ signalled (q_finisher s) = true);
  qi_finish : told_to_finish (q_worker s) = true ->
    q_channel s = [] /\ signalled (q_finisher s) = true;
  qi_ended : forall ok, q_worker s = Ended ok -> q_channel s = [];
  qi_batch : (length (in_hand (q_worker s)) <= DEFAULT_RAW_EVENT_BATCH_SIZE)%nat;
  qi_capacity : (length (q_channel s) <= capacity)%nat;
  qi_signal : q_finisher s = Joining true -> failing (q_worker s) = false ->
    told_to_finish (q_worker s) = false -> Finish ∈ q_channel s;
  qi_joining : q_finisher s = Joining false -> exists ok, q_worker s = Ended ok;
  qi_finished : forall ok, q_finisher s = Finished ok -> exists ok', q_worker s = Ended ok';
  qi_waiting : forall i j, q_senders s !! i = Some (j, Waiting) -> jb_durable j = true;
  qi_success : q_finisher s = Finished true -> q_worker s = Ended true;
}.

Lemma q_inv_start capacity : q_inv capacity q_start.
Proof.
  split; simpl; try done; try lia; try (by intros ? ?%elem_of_nil);
    try (intros *; by rewrite ?lookup_nil, ?lookup_empty).
  exists []. by left.
Qed.

Lemma sum_insert {A} (f : A -> nat) (l : list A) i a b :
  l !! i = Some a ->
  (sum_list_with f (<[i:=b]> l) + f a = sum_list_with f l + f b)%nat.
Proof.
  revert i. induction l as [|x l IH]; intros [|i] H; simplify_eq/=; [lia|].
  specialize (IH _ H). lia.
Qed.

(** ** Senders *)

Lemma sender_lookup (l : list (RawEventAppendJob * sender_phase)) i j p p' k jk pk :
  l !! i = Some (j, p) -> <[i:=(j, p')]> l !! k = Some (jk, pk) ->
  (k = i /\ jk = j /\ pk = p') \/ (k <> i /\ l !! k = Some (jk, pk)).
Proof.
  intros Hi Hk. destruct (decide (k = i)) as [->|Hne].
  - rewrite list_lookup_insert_eq in Hk by (by eapply lookup_lt_Some). by simplify_eq; left.
  - rewrite list_lookup_insert_ne in Hk by done. by right.
Qed.

(** A sender moves on without sending. *)
Lemma q_sender_moves capacity s i j p p' n :
  q_inv capacity s -> q_senders s !! i = Some (j, p) ->
  (n + registered p = q_in_flight s + registered p')%nat ->
  (admitted p' <-> admitted p) ->
  (p' = Sending -> q_accepting s = true) ->
  (p' = Returned (Ok Accepted) -> jb_durable j = true -> logged s j) ->
  (p' = Waiting -> jb_durable j = true) ->
  q_inv capacity (set_sender i j p' (set_in_flight n s)).
Proof.
  intros [Hix Hct Hall Hff Had Hkn Han Hok Hrt Hrp Htl Hcl Hst Hch Hfi Hen Hba Hca Hsg Hjo Hfd Hwt Hsu] Hi Hn Hadm
    Hacc Hret Hdur.
  pose proof (sum_insert (fun jp => registered (snd jp)) _ _ _ (j, p') Hi) as Hsum. simpl in Hsum.
  assert (Hkeep : forall k, (exists jk pk, q_senders s !! k = Some (jk, pk) /\ logged s jk) ->
    exists jk pk, <[i:=(j, p')]> (q_senders s) !! k = Some (jk, pk) /\ logged s jk).
  { intros k (jk & pk & Hk & Hl). destruct (decide (k = i)) as [->|Hne].
    - simplify_eq. exists j, p'. split; [|done]. apply list_lookup_insert_eq. by eapply lookup_lt_Some.
    - exists jk, pk. by rewrite list_lookup_insert_ne. }
  split; simpl; try done.
  - intros k jk pk [(-> & -> & _)|[_ Hk]]%(sender_lookup _ _ _ _ _ _ _ _ Hi); eauto.
  - lia.
  - intros k jk pk [(-> & -> & ->)|[_ Hk]]%(sender_lookup _ _ _ _ _ _ _ _ Hi) Ha; eauto. apply (Had i j p); tauto.
  - intros jk Hjk. destruct (Hkn jk Hjk) as (pk & Hk & Hpk).
    destruct (decide (jb_sender jk = i)) as [<-|Hne].
    + simplify_eq. exists p'. split; [|tauto]. apply list_lookup_insert_eq. by eapply lookup_lt_Some.
    + exists pk. by rewrite list_lookup_insert_ne.
  - intros k Hk. by apply Hkeep, Hok.
  - intros k jk [(-> & -> & <-)|[_ Hk]]%(sender_lookup _ _ _ _ _ _ _ _ Hi) Hd; eauto.
  - intros Hs (k & jk & Hk). destruct (sender_lookup _ _ _ _ _ _ _ _ Hi Hk) as [(-> & -> & <-)|[_ Hk']].
    + assert (closing s = true) as Hc; [|by specialize (Hacc eq_refl); rewrite (Hcl Hc) in Hacc].
      unfold settled, closing in *. simpl in Hs. by destruct (q_finisher s), (q_worker s).
    + apply Hst; [done|]. by exists k, jk.
  - intros k jk [(-> & -> & <-)|[_ Hk]]%(sender_lookup _ _ _ _ _ _ _ _ Hi); eauto.
Qed.

Lemma set_in_flight_same (s : queue) : set_in_flight (q_in_flight s) s = s.
Proof. by destruct s. Qed.

Lemma q_sender_steps capacity s i j p p' :
  q_inv capacity s -> q_senders s !! i = Some (j, p) ->
  registered p = registered p' ->
  (admitted p' <-> admitted p) ->
  (p' = Sending -> q_accepting s = true) ->
  (p' = Returned (Ok Accepted) -> jb_durable j = true -> logged s j) ->
  (p' = Waiting -> jb_durable j = true) ->
  q_inv capacity (set_sender i j p' s).
Proof.
  intros Hinv Hi Hr Ha Hs Hl Hw.
  pose proof (q_sender_moves capacity s i j p p' (q_in_flight s) Hinv Hi) as H.
  rewrite set_in_flight_same in H. apply H; [lia|done..].
Qed.

(** A sender's job goes into the channel. *)
Lemma q_sender_pushes capacity s i j :
  q_inv capacity s -> q_senders s !! i = Some (j, Sending) ->
  (length (q_channel s) < capacity)%nat -> rx_open s = true ->
  q_inv capacity (set_sender i j (Leaving Accepted) (push (Append j) s)).
Proof.
  intros [Hix Hct Hall Hff Had Hkn Han Hok Hrt Hrp Htl Hcl Hst Hch Hfi Hen Hba Hca Hsg Hjo Hfd Hwt Hsu] Hi Hlen Hrx.
  assert (Hns : settled s = false).
  { destruct (settled s) eqn:E; [|done]. destruct (Hst eq_refl). by exists i, j. }
  assert (Hsig : signalled (q_finisher s) = false).
  { unfold settled in Hns. by destruct (q_finisher s). }
  pose proof (sum_insert (fun jp => registered (snd jp)) _ _ _ (j, Leaving Accepted) Hi) as Hsum.
  simpl in Hsum.
  assert (Hself : <[i:=(j, Leaving Accepted)]> (q_senders s) !! i = Some (j, Leaving Accepted)).
  { apply list_lookup_insert_eq. by eapply lookup_lt_Some. }
  split; simpl; try done.
  - intros k jk pk [(-> & -> & _)|[_ Hk]]%(sender_lookup _ _ _ _ _ _ _ _ Hi); eauto.
  - lia.
  - unfold jobs_of. rewrite omap_app, Hall. simpl. by rewrite !app_assoc.
  - intros Hor. unfold jobs_of. rewrite omap_app, (Hff Hor). simpl. by rewrite !app_assoc.
  - intros k jk pk [(-> & -> & ->)|[_ Hk]]%(sender_lookup _ _ _ _ _ _ _ _ Hi) Ha;
      apply elem_of_app; [right; by left|left; eauto].
  - intros jk [Hjk|Hjk]%elem_of_app.
    + destruct (Hkn jk Hjk) as (pk & Hk & Hpk). exists pk. split; [|done].
      rewrite list_lookup_insert_ne; [done|]. intros ->. by simplify_eq.
    + apply list_elem_of_singleton in Hjk as ->. exists (Leaving Accepted). by rewrite (Hix _ _ _ Hi).
  - intros k Hk. destruct (Hok k Hk) as (jk & pk & Hl & Hlg).
    destruct (decide (k = i)) as [->|Hne]; [simplify_eq; eauto|].
    exists jk, pk. by rewrite list_lookup_insert_ne.
  - intros k jk [(-> & -> & [=])|[_ Hk]]%(sender_lookup _ _ _ _ _ _ _ _ Hi) Hd; eauto.
  - unfold settled in *. simpl in *. congruence.
  - destruct Hch as (js & [Hc|[_ Hs]]); [|congruence].
    exists (js ++ [j]). left. rewrite Hc, fmap_app. done.
  - intros Ht. destruct (Hfi Ht). congruence.
  - intros ok Hw. unfold rx_open in Hrx. by rewrite Hw in Hrx.
  - rewrite length_app. simpl. lia.
  - intros Hf. rewrite Hf in Hsig. done.
  - intros k jk [(_ & _ & [=])|[_ Hk]]%(sender_lookup _ _ _ _ _ _ _ _ Hi); eauto.
Qed.

Lemma try_send_cases capacity s :
  (try_send_outcome capacity s = Accepted
   /\ rx_open s = true /\ (length (q_channel s) < capacity)%nat)
  \/ (try_send_outcome capacity s <> Accepted).
Proof.
  unfold try_send_outcome. destruct (rx_open s); simpl; [|by right].
  destruct (Nat.ltb_spec (length (q_channel s)) capacity); [by left|by right].
Qed.

(** ** The worker *)

(** Open the invariant at the worker's phase. *)
Ltac at_worker Hinv Hw :=
  destruct Hinv as [Hix Hct Hall Hff Had Hkn Han Hok Hrt Hrp Htl Hcl Hst Hch Hfi Hen Hba Hca Hsg Hjo Hfd Hwt Hsu];
  unfold report_ok, told_of_path, closing, settled in *; rewrite Hw in *; simpl in *;
  split; unfold report_ok, told_of_path, closing, settled; simpl in *; try done; try lia;
  try (intros Hf; by destruct (Hjo Hf)); try (intros Hf; by specialize (Hsu Hf));
  try (intros ok Hf; by destruct (Hfd ok Hf)).

Lemma channel_head_append (c : list WriterMessage) j rest (b : bool) :
  c = Append j :: rest ->
  (exists js, c = (Append <$> js) \/ (c = (Append <$> js) ++ [Finish] /\ b = true)) ->
  exists js, rest = (Append <$> js) \/ (rest = (Append <$> js) ++ [Finish] /\ b = true).
Proof.
  intros -> (js & [H|[H Hb]]); destruct js as [|j' js]; simplify_eq/=; exists js; auto.
Qed.

Lemma channel_head_finish (c : list WriterMessage) rest (b : bool) :
  c = Finish :: rest ->
  (exists js, c = (Append <$> js) \/ (c = (Append <$> js) ++ [Finish] /\ b = true)) ->
  rest = [] /\ b = true.
Proof.
  intros -> (js & [H|[H Hb]]); destruct js as [|j' js]; simplify_eq/=; auto.
Qed.

(** *** Delivering answers *)

Lemma deliver_keeps sent (m : gmap nat answer) i :
  is_Some (m !! i) -> is_Some (deliver sent m !! i).
Proof.
  intros H. induction sent as [|[k a] sent IH]; simpl; [done|].
  destruct (decide (k = i)) as [->|Hne]; [by rewrite lookup_insert_eq|by rewrite lookup_insert_ne].
Qed.

Lemma deliver_reaches sent (m : gmap nat answer) i :
  i ∈ fst <$> sent -> is_Some (deliver sent m !! i).
Proof.
  induction sent as [|[k a] sent IH]; simpl; [by intros ?%elem_of_nil|].
  destruct (decide (k = i)) as [->|Hne]; [by rewrite lookup_insert_eq|].
  rewrite lookup_insert_ne by done. intros [->|?]%elem_of_cons; [done|by apply IH].
Qed.

Lemma deliver_ok sent (m : gmap nat answer) i :
  deliver sent m !! i = Some (Ok ()) -> m !! i = Some (Ok ()) \/ (i, Ok ()) ∈ sent.
Proof.
  induction sent as [|[k a] sent IH]; simpl; [by left|].
  destruct (decide (k = i)) as [->|Hne].
  - rewrite lookup_insert_eq. intros [= ->]. right. by left.
  - rewrite lookup_insert_ne by done. intros [?|?]%IH; [by left|right; by right].
Qed.

Lemma waiters_elem (jobs : list RawEventAppendJob) i :
  i ∈ waiters jobs <-> exists j, j ∈ jobs /\ jb_durable j = true /\ jb_sender j = i.
Proof.
  unfold waiters. rewrite list_elem_of_fmap. setoid_rewrite list_elem_of_filter. naive_solver.
Qed.

Lemma partition_elem u (jobs : list RawEventAppendJob) j :
  j ∈ partition_of u jobs <-> job_uri j = Some u /\ j ∈ jobs.
Proof. unfold partition_of. by rewrite list_elem_of_filter. Qed.

Lemma uris_elem (jobs : list RawEventAppendJob) j u :
  j ∈ jobs -> job_uri j = Some u -> u ∈ uris jobs.
Proof.
  intros Hj Hu. unfold uris.
  rewrite (elem_of_Permutation_proper u _ _ (merge_sort_Permutation String.le _)).
  apply elem_of_remove_dups, list_elem_of_omap. eauto.
Qed.

Lemma uris_nodup (jobs : list RawEventAppendJob) : NoDup (uris jobs).
Proof. unfold uris. rewrite (merge_sort_Permutation String.le _). apply NoDup_remove_dups. Qed.

Lemma notified_all waiting r : fst <$> notify_partition_completions waiting r = waiting.
Proof.
  destruct r as [[]|e]; simpl.
  - rewrite <- list_fmap_compose. by apply list_fmap_id.
  - destruct waiting as [|w rest]; [done|]. simpl. f_equal.
    rewrite <- list_fmap_compose. by apply list_fmap_id.
Qed.

Lemma notified_ok waiting r i :
  (i, Ok ()) ∈ notify_partition_completions waiting r -> r = Ok () /\ i ∈ waiting.
Proof.
  destruct r as [[]|e]; simpl.
  - intros (k & [= ->] & ?)%list_elem_of_fmap. done.
  - destruct waiting as [|w rest]; [by intros ?%elem_of_nil|].
    intros [[=]|(k & [=] & _)%list_elem_of_fmap]%elem_of_cons.
Qed.

Lemma notifications_reach jobs report j u :
  j ∈ jobs -> job_uri j = Some u -> jb_durable j = true ->
  jb_sender j ∈ fst <$> notifications jobs report.
Proof.
  intros Hj Hu Hd. unfold notifications. apply list_elem_of_fmap.
  assert (Hw : jb_sender j ∈ fst <$> notify_partition_completions
                 (waiters (partition_of u jobs)) (partition_outcome report u)).
  { rewrite notified_all. apply waiters_elem. exists j. by rewrite partition_elem. }
  apply list_elem_of_fmap in Hw as (x & -> & Hx). exists x. split; [done|].
  apply list_elem_of_bind. exists u. split; [done|by eapply uris_elem].
Qed.

Lemma notifications_ok jobs report i :
  (i, Ok ()) ∈ notifications jobs report ->
  exists j u, j ∈ jobs /\ jb_sender j = i /\ job_uri j = Some u /\ report !! u = Some (Ok ()).
Proof.
  unfold notifications. intros (u & Hn & _)%list_elem_of_bind.
  apply notified_ok in Hn as [Hr Hw]. apply waiters_elem in Hw as (j & Hj & _ & Hi).
  apply partition_elem in Hj as [Hu Hj]. exists j, u. split_and!; try done.
  unfold partition_outcome in Hr. destruct (report !! u) as [[[]|]|]; done.
Qed.

Lemma terminal_reach jobs j u :
  j ∈ jobs -> job_uri j = Some u -> jb_durable j = true ->
  jb_sender j ∈ fst <$> terminal_notifications jobs.
Proof.
  intros Hj Hu Hd. unfold terminal_notifications. rewrite notified_all.
  apply list_elem_of_bind. exists u. split; [|by eapply uris_elem].
  apply waiters_elem. exists j. by rewrite partition_elem.
Qed.

Lemma terminal_not_ok jobs i : (i, Ok ()) ∉ terminal_notifications jobs.
Proof. unfold terminal_notifications. by intros [? _]%notified_ok. Qed.

Lemma path_failures_reach jobs j :
  j ∈ jobs -> job_uri j = None -> jb_durable j = true -> jb_sender j ∈ fst <$> path_failures jobs.
Proof.
  intros Hj Hu Hd. unfold path_failures. rewrite <- list_fmap_compose. simpl.
  apply list_elem_of_fmap. exists (jb_sender j). split; [done|].
  apply waiters_elem. exists j. by rewrite list_elem_of_filter.
Qed.

Lemma path_failures_not_ok jobs i : (i, Ok ()) ∉ path_failures jobs.
Proof. unfold path_failures. by intros (k & [=] & _)%list_elem_of_fmap. Qed.

(** *** The log of an append *)

Lemma append_log_keeps took jobs (log : gmap string (list Event)) u e :
  e ∈ default [] (log !! u) -> e ∈ default [] (append_log took jobs log !! u).
Proof.
  intros H. unfold append_log. induction (uris jobs) as [|v us IH]; simpl; [done|].
  destruct (took v); [|done]. destruct (decide (v = u)) as [->|Hne].
  - rewrite lookup_insert_eq. simpl. apply elem_of_app. by left.
  - by rewrite lookup_insert_ne.
Qed.

Lemma append_log_adds took jobs (log : gmap string (list Event)) u j :
  took u = true -> j ∈ jobs -> job_uri j = Some u ->
  jb_record j ∈ default [] (append_log took jobs log !! u).
Proof.
  intros Ht Hj Hu. pose proof (uris_elem jobs j u Hj Hu) as Hin. unfold append_log.
  induction (uris jobs) as [|v us IH]; simpl; [by apply elem_of_nil in Hin|].
  destruct (decide (v = u)) as [->|Hne].
  - rewrite Ht, lookup_insert_eq. simpl. apply elem_of_app. right.
    apply list_elem_of_fmap. exists j. by rewrite partition_elem.
  - apply elem_of_cons in Hin as [->|Hin]; [done|].
    destruct (took v); [rewrite lookup_insert_ne by done|]; by apply IH.
Qed.

(** *** Its steps *)

Lemma finish_in_rest (m : WriterMessage) rest :
  m <> Finish -> Finish ∈ m :: rest -> Finish ∈ rest.
Proof. by intros Hne [<-|?]%elem_of_cons. Qed.

Lemma q_worker_receives capacity s j rest :
  q_inv capacity s -> q_worker s = Receiving -> q_channel s = Append j :: rest ->
  q_inv capacity (set_worker (Batching [j]) rest s).
Proof.
  intros Hinv Hw Hc. at_worker Hinv Hw.
  - by rewrite Hall, Hc.
  - intros _. by rewrite (Hff eq_refl), Hc.
  - by eapply channel_head_append.
  - unfold DEFAULT_RAW_EVENT_BATCH_SIZE. lia.
  - rewrite Hc in Hca. simpl in Hca. lia.
  - intros Hf _ _. rewrite Hc in Hsg. apply (finish_in_rest (Append j)); [done|by apply Hsg].
Qed.

Lemma q_worker_finishes capacity s rest :
  q_inv capacity s -> q_worker s = Receiving -> q_channel s = Finish :: rest ->
  q_inv capacity (set_worker (Ended true) rest s).
Proof.
  intros Hinv Hw Hc. destruct (channel_head_finish _ _ _ Hc (qi_channel _ _ Hinv)) as [-> Hs].
  at_worker Hinv Hw.
  - by rewrite Hall, Hc.
  - intros _. by rewrite (Hff eq_refl), Hc.
  - intros _. apply Hcl. by destruct (q_finisher s).
  - intros _. apply Hst. by destruct (q_finisher s).
  - exists []. by left.
Qed.

Lemma q_worker_collects capacity s jobs j rest :
  q_inv capacity s -> q_worker s = Batching jobs ->
  (length jobs < DEFAULT_RAW_EVENT_BATCH_SIZE)%nat -> q_channel s = Append j :: rest ->
  q_inv capacity (set_worker (Batching (jobs ++ [j])) rest s).
Proof.
  intros Hinv Hw Hlen Hc. at_worker Hinv Hw.
  - rewrite Hall, Hc. simpl. by rewrite <- !app_assoc.
  - intros _. rewrite (Hff eq_refl), Hc. simpl. by rewrite <- !app_assoc.
  - by eapply channel_head_append.
  - rewrite length_app. simpl. lia.
  - rewrite Hc in Hca. simpl in Hca. lia.
  - intros Hf _ _. rewrite Hc in Hsg. apply (finish_in_rest (Append j)); [done|by apply Hsg].
Qed.

Lemma q_worker_collects_finish capacity s jobs rest :
  q_inv capacity s -> q_worker s = Batching jobs -> q_channel s = Finish :: rest ->
  q_inv capacity (set_worker (Batched jobs true) rest s).
Proof.
  intros Hinv Hw Hc. destruct (channel_head_finish _ _ _ Hc (qi_channel _ _ Hinv)) as [-> Hs].
  at_worker Hinv Hw.
  - by rewrite Hall, Hc.
  - intros _. by rewrite (Hff eq_refl), Hc.
  - exists []. by left.
Qed.

Lemma q_worker_batch_ready capacity s jobs :
  q_inv capacity s -> q_worker s = Batching jobs ->
  q_inv capacity (set_worker (Batched jobs false) (q_channel s) s).
Proof. intros Hinv Hw. at_worker Hinv Hw. Qed.

(** Jobs the worker holds are known senders'. *)
Lemma in_hand_known capacity s j :
  q_inv capacity s -> j ∈ in_hand (q_worker s) ->
  exists p, q_senders s !! jb_sender j = Some (j, p).
Proof.
  intros Hinv Hj. destruct (qi_known _ _ Hinv j) as (p & Hp & _); [|eauto].
  rewrite (qi_all _ _ Hinv), !elem_of_app. auto.
Qed.

Lemma q_worker_appends capacity s jobs finishing report took :
  q_inv capacity s -> q_worker s = Batched jobs finishing ->
  (forall u, report !! u = Some (Ok ()) -> took u = true) ->
  q_inv capacity (set_worker (Notifying jobs report finishing) (q_channel s)
    (set_log (append_log took jobs (q_log s)) (tell (path_failures jobs) s))).
Proof.
  intros Hinv Hw Ht.
  assert (Hlog : forall j, logged s j ->
    logged (set_worker (Notifying jobs report finishing) (q_channel s)
      (set_log (append_log took jobs (q_log s)) (tell (path_failures jobs) s))) j).
  { intros j (u & Hu & Hin). exists u. split; [done|]. by apply append_log_keeps. }
  at_worker Hinv Hw.
  - by rewrite app_nil_r.
  - by rewrite app_nil_r.
  - rewrite app_nil_r. intros j Hj Hd. apply deliver_keeps. eauto.
  - intros i [Hi|Hi]%deliver_ok; [|by apply path_failures_not_ok in Hi].
    destruct (Hok i Hi) as (j & p & Hj & Hl). eauto.
  - eauto.
  - intros u j Hr Hj Hu. exists u. split; [done|]. apply append_log_adds; eauto.
  - intros j Hj Hu Hd. by apply deliver_reaches, path_failures_reach.
Qed.

Lemma q_worker_notifies capacity s jobs report finishing :
  q_inv capacity s -> q_worker s = Notifying jobs report finishing ->
  q_inv capacity (set_worker (if finishing then Ended true else Receiving) (q_channel s)
    (notify jobs (notifications jobs report) s)).
Proof.
  intros Hinv Hw. pose proof (fun j => in_hand_known _ _ j Hinv) as Hknown. rewrite Hw in Hknown.
  assert (Hend : finishing = true -> q_channel s = [] /\ signalled (q_finisher s) = true).
  { intros ->. apply (qi_finish _ _ Hinv). by rewrite Hw. }
  at_worker Hinv Hw.
  - rewrite Hall, <- app_assoc. by destruct finishing.
  - intros _. rewrite (Hff eq_refl), <- app_assoc. by destruct finishing.
  - intros j [Hj|Hj]%elem_of_app Hd; [apply deliver_keeps; eauto|].
    destruct (job_uri j) as [u|] eqn:Hu.
    + by eapply deliver_reaches, notifications_reach.
    + apply deliver_keeps. eauto.
  - intros i [Hi|Hi]%deliver_ok; [eauto|].
    apply notifications_ok in Hi as (j & u & Hj & <- & Hu & Hr).
    destruct (Hknown j Hj) as [p Hp]. exists j, p. split; [done|]. by eapply Hrp.
  - by destruct finishing.
  - by destruct finishing.
  - destruct finishing; [|done]. intros _. apply Hcl. destruct (Hend eq_refl) as [_ Hs].
    by destruct (q_finisher s).
  - destruct finishing; [|done]. intros _. apply Hst. destruct (Hend eq_refl) as [_ Hs].
    by destruct (q_finisher s).
  - by destruct finishing.
  - intros ok Ho. by destruct finishing; [apply Hend|].
  - destruct finishing; simpl; lia.
  - by destruct finishing.
Qed.

Lemma q_worker_fails capacity s jobs finishing :
  q_inv capacity s -> q_worker s = Batched jobs finishing ->
  q_inv capacity (set_worker (FailingStop jobs) (q_channel s) (tell (path_failures jobs) s)).
Proof.
  intros Hinv Hw. at_worker Hinv Hw.
  - by rewrite app_nil_r.
  - by rewrite app_nil_r.
  - rewrite app_nil_r. intros j Hj Hd. apply deliver_keeps. eauto.
  - intros i [Hi|Hi]%deliver_ok; [|by apply path_failures_not_ok in Hi]. eauto.
  - intros j Hj Hu Hd. by apply deliver_reaches, path_failures_reach.
Qed.

Lemma q_worker_stops_accepting capacity s jobs :
  q_inv capacity s -> q_worker s = FailingStop jobs ->
  q_inv capacity (set_worker (FailingWait jobs) (q_channel s) (stop_accepting s)).
Proof. intros Hinv Hw. at_worker Hinv Hw. Qed.

(** Nobody is between the looks when the count is zero. *)
Lemma settles capacity s : q_inv capacity s -> q_in_flight s = O -> ~ sends s.
Proof.
  intros Hinv H0 (i & j & Hi). pose proof (qi_count _ _ Hinv) as Hct. rewrite H0 in Hct.
  apply list_elem_of_lookup_2 in Hi. revert Hct Hi. clear. generalize (q_senders s) as l.
  induction l as [|x l IH]; intros Hct Hi; [by apply elem_of_nil in Hi|].
  assert (Hs : (registered (snd x) + sum_list_with (fun jp => registered (snd jp)) l = 0)%nat) by done.
  apply elem_of_cons in Hi as [<-|Hi]; [simpl in Hs; lia|]. apply IH; [lia|done].
Qed.

Lemma q_worker_settles capacity s jobs :
  q_inv capacity s -> q_worker s = FailingWait jobs -> q_in_flight s = O ->
  q_inv capacity (set_worker (FailingDrain jobs) (q_channel s) s).
Proof.
  intros Hinv Hw H0. pose proof (settles _ _ Hinv H0). at_worker Hinv Hw.
Qed.

Lemma q_worker_drains capacity s jobs m rest :
  q_inv capacity s -> q_worker s = FailingDrain jobs -> q_channel s = m :: rest ->
  q_inv capacity (set_worker (FailingDrain jobs) rest (notify (jobs_of [m]) (rejection m) s)).
Proof.
  intros Hinv Hw Hc. at_worker Hinv Hw.
  - rewrite Hall, Hc, <- app_assoc. apply Permutation_app_head.
    unfold jobs_of. rewrite (omap_app _ [m] rest : omap _ (m :: rest) = _).
    rewrite !app_assoc. apply Permutation_app_tail, Permutation_app_comm.
  - intros j [Hj|Hj]%elem_of_app Hd; [apply deliver_keeps; eauto|].
    destruct m as [j'|]; simpl in Hj; [|by apply elem_of_nil in Hj].
    apply list_elem_of_singleton in Hj as ->. simpl. rewrite Hd.
    apply deliver_reaches. by left.
  - intros i [Hi|Hi]%deliver_ok; [eauto|]. destruct m as [j'|]; simpl in Hi.
    + destruct (jb_durable j'); [|by apply elem_of_nil in Hi].
      by apply list_elem_of_singleton in Hi.
    + by apply elem_of_nil in Hi.
  - intros j Hj Hu Hd. apply deliver_keeps. eauto.
  - destruct m as [j'|]; [by eapply channel_head_append|].
    destruct (channel_head_finish _ _ _ Hc Hch) as [-> _]. exists []. by left.
  - rewrite Hc in Hca. simpl in Hca. lia.
Qed.

Lemma q_worker_gives_up capacity s jobs :
  q_inv capacity s -> q_worker s = FailingDrain jobs -> q_channel s = [] ->
  q_inv capacity (set_worker (Ended false) [] (notify jobs (terminal_notifications jobs) s)).
Proof.
  intros Hinv Hw Hc. at_worker Hinv Hw.
  - rewrite Hall, Hc. simpl. by rewrite !app_nil_r.
  - intros j [Hj|Hj]%elem_of_app Hd; [apply deliver_keeps; eauto|].
    destruct (job_uri j) as [u|] eqn:Hu.
    + by eapply deliver_reaches, terminal_reach.
    + apply deliver_keeps. eauto.
  - intros i [Hi|Hi]%deliver_ok; [eauto|]. by apply terminal_not_ok in Hi.
  - exists []. by left.
Qed.

(** ** The finisher *)

Ltac at_finisher Hinv Hf :=
  destruct Hinv as [Hix Hct Hall Hff Had Hkn Han Hok Hrt Hrp Htl Hcl Hst Hch Hfi Hen Hba Hca Hsg Hjo Hfd Hwt Hsu];
  unfold report_ok, told_of_path, closing, settled in *; rewrite Hf in *; simpl in *;
  split; unfold report_ok, told_of_path, closing, settled; simpl in *; try done; try lia.

Lemma q_finish_closes capacity s :
  q_inv capacity s -> q_finisher s = Closing ->
  q_inv capacity (set_finisher Settling (stop_accepting s)).
Proof. intros Hinv Hf. at_finisher Hinv Hf. Qed.

Lemma q_finish_settles capacity s :
  q_inv capacity s -> q_finisher s = Settling -> q_in_flight s = O ->
  q_inv capacity (set_finisher Signalling s).
Proof. intros Hinv Hf H0. pose proof (settles _ _ Hinv H0). at_finisher Hinv Hf. Qed.

Lemma q_finish_signals capacity s :
  q_inv capacity s -> q_finisher s = Signalling -> rx_open s = true ->
  (length (q_channel s) < capacity)%nat ->
  q_inv capacity (set_finisher (Joining true) (push Finish s)).
Proof.
  intros Hinv Hf Hrx Hlen. unfold rx_open in Hrx. at_finisher Hinv Hf.
  - rewrite app_nil_r, Hall. unfold jobs_of. rewrite omap_app. simpl. by rewrite app_nil_r.
  - intros Ho. rewrite app_nil_r, (Hff Ho). unfold jobs_of. rewrite omap_app. simpl. by rewrite app_nil_r.
  - intros i j p Hi Hp. rewrite app_nil_r. eauto.
  - rewrite app_nil_r. done.
  - destruct Hch as (js & [Hc|[_ [=]]]). exists js. right. by rewrite Hc.
  - intros Ht. by destruct (Hfi Ht) as [_ [=]].
  - intros ok Hw. by rewrite Hw in Hrx.
  - rewrite length_app. simpl. lia.
  - intros _ _ _. apply elem_of_app. right. by left.
Qed.

Lemma q_finish_signal_fails capacity s :
  q_inv capacity s -> q_finisher s = Signalling -> rx_open s = false ->
  q_inv capacity (set_finisher (Joining false) s).
Proof.
  intros Hinv Hf Hrx. unfold rx_open in Hrx.
  assert (exists ok, q_worker s = Ended ok) as [ok Hw] by (destruct (q_worker s); eauto; done).
  at_finisher Hinv Hf. eauto.
Qed.

Lemma q_finish_joins capacity s sg ok :
  q_inv capacity s -> q_finisher s = Joining sg -> q_worker s = Ended ok ->
  q_inv capacity (set_finisher (Finished (ok && sg)) s).
Proof.
  intros Hinv Hf Hw. pose proof (qi_ended _ _ Hinv ok Hw) as Hc.
  at_finisher Hinv Hf.
  - exists []. by left.
  - intros ok' _. eauto.
  - intros [= Hb]. by destruct ok.
Qed.

(** ** Every step *)

Lemma q_step_inv capacity s s' : q_inv capacity s -> q_step capacity s s' -> q_inv capacity s'.
Proof.
  intros Hinv Hstep.
  destruct Hstep as [i j Hi|i j Hi|i j Hi|i j Hi|i j o Hi|i j a Hi Ha|j rest Hw Hc|rest Hw Hc
    |jobs j rest Hw Hl Hc|jobs rest Hw Hl Hc|jobs Hw Hc|jobs fi report took Hw Ht|jobs report fi Hw
    |jobs fi Hw Hu|jobs Hw|jobs Hw H0|jobs m rest Hw Hc|jobs Hw Hc|Hf|Hf H0|Hf Hr Hl|Hf Hr|sg ok Hf Hw].
  - eapply q_sender_steps; [done|exact Hi|..]; by destruct (q_accepting s).
  - eapply q_sender_moves; [done|exact Hi|..]; simpl; try done; lia.
  - eapply q_sender_steps; [done|exact Hi|..]; by destruct (q_accepting s).
  - destruct (try_send_cases capacity s) as [(-> & Hrx & Hl)|Hne]; [by apply q_sender_pushes|].
    assert (match try_send_outcome capacity s with Accepted => push (Append j) s | _ => s end = s)
      as -> by (by destruct (try_send_outcome capacity s)).
    eapply q_sender_steps; [done|exact Hi|..]; by destruct (try_send_outcome capacity s).
  - assert (1 <= q_in_flight s)%nat as Hp.
    { rewrite (qi_count _ _ Hinv). pose proof (sum_insert (fun jp => registered (snd jp)) _ _ _
        (j, Waiting) Hi) as Hs. simpl in Hs. lia. }
    eapply q_sender_moves; [done|exact Hi|..].
    + destruct o; simpl; try destruct (jb_durable j); simpl; lia.
    + destruct o; simpl; try destruct (jb_durable j); simpl; done.
    + by destruct o; simpl; try destruct (jb_durable j).
    + intros Hp' Hd. destruct o; simpl in Hp'; rewrite ?Hd in Hp'; done.
    + destruct o; simpl; try done. by destruct (jb_durable j).
  - eapply q_sender_steps; [done|exact Hi|..]; try (by destruct a as [[]|]).
    intros Hr _. destruct a as [[]|]; [|done].
    destruct (qi_ok _ _ Hinv i Ha) as (j' & p & Hj & Hl). by simplify_eq.
  - by apply q_worker_receives.
  - by apply q_worker_finishes.
  - by apply q_worker_collects.
  - by apply q_worker_collects_finish.
  - by apply q_worker_batch_ready.
  - by apply q_worker_appends.
  - by apply q_worker_notifies.
  - by eapply q_worker_fails.
  - by apply q_worker_stops_accepting.
  - by apply q_worker_settles.
  - by apply q_worker_drains.
  - by apply q_worker_gives_up.
  - by apply q_finish_closes.
  - by apply q_finish_settles.
  - by apply q_finish_signals.
  - by apply q_finish_signal_fails.
  - by apply q_finish_joins.
Qed.

Lemma q_call_inv capacity s s' : q_inv capacity s -> q_call s s' -> q_inv capacity s'.
Proof.
  intros Hinv Hcall. destruct Hcall as [coords record durable|Hf].
  - destruct Hinv as [Hix Hct Hall Hff Had Hkn Han Hok Hrt Hrp Htl Hcl Hst Hch Hfi Hen Hba Hca Hsg Hjo Hfd Hwt Hsu].
    set (nj := mkJob _ _ _ _).
    assert (Hnew : forall i j p, (q_senders s ++ [(nj, Checking)]) !! i = Some (j, p) ->
      q_senders s !! i = Some (j, p) \/ (i = length (q_senders s) /\ j = nj /\ p = Checking)).
    { intros i j p [?|[Hge H]]%lookup_app_Some; [by left|right].
      apply list_lookup_singleton_Some in H as [H0 [= <- <-]].
      split_and!; [lia|done|done]. }
    split; simpl; try done.
    + intros i j p [?|(-> & -> & ->)]%Hnew; eauto.
    + rewrite sum_list_with_app. simpl. lia.
    + intros i j p [?|(-> & -> & ->)]%Hnew Hp; eauto. done.
    + intros j Hj. destruct (Hkn j Hj) as (p & Hp & Ha). exists p. split; [|done].
      by apply lookup_app_l_Some.
    + intros i Hi. destruct (Hok i Hi) as (j & p & Hj & Hl). exists j, p.
      split; [by apply lookup_app_l_Some|done].
    + intros i j [?|(-> & -> & [=])]%Hnew Hd. by eapply Hrt.
    + intros Hs (i & j & [Hi|(_ & _ & [=])]%Hnew). apply Hst; [done|]. by exists i, j.
    + intros i j [?|(-> & -> & [=])]%Hnew. by eapply Hwt.
  - at_finisher Hinv Hf.
Qed.

Lemma q_reach_inv capacity s : q_reach capacity s -> q_inv capacity s.
Proof.
  induction 1; [apply q_inv_start|by eapply q_step_inv|by eapply q_call_inv].
Qed.

(** ** The order of the log *)

Lemma append_log_cases took jobs (log : gmap string (list Event)) u :
  default [] (append_log took jobs log !! u) = default [] (log !! u)
  \/ default [] (append_log took jobs log !! u)
     = default [] (log !! u) ++ (jb_record <$> partition_of u jobs).
Proof.
  unfold append_log. pose proof (uris_nodup jobs) as Hnd.
  assert (Hout : forall us, u ∉ us ->
    foldr (fun u m => if took u then <[u := default [] (m !! u) ++ (jb_record <$> partition_of u jobs)]> m else m)
      log us !! u = log !! u).
  { induction us as [|v us IH]; intros Hu; simpl; [done|]. rewrite not_elem_of_cons in Hu.
    destruct (took v); [rewrite lookup_insert_ne by naive_solver|]; naive_solver. }
  induction (uris jobs) as [|v us IH]; simpl; [by left|].
  apply NoDup_cons in Hnd as [Hv Hnd]. destruct (took v); [|by apply IH].
  destruct (decide (v = u)) as [->|Hne].
  - right. rewrite lookup_insert_eq. simpl. by rewrite Hout.
  - rewrite lookup_insert_ne by done. by apply IH.
Qed.

(** The jobs whose append has been tried. *)
Definition tried (s : queue) : list RawEventAppendJob :=
  q_handled s ++ match q_worker s with Notifying jobs _ _ => jobs | _ => [] end.

(** The log of a story is part of some first accepted jobs, all tried. *)
Definition log_inv (s : queue) : Prop :=
  exists pre, pre `prefix_of` q_accepted s /\ pre `prefix_of` tried s
    /\ forall u, default [] (q_log s !! u) `sublist_of` (jb_record <$> partition_of u pre).

Lemma log_inv_grows (s s' : queue) :
  log_inv s -> q_log s' = q_log s -> q_accepted s `prefix_of` q_accepted s' ->
  tried s `prefix_of` tried s' -> log_inv s'.
Proof.
  intros (pre & Ha & Ht & Hu) Hl Ha' Ht'. exists pre.
  split_and!; [by transitivity (q_accepted s)|by transitivity (tried s)|]. by rewrite Hl.
Qed.

Lemma log_inv_appends capacity s jobs finishing report took :
  q_inv capacity s -> log_inv s -> q_worker s = Batched jobs finishing ->
  log_inv (set_worker (Notifying jobs report finishing) (q_channel s)
    (set_log (append_log took jobs (q_log s)) (tell (path_failures jobs) s))).
Proof.
  intros Hinv (pre & _ & Ht & Hu) Hw. exists (q_handled s ++ jobs).
  pose proof (qi_fifo _ _ Hinv) as Hff. unfold tried in *. rewrite Hw in *. simpl in *.
  rewrite !app_nil_r in *. split_and!; [|done|].
  - rewrite (Hff eq_refl). eexists. by rewrite app_assoc.
  - intros u. unfold partition_of. rewrite filter_app, fmap_app.
    assert (Hold : default [] (q_log s !! u) `sublist_of` (jb_record <$> partition_of u (q_handled s))).
    { etrans; [apply Hu|]. destruct Ht as [rest ->]. unfold partition_of.
      rewrite filter_app, fmap_app. apply sublist_inserts_r. done. }
    destruct (append_log_cases took jobs (q_log s) u) as [->| ->].
    + by apply sublist_inserts_r.
    + by apply sublist_app.
Qed.

Lemma log_step_inv capacity s s' :
  q_inv capacity s -> log_inv s -> q_step capacity s s' -> log_inv s'.
Proof.
  intros Hinv Hlog Hstep. destruct Hstep; try (by eapply log_inv_appends);
    (eapply log_inv_grows; [done|try done..]);
    unfold tried; simpl; rewrite ?app_nil_r;
    try match goal with H : q_worker _ = _ |- _ => rewrite H; simpl end;
    rewrite ?app_nil_r; try done; try (by eexists).
  all: try (by destruct (try_send_outcome capacity s); simpl; try done; eexists).
Qed.

Lemma log_reach_inv capacity s : q_reach capacity s -> log_inv s.
Proof.
  induction 1 as [|s s' Hr IH Hs|s s' Hr IH Hc].
  - exists []. split_and!; [done..|]. intros u. simpl. by rewrite lookup_empty.
  - eapply log_step_inv; [by apply q_reach_inv|done|done].
  - destruct Hc; by eapply log_inv_grows.
Qed.

(** ** The threads come to rest *)

Definition sender_work (p : sender_phase) : nat :=
  match p with
  | Checking => 15 | Registering => 14 | Rechecking => 13 | Sending => 12
  | Leaving _ => 2 | Waiting => 1 | Returned _ => 0
  end.
Definition worker_work (w : worker_phase) : nat :=
  match w with
  | Batching _ => 8 | Batched _ _ => 7 | FailingStop _ => 6 | FailingWait _ => 5
  | FailingDrain _ => 4 | Notifying _ _ _ => 1 | Receiving | Ended _ => 0
  end.
Definition finisher_work (f : finish_phase) : nat :=
  match f with
  | Closing => 14 | Settling => 13 | Signalling => 12 | Joining _ => 1
  | NotFinishing | Finished _ => 0
  end.
(** The steps the threads can still take. *)
Definition q_work (s : queue) : nat :=
  (sum_list_with (fun jp => sender_work (snd jp)) (q_senders s) + 9 * length (q_channel s)
   + worker_work (q_worker s) + finisher_work (q_finisher s))%nat.

Lemma sender_work_moves (l : list (RawEventAppendJob * sender_phase)) i j p p' :
  l !! i = Some (j, p) ->
  (sum_list_with (fun jp => sender_work (snd jp)) (<[i:=(j, p')]> l) + sender_work p
   = sum_list_with (fun jp => sender_work (snd jp)) l + sender_work p')%nat.
Proof. intros Hi. apply (sum_insert (fun jp => sender_work (snd jp)) l i (j, p) (j, p') Hi). Qed.

Lemma q_step_works capacity s s' : q_step capacity s s' -> (q_work s' < q_work s)%nat.
Proof.
  intros Hstep. unfold q_work. destruct Hstep; simpl;
    repeat match goal with
    | H : q_worker _ = _ |- _ => rewrite H; clear H
    | H : q_finisher _ = _ |- _ => rewrite H; clear H
    end; simpl;
    try match goal with
    | H : q_senders _ !! _ = Some _ |- context [<[_:=(_, ?p')]> _] =>
        pose proof (sender_work_moves _ _ _ _ p' H) as Hm; simpl in Hm
    end;
    try match goal with H : q_channel _ = _ :: _ |- _ => rewrite H; simpl end;
    rewrite ?length_app; simpl; try lia.
  - destruct (q_accepting s); simpl in *; lia.
  - destruct (q_accepting s); simpl in *; lia.
  - destruct (try_send_outcome capacity s); simpl in *; rewrite ?length_app; simpl; lia.
  - unfold after_admission in *. destruct o; simpl in *; try destruct (jb_durable j); simpl in *; lia.
  - destruct finishing; simpl; lia.
Qed.

Lemma q_steps_work capacity n s s' :
  nsteps (q_step capacity) n s s' -> (n + q_work s' <= q_work s)%nat.
Proof.
  induction 1 as [|n s1 s2 s3 H1 _ IH]; [lia|]. apply q_step_works in H1. lia.
Qed.

Lemma finisher_stays capacity s s' :
  q_step capacity s s' -> q_finisher s <> NotFinishing -> q_finisher s' <> NotFinishing.
Proof. intros Hstep Hf. destruct Hstep; simpl; try done. by destruct (try_send_outcome capacity s). Qed.

Lemma q_steps_reach capacity n s s' :
  nsteps (q_step capacity) n s s' -> q_reach capacity s -> q_finisher s <> NotFinishing ->
  q_reach capacity s' /\ q_finisher s' <> NotFinishing.
Proof.
  induction 1 as [|n s1 s2 s3 H1 _ IH]; intros Hr Hf; [done|].
  apply IH; [by eapply q_reach_step|by eapply finisher_stays].
Qed.

(** Every call has returned. *)
Definition all_returned (s : queue) : Prop :=
  (exists ok, q_finisher s = Finished ok) /\ (exists ok, q_worker s = Ended ok)
  /\ Forall (fun jp => exists r, snd jp = Returned r) (q_senders s).

Definition at_rest (p : sender_phase) : bool :=
  match p with Waiting | Returned _ => true | _ => false end.

Lemma sender_can_step capacity s i j p :
  q_senders s !! i = Some (j, p) -> at_rest p = false -> exists s', q_step capacity s s'.
Proof.
  intros Hi Hp. destruct p; try done; eexists;
    [by eapply sender_checks|by eapply sender_registers|by eapply sender_rechecks
    |by eapply sender_sends|by eapply sender_leaves].
Qed.

Lemma senders_at_rest (l : list (RawEventAppendJob * sender_phase)) :
  (exists i j p, l !! i = Some (j, p) /\ at_rest p = false)
  \/ (Forall (fun jp => at_rest (snd jp) = true) l
      /\ sum_list_with (fun jp => registered (snd jp)) l = 0%nat).
Proof.
  induction l as [|[j p] l IH]; [by right|]. destruct (at_rest p) eqn:Hp.
  - destruct IH as [(i & j' & p' & Hi & Hp')|[Hl Hs]]; [left; by exists (S i), j', p'|right].
    split; [by constructor|]. simpl. rewrite Hs. by destruct p.
  - left. by exists O, j, p.
Qed.

Lemma batching_can_step capacity s jobs :
  q_inv capacity s -> q_worker s = Batching jobs -> exists s', q_step capacity s s'.
Proof.
  intros Hinv Hw. pose proof (qi_batch _ _ Hinv) as Hb. rewrite Hw in Hb. simpl in Hb.
  destruct (decide (length jobs = DEFAULT_RAW_EVENT_BATCH_SIZE)) as [He|Hne];
    [eexists; eapply worker_batch_ready; eauto|].
  destruct (q_channel s) as [|[j|] rest] eqn:Hc.
  - eexists. eapply worker_batch_ready; eauto.
  - eexists. eapply worker_collects; eauto. lia.
  - eexists. eapply worker_collects_finish; eauto. lia.
Qed.

Lemma receiving_can_step capacity s :
  q_inv capacity s -> (0 < capacity)%nat -> q_finisher s <> NotFinishing -> q_in_flight s = O ->
  q_worker s = Receiving -> exists s', q_step capacity s s'.
Proof.
  intros Hinv Hcap Hf H0 Hw. destruct (q_channel s) as [|[j|] rest] eqn:Hc;
    [|eexists; by eapply worker_receives|eexists; by eapply worker_finishes].
  destruct (q_finisher s) as [| | | |sg|ok] eqn:Hfi; [done|..].
  - eexists. by apply finish_closes.
  - eexists. by apply finish_settles.
  - eexists. apply finish_signals; [done|unfold rx_open; by rewrite Hw|by rewrite Hc].
  - destruct sg.
    + pose proof (qi_signal _ _ Hinv Hfi) as Hs. rewrite Hw, Hc in Hs.
      by apply elem_of_nil in Hs.
    + destruct (qi_joining _ _ Hinv Hfi) as [ok Ho]. congruence.
  - destruct (qi_finished _ _ Hinv _ Hfi) as [ok' Ho]. congruence.
Qed.

(** A waiting sender has its answer once the worker is gone. *)
Lemma waiting_is_answered capacity s i j ok :
  q_inv capacity s -> q_worker s = Ended ok -> q_senders s !! i = Some (j, Waiting) ->
  is_Some (q_answers s !! i).
Proof.
  intros Hinv Hw Hi. rewrite <- (qi_index _ _ Hinv _ _ _ Hi).
  apply (qi_answered _ _ Hinv); [|by eapply (qi_waiting _ _ Hinv)].
  pose proof (qi_admitted _ _ Hinv _ _ _ Hi I) as Ha. rewrite (qi_all _ _ Hinv), Hw in Ha.
  rewrite (qi_ended _ _ Hinv ok Hw) in Ha. simpl in Ha. by rewrite app_nil_r in Ha.
Qed.

Lemma ended_can_step capacity s ok :
  q_inv capacity s -> q_finisher s <> NotFinishing -> q_in_flight s = O -> q_worker s = Ended ok ->
  Forall (fun jp => at_rest (snd jp) = true) (q_senders s) ->
  all_returned s \/ exists s', q_step capacity s s'.
Proof.
  intros Hinv Hf H0 Hw Hrest. destruct (q_finisher s) as [| | | |sg|fok] eqn:Hfi; [done|..].
  1-4: right; eexists.
  - by apply finish_closes.
  - by apply finish_settles.
  - apply finish_signal_fails; [done|]. unfold rx_open. by rewrite Hw.
  - by eapply finish_joins.
  - assert ((exists i j, q_senders s !! i = Some (j, Waiting))
      \/ Forall (fun jp => exists r, snd jp = Returned r) (q_senders s)) as [(i & j & Hi)|Hall].
    { clear -Hrest. induction Hrest as [|[j p] l Hp _ [(i & j' & Hi)|IH]]; [by right|..].
      - left. by exists (S i), j'.
      - destruct p; try done; [left; by exists O, j|]. right. constructor; [|done]. by eexists. }
    + destruct (waiting_is_answered _ _ _ _ _ Hinv Hw Hi) as [a Ha].
      right. eexists. by eapply sender_answered.
    + left. split_and!; eauto.
Qed.

Lemma q_progress capacity s :
  q_inv capacity s -> (0 < capacity)%nat -> q_finisher s <> NotFinishing ->
  all_returned s \/ exists s', q_step capacity s s'.
Proof.
  intros Hinv Hcap Hf. destruct (senders_at_rest (q_senders s)) as [(i & j & p & Hi & Hp)|[Hrest Hsum]];
    [right; by eapply sender_can_step|].
  assert (q_in_flight s = O) as H0 by (by rewrite (qi_count _ _ Hinv)).
  destruct (q_worker s) as [|jobs|jobs fi|jobs report fi|jobs|jobs|jobs|ok] eqn:Hw;
    [right..|by eapply ended_can_step].
  - by apply receiving_can_step.
  - by eapply batching_can_step.
  - eexists. eapply (worker_appends _ _ jobs fi ∅ (fun _ => true)); [done|by intros].
  - eexists. by eapply worker_notifies.
  - eexists. by eapply worker_stops_accepting.
  - eexists. by eapply worker_settles.
  - destruct (q_channel s) as [|m rest] eqn:Hc; eexists;
      [by eapply worker_gives_up|by eapply worker_drains].
Qed.

(** ** What the queue promises *)

Lemma options_capacity capacity threshold rows fanout s :
  raw_event_append_queue_with_options capacity threshold rows fanout = Some s -> (0 < capacity)%nat.
Proof. unfold raw_event_append_queue_with_options. destruct (Nat.eqb_spec capacity 0); [done|lia]. Qed.

(** C20: in a queue whose options are accepted, after [finish] is called no schedule of the senders, the worker and
    [finish] runs for ever or gets stuck: at most [q_work s] steps are left, and
    while some call has not returned some thread can take a step.  So [finish]
    returns, the worker has ended, and every [append_durable] has its answer,
    whatever appends fail.  (A look at a non-zero [in_flight] is no step.) *)
Theorem finish_returns capacity threshold rows fanout s0 s n s' :
  raw_event_append_queue_with_options capacity threshold rows fanout = Some s0 ->
  q_reach capacity s -> q_finisher s <> NotFinishing ->
  nsteps (q_step capacity) n s s' ->
  (n <= q_work s)%nat /\ (all_returned s' \/ exists s'', q_step capacity s' s'').
Proof.
  intros Hq Hr Hf Hn. apply options_capacity in Hq. split; [apply q_steps_work in Hn; lia|].
  destruct (q_steps_reach _ _ _ _ Hn Hr Hf) as [Hr' Hf'].
  apply q_progress; [by apply q_reach_inv|done|done].
Qed.

(** C18: an [append_durable] that returned [Accepted] has its event in the log
    of its story, and it stays there: the queue only reports what an append
    made visible. *)
Theorem durable_append_is_in_the_log capacity s i j :
  q_reach capacity s -> q_senders s !! i = Some (j, Returned (Ok Accepted)) -> jb_durable j = true ->
  exists u, job_uri j = Some u /\ jb_record j ∈ default [] (q_log s !! u).
Proof. intros Hr Hi Hd. by eapply (qi_returned _ _ (q_reach_inv _ _ Hr)). Qed.

(** C19: the log of a story is a subsequence of the accepted events of that
    story in the order of their admission, none twice; and when [finish]
    reports success every accepted event has been dealt with, in that order,
    and every [append_durable] that was admitted has been answered. *)
Theorem queue_keeps_admission_order capacity s :
  q_reach capacity s ->
  (forall u, default [] (q_log s !! u) `sublist_of` (jb_record <$> partition_of u (q_accepted s)))
  /\ (q_finisher s = Finished true ->
      q_handled s = q_accepted s
      /\ forall j, j ∈ q_accepted s -> jb_durable j = true -> is_Some (q_answers s !! jb_sender j)).
Proof.
  intros Hr. pose proof (q_reach_inv _ _ Hr) as Hinv. split.
  - intros u. destruct (log_reach_inv _ _ Hr) as (pre & [rest ->] & _ & Hu).
    etrans; [apply Hu|]. unfold partition_of. rewrite filter_app, fmap_app. by apply sublist_inserts_r.
  - intros Hf. pose proof (qi_success _ _ Hinv Hf) as Hw.
    pose proof (qi_fifo _ _ Hinv) as Hff. rewrite Hw, (qi_ended _ _ Hinv _ Hw) in Hff.
    specialize (Hff eq_refl). simpl in Hff. rewrite app_nil_r in Hff.
    split; [done|]. rewrite Hff. apply (qi_answered _ _ Hinv).
Qed.

(** ** Running a schedule *)

(** One turn of a thread; an append is answered by [report], after the rows of
    the partitions in [took] became visible. *)
Inductive turn : Type :=
| sender_turn (i : nat)
| worker_turn
| append_turn (report : gmap string answer) (took : list string)
| append_fails
| finish_turn.

Definition sender_takes_turn (capacity i : nat) (s : queue) : option queue :=
  jp ← q_senders s !! i;
  let '(j, p) := jp in
  match p with
  | Checking =>
      Some (set_sender i j (if q_accepting s then Registering else Returned (Ok Unavailable)) s)
  | Registering => Some (set_sender i j Rechecking (set_in_flight (S (q_in_flight s)) s))
  | Rechecking => Some (set_sender i j (if q_accepting s then Sending else Leaving Unavailable) s)
  | Sending =>
      Some (set_sender i j (Leaving (try_send_outcome capacity s))
              (match try_send_outcome capacity s with Accepted => push (Append j) s | _ => s end))
  | Leaving o =>
      Some (set_sender i j (after_admission j o) (set_in_flight (pred (q_in_flight s)) s))
  | Waiting => a ← q_answers s !! i; Some (set_sender i j (Returned (answer_of a)) s)
  | Returned _ => None
  end.

Definition worker_takes_turn (s : queue) : option queue :=
  match q_worker s, q_channel s with
  | Receiving, Append j :: rest => Some (set_worker (Batching [j]) rest s)
  | Receiving, Finish :: rest => Some (set_worker (Ended true) rest s)
  | Batching jobs, [] => Some (set_worker (Batched jobs false) (q_channel s) s)
  | Batching jobs, m :: rest =>
      if decide (length jobs < DEFAULT_RAW_EVENT_BATCH_SIZE)%nat then
        match m with
        | Append j => Some (set_worker (Batching (jobs ++ [j])) rest s)
        | Finish => Some (set_worker (Batched jobs true) rest s)
        end
      else if decide (length jobs = DEFAULT_RAW_EVENT_BATCH_SIZE) then
        Some (set_worker (Batched jobs false) (q_channel s) s)
      else None
  | Notifying jobs report finishing, _ =>
      Some (set_worker (if finishing then Ended true else Receiving) (q_channel s)
              (notify jobs (notifications jobs report) s))
  | FailingStop jobs, _ => Some (set_worker (FailingWait jobs) (q_channel s) (stop_accepting s))
  | FailingWait jobs, _ =>
      if decide (q_in_flight s = O) then Some (set_worker (FailingDrain jobs) (q_channel s) s) else None
  | FailingDrain jobs, m :: rest =>
      Some (set_worker (FailingDrain jobs) rest (notify (jobs_of [m]) (rejection m) s))
  | FailingDrain jobs, [] =>
      Some (set_worker (Ended false) [] (notify jobs (terminal_notifications jobs) s))
  | _, _ => None
  end.

Definition finish_takes_turn (capacity : nat) (s : queue) : option queue :=
  match q_finisher s, q_worker s with
  | Closing, _ => Some (set_finisher Settling (stop_accepting s))
  | Settling, _ => if decide (q_in_flight s = O) then Some (set_finisher Signalling s) else None
  | Signalling, Ended _ => Some (set_finisher (Joining false) s)
  | Signalling, _ =>
      if decide (length (q_channel s) < capacity)%nat then Some (set_finisher (Joining true) (push Finish s))
      else None
  | Joining sg, Ended ok => Some (set_finisher (Finished (ok && sg)) s)
  | _, _ => None
  end.

Definition takes_turn (capacity : nat) (t : turn) (s : queue) : option queue :=
  match t with
  | sender_turn i => sender_takes_turn capacity i s
  | worker_turn => worker_takes_turn s
  | append_turn report took =>
      match q_worker s with
      | Batched jobs finishing =>
          if decide (Forall (fun ua => snd ua = Ok () -> fst ua ∈ took) (map_to_list report)) then
            Some (set_worker (Notifying jobs report finishing) (q_channel s)
                    (set_log (append_log (fun u => bool_decide (u ∈ took)) jobs (q_log s))
                       (tell (path_failures jobs) s)))
          else None
      | _ => None
      end
  | append_fails =>
      match q_worker s with
      | Batched jobs finishing =>
          if decide (uris jobs = []) then None
          else Some (set_worker (FailingStop jobs) (q_channel s) (tell (path_failures jobs) s))
      | _ => None
      end
  | finish_turn => finish_takes_turn capacity s
  end.

Ltac each_turn :=
  repeat match goal with
  | H : Some _ = Some _ |- _ => injection H as <-
  | H : None = Some _ |- _ => discriminate H
  | H : (if decide ?P then _ else _) = Some _ |- _ => destruct (decide P)
  | H : match ?x with _ => _ end = Some _ |- _ => destruct x eqn:?
  end; try done.

(** A turn is a step, so a schedule is a run of the threads. *)
Lemma takes_turn_step capacity t s s' : takes_turn capacity t s = Some s' -> q_step capacity s s'.
Proof.
  intros H. destruct t; simpl in H.
  - unfold sender_takes_turn in H. destruct (q_senders s !! i) as [[j p]|] eqn:Hi; [|done]. simpl in H.
    destruct p; each_turn; try (by constructor).
    destruct (q_answers s !! i) eqn:?; [|done]. simpl in H. each_turn. by apply sender_answered.
  - unfold worker_takes_turn in H. each_turn.
    all: first
      [ by apply worker_receives | by apply worker_finishes | by apply worker_collects
      | by apply worker_collects_finish | by apply worker_gives_up | by apply worker_drains
      | by apply worker_notifies | by apply worker_stops_accepting | by apply worker_settles
      | match goal with Hc : q_channel _ = _ |- _ => rewrite <- Hc end; apply worker_batch_ready; auto ].
  - each_turn. apply worker_appends; [done|]. intros u Hu. apply bool_decide_eq_true.
    match goal with Hf : Forall _ _ |- _ => rewrite Forall_forall in Hf; apply (Hf (u, Ok ())) end;
      [by apply elem_of_map_to_list|done].
  - each_turn. by eapply worker_fails.
  - unfold finish_takes_turn in H. each_turn.
    all: first [by apply finish_closes|by apply finish_settles|by eapply finish_joins|idtac].
    all: first [apply finish_signals; [done| |done]|apply finish_signal_fails; [done|]];
      unfold rx_open; match goal with Hw : q_worker _ = _ |- _ => by rewrite Hw end.
Qed.

Fixpoint take_turns (capacity : nat) (ts : list turn) (s : queue) : option queue :=
  match ts with
  | [] => Some s
  | t :: ts => s' ← takes_turn capacity t s; take_turns capacity ts s'
  end.

Lemma take_turns_steps capacity ts s s' :
  take_turns capacity ts s = Some s' -> nsteps (q_step capacity) (length ts) s s'.
Proof.
  revert s. induction ts as [|t ts IH]; intros s H; simplify_eq/=; [constructor|].
  destruct (takes_turn capacity t s) as [s1|] eqn:Ht; [|done]. simpl in H.
  econstructor; [by eapply takes_turn_step|by apply IH].
Qed.

Lemma steps_keep_reach capacity n s s' :
  nsteps (q_step capacity) n s s' -> q_reach capacity s -> q_reach capacity s'.
Proof. induction 1; [done|]. intros. apply IHnsteps. by eapply q_reach_step. Qed.

(** Calls made one after the other, before any thread takes a turn. *)
Fixpoint call_all (calls : list (Coords * Event * bool)) (s : queue) : queue :=
  match calls with
  | [] => s
  | (c, e, d) :: calls =>
      call_all calls
        (mkQueue (q_accepting s) (q_in_flight s) (q_channel s)
           (q_senders s ++ [(mkJob (length (q_senders s)) c e d, Checking)])
           (q_worker s) (q_finisher s) (q_log s) (q_answers s) (q_accepted s) (q_handled s))
  end.

Lemma call_all_reach capacity calls s : q_reach capacity s -> q_reach capacity (call_all calls s).
Proof.
  revert s. induction calls as [|[[c e] d] calls IH]; intros s Hs; [done|].
  simpl. apply IH. eapply q_reach_call; [done|]. constructor.
Qed.
End AppendQueue.

Arguments mkJob {_ _}.

Module AppendQueueExample.

Definition path (c : string) : option string := if decide (c = "bad"%string) then None else Some c.

(** Three durable appends, one to a story without a path, one plain append;
    [finish] is called once they are in the channel of capacity four. *)
Definition calls : list (string * nat * bool) :=
  [("a", 1, true); ("bad", 2, true); ("b", 3, true); ("a", 4, false)]%string%nat.

Definition all_send : list turn :=
  mjoin (replicate 5 (sender_turn <$> [0; 1; 2; 3]%nat)).

Definition loaded : option (queue (Coords := string) (Event := nat)) :=
  take_turns path 4 all_send (call_all calls q_start).
Definition start_finish (s : queue (Coords := string) (Event := nat)) := set_finisher Closing s.

(** The partition of [b] fails after its rows became visible. *)
Definition outcome : gmap string (result AppendError ()) :=
  {[ "a"%string := Ok (); "b"%string := Err StorageFailed ]}.
Definition rest_of_run : list turn :=
  [finish_turn; finish_turn; worker_turn; worker_turn; worker_turn; worker_turn; finish_turn; worker_turn;
   append_turn outcome ["a"; "b"]%string; worker_turn; sender_turn 0; sender_turn 1; sender_turn 2; finish_turn].
Definition finished : option (queue (Coords := string) (Event := nat)) :=
  s ← loaded; take_turns path 4 rest_of_run (start_finish s).

Example finished_run :
  (fun s => (snd <$> q_senders s, q_finisher s, q_worker s, map_to_list (q_log s), jb_record <$> q_handled s))
    <$> finished
  = Some ([Returned (Ok Accepted); Returned (Err PathFailed); Returned (Err StorageFailed); Returned (Ok Accepted)],
          Finished true, Ended true, [("a", [1; 4]); ("b", [3])]%string%nat, [1; 2; 3; 4]%nat).
Proof. vm_compute. reflexivity. Qed.

(** The append of the whole batch fails. *)
Definition failing_run : list turn :=
  [finish_turn; worker_turn; worker_turn; worker_turn; worker_turn; worker_turn; append_fails;
   worker_turn; worker_turn; worker_turn; finish_turn; finish_turn; finish_turn;
   sender_turn 0; sender_turn 1; sender_turn 2].
Example failed_run :
  (fun s => (snd <$> q_senders s, q_finisher s, q_worker s, map_to_list (q_log s)))
    <$> (s ← loaded; take_turns path 4 failing_run (start_finish s))
  = Some ([Returned (Err BatchFailed); Returned (Err PathFailed); Returned (Err PartitionFailed); Returned (Ok Accepted)],
          Finished false, Ended false, []).
Proof. vm_compute. reflexivity. Qed.

Definition at_finish : queue := start_finish (default q_start loaded).
Definition at_end : queue := default q_start finished.

Lemma loaded_reach s :
  take_turns path 4 all_send (call_all calls q_start) = Some s -> q_finisher s = NotFinishing ->
  q_reach path 4 (start_finish s).
Proof.
  intros Hs Hf. apply (q_reach_call _ _ s); [|by apply finish_starts].
  eapply steps_keep_reach; [by eapply take_turns_steps|apply call_all_reach, q_reach_start].
Qed.

Lemma at_finish_reach : q_reach path 4 at_finish.
Proof. unfold at_finish. apply loaded_reach; vm_compute; reflexivity. Qed.

Lemma at_end_run : take_turns path 4 rest_of_run at_finish = Some at_end.
Proof. vm_compute. reflexivity. Qed.

Lemma at_end_steps : nsteps (q_step path 4) 14 at_finish at_end.
Proof. exact (take_turns_steps path 4 rest_of_run at_finish at_end at_end_run). Qed.

Lemma at_end_reach : q_reach path 4 at_end.
Proof. exact (steps_keep_reach path 4 14 at_finish at_end at_end_steps at_finish_reach). Qed.

Lemma finish_returns_witness :
  (14 <= q_work at_finish)%nat /\ (all_returned at_end \/ exists s, q_step path 4 at_end s).
Proof.
  apply (finish_returns path 4 8 8 8 q_start at_finish 14 at_end);
    [vm_compute; reflexivity|apply at_finish_reach|vm_compute; discriminate|apply at_end_steps].
Defined.

Lemma durable_append_is_in_the_log_witness :
  exists u, path "a" = Some u /\ 1%nat ∈ default [] (q_log at_end !! u).
Proof.
  apply (durable_append_is_in_the_log path 4 at_end 0 (mkJob 0 "a"%string 1%nat true));
    [apply at_end_reach|vm_compute; reflexivity|reflexivity].
Defined.

Lemma queue_keeps_admission_order_witness :
  default [] (q_log at_end !! "a"%string)
    `sublist_of` (jb_record <$> partition_of path "a" (q_accepted at_end))
  /\ q_handled at_end = q_accepted at_end.
Proof.
  destruct (queue_keeps_admission_order path 4 at_end at_end_reach) as [Hlog Hfin].
  split; [apply Hlog|]. apply Hfin. vm_compute. reflexivity.
Defined.

End AppendQueueExample.
