(* ===== verification/SessionRoute.v ===== *)
(** * Gateway: the session of a request and where its capture goes

    [session/chain.rs] finds the session, trace and agent ids of a request in
    its headers, [session/storage.rs] makes them into the [CaptureRoute] of
    [Capture], [agenticmd/layout.rs] names the markdown file of a session key
    and [dialogue_extract/heuristics.rs] tells a main agent's continuation.

    The header map of the [http] crate is a parameter: [get] looks a name up,
    [iter] lists names in lower case with their values, [to_str] is
    [HeaderValue::to_str].  A request body is what [serde_json] parses it to. *)

From Stdlib Require Import ZArith Lia Ascii.
From stdpp Require Import base list strings numbers option.
From S2P Require Import Prelude Json IpAddr TurnMachine Capture.

(** ** Session keys and their files *)

Definition SESSION_FILENAME_MAX_LEN : nat := 128.

Definition is_ascii_alphanumeric (a : ascii) : bool := byte_in 48 57 a || byte_in 65 90 a || byte_in 97 122 a.

(** A byte that goes on a character of several bytes. *)
Definition continues (a : ascii) : bool := byte_in 128 191 a.

Definition filename_char (a : ascii) : bool :=
  is_ascii_alphanumeric a || byte_is 45 a || byte_is 95 a || byte_is 46 a.

(** The loop of [sanitize_session_filename] with [room] bytes left in [out]:
    one byte per character. *)
Fixpoint sanitize_chars (room : nat) (s : string) : string :=
  match s with
  | EmptyString => ""
  | String a r =>
      if continues a then sanitize_chars room r
      else match room with
           | O => ""
           | S room => String (if filename_char a then a else "_"%char) (sanitize_chars room r)
           end
  end.

Definition sanitize_session_filename (session_id : string) : string :=
  let out := sanitize_chars SESSION_FILENAME_MAX_LEN (str_trim session_id) in
  if bool_decide (out = "") then "session" else out.

Definition session_markdown_filename (session_key : string) : string :=
  sanitize_session_filename session_key +:+ ".md".

Definition agent_id_char (a : ascii) : bool := is_ascii_alphanumeric a || byte_is 45 a || byte_is 95 a.

Definition is_subagent_session_storage_key (session_key : string) : bool :=
  match str_strip_prefix "agent-" (sanitize_session_filename session_key) with
  | Some suffix => negb (bool_decide (suffix = "")) && str_forall agent_id_char suffix
  | None => false
  end.

(** ** Ids in headers *)

Definition EXPLICIT_SESSION_HEADERS : list string :=
  ["x-persisting-trace-id"; "x-litellm-trace-id"; "x-litellm-session-id"].
Definition GENERIC_SESSION_SUFFIX : string := "-session-id".
Definition CLAUDE_AGENT_ID_HEADER : string := "x-claude-code-agent-id".
Definition CLAUDE_PARENT_AGENT_ID_HEADER : string := "x-claude-code-parent-agent-id".
Definition MIN_SESSION_ID_LEN : nat := 8.

Definition plausible_session_value (v : string) : bool :=
  if (String.length v <? MIN_SESSION_ID_LEN)%nat then false else str_forall filename_char v.

(** [trim_start_matches] with a string; a character goes in every turn. *)
Fixpoint trim_start_str (fuel : nat) (prefix s : string) : string :=
  match fuel with
  | O => s
  | S fuel => match str_strip_prefix prefix s with Some r => trim_start_str fuel prefix r | None => s end
  end.

(** [new_call_id], the clock in nanoseconds; at most 32 hexadecimal digits. *)
Definition new_call_id (ns : Z) : string := "call-" +:+ show_radix 32 16 ns "".
Definition ephemeral_session_id (ns : Z) : string :=
  let id := new_call_id ns in "ephemeral-" +:+ trim_start_str (String.length id) "call-" id.

Section Chain.
Context {HeaderMap : Type} (get : HeaderMap -> string -> option string).
Context (iter : HeaderMap -> list (string * string)) (to_str : string -> option string).

Definition header_value (headers : HeaderMap) (name : string) : option string :=
  v ← get headers name;
  s ← to_str v;
  let t := str_trim s in
  if bool_decide (t = "") then None else Some t.

Definition extract_claude_agent_id (headers : HeaderMap) : option string :=
  header_value headers CLAUDE_AGENT_ID_HEADER.
Definition extract_claude_parent_agent_id (headers : HeaderMap) : option string :=
  header_value headers CLAUDE_PARENT_AGENT_ID_HEADER.

Fixpoint generic_session_id (entries : list (string * string)) : option string :=
  match entries with
  | [] => None
  | (key, value) :: rest =>
      if negb (str_starts_with "x-" key) || negb (str_ends_with GENERIC_SESSION_SUFFIX key) then
        generic_session_id rest
      else if existsb (eq_ignore_ascii_case key) EXPLICIT_SESSION_HEADERS then generic_session_id rest
      else match to_str value with
           | Some v =>
               let v := str_trim v in
               if plausible_session_value v then Some v else generic_session_id rest
           | None => generic_session_id rest
           end
  end.
Definition extract_generic_session_id (headers : HeaderMap) : option string :=
  generic_session_id (iter headers).

(** The first of some headers that has a value. *)
Fixpoint first_header (headers : HeaderMap) (names : list string) : option string :=
  match names with
  | [] => None
  | name :: rest => match header_value headers name with Some v => Some v | None => first_header headers rest end
  end.

Definition extract_session_from_headers (headers : HeaderMap) (session_header : string) : option string :=
  match header_value headers session_header with
  | Some v => Some v
  | None =>
      match header_value headers "x-session-id" with
      | Some v => Some v
      | None =>
          match first_header headers
                  (filter (fun name => eq_ignore_ascii_case name session_header = false)
                     EXPLICIT_SESSION_HEADERS) with
          | Some v => Some v
          | None => extract_generic_session_id headers
          end
      end
  end.

Definition resolve_trace_id (headers : HeaderMap) (call_id : string) : string :=
  default call_id
    (first_header headers ["x-persisting-trace-id"; "x-litellm-trace-id"; "x-request-id"]).

(** ** Continuations of the main agent *)

Definition contains_task_notification (s : string) : bool := str_contains "<task-notification>" s.

Definition text_part_notifies (p : Value) : bool :=
  match json_get p "text" with Some (JString t) => contains_task_notification t | _ => false end.

Definition message_contains_task_notification (msg : Value) : bool :=
  match json_get msg "content" with
  | Some (JString s) => contains_task_notification s
  | Some (JArray parts) => existsb text_part_notifies parts
  | _ => false
  end.

Definition is_main_agent_continuation_payload (payload : Value) : bool :=
  match json_get payload "user_content" with
  | Some (JString s) => contains_task_notification s
  | _ => false
  end
  || match json_get payload "messages" with
     | Some (JArray msgs) => existsb message_contains_task_notification msgs
     | _ => false
     end.

Definition is_main_agent_continuation (body : option Value) : bool :=
  match body with Some v => is_main_agent_continuation_payload v | None => false end.

(** ** Routes *)

(** [read_run_session], from the text of the file. *)
Definition read_run_session (file : option string) : option string :=
  s ← file;
  let s := str_trim s in
  if bool_decide (s = "") then None else Some s.

Definition subagent_storage_leaf (claude_agent_id : string) : string := "agent-" +:+ claude_agent_id.
Definition main_storage_session_id (header_session : option string) (run_id : string) : string :=
  default run_id header_session.

Definition resolve_capture_route (ns : Z) (headers : HeaderMap) (body : option Value)
    (session_header : string) (run_session_file : option string) : CaptureRoute :=
  let root_session := read_run_session run_session_file in
  let header_session := extract_session_from_headers headers session_header in
  let claude_agent_id := extract_claude_agent_id headers in
  let session_id := default (default (ephemeral_session_id ns) root_session) header_session in
  match root_session with
  | None =>
      let storage_session_id :=
        match claude_agent_id with Some agent_id => subagent_storage_leaf agent_id | None => session_id end in
      mkRoute None session_id storage_session_id claude_agent_id
  | Some root =>
      match claude_agent_id with
      | Some agent_id =>
          if is_main_agent_continuation body then
            mkRoute (Some root) session_id (main_storage_session_id header_session root) None
          else mkRoute (Some root) session_id (subagent_storage_leaf agent_id) (Some agent_id)
      | None => mkRoute (Some root) session_id (main_storage_session_id header_session root) None
      end
  end.

End Chain.

(** The subagent a stem names. *)
Definition stem_subagent (stem : string) : option string :=
  if is_subagent_session_storage_key stem then Some (default stem (str_strip_prefix "agent-" stem)) else None.

Definition for_replay_stem (root_session session_id : string) : CaptureRoute :=
  mkRoute (if bool_decide (session_id = root_session) then None else Some root_session)
    session_id session_id (stem_subagent session_id).
Definition for_run_markdown_stem (root_session stem : string) : CaptureRoute :=
  mkRoute (Some root_session) stem stem (stem_subagent stem).

Definition route_config_key (route : CaptureRoute) : string :=
  default (rt_storage_session_id route) (rt_root_session route).

(** ** File names *)

Lemma filename_char_not_ws a :
  filename_char a = true ->
  ws1 a = false /\ (forall b, ws2 a b = false) /\ (forall b, ws2 b a = false)
  /\ (forall b c, ws3 a b c = false) /\ (forall b c, ws3 c b a = false) /\ continues a = false.
Proof.
  unfold filename_char, is_ascii_alphanumeric, ws1, ws2, ws3, continues, byte_in, byte_is.
  generalize (N_of_ascii a). intros n Hn.
  repeat rewrite ?orb_true_iff, ?andb_true_iff, ?N.leb_le, ?N.eqb_eq in Hn.
  split_and!; intros; repeat case_match; rewrite ?andb_false_r; try done;
    repeat match goal with
    | |- context [(?x =? ?y)%N] => destruct (N.eqb_spec x y); try lia
    | |- context [(?x <=? ?y)%N] => destruct (N.leb_spec x y); try lia
    end; rewrite ?andb_false_r; try done; simpl; try lia.
Qed.

Lemma trim_front_stays w2 w3 a r :
  ws1 a = false -> (forall b, w2 a b = false) -> (forall b c, w3 a b c = false) ->
  trim_front w2 w3 (String a r) = String a r.
Proof.
  intros H1 H2 H3. simpl. rewrite H1. destruct r as [|b r]; [done|]. rewrite H2.
  destruct r as [|c r]; [done|]. by rewrite H3.
Qed.

Lemma str_forall_rev p s : str_forall p (String.rev s) = str_forall p s.
Proof.
  induction s as [|a s IH]; [done|].
  change (String a s) with (String a "" +:+ s). rewrite str_rev_app, !str_forall_app, IH. simpl.
  rewrite andb_true_r. apply andb_comm.
Qed.

Lemma trim_filename s : str_forall filename_char s = true -> str_trim s = s.
Proof.
  intros Hs. unfold str_trim, str_trim_end, str_trim_start.
  assert (trim_front ws2 ws3 s = s) as ->.
  { destruct s as [|a s]; [done|]. simpl in Hs. apply andb_prop in Hs as [Ha _].
    destruct (filename_char_not_ws a Ha) as (? & ? & ? & ? & ? & ?). by apply trim_front_stays. }
  rewrite <- str_forall_rev in Hs. rewrite <- (str_rev_involutive s) at 2. f_equal.
  destruct (String.rev s) as [|a r]; [done|]. simpl in Hs. apply andb_prop in Hs as [Ha _].
  destruct (filename_char_not_ws a Ha) as (? & ? & ? & ? & ? & ?). by apply trim_front_stays.
Qed.

Lemma sanitize_chars_same room s :
  str_forall filename_char s = true -> (String.length s <= room)%nat -> sanitize_chars room s = s.
Proof.
  revert room. induction s as [|a s IH]; intros room Hs Hl; [done|]. simpl in *.
  apply andb_prop in Hs as [Ha Hs]. destruct (filename_char_not_ws a Ha) as (_ & _ & _ & _ & _ & ->).
  destruct room as [|room]; [lia|]. rewrite Ha, IH; [done|done|lia].
Qed.

Lemma sanitize_same s :
  s <> "" -> str_forall filename_char s = true -> (String.length s <= SESSION_FILENAME_MAX_LEN)%nat ->
  sanitize_session_filename s = s.
Proof.
  intros Hne Hs Hl. unfold sanitize_session_filename.
  rewrite trim_filename, sanitize_chars_same by done. by rewrite bool_decide_eq_false_2.
Qed.

Lemma sanitize_chars_safe room s :
  str_forall filename_char (sanitize_chars room s) = true
  /\ (String.length (sanitize_chars room s) <= room)%nat.
Proof.
  revert room. induction s as [|a s IH]; intros room; simpl; [split; [done|lia]|].
  destruct (continues a); [apply IH|]. destruct room as [|room]; simpl; [split; [done|lia]|].
  destruct (IH room) as [Hs Hl]. split; [|lia]. rewrite Hs. by destruct (filename_char a) eqn:E; rewrite ?E.
Qed.

(** The markdown file of any session key, whatever a client sends in a
    header, has a name of four to 131 letters, digits, dashes, underscores and
    dots, so it never leaves the directory of its run. *)
Theorem markdown_filename_is_safe session_key :
  str_forall filename_char (session_markdown_filename session_key) = true
  /\ (4 <= String.length (session_markdown_filename session_key) <= 131)%nat.
Proof.
  unfold session_markdown_filename. rewrite str_forall_app, str_length_app. simpl.
  unfold sanitize_session_filename.
  destruct (sanitize_chars_safe SESSION_FILENAME_MAX_LEN (str_trim session_key)) as [Hs Hl].
  unfold SESSION_FILENAME_MAX_LEN in Hl.
  case_bool_decide as He; [by split; [|simpl; lia]|]. rewrite Hs. split; [done|].
  unfold SESSION_FILENAME_MAX_LEN in *. destruct (sanitize_chars 128 (str_trim session_key)); [done|].
  simpl in *. lia.
Qed.

Lemma agent_id_is_filename id : str_forall agent_id_char id = true -> str_forall filename_char id = true.
Proof.
  apply str_forall_impl. intros a. unfold agent_id_char, filename_char.
  intros [[->|Hd]%orb_prop|Hd]%orb_prop; [done|..]; rewrite Hd; by rewrite ?orb_true_r.
Qed.

Lemma sanitize_leaf id :
  str_forall agent_id_char id = true -> (String.length id <= 122)%nat ->
  sanitize_session_filename (subagent_storage_leaf id) = subagent_storage_leaf id.
Proof.
  intros Hid Hl. apply sanitize_same; [done|simpl; by apply agent_id_is_filename|].
  change (6 + String.length id <= 128)%nat. lia.
Qed.

(** A request of a subagent of a run is captured in a file of its own: the
    name of the file has the agent's id, so two agents never share one, and the
    stem of the file gives the subagent's route back when the run's files are
    read.  (The id is one Claude Code uses: letters, digits, dashes and
    underscores, at most 122.) *)
Theorem subagent_file_gives_its_route_back {HeaderMap} get iter to_str ns (headers : HeaderMap) body
    session_header file root id :
  read_run_session file = Some root ->
  extract_claude_agent_id get to_str headers = Some id ->
  is_main_agent_continuation body = false ->
  id <> "" -> str_forall agent_id_char id = true -> (String.length id <= 122)%nat ->
  let route := resolve_capture_route get iter to_str ns headers body session_header file in
  rt_subagent_id route = Some id
  /\ session_markdown_filename (rt_storage_session_id route) = "agent-" +:+ id +:+ ".md"
  /\ rt_subagent_id (for_run_markdown_stem root (rt_storage_session_id route)) = Some id
  /\ rt_root_session (for_run_markdown_stem root (rt_storage_session_id route)) = rt_root_session route.
Proof.
  intros Hf Ha Hb Hne Hid Hl route. subst route. unfold resolve_capture_route. rewrite Hf, Ha, Hb. simpl.
  unfold session_markdown_filename, stem_subagent, is_subagent_session_storage_key.
  rewrite sanitize_leaf by done. unfold subagent_storage_leaf.
  rewrite (proj2 (str_strip_prefix_spec "agent-" _ id) eq_refl), Hid.
  rewrite bool_decide_eq_false_2 by done. simpl. done.
Qed.

Module SessionRouteExample.

(** A header map as a list of names and values. *)
Definition lookup (headers : list (string * string)) (name : string) : option string :=
  snd <$> head (filter (fun kv => fst kv = to_ascii_lowercase name) headers).

Definition subagent_headers : list (string * string) :=
  [("x-claude-code-session-id", "e96634a3-fa28-4083"); ("x-claude-code-agent-id", " a5aa661 ")].

Example main_route :
  resolve_capture_route lookup id Some 7 [("x-claude-code-session-id", "e96634a3-fa28-4083")] None
    "x-persisting-session-id" (Some "my-run
")
  = mkRoute (Some "my-run") "e96634a3-fa28-4083" "e96634a3-fa28-4083" None.
Proof. vm_compute. reflexivity. Qed.

Example ephemeral_route :
  resolve_capture_route lookup id Some 255 [("x-foo-session-id", "abc")] None "x-persisting-session-id" None
  = mkRoute None "ephemeral-ff" "ephemeral-ff" None.
Proof. vm_compute. reflexivity. Qed.

Example unsafe_key : session_markdown_filename " ../../etc/passwd" = ".._.._etc_passwd.md".
Proof. vm_compute. reflexivity. Qed.

Lemma subagent_file_gives_its_route_back_witness :
  rt_subagent_id
    (for_run_markdown_stem "my-run"
       (rt_storage_session_id
          (resolve_capture_route lookup id Some 7 subagent_headers None "x-persisting-session-id" (Some "my-run"))))
  = Some "a5aa661".
Proof.
  apply (subagent_file_gives_its_route_back lookup id Some 7 subagent_headers None "x-persisting-session-id"
           (Some "my-run") "my-run" "a5aa661");
    [vm_compute; reflexivity|vm_compute; reflexivity|reflexivity|discriminate|reflexivity|simpl; lia].
Defined.

End SessionRouteExample.
