(* ===== verification/SubagentLinks.v ===== *)
(** * Gateway: links between a main agent's calls and its subagents

    [subagent_link/]: the registry of the subagents a run has shown
    ([registry.rs]), the matching of spawn hints to them ([match_.rs]), the
    extraction of ids and hints ([extract.rs]) and [enrich_record], which the
    run actor calls for every record ([enrich.rs]).

    A Rust panic is [None].  Parameters: the matches of the regular expressions,
    [serde_json]'s parser, the user message of a request body, the header map of
    [SessionRoute], and the order in which a [HashMap] lists its values, of which
    only that it lists each once is used. *)

From Stdlib Require Import ZArith Lia Ascii.
From stdpp Require Import base list strings gmap numbers option sorting.
From S2P Require Import Prelude Json Events TurnMachine Capture SessionRoute.

#[local] Set Warnings "-clear-no-such-hyp".

(** ** Data *)

Record SpawnHint := mkHint {
  sh_subagent_type : string;
  sh_description : option string;
  sh_prompt : option string;
  sh_doc_target : option string;
}.

Record SpawnLink := mkLink {
  sl_subagent_type : string;
  sl_description : option string;
  sl_doc_target : option string;
  sl_subagent_id : string;
  sl_subagent_trajectory : string;
}.

Record AgentEntry := mkAgent {
  ae_agent_id : string;
  ae_storage_leaf : string;
  ae_first_call_id : option string;
  ae_first_prompt : option string;
  ae_doc_target : option string;
}.

Record PendingMainSpawn := mkPending {
  pm_parent_call_id : string;
  pm_hints : list SpawnHint;
  pm_links : list SpawnLink;
  pm_matched_agents : gset string;
}.

Record RunSubagents := mkRun {
  rs_agents : gmap string AgentEntry;
  rs_pending_mains : list PendingMainSpawn;
  rs_main_storage_session_id : option string;
}.

Definition run_default : RunSubagents := mkRun ∅ [] None.

(** [SubagentRegistry]. *)
Abbreviation SubagentRegistry := (gmap string RunSubagents).

Record SpawnLinkBackfill := mkBackfill { bf_parent_call_id : string; bf_links : list SpawnLink }.

Definition subagent_trajectory_path (storage_leaf : string) : string := session_markdown_filename storage_leaf.

(** ** Matching *)

(** [s.chars().filter(|c| !c.is_whitespace())]. *)
Fixpoint normalize_prompt (s : string) : string :=
  match s with
  | EmptyString => ""
  | String a r =>
      if ws1 a then normalize_prompt r else
      match r with
      | String b r2 =>
          if ws2 a b then normalize_prompt r2 else
          match r2 with
          | String c r3 => if ws3 a b c then normalize_prompt r3 else String a (normalize_prompt r)
          | EmptyString => String a (normalize_prompt r)
          end
      | EmptyString => String a (normalize_prompt r)
      end
  end.

(** [s[..n]]: panics when [n] is inside a character or past the end. *)
Definition is_char_boundary (s : string) (n : nat) : bool :=
  match n with
  | O => true
  | _ => match String.get n s with
         | Some a => negb (continues a)
         | None => bool_decide (n = String.length s)
         end
  end.
Definition slice_to (s : string) (n : nat) : option string :=
  if is_char_boundary s n then Some (String.substring 0 n s) else None.

Definition prompts_match (a b : string) : option bool :=
  let na := normalize_prompt a in
  let nb := normalize_prompt b in
  if (String.length na <? 40)%nat || (String.length nb <? 40)%nat then Some false
  else
    let prefix_len := Nat.min (Nat.min 80 (String.length na)) (String.length nb) in
    x ← slice_to na prefix_len;
    y ← slice_to nb prefix_len;
    Some (bool_decide (x = y)).

Fixpoint find_by_prompt (prompt : string) (used : gset string) (agents : list AgentEntry)
  : option (option AgentEntry) :=
  match agents with
  | [] => Some None
  | e :: rest =>
      if bool_decide (ae_agent_id e ∈ used) then find_by_prompt prompt used rest
      else match ae_first_prompt e with
           | None => find_by_prompt prompt used rest
           | Some p =>
               m ← prompts_match p prompt;
               if (m : bool) then Some (Some e) else find_by_prompt prompt used rest
           end
  end.

Definition find_by_doc (doc : string) (used : gset string) (agents : list AgentEntry) : option AgentEntry :=
  head (filter (fun e => (ae_agent_id e ∉ used) /\ ae_doc_target e = Some doc) agents).

Definition find_agent_for_spawn (agents : list AgentEntry) (hint : SpawnHint) (used : gset string)
  : option (option AgentEntry) :=
  match (sh_doc_target hint ≫= fun doc => find_by_doc doc used agents) with
  | Some entry => Some (Some entry)
  | None =>
      match sh_prompt hint with
      | Some prompt => find_by_prompt prompt used agents
      | None => Some None
      end
  end.

Definition spawn_hint_matches_link (hint : SpawnHint) (link : SpawnLink) : bool :=
  (bool_decide (is_Some (sh_doc_target hint)) && bool_decide (sh_doc_target hint = sl_doc_target link))
  || (bool_decide (is_Some (sh_description hint)) && bool_decide (sh_description hint = sl_description link)).

Definition same_spawn_hint (a b : SpawnHint) : bool :=
  (bool_decide (is_Some (sh_doc_target a)) && bool_decide (sh_doc_target a = sh_doc_target b))
  || (bool_decide (is_Some (sh_description a)) && bool_decide (sh_description a = sh_description b)).

Definition merge_spawn_hints (into new_hints : list SpawnHint) : list SpawnHint :=
  foldl (fun into hint => if existsb (fun h => same_spawn_hint h hint) into then into else into ++ [hint])
    into new_hints.

(** ** The JSON of hints and links *)

Definition opt_field (key : string) (o : option string) : list (string * Value) :=
  match o with Some s => [(key, JString s)] | None => [] end.

Definition spawn_hint_to_json (h : SpawnHint) : Value :=
  JObject ([("subagent_type", JString (sh_subagent_type h))]
           ++ opt_field "description" (sh_description h) ++ opt_field "prompt" (sh_prompt h)
           ++ opt_field "doc_target" (sh_doc_target h)).

Definition spawn_link_to_json (l : SpawnLink) : Value :=
  JObject ([("subagent_type", JString (sl_subagent_type l)); ("subagent_id", JString (sl_subagent_id l));
            ("subagent_trajectory", JString (sl_subagent_trajectory l))]
           ++ opt_field "description" (sl_description l) ++ opt_field "doc_target" (sl_doc_target l)).

Definition strings_value (l : list string) : Value := JArray (JString <$> l).

Definition sorted_set (s : gset string) : list string := merge_sort String.le (elements s).

Definition strings_of (v : Value) : list string :=
  match v with JArray l => omap as_str l | _ => [] end.

Definition merge_string_array_payload (payload : Value) (key : string) (values : list string) : option Value :=
  let existing := match json_get payload key with Some v => strings_of v | None => [] end in
  let set : gset string := list_to_set existing ∪ list_to_set values in
  if bool_decide (set = ∅) then Some payload else json_set payload key (strings_value (sorted_set set)).

Definition apply_spawn_links (payload : Value) (links : list SpawnLink) : option Value :=
  if match links with [] => true | _ => false end then Some payload
  else
    payload ← json_set payload "spawn_links" (JArray (spawn_link_to_json <$> links));
    payload ← merge_string_array_payload payload "refs_subagent_ids" (sl_subagent_id <$> links);
    merge_string_array_payload payload "subagent_trajectories" (sl_subagent_trajectory <$> links).

(** ** Ids and hints in the traffic *)

Definition plausible_agent_id (id : string) : bool :=
  (4 <=? String.length id)%nat && (String.length id <=? 64)%nat && str_forall agent_id_char id.

Section Links.
(** The first groups of the matches of [AGENT_ID_JSON], [AGENT_ID_TOOL_RESULT],
    [TASK_ID_XML] and [TOOL_AGENT_BLOCK], and the match of [DOC_TARGET]. *)
Context (agent_id_json agent_id_tool_result task_id_xml tool_agent_block : string -> list string).
Context (extract_doc_target : string -> option string).
(** [serde_json::from_str]; [extract_user_message_from_request_body]. *)
Context (from_str : string -> option Value) (user_message : Value -> option string).
(** [HashMap::values]. *)
Context (map_values : gmap string AgentEntry -> list AgentEntry).
Context {HeaderMap : Type} (get : HeaderMap -> string -> option string) (to_str : string -> option string).

Definition ids_in_text (text : string) : gset string :=
  list_to_set (filter (fun id => plausible_agent_id id = true)
                 (agent_id_json text ++ agent_id_tool_result text ++ task_id_xml text)).
Definition extract_subagent_ids_from_text (text : string) : list string := sorted_set (ids_in_text text).

Definition text_ids (v : Value) : gset string :=
  match json_get v "text" with Some (JString t) => ids_in_text t | _ => ∅ end.

Fixpoint collect_subagent_ids_from_value (v : Value) : gset string :=
  match v with
  | JString s => ids_in_text s
  | JArray parts => ⋃ (text_ids <$> parts)
  | JObject fields =>
      match (match assoc_get fields "agentId" with Some x => Some x | None => assoc_get fields "agent_id" end) with
      | Some (JString id) => if plausible_agent_id id then {[id]} else ∅
      | _ => ∅
      end
      ∪ (fix go fields : gset string :=
           match fields with
           | [] => ∅
           | (_, w) :: rest => collect_subagent_ids_from_value w ∪ go rest
           end) fields
  | _ => ∅
  end.

Definition part_ids (part : Value) : gset string :=
  if bool_decide (json_get part "type" = Some (JString "tool_result")) then
    match json_get part "content" with Some inner => collect_subagent_ids_from_value inner | None => ∅ end
  else match json_get part "text" with
       | Some (JString text) => ids_in_text text
       | _ => collect_subagent_ids_from_value part
       end.

Definition message_ids (msg : Value) : gset string :=
  match json_get msg "content" with
  | Some (JArray parts) => ⋃ (part_ids <$> parts)
  | Some other => collect_subagent_ids_from_value other
  | None => ∅
  end.

Definition extract_subagent_ids_from_request (body : Value) : list string :=
  match json_get body "messages" with
  | Some (JArray messages) => sorted_set (⋃ (message_ids <$> messages))
  | _ => []
  end.

Definition str_field (v : Value) (key : string) : option string := json_get v key ≫= as_str.

(** The first of the keys the object has. *)
Definition get_first (v : Value) (keys : list string) : option Value := head (omap (json_get v) keys).

Definition hint_of_value (v : Value) : SpawnHint :=
  let subagent_type :=
    default "Agent" (get_first v ["subagent_type"; "agent_type"; "description"] ≫= as_str) in
  let prompt := str_field v "prompt" in
  mkHint subagent_type (str_field v "description") prompt (prompt ≫= extract_doc_target).

Definition extract_spawn_hints_from_assistant (text : string) : list SpawnHint :=
  hint_of_value <$> omap (fun block => from_str (str_trim block)) (tool_agent_block text).

(** ** The registry *)

Definition run_mut (run_key : string) (reg : SubagentRegistry) : RunSubagents :=
  default run_default (reg !! run_key).

Definition set_main (session : option string) (run : RunSubagents) : RunSubagents :=
  mkRun (rs_agents run) (rs_pending_mains run) session.
Definition set_agents (agents : gmap string AgentEntry) (run : RunSubagents) : RunSubagents :=
  mkRun agents (rs_pending_mains run) (rs_main_storage_session_id run).
Definition set_pending (pending : list PendingMainSpawn) (run : RunSubagents) : RunSubagents :=
  mkRun (rs_agents run) pending (rs_main_storage_session_id run).

Definition or_else {A} (a b : option A) : option A := match a with Some _ => a | None => b end.

(** The entry of an agent after a request of it. *)
Definition agent_seen (id leaf call_id : string) (prompt : option string) (old : option AgentEntry) : AgentEntry :=
  let doc_target := prompt ≫= extract_doc_target in
  match old with
  | Some e =>
      mkAgent (ae_agent_id e) (ae_storage_leaf e) (ae_first_call_id e)
        (or_else (ae_first_prompt e) prompt) (or_else (ae_doc_target e) doc_target)
  | None => mkAgent id leaf (Some call_id) prompt doc_target
  end.

Definition register_route (run_key : string) (route : CaptureRoute) (call_id : string)
    (request_body : option Value) (reg : SubagentRegistry) : SubagentRegistry :=
  let run := run_mut run_key reg in
  match rt_subagent_id route with
  | None => <[run_key := set_main (Some (rt_storage_session_id route)) run]> reg
  | Some id =>
      let prompt := request_body ≫= user_message in
      let entry := agent_seen id (rt_storage_session_id route) call_id prompt (rs_agents run !! id) in
      <[run_key := set_agents (<[id := entry]> (rs_agents run)) run]> reg
  end.

Definition trajectory_paths (run_key : string) (ids : list string) (reg : SubagentRegistry) : list string :=
  match reg !! run_key with
  | None => []
  | Some run => omap (fun id => (fun e => subagent_trajectory_path (ae_storage_leaf e)) <$> rs_agents run !! id) ids
  end.

Definition link_to (hint : SpawnHint) (agent : AgentEntry) : SpawnLink :=
  mkLink (sh_subagent_type hint) (sh_description hint) (sh_doc_target hint)
    (ae_agent_id agent) (subagent_trajectory_path (ae_storage_leaf agent)).

Fixpoint match_hints (agents : list AgentEntry) (used : gset string) (hints : list SpawnHint)
  : option (list SpawnLink) :=
  match hints with
  | [] => Some []
  | hint :: rest =>
      found ← find_agent_for_spawn agents hint used;
      match found with
      | None => match_hints agents used rest
      | Some agent =>
          links ← match_hints agents ({[ae_agent_id agent]} ∪ used) rest;
          Some (link_to hint agent :: links)
      end
  end.

Definition match_spawns_to_agents (run_key : string) (hints : list SpawnHint) (reg : SubagentRegistry)
  : option (list SpawnLink) :=
  match reg !! run_key with
  | None => Some []
  | Some run => match_hints (map_values (rs_agents run)) ∅ hints
  end.

(** [pending_mains.iter_mut().find(..)]: change the first entry of a call. *)
Fixpoint update_pending (call : string) (f : PendingMainSpawn -> PendingMainSpawn) (l : list PendingMainSpawn)
  : list PendingMainSpawn :=
  match l with
  | [] => []
  | p :: rest => if decide (pm_parent_call_id p = call) then f p :: rest else p :: update_pending call f rest
  end.
Definition find_pending (call : string) (l : list PendingMainSpawn) : option PendingMainSpawn :=
  head (filter (fun p => pm_parent_call_id p = call) l).

Definition link_ids (links : list SpawnLink) : gset string := list_to_set (sl_subagent_id <$> links).

(** The hints of a call together with its earlier ones, and the calls after
    they are noted. *)
Definition note_hints (call : string) (hints : list SpawnHint) (pending : list PendingMainSpawn)
  : list SpawnHint * list PendingMainSpawn :=
  match find_pending call pending with
  | Some existing =>
      let merged := merge_spawn_hints (pm_hints existing) hints in
      (merged, update_pending call
         (fun p => mkPending (pm_parent_call_id p) merged (pm_links p) (pm_matched_agents p)) pending)
  | None => (hints, pending ++ [mkPending call hints [] ∅])
  end.

(** [remember_main_spawn] of some hints. *)
Definition remember_hints (run_key call : string) (hints : list SpawnHint) (reg : SubagentRegistry)
  : option (list SpawnLink * SubagentRegistry) :=
  let run := run_mut run_key reg in
  let '(merged, pending) := note_hints call hints (rs_pending_mains run) in
  let reg := <[run_key := set_pending pending run]> reg in
  links ← match_spawns_to_agents run_key merged reg;
  let run := run_mut run_key reg in
  let pending := update_pending call
    (fun p => mkPending (pm_parent_call_id p) merged links (link_ids links)) (rs_pending_mains run) in
  Some (links, <[run_key := set_pending pending run]> reg).

Definition remember_main_spawn (run_key call : string) (hints : list SpawnHint) (reg : SubagentRegistry)
  : option (list SpawnLink * SubagentRegistry) :=
  match hints with
  | [] => Some ([], reg)
  | _ => remember_hints run_key call hints reg
  end.

(** The loop over the hints of one pending call: its links and matched agents
    so far, and the new links. *)
Fixpoint link_hints (agent : AgentEntry) (hints : list SpawnHint) (links : list SpawnLink) (used : gset string)
    (new_links : list SpawnLink) : option (list SpawnLink * gset string * list SpawnLink) :=
  match hints with
  | [] => Some (links, used, new_links)
  | hint :: rest =>
      if existsb (spawn_hint_matches_link hint) links then link_hints agent rest links used new_links
      else
        found ← find_agent_for_spawn (map_values {[ae_agent_id agent := agent]}) hint used;
        match found with
        | Some _ =>
            let link := link_to hint agent in
            link_hints agent rest (links ++ [link]) ({[ae_agent_id agent]} ∪ used) (new_links ++ [link])
        | None => link_hints agent rest links used new_links
        end
  end.

Definition link_pending (agent_id : string) (agent : AgentEntry) (p : PendingMainSpawn)
  : option (PendingMainSpawn * list SpawnLinkBackfill) :=
  if bool_decide (agent_id ∈ pm_matched_agents p) then Some (p, [])
  else
    looped ← link_hints agent (pm_hints p) (pm_links p) (pm_matched_agents p) [];
    let '(links, used, new_links) := looped in
    match new_links with
    | [] => Some (mkPending (pm_parent_call_id p) (pm_hints p) links (pm_matched_agents p), [])
    | _ => Some (mkPending (pm_parent_call_id p) (pm_hints p) links used,
                 [mkBackfill (pm_parent_call_id p) new_links])
    end.

Fixpoint link_all (agent_id : string) (agent : AgentEntry) (l : list PendingMainSpawn)
  : option (list PendingMainSpawn * list SpawnLinkBackfill) :=
  match l with
  | [] => Some ([], [])
  | p :: rest =>
      one ← link_pending agent_id agent p;
      others ← link_all agent_id agent rest;
      Some (fst one :: fst others, snd one ++ snd others)
  end.

Definition on_subagent_registered (run_key agent_id : string) (reg : SubagentRegistry)
  : option (list SpawnLinkBackfill * SubagentRegistry) :=
  match (reg !! run_key ≫= fun r => rs_agents r !! agent_id) with
  | None => Some ([], reg)
  | Some agent =>
      let run := run_mut run_key reg in
      done ← link_all agent_id agent (rs_pending_mains run);
      Some (snd done, <[run_key := set_pending (fst done) run]> reg)
  end.

(** ** Enriching a record *)

Definition run_registry_key (route : CaptureRoute) : string :=
  default (rt_storage_session_id route) (rt_root_session route).

Definition main_route_for_backfill (route : CaptureRoute) (reg : SubagentRegistry) : CaptureRoute :=
  let main := reg !! run_registry_key route ≫= rs_main_storage_session_id in
  mkRoute (rt_root_session route) (rt_session_id route)
    (default (rt_storage_session_id route) (or_else main (rt_root_session route))) None.

Definition spawn_link_backfill_record (parent_call_id : string) (links : list SpawnLink) (call : Call)
  : EventRecord :=
  let payload := JObject
    [("parent_call_id", JString parent_call_id); ("spawn_links", JArray (spawn_link_to_json <$> links));
     ("refs_subagent_ids", strings_value (sl_subagent_id <$> links));
     ("subagent_trajectories", strings_value (sl_subagent_trajectory <$> links))] in
  mkEventRecord identity_default 0 "persisting-proxy" "llm.spawn_link" None None None None
    (Some (ca_trace_id call)) (Some parent_call_id) None None None (Some parent_call_id) payload.

Definition set_subagent (id : option string) (r : EventRecord) : EventRecord :=
  mkEventRecord (er_identity r) (er_seq r) (er_source r) (er_kind r) (er_timestamp r) (er_session_id r)
    (er_agent_id r) (er_parent_uuid r) (er_trace_id r) (er_call_id r) id
    (er_parent_agent_id r) (er_branch r) (er_parent_call_id r) (er_payload r).
Definition set_parent_agent (id : option string) (r : EventRecord) : EventRecord :=
  mkEventRecord (er_identity r) (er_seq r) (er_source r) (er_kind r) (er_timestamp r) (er_session_id r)
    (er_agent_id r) (er_parent_uuid r) (er_trace_id r) (er_call_id r) (er_subagent_id r)
    id (er_branch r) (er_parent_call_id r) (er_payload r).

(** [rec.payload[key] = value]. *)
Definition payload_set (key : string) (v : Value) (r : EventRecord) : option EventRecord :=
  set_payload r <$> json_set (er_payload r) key v.

(** The parent agent a nested spawn names. *)
Definition attach_parent (headers : HeaderMap) (r : EventRecord) : option EventRecord :=
  match extract_claude_parent_agent_id get to_str headers with
  | Some parent => payload_set "parent_agent_id" (JString parent) (set_parent_agent (Some parent) r)
  | None => Some r
  end.

(** The ids of earlier subagents in a request of the main agent. *)
Definition attach_refs (run_key : string) (request_body : option Value) (reg : SubagentRegistry) (r : EventRecord)
  : option EventRecord :=
  match request_body with
  | None => Some r
  | Some body =>
      match extract_subagent_ids_from_request body with
      | [] => Some r
      | refs =>
          let trajectories := trajectory_paths run_key refs reg in
          r ← payload_set "refs_subagent_ids" (strings_value refs) r;
          match trajectories with
          | [] => Some r
          | _ => payload_set "subagent_trajectories" (strings_value trajectories) r
          end
      end
  end.

(** The spawn hints in an answer of the main agent. *)
Definition attach_hints (run_key text : string) (r : EventRecord) (reg : SubagentRegistry)
  : option (EventRecord * SubagentRegistry) :=
  match extract_spawn_hints_from_assistant text with
  | [] => Some (r, reg)
  | hints =>
      r ← payload_set "spawn_hints" (JArray (spawn_hint_to_json <$> hints)) r;
      remembered ← remember_main_spawn run_key (default "" (er_call_id r)) hints reg;
      let '(links, reg) := remembered in
      payload ← apply_spawn_links (er_payload r) links;
      Some (set_payload r payload, reg)
  end.

(** The ids of subagents in an answer of the main agent. *)
Definition attach_spawned (run_key text : string) (reg : SubagentRegistry) (r : EventRecord) : option EventRecord :=
  match extract_subagent_ids_from_text text with
  | [] => Some r
  | spawned =>
      let trajectories := trajectory_paths run_key spawned reg in
      payload ← merge_string_array_payload (er_payload r) "refs_subagent_ids" spawned;
      payload ← match trajectories with
                | [] => Some payload
                | _ => merge_string_array_payload payload "subagent_trajectories" trajectories
                end;
      Some (set_payload r payload)
  end.

Definition enrich_record (r : EventRecord) (route : CaptureRoute) (headers : HeaderMap)
    (request_body : option Value) (assistant_text : option string) (reg : SubagentRegistry)
  : option (EventRecord * list SpawnLinkBackfill * SubagentRegistry) :=
  let run_key := run_registry_key route in
  let reg := register_route run_key route (default "" (er_call_id r)) request_body reg in
  match rt_subagent_id route with
  | Some id =>
      let r := set_subagent (Some id) r in
      r ← payload_set "subagent_trajectory"
            (JString (subagent_trajectory_path (rt_storage_session_id route))) r;
      r ← attach_parent headers r;
      registered ← on_subagent_registered run_key id reg;
      Some (r, fst registered, snd registered)
  | None =>
      r ← attach_parent headers r;
      r ← attach_refs run_key request_body reg r;
      match assistant_text with
      | Some text =>
          if bool_decide (text = "") then Some (r, [], reg)
          else
            hinted ← attach_hints run_key text r reg;
            let '(r, reg) := hinted in
            r ← attach_spawned run_key text reg r;
            Some (r, [], reg)
      | None => Some (r, [], reg)
      end
  end.

(** ** Finding an agent *)

(** An agent fits a hint: they name the same document, or the prompt of the
    hint is the agent's first one. *)
Definition hint_matches (hint : SpawnHint) (e : AgentEntry) : Prop :=
  (exists doc, sh_doc_target hint = Some doc /\ ae_doc_target e = Some doc)
  \/ (exists p q, ae_first_prompt e = Some p /\ sh_prompt hint = Some q /\ prompts_match p q = Some true).

Lemma find_by_doc_spec doc used agents :
  match find_by_doc doc used agents with
  | Some e => e ∈ agents /\ (ae_agent_id e ∉ used) /\ ae_doc_target e = Some doc
  | None => forall e, e ∈ agents -> (ae_agent_id e ∉ used) -> ae_doc_target e <> Some doc
  end.
Proof.
  unfold find_by_doc. destruct (filter _ agents) as [|e l] eqn:Hf; simpl.
  - intros e He Hu Hd. assert (H : e ∈ filter (fun e => (ae_agent_id e ∉ used) /\ ae_doc_target e = Some doc) agents)
      by (by apply list_elem_of_filter). rewrite Hf in H. by apply elem_of_nil in H.
  - assert (H : e ∈ filter (fun e => (ae_agent_id e ∉ used) /\ ae_doc_target e = Some doc) agents)
      by (rewrite Hf; by left). apply list_elem_of_filter in H. tauto.
Qed.

Lemma find_by_prompt_spec prompt used agents found :
  find_by_prompt prompt used agents = Some found ->
  match found with
  | Some e => e ∈ agents /\ (ae_agent_id e ∉ used)
      /\ exists p, ae_first_prompt e = Some p /\ prompts_match p prompt = Some true
  | None => forall e p, e ∈ agents -> (ae_agent_id e ∉ used) -> ae_first_prompt e = Some p ->
      prompts_match p prompt = Some false
  end.
Proof.
  induction agents as [|e l IH]; simpl; intros H.
  { simplify_eq. intros e p He. by apply elem_of_nil in He. }
  assert (Hskip : find_by_prompt prompt used l = Some found ->
    (forall p, (ae_agent_id e ∉ used) -> ae_first_prompt e = Some p -> prompts_match p prompt = Some false) ->
    match found with
    | Some e' => e' ∈ e :: l /\ (ae_agent_id e' ∉ used)
        /\ exists p, ae_first_prompt e' = Some p /\ prompts_match p prompt = Some true
    | None => forall e' p, e' ∈ e :: l -> (ae_agent_id e' ∉ used) -> ae_first_prompt e' = Some p ->
        prompts_match p prompt = Some false
    end).
  { intros Hl He. specialize (IH Hl). destruct found as [e'|].
    - destruct IH as (? & ? & ?). split_and!; try done. by right.
    - intros e' p [->|Hin]%elem_of_cons; eauto. }
  case_bool_decide; [by apply Hskip|]. destruct (ae_first_prompt e) as [p|] eqn:Hp; [|by apply Hskip].
  destruct (prompts_match p prompt) as [[]|] eqn:Hm; simplify_eq/=.
  - split_and!; [by left|done|eauto].
  - apply Hskip; [done|]. intros. by simplify_eq.
Qed.

Lemma find_agent_spec agents hint used found :
  find_agent_for_spawn agents hint used = Some found ->
  match found with
  | Some e => e ∈ agents /\ (ae_agent_id e ∉ used) /\ hint_matches hint e
  | None => forall e, e ∈ agents -> (ae_agent_id e ∉ used) -> ~ hint_matches hint e
  end.
Proof.
  unfold find_agent_for_spawn. intros H.
  assert (Hdoc : match (sh_doc_target hint ≫= fun doc => find_by_doc doc used agents) with
    | Some e => e ∈ agents /\ (ae_agent_id e ∉ used) /\ hint_matches hint e
    | None => forall e doc, e ∈ agents -> (ae_agent_id e ∉ used) -> sh_doc_target hint = Some doc ->
        ae_doc_target e <> Some doc
    end).
  { destruct (sh_doc_target hint) as [doc|] eqn:Hd; simpl; [|done].
    pose proof (find_by_doc_spec doc used agents) as Hs. destruct (find_by_doc doc used agents) as [e|].
    - destruct Hs as (? & ? & ?). split_and!; try done. left. eauto.
    - intros e doc' ? ? [= <-]. eauto. }
  destruct (sh_doc_target hint ≫= _) as [e|]; [by simplify_eq|].
  destruct (sh_prompt hint) as [q|] eqn:Hq.
  - apply find_by_prompt_spec in H. destruct found as [e|].
    + destruct H as (? & ? & p & ? & ?). split_and!; try done. right. eauto.
    + intros e He Hu [(doc & Hd & He')|(p & q' & Hp & Hq' & Hm)]; [by eapply Hdoc|].
      simplify_eq. rewrite (H e p) in Hm by done. done.
  - simplify_eq. intros e He Hu [(doc & Hd & He')|(p & q' & _ & Hq' & _)]; [by eapply Hdoc|congruence].
Qed.

(** ** Matching the hints of a call *)

(** A hint has a link: one made from it, or one the backfill takes for it. *)
Definition covered (hint : SpawnHint) (links : list SpawnLink) : Prop :=
  exists l, l ∈ links /\ (spawn_hint_matches_link hint l = true \/ exists e, l = link_to hint e).

Lemma covered_mono hint l1 l2 : (forall l, l ∈ l1 -> l ∈ l2) -> covered hint l1 -> covered hint l2.
Proof. intros Hs (l & Hl & Hc). exists l. auto. Qed.

Lemma match_hints_spec agents used hints links :
  match_hints agents used hints = Some links ->
  NoDup (sl_subagent_id <$> links)
  /\ (forall l, l ∈ links -> (sl_subagent_id l ∉ used)
        /\ exists h e, h ∈ hints /\ e ∈ agents /\ l = link_to h e /\ hint_matches h e)
  /\ (forall h e, h ∈ hints -> e ∈ agents -> hint_matches h e -> (ae_agent_id e ∉ used) ->
        ae_agent_id e ∈ sl_subagent_id <$> links \/ covered h links).
Proof.
  revert used links. induction hints as [|h hints IH]; intros used links H; simpl in H.
  { simplify_eq. split_and!; [constructor|by intros ? ?%elem_of_nil|by intros ? ? ?%elem_of_nil]. }
  destruct (find_agent_for_spawn agents h used) as [found|] eqn:Hf; [|done]. simpl in H.
  apply find_agent_spec in Hf. destruct found as [a|].
  - destruct (match_hints agents ({[ae_agent_id a]} ∪ used) hints) as [rest|] eqn:Hr; [|done].
    simplify_eq/=. destruct (IH _ _ Hr) as (Hnd & Hl & Hc). destruct Hf as (Ha & Hu & Hm). split_and!.
    + constructor; [|done]. intros (l & Heq & Hin)%list_elem_of_fmap.
      destruct (Hl l Hin) as [Hnot _]. rewrite <- Heq in Hnot. set_solver.
    + intros l [->|Hin]%elem_of_cons.
      * split; [done|]. exists h, a. split_and!; try done. by left.
      * destruct (Hl l Hin) as (Hnot & h' & e & Hh & He & Heq & Hme). split; [set_solver|].
        exists h', e. split_and!; try done. by right.
    + intros h' e [->|Hh]%elem_of_cons He Hme Hue.
      * right. exists (link_to h a). split; [by left|]. right. eauto.
      * destruct (decide (ae_agent_id e = ae_agent_id a)) as [Heq|Hne]; [left; rewrite Heq; by left|].
        destruct (Hc h' e Hh He Hme ltac:(set_solver)) as [Hin|Hcov]; [left; by right|].
        right. eapply covered_mono; [|done]. intros. by right.
  - destruct (IH _ _ H) as (Hnd & Hl & Hc). split_and!; [done|..].
    + intros l Hin. destruct (Hl l Hin) as (Hnot & h' & e & Hh & ?). split; [done|].
      exists h', e. split; [by right|done].
    + intros h' e [->|Hh]%elem_of_cons He Hme Hue; [by destruct (Hf e He Hue)|eauto].
Qed.

Section Laws.
Hypothesis map_values_perm : forall m, map_values m ≡ₚ (map_to_list m).*2.

Lemma map_values_elem m e : e ∈ map_values m <-> exists id, m !! id = Some e.
Proof.
  rewrite (elem_of_Permutation_proper e _ _ (map_values_perm m)), list_elem_of_fmap. split.
  - intros ([id e'] & -> & Hin). exists id. by apply elem_of_map_to_list in Hin.
  - intros [id Hid]. exists (id, e). split; [done|]. by apply elem_of_map_to_list.
Qed.

Lemma link_hints_spec agent hints links used new links' used' new' :
  link_hints agent hints links used new = Some (links', used', new') ->
  exists added, links' = links ++ added /\ new' = new ++ added
    /\ used' = link_ids added ∪ used
    /\ NoDup (sl_subagent_id <$> added)
    /\ (forall l, l ∈ added -> (sl_subagent_id l ∉ used)
          /\ exists h, h ∈ hints /\ l = link_to h agent /\ hint_matches h agent)
    /\ (forall h, h ∈ hints -> hint_matches h agent -> ae_agent_id agent ∈ used' \/ covered h links').
Proof.
  revert links used new. induction hints as [|h hints IH]; intros links used new H; simpl in H.
  { simplify_eq. exists []. rewrite !app_nil_r. unfold link_ids. simpl.
    split_and!; [done|done|set_solver|constructor|by intros ? ?%elem_of_nil|by intros ? ?%elem_of_nil]. }
  destruct (existsb (spawn_hint_matches_link h) links) eqn:Hex.
  - destruct (IH _ _ _ H) as (added & -> & -> & -> & Hnd & Hl & Hc). exists added. split_and!; try done.
    + intros l Hin. destruct (Hl l Hin) as (? & h' & ? & ?). split; [done|]. exists h'. split; [by right|done].
    + intros h' [->|Hh]%elem_of_cons Hm; [|eauto]. right. apply existsb_exists in Hex as (l & Hin & Hml).
      exists l. split; [|by left]. apply elem_of_app. left. by apply list_elem_of_In.
  - destruct (find_agent_for_spawn _ h used) as [found|] eqn:Hf; [|done]. simpl in H.
    apply find_agent_spec in Hf. destruct found as [a|].
    + destruct Hf as (Ha & Hu & Hm). apply map_values_elem in Ha as (id & [<- <-]%lookup_singleton_Some).
      destruct (IH _ _ _ H) as (added & -> & -> & -> & Hnd & Hl & Hc).
      exists (link_to h agent :: added). rewrite <- !app_assoc. split_and!; try done.
      * unfold link_ids. simpl. set_solver.
      * simpl. constructor; [|done]. intros (l & Heq & Hin)%list_elem_of_fmap.
        destruct (Hl l Hin) as [Hnot _]. rewrite <- Heq in Hnot. set_solver.
      * intros l [->|Hin]%elem_of_cons.
        -- split; [done|]. exists h. split_and!; [by left|done|done].
        -- destruct (Hl l Hin) as (? & h' & ? & ?). split; [set_solver|]. exists h'. split; [by right|done].
      * intros h' _ _. left. set_solver.
    + destruct (IH _ _ _ H) as (added & -> & -> & -> & Hnd & Hl & Hc). exists added. split_and!; try done.
      * intros l Hin. destruct (Hl l Hin) as (? & h' & ? & ?). split; [done|]. exists h'. split; [by right|done].
      * intros h' [->|Hh]%elem_of_cons Hm; [|eauto]. left.
        destruct (decide (ae_agent_id agent ∈ used)) as [?|Hu]; [set_solver|].
        destruct (Hf agent); [|done|done]. apply map_values_elem. eexists. apply lookup_singleton_eq.
Qed.

(** ** What the registry keeps true *)

(** The links of a call: one agent each, agents of the run with their own
    files, made from hints they fit. *)
Record links_ok (agents : gmap string AgentEntry) (p : PendingMainSpawn) : Prop := {
  lo_matched : pm_matched_agents p = link_ids (pm_links p);
  lo_nodup : NoDup (sl_subagent_id <$> pm_links p);
  lo_links : forall l, l ∈ pm_links p ->
    exists h e, agents !! sl_subagent_id l = Some e /\ h ∈ pm_hints p /\ l = link_to h e /\ hint_matches h e;
}.

(** No agent that fits a hint without a link is left out. *)
Definition agent_done (p : PendingMainSpawn) (id : string) (e : AgentEntry) : Prop :=
  forall h, h ∈ pm_hints p -> hint_matches h e -> id ∈ pm_matched_agents p \/ covered h (pm_links p).

Record run_inv (run : RunSubagents) : Prop := {
  ri_ids : forall id e, rs_agents run !! id = Some e -> ae_agent_id e = id;
  ri_calls : NoDup (pm_parent_call_id <$> rs_pending_mains run);
  ri_links : forall p, p ∈ rs_pending_mains run -> links_ok (rs_agents run) p;
  ri_done : forall p id e, p ∈ rs_pending_mains run -> rs_agents run !! id = Some e -> agent_done p id e;
}.

Definition reg_inv (reg : SubagentRegistry) : Prop := forall key run, reg !! key = Some run -> run_inv run.

Lemma run_inv_default : run_inv run_default.
Proof. split; simpl; try (by intros ? ?%elem_of_nil); try (by intros ? ? ? ?%elem_of_nil); [|constructor]. done. Qed.

Lemma reg_inv_run key reg : reg_inv reg -> run_inv (run_mut key reg).
Proof. unfold run_mut. intros Hr. destruct (reg !! key) eqn:H; [by eapply Hr|apply run_inv_default]. Qed.

Lemma reg_inv_insert key run reg : reg_inv reg -> run_inv run -> reg_inv (<[key := run]> reg).
Proof.
  intros Hr Hrun k r. destruct (decide (key = k)) as [->|Hne].
  - rewrite lookup_insert_eq. by intros [= <-].
  - rewrite lookup_insert_ne by done. apply Hr.
Qed.

(** What stays of an agent when it is seen again. *)
Definition agent_le (e e' : AgentEntry) : Prop :=
  ae_agent_id e' = ae_agent_id e /\ ae_storage_leaf e' = ae_storage_leaf e
  /\ (forall p, ae_first_prompt e = Some p -> ae_first_prompt e' = Some p)
  /\ (forall d, ae_doc_target e = Some d -> ae_doc_target e' = Some d).

Lemma agent_le_matches h e e' : agent_le e e' -> hint_matches h e -> hint_matches h e'.
Proof. intros (_ & _ & Hp & Hd) [(doc & ? & ?)|(p & q & ? & ? & ?)]; [left|right]; eauto 6. Qed.

Lemma agent_le_link h e e' : agent_le e e' -> link_to h e' = link_to h e.
Proof. intros (Hi & Hl & _). unfold link_to. by rewrite Hi, Hl. Qed.

Lemma agent_seen_le id leaf call prompt e : agent_le e (agent_seen id leaf call prompt (Some e)).
Proof. split_and!; [done|done|..]; simpl; by intros ? ->. Qed.

Lemma agent_seen_id id leaf call prompt old :
  (forall e, old = Some e -> ae_agent_id e = id) -> ae_agent_id (agent_seen id leaf call prompt old) = id.
Proof. intros H. destruct old as [e|]; [exact (H e eq_refl)|done]. Qed.

(** Seeing an agent keeps the links of every call. *)
Lemma links_ok_seen agents id leaf call prompt p :
  links_ok agents p -> links_ok (<[id := agent_seen id leaf call prompt (agents !! id)]> agents) p.
Proof.
  intros [Hm Hn Hl]. split; [done|done|]. intros l Hin.
  destruct (Hl l Hin) as (h & e & He & Hh & Heq & Hme). destruct (decide (id = sl_subagent_id l)) as [->|Hne].
  - rewrite lookup_insert_eq, He. pose proof (agent_seen_le (sl_subagent_id l) leaf call prompt e) as Hle.
    eexists h, _. split_and!; [done|done| |by eapply agent_le_matches]. by rewrite (agent_le_link _ _ _ Hle).
  - exists h, e. by rewrite lookup_insert_ne.
Qed.

(** ** Registering an agent *)

Lemma link_pending_spec id agent agents p p' bfs :
  link_pending id agent p = Some (p', bfs) ->
  links_ok agents p -> agents !! id = Some agent -> ae_agent_id agent = id ->
  links_ok agents p' /\ agent_done p' id agent
  /\ pm_parent_call_id p' = pm_parent_call_id p /\ pm_hints p' = pm_hints p
  /\ (exists added, pm_links p' = pm_links p ++ added
        /\ bfs = match added with [] => [] | _ => [mkBackfill (pm_parent_call_id p) added] end)
  /\ pm_matched_agents p ⊆ pm_matched_agents p'.
Proof.
  unfold link_pending. intros H [Hm Hn Hl] Ha Hid. case_bool_decide as Hin.
  { simplify_eq. split_and!; [done| |done|done| |done].
    - intros h _ _. by left.
    - exists []. by rewrite app_nil_r. }
  destruct (link_hints agent (pm_hints p) (pm_links p) (pm_matched_agents p) []) as [[[links used] new]|] eqn:Hh;
    [|done]. simpl in H.
  apply link_hints_spec in Hh as (added & -> & -> & -> & Hnd & Had & Hc).
  assert (Hok : links_ok agents (mkPending (pm_parent_call_id p) (pm_hints p) (pm_links p ++ added)
                                   (link_ids added ∪ pm_matched_agents p))).
  { split; simpl.
    - rewrite Hm. unfold link_ids. rewrite fmap_app, list_to_set_app_L. set_solver.
    - rewrite fmap_app. apply NoDup_app. split_and!; [done| |done].
      intros i Hi (l & -> & Hin')%list_elem_of_fmap. destruct (Had l Hin') as [Hnot _]. apply Hnot.
      rewrite Hm. unfold link_ids. by apply elem_of_list_to_set.
    - intros l [Hin'|Hin']%elem_of_app; [by apply Hl|].
      destruct (Had l Hin') as (_ & h & Hh & -> & Hme). exists h, agent. simpl. by rewrite Hid. }
  assert (Hdone : agent_done (mkPending (pm_parent_call_id p) (pm_hints p) (pm_links p ++ added)
                                (link_ids added ∪ pm_matched_agents p)) id agent).
  { intros h Hh Hme. simpl in *. rewrite <- Hid. by apply Hc. }
  assert (Hsame : added = [] -> link_ids added ∪ pm_matched_agents p = pm_matched_agents p).
  { intros ->. unfold link_ids. simpl. set_solver. }
  destruct added as [|l added]; simpl in H; simplify_eq.
  - rewrite Hsame in Hok, Hdone by done. split_and!; [done|done|done|done|by exists []|done].
  - split_and!; [done|done|done|done|by exists (l :: added)|simpl; set_solver].
Qed.

Lemma link_pending_keeps id agent agents p p' bfs id' e' :
  link_pending id agent p = Some (p', bfs) ->
  links_ok agents p -> agents !! id = Some agent -> ae_agent_id agent = id ->
  agent_done p id' e' -> agent_done p' id' e'.
Proof.
  intros H Hok Ha Hid Hd.
  destruct (link_pending_spec _ _ _ _ _ _ H Hok Ha Hid) as (_ & _ & _ & Hhints & (added & Hlinks & _) & Hsub).
  intros h Hh Hm. rewrite Hhints in Hh. destruct (Hd h Hh Hm) as [?|Hc]; [left; set_solver|right].
  rewrite Hlinks. eapply covered_mono; [|done]. intros. apply elem_of_app. by left.
Qed.

Lemma link_all_spec id agent agents l l' bfs :
  link_all id agent l = Some (l', bfs) ->
  (forall p, p ∈ l -> links_ok agents p) -> agents !! id = Some agent -> ae_agent_id agent = id ->
  (pm_parent_call_id <$> l') = (pm_parent_call_id <$> l)
  /\ (forall p', p' ∈ l' -> exists p b, p ∈ l /\ link_pending id agent p = Some (p', b)).
Proof.
  revert l' bfs. induction l as [|p l IH]; intros l' bfs H Hok Ha Hid; simpl in H.
  { simplify_eq. split; [done|]. by intros ? ?%elem_of_nil. }
  destruct (link_pending id agent p) as [[p' b]|] eqn:Hp; [|done].
  destruct (link_all id agent l) as [[r bs]|] eqn:Hr; [|done]. simplify_eq/=.
  destruct (IH _ _ eq_refl) as [Hc Hin]; [intros q Hq; apply Hok; by right|done|done|].
  destruct (link_pending_spec _ _ agents _ _ _ Hp) as (_ & _ & Hcall & _); [apply Hok; by left|done|done|].
  split; [by rewrite Hcall, Hc|]. intros q [->|Hq]%elem_of_cons.
  - exists p, b. split; [by left|done].
  - destruct (Hin q Hq) as (p0 & b0 & ? & ?). exists p0, b0. split; [by right|done].
Qed.

(** Registering an agent and linking it keeps the invariant of its run. *)
Lemma run_inv_registers run id leaf call prompt l' bfs :
  run_inv run ->
  let entry := agent_seen id leaf call prompt (rs_agents run !! id) in
  link_all id entry (rs_pending_mains run) = Some (l', bfs) ->
  run_inv (mkRun (<[id := entry]> (rs_agents run)) l' (rs_main_storage_session_id run)).
Proof.
  intros [Hids Hcalls Hlinks Hdone] entry Hl.
  assert (Hid : ae_agent_id entry = id) by (apply agent_seen_id; intros e He; by apply Hids).
  assert (Hok : forall p, p ∈ rs_pending_mains run -> links_ok (<[id := entry]> (rs_agents run)) p)
    by (intros p Hp; by apply links_ok_seen, Hlinks).
  assert (Hlook : <[id := entry]> (rs_agents run) !! id = Some entry) by apply lookup_insert_eq.
  destruct (link_all_spec _ _ _ _ _ _ Hl Hok Hlook Hid) as [Hc Hin]. split; simpl.
  - intros i e [[<- <-]|[_ He]]%lookup_insert_Some; [done|by apply Hids].
  - by rewrite Hc.
  - intros p' (p & b & Hp & Hlp)%Hin. by eapply link_pending_spec; [|apply Hok| |].
  - intros p' i e (p & b & Hp & Hlp)%Hin [[<- <-]|[_ He]]%lookup_insert_Some.
    + by eapply link_pending_spec; [|apply Hok| |].
    + eapply link_pending_keeps; [done|by apply Hok|done|done|by apply Hdone].
Qed.

(** ** Remembering the hints of a call *)

Lemma update_pending_elem call f l p' :
  NoDup (pm_parent_call_id <$> l) -> p' ∈ update_pending call f l ->
  (p' ∈ l /\ pm_parent_call_id p' <> call) \/ exists p, p ∈ l /\ pm_parent_call_id p = call /\ p' = f p.
Proof.
  induction l as [|p l IH]; simpl; [by intros _ ?%elem_of_nil|]. intros [Hp Hnd]%NoDup_cons.
  case_decide as Hc.
  - intros [->|Hin]%elem_of_cons; [right; exists p; split; [by left|done]|left]. split; [by right|].
    intros Heq. apply Hp. rewrite Hc, <- Heq. by apply list_elem_of_fmap_2.
  - intros [->|H]%elem_of_cons; [left; split; [by left|done]|].
    destruct (IH Hnd H) as [[? ?]|(q & ? & ? & ?)]; [left; split; [by right|done]|right].
    exists q. split; [by right|done].
Qed.

Lemma update_pending_calls call f l :
  (forall p, pm_parent_call_id (f p) = pm_parent_call_id p) ->
  pm_parent_call_id <$> update_pending call f l = pm_parent_call_id <$> l.
Proof.
  intros Hf. induction l as [|p l IH]; [done|]. simpl. case_decide; csimpl; [by rewrite Hf|by rewrite IH].
Qed.

Lemma find_pending_None call l :
  find_pending call l = None -> call ∉ pm_parent_call_id <$> l.
Proof.
  unfold find_pending. intros H (p & -> & Hp)%list_elem_of_fmap.
  assert (Hin : p ∈ filter (fun q => pm_parent_call_id q = pm_parent_call_id p) l)
    by (by apply list_elem_of_filter).
  destruct (filter _ l); [by apply elem_of_nil in Hin|done].
Qed.

(** A call whose hints have just been matched. *)
Lemma matched_call run call hints links :
  run_inv run -> match_hints (map_values (rs_agents run)) ∅ hints = Some links ->
  let p := mkPending call hints links (link_ids links) in
  links_ok (rs_agents run) p /\ forall id e, rs_agents run !! id = Some e -> agent_done p id e.
Proof.
  intros Hinv Hm p. apply match_hints_spec in Hm as (Hnd & Hl & Hc). split.
  - split; [done|done|]. intros l Hin. destruct (Hl l Hin) as (_ & h & e & Hh & He & -> & Hme).
    apply map_values_elem in He as [id He]. exists h, e. simpl. by rewrite (ri_ids _ Hinv _ _ He).
  - intros id e He h Hh Hme. simpl in *. rewrite <- (ri_ids _ Hinv _ _ He).
    destruct (Hc h e) as [Hin|Hcov]; [done|apply map_values_elem; eauto|done|set_solver| |by right].
    left. unfold link_ids. by apply elem_of_list_to_set.
Qed.

Lemma run_inv_rematched run call hints links pending :
  run_inv run -> match_hints (map_values (rs_agents run)) ∅ hints = Some links ->
  NoDup (pm_parent_call_id <$> pending) ->
  (forall p, p ∈ pending -> p ∈ rs_pending_mains run \/ p = mkPending call hints links (link_ids links)) ->
  run_inv (set_pending pending run).
Proof.
  intros Hinv Hm Hnd Hp. destruct (matched_call run call hints links Hinv Hm) as [Hok Hdone].
  destruct Hinv as [Hids Hcalls Hlinks Hdone0]. split; simpl; [done|done|..].
  - intros p [?| ->]%Hp; [by apply Hlinks|done].
  - intros p id e [?| ->]%Hp He; [by apply Hdone0|by apply Hdone].
Qed.

Lemma set_pending_twice a b run : set_pending a (set_pending b run) = set_pending a run.
Proof. done. Qed.

Lemma run_mut_insert key run (reg : SubagentRegistry) : run_mut key (<[key := run]> reg) = run.
Proof. unfold run_mut. by rewrite lookup_insert_eq. Qed.

Lemma note_hints_spec call hints l :
  NoDup (pm_parent_call_id <$> l) ->
  NoDup (pm_parent_call_id <$> snd (note_hints call hints l))
  /\ forall p, p ∈ snd (note_hints call hints l) -> p ∈ l \/ pm_parent_call_id p = call.
Proof.
  intros Hnd. unfold note_hints. destruct (find_pending call l) as [existing|] eqn:Hf; simpl.
  - rewrite update_pending_calls by done. split; [done|].
    intros p [[? _]|(q & _ & <- & ->)]%update_pending_elem; [by left|by right|done].
  - rewrite fmap_app. split.
    + apply NoDup_app. split_and!; [done| |apply NoDup_singleton].
      intros c Hc ->%list_elem_of_singleton. by apply find_pending_None in Hf.
    + intros p [?|?%list_elem_of_singleton]%elem_of_app; [by left|subst; by right].
Qed.

Lemma remember_inv key call hints reg links reg' :
  reg_inv reg -> remember_main_spawn key call hints reg = Some (links, reg') -> reg_inv reg'.
Proof.
  intros Hreg H. assert (reg' = reg \/ remember_hints key call hints reg = Some (links, reg')) as [->|H'];
    [destruct hints; [left; by simplify_eq/=|by right]|done|]. clear H. unfold remember_hints in H'.
  set (run := run_mut key reg) in *. pose proof (reg_inv_run key reg Hreg) as Hrun. fold run in Hrun.
  destruct (note_hints_spec call hints _ (ri_calls _ Hrun)) as [Hnd Hp].
  destruct (note_hints call hints (rs_pending_mains run)) as [merged pending]. simpl in Hnd, Hp.
  unfold match_spawns_to_agents in H'. rewrite lookup_insert_eq, run_mut_insert in H'. simpl in H'.
  destruct (match_hints (map_values (rs_agents run)) ∅ merged) as [ls|] eqn:Hm; simpl in H'; [|done].
  rewrite insert_insert_eq, set_pending_twice in H'. simplify_eq. apply reg_inv_insert; [done|].
  apply (run_inv_rematched run call merged links); [done|done|by rewrite update_pending_calls|].
  intros p [[Hin Hne]|(q & _ & <- & ->)]%update_pending_elem; [|by right|done].
  destruct (Hp p Hin) as [?|?]; [by left|done].
Qed.

(** ** Every record *)

Lemma register_main_inv key route call body reg :
  reg_inv reg -> rt_subagent_id route = None -> reg_inv (register_route key route call body reg).
Proof.
  intros Hreg Hs. unfold register_route. rewrite Hs. apply reg_inv_insert; [done|].
  pose proof (reg_inv_run key reg Hreg) as [Hids Hcalls Hlinks Hdone]. by split.
Qed.

Lemma registered_agent_inv key route call body reg id bfs reg' :
  reg_inv reg -> rt_subagent_id route = Some id ->
  on_subagent_registered key id (register_route key route call body reg) = Some (bfs, reg') ->
  reg_inv reg'.
Proof.
  intros Hreg Hs. unfold on_subagent_registered, register_route. rewrite Hs, lookup_insert_eq. simpl.
  rewrite lookup_insert_eq, run_mut_insert. simpl.
  destruct (link_all _ _ _) as [[l' bs]|] eqn:Hl; simpl; [|done]. intros [= <- <-].
  rewrite insert_insert_eq. apply reg_inv_insert; [done|].
  by eapply run_inv_registers in Hl; [|by apply reg_inv_run].
Qed.

Lemma attach_hints_inv key text r reg r' reg' :
  reg_inv reg -> attach_hints key text r reg = Some (r', reg') -> reg_inv reg'.
Proof.
  intros Hreg. unfold attach_hints. destruct (extract_spawn_hints_from_assistant text) as [|h hs];
    [by intros [= <- <-]|]. intros H.
  apply bind_Some in H as (r1 & _ & H). apply bind_Some in H as ([links reg1] & Hrem & H).
  apply bind_Some in H as (payload & _ & H). simplify_eq. by eapply remember_inv.
Qed.

Lemma enrich_inv r route headers body text reg r' bfs reg' :
  reg_inv reg -> enrich_record r route headers body text reg = Some (r', bfs, reg') -> reg_inv reg'.
Proof.
  intros Hreg. unfold enrich_record. intros H. destruct (rt_subagent_id route) as [id|] eqn:Hs.
  - destruct (payload_set _ _ _) as [r1|]; simpl in H; [|done].
    destruct (attach_parent _ _) as [r2|]; simpl in H; [|done].
    destruct (on_subagent_registered _ _ _) as [[b reg1]|] eqn:Ho; simplify_eq/=.
    by eapply registered_agent_inv.
  - pose proof (register_main_inv (run_registry_key route) route (default "" (er_call_id r)) body reg Hreg Hs) as Hm.
    destruct (attach_parent _ _) as [r1|]; simpl in H; [|done].
    destruct (attach_refs _ _ _ _) as [r2|]; simpl in H; [|done].
    destruct text as [text|]; [|by simplify_eq]. case_bool_decide; [by simplify_eq|].
    destruct (attach_hints _ _ _ _) as [[r3 reg1]|] eqn:Ha; simpl in H; [|done].
    destruct (attach_spawned _ _ _ _); simplify_eq/=. by eapply attach_hints_inv.
Qed.

(** ** Records that do not panic *)

Definition ascii_str (s : string) : bool := str_forall (byte_in 0 127) s.

Lemma normalize_forall p s : str_forall p s = true -> str_forall p (normalize_prompt s) = true.
Proof.
  remember (String.length s) as n eqn:Hn. revert s Hn.
  induction (lt_wf n) as [n _ IH]. intros s -> Hs.
  assert (Hrec : forall t, (String.length t < String.length s)%nat -> str_forall p t = true ->
    str_forall p (normalize_prompt t) = true) by (intros t Ht; by apply (IH (String.length t))).
  destruct s as [|a r]; [done|]. simpl in Hs. apply andb_prop in Hs as [Ha Hr].
  assert (Hkeep : str_forall p (String a (normalize_prompt r)) = true)
    by (simpl; rewrite Ha; apply Hrec; [simpl; lia|done]).
  simpl. destruct (ws1 a); [apply Hrec; [simpl; lia|done]|].
  destruct r as [|b r2]; [done|]. simpl in Hr. apply andb_prop in Hr as [Hb Hr2].
  destruct (ws2 a b); [apply Hrec; [simpl; lia|done]|].
  destruct r2 as [|c r3]; [done|]. simpl in Hr2. apply andb_prop in Hr2 as [Hc Hr3].
  destruct (ws3 a b c); [apply Hrec; [simpl; lia|done]|done].
Qed.

Lemma get_forall p s n a : str_forall p s = true -> String.get n s = Some a -> p a = true.
Proof.
  revert n. induction s as [|b s IH]; intros n Hs Hg; simpl in *; [by destruct n|].
  apply andb_prop in Hs as [Hb Hs]. destruct n; simplify_eq/=; [done|by eapply IH].
Qed.

Lemma get_None s n : String.get n s = None -> (String.length s <= n)%nat.
Proof.
  revert n. induction s as [|b s IH]; intros n Hg; simpl in *; [lia|].
  destruct n; simplify_eq/=. specialize (IH _ Hg). lia.
Qed.

Lemma slice_ascii s n : ascii_str s = true -> (n <= String.length s)%nat -> is_Some (slice_to s n).
Proof.
  intros Hs Hn. unfold slice_to, is_char_boundary.
  destruct n as [|n]; [eauto|]. destruct (String.get (S n) s) as [a|] eqn:Hg.
  - apply (get_forall _ _ _ _ Hs) in Hg. unfold continues, byte_in in *.
    destruct (N.leb_spec 128 (N_of_ascii a)); simpl; [|eauto].
    apply andb_prop in Hg as [_ Hg%N.leb_le]. lia.
  - apply get_None in Hg. rewrite bool_decide_eq_true_2 by lia. eauto.
Qed.

Lemma prompts_match_ascii a b : ascii_str a = true -> ascii_str b = true -> is_Some (prompts_match a b).
Proof.
  intros Ha Hb. unfold prompts_match. apply normalize_forall in Ha, Hb.
  set (na := normalize_prompt a) in *. set (nb := normalize_prompt b) in *.
  destruct (_ || _); [eauto|].
  destruct (slice_ascii na (Nat.min (Nat.min 80 (String.length na)) (String.length nb)) Ha) as [x ->]; [lia|].
  destruct (slice_ascii nb (Nat.min (Nat.min 80 (String.length na)) (String.length nb)) Hb) as [y ->]; [lia|].
  simpl. eauto.
Qed.

Definition hint_ascii (h : SpawnHint) : Prop := forall q, sh_prompt h = Some q -> ascii_str q = true.
Definition agent_ascii (e : AgentEntry) : Prop := forall p, ae_first_prompt e = Some p -> ascii_str p = true.

Lemma find_agent_ascii agents h used :
  (forall e, e ∈ agents -> agent_ascii e) -> hint_ascii h -> is_Some (find_agent_for_spawn agents h used).
Proof.
  intros Ha Hh. unfold find_agent_for_spawn. destruct (sh_doc_target h ≫= _); [eauto|].
  destruct (sh_prompt h) as [q|] eqn:Hq; [|eauto]. specialize (Hh q Hq).
  induction agents as [|e l IH]; simpl; [eauto|].
  assert (IH' : is_Some (find_by_prompt q used l)) by (apply IH; intros; apply Ha; by right).
  case_bool_decide; [done|]. destruct (ae_first_prompt e) as [p|] eqn:Hp; [|done].
  destruct (prompts_match_ascii p q) as [[] Hm]; [by apply (Ha e); [left|]|done|..]; rewrite Hm; simpl; [eauto|done].
Qed.

Lemma match_hints_ascii agents used hints :
  (forall e, e ∈ agents -> agent_ascii e) -> (forall h, h ∈ hints -> hint_ascii h) ->
  is_Some (match_hints agents used hints).
Proof.
  intros Ha. revert used. induction hints as [|h hints IH]; intros used Hh; simpl; [eauto|].
  destruct (find_agent_ascii agents h used Ha) as [found ->]; [apply Hh; by left|]. simpl.
  assert (IH' : forall u, is_Some (match_hints agents u hints)) by (intros u; apply IH; intros; apply Hh; by right).
  destruct found as [a|]; [|done]. destruct (IH' ({[ae_agent_id a]} ∪ used)) as [ls ->]. simpl. eauto.
Qed.

Lemma link_hints_ascii agent hints links used new :
  agent_ascii agent -> (forall h, h ∈ hints -> hint_ascii h) ->
  is_Some (link_hints agent hints links used new).
Proof.
  intros Ha. revert links used new. induction hints as [|h hints IH]; intros links used new Hh; simpl; [eauto|].
  assert (IH' : forall l u n, is_Some (link_hints agent hints l u n))
    by (intros; apply IH; intros; apply Hh; by right).
  destruct (existsb _ _); [done|].
  destruct (find_agent_ascii (map_values {[ae_agent_id agent := agent]}) h used) as [found ->].
  - intros e [id [_ <-]%lookup_singleton_Some]%map_values_elem. done.
  - apply Hh. by left.
  - simpl. by destruct found.
Qed.

Definition pending_ascii (l : list PendingMainSpawn) : Prop :=
  forall p h, p ∈ l -> h ∈ pm_hints p -> hint_ascii h.

Lemma link_all_ascii id agent l :
  agent_ascii agent -> pending_ascii l -> exists l' bfs, link_all id agent l = Some (l', bfs) /\ pending_ascii l'.
Proof.
  intros Ha. induction l as [|p l IH]; intros Hp; simpl; [exists [], []; split; [done|by intros ? ? ?%elem_of_nil]|].
  destruct IH as (l' & bfs & -> & Hl'); [intros q h Hq; apply Hp; by right|].
  assert (Hone : exists p' b, link_pending id agent p = Some (p', b) /\ pm_hints p' = pm_hints p).
  { unfold link_pending. case_bool_decide; [by exists p, []|].
    destruct (link_hints_ascii agent (pm_hints p) (pm_links p) (pm_matched_agents p) []) as [[[ls u] n] ->];
      [done|intros h Hh; apply (Hp p h); [by left|done]|]. simpl. destruct n; by do 2 eexists. }
  destruct Hone as (p' & b & -> & Hh). simpl. do 2 eexists. split; [done|].
  intros q h [->|Hq]%elem_of_cons Hin; [|by apply (Hl' q h)]. apply (Hp p h); [by left|by rewrite <- Hh].
Qed.

(** The prompts a registry holds are ASCII. *)
Definition run_ascii (run : RunSubagents) : Prop :=
  (forall id e, rs_agents run !! id = Some e -> agent_ascii e) /\ pending_ascii (rs_pending_mains run).
Definition reg_ascii (reg : SubagentRegistry) : Prop := forall key run, reg !! key = Some run -> run_ascii run.

Lemma reg_ascii_run key reg : reg_ascii reg -> run_ascii (run_mut key reg).
Proof.
  intros Hr. unfold run_mut. destruct (reg !! key) eqn:Hk; [by eapply Hr|].
  split; simpl; [done|by intros ? ? ?%elem_of_nil].
Qed.

Lemma reg_ascii_insert key run reg : reg_ascii reg -> run_ascii run -> reg_ascii (<[key := run]> reg).
Proof. intros Hr Hrun k r [[<- <-]|[_ H]]%lookup_insert_Some; [done|by eapply Hr]. Qed.

Lemma merged_hints_elem into new h : h ∈ merge_spawn_hints into new -> h ∈ into \/ h ∈ new.
Proof.
  unfold merge_spawn_hints. revert into. induction new as [|n new IH]; intros into H; simpl in H; [by left|].
  destruct (IH _ H) as [Hin|?]; [|right; by right]. destruct (existsb _ _); [by left|].
  apply elem_of_app in Hin as [?|?%list_elem_of_singleton]; [by left|subst; right; by left].
Qed.

Lemma find_pending_elem call l p : find_pending call l = Some p -> p ∈ l.
Proof.
  unfold find_pending. destruct (filter _ l) as [|q r] eqn:Hf; simpl; [done|]. intros [= ->].
  assert (H : p ∈ filter (fun p => pm_parent_call_id p = call) l) by (rewrite Hf; by left).
  by apply list_elem_of_filter in H as [_ H].
Qed.

Lemma update_pending_in call f l p' :
  p' ∈ update_pending call f l -> p' ∈ l \/ exists p, p ∈ l /\ p' = f p.
Proof.
  induction l as [|p l IH]; simpl; [by intros ?%elem_of_nil|]. case_decide.
  - intros [->|?]%elem_of_cons; [right; exists p; split; [by left|done]|left; by right].
  - intros [->|Hin]%elem_of_cons; [left; by left|].
    destruct (IH Hin) as [?|(q & ? & ->)]; [left; by right|right; exists q; split; [by right|done]].
Qed.

Lemma note_hints_ascii call hints l :
  pending_ascii l -> (forall h, h ∈ hints -> hint_ascii h) ->
  (forall h, h ∈ fst (note_hints call hints l) -> hint_ascii h) /\ pending_ascii (snd (note_hints call hints l)).
Proof.
  intros Hl Hh. unfold note_hints. destruct (find_pending call l) as [existing|] eqn:Hf; simpl.
  - apply find_pending_elem in Hf.
    assert (Hm : forall h, h ∈ merge_spawn_hints (pm_hints existing) hints -> hint_ascii h).
    { intros h [?|?]%merged_hints_elem; [by apply (Hl existing)|by apply Hh]. }
    split; [done|]. intros p h [Hp|(q & Hq & ->)]%update_pending_in Hin; [by apply (Hl p)|by apply Hm].
  - split; [done|]. intros p h [Hp|?%list_elem_of_singleton]%elem_of_app Hin; [by apply (Hl p)|].
    subst. by apply Hh.
Qed.

Lemma remember_ascii key call hints reg :
  reg_ascii reg -> (forall h, h ∈ hints -> hint_ascii h) ->
  exists links reg', remember_main_spawn key call hints reg = Some (links, reg') /\ reg_ascii reg'.
Proof.
  intros Hreg Hh.
  assert (exists links reg', remember_hints key call hints reg = Some (links, reg') /\ reg_ascii reg') as Hr;
    [|destruct hints; [by do 2 eexists|done]]. unfold remember_hints.
  destruct (reg_ascii_run key reg Hreg) as [Ha Hp]. set (run := run_mut key reg) in *.
  destruct (note_hints_ascii call hints _ Hp Hh) as [Hm Hp'].
  destruct (note_hints call hints (rs_pending_mains run)) as [merged pending]. simpl in Hm, Hp'.
  unfold match_spawns_to_agents. rewrite lookup_insert_eq, run_mut_insert. simpl.
  destruct (match_hints_ascii (map_values (rs_agents run)) ∅ merged) as [links ->]; [|done|].
  { intros e [id He]%map_values_elem. by eapply Ha. }
  simpl. do 2 eexists. split; [done|]. rewrite insert_insert_eq. apply reg_ascii_insert; [done|].
  split; simpl; [done|]. intros p h [Hin|(q & _ & ->)]%update_pending_in Hh'; [by apply (Hp' p)|by apply Hm].
Qed.

Lemma payload_set_ok key v r :
  json_indexable (er_payload r) = true ->
  exists r', payload_set key v r = Some r' /\ json_indexable (er_payload r') = true
    /\ er_call_id r' = er_call_id r.
Proof.
  intros Hi. unfold payload_set. destruct (json_set (er_payload r) key v) as [w|] eqn:Hs.
  - apply json_set_Some in Hs as (_ & Hw & _). simpl. eauto.
  - apply json_set_None in Hs. congruence.
Qed.

Lemma merge_strings_ok payload key values :
  json_indexable payload = true ->
  exists payload', merge_string_array_payload payload key values = Some payload'
    /\ json_indexable payload' = true.
Proof.
  intros Hi. unfold merge_string_array_payload. case_bool_decide; [eauto|].
  destruct (json_set payload key _) as [w|] eqn:Hs.
  - apply json_set_Some in Hs as (_ & Hw & _). eauto.
  - apply json_set_None in Hs. congruence.
Qed.

Lemma apply_links_ok payload links :
  json_indexable payload = true ->
  exists payload', apply_spawn_links payload links = Some payload' /\ json_indexable payload' = true.
Proof.
  intros Hi. unfold apply_spawn_links. destruct links as [|l links]; [eauto|].
  destruct (json_set payload "spawn_links" _) as [w|] eqn:Hs; [|apply json_set_None in Hs; congruence].
  apply json_set_Some in Hs as (_ & Hw & _). simpl.
  destruct (merge_strings_ok w "refs_subagent_ids" (sl_subagent_id <$> l :: links) Hw) as (w' & Hm & Hw').
  simpl in Hm. rewrite Hm. simpl. by apply merge_strings_ok.
Qed.

Lemma attach_parent_ok headers r :
  json_indexable (er_payload r) = true ->
  exists r', attach_parent headers r = Some r' /\ json_indexable (er_payload r') = true
    /\ er_call_id r' = er_call_id r.
Proof.
  intros Hi. unfold attach_parent. destruct (extract_claude_parent_agent_id get to_str headers) as [parent|]; [|eauto].
  exact (payload_set_ok "parent_agent_id" (JString parent) (set_parent_agent (Some parent) r) Hi).
Qed.

Lemma attach_refs_ok key body reg r :
  json_indexable (er_payload r) = true ->
  exists r', attach_refs key body reg r = Some r' /\ json_indexable (er_payload r') = true.
Proof.
  intros Hi. unfold attach_refs. destruct body as [body|]; [|eauto].
  destruct (extract_subagent_ids_from_request body) as [|id ids]; [eauto|].
  destruct (payload_set_ok "refs_subagent_ids" (strings_value (id :: ids)) r Hi) as (r1 & -> & Hi1 & _). simpl.
  destruct (trajectory_paths key (id :: ids) reg); [eauto|].
  edestruct payload_set_ok as (r2 & Hr2 & ? & _); [exact Hi1|]. eauto.
Qed.

Lemma attach_hints_ok key text r reg :
  json_indexable (er_payload r) = true -> reg_ascii reg ->
  (forall h, h ∈ extract_spawn_hints_from_assistant text -> hint_ascii h) ->
  exists r' reg', attach_hints key text r reg = Some (r', reg')
    /\ json_indexable (er_payload r') = true /\ reg_ascii reg'.
Proof.
  intros Hi Hreg Hh. unfold attach_hints. destruct (extract_spawn_hints_from_assistant text) as [|h hs]; [eauto|].
  destruct (payload_set_ok "spawn_hints" (JArray (spawn_hint_to_json <$> h :: hs)) r Hi) as (r1 & Hr1 & Hi1 & _).
  rewrite Hr1. cbv beta iota delta [mbind option_bind].
  destruct (remember_ascii key (default "" (er_call_id r1)) (h :: hs) reg Hreg Hh) as (links & reg1 & -> & Hreg1).
  destruct (apply_links_ok (er_payload r1) links Hi1) as (w & -> & Hw). eauto.
Qed.

Lemma attach_spawned_ok key text reg r :
  json_indexable (er_payload r) = true ->
  exists r', attach_spawned key text reg r = Some r' /\ json_indexable (er_payload r') = true.
Proof.
  intros Hi. unfold attach_spawned. destruct (extract_subagent_ids_from_text text) as [|id ids]; [eauto|].
  destruct (merge_strings_ok (er_payload r) "refs_subagent_ids" (id :: ids) Hi) as (w & -> & Hw). simpl.
  destruct (trajectory_paths key (id :: ids) reg) as [|t ts]; [eauto|].
  destruct (merge_strings_ok w "subagent_trajectories" (t :: ts) Hw) as (w' & -> & Hw'). simpl. eauto.
Qed.

Lemma registered_ascii key route call body reg id :
  reg_ascii reg -> rt_subagent_id route = Some id ->
  (forall p, body ≫= user_message = Some p -> ascii_str p = true) ->
  exists bfs reg', on_subagent_registered key id (register_route key route call body reg) = Some (bfs, reg')
    /\ reg_ascii reg'.
Proof.
  intros Hreg Hs Hp. unfold on_subagent_registered, register_route. rewrite Hs, lookup_insert_eq. simpl.
  rewrite lookup_insert_eq, run_mut_insert. simpl.
  destruct (reg_ascii_run key reg Hreg) as [Ha Hl]. set (run := run_mut key reg) in *.
  set (entry := agent_seen _ _ _ _ _).
  assert (He : agent_ascii entry).
  { unfold entry, agent_seen. intros p. destruct (rs_agents run !! id) as [e|] eqn:Hid; simpl; [|apply Hp].
    destruct (ae_first_prompt e) as [p'|] eqn:Hp'; simpl; [|apply Hp]. intros [= <-]. by eapply Ha. }
  destruct (link_all_ascii id entry (rs_pending_mains run) He Hl) as (l' & bfs & -> & Hl'). simpl.
  do 2 eexists. split; [done|]. rewrite insert_insert_eq. apply reg_ascii_insert; [done|].
  split; simpl; [|done]. intros i e [[<- <-]|[_ Hi]]%lookup_insert_Some; [done|by eapply Ha].
Qed.

Lemma register_main_ascii key route call body reg :
  reg_ascii reg -> rt_subagent_id route = None -> reg_ascii (register_route key route call body reg).
Proof.
  intros Hreg Hs. unfold register_route. rewrite Hs. apply reg_ascii_insert; [done|].
  destruct (reg_ascii_run key reg Hreg) as [Ha Hl]. by split.
Qed.

(** ** What the links promise *)

(** The registries a run actor gets to, a record at a time. *)
Inductive reg_reach : SubagentRegistry -> Prop :=
| reg_reach_start : reg_reach ∅
| reg_reach_record r route headers body text reg r' bfs reg' :
    reg_reach reg -> enrich_record r route headers body text reg = Some (r', bfs, reg') -> reg_reach reg'.

Lemma reg_reach_inv reg : reg_reach reg -> reg_inv reg.
Proof. induction 1 as [|* _ IH He]; [by intros ? ? ?|by eapply enrich_inv]. Qed.

(** C34: whatever the order in which a run's calls and subagents show up, every
    spawn link of a call is to a subagent registered in that run, names that
    subagent's own markdown file, comes from one of the call's hints, which
    the subagent fits by document or prompt, and no subagent is linked to a call
    twice. *)
Theorem spawn_links_are_sound reg key run p :
  reg_reach reg -> reg !! key = Some run -> p ∈ rs_pending_mains run ->
  NoDup (sl_subagent_id <$> pm_links p)
  /\ forall l, l ∈ pm_links p ->
      exists h e, rs_agents run !! sl_subagent_id l = Some e /\ h ∈ pm_hints p /\ hint_matches h e
        /\ sl_subagent_trajectory l = subagent_trajectory_path (ae_storage_leaf e)
        /\ sl_description l = sh_description h /\ sl_doc_target l = sh_doc_target h.
Proof.
  intros Hr Hrun Hp. destruct (ri_links _ (reg_reach_inv _ Hr _ _ Hrun) p Hp) as [_ Hnd Hl].
  split; [done|]. intros l Hin. destruct (Hl l Hin) as (h & e & He & Hh & -> & Hm). eauto 10.
Qed.

(** No subagent is left out, whether it shows up before the call that
    spawned it is answered or after: a registered subagent that fits a hint of a
    call is linked to that call, unless the hint already has a link. *)
Theorem matching_subagents_are_linked reg key run p h id e :
  reg_reach reg -> reg !! key = Some run -> p ∈ rs_pending_mains run ->
  rs_agents run !! id = Some e -> h ∈ pm_hints p -> hint_matches h e ->
  (exists l, l ∈ pm_links p /\ sl_subagent_id l = id) \/ covered h (pm_links p).
Proof.
  intros Hr Hrun Hp He Hh Hm. pose proof (reg_reach_inv _ Hr _ _ Hrun) as Hinv.
  destruct (ri_done _ Hinv p id e Hp He h Hh Hm) as [Hin|?]; [left|by right].
  rewrite (lo_matched _ _ (ri_links _ Hinv p Hp)) in Hin.
  unfold link_ids in Hin. apply elem_of_list_to_set, list_elem_of_fmap in Hin as (l & -> & Hl). eauto.
Qed.

(** [enrich_record] does not panic on a record whose payload is an object
    when the prompts it compares are ASCII, and the registry stays that way.
    (On others it can: a prompt of Chinese characters is cut inside one.) *)
Theorem ascii_records_are_enriched r route headers body text reg :
  json_indexable (er_payload r) = true -> reg_ascii reg ->
  (forall p, body ≫= user_message = Some p -> ascii_str p = true) ->
  (forall t h, text = Some t -> h ∈ extract_spawn_hints_from_assistant t -> hint_ascii h) ->
  exists r' bfs reg', enrich_record r route headers body text reg = Some (r', bfs, reg')
    /\ json_indexable (er_payload r') = true /\ reg_ascii reg'.
Proof.
  intros Hi Hreg Hp Hh. unfold enrich_record. destruct (rt_subagent_id route) as [id|] eqn:Hs.
  - destruct (payload_set_ok "subagent_trajectory" (JString (subagent_trajectory_path (rt_storage_session_id route)))
      (set_subagent (Some id) r) Hi) as (r1 & -> & Hi1 & _). simpl.
    destruct (attach_parent_ok headers r1 Hi1) as (r2 & -> & Hi2 & _). simpl.
    destruct (registered_ascii (run_registry_key route) route (default "" (er_call_id r)) body reg id Hreg Hs Hp)
      as (bfs & reg' & -> & Hreg'). simpl. eauto 6.
  - pose proof (register_main_ascii (run_registry_key route) route (default "" (er_call_id r)) body reg Hreg Hs) as Hm.
    destruct (attach_parent_ok headers r Hi) as (r1 & -> & Hi1 & _). simpl.
    destruct (attach_refs_ok (run_registry_key route) body
      (register_route (run_registry_key route) route (default "" (er_call_id r)) body reg) r1 Hi1)
      as (r2 & -> & Hi2). simpl.
    destruct text as [text|]; [|eauto 6]. case_bool_decide; [eauto 6|].
    destruct (attach_hints_ok (run_registry_key route) text r2 _ Hi2 Hm) as (r3 & reg1 & -> & Hi3 & Hreg1);
      [intros h; by apply Hh|]. simpl.
    destruct (attach_spawned_ok (run_registry_key route) text reg1 r3 Hi3) as (r4 & -> & Hi4). simpl. eauto 6.
Qed.

End Laws.
End Links.

(** ** The run actor *)

(** [RunActor::track_story]: the stories of each run, once each. *)
Definition track_story (run_id : option string) (story_id : string) (stories_by_run : gmap string (list string))
  : gmap string (list string) :=
  match run_id with
  | None => stories_by_run
  | Some run_id =>
      let entry := default [] (stories_by_run !! run_id) in
      <[run_id := if bool_decide (story_id ∈ entry) then entry else entry ++ [story_id]]> stories_by_run
  end.

Lemma track_story_nodup run_id story_id (m : gmap string (list string)) :
  map_Forall (fun _ l => NoDup l) m -> map_Forall (fun _ l => NoDup l) (track_story run_id story_id m).
Proof.
  intros Hm. unfold track_story. destruct run_id as [run_id|]; [|done].
  apply map_Forall_insert_2; [|done].
  assert (NoDup (default [] (m !! run_id))) as Hl.
  { destruct (m !! run_id) eqn:E; simpl; [by apply (Hm run_id)|constructor]. }
  case_bool_decide as Hs; [done|]. apply NoDup_app. split_and!; [done| |apply NoDup_singleton].
  by intros x Hx ->%list_elem_of_singleton.
Qed.

Module SubagentExample.

(** Texts with one block, at most: a block is what follows a mark, and its
    JSON is a table of two texts. *)
Definition no_ids (_ : string) : list string := [].
Definition blocks (text : string) : list string :=
  match str_strip_prefix "tool:" text with Some b => [b] | None => [] end.
Definition doc_target (text : string) : option string := str_strip_prefix "review " text.
Definition parse (s : string) : option Value :=
  Some (JObject [("description", JString "reviewer"); ("prompt", JString s)]).
Definition first_message (v : Value) : option string := as_str v.
Definition values (m : gmap string AgentEntry) : list AgentEntry := (map_to_list m).*2.
Definition get (_ : unit) (_ : string) : option string := None.

Definition main_route : CaptureRoute := mkRoute (Some "run-1") "sess" "run-1" None.
Definition agent_route (id : string) : CaptureRoute :=
  mkRoute (Some "run-1") "sess" ("agent-" +:+ id) (Some id).
Definition record_of (call : string) : EventRecord :=
  mkEventRecord identity_default 0 "persisting-proxy" "llm.response" None None None None None (Some call)
    None None None None (JObject []).

Abbreviation enrich := (enrich_record no_ids no_ids no_ids blocks doc_target parse first_message values get Some).

(** A subagent shows up after the answer that spawned it. *)
Definition after_main := enrich (record_of "call-1") main_route () None (Some "tool:review docs/a.md") ∅.
Definition after_agent :=
  x ← after_main;
  enrich (record_of "call-2") (agent_route "a5aa661") () (Some (JString "review docs/a.md")) None (snd x).

Example late_link :
  option_map (fun x => map bf_links (snd (fst x))) after_agent
  = Some [[mkLink "reviewer" (Some "reviewer") (Some "docs/a.md") "a5aa661" "agent-a5aa661.md"]].
Proof. vm_compute. reflexivity. Qed.

(** A Chinese character takes three bytes, and the prompts are cut after 80. *)
Definition chinese_prompt : string :=
  "请审查设计文档并总结主要风险与待办事项给出明确结论谢谢各位".
Example chinese_prompts_panic :
  (80 < String.length chinese_prompt)%nat /\ prompts_match chinese_prompt chinese_prompt = None.
Proof. split; [vm_compute; lia|vm_compute; reflexivity]. Qed.

Definition reg1 : gmap string RunSubagents := default ∅ (snd <$> after_main).
Definition reg2 : gmap string RunSubagents := default ∅ (snd <$> after_agent).
Definition run2 : RunSubagents := run_mut "run-1" reg2.
Definition pending2 : PendingMainSpawn := default (mkPending "" [] [] ∅) (head (rs_pending_mains run2)).

Lemma values_perm m : values m ≡ₚ (map_to_list m).*2.
Proof. done. Qed.

Lemma reg2_reach : reg_reach no_ids no_ids no_ids blocks doc_target parse first_message values get Some reg2.
Proof.
  apply (reg_reach_record no_ids no_ids no_ids blocks doc_target parse first_message values get Some
    (record_of "call-2") (agent_route "a5aa661") () (Some (JString "review docs/a.md")) None reg1
    (default (record_of "") (fst ∘ fst <$> after_agent)) (default [] (snd ∘ fst <$> after_agent)) reg2).
  - apply (reg_reach_record no_ids no_ids no_ids blocks doc_target parse first_message values get Some
      (record_of "call-1") main_route () None (Some "tool:review docs/a.md") ∅
      (default (record_of "") (fst ∘ fst <$> after_main)) (default [] (snd ∘ fst <$> after_main)) reg1).
    + apply reg_reach_start.
    + vm_compute. reflexivity.
  - vm_compute. reflexivity.
Qed.

Lemma pending2_in : pending2 ∈ rs_pending_mains run2.
Proof.
  assert (rs_pending_mains run2 = [pending2]) as -> by (vm_compute; reflexivity). by left.
Qed.

Definition hint : SpawnHint := mkHint "reviewer" (Some "reviewer") (Some "review docs/a.md") (Some "docs/a.md").
Definition agent : AgentEntry :=
  mkAgent "a5aa661" "agent-a5aa661" (Some "call-2") (Some "review docs/a.md") (Some "docs/a.md").

Lemma spawn_links_are_sound_witness :
  sl_subagent_id <$> pm_links pending2 = ["a5aa661"] /\ NoDup (sl_subagent_id <$> pm_links pending2).
Proof.
  split; [vm_compute; reflexivity|].
  apply (spawn_links_are_sound no_ids no_ids no_ids blocks doc_target parse first_message values get Some
    values_perm reg2 "run-1" run2 pending2); [apply reg2_reach|vm_compute; reflexivity|apply pending2_in].
Defined.

Lemma matching_subagents_are_linked_witness :
  (exists l, l ∈ pm_links pending2 /\ sl_subagent_id l = "a5aa661") \/ covered hint (pm_links pending2).
Proof.
  apply (matching_subagents_are_linked no_ids no_ids no_ids blocks doc_target parse first_message values get Some
    values_perm reg2 "run-1" run2 pending2 hint "a5aa661" agent);
    [apply reg2_reach|vm_compute; reflexivity|apply pending2_in|vm_compute; reflexivity| |].
  - assert (pm_hints pending2 = [hint]) as -> by (vm_compute; reflexivity). by left.
  - left. exists "docs/a.md". split; reflexivity.
Defined.

Lemma ascii_records_are_enriched_witness :
  exists r' bfs reg',
    enrich (record_of "call-1") main_route () None (Some "tool:review docs/a.md") ∅ = Some (r', bfs, reg')
    /\ json_indexable (er_payload r') = true /\ reg_ascii reg'.
Proof.
  apply (ascii_records_are_enriched no_ids no_ids no_ids blocks doc_target parse first_message values get Some
    values_perm (record_of "call-1") main_route () None (Some "tool:review docs/a.md") ∅);
    [reflexivity|intros key run H; by rewrite lookup_empty in H|intros p H; discriminate H|].
  intros t h [= <-] Hin q Hq.
  assert (extract_spawn_hints_from_assistant blocks doc_target parse "tool:review docs/a.md" = [hint]) as E
    by (vm_compute; reflexivity).
  rewrite E in Hin. apply list_elem_of_singleton in Hin as ->. injection Hq as <-. vm_compute. reflexivity.
Defined.

End SubagentExample.
