(* ===== verification/Llm.v ===== *)
(** * The provider-neutral model of LLM traffic

    [persisting-pchronicle/src/formats/llm.rs]: requests, responses and stream
    events as the gateway captures them whatever protocol they came in, and the
    JSON access its parsers and renderers share.  Extensions are read by key; a
    floating-point number is the JSON number it prints as. *)

From Stdlib Require Import ZArith Lia Ascii.
From stdpp Require Import base list strings gmap numbers option pretty sorting.
From S2P Require Import Prelude Json JsonLines Capture.

(** ** Data *)

Inductive LlmProtocol := PChatCompletions | PMessages | PResponses | PGemini | PUnknown.

#[global] Instance LlmProtocol_eq_dec : EqDecision LlmProtocol.
Proof. solve_decision. Defined.

Record LlmUsage := mkLlmUsage {
  lu_input : Z; lu_output : Z; lu_total : Z; lu_cache_read : Z; lu_cache_write : Z; lu_reasoning : Z;
}.
Definition llm_usage_default : LlmUsage := mkLlmUsage 0 0 0 0 0 0.
Inductive LlmStreamEvent :=
| Start (id model : option string)
| TextDelta (candidate : Z) (text : string)
| ReasoningDelta (candidate : Z) (text : string)
| ToolCallStart (candidate : Z) (id name : string) (signature : option string)
| ToolArgumentsDelta (candidate : Z) (id delta : string)
| UsageEvent (usage : LlmUsage)
| FinishEvent (candidate : Z) (reason : option string)
| ErrorEvent (message : string) (code : option string).

Inductive LlmRole := RoleSystem | RoleDeveloper | RoleUser | RoleAssistant | RoleTool.
#[global] Instance LlmRole_eq_dec : EqDecision LlmRole.
Proof. solve_decision. Defined.

Inductive LlmImageSource := ImageUrl (url : string) | ImageData (data : string) | ImageFile (uri : string).

Abbreviation LlmExtensions := (list (string * Value)).

Inductive LlmContentPart :=
| PartText (text : string) (cache_control : option Value)
| PartImage (source : LlmImageSource) (media_type detail : option string)
| PartReasoning (text signature : option string)
| PartToolCall (id name : string) (arguments : Value) (signature : option string)
| PartToolResult (call_id : string) (name : option string) (content : Value) (is_error : option bool)
    (cache_control : option Value)
| PartUnknown (kind : string) (value : Value).
Definition part_text (text : string) : LlmContentPart := PartText text None.

Record LlmMessage := mkLlmMessage {
  lm_role : LlmRole; lm_parts : list LlmContentPart; lm_name : option string; lm_extensions : LlmExtensions;
}.
Definition message_new (role : LlmRole) (parts : list LlmContentPart) : LlmMessage := mkLlmMessage role parts None [].

Record LlmCandidate := mkLlmCandidate {
  lc_index : Z; lc_message : LlmMessage; lc_finish_reason : option string; lc_extensions : LlmExtensions;
}.
Record LlmResponse := mkLlmResponse {
  lr_id : option string; lr_model : option string; lr_candidates : list LlmCandidate;
  lr_usage : option LlmUsage; lr_extensions : LlmExtensions;
}.
Record LlmResponseEventPayload := mkResponsePayload { rp_output_format : LlmProtocol; rp_response : LlmResponse }.

(** ** Requests *)

Record LlmToolDefinition := mkLlmTool {
  lt_kind : string; lt_name : string; lt_description : option string; lt_input_schema : Value;
  lt_strict : option bool; lt_extensions : LlmExtensions;
}.

Inductive LlmToolChoiceMode := ChoiceAuto | ChoiceNone | ChoiceRequired | ChoiceTool.
#[global] Instance LlmToolChoiceMode_eq_dec : EqDecision LlmToolChoiceMode.
Proof. solve_decision. Defined.
Record LlmToolChoice := mkLlmToolChoice {
  tc_mode : LlmToolChoiceMode; tc_name : option string; tc_parallel : option bool; tc_extensions : LlmExtensions;
}.

Record LlmGenerationParams := mkGeneration {
  lg_temperature : option JsonNumber;
  lg_top_p : option JsonNumber;
  lg_top_k : option Z;
  lg_max_output_tokens : option Z;
  lg_stop_sequences : list string;
  lg_seed : option Z;
  lg_frequency_penalty : option JsonNumber;
  lg_presence_penalty : option JsonNumber;
  lg_candidate_count : option Z;
  lg_reasoning_effort : option Value;
  lg_thinking_budget : option Z;
  lg_extensions : LlmExtensions;
}.
Definition generation_default : LlmGenerationParams :=
  mkGeneration None None None None [] None None None None None None [].

Record LlmResponseFormat := mkResponseFormat {
  rf_kind : string; rf_name : option string; rf_schema : option Value; rf_strict : option bool;
  rf_extensions : LlmExtensions;
}.

Record LlmRequest := mkLlmRequest {
  lq_model : option string;
  lq_system : list LlmMessage;
  lq_messages : list LlmMessage;
  lq_tools : list LlmToolDefinition;
  lq_tool_choice : option LlmToolChoice;
  lq_generation : LlmGenerationParams;
  lq_response_format : option LlmResponseFormat;
  lq_stream : bool;
  lq_metadata : option Value;
  lq_extensions : LlmExtensions;
}.
Record LlmRequestEventPayload := mkRequestPayload { qp_input_format : LlmProtocol; qp_request : LlmRequest }.

Definition is_visible_part (part : LlmContentPart) : bool :=
  match part with PartText text _ => negb (str_blank text) | PartImage _ _ _ => true | _ => false end.
Definition visible_user_turns (r : LlmRequest) : nat :=
  length (filter (fun m => lm_role m = RoleUser /\ existsb is_visible_part (lm_parts m) = true) (lq_messages r)).

(** [join]. *)
Fixpoint join_lines (l : list string) : string :=
  match l with
  | [] => ""
  | [s] => s
  | s :: rest => s +:+ newline +:+ join_lines rest
  end.

Definition user_text (m : LlmMessage) : option string :=
  if decide (lm_role m = RoleUser) then
    let text := join_lines (omap (fun part => match part with
                                              | PartText text _ => if str_blank text then None else Some text
                                              | _ => None
                                              end) (lm_parts m)) in
    if bool_decide (text = "") then None else Some text
  else None.
Definition latest_user_text (r : LlmRequest) : option string := head (omap user_text (rev (lq_messages r))).
Definition tool_names (r : LlmRequest) : list string := lt_name <$> lq_tools r.

(** ** JSON access *)

Definition get_str (v : Value) (key : string) : option string := json_get v key ≫= as_str.
Definition get_list (v : Value) (key : string) : list Value :=
  match json_get v key with Some (JArray l) => l | _ => [] end.
(** [v.get(key).unwrap_or(v)]. *)
Definition get_or_self (v : Value) (key : string) : Value := default v (json_get v key).
Definition get_index (v : Value) (fallback : Z) : Z := default fallback (json_get v "index" ≫= as_u64).
Definition non_empty_str (o : option string) : option string :=
  s ← o; if bool_decide (s = "") then None else Some s.
Definition has_type (v : Value) (t : string) : bool := bool_decide (get_str v "type" = Some t).

Definition int (z : Z) : Value := JNumber (JInt z).
Definition opt_string (o : option string) : Value := match o with Some s => JString s | None => JNull end.
(** [v.get(k1).or_else(|| v.get(k2))...]. *)
Definition first_of (v : Value) (keys : list string) : option Value := head (omap (json_get v) keys).
