(* ===== verification/TypedStream.v ===== *)
(** * Gateway: translation of provider streams

    [conversion/typed_stream.rs]: the bytes of a provider's server-sent events are
    cut into frames, each frame's JSON is decoded into stream events by the
    provider's protocol ([StreamDecoder]), the events are accumulated into the
    captured response ([ResponseAccumulator]) and rendered in the client's
    protocol ([StreamRenderer]).  With it the token usage of [usage.rs], the
    finish reasons of [conversion/semantic.rs] and the bridges of
    [conversion/mod.rs].

    Rendered output is a list of server-sent events; [sse_bytes] are the bytes
    sent.  The clock is an input.  JSON text is the class [JsonText]. *)

From Stdlib Require Import ZArith Lia Ascii.
From stdpp Require Import base list strings gmap numbers option pretty sorting.
From S2P Require Import Prelude Json JsonLines TurnMachine Capture SessionRoute Llm.

(** ** Usage records and bridges *)

Definition token_usage_default : TokenUsage := mkUsage 0 0 0 0 0 0.

#[global] Instance TokenUsage_eq_dec : EqDecision TokenUsage.
Proof. solve_decision. Defined.

Definition to_llm_usage (u : TokenUsage) : LlmUsage :=
  mkLlmUsage (tu_input u) (tu_output u) (tu_total u) (tu_cache_read u) (tu_cache_write u) (tu_reasoning u).
Definition from_llm_usage (u : LlmUsage) : TokenUsage :=
  mkUsage (lu_input u) (lu_output u) (lu_total u) (lu_cache_read u) (lu_cache_write u) (lu_reasoning u).

Inductive ProtocolBridge :=
| Passthrough | MessagesToCompletions | ResponsesToCompletions
| CompletionsToGemini | MessagesToGemini | ResponsesToGemini.

Definition upstream_protocol (bridge : ProtocolBridge) (client : ProtocolKind) : ProtocolKind :=
  match bridge with
  | Passthrough => client
  | MessagesToCompletions | ResponsesToCompletions => ChatCompletions
  | CompletionsToGemini | MessagesToGemini | ResponsesToGemini => Gemini
  end.

Definition llm_protocol (protocol : ProtocolKind) : option LlmProtocol :=
  match protocol with
  | ChatCompletions => Some PChatCompletions
  | Messages => Some PMessages
  | Responses => Some PResponses
  | Gemini => Some PGemini
  | _ => None
  end.

Definition MAX_SSE_FRAME_BYTES : Z := 2 * 1024 * 1024.

(** ** Usage *)

Fixpoint pick_u64 (v : Value) (keys : list string) : Z :=
  match keys with
  | [] => 0
  | k :: rest => match json_get v k ≫= as_u64 with Some n => n | None => pick_u64 v rest end
  end.

(** The usage under its object; the sum wraps. *)
Definition usage_fields (usage : Value) : TokenUsage :=
  let input := pick_u64 usage ["prompt_tokens"; "input_tokens"; "promptTokenCount"] in
  let output := pick_u64 usage ["completion_tokens"; "output_tokens"; "candidatesTokenCount"] in
  let total := pick_u64 usage ["total_tokens"; "totalTokenCount"] in
  let total := if (total =? 0)%Z then ((input + output) mod 2 ^ 64)%Z else total in
  let prompt := json_get usage "prompt_tokens_details" in
  let read := match prompt with Some d => pick_u64 d ["cached_tokens"] | None => 0%Z end in
  let write := match prompt with Some d => pick_u64 d ["cache_write_tokens"] | None => 0%Z end in
  let write := match json_get usage "cache_creation_input_tokens" with
               | Some _ => pick_u64 usage ["cache_creation_input_tokens"] | None => write end in
  let reasoning := match json_get usage "completion_tokens_details" with
                   | Some d => pick_u64 d ["reasoning_tokens"] | None => 0%Z end in
  let read := match json_get usage "cache_read_input_tokens" with
              | Some _ => pick_u64 usage ["cache_read_input_tokens"] | None => read end in
  let read := match json_get usage "cachedContentTokenCount" with
              | Some _ => pick_u64 usage ["cachedContentTokenCount"] | None => read end in
  let reasoning := match json_get usage "thoughtsTokenCount" with
                   | Some _ => pick_u64 usage ["thoughtsTokenCount"] | None => reasoning end in
  mkUsage input output total read write reasoning.

Definition extract_usage_from_response (body : Value) : TokenUsage :=
  match first_of body ["usage"; "Usage"; "usageMetadata"] with
  | None => token_usage_default
  | Some usage => usage_fields usage
  end.

(** ** Frames *)

(** [buffer.windows(n).position(|w| w == pattern)]. *)
Fixpoint window_position_of (pattern s : string) : option nat :=
  if String.prefix pattern s then Some O
  else match s with
       | EmptyString => None
       | String _ r => S <$> window_position_of pattern r
       end.

Definition LF2 : string := String "010" (String "010" "").
Definition CRLF2 : string := String "013" (String "010" (String "013" (String "010" ""))).

(** [min] of two pairs. *)
Definition min_found (l r : nat * nat) : nat * nat :=
  if (fst l <? fst r)%nat then l
  else if (fst r <? fst l)%nat then r
  else if (snd l <=? snd r)%nat then l else r.

Fixpoint str_drop (n : nat) (s : string) : string :=
  match n, s with
  | O, _ => s
  | S n, String _ r => str_drop n r
  | S _, EmptyString => ""
  end.

(** The frame, and the buffer after it. *)
Definition next_sse_frame (buffer : string) : option (string * string) :=
  let lf := (fun p => (p, 2%nat)) <$> window_position_of LF2 buffer in
  let crlf := (fun p => (p, 4%nat)) <$> window_position_of CRLF2 buffer in
  let found := match lf, crlf with
               | Some l, Some r => Some (min_found l r)
               | Some l, None => Some l
               | None, o => o
               end in
  '(position, delimiter) ← found;
  Some (String.substring 0 position buffer, str_drop (position + delimiter) buffer).

Definition str_lines (s : string) : list string := terminated_lines (str_split 10 s).
Definition sse_frame_data (frame : string) : string :=
  join_lines (omap (fun line => str_trim <$> str_strip_prefix "data:" (str_trim line)) (str_lines frame)).

(** A server-sent event: its name and its value. *)
Abbreviation SseEvent := (option string * Value)%type.

(** ** Accumulating the response *)

Record ToolState := mkTool {
  ts_id : string; ts_name : string; ts_arguments : string; ts_signature : option string;
}.
Record CandidateState := mkCandidate {
  cs_text : string; cs_reasoning : string; cs_tools : list ToolState; cs_finish_reason : option string;
}.
Definition candidate_default : CandidateState := mkCandidate "" "" [] None.

Record ResponseAccumulator := mkAccumulator {
  ra_protocol : LlmProtocol;
  ra_id : option string;
  ra_model : option string;
  ra_usage : option LlmUsage;
  ra_candidates : gmap Z CandidateState;
}.

Definition accumulator_new (protocol : LlmProtocol) : ResponseAccumulator :=
  mkAccumulator protocol None None None ∅.

Definition set_ra_model (m : option string) (a : ResponseAccumulator) : ResponseAccumulator :=
  mkAccumulator (ra_protocol a) (ra_id a) m (ra_usage a) (ra_candidates a).

(** [candidates.entry(i).or_default()] changed by [f]. *)
Definition on_candidate (i : Z) (f : CandidateState -> CandidateState) (a : ResponseAccumulator)
  : ResponseAccumulator :=
  mkAccumulator (ra_protocol a) (ra_id a) (ra_model a) (ra_usage a)
    (<[i := f (default candidate_default (ra_candidates a !! i))]> (ra_candidates a)).

(** [tools.iter_mut().find(|t| t.id == id)] changed by [f], or [new] at the end. *)
Fixpoint on_tool (id : string) (f : ToolState -> ToolState) (new : ToolState) (l : list ToolState) : list ToolState :=
  match l with
  | [] => [new]
  | t :: rest => if decide (ts_id t = id) then f t :: rest else t :: on_tool id f new rest
  end.

Definition acc_apply (a : ResponseAccumulator) (event : LlmStreamEvent) : ResponseAccumulator :=
  match event with
  | Start id model => mkAccumulator (ra_protocol a) id model (ra_usage a) (ra_candidates a)
  | TextDelta c text =>
      on_candidate c (fun s => mkCandidate (cs_text s +:+ text) (cs_reasoning s) (cs_tools s) (cs_finish_reason s)) a
  | ReasoningDelta c text =>
      on_candidate c (fun s => mkCandidate (cs_text s) (cs_reasoning s +:+ text) (cs_tools s) (cs_finish_reason s)) a
  | ToolCallStart c id name signature =>
      on_candidate c (fun s => mkCandidate (cs_text s) (cs_reasoning s)
        (on_tool id (fun t => mkTool (ts_id t) name (ts_arguments t) signature) (mkTool id name "" signature)
           (cs_tools s)) (cs_finish_reason s)) a
  | ToolArgumentsDelta c id delta =>
      on_candidate c (fun s => mkCandidate (cs_text s) (cs_reasoning s)
        (on_tool id (fun t => mkTool (ts_id t) (ts_name t) (ts_arguments t +:+ delta) (ts_signature t))
           (mkTool id "" delta None) (cs_tools s)) (cs_finish_reason s)) a
  | UsageEvent u => mkAccumulator (ra_protocol a) (ra_id a) (ra_model a) (Some u) (ra_candidates a)
  | FinishEvent c reason =>
      on_candidate c (fun s => mkCandidate (cs_text s) (cs_reasoning s) (cs_tools s) reason) a
  | ErrorEvent _ _ => a
  end.

(** The candidates by index. *)
Definition index_le (x y : Z * CandidateState) : Prop := (fst x <= fst y)%Z.
#[global] Instance index_le_dec x y : Decision (index_le x y).
Proof. unfold index_le. apply _. Defined.
Definition candidates_by_index (a : ResponseAccumulator) : list (Z * CandidateState) :=
  merge_sort index_le (map_to_list (ra_candidates a)).

Definition concat_str (l : list string) : string := foldr String.append "" l.

Definition visible_text (a : ResponseAccumulator) : string :=
  let text := concat_str ((fun c => cs_text (snd c)) <$> candidates_by_index a) in
  if str_blank text then concat_str ((fun c => cs_reasoning (snd c)) <$> candidates_by_index a) else text.

Definition drain_reasoning_snapshot (a : ResponseAccumulator) : list string * string * ResponseAccumulator :=
  (c ← candidates_by_index a; ts_id <$> cs_tools (snd c),
   concat_str ((fun c => cs_reasoning (snd c)) <$> candidates_by_index a),
   mkAccumulator (ra_protocol a) (ra_id a) (ra_model a) (ra_usage a)
     ((fun s => mkCandidate (cs_text s) "" (cs_tools s) (cs_finish_reason s)) <$> ra_candidates a)).

Section Stream.
Context `{!JsonText}.

(** ** The captured response *)

Definition candidate_parts (s : CandidateState) : list LlmContentPart :=
  (if bool_decide (cs_reasoning s = "") then [] else [PartReasoning (Some (cs_reasoning s)) None])
  ++ (if bool_decide (cs_text s = "") then [] else [part_text (cs_text s)])
  ++ ((fun t => PartToolCall (ts_id t) (ts_name t)
         (default (JString (ts_arguments t)) (json_parse (ts_arguments t))) (ts_signature t)) <$> cs_tools s).

Definition response (a : ResponseAccumulator) : LlmResponseEventPayload :=
  mkResponsePayload (ra_protocol a)
    (mkLlmResponse (ra_id a) (ra_model a)
       ((fun c => mkLlmCandidate (fst c) (message_new RoleAssistant (candidate_parts (snd c)))
                    (cs_finish_reason (snd c)) []) <$> candidates_by_index a)
       (ra_usage a) []).

(** ** The decoder *)

Record StreamDecoder := mkDecoder {
  sd_protocol : LlmProtocol;
  sd_fallback_model : string;
  sd_buffer : string;
  sd_upstream_raw : string;
  sd_emitted_start : bool;
  sd_finished : bool;
  sd_metrics : StreamMetrics;
  sd_tool_ids : gmap (Z * Z) string;
  sd_accumulator : ResponseAccumulator;
}.

Definition decoder_new (protocol : LlmProtocol) (fallback_model : string) : StreamDecoder :=
  mkDecoder protocol fallback_model "" "" false false (mkMetrics token_usage_default None) ∅
    (accumulator_new protocol).

Definition set_buffer (b : string) (d : StreamDecoder) : StreamDecoder :=
  mkDecoder (sd_protocol d) (sd_fallback_model d) b (sd_upstream_raw d) (sd_emitted_start d) (sd_finished d)
    (sd_metrics d) (sd_tool_ids d) (sd_accumulator d).
Definition set_raw (r : string) (d : StreamDecoder) : StreamDecoder :=
  mkDecoder (sd_protocol d) (sd_fallback_model d) (sd_buffer d) r (sd_emitted_start d) (sd_finished d)
    (sd_metrics d) (sd_tool_ids d) (sd_accumulator d).
Definition set_emitted_start (d : StreamDecoder) : StreamDecoder :=
  mkDecoder (sd_protocol d) (sd_fallback_model d) (sd_buffer d) (sd_upstream_raw d) true (sd_finished d)
    (sd_metrics d) (sd_tool_ids d) (sd_accumulator d).
Definition set_finished (d : StreamDecoder) : StreamDecoder :=
  mkDecoder (sd_protocol d) (sd_fallback_model d) (sd_buffer d) (sd_upstream_raw d) (sd_emitted_start d) true
    (sd_metrics d) (sd_tool_ids d) (sd_accumulator d).
Definition set_metrics (m : StreamMetrics) (d : StreamDecoder) : StreamDecoder :=
  mkDecoder (sd_protocol d) (sd_fallback_model d) (sd_buffer d) (sd_upstream_raw d) (sd_emitted_start d)
    (sd_finished d) m (sd_tool_ids d) (sd_accumulator d).
Definition set_tool_ids (t : gmap (Z * Z) string) (d : StreamDecoder) : StreamDecoder :=
  mkDecoder (sd_protocol d) (sd_fallback_model d) (sd_buffer d) (sd_upstream_raw d) (sd_emitted_start d)
    (sd_finished d) (sd_metrics d) t (sd_accumulator d).
Definition set_accumulator (a : ResponseAccumulator) (d : StreamDecoder) : StreamDecoder :=
  mkDecoder (sd_protocol d) (sd_fallback_model d) (sd_buffer d) (sd_upstream_raw d) (sd_emitted_start d)
    (sd_finished d) (sd_metrics d) (sd_tool_ids d) a.

(** Code that changes the decoder and pushes events. *)
Definition decoding : Type := StreamDecoder -> StreamDecoder * list LlmStreamEvent.
Definition emit (events : list LlmStreamEvent) : decoding := fun d => (d, events).
Definition also (f g : decoding) : decoding :=
  fun d => let '(d, e1) := f d in let '(d, e2) := g d in (d, e1 ++ e2).
(** [for (position, x) in l.enumerate()]. *)
Fixpoint for_each {A} (f : Z -> A -> decoding) (position : Z) (l : list A) : decoding :=
  match l with
  | [] => emit []
  | x :: rest => also (f position x) (for_each f (position + 1) rest)
  end.

Definition emit_opt {A} (o : option A) (f : A -> LlmStreamEvent) : decoding :=
  emit (match o with Some x => [f x] | None => [] end).

Definition start_from (id model : option string) : decoding := fun d =>
  if sd_emitted_start d then
    (match ra_model (sd_accumulator d) with
     | None => set_accumulator (set_ra_model model (sd_accumulator d)) d
     | Some _ => d
     end, [])
  else (set_emitted_start d,
        [Start id (match model with Some m => Some m | None => Some (sd_fallback_model d) end)]).

Definition usage_from (v : Value) : decoding :=
  let usage := extract_usage_from_response v in
  emit (if bool_decide (usage = token_usage_default) then [] else [UsageEvent (to_llm_usage usage)]).

(** [TokenUsage::merge]; the sums wrap. *)
Definition u64_wrapping_add (a b : Z) : Z := ((a + b) mod 2 ^ 64)%Z.
Definition usage_merge (u v : TokenUsage) : TokenUsage :=
  mkUsage (u64_wrapping_add (tu_input u) (tu_input v)) (u64_wrapping_add (tu_output u) (tu_output v))
    (u64_wrapping_add (tu_total u) (tu_total v)) (u64_wrapping_add (tu_cache_read u) (tu_cache_read v))
    (u64_wrapping_add (tu_cache_write u) (tu_cache_write v)) (u64_wrapping_add (tu_reasoning u) (tu_reasoning v)).

Definition sse_line_usage (u : TokenUsage) (line : string) : TokenUsage :=
  match str_strip_prefix "data:" (str_trim line) with
  | None => u
  | Some rest =>
      let json_str := str_trim rest in
      if bool_decide (json_str = "") || bool_decide (json_str = "[DONE]") then u
      else match json_parse json_str with
           | None => u
           | Some v =>
               let u := usage_merge u (extract_usage_from_response v) in
               match json_get v "message" with
               | Some msg => usage_merge u (extract_usage_from_response msg)
               | None => u
               end
           end
  end.
Definition extract_usage_from_sse (raw : string) : TokenUsage :=
  foldl sse_line_usage token_usage_default (str_lines raw).

(** [decode_stream_arguments_delta]. *)
Definition decode_stream_arguments_delta (raw : string) : string :=
  if bool_decide (raw = "") then ""
  else if str_starts_with (String "034" "") raw then
    match json_parse raw with Some (JString decoded) => decoded | _ => raw end
  else raw.

Definition decode_chat_tool (candidate position : Z) (tool : Value) : decoding := fun d =>
  let index := get_index tool position in
  let function := get_or_self tool "function" in
  let known := sd_tool_ids d !! (candidate, index) in
  let id := match non_empty_str (get_str tool "id") with
            | Some id => id
            | None => default ("call_stream_" +:+ pretty candidate +:+ "_" +:+ pretty index) known
            end in
  let name := default "" (get_str function "name") in
  let '(d, started) := match known with
                       | None => (set_tool_ids (<[(candidate, index) := id]> (sd_tool_ids d)) d,
                                  [ToolCallStart candidate id name None])
                       | Some _ => (d, [])
                       end in
  (d, started ++ match non_empty_str (get_str function "arguments") with
                 | Some delta => [ToolArgumentsDelta candidate id (decode_stream_arguments_delta delta)]
                 | None => []
                 end).

Definition decode_chat_choice (position : Z) (choice : Value) : decoding :=
  let candidate := get_index choice position in
  let delta := get_or_self choice "delta" in
  also (emit_opt (non_empty_str (get_str delta "content")) (TextDelta candidate))
    (also (emit_opt (non_empty_str (first_of delta ["reasoning_content"; "reasoning"] ≫= as_str))
             (ReasoningDelta candidate))
       (also (for_each (decode_chat_tool candidate) 0 (get_list delta "tool_calls"))
          (emit_opt (get_str choice "finish_reason") (fun reason => FinishEvent candidate (Some reason))))).

Definition decode_chat (v : Value) : decoding :=
  also (start_from (get_str v "id") (get_str v "model"))
    (also (for_each decode_chat_choice 0 (get_list v "choices")) (usage_from v)).

Definition decode_gemini_part (candidate part_index : Z) (part : Value) : decoding :=
  also
    (emit_opt (non_empty_str (get_str part "text"))
       (fun text => if default false (json_get part "thought" ≫= as_bool)
                    then ReasoningDelta candidate text else TextDelta candidate text))
    (match json_get part "functionCall" with
     | None => emit []
     | Some call =>
         let id := match non_empty_str (get_str call "id") with
                   | Some id => id
                   | None => "call_gemini_" +:+ pretty candidate +:+ "_" +:+ pretty part_index
                   end in
         emit [ToolCallStart candidate id (default "" (get_str call "name")) (get_str part "thoughtSignature");
               ToolArgumentsDelta candidate id (json_text (default (JObject []) (json_get call "args")))]
     end).

Definition decode_gemini_candidate (position : Z) (v : Value) : decoding :=
  let candidate := get_index v position in
  let parts := match json_get v "content" with Some c => get_list c "parts" | None => [] end in
  also (for_each (decode_gemini_part candidate) 0 parts)
    (emit_opt (get_str v "finishReason") (fun reason => FinishEvent candidate (Some reason))).

Definition decode_gemini (v : Value) : decoding :=
  also (start_from (get_str v "responseId") (get_str v "modelVersion"))
    (also (for_each decode_gemini_candidate 0 (get_list v "candidates")) (usage_from v)).

Definition decode_messages_delta (v : Value) : decoding := fun d =>
  let delta := get_or_self v "delta" in
  if has_type delta "text_delta" then emit_opt (get_str delta "text") (TextDelta 0) d
  else if has_type delta "thinking_delta" then emit_opt (get_str delta "thinking") (ReasoningDelta 0) d
  else if has_type delta "input_json_delta" then
    emit_opt (get_str delta "partial_json")
      (ToolArgumentsDelta 0 (default "call_stream" (sd_tool_ids d !! (0, get_index v 0)%Z))) d
  else emit [] d.

Definition decode_messages_block (v : Value) : decoding := fun d =>
  let block := get_or_self v "content_block" in
  if has_type block "tool_use" then
    let id := default "call_stream" (get_str block "id") in
    (set_tool_ids (<[(0, get_index v 0)%Z := id]> (sd_tool_ids d)) d,
     [ToolCallStart 0 id (default "" (get_str block "name")) None])
  else (d, []).

Definition decode_messages (v : Value) : decoding :=
  if has_type v "message_start" then
    let message := get_or_self v "message" in
    also (start_from (get_str message "id") (get_str message "model")) (usage_from message)
  else if has_type v "content_block_start" then decode_messages_block v
  else if has_type v "content_block_delta" then decode_messages_delta v
  else if has_type v "message_delta" then
    also (emit_opt (get_str (get_or_self v "delta") "stop_reason") (fun reason => FinishEvent 0 (Some reason)))
      (usage_from v)
  else emit [].

Definition decode_responses_event (event_type : string) (v : Value) : decoding :=
  if bool_decide (event_type = "response.output_text.delta") then emit_opt (get_str v "delta") (TextDelta 0)
  else if bool_decide (event_type = "response.reasoning_summary_text.delta") then
    emit_opt (get_str v "delta") (ReasoningDelta 0)
  else if bool_decide (event_type = "response.output_item.added") then
    let item := get_or_self v "item" in
    emit (if has_type item "function_call" || has_type item "custom_tool_call" then
            [ToolCallStart 0 (default "call_stream" (first_of item ["call_id"; "id"] ≫= as_str))
               (default "" (get_str item "name")) None]
          else [])
  else if bool_decide (event_type = "response.function_call_arguments.delta")
          || bool_decide (event_type = "response.custom_tool_call_input.delta") then
    emit_opt (get_str v "delta")
      (ToolArgumentsDelta 0 (default "call_stream" (first_of v ["call_id"; "item_id"] ≫= as_str)))
  else if bool_decide (event_type = "response.completed") || bool_decide (event_type = "response.incomplete")
          || bool_decide (event_type = "response.failed") then
    let response := get_or_self v "response" in
    also (usage_from response) (emit [FinishEvent 0 (get_str response "status")])
  else emit [].

Definition decode_responses (v : Value) : decoding := fun d =>
  also (if sd_emitted_start d then emit []
        else let response := get_or_self v "response" in
             start_from (get_str response "id") (get_str response "model"))
    (decode_responses_event (default "" (get_str v "type")) v) d.

Definition decode_value (v : Value) : decoding := fun d =>
  match sd_protocol d with
  | PGemini => decode_gemini v d
  | PChatCompletions => decode_chat v d
  | PMessages => decode_messages v d
  | PResponses => decode_responses v d
  | PUnknown => (d, [])
  end.

Inductive StreamError := NotUtf8 | BadJson | FrameTooLong.

(** One frame: [continue] without data. *)
Definition decode_frame (frame : string) (d : StreamDecoder)
  : result StreamError (StreamDecoder * list LlmStreamEvent) :=
  if negb (utf8_valid frame) then Err NotUtf8
  else
    let data := sse_frame_data frame in
    if bool_decide (data = "") || bool_decide (data = "[DONE]") then Ok (d, [])
    else match json_parse data with
         | Some v => Ok (decode_value v d)
         | None => Err BadJson
         end.

(** The loop of [push_chunk]; the buffer shrinks in every turn.  An error
    leaves the decoder as it is then, and the events so far are dropped. *)
Fixpoint decode_frames (fuel : nat) (d : StreamDecoder)
  : result (StreamError * StreamDecoder) (StreamDecoder * list LlmStreamEvent) :=
  match fuel with
  | O => Ok (d, [])
  | S fuel =>
      match next_sse_frame (sd_buffer d) with
      | None => Ok (d, [])
      | Some (frame, rest) =>
          let d := set_buffer rest d in
          match decode_frame frame d with
          | Err e => Err (e, d)
          | Ok (d, e1) =>
              match decode_frames fuel d with
              | Err e => Err e
              | Ok (d, e2) => Ok (d, e1 ++ e2)
              end
          end
      end
  end.

Definition counts_as_token (event : LlmStreamEvent) : bool :=
  match event with TextDelta _ _ | ReasoningDelta _ _ | ToolCallStart _ _ _ _ => true | _ => false end.

Definition observe_usage (u : TokenUsage) (event : LlmStreamEvent) : TokenUsage :=
  match event with UsageEvent v => from_llm_usage v | _ => u end.

Definition observe (elapsed_ms : Z) (events : list LlmStreamEvent) (d : StreamDecoder) : StreamDecoder :=
  let m := sd_metrics d in
  let ttft := match sm_ttft_ms m with
              | None => if existsb counts_as_token events then Some elapsed_ms else None
              | t => t
              end in
  set_accumulator (foldl acc_apply (sd_accumulator d) events)
    (set_metrics (mkMetrics (foldl observe_usage (sm_usage m) events) ttft) d).

Definition decoder_push_chunk (elapsed_ms : Z) (chunk : string) (d : StreamDecoder)
  : result (StreamError * StreamDecoder) (StreamDecoder * list LlmStreamEvent) :=
  let d := set_raw (sd_upstream_raw d +:+ chunk) d in
  let d := set_buffer (sd_buffer d +:+ chunk) d in
  match decode_frames (S (String.length (sd_buffer d))) d with
  | Err e => Err e
  | Ok (d, events) =>
      if (Z.of_nat (String.length (sd_buffer d)) <=? MAX_SSE_FRAME_BYTES)%Z then Ok (observe elapsed_ms events d, events)
      else Err (FrameTooLong, d)
  end.

Definition decoder_finish (d : StreamDecoder) : StreamDecoder * list LlmStreamEvent :=
  if sd_finished d then (d, []) else (set_finished d, []).

(** ** The renderer *)

Record StreamRenderer := mkRenderer {
  sr_protocol : LlmProtocol;
  sr_model : string;
  sr_id : string;
  sr_created : Z;
  sr_sequence : Z;
  sr_started : bool;
  sr_finished : bool;
  sr_usage : LlmUsage;
  sr_finish_reason : option string;
  sr_blocks : gmap string Z;
  sr_tool_names : gmap string string;
  sr_tool_arguments : gmap string string;
  sr_accumulated_text : string;
  sr_text_block : option Z;
  sr_reasoning_block : option Z;
  sr_next_block : Z;
}.

(** [timestamp] is the clock in milliseconds. *)
Definition renderer_new (protocol : LlmProtocol) (model : string) (timestamp : Z) : StreamRenderer :=
  mkRenderer protocol model ("stream_" +:+ pretty timestamp) (Z.quot timestamp 1000) 0 false false llm_usage_default None
    ∅ ∅ ∅ "" None None 0.

Definition put_id (x : string) (r : StreamRenderer) : StreamRenderer :=
  mkRenderer (sr_protocol r) (sr_model r) x (sr_created r) (sr_sequence r) (sr_started r) (sr_finished r)
    (sr_usage r) (sr_finish_reason r) (sr_blocks r) (sr_tool_names r) (sr_tool_arguments r)
    (sr_accumulated_text r) (sr_text_block r) (sr_reasoning_block r) (sr_next_block r).
Definition put_sequence (x : Z) (r : StreamRenderer) : StreamRenderer :=
  mkRenderer (sr_protocol r) (sr_model r) (sr_id r) (sr_created r) x (sr_started r) (sr_finished r) (sr_usage r)
    (sr_finish_reason r) (sr_blocks r) (sr_tool_names r) (sr_tool_arguments r) (sr_accumulated_text r)
    (sr_text_block r) (sr_reasoning_block r) (sr_next_block r).
Definition put_started (x : bool) (r : StreamRenderer) : StreamRenderer :=
  mkRenderer (sr_protocol r) (sr_model r) (sr_id r) (sr_created r) (sr_sequence r) x (sr_finished r)
    (sr_usage r) (sr_finish_reason r) (sr_blocks r) (sr_tool_names r) (sr_tool_arguments r)
    (sr_accumulated_text r) (sr_text_block r) (sr_reasoning_block r) (sr_next_block r).
Definition put_finished (x : bool) (r : StreamRenderer) : StreamRenderer :=
  mkRenderer (sr_protocol r) (sr_model r) (sr_id r) (sr_created r) (sr_sequence r) (sr_started r) x (sr_usage r)
    (sr_finish_reason r) (sr_blocks r) (sr_tool_names r) (sr_tool_arguments r) (sr_accumulated_text r)
    (sr_text_block r) (sr_reasoning_block r) (sr_next_block r).
Definition put_usage (x : LlmUsage) (r : StreamRenderer) : StreamRenderer :=
  mkRenderer (sr_protocol r) (sr_model r) (sr_id r) (sr_created r) (sr_sequence r) (sr_started r)
    (sr_finished r) x (sr_finish_reason r) (sr_blocks r) (sr_tool_names r) (sr_tool_arguments r)
    (sr_accumulated_text r) (sr_text_block r) (sr_reasoning_block r) (sr_next_block r).
Definition put_finish_reason (x : option string) (r : StreamRenderer) : StreamRenderer :=
  mkRenderer (sr_protocol r) (sr_model r) (sr_id r) (sr_created r) (sr_sequence r) (sr_started r)
    (sr_finished r) (sr_usage r) x (sr_blocks r) (sr_tool_names r) (sr_tool_arguments r) (sr_accumulated_text r)
    (sr_text_block r) (sr_reasoning_block r) (sr_next_block r).
Definition put_blocks (x : gmap string Z) (r : StreamRenderer) : StreamRenderer :=
  mkRenderer (sr_protocol r) (sr_model r) (sr_id r) (sr_created r) (sr_sequence r) (sr_started r)
    (sr_finished r) (sr_usage r) (sr_finish_reason r) x (sr_tool_names r) (sr_tool_arguments r)
    (sr_accumulated_text r) (sr_text_block r) (sr_reasoning_block r) (sr_next_block r).
Definition put_tool_names (x : gmap string string) (r : StreamRenderer) : StreamRenderer :=
  mkRenderer (sr_protocol r) (sr_model r) (sr_id r) (sr_created r) (sr_sequence r) (sr_started r)
    (sr_finished r) (sr_usage r) (sr_finish_reason r) (sr_blocks r) x (sr_tool_arguments r)
    (sr_accumulated_text r) (sr_text_block r) (sr_reasoning_block r) (sr_next_block r).
Definition put_tool_arguments (x : gmap string string) (r : StreamRenderer) : StreamRenderer :=
  mkRenderer (sr_protocol r) (sr_model r) (sr_id r) (sr_created r) (sr_sequence r) (sr_started r)
    (sr_finished r) (sr_usage r) (sr_finish_reason r) (sr_blocks r) (sr_tool_names r) x (sr_accumulated_text r)
    (sr_text_block r) (sr_reasoning_block r) (sr_next_block r).
Definition put_accumulated_text (x : string) (r : StreamRenderer) : StreamRenderer :=
  mkRenderer (sr_protocol r) (sr_model r) (sr_id r) (sr_created r) (sr_sequence r) (sr_started r)
    (sr_finished r) (sr_usage r) (sr_finish_reason r) (sr_blocks r) (sr_tool_names r) (sr_tool_arguments r) x
    (sr_text_block r) (sr_reasoning_block r) (sr_next_block r).
Definition put_text_block (x : option Z) (r : StreamRenderer) : StreamRenderer :=
  mkRenderer (sr_protocol r) (sr_model r) (sr_id r) (sr_created r) (sr_sequence r) (sr_started r)
    (sr_finished r) (sr_usage r) (sr_finish_reason r) (sr_blocks r) (sr_tool_names r) (sr_tool_arguments r)
    (sr_accumulated_text r) x (sr_reasoning_block r) (sr_next_block r).
Definition put_reasoning_block (x : option Z) (r : StreamRenderer) : StreamRenderer :=
  mkRenderer (sr_protocol r) (sr_model r) (sr_id r) (sr_created r) (sr_sequence r) (sr_started r)
    (sr_finished r) (sr_usage r) (sr_finish_reason r) (sr_blocks r) (sr_tool_names r) (sr_tool_arguments r)
    (sr_accumulated_text r) (sr_text_block r) x (sr_next_block r).
Definition put_next_block (x : Z) (r : StreamRenderer) : StreamRenderer :=
  mkRenderer (sr_protocol r) (sr_model r) (sr_id r) (sr_created r) (sr_sequence r) (sr_started r)
    (sr_finished r) (sr_usage r) (sr_finish_reason r) (sr_blocks r) (sr_tool_names r) (sr_tool_arguments r)
    (sr_accumulated_text r) (sr_text_block r) (sr_reasoning_block r) x.

(** Code that changes the renderer and appends to the output. *)
Definition rendering : Type := StreamRenderer -> StreamRenderer * list SseEvent.
Definition out (events : list SseEvent) : rendering := fun r => (r, events).
Definition change (f : StreamRenderer -> StreamRenderer) : rendering := fun r => (f r, []).
Definition andthen (f g : rendering) : rendering :=
  fun r => let '(r, o1) := f r in let '(r, o2) := g r in (r, o1 ++ o2).

(** *** Finish reasons and usage *)

Definition one_of (reason : option string) (l : list string) : bool :=
  match reason with Some s => bool_decide (s ∈ l) | None => false end.

Definition chat_finish_reason (reason : option string) (has_tools : bool) : string :=
  if one_of reason ["length"; "max_tokens"; "MAX_TOKENS"] then "length"
  else if one_of reason ["content_filter"; "SAFETY"; "RECITATION"; "BLOCKLIST"; "PROHIBITED_CONTENT"] then
    "content_filter"
  else if one_of reason ["tool_calls"; "tool_use"] then "tool_calls"
  else if has_tools then "tool_calls" else "stop".

Definition anthropic_finish_reason (reason : option string) (has_tools : bool) : string :=
  if one_of reason ["length"; "max_tokens"; "MAX_TOKENS"] then "max_tokens"
  else if one_of reason ["tool_calls"; "tool_use"] then "tool_use"
  else if has_tools then "tool_use" else "end_turn".

Definition gemini_finish_reason (reason : option string) : string :=
  if one_of reason ["length"; "max_tokens"] then "MAX_TOKENS"
  else if one_of reason ["content_filter"] then "SAFETY" else "STOP".

Definition render_chat_usage (u : LlmUsage) : Value :=
  JObject [("prompt_tokens", int (lu_input u)); ("completion_tokens", int (lu_output u));
           ("total_tokens", int (lu_total u));
           ("prompt_tokens_details", JObject [("cached_tokens", int (lu_cache_read u))]);
           ("completion_tokens_details", JObject [("reasoning_tokens", int (lu_reasoning u))])].

Definition has_blocks (r : StreamRenderer) : bool := negb (bool_decide (sr_blocks r = ∅)).

(** [raw.chars().filter(char::is_ascii_alphanumeric).take(24)]. *)
Fixpoint safe_chars (room : nat) (s : string) : string :=
  match s with
  | EmptyString => ""
  | String a r =>
      if is_ascii_alphanumeric a then
        match room with O => "" | S room => String a (safe_chars room r) end
      else safe_chars room r
  end.
Definition safe_id_suffix (raw : string) : string := safe_chars 24 raw.

(** *** Chat completions *)

Definition ensure_chat_tool_index (id : string) (r : StreamRenderer) : StreamRenderer * Z :=
  match sr_blocks r !! id with
  | Some index => (r, index)
  | None => let index := Z.of_nat (size (sr_blocks r)) in
            (put_blocks (<[id := index]> (sr_blocks r)) r, index)
  end.

Definition chat_choice (candidate : Z) (delta : Value) (finish : Value) : Value :=
  JObject [("index", int candidate); ("delta", delta); ("finish_reason", finish)].

Definition chat_chunk (r : StreamRenderer) (choices : list Value) (rest : list (string * Value)) : SseEvent :=
  (None, JObject ([("id", JString (sr_id r)); ("object", JString "chat.completion.chunk");
                   ("created", int (sr_created r)); ("model", JString (sr_model r));
                   ("choices", JArray choices)] ++ rest)).

Definition render_chat (event : LlmStreamEvent) : rendering := fun r =>
  match event with
  | Start id _ =>
      let r := match id with Some id => put_id id r | None => r end in
      (r, [chat_chunk r [chat_choice 0 (JObject [("role", JString "assistant")]) JNull] []])
  | TextDelta candidate text =>
      (r, [chat_chunk r [chat_choice candidate (JObject [("content", JString text)]) JNull] []])
  | ReasoningDelta candidate text =>
      (r, [chat_chunk r [chat_choice candidate (JObject [("reasoning_content", JString text)]) JNull] []])
  | ToolCallStart candidate id name signature =>
      let wire_id := match signature with Some s => id +:+ "__thought__" +:+ s | None => id end in
      let '(r, index) := ensure_chat_tool_index id r in
      let tool := JObject [("index", int index); ("id", JString wire_id); ("type", JString "function");
                           ("function", JObject [("name", JString name); ("arguments", JString "")])] in
      (r, [chat_chunk r [chat_choice candidate (JObject [("tool_calls", JArray [tool])]) JNull] []])
  | ToolArgumentsDelta candidate id delta =>
      let '(r, index) := ensure_chat_tool_index id r in
      let tool := JObject [("index", int index); ("function", JObject [("arguments", JString delta)])] in
      (r, [chat_chunk r [chat_choice candidate (JObject [("tool_calls", JArray [tool])]) JNull] []])
  | UsageEvent usage =>
      let r := put_usage usage r in (r, [chat_chunk r [] [("usage", render_chat_usage (sr_usage r))]])
  | FinishEvent candidate reason =>
      let r := put_finish_reason reason r in
      (r, [chat_chunk r [chat_choice candidate (JObject [])
                           (JString (chat_finish_reason reason (has_blocks r)))] []])
  | ErrorEvent message code =>
      (r, [(None, JObject [("error", JObject [("message", JString message); ("code", opt_string code)])])])
  end.

(** *** Messages *)

Definition message_event (name : string) (fields : list (string * Value)) : SseEvent :=
  (Some name, JObject (("type", JString name) :: fields)).

Definition ensure_messages_start (event : LlmStreamEvent) : rendering := fun r =>
  let r := match event with Start (Some id) _ => put_id id r | _ => r end in
  if sr_started r then (r, [])
  else
    let r := put_started true r in
    (r, [message_event "message_start"
           [("message", JObject [("id", JString (sr_id r)); ("type", JString "message");
              ("role", JString "assistant"); ("model", JString (sr_model r)); ("content", JArray []);
              ("stop_reason", JNull); ("stop_sequence", JNull);
              ("usage", JObject [("input_tokens", int 0); ("output_tokens", int 0)])])]]).

Inductive block_kind := TextBlock | ThinkingBlock | ToolBlock (id name : string).

Definition existing_block (kind : block_kind) (r : StreamRenderer) : option Z :=
  match kind with
  | TextBlock => sr_text_block r
  | ThinkingBlock => sr_reasoning_block r
  | ToolBlock id _ => sr_blocks r !! id
  end.

Definition or_default (id : string) (m : gmap string string) : gmap string string :=
  match m !! id with Some _ => m | None => <[id := ""]> m end.

Definition ensure_message_block (kind : block_kind) (r : StreamRenderer) : StreamRenderer * Z * list SseEvent :=
  match existing_block kind r with
  | Some index => (r, index, [])
  | None =>
      let index := sr_next_block r in
      let r := put_next_block (index + 1)%Z r in
      let '(r, block) :=
        match kind with
        | ToolBlock id name =>
            let r := put_blocks (<[id := index]> (sr_blocks r)) r in
            let r := put_tool_names (<[id := name]> (sr_tool_names r)) r in
            let r := put_tool_arguments (or_default id (sr_tool_arguments r)) r in
            (r, JObject [("type", JString "tool_use"); ("id", JString id); ("name", JString name); ("input", JObject [])])
        | ThinkingBlock =>
            (put_reasoning_block (Some index) r, JObject [("type", JString "thinking"); ("thinking", JString "")])
        | TextBlock => (put_text_block (Some index) r, JObject [("type", JString "text"); ("text", JString "")])
        end in
      (r, index, [message_event "content_block_start" [("index", int index); ("content_block", block)]])
  end.

Definition block_delta (index : Z) (delta : list (string * Value)) : SseEvent :=
  message_event "content_block_delta" [("index", int index); ("delta", JObject delta)].

Definition append_argument (id delta : string) (r : StreamRenderer) : StreamRenderer :=
  put_tool_arguments (<[id := default "" (sr_tool_arguments r !! id) +:+ delta]> (sr_tool_arguments r)) r.

Definition render_messages_event (event : LlmStreamEvent) : rendering := fun r =>
  match event with
  | TextDelta _ text =>
      let r := put_accumulated_text (sr_accumulated_text r +:+ text) r in
      let '(r, index, o) := ensure_message_block TextBlock r in
      (r, o ++ [block_delta index [("type", JString "text_delta"); ("text", JString text)]])
  | ReasoningDelta _ text =>
      let '(r, index, o) := ensure_message_block ThinkingBlock r in
      (r, o ++ [block_delta index [("type", JString "thinking_delta"); ("thinking", JString text)]])
  | ToolCallStart _ id name _ =>
      let r := put_tool_names (<[id := name]> (sr_tool_names r)) r in
      let '(r, _, o) := ensure_message_block (ToolBlock id name) r in (r, o)
  | ToolArgumentsDelta _ id delta =>
      let '(r, index, o) := ensure_message_block (ToolBlock id "") r in
      (append_argument id delta r,
       o ++ [block_delta index [("type", JString "input_json_delta"); ("partial_json", JString delta)]])
  | UsageEvent usage => (put_usage usage r, [])
  | FinishEvent _ reason => (put_finish_reason reason r, [])
  | Start _ _ | ErrorEvent _ _ => (r, [])
  end.

Definition render_messages (event : LlmStreamEvent) : rendering :=
  andthen (ensure_messages_start event) (render_messages_event event).

Definition finish_messages : rendering := fun r =>
  let u := sr_usage r in
  let usage := JObject ([("input_tokens", int (lu_input u)); ("output_tokens", int (lu_output u));
                         ("cache_read_input_tokens", int (lu_cache_read u))]
                        ++ (if (0 <? lu_cache_write u)%Z
                            then [("cache_creation_input_tokens", int (lu_cache_write u))] else [])) in
  (r, ((fun index => message_event "content_block_stop" [("index", int index)]) <$> seqZ 0 (sr_next_block r))
      ++ [message_event "message_delta"
            [("delta", JObject [("stop_reason", JString (anthropic_finish_reason (sr_finish_reason r) (has_blocks r)));
                                ("stop_sequence", JNull)]); ("usage", usage)];
          message_event "message_stop" []]).

(** *** Responses *)

Definition emit_response_event (name : string) (fields : list (string * Value)) : rendering := fun r =>
  let r := put_sequence (sr_sequence r + 1)%Z r in
  (r, [(Some name, JObject (("type", JString name) :: fields ++ [("sequence_number", int (sr_sequence r))]))]).

Definition msg_id (r : StreamRenderer) : Value := JString ("msg_" +:+ sr_id r).
Definition fc_id (id : string) : Value := JString ("fc_" +:+ id).

Definition start_response_tool (id name : string) : rendering := fun r =>
  let index := sr_next_block r in
  let r := put_next_block (index + 1)%Z r in
  let r := put_blocks (<[id := index]> (sr_blocks r)) r in
  let r := match sr_tool_names r !! id with
           | Some _ => r | None => put_tool_names (<[id := name]> (sr_tool_names r)) r end in
  let r := put_tool_arguments (or_default id (sr_tool_arguments r)) r in
  emit_response_event "response.output_item.added"
    [("output_index", int index);
     ("item", JObject [("type", JString "function_call"); ("id", fc_id id); ("call_id", JString id);
                       ("name", JString name); ("arguments", JString ""); ("status", JString "in_progress")])] r.

Definition responses_created : rendering := fun r =>
  if sr_started r then (r, [])
  else
    let r := put_started true r in
    emit_response_event "response.created"
      [("response", JObject [("id", JString (sr_id r)); ("object", JString "response");
                             ("status", JString "in_progress"); ("model", JString (sr_model r));
                             ("output", JArray [])])] r.

Definition text_part (text : string) : Value :=
  JObject [("type", JString "output_text"); ("text", JString text); ("annotations", JArray [])].

Definition responses_text_block : rendering := fun r =>
  match sr_text_block r with
  | Some _ => (r, [])
  | None =>
      let index := sr_next_block r in
      let r := put_text_block (Some index) (put_next_block (index + 1)%Z r) in
      andthen
        (emit_response_event "response.output_item.added"
           [("output_index", int index);
            ("item", JObject [("type", JString "message"); ("id", msg_id r); ("role", JString "assistant");
                              ("status", JString "in_progress"); ("content", JArray [])])])
        (emit_response_event "response.content_part.added"
           [("item_id", msg_id r); ("output_index", int index); ("content_index", int 0); ("part", text_part "")]) r
  end.

Definition render_responses_event (event : LlmStreamEvent) : rendering := fun r =>
  match event with
  | TextDelta _ text =>
      let r := put_accumulated_text (sr_accumulated_text r +:+ text) r in
      andthen responses_text_block
        (fun r => emit_response_event "response.output_text.delta"
           [("item_id", msg_id r); ("output_index", int (default 0%Z (sr_text_block r))); ("content_index", int 0);
            ("delta", JString text); ("logprobs", JArray [])] r) r
  | ToolCallStart _ id name _ =>
      let r := put_tool_names (<[id := name]> (sr_tool_names r)) r in
      let r := put_tool_arguments (or_default id (sr_tool_arguments r)) r in
      match sr_blocks r !! id with Some _ => (r, []) | None => start_response_tool id name r end
  | ToolArgumentsDelta _ id delta =>
      andthen (fun r => match sr_blocks r !! id with Some _ => (r, []) | None => start_response_tool id "" r end)
        (fun r => emit_response_event "response.function_call_arguments.delta"
           [("item_id", fc_id id); ("output_index", int (default 0%Z (sr_blocks r !! id))); ("delta", JString delta)]
           (append_argument id delta r)) r
  | UsageEvent usage => (put_usage usage r, [])
  | FinishEvent _ reason => (put_finish_reason reason r, [])
  | ReasoningDelta _ _ | Start _ _ | ErrorEvent _ _ => (r, [])
  end.

Definition render_responses (event : LlmStreamEvent) : rendering :=
  andthen (change (fun r => match event with
                            | Start (Some id) _ => put_id ("resp_" +:+ safe_id_suffix id) r
                            | _ => r
                            end))
    (andthen responses_created (render_responses_event event)).

(** The tools by their index. *)
Definition block_le (x y : string * Z) : Prop := (snd x <= snd y)%Z.
#[local] Instance block_le_dec x y : Decision (block_le x y).
Proof. unfold block_le. apply _. Defined.
Definition tools_by_index (r : StreamRenderer) : list (string * Z) :=
  merge_sort block_le (map_to_list (sr_blocks r)).

Definition message_item (r : StreamRenderer) : Value :=
  JObject [("type", JString "message"); ("id", msg_id r); ("role", JString "assistant");
           ("status", JString "completed");
           ("content", JArray [JObject [("type", JString "output_text"); ("text", JString (sr_accumulated_text r));
                                        ("annotations", JArray []); ("logprobs", JArray [])]])].
Definition tool_item (r : StreamRenderer) (id : string) : Value :=
  JObject [("type", JString "function_call"); ("id", fc_id id); ("call_id", JString id);
           ("name", JString (default "" (sr_tool_names r !! id)));
           ("arguments", JString (default "" (sr_tool_arguments r !! id))); ("status", JString "completed")].

Definition finish_text (index : Z) : rendering := fun r =>
  let text := JString (sr_accumulated_text r) in
  andthen
    (emit_response_event "response.output_text.done"
       [("item_id", msg_id r); ("output_index", int index); ("content_index", int 0); ("text", text);
        ("logprobs", JArray [])])
    (andthen
       (emit_response_event "response.content_part.done"
          [("item_id", msg_id r); ("output_index", int index); ("content_index", int 0);
           ("part", text_part (sr_accumulated_text r))])
       (emit_response_event "response.output_item.done"
          [("output_index", int index); ("item", message_item r)])) r.

Definition finish_tool (tool : string * Z) : rendering := fun r =>
  let '(id, index) := tool in
  andthen
    (emit_response_event "response.function_call_arguments.done"
       [("item_id", fc_id id); ("output_index", int index);
        ("arguments", JString (default "" (sr_tool_arguments r !! id)))])
    (emit_response_event "response.output_item.done" [("output_index", int index); ("item", tool_item r id)]) r.

Fixpoint finish_tools (tools : list (string * Z)) : rendering :=
  match tools with [] => out [] | t :: rest => andthen (finish_tool t) (finish_tools rest) end.

Definition item_le (x y : Z * Value) : Prop := (fst x <= fst y)%Z.
#[local] Instance item_le_dec x y : Decision (item_le x y).
Proof. unfold item_le. apply _. Defined.

Definition completed_output (r : StreamRenderer) : list Value :=
  snd <$> merge_sort item_le
    (match sr_text_block r with Some index => [(index, message_item r)] | None => [] end
     ++ ((fun t => (snd t, tool_item r (fst t))) <$> tools_by_index r)).

Definition response_status (reason : option string) : string :=
  if one_of reason ["length"; "max_tokens"; "MAX_TOKENS"; "incomplete"] then "incomplete"
  else if one_of reason ["failed"; "content_filter"] then "failed" else "completed".

Definition finish_responses : rendering := fun r =>
  andthen (match sr_text_block r with Some index => finish_text index | None => out [] end)
    (andthen (finish_tools (tools_by_index r))
       (emit_response_event "response.completed"
          [("response", JObject [("id", JString (sr_id r)); ("object", JString "response");
              ("status", JString (response_status (sr_finish_reason r))); ("model", JString (sr_model r));
              ("output", JArray (completed_output r));
              ("usage", JObject [("input_tokens", int (lu_input (sr_usage r)));
                                 ("output_tokens", int (lu_output (sr_usage r)));
                                 ("total_tokens", int (lu_total (sr_usage r)))])])])) r.

(** *** Gemini *)

Definition gemini_parts (event : LlmStreamEvent) : list Value :=
  match event with
  | TextDelta _ text => [JObject [("text", JString text)]]
  | ReasoningDelta _ text => [JObject [("text", JString text); ("thought", JBool true)]]
  | ToolCallStart _ id name signature =>
      [JObject (("functionCall", JObject [("id", JString id); ("name", JString name); ("args", JObject [])])
                :: match signature with Some s => [("thoughtSignature", JString s)] | None => [] end)]
  | _ => []
  end.

Definition render_gemini (event : LlmStreamEvent) : rendering := fun r =>
  let r := match event with Start (Some id) _ => put_id id r | UsageEvent usage => put_usage usage r | _ => r end in
  let parts := gemini_parts event in
  let finish := match event with FinishEvent _ reason => Some (gemini_finish_reason reason) | _ => None end in
  let candidates :=
    match parts, finish with
    | [], None => []
    | _, _ => [JObject [("index", int 0); ("content", JObject [("role", JString "model"); ("parts", JArray parts)]);
                        ("finishReason", opt_string finish)]]
    end in
  let usage :=
    match event with
    | UsageEvent _ =>
        [("usageMetadata", JObject [("promptTokenCount", int (lu_input (sr_usage r)));
            ("candidatesTokenCount", int (lu_output (sr_usage r))); ("totalTokenCount", int (lu_total (sr_usage r)))])]
    | _ => []
    end in
  match candidates, usage with
  | [], [] => (r, [])
  | _, _ => (r, [(None, JObject ([("responseId", JString (sr_id r)); ("modelVersion", JString (sr_model r));
                                  ("candidates", JArray candidates)] ++ usage))])
  end.

(** *** All protocols *)

Definition render_event (event : LlmStreamEvent) : rendering := fun r =>
  match sr_protocol r with
  | PChatCompletions => render_chat event r
  | PMessages => render_messages event r
  | PResponses => render_responses event r
  | PGemini => render_gemini event r
  | PUnknown => (r, [])
  end.

Fixpoint push_events (events : list LlmStreamEvent) : rendering :=
  match events with [] => out [] | e :: rest => andthen (render_event e) (push_events rest) end.

Definition format_sse (e : SseEvent) : string :=
  match fst e with
  | Some event => "event: " +:+ event +:+ newline +:+ "data: " +:+ json_text (snd e) +:+ newline +:+ newline
  | None => "data: " +:+ json_text (snd e) +:+ newline +:+ newline
  end.
Definition sse_bytes (l : list SseEvent) : string := concat_str (format_sse <$> l).

(** The end of a stream; [true] for the [DONE] marker after the events. *)
Definition renderer_finish (events : list LlmStreamEvent) : StreamRenderer -> StreamRenderer * list SseEvent * bool :=
  fun r =>
    let '(r, o1) := push_events events r in
    if sr_finished r then (r, o1, false)
    else
      let r := put_finished true r in
      match sr_protocol r with
      | PChatCompletions => (r, o1, true)
      | PMessages => let '(r, o2) := finish_messages r in (r, o1 ++ o2, false)
      | PResponses => let '(r, o2) := finish_responses r in (r, o1 ++ o2, false)
      | PGemini | PUnknown => (r, o1, false)
      end.

Definition DONE_FRAME : string := "data: [DONE]" +:+ newline +:+ newline.
Definition finish_bytes (r : StreamRenderer * list SseEvent * bool) : string :=
  let '(_, o, fin) := r in sse_bytes o +:+ if (fin : bool) then DONE_FRAME else "".

(** ** The translator *)

Record TypedStreamTranslator := mkTranslator {
  tt_passthrough : bool; tt_decoder : StreamDecoder; tt_renderer : StreamRenderer;
}.

Definition translator_new (bridge : ProtocolBridge) (client : ProtocolKind) (client_model : string) (timestamp : Z)
  : option TypedStreamTranslator :=
  upstream ← llm_protocol (upstream_protocol bridge client);
  target ← llm_protocol client;
  Some (mkTranslator (match bridge with Passthrough => true | _ => false end)
          (decoder_new upstream client_model) (renderer_new target client_model timestamp)).

Definition translator_push_chunk (elapsed_ms : Z) (chunk : string) (t : TypedStreamTranslator)
  : TypedStreamTranslator * result StreamError string :=
  let pushed := decoder_push_chunk elapsed_ms chunk (tt_decoder t) in
  if tt_passthrough t then
    let d := match pushed with Ok (d, _) => d | Err (_, d) => d end in
    (mkTranslator true d (tt_renderer t), Ok chunk)
  else
    match pushed with
    | Err (e, d) => (mkTranslator false d (tt_renderer t), Err e)
    | Ok (d, events) =>
        let '(r, rendered) := push_events events (tt_renderer t) in
        (mkTranslator false d r, Ok (sse_bytes rendered))
    end.

Definition translator_finish_stream (t : TypedStreamTranslator) : TypedStreamTranslator * string :=
  let '(d, events) := decoder_finish (tt_decoder t) in
  if tt_passthrough t then (mkTranslator true d (tt_renderer t), "")
  else
    let finished := renderer_finish events (tt_renderer t) in
    (mkTranslator false d (fst (fst finished)), finish_bytes finished).

Definition streaming_capture_snapshot (t : TypedStreamTranslator) : option string :=
  let text := visible_text (sd_accumulator (tt_decoder t)) in
  if str_blank text then None else Some text.
Definition semantic_response (t : TypedStreamTranslator) : LlmResponseEventPayload :=
  response (sd_accumulator (tt_decoder t)).

End Stream.
