(* ===== verification/StreamChunks.v ===== *)
(** * Gateway: how a provider's stream is cut does not matter

    The decoder of [TypedStream] reads a stream in the chunks the network
    delivers.  A frame found in a buffer stays the first frame when bytes
    follow; decoding a frame depends on the decoder's protocol, model, start
    flag and tool identifiers alone; so a stream delivered in any cut gives the
    events, the captured response and the usage of the stream delivered at
    once. *)

From Stdlib Require Import ZArith Lia Ascii.
From stdpp Require Import base list strings gmap numbers option pretty sorting.
From S2P Require Import Prelude Json JsonLines TurnMachine Capture SessionRoute Llm TypedStream.

(** ** The first frame *)

(** The position and length of the first delimiter, in one scan. *)
Fixpoint delimiter_at (s : string) : option (nat * nat) :=
  if String.prefix LF2 s then Some (0, 2)%nat
  else if String.prefix CRLF2 s then Some (0, 4)%nat
  else match s with
       | EmptyString => None
       | String _ r => prod_map S id <$> delimiter_at r
       end.

Definition found_delimiter (s : string) : option (nat * nat) :=
  match (fun p => (p, 2%nat)) <$> window_position_of LF2 s,
        (fun p => (p, 4%nat)) <$> window_position_of CRLF2 s with
  | Some l, Some r => Some (min_found l r)
  | Some l, None => Some l
  | None, o => o
  end.

Lemma window_position_of_cons pattern a s :
  window_position_of pattern (String a s) =
  if String.prefix pattern (String a s) then Some O else S <$> window_position_of pattern s.
Proof. by destruct pattern. Qed.

Lemma delimiter_at_cons a s :
  delimiter_at (String a s) =
  if String.prefix LF2 (String a s) then Some (0, 2)%nat
  else if String.prefix CRLF2 (String a s) then Some (0, 4)%nat
  else prod_map S id <$> delimiter_at s.
Proof. done. Qed.

Lemma min_found_S l r : min_found (prod_map S id l) (prod_map S id r) = prod_map S id (min_found l r).
Proof.
  destruct l as [a b], r as [c d]. unfold min_found. simpl.
  change (S a <? S c) with (a <? c). change (S c <? S a) with (c <? a).
  destruct (a <? c); [done|]. destruct (c <? a); [done|]. by destruct (b <=? d).
Qed.

Lemma min_found_0_l n r : (n <= snd r)%nat -> min_found (0%nat, n) r = (0%nat, n).
Proof.
  destruct r as [[|c] d]; unfold min_found; simpl; [|done]. intros ?. by rewrite (proj2 (Nat.leb_le _ _)).
Qed.

Lemma prefix_cons a p s :
  String.prefix (String a p) s = true <-> exists r, s = String a r /\ String.prefix p r = true.
Proof.
  destruct s as [|b s]; simpl; [split; [done|by intros (? & ? & ?)]|].
  destruct (ascii_dec a b) as [<-|]; split; [by eauto|by intros (? & [= <-] & ?)|done|].
  by intros (? & [= -> ->] & ?).
Qed.

Lemma prefix_nil s : String.prefix "" s = true.
Proof. by destruct s. Qed.

Lemma prefix_LF2 s : String.prefix LF2 s = true <-> exists r, s = String "010" (String "010" r).
Proof.
  unfold LF2. rewrite prefix_cons. setoid_rewrite prefix_cons. split.
  - intros (? & -> & r & -> & _). eauto.
  - intros [r ->]. eauto using prefix_nil.
Qed.

Lemma prefix_CRLF2 s :
  String.prefix CRLF2 s = true <-> exists r, s = String "013" (String "010" (String "013" (String "010" r))).
Proof.
  unfold CRLF2. rewrite prefix_cons. do 3 setoid_rewrite prefix_cons. split.
  - intros (? & -> & ? & -> & ? & -> & r & -> & _). eauto.
  - intros [r ->]. eauto 10 using prefix_nil.
Qed.

Lemma lf_not_crlf s : String.prefix LF2 s = true -> String.prefix CRLF2 s = false.
Proof. by intros [r ->]%prefix_LF2. Qed.

Lemma found_delimiter_scan s : found_delimiter s = delimiter_at s.
Proof.
  induction s as [|a s IH]; [done|]. rewrite delimiter_at_cons. unfold found_delimiter.
  rewrite !window_position_of_cons.
  destruct (String.prefix LF2 (String a s)) eqn:H1.
  - rewrite (lf_not_crlf _ H1). simpl. destruct (window_position_of CRLF2 s); simpl; [|done].
    by rewrite min_found_0_l by (simpl; lia).
  - destruct (String.prefix CRLF2 (String a s)) eqn:H2.
    + simpl. destruct (window_position_of LF2 s); simpl; done.
    + rewrite <- IH. unfold found_delimiter.
      destruct (window_position_of LF2 s) as [p|], (window_position_of CRLF2 s) as [q|]; simpl; try done.
      f_equal. apply (min_found_S (p, 2%nat) (q, 4%nat)).
Qed.

Lemma next_sse_frame_scan buffer :
  next_sse_frame buffer =
  (fun '(p, n) => (String.substring 0 p buffer, str_drop (p + n) buffer)) <$> delimiter_at buffer.
Proof.
  unfold next_sse_frame. fold (found_delimiter buffer). rewrite found_delimiter_scan.
  by destruct (delimiter_at buffer) as [[p n]|].
Qed.

Lemma prefix_app p s t : String.prefix p s = true -> String.prefix p (s +:+ t) = true.
Proof.
  revert s. induction p as [|a p IH]; intros s Hp; [by destruct (s +:+ t)|]. destruct s as [|b s]; [done|].
  change (String.prefix (String a p) (String b (s +:+ t)) = true). simpl in *.
  destruct (ascii_dec a b); [by apply IH|done].
Qed.

(** A delimiter found stays the first one. *)
Lemma delimiter_at_app s t x : delimiter_at s = Some x -> delimiter_at (s +:+ t) = Some x.
Proof.
  revert x. induction s as [|a s IH]; intros x; [done|].
  change (String a s +:+ t) with (String a (s +:+ t)). rewrite !delimiter_at_cons.
  destruct (String.prefix LF2 (String a s)) eqn:H1.
  { intros [= <-]. apply (prefix_app _ _ t) in H1. change (String a s +:+ t) with (String a (s +:+ t)) in H1.
    by rewrite H1. }
  destruct (String.prefix CRLF2 (String a s)) eqn:H2.
  { intros [= <-]. apply (prefix_app _ _ t) in H2. change (String a s +:+ t) with (String a (s +:+ t)) in H2.
    destruct (String.prefix LF2 (String a (s +:+ t))) eqn:H3; [|by rewrite H2].
    apply lf_not_crlf in H3. congruence. }
  intros Hx. destruct (delimiter_at s) as [y|] eqn:Hs; [|done]. rewrite (IH y eq_refl).
  destruct (String.prefix LF2 (String a (s +:+ t))) eqn:H3.
  { apply prefix_LF2 in H3 as [r [= -> Hr]]. destruct s as [|b s]; [done|]. injection Hr as -> _. exfalso.
    rewrite (proj2 (prefix_LF2 _)) in H1 by eauto. done. }
  destruct (String.prefix CRLF2 (String a (s +:+ t))) eqn:H4; [|done].
  apply prefix_CRLF2 in H4 as [r [= -> Hr]]. exfalso.
  destruct s as [|b s]; [done|]. injection Hr as -> Hr. destruct s as [|c s]; [done|]. injection Hr as -> Hr.
  destruct s as [|d s]; [done|]. injection Hr as -> _. rewrite (proj2 (prefix_CRLF2 _)) in H2 by eauto. done.
Qed.

Lemma delimiter_at_bound s p n : delimiter_at s = Some (p, n) -> (0 < n)%nat /\ (p + n <= String.length s)%nat.
Proof.
  revert p n. induction s as [|a s IH]; intros p n; [done|]. rewrite delimiter_at_cons.
  destruct (String.prefix LF2 (String a s)) eqn:H1.
  { apply prefix_LF2 in H1 as [r ->]. intros [= <- <-]. simpl. lia. }
  destruct (String.prefix CRLF2 (String a s)) eqn:H2.
  { apply prefix_CRLF2 in H2 as [r [= -> ->]]. intros [= <- <-]. simpl. lia. }
  destruct (delimiter_at s) as [[q m]|]; [|done]. intros [= <- <-].
  destruct (IH q m eq_refl) as [? ?]. simpl. unfold id. lia.
Qed.

Lemma str_drop_app n s t : (n <= String.length s)%nat -> str_drop n (s +:+ t) = str_drop n s +:+ t.
Proof.
  revert s. induction n as [|n IH]; intros s Hn; [done|]. destruct s as [|a s]; simpl in *; [lia|]. apply IH. lia.
Qed.

Lemma str_drop_length n s : String.length (str_drop n s) = (String.length s - n)%nat.
Proof. revert s. induction n as [|n IH]; intros [|a s]; simpl; try done. Qed.

Lemma substring_0_app n s t : (n <= String.length s)%nat -> String.substring 0 n (s +:+ t) = String.substring 0 n s.
Proof.
  revert s. induction n as [|n IH]; intros s Hn; [by destruct s, t|]. destruct s as [|a s]; simpl in *; [lia|].
  f_equal. apply IH. lia.
Qed.

(** More bytes do not change the first frame. *)
Lemma next_sse_frame_app s t frame rest :
  next_sse_frame s = Some (frame, rest) -> next_sse_frame (s +:+ t) = Some (frame, rest +:+ t).
Proof.
  rewrite !next_sse_frame_scan. destruct (delimiter_at s) as [[p n]|] eqn:Hs; [|done]. intros [= <- <-].
  rewrite (delimiter_at_app _ t _ Hs). simpl. apply delimiter_at_bound in Hs as [? ?].
  by rewrite substring_0_app, str_drop_app by lia.
Qed.

Lemma next_sse_frame_shrinks s frame rest :
  next_sse_frame s = Some (frame, rest) -> (String.length rest < String.length s)%nat.
Proof.
  rewrite next_sse_frame_scan. destruct (delimiter_at s) as [[p n]|] eqn:Hs; [|done]. intros [= <- <-].
  apply delimiter_at_bound in Hs as [? ?]. rewrite str_drop_length. lia.
Qed.

Section Chunks.
Context `{!JsonText}.

(** ** What decoding a frame may do

    [tame d d' events]: a piece of decoding took [d] to [d'] and gave the
    events.  It leaves the bytes and the metrics alone; the stream starts once,
    with a model; the accumulator is changed only in its model, and only while
    a start is yet to be applied or none gave a model. *)

Definition is_start (e : LlmStreamEvent) : bool := match e with Start _ _ => true | _ => false end.
Definition start_has_model (e : LlmStreamEvent) : Prop :=
  match e with Start _ model => is_Some model | _ => True end.

Record tame (d d' : StreamDecoder) (events : list LlmStreamEvent) : Prop := {
  tame_protocol : sd_protocol d' = sd_protocol d;
  tame_model : sd_fallback_model d' = sd_fallback_model d;
  tame_buffer : sd_buffer d' = sd_buffer d;
  tame_raw : sd_upstream_raw d' = sd_upstream_raw d;
  tame_finished : sd_finished d' = sd_finished d;
  tame_metrics : sd_metrics d' = sd_metrics d;
  tame_start : sd_emitted_start d' = sd_emitted_start d || existsb is_start events;
  tame_start_once : sd_emitted_start d = true -> existsb is_start events = false;
  tame_models : Forall start_has_model events;
  tame_accumulator :
    sd_accumulator d' = sd_accumulator d
    \/ (exists m, sd_accumulator d' = set_ra_model m (sd_accumulator d))
       /\ (existsb is_start events = true
           \/ sd_emitted_start d = true /\ ra_model (sd_accumulator d) = None);
}.

Lemma set_ra_model_twice m m' a : set_ra_model m (set_ra_model m' a) = set_ra_model m a.
Proof. done. Qed.

Lemma tame_app d1 d2 d3 e1 e2 : tame d1 d2 e1 -> tame d2 d3 e2 -> tame d1 d3 (e1 ++ e2).
Proof.
  intros [] []. split; try congruence.
  - rewrite existsb_app, orb_assoc. congruence.
  - rewrite existsb_app. intros H1. rewrite H1 in *. simpl in *. rewrite orb_false_iff. auto.
  - by apply Forall_app.
  - rewrite existsb_app, orb_true_iff. destruct tame_accumulator0 as [H1|[[m Hm] H1]].
    + rewrite H1 in *. destruct tame_accumulator1 as [?|[? [?|[H2 ?]]]]; [by left|by right; auto|].
      right. split; [done|]. rewrite tame_start0 in H2. apply orb_prop in H2 as []; auto.
    + right. split; [|tauto]. rewrite Hm in *.
      destruct tame_accumulator1 as [->|[[m' ->] _]]; eauto using set_ra_model_twice.
Qed.

Lemma tame_emit d events : Forall (fun e => is_start e = false) events -> tame d d events.
Proof.
  intros He. assert (Hs : existsb is_start events = false).
  { induction He as [|e l He _ IH]; [done|]. simpl. by rewrite He. }
  split; try done; rewrite ?Hs; [by rewrite orb_false_r| |by left].
  eapply Forall_impl; [exact He|]. by intros [].
Qed.

Definition tame_decoding (f : decoding) : Prop := forall d, tame d (fst (f d)) (snd (f d)).

Lemma tame_pair d x d' e : x = (d', e) -> tame d (fst x) (snd x) -> tame d d' e.
Proof. by intros ->. Qed.

Lemma emit_tame events : Forall (fun e => is_start e = false) events -> tame_decoding (emit events).
Proof. intros He d. by apply tame_emit. Qed.

Lemma emit_opt_tame {A} (o : option A) f : (forall x, is_start (f x) = false) -> tame_decoding (emit_opt o f).
Proof. intros Hf. apply emit_tame. destruct o; auto. Qed.

Lemma also_tame f g : tame_decoding f -> tame_decoding g -> tame_decoding (also f g).
Proof.
  intros Hf Hg d. unfold also. specialize (Hf d). destruct (f d) as [d1 e1]. specialize (Hg d1).
  destruct (g d1) as [d2 e2]. simpl in *. by eapply tame_app.
Qed.

Lemma for_each_tame {A} (f : Z -> A -> decoding) n l :
  (forall i x, tame_decoding (f i x)) -> tame_decoding (for_each f n l).
Proof. intros Hf. revert n. induction l as [|x l IH]; intros n; simpl; [by apply emit_tame|]. by apply also_tame. Qed.

Lemma start_from_tame id model : tame_decoding (start_from id model).
Proof.
  intros d. unfold start_from. destruct (sd_emitted_start d) eqn:Hs.
  - destruct (ra_model (sd_accumulator d)) eqn:Hm; simpl; split; try done; simpl; rewrite ?Hs; eauto 6.
  - simpl. split; try done; simpl; rewrite ?Hs; auto. constructor; [|done]. simpl. by destruct model.
Qed.

Lemma usage_from_tame v : tame_decoding (usage_from v).
Proof. apply emit_tame. case_bool_decide; auto. Qed.

Lemma tame_tool_ids d t events : Forall (fun e => is_start e = false) events -> tame d (set_tool_ids t d) events.
Proof. intros He. apply (tame_emit d) in He. by destruct He. Qed.

Create HintDb tame discriminated.
Hint Resolve emit_tame emit_opt_tame also_tame for_each_tame start_from_tame usage_from_tame
  tame_emit tame_tool_ids : tame.
Hint Resolve Forall_cons_2 Forall_nil_2 eq_refl : tame.
Hint Extern 1 => progress intros : tame.

Ltac tame_cases :=
  repeat match goal with
    | |- tame_decoding (if ?b then _ else _) => destruct b
    | |- tame_decoding (match ?o with _ => _ end) => destruct o
    end.

Lemma decode_chat_tool_tame c i v : tame_decoding (decode_chat_tool c i v).
Proof.
  intros d. unfold decode_chat_tool. destruct (sd_tool_ids d !! _) eqn:Hk.
  - apply tame_emit. destruct (non_empty_str (get_str (get_or_self v "function") _)); simpl; auto.
  - apply tame_tool_ids. destruct (non_empty_str (get_str (get_or_self v "function") _)); simpl; auto.
Qed.
Hint Resolve decode_chat_tool_tame : tame.

Lemma decode_chat_tame v : tame_decoding (decode_chat v).
Proof. unfold decode_chat, decode_chat_choice. auto 12 with tame. Qed.

Lemma decode_gemini_part_tame c i v : tame_decoding (decode_gemini_part c i v).
Proof.
  apply also_tame.
  - apply emit_opt_tame. intros x. by destruct (default _ _).
  - tame_cases; apply emit_tame; auto.
Qed.
Hint Resolve decode_gemini_part_tame : tame.

Lemma decode_gemini_tame v : tame_decoding (decode_gemini v).
Proof. unfold decode_gemini, decode_gemini_candidate. auto 12 with tame. Qed.

Lemma decode_messages_block_tame v : tame_decoding (decode_messages_block v).
Proof. intros d. unfold decode_messages_block. destruct (has_type _ _); [apply tame_tool_ids|apply tame_emit]; simpl; auto. Qed.

Lemma decode_messages_delta_tame v : tame_decoding (decode_messages_delta v).
Proof.
  intros d. unfold decode_messages_delta. destruct (has_type _ _); [by apply emit_opt_tame|].
  destruct (has_type _ _); [by apply emit_opt_tame|]. destruct (has_type _ _); [by apply emit_opt_tame|].
  by apply emit_tame.
Qed.

Lemma decode_messages_tame v : tame_decoding (decode_messages v).
Proof.
  unfold decode_messages. tame_cases; auto using decode_messages_block_tame, decode_messages_delta_tame with tame.
Qed.

Lemma decode_responses_event_tame t v : tame_decoding (decode_responses_event t v).
Proof. unfold decode_responses_event. tame_cases; auto with tame. apply emit_tame. destruct (_ || _); auto. Qed.

Lemma decode_responses_tame v : tame_decoding (decode_responses v).
Proof.
  intros d. unfold decode_responses. apply also_tame; [|apply decode_responses_event_tame]. tame_cases; auto with tame.
Qed.

Lemma decode_value_tame v : tame_decoding (decode_value v).
Proof.
  intros d. unfold decode_value. destruct (sd_protocol d);
    [apply decode_chat_tame|apply decode_messages_tame|apply decode_responses_tame|apply decode_gemini_tame|].
  by apply tame_emit.
Qed.

(** ** What decoding depends on *)

(** Two decoders that decode alike. *)
Record same_core (d1 d2 : StreamDecoder) : Prop := {
  core_protocol : sd_protocol d1 = sd_protocol d2;
  core_model : sd_fallback_model d1 = sd_fallback_model d2;
  core_start : sd_emitted_start d1 = sd_emitted_start d2;
  core_tools : sd_tool_ids d1 = sd_tool_ids d2;
}.

#[local] Instance same_core_equiv : Equivalence same_core.
Proof.
  split.
  - by intros d.
  - by intros d1 d2 [].
  - intros d1 d2 d3 [] []. split; congruence.
Qed.

Definition core_result : relation (StreamDecoder * list LlmStreamEvent) := prod_relation same_core eq.
Abbreviation CoreDecoding f := (Proper (same_core ==> core_result) f).

Lemma emit_core events : CoreDecoding (emit events).
Proof. by intros d1 d2 Hd. Qed.

Lemma emit_opt_core {A} (o : option A) f : CoreDecoding (emit_opt o f).
Proof. apply emit_core. Qed.

Lemma also_core f g : CoreDecoding f -> CoreDecoding g -> CoreDecoding (also f g).
Proof.
  intros Hf Hg d1 d2 Hd. unfold also. specialize (Hf d1 d2 Hd).
  destruct (f d1) as [d1' e1], (f d2) as [d2' e2]. destruct Hf as [Hf He]. simpl in *. subst.
  specialize (Hg d1' d2' Hf). destruct (g d1') as [? ?], (g d2') as [? ?]. destruct Hg as [? He]. simpl in *.
  split; simpl; [done|congruence].
Qed.

Lemma for_each_core {A} (f : Z -> A -> decoding) n l :
  (forall i x, CoreDecoding (f i x)) -> CoreDecoding (for_each f n l).
Proof. intros Hf. revert n. induction l as [|x l IH]; intros n; simpl; [apply emit_core|by apply also_core]. Qed.

Lemma start_from_core id model : CoreDecoding (start_from id model).
Proof.
  intros d1 d2 []. unfold start_from. rewrite core_start0, core_model0. destruct (sd_emitted_start d2) eqn:Hs.
  - split; [|done]. destruct (ra_model (sd_accumulator d1)), (ra_model (sd_accumulator d2)); split; simpl; congruence.
  - split; [|done]. by split.
Qed.

Hint Resolve emit_core emit_opt_core also_core for_each_core start_from_core : tame.

Lemma usage_from_core v : CoreDecoding (usage_from v).
Proof. apply emit_core. Qed.

Lemma decode_chat_tool_core c i v : CoreDecoding (decode_chat_tool c i v).
Proof.
  intros d1 d2 []. unfold decode_chat_tool. rewrite core_tools0. destruct (sd_tool_ids d2 !! _); split; try done;
    split; simpl; congruence.
Qed.
Hint Resolve usage_from_core decode_chat_tool_core : tame.

Lemma decode_chat_core v : CoreDecoding (decode_chat v).
Proof. unfold decode_chat, decode_chat_choice. auto 12 with tame. Qed.

Lemma decode_gemini_part_core c i v : CoreDecoding (decode_gemini_part c i v).
Proof. unfold decode_gemini_part. apply also_core; [|destruct (json_get _ _)]; auto with tame. Qed.
Hint Resolve decode_gemini_part_core : tame.

Lemma decode_gemini_core v : CoreDecoding (decode_gemini v).
Proof. unfold decode_gemini, decode_gemini_candidate. auto 12 with tame. Qed.

Lemma decode_messages_core v : CoreDecoding (decode_messages v).
Proof.
  unfold decode_messages. repeat case_match; auto with tame; intros d1 d2 [].
  - unfold decode_messages_block. destruct (has_type (get_or_self _ _) _); split; try done; split; simpl; congruence.
  - unfold decode_messages_delta. rewrite core_tools0. repeat case_match; split; try done; by split.
Qed.

Lemma decode_responses_event_core t v : CoreDecoding (decode_responses_event t v).
Proof. unfold decode_responses_event. repeat case_match; auto with tame. Qed.

Lemma decode_responses_core v : CoreDecoding (decode_responses v).
Proof.
  intros d1 d2 Hd. unfold decode_responses. rewrite (core_start _ _ Hd).
  apply also_core; [|apply decode_responses_event_core|done]. destruct (sd_emitted_start d2); auto with tame.
Qed.

#[local] Instance decode_value_core v : CoreDecoding (decode_value v).
Proof.
  intros d1 d2 Hd. unfold decode_value. rewrite (core_protocol _ _ Hd). destruct (sd_protocol d2);
    [by apply decode_chat_core|by apply decode_messages_core|by apply decode_responses_core
    |by apply decode_gemini_core|done].
Qed.

(** ** All the frames of a buffer *)

Lemma decode_frame_tame frame d d' e : decode_frame frame d = Ok (d', e) -> tame d d' e.
Proof.
  unfold decode_frame. destruct (utf8_valid frame); [|done]. simpl.
  destruct (_ || _); [intros [= <- <-]; by apply tame_emit|]. destruct (json_parse _) as [v|]; [|done].
  intros [= Hd]. eapply tame_pair; [exact Hd|apply decode_value_tame].
Qed.

Lemma decode_frame_core frame d1 d2 d1' e :
  same_core d1 d2 -> decode_frame frame d1 = Ok (d1', e) ->
  exists d2', decode_frame frame d2 = Ok (d2', e) /\ same_core d1' d2'.
Proof.
  intros Hd. unfold decode_frame. destruct (utf8_valid frame); [|done]. simpl.
  destruct (_ || _); [intros [= <- <-]; eauto|]. destruct (json_parse _) as [v|]; [|done]. intros [= Hv].
  pose proof (decode_value_core v d1 d2 Hd) as [Hc He]. rewrite Hv in Hc, He. simpl in *.
  exists (fst (decode_value v d2)). split; [|done]. rewrite He. by destruct (decode_value v d2).
Qed.

Lemma decode_frames_fuel n m d :
  (String.length (sd_buffer d) < n)%nat -> (String.length (sd_buffer d) < m)%nat ->
  decode_frames n d = decode_frames m d.
Proof.
  revert m d. induction n as [|n IH]; intros m d Hn Hm; [lia|]. destruct m as [|m]; [lia|]. simpl.
  destruct (next_sse_frame (sd_buffer d)) as [[frame rest]|] eqn:Hf; [|done].
  apply next_sse_frame_shrinks in Hf.
  destruct (decode_frame frame (set_buffer rest d)) as [[d' e]|] eqn:Hd; [|done].
  apply decode_frame_tame in Hd as []. simpl in *. rewrite (IH m d'); [done|rewrite tame_buffer0; lia..].
Qed.

Lemma tame_set_buffer b d d' e : tame d d' e -> tame (set_buffer b d) (set_buffer b d') e.
Proof. intros []. by split. Qed.

Lemma decode_frames_tame n d d' e : decode_frames n d = Ok (d', e) -> tame d (set_buffer (sd_buffer d) d') e.
Proof.
  assert (Hset : forall x, set_buffer (sd_buffer x) x = x) by by intros [].
  revert d d' e. induction n as [|n IH]; intros d d' e; simpl; [intros [= <- <-]; rewrite Hset; by apply tame_emit|].
  destruct (next_sse_frame (sd_buffer d)) as [[frame rest]|];
    [|intros [= <- <-]; rewrite Hset; by apply tame_emit].
  destruct (decode_frame frame _) as [[d1 e1]|] eqn:H1; [|done].
  destruct (decode_frames n d1) as [[d2 e2]|] eqn:H2; [|done]. intros [= <- <-].
  apply decode_frame_tame, (tame_set_buffer (sd_buffer d)) in H1.
  apply IH, (tame_set_buffer (sd_buffer d)) in H2. change (set_buffer _ (set_buffer rest d)) with
    (set_buffer (sd_buffer d) d) in H1. rewrite Hset in H1. by eapply tame_app.
Qed.

Lemma decode_frames_drained n d d' e :
  (String.length (sd_buffer d) < n)%nat -> decode_frames n d = Ok (d', e) -> next_sse_frame (sd_buffer d') = None.
Proof.
  revert d d' e. induction n as [|n IH]; intros d d' e Hn; simpl; [lia|].
  destruct (next_sse_frame (sd_buffer d)) as [[frame rest]|] eqn:Hf; [|by intros [= <- <-]].
  destruct (decode_frame frame _) as [[d1 e1]|] eqn:H1; [|done].
  destruct (decode_frames n d1) as [[d2 e2]|] eqn:H2; [|done]. intros [= <- <-]. eapply IH; [|exact H2].
  apply next_sse_frame_shrinks in Hf. apply decode_frame_tame in H1 as []. rewrite tame_buffer0. simpl. lia.
Qed.

Lemma set_buffer_core b d1 d2 : same_core d1 d2 -> same_core (set_buffer b d1) d2.
Proof. intros []. by split. Qed.

(** Decoders that decode alike and hold the same bytes. *)
Lemma decode_frames_core n d c d' e :
  same_core d c -> sd_buffer c = sd_buffer d -> decode_frames n d = Ok (d', e) ->
  exists c', decode_frames n c = Ok (c', e) /\ same_core d' c' /\ sd_buffer c' = sd_buffer d'.
Proof.
  revert d c d' e. induction n as [|n IH]; intros d c d' e Hc Hb; simpl; [intros [= <- <-]; eauto|]. rewrite Hb.
  destruct (next_sse_frame (sd_buffer d)) as [[frame rest]|]; [|intros [= <- <-]; eauto].
  destruct (decode_frame frame _) as [[d1 e1]|] eqn:H1; [|done].
  destruct (decode_frames n d1) as [[d2 e2]|] eqn:H2; [|done]. intros [= <- <-].
  assert (Hs : same_core (set_buffer rest d) (set_buffer rest c)).
  { by apply set_buffer_core; symmetry; apply set_buffer_core; symmetry. }
  destruct (decode_frame_core _ _ _ _ _ Hs H1) as (c1 & H1' & Hc1). rewrite H1'.
  destruct (IH d1 c1 d2 e2 Hc1) as (c2 & H2' & Hc2 & Hb2); [|done|rewrite H2'; eauto].
  apply decode_frame_tame in H1 as []. apply decode_frame_tame in H1' as []. simpl in *. congruence.
Qed.

(** The frames of [buffer d ++ t] are those of the buffer, then those of what is left of it with [t]. *)
Lemma decode_frames_app n m d c d' e t :
  (String.length (sd_buffer d) < n)%nat -> (String.length (sd_buffer c) < m)%nat ->
  same_core d c -> sd_buffer c = sd_buffer d +:+ t -> decode_frames n d = Ok (d', e) ->
  exists c' k,
    same_core d' c' /\ sd_buffer c' = sd_buffer d' +:+ t /\ (String.length (sd_buffer c') < k)%nat
    /\ decode_frames m c = match decode_frames k c' with Ok (x, e2) => Ok (x, e ++ e2) | Err x => Err x end.
Proof.
  revert m d c d' e. induction n as [|n IH]; intros m d c d' e Hn Hm Hc Hb; [lia|]. simpl.
  destruct (next_sse_frame (sd_buffer d)) as [[frame rest]|] eqn:Hf.
  2:{ intros [= <- <-]. exists c, m. repeat split; try apply Hc; try done.
      by destruct (decode_frames m c) as [[? ?]|]. }
  destruct (decode_frame frame _) as [[d1 e1]|] eqn:H1; [|done].
  destruct (decode_frames n d1) as [[d2 e2]|] eqn:H2; [|done]. intros [= <- <-].
  assert (Hs : same_core (set_buffer rest d) (set_buffer (rest +:+ t) c)).
  { by apply set_buffer_core; symmetry; apply set_buffer_core; symmetry. }
  destruct (decode_frame_core _ _ _ _ _ Hs H1) as (c1 & H1' & Hc1).
  destruct m as [|m]; [lia|].
  pose proof (next_sse_frame_app _ t _ _ Hf) as Hf'. rewrite <- Hb in Hf'.
  pose proof (next_sse_frame_shrinks _ _ _ Hf). pose proof (next_sse_frame_shrinks _ _ _ Hf').
  pose proof (tame_buffer _ _ _ (decode_frame_tame _ _ _ _ H1)) as Hb1.
  pose proof (tame_buffer _ _ _ (decode_frame_tame _ _ _ _ H1')) as Hb2. simpl in Hb1, Hb2.
  edestruct (IH m d1 c1 d2 e2) as (c' & k & Hc' & Hb' & Hk & Hr);
    [rewrite Hb1; lia|rewrite Hb2; lia|done|congruence|done|].
  exists c', k. do 3 (split; [done|]). simpl. rewrite Hf', H1', Hr.
  destruct (decode_frames k c') as [[? ?]|]; [by rewrite app_assoc|done].
Qed.

(** ** Applying the events *)

Definition settled (d : StreamDecoder) : Prop := sd_emitted_start d = true -> is_Some (ra_model (sd_accumulator d)).

Lemma acc_apply_model m e a :
  acc_apply (set_ra_model m a) e = if is_start e then acc_apply a e else set_ra_model m (acc_apply a e).
Proof. by destruct e. Qed.

Lemma fold_apply_model m events a :
  existsb is_start events = true -> foldl acc_apply (set_ra_model m a) events = foldl acc_apply a events.
Proof.
  revert a. induction events as [|e l IH]; intros a; simpl; [done|]. rewrite acc_apply_model.
  destruct (is_start e); [done|]. simpl. apply IH.
Qed.

(** The model set aside by [start_from] does not show after the events. *)
Lemma tame_fold d d' events :
  settled d -> tame d d' events ->
  foldl acc_apply (sd_accumulator d') events = foldl acc_apply (sd_accumulator d) events.
Proof.
  intros Hs []. destruct tame_accumulator0 as [->|[[m ->] [Hst|[Ht Hn]]]]; [done|by apply fold_apply_model|].
  apply Hs in Ht. rewrite Hn in Ht. by destruct Ht.
Qed.

Lemma acc_apply_keeps_model e a :
  start_has_model e -> (is_start e = true \/ is_Some (ra_model a)) -> is_Some (ra_model (acc_apply a e)).
Proof. by destruct e; simpl; intros ? [?|?]. Qed.

Lemma fold_apply_keeps_model events a :
  Forall start_has_model events -> existsb is_start events = true \/ is_Some (ra_model a) ->
  is_Some (ra_model (foldl acc_apply a events)).
Proof.
  intros Hm. revert a. induction Hm as [|e l He _ IH]; intros a; simpl; [by intros []|]. rewrite orb_true_iff.
  intros [[Hi|Hi]|Hi]; apply IH; auto using acc_apply_keeps_model.
Qed.

(** ** Chunks *)

(** The chunks of a stream, each with the time it came at. *)
Fixpoint push_chunks (chunks : list (Z * string)) (d : StreamDecoder)
  : result (StreamError * StreamDecoder) (StreamDecoder * list LlmStreamEvent) :=
  match chunks with
  | [] => Ok (d, [])
  | (t, chunk) :: rest =>
      match decoder_push_chunk t chunk d with
      | Err e => Err e
      | Ok (d, e1) => match push_chunks rest d with Err e => Err e | Ok (d, e2) => Ok (d, e1 ++ e2) end
      end
  end.

(** The decoder but for the time of its first token. *)
Definition without_ttft (d : StreamDecoder) : StreamDecoder :=
  set_metrics (mkMetrics (sm_usage (sd_metrics d)) None) d.

(** A decoder between two chunks. *)
Record waiting (d : StreamDecoder) : Prop := {
  waiting_settled : settled d;
  waiting_drained : next_sse_frame (sd_buffer d) = None;
  waiting_bound : (Z.of_nat (String.length (sd_buffer d)) <= MAX_SSE_FRAME_BYTES)%Z;
}.

Lemma push_chunk_ok t chunk d d' e :
  decoder_push_chunk t chunk d = Ok (d', e) <->
  exists x, decode_frames (S (String.length (sd_buffer d +:+ chunk)))
              (set_buffer (sd_buffer d +:+ chunk) (set_raw (sd_upstream_raw d +:+ chunk) d)) = Ok (x, e)
            /\ (Z.of_nat (String.length (sd_buffer x)) <= MAX_SSE_FRAME_BYTES)%Z /\ d' = observe t e x.
Proof.
  unfold decoder_push_chunk. simpl sd_buffer.
  destruct (decode_frames _ _) as [[x ev]|] eqn:Hd; [|split; [done|by intros (? & ? & _)]].
  destruct (Z.leb_spec (Z.of_nat (String.length (sd_buffer x))) MAX_SSE_FRAME_BYTES); split.
  - intros [= <- <-]. eauto.
  - by intros (? & [= <- <-] & _ & ->).
  - done.
  - intros (? & [= <- <-] & ? & _). lia.
Qed.

Lemma push_chunk_waiting t chunk d d' e :
  settled d -> decoder_push_chunk t chunk d = Ok (d', e) -> waiting d'.
Proof.
  intros Hs (x & Hx & Hb & ->)%push_chunk_ok. split;
    [|change (next_sse_frame (sd_buffer x) = None); eapply decode_frames_drained; [|exact Hx]; simpl; lia|done].
  apply decode_frames_tame in Hx. intros Ht. simpl in Ht. simpl.
  apply fold_apply_keeps_model; [by eapply tame_models|]. destruct Hx. simpl in *.
  rewrite tame_start0 in Ht. destruct (existsb is_start e); [by left|right]. rewrite orb_false_r in Ht.
  specialize (Hs Ht). destruct tame_accumulator0 as [->|[_ [?|[_ Hn]]]]; try done. rewrite Hn in Hs. by destruct Hs.
Qed.

Lemma waiting_new protocol model : waiting (decoder_new protocol model).
Proof. by split. Qed.

(** Two chunks as one. *)
Lemma push_two t1 t2 t3 c1 c2 d d1 d2 e1 e2 :
  settled d ->
  decoder_push_chunk t1 c1 d = Ok (d1, e1) -> decoder_push_chunk t2 c2 d1 = Ok (d2, e2) ->
  exists d3, decoder_push_chunk t3 (c1 +:+ c2) d = Ok (d3, e1 ++ e2) /\ without_ttft d3 = without_ttft d2.
Proof.
  intros Hs H1 H2. pose proof (waiting_settled _ (push_chunk_waiting _ _ _ _ _ Hs H1)) as Hs1.
  apply push_chunk_ok in H1 as (x & Hx & _ & ->). apply push_chunk_ok in H2 as (y & Hy & Hb & ->).
  set (c := set_buffer (sd_buffer d +:+ c1 +:+ c2) (set_raw (sd_upstream_raw d +:+ c1 +:+ c2) d)).
  set (c0 := set_buffer (sd_buffer d +:+ c1) (set_raw (sd_upstream_raw d +:+ c1) d)) in Hx.
  destruct (decode_frames_app _ (S (String.length (sd_buffer c))) c0 c _ _ c2 (Nat.lt_succ_diag_r _)
              (Nat.lt_succ_diag_r _) ltac:(by split) (eq_sym (str_app_assoc _ _ _)) Hx)
    as (c' & k & Hc' & Hb' & Hk & Hr).
  set (y0 := set_buffer _ (set_raw _ (observe t1 e1 x))) in Hy.
  assert (Hy0 : same_core y0 c') by (etransitivity; [|exact Hc']; by split).
  destruct (decode_frames_core _ y0 c' _ _ Hy0 Hb' Hy) as (z & Hz & Hcz & Hbz).
  rewrite (decode_frames_fuel k (S (String.length (sd_buffer (observe t1 e1 x) +:+ c2))) c') in Hr;
    [|done|rewrite Hb'; apply Nat.lt_succ_diag_r].
  rewrite Hz in Hr.
  pose proof (decode_frames_tame _ _ _ _ Hx) as Tx. pose proof (decode_frames_tame _ _ _ _ Hy) as Ty.
  pose proof (decode_frames_tame _ _ _ _ Hr) as Tz.
  apply tame_fold in Tx as Fx; [|done]. apply tame_fold in Ty as Fy; [|done].
  apply tame_fold in Tz as Fz; [|done]. simpl in Fx, Fy, Fz.
  exists (observe t3 (e1 ++ e2) z). split.
  { apply push_chunk_ok. exists z. split; [exact Hr|]. by rewrite Hbz. }
  destruct Tx, Ty, Tz, Hcz. destruct y, z. unfold without_ttft, observe, set_accumulator, set_metrics in *. simpl in *.
  subst. rewrite Fz, Fy, foldl_app, Fx, foldl_app. f_equal; try congruence.
  - by rewrite tame_raw0, str_app_assoc.
  - by rewrite tame_metrics0.
Qed.

Lemma push_nothing t d : waiting d -> exists d', decoder_push_chunk t "" d = Ok (d', []) /\ without_ttft d' = without_ttft d.
Proof.
  intros [_ Hf Hb]. unfold decoder_push_chunk. simpl. rewrite !str_app_nil_r, Hf. simpl.
  rewrite (proj2 (Z.leb_le _ _) Hb). eexists. split; [done|]. by destruct d as [? ? ? ? ? ? [? []] ? ?].
Qed.

Lemma push_chunks_as_one t chunks d d' e :
  waiting d -> push_chunks chunks d = Ok (d', e) ->
  exists d2, decoder_push_chunk t (concat_str (snd <$> chunks)) d = Ok (d2, e) /\ without_ttft d2 = without_ttft d'.
Proof.
  revert d d' e. induction chunks as [|[t1 c] l IH]; intros d d' e Hw; simpl.
  { intros [= <- <-]. by apply push_nothing. }
  destruct (decoder_push_chunk t1 c d) as [[d1 e1]|] eqn:H1; [|done].
  destruct (push_chunks l d1) as [[d2 e2]|] eqn:H2; [|done]. intros [= <- <-].
  apply push_chunk_waiting in H1 as Hw1; [|apply Hw]. destruct (IH _ _ _ Hw1 H2) as (d3 & H3 & Hd3).
  destruct (push_two t1 t t c (concat_str (snd <$> l)) d d1 d3 e1 e2) as (d4 & H4 & Hd4); [apply Hw|done..|].
  exists d4. split; [done|congruence].
Qed.

(** ** The translator *)

(** A stream through the translator: the bytes sent, or the first error. *)
Fixpoint translate_chunks (chunks : list (Z * string)) (t : TypedStreamTranslator)
  : result StreamError (TypedStreamTranslator * string) :=
  match chunks with
  | [] => Ok (t, "")
  | (now, chunk) :: rest =>
      match translator_push_chunk now chunk t with
      | (_, Err e) => Err e
      | (t, Ok sent) =>
          match translate_chunks rest t with Err e => Err e | Ok (t, more) => Ok (t, sent +:+ more) end
      end
  end.

Lemma decode_frames_raw n d :
  match decode_frames n d with Ok (d', _) => sd_upstream_raw d' | Err (_, d') => sd_upstream_raw d' end
  = sd_upstream_raw d.
Proof.
  revert d. induction n as [|n IH]; intros d; simpl; [done|].
  destruct (next_sse_frame (sd_buffer d)) as [[frame rest]|]; [|done].
  destruct (decode_frame frame _) as [[d1 e1]|] eqn:H1; [|done]. apply decode_frame_tame in H1 as [].
  specialize (IH d1). by destruct (decode_frames n d1) as [[? ?]|[? ?]]; rewrite IH, tame_raw0.
Qed.

Lemma push_chunk_raw now chunk d :
  match decoder_push_chunk now chunk d with Ok (d', _) => sd_upstream_raw d' | Err (_, d') => sd_upstream_raw d' end
  = sd_upstream_raw d +:+ chunk.
Proof.
  unfold decoder_push_chunk. match goal with |- context [decode_frames ?n ?x] => pose proof (decode_frames_raw n x) as Hr end.
  destruct (decode_frames _ _) as [[x e]|[? ?]]; simpl in *; [|done]. by destruct (_ <=? _)%Z.
Qed.

Lemma passthrough_chunks chunks t :
  tt_passthrough t = true ->
  exists t', translate_chunks chunks t = Ok (t', concat_str (snd <$> chunks)) /\ tt_passthrough t' = true
    /\ sd_upstream_raw (tt_decoder t') = sd_upstream_raw (tt_decoder t) +:+ concat_str (snd <$> chunks).
Proof.
  revert t. induction chunks as [|[now c] l IH]; intros t Ht; simpl.
  { exists t. by rewrite str_app_nil_r. }
  unfold translator_push_chunk. rewrite Ht. pose proof (push_chunk_raw now c (tt_decoder t)) as Hr.
  destruct (decoder_push_chunk now c (tt_decoder t)) as [[d e]|[? d]];
    (destruct (IH (mkTranslator true d (tt_renderer t)) eq_refl) as (t' & H1 & H2 & H3);
     rewrite H1; exists t'; simpl in *; by rewrite H3, Hr, str_app_assoc).
Qed.

(** ** The theorems *)

(** C27: How the network cuts a provider's stream does not matter.  When the
    chunks of a stream are decoded one after the other without an error, the
    same bytes in one chunk decode to the same events, and leave the same
    decoder (captured response, usage, tool identifiers, bytes kept and bytes
    not yet framed) but for the time of the first token. *)
Theorem chunking_does_not_matter protocol model chunks now d events :
  push_chunks chunks (decoder_new protocol model) = Ok (d, events) ->
  exists d', decoder_push_chunk now (concat_str (snd <$> chunks)) (decoder_new protocol model) = Ok (d', events)
    /\ without_ttft d' = without_ttft d.
Proof. apply push_chunks_as_one, waiting_new. Qed.

(** A passthrough route is transparent: whatever bytes the provider sends,
    valid or not, every chunk is returned to the client as it came, nothing is
    added at the end, and the bytes kept for the capture are exactly those. *)
Theorem passthrough_is_transparent client model timestamp t chunks :
  translator_new Passthrough client model timestamp = Some t ->
  exists t', translate_chunks chunks t = Ok (t', concat_str (snd <$> chunks))
    /\ snd (translator_finish_stream t') = ""
    /\ sd_upstream_raw (tt_decoder (fst (translator_finish_stream t'))) = concat_str (snd <$> chunks).
Proof.
  unfold translator_new. simpl. destruct (llm_protocol client); [|done]. intros [= <-].
  edestruct (passthrough_chunks chunks) as (t' & H1 & H2 & H3); [|exists t'; split; [exact H1|]]; [done|].
  unfold translator_finish_stream. destruct (decoder_finish (tt_decoder t')) as [d e] eqn:Hd. rewrite H2.
  split; [done|]. simpl. unfold decoder_finish in Hd.
  by destruct (sd_finished (tt_decoder t')); injection Hd as <- <-.
Qed.

End Chunks.

(** ** Examples *)

Module StreamExample.

#[local] Existing Instance value_json.

Definition chat_frame (delta : list (string * Value)) (rest : list (string * Value)) : SseEvent :=
  (None, JObject ([("id", JString "x"); ("model", JString "m");
                   ("choices", JArray [JObject (("index", int 0) :: ("delta", JObject delta) :: rest)])])).
Definition usage_frame : SseEvent :=
  (None, JObject [("choices", JArray []);
                  ("usage", JObject [("prompt_tokens", int 1); ("completion_tokens", int 1)])]).

(** Text in two frames, the end, the usage. *)
Definition stream : string :=
  sse_bytes [chat_frame [("content", JString "he")] []; chat_frame [("content", JString "y")] [];
             chat_frame [] [("finish_reason", JString "stop")]; usage_frame] +:+ DONE_FRAME.

Definition cut (n : nat) (s : string) : list (Z * string) :=
  [(5%Z, String.substring 0 n s); (9%Z, str_drop n s)].

(** The cut falls inside the second frame. *)
Definition two_chunks : list (Z * string) := cut 1500 stream.
Definition decoded : result (StreamError * StreamDecoder) (StreamDecoder * list LlmStreamEvent) :=
  push_chunks two_chunks (decoder_new PChatCompletions "client").
Definition decoded_decoder : StreamDecoder :=
  match decoded with Ok (d, _) => d | Err (_, d) => d end.
Definition decoded_events : list LlmStreamEvent := match decoded with Ok (_, e) => e | Err _ => [] end.

Example events_of_the_stream :
  decoded_events =
  [Start (Some "x") (Some "m"); TextDelta 0 "he"; TextDelta 0 "y"; FinishEvent 0 (Some "stop");
   UsageEvent (mkLlmUsage 1 1 2 0 0 0)].
Proof. vm_compute. reflexivity. Qed.

Lemma decoded_ok :
  push_chunks two_chunks (decoder_new PChatCompletions "client") = Ok (decoded_decoder, decoded_events).
Proof. vm_compute. reflexivity. Qed.

Lemma two_chunks_stream : concat_str (snd <$> two_chunks) = stream.
Proof. vm_compute. reflexivity. Qed.

Lemma chunking_does_not_matter_witness :
  exists d', decoder_push_chunk 7 stream (decoder_new PChatCompletions "client") = Ok (d', decoded_events)
    /\ without_ttft d' = without_ttft decoded_decoder /\ sm_ttft_ms (sd_metrics decoded_decoder) = Some 5%Z.
Proof.
  destruct (chunking_does_not_matter PChatCompletions "client" two_chunks 7 _ _ decoded_ok) as (d' & H1 & H2).
  rewrite two_chunks_stream in H1. exists d'. split; [exact H1|]. split; [exact H2|]. vm_compute. reflexivity.
Defined.

(** Bytes that are neither UTF-8 nor JSON. *)
Definition garbage : string :=
  "data: " +:+ String "255" (String "254" "") +:+ newline +:+ newline +:+ "data: not-json" +:+ newline +:+ newline.
Definition passthrough_translator : option TypedStreamTranslator :=
  translator_new Passthrough ChatCompletions "client" 1700000000000.

Lemma passthrough_is_transparent_witness :
  exists t t', passthrough_translator = Some t
    /\ translate_chunks [(0%Z, garbage); (1%Z, stream)] t = Ok (t', garbage +:+ stream)
    /\ sd_upstream_raw (tt_decoder (fst (translator_finish_stream t'))) = garbage +:+ stream.
Proof.
  eexists. destruct (passthrough_is_transparent ChatCompletions "client" 1700000000000 _
    [(0%Z, garbage); (1%Z, stream)] eq_refl) as (t' & H1 & _ & H3).
  exists t'. split; [reflexivity|].
  assert (Hc : concat_str (snd <$> [(0%Z, garbage); (1%Z, stream)]) = garbage +:+ stream)
    by (vm_compute; reflexivity).
  rewrite Hc in H1, H3. split; [exact H1|exact H3].
Defined.

(** The decoder does see an error there. *)
Example garbage_is_an_error :
  match decoder_push_chunk 0 garbage (decoder_new PChatCompletions "client") with
  | Err (NotUtf8, _) => true | _ => false
  end = true.
Proof. vm_compute. reflexivity. Qed.

End StreamExample.
