(* ===== verification/StreamText.v ===== *)
(** * Gateway: what a translated stream says

    The renderers of [TypedStream] against the protocols they write.  A
    Messages stream keeps the grammar of its protocol ([messages_step]: one
    message, blocks opened in order, deltas for open blocks of their kind, every
    block closed once, then the end).  And in every protocol the text of the
    client's stream, read from its bytes by a decoder of that protocol, is the
    text the provider sent. *)

From Stdlib Require Import ZArith Lia Ascii.
From stdpp Require Import base list strings gmap numbers option pretty sorting.
From S2P Require Import Prelude Json JsonLines TurnMachine Capture SessionRoute Llm TypedStream StreamChunks.

(** ** The grammar of a Messages stream *)

(** Before the message; in it, with the kinds of the blocks opened and how many
    of them are closed; after its last delta; after its end. *)
Inductive message_phase :=
| BeforeMessage
| InMessage (blocks : list string) (closed : nat)
| AfterDelta
| MessageOver.

Definition index_of (v : Value) : option Z :=
  match json_get v "index" with Some (JNumber (JInt z)) => Some z | _ => None end.
Definition type_of (v : Value) : option string := get_str v "type".

Definition delta_fits (block delta : string) : bool :=
  bool_decide ((block, delta) ∈
    [("text", "text_delta"); ("thinking", "thinking_delta"); ("tool_use", "input_json_delta")]).

Definition messages_step (phase : message_phase) (e : SseEvent) : option message_phase :=
  let '(name, v) := e in
  if bool_decide (name = type_of v) then
    match phase with
    | BeforeMessage => if bool_decide (name = Some "message_start") then Some (InMessage [] 0) else None
    | InMessage blocks closed =>
        if bool_decide (name = Some "content_block_start") then
          index ← index_of v;
          block ← json_get v "content_block";
          kind ← type_of block;
          if bool_decide (index = Z.of_nat (length blocks)) && (closed =? 0)%nat
          then Some (InMessage (blocks ++ [kind]) closed) else None
        else if bool_decide (name = Some "content_block_delta") then
          index ← index_of v;
          delta ← json_get v "delta";
          kind ← type_of delta;
          block ← blocks !! Z.to_nat index;
          if (0 <=? index)%Z && (closed =? 0)%nat && delta_fits block kind
          then Some (InMessage blocks closed) else None
        else if bool_decide (name = Some "content_block_stop") then
          index ← index_of v;
          if bool_decide (index = Z.of_nat closed) && (closed <? length blocks)%nat
          then Some (InMessage blocks (S closed)) else None
        else if bool_decide (name = Some "message_delta") && (closed =? length blocks)%nat then Some AfterDelta
        else None
    | AfterDelta => if bool_decide (name = Some "message_stop") then Some MessageOver else None
    | MessageOver => None
    end
  else None.

Fixpoint messages_run (phase : message_phase) (l : list SseEvent) : option message_phase :=
  match l with [] => Some phase | e :: rest => p ← messages_step phase e; messages_run p rest end.

Lemma messages_run_app phase l1 l2 :
  messages_run phase (l1 ++ l2) = (messages_run phase l1 ≫= fun p => messages_run p l2).
Proof. revert phase. induction l1 as [|e l IH]; intros phase; [done|]. simpl. destruct (messages_step _ _); simpl; auto. Qed.

(** The blocks of the renderer are those opened, each of its kind. *)
Record blocks_agree (r : StreamRenderer) (blocks : list string) : Prop := {
  agree_next : sr_next_block r = Z.of_nat (length blocks);
  agree_text : forall i, sr_text_block r = Some i -> (0 <= i)%Z /\ blocks !! Z.to_nat i = Some "text";
  agree_thinking : forall i, sr_reasoning_block r = Some i -> (0 <= i)%Z /\ blocks !! Z.to_nat i = Some "thinking";
  agree_tools : forall id i, sr_blocks r !! id = Some i -> (0 <= i)%Z /\ blocks !! Z.to_nat i = Some "tool_use";
}.

Definition block_type (kind : block_kind) : string :=
  match kind with TextBlock => "text" | ThinkingBlock => "thinking" | ToolBlock _ _ => "tool_use" end.

Lemma block_kept (blocks : list string) k i s :
  (0 <= i)%Z /\ blocks !! Z.to_nat i = Some s -> (0 <= i)%Z /\ (blocks ++ [k]) !! Z.to_nat i = Some s.
Proof. intros [? ?]. split; [done|]. by apply lookup_app_l_Some. Qed.

Lemma block_added (blocks : list string) k i :
  i = Z.of_nat (length blocks) -> (0 <= i)%Z /\ (blocks ++ [k]) !! Z.to_nat i = Some k.
Proof. intros ->. split; [lia|]. rewrite Nat2Z.id. apply list_lookup_middle. lia. Qed.

Lemma step_block_start blocks i block kind :
  i = Z.of_nat (length blocks) -> type_of block = Some kind ->
  messages_step (InMessage blocks 0) (message_event "content_block_start" [("index", int i); ("content_block", block)])
  = Some (InMessage (blocks ++ [kind]) 0).
Proof. intros -> Hk. simpl. rewrite Hk. simpl. by rewrite bool_decide_eq_true_2. Qed.

Lemma step_block_delta blocks i delta block kind :
  (0 <= i)%Z -> blocks !! Z.to_nat i = Some block -> type_of (JObject delta) = Some kind ->
  delta_fits block kind = true ->
  messages_step (InMessage blocks 0) (block_delta i delta) = Some (InMessage blocks 0).
Proof.
  intros Hi Hb Hk Hf. unfold messages_step, block_delta, message_event. cbn -[type_of delta_fits Z.leb].
  unfold type_of at 1. simpl. rewrite Hk. simpl. rewrite Hb. simpl. rewrite Hf.
  by rewrite (proj2 (Z.leb_le 0 i) Hi).
Qed.

(** A block is there, or is opened as the next. *)
Lemma ensure_message_block_ok kind r blocks r' index o :
  blocks_agree r blocks -> ensure_message_block kind r = (r', index, o) ->
  exists blocks', messages_run (InMessage blocks 0) o = Some (InMessage blocks' 0) /\ blocks_agree r' blocks'
    /\ (0 <= index)%Z /\ blocks' !! Z.to_nat index = Some (block_type kind)
    /\ sr_started r' = sr_started r /\ sr_protocol r' = sr_protocol r /\ sr_finished r' = sr_finished r.
Proof.
  intros Hr. pose proof Hr as [Hn Ht Hk Hb]. unfold ensure_message_block.
  destruct (existing_block kind r) as [i|] eqn:He.
  { intros [= <- <- <-]. exists blocks. do 2 (split; [done|]).
    assert ((0 <= i)%Z /\ blocks !! Z.to_nat i = Some (block_type kind)) as []; [|done].
    destruct kind; simpl in *; eauto. }
  pose proof (block_added blocks (block_type kind) _ Hn) as [Hi Hadd].
  intros Hres. exists (blocks ++ [block_type kind]).
  assert (Hnext : (sr_next_block r + 1)%Z = Z.of_nat (length (blocks ++ [block_type kind]))).
  { rewrite length_app, Hn. simpl. lia. }
  destruct kind as [| |id name]; injection Hres as <- <- <-;
    (split; [cbn [messages_run]; by erewrite step_block_start|split; [|done]]); split; cbn; try done;
    try (intros i [= <-]; by apply block_added); eauto using block_kept.
  intros id' i [[<- <-]|[_ ?]]%lookup_insert_Some; [by apply block_added|eauto using block_kept].
Qed.

(** What the renderer keeps while it writes a Messages stream. *)
Definition messages_phase (r : StreamRenderer) (phase : message_phase) : Prop :=
  sr_protocol r = PMessages /\ sr_finished r = false /\
  if sr_started r then exists blocks, phase = InMessage blocks 0 /\ blocks_agree r blocks
  else phase = BeforeMessage /\ blocks_agree r [].

Lemma render_messages_event_ok event r blocks r' o :
  blocks_agree r blocks -> render_messages_event event r = (r', o) ->
  exists blocks', messages_run (InMessage blocks 0) o = Some (InMessage blocks' 0) /\ blocks_agree r' blocks'
    /\ sr_started r' = sr_started r /\ sr_protocol r' = sr_protocol r /\ sr_finished r' = sr_finished r.
Proof.
  intros Hr. (* a delta after its block *)
  assert (Hdelta : forall kind r1 r2 i o1 delta t,
    blocks_agree r1 blocks -> ensure_message_block kind r1 = (r2, i, o1) -> type_of (JObject delta) = Some t ->
    delta_fits (block_type kind) t = true ->
    exists blocks', messages_run (InMessage blocks 0) (o1 ++ [block_delta i delta]) = Some (InMessage blocks' 0)
      /\ blocks_agree r2 blocks' /\ sr_started r2 = sr_started r1 /\ sr_protocol r2 = sr_protocol r1
      /\ sr_finished r2 = sr_finished r1).
  { intros kind r1 r2 i o1 delta t H1 H2 H3 H4.
    destruct (ensure_message_block_ok _ _ _ _ _ _ H1 H2) as (b' & Hrun & Hb & Hi & Hk & Hsame).
    exists b'. split; [|by split]. rewrite messages_run_app, Hrun. cbn [mbind option_bind messages_run].
    by erewrite step_block_delta. }
  destruct event as [id model|c text|c text|c id name signature|c id delta|usage|c reason|message code];
    unfold render_messages_event.
  - intros [= <- <-]. by exists blocks.
  - set (r1 := put_accumulated_text _ r). destruct (ensure_message_block TextBlock r1) as [[r2 i] o1] eqn:He.
    intros [= <- <-]. apply (Hdelta TextBlock r1 _ _ _ _ "text_delta"); try done. by destruct Hr.
  - destruct (ensure_message_block ThinkingBlock r) as [[r2 i] o1] eqn:He.
    intros [= <- <-]. by apply (Hdelta ThinkingBlock r _ _ _ _ "thinking_delta").
  - set (r1 := put_tool_names _ r). destruct (ensure_message_block _ r1) as [[r2 i] o1] eqn:He. intros [= <- <-].
    destruct (ensure_message_block_ok _ r1 blocks _ _ _ ltac:(by destruct Hr) He) as (b' & ? & ? & _ & _ & ?). eauto.
  - destruct (ensure_message_block _ r) as [[r2 i] o1] eqn:He. intros [= <- <-].
    destruct (Hdelta (ToolBlock id "") r _ _ _ [("type", JString "input_json_delta"); ("partial_json", JString delta)]
                "input_json_delta" Hr He eq_refl eq_refl) as (b' & ? & [] & ?). exists b'. split; [done|]. by split.
  - intros [= <- <-]. exists blocks. split; [done|]. split; [by destruct Hr|done].
  - intros [= <- <-]. exists blocks. split; [done|]. split; [by destruct Hr|done].
  - intros [= <- <-]. by exists blocks.
Qed.

Lemma ensure_messages_start_ok event r phase r' o :
  messages_phase r phase -> ensure_messages_start event r = (r', o) ->
  exists blocks, messages_run phase o = Some (InMessage blocks 0) /\ blocks_agree r' blocks
    /\ sr_started r' = true /\ sr_protocol r' = PMessages /\ sr_finished r' = false.
Proof.
  intros (Hp & Hf & Hs). unfold ensure_messages_start.
  set (r1 := match event with Start (Some id) _ => put_id id r | _ => r end).
  assert (Hr1 : sr_started r1 = sr_started r /\ sr_protocol r1 = PMessages /\ sr_finished r1 = false
    /\ forall b, blocks_agree r b -> blocks_agree r1 b).
  { subst r1. destruct event as [[id|] ?| | | | | | |]; simpl; do 3 (split; [done|]);
      intros b Hb; by destruct Hb. }
  destruct Hr1 as (Hst & Hp1 & Hf1 & Hb1). rewrite Hst. destruct (sr_started r) eqn:Hst0.
  - destruct Hs as (blocks & -> & Hb). intros [= <- <-]. exists blocks. auto 6.
  - destruct Hs as [-> Hb]. intros [= <- <-]. exists []. split; [done|].
    split; [by destruct (Hb1 _ Hb)|done].
Qed.

Lemma push_messages_ok events r phase r' o :
  messages_phase r phase -> push_events events r = (r', o) ->
  exists phase', messages_run phase o = Some phase' /\ messages_phase r' phase'
    /\ (events <> [] -> sr_started r' = true) /\ (sr_started r = true -> sr_started r' = true).
Proof.
  revert r phase o. induction events as [|e l IH]; intros r phase o Hr; simpl.
  { intros [= <- <-]. exists phase. by split. }
  unfold andthen. destruct (render_event e r) as [r1 o1] eqn:H1. destruct (push_events l r1) as [r2 o2] eqn:H2.
  intros [= -> <-]. unfold render_event in H1. rewrite (proj1 Hr) in H1. unfold render_messages, andthen in H1.
  destruct (ensure_messages_start e r) as [r3 o3] eqn:H3.
  destruct (ensure_messages_start_ok _ _ _ _ _ Hr H3) as (b & Hrun & Hb & Hs & Hp & Hf).
  destruct (render_messages_event e r3) as [r4 o4] eqn:H4. injection H1 as <- <-.
  destruct (render_messages_event_ok _ _ _ _ _ Hb H4) as (b' & Hrun' & Hb' & Hs' & Hp' & Hf').
  destruct (IH r4 (InMessage b' 0) o2) as (ph & Hrun2 & Hph & _ & Hst); [|done|].
  { split; [congruence|]. split; [congruence|]. rewrite Hs', Hs. eauto. }
  exists ph. split; [|split; [done|split; intros _; apply Hst; congruence]].
  rewrite !messages_run_app, Hrun. simpl. rewrite Hrun'. simpl. done.
Qed.

Lemma step_block_stop blocks k :
  (k < length blocks)%nat ->
  messages_step (InMessage blocks k) (message_event "content_block_stop" [("index", int (Z.of_nat k))])
  = Some (InMessage blocks (S k)).
Proof. intros Hk%Nat.ltb_lt. simpl. by rewrite bool_decide_eq_true_2, Hk. Qed.

Lemma close_blocks blocks n :
  (n <= length blocks)%nat ->
  messages_run (InMessage blocks (length blocks - n))
    ((fun index => message_event "content_block_stop" [("index", int index)])
       <$> seqZ (Z.of_nat (length blocks - n)) (Z.of_nat n)) = Some (InMessage blocks (length blocks)).
Proof.
  induction n as [|n IH]; intros Hn.
  { rewrite seqZ_nil by done. simpl. by rewrite Nat.sub_0_r. }
  rewrite seqZ_cons by lia. cbn [fmap list_fmap messages_run]. rewrite step_block_stop by lia. cbn [mbind option_bind].
  replace (Z.succ (Z.of_nat (length blocks - S n))) with (Z.of_nat (length blocks - n)) by lia.
  replace (Z.pred (Z.of_nat (S n))) with (Z.of_nat n) by lia.
  replace (S (length blocks - S n)) with (length blocks - n)%nat by lia. apply IH. lia.
Qed.

Lemma finish_messages_ok r phase :
  messages_phase r phase -> sr_started r = true ->
  messages_run phase (snd (finish_messages r)) = Some MessageOver.
Proof.
  intros (_ & _ & Hs) Hst. rewrite Hst in Hs. destruct Hs as (blocks & -> & Hb). unfold finish_messages.
  cbn [snd]. rewrite messages_run_app, (agree_next _ _ Hb).
  pose proof (close_blocks blocks (length blocks) (le_n _)) as Hc. rewrite Nat.sub_diag in Hc.
  change (Z.of_nat 0) with 0%Z in Hc. rewrite Hc. simpl. by rewrite Nat.eqb_refl.
Qed.

(** ** The text of a stream *)

Definition text_piece (e : LlmStreamEvent) : string := match e with TextDelta _ text => text | _ => "" end.
Definition text_of (events : list LlmStreamEvent) : string := concat_str (text_piece <$> events).

Lemma concat_str_app l1 l2 : concat_str (l1 ++ l2) = concat_str l1 +:+ concat_str l2.
Proof. induction l1 as [|s l IH]; [done|]. simpl. by rewrite IH, str_app_assoc. Qed.

Lemma text_of_app l1 l2 : text_of (l1 ++ l2) = text_of l1 +:+ text_of l2.
Proof. unfold text_of. by rewrite fmap_app, concat_str_app. Qed.

Section Text.
Context `{!JsonText}.

(** The text a frame says, by the protocol. *)
Definition chat_text (v : Value) : string :=
  concat_str ((fun choice => default "" (get_str (get_or_self choice "delta") "content")) <$> get_list v "choices").
Definition gemini_part_text (part : Value) : string :=
  if default false (json_get part "thought" ≫= as_bool) then "" else default "" (get_str part "text").
Definition gemini_text (v : Value) : string :=
  concat_str ((fun c => concat_str (gemini_part_text <$>
                 match json_get c "content" with Some content => get_list content "parts" | None => [] end))
              <$> get_list v "candidates").
Definition messages_text (v : Value) : string :=
  let delta := get_or_self v "delta" in
  if has_type v "content_block_delta" && has_type delta "text_delta" then default "" (get_str delta "text") else "".
Definition responses_text (v : Value) : string :=
  if has_type v "response.output_text.delta" then default "" (get_str v "delta") else "".

Definition frame_text (protocol : LlmProtocol) (v : Value) : string :=
  match protocol with
  | PChatCompletions => chat_text v
  | PMessages => messages_text v
  | PResponses => responses_text v
  | PGemini => gemini_text v
  | PUnknown => ""
  end.

(** A piece of decoding that says [s] whatever the decoder's state. *)
Definition says (f : decoding) (s : string) : Prop := forall d, text_of (snd (f d)) = s.

Lemma says_emit events : says (emit events) (text_of events).
Proof. by intros d. Qed.

Lemma says_also f g s t : says f s -> says g t -> says (also f g) (s +:+ t).
Proof.
  intros Hf Hg d. unfold also. specialize (Hf d). destruct (f d) as [d1 e1]. specialize (Hg d1).
  destruct (g d1) as [d2 e2]. simpl in *. by rewrite text_of_app, Hf, Hg.
Qed.

Lemma says_silent_l f g t : says f "" -> says g t -> says (also f g) t.
Proof. intros Hf Hg. by apply (says_also f g "" t). Qed.
Lemma says_silent_r f g s : says f s -> says g "" -> says (also f g) s.
Proof. intros Hf Hg. rewrite <- (str_app_nil_r s). by apply says_also. Qed.

Lemma says_for_each {A} (f : Z -> A -> decoding) (text : A -> string) n l :
  (forall i x, says (f i x) (text x)) -> says (for_each f n l) (concat_str (text <$> l)).
Proof. intros Hf. revert n. induction l as [|x l IH]; intros n; [done|]. simpl. by apply says_also. Qed.

Lemma says_silent_each {A} (f : Z -> A -> decoding) n l :
  (forall i x, says (f i x) "") -> says (for_each f n l) "".
Proof. intros Hf. revert n. induction l as [|x l IH]; intros n; [done|]. simpl. by apply says_silent_l. Qed.

Lemma says_opt_silent {A} (o : option A) f : (forall x, text_piece (f x) = "") -> says (emit_opt o f) "".
Proof. intros Hf d. destruct o as [x|]; [|done]. unfold text_of. simpl. by rewrite Hf. Qed.

Lemma says_opt_text o c : says (emit_opt o (TextDelta c)) (default "" o).
Proof. intros d. destruct o as [x|]; [|done]. apply str_app_nil_r. Qed.

Lemma non_empty_default o : default "" (non_empty_str o) = default "" o.
Proof. destruct o as [s|]; [|done]. simpl. by case_bool_decide as Hs; [rewrite Hs|]. Qed.

Lemma start_from_silent id model : says (start_from id model) "".
Proof. intros d. unfold start_from. by destruct (sd_emitted_start d). Qed.

Lemma usage_from_silent v : says (usage_from v) "".
Proof. intros d. unfold usage_from. by case_bool_decide. Qed.

Lemma decode_chat_tool_silent c i v : says (decode_chat_tool c i v) "".
Proof.
  intros d. unfold decode_chat_tool.
  by destruct (sd_tool_ids d !! _), (non_empty_str (get_str (get_or_self v "function") _)).
Qed.

Hint Resolve start_from_silent usage_from_silent says_opt_silent says_silent_each decode_chat_tool_silent : core.

Lemma decode_chat_text v : says (decode_chat v) (chat_text v).
Proof.
  apply says_silent_l; [done|]. apply says_silent_r; [|done]. apply says_for_each. intros i choice.
  apply says_silent_r; [|repeat (apply says_silent_l; [auto|]); auto].
  rewrite <- non_empty_default. apply says_opt_text.
Qed.

Lemma decode_gemini_text v : says (decode_gemini v) (gemini_text v).
Proof.
  apply says_silent_l; [done|]. apply says_silent_r; [|done]. apply says_for_each. intros i c.
  apply says_silent_r; [|auto]. apply says_for_each. intros j part.
  apply says_silent_r; [|by destruct (json_get part "functionCall")].
  unfold gemini_part_text. destruct (default false _); [auto|]. rewrite <- non_empty_default. apply says_opt_text.
Qed.

Lemma has_type_exclusive v s t : has_type v s = true -> s <> t -> has_type v t = false.
Proof.
  unfold has_type. intros Hs%bool_decide_eq_true Hn. apply bool_decide_eq_false. rewrite Hs. congruence.
Qed.

Lemma decode_messages_text v : says (decode_messages v) (messages_text v).
Proof.
  unfold decode_messages, messages_text. destruct (has_type v "message_start") eqn:H1.
  { rewrite (has_type_exclusive _ _ "content_block_delta" H1) by done. simpl. by apply says_silent_l. }
  destruct (has_type v "content_block_start") eqn:H2.
  { rewrite (has_type_exclusive _ _ "content_block_delta" H2) by done. intros d.
    unfold decode_messages_block. by destruct (has_type _ "tool_use"). }
  destruct (has_type v "content_block_delta"); simpl.
  - intros d. unfold decode_messages_delta. destruct (has_type _ "text_delta"); [apply says_opt_text|].
    destruct (has_type _ "thinking_delta"); [by apply says_opt_silent|].
    destruct (has_type _ "input_json_delta"); [by apply says_opt_silent|done].
  - destruct (has_type v "message_delta"); [|done]. by apply says_silent_l; [apply says_opt_silent|].
Qed.

Lemma decode_responses_text v : says (decode_responses v) (responses_text v).
Proof.
  intros d. unfold decode_responses. apply says_silent_l; [by destruct (sd_emitted_start d)|].
  unfold decode_responses_event, responses_text, has_type.
  destruct (get_str v "type") as [t|]; [|done]. cbn [default].
  destruct (decide (t = "response.output_text.delta")) as [->|Hn].
  { rewrite !bool_decide_eq_true_2 by done. apply says_opt_text. }
  rewrite (bool_decide_eq_false_2 (t = _)), (bool_decide_eq_false_2 (Some t = _)) by congruence.
  repeat case_bool_decide; cbn [orb]; try (by apply says_opt_silent); try done; intros x;
    unfold text_of; try (by destruct (_ || _)).
  all: by apply says_silent_l.
Qed.

Lemma decode_value_text v d : text_of (snd (decode_value v d)) = frame_text (sd_protocol d) v.
Proof.
  unfold decode_value. destruct (sd_protocol d);
    [apply decode_chat_text|apply decode_messages_text|apply decode_responses_text|apply decode_gemini_text|done].
Qed.

(** *** What the renderers write *)

Definition frames_text (protocol : LlmProtocol) (l : list SseEvent) : string :=
  concat_str ((fun e => frame_text protocol (snd e)) <$> l).

Lemma frames_text_app p l1 l2 : frames_text p (l1 ++ l2) = frames_text p l1 +:+ frames_text p l2.
Proof. unfold frames_text. by rewrite fmap_app, concat_str_app. Qed.

(** An event name that a reader of frames passes over. *)
Definition event_name_ok (name : option string) : bool :=
  match name with
  | None => true
  | Some n =>
      no_newline n && str_forall (byte_in 0 127) n
      && bool_decide (strip_cr ("event: " +:+ n) = "event: " +:+ n)
      && match str_strip_prefix "data:" (str_trim ("event: " +:+ n)) with None => true | Some _ => false end
  end.

(** Frames that can be read back and say [s]. *)
Definition write (p : LlmProtocol) (l : list SseEvent) (s : string) : Prop :=
  Forall (fun e => event_name_ok (fst e) = true) l /\ frames_text p l = s.

Lemma write_app p l1 l2 s1 s2 : write p l1 s1 -> write p l2 s2 -> write p (l1 ++ l2) (s1 +:+ s2).
Proof. intros [? <-] [? <-]. split; [by apply Forall_app|]. apply frames_text_app. Qed.

Lemma write_nil p : write p [] "".
Proof. by split. Qed.

Lemma write_one p name v s : event_name_ok name = true -> frame_text p v = s -> write p [(name, v)] s.
Proof. intros Hn <-. split; [by constructor|]. apply str_app_nil_r. Qed.

(** A rendering that writes [s] and keeps the protocol. *)
Definition writes (p : LlmProtocol) (f : rendering) (s : string) : Prop :=
  forall r, write p (snd (f r)) s /\ sr_protocol (fst (f r)) = sr_protocol r
            /\ sr_finished (fst (f r)) = sr_finished r.

Lemma writes_andthen p f g s t : writes p f s -> writes p g t -> writes p (andthen f g) (s +:+ t).
Proof.
  intros Hf Hg r. unfold andthen. destruct (Hf r) as (H1 & H2 & H3). destruct (f r) as [r1 o1]. simpl in *.
  destruct (Hg r1) as (H4 & H5 & H6). destruct (g r1) as [r2 o2]. simpl in *.
  split; [by apply write_app|]. split; congruence.
Qed.

Lemma writes_silent p f g : writes p f "" -> writes p g "" -> writes p (andthen f g) "".
Proof. apply (writes_andthen p f g "" ""). Qed.

Lemma write_chat e : writes PChatCompletions (render_chat e) (text_piece e).
Proof.
  intros r. destruct e as [[id|] model|c text|c text|c id name signature|c id delta|usage|c reason|message code]; simpl;
    unfold ensure_chat_tool_index; try (destruct (sr_blocks r !! id)); (split; [apply write_one; [done|]|done]).
  all: unfold frame_text, chat_text; simpl; rewrite ?str_app_nil_r; done.
Qed.

Lemma write_message_block kind r :
  write PMessages (snd (ensure_message_block kind r)) ""
  /\ sr_protocol (fst (fst (ensure_message_block kind r))) = sr_protocol r
  /\ sr_finished (fst (fst (ensure_message_block kind r))) = sr_finished r.
Proof.
  unfold ensure_message_block. destruct (existing_block kind r); [split; [apply write_nil|done]|].
  destruct kind; (split; [by apply write_one|done]).
Qed.

Lemma write_messages e : writes PMessages (render_messages e) (text_piece e).
Proof.
  apply (writes_andthen _ _ _ "").
  { intros r. unfold ensure_messages_start. destruct e as [[id|] ?| | | | | | |]; simpl; destruct (sr_started r);
      (split; [apply write_nil || by apply write_one|done]). }
  intros r. destruct e as [id model|c text|c text|c id name signature|c id delta|usage|c reason|message code]; simpl;
    try (split; [apply write_nil|done]).
  - pose proof (write_message_block TextBlock (put_accumulated_text (sr_accumulated_text r +:+ text) r)) as (? & ? & ?).
    destruct (ensure_message_block _ _) as [[r1 i] o1]. split; [|done]. apply (write_app _ _ _ "" text); [done|].
    by apply write_one.
  - pose proof (write_message_block ThinkingBlock r) as (? & ? & ?).
    destruct (ensure_message_block _ _) as [[r1 i] o1]. split; [|done]. apply (write_app _ _ _ "" ""); [done|].
    by apply write_one.
  - pose proof (write_message_block (ToolBlock id name) (put_tool_names (<[id:=name]> (sr_tool_names r)) r)) as (? & ? & ?).
    destruct (ensure_message_block _ _) as [[r1 i] o1]. by split.
  - pose proof (write_message_block (ToolBlock id "") r) as (? & ? & ?).
    destruct (ensure_message_block _ _) as [[r1 i] o1]. split; [|done]. apply (write_app _ _ _ "" ""); [done|].
    by apply write_one.
Qed.

Lemma write_finish_messages : writes PMessages finish_messages "".
Proof.
  intros r. split; [|done]. apply (write_app _ _ _ "" "").
  - generalize (seqZ 0 (sr_next_block r)). intros l. induction l as [|i l IH]; [apply write_nil|].
    apply (write_app _ [_] _ "" ""); [by apply write_one|exact IH].
  - apply (write_app _ [_] [_] "" ""); by apply write_one.
Qed.

Lemma write_gemini e : writes PGemini (render_gemini e) (text_piece e).
Proof.
  intros r. unfold render_gemini.
  destruct e as [[id|] model|c text|c text|c id name [signature|]|c id delta|usage|c reason|message code]; simpl;
    (split; [apply write_nil || (apply write_one; [done|])|done]).
  all: unfold frame_text, gemini_text; simpl; rewrite ?str_app_nil_r; done.
Qed.

Lemma write_response_event name fields :
  event_name_ok (Some name) = true -> name <> "response.output_text.delta" ->
  writes PResponses (emit_response_event name fields) "".
Proof.
  intros Hok Hn r. split; [|done]. apply write_one; [done|]. unfold frame_text, responses_text, has_type. simpl.
  unfold get_str. simpl. rewrite bool_decide_eq_false_2; [done|congruence].
Qed.

Lemma write_responses_text_block : writes PResponses responses_text_block "".
Proof.
  intros r. unfold responses_text_block. destruct (sr_text_block r); [split; [apply write_nil|done]|].
  match goal with |- context [andthen ?f ?g ?x] =>
    pose proof (writes_silent PResponses f g ltac:(by apply write_response_event) ltac:(by apply write_response_event) x)
  end. done.
Qed.

Lemma write_response_tool id name : writes PResponses (start_response_tool id name) "".
Proof.
  intros r. unfold start_response_tool.
  match goal with |- context [emit_response_event ?n ?f ?x] =>
    destruct (write_response_event n f eq_refl ltac:(done) x) as (? & Hp & Hf)
  end.
  split; [done|]. rewrite Hp, Hf. simpl. by destruct (sr_tool_names r !! id).
Qed.

Lemma write_responses e : writes PResponses (render_responses e) (text_piece e).
Proof.
  apply (writes_andthen _ _ _ "").
  { intros r. split; [apply write_nil|]. by destruct e as [[id|] ?| | | | | | |]. }
  apply (writes_andthen _ _ _ "").
  { intros r. unfold responses_created. destruct (sr_started r); [split; [apply write_nil|done]|].
    match goal with |- context [emit_response_event ?n ?f ?x] =>
      exact (write_response_event n f eq_refl ltac:(done) x) end. }
  intros r. destruct e as [id model|c text|c text|c id name signature|c id delta|usage|c reason|message code]; simpl;
    try (split; [apply write_nil|done]).
  - match goal with |- context [andthen ?f ?g ?x] => assert (Hw : writes PResponses (andthen f g) text) end; [|exact (Hw _)].
    apply (writes_andthen _ _ _ ""); [apply write_responses_text_block|]. intros r1. split; [|done].
    by apply write_one.
  - destruct (sr_blocks r !! id); [split; [apply write_nil|done]|].
    set (r1 := put_tool_arguments _ _). exact (write_response_tool id name r1).
  - match goal with |- context [andthen ?f ?g ?x] => assert (Hw : writes PResponses (andthen f g) "") end; [|exact (Hw _)].
    apply writes_silent.
    + intros r1. destruct (sr_blocks r1 !! id); [split; [apply write_nil|done]|apply write_response_tool].
    + intros r1. match goal with |- context [emit_response_event ?n ?f ?x] =>
        exact (write_response_event n f eq_refl ltac:(done) x) end.
Qed.

Lemma write_finish_tools tools : writes PResponses (finish_tools tools) "".
Proof.
  induction tools as [|[id index] l IH]; simpl; [intros r; split; [apply write_nil|done]|].
  apply writes_silent; [|done]. intros r. unfold finish_tool.
  match goal with |- context [andthen ?f ?g ?x] =>
    exact (writes_silent PResponses f g ltac:(by apply write_response_event) ltac:(by apply write_response_event) x)
  end.
Qed.

Lemma write_finish_text index : writes PResponses (finish_text index) "".
Proof.
  intros r. unfold finish_text.
  match goal with |- context [andthen ?f ?g ?x] => assert (Hw : writes PResponses (andthen f g) "") end; [|exact (Hw _)].
  by repeat (apply writes_silent; [|]); apply write_response_event.
Qed.

Lemma write_finish_responses : writes PResponses finish_responses "".
Proof.
  intros r. unfold finish_responses.
  match goal with |- context [andthen ?f ?g ?x] => assert (Hw : writes PResponses (andthen f g) "") end; [|exact (Hw _)].
  apply writes_silent.
  { destruct (sr_text_block r); [apply write_finish_text|]. intros ?. split; [apply write_nil|done]. }
  apply writes_silent; [apply write_finish_tools|by apply write_response_event].
Qed.

Lemma write_event e r :
  write (sr_protocol r) (snd (render_event e r)) (if bool_decide (sr_protocol r = PUnknown) then "" else text_piece e)
  /\ sr_protocol (fst (render_event e r)) = sr_protocol r /\ sr_finished (fst (render_event e r)) = sr_finished r.
Proof.
  unfold render_event. destruct (sr_protocol r) eqn:Hp;
    [destruct (write_chat e r) as (? & ? & ?)|destruct (write_messages e r) as (? & ? & ?)
    |destruct (write_responses e r) as (? & ? & ?)|destruct (write_gemini e r) as (? & ? & ?)
    |split; [apply write_nil|done]]; (split; [done|split; congruence]).
Qed.

Lemma write_events events r :
  sr_protocol r <> PUnknown ->
  write (sr_protocol r) (snd (push_events events r)) (text_of events)
  /\ sr_protocol (fst (push_events events r)) = sr_protocol r
  /\ sr_finished (fst (push_events events r)) = sr_finished r.
Proof.
  revert r. induction events as [|e l IH]; intros r Hp; [split; [apply write_nil|done]|]. simpl. unfold andthen.
  destruct (write_event e r) as (H1 & H2 & H3). rewrite bool_decide_eq_false_2 in H1 by done.
  destruct (render_event e r) as [r1 o1]. simpl in *.
  destruct (IH r1) as (H4 & H5 & H6); [congruence|]. destruct (push_events l r1) as [r2 o2]. simpl in *.
  split; [|split; congruence]. apply write_app; [done|]. by rewrite <- H2.
Qed.

(** The frames of the end say nothing. *)
Lemma write_finish r r' o fin :
  sr_protocol r <> PUnknown -> renderer_finish [] r = (r', o, fin) -> write (sr_protocol r) o "".
Proof.
  intros Hp. unfold renderer_finish. cbn [push_events out].
  destruct (sr_finished r); [intros [= <- <- <-]; apply write_nil|].
  change (sr_protocol (put_finished true r)) with (sr_protocol r).
  destruct (sr_protocol r); try (intros [= <- <- <-]; apply write_nil).
  - pose proof (proj1 (write_finish_messages (put_finished true r))) as Hw.
    destruct (finish_messages (put_finished true r)) as [r1 o1]. by intros [= <- <- <-].
  - pose proof (proj1 (write_finish_responses (put_finished true r))) as Hw.
    destruct (finish_responses (put_finished true r)) as [r1 o1]. by intros [= <- <- <-].
Qed.

(** *** From frames to bytes and back *)

Definition token_char : ascii -> bool := byte_in 33 126.

(** JSON text starts and ends with a character of a token, and the marker of the
    end of a stream is not JSON. *)
Class JsonTokens : Prop := {
  json_text_first v : exists a s, json_text v = String a s /\ token_char a = true;
  json_text_last v : exists s b, json_text v = s +:+ String b "" /\ token_char b = true;
  done_is_not_json : json_parse "[DONE]" = None;
}.

Lemma token_char_not_ws a :
  token_char a = true ->
  ws1 a = false /\ (forall b, ws2 a b = false) /\ (forall b c, ws3 a b c = false)
  /\ (forall b, ws2 b a = false) /\ (forall b c, ws3 c b a = false).
Proof.
  intros [H1%N.leb_le H2%N.leb_le]%andb_prop.
  assert (His : forall k, (k < 33 \/ 126 < k)%N -> byte_is k a = false) by (intros k Hk; apply N.eqb_neq; lia).
  assert (Hin : forall lo hi, (hi < 33 \/ 126 < lo)%N -> byte_in lo hi a = false).
  { intros lo hi [?|?]; unfold byte_in; apply andb_false_iff; [right|left]; apply N.leb_gt; lia. }
  unfold ws1, ws2, ws3. repeat split; intros; rewrite ?His, ?Hin by lia; rewrite ?andb_false_r; done.
Qed.

Lemma trim_tokens s a r l b :
  s = String a r -> token_char a = true -> s = l +:+ String b "" -> token_char b = true -> str_trim s = s.
Proof.
  intros Ha (H1 & H2 & H3 & _)%token_char_not_ws Hb (H4 & _ & _ & H5 & H6)%token_char_not_ws.
  unfold str_trim, str_trim_start. rewrite Ha, trim_front_stop, <- Ha by done. unfold str_trim_end.
  assert (Hr : String.rev s = String b (String.rev l)) by by rewrite Hb, str_rev_app.
  rewrite Hr, trim_front_stop, <- Hr by done. apply str_rev_involutive.
Qed.

Lemma trim_space s : str_trim (String " " s) = str_trim s.
Proof. done. Qed.

Context `{!JsonTokens}.

Lemma json_text_trim v : str_trim (json_text v) = json_text v.
Proof.
  destruct (json_text_first v) as (a & s & H1 & H2), (json_text_last v) as (l & b & H3 & H4). by eapply trim_tokens.
Qed.

Lemma data_line_trim v : str_trim ("data: " +:+ json_text v) = "data: " +:+ json_text v.
Proof.
  destruct (json_text_last v) as (l & b & H3 & H4).
  eapply (trim_tokens _ "d" _ ("data: " +:+ l) b); [reflexivity|done| |done]. by rewrite H3, str_app_assoc.
Qed.

Lemma data_line_strip_cr v : strip_cr ("data: " +:+ json_text v) = "data: " +:+ json_text v.
Proof.
  destruct (json_text_last v) as (l & b & -> & Hb). rewrite <- str_app_assoc. apply strip_cr_id.
  by intros ->.
Qed.

Lemma line_app s t : no_newline (s +:+ t) = no_newline s && no_newline t.
Proof. apply str_forall_app. Qed.

Lemma utf8_ascii_app s t : str_forall (byte_in 0 127) s = true -> utf8_valid (s +:+ t) = utf8_valid t.
Proof.
  induction s as [|a s IH]; [done|]. intros [Ha Hs]%andb_prop.
  change (utf8_valid (String a s +:+ t)) with (utf8_valid (String a (s +:+ t))). simpl. rewrite Ha. by apply IH.
Qed.

Lemma data_line_ok v : no_newline ("data: " +:+ json_text v) = true.
Proof. rewrite line_app. apply (proj1 (json_text_one_line v)). Qed.

(** A frame without the blank line after it. *)
Definition frame_of (e : SseEvent) : string :=
  match fst e with
  | Some event => ("event: " +:+ event) +:+ newline +:+ "data: " +:+ json_text (snd e)
  | None => "data: " +:+ json_text (snd e)
  end.

Lemma format_sse_frame e rest : format_sse e +:+ rest = frame_of e +:+ LF2 +:+ rest.
Proof. unfold format_sse, frame_of. destruct (fst e); rewrite !str_app_assoc; done. Qed.

Lemma delimiter_no_newline s rest :
  no_newline s = true -> delimiter_at (s +:+ LF2 +:+ rest) = Some (String.length s, 2)%nat.
Proof.
  induction s as [|a s IH]; intros Hs.
  { by destruct rest. }
  change (no_newline (String a s)) with (negb (byte_is 10 a) && no_newline s) in Hs.
  apply andb_prop in Hs as [Ha Hs]. change (String a s +:+ LF2 +:+ rest) with (String a (s +:+ LF2 +:+ rest)).
  rewrite delimiter_at_cons, IH by done.
  destruct (String.prefix LF2 _) eqn:H1; [by apply prefix_LF2 in H1 as [r [= -> _]]|].
  destruct (String.prefix CRLF2 _) eqn:H2; [|done].
  apply prefix_CRLF2 in H2 as [r [= -> Hr]]. destruct s as [|b s]; [done|]. by injection Hr as -> _.
Qed.

Lemma delimiter_two_lines s l rest :
  no_newline s = true -> no_newline (String "d" l) = true ->
  delimiter_at (s +:+ newline +:+ String "d" l +:+ LF2 +:+ rest) =
  Some (String.length s + S (String.length (String "d" l)), 2)%nat.
Proof.
  intros Hs Hl. induction s as [|a s IH].
  { change ("" +:+ newline +:+ String "d" l +:+ LF2 +:+ rest) with (String "010" (String "d" l +:+ LF2 +:+ rest)).
    rewrite delimiter_at_cons, delimiter_no_newline by done.
    destruct (String.prefix LF2 _) eqn:H1; [by apply prefix_LF2 in H1 as [r ?]|].
    destruct (String.prefix CRLF2 _) eqn:H2; [by apply prefix_CRLF2 in H2 as [r ?]|]. done. }
  change (no_newline (String a s)) with (negb (byte_is 10 a) && no_newline s) in Hs.
  apply andb_prop in Hs as [Ha Hs].
  change (String a s +:+ newline +:+ String "d" l +:+ LF2 +:+ rest)
    with (String a (s +:+ newline +:+ String "d" l +:+ LF2 +:+ rest)).
  rewrite delimiter_at_cons, IH by done.
  destruct (String.prefix LF2 _) eqn:H1; [by apply prefix_LF2 in H1 as [r [= -> _]]|].
  destruct (String.prefix CRLF2 _) eqn:H2; [|done].
  apply prefix_CRLF2 in H2 as [r [= -> Hr]]. destruct s as [|b s]; [done|]. by injection Hr as -> _.
Qed.

Lemma substring_all s t : String.substring 0 (String.length s) (s +:+ t) = s.
Proof. induction s as [|a s IH]; [by destruct t|]. simpl. f_equal. apply IH. Qed.

Lemma str_drop_all s t : str_drop (String.length s) (s +:+ t) = t.
Proof. induction s as [|a s IH]; [done|]. apply IH. Qed.

Lemma delimiter_found s rest :
  delimiter_at (s +:+ LF2 +:+ rest) = Some (String.length s, 2)%nat ->
  next_sse_frame (s +:+ LF2 +:+ rest) = Some (s, rest).
Proof.
  intros Hd. rewrite next_sse_frame_scan, Hd. cbn [fmap option_fmap option_map]. rewrite substring_all.
  do 2 f_equal. rewrite <- str_app_assoc.
  replace (String.length s + 2)%nat with (String.length (s +:+ LF2)) by by rewrite str_length_app.
  apply str_drop_all.
Qed.

Lemma next_frame_of e rest :
  event_name_ok (fst e) = true -> next_sse_frame (format_sse e +:+ rest) = Some (frame_of e, rest).
Proof.
  intros Hok. rewrite format_sse_frame. apply delimiter_found. unfold frame_of. destruct (fst e) as [n|].
  - simpl in Hok. apply andb_prop in Hok as [[[Hn _]%andb_prop _]%andb_prop _].
    pose proof (data_line_ok (snd e)) as Hd.
    assert (Hm : no_newline ("event: " +:+ n) = true) by by rewrite line_app.
    change ("data: " +:+ json_text (snd e)) with (String "d" ("ata: " +:+ json_text (snd e))) in *.
    revert Hd Hm. generalize ("ata: " +:+ json_text (snd e)) as l. generalize ("event: " +:+ n) as m.
    intros m l Hl Hm. pose proof (delimiter_two_lines m l rest Hm Hl) as Hd.
    rewrite !str_app_assoc, Hd. do 2 f_equal. by rewrite !str_length_app.
  - apply delimiter_no_newline, data_line_ok.
Qed.

Lemma frame_data e : event_name_ok (fst e) = true -> sse_frame_data (frame_of e) = json_text (snd e).
Proof.
  intros Hok. unfold sse_frame_data, str_lines.
  assert (Hlast : terminated_lines (str_split 10 ("data: " +:+ json_text (snd e))) = ["data: " +:+ json_text (snd e)]).
  { by rewrite str_split_no_newline by apply data_line_ok. }
  assert (Hdata : str_trim <$> str_strip_prefix "data:" (str_trim ("data: " +:+ json_text (snd e)))
                  = Some (json_text (snd e))).
  { rewrite data_line_trim. change (str_strip_prefix "data:" ("data: " +:+ json_text (snd e)))
      with (Some (String " " (json_text (snd e)))). cbn [fmap option_fmap option_map].
    by rewrite trim_space, json_text_trim. }
  unfold frame_of. destruct (fst e) as [n|]; [|by rewrite Hlast; cbn [omap list_omap]; rewrite Hdata].
  cbn [event_name_ok] in Hok. apply andb_prop in Hok as [[[Hn _]%andb_prop Hcr%bool_decide_eq_true]%andb_prop Hs].
  rewrite str_split_line by by rewrite line_app. rewrite terminated_lines_cons, Hlast. cbn [omap list_omap].
  rewrite Hcr.
  destruct (str_strip_prefix "data:" (str_trim ("event: " +:+ n))); [done|]. cbn [fmap option_fmap option_map]. by rewrite Hdata.
Qed.

Lemma frame_utf8 e : event_name_ok (fst e) = true -> utf8_valid (frame_of e) = true.
Proof.
  intros Hok. unfold frame_of. destruct (fst e) as [n|].
  - cbn [event_name_ok] in Hok. apply andb_prop in Hok as [[[_ Ha]%andb_prop _]%andb_prop _].
    rewrite !str_app_assoc, (utf8_ascii_app "event: "), (utf8_ascii_app n), (utf8_ascii_app newline),
      (utf8_ascii_app "data: ") by done. apply json_text_utf8.
  - rewrite (utf8_ascii_app "data: ") by done. apply json_text_utf8.
Qed.

Lemma decode_frame_of e d :
  event_name_ok (fst e) = true -> decode_frame (frame_of e) d = Ok (decode_value (snd e) d).
Proof.
  intros Hok. unfold decode_frame. rewrite frame_utf8, frame_data by done. simpl.
  destruct (json_text_first (snd e)) as (a & s & Ha & _). rewrite (bool_decide_eq_false_2 (_ = "")) by congruence.
  pose proof (json_text_parse (snd e)) as Hp. rewrite json_text_trim in Hp.
  rewrite bool_decide_eq_false_2; [by rewrite Hp|]. intros Hd. rewrite Hd, done_is_not_json in Hp. done.
Qed.

(** Reading the bytes of frames, and the end marker when there is one. *)
Lemma decode_written n l d (fin : bool) :
  Forall (fun e => event_name_ok (fst e) = true) l ->
  sd_buffer d = sse_bytes l +:+ (if fin then DONE_FRAME else "") -> (String.length (sd_buffer d) < n)%nat ->
  exists d' events, decode_frames n d = Ok (d', events) /\ sd_buffer d' = ""
    /\ text_of events = frames_text (sd_protocol d) l.
Proof.
  intros Hok. revert n d. induction Hok as [|e l He Hok IH]; intros n d Hb Hn.
  - destruct n as [|n]; [lia|]. simpl. rewrite Hb in *. destruct fin.
    + destruct n as [|n]; [simpl in Hn; lia|]. change (next_sse_frame (sse_bytes [] +:+ DONE_FRAME))
        with (Some ("data: [DONE]", "")). cbn [decode_frame]. eexists _, _. split; [vm_compute; reflexivity|done].
    + eexists _, _. split; [done|]. by rewrite Hb.
  - destruct n as [|n]; [lia|]. cbn [decode_frames].
    assert (Hf : next_sse_frame (sd_buffer d) = Some (frame_of e, sse_bytes l +:+ (if fin then DONE_FRAME else ""))).
    { rewrite Hb. unfold sse_bytes at 1. cbn [fmap list_fmap concat_str foldr]. rewrite str_app_assoc.
      by apply next_frame_of. }
    rewrite Hf, decode_frame_of by done. set (d0 := set_buffer _ d).
    pose proof (decode_value_tame (snd e) d0) as [Hp _ Hb0 _ _ _ _ _ _ _].
    pose proof (decode_value_text (snd e) d0) as Ht. destruct (decode_value (snd e) d0) as [d1 e1]. simpl in *.
    apply next_sse_frame_shrinks in Hf.
    destruct (IH n d1) as (d' & events & H1 & H2 & H3); [done|rewrite Hb0; lia|].
    rewrite H1. exists d', (e1 ++ events). split; [done|]. split; [done|].
    rewrite text_of_app, Ht, H3, Hp. done.
Qed.

(** *** The translator *)

Lemma push_events_app e1 e2 r : push_events (e1 ++ e2) r = andthen (push_events e1) (push_events e2) r.
Proof.
  revert r. induction e1 as [|e l IH]; intros r; simpl.
  { unfold andthen, out. by destruct (push_events e2 r). }
  unfold andthen in *. destruct (render_event e r) as [r1 o1]. rewrite IH. destruct (push_events l r1) as [r2 o2].
  destruct (push_events e2 r2) as [r3 o3]. by rewrite app_assoc.
Qed.

Lemma sse_bytes_app l1 l2 : sse_bytes (l1 ++ l2) = sse_bytes l1 +:+ sse_bytes l2.
Proof. unfold sse_bytes. by rewrite fmap_app, concat_str_app. Qed.

(** A translation that succeeds sends what the renderer writes for the events of the decoder. *)
Lemma translate_ok chunks t t' sent :
  tt_passthrough t = false -> translate_chunks chunks t = Ok (t', sent) ->
  exists events o, push_chunks chunks (tt_decoder t) = Ok (tt_decoder t', events)
    /\ push_events events (tt_renderer t) = (tt_renderer t', o) /\ sent = sse_bytes o /\ tt_passthrough t' = false.
Proof.
  revert t sent. induction chunks as [|[now c] l IH]; intros t sent Ht; simpl.
  { intros [= <- <-]. by exists [], []. }
  unfold translator_push_chunk. rewrite Ht.
  destruct (decoder_push_chunk now c (tt_decoder t)) as [[d e1]|[? ?]]; [|done].
  destruct (push_events e1 (tt_renderer t)) as [r o1] eqn:H1.
  destruct (translate_chunks l _) as [[t2 more]|] eqn:H2; [|done]. intros [= -> <-].
  destruct (IH (mkTranslator false d r) _ eq_refl H2) as (e2 & o2 & H3 & H4 & -> & H5). simpl in H3, H4. rewrite H3.
  exists (e1 ++ e2), (o1 ++ o2). split; [done|]. split; [|by rewrite sse_bytes_app].
  rewrite push_events_app. unfold andthen. by rewrite H1, H4.
Qed.

Lemma finish_stream_ok t :
  tt_passthrough t = false ->
  exists r o fin, renderer_finish [] (tt_renderer t) = (r, o, fin)
    /\ snd (translator_finish_stream t) = sse_bytes o +:+ if (fin : bool) then DONE_FRAME else "".
Proof.
  intros Ht. unfold translator_finish_stream.
  assert (He : exists d, decoder_finish (tt_decoder t) = (d, [])).
  { unfold decoder_finish. destruct (sd_finished (tt_decoder t)); eauto. }
  destruct He as [d ->]. rewrite Ht. destruct (renderer_finish [] (tt_renderer t)) as [[r o] fin]. by exists r, o, fin.
Qed.

Lemma push_chunks_start chunks d d' events :
  push_chunks chunks d = Ok (d', events) ->
  sd_emitted_start d' = sd_emitted_start d || existsb is_start events.
Proof.
  revert d events. induction chunks as [|[now c] l IH]; intros d events; simpl.
  { intros [= <- <-]. by rewrite orb_false_r. }
  destruct (decoder_push_chunk now c d) as [[d1 e1]|] eqn:H1; [|done].
  destruct (push_chunks l d1) as [[d2 e2]|] eqn:H2; [|done]. intros [= <- <-].
  rewrite (IH _ _ H2), existsb_app, orb_assoc. f_equal.
  apply push_chunk_ok in H1 as (x & Hx & _ & ->). apply decode_frames_tame in Hx as []. done.
Qed.

Lemma translator_new_parts bridge client model timestamp t :
  translator_new bridge client model timestamp = Some t -> bridge <> Passthrough ->
  tt_passthrough t = false /\ exists up p, llm_protocol client = Some p
    /\ tt_decoder t = decoder_new up model /\ tt_renderer t = renderer_new p model timestamp.
Proof.
  unfold translator_new. destruct (llm_protocol (upstream_protocol bridge client)) as [up|]; [|done]. simpl.
  destruct (llm_protocol client) as [p|]; [|done]. intros [= <-] Hb. simpl.
  split; [by destruct bridge|]. eauto.
Qed.

Lemma llm_protocol_known client p : llm_protocol client = Some p -> p <> PUnknown.
Proof. by destruct client; intros [= <-]. Qed.

(** ** The theorems *)

(** C29: The text a provider sends is the text the client receives.  Whatever
    route translates the stream and however it is cut, if the translation meets
    no error then a decoder of the client's protocol reads the bytes sent
    (the frames, and those of the end) without an error, and the text it gets
    is the text of the provider's events. *)
Theorem text_survives_translation bridge client model timestamp t chunks t' sent :
  bridge <> Passthrough ->
  translator_new bridge client model timestamp = Some t ->
  translate_chunks chunks t = Ok (t', sent) ->
  exists events d seen,
    push_chunks chunks (tt_decoder t) = Ok (tt_decoder t', events)
    /\ decoder_push_chunk 0 (sent +:+ snd (translator_finish_stream t'))
         (decoder_new (sr_protocol (tt_renderer t)) model) = Ok (d, seen)
    /\ text_of seen = text_of events.
Proof.
  intros Hb Hnew Hok. destruct (translator_new_parts _ _ _ _ _ Hnew Hb) as (Ht & up & p & Hp & _ & Hr).
  destruct (translate_ok _ _ _ _ Ht Hok) as (events & o & Hpush & Hev & -> & Ht').
  destruct (finish_stream_ok t' Ht') as (r & o2 & fin & Hfin & ->).
  assert (Hknown : sr_protocol (tt_renderer t) <> PUnknown) by (rewrite Hr; by apply llm_protocol_known in Hp).
  destruct (write_events events (tt_renderer t) Hknown) as ([Hn1 Hw1] & Hpr & _). rewrite Hev in Hn1, Hw1, Hpr.
  simpl in Hn1, Hw1, Hpr. destruct (write_finish (tt_renderer t') r o2 fin) as [Hn2 Hw2]; [by rewrite Hpr|done|].
  rewrite Hpr in Hw2. set (d0 := decoder_new (sr_protocol (tt_renderer t)) model).
  rewrite <- str_app_assoc, <- sse_bytes_app. set (bytes := sse_bytes (o ++ o2) +:+ _).
  destruct (decode_written (S (String.length bytes)) (o ++ o2) (set_buffer bytes (set_raw bytes d0)) fin)
    as (d' & seen & H1 & H2 & H3); [by apply Forall_app|done|apply Nat.lt_succ_diag_r|].
  exists events, (observe 0 seen d'), seen. split; [done|]. split.
  - apply push_chunk_ok. exists d'. split; [exact H1|]. split; [by rewrite H2|done].
  - rewrite H3. change (sd_protocol _) with (sr_protocol (tt_renderer t)).
    by rewrite frames_text_app, Hw1, Hw2, str_app_nil_r.
Qed.

(** C28: What a Messages client receives is a Messages stream.  When a
    translation to a Messages client meets no error and the provider's stream
    started, the bytes sent are server-sent events that begin with one
    [message_start]; open content blocks numbered from zero; give every delta to
    an open block of its kind; close each block exactly once, in order; and end
    with [message_delta] and [message_stop]. *)
Theorem messages_stream_is_wellformed bridge model timestamp t chunks t' sent :
  bridge <> Passthrough ->
  translator_new bridge Messages model timestamp = Some t ->
  translate_chunks chunks t = Ok (t', sent) ->
  sd_emitted_start (tt_decoder t') = true ->
  exists o, sent +:+ snd (translator_finish_stream t') = sse_bytes o
    /\ messages_run BeforeMessage o = Some MessageOver.
Proof.
  intros Hb Hnew Hok Hst. destruct (translator_new_parts _ _ _ _ _ Hnew Hb) as (Ht & up & p & [= <-] & Hd & Hr).
  destruct (translate_ok _ _ _ _ Ht Hok) as (events & o & Hpush & Hev & -> & Ht').
  destruct (finish_stream_ok t' Ht') as (r & o2 & fin & Hfin & ->).
  apply push_chunks_start in Hpush. rewrite Hst, Hd in Hpush.
  destruct (push_messages_ok events (tt_renderer t) BeforeMessage _ _ ltac:(by rewrite Hr) Hev)
    as (phase & Hrun & Hph & Hne & _).
  assert (Hs : sr_started (tt_renderer t') = true) by (apply Hne; by intros ->).
  pose proof Hph as (Hp & Hf & _). unfold renderer_finish in Hfin. cbn [push_events out] in Hfin. rewrite Hf in Hfin.
  change (sr_protocol (put_finished true (tt_renderer t'))) with (sr_protocol (tt_renderer t')) in Hfin. rewrite Hp in Hfin.
  pose proof (finish_messages_ok (tt_renderer t') phase Hph Hs) as Hend.
  injection Hfin as <- <- <-. exists (o ++ snd (finish_messages (tt_renderer t'))). split.
  - rewrite str_app_nil_r. symmetry. apply sse_bytes_app.
  - by rewrite messages_run_app, Hrun.
Qed.

End Text.

(** ** Examples *)

#[export] Instance value_json_tokens : @JsonTokens value_json.
Proof.
  split.
  - intros v. by eexists _, _.
  - intros v. simpl. unfold value_text. destruct (bits_end (encode v)) as [s ->].
    by exists (String "["%char s), "]"%char.
  - by vm_compute.
Qed.

Module RenderExample.
Import StreamExample.

#[local] Existing Instance value_json.

Definition translator : option TypedStreamTranslator :=
  translator_new MessagesToCompletions Messages "client" 1700000000000.
Definition started : TypedStreamTranslator :=
  default (mkTranslator false decoded_decoder (renderer_new PMessages "client" 0)) translator.
Definition run : result StreamError (TypedStreamTranslator * string) := translate_chunks two_chunks started.
Definition ended : TypedStreamTranslator := match run with Ok (t, _) => t | Err _ => started end.
Definition sent : string := match run with Ok (_, s) => s | Err _ => "" end.

Lemma started_ok : translator_new MessagesToCompletions Messages "client" 1700000000000 = Some started.
Proof. vm_compute. reflexivity. Qed.
Lemma run_ok : translate_chunks two_chunks started = Ok (ended, sent).
Proof. vm_compute. reflexivity. Qed.

Lemma text_survives_translation_witness :
  exists events d seen,
    push_chunks two_chunks (tt_decoder started) = Ok (tt_decoder ended, events)
    /\ decoder_push_chunk 0 (sent +:+ snd (translator_finish_stream ended)) (decoder_new PMessages "client")
       = Ok (d, seen)
    /\ text_of seen = text_of events /\ text_of decoded_events = "hey".
Proof.
  destruct (text_survives_translation MessagesToCompletions Messages "client" 1700000000000 started two_chunks
              ended sent ltac:(discriminate) started_ok run_ok) as (events & d & seen & H1 & H2 & H3).
  exists events, d, seen. split; [exact H1|]. split; [exact H2|]. split; [exact H3|]. vm_compute. reflexivity.
Defined.

Lemma messages_stream_is_wellformed_witness :
  exists o, sent +:+ snd (translator_finish_stream ended) = sse_bytes o
    /\ messages_run BeforeMessage o = Some MessageOver.
Proof.
  apply (messages_stream_is_wellformed MessagesToCompletions "client" 1700000000000 started two_chunks ended sent
           ltac:(discriminate) started_ok run_ok).
  vm_compute. reflexivity.
Defined.

(** A stream without any event still gets its end, and no beginning. *)
Example empty_stream_has_no_start :
  exists o, snd (translator_finish_stream started) = sse_bytes o /\ messages_run BeforeMessage o = None.
Proof. eexists (snd (finish_messages (tt_renderer started))). split; vm_compute; reflexivity. Qed.

(** *** Tool calls of a Responses stream *)

Definition tool_added (call_id item_id name : string) : Value :=
  JObject [("type", JString "response.output_item.added");
           ("item", JObject [("type", JString "function_call"); ("id", JString item_id);
                             ("call_id", JString call_id); ("name", JString name)])].
Definition tool_arguments (item_id delta : string) : Value :=
  JObject [("type", JString "response.function_call_arguments.delta"); ("item_id", JString item_id);
           ("delta", JString delta)].

End RenderExample.

Section Captured.
Context `{!JsonText}.
Import RenderExample.

(** The deltas of a tool call name it by its item, its start by its call: with
    two names, the call is captured without its arguments, and the arguments as
    a call without a name. *)
Theorem responses_tool_call_is_split call_id item_id name delta d :
  sd_protocol d = PResponses -> sd_emitted_start d = true -> ra_candidates (sd_accumulator d) = ∅ ->
  call_id <> item_id ->
  let '(d1, e1) := decode_value (tool_added call_id item_id name) d in
  let '(_, e2) := decode_value (tool_arguments item_id delta) d1 in
  cs_tools <$> (ra_candidates (foldl acc_apply (sd_accumulator d) (e1 ++ e2)) !! 0%Z)
  = Some [mkTool call_id name "" None; mkTool item_id "" delta None].
Proof.
  intros Hp Hs Hc Hne. unfold decode_value at 1. rewrite Hp. unfold decode_responses, also. rewrite Hs. simpl.
  unfold decode_value. rewrite Hp. unfold decode_responses, also. rewrite Hs. simpl.
  rewrite Hc, lookup_empty, lookup_insert_eq. simpl. rewrite lookup_insert_eq. simpl.
  by rewrite (decide_False (P := call_id = item_id)).
Qed.

End Captured.

Module UsageExample.
Import StreamExample.

#[local] Existing Instance value_json.

(** A Messages stream: the input tokens come with its start, the output tokens
    with its end. *)
Definition messages_usage : string :=
  sse_bytes
    [message_event "message_start"
       [("message", JObject [("id", JString "m"); ("usage", JObject [("input_tokens", int 25); ("output_tokens", int 1)])])];
     message_event "message_delta"
       [("delta", JObject [("stop_reason", JString "end_turn")]); ("usage", JObject [("output_tokens", int 15)])]].

(** The captured usage is the last one; read line by line the same bytes give
    the input tokens too. *)
Example start_usage_is_lost :
  match decoder_push_chunk 0 messages_usage (decoder_new PMessages "client") with
  | Ok (d, _) => (tu_input (sm_usage (sd_metrics d)), tu_output (sm_usage (sd_metrics d)))
  | Err _ => (25%Z, 16%Z)
  end = (0%Z, 15%Z)
  /\ tu_input (extract_usage_from_sse messages_usage) = 25%Z.
Proof. vm_compute. done. Qed.

End UsageExample.
