(* ===== verification/Understanding.v ===== *)
(** * Gateway: understanding requests and responses

    [gateway/src/understanding.rs]: a request or response of one of four
    protocols is read into the model of [Llm] once, before any conversion.
    [to_f64] is what [Value::as_f64] makes of a number. *)

From Stdlib Require Import ZArith Lia Ascii.
From stdpp Require Import base list strings gmap numbers option pretty sorting.
From S2P Require Import Prelude Json JsonLines TurnMachine Capture Llm.

(** Numbers read as [f64], written back as JSON. *)
Class FloatNumbers := { to_f64 : JsonNumber -> JsonNumber }.

(** ** Values *)

Definition string_field (v : Value) (field : string) : string := default "" (get_str v field).
Definition not_null (o : option Value) : option Value := match o with Some JNull => None | _ => o end.
Definition as_i64 (v : Value) : option Z :=
  match v with
  | JNumber (JInt z) => if bool_decide (- 2 ^ 63 <= z < 2 ^ 63)%Z then Some z else None
  | _ => None
  end.
Definition nonempty_text (s : string) : option string := if bool_decide (s = "") then None else Some s.

(** [value_text]; a field is looked up by its key, so an object's value is that
    of its field ([value_text_object]). *)
Fixpoint field_text (texts : list (string * option string)) (key : string) : option (option string) :=
  match texts with
  | [] => None
  | (k, t) :: rest => if decide (k = key) then Some t else field_text rest key
  end.
Fixpoint value_text (v : Value) : option string :=
  match v with
  | JString text => nonempty_text text
  | JArray parts => nonempty_text (join_lines (omap id (map value_text parts)))
  | JObject fields =>
      let texts := map (fun kv => (fst kv, value_text (snd kv))) fields in
      match field_text texts "text" with
      | Some t => t
      | None => default None (field_text texts "content")
      end
  | _ => None
  end.

Lemma field_text_get fields key :
  field_text (map (fun kv => (fst kv, value_text (snd kv))) fields) key = value_text <$> assoc_get fields key.
Proof. induction fields as [|[k v] l IH]; [done|]. simpl. by destruct (decide (k = key)). Qed.

Lemma value_text_object fields :
  value_text (JObject fields) = (first_of (JObject fields) ["text"; "content"] ≫= value_text).
Proof.
  simpl. rewrite !field_text_get. unfold first_of. simpl.
  destruct (assoc_get fields "text"); [done|]. simpl. by destruct (assoc_get fields "content").
Qed.

Definition parse_role (role : string) : LlmRole :=
  if bool_decide (role = "system") then RoleSystem
  else if bool_decide (role = "developer") then RoleDeveloper
  else if bool_decide (role ∈ ["assistant"; "model"]) then RoleAssistant
  else if bool_decide (role ∈ ["tool"; "function"]) then RoleTool
  else RoleUser.

Definition image_source (url : string) : LlmImageSource :=
  if str_starts_with "data:" url then ImageData url
  else if str_starts_with "gs://" url then ImageFile url
  else ImageUrl url.

Section Understanding.
Context `{!JsonText} `{!FloatNumbers}.

(** ** Parts *)

Definition tool_call_part (value : Value) : LlmContentPart :=
  let function := get_or_self value "function" in
  let arguments := match json_get function "arguments" with
                   | Some a => a
                   | None => default (JObject []) (json_get value "arguments")
                   end in
  let arguments := match arguments with
                   | JString raw => if str_blank raw then JObject [] else default (JString raw) (json_parse raw)
                   | v => v
                   end in
  PartToolCall (default "" (first_of value ["id"; "call_id"] ≫= as_str))
    (default "" (match json_get function "name" with Some n => Some n | None => json_get value "name" end ≫= as_str))
    arguments (first_of value ["signature"; "thoughtSignature"] ≫= as_str).

Definition parse_anthropic_image (part : Value) : option LlmContentPart :=
  source ← json_get part "source";
  image ← (if has_type source "base64" then Some (ImageData (string_field source "data"))
           else if has_type source "url" then Some (ImageUrl (string_field source "url"))
           else None);
  Some (PartImage image (get_str source "media_type") None).

Definition parse_image_url (part : Value) : option LlmContentPart :=
  let image := get_or_self part "image_url" in
  url ← (match as_str image with Some u => Some u | None => get_str image "url" end);
  Some (PartImage (image_source url) (first_of image ["mime_type"; "format"] ≫= as_str) (get_str image "detail")).

Definition parse_content_part (part : Value) : option LlmContentPart :=
  let kind := default "" (get_str part "type") in
  if bool_decide (kind ∈ ["text"; "input_text"; "output_text"]) then
    Some (PartText (string_field part "text") (first_of part ["cache_control"; "prompt_cache_breakpoint"]))
  else if bool_decide (kind ∈ ["image_url"; "input_image"]) then parse_image_url part
  else if bool_decide (kind = "image") then parse_anthropic_image part
  else if bool_decide (kind ∈ ["tool_use"; "function_call"; "custom_tool_call"]) then Some (tool_call_part part)
  else if bool_decide (kind ∈ ["tool_result"; "function_call_output"; "custom_tool_call_output"]) then
    Some (PartToolResult (default "" (first_of part ["tool_use_id"; "call_id"] ≫= as_str)) (get_str part "name")
            (default JNull (first_of part ["content"; "output"])) (json_get part "is_error" ≫= as_bool)
            (json_get part "cache_control"))
  else if bool_decide (kind ∈ ["thinking"; "reasoning"]) then
    Some (PartReasoning (first_of part ["thinking"; "text"; "summary"] ≫= value_text)
            (first_of part ["signature"; "encrypted_content"] ≫= as_str))
  else match value_text part with
       | Some text => Some (part_text text)
       | None => if bool_decide (kind = "") then None else Some (PartUnknown kind part)
       end.

Definition parse_content_parts (value : Value) : list LlmContentPart :=
  match value with
  | JString text => [part_text text]
  | JArray parts => omap parse_content_part parts
  | JObject _ => option_list (parse_content_part value)
  | _ => []
  end.

Definition parse_content (value : Value) : option (list LlmContentPart) :=
  match parse_content_parts value with [] => None | parts => Some parts end.

Definition parse_gemini_part (part : Value) : option LlmContentPart :=
  match get_str part "text" with
  | Some text =>
      Some (if bool_decide (json_get part "thought" ≫= as_bool = Some true)
            then PartReasoning (Some text) (get_str part "thoughtSignature")
            else PartText text None)
  | None =>
      match json_get part "inlineData", json_get part "fileData", json_get part "functionCall" with
      | Some data, _, _ => Some (PartImage (ImageData (string_field data "data")) (get_str data "mimeType") None)
      | None, Some file, _ => Some (PartImage (ImageFile (string_field file "fileUri")) (get_str file "mimeType") None)
      | None, None, Some call =>
          Some (PartToolCall (string_field call "id") (string_field call "name")
                  (default (JObject []) (json_get call "args")) (get_str part "thoughtSignature"))
      | None, None, None =>
          (fun response => PartToolResult (string_field response "id") (get_str response "name")
                             (default JNull (json_get response "response")) None None)
            <$> json_get part "functionResponse"
      end
  end.

Definition parse_gemini_parts (value : Value) : list LlmContentPart :=
  match value with JArray l => omap parse_gemini_part l | _ => [] end.

(** ** Messages *)

Definition message_parts (role : LlmRole) (message : Value) : list LlmContentPart :=
  let parts :=
    if decide (role = RoleTool) then
      [PartToolResult (string_field message "tool_call_id") (get_str message "name")
         (default JNull (json_get message "content")) None (json_get message "cache_control")]
    else parse_content_parts (default JNull (json_get message "content")) in
  let parts := parts ++ (tool_call_part <$> get_list message "tool_calls") in
  let parts :=
    match non_empty_str (first_of message ["reasoning_content"; "reasoning"] ≫= as_str) with
    | Some reasoning => PartReasoning (Some reasoning) (get_str message "reasoning_signature") :: parts
    | None => parts
    end in
  match json_get message "function_call" with Some call => parts ++ [tool_call_part call] | None => parts end.

(** [push_wire_message]: the message pushed, if any. *)
Definition push_wire_message (message : Value) : list LlmMessage :=
  let role := parse_role (default "user" (first_of message ["role"; "type"] ≫= as_str)) in
  match message_parts role message with
  | [] => []
  | parts => [mkLlmMessage role parts (get_str message "name") []]
  end.

(** ** Request settings *)

Definition wire_extensions (tool : Value) : LlmExtensions :=
  match tool with
  | JObject fields =>
      omap (fun kv => if bool_decide (fst kv ∈ ["type"; "name"; "description"; "input_schema"; "function"])
                      then None else Some ("wire." +:+ fst kv, snd kv)) fields
  | _ => []
  end.

Definition empty_schema : Value := JObject [("type", JString "object"); ("properties", JObject [])].

Definition parse_tool (tool : Value) : option LlmToolDefinition :=
  let function := get_or_self tool "function" in
  name ← get_str function "name";
  Some (mkLlmTool (default "function" (get_str tool "type")) name (get_str function "description")
          (default empty_schema (first_of function ["parameters"; "input_schema"]))
          (json_get function "strict" ≫= as_bool) (wire_extensions tool)).
Definition parse_tools (value : option Value) : list LlmToolDefinition :=
  match value with Some (JArray l) => omap parse_tool l | _ => [] end.

Definition parse_gemini_tool (function : Value) : option LlmToolDefinition :=
  name ← get_str function "name";
  Some (mkLlmTool "function" name (get_str function "description")
          (default empty_schema (json_get function "parameters")) None []).
Definition parse_gemini_tools (value : option Value) : list LlmToolDefinition :=
  match value with
  | Some (JArray groups) => omap parse_gemini_tool (groups ≫= fun group => get_list group "functionDeclarations")
  | _ => []
  end.

Definition choice_mode (kind : string) : LlmToolChoiceMode :=
  if bool_decide (kind ∈ ["tool"; "function"]) then ChoiceTool
  else if bool_decide (kind ∈ ["any"; "required"]) then ChoiceRequired
  else if bool_decide (kind = "none") then ChoiceNone
  else ChoiceAuto.

Definition parse_tool_choice (value : option Value) : option LlmToolChoice :=
  value ← value;
  '(mode, name) ←
    match value with
    | JString mode =>
        Some (if bool_decide (mode = "none") then ChoiceNone
              else if bool_decide (mode ∈ ["required"; "any"]) then ChoiceRequired else ChoiceAuto, None)
    | JObject _ =>
        Some (choice_mode (default "auto" (get_str value "type")),
              match json_get value "name" with
              | Some n => Some n
              | None => json_get value "function" ≫= fun f => json_get f "name"
              end ≫= as_str)
    | _ => None
    end;
  Some (mkLlmToolChoice mode name (negb <$> (json_get value "disable_parallel_tool_use" ≫= as_bool)) []).

Definition parse_gemini_tool_choice (value : option Value) : option LlmToolChoice :=
  value ← value;
  config ← json_get value "functionCallingConfig";
  let names := json_get config "allowedFunctionNames" ≫= as_array in
  let mode :=
    if bool_decide (get_str config "mode" = Some "NONE") then ChoiceNone
    else if bool_decide (get_str config "mode" = Some "ANY") then
      match names with Some [_] => ChoiceTool | _ => ChoiceRequired end
    else ChoiceAuto in
  Some (mkLlmToolChoice mode (names ≫= fun l => head l ≫= as_str) None []).

Definition number_f64 (object : Value) (keys : list string) : option JsonNumber :=
  head (omap (fun k => match json_get object k with Some (JNumber n) => Some (to_f64 n) | _ => None end) keys).
Definition number_u64 (object : Value) (keys : list string) : option Z :=
  head (omap (fun k => json_get object k ≫= as_u64) keys).

Definition parse_stop_sequences (object : Value) : list string :=
  match first_of object ["stop"; "stop_sequences"] with
  | Some (JString value) => [value]
  | Some (JArray values) => omap as_str values
  | _ => []
  end.

Definition parse_generation (object : Value) : LlmGenerationParams :=
  mkGeneration (number_f64 object ["temperature"]) (number_f64 object ["top_p"; "topP"])
    (number_u64 object ["top_k"; "topK"])
    (number_u64 object ["max_tokens"; "max_output_tokens"; "max_completion_tokens"; "maxOutputTokens"])
    (parse_stop_sequences object)
    (json_get object "seed" ≫= as_i64)
    (number_f64 object ["frequency_penalty"; "frequencyPenalty"])
    (number_f64 object ["presence_penalty"; "presencePenalty"])
    (number_u64 object ["n"; "candidateCount"])
    (not_null (first_of object ["reasoning_effort"; "reasoning"; "thinking"]))
    (json_get object "thinkingConfig" ≫= fun c => json_get c "thinkingBudget" ≫= as_i64)
    [].

Definition parse_response_format (object : Value) : option LlmResponseFormat :=
  format ← match json_get object "response_format" with
           | Some f => Some f
           | None =>
               match json_get object "text" ≫= fun t => json_get t "format" with
               | Some f => Some f
               | None => json_get object "output_config" ≫= fun c => json_get c "format"
               end
           end;
  let json_schema := get_or_self format "json_schema" in
  Some (mkResponseFormat (default "json_schema" (get_str format "type")) (get_str json_schema "name")
          (json_get json_schema "schema") (json_get json_schema "strict" ≫= as_bool) []).

Definition parse_gemini_response_format (object : Value) : option LlmResponseFormat :=
  mime ← get_str object "responseMimeType";
  Some (mkResponseFormat mime None (json_get object "responseJsonSchema") None []).

Definition EXTENSION_FIELDS : list (string * string) :=
  [("cache_control", "anthropic.cache_control"); ("thinking", "anthropic.thinking");
   ("output_config", "anthropic.output_config"); ("cachedContent", "google.cached_content");
   ("safetySettings", "google.safety_settings"); ("labels", "google.labels");
   ("parallel_tool_calls", "openai.parallel_tool_calls"); ("user", "openai.user")].
Definition selected_extensions (object : Value) : LlmExtensions :=
  omap (fun '(source, name) => (fun v => (name, v)) <$> not_null (json_get object source)) EXTENSION_FIELDS.

(** ** Requests *)

Definition base_request (object : Value) : LlmRequest :=
  mkLlmRequest (get_str object "model") [] [] (parse_tools (json_get object "tools"))
    (parse_tool_choice (json_get object "tool_choice")) (parse_generation object) (parse_response_format object)
    (default false (json_get object "stream" ≫= as_bool)) (not_null (json_get object "metadata"))
    (selected_extensions object).

(** The request with its system messages and its messages. *)
Definition with_messages (system messages : list LlmMessage) (r : LlmRequest) : LlmRequest :=
  mkLlmRequest (lq_model r) system messages (lq_tools r) (lq_tool_choice r) (lq_generation r) (lq_response_format r)
    (lq_stream r) (lq_metadata r) (lq_extensions r).

Definition parse_chat_request (object : Value) : LlmRequest :=
  with_messages [] (get_list object "messages" ≫= push_wire_message) (base_request object).

Definition parse_messages_request (object : Value) : LlmRequest :=
  with_messages
    (match parse_content (default JNull (json_get object "system")) with
     | Some parts => [message_new RoleSystem parts]
     | None => []
     end)
    (get_list object "messages" ≫= push_wire_message) (base_request object).

Definition flush_pending_calls (calls : list LlmContentPart) : list LlmMessage :=
  match calls with [] => [] | _ => [message_new RoleAssistant calls] end.

Definition responses_output (item : Value) : LlmMessage :=
  message_new RoleTool
    [PartToolResult (string_field item "call_id") (get_str item "name") (default JNull (json_get item "output"))
       (json_get item "is_error" ≫= as_bool) (json_get item "cache_control")].

Definition responses_reasoning (item : Value) : LlmMessage :=
  message_new RoleAssistant
    [PartReasoning (first_of item ["summary"; "content"] ≫= value_text) (get_str item "encrypted_content")].

(** The items of an [input] array; the calls in a row become one message. *)
Fixpoint responses_items (items : list Value) (pending : list LlmContentPart) : list LlmMessage :=
  match items with
  | [] => flush_pending_calls pending
  | item :: rest =>
      let item_type := default "" (get_str item "type") in
      if bool_decide (item_type ∈ ["function_call"; "custom_tool_call"]) then
        responses_items rest (pending ++ [tool_call_part item])
      else
        flush_pending_calls pending
        ++ (if bool_decide (item_type ∈ ["function_call_output"; "custom_tool_call_output"]) then [responses_output item]
            else if bool_decide (item_type = "reasoning") then [responses_reasoning item]
            else if bool_decide (item_type = "message") then push_wire_message item
            else match parse_content_parts item with [] => [] | parts => [message_new RoleUser parts] end)
        ++ responses_items rest []
  end.

Definition parse_responses_request (object : Value) : LlmRequest :=
  with_messages
    (match json_get object "instructions" with
     | Some instructions =>
         match parse_content_parts instructions with [] => [] | parts => [message_new RoleDeveloper parts] end
     | None => []
     end)
    (match json_get object "input" with
     | Some (JString text) => [message_new RoleUser [part_text text]]
     | Some (JArray items) => responses_items items []
     | _ => []
     end)
    (base_request object).

(** Tool calls without an id are numbered. *)
Definition name_call (name : nat -> string) (i : nat) (part : LlmContentPart) : LlmContentPart :=
  match part with
  | PartToolCall id n arguments signature =>
      PartToolCall (if bool_decide (id = "") then name i else id) n arguments signature
  | p => p
  end.

Definition gemini_message (message_index : nat) (content : Value) : list LlmMessage :=
  let role := if bool_decide (get_str content "role" = Some "model") then RoleAssistant else RoleUser in
  let parts := imap (name_call (fun i => "call-" +:+ pretty message_index +:+ "-" +:+ pretty i))
                 (parse_gemini_parts (default JNull (json_get content "parts"))) in
  match parts with [] => [] | _ => [message_new role parts] end.

Definition parse_gemini_request (object : Value) : LlmRequest :=
  let base := base_request object in
  let system :=
    match json_get object "systemInstruction" with
    | Some instruction =>
        match parse_gemini_parts (get_or_self instruction "parts") with
        | [] => []
        | parts => [message_new RoleSystem parts]
        end
    | None => []
    end in
  let '(generation, format) :=
    match json_get object "generationConfig" with
    | Some (JObject f) => (parse_generation (JObject f), parse_gemini_response_format (JObject f))
    | _ => (lq_generation base, lq_response_format base)
    end in
  mkLlmRequest (lq_model base) system (concat (imap gemini_message (get_list object "contents")))
    (parse_gemini_tools (json_get object "tools")) (parse_gemini_tool_choice (json_get object "toolConfig"))
    generation format false (lq_metadata base) (lq_extensions base).

(** [From<ProtocolKind> for LlmProtocol]. *)
Definition to_llm_protocol (protocol : ProtocolKind) : LlmProtocol :=
  match protocol with
  | ChatCompletions => PChatCompletions
  | Messages => PMessages
  | Responses => PResponses
  | Gemini => PGemini
  | _ => PUnknown
  end.

Inductive ConversionError := NotAnObject | NotJson | Unrenderable | InvalidModel | BadImage.

Definition understand_request_value (protocol : ProtocolKind) (body : Value)
  : result ConversionError LlmRequestEventPayload :=
  match body with
  | JObject _ =>
      Ok (mkRequestPayload (to_llm_protocol protocol)
            (match protocol with
             | Responses => parse_responses_request body
             | Gemini => parse_gemini_request body
             | Messages => parse_messages_request body
             | _ => parse_chat_request body
             end))
  | _ => Err NotAnObject
  end.

(** ** Responses *)

Definition first_u64 (v : Value) (keys : list string) : Z :=
  default 0%Z (head (omap (fun k => json_get v k ≫= as_u64) keys)).
Definition detail_u64 (v : Value) (details key : string) : Z :=
  default 0%Z (json_get v details ≫= fun d => json_get d key ≫= as_u64).

Definition parse_usage (v : Value) : LlmUsage :=
  let input := first_u64 v ["input_tokens"; "prompt_tokens"; "promptTokenCount"] in
  let output := first_u64 v ["output_tokens"; "completion_tokens"; "candidatesTokenCount"] in
  mkLlmUsage input output
    (Z.max (first_u64 v ["total_tokens"; "totalTokenCount"]) (u64_saturating_add input output))
    (Z.max (first_u64 v ["cache_read_input_tokens"; "cachedContentTokenCount"])
       (detail_u64 v "prompt_tokens_details" "cached_tokens"))
    (first_u64 v ["cache_creation_input_tokens"])
    (Z.max (first_u64 v ["thoughtsTokenCount"]) (detail_u64 v "completion_tokens_details" "reasoning_tokens")).

Definition chat_candidate (position : nat) (choice : Value) : LlmCandidate :=
  mkLlmCandidate (get_index choice (Z.of_nat position))
    (default (message_new RoleAssistant []) (last (push_wire_message (get_or_self choice "message"))))
    (get_str choice "finish_reason") [].

Definition parse_chat_response (object : Value) : LlmResponse :=
  mkLlmResponse (get_str object "id") (get_str object "model") (imap chat_candidate (get_list object "choices"))
    (parse_usage <$> json_get object "usage") [].

(** One candidate, if there is any part. *)
Definition sole_candidate (parts : list LlmContentPart) (finish_reason : option string) : list LlmCandidate :=
  match parts with [] => [] | _ => [mkLlmCandidate 0 (message_new RoleAssistant parts) finish_reason []] end.

Definition parse_messages_response (object : Value) : LlmResponse :=
  mkLlmResponse (get_str object "id") (get_str object "model")
    (sole_candidate (parse_content_parts (default JNull (json_get object "content"))) (get_str object "stop_reason"))
    (parse_usage <$> json_get object "usage") [].

Definition responses_item_parts (item : Value) : list LlmContentPart :=
  let kind := default "" (get_str item "type") in
  if bool_decide (kind = "message") then parse_content_parts (default JNull (json_get item "content"))
  else if bool_decide (kind ∈ ["function_call"; "custom_tool_call"]) then [tool_call_part item]
  else if bool_decide (kind = "reasoning") then
    [PartReasoning (json_get item "summary" ≫= value_text) (get_str item "encrypted_content")]
  else if bool_decide (kind = "") then [] else [PartUnknown kind item].

Definition parse_responses_response (object : Value) : LlmResponse :=
  mkLlmResponse (get_str object "id") (get_str object "model")
    (sole_candidate (get_list object "output" ≫= responses_item_parts) (get_str object "status"))
    (parse_usage <$> json_get object "usage") [].

Definition gemini_candidate (response_id : string) (position : nat) (candidate : Value) : LlmCandidate :=
  let index := get_index candidate (Z.of_nat position) in
  let parts := parse_gemini_parts
    (default JNull (json_get candidate "content" ≫= fun content => json_get content "parts")) in
  mkLlmCandidate index
    (message_new RoleAssistant
       (imap (name_call (fun i => "call_" +:+ response_id +:+ "_" +:+ pretty index +:+ "_" +:+ pretty i)) parts))
    (get_str candidate "finishReason") [].

Definition parse_gemini_response (object : Value) : LlmResponse :=
  mkLlmResponse (get_str object "responseId") (get_str object "modelVersion")
    (imap (gemini_candidate (default "gemini" (get_str object "responseId"))) (get_list object "candidates"))
    (parse_usage <$> json_get object "usageMetadata") [].

Definition understand_response_value (protocol : ProtocolKind) (body : Value)
  : result ConversionError LlmResponseEventPayload :=
  match body with
  | JObject _ =>
      Ok (mkResponsePayload (to_llm_protocol protocol)
            (match protocol with
             | Messages => parse_messages_response body
             | Responses => parse_responses_response body
             | Gemini => parse_gemini_response body
             | _ => parse_chat_response body
             end))
  | _ => Err NotAnObject
  end.

Definition understand_stream_summary (protocol : ProtocolKind) (model : string) (assistant_content : option string)
    (usage : LlmUsage) : LlmResponseEventPayload :=
  let candidates :=
    match non_empty_str assistant_content with
    | Some content => [mkLlmCandidate 0 (message_new RoleAssistant [part_text content]) None
                         [("capture.completeness", JString "visible_text")]]
    | None => []
    end in
  mkResponsePayload (to_llm_protocol protocol)
    (mkLlmResponse None (Some model) candidates (Some usage) [("capture.streaming", JBool true)]).

End Understanding.
