(* ===== verification/Conversion.v ===== *)
(** * Gateway: conversion of whole requests and responses

    [gateway/src/conversion/semantic.rs] renders the model of [Llm] in the
    protocol of a provider or a client; [conversion/mod.rs] chooses the bridge
    of a route and composes parsing and rendering; [gateway/reasoning.rs] puts
    the reasoning of earlier answers back.  The clock is an input, JSON text the
    class [JsonText]. *)

From Stdlib Require Import ZArith Lia Ascii.
From stdpp Require Import base list strings gmap numbers option pretty sorting.
From S2P Require Import Prelude IpAddr OverlayNet Json JsonLines TurnMachine Capture SessionRoute Llm TypedStream Understanding.

Definition set_field (v : Value) (key : string) (w : Value) : Value :=
  match v with JObject fields => JObject (assoc_set fields key w) | _ => v end.
Definition field_some (key : string) (o : option Value) : list (string * Value) :=
  match o with Some v => [(key, v)] | None => [] end.
Definition opt_str_field (key : string) (o : option string) : list (string * Value) := field_some key (JString <$> o).

Definition is_null (v : Value) : bool := match v with JNull => true | _ => false end.
Fixpoint remove_nulls (v : Value) : Value :=
  match v with
  | JObject fields =>
      JObject (flat_map (fun kv => if is_null (snd kv) then [] else [(fst kv, remove_nulls (snd kv))]) fields)
  | v => v
  end.

(** ** Candidates *)

Definition part_texts (parts : list LlmContentPart) : list string :=
  omap (fun p => match p with PartText text _ => Some text | _ => None end) parts.
Definition candidate_text (c : LlmCandidate) : string := concat_str (part_texts (lm_parts (lc_message c))).
Definition candidate_reasoning (c : LlmCandidate) : string :=
  concat_str (omap (fun p => match p with PartReasoning text _ => text | _ => None end) (lm_parts (lc_message c))).
Definition is_tool_call (p : LlmContentPart) : bool := match p with PartToolCall _ _ _ _ => true | _ => false end.
Definition candidate_has_tools (c : LlmCandidate) : bool := existsb is_tool_call (lm_parts (lc_message c)).

Definition wire_id (id : string) (signature : option string) : string :=
  match signature with Some s => id +:+ "__thought__" +:+ s | None => id end.

Section Conversion.
Context `{!JsonText} `{!FloatNumbers}.

Definition chat_tool_call (id name : string) (arguments : Value) (signature : option string) : Value :=
  JObject [("id", JString (wire_id id signature)); ("type", JString "function");
           ("function", JObject [("name", JString name); ("arguments", JString (json_text arguments))])].

Fixpoint chat_tool_calls (response_id : string) (index : nat) (parts : list LlmContentPart) : list Value :=
  match parts with
  | [] => []
  | PartToolCall id name arguments signature :: rest =>
      chat_tool_call (if bool_decide (id = "") then "call_" +:+ response_id +:+ "_" +:+ pretty index else id)
        name arguments signature :: chat_tool_calls response_id (S index) rest
  | _ :: rest => chat_tool_calls response_id (S index) rest
  end.
Definition candidate_tool_calls (c : LlmCandidate) (response_id : string) : list Value :=
  chat_tool_calls response_id 0 (lm_parts (lc_message c)).

(** ** Responses *)

Definition chat_message (c : LlmCandidate) (id : string) : Value :=
  let text := candidate_text c in
  let reasoning := candidate_reasoning c in
  JObject ([("role", JString "assistant")]
    ++ (if negb (bool_decide (text = "")) || negb (candidate_has_tools c) then [("content", JString text)] else [])
    ++ (if bool_decide (reasoning = "") then [] else [("reasoning_content", JString reasoning)])
    ++ match candidate_tool_calls c id with [] => [] | calls => [("tool_calls", JArray calls)] end).

Definition chat_response_choice (id : string) (c : LlmCandidate) : Value :=
  JObject [("index", int (lc_index c)); ("message", chat_message c id);
           ("finish_reason", JString (chat_finish_reason (lc_finish_reason c) (candidate_has_tools c)))].

Definition render_chat_response (now_ms now_s : Z) (r : LlmResponse) (fallback_model : string) : Value :=
  let id := default ("chatcmpl_" +:+ pretty now_ms) (lr_id r) in
  let choices := match chat_response_choice id <$> lr_candidates r with
                 | [] => [JObject [("index", int 0);
                            ("message", JObject [("role", JString "assistant"); ("content", JString "")]);
                            ("finish_reason", JString "stop")]]
                 | l => l
                 end in
  JObject ([("id", JString id); ("object", JString "chat.completion"); ("created", int now_s);
            ("model", JString fallback_model); ("choices", JArray choices)]
           ++ field_some "usage" (render_chat_usage <$> lr_usage r)).

Definition messages_block (part : LlmContentPart) : option Value :=
  match part with
  | PartText text _ =>
      if bool_decide (text = "") then None else Some (JObject [("type", JString "text"); ("text", JString text)])
  | PartReasoning text signature =>
      Some (JObject ([("type", JString "thinking"); ("thinking", JString (default "" text))]
                     ++ opt_str_field "signature" signature))
  | PartToolCall id name arguments _ =>
      Some (JObject [("type", JString "tool_use"); ("id", JString id); ("name", JString name); ("input", arguments)])
  | PartUnknown _ value => Some value
  | _ => None
  end.

Definition render_messages_response (r : LlmResponse) (fallback_model : string) : Value :=
  let candidate := head (lr_candidates r) in
  let content := match candidate with Some c => omap messages_block (lm_parts (lc_message c)) | None => [] end in
  let usage := default llm_usage_default (lr_usage r) in
  JObject [("id", JString (default "msg_proxy" (lr_id r))); ("type", JString "message"); ("role", JString "assistant");
           ("model", JString fallback_model); ("content", JArray content);
           ("stop_reason", JString (anthropic_finish_reason (candidate ≫= lc_finish_reason)
                                      (match candidate with Some c => candidate_has_tools c | None => false end)));
           ("stop_sequence", JNull);
           ("usage", JObject [("input_tokens", int (lu_input usage)); ("output_tokens", int (lu_output usage));
                              ("cache_read_input_tokens", int (lu_cache_read usage));
                              ("cache_creation_input_tokens", int (lu_cache_write usage))])].

Definition responses_part_item (suffix : string) (part_index : nat) (part : LlmContentPart) : list Value :=
  match part with
  | PartReasoning text signature =>
      [JObject ([("type", JString "reasoning"); ("id", JString ("rs_" +:+ suffix +:+ "_" +:+ pretty part_index));
                 ("summary", JArray (match text with
                                     | Some t => [JObject [("type", JString "summary_text"); ("text", JString t)]]
                                     | None => []
                                     end))]
                ++ opt_str_field "encrypted_content" signature)]
  | PartToolCall id name arguments _ =>
      let call_id := if bool_decide (id = "") then "call_" +:+ suffix +:+ "_" +:+ pretty part_index else id in
      [JObject [("type", JString "function_call"); ("id", JString call_id); ("call_id", JString call_id);
                ("name", JString name); ("arguments", JString (json_text arguments)); ("status", JString "completed")]]
  | PartUnknown _ value => [value]
  | _ => []
  end.

Definition responses_candidate_items (suffix : string) (c : LlmCandidate) : list Value :=
  let text := candidate_text c in
  (if bool_decide (text = "") then []
   else [JObject [("type", JString "message"); ("id", JString ("msg_" +:+ suffix +:+ "_" +:+ pretty (lc_index c)));
                  ("role", JString "assistant"); ("status", JString "completed");
                  ("content", JArray [JObject [("type", JString "output_text"); ("text", JString text);
                                               ("annotations", JArray [])]])]])
  ++ concat (imap (responses_part_item suffix) (lm_parts (lc_message c))).

Definition render_responses_response (now_s : Z) (r : LlmResponse) (fallback_model : string) : Value :=
  let suffix := default "proxy" (non_empty_str (safe_id_suffix <$> lr_id r)) in
  let cut := existsb (fun c => one_of (lc_finish_reason c) ["length"; "max_tokens"; "MAX_TOKENS"]) (lr_candidates r) in
  let usage := default llm_usage_default (lr_usage r) in
  JObject [("id", JString ("resp_" +:+ suffix)); ("object", JString "response"); ("created_at", int now_s);
           ("status", JString (if cut then "incomplete" else "completed")); ("model", JString fallback_model);
           ("output", JArray (lr_candidates r ≫= responses_candidate_items suffix));
           ("usage", JObject [("input_tokens", int (lu_input usage)); ("output_tokens", int (lu_output usage));
              ("total_tokens", int (lu_total usage));
              ("input_tokens_details", JObject [("cached_tokens", int (lu_cache_read usage))]);
              ("output_tokens_details", JObject [("reasoning_tokens", int (lu_reasoning usage))])])].

Definition gemini_response_part (part : LlmContentPart) : option Value :=
  match part with
  | PartText text _ => Some (JObject [("text", JString text)])
  | PartReasoning text signature =>
      Some (JObject ([("text", JString (default "" text)); ("thought", JBool true)]
                     ++ opt_str_field "thoughtSignature" signature))
  | PartToolCall _ name arguments signature =>
      Some (JObject ([("functionCall", JObject [("name", JString name); ("args", arguments)])]
                     ++ opt_str_field "thoughtSignature" signature))
  | PartUnknown _ value => Some value
  | _ => None
  end.

Definition render_gemini_response (r : LlmResponse) (fallback_model : string) : Value :=
  let candidates := (fun c =>
    JObject [("index", int (lc_index c));
             ("content", JObject [("role", JString "model");
                                  ("parts", JArray (omap gemini_response_part (lm_parts (lc_message c))))]);
             ("finishReason", JString (gemini_finish_reason (lc_finish_reason c)))]) <$> lr_candidates r in
  remove_nulls (JObject ([("responseId", opt_string (lr_id r)); ("modelVersion", JString fallback_model);
                          ("candidates", JArray candidates)]
    ++ match lr_usage r with
       | Some usage =>
           [("usageMetadata", JObject [("promptTokenCount", int (lu_input usage));
               ("candidatesTokenCount", int (lu_output usage)); ("totalTokenCount", int (lu_total usage));
               ("cachedContentTokenCount", int (lu_cache_read usage));
               ("thoughtsTokenCount", int (lu_reasoning usage))])]
       | None => []
       end)).

(** The rendered value; its text are the bytes sent. *)
Definition response_to_wire (now_ms now_s : Z) (semantic : LlmResponseEventPayload) (target : LlmProtocol)
    (client_model : string) : result ConversionError Value :=
  let r := rp_response semantic in
  match target with
  | PChatCompletions => Ok (render_chat_response now_ms now_s r client_model)
  | PMessages => Ok (render_messages_response r client_model)
  | PResponses => Ok (render_responses_response now_s r client_model)
  | PGemini => Ok (render_gemini_response r client_model)
  | PUnknown => Err Unrenderable
  end.

(** ** Requests to Chat Completions *)

(** [u32::from_str]. *)
Definition parse_u32 (s : string) : option Z :=
  match default s (str_strip_prefix "+" s) with
  | EmptyString => None
  | digits => n ← parse_digits 0 digits; if (n <? 2 ^ 32)%Z then Some n else None
  end.

Definition supports_prompt_cache_breakpoint (model : string) : bool :=
  match
    (rest ← str_strip_prefix "gpt-" model;
     version ← head (str_split 45 rest);
     '(major, minor) ← str_split_once 46 version;
     major ← parse_u32 major;
     minor ← parse_u32 minor;
     Some (major, minor))
  with
  | Some (major, minor) => (5 <? major)%Z || ((major =? 5)%Z && (6 <=? minor)%Z)
  | None => false
  end.

Definition supports_reasoning_with_tools (model : string) : bool :=
  negb (str_starts_with "gpt-" model) || bool_decide (model = "gpt-5") || str_starts_with "gpt-5-" model
  || str_starts_with "gpt-5.1" model || str_starts_with "gpt-5.2" model.

Definition extension (key : string) (e : LlmExtensions) : option Value := assoc_get e key.

Definition anthropic_reasoning_effort (r : LlmRequest) (model : string) : option string :=
  thinking ← extension "anthropic.thinking" (lq_extensions r);
  if negb (has_type thinking "adaptive") then None
  else if negb (bool_decide (lq_tools r = [])) && negb (supports_reasoning_with_tools model) then Some "none"
  else Some (default "high" (extension "anthropic.output_config" (lq_extensions r) ≫= fun c => get_str c "effort")).

Definition breakpoint_field : list (string * Value) :=
  [("prompt_cache_breakpoint", JObject [("mode", JString "explicit")])].

Definition image_url_of (image : LlmImageSource) (media_type : option string) : string :=
  match image with
  | ImageUrl url => url
  | ImageFile uri => uri
  | ImageData data =>
      if str_starts_with "data:" data then data
      else "data:" +:+ default "application/octet-stream" media_type +:+ ";base64," +:+ data
  end.

Definition render_content_part (source : LlmProtocol) (prompt_cache : bool) (part : LlmContentPart) : option Value :=
  match part with
  | PartText text cache_control =>
      Some (if decide (source = PResponses) then JString text
            else JObject ([("type", JString "text"); ("text", JString text)]
                          ++ if prompt_cache && bool_decide (is_Some cache_control) then breakpoint_field else []))
  | PartImage image media_type detail =>
      Some (JObject [("type", JString "image_url");
                     ("image_url", JObject ([("url", JString (image_url_of image media_type))]
                                            ++ opt_str_field "detail" detail))])
  | PartUnknown _ value => Some value
  | _ => None
  end.

Definition parse_tool_result_part (prompt_cache : bool) (part : Value) : option Value :=
  text ← get_str part "text";
  Some (JObject ([("type", JString "text"); ("text", JString text)]
                 ++ if prompt_cache && bool_decide (is_Some (json_get part "cache_control")) then breakpoint_field else [])).

Definition is_object (v : Value) : bool := match v with JObject _ => true | _ => false end.
Definition object_at (v : Value) (key : string) : bool :=
  match json_get v key with Some w => is_object w | None => false end.

(** [rendered.last_mut()] gets the field, or an empty text with it is pushed. *)
Fixpoint mark_last (rendered : list Value) : list Value :=
  match rendered with
  | [] => [JObject ([("type", JString "text"); ("text", JString "")] ++ breakpoint_field)]
  | [v] => [set_field v "prompt_cache_breakpoint" (JObject [("mode", JString "explicit")])]
  | v :: rest => v :: mark_last rest
  end.

Definition render_tool_result (source : LlmProtocol) (prompt_cache : bool) (content : Value)
    (outer_cache : option Value) : Value :=
  if decide (source = PResponses) then content
  else
    let outer := prompt_cache && match outer_cache with Some v => is_object v | None => false end in
    match content with
    | JString text =>
        if outer then JArray [JObject ([("type", JString "text"); ("text", JString text)] ++ breakpoint_field)]
        else content
    | JArray parts =>
        let trailing := outer || (prompt_cache
          && existsb (fun p => negb (has_type p "text") && object_at p "cache_control") parts) in
        let rendered := omap (parse_tool_result_part prompt_cache) parts in
        JArray (if trailing then mark_last rendered else rendered)
    | v => v
    end.

Definition tool_message (source : LlmProtocol) (prompt_cache : bool) (call_id : string) (name : option string)
    (content : Value) (cache_control : option Value) : Value :=
  JObject ([("role", JString "tool"); ("tool_call_id", JString call_id);
            ("content", render_tool_result source prompt_cache content cache_control)] ++ opt_str_field "name" name).

Definition role_name (role : LlmRole) : string :=
  match role with
  | RoleSystem | RoleDeveloper => "system"
  | RoleAssistant => "assistant"
  | RoleTool => "tool"
  | RoleUser => "user"
  end.

Definition regular_message (source : LlmProtocol) (message : LlmMessage) (regular calls : list Value) : Value :=
  JObject ([("role", JString (role_name (lm_role message)))]
    ++ (match regular, calls with
        | _ :: _, _ => [("content", JArray regular)]
        | [], _ :: _ => if decide (source = PResponses) then [("content", JNull)] else []
        | [], [] => []
        end)
    ++ (match calls with [] => [] | _ => [("tool_calls", JArray calls)] end)
    ++ opt_str_field "name" (lm_name message)).

Definition flush_regular_message (source : LlmProtocol) (message : LlmMessage) (regular calls : list Value) : list Value :=
  if bool_decide (regular = []) && bool_decide (calls = []) then []
  else if decide (source = PResponses) then
    ((fun content => JObject [("role", JString (role_name (lm_role message))); ("content", content)]) <$> regular)
    ++ (match calls with [] => [] | _ => [regular_message source message [] calls] end)
  else [regular_message source message regular calls].

Fixpoint render_parts (source : LlmProtocol) (prompt_cache : bool) (message : LlmMessage)
    (parts : list LlmContentPart) (regular calls : list Value) : list Value :=
  match parts with
  | [] => flush_regular_message source message regular calls
  | PartToolResult call_id name content _ cache_control :: rest =>
      flush_regular_message source message regular calls
      ++ tool_message source prompt_cache call_id name content cache_control
      :: render_parts source prompt_cache message rest [] []
  | PartToolCall id name arguments signature :: rest =>
      render_parts source prompt_cache message rest regular (calls ++ [chat_tool_call id name arguments signature])
  | part :: rest =>
      render_parts source prompt_cache message rest
        (regular ++ option_list (render_content_part source prompt_cache part)) calls
  end.

Definition render_message (source : LlmProtocol) (prompt_cache : bool) (message : LlmMessage) : list Value :=
  if decide (lm_role message = RoleTool) then
    omap (fun part => match part with
                      | PartToolResult call_id name content _ cache_control =>
                          Some (tool_message source prompt_cache call_id name content cache_control)
                      | _ => None
                      end) (lm_parts message)
  else render_parts source prompt_cache message (lm_parts message) [] [].

Definition number_field (key : string) (o : option JsonNumber) : list (string * Value) := field_some key (JNumber <$> o).
Definition int_field (key : string) (o : option Z) : list (string * Value) := field_some key (int <$> o).
Definition bool_field (key : string) (o : option bool) : list (string * Value) := field_some key (JBool <$> o).

Definition chat_tool (tool : LlmToolDefinition) : Value :=
  JObject [("type", JString "function");
           ("function", JObject ([("name", JString (lt_name tool)); ("description", opt_string (lt_description tool));
                                  ("parameters", lt_input_schema tool)] ++ bool_field "strict" (lt_strict tool)))].

Definition chat_tool_choice (choice : LlmToolChoice) : Value :=
  match tc_mode choice with
  | ChoiceAuto => JString "auto"
  | ChoiceNone => JString "none"
  | ChoiceRequired => JString "required"
  | ChoiceTool => JObject [("type", JString "function");
                           ("function", JObject [("name", JString (default "" (tc_name choice)))])]
  end.

Definition function_tools (r : LlmRequest) : list LlmToolDefinition :=
  filter (fun tool => lt_kind tool = "function") (lq_tools r).

Definition chat_tool_fields (r : LlmRequest) : list (string * Value) :=
  (match lq_tools r with [] => [] | _ => [("tools", JArray (chat_tool <$> function_tools r))] end)
  ++ match lq_tool_choice r with
     | Some choice => [("tool_choice", chat_tool_choice choice)] ++ bool_field "parallel_tool_calls" (tc_parallel choice)
     | None => bool_field "parallel_tool_calls" (extension "openai.parallel_tool_calls" (lq_extensions r) ≫= as_bool)
     end.

Definition chat_response_format (format : LlmResponseFormat) : list (string * Value) :=
  match rf_schema format with
  | Some schema =>
      [("response_format", remove_nulls (JObject [("type", JString "json_schema");
          ("json_schema", JObject [("name", JString (default "structured_output" (rf_name format)));
             ("schema", schema); ("strict", match rf_strict format with Some b => JBool b | None => JNull end)])]))]
  | None =>
      if bool_decide (rf_kind format ∈ ["json_object"; "text"])
      then [("response_format", JObject [("type", JString (rf_kind format))])] else []
  end.

Definition chat_limit_fields (source : LlmProtocol) (g : LlmGenerationParams) : list (string * Value) :=
  match lg_max_output_tokens g with
  | Some max => [(if decide (source = PMessages) then "max_completion_tokens" else "max_tokens", int max)]
  | None => if decide (source = PMessages) then [("max_completion_tokens", int 1024)] else []
  end.

Definition chat_messages (source : LlmProtocol) (r : LlmRequest) (upstream_model : string) : list Value :=
  (lq_system r ++ lq_messages r) ≫= render_message source (supports_prompt_cache_breakpoint upstream_model).

Definition render_chat_completions (r : LlmRequest) (source : LlmProtocol) (upstream_model : string) : Value :=
  let g := lq_generation r in
  JObject ([("model", JString upstream_model); ("messages", JArray (chat_messages source r upstream_model));
            ("stream", JBool (lq_stream r))]
    ++ (if lq_stream r then [("stream_options", JObject [("include_usage", JBool true)])] else [])
    ++ number_field "temperature" (lg_temperature g) ++ number_field "top_p" (lg_top_p g)
    ++ int_field "seed" (lg_seed g)
    ++ number_field "frequency_penalty" (lg_frequency_penalty g)
    ++ number_field "presence_penalty" (lg_presence_penalty g)
    ++ int_field "n" (lg_candidate_count g)
    ++ chat_limit_fields source g
    ++ (match lg_stop_sequences g with [] => [] | l => [("stop", JArray (JString <$> l))] end)
    ++ chat_tool_fields r
    ++ (match lq_response_format r with Some format => chat_response_format format | None => [] end)
    ++ (if decide (source = PMessages) then
          opt_str_field "reasoning_effort" (anthropic_reasoning_effort r upstream_model)
          ++ field_some "user" (lq_metadata r ≫= fun m => json_get m "user_id")
        else [])).

(** *** Reasoning of earlier answers *)

Record ReasoningCache := mkReasoningCache { rc_by_tool_call : gmap string string }.

Definition remember_reasoning (tool_call_ids : list string) (reasoning : string) (c : ReasoningCache) : ReasoningCache :=
  if bool_decide (reasoning = "") then c
  else mkReasoningCache
         (foldl (fun m id => if bool_decide (id = "") then m else <[id := reasoning]> m) (rc_by_tool_call c) tool_call_ids).

Definition cached_reasoning (c : ReasoningCache) (calls : list Value) : option string :=
  head (omap (fun tc => id ← get_str tc "id"; rc_by_tool_call c !! id) calls).

Definition fixup_message (c : ReasoningCache) (message : Value) : Value :=
  match message with
  | JObject fields =>
      if bool_decide (get_str message "role" = Some "assistant") then
        match json_get message "tool_calls" with
        | Some (JArray ((_ :: _) as calls)) =>
            if bool_decide (is_Some (non_empty_str (get_str message "reasoning_content"))) then message
            else match cached_reasoning c calls with
                 | Some reasoning => JObject (assoc_set fields "reasoning_content" (JString reasoning))
                 | None =>
                     match assoc_get fields "reasoning_content" with
                     | Some _ => message
                     | None => JObject (assoc_set fields "reasoning_content" (JString ""))
                     end
                 end
        | _ => message
        end
      else message
  | _ => message
  end.

Definition request_to_chat_completions (semantic : LlmRequestEventPayload) (upstream_model : string)
    (reasoning_cache : option ReasoningCache) : Value :=
  let rendered := render_chat_completions (qp_request semantic) (qp_input_format semantic) upstream_model in
  match reasoning_cache with
  | Some cache =>
      if decide (qp_input_format semantic = PResponses) then
        match json_get rendered "messages" with
        | Some (JArray messages) => set_field rendered "messages" (JArray (fixup_message cache <$> messages))
        | _ => rendered
        end
      else rendered
  | None => rendered
  end.

End Conversion.
