(* ===== verification/ConversionText.v ===== *)
(** * Gateway: what a converted request or response says

    Reading what [Conversion] renders as a provider does.  A request rendered
    for Chat Completions has the texts, the tool calls and the tool results of
    the request that was understood, in order and with their roles. *)

From Stdlib Require Import ZArith Lia Ascii.
From stdpp Require Import base list strings gmap numbers option pretty sorting.
From S2P Require Import Prelude Json JsonLines TurnMachine Capture SessionRoute Llm TypedStream StreamChunks StreamText Understanding Conversion.

(** ** What a conversation says *)

(** The texts with the role that said them; the tool calls made, under the id
    that goes on the wire; the results with the call they answer.  A tool only
    answers. *)
Definition message_said (m : LlmMessage) : list (string * string) :=
  if decide (lm_role m = RoleTool) then [] else pair (role_name (lm_role m)) <$> part_texts (lm_parts m).
Definition part_call (p : LlmContentPart) : option (string * string * Value) :=
  match p with PartToolCall id name arguments signature => Some (wire_id id signature, name, arguments) | _ => None end.
Definition message_called (m : LlmMessage) : list (string * string * Value) :=
  if decide (lm_role m = RoleTool) then [] else omap part_call (lm_parts m).
Definition part_answer (p : LlmContentPart) : option (string * Value) :=
  match p with PartToolResult call_id _ content _ _ => Some (call_id, content) | _ => None end.
Definition message_answered (m : LlmMessage) : list (string * Value) := omap part_answer (lm_parts m).

(** A tool call without its id; a part the gateway has a canonical form for. *)
Definition part_request (p : LlmContentPart) : option (string * Value) :=
  match p with PartToolCall _ name arguments _ => Some (name, arguments) | _ => None end.
Definition known_part (p : LlmContentPart) : Prop := match p with PartUnknown _ _ => False | _ => True end.

Section Readback.
Context {JT : JsonText} {JK : JsonTokens} {FN : FloatNumbers}.

(** ** What a provider reads

    The [messages] of a Chat Completions request, as the protocol has them. *)

(** The text of a content: a string, or the text blocks of a list. *)
Definition block_text (v : Value) : option string := if has_type v "text" then get_str v "text" else None.
Definition content_texts (v : Value) : list string :=
  match v with JString text => [text] | JArray blocks => omap block_text blocks | _ => [] end.

(** An entry of [tool_calls]: id, function name, arguments as a JSON text.  What
    is missing reads as [None]. *)
Definition WireCall : Type := option string * option string * option Value.
Definition chat_wire_call (call : Value) : WireCall :=
  let function := default JNull (json_get call "function") in
  (get_str call "id", get_str function "name", get_str function "arguments" ≫= json_parse).

Definition is_tool_message (v : Value) : Prop := get_str v "role" = Some "tool".
Definition wire_said (v : Value) : list (string * string) :=
  if decide (is_tool_message v) then []
  else pair (default "" (get_str v "role")) <$> content_texts (default JNull (json_get v "content")).
Definition wire_called (v : Value) : list WireCall :=
  if decide (is_tool_message v) then [] else chat_wire_call <$> get_list v "tool_calls".
Definition wire_answered (v : Value) : list (option string * Value) :=
  if decide (is_tool_message v) then [(get_str v "tool_call_id", default JNull (json_get v "content"))] else [].

(** A call as it was understood, on the wire. *)
Definition sent_call (call : string * string * Value) : WireCall :=
  let '(id, name, arguments) := call in (Some id, Some name, Some arguments).

(** What a result says: a list is its texts, apart from empty ones. *)
Definition result_reading (v : Value) : list string + Value :=
  match v with
  | JString text => inl (filter (fun t => t <> "") [text])
  | JArray blocks => inl (filter (fun t => t <> "") (omap (fun b => get_str b "text") blocks))
  | v => inr v
  end.
(** A result on the wire: that of a Responses request is sent as it is. *)
Definition result_kept (source : LlmProtocol) (understood : string * Value) (sent : option string * Value) : Prop :=
  fst sent = Some (fst understood)
  /\ if decide (source = PResponses) then snd sent = snd understood
     else result_reading (snd sent) = result_reading (snd understood).


(** A part without a canonical form reads back as itself. *)
Definition part_wf (p : LlmContentPart) : Prop :=
  match p with PartUnknown _ v => parse_content_part v = Some p | _ => True end.
Definition message_wf (m : LlmMessage) : Prop := Forall part_wf (lm_parts m).

Lemma parse_content_part_wf v p : parse_content_part v = Some p -> part_wf p.
Proof.
  intros Hp. pose proof Hp as Hp'. unfold parse_content_part in Hp.
  repeat case_bool_decide; try (injection Hp as <-; exact I).
  - unfold parse_image_url in Hp. destruct (as_str _); simpl in Hp; [by injection Hp as <-|].
    destruct (get_str _ "url"); simpl in Hp; [by injection Hp as <-|done].
  - unfold parse_anthropic_image in Hp. destruct (json_get v "source") as [s|]; [|done]. simpl in Hp.
    destruct (has_type s "base64"); [by injection Hp as <-|]. destruct (has_type s "url"); [by injection Hp as <-|done].
  - destruct (value_text v); [by injection Hp as <-|done].
  - destruct (value_text v); [by injection Hp as <-|]. injection Hp as <-. exact Hp'.
Qed.

Lemma parse_content_parts_wf v : Forall part_wf (parse_content_parts v).
Proof.
  destruct v as [| | |s|l|f]; simpl; try done; [by repeat constructor| |].
  - apply Forall_forall. intros p (v & _ & Hv)%list_elem_of_omap. by apply parse_content_part_wf in Hv.
  - destruct (parse_content_part (JObject f)) as [p|] eqn:Hp; [|done]. constructor; [|done].
    by apply parse_content_part_wf in Hp.
Qed.

Lemma tool_call_part_is v : exists id name arguments signature, tool_call_part v = PartToolCall id name arguments signature.
Proof. unfold tool_call_part. eauto. Qed.

Lemma tool_call_part_wf v : part_wf (tool_call_part v).
Proof. by destruct (tool_call_part_is v) as (? & ? & ? & ? & ->). Qed.

Lemma message_parts_wf role v : Forall part_wf (message_parts role v).
Proof.
  unfold message_parts.
  assert (H1 : Forall part_wf ((if decide (role = RoleTool) then
      [PartToolResult (string_field v "tool_call_id") (get_str v "name")
         (default JNull (json_get v "content")) None (json_get v "cache_control")]
    else parse_content_parts (default JNull (json_get v "content"))) ++ (tool_call_part <$> get_list v "tool_calls"))).
  { apply Forall_app. split; [destruct (decide _); [by repeat constructor|apply parse_content_parts_wf]|].
    apply Forall_fmap, Forall_true. intros x. apply tool_call_part_wf. }
  set (parts := _ ++ _) in *. destruct (non_empty_str _);
    (destruct (json_get v "function_call"); [apply Forall_app; split; [|constructor; [apply tool_call_part_wf|done]]|]);
    by try constructor.
Qed.

Lemma push_wire_message_wf v : Forall message_wf (push_wire_message v).
Proof.
  unfold push_wire_message. set (role := parse_role _). pose proof (message_parts_wf role v) as Hp.
  destruct (message_parts role v); [done|]. by constructor.
Qed.

Lemma messages_bind_wf {A} (f : A -> list LlmMessage) l :
  (forall x, Forall message_wf (f x)) -> Forall message_wf (l ≫= f).
Proof. intros Hf. apply Forall_bind, Forall_true. auto. Qed.

Lemma flush_pending_wf calls : Forall part_wf calls -> Forall message_wf (flush_pending_calls calls).
Proof. intros Hc. destruct calls; [done|]. by constructor. Qed.

Lemma responses_items_wf items pending :
  Forall part_wf pending -> Forall message_wf (responses_items items pending).
Proof.
  revert pending. induction items as [|item l IH]; intros pending Hp; simpl; [by apply flush_pending_wf|].
  case_bool_decide; [apply IH, Forall_app; split; [done|by constructor; [apply tool_call_part_wf|]]|].
  apply Forall_app. split; [by apply flush_pending_wf|]. apply Forall_app. split; [|by apply IH].
  repeat case_bool_decide; [by repeat constructor..|apply push_wire_message_wf|].
  pose proof (parse_content_parts_wf item). destruct (parse_content_parts item); [done|]. by constructor.
Qed.

Lemma parse_gemini_part_wf v p : parse_gemini_part v = Some p -> part_wf p.
Proof.
  unfold parse_gemini_part. destruct (get_str v "text"); [intros [= <-]; by case_bool_decide|].
  destruct (json_get v "inlineData"); [by intros [= <-]|]. destruct (json_get v "fileData"); [by intros [= <-]|].
  destruct (json_get v "functionCall"); [by intros [= <-]|]. destruct (json_get v "functionResponse"); by intros [= <-].
Qed.

Lemma parse_gemini_parts_wf v : Forall part_wf (parse_gemini_parts v).
Proof.
  destruct v; simpl; try done. apply Forall_forall. intros p (w & _ & Hw)%list_elem_of_omap.
  by apply parse_gemini_part_wf in Hw.
Qed.

Lemma name_call_wf f i p : part_wf p -> part_wf (name_call f i p).
Proof. by destruct p. Qed.

Lemma imap_Forall {A B} (P : B -> Prop) (f : nat -> A -> B) l : (forall i x, x ∈ l -> P (f i x)) -> Forall P (imap f l).
Proof.
  revert f. induction l as [|x l IH]; intros f Hf; simpl; constructor; [apply Hf; left|].
  apply IH. intros i y Hy. apply Hf. by right.
Qed.

Lemma gemini_message_wf i v : Forall message_wf (gemini_message i v).
Proof.
  unfold gemini_message. destruct (imap _ _) as [|p l] eqn:Hl; [done|]. constructor; [|done]. red. simpl. rewrite <- Hl.
  apply imap_Forall. intros j x Hx. apply name_call_wf. pose proof (parse_gemini_parts_wf
    (default JNull (json_get v "parts"))) as Hw. rewrite Forall_forall in Hw. by apply Hw.
Qed.

(** Whatever the protocol, what is understood is well formed. *)
Lemma understood_wf protocol body payload :
  understand_request_value protocol body = Ok payload ->
  Forall message_wf (lq_system (qp_request payload) ++ lq_messages (qp_request payload)).
Proof.
  destruct body as [| | | | |fields]; try done. intros [= <-]. cbn [qp_request].
  generalize (JObject fields) as body. intros body.
  assert (Hchat : Forall message_wf (lq_system (parse_chat_request body) ++ lq_messages (parse_chat_request body))).
  { apply messages_bind_wf, push_wire_message_wf. }
  destruct protocol; try exact Hchat; apply Forall_app.
  - split; [|apply messages_bind_wf, push_wire_message_wf]. simpl. unfold parse_content.
    pose proof (parse_content_parts_wf (default JNull (json_get body "system"))) as Hw.
    destruct (parse_content_parts _); [done|]. by constructor.
  - split; simpl.
    + destruct (json_get body "instructions") as [v|]; [|done]. pose proof (parse_content_parts_wf v).
      destruct (parse_content_parts v); [done|]. by constructor.
    + destruct (json_get body "input") as [[| | |s|l|f]|]; try done; [by repeat constructor|].
      by apply responses_items_wf.
  - unfold parse_gemini_request.
    destruct (match json_get body "generationConfig" with
              | Some (JObject f) => _ | _ => _ end) as [g f]. simpl. split.
    + destruct (json_get body "systemInstruction") as [v|]; [|done]. pose proof (parse_gemini_parts_wf (get_or_self v "parts")).
      destruct (parse_gemini_parts _); [done|]. by constructor.
    + apply Forall_concat. apply imap_Forall. intros i x _. apply gemini_message_wf.
Qed.

Lemma omap_cons {A B} (f : A -> option B) x l :
  omap f (x :: l) = match f x with Some y => y :: omap f l | None => omap f l end.
Proof. done. Qed.

Lemma part_texts_app l1 l2 : part_texts (l1 ++ l2) = part_texts l1 ++ part_texts l2.
Proof. apply omap_app. Qed.

Lemma json_text_reads v : json_parse (json_text v) = Some v.
Proof. pose proof (json_text_parse v) as Hp. by rewrite json_text_trim in Hp. Qed.

(** One message of some parts, or none. *)
Definition message_if (role : LlmRole) (parts : list LlmContentPart) (name : option string) : list LlmMessage :=
  match parts with [] => [] | _ => [mkLlmMessage role parts name []] end.

Lemma push_wire_message_if v role :
  parse_role (default "user" (first_of v ["role"; "type"] ≫= as_str)) = role ->
  push_wire_message v = message_if role (message_parts role v) (get_str v "name").
Proof. intros Hr. unfold push_wire_message. rewrite Hr. by destruct (message_parts role v). Qed.

Lemma chat_tool_call_read id name arguments signature :
  tool_call_part (chat_tool_call id name arguments signature) = PartToolCall (wire_id id signature) name arguments None.
Proof. unfold tool_call_part, chat_tool_call. simpl. by rewrite json_text_not_blank, json_text_reads. Qed.

(** ** Rendered parts *)

Lemma chat_wire_call_sent id name arguments signature :
  chat_wire_call (chat_tool_call id name arguments signature) = sent_call (wire_id id signature, name, arguments).
Proof. unfold chat_wire_call, chat_tool_call, sent_call. simpl. by rewrite json_text_reads. Qed.

(** A rendered part is a block of a list, or the content itself of a message
    of a Responses request. *)
Definition rendered_texts (source : LlmProtocol) (v : Value) : list string :=
  if decide (source = PResponses) then content_texts v else option_list (block_text v).

Lemma unknown_part_silent kind v : parse_content_part v = Some (PartUnknown kind v) -> block_text v = None /\ content_texts v = [].
Proof.
  intros Hv. assert (Hobj : exists f, v = JObject f).
  { assert (Hscalar : json_get v "type" = None -> parse_content_part v = part_text <$> value_text v).
    { intros Ht. unfold parse_content_part, get_str. rewrite Ht. simpl. by destruct (value_text v). }
    destruct v; try (rewrite Hscalar in Hv by done; destruct (value_text _); done). eauto. }
  destruct Hobj as [f ->]. split; [|done]. unfold block_text, has_type. case_bool_decide as Ht; [|done].
  unfold parse_content_part in Hv. rewrite Ht in Hv. done.
Qed.

Lemma rendered_part_texts source prompt_cache p :
  part_wf p -> part_call p = None -> part_answer p = None ->
  option_list (render_content_part source prompt_cache p) ≫= rendered_texts source = part_texts [p].
Proof.
  intros Hwf Hc Ha. unfold rendered_texts. destruct p as [text cache|image media detail|text sig|id name args sig|c n co e ca|kind value];
    try done; simpl.
  - destruct (decide (source = PResponses)); [done|]. by destruct (prompt_cache && _).
  - by destruct (decide (source = PResponses)).
  - destruct (unknown_part_silent _ _ Hwf) as [H1 H2]. destruct (decide (source = PResponses)); simpl; by rewrite ?H1, ?H2.
Qed.

(** *** Messages *)

Lemma role_name_tool role : role <> RoleTool -> role_name role <> "tool".
Proof. by destruct role. Qed.

Lemma omap_option_list {A B} (f : A -> option B) l : omap f l = l ≫= (fun x => option_list (f x)).
Proof. induction l as [|x l IH]; [done|]. rewrite omap_cons, bind_cons, <- IH. by destruct (f x). Qed.

(** What a wire message says. *)
Definition said_by (l : list Value) := (l ≫= wire_said, l ≫= wire_called, l ≫= wire_answered).

Lemma said_by_inv l a b c : said_by l = (a, b, c) -> l ≫= wire_said = a /\ l ≫= wire_called = b /\ l ≫= wire_answered = c.
Proof. unfold said_by. by intros [= <- <- <-]. Qed.

Lemma regular_message_says source m regular calls :
  lm_role m <> RoleTool ->
  said_by [regular_message source m regular calls]
  = (pair (role_name (lm_role m)) <$> omap block_text regular, chat_wire_call <$> calls, []).
Proof.
  intros Hr%role_name_tool. set (v := regular_message source m regular calls).
  assert (Hrole : get_str v "role" = Some (role_name (lm_role m))) by done.
  assert (Hnot : ~ is_tool_message v) by (unfold is_tool_message; rewrite Hrole; congruence).
  assert (Hcontent : content_texts (default JNull (json_get v "content")) = omap block_text regular).
  { unfold v, regular_message. destruct regular, calls; simpl; by destruct (lm_name m), (decide (source = PResponses)). }
  assert (Hcalls : get_list v "tool_calls" = calls).
  { unfold v, regular_message, get_list. destruct regular, calls; simpl; by destruct (lm_name m), (decide (source = PResponses)). }
  unfold said_by. cbn [mbind list_bind]. unfold wire_said, wire_called, wire_answered.
  rewrite !(decide_False (P := is_tool_message v)) by done. by rewrite !app_nil_r, Hrole, Hcontent, Hcalls.
Qed.

Lemma content_message_says role content :
  role <> RoleTool ->
  said_by [JObject [("role", JString (role_name role)); ("content", content)]]
  = (pair (role_name role) <$> content_texts content, [], []).
Proof.
  intros Hr%role_name_tool. unfold said_by. cbn [mbind list_bind]. unfold wire_said, wire_called, wire_answered.
  rewrite !decide_False by (unfold is_tool_message, get_str; simpl; congruence). by rewrite !app_nil_r.
Qed.

Definition said_app {A B C} (x y : list A * list B * list C) : list A * list B * list C :=
  (fst (fst x) ++ fst (fst y), snd (fst x) ++ snd (fst y), snd x ++ snd y).

Lemma said_by_app l1 l2 : said_by (l1 ++ l2) = said_app (said_by l1) (said_by l2).
Proof. unfold said_by, said_app. simpl. by rewrite !bind_app. Qed.

Lemma flush_says source m regular calls :
  lm_role m <> RoleTool ->
  said_by (flush_regular_message source m regular calls)
  = (pair (role_name (lm_role m)) <$> (regular ≫= rendered_texts source), chat_wire_call <$> calls, []).
Proof.
  intros Hr. unfold flush_regular_message, rendered_texts.
  destruct (bool_decide (regular = []) && bool_decide (calls = [])) eqn:He.
  { apply andb_prop in He as [->%bool_decide_eq_true ->%bool_decide_eq_true]. done. }
  clear He. destruct (decide (source = PResponses)) as [->|Hs].
  - rewrite said_by_app. assert (Hcalls : said_by (match calls with [] => [] | _ => [regular_message PResponses m [] calls] end)
                                          = ([], chat_wire_call <$> calls, [])).
    { destruct calls; [done|]. by rewrite regular_message_says. }
    rewrite Hcalls. induction regular as [|v l IH]; [done|]. rewrite fmap_cons, bind_cons.
    change (?x :: ?y) with ([x] ++ y) at 1. rewrite said_by_app, content_message_says by done.
    unfold said_app in *. cbn [fst snd] in *. simplify_eq/=. rewrite fmap_app. f_equal; [|done].
    rewrite !app_nil_r in *. by repeat f_equal.
  - rewrite regular_message_says by done. by rewrite omap_option_list.
Qed.

(** *** Results *)

Lemma mark_last_texts rendered :
  filter (fun t => t <> "") (omap (fun b => get_str b "text") (mark_last rendered))
  = filter (fun t => t <> "") (omap (fun b => get_str b "text") rendered).
Proof.
  induction rendered as [|v [|w l] IH]; [done| |].
  - cbn [mark_last]. rewrite !omap_cons. assert (get_str (set_field v "prompt_cache_breakpoint" (JObject [("mode", JString "explicit")])) "text"
      = get_str v "text") as ->; [|done].
    destruct v; try done. unfold set_field, get_str, json_get. by rewrite assoc_get_set, decide_False.
  - change (mark_last (v :: w :: l)) with (v :: mark_last (w :: l)). rewrite !(omap_cons _ v). destruct (get_str v "text"); [rewrite !filter_cons|]; by rewrite IH.
Qed.

Lemma tool_result_blocks prompt_cache (parts : list Value) :
  omap (fun b => get_str b "text") (omap (parse_tool_result_part prompt_cache) parts) = omap (fun b => get_str b "text") parts.
Proof.
  induction parts as [|p l IH]; [done|]. rewrite !(omap_cons _ p l). unfold parse_tool_result_part at 1.
  destruct (get_str p "text") as [t|]; [|done]. cbn [mbind option_bind]. rewrite omap_cons, IH. by destruct (prompt_cache && _).
Qed.

Lemma tool_message_answers source prompt_cache call_id name content cache :
  exists sent, said_by [tool_message source prompt_cache call_id name content cache] = ([], [], [sent])
  /\ result_kept source (call_id, content) sent.
Proof.
  set (v := tool_message _ _ _ _ _ _). exists (Some call_id, render_tool_result source prompt_cache content cache).
  assert (Htool : is_tool_message v) by done. split.
  - unfold said_by. cbn [mbind list_bind]. unfold wire_said, wire_called, wire_answered.
    by rewrite !(decide_True (P := is_tool_message v)) by done.
  - split; [done|]. unfold render_tool_result. cbn [snd]. destruct (decide (source = PResponses)); [done|].
    destruct content as [| | |text|parts|fields]; try done.
    + by destruct (prompt_cache && _).
    + simpl. f_equal. destruct (_ || _); rewrite ?mark_last_texts; by rewrite tool_result_blocks.
Qed.

(** *** A whole message *)

Lemma render_parts_says source prompt_cache m parts regular calls :
  lm_role m <> RoleTool -> Forall part_wf parts ->
  let sent := render_parts source prompt_cache m parts regular calls in
  sent ≫= wire_said = pair (role_name (lm_role m)) <$> ((regular ≫= rendered_texts source) ++ part_texts parts)
  /\ sent ≫= wire_called = (chat_wire_call <$> calls) ++ (sent_call <$> omap part_call parts)
  /\ Forall2 (result_kept source) (omap part_answer parts) (sent ≫= wire_answered).
Proof.
  intros Hr Hwf. revert regular calls. induction Hwf as [|p l Hp Hl IH]; intros regular calls; cbn [render_parts].
  { destruct (said_by_inv _ _ _ _ (flush_says source m regular calls Hr)) as (H1 & H2 & H3). simpl. rewrite H1, H2, H3, !app_nil_r. done. }
  assert (Hregular : part_call p = None -> part_answer p = None ->
    let sent := render_parts source prompt_cache m l (regular ++ option_list (render_content_part source prompt_cache p)) calls in
    sent ≫= wire_said = pair (role_name (lm_role m)) <$> ((regular ≫= rendered_texts source) ++ part_texts (p :: l))
    /\ sent ≫= wire_called = (chat_wire_call <$> calls) ++ (sent_call <$> omap part_call (p :: l))
    /\ Forall2 (result_kept source) (omap part_answer (p :: l)) (sent ≫= wire_answered)).
  { intros Hc Ha. destruct (IH (regular ++ option_list (render_content_part source prompt_cache p)) calls) as (H1 & H2 & H3).
    rewrite !(omap_cons _ p l), Hc, Ha. split; [|done]. rewrite H1, bind_app, rendered_part_texts by done.
    by rewrite <- app_assoc, <- (part_texts_app [p] l). }
  destruct p as [text cache|image media detail|text sig|id name args sig|call_id name content err cache|kind value];
    try (by apply Hregular).
  - destruct (IH regular (calls ++ [chat_tool_call id name args sig])) as (H1 & H2 & H3). split; [done|]. split; [|done].
    rewrite H2, fmap_app, <- app_assoc. f_equal. cbn [fmap list_fmap]. by rewrite chat_wire_call_sent.
  - destruct (IH [] []) as (H1 & H2 & H3). destruct (said_by_inv _ _ _ _ (flush_says source m regular calls Hr)) as (F1 & F2 & F3).
    destruct (tool_message_answers source prompt_cache call_id name content cache) as (sent & Hsays & Hkept). apply said_by_inv in Hsays as (T1 & T2 & T3).
    cbv zeta.
    change (tool_message source prompt_cache call_id name content cache :: ?y) with ([tool_message source prompt_cache call_id name content cache] ++ y).
    rewrite !bind_app, F1, F2, F3, T1, T2, T3, H1, H2.
    split; [symmetry; apply fmap_app|]. split; [done|]. by constructor.
Qed.

Lemma render_message_says source prompt_cache m :
  message_wf m ->
  let sent := render_message source prompt_cache m in
  sent ≫= wire_said = message_said m /\ sent ≫= wire_called = sent_call <$> message_called m
  /\ Forall2 (result_kept source) (message_answered m) (sent ≫= wire_answered).
Proof.
  intros Hwf. unfold render_message, message_said, message_called, message_answered.
  destruct (decide (lm_role m = RoleTool)) as [Hr|Hr].
  - clear Hwf. induction (lm_parts m) as [|p l (H1 & H2 & H3)]; [done|]. rewrite !(omap_cons _ p l).
    destruct p as [text cache|image media detail|text sig|id name args sig|call_id name content err cache|kind value]; try done.
    destruct (tool_message_answers source prompt_cache call_id name content cache) as (sent & Hsays & Hkept). apply said_by_inv in Hsays as (T1 & T2 & T3).
    cbn [part_answer]. change (tool_message source prompt_cache call_id name content cache :: ?y) with ([tool_message source prompt_cache call_id name content cache] ++ y).
    rewrite !bind_app, T1, T2, T3. split; [done|]. split; [done|]. by constructor.
  - by apply (render_parts_says source prompt_cache m (lm_parts m) [] []).
Qed.

Lemma chat_messages_say source prompt_cache messages :
  Forall message_wf messages ->
  let sent := messages ≫= render_message source prompt_cache in
  sent ≫= wire_said = messages ≫= message_said /\ sent ≫= wire_called = sent_call <$> (messages ≫= message_called)
  /\ Forall2 (result_kept source) (messages ≫= message_answered) (sent ≫= wire_answered).
Proof.
  induction 1 as [|m l Hm _ (H1 & H2 & H3)]; [done|]. destruct (render_message_says source prompt_cache m Hm) as (M1 & M2 & M3).
  cbv zeta. rewrite !bind_cons, !bind_app, M1, M2, H1, H2, fmap_app. split; [done|]. split; [done|]. by apply Forall2_app.
Qed.

(** *** Reasoning put back *)

(** The reasoning put back says nothing of the conversation. *)
Lemma fixup_says cache v : said_by [fixup_message cache v] = said_by [v].
Proof.
  assert (Hset : forall fields reasoning, said_by [JObject (assoc_set fields "reasoning_content" (JString reasoning))] = said_by [JObject fields]).
  { intros fields reasoning. set (v' := JObject (assoc_set _ _ _)). set (w := JObject fields).
    assert (Hget : forall k, k <> "reasoning_content" -> json_get v' k = json_get w k).
    { intros k Hk. unfold v', w, json_get. by rewrite assoc_get_set, decide_False. }
    assert (Hstr : forall k, k <> "reasoning_content" -> get_str v' k = get_str w k) by (intros; unfold get_str; by rewrite Hget).
    assert (Htool : is_tool_message v' <-> is_tool_message w) by (unfold is_tool_message; by rewrite Hstr).
    unfold said_by. cbn [mbind list_bind]. unfold wire_said, wire_called, wire_answered, get_list. 
    destruct (decide (is_tool_message v')), (decide (is_tool_message w)); try tauto;
      by rewrite ?(Hget "content"), ?(Hget "tool_calls"), ?(Hstr "role"), ?(Hstr "tool_call_id") by done. }
  destruct v as [| | | | |fields]; try done. unfold fixup_message. case_bool_decide; [|done].
  destruct (json_get _ "tool_calls") as [[| | | |[|c calls]|]|]; try done. case_bool_decide; [done|].
  destruct (cached_reasoning cache (c :: calls)); [apply Hset|]. destruct (assoc_get fields "reasoning_content"); [done|apply Hset].
Qed.

Lemma fixup_all_say cache l : said_by (fixup_message cache <$> l) = said_by l.
Proof.
  induction l as [|v l IH]; [done|]. rewrite fmap_cons. change (?x :: ?y) with ([x] ++ y).
  by rewrite !said_by_app, IH, fixup_says.
Qed.

(** The messages sent are those rendered, with the reasoning put back. *)
Lemma sent_messages payload model cache :
  said_by (get_list (request_to_chat_completions payload model cache) "messages")
  = said_by (chat_messages (qp_input_format payload) (qp_request payload) model).
Proof.
  unfold request_to_chat_completions. set (rendered := render_chat_completions _ _ _).
  set (sent := chat_messages _ _ _). assert (Hm : json_get rendered "messages" = Some (JArray sent)) by done.
  destruct cache as [cache|]; [|done]. destruct (decide _); [|done]. rewrite Hm.
  unfold set_field, rendered, render_chat_completions, get_list, json_get.
  rewrite assoc_get_set, decide_True by done. apply fixup_all_say.
Qed.

(** C30: what the gateway understood of a request is what a Chat Completions
    provider is sent.  Take a request of any of the four protocols as it was
    understood (the understanding itself is not part of the claim: it drops the
    arguments of [tool_use] blocks, [tool_use_input_is_lost]).  Once rendered for
    a Chat Completions provider, with or without the reasoning cache, the
    [messages] of the body have every text understood under its role (system and
    developer messages both as system), every call understood with its id (the
    thought signature behind it), its name and its arguments, and every result
    under the id of its call, each of the three in order and with nothing added.
    The content of a result is sent as it is for a Responses request; otherwise
    it reads the same, a list of blocks being read as its non-empty texts. *)
Theorem rendered_requests_keep_the_conversation protocol body payload model cache :
  understand_request_value protocol body = Ok payload ->
  let understood := lq_system (qp_request payload) ++ lq_messages (qp_request payload) in
  let sent := get_list (request_to_chat_completions payload model cache) "messages" in
  sent ≫= wire_said = understood ≫= message_said
  /\ sent ≫= wire_called = sent_call <$> (understood ≫= message_called)
  /\ Forall2 (result_kept (qp_input_format payload)) (understood ≫= message_answered) (sent ≫= wire_answered).
Proof.
  intros Hu understood sent. destruct (said_by_inv _ _ _ _ (sent_messages payload model cache)) as (H1 & H2 & H3). unfold sent. rewrite H1, H2, H3.
  apply chat_messages_say. by eapply understood_wf.
Qed.

(** The arguments of a [tool_use] block are lost: a Messages request
    carries them as [input], the parser only looks for [arguments], so two
    requests that differ in what the assistant passed to a tool are understood,
    and forwarded, as the same request. *)
Theorem tool_use_input_is_lost before after id name input1 input2 :
  let block := fun input => JObject [("type", JString "tool_use"); ("id", JString id); ("name", JString name);
                                     ("input", input)] in
  let body := fun input => JObject [("messages", JArray [JObject
    [("role", JString "assistant"); ("content", JArray (before ++ block input :: after))]])] in
  understand_request_value Messages (body input1) = understand_request_value Messages (body input2)
  /\ tool_call_part (block input1) = PartToolCall id name (JObject []) None.
Proof.
  intros block body. split; [|done].
  assert (Hparts : parse_content_parts (JArray (before ++ block input1 :: after))
                   = parse_content_parts (JArray (before ++ block input2 :: after)))
    by (cbn [parse_content_parts]; by rewrite !omap_app).
  assert (Hmessage : forall content1 content2, parse_content_parts content1 = parse_content_parts content2 ->
    push_wire_message (JObject [("role", JString "assistant"); ("content", content1)])
    = push_wire_message (JObject [("role", JString "assistant"); ("content", content2)])).
  { intros c1 c2 Hc. rewrite !(push_wire_message_if _ RoleAssistant) by done. unfold message_parts. simpl. by rewrite Hc. }
  unfold body, understand_request_value, parse_messages_request, with_messages. do 3 f_equal.
  apply (f_equal (fun l => l ++ [])). by apply Hmessage.
Qed.

End Readback.

Module ConversionExample.

#[local] Existing Instance value_json.
#[local] Instance numbers_as_written : FloatNumbers := {| to_f64 := fun n => n |}.

(** A Messages request with a system text, a question, a tool call and its
    result. *)
Definition question : Value :=
  JObject [("model", JString "claude"); ("system", JString "be brief");
    ("messages", JArray
       [JObject [("role", JString "user"); ("content", JString "where am I?")];
        JObject [("role", JString "assistant"); ("content", JArray
          [JObject [("type", JString "text"); ("text", JString "let me look")];
           JObject [("type", JString "tool_use"); ("id", JString "call-1"); ("name", JString "shell");
                    ("input", JObject [("cmd", JString "pwd")])]])];
        JObject [("role", JString "user"); ("content", JArray
          [JObject [("type", JString "tool_result"); ("tool_use_id", JString "call-1"); ("content", JString "/home")];
           JObject [("type", JString "text"); ("text", JString "well?")]])]])].

Definition understood : LlmRequestEventPayload :=
  match understand_request_value Messages question with
  | Ok payload => payload
  | Err _ => mkRequestPayload PUnknown (base_request JNull)
  end.

Lemma question_understood : understand_request_value Messages question = Ok understood.
Proof. vm_compute. reflexivity. Qed.

(** The call goes out without its input, which was lost when the request was
    understood. *)
Lemma rendered_requests_keep_the_conversation_witness :
  let sent := get_list (request_to_chat_completions understood "gpt-5.6" None) "messages" in
  sent ≫= wire_said = [("system", "be brief"); ("user", "where am I?"); ("assistant", "let me look"); ("user", "well?")]
  /\ sent ≫= wire_called = [(Some "call-1", Some "shell", Some (JObject []))]
  /\ Forall2 (result_kept PMessages) [("call-1", JString "/home")] (sent ≫= wire_answered).
Proof.
  destruct (rendered_requests_keep_the_conversation Messages question understood "gpt-5.6" None question_understood)
    as (H1 & H2 & H3).
  split; [etransitivity; [exact H1|]; vm_compute; reflexivity|]. split; [etransitivity; [exact H2|]; vm_compute; reflexivity|].
  exact H3.
Defined.

(** A Responses item has an id of its own beside the id of its call.  The
    parser takes the first, so the call is sent under an id that the result that
    follows does not answer. *)
Theorem responses_result_answers_no_call :
  let body := JObject [("input", JArray
    [JObject [("type", JString "function_call"); ("id", JString "fc_1"); ("call_id", JString "call_1");
              ("name", JString "shell"); ("arguments", JString (json_text (JObject [])))];
     JObject [("type", JString "function_call_output"); ("call_id", JString "call_1"); ("output", JString "/home")]])] in
  match understand_request_value Responses body with
  | Ok payload =>
      let sent := get_list (request_to_chat_completions payload "gpt-5" None) "messages" in
      sent ≫= wire_called = [(Some "fc_1", Some "shell", Some (JObject []))]
      /\ sent ≫= wire_answered = [(Some "call_1", JString "/home")]
  | Err _ => False
  end.
Proof. vm_compute. split; reflexivity. Qed.

End ConversionExample.
