(* ===== verification/GeminiSchema.v ===== *)
(** * Gateway: schemas for Gemini

    [normalize_gemini_schema] of [gateway/src/conversion/gemini_native.rs]:
    references are inlined, compound schemas flattened, and only keywords
    Gemini knows are kept.  The recursion follows references and rewritten nodes, so
    the functions have fuel; [None] is fuel that ran out, which
    [schema_normalization_restricts] excludes. *)

From Stdlib Require Import ZArith Lia Ascii.
From stdpp Require Import base list strings gmap numbers option pretty sorting.
From S2P Require Import Prelude Json JsonLines Capture Llm.

#[local] Set Warnings "-clear-no-such-hyp,-register-all".

Abbreviation Fields := (list (string * Value)).

(** [Map::remove]: keys are distinct. *)
Definition map_remove (fields : Fields) (key : string) : Fields := filter (fun kv => fst kv <> key) fields.
(** [map.entry(key).or_insert(value)]. *)
Definition or_insert (fields : Fields) (key : string) (v : Value) : Fields :=
  match assoc_get fields key with Some _ => fields | None => assoc_set fields key v end.
Definition contains_key (fields : Fields) (key : string) : bool := bool_decide (is_Some (assoc_get fields key)).
Definition str_at (fields : Fields) (key : string) : option string := assoc_get fields key ≫= as_str.

(** ** Children *)

(** [map.get_mut(key)] visited in place. *)
Definition update_key (f : Value -> option Value) (key : string) (fields : Fields) : option Fields :=
  match assoc_get fields key with
  | Some v => (fun v' => assoc_set fields key v') <$> f v
  | None => Some fields
  end.
Definition visit_field (f : Value -> option Value) (kv : string * Value) : option (string * Value) :=
  (fun v' => (fst kv, v')) <$> f (snd kv).
Definition visit_values (f : Value -> option Value) (v : Value) : option Value :=
  match v with JObject properties => JObject <$> mapM (visit_field f) properties | v => Some v end.
Definition visit_members (f : Value -> option Value) (v : Value) : option Value :=
  match v with JArray l => JArray <$> mapM f l | v => Some v end.

Definition for_each_child_schema (f : Value -> option Value) (fields : Fields) : option Fields :=
  fields ← update_key f "items" fields;
  fields ← update_key (visit_values f) "properties" fields;
  fields ← update_key (visit_members f) "anyOf" fields;
  update_key (visit_members f) "allOf" fields.

(** ** References *)

Definition take_definitions (root : Value) : Fields * Value :=
  match root with
  | JObject fields =>
      let taken := fun key fields => match assoc_get fields key with Some (JObject values) => values | _ => [] end in
      let extend := fun definitions values => foldl (fun d kv => assoc_set d (fst kv) (snd kv)) definitions values in
      let definitions := extend [] (taken "$defs" fields) in
      let fields := map_remove fields "$defs" in
      let definitions := extend definitions (taken "definitions" fields) in
      (definitions, JObject (map_remove fields "definitions"))
  | v => ([], v)
  end.

(** The last segment of the reference. *)
Definition reference_name (reference : string) : string := default reference (last (str_split 47 reference)).

(** The definition with the other fields of the node that refers to it. *)
Definition resolve_reference (definition value : Value) : Value :=
  match definition, value with
  | JObject resolved, JObject original =>
      JObject (foldl (fun r kv => if bool_decide (fst kv = "$ref") then r else assoc_set r (fst kv) (snd kv)) resolved original)
  | d, _ => d
  end.

Fixpoint inline_refs (fuel : nat) (definitions : Fields) (chain : list string) (value : Value) : option Value :=
  match fuel with
  | O => None
  | S fuel =>
      match get_str value "$ref" with
      | Some reference =>
          let name := reference_name reference in
          if bool_decide (name ∈ chain) then Some value
          else match assoc_get definitions name with
               | Some definition => inline_refs fuel definitions (chain ++ [name]) (resolve_reference definition value)
               | None => Some value
               end
      | None =>
          match value with
          | JObject fields =>
              JObject <$> for_each_child_schema (inline_refs fuel definitions chain)
                            (map_remove (map_remove fields "$defs") "definitions")
          | JArray l => JArray <$> mapM (inline_refs fuel definitions chain) l
          | v => Some v
          end
      end
  end.

(** ** Structure *)

Definition merge_properties (target source : Fields) : Fields :=
  foldl (fun t kv => or_insert t (fst kv) (snd kv)) target source.
Definition merge_required (target source : list Value) : list Value :=
  foldl (fun t v => if bool_decide (v ∈ t) then t else t ++ [v]) target source.

(** One field of a member of [allOf]. *)
Definition merge_field (object : Fields) (kv : string * Value) : Fields :=
  let '(key, value) := kv in
  if bool_decide (key = "properties") then
    match value with
    | JObject source =>
        let object := or_insert object "properties" (JObject []) in
        match assoc_get object "properties" with
        | Some (JObject target) => assoc_set object "properties" (JObject (merge_properties target source))
        | _ => object
        end
    | _ => object
    end
  else if bool_decide (key = "required") then
    match value with
    | JArray source =>
        let object := or_insert object "required" (JArray []) in
        match assoc_get object "required" with
        | Some (JArray target) => assoc_set object "required" (JArray (merge_required target source))
        | _ => object
        end
    | _ => object
    end
  else or_insert object key value.

Definition merge_member (object : Fields) (member : Value) : Fields :=
  match member with JObject fields => foldl merge_field object fields | _ => object end.

Definition flatten_all_of (object : Fields) : bool * Fields :=
  match assoc_get object "allOf" with
  | Some (JArray members) => (true, foldl merge_member (map_remove object "allOf") members)
  | _ => (false, map_remove object "allOf")
  end.

Definition schema_type_for_constant (v : Value) : string :=
  match v with
  | JString _ => "string"
  | JBool _ => "boolean"
  | JNumber (JFloat _) => "number"
  | JNumber (JInt _) => "integer"
  | JArray _ => "array"
  | _ => "object"
  end.

Definition rewrite_const (object : Fields) : bool * Fields :=
  match assoc_get object "const" with
  | Some constant =>
      (true, or_insert (assoc_set (map_remove object "const") "enum" (JArray [constant])) "type"
               (JString (schema_type_for_constant constant)))
  | None => (false, object)
  end.

Definition set_nullable (nullable : bool) (object : Fields) : Fields :=
  if nullable then assoc_set object "nullable" (JBool true) else object.

Definition rewrite_types (object : Fields) : bool * Fields :=
  match assoc_get object "type" with
  | Some (JArray types) =>
      let names := omap as_str types in
      let object := set_nullable (bool_decide ("null" ∈ names)) (map_remove object "type") in
      (true, match filter (fun name => name <> "null") names with
             | [] => object
             | [only] => assoc_set object "type" (JString only)
             | many => assoc_set object "anyOf" (JArray ((fun kind => JObject [("type", JString kind)]) <$> many))
             end)
  | _ => (false, object)
  end.

Definition is_null_schema (v : Value) : Prop := get_str v "type" = Some "null".
#[global] Instance is_null_schema_dec v : Decision (is_null_schema v) := _.

Definition collapse_any_of (object : Fields) : bool * Fields :=
  match assoc_get object "anyOf" with
  | Some (JArray members) =>
      let nullable := existsb (fun m => bool_decide (is_null_schema m)) members in
      if bool_decide (length members = 1) || nullable then
        let object := set_nullable nullable (map_remove object "anyOf") in
        (true, match filter (fun m => ~ is_null_schema m) members with
               | [] => object
               | [JObject member] => foldl (fun o kv => or_insert o (fst kv) (snd kv)) object member
               | [_] => object
               | many => assoc_set object "anyOf" (JArray many)
               end)
      else (false, object)
  | _ => (false, object)
  end.

Definition rewrite_schema_structure (object : Fields) : bool * Fields :=
  let '(c1, object) := flatten_all_of object in
  let '(c2, object) := rewrite_const object in
  let '(c3, object) := rewrite_types object in
  let '(c4, object) := collapse_any_of object in
  (c1 || c2 || c3 || c4, object).

(** [while rewrite_schema_structure(object) && guard < 64 { guard += 1 }]. *)
Fixpoint rewrite_loop (guard : nat) (object : Fields) : Fields :=
  let '(changed, object) := rewrite_schema_structure object in
  match guard with
  | S guard => if changed then rewrite_loop guard object else object
  | O => object
  end.

Definition ALLOWED : list string :=
  ["type"; "format"; "description"; "title"; "nullable"; "enum"; "items"; "properties"; "required"; "anyOf"; "default";
   "minLength"; "maxLength"; "pattern"; "minimum"; "maximum"; "exclusiveMinimum"; "exclusiveMaximum"; "propertyOrdering"].

(** The rest of a node's own fields. *)
Definition add_items (object : Fields) : Fields :=
  if bool_decide (str_at object "type" = Some "array") && negb (contains_key object "items")
  then assoc_set object "items" (JObject [("type", JString "object")]) else object.
Definition check_enum (object : Fields) : Fields :=
  if contains_key object "enum" then
    match str_at object "type" with
    | Some t => if bool_decide (t = "string") then object else map_remove object "enum"
    | None => assoc_set object "type" (JString "string")
    end
  else object.
Definition add_type (object : Fields) : Fields :=
  if negb (contains_key object "type") && negb (contains_key object "anyOf") && negb (contains_key object "enum")
  then assoc_set object "type" (JString "object") else object.
Definition check_format (object : Fields) : Fields :=
  match str_at object "format" with
  | Some format => if bool_decide (format ∈ ["enum"; "date-time"]) then object else map_remove object "format"
  | None => object
  end.
Definition clean_fields (object : Fields) : Fields :=
  check_format (add_type (map_remove (check_enum (add_items (rewrite_loop 64 object))) "additionalProperties")).

Fixpoint clean_schema_node (fuel : nat) (value : Value) : option Value :=
  match fuel with
  | O => None
  | S fuel =>
      match value with
      | JObject fields =>
          (fun object => JObject (filter (fun kv => fst kv ∈ ALLOWED) object))
            <$> for_each_child_schema (clean_schema_node fuel) (clean_fields fields)
      | JArray l => JArray <$> mapM (clean_schema_node fuel) l
      | v => Some v
      end
  end.

(** ** Fuel *)

Fixpoint value_depth (v : Value) : nat :=
  match v with
  | JArray l => S (foldr Nat.max 0 (map value_depth l))
  | JObject fields => S (foldr Nat.max 0 (map (fun kv => value_depth (snd kv)) fields))
  | _ => 0
  end.
Definition fields_depth (fields : Fields) : nat := foldr Nat.max 0 (map (fun kv => value_depth (snd kv)) fields).

(** A reference can be followed once per definition before it repeats. *)
Definition inline_fuel (definitions : Fields) (v : Value) : nat :=
  S (length definitions * S (S (Nat.max (value_depth v) (fields_depth definitions))) + value_depth v).

Definition normalize_gemini_schema (schema : Value) : option Value :=
  let '(definitions, root) := take_definitions schema in
  inlined ← inline_refs (inline_fuel definitions root) definitions [] root;
  clean_schema_node (S (value_depth inlined)) inlined.

(** ** Fields *)

Lemma assoc_get_remove fields key k :
  assoc_get (map_remove fields key) k = if decide (k = key) then None else assoc_get fields k.
Proof.
  unfold map_remove. induction fields as [|[j w] l IH]; simpl; [by case_decide|].
  destruct (decide (j = key)) as [->|Hj].
  - rewrite filter_cons_False by (simpl; tauto). rewrite IH. repeat case_decide; simplify_eq; done.
  - rewrite filter_cons_True by done. simpl. rewrite IH. repeat case_decide; simplify_eq; done.
Qed.

Lemma assoc_get_keep (P : string -> Prop) `{!forall k, Decision (P k)} fields k :
  assoc_get (filter (fun kv => P (fst kv)) fields) k = if decide (P k) then assoc_get fields k else None.
Proof.
  induction fields as [|[j w] l IH]; simpl; [by case_decide|].
  destruct (decide (P j)) as [Hj|Hj].
  - rewrite filter_cons_True by done. simpl. rewrite IH. repeat case_decide; simplify_eq; done.
  - rewrite filter_cons_False by done. rewrite IH. repeat case_decide; simplify_eq; done.
Qed.

Lemma assoc_get_or_insert fields key v k :
  assoc_get (or_insert fields key v) k
  = match assoc_get fields k with Some w => Some w | None => if decide (k = key) then Some v else None end.
Proof.
  unfold or_insert. destruct (assoc_get fields key) as [w|] eqn:Hk.
  - destruct (assoc_get fields k) eqn:Hg; [done|]. case_decide; congruence.
  - rewrite assoc_get_set. case_decide; [by subst; rewrite Hk|]. by destruct (assoc_get fields k).
Qed.

Lemma assoc_get_elem fields k v : assoc_get fields k = Some v -> (k, v) ∈ fields.
Proof.
  induction fields as [|[j w] l IH]; [done|]. simpl. case_decide; intros Hv; simplify_eq; [by left|right; auto].
Qed.

(** ** Depth *)

Lemma foldr_max_le {A} (f : A -> nat) l n : foldr Nat.max 0 (map f l) <= n <-> Forall (fun x => f x <= n) l.
Proof.
  induction l as [|x l IH]; simpl; [split; intros; [constructor|lia]|]. rewrite Forall_cons, <- IH. lia.
Qed.

Lemma depth_object_le fields n : value_depth (JObject fields) <= S n <-> Forall (fun kv => value_depth (snd kv) <= n) fields.
Proof. rewrite <- foldr_max_le. simpl. lia. Qed.

Lemma depth_array_le l n : value_depth (JArray l) <= S n <-> Forall (fun v => value_depth v <= n) l.
Proof. rewrite <- foldr_max_le. simpl. lia. Qed.

Lemma fields_depth_le fields n : fields_depth fields <= n <-> Forall (fun kv => value_depth (snd kv) <= n) fields.
Proof. apply foldr_max_le. Qed.

Lemma get_depth fields k v n : Forall (fun kv => value_depth (snd kv) <= n) fields -> assoc_get fields k = Some v -> value_depth v <= n.
Proof. rewrite Forall_forall. intros Hf Hk%assoc_get_elem. apply (Hf _ Hk). Qed.

Lemma assoc_set_Forall (P : string * Value -> Prop) fields key v :
  Forall P fields -> P (key, v) -> Forall P (assoc_set fields key v).
Proof.
  intros Hf Hv. induction Hf as [|[k w] l Hk Hl IH]; simpl; [by repeat constructor|].
  case_decide; [by subst; constructor|by constructor].
Qed.

(** ** The children of a node *)

(** The children a field of a node has satisfy [P]. *)
Definition key_ok (P : Value -> Prop) (key : string) (v : Value) : Prop :=
  (key = "items" -> P v)
  /\ (key = "properties" -> forall ps, v = JObject ps -> Forall (fun kv => P (snd kv)) ps)
  /\ (key ∈ ["anyOf"; "allOf"] -> forall l, v = JArray l -> Forall P l).
Definition keys_ok (P : Value -> Prop) (fields : Fields) : Prop :=
  forall key v, assoc_get fields key = Some v -> key_ok P key v.

Lemma key_ok_impl (P Q : Value -> Prop) key v : (forall w, P w -> Q w) -> key_ok P key v -> key_ok Q key v.
Proof.
  intros HPQ (H1 & H2 & H3). repeat split; [auto|intros Hk ps Hps|intros Hk l Hl].
  - eapply Forall_impl; [by apply H2|]. auto.
  - eapply Forall_impl; [by apply H3|]. auto.
Qed.

Lemma key_ok_depth n key v : value_depth v <= n -> key_ok (fun w => value_depth w <= n) key v.
Proof.
  intros Hv. repeat split; [done|intros _ ps ->|intros _ l ->].
  - destruct n as [|n]; [simpl in Hv; lia|]. apply depth_object_le in Hv. eapply Forall_impl; [exact Hv|]. simpl. lia.
  - destruct n as [|n]; [simpl in Hv; lia|]. apply depth_array_le in Hv. eapply Forall_impl; [exact Hv|]. simpl. lia.
Qed.

Lemma keys_ok_remove P fields key : keys_ok P fields -> keys_ok P (map_remove fields key).
Proof. intros Hf k v. rewrite assoc_get_remove. case_decide; [done|]. apply Hf. Qed.

Lemma keys_ok_set P fields key v : keys_ok P fields -> key_ok P key v -> keys_ok P (assoc_set fields key v).
Proof. intros Hf Hv k w. rewrite assoc_get_set. case_decide; [intros [= <-]; by subst|]. apply Hf. Qed.

Lemma keys_ok_or_insert P fields key v : keys_ok P fields -> key_ok P key v -> keys_ok P (or_insert fields key v).
Proof. intros Hf Hv. unfold or_insert. destruct (assoc_get fields key); [done|]. by apply keys_ok_set. Qed.

Lemma visit_values_total f v :
  (forall ps, v = JObject ps -> Forall (fun kv => is_Some (f (snd kv))) ps) -> is_Some (visit_values f v).
Proof.
  intros Hv. destruct v as [| | | | |ps]; try by eexists. simpl. apply fmap_is_Some, mapM_is_Some.
  eapply Forall_impl; [by apply Hv|]. intros [k v] [v' Hv']. unfold visit_field. simpl in *. rewrite Hv'. by eexists.
Qed.

Lemma visit_members_total f v :
  (forall l, v = JArray l -> Forall (fun w => is_Some (f w)) l) -> is_Some (visit_members f v).
Proof.
  intros Hv. destruct v as [| | | |l|]; try by eexists. simpl. apply fmap_is_Some, mapM_is_Some. by apply Hv.
Qed.

Lemma update_key_spec f key fields :
  (forall v, assoc_get fields key = Some v -> is_Some (f v)) ->
  exists fields', update_key f key fields = Some fields'
  /\ forall k, assoc_get fields' k = if decide (k = key) then assoc_get fields key ≫= f else assoc_get fields k.
Proof.
  intros Hf. unfold update_key. destruct (assoc_get fields key) as [v|] eqn:Hk.
  - destruct (Hf v eq_refl) as [v' Hv']. rewrite Hv'. eexists. split; [done|]. intros k. rewrite assoc_get_set. simpl.
    case_decide; [done|]. done.
  - eexists. split; [done|]. intros k. case_decide; [by subst|done].
Qed.

(** The fields of a node once its children are visited. *)
Definition visited (f : Value -> option Value) (fields : Fields) (key : string) : option Value :=
  if decide (key = "items") then assoc_get fields key ≫= f
  else if decide (key = "properties") then assoc_get fields key ≫= visit_values f
  else if decide (key ∈ ["anyOf"; "allOf"]) then assoc_get fields key ≫= visit_members f
  else assoc_get fields key.

Lemma for_each_child_total f fields :
  keys_ok (fun v => is_Some (f v)) fields ->
  exists fields', for_each_child_schema f fields = Some fields' /\ forall k, assoc_get fields' k = visited f fields k.
Proof.
  intros Hf. unfold for_each_child_schema.
  destruct (update_key_spec f "items" fields) as (f1 & -> & H1).
  { intros v Hv. by apply (Hf _ _ Hv). }
  destruct (update_key_spec (visit_values f) "properties" f1) as (f2 & Hf2 & H2).
  { intros v. rewrite H1. simpl. intros Hv. apply visit_values_total. by apply (Hf _ _ Hv). }
  destruct (update_key_spec (visit_members f) "anyOf" f2) as (f3 & Hf3 & H3).
  { intros v. rewrite H2, decide_False, H1 by done. simpl. intros Hv. apply visit_members_total.
    apply (Hf _ _ Hv). set_solver. }
  destruct (update_key_spec (visit_members f) "allOf" f3) as (f4 & Hf4 & H4).
  { intros v. rewrite H3, decide_False, H2, decide_False, H1, decide_False by done. intros Hv. apply visit_members_total.
    apply (Hf _ _ Hv). set_solver. }
  exists f4. cbn [mbind option_bind]. rewrite Hf2. cbn [mbind option_bind]. rewrite Hf3. cbn [mbind option_bind].
  split; [done|]. intros k. unfold visited. rewrite H4.
  destruct (decide (k = "items")) as [->|Hk1]; [by rewrite decide_False, H3, decide_False, H2, decide_False, H1 by done|].
  destruct (decide (k = "properties")) as [->|Hk2]; [by rewrite decide_False, H3, decide_False, H2, H1 by done|].
  destruct (decide (k = "allOf")) as [->|Hk3];
    [by rewrite H3, decide_False, H2, decide_False, H1, decide_False, decide_True by (done || set_solver)|].
  rewrite H3. destruct (decide (k = "anyOf")) as [->|Hk4];
    [by rewrite H2, decide_False, H1, decide_False, decide_True by (done || set_solver)|].
  rewrite H2, decide_False, H1, decide_False, decide_False; [done| |done..]. set_solver.
Qed.

(** What the children visited satisfy. *)
Lemma visited_ok (P Q : Value -> Prop) f fields key v :
  keys_ok P fields -> (forall w w', P w -> f w = Some w' -> Q w') -> visited f fields key = Some v -> key_ok Q key v.
Proof.
  intros Hf HQ Hv. unfold visited in Hv. repeat split.
  - intros ->. simpl in Hv. destruct (assoc_get fields "items") as [w|] eqn:Hw; [|done]. simpl in Hv.
    eapply HQ; [|exact Hv]. by apply (Hf _ _ Hw).
  - intros -> ps ->. rewrite decide_False, decide_True in Hv by done.
    destruct (assoc_get fields "properties") as [w|] eqn:Hw; [|done]. simpl in Hv.
    destruct w as [| | | | |qs]; simplify_eq/=. apply fmap_Some in Hv as (ps' & Hps & [= <-]). apply mapM_Some in Hps.
    pose proof (proj1 (proj2 (Hf _ _ Hw)) eq_refl qs eq_refl) as Hqs.
    clear -HQ Hps Hqs. induction Hps as [|[k w] [k' w'] l l' Hw1 _ IH]; [done|]. apply Forall_cons in Hqs as [Hq Hqs].
    constructor; [|by apply IH]. unfold visit_field in Hw1. simpl in *.
    destruct (f w) as [w2|] eqn:Hfw; simplify_eq/=. by eapply HQ.
  - intros Hk l ->. rewrite decide_False, decide_False, decide_True in Hv by set_solver.
    destruct (assoc_get fields key) as [w|] eqn:Hw; [|done]. simpl in Hv.
    destruct w as [| | | |qs|]; simplify_eq/=. apply fmap_Some in Hv as (ps' & Hps & [= <-]). apply mapM_Some in Hps.
    pose proof (proj2 (proj2 (Hf _ _ Hw)) Hk qs eq_refl) as Hqs.
    clear -HQ Hps Hqs. induction Hps as [|w w' l l' Hw1 _ IH]; [done|]. apply Forall_cons in Hqs as [Hq Hqs].
    constructor; [by eapply HQ|by apply IH].
Qed.

(** ** Inlining ends *)

Section Inline.
Context (definitions : Fields) (M : nat).
Context (Hdefs : fields_depth definitions <= M).

(** The definitions a chain has not followed yet. *)
Definition unused (chain : list string) : nat := length (filter (fun kv => fst kv ∉ chain) definitions).

Lemma unused_follow chain name v :
  name ∉ chain -> assoc_get definitions name = Some v -> S (unused (chain ++ [name])) <= unused chain.
Proof.
  intros Hn Hv. unfold unused. clear Hdefs. induction definitions as [|[k w] l IH]; [done|]. simpl in Hv.
  assert (Hle : forall l : Fields, length (filter (fun kv => fst kv ∉ chain ++ [name]) l)
                          <= length (filter (fun kv => fst kv ∉ chain) l)).
  { clear. induction l as [|[j x] l IH]; [done|]. rewrite !filter_cons. simpl.
    repeat case_decide; simpl; try lia. set_solver. }
  rewrite !filter_cons. simpl. case_decide as Hk; simplify_eq.
  - rewrite decide_False, decide_True by set_solver. simpl. specialize (Hle l). lia.
  - specialize (IH Hv). repeat case_decide; simpl; try lia. set_solver.
Qed.

Lemma resolve_reference_depth definition value :
  value_depth definition <= M -> value_depth value <= M -> value_depth (resolve_reference definition value) <= M.
Proof.
  intros Hd Hv. unfold resolve_reference. destruct definition as [| | | | |r], value as [| | | | |o]; try done.
  destruct M as [|n]; [simpl in Hd; lia|]. apply depth_object_le in Hd, Hv. apply depth_object_le. clear Hdefs.
  revert r Hd. induction Hv as [|[k w] l Hw _ IH]; intros r Hr; [done|]. simpl. apply IH.
  case_bool_decide; [done|]. by apply assoc_set_Forall.
Qed.

Lemma inline_refs_total fuel chain v :
  value_depth v <= M -> unused chain * S (S M) + value_depth v < fuel ->
  is_Some (inline_refs fuel definitions chain v).
Proof.
  revert chain v. induction fuel as [|fuel IH]; intros chain v Hv Hfuel; [lia|]. cbn [inline_refs].
  destruct (get_str v "$ref") as [reference|].
  - case_bool_decide as Hc; [by eexists|]. destruct (assoc_get definitions _) as [d|] eqn:Hd; [|by eexists].
    pose proof (unused_follow _ _ _ Hc Hd) as Hu. apply fields_depth_le in Hdefs as Hall.
    pose proof (resolve_reference_depth d v (get_depth _ _ _ _ Hall Hd) Hv) as Hr. apply IH; [done|]. nia.
  - destruct v as [| | | |l|fields]; try by eexists.
    + apply fmap_is_Some, mapM_is_Some. assert (Hl : value_depth (JArray l) <= S (pred (value_depth (JArray l)))) by (simpl; lia).
      apply depth_array_le in Hl. eapply Forall_impl; [exact Hl|]. intros w Hw. simpl in *. apply IH; lia.
    + apply fmap_is_Some.
      assert (Hl : value_depth (JObject fields) <= S (pred (value_depth (JObject fields)))) by (simpl; lia).
      apply depth_object_le in Hl. set (n := pred _) in *.
      destruct (for_each_child_total (inline_refs fuel definitions chain)
        (map_remove (map_remove fields "$defs") "definitions")) as (f' & -> & _); [|by eexists].
      apply keys_ok_remove, keys_ok_remove. intros k w Hw. eapply key_ok_impl; [|apply key_ok_depth; by eapply get_depth].
      intros x Hx. subst n. simpl in *. apply IH; lia.
Qed.

End Inline.

Lemma inline_fuel_enough definitions v : is_Some (inline_refs (inline_fuel definitions v) definitions [] v).
Proof.
  apply (inline_refs_total definitions (Nat.max (value_depth v) (fields_depth definitions))); [lia|lia|].
  unfold inline_fuel, unused. pose proof (length_filter (fun kv : string * Value => fst kv ∉ []) definitions). nia.
Qed.

(** ** Rewriting keeps the children shallow *)

(** Children of depth [n] at most; a type that becomes an [anyOf] of leaves is
    only there when leaves are. *)
Definition shallow (n : nat) (fields : Fields) : Prop :=
  keys_ok (fun v => value_depth v <= n) fields
  /\ (n = 0 -> forall l, assoc_get fields "type" <> Some (JArray l)).

Definition shallow_value (n : nat) (key : string) (v : Value) : Prop :=
  key_ok (fun w => value_depth w <= n) key v /\ (n = 0 -> key = "type" -> forall l, v <> JArray l).

Lemma shallow_set n fields key v : shallow n fields -> shallow_value n key v -> shallow n (assoc_set fields key v).
Proof.
  intros [H1 H2] [H3 H4]. split; [by apply keys_ok_set|]. intros Hn l. rewrite assoc_get_set.
  case_decide; [intros [= ->]; by eapply H4|by apply H2].
Qed.

Lemma shallow_or_insert n fields key v : shallow n fields -> shallow_value n key v -> shallow n (or_insert fields key v).
Proof. intros Hf Hv. unfold or_insert. destruct (assoc_get fields key); [done|]. by apply shallow_set. Qed.

Lemma shallow_remove n fields key : shallow n fields -> shallow n (map_remove fields key).
Proof.
  intros [H1 H2]. split; [by apply keys_ok_remove|]. intros Hn l. rewrite assoc_get_remove. case_decide; [done|by apply H2].
Qed.

Lemma shallow_depth n key v : value_depth v <= pred n -> shallow_value n key v.
Proof.
  intros Hv. split; [apply key_ok_depth; lia|]. intros -> _ l ->. simpl in Hv. lia.
Qed.

(** A field that holds no schema. *)
Lemma shallow_other n key v : key ∉ ["items"; "properties"; "anyOf"; "allOf"; "type"] -> shallow_value n key v.
Proof. intros Hk. repeat split; intros; set_solver. Qed.

Lemma shallow_type n s : shallow_value n "type" (JString s).
Proof. repeat split; intros; set_solver. Qed.

Lemma or_insert_Forall (P : string * Value -> Prop) fields key v :
  Forall P fields -> P (key, v) -> Forall P (or_insert fields key v).
Proof. intros Hf Hv. unfold or_insert. destruct (assoc_get fields key); [done|]. by apply assoc_set_Forall. Qed.

Lemma merge_properties_Forall (P : string * Value -> Prop) target source :
  Forall P target -> Forall P source -> Forall P (merge_properties target source).
Proof.
  intros Ht Hs. revert target Ht. unfold merge_properties. induction Hs as [|[k v] l Hk _ IH]; intros t Ht; [done|].
  simpl. apply IH. by apply or_insert_Forall.
Qed.

Lemma merge_field_shallow n object kv :
  shallow n object -> value_depth (snd kv) <= pred n -> shallow n (merge_field object kv).
Proof.
  destruct kv as [key value]. intros Ho Hv. simpl in *. unfold merge_field.
  case_bool_decide as Hp; [|case_bool_decide as Hr; [|by apply shallow_or_insert, shallow_depth]].
  - destruct value as [| | | | |source]; try done.
    assert (Ho' : shallow n (or_insert object "properties" (JObject [])))
      by (apply shallow_or_insert; [done|]; split; [|done]; repeat split; try done; by intros _ ps [= <-]).
    destruct (assoc_get (or_insert object _ _) "properties") as [[| | | | |target]|] eqn:Ht; try done.
    apply shallow_set; [done|]. split; [|done]. repeat split; try done. intros _ ps [= <-].
    apply merge_properties_Forall; [by apply (proj1 Ho' _ _ Ht)|].
    assert (Hs : value_depth (JObject source) <= S (pred n)) by lia. apply depth_object_le in Hs.
    eapply Forall_impl; [exact Hs|]. simpl. lia.
  - destruct value as [| | | |source|]; try done.
    assert (Ho' : shallow n (or_insert object "required" (JArray [])))
      by (apply shallow_or_insert; [done|]; by apply shallow_other; set_solver).
    destruct (assoc_get (or_insert object _ _) "required") as [[| | | |target|]|]; try done.
    apply shallow_set; [done|]. apply shallow_other. set_solver.
Qed.

Lemma merge_member_shallow n object member :
  shallow n object -> value_depth member <= n -> shallow n (merge_member object member).
Proof.
  intros Ho Hm. destruct member as [| | | | |fields]; try done. unfold merge_member.
  destruct n as [|n]; [simpl in Hm; lia|]. apply depth_object_le in Hm. revert object Ho.
  induction Hm as [|kv l Hk _ IH]; intros object Ho; [done|]. simpl. apply IH. by apply merge_field_shallow.
Qed.

Lemma flatten_all_of_shallow n object : shallow n object -> shallow n (snd (flatten_all_of object)).
Proof.
  intros Ho. unfold flatten_all_of. pose proof (shallow_remove n object "allOf" Ho) as Hr.
  destruct (assoc_get object "allOf") as [[| | | |members|]|] eqn:Hm; try done. simpl.
  assert (Hall : Forall (fun v => value_depth v <= n) members) by (apply (proj1 Ho _ _ Hm); [set_solver|done]).
  clear Hm. revert Hr. generalize (map_remove object "allOf"). induction Hall as [|m l Hd _ IH]; intros o Hr; [done|].
  simpl. apply IH. by apply merge_member_shallow.
Qed.

Lemma rewrite_const_shallow n object : shallow n object -> shallow n (snd (rewrite_const object)).
Proof.
  intros Ho. unfold rewrite_const. destruct (assoc_get object "const"); [|done]. simpl.
  apply shallow_or_insert; [|apply shallow_type]. apply shallow_set; [by apply shallow_remove|]. apply shallow_other. set_solver.
Qed.

Lemma set_nullable_shallow n b object : shallow n object -> shallow n (set_nullable b object).
Proof. intros Ho. destruct b; [|done]. apply shallow_set; [done|]. apply shallow_other. set_solver. Qed.

Lemma shallow_any_of n members : Forall (fun v => value_depth v <= n) members -> shallow_value n "anyOf" (JArray members).
Proof. intros Hm. split; [|done]. repeat split; try done. by intros _ l [= <-]. Qed.

Lemma rewrite_types_shallow n object : shallow n object -> shallow n (snd (rewrite_types object)).
Proof.
  intros Ho. unfold rewrite_types. destruct (assoc_get object "type") as [[| | | |types|]|] eqn:Ht; try done. simpl.
  set (names := filter _ _). pose proof (set_nullable_shallow n (bool_decide ("null" ∈ omap as_str types)) _
    (shallow_remove n object "type" Ho)) as Hr.
  destruct names as [|only [|second rest]]; [done|by apply shallow_set, shallow_type|].
  apply shallow_set; [done|]. apply shallow_any_of.
  change (Forall (fun v => value_depth v <= n) ((fun kind => JObject [("type", JString kind)]) <$> (only :: second :: rest))).
  apply Forall_fmap, Forall_true. intros kind. simpl. destruct n; [|lia]. by destruct (proj2 Ho eq_refl types).
Qed.

Lemma collapse_any_of_shallow n object : shallow n object -> shallow n (snd (collapse_any_of object)).
Proof.
  intros Ho. unfold collapse_any_of. destruct (assoc_get object "anyOf") as [[| | | |members|]|] eqn:Hm; try done.
  set (nullable := existsb _ _). destruct (_ || nullable); [|done]. simpl.
  pose proof (set_nullable_shallow n nullable _ (shallow_remove n object "anyOf" Ho)) as Hr.
  assert (Hall : Forall (fun v => value_depth v <= n) (filter (fun m => ~ is_null_schema m) members)).
  { apply Forall_forall. intros x [_ Hx]%list_elem_of_filter. revert x Hx. apply Forall_forall.
    apply (proj1 Ho _ _ Hm); [set_solver|done]. }
  destruct (filter _ members) as [|only [|second rest]]; [done| |].
  - destruct only as [| | | | |member]; try done. apply Forall_cons in Hall as [Hd _].
    destruct n as [|n]; [simpl in Hd; lia|]. apply depth_object_le in Hd. revert Hr. generalize (set_nullable nullable (map_remove object "anyOf")).
    induction Hd as [|[k v] l Hk _ IH]; intros o Hr; [done|]. simpl. apply IH. by apply shallow_or_insert, shallow_depth.
  - pose proof (shallow_set n _ _ _ Hr (shallow_any_of n _ Hall)). by destruct only.
Qed.

Lemma rewrite_shallow n object : shallow n object -> shallow n (snd (rewrite_schema_structure object)).
Proof.
  intros H1%flatten_all_of_shallow. unfold rewrite_schema_structure. destruct (flatten_all_of object) as [c1 o1].
  apply rewrite_const_shallow in H1. simpl in H1. destruct (rewrite_const o1) as [c2 o2].
  apply rewrite_types_shallow in H1. simpl in H1. destruct (rewrite_types o2) as [c3 o3].
  apply collapse_any_of_shallow in H1. simpl in H1. by destruct (collapse_any_of o3) as [c4 o4].
Qed.

Lemma rewrite_loop_shallow n guard object : shallow n object -> shallow n (rewrite_loop guard object).
Proof.
  revert object. induction guard as [|guard IH]; intros object Ho; cbn [rewrite_loop];
    pose proof (rewrite_shallow n object Ho) as Hr; destruct (rewrite_schema_structure object) as [[] o]; auto.
Qed.

(** ** What is left of a schema *)

(** A node that is an object: only allowed keywords, a type or alternatives,
    items where the type is array, the type string where there is an enumeration,
    one of the two known formats; and so on for the schemas below it.  Schemas
    that are not objects ([true], say) and the members of an enumeration are not
    looked at. *)
Definition restricted_fields (fields : Fields) : Prop :=
  (forall k v, assoc_get fields k = Some v -> k ∈ ALLOWED)
  /\ (contains_key fields "type" = true \/ contains_key fields "anyOf" = true)
  /\ (str_at fields "type" = Some "array" -> contains_key fields "items" = true)
  /\ (contains_key fields "enum" = true -> str_at fields "type" = Some "string")
  /\ (forall format, str_at fields "format" = Some format -> format ∈ ["enum"; "date-time"]).

Inductive restricted : Value -> Prop :=
| restricted_scalar v : value_depth v = 0 -> restricted v
| restricted_array l : Forall restricted l -> restricted (JArray l)
| restricted_object fields : restricted_fields fields -> keys_ok restricted fields -> restricted (JObject fields).

Lemma contains_key_get fields fields' key :
  assoc_get fields key = assoc_get fields' key -> contains_key fields key = contains_key fields' key.
Proof. unfold contains_key. by intros ->. Qed.

(** What the fields of a node promise before the children are visited. *)
Definition cleaned (fields : Fields) : Prop :=
  (contains_key fields "type" = true \/ contains_key fields "anyOf" = true)
  /\ (str_at fields "type" = Some "array" -> contains_key fields "items" = true)
  /\ (contains_key fields "enum" = true -> str_at fields "type" = Some "string")
  /\ (forall format, str_at fields "format" = Some format -> format ∈ ["enum"; "date-time"]).

Lemma add_items_ok object :
  str_at (add_items object) "type" = Some "array" -> contains_key (add_items object) "items" = true.
Proof.
  unfold add_items. destruct (bool_decide _ && _) eqn:Hb.
  - intros _. unfold contains_key. rewrite assoc_get_set, decide_True by done. done.
  - intros Ht. rewrite bool_decide_eq_true_2 in Hb by done. simpl in Hb. by apply negb_false_iff in Hb.
Qed.

Lemma check_enum_ok object :
  (str_at object "type" = Some "array" -> contains_key object "items" = true) ->
  (str_at (check_enum object) "type" = Some "array" -> contains_key (check_enum object) "items" = true)
  /\ (contains_key (check_enum object) "enum" = true -> str_at (check_enum object) "type" = Some "string").
Proof.
  intros Hi. unfold check_enum. destruct (contains_key object "enum") eqn:He; [|by rewrite He].
  destruct (str_at object "type") as [t|] eqn:Ht.
  - case_bool_decide as Hs; [subst; by rewrite Ht|]. unfold str_at, contains_key in *. rewrite !assoc_get_remove. simpl.
    rewrite Ht. split; [by intros; apply Hi|done].
  - unfold str_at, contains_key. rewrite !assoc_get_set. simpl. done.
Qed.

Lemma add_type_ok object :
  let object' := add_type object in
  (contains_key object' "type" = true \/ contains_key object' "anyOf" = true \/ contains_key object' "enum" = true)
  /\ (forall k, k <> "type" -> assoc_get object' k = assoc_get object k)
  /\ (str_at object' "type" = str_at object "type" \/ (contains_key object "enum" = false /\ str_at object' "type" = Some "object")).
Proof.
  intros object'. unfold object', add_type.
  destruct (contains_key object "type") eqn:H1, (contains_key object "anyOf") eqn:H2, (contains_key object "enum") eqn:H3;
    simpl; rewrite ?H1, ?H2, ?H3; try (split; [auto|split; [done|auto]]).
  split; [left; unfold contains_key; by rewrite assoc_get_set, decide_True|]. split.
  - intros k Hk. by rewrite assoc_get_set, decide_False.
  - right. split; [done|]. unfold str_at. by rewrite assoc_get_set, decide_True.
Qed.

Lemma check_format_ok object :
  (forall k, k <> "format" -> assoc_get (check_format object) k = assoc_get object k)
  /\ (forall format, str_at (check_format object) "format" = Some format -> format ∈ ["enum"; "date-time"]).
Proof.
  unfold check_format. destruct (str_at object "format") as [f|] eqn:Hf; [|split; [done|by rewrite Hf]].
  case_bool_decide as Hin; [split; [done|]; rewrite Hf; by intros ? [= <-]|]. split.
  - intros k Hk. by rewrite assoc_get_remove, decide_False.
  - unfold str_at. rewrite assoc_get_remove, decide_True by done. done.
Qed.

Lemma clean_fields_ok object : cleaned (clean_fields object).
Proof.
  unfold clean_fields. set (o1 := add_items _). pose proof (add_items_ok (rewrite_loop 64 object)) as H1. fold o1 in H1.
  destruct (check_enum_ok o1 H1) as [H2 H3]. set (o2 := check_enum o1) in *. set (o3 := map_remove o2 _).
  assert (Hget : forall k, k <> "additionalProperties" -> assoc_get o3 k = assoc_get o2 k).
  { intros k Hk. unfold o3. by rewrite assoc_get_remove, decide_False. }
  destruct (add_type_ok o3) as (H4 & H5 & H6). set (o4 := add_type o3) in *.
  destruct (check_format_ok o4) as [H7 H8]. set (o5 := check_format o4) in *.
  assert (Henum : contains_key o4 "enum" = contains_key o2 "enum") by (apply contains_key_get; by rewrite H5, Hget).
  assert (Hitems : contains_key o4 "items" = contains_key o2 "items") by (apply contains_key_get; by rewrite H5, Hget).
  assert (Htype2 : str_at o3 "type" = str_at o2 "type") by (unfold str_at; by rewrite Hget).
  assert (Henum3 : contains_key o3 "enum" = contains_key o2 "enum") by (apply contains_key_get; by rewrite Hget).
  assert (Hstr : contains_key o4 "enum" = true -> str_at o4 "type" = Some "string").
  { rewrite Henum. intros He. destruct H6 as [Ht|[Hn _]]; [rewrite Ht, Htype2; auto|congruence]. }
  unfold cleaned. rewrite !(contains_key_get o5 o4) by by apply H7.
  assert (Htype : str_at o5 "type" = str_at o4 "type") by (unfold str_at; by rewrite H7). rewrite Htype.
  split; [|split; [|split; [done|done]]].
  - destruct H4 as [H4|[H4|H4]]; auto. left. specialize (Hstr H4). unfold str_at, contains_key in *.
    destruct (assoc_get o4 "type"); [by apply bool_decide_eq_true_2|done].
  - intros Ha. rewrite Hitems. destruct H6 as [Ht|[_ Ht]]; [|congruence]. apply H2. by rewrite <- Htype2, <- Ht.
Qed.

(** The children of a cleaned node. *)
Lemma clean_fields_children n object :
  shallow n object -> keys_ok (fun v => value_depth v <= n \/ v = JObject [("type", JString "object")]) (clean_fields object).
Proof.
  intros Ho%(rewrite_loop_shallow n 64). unfold clean_fields. set (o := rewrite_loop 64 object) in *. clearbody o.
  assert (H1 : keys_ok (fun v => value_depth v <= n \/ v = JObject [("type", JString "object")]) o).
  { intros k v Hv. eapply key_ok_impl; [|by apply (proj1 Ho)]. auto. }
  assert (H2 : keys_ok (fun v => value_depth v <= n \/ v = JObject [("type", JString "object")]) (add_items o)).
  { unfold add_items. destruct (_ && _); [|done]. apply keys_ok_set; [done|]. repeat split; [auto|done|set_solver]. }
  assert (Htype : forall (P : Value -> Prop) s, key_ok P "type" (JString s)) by (intros P s; by repeat split).
  assert (H3 : keys_ok (fun v => value_depth v <= n \/ v = JObject [("type", JString "object")]) (check_enum (add_items o))).
  { unfold check_enum. destruct (contains_key _ _); [|done]. destruct (str_at _ _).
    - case_bool_decide; [done|by apply keys_ok_remove].
    - by apply keys_ok_set. }
  apply (keys_ok_remove _ _ "additionalProperties") in H3. set (o3 := map_remove _ _) in *. clearbody o3.
  assert (H4 : keys_ok (fun v => value_depth v <= n \/ v = JObject [("type", JString "object")]) (add_type o3)).
  { unfold add_type. destruct (_ && _ && _); [by apply keys_ok_set|done]. }
  unfold check_format. destruct (str_at _ _); [|done]. case_bool_decide; [done|by apply keys_ok_remove].
Qed.

(** Membership in a list of names. *)
Ltac listed := apply (bool_decide_unpack _); vm_compute; exact I.

Lemma assoc_get_allowed (fields : Fields) k :
  assoc_get (filter (fun kv => fst kv ∈ ALLOWED) fields) k = if decide (k ∈ ALLOWED) then assoc_get fields k else None.
Proof. exact (assoc_get_keep (fun k => k ∈ ALLOWED) fields k). Qed.

Lemma clean_object fuel fields :
  keys_ok (fun v => exists v', clean_schema_node fuel v = Some v' /\ restricted v') (clean_fields fields) ->
  exists v', clean_schema_node (S fuel) (JObject fields) = Some v' /\ restricted v'.
Proof.
  intros Hc. destruct (for_each_child_total (clean_schema_node fuel) (clean_fields fields)) as (f' & Hf' & Hget).
  { intros k v Hv. eapply key_ok_impl; [|by apply Hc]. intros w (w' & Hw & _). by eexists. }
  cbn [clean_schema_node]. rewrite Hf'. eexists. split; [done|].
  assert (Hkept : forall k, k ∈ ALLOWED ->
    assoc_get (filter (fun kv => fst kv ∈ ALLOWED) f') k = visited (clean_schema_node fuel) (clean_fields fields) k).
  { intros k Hk. rewrite assoc_get_allowed, decide_True by done. apply Hget. }
  apply restricted_object.
  - destruct (clean_fields_ok fields) as (H1 & H2 & H3 & H4).
    assert (Hsame : forall k, k ∈ ["type"; "enum"; "format"] ->
      assoc_get (filter (fun kv => fst kv ∈ ALLOWED) f') k = assoc_get (clean_fields fields) k).
    { intros k Hk. repeat (apply elem_of_cons in Hk as [->|Hk]); [by rewrite Hkept by listed..|by apply elem_of_nil in Hk]. }
    assert (Hpresent : forall k, k ∈ ["items"; "anyOf"] ->
      contains_key (clean_fields fields) k = true -> contains_key (filter (fun kv => fst kv ∈ ALLOWED) f') k = true).
    { intros k Hk. unfold contains_key. rewrite !bool_decide_eq_true. intros [v Hv].
      rewrite Hkept by (repeat (apply elem_of_cons in Hk as [->|Hk]); [listed..|by apply elem_of_nil in Hk]).
      unfold visited. rewrite Hv.
      destruct (Hc _ _ Hv) as (Hi & _ & Ha). destruct (decide (k = "items")) as [->|Hn].
      - destruct (Hi eq_refl) as (v' & Hv' & _). by exists v'.
      - apply elem_of_cons in Hk as [|Hk]; [done|]. apply list_elem_of_singleton in Hk as ->.
        rewrite decide_False, decide_True by (done || listed). cbn [mbind option_bind]. apply visit_members_total. intros l ->.
        eapply Forall_impl; [apply (Ha ltac:(listed) l eq_refl)|]. intros w (w' & Hw & _). by eexists. }
    unfold restricted_fields, str_at. rewrite !Hsame by listed. split; [|split; [|split; [|split]]].
    + intros k v. rewrite assoc_get_allowed. by case_decide.
    + destruct H1 as [H1|H1]; [left|right; by apply Hpresent; [listed|]].
      rewrite (contains_key_get _ (clean_fields fields)); [done|]. apply Hsame. listed.
    + intros Ht. apply Hpresent; [listed|]. by apply H2.
    + rewrite (contains_key_get _ (clean_fields fields)) by (apply Hsame; listed). done.
    + done.
  - intros k v. rewrite assoc_get_allowed. case_decide as Hk; [|done]. rewrite Hget. intros Hv.
    eapply visited_ok; [exact Hc| |exact Hv]. intros w w' (w'' & Hw & Ha) Hw'. congruence.
Qed.

Lemma clean_leaf fuel :
  exists v', clean_schema_node (S fuel) (JObject [("type", JString "object")]) = Some v' /\ restricted v'.
Proof.
  apply clean_object. assert (Hc : clean_fields [("type", JString "object")] = [("type", JString "object")]) by (vm_compute; reflexivity).
  rewrite Hc. intros k v. simpl. case_decide; [|done]. intros [= <-]. subst. by repeat split.
Qed.

Lemma clean_restricted fuel v : value_depth v < fuel -> exists v', clean_schema_node fuel v = Some v' /\ restricted v'.
Proof.
  revert v. induction fuel as [|fuel IH]; intros v Hv; [lia|].
  destruct v as [| | | |l|fields]; try (eexists; split; [reflexivity|by apply restricted_scalar]).
  - assert (Hl : value_depth (JArray l) <= S (pred (value_depth (JArray l)))) by (simpl; lia). apply depth_array_le in Hl.
    assert (Hall : Forall (fun w => exists w', clean_schema_node fuel w = Some w' /\ restricted w') l).
    { eapply Forall_impl; [exact Hl|]. intros w Hw. apply IH. simpl in *. lia. }
    cbn [clean_schema_node]. clear Hv Hl. assert (exists l', mapM (clean_schema_node fuel) l = Some l' /\ Forall restricted l')
      as (l' & -> & Hl'); [|eexists; split; [done|by apply restricted_array]].
    induction Hall as [|w l (w' & Hw & Ha) _ (l' & Hl' & Hal)]; [by exists []|]. exists (w' :: l').
    cbn [mapM]. rewrite Hw. cbn [mbind option_bind]. rewrite Hl'. split; [done|by constructor].
  - apply clean_object. assert (Hl : value_depth (JObject fields) <= S (pred (value_depth (JObject fields)))) by (simpl; lia).
    apply depth_object_le in Hl. set (n := pred _) in *. assert (Hn : n < fuel) by (unfold n; simpl in *; lia).
    assert (Hs : shallow n fields).
    { split; [intros k w Hw; apply key_ok_depth; by eapply get_depth|]. intros Hz l Hw. pose proof (get_depth _ _ _ _ Hl Hw).
      simpl in *. lia. }
    intros k w Hw. eapply key_ok_impl; [|by apply (clean_fields_children n fields Hs)].
    intros x [Hx| ->]; [apply IH; lia|]. destruct fuel; [lia|]. apply clean_leaf.
Qed.

(** ** Schemas that are in form already *)

(** Nothing of the node is rewritten: its type is not a list, and its
    alternatives are neither a single one nor include the null type. *)
Definition unwrapped (fields : Fields) : Prop :=
  (forall l, assoc_get fields "type" <> Some (JArray l))
  /\ forall l, assoc_get fields "anyOf" = Some (JArray l) -> length l <> 1 /\ Forall (fun m => ~ is_null_schema m) l.

Inductive settled : Value -> Prop :=
| settled_scalar v : value_depth v = 0 -> settled v
| settled_array l : Forall settled l -> settled (JArray l)
| settled_object fields : restricted_fields fields -> unwrapped fields -> keys_ok settled fields -> settled (JObject fields).

Lemma assoc_set_same fields key v : assoc_get fields key = Some v -> assoc_set fields key v = fields.
Proof.
  induction fields as [|[k w] l IH]; [done|]. simpl. case_decide; [by intros [= ->]|]. intros Hl. by rewrite IH.
Qed.

Lemma map_remove_absent fields key : assoc_get fields key = None -> map_remove fields key = fields.
Proof.
  unfold map_remove. induction fields as [|[k w] l IH]; [done|]. simpl. case_decide; [done|]. intros Hl.
  rewrite filter_cons_True by done. by rewrite IH.
Qed.

Lemma mapM_same {A} (f : A -> option A) l : Forall (fun x => f x = Some x) l -> mapM f l = Some l.
Proof. intros Hl. apply mapM_Some. induction Hl; by constructor. Qed.

Lemma filter_same {A} (P : A -> Prop) `{!forall x, Decision (P x)} (l : list A) : (forall x, x ∈ l -> P x) -> filter P l = l.
Proof.
  induction l as [|x l IH]; [done|]. intros Hl. rewrite filter_cons_True by (apply Hl; left). f_equal. apply IH.
  intros y Hy. apply Hl. by right.
Qed.

Lemma update_key_same f key fields :
  (forall v, assoc_get fields key = Some v -> f v = Some v) -> update_key f key fields = Some fields.
Proof.
  intros Hf. unfold update_key. destruct (assoc_get fields key) as [v|] eqn:Hv; [|done]. rewrite Hf by done.
  simpl. by rewrite assoc_set_same.
Qed.

Lemma for_each_child_same f fields : keys_ok (fun v => f v = Some v) fields -> for_each_child_schema f fields = Some fields.
Proof.
  intros Hf. unfold for_each_child_schema.
  assert (Hmembers : forall key, key ∈ ["anyOf"; "allOf"] -> update_key (visit_members f) key fields = Some fields).
  { intros key Hk. apply update_key_same. intros v Hv. destruct v as [| | | |l|]; try done. simpl.
    by rewrite (mapM_same f l) by (by apply (Hf _ _ Hv)). }
  rewrite (update_key_same f "items") by (intros v Hv; by apply (Hf _ _ Hv)). cbn [mbind option_bind].
  rewrite (update_key_same (visit_values f) "properties"); cbn [mbind option_bind].
  - rewrite Hmembers by listed. cbn [mbind option_bind]. apply Hmembers. listed.
  - intros v Hv. destruct v as [| | | | |ps]; try done. simpl. rewrite mapM_same; [done|].
    eapply Forall_impl; [by apply (Hf _ _ Hv)|]. intros [k w] Hw. unfold visit_field. simpl in *. by rewrite Hw.
Qed.

Lemma restricted_absent fields key : restricted_fields fields -> key ∉ ALLOWED -> assoc_get fields key = None.
Proof. intros [Hf _] Hk. destruct (assoc_get fields key) eqn:E; [by apply Hf in E|done]. Qed.

Ltac unlisted := apply (bool_decide_unpack _); vm_compute; exact I.

Lemma rewrite_settled fields : restricted_fields fields -> unwrapped fields -> rewrite_schema_structure fields = (false, fields).
Proof.
  intros Hr [Ht Ha]. unfold rewrite_schema_structure, flatten_all_of.
  rewrite (restricted_absent fields "allOf" Hr) by unlisted. rewrite map_remove_absent by (apply restricted_absent; [done|unlisted]).
  unfold rewrite_const. rewrite (restricted_absent fields "const" Hr) by unlisted. unfold rewrite_types.
  destruct (assoc_get fields "type") as [[| | | |l|]|] eqn:Et; try (by destruct (Ht l)); unfold collapse_any_of;
    (destruct (assoc_get fields "anyOf") as [[| | | |members|]|] eqn:Ea; try done;
     destruct (Ha _ eq_refl) as [Hlen Hn]; rewrite bool_decide_eq_false_2 by done;
     (assert (existsb (fun m => bool_decide (is_null_schema m)) members = false) as ->; [|done]);
     apply not_true_iff_false; rewrite existsb_exists; intros (m & Hin & Hm); apply bool_decide_eq_true in Hm;
     rewrite Forall_forall in Hn; apply (Hn m); [by apply list_elem_of_In|done]).
Qed.

Lemma clean_fields_settled fields : restricted_fields fields -> unwrapped fields -> clean_fields fields = fields.
Proof.
  intros Hr Hu. unfold clean_fields. simpl rewrite_loop. rewrite (rewrite_settled fields Hr Hu).
  pose proof Hr as (_ & H1 & H2 & H3 & H4).
  assert (add_items fields = fields) as ->.
  { unfold add_items. case_bool_decide as Ht; [|done]. by rewrite H2. }
  assert (check_enum fields = fields) as ->.
  { unfold check_enum. destruct (contains_key fields "enum"); [|done]. by rewrite H3. }
  rewrite map_remove_absent by (apply restricted_absent; [done|unlisted]).
  assert (add_type fields = fields) as ->.
  { unfold add_type. destruct H1 as [->| ->]; [done|]. by rewrite andb_false_r. }
  unfold check_format. destruct (str_at fields "format") as [format|] eqn:Ef; [|done].
  by rewrite bool_decide_eq_true_2 by (by apply H4).
Qed.

Lemma keys_ok_below fields (P : Value -> Prop) n : value_depth (JObject fields) < S n -> keys_ok P fields ->
  keys_ok (fun v => value_depth v < n /\ P v) fields.
Proof.
  intros Hd HP k v Hv. assert (value_depth (JObject fields) <= S (pred n)) as Hl%depth_object_le by (simpl in *; lia).
  assert (0 < n) as Hn by (simpl in *; lia).
  pose proof (key_ok_depth _ k v (get_depth _ _ _ _ Hl Hv)) as (D1 & D2 & D3). destruct (HP k v Hv) as (P1 & P2 & P3).
  repeat split; intros; [specialize (D1 ltac:(done)); lia|auto|..]; apply Forall_and; split; auto;
    (eapply Forall_impl; [by (apply D2 || apply D3)|]); simpl; intros; lia.
Qed.

Lemma clean_settled fuel v : value_depth v < fuel -> settled v -> clean_schema_node fuel v = Some v.
Proof.
  revert v. induction fuel as [|fuel IH]; intros v Hd Hv; [lia|].
  destruct Hv as [v Hv|l Hl|fields Hr Hu Hk]; [by destruct v|..].
  - cbn [clean_schema_node]. rewrite mapM_same; [done|].
    assert (value_depth (JArray l) <= S (pred fuel)) as Hb%depth_array_le by (simpl in *; lia).
    assert (0 < fuel) by (simpl in *; lia).
    rewrite Forall_forall in Hl, Hb |- *. intros x Hx. apply IH; [specialize (Hb x Hx); lia|by apply Hl].
  - cbn [clean_schema_node]. rewrite clean_fields_settled by done. rewrite for_each_child_same.
    + simpl. f_equal. f_equal. apply filter_same. intros [k w] Hw. simpl.
      assert (is_Some (assoc_get fields k)) as [x Hx]; [|by apply (proj1 Hr k x)].
      clear -Hw. induction fields as [|[j u] l IHl]; [by apply elem_of_nil in Hw|]. simpl. case_decide; [by eexists|].
      apply elem_of_cons in Hw as [[= <- <-]|Hw]; [done|by apply IHl].
    + intros k w Hw. eapply key_ok_impl; [|by apply (keys_ok_below fields settled fuel Hd Hk)].
      intros x [Hx Hs]. by apply IH.
Qed.

Lemma inline_settled fuel definitions chain v : value_depth v < fuel -> settled v -> inline_refs fuel definitions chain v = Some v.
Proof.
  revert v. induction fuel as [|fuel IH]; intros v Hd Hv; [lia|].
  destruct Hv as [v Hv|l Hl|fields Hr Hu Hk]; [by destruct v|..].
  - cbn [inline_refs]. change (get_str (JArray l) "$ref") with (@None string). cbn beta iota. rewrite mapM_same; [done|].
    assert (value_depth (JArray l) <= S (pred fuel)) as Hb%depth_array_le by (simpl in *; lia).
    assert (0 < fuel) by (simpl in *; lia).
    rewrite Forall_forall in Hl, Hb |- *. intros x Hx. apply IH; [specialize (Hb x Hx); lia|by apply Hl].
  - cbn [inline_refs]. assert (get_str (JObject fields) "$ref" = None) as ->.
    { unfold get_str. cbn. by rewrite (restricted_absent fields "$ref" Hr) by unlisted. }
    rewrite (map_remove_absent fields "$defs") by (apply restricted_absent; [done|unlisted]).
    rewrite (map_remove_absent fields "definitions") by (apply restricted_absent; [done|unlisted]).
    rewrite for_each_child_same; [done|].
    intros k w Hw. eapply key_ok_impl; [|by apply (keys_ok_below fields settled fuel Hd Hk)].
    intros x [Hx Hs]. by apply IH.
Qed.

Lemma take_definitions_settled v : settled v -> take_definitions v = ([], v).
Proof.
  intros [w Hw|l Hl|fields Hr Hu Hk]; [by destruct w|done|]. unfold take_definitions.
  rewrite (restricted_absent fields "$defs" Hr) by unlisted. cbn.
  rewrite (map_remove_absent fields "$defs") by (apply restricted_absent; [done|unlisted]).
  rewrite (restricted_absent fields "definitions" Hr) by unlisted. cbn.
  by rewrite map_remove_absent by (apply restricted_absent; [done|unlisted]).
Qed.

Lemma normalize_settled v : settled v -> normalize_gemini_schema v = Some v.
Proof.
  intros Hv. unfold normalize_gemini_schema. rewrite take_definitions_settled by done.
  rewrite inline_settled by (done || (unfold inline_fuel; lia)). cbn [mbind option_bind]. apply clean_settled; [lia|done].
Qed.

(** C33: every schema is normalised, and normalising restricts it without
    touching what is in form already.  The inlining of references ends, on cyclic
    definitions too, and the rewriting of compound schemas ends.  In the schema
    that results and in all schemas nested in it, a node that is an object has
    only the allowed keywords, a type or a choice of schemas, items if its type
    is array, the type string if it enumerates values, and no format but the two
    known.  And a schema all of whose nodes are like that, and whose types are no
    lists and choices neither single nor nullable, comes out unchanged.  (This is
    not all that Gemini asks: nested schemas that are not objects, members of an
    enumeration and names of types are left as they are,
    [restriction_is_not_acceptance].) *)
Theorem schema_normalization_restricts schema :
  (exists v, normalize_gemini_schema schema = Some v /\ restricted v)
  /\ (settled schema -> normalize_gemini_schema schema = Some schema).
Proof.
  split; [|apply normalize_settled].
  unfold normalize_gemini_schema. destruct (take_definitions schema) as [definitions root].
  destruct (inline_fuel_enough definitions root) as [inlined ->]. cbn [mbind option_bind].
  apply clean_restricted. lia.
Qed.

Module SchemaExample.

(** [schema_normalization_flattens_and_makes_nullable] of the source's tests. *)
Definition person : Value :=
  JObject [("allOf", JArray
     [JObject [("type", JString "object");
               ("properties", JObject [("name", JObject [("type", JString "string")])]);
               ("required", JArray [JString "name"])];
      JObject [("properties", JObject [("age", JObject [("type", JArray [JString "integer"; JString "null"])])]);
               ("required", JArray [JString "age"])]]);
    ("additionalProperties", JBool false)].

Example person_is_flattened :
  normalize_gemini_schema person
  = Some (JObject [("type", JString "object");
       ("properties", JObject [("name", JObject [("type", JString "string")]);
                               ("age", JObject [("nullable", JBool true); ("type", JString "integer")])]);
       ("required", JArray [JString "name"; JString "age"])]).
Proof. vm_compute. reflexivity. Qed.

(** A list whose nodes refer to the list itself: the reference inside is
    followed once and then dropped. *)
Definition linked : Value :=
  JObject [("$ref", JString "#/$defs/node");
    ("$defs", JObject [("node", JObject [("type", JString "object");
       ("properties", JObject [("next", JObject [("$ref", JString "#/$defs/node")])])])])].

Example linked_ends :
  normalize_gemini_schema linked
  = Some (JObject [("type", JString "object");
                   ("properties", JObject [("next", JObject [("type", JString "object")])])]).
Proof. vm_compute. reflexivity. Qed.

(** What restricting leaves alone: an untyped enumeration of numbers gets the
    type string and keeps its numbers, the schema [true] stays a boolean, and so
    does a type that is no string. *)
Theorem restriction_is_not_acceptance :
  normalize_gemini_schema (JObject [("enum", JArray [JNumber (JInt 1); JNumber (JInt 2)])])
  = Some (JObject [("enum", JArray [JNumber (JInt 1); JNumber (JInt 2)]); ("type", JString "string")])
  /\ normalize_gemini_schema (JObject [("type", JString "array"); ("items", JBool true)])
     = Some (JObject [("type", JString "array"); ("items", JBool true)])
  /\ normalize_gemini_schema (JObject [("type", JNull)]) = Some (JObject [("type", JNull)]).
Proof. vm_compute. split_and!; reflexivity. Qed.

(** The normalised person is in form: normalising it again changes nothing. *)
Definition person_normal : Value :=
  JObject [("type", JString "object");
    ("properties", JObject [("name", JObject [("type", JString "string")]);
                            ("age", JObject [("nullable", JBool true); ("type", JString "integer")])]);
    ("required", JArray [JString "name"; JString "age"])].

Ltac in_form :=
  apply settled_object;
  [ split; [intros k v; simpl; repeat (case_decide; [intros _; subst; listed|]); done|];
    split; [by left|]; split; [done|]; split; [done|]; intros format; done
  | split; [intros l; done|done]
  | ].

Lemma person_settled : settled person_normal.
Proof.
  in_form. intros k v. simpl. repeat (case_decide; [intros [= <-]; subst|]); [..|done]; repeat split; try done; try (intros Hin; set_solver).
  intros _ ps [= <-]. repeat (apply Forall_cons; split); [..|by apply Forall_nil]; simpl; in_form;
    (intros k v; simpl; repeat (case_decide; [intros [= <-]; subst|]); [..|done]; by repeat split).
Qed.

Lemma schema_normalization_restricts_witness :
  (exists v, normalize_gemini_schema person = Some v /\ restricted v)
  /\ normalize_gemini_schema person_normal = Some person_normal.
Proof.
  split; [apply (schema_normalization_restricts person)|].
  apply (schema_normalization_restricts person_normal), person_settled.
Defined.

End SchemaExample.
