(* ===== verification/GeminiRequest.v ===== *)
(** * Gateway: requests for Gemini

    [request_to_gemini] of [gateway/src/conversion/semantic.rs]: the contents with
    merged turns and tool results in the order of their calls, the system
    instruction, tools and generation settings; and that Gemini reads what is sent
    as exactly the turns that were understood. *)

From Stdlib Require Import ZArith Lia Ascii.
From stdpp Require Import base list strings gmap numbers option pretty sorting.
From S2P Require Import Prelude Json JsonLines TurnMachine Capture SessionRoute Llm TypedStream StreamChunks StreamText Understanding Conversion ConversionText GeminiSchema.

#[local] Set Warnings "-clear-no-such-hyp".

(** ** Media *)

Definition normalize_mime (mime : string) : string := if bool_decide (mime = "image/jpg") then "image/jpeg" else mime.

Definition MIME_TYPES : list (list string * string) :=
  [(["png"], "image/png"); (["jpg"; "jpeg"], "image/jpeg"); (["webp"], "image/webp"); (["gif"], "image/gif");
   (["pdf"], "application/pdf"); (["mp3"], "audio/mpeg"); (["wav"], "audio/wav"); (["mp4"], "video/mp4");
   (["mov"], "video/quicktime"); (["webm"], "video/webm"); (["txt"], "text/plain")].
Definition mime_from_uri (uri : string) : option string :=
  '(_, extension) ← str_rsplit_once 46 uri;
  snd <$> head (filter (fun row => to_ascii_lowercase extension ∈ fst row) MIME_TYPES).

Definition media_part (key : string) (fields : list (string * Value)) : Value := JObject [(key, JObject fields)].

Definition render_gemini_image (source : LlmImageSource) (media_type : option string) : result ConversionError Value :=
  match source with
  | ImageData data =>
      match str_strip_prefix "data:" data with
      | Some raw =>
          let? url := ok_or (str_split_once 44 raw) BadImage in
          let '(meta, payload) := url in
          let? kind := ok_or (str_split_once 59 meta) BadImage in
          let '(mime, encoding) := kind in
          ensure! eq_ignore_ascii_case encoding "base64" else BadImage in
          Ok (media_part "inlineData" [("mimeType", JString (normalize_mime mime)); ("data", JString payload)])
      | None =>
          Ok (media_part "inlineData" [("mimeType", JString (default "application/octet-stream" media_type));
                                       ("data", JString data)])
      end
  | ImageFile uri =>
      if str_starts_with "gs://" uri then
        let? mime := ok_or (match media_type with Some t => Some t | None => mime_from_uri uri end) BadImage in
        Ok (media_part "fileData" [("mimeType", JString mime); ("fileUri", JString uri)])
      else Err BadImage
  | ImageUrl _ => Err BadImage
  end.

(** ** Contents *)

(** The tool calls seen so far: their name and their place in their message. *)
Abbreviation SeenCalls := (gmap string (string * nat)).
Record GeminiContent := mkContent { gc_role : string; gc_parts : list Value }.

Definition tool_response (content : Value) (is_error : option bool) : Value :=
  let response := match content with JObject _ => content | v => JObject [("content", v)] end in
  if bool_decide (is_error = Some true) then set_field response "error" (JBool true) else response.

Definition gemini_part (calls : SeenCalls) (index : nat) (part : LlmContentPart)
  : result ConversionError (SeenCalls * list Value) :=
  match part with
  | PartText text _ => Ok (calls, if bool_decide (text = "") then [] else [JObject [("text", JString text)]])
  | PartImage source media_type _ => let? v := render_gemini_image source media_type in Ok (calls, [v])
  | PartReasoning text signature =>
      Ok (calls, match non_empty_str text with
                 | Some t => [JObject ([("text", JString t); ("thought", JBool true)]
                                       ++ opt_str_field "thoughtSignature" signature)]
                 | None => []
                 end)
  | PartToolCall id name arguments signature =>
      Ok (<[id := (name, index)]> calls,
          [JObject ([("functionCall", JObject [("name", JString name); ("args", arguments)])]
                    ++ opt_str_field "thoughtSignature" signature)])
  | PartToolResult call_id name content is_error _ =>
      let resolved := match name with Some n => n | None => default "" (fst <$> calls !! call_id) end in
      Ok (calls, [JObject [("functionResponse",
                    JObject [("name", JString resolved); ("response", tool_response content is_error);
                             ("id", JString call_id)])]])
  | PartUnknown _ value => Ok (calls, [value])
  end.

Fixpoint gemini_parts_from (calls : SeenCalls) (index : nat) (parts : list LlmContentPart)
  : result ConversionError (SeenCalls * list Value) :=
  match parts with
  | [] => Ok (calls, [])
  | part :: rest =>
      let? first := gemini_part calls index part in
      let? others := gemini_parts_from (fst first) (S index) rest in
      Ok (fst others, snd first ++ snd others)
  end.

Definition has_field (key : string) (v : Value) : bool := bool_decide (is_Some (json_get v key)).
Definition has_response (parts : list Value) : bool := existsb (has_field "functionResponse") parts.
Definition is_tool_result (p : LlmContentPart) : bool := match p with PartToolResult _ _ _ _ _ => true | _ => false end.
Definition blank_part : Value := JObject [("text", JString " ")].

(** [contents.last()] takes the parts, or a new content does. *)
Definition push_gemini_content (contents : list GeminiContent) (role : string) (function_response : bool)
    (parts : list Value) : list GeminiContent :=
  match parts with
  | [] => contents
  | _ =>
      match last contents with
      | Some c =>
          if bool_decide (gc_role c = role) && eqb (has_response (gc_parts c)) function_response
          then take (pred (length contents)) contents ++ [mkContent role (gc_parts c ++ parts)]
          else contents ++ [mkContent role parts]
      | None => contents ++ [mkContent role parts]
      end
  end.

Definition is_system (role : LlmRole) : bool := bool_decide (role ∈ [RoleSystem; RoleDeveloper]).
Definition gemini_role (role : LlmRole) : string := if decide (role = RoleAssistant) then "model" else "user".
Definition non_empty_texts (parts : list LlmContentPart) : list string := filter (fun t => t <> "") (part_texts parts).

Definition filled_parts (role : string) (function_response : bool) (parts : list Value) : list Value :=
  if bool_decide (role = "user") && negb function_response && negb (existsb (has_field "text") parts)
  then parts ++ [blank_part] else parts.

Record Rendered := mkRendered { rd_calls : SeenCalls; rd_contents : list GeminiContent; rd_system : list string }.

Definition render_gemini_message (r : Rendered) (m : LlmMessage) : result ConversionError Rendered :=
  if is_system (lm_role m) then
    Ok (mkRendered (rd_calls r) (rd_contents r) (rd_system r ++ non_empty_texts (lm_parts m)))
  else
    let role := gemini_role (lm_role m) in
    let function_response := existsb is_tool_result (lm_parts m) in
    let? rendered := gemini_parts_from (rd_calls r) 0 (lm_parts m) in
    Ok (mkRendered (fst rendered)
          (push_gemini_content (rd_contents r) role function_response
             (filled_parts role function_response (snd rendered)))
          (rd_system r)).

(** ** Results in the order of the calls *)

Definition response_key (calls : SeenCalls) (part : Value) : Z :=
  default u64_max
    (response ← json_get part "functionResponse"; id ← get_str response "id"; '(_, index) ← calls !! id; Some (Z.of_nat index)).

(** [sort_by_key] is stable. *)
Fixpoint insert_by_key {A} (key : A -> Z) (v : A) (l : list A) : list A :=
  match l with
  | [] => [v]
  | w :: rest => if (key v <=? key w)%Z then v :: l else w :: insert_by_key key v rest
  end.
Definition sort_by_key {A} (key : A -> Z) (l : list A) : list A := foldr (insert_by_key key) [] l.

Definition remove_response_id (v : Value) : Value :=
  match json_get v "functionResponse" with
  | Some (JObject response) => set_field v "functionResponse" (JObject (map_remove response "id"))
  | _ => v
  end.

Definition order_content (calls : SeenCalls) (c : GeminiContent) : GeminiContent :=
  if has_response (gc_parts c)
  then mkContent (gc_role c) (remove_response_id <$> sort_by_key (response_key calls) (gc_parts c)) else c.

Definition content_value (c : GeminiContent) : Value :=
  JObject [("role", JString (gc_role c)); ("parts", JArray (gc_parts c))].

(** ** The request *)

Fixpoint render_gemini_messages (messages : list LlmMessage) (r : Rendered) : result ConversionError Rendered :=
  match messages with
  | [] => Ok r
  | m :: rest => let? r := render_gemini_message r m in render_gemini_messages rest r
  end.

Definition gemini_contents (r : Rendered) : list GeminiContent :=
  match order_content (rd_calls r) <$> rd_contents r with
  | [] => [mkContent "user" [blank_part]]
  | contents => contents
  end.

(** The schema always has a normal form. *)
Definition normal_schema (schema : Value) : Value := default schema (normalize_gemini_schema schema).

Definition gemini_declaration (tool : LlmToolDefinition) : Value :=
  JObject ([("name", JString (lt_name tool)); ("parameters", normal_schema (lt_input_schema tool))]
           ++ opt_str_field "description" (lt_description tool)).

Definition gemini_tool_fields (r : LlmRequest) : list (string * Value) :=
  match gemini_declaration <$> function_tools r with
  | [] => []
  | declarations => [("tools", JArray [JObject [("functionDeclarations", JArray declarations)]])]
  end.

Definition gemini_tool_choice (choice : LlmToolChoice) : Value :=
  let mode := match tc_mode choice with
              | ChoiceNone => "NONE"
              | ChoiceRequired | ChoiceTool => "ANY"
              | ChoiceAuto => "AUTO"
              end in
  JObject [("functionCallingConfig",
    JObject ([("mode", JString mode)]
             ++ match tc_mode choice, tc_name choice with
                | ChoiceTool, Some name => [("allowedFunctionNames", JArray [JString name])]
                | _, _ => []
                end))].

Definition thinking_budget (effort : string) : option Z :=
  if bool_decide (effort ∈ ["minimal"; "low"]) then Some 1024%Z
  else if bool_decide (effort = "medium") then Some 2048%Z
  else if bool_decide (effort = "high") then Some 4096%Z
  else if bool_decide (effort = "xhigh") then Some 8192%Z
  else if bool_decide (effort = "max") then Some 16384%Z
  else None.

Definition gemini_thinking (g : LlmGenerationParams) (model : string) : option Value :=
  match lg_thinking_budget g with
  | Some budget => Some (JObject [("thinkingBudget", int budget); ("includeThoughts", JBool true)])
  | None =>
      effort ← lg_reasoning_effort g ≫= as_str;
      if str_contains "gemini-3" model then
        if bool_decide (effort = "none") then None
        else Some (JObject [("thinkingLevel", JString effort); ("includeThoughts", JBool true)])
      else (fun budget => JObject [("thinkingBudget", int budget); ("includeThoughts", JBool true)]) <$> thinking_budget effort
  end.

Definition gemini_format_fields (format : LlmResponseFormat) : list (string * Value) :=
  (if bool_decide (rf_kind format = "json_object") || str_contains "json" (rf_kind format)
      || bool_decide (is_Some (rf_schema format))
   then [("responseMimeType", JString "application/json")] else [])
  ++ field_some "responseSchema" (normal_schema <$> rf_schema format).

Definition render_gemini_generation (r : LlmRequest) (model : string) : option Value :=
  let g := lq_generation r in
  match number_field "temperature" (lg_temperature g) ++ number_field "topP" (lg_top_p g)
        ++ int_field "topK" (lg_top_k g) ++ number_field "frequencyPenalty" (lg_frequency_penalty g)
        ++ number_field "presencePenalty" (lg_presence_penalty g) ++ int_field "seed" (lg_seed g)
        ++ int_field "candidateCount" (lg_candidate_count g) ++ int_field "maxOutputTokens" (lg_max_output_tokens g)
        ++ (match lg_stop_sequences g with [] => [] | l => [("stopSequences", JArray (JString <$> l))] end)
        ++ (match lq_response_format r with Some format => gemini_format_fields format | None => [] end)
        ++ field_some "thinkingConfig" (gemini_thinking g model)
  with
  | [] => None
  | config => Some (JObject config)
  end.

Definition gemini_system_texts (r : LlmRequest) (rendered : Rendered) : list string :=
  non_empty_texts (lq_system r ≫= lm_parts) ++ rd_system rendered.

Definition gemini_fields (r : LlmRequest) (model : string) (rendered : Rendered) : list (string * Value) :=
  let cached := extension "google.cached_content" (lq_extensions r) in
  [("contents", JArray (content_value <$> gemini_contents rendered))]
  ++ (if bool_decide (is_Some cached) then []
      else (match gemini_system_texts r rendered with
            | [] => []
            | texts => [("systemInstruction",
                         JObject [("parts", JArray [JObject [("text", JString (join_lines texts))]])])]
            end)
           ++ gemini_tool_fields r
           ++ field_some "toolConfig" (gemini_tool_choice <$> lq_tool_choice r))
  ++ field_some "generationConfig" (render_gemini_generation r model)
  ++ field_some "cachedContent" cached
  ++ field_some "safetySettings" (extension "google.safety_settings" (lq_extensions r))
  ++ field_some "labels" (extension "google.labels" (lq_extensions r)).

Definition request_to_gemini (semantic : LlmRequestEventPayload) (upstream_model : string) : result ConversionError Value :=
  let r := qp_request semantic in
  let? rendered := render_gemini_messages (lq_messages r) (mkRendered ∅ [] []) in
  Ok (JObject (gemini_fields r upstream_model rendered)).

(** ** What Gemini is to read

    The turns of a dialogue, from the parts as they were understood. *)

(** The tool calls made so far, in order: id, name and place in the message. *)
Abbreviation Call := (string * (string * nat))%type.
(** A call id refers to the last call that had it. *)
Definition find_call (calls : list Call) (id : string) : option (string * nat) :=
  snd <$> last (filter (fun call => fst call = id) calls).

Definition part_calls (index : nat) (p : LlmContentPart) : list Call :=
  match p with PartToolCall id name _ _ => [(id, (name, index))] | _ => [] end.
Fixpoint parts_calls (index : nat) (parts : list LlmContentPart) : list Call :=
  match parts with [] => [] | p :: rest => part_calls index p ++ parts_calls (S index) rest end.

(** Empty texts and thoughts are not sent; a result is sent under the name it
    has, or else the name of the call it answers. *)
Definition sent_part (before : list Call) (p : LlmContentPart) : list LlmContentPart :=
  match p with
  | PartText text _ => if bool_decide (text = "") then [] else [part_text text]
  | PartImage source media_type _ =>
      match render_gemini_image source media_type with Ok v => option_list (parse_gemini_part v) | Err _ => [] end
  | PartReasoning (Some text) signature => if bool_decide (text = "") then [] else [PartReasoning (Some text) signature]
  | PartToolCall _ name arguments signature => [PartToolCall "" name arguments signature]
  | PartToolResult call_id name content is_error _ =>
      let name := match name with Some n => n | None => default "" (fst <$> find_call before call_id) end in
      [PartToolResult call_id (Some name) (tool_response content is_error) None None]
  | _ => []
  end.
Fixpoint sent_parts (before : list Call) (index : nat) (parts : list LlmContentPart) : list LlmContentPart :=
  match parts with
  | [] => []
  | p :: rest => sent_part before p ++ sent_parts (before ++ part_calls index p) (S index) rest
  end.

(** The side that speaks, and its parts. *)
Abbreviation Turn := (string * list LlmContentPart)%type.
Definition has_text (p : LlmContentPart) : bool := match p with PartText _ _ | PartReasoning _ _ => true | _ => false end.
Definition answers_calls (parts : list LlmContentPart) : bool := existsb is_tool_result parts.

(** A user's message that neither has text nor answers a call gets a blank. *)
Definition sent_turn (before : list Call) (m : LlmMessage) : Turn :=
  let parts := sent_parts before 0 (lm_parts m) in
  let side := gemini_role (lm_role m) in
  (side, if bool_decide (side = "user") && negb (answers_calls (lm_parts m)) && negb (existsb has_text parts)
         then parts ++ [part_text " "] else parts).

(** Messages of one side in a row are one turn, but answers to calls are kept
    apart from the rest; a message that is empty is no turn. *)
Definition join_turn (l : list Turn) (t : Turn) : list Turn :=
  match snd t with
  | [] => l
  | _ =>
      match last l with
      | Some u =>
          if bool_decide (fst u = fst t) && eqb (answers_calls (snd u)) (answers_calls (snd t))
          then take (pred (length l)) l ++ [(fst t, snd u ++ snd t)] else l ++ [t]
      | None => l ++ [t]
      end
  end.
Fixpoint join_turns (before : list Call) (turns : list Turn) (messages : list LlmMessage) : list Call * list Turn :=
  match messages with
  | [] => (before, turns)
  | m :: rest =>
      if is_system (lm_role m) then join_turns before turns rest
      else join_turns (before ++ parts_calls 0 (lm_parts m)) (join_turn turns (sent_turn before m)) rest
  end.
Definition dialogue (messages : list LlmMessage) : list Call * list Turn :=
  let '(calls, turns) := join_turns [] [] messages in
  (calls, match turns with [] => [("user", [part_text " "])] | _ => turns end).

(** Where a result belongs: the place of the call it answers.  What answers no
    known call comes last. *)
Definition place (calls : list Call) (p : LlmContentPart) : Z :=
  match p with
  | PartToolResult call_id _ _ _ _ => default u64_max ((fun call => Z.of_nat (snd call)) <$> find_call calls call_id)
  | _ => u64_max
  end.

(** [l'] is [l] by rising keys; what has one key keeps its order. *)
Definition stably_sorted {A} (key : A -> Z) (l l' : list A) : Prop :=
  StronglySorted (fun x y => key x <= key y)%Z l' /\ forall k, filter (fun x => key x = k) l' = filter (fun x => key x = k) l.
Definition in_call_order (calls : list Call) (t t' : Turn) : Prop :=
  fst t' = fst t /\ stably_sorted (place calls) (snd t) (snd t').

(** Gemini gets no ids. *)
Definition without_id (p : LlmContentPart) : LlmContentPart :=
  match p with
  | PartToolCall _ name arguments signature => PartToolCall "" name arguments signature
  | PartToolResult _ name content is_error cache => PartToolResult "" name content is_error cache
  | p => p
  end.
Definition turn_message (t : Turn) : LlmMessage :=
  message_new (if bool_decide (fst t = "model") then RoleAssistant else RoleUser) (without_id <$> snd t).
Definition message_without_ids (m : LlmMessage) : LlmMessage :=
  mkLlmMessage (lm_role m) (without_id <$> lm_parts m) (lm_name m) (lm_extensions m).

(** The system texts among the messages. *)
Definition inline_system (l : list LlmMessage) : list string :=
  filter (fun m => is_system (lm_role m) = true) l ≫= (fun m => non_empty_texts (lm_parts m)).

Definition image_ok (p : LlmContentPart) : Prop :=
  match p with PartImage source media_type _ => exists v, render_gemini_image source media_type = Ok v | _ => True end.
Definition message_known (m : LlmMessage) : Prop := Forall known_part (lm_parts m) /\ Forall image_ok (lm_parts m).

(** ** Rendered parts *)

Lemma rendered_image source media_type v :
  render_gemini_image source media_type = Ok v ->
  exists key fields, v = media_part key fields /\ (key = "inlineData" \/ key = "fileData").
Proof.
  assert (Hok : forall key fields, key = "inlineData" \/ key = "fileData" -> Ok (E := ConversionError) (media_part key fields) = Ok v ->
    exists key fields, v = media_part key fields /\ (key = "inlineData" \/ key = "fileData")).
  { intros key fields Hkey Hv. exists key, fields. split; [congruence|done]. }
  unfold render_gemini_image. destruct source as [url|data|uri]; [done| |].
  - destruct (str_strip_prefix "data:" data) as [raw|]; [|apply Hok; auto].
    destruct (str_split_once 44 raw) as [[meta payload]|]; simpl; [|done].
    destruct (str_split_once 59 meta) as [[mime encoding]|]; simpl; [|done].
    destruct (eq_ignore_ascii_case encoding "base64"); [apply Hok; auto|done].
  - destruct (str_starts_with "gs://" uri); [|done].
    destruct (match media_type with Some t => Some t | None => mime_from_uri uri end); simpl; [apply Hok; auto|done].
Qed.

(** The id a rendered result carries. *)
Definition response_id (v : Value) : option string := json_get v "functionResponse" ≫= fun response => get_str response "id".
Definition result_id (p : LlmContentPart) : option string := match p with PartToolResult id _ _ _ _ => Some id | _ => None end.

(** [v] is what was rendered of [p]. *)
Definition part_rendered (v : Value) (p : LlmContentPart) : Prop :=
  parse_gemini_part v = Some p /\ has_field "text" v = has_text p
  /\ has_field "functionResponse" v = is_tool_result p /\ response_id v = result_id p.

(** The map of calls is the list of calls. *)
Definition seen_is (seen : SeenCalls) (calls : list Call) : Prop := forall id, seen !! id = find_call calls id.

Lemma find_call_snoc calls id call id' :
  find_call (calls ++ [(id, call)]) id' = if decide (id = id') then Some call else find_call calls id'.
Proof.
  unfold find_call. rewrite filter_app. case_decide as Hid.
  - rewrite filter_cons_True, filter_nil, last_snoc by done. done.
  - rewrite filter_cons_False, filter_nil, app_nil_r by done. done.
Qed.

Lemma seen_insert seen calls id call : seen_is seen calls -> seen_is (<[id := call]> seen) (calls ++ [(id, call)]).
Proof. intros Hs id'. rewrite find_call_snoc. case_decide; [by simplify_map_eq|]. by rewrite lookup_insert_ne, Hs. Qed.

Lemma gemini_part_rendered seen before i p :
  known_part p -> image_ok p -> seen_is seen before ->
  exists seen' vs, gemini_part seen i p = Ok (seen', vs) /\ seen_is seen' (before ++ part_calls i p)
  /\ Forall2 part_rendered vs (sent_part before p).
Proof.
  intros Hk Hi Hs.
  destruct p as [text cache|image media detail|text sig|id name args sig|c n content err cache|kind value];
    simpl in *; try done; rewrite ?app_nil_r.
  - eexists _, _. split; [done|]. split; [done|]. case_bool_decide; [constructor|]. by repeat constructor.
  - destruct Hi as [v Hv]. rewrite Hv. eexists _, _. split; [done|]. split; [done|].
    destruct (rendered_image _ _ _ Hv) as (key & fields & -> & [-> | ->]); by repeat constructor.
  - eexists _, _. split; [done|]. split; [done|]. unfold non_empty_str. destruct text as [t|]; simpl; [|constructor].
    case_bool_decide; [constructor|]. destruct sig; by repeat constructor.
  - eexists _, _. split; [done|]. split; [by apply seen_insert|]. destruct sig; by repeat constructor.
  - eexists _, _. split; [done|]. split; [done|]. rewrite Hs. by repeat constructor.
Qed.

Lemma gemini_parts_rendered parts seen before i :
  Forall known_part parts -> Forall image_ok parts -> seen_is seen before ->
  exists seen' vs, gemini_parts_from seen i parts = Ok (seen', vs) /\ seen_is seen' (before ++ parts_calls i parts)
  /\ Forall2 part_rendered vs (sent_parts before i parts).
Proof.
  revert seen before i. induction parts as [|p l IH]; intros seen before i.
  { intros _ _ Hs. eexists _, _. split; [done|]. simpl. by rewrite app_nil_r. }
  intros [Hk Hkl]%Forall_cons [Hi Hil]%Forall_cons Hs.
  destruct (gemini_part_rendered seen before i p Hk Hi Hs) as (seen1 & vs1 & H1 & S1 & R1).
  destruct (IH seen1 _ (S i) Hkl Hil S1) as (seen2 & vs2 & H2 & S2 & R2).
  eexists _, _. cbn [gemini_parts_from]. rewrite H1. simpl. rewrite H2. split; [done|].
  split; [by rewrite app_assoc|by apply Forall2_app].
Qed.

(** ** Contents *)

Lemma existsb_Forall2 {A B} (f : A -> bool) (g : B -> bool) (R : A -> B -> Prop) l k :
  (forall x y, R x y -> f x = g y) -> Forall2 R l k -> existsb f l = existsb g k.
Proof. intros Hfg. induction 1 as [|x y l k Hxy _ IH]; [done|]. simpl. by rewrite (Hfg x y Hxy), IH. Qed.

Lemma rendered_answers vs ps : Forall2 part_rendered vs ps -> has_response vs = answers_calls ps.
Proof. apply existsb_Forall2. by intros v p (_ & _ & H & _). Qed.

Lemma rendered_texts vs ps : Forall2 part_rendered vs ps -> existsb (has_field "text") vs = existsb has_text ps.
Proof. apply existsb_Forall2. by intros v p (_ & H & _). Qed.

(** What is sent of a message answers a call if the message does. *)
Lemma sent_parts_answers before i parts : answers_calls (sent_parts before i parts) = answers_calls parts.
Proof.
  unfold answers_calls. revert before i. induction parts as [|p l IH]; intros before i; [done|]. simpl. rewrite existsb_app, IH. f_equal.
  destruct p as [text cache|image media detail|[text|] sig|id name args sig|c n content err cache|kind value]; simpl; try done;
    [by case_bool_decide| |by case_bool_decide].
  destruct (render_gemini_image image media) as [v|] eqn:Hv; [|done].
  by destruct (rendered_image _ _ _ Hv) as (key & fields & -> & [-> | ->]).
Qed.

Lemma sent_turn_answers before m : answers_calls (snd (sent_turn before m)) = answers_calls (lm_parts m).
Proof.
  unfold sent_turn. simpl. destruct (_ && _); [|apply sent_parts_answers]. unfold answers_calls at 1.
  rewrite existsb_app. fold (answers_calls (sent_parts before 0 (lm_parts m))). rewrite sent_parts_answers. simpl. apply orb_false_r.
Qed.

Definition turn_rendered (c : GeminiContent) (t : Turn) : Prop :=
  gc_role c = fst t /\ gc_role c ∈ ["user"; "model"] /\ gc_parts c <> [] /\ Forall2 part_rendered (gc_parts c) (snd t).

Lemma last_Forall2 {A B} (R : A -> B -> Prop) l k : Forall2 R l k ->
  match last l, last k with
  | Some x, Some y => exists l' k', l = l' ++ [x] /\ k = k' ++ [y] /\ Forall2 R l' k' /\ R x y
  | None, None => l = [] /\ k = []
  | _, _ => False
  end.
Proof.
  induction k as [|y k _] using rev_ind; intros H.
  - by apply Forall2_nil_inv_r in H as ->.
  - apply Forall2_app_inv_r in H as (l' & x' & H1 & H2 & ->). apply Forall2_cons_inv_r in H2 as (x & ? & Hx & Hn & ->).
    apply Forall2_nil_inv_r in Hn as ->. rewrite !last_snoc. eauto 10.
Qed.

Lemma push_join contents turns role parts t b :
  Forall2 turn_rendered contents turns -> role = fst t -> role ∈ ["user"; "model"] -> b = answers_calls (snd t) ->
  Forall2 part_rendered parts (snd t) ->
  Forall2 turn_rendered (push_gemini_content contents role b parts) (join_turn turns t).
Proof.
  intros Hc Hrole Hside Hb Hp. unfold push_gemini_content, join_turn. destruct t as [role' ps]. simpl in *. subst role' b.
  destruct Hp as [|v p vs ps Hv Hp]; [done|]. assert (Hcons : Forall2 part_rendered (v :: vs) (p :: ps)) by by constructor.
  clear Hv Hp. revert Hcons. generalize (p :: ps) as ps'. assert (Hne : v :: vs <> []) by done. revert Hne.
  generalize (v :: vs) as vs'. clear v vs p ps. intros vs Hne ps Hp.
  assert (Hone : turn_rendered (mkContent role vs) (role, ps)) by done.
  pose proof (last_Forall2 _ _ _ Hc) as Hl. destruct (last contents) as [c|], (last turns) as [u|]; try done.
  - destruct Hl as (l' & k' & -> & -> & Hl & (H1 & H2 & H3 & H4)). rewrite (rendered_answers _ _ H4), <- H1.
    destruct (bool_decide (gc_role c = role) && _) eqn:Hm.
    + rewrite !length_app. simpl. rewrite !Nat.add_1_r. simpl. rewrite !take_app_length.
      apply Forall2_app; [done|]. constructor; [|done]. repeat split; simpl; [done|by destruct (gc_parts c)|].
      by apply Forall2_app.
    + apply Forall2_app; [by apply Forall2_app; [|constructor]|]. by constructor.
  - by apply Forall2_app; [|constructor].
Qed.

Lemma gemini_role_side role : gemini_role role ∈ ["user"; "model"].
Proof. unfold gemini_role. destruct (decide _); set_solver. Qed.

Lemma render_message_turn r m before turns :
  message_known m -> seen_is (rd_calls r) before -> Forall2 turn_rendered (rd_contents r) turns ->
  exists r', render_gemini_message r m = Ok r'
  /\ seen_is (rd_calls r') (fst (join_turns before turns [m]))
  /\ Forall2 turn_rendered (rd_contents r') (snd (join_turns before turns [m]))
  /\ rd_system r' = rd_system r ++ inline_system [m].
Proof.
  intros [Hk Hi] Hs Hc. unfold render_gemini_message, inline_system. rewrite !filter_cons. cbn [join_turns].
  destruct (is_system (lm_role m)).
  - eexists. split; [done|]. simpl. by rewrite app_nil_r.
  - destruct (gemini_parts_rendered (lm_parts m) (rd_calls r) before 0 Hk Hi Hs) as (seen & vs & -> & HS & HR). simpl.
    eexists. split; [done|]. simpl. split; [done|]. split; [|by rewrite app_nil_r].
    apply push_join; [done|done|apply gemini_role_side|by rewrite sent_turn_answers|].
    unfold filled_parts, sent_turn. simpl. rewrite (rendered_texts _ _ HR). fold (answers_calls (lm_parts m)).
    destruct (_ && _ && _); [|done]. apply Forall2_app; [done|]. by repeat constructor.
Qed.

Lemma render_messages_turns l r before turns :
  Forall message_known l -> seen_is (rd_calls r) before -> Forall2 turn_rendered (rd_contents r) turns ->
  exists r', render_gemini_messages l r = Ok r'
  /\ seen_is (rd_calls r') (fst (join_turns before turns l))
  /\ Forall2 turn_rendered (rd_contents r') (snd (join_turns before turns l))
  /\ rd_system r' = rd_system r ++ inline_system l.
Proof.
  intros Hl. revert r before turns. induction Hl as [|m l Hm _ IH]; intros r before turns Hs Hc.
  { exists r. split; [done|]. split; [done|]. split; [done|]. symmetry. apply app_nil_r. }
  destruct (render_message_turn r m before turns Hm Hs Hc) as (r1 & H1 & S1 & C1 & Y1).
  destruct (IH r1 _ _ S1 C1) as (r2 & H2 & S2 & C2 & Y2).
  exists r2. cbn [render_gemini_messages]. rewrite H1. split; [done|].
  assert (Hj : join_turns before turns (m :: l)
               = join_turns (fst (join_turns before turns [m])) (snd (join_turns before turns [m])) l).
  { cbn [join_turns]. by destruct (is_system (lm_role m)). }
  rewrite Hj. split; [done|]. split; [done|]. rewrite Y2, Y1, <- app_assoc. f_equal.
  unfold inline_system. rewrite !filter_cons. destruct (decide (is_system (lm_role m) = true)); [|done].
  simpl. by rewrite app_nil_r.
Qed.

(** ** Ordering the results *)

Lemma insert_by_key_perm {A} (key : A -> Z) v l : insert_by_key key v l ≡ₚ v :: l.
Proof.
  induction l as [|w l IH]; [done|]. cbn [insert_by_key]. destruct (key v <=? key w)%Z; [done|].
  rewrite IH. apply Permutation_swap.
Qed.

Lemma insert_by_key_sorted {A} (key : A -> Z) v l :
  StronglySorted (fun x y => key x <= key y)%Z l -> StronglySorted (fun x y => key x <= key y)%Z (insert_by_key key v l).
Proof.
  induction 1 as [|w l Hl IH Hw]; [by repeat constructor|]. cbn [insert_by_key].
  destruct (key v <=? key w)%Z eqn:Hle.
  - apply Z.leb_le in Hle. constructor; [by constructor|]. constructor; [done|]. eapply Forall_impl; [exact Hw|]. simpl. lia.
  - apply Z.leb_gt in Hle. constructor; [done|]. rewrite insert_by_key_perm. constructor; [lia|done].
Qed.

Lemma insert_by_key_filter {A} (key : A -> Z) v l k :
  StronglySorted (fun x y => key x <= key y)%Z l ->
  filter (fun x => key x = k) (insert_by_key key v l) = filter (fun x => key x = k) (v :: l).
Proof.
  induction 1 as [|w l Hl IH Hw]; [done|]. cbn [insert_by_key]. destruct (key v <=? key w)%Z eqn:Hle; [done|].
  apply Z.leb_gt in Hle. rewrite filter_cons, IH, !filter_cons. repeat case_decide; done || lia.
Qed.

Lemma sort_by_key_stable {A} (key : A -> Z) l : stably_sorted key l (sort_by_key key l).
Proof.
  induction l as [|v l [IH1 IH2]]; [by split; [constructor|]|]. simpl. split; [by apply insert_by_key_sorted|].
  intros k. rewrite insert_by_key_filter by done. rewrite !filter_cons. by rewrite IH2.
Qed.

Lemma sort_by_key_Forall2 {A B} (R : A -> B -> Prop) (f : A -> Z) (g : B -> Z) l k :
  (forall x y, R x y -> f x = g y) -> Forall2 R l k -> Forall2 R (sort_by_key f l) (sort_by_key g k).
Proof.
  intros Hfg. induction 1 as [|x y l k Hxy _ IH]; [done|]. simpl. revert IH. fold (sort_by_key f l) (sort_by_key g k).
  generalize (sort_by_key f l) as l', (sort_by_key g k) as k'. intros l' k'.
  induction 1 as [|x' y' l' k' Hxy' Hl IH]; [by repeat constructor|]. cbn [insert_by_key].
  rewrite (Hfg x y Hxy), (Hfg x' y' Hxy'). destruct (_ <=? _)%Z; by repeat constructor.
Qed.

(** One key for all: nothing moves. *)
Lemma stably_sorted_const {A} (key : A -> Z) c l : Forall (fun x => key x = c) l -> stably_sorted key l l.
Proof.
  intros Hl. split; [|done]. induction Hl as [|x l Hx Hl IH]; constructor; [done|]. eapply Forall_impl; [exact Hl|]. simpl. lia.
Qed.

Lemma rendered_place seen calls v p : seen_is seen calls -> part_rendered v p -> response_key seen v = place calls p.
Proof.
  intros Hs (_ & _ & _ & Hid). unfold response_id in Hid. unfold response_key, place.
  destruct (json_get v "functionResponse") as [response|]; simpl in *; [|by destruct p].
  destruct p; simpl in *; rewrite Hid; simpl; try done. rewrite Hs. by destruct (find_call calls call_id) as [[]|].
Qed.

Lemma remove_id_read v : without_id <$> parse_gemini_part (remove_response_id v) = without_id <$> parse_gemini_part v.
Proof.
  unfold remove_response_id. destruct (json_get v "functionResponse") as [[| | | | |response]|] eqn:Hr.
  6: { assert (Hobj : exists fields, v = JObject fields) by (destruct v; try done; eauto). destruct Hobj as [fields ->].
    cbn [set_field]. set (w := JObject (assoc_set _ _ _)).
    assert (Hget : forall k, k <> "functionResponse" -> json_get w k = json_get (JObject fields) k).
    { intros k Hk. unfold w, json_get. by rewrite assoc_get_set, decide_False. }
    assert (Hw : json_get w "functionResponse" = Some (JObject (map_remove response "id"))).
    { unfold w, json_get. by rewrite assoc_get_set, decide_True. }
    unfold parse_gemini_part, get_str at 1 3. rewrite !Hget, Hw, Hr by done. unfold get_str. rewrite !Hget by done.
    destruct (json_get (JObject fields) "text" ≫= as_str); [simpl; by case_bool_decide|].
    destruct (json_get (JObject fields) "inlineData"); [done|]. destruct (json_get (JObject fields) "fileData"); [done|].
    destruct (json_get (JObject fields) "functionCall"); [done|]. simpl. unfold string_field, get_str, json_get.
    by rewrite !assoc_get_remove. }
  all: unfold parse_gemini_part; rewrite Hr; destruct (get_str v "text"); [simpl; by case_bool_decide|];
    destruct (json_get v "inlineData"); [done|]; destruct (json_get v "fileData"); [done|];
    by destruct (json_get v "functionCall").
Qed.

(** A content, its results in order. *)
Definition content_reads (c : GeminiContent) (t : Turn) : Prop :=
  gc_role c = fst t /\ gc_role c ∈ ["user"; "model"] /\ gc_parts c <> []
  /\ Forall2 (fun v p => without_id <$> parse_gemini_part v = Some (without_id p)) (gc_parts c) (snd t).

Lemma order_content_reads seen calls c t :
  seen_is seen calls -> turn_rendered c t -> exists t', in_call_order calls t t' /\ content_reads (order_content seen c) t'.
Proof.
  intros Hs (H1 & H2 & H3 & H4). unfold order_content. rewrite (rendered_answers _ _ H4).
  destruct (answers_calls (snd t)) eqn:Ha.
  - exists (fst t, sort_by_key (place calls) (snd t)). split; [split; [done|apply sort_by_key_stable]|].
    split; [done|]. split; [done|]. simpl.
    assert (Hsort : Forall2 part_rendered (sort_by_key (response_key seen) (gc_parts c)) (sort_by_key (place calls) (snd t))).
    { apply (sort_by_key_Forall2 part_rendered); [|done]. intros v p. by apply rendered_place. }
    split.
    + destruct (gc_parts c) as [|v l]; [done|]. simpl. intros Hn%fmap_nil_inv.
      pose proof (insert_by_key_perm (response_key seen) v (sort_by_key (response_key seen) l)) as Hperm.
      change (foldr _ [] l) with (sort_by_key (response_key seen) l) in Hn. rewrite Hn in Hperm.
      by apply Permutation_nil_cons in Hperm.
    + apply Forall2_fmap_l. eapply Forall2_impl; [exact Hsort|]. intros v p (Hp & _). simpl.
      rewrite remove_id_read, Hp. simpl. by destruct p.
  - exists t. split.
    + split; [done|]. apply (stably_sorted_const _ u64_max). apply Forall_forall. intros p Hp. destruct p; try done.
      assert (existsb is_tool_result (snd t) = true) as Hx; [|unfold answers_calls in Ha; congruence].
      apply existsb_exists. eexists. split; [by apply list_elem_of_In|done].
    + split; [done|]. split; [done|]. split; [done|]. eapply Forall2_impl; [exact H4|]. intros v p (Hp & _). by rewrite Hp.
Qed.

Lemma order_contents_read seen calls l turns :
  seen_is seen calls -> Forall2 turn_rendered l turns ->
  exists turns', Forall2 (in_call_order calls) turns turns' /\ Forall2 content_reads (order_content seen <$> l) turns'.
Proof.
  intros Hs. induction 1 as [|c t l k Hc _ (k' & IH1 & IH2)]; [by exists []|].
  destruct (order_content_reads seen calls c t Hs Hc) as (t' & Ht1 & Ht2). exists (t' :: k').
  split; [by constructor|]. rewrite fmap_cons. by constructor.
Qed.

(** ** The message of a content *)

Lemma named_without_id name j p : without_id (name_call name j p) = without_id p.
Proof. by destruct p. Qed.

Lemma read_without_ids vs ps :
  Forall2 (fun v p => without_id <$> parse_gemini_part v = Some (without_id p)) vs ps ->
  without_id <$> omap parse_gemini_part vs = without_id <$> ps.
Proof.
  induction 1 as [|v p vs ps Hv _ IH]; [done|]. rewrite omap_cons, fmap_cons. destruct (parse_gemini_part v); [|done].
  rewrite fmap_cons, IH. f_equal. by injection Hv.
Qed.

Lemma imap_without_id name i l : without_id <$> imap (fun j => name_call name (i + j)) l = without_id <$> l.
Proof.
  revert i. induction l as [|p l IH]; intros i; [done|]. cbn [imap]. rewrite !fmap_cons, named_without_id. f_equal.
  rewrite (imap_ext _ (fun j => name_call name (S i + j))) by (intros; simpl; by rewrite <- Nat.add_succ_r). apply IH.
Qed.

Lemma gemini_message_turn i c t :
  content_reads c t -> message_without_ids <$> gemini_message i (content_value c) = [turn_message t].
Proof.
  intros (Hr & Hside & Hne & Hp). unfold gemini_message. set (name := fun j => _).
  change (parse_gemini_parts _) with (omap parse_gemini_part (gc_parts c)).
  change (imap (name_call name)) with (imap (fun j => name_call name (0 + j))).
  pose proof (imap_without_id name 0 (omap parse_gemini_part (gc_parts c))) as Hw. rewrite (read_without_ids _ _ Hp) in Hw.
  assert (Hrole : (if bool_decide (get_str (content_value c) "role" = Some "model") then RoleAssistant else RoleUser)
                  = if bool_decide (fst t = "model") then RoleAssistant else RoleUser).
  { rewrite <- Hr. unfold content_value, get_str. simpl. repeat case_bool_decide; simplify_eq; try done; congruence. }
  rewrite Hrole. destruct (imap _ _) as [|p l].
  - destruct Hp; [done|]. simpl in Hw. done.
  - cbn [fmap list_fmap]. unfold message_without_ids, turn_message. simpl. by rewrite <- Hw.
Qed.

Lemma gemini_messages_turns i l turns :
  Forall2 content_reads l turns ->
  message_without_ids <$> concat (imap (fun j => gemini_message (i + j)) (content_value <$> l)) = turn_message <$> turns.
Proof.
  intros Hl. revert i. induction Hl as [|c t l k Hc _ IH]; intros i; [done|]. rewrite !fmap_cons. cbn [imap concat].
  rewrite fmap_app, (gemini_message_turn _ c t) by done.
  rewrite (imap_ext _ (fun j => gemini_message (S i + j))) by (intros; simpl; by rewrite <- Nat.add_succ_r).
  by rewrite IH.
Qed.

Lemma sent_contents r calls turns :
  seen_is (rd_calls r) calls -> Forall2 turn_rendered (rd_contents r) turns ->
  exists turns', Forall2 (in_call_order calls) (match turns with [] => [("user", [part_text " "])] | _ => turns end) turns'
  /\ Forall2 content_reads (gemini_contents r) turns'.
Proof.
  intros Hs Hc. destruct (order_contents_read (rd_calls r) calls _ _ Hs Hc) as (turns' & H1 & H2). unfold gemini_contents.
  destruct H2 as [|c t l k Ht Hl].
  - apply Forall2_nil_inv_r in H1 as ->. exists [("user", [part_text " "])]. split.
    + repeat constructor.
    + constructor; [|done]. repeat split; [simpl; set_solver|done|by repeat constructor].
  - exists (t :: k). split; [by destruct turns; [apply Forall2_nil_inv_l in H1|]|by constructor].
Qed.

Lemma field_some_other key k o : k <> key -> assoc_get (field_some key o) k = None.
Proof. intros Hk. destruct o; simpl; [by rewrite decide_False|done]. Qed.

Lemma gemini_system_field r model rendered :
  extension "google.cached_content" (lq_extensions r) = None ->
  assoc_get (gemini_fields r model rendered) "systemInstruction"
  = match gemini_system_texts r rendered with
    | [] => None
    | texts => Some (JObject [("parts", JArray [JObject [("text", JString (join_lines texts))]])])
    end.
Proof.
  intros Hc. unfold gemini_fields. rewrite Hc. rewrite bool_decide_eq_false_2 by by intros [].
  rewrite !assoc_get_app, !field_some_other by done.
  assert (Htools : assoc_get (gemini_tool_fields r) "systemInstruction" = None)
    by (unfold gemini_tool_fields; by destruct (gemini_declaration <$> function_tools r)).
  rewrite Htools. by destruct (gemini_system_texts r rendered).
Qed.

(** Requests without media. *)
Definition is_plain_part (p : LlmContentPart) : bool :=
  match p with PartImage _ _ _ | PartUnknown _ _ => false | _ => true end.

Lemma plain_messages_known l :
  forallb (fun m => forallb is_plain_part (lm_parts m)) l = true -> Forall message_known l.
Proof.
  intros Hl. apply Forall_forall. intros m Hm. rewrite forallb_forall in Hl. apply list_elem_of_In, Hl in Hm.
  rewrite forallb_forall in Hm.
  split; apply Forall_forall; intros p Hp%list_elem_of_In%Hm; by destruct p.
Qed.

Section Sent.
Context {JT : JsonText} {FN : FloatNumbers}.

(** C32: Gemini reads a request rendered for it as exactly the turns that were
    understood.  When no part is without a canonical form and every image is one
    Gemini takes, there always is a request, and read as Gemini does it has,
    apart from ids, these messages and no others ([dialogue]): consecutive
    messages of one side make one turn, results of tools apart from the rest;
    every text and thought that is not empty, every call with its name, arguments
    and signature, and every result, under its own name or that of the call it
    answers, stands in the turn of its message, in order, except that in a turn
    with results these are sorted (stably) by the place of the call they answer,
    with what answers no known call at the end.  A user message without text or
    results has a blank added, and so has a request without messages; nothing
    else is added.  The system texts, from wherever they were, are joined in the
    system instruction, unless cached content stands for it. *)
Theorem gemini_requests_keep_the_dialogue payload model :
  Forall message_known (lq_messages (qp_request payload)) ->
  exists wire sent turns,
    request_to_gemini payload model = Ok wire
    /\ understand_request_value Gemini wire = Ok sent
    /\ (let '(calls, understood) := dialogue (lq_messages (qp_request payload)) in
        Forall2 (in_call_order calls) understood turns)
    /\ message_without_ids <$> lq_messages (qp_request sent) = turn_message <$> turns
    /\ (extension "google.cached_content" (lq_extensions (qp_request payload)) = None ->
        lq_system (qp_request sent)
        = match non_empty_texts (lq_system (qp_request payload) ≫= lm_parts)
                ++ inline_system (lq_messages (qp_request payload)) with
          | [] => []
          | texts => [message_new RoleSystem [part_text (join_lines texts)]]
          end).
Proof.
  intros Hk. destruct (render_messages_turns _ (mkRendered ∅ [] []) [] [] Hk ltac:(intros id; apply lookup_empty) ltac:(constructor)) as (r & Hr & Hs & Hc & Hy).
  destruct (sent_contents r _ _ Hs Hc) as (turns & Ht1 & Ht2).
  unfold request_to_gemini. rewrite Hr. simpl result_bind. eexists _, _, turns. split; [reflexivity|]. split; [reflexivity|].
  set (fields := gemini_fields _ _ _). cbn [qp_request]. unfold parse_gemini_request.
  destruct (match json_get (JObject fields) "generationConfig" with Some (JObject f) => _ | _ => _ end) as [g f].
  cbn [lq_messages lq_system]. split; [unfold dialogue; by destruct (join_turns _ _ _)|].
  assert (Hlist : get_list (JObject fields) "contents" = content_value <$> gemini_contents r) by done.
  rewrite Hlist. change (imap gemini_message) with (imap (fun j => gemini_message (0 + j))).
  split; [by apply gemini_messages_turns|].
  intros Hcache. unfold json_get at 1, fields. rewrite gemini_system_field by done. unfold gemini_system_texts. rewrite Hy.
  cbn [rd_system]. rewrite app_nil_l. set (texts := _ ++ inline_system _). clearbody texts. by destruct texts.
Qed.

End Sent.

Module GeminiExample.

#[local] Existing Instance value_json.
#[local] Instance numbers_as_written : FloatNumbers := {| to_f64 := fun n => n |}.

(** [parallel_same_name_tool_results_restore_call_order] of the source's tests:
    two calls of one tool, answered in the other order. *)
Definition compare_calls : Value :=
  let call := fun id arguments =>
    JObject [("id", JString id); ("type", JString "function");
             ("function", JObject [("name", JString "lookup"); ("arguments", JObject [("id", JString arguments)])])] in
  let result := fun id content => JObject [("role", JString "tool"); ("tool_call_id", JString id); ("content", JString content)] in
  JObject [("model", JString "gemini-2.5-pro"); ("messages", JArray
    [JObject [("role", JString "system"); ("content", JString "be brief")];
     JObject [("role", JString "user"); ("content", JString "compare")];
     JObject [("role", JString "assistant"); ("tool_calls", JArray [call "call_a" "a"; call "call_b" "b"])];
     result "call_b" "result-b"; result "call_a" "result-a"])].

Definition compare_payload : LlmRequestEventPayload :=
  match understand_request_value ChatCompletions compare_calls with
  | Ok payload => payload
  | Err _ => mkRequestPayload PUnknown (base_request JNull)
  end.

Definition result (content : string) : LlmContentPart :=
  PartToolResult "" (Some "lookup") (JObject [("content", JString content)]) None None.
Definition lookup (argument : string) : LlmContentPart := PartToolCall "" "lookup" (JObject [("id", JString argument)]) None.

Lemma gemini_requests_keep_the_dialogue_witness :
  exists wire sent turns,
    request_to_gemini compare_payload "gemini-2.5-pro" = Ok wire
    /\ understand_request_value Gemini wire = Ok sent
    /\ Forall2 (in_call_order [("call_a", ("lookup", 0)); ("call_b", ("lookup", 1))])
         [("user", [part_text "compare"]); ("model", [lookup "a"; lookup "b"]);
          ("user", [PartToolResult "call_b" (Some "lookup") (JObject [("content", JString "result-b")]) None None;
                    PartToolResult "call_a" (Some "lookup") (JObject [("content", JString "result-a")]) None None])] turns
    /\ message_without_ids <$> lq_messages (qp_request sent) = turn_message <$> turns
    /\ lq_system (qp_request sent) = [message_new RoleSystem [part_text "be brief"]].
Proof.
  destruct (gemini_requests_keep_the_dialogue compare_payload "gemini-2.5-pro") as (wire & sent & turns & H1 & H2 & H3 & H4 & H5).
  - apply plain_messages_known. vm_compute. reflexivity.
  - exists wire, sent, turns. split; [exact H1|]. split; [exact H2|]. split; [exact H3|]. split; [exact H4|].
    etransitivity; [apply H5; vm_compute; reflexivity|]. vm_compute. reflexivity.
Defined.

(** The results are sent in the order of the calls, without the ids. *)
Example results_in_call_order :
  match request_to_gemini compare_payload "gemini-2.5-pro" with
  | Ok wire =>
      (fun c => json_get c "parts") <$> drop 2 (get_list wire "contents")
      = [Some (JArray ((fun text => JObject [("functionResponse",
           JObject [("name", JString "lookup"); ("response", JObject [("content", JString text)])])])
           <$> ["result-a"; "result-b"]))]
  | Err _ => False
  end.
Proof. vm_compute. reflexivity. Qed.

End GeminiExample.
