(* ===== verification/Bridge.v ===== *)
(** * Gateway: the bridge of a route

    [gateway/src/conversion/mod.rs]: which protocols a route translates between,
    the upstream path, and the translation of requests, responses and errors, with the
    route of [gateway/src/config.rs] they read.  Bodies are the text sent. *)

From Stdlib Require Import ZArith Lia Ascii.
From stdpp Require Import base list strings gmap numbers option pretty sorting.
From S2P Require Import Prelude Json JsonLines TurnMachine Capture SessionRoute Llm TypedStream StreamChunks StreamText Understanding Conversion ConversionText GeminiSchema GeminiRequest.

(** ** Routes *)

#[global] Instance ProviderKind_eq_dec : EqDecision ProviderKind.
Proof. solve_decision. Defined.
#[global] Instance ProtocolBridge_eq_dec : EqDecision ProtocolBridge.
Proof. solve_decision. Defined.

Record ModelRoute := mkModelRoute {
  mr_name : string;
  mr_provider : option string;
  mr_upstream : option string;
  mr_upstream_anthropic : option string;
  mr_api_key_env : option string;
  mr_api_key : option string;
  mr_forward : option string;
}.
Definition provider_kind (r : ModelRoute) : ProviderKind := default ProvOpenAi (provider_parse <$> mr_provider r).

(** ** Bridges *)

Definition route_supports_native_responses (r : ModelRoute) : bool :=
  match mr_upstream r with
  | Some u => let lower := to_ascii_lowercase u in
              str_contains "api.openai.com" lower || str_contains "openai.azure.com" lower
  | None => false
  end.

(** [ProtocolBridge::needed]. *)
Definition bridge_needed (client : ProtocolKind) (r : ModelRoute) : ProtocolBridge :=
  if decide (provider_kind r = ProvGemini) then
    match client with
    | ChatCompletions => CompletionsToGemini
    | Messages => MessagesToGemini
    | Responses => ResponsesToGemini
    | _ => Passthrough
    end
  else
    match client with
    | Messages => match mr_upstream_anthropic r with None => MessagesToCompletions | Some _ => Passthrough end
    | Responses => if route_supports_native_responses r then Passthrough else ResponsesToCompletions
    | _ => Passthrough
    end.

(** [needs_request_translation] and [needs_response_translation] are the same. *)
Definition needs_translation (b : ProtocolBridge) : bool := negb (bool_decide (b = Passthrough)).

(** [str::replacen] with a count of one. *)
Fixpoint replace_first (pattern replacement s : string) : string :=
  match str_strip_prefix pattern s with
  | Some rest => replacement +:+ rest
  | None => match s with
            | EmptyString => EmptyString
            | String a rest => String a (replace_first pattern replacement rest)
            end
  end.

Definition gemini_model_char (a : ascii) : bool :=
  is_ascii_alphanumeric a || byte_is 45 a || byte_is 46 a || byte_is 95 a.

Definition upstream_path (b : ProtocolBridge) (client_path model : string) (streaming : bool)
  : result ConversionError string :=
  match b with
  | Passthrough => Ok client_path
  | MessagesToCompletions =>
      Ok (if str_contains "/v1/" client_path then replace_first "/messages" "/chat/completions" client_path
          else "/v1/chat/completions")
  | ResponsesToCompletions =>
      Ok (if str_contains "/v1/" client_path then replace_first "/responses" "/chat/completions" client_path
          else "/v1/chat/completions")
  | CompletionsToGemini | MessagesToGemini | ResponsesToGemini =>
      let model := default model (str_strip_prefix "models/" model) in
      if negb (bool_decide (model = "")) && str_forall gemini_model_char model
      then Ok ("/v1beta/models/" +:+ model +:+ ":" +:+ if streaming then "streamGenerateContent" else "generateContent")
      else Err InvalidModel
  end.

Section Bridge.
Context {JT : JsonText} {JK : JsonTokens} {FN : FloatNumbers}.

(** ** Requests *)

Definition translate_request_for_bridge (b : ProtocolBridge) (semantic : LlmRequestEventPayload) (upstream_model : string)
    (reasoning_cache : option ReasoningCache) : result ConversionError string :=
  match b with
  | Passthrough => Err Unrenderable
  | MessagesToCompletions | ResponsesToCompletions =>
      Ok (json_text (request_to_chat_completions semantic upstream_model reasoning_cache))
  | CompletionsToGemini | MessagesToGemini | ResponsesToGemini =>
      let? wire := request_to_gemini semantic upstream_model in Ok (json_text wire)
  end.

(** ** Responses *)

Record TranslatedResponse := mkTranslated { tr_body : string; tr_semantic : LlmResponseEventPayload }.

Definition translate_response_for_bridge (now_ms now_s : Z) (b : ProtocolBridge) (body : string) (client : ProtocolKind)
    (client_model : string) : result ConversionError TranslatedResponse :=
  let? value := ok_or (json_parse body) NotJson in
  let? semantic := understand_response_value (upstream_protocol b client) value in
  let? rendered :=
    if decide (b = Passthrough) then Ok body
    else let? wire := response_to_wire now_ms now_s semantic (to_llm_protocol client) client_model in Ok (json_text wire) in
  Ok (mkTranslated rendered semantic).

(** ** Errors *)

Definition normalized_anthropic_error_type (status : Z) : string :=
  if (status =? 400)%Z then "invalid_request_error"
  else if (status =? 401)%Z || (status =? 403)%Z then "authentication_error"
  else if (status =? 404)%Z then "not_found_error"
  else if (status =? 429)%Z then "rate_limit_error"
  else "api_error".

Definition openai_error_to_messages (body : string) (status : Z) : string :=
  let value := default (JObject [("error", JObject [("message", JString (from_utf8_lossy body))])]) (json_parse body) in
  let error := get_or_self value "error" in
  json_text (JObject [("type", JString "error");
    ("error", JObject [("type", JString (default (normalized_anthropic_error_type status) (get_str error "type")));
                       ("message", JString (default "upstream request failed" (get_str error "message")))])]).

Definition gemini_error_type (status : option string) : string :=
  if one_of status ["INVALID_ARGUMENT"; "FAILED_PRECONDITION"] then "invalid_request_error"
  else if one_of status ["NOT_FOUND"] then "not_found_error"
  else if one_of status ["PERMISSION_DENIED"; "UNAUTHENTICATED"] then "authentication_error"
  else if one_of status ["RESOURCE_EXHAUSTED"] then "rate_limit_error"
  else "api_error".

Definition translate_gemini_error (body : string) : result ConversionError string :=
  let? value := ok_or (json_parse body) NotJson in
  let root := match value with JArray (first :: _) => first | _ => value end in
  let error := get_or_self root "error" in
  let status := get_str error "status" in
  Ok (json_text (JObject [("error", JObject
    [("type", JString (gemini_error_type status));
     ("message", JString (default "Gemini request failed" (get_str error "message")));
     ("param", JNull); ("code", opt_string status)])])).

Definition translate_error_for_bridge (b : ProtocolBridge) (body : string) (status : Z) : result ConversionError string :=
  match b with
  | MessagesToCompletions => Ok (openai_error_to_messages body status)
  | MessagesToGemini => let? openai := translate_gemini_error body in Ok (openai_error_to_messages openai status)
  | CompletionsToGemini | ResponsesToGemini => translate_gemini_error body
  | ResponsesToCompletions | Passthrough => Ok body
  end.

(** ** What an answer says *)

(** The text, the reasoning and the tool calls of some parts. *)
Definition part_reasoning (p : LlmContentPart) : option string := match p with PartReasoning text _ => text | _ => None end.
Definition parts_answer (parts : list LlmContentPart) : string * string * list (string * Value) :=
  (concat_str (part_texts parts), concat_str (omap part_reasoning parts), omap part_request parts).
Definition candidate_answer (c : LlmCandidate) : string * string * list (string * Value) := parts_answer (lm_parts (lc_message c)).
(** The candidates as one answer. *)
Definition answers (l : list LlmCandidate) : string * string * list (string * Value) :=
  parts_answer (l ≫= fun c => lm_parts (lc_message c)).
(** With the names of the tools only. *)
Definition answer_names (a : string * string * list (string * Value)) : string * string * list string :=
  (fst a, fst <$> snd a).

(** What a client that speaks the protocol is to find in the response. *)
Definition answer_kept (client : ProtocolKind) (semantic read : list LlmCandidate) : Prop :=
  match client with
  | Messages => answer_names (answers read) = answer_names (answers (option_list (head semantic)))
  | Responses => answers read = answers semantic
  | _ => candidate_answer <$> read = match semantic with [] => [parts_answer []] | _ => candidate_answer <$> semantic end
  end.

Definition known_candidate (c : LlmCandidate) : Prop := Forall known_part (lm_parts (lc_message c)).

Definition answer_app (x y : string * string * list (string * Value)) : string * string * list (string * Value) :=
  (fst (fst x) +:+ fst (fst y), snd (fst x) +:+ snd (fst y), snd x ++ snd y).


Lemma parts_answer_app l1 l2 : parts_answer (l1 ++ l2) = answer_app (parts_answer l1) (parts_answer l2).
Proof. unfold parts_answer, answer_app. simpl. by rewrite part_texts_app, !omap_app, !concat_str_app. Qed.

Lemma candidate_answer_is c : candidate_answer c = (candidate_text c, candidate_reasoning c, omap part_request (lm_parts (lc_message c))).
Proof. done. Qed.

(** *** Chat Completions *)

Lemma chat_calls_read id i parts :
  omap part_request (tool_call_part <$> chat_tool_calls id i parts) = omap part_request parts.
Proof.
  revert i. induction parts as [|p l IH]; intros i; [done|]. rewrite (omap_cons _ p l).
  destruct p; cbn [chat_tool_calls part_request]; try apply IH.
  rewrite fmap_cons, omap_cons, chat_tool_call_read. cbn [part_request]. by rewrite IH.
Qed.

Lemma chat_calls_silent id i parts :
  let calls := tool_call_part <$> chat_tool_calls id i parts in part_texts calls = [] /\ omap part_reasoning calls = [].
Proof.
  revert i. unfold part_texts. induction parts as [|p l IH]; intros i; [done|].
  destruct p; cbn [chat_tool_calls]; apply IH.
Qed.

Lemma chat_calls_nil id i parts : existsb is_tool_call parts = true -> chat_tool_calls id i parts <> [].
Proof. revert i. induction parts as [|p l IH]; intros i; [done|]. destruct p; simpl; try apply IH. done. Qed.

Lemma chat_message_read c id :
  exists m, push_wire_message (chat_message c id) = [m] /\ parts_answer (lm_parts m) = candidate_answer c.
Proof.
  rewrite (push_wire_message_if _ RoleAssistant) by done. rewrite candidate_answer_is.
  pose proof (chat_calls_read id 0 (lm_parts (lc_message c))) as Hcalls.
  destruct (chat_calls_silent id 0 (lm_parts (lc_message c))) as [Hs1 Hs2].
  unfold candidate_has_tools, chat_message. set (text := candidate_text c). set (reasoning := candidate_reasoning c).
  fold (candidate_tool_calls c id) in Hcalls, Hs1, Hs2.
  assert (Hnil : existsb is_tool_call (lm_parts (lc_message c)) = true -> candidate_tool_calls c id <> [])
    by apply chat_calls_nil.
  fold (candidate_has_tools c) in Hnil |- *.
  assert (Hparts : message_parts RoleAssistant (chat_message c id)
    = (if bool_decide (reasoning = "") then [] else [PartReasoning (Some reasoning) None])
      ++ (if negb (bool_decide (text = "")) || negb (candidate_has_tools c) then [part_text text] else [])
      ++ (tool_call_part <$> candidate_tool_calls c id)).
  { unfold chat_message. fold text reasoning. unfold message_parts. rewrite decide_False by done.
    destruct (negb (bool_decide (text = "")) || negb (candidate_has_tools c));
      destruct (decide (reasoning = "")) as [Hr|Hr]; [rewrite (bool_decide_eq_true_2 _ Hr)|rewrite (bool_decide_eq_false_2 _ Hr)|
        rewrite (bool_decide_eq_true_2 _ Hr)|rewrite (bool_decide_eq_false_2 _ Hr)];
      destruct (candidate_tool_calls c id); simpl; unfold non_empty_str; simpl; rewrite ?(bool_decide_eq_false_2 _ Hr); done. }
  unfold chat_message in Hparts. fold text reasoning in Hparts. rewrite Hparts. clear Hparts.
  assert (Hanswer : parts_answer ((if bool_decide (reasoning = "") then [] else [PartReasoning (Some reasoning) None])
      ++ (if negb (bool_decide (text = "")) || negb (candidate_has_tools c) then [part_text text] else [])
      ++ (tool_call_part <$> candidate_tool_calls c id)) = (text, reasoning, omap part_request (lm_parts (lc_message c)))).
  { rewrite !parts_answer_app. unfold parts_answer at 3. rewrite Hs1, Hs2, Hcalls.
    case_bool_decide as Hr; case_bool_decide as Ht; destruct (candidate_has_tools c); rewrite ?Ht, ?Hr; unfold answer_app;
      simpl; by rewrite ?str_app_nil_r. }
  revert Hanswer. destruct (bool_decide (reasoning = "")), (bool_decide (text = "")), (candidate_has_tools c),
    (candidate_tool_calls c id); simpl; intros Hanswer; try (by eexists); by destruct (Hnil eq_refl).
Qed.

Lemma chat_choice_read id i c : candidate_answer (chat_candidate i (chat_response_choice id c)) = candidate_answer c.
Proof.
  destruct (chat_message_read c id) as (m & Hm & Ha). unfold chat_candidate, candidate_answer at 1, chat_response_choice.
  cbn [lc_message]. unfold get_or_self, json_get. cbn [assoc_get]. simpl. rewrite Hm. done.
Qed.

Lemma fmap_imap_fmap {A B C} (f : nat -> B -> C) (g : A -> B) {D} (h : C -> D) (k : A -> D) l :
  (forall i x, h (f i (g x)) = k x) -> h <$> imap f (g <$> l) = k <$> l.
Proof.
  intros Hf. revert f Hf. induction l as [|x l IH]; intros f Hf; [done|]. simpl. rewrite Hf. f_equal.
  apply (IH (f ∘ S)). intros i y. apply Hf.
Qed.

Lemma chat_response_read now_ms now_s r model :
  exists read, understand_response_value ChatCompletions (render_chat_response now_ms now_s r model) = Ok read
  /\ answer_kept ChatCompletions (lr_candidates r) (lr_candidates (rp_response read)).
Proof.
  eexists. split; [reflexivity|]. cbn [rp_response answer_kept]. unfold parse_chat_response. cbn [lr_candidates].
  unfold render_chat_response, get_list, json_get. cbn [app assoc_get]. simpl.
  destruct (lr_candidates r) as [|c l]; [done|]. cbn [fmap list_fmap].
  apply (fmap_imap_fmap _ _ _ _ (c :: l)). apply chat_choice_read.
Qed.

(** *** Messages *)

Lemma nonempty_text_default s : concat_str (option_list (nonempty_text s)) = s.
Proof. unfold nonempty_text. case_bool_decide as Hs; simpl; [done|]. by rewrite str_app_nil_r. Qed.

Definition names_app (x y : string * string * list string) : string * string * list string :=
  (fst (fst x) +:+ fst (fst y), snd (fst x) +:+ snd (fst y), snd x ++ snd y).

Lemma answer_names_app x y : answer_names (answer_app x y) = names_app (answer_names x) (answer_names y).
Proof. unfold answer_names, answer_app, names_app. simpl. by rewrite fmap_app. Qed.

(** A reasoning part says its text. *)
Lemma reasoning_answer o s : parts_answer [PartReasoning o s] = ("", default "" o, []).
Proof. destruct o; unfold parts_answer; simpl; by rewrite ?str_app_nil_r. Qed.

Lemma default_nonempty t : default "" (nonempty_text t) = t.
Proof. unfold nonempty_text. by case_bool_decide. Qed.

Lemma messages_block_read p :
  known_part p ->
  answer_names (parts_answer (option_list (messages_block p ≫= parse_content_part))) = answer_names (parts_answer [p]).
Proof.
  destruct p as [text cache|image media detail|text sig|id name args sig|c n co e ca|kind value]; try done; intros _.
  - unfold messages_block. case_bool_decide as Ht; [by rewrite Ht|]. done.
  - unfold messages_block. rewrite (reasoning_answer text). simpl.
    destruct sig; cbn [opt_str_field field_some fmap option_fmap option_map app];
      unfold parse_content_part; simpl; rewrite (reasoning_answer (nonempty_text _)), default_nonempty; done.
Qed.

Lemma messages_blocks_read parts :
  Forall known_part parts ->
  answer_names (parts_answer (parse_content_parts (JArray (omap messages_block parts))))
  = answer_names (parts_answer parts).
Proof.
  intros Hk. cbn [parse_content_parts]. induction Hk as [|p l Hp _ IH]; [done|].
  pose proof (messages_block_read p Hp) as Hone. rewrite (omap_cons _ p l).
  change (p :: l) with ([p] ++ l). rewrite parts_answer_app, answer_names_app.
  assert (Hsplit : omap parse_content_part (match messages_block p with Some y => y :: omap messages_block l | None => omap messages_block l end)
          = option_list (messages_block p ≫= parse_content_part) ++ omap parse_content_part (omap messages_block l)).
  { destruct (messages_block p) as [v|]; [|done]. rewrite omap_cons. simpl. by destruct (parse_content_part v). }
  by rewrite Hsplit, parts_answer_app, answer_names_app, Hone, IH.
Qed.

Lemma sole_candidate_answers parts reason : answers (sole_candidate parts reason) = parts_answer parts.
Proof. unfold answers. destruct parts; [done|]. cbn [sole_candidate mbind list_bind lc_message lm_parts message_new].
  by rewrite app_nil_r. Qed.

Lemma messages_response_read r model :
  Forall known_candidate (lr_candidates r) ->
  exists read, understand_response_value Messages (render_messages_response r model) = Ok read
  /\ answer_kept Messages (lr_candidates r) (lr_candidates (rp_response read)).
Proof.
  intros Hk. eexists. split; [reflexivity|]. cbn [rp_response answer_kept]. unfold parse_messages_response. cbn [lr_candidates].
  rewrite sole_candidate_answers. unfold render_messages_response, json_get. cbn [assoc_get]. simpl.
  destruct Hk as [|c l Hc _]; [done|].
  assert (Hone : answers [c] = parts_answer (lm_parts (lc_message c))) by (unfold answers; f_equal; apply app_nil_r).
  change (option_list (head (c :: l))) with [c]. rewrite Hone. by apply messages_blocks_read.
Qed.

(** *** Responses *)

Lemma summary_text t :
  value_text (JArray [JObject [("type", JString "summary_text"); ("text", JString t)]]) = nonempty_text t.
Proof.
  simpl. unfold nonempty_text at 2 3. case_bool_decide as Ht; [done|]. simpl. unfold nonempty_text. by rewrite bool_decide_eq_false_2.
Qed.

Lemma responses_item_read suffix i p :
  known_part p ->
  parts_answer (responses_part_item suffix i p ≫= responses_item_parts)
  = ("", snd (fst (parts_answer [p])), snd (parts_answer [p])).
Proof.
  destruct p as [text cache|image media detail|text sig|id name args sig|c n co e ca|kind value]; try done; intros _.
  - rewrite (reasoning_answer text). cbn [responses_part_item mbind list_bind]. rewrite app_nil_r.
    assert (Hsum : forall o, value_text (JArray (match o with
        | Some t => [JObject [("type", JString "summary_text"); ("text", JString t)]] | None => [] end)) = o ≫= nonempty_text)
      by (intros [t|]; [apply summary_text|done]).
    assert (Hitem : responses_item_parts (JObject ([("type", JString "reasoning");
        ("id", JString ("rs_" +:+ suffix +:+ "_" +:+ pretty i));
        ("summary", JArray (match text with
          | Some t => [JObject [("type", JString "summary_text"); ("text", JString t)]] | None => [] end))]
        ++ opt_str_field "encrypted_content" sig)) = [PartReasoning (text ≫= nonempty_text) sig])
      by (rewrite <- Hsum; by destruct sig).
    rewrite Hitem, reasoning_answer. destruct text as [t|]; [|done]. cbn [mbind option_bind]. by rewrite default_nonempty.
  - cbn [responses_part_item mbind list_bind]. rewrite app_nil_r. unfold responses_item_parts. simpl.
    unfold tool_call_part. simpl. rewrite json_text_not_blank.
    pose proof (json_text_parse args) as Hp. rewrite json_text_trim in Hp. by rewrite Hp.
Qed.

Lemma responses_items_read suffix parts i :
  Forall known_part parts ->
  parts_answer (concat (imap (fun j => responses_part_item suffix (i + j)) parts) ≫= responses_item_parts)
  = ("", snd (fst (parts_answer parts)), snd (parts_answer parts)).
Proof.
  intros Hk. revert i. induction Hk as [|p l Hp _ IH]; intros i; [done|]. cbn [imap concat]. rewrite bind_app, parts_answer_app.
  rewrite responses_item_read by done. change (p :: l) with ([p] ++ l). rewrite parts_answer_app.
  rewrite (imap_ext _ (fun j => responses_part_item suffix (S i + j))) by (intros; simpl; by rewrite <- Nat.add_succ_r).
  rewrite IH. done.
Qed.

Lemma responses_candidate_read suffix c :
  known_candidate c ->
  parts_answer (responses_candidate_items suffix c ≫= responses_item_parts) = candidate_answer c.
Proof.
  intros Hk. unfold responses_candidate_items. rewrite bind_app, parts_answer_app.
  rewrite (responses_items_read suffix _ 0) by done. rewrite candidate_answer_is.
  case_bool_decide as Ht; [by rewrite Ht|]. unfold answer_app. simpl. by rewrite !str_app_nil_r.
Qed.

Lemma responses_response_read now_s r model :
  Forall known_candidate (lr_candidates r) ->
  exists read, understand_response_value Responses (render_responses_response now_s r model) = Ok read
  /\ answer_kept Responses (lr_candidates r) (lr_candidates (rp_response read)).
Proof.
  intros Hk. eexists. split; [reflexivity|]. cbn [rp_response answer_kept]. unfold parse_responses_response. cbn [lr_candidates].
  rewrite sole_candidate_answers. unfold render_responses_response, get_list, json_get. cbn [assoc_get]. simpl.
  unfold answers. set (suffix := default "proxy" _). clearbody suffix.
  induction Hk as [|c l Hc _ IH]; [done|]. rewrite !bind_cons, bind_app, !parts_answer_app, IH.
  by rewrite responses_candidate_read.
Qed.

(** ** The tool calls a client finds

    A client of each protocol reads the calls of a response off the wire, with
    the id it has to answer them under; an entry that lacks a field reads as
    [None] there ([WireCall], [chat_wire_call]). *)

Definition chat_wire_calls (wire : Value) : list (list WireCall) :=
  (fun choice => chat_wire_call <$> get_list (default JNull (json_get choice "message")) "tool_calls") <$> get_list wire "choices".

(** The [tool_use] blocks: id, name, input as JSON. *)
Definition messages_wire_call (block : Value) : WireCall := (get_str block "id", get_str block "name", json_get block "input").
Definition messages_wire_calls (wire : Value) : list WireCall :=
  messages_wire_call <$> filter (fun block => has_type block "tool_use" = true) (get_list wire "content").

(** The [function_call] items: call id, name, arguments as a JSON text. *)
Definition responses_wire_call (item : Value) : WireCall :=
  (get_str item "call_id", get_str item "name", get_str item "arguments" ≫= json_parse).
Definition responses_wire_calls (wire : Value) : list WireCall :=
  responses_wire_call <$> filter (fun item => has_type item "function_call" = true) (get_list wire "output").

(** A call the gateway understood: id, name, arguments, thought signature. *)
Definition SemanticCall : Type := string * string * Value * option string.
Definition semantic_call (p : LlmContentPart) : option SemanticCall :=
  match p with PartToolCall id name arguments signature => Some (id, name, arguments, signature) | _ => None end.
Definition candidate_calls (c : LlmCandidate) : list SemanticCall := omap semantic_call (lm_parts (lc_message c)).

(** The call on the wire is the call: the name, the arguments, and the id, for
    Chat Completions with the thought signature behind it.  A call without an id
    gets one, but for Messages. *)
Definition call_kept (client : ProtocolKind) (call : SemanticCall) (sent : WireCall) : Prop :=
  let '(id, name, arguments, signature) := call in
  let '(sent_id, sent_name, sent_arguments) := sent in
  sent_name = Some name /\ sent_arguments = Some arguments
  /\ match client with
     | Messages => sent_id = Some id
     | Responses => exists id', sent_id = Some id' /\ id' <> "" /\ (id <> "" -> id' = id)
     | _ => exists id', sent_id = Some (wire_id id' signature) /\ id' <> "" /\ (id <> "" -> id' = id)
     end.

Definition calls_kept (client : ProtocolKind) (semantic : list LlmCandidate) (wire : Value) : Prop :=
  match client with
  | Messages => Forall2 (call_kept Messages) (option_list (head semantic) ≫= candidate_calls) (messages_wire_calls wire)
  | Responses => Forall2 (call_kept Responses) (semantic ≫= candidate_calls) (responses_wire_calls wire)
  | _ => Forall2 (Forall2 (call_kept ChatCompletions))
           (match semantic with [] => [[]] | _ => candidate_calls <$> semantic end) (chat_wire_calls wire)
  end.

(** An id, or the one made up for it. *)
Lemma made_up_id (id made : string) : made <> "" ->
  let id' := if bool_decide (id = "") then made else id in id' <> "" /\ (id <> "" -> id' = id).
Proof. intros Hm. simpl. by case_bool_decide. Qed.

Lemma chat_calls_kept response_id i parts :
  Forall2 (call_kept ChatCompletions) (omap semantic_call parts) (chat_wire_call <$> chat_tool_calls response_id i parts).
Proof.
  revert i. induction parts as [|p l IH]; intros i; [constructor|]. rewrite omap_cons.
  destruct p as [| | |id name arguments signature| |]; cbn [semantic_call chat_tool_calls]; try apply IH.
  rewrite fmap_cons. constructor; [|apply IH]. unfold call_kept, chat_wire_call. simpl.
  rewrite json_text_reads. split; [done|]. split; [done|]. eexists. split; [done|]. by apply made_up_id.
Qed.

Lemma Forall2_images {A B C} (R : B -> C -> Prop) (f : A -> B) (g : A -> C) l :
  (forall x, R (f x) (g x)) -> Forall2 R (f <$> l) (g <$> l).
Proof. intros H. induction l; by constructor. Qed.

Lemma chat_wire_kept now_ms now_s r model :
  calls_kept ChatCompletions (lr_candidates r) (render_chat_response now_ms now_s r model).
Proof.
  unfold calls_kept, chat_wire_calls, render_chat_response, get_list at 2. simpl json_get.
  set (id := default _ (lr_id r)). clearbody id.
  destruct (lr_candidates r) as [|c l]; [repeat constructor|].
  change (match chat_response_choice id <$> c :: l with [] => _ | l => l end) with (chat_response_choice id <$> c :: l).
  rewrite <- list_fmap_compose. apply Forall2_images. intros c'.
  unfold compose, chat_response_choice. simpl json_get. cbn [default]. unfold candidate_calls.
  pose proof (chat_calls_kept id 0 (lm_parts (lc_message c'))) as Hc. unfold chat_message, candidate_tool_calls, get_list.
  destruct (chat_tool_calls id 0 (lm_parts (lc_message c'))) as [|w ws];
    destruct (negb _ || negb _), (bool_decide (candidate_reasoning c' = "")); exact Hc.
Qed.

Lemma has_type_head t rest t' : has_type (JObject (("type", JString t) :: rest)) t' = bool_decide (t = t').
Proof. unfold has_type, get_str. simpl. apply bool_decide_ext. split; [by intros [= ->]|by intros ->]. Qed.

Lemma filter_type_cons t rest t' l : t <> t' ->
  filter (fun v => has_type v t' = true) (JObject (("type", JString t) :: rest) :: l) = filter (fun v => has_type v t' = true) l.
Proof. intros Ht. rewrite filter_cons_False; [done|]. by rewrite has_type_head, bool_decide_eq_false_2. Qed.

Lemma messages_wire_kept r model :
  Forall known_candidate (lr_candidates r) -> calls_kept Messages (lr_candidates r) (render_messages_response r model).
Proof.
  intros Hk. unfold calls_kept, messages_wire_calls, render_messages_response, get_list. simpl json_get.
  destruct Hk as [|c l Hc _]; [constructor|]. change (option_list (head (c :: l)) ≫= candidate_calls) with (candidate_calls c ++ []). rewrite app_nil_r. unfold candidate_calls.
  change (head (c :: l)) with (Some c). cbv beta iota. unfold known_candidate in Hc.
  induction Hc as [|p parts Hp _ IH]; [constructor|]. rewrite !omap_cons.
  destruct p as [text cache| |text signature|id name arguments signature| |]; try done; cbn [semantic_call messages_block].
  - case_bool_decide; [done|]. by rewrite filter_type_cons.
  - rewrite filter_cons_True by done. rewrite fmap_cons. by constructor.
Qed.

Lemma responses_items_kept suffix i parts :
  Forall known_part parts ->
  Forall2 (call_kept Responses) (omap semantic_call parts)
    (responses_wire_call <$> filter (fun item => has_type item "function_call" = true)
       (concat (imap (fun j => responses_part_item suffix (i + j)) parts))).
Proof.
  intros Hk. revert i. induction Hk as [|p l Hp _ IH]; intros i; [constructor|]. rewrite omap_cons. cbn [imap concat].
  rewrite filter_app, fmap_app.
  rewrite (imap_ext _ (fun j => responses_part_item suffix (S i + j))) by (intros; simpl; by rewrite <- Nat.add_succ_r).
  destruct p as [text cache| |text signature|id name arguments signature| |]; try done; cbn [semantic_call responses_part_item].
  - by apply IH.
  - by apply IH.
  - cbn [app]. rewrite filter_type_cons by done. by apply IH.
  - rewrite filter_cons_True by done. rewrite fmap_cons. constructor; [|by apply IH]. unfold call_kept, responses_wire_call.
    simpl. rewrite json_text_reads. split; [done|]. split; [done|]. eexists. split; [done|]. by apply made_up_id.
  - by apply IH.
Qed.

Lemma responses_wire_kept now_s r model :
  Forall known_candidate (lr_candidates r) -> calls_kept Responses (lr_candidates r) (render_responses_response now_s r model).
Proof.
  intros Hk. unfold calls_kept, responses_wire_calls, render_responses_response, get_list. simpl json_get.
  set (suffix := default "proxy" _). clearbody suffix. induction Hk as [|c l Hc _ IH]; [constructor|].
  rewrite !bind_cons, filter_app, fmap_app. apply Forall2_app; [|exact IH]. unfold responses_candidate_items.
  rewrite filter_app, fmap_app. pose proof (responses_items_kept suffix 0 _ Hc) as Hitems. simpl in Hitems.
  case_bool_decide; [exact Hitems|]. rewrite filter_type_cons by done. exact Hitems.
Qed.

(** ** The translated response *)

(** A bridge only serves clients of the three protocols that are rendered. *)
Lemma bridge_client client route :
  bridge_needed client route <> Passthrough -> client = ChatCompletions \/ client = Messages \/ client = Responses.
Proof. unfold bridge_needed. destruct (decide _), client; auto; done. Qed.

Lemma wire_read now_ms now_s client semantic model :
  client = ChatCompletions \/ client = Messages \/ client = Responses ->
  Forall known_candidate (lr_candidates (rp_response semantic)) ->
  exists wire read, response_to_wire now_ms now_s semantic (to_llm_protocol client) model = Ok wire
  /\ understand_response_value client wire = Ok read
  /\ answer_kept client (lr_candidates (rp_response semantic)) (lr_candidates (rp_response read))
  /\ calls_kept client (lr_candidates (rp_response semantic)) wire.
Proof.
  intros [->|[->| ->]] Hk; cbn [to_llm_protocol response_to_wire].
  - destruct (chat_response_read now_ms now_s (rp_response semantic) model) as (read & H1 & H2). eexists. exists read.
    split_and!; [done|done|done|apply chat_wire_kept].
  - destruct (messages_response_read (rp_response semantic) model Hk) as (read & H1 & H2). eexists. exists read.
    split_and!; [done|done|done|by apply messages_wire_kept].
  - destruct (responses_response_read now_s (rp_response semantic) model Hk) as (read & H1 & H2). eexists. exists read.
    split_and!; [done|done|done|by apply responses_wire_kept].
Qed.

(** What a Gemini provider answers is always known. *)
Lemma gemini_answer_known value payload :
  understand_response_value Gemini value = Ok payload -> Forall known_candidate (lr_candidates (rp_response payload)).
Proof.
  destruct value as [| | | | |fields]; try done. intros [= <-]. cbn [rp_response]. generalize (JObject fields). intros v.
  unfold parse_gemini_response. cbn [lr_candidates]. apply imap_Forall. intros i c _. red. unfold gemini_candidate.
  cbn [lc_message lm_parts message_new]. apply imap_Forall. intros j p Hp.
  assert (Hknown : known_part p).
  { destruct (default JNull _) as [| | | |l|]; simpl in Hp; try by apply not_elem_of_nil in Hp.
    apply list_elem_of_omap in Hp as (w & _ & Hw). revert Hw. unfold parse_gemini_part.
    destruct (get_str w "text"); [intros [= <-]; by case_bool_decide|].
    destruct (json_get w "inlineData"); [by intros [= <-]|]. destruct (json_get w "fileData"); [by intros [= <-]|].
    destruct (json_get w "functionCall"); [by intros [= <-]|]. destruct (json_get w "functionResponse"); by intros [= <-]. }
  by destruct p.
Qed.

(** C31: what the gateway understood of a provider's answer reaches the client.
    When a route needs a bridge, a provider's body that is JSON the gateway
    understands is always translated, and the body sent parses as a response of
    the client's own protocol with the same answer: per candidate the same text
    and reasoning for Chat Completions, those of all candidates together for
    Responses, those of the first candidate for Messages.  The calls a client
    reads off the body sent ([tool_calls], [tool_use] blocks, [function_call]
    items) are, in order and no others, the calls understood, each with its name,
    its arguments and its id (for Chat Completions the id with the thought
    signature behind it); a call that came without an id has a non-empty one made
    up, except for Messages, where it stays empty.  A part the gateway has no
    canonical form for is excluded; only a Chat Completions provider can send
    one. *)
Theorem translated_responses_keep_the_answer now_ms now_s client route body model value semantic :
  bridge_needed client route <> Passthrough ->
  json_parse body = Some value ->
  understand_response_value (upstream_protocol (bridge_needed client route) client) value = Ok semantic ->
  Forall known_candidate (lr_candidates (rp_response semantic)) ->
  exists wire read,
    translate_response_for_bridge now_ms now_s (bridge_needed client route) body client model
    = Ok (mkTranslated (json_text wire) semantic)
    /\ json_parse (json_text wire) = Some wire
    /\ understand_response_value client wire = Ok read
    /\ answer_kept client (lr_candidates (rp_response semantic)) (lr_candidates (rp_response read))
    /\ calls_kept client (lr_candidates (rp_response semantic)) wire.
Proof.
  intros Hb Hjson Hsem Hk. destruct (wire_read now_ms now_s client semantic model (bridge_client _ _ Hb) Hk)
    as (wire & read & Hwire & Hread & Hkept & Hcalls).
  exists wire, read. unfold translate_response_for_bridge. rewrite Hjson. simpl. rewrite Hsem. simpl.
  rewrite decide_False, Hwire by done. simpl.
  split_and!; [done|apply json_text_reads|done..].
Qed.

(** An error of a Gemini provider reaches a Messages client with its type and
    its message, whatever the HTTP status. *)
Lemma gemini_error_reaches_messages_client body value status :
  json_parse body = Some value ->
  let root := match value with JArray (first :: _) => first | _ => value end in
  let error := get_or_self root "error" in
  exists wire, translate_error_for_bridge MessagesToGemini body status = Ok (json_text wire)
  /\ json_get wire "type" = Some (JString "error")
  /\ json_get wire "error"
     = Some (JObject [("type", JString (gemini_error_type (get_str error "status")));
                      ("message", JString (default "Gemini request failed" (get_str error "message")))]).
Proof.
  intros Hjson root error. unfold translate_error_for_bridge, translate_gemini_error, openai_error_to_messages.
  rewrite Hjson. simpl. fold root. fold error.
  match goal with |- context [json_parse (json_text ?v)] =>
    pose proof (json_text_parse v) as Hp; rewrite json_text_trim in Hp; rewrite Hp
  end.
  by eexists.
Qed.

End Bridge.

Module BridgeExample.

#[local] Existing Instance value_json.
#[local] Instance numbers_as_written : FloatNumbers := {| to_f64 := fun n => n |}.

Definition gemini_route : ModelRoute :=
  mkModelRoute "gemini-2.5-pro" (Some "gemini") (Some "https://generativelanguage.googleapis.com/v1beta") None None None None.
Definition deepseek_route : ModelRoute :=
  mkModelRoute "deepseek-chat" None (Some "https://api.deepseek.com/v1") None None None None.

(** The routes of the source's tests. *)
Example bridges_of_routes :
  bridge_needed Responses deepseek_route = ResponsesToCompletions
  /\ upstream_path ResponsesToCompletions "/v1/responses" "deepseek-chat" false = Ok "/v1/chat/completions"
  /\ bridge_needed ChatCompletions gemini_route = CompletionsToGemini
  /\ upstream_path CompletionsToGemini "/v1/chat/completions" "gemini-2.5-pro" true
     = Ok "/v1beta/models/gemini-2.5-pro:streamGenerateContent"
  /\ upstream_path CompletionsToGemini "/v1/chat/completions" "../secret" true = Err InvalidModel.
Proof. vm_compute. repeat split. Qed.

Definition answer : Value :=
  JObject [("responseId", JString "r1"); ("modelVersion", JString "gemini-2.5-pro");
    ("candidates", JArray [JObject [("content", JObject [("role", JString "model"); ("parts", JArray
        [JObject [("text", JString "thinking"); ("thought", JBool true)];
         JObject [("text", JString "hel")]; JObject [("text", JString "lo")];
         JObject [("functionCall", JObject [("id", JString "c7"); ("name", JString "shell"); ("args", JObject [("cmd", JString "pwd")])])]])]);
      ("finishReason", JString "STOP")]])].

Definition answer_payload : LlmResponseEventPayload :=
  match understand_response_value Gemini answer with
  | Ok payload => payload
  | Err _ => mkResponsePayload PUnknown (mkLlmResponse None None [] None [])
  end.

Lemma translated_responses_keep_the_answer_witness :
  exists wire read,
    translate_response_for_bridge 0 0 MessagesToGemini (json_text answer) Messages "client"
    = Ok (mkTranslated (json_text wire) answer_payload)
    /\ json_parse (json_text wire) = Some wire
    /\ understand_response_value Messages wire = Ok read
    /\ answer_names (answers (lr_candidates (rp_response read))) = ("hello", "thinking", ["shell"])
    /\ messages_wire_calls wire = [(Some "c7", Some "shell", Some (JObject [("cmd", JString "pwd")]))].
Proof.
  destruct (translated_responses_keep_the_answer 0 0 Messages gemini_route (json_text answer) "client" answer answer_payload)
    as (wire & read & H1 & H2 & H3 & H4 & H5).
  - vm_compute. discriminate.
  - vm_compute. reflexivity.
  - vm_compute. reflexivity.
  - vm_compute. repeat constructor.
  - exists wire, read. split; [exact H1|]. split; [exact H2|]. split; [exact H3|].
    split; [etransitivity; [exact H4|]; vm_compute; reflexivity|].
    revert H5. unfold calls_kept. destruct (messages_wire_calls wire) as [|[[id name] args] [|? ?]]; vm_compute;
      inversion 1 as [|? ? ? ? H6 H7]; subst; [|by inversion H7]. destruct H6 as (-> & -> & ->). reflexivity.
Defined.

End BridgeExample.
